(* ===== verification/_CoqProject ===== *)
-Q . S2P
Prelude.v
FreeQueue.v
Request.v
Hashing.v
Session.v
BlockPool.v
PoolSpecs.v
PoolTheorems.v
Heapq.v
RequestQueue.v
SchedUtils.v
EncoderCache.v
EncoderSched.v
SingleType.v
SingleSpecs.v
SingleTheorems.v
Uncached.v
CacheSpecs.v
CacheHit.v
Coordinator.v
CoordLookup.v
CoordInit.v
CoordSpecs.v
CoordAlloc.v
CoordRelease.v
CoordCache.v
Manager.v
Handover.v
Pools.v
Slots.v
PrefixModel.v
Prefill.v
Lifecycle.v
Ngram.v
Floats.v
Offload.v
OffloadPolicies.v
OffloadArc.v
OffloadManager.v
OffloadStores.v
OffloadTheorems.v
DynamicSD.v
Scheduler.v
ScheduleStep.v
SchedOutput.v
SchedChunks.v
SchedFrame.v
SchedQueues.v
SchedInvariant.v
SchedRunning.v
SchedWaiting.v
SchedBatch.v
SchedFinish.v
SchedProcess.v
SchedLoops.v
SchedManager.v
SchedFaults.v
SchedTheorems.v
SchedCases.v
SchedOwner.v
SchedLog.v
