(* ===== verification/Prelude.v ===== *)
(** * Verification of the KV-cache and scheduling core of vLLM (LvLLM fork)

    vLLM serves language models.  Its engine keeps the attention state of every request in
    fixed-size blocks of GPU memory, shares blocks between requests with a common prefix, and
    decides in every step which requests compute how many tokens.  This library models the
    part of the engine that does this bookkeeping, src/vllm/v1/core with the scheduler and the
    request object, the CPU tier of KV offloading, the n-gram proposer and the schedule of
    dynamic speculative decoding, as pure Rocq functions translated from the Python source,
    and proves that it is correct.

    The scheduler keeps the requests in queues.  A step ([schedule]) asks the KV cache manager
    for the computed prefix and for slots, and the encoder cache manager for space; the output
    of the step comes back to [update_from_output].  The KV cache manager drives one cache
    manager per kind of layer through a coordinator; these take blocks from block pools, which
    keep free blocks in a queue and cached blocks in a table by the hash of their prefix.

    ** Method

    A Python integer is a [Z], with [//] and [%] as [Z.div] and [Z.modulo]; a list is a
    [list], a dict or set whose order is not observed is a stdpp [gmap] or [gset], a dict
    whose order matters is an association list ([dict_get], [dict_set], [dict_del]).  Code
    that may raise returns [res]; a method that mutates [self] is a computation of the state
    and exception monad [M S A], where [S] is the record of the object's attributes; [wp] is
    its total-correctness weakest precondition.  Iteration over a set is modelled for every
    order (class [SetIter]).  Shared mutable blocks are one store that all operations update.
    Hash functions are arguments; cache connectors are any instances of their interface.

    ** Files

    - [Prelude]: exceptions, the monad and its [wp] rules, record update, Python integers,
      sequences, sets and dicts, with the lemmas the components share.
    - [FreeQueue]: FreeKVCacheBlockQueue (kv_cache_utils.py), a doubly linked list with two
      sentinels, as pointers in a store.  It refines a list of block ids.
    - [Request]: the request object (request.py), its statuses and token bookkeeping, and
      the placeholder ranges of multi-modal inputs (multimodal/inputs.py).
    - [Hashing]: block hashes, extra keys and the incremental hasher (kv_cache_utils.py).
      For requests as the constructor makes them, the incremental hasher agrees with hashing
      from scratch, and with collision-free hash functions equal hashes mean equal prefixes,
      but for an adapter's name that passes for a salt.
    - [Session]: continuing a streaming session (scheduler.py, _update_request_as_session).
    - [BlockPool], [PoolSpecs], [PoolTheorems]: the block pool (block_pool.py), its
      invariant, and the transition system of its calls.  Every reachable state satisfies
      the invariant and every legal call succeeds; allocation is exclusive; freeing restores
      the pool; lookups are exact.
    - [Heapq]: the heapq algorithms of the Python library.
    - [RequestQueue]: the waiting queues (sched/request_queue.py): an interface with laws,
      instances for first-come-first-served and priority order, conservation of requests.
    - [SchedUtils]: stop conditions and repetition detection (sched/utils.py).
    - [EncoderCache]: the encoder cache managers (encoder_cache_manager.py): slot
      accounting, references and what the worker holds agree in every reachable state.
    - [EncoderSched]: which encoder inputs a step computes (scheduler.py,
      _try_schedule_encoder_inputs, _free_encoder_inputs): computed tokens find their
      encoder outputs.
    - [SingleType], [SingleSpecs], [SingleTheorems]: the per-layer-type cache managers
      (single_type_kv_cache_manager.py) and what their layers attend to.  Their operations keep
      the reference counts exact; dropping blocks respects the mask.
    - [Uncached], [CacheSpecs]: which blocks a request still fills, that no other request
      has them, and caching the full ones.
    - [CacheHit]: the prefix lookups of the layer types find the longest usable prefix, with
      blocks or parts of blocks as units, with and without an EAGLE drafter.
    - [Coordinator], [CoordLookup], [CoordInit]: the coordinators of several groups of layers
      (kv_cache_coordinator.py), their constructors, and the search for a common prefix.
    - [CoordSpecs], [CoordAlloc], [CoordRelease], [CoordCache]: the invariant of all managers
      on their shared pools, and that allocation, release and caching keep it; the predicted
      number of blocks is enough for the allocation.
    - [Manager]: the KV cache manager (kv_cache_manager.py), the interface of the scheduler,
      and BlockPoolCollection.
    - [Handover], [Pools], [Slots], [PrefixModel], [Prefill]: blocks handed over to the
      caller and released later, operations on all pools, allocate_slots, and the path of a
      new request from the lookup to its slots.
    - [Lifecycle]: all calls of the scheduler on the KV cache manager as a transition system:
      nothing raises, the invariant holds in every reachable state, and no block is lost.
    - [Ngram]: the n-gram proposer of speculative decoding (spec_decode/ngram_proposer.py):
      the failure-table search drafts what an exhaustive search gives, and drafts left in
      the buffers by earlier steps are never returned.
    - [Floats]: Python floats as IEEE binary64 numbers, and bounds on clamped sums.
    - [Offload]: the CPU tier of KV offloading (kv_offload/cpu): the manager and the LRU and
      ARC replacement policies.  [OffloadPolicies] states what a policy promises, and LRU
      keeps it; [OffloadArc] shows that ARC does.  [OffloadManager], [OffloadStores] and
      [OffloadTheorems] verify the manager against the promises alone: slots have one owner,
      blocks being read stay, and no call that follows the protocol raises.

    - [DynamicSD]: the schedule of draft tokens by batch size (spec_decode/dynamic/utils.py):
      which schedules are accepted, and the table that they expand to.
    - [Scheduler], [ScheduleStep], [SchedOutput]: the scheduler and the asynchronous scheduler
      (sched/scheduler.py, sched/async_scheduler.py): the state with shared request objects and
      the operations between steps, [schedule], and [update_from_output].  The KV cache manager,
      the encoder cache manager and the connectors are classes ([KVManager], [EncoderManager],
      [KVConnector], [ECConnector]).
    - [SchedChunks]: where a chunk of a prefill ends.  [SchedFrame], [SchedQueues],
      [SchedInvariant]: partial correctness, the queues as collections of references, and the
      invariant that every unfinished request is in exactly one of them.  [SchedRunning],
      [SchedWaiting], [SchedBatch]: the phases of a step keep it, within the budgets.
      [SchedFinish], [SchedProcess]: so do the other operations.  [SchedLoops]: the loops end.
    - [SchedManager]: [Manager] as the [KVManager] of the scheduler, and a small engine.
    - [SchedFaults]: blocks whose load failed are computed again.
    - [SchedTheorems]: all calls on the scheduler as a transition system, with any managers:
      queues and counters are consistent in every reachable state, a step is within its limits
      and ends, the drafts of a step follow the table.
    - [SchedCases]: two cases that go wrong, with the conditions under which they do: a session
      that is lost, and a padded request that raises.
    - [SchedOwner], [SchedLog]: the scheduler composed with the KV cache manager: every
      reference to a block is in a table or in [deferred_frees].

    ** Bounds and fuel

    Loops over a list are structural.  A loop with another measure takes fuel that the
    definition computes from its input, and a theorem shows that it suffices: one step per
    token for the hasher, one per free block for the enumeration of the free queue, one per
    element for the heap and for binary search, two per token for the n-gram search, and the
    lengths of the queues for the loops of a scheduling step ([schedule_terminates]).
    [OutOfFuel] is never returned on the inputs of the theorems.

    ** Not modelled

    GPU execution (workers, attention, sampling, kernels), models and layers, network and
    process code (engine clients, executors, connectors, HTTP), configuration parsing and
    metrics output: torch, device and I/O code without a pure core.  Of the modelled directories:
    the cache managers of state-space and sink layers; memory planning (get_kv_cache_configs),
    which computes with tensor shapes and byte sizes; in the scheduler, statistics and request
    events, logprobs, sampling masks and routed experts, the block state and boundary-state
    offers handed to a connector, what an encoder-cache connector reports, new_step_starts,
    and shutdown.  Bidirectional multimodal prefixes are not part of what a layer attends to.
    The ownership theorem of [SchedLog] does not cover the lookup for connectors
    with divergent hits.  Time stamps and logging are left out of the modelled functions.
    What the heap looks like after an exception is not described. *)

From Stdlib Require Export ZArith Lia.
From stdpp Require Export gmap strings sorting prelude.

#[global] Open Scope Z_scope.
#[global] Set Warnings "-clear-no-such-hyp".

(** ** Exceptions and results

    A Python call returns a value or raises.  What the heap looks like after an
    exception is not described by the model. *)

Inductive exn :=
  | AssertionError
  | ValueError
  | RuntimeError
  | IndexError
  | KeyError
  | OverflowError
  | AttributeError
  | ZeroDivisionError
  | NameError
  | NotImplementedError
  | StopIteration
  | OutOfFuel (* not a Python exception: a bounded loop of the model ran out *).

Inductive res (A : Type) :=
  | Ok (a : A)
  | Raise (e : exn).
Arguments Ok {A} a.
Arguments Raise {A} e.

#[global] Instance exn_eq_dec : EqDecision exn.
Proof. solve_decision. Defined.
#[global] Instance res_eq_dec `{EqDecision A} : EqDecision (res A).
Proof. solve_decision. Defined.

#[global] Instance res_ret : MRet res := λ A, Ok.
#[global] Instance res_bind : MBind res := λ A B f m,
  match m with Ok a => f a | Raise e => Raise e end.

(** ** The state and exception monad

    Methods that mutate [self] are computations over the state of the object. *)

Definition M (S A : Type) : Type := S → res (A * S).

#[global] Instance M_ret S : MRet (M S) := λ A a s, Ok (a, s).
#[global] Instance M_bind S : MBind (M S) := λ A B f m s,
  match m s with Ok (a, s') => f a s' | Raise e => Raise e end.

Definition raise {S A} (e : exn) : M S A := λ _, Raise e.
Definition gets {S A} (f : S → A) : M S A := λ s, Ok (f s, s).
Definition modify {S} (f : S → S) : M S unit := λ s, Ok (tt, f s).
Definition lift_res {S A} (r : res A) : M S A := λ s,
  match r with Ok a => Ok (a, s) | Raise e => Raise e end.

(** Python's [assert]. *)
Definition assert_ {S} (b : bool) : M S unit :=
  if b then mret tt else raise AssertionError.

(** [for x in xs: body x]. *)
Fixpoint for_ {S A} (xs : list A) (body : A → M S unit) : M S unit :=
  match xs with
  | [] => mret tt
  | x :: xs => _ ← body x; for_ xs body
  end.

(** [for x in xs: acc = body acc x]. *)
Fixpoint for_acc {S A B} (xs : list A) (acc : B) (body : B → A → M S B) : M S B :=
  match xs with
  | [] => mret acc
  | x :: xs => acc' ← body acc x; for_acc xs acc' body
  end.

(** A list comprehension whose element expression has effects. *)
Fixpoint map_m {S A B} (f : A → M S B) (xs : list A) : M S (list B) :=
  match xs with
  | [] => mret []
  | x :: xs => y ← f x; ys ← map_m f xs; mret (y :: ys)
  end.

(** ** Attribute assignment

    [r <| f := v |>] is the record [r] after the assignment [r.f = v], and
    [r <| f ::= g |>] after [r.f = g(r.f)].  A record type opts in with an [Eta]
    instance that rebuilds the record from its fields; the setter of a field is
    computed from it. *)

Class Eta (R : Type) := eta : R → R.
Class Setter {R T : Type} (proj : R → T) := assign : (T → T) → R → R.
Arguments assign {R T} proj {_} f r /.

Ltac build_setter :=
  lazymatch goal with
  | |- @Setter ?R ?T ?proj =>
      let i := constr:(_ : Eta R) in
      let e := eval red in i in
      let s := constr:(λ (f : T → T) (r : R), ltac:(
        let body := eval cbv beta in (e r) in
        lazymatch eval pattern (proj r) in body with
        | ?h _ => let t := eval cbv beta in (h (f (proj r))) in exact t
        end)) in
      exact s
  end.
#[export] Hint Extern 1 (Setter _) => build_setter : typeclass_instances.

Notation "r <| f ::= g |>" := (assign f g r)
  (at level 1, f at next level, left associativity) : stdpp_scope.
Notation "r <| f := v |>" := (assign f (λ _, v) r)
  (at level 1, f at next level, left associativity) : stdpp_scope.

(** ** Weakest preconditions

    [wp m Q s]: run from [s], [m] raises nothing and ends in a result and a state
    that satisfy [Q].  This is total correctness: every computation of the model
    is a total function. *)

Definition wp {S A} (m : M S A) (Q : A → S → Prop) (s : S) : Prop :=
  match m s with Ok (a, s') => Q a s' | Raise _ => False end.

Section wp_rules.
Context {S : Type}.

Lemma wp_ret {A} (a : A) Q (s : S) : Q a s → wp (mret a) Q s.
Proof. done. Qed.

Lemma wp_bind {A B} (m : M S A) (k : A → M S B) Q s :
  wp m (λ a, wp (k a) Q) s → wp (m ≫= k) Q s.
Proof. unfold wp, mbind, M_bind. by destruct (m s) as [[a s']|e]. Qed.

Lemma wp_mono {A} (m : M S A) (Q Q' : A → S → Prop) s :
  wp m Q s → (∀ a s', Q a s' → Q' a s') → wp m Q' s.
Proof. unfold wp. destruct (m s) as [[a s']|e]; auto. Qed.

Lemma wp_gets {A} (f : S → A) Q s : Q (f s) s → wp (gets f) Q s.
Proof. done. Qed.

Lemma wp_modify (f : S → S) Q s : Q tt (f s) → wp (modify f) Q s.
Proof. done. Qed.

Lemma wp_assert (b : bool) Q (s : S) : b = true → Q tt s → wp (assert_ b) Q s.
Proof. by intros ->. Qed.

Lemma wp_lift {A} (r : res A) a Q (s : S) : r = Ok a → Q a s → wp (lift_res r) Q s.
Proof. by intros ->. Qed.

Lemma wp_run {A} (m : M S A) Q s :
  wp m Q s ↔ ∃ a s', m s = Ok (a, s') ∧ Q a s'.
Proof.
  unfold wp. split.
  - destruct (m s) as [[a s']|e]; [eauto|done].
  - by intros (a & s' & -> & HQ).
Qed.

Lemma wp_for {A} (I : list A → S → Prop) (xs : list A) body s :
  I [] s →
  (∀ pre x post s, xs = pre ++ x :: post → I pre s →
     wp (body x) (λ _, I (pre ++ [x])) s) →
  wp (for_ xs body) (λ _, I xs) s.
Proof.
  intros H0 Hstep.
  assert (∀ post pre s, xs = pre ++ post → I pre s →
    wp (for_ post body) (λ _, I xs) s) as Hgen.
  { induction post as [|x post IH]; intros pre s' Heq HI; simpl.
    - apply wp_ret. by rewrite Heq, app_nil_r.
    - apply wp_bind. eapply wp_mono; [by eapply Hstep|]. intros u s'' HI'.
      apply (IH (pre ++ [x])); [|done]. by rewrite <-app_assoc. }
  by apply (Hgen xs []).
Qed.

Lemma wp_for_acc {A B} (I : list A → B → S → Prop) (xs : list A) (acc : B) body s :
  I [] acc s →
  (∀ pre x post acc s, xs = pre ++ x :: post → I pre acc s →
     wp (body acc x) (I (pre ++ [x])) s) →
  wp (for_acc xs acc body) (I xs) s.
Proof.
  intros H0 Hstep.
  assert (∀ post pre acc s, xs = pre ++ post → I pre acc s →
    wp (for_acc post acc body) (I xs) s) as Hgen.
  { induction post as [|x post IH]; intros pre acc' s' Heq HI; simpl.
    - apply wp_ret. by rewrite Heq, app_nil_r.
    - apply wp_bind. eapply wp_mono; [by eapply Hstep|]. intros acc'' s'' HI'.
      apply (IH (pre ++ [x])); [|done]. by rewrite <-app_assoc. }
  by apply (Hgen xs []).
Qed.

Lemma wp_map_m {A B} (I : list A → list B → S → Prop) (xs : list A) (f : A → M S B) s :
  I [] [] s →
  (∀ pre x post ys s, xs = pre ++ x :: post → I pre ys s →
     wp (f x) (λ y, I (pre ++ [x]) (ys ++ [y])) s) →
  wp (map_m f xs) (I xs) s.
Proof.
  intros H0 Hstep.
  assert (∀ post pre ys s, xs = pre ++ post → I pre ys s →
    wp (map_m f post) (λ zs, I xs (ys ++ zs)) s) as Hgen.
  { induction post as [|x post IH]; intros pre ys s' Heq HI; simpl.
    - apply wp_ret. by rewrite Heq, !app_nil_r.
    - apply wp_bind. eapply wp_mono; [by eapply Hstep|]. intros y s'' HI'.
      apply wp_bind. eapply wp_mono.
      { apply (IH (pre ++ [x])); [|exact HI']. by rewrite <-app_assoc. }
      simpl. intros zs s3 HI3. apply wp_ret.
      by rewrite (cons_middle y), app_assoc. }
  eapply wp_mono; [by apply (Hgen xs [] [])|]. done.
Qed.
End wp_rules.

(** One step of symbolic execution. *)
Ltac wp_step :=
  lazymatch goal with
  | |- wp (mbind _ _) _ _ => apply wp_bind
  | |- wp (mret _) _ _ => apply wp_ret
  | |- wp (gets _) _ _ => apply wp_gets
  | |- wp (modify _) _ _ => apply wp_modify
  | |- wp (assert_ _) _ _ => apply wp_assert
  | |- wp (let _ := _ in _) _ _ => cbv zeta
  end.
Ltac wp_steps := repeat wp_step.

(** Decide every test in the goal. *)
Ltac case_all :=
  repeat (simplify_eq/=; first [case_decide | case_bool_decide]); simplify_eq/=; rewrite ?andb_true_r, ?orb_false_r; try naive_solver.

(** ** Python integers

    [//] and [%] are floor division and its remainder, which are [Z.div] and
    [Z.modulo] for every non-zero divisor. *)

Notation "a // b" := (Z.div a b) (at level 40, left associativity) : Z_scope.

(** [range(a, b)] *)
Definition range (a b : Z) : list Z :=
  (λ k : nat, a + Z.of_nat k) <$> seq 0 (Z.to_nat (b - a)).

(** [range(a, b, -1)]: [a, a - 1, ..., b + 1] *)
Definition range_down (a b : Z) : list Z :=
  (λ k : nat, a - Z.of_nat k) <$> seq 0 (Z.to_nat (a - b)).

(** ** Python sequences *)

Definition len {A} (l : list A) : Z := Z.of_nat (length l).

(** [l[i]]: a negative index counts from the end. *)
Definition index {A} (l : list A) (i : Z) : res A :=
  let j := if decide (i < 0) then i + len l else i in
  if decide (0 ≤ j) then
    match l !! Z.to_nat j with Some x => Ok x | None => Raise IndexError end
  else Raise IndexError.

(** The position a slice bound denotes. *)
Definition slice_pos {A} (l : list A) (i : Z) : nat :=
  Z.to_nat (if decide (i < 0) then Z.max 0 (i + len l) else Z.min i (len l)).

(** [l[a:b]], [l[a:]] and [l[:b]] *)
Definition slice {A} (l : list A) (a b : Z) : list A :=
  take (slice_pos l b - slice_pos l a) (drop (slice_pos l a) l).
Definition slice_from {A} (l : list A) (a : Z) : list A := drop (slice_pos l a) l.
Definition slice_to {A} (l : list A) (b : Z) : list A := take (slice_pos l b) l.

Lemma elem_of_range a b i : i ∈ range a b ↔ a ≤ i < b.
Proof.
  unfold range. rewrite list_elem_of_fmap. setoid_rewrite elem_of_seq. split.
  - intros (k & -> & Hk). lia.
  - intros Hi. exists (Z.to_nat (i - a)). lia.
Qed.

Lemma range_cons a b : a < b → range a b = a :: range (a + 1) b.
Proof.
  intros Hab. unfold range. replace (Z.to_nat (b - a)) with (S (Z.to_nat (b - (a + 1)))) by lia.
  rewrite <-cons_seq, <-fmap_S_seq, fmap_cons, <-list_fmap_compose. f_equal; [lia|].
  apply list_fmap_ext. intros i x _. simpl. lia.
Qed.

Lemma range_nil a b : b ≤ a → range a b = [].
Proof. intros. unfold range. by replace (Z.to_nat (b - a)) with 0%nat by lia. Qed.

Lemma filter_all {A} (P : A → Prop) `{∀ x, Decision (P x)} (l : list A) :
  (∀ x, x ∈ l → P x) → filter P l = l.
Proof.
  induction l as [|a l IH]; intros Hl; [done|]. rewrite filter_cons_True by (apply Hl; by left).
  f_equal. apply IH. intros x Hx. apply Hl. by right.
Qed.

(** The smallest element. *)
Lemma foldl_min_spec xs x : (∀ y, y = x ∨ y ∈ xs → foldl Z.min x xs ≤ y) ∧
  (foldl Z.min x xs = x ∨ foldl Z.min x xs ∈ xs).
Proof.
  revert x. induction xs as [|z xs IH]; intros x; cbn [foldl].
  - split; [intros y [-> | ?%elem_of_nil]; [lia|done]|by left].
  - destruct (IH (Z.min x z)) as [Hle Hin]. split.
    + pose proof (Hle (Z.min x z) ltac:(by left)).
      intros y [-> | [->|Hy]%elem_of_cons]; [lia..|]. apply Hle. by right.
    + destruct Hin as [-> | Hin]; [|right; by right].
      destruct (Z.min_spec x z) as [[_ ->] | [_ ->]]; [by left|right; by left].
Qed.

(** Sums of integers. *)
Definition sumZ (l : list Z) : Z := foldr Z.add 0 l.

Lemma sumZ_cons n l : sumZ (n :: l) = n + sumZ l.
Proof. done. Qed.

Lemma sumZ_app l1 l2 : sumZ (l1 ++ l2) = sumZ l1 + sumZ l2.
Proof. induction l1 as [|n l1 IH]; simpl; [done|]. rewrite IH. lia. Qed.

Lemma sumZ_nonneg l : (∀ n, n ∈ l → 0 ≤ n) → 0 ≤ sumZ l.
Proof.
  induction l as [|n l IH]; intros Hl; simpl; [lia|].
  pose proof (Hl n ltac:(by left)). assert (0 ≤ sumZ l); [|lia]. apply IH.
  intros m Hm. apply Hl. by right.
Qed.

Lemma sumZ_insert l i x y : l !! i = Some x → sumZ (<[i := y]> l) = sumZ l - x + y.
Proof.
  revert i. induction l as [|z l IH]; intros [|i] Hi; simpl in *; try done.
  - injection Hi as ->. lia.
  - rewrite (IH i Hi). lia.
Qed.

Lemma sumZ_lookup_le l i x : (∀ n, n ∈ l → 0 ≤ n) → l !! i = Some x → x ≤ sumZ l.
Proof.
  revert i. induction l as [|z l IH]; intros [|i] Hl Hi; simpl in *; try done.
  - injection Hi as ->. assert (0 ≤ sumZ l); [|unfold sumZ in *; lia].
    apply sumZ_nonneg. intros n Hn. apply Hl. by right.
  - pose proof (Hl z ltac:(by left)). assert (x ≤ sumZ l); [|unfold sumZ in *; lia].
    apply (IH i); [|done]. intros n Hn. apply Hl. by right.
Qed.

Lemma range_take a b k : 0 ≤ k ≤ b - a → take (Z.to_nat k) (range a b) = range a (a + k).
Proof.
  intros Hk. unfold range. rewrite <-fmap_take, take_seq. do 2 f_equal. lia.
Qed.

Lemma range_down_cons a b : b < a → range_down a b = a :: range_down (a - 1) b.
Proof.
  intros Hab. unfold range_down.
  replace (Z.to_nat (a - b)) with (S (Z.to_nat (a - 1 - b))) by lia.
  rewrite <-cons_seq, <-fmap_S_seq, fmap_cons, <-list_fmap_compose. f_equal; [lia|].
  apply list_fmap_ext. intros i x _. simpl. lia.
Qed.

Lemma range_down_nil a b : a ≤ b → range_down a b = [].
Proof. intros. unfold range_down. by replace (Z.to_nat (a - b)) with 0%nat by lia. Qed.

Lemma range_sorted a b : StronglySorted Z.lt (range a b).
Proof.
  remember (Z.to_nat (b - a)) as n eqn:Hn. revert a Hn. induction n as [|n IH]; intros a Hn.
  - rewrite range_nil by lia. constructor.
  - rewrite range_cons by lia. constructor; [apply IH; lia|]. apply Forall_forall.
    intros i Hi%elem_of_range. lia.
Qed.

Lemma range_NoDup a b : NoDup (range a b).
Proof. unfold range. apply NoDup_fmap_2; [intros x y; lia|apply NoDup_seq]. Qed.

Section seq_lemmas.
Context {A : Type}.
Implicit Types l : list A.

Lemma len_nil : len (A := A) [] = 0.
Proof. done. Qed.
Lemma len_cons x l : len (x :: l) = len l + 1.
Proof. unfold len. simpl. lia. Qed.
Lemma len_app l1 l2 : len (l1 ++ l2) = len l1 + len l2.
Proof. unfold len. rewrite length_app. lia. Qed.
Lemma len_nonneg l : 0 ≤ len l.
Proof. unfold len. lia. Qed.

Lemma index_nonneg l i : 0 ≤ i →
  index l i = match l !! Z.to_nat i with Some x => Ok x | None => Raise IndexError end.
Proof.
  intros. unfold index. rewrite (decide_False (P := i < 0)) by lia.
  cbv zeta. by rewrite decide_True.
Qed.

Lemma index_Ok l i x : 0 ≤ i → index l i = Ok x ↔ l !! Z.to_nat i = Some x.
Proof. intros. rewrite index_nonneg by done. destruct (l !! Z.to_nat i); naive_solver. Qed.

Lemma index_in_range l i : 0 ≤ i < len l → ∃ x, index l i = Ok x ∧ l !! Z.to_nat i = Some x.
Proof.
  intros [Hi Hl]. destruct (lookup_lt_is_Some_2 l (Z.to_nat i)) as [x Hx].
  { unfold len in Hl. lia. }
  exists x. by rewrite index_Ok.
Qed.

Lemma slice_pos_in l i : 0 ≤ i ≤ len l → slice_pos l i = Z.to_nat i.
Proof. intros. unfold slice_pos. rewrite decide_False by lia. f_equal. lia. Qed.

Lemma slice_in l a b : 0 ≤ a ≤ b → b ≤ len l →
  slice l a b = take (Z.to_nat (b - a)) (drop (Z.to_nat a) l).
Proof. intros. unfold slice. rewrite !slice_pos_in by lia. f_equal. lia. Qed.

Lemma slice_app_l l l' a b : 0 ≤ a ≤ b → b ≤ len l → slice (l ++ l') a b = slice l a b.
Proof.
  intros. pose proof (len_nonneg l'). rewrite !slice_in by (rewrite ?len_app; lia).
  unfold len in *. rewrite drop_app_le by lia. rewrite take_app_le; [done|].
  rewrite length_drop. lia.
Qed.

Lemma slice_to_suffix l1 l2 : l2 ≠ [] → slice_to (l1 ++ l2) (- len l2) = l1.
Proof.
  intros Hl2. unfold slice_to, slice_pos.
  assert (0 < len l2) by (destruct l2; [done|]; rewrite len_cons; pose proof (len_nonneg l2); lia).
  rewrite decide_True by lia. rewrite len_app. apply take_app_length'. unfold len. lia.
Qed.

Lemma slice_from_suffix l1 l2 : l2 ≠ [] → slice_from (l1 ++ l2) (- len l2) = l2.
Proof.
  intros Hl2. unfold slice_from, slice_pos.
  assert (0 < len l2) by (destruct l2; [done|]; rewrite len_cons; pose proof (len_nonneg l2); lia).
  rewrite decide_True by lia. rewrite len_app. apply drop_app_length'. unfold len. lia.
Qed.
End seq_lemmas.

Lemma index_last {A} (l : list A) x : index (l ++ [x]) (-1) = Ok x.
Proof.
  unfold index. cbv zeta. rewrite (decide_True (P := -1 < 0)) by lia.
  replace (-1 + len (l ++ [x])) with (Z.of_nat (length l))
    by (unfold len; rewrite length_app; cbn [length]; lia).
  rewrite decide_True, Nat2Z.id, lookup_app_r, Nat.sub_diag by lia. done.
Qed.

(** The number of occurrences of [x] in [l]. *)
Definition occ {A} `{EqDecision A} (x : A) (l : list A) : Z := len (filter (λ y, y = x) l).

Section occ.
Context {A : Type} `{EqDecision A}.
Implicit Types (x y : A) (l : list A).

Lemma occ_nil x : occ x [] = 0.
Proof. done. Qed.
Lemma occ_cons x y l : occ x (y :: l) = occ x l + (if decide (y = x) then 1 else 0).
Proof. unfold occ. rewrite filter_cons. case_decide; rewrite ?len_cons; lia. Qed.
Lemma occ_app x l1 l2 : occ x (l1 ++ l2) = occ x l1 + occ x l2.
Proof. unfold occ. by rewrite filter_app, len_app. Qed.
Lemma occ_nonneg x l : 0 ≤ occ x l.
Proof. apply len_nonneg. Qed.
Lemma occ_pos x l : x ∈ l ↔ 0 < occ x l.
Proof.
  induction l as [|y l IH]; [rewrite elem_of_nil, occ_nil; lia|].
  rewrite elem_of_cons, occ_cons, IH. pose proof (occ_nonneg x l).
  case_decide; [split; [lia|auto]|]. split; [intros [->|]; [done|lia]|]. intros. right. lia.
Qed.
Lemma occ_zero x l : x ∉ l → occ x l = 0.
Proof. rewrite occ_pos. pose proof (occ_nonneg x l). lia. Qed.
#[global] Instance occ_proper x : Proper ((≡ₚ) ==> (=)) (occ x).
Proof. intros l1 l2 Hp. unfold occ, len. by rewrite Hp. Qed.
Lemma occ_NoDup x l : NoDup l → occ x l = if decide (x ∈ l) then 1 else 0.
Proof.
  induction 1 as [|y l Hy Hl IH]; [done|]. rewrite occ_cons, IH.
  destruct (decide (x ∈ l)), (decide (y = x)), (decide (x ∈ y :: l)); set_solver.
Qed.
End occ.

(** ** Sets

    Python iterates over a set in an order the program does not control.  Code that
    iterates over a set is modelled for every such order: the class fixes one
    enumeration of each set. *)

Class SetIter := {
  iter_set : ∀ {K} `{Countable K}, gset K → list K;
  iter_set_perm : ∀ {K} `{Countable K} (X : gset K), iter_set X ≡ₚ elements X
}.

Lemma elem_of_iter_set `{SetIter} `{Countable K} (X : gset K) x : x ∈ iter_set X ↔ x ∈ X.
Proof. by rewrite iter_set_perm, elem_of_elements. Qed.

Lemma NoDup_iter_set `{SetIter} `{Countable K} (X : gset K) : NoDup (iter_set X).
Proof. rewrite iter_set_perm. apply NoDup_elements. Qed.

(** One enumeration, to run the definitions. *)
Definition elements_iter : SetIter :=
  {| iter_set := λ K _ _ X, elements X; iter_set_perm := λ K _ _ X, Permutation_refl _ |}.

(** ** Sums over maps *)

Section map_sum.
Context `{Countable K} {V : Type} (f : K → V → Z).
Implicit Types d : gmap K V.

Definition map_sum d : Z := map_fold (λ k v n, f k v + n) 0 d.

Lemma map_sum_empty : map_sum ∅ = 0.
Proof. apply map_fold_empty. Qed.

Lemma map_sum_insert_new d k v : d !! k = None → map_sum (<[k := v]> d) = f k v + map_sum d.
Proof. intros Hk. unfold map_sum. rewrite map_fold_insert_L; [done| |done]. intros; lia. Qed.

Lemma map_sum_delete d k v : d !! k = Some v → map_sum (delete k d) = map_sum d - f k v.
Proof.
  intros Hk. pose proof (map_sum_insert_new (delete k d) k v (lookup_delete_eq _ _)) as Hd.
  rewrite insert_delete_id in Hd by done. lia.
Qed.

Lemma map_sum_update d k v v' :
  d !! k = Some v → map_sum (<[k := v']> d) = map_sum d - f k v + f k v'.
Proof.
  intros Hk. rewrite <-insert_delete_eq, map_sum_insert_new by apply lookup_delete_eq.
  rewrite (map_sum_delete d k v) by done. lia.
Qed.

Lemma map_sum_zero d : (∀ k v, d !! k = Some v → f k v = 0) → map_sum d = 0.
Proof.
  induction d as [|k v d Hk IH] using map_ind; intros Hz; [apply map_sum_empty|].
  rewrite map_sum_insert_new, (Hz k v), IH; [done| |by rewrite lookup_insert_eq|done].
  intros k' v' Hk'. apply Hz. rewrite lookup_insert_ne; [done|]. intros ->. congruence.
Qed.

Lemma map_sum_nonneg d : (∀ k v, d !! k = Some v → 0 ≤ f k v) → 0 ≤ map_sum d.
Proof.
  induction d as [|k v d Hk IH] using map_ind; intros Hd; [by rewrite map_sum_empty|].
  rewrite map_sum_insert_new by done. pose proof (Hd k v (lookup_insert_eq _ _ _)).
  enough (0 ≤ map_sum d) by lia. apply IH. intros k' v' Hl. apply (Hd k').
  rewrite lookup_insert_ne by congruence. done.
Qed.
End map_sum.

(** ** Insertion-ordered dictionaries

    Python's [dict] and [OrderedDict] where the iteration order is observable:
    assigning to a present key keeps its position, a new key goes to the end. *)

Section dict.
Context {K V : Type} `{EqDecision K}.
Implicit Types (d : list (K * V)) (k : K) (v : V).

Fixpoint dict_get d k : option V :=
  match d with
  | [] => None
  | (k', v) :: d => if decide (k = k') then Some v else dict_get d k
  end.

Fixpoint dict_set d k v : list (K * V) :=
  match d with
  | [] => [(k, v)]
  | (k', v') :: d => if decide (k = k') then (k', v) :: d else (k', v') :: dict_set d k v
  end.

Fixpoint dict_del d k : list (K * V) :=
  match d with
  | [] => []
  | (k', v') :: d => if decide (k = k') then d else (k', v') :: dict_del d k
  end.

(** [d.setdefault(k, v)] *)
Definition dict_setdefault d k v : list (K * V) :=
  match dict_get d k with Some _ => d | None => d ++ [(k, v)] end.

(** [OrderedDict.move_to_end]; the caller checks that the key is present. *)
Definition dict_move_to_end d k : list (K * V) :=
  match dict_get d k with Some v => dict_del d k ++ [(k, v)] | None => d end.

Lemma dict_get_set_eq d k v : dict_get (dict_set d k v) k = Some v.
Proof. induction d as [|[k' v'] d IH]; simpl; repeat (case_decide; simpl; try done). Qed.

Lemma dict_get_set_ne d k k' v : k ≠ k' → dict_get (dict_set d k v) k' = dict_get d k'.
Proof.
  intros. induction d as [|[k2 v2] d IH]; simpl;
    repeat (case_decide; simpl; subst; try done).
Qed.

Lemma dict_get_set d k k' v :
  dict_get (dict_set d k v) k' = if decide (k = k') then Some v else dict_get d k'.
Proof. case_decide; subst; [apply dict_get_set_eq|by apply dict_get_set_ne]. Qed.

Lemma dict_get_del_ne d k k' : k ≠ k' → dict_get (dict_del d k) k' = dict_get d k'.
Proof.
  intros. induction d as [|[k2 v2] d IH]; simpl; [done|].
  destruct (decide (k = k2)) as [<-|]; simpl; [by rewrite decide_False|].
  by rewrite IH.
Qed.

Lemma dict_get_elem d k v : dict_get d k = Some v → (k, v) ∈ d.
Proof.
  induction d as [|[k' v'] d IH]; csimpl; [done|].
  case_decide; intros; simplify_eq; set_solver.
Qed.

Lemma dict_get_None d k : dict_get d k = None ↔ k ∉ d.*1.
Proof.
  induction d as [|[k' v'] d IH]; csimpl; [set_solver|].
  case_decide; subst; [set_solver|]. rewrite IH. set_solver.
Qed.

Lemma dict_get_is_Some d k : is_Some (dict_get d k) ↔ k ∈ d.*1.
Proof.
  destruct (decide (k ∈ d.*1)) as [Hin|Hin].
  - split; [done|]. intros _. apply not_eq_None_Some. by intros ?%dict_get_None.
  - split; [|done]. intros [v Hv]. apply dict_get_None in Hin. congruence.
Qed.

Lemma dict_get_app d1 d2 k :
  dict_get (d1 ++ d2) k = match dict_get d1 k with Some v => Some v | None => dict_get d2 k end.
Proof. induction d1 as [|[k' v'] d1 IH]; simpl; [done|]. by case_decide. Qed.

Lemma dict_elem_get d k v : NoDup d.*1 → (k, v) ∈ d → dict_get d k = Some v.
Proof.
  induction d as [|[k' v'] d IH]; csimpl; [set_solver|].
  intros [Hni Hnd]%NoDup_cons [?|Hin]%elem_of_cons; simplify_eq.
  - by rewrite decide_True.
  - rewrite decide_False; [by apply IH|]. intros ->.
    apply Hni, list_elem_of_fmap. by exists (k', v).
Qed.

Lemma dict_set_keys_None d k v : dict_get d k = None → dict_set d k v = d ++ [(k, v)].
Proof.
  induction d as [|[k' v'] d IH]; csimpl; [done|].
  case_decide; [done|]. intros. by rewrite IH.
Qed.

Lemma dict_set_keys_Some d k v : is_Some (dict_get d k) → (dict_set d k v).*1 = d.*1.
Proof.
  induction d as [|[k' v'] d IH]; csimpl; [by intros []|].
  case_decide; [done|]. intros. csimpl. by rewrite IH.
Qed.

Lemma dict_set_NoDup d k v : NoDup d.*1 → NoDup (dict_set d k v).*1.
Proof.
  intros Hnd. destruct (dict_get d k) eqn:Hk.
  - by rewrite dict_set_keys_Some.
  - rewrite dict_set_keys_None by done. rewrite fmap_app. simpl.
    apply NoDup_app. apply dict_get_None in Hk. split_and!; [done| |apply NoDup_singleton].
    set_solver.
Qed.

Lemma dict_del_sublist d k : dict_del d k `sublist_of` d.
Proof.
  induction d as [|[k' v'] d IH]; csimpl; [done|].
  case_decide; [by apply sublist_cons|by apply sublist_skip].
Qed.

Lemma dict_del_NoDup d k : NoDup d.*1 → NoDup (dict_del d k).*1.
Proof.
  intros Hnd. eapply sublist_NoDup; [exact Hnd|]. by rewrite dict_del_sublist.
Qed.

Lemma dict_get_del_eq d k : NoDup d.*1 → dict_get (dict_del d k) k = None.
Proof.
  induction d as [|[k' v'] d IH]; csimpl; [done|]. intros [Hni Hnd]%NoDup_cons.
  case_decide; subst; csimpl; [by apply dict_get_None|]. rewrite decide_False; auto.
Qed.

Lemma dict_get_del d k k' : NoDup d.*1 →
  dict_get (dict_del d k) k' = if decide (k = k') then None else dict_get d k'.
Proof.
  intros. case_decide; subst; [by apply dict_get_del_eq|by apply dict_get_del_ne].
Qed.

Lemma dict_del_perm d k v : dict_get d k = Some v → d ≡ₚ (k, v) :: dict_del d k.
Proof.
  induction d as [|[k' v'] d IH]; csimpl; [done|].
  case_decide; intros; simplify_eq; [done|].
  rewrite Permutation_swap. by apply Permutation_skip, IH.
Qed.

Lemma dict_del_None d k : dict_get d k = None → dict_del d k = d.
Proof.
  induction d as [|[k' v'] d IH]; csimpl; [done|].
  case_decide; [done|]. intros. by rewrite IH.
Qed.
End dict.
