(* ===== verification/FreeQueue.v ===== *)
(** * The free block queue (src/vllm/v1/core/kv_cache_utils.py)

    [KVCacheBlock], the metadata object of one KV-cache block, and
    [FreeKVCacheBlockQueue], the doubly linked list threaded through the blocks'
    own [prev_free_block] and [next_free_block] attributes between two sentinel
    blocks.  Blocks are heap objects with identity, so the model keeps a store
    from references to block records and every operation reads and writes
    attributes of that store in the order of the source.

    The abstract value of the queue is the list of free block ids in eviction
    order.  [queue_repr] relates a store to that list, and each operation is
    shown to implement the corresponding list operation. *)

From S2P Require Import Prelude.

(** Raw bytes, each in [0, 256). *)
Abbreviation bytes := (list Z).

(** References to [KVCacheBlock] objects: the two sentinels of the queue and the
    pool's blocks, named by their [block_id]. *)
Inductive ptr :=
  | FakeHead
  | FakeTail
  | Block (i : nat).

#[global] Instance ptr_eq_dec : EqDecision ptr.
Proof. solve_decision. Defined.
#[global] Instance ptr_countable : Countable ptr.
Proof.
  refine (inj_countable'
    (λ p, match p with FakeHead => None | FakeTail => Some None | Block i => Some (Some i) end)
    (λ o, match o with None => FakeHead | Some None => FakeTail | Some (Some i) => Block i end) _).
  by intros [].
Defined.

(** [block_id] is assigned by the constructor only: [-1] for the sentinels. *)
Definition block_id (p : ptr) : Z :=
  match p with Block i => Z.of_nat i | _ => -1 end.

Record KVCacheBlock := mkKVCacheBlock {
  ref_cnt : Z;
  _block_hash : option bytes;
  _block_hash_num_tokens : option Z;
  prev_free_block : option ptr;
  next_free_block : option ptr;
  is_null : bool;
  block_pool_id : Z
}.

(** [KVCacheBlock(block_id, pool_id=pool_id)] *)
Definition new_block (pool_id : Z) : KVCacheBlock :=
  mkKVCacheBlock 0 None None None None false pool_id.

#[global] Instance KVCacheBlock_inhabited : Inhabited KVCacheBlock :=
  populate (new_block 0).

#[global] Instance KVCacheBlock_eta : Eta KVCacheBlock := λ b,
  mkKVCacheBlock (ref_cnt b) (_block_hash b) (_block_hash_num_tokens b)
    (prev_free_block b) (next_free_block b) (is_null b) (block_pool_id b).

Definition with_prev (v : option ptr) (b : KVCacheBlock) : KVCacheBlock :=
  b <| prev_free_block := v |>.
Definition with_next (v : option ptr) (b : KVCacheBlock) : KVCacheBlock :=
  b <| next_free_block := v |>.

(** ** The queue object and its store *)

Record FreeKVCacheBlockQueue := mkQueue {
  store : gmap ptr KVCacheBlock;
  num_free_blocks : Z
}.

Definition obj (q : FreeKVCacheBlockQueue) (p : ptr) : KVCacheBlock := store q !!! p.

Definition update_obj (p : ptr) (f : KVCacheBlock → KVCacheBlock)
    (q : FreeKVCacheBlockQueue) : FreeKVCacheBlockQueue :=
  mkQueue (<[p := f (obj q p)]> (store q)) (num_free_blocks q).

Definition add_num_free (n : Z) (q : FreeKVCacheBlockQueue) : FreeKVCacheBlockQueue :=
  mkQueue (store q) (num_free_blocks q + n).

Abbreviation Q := (M FreeKVCacheBlockQueue).

Definition get_prev (p : ptr) : Q (option ptr) := gets (λ q, prev_free_block (obj q p)).
Definition get_next (p : ptr) : Q (option ptr) := gets (λ q, next_free_block (obj q p)).
Definition set_prev (p : ptr) (v : option ptr) : Q unit := modify (update_obj p (with_prev v)).
Definition set_next (p : ptr) (v : option ptr) : Q unit := modify (update_obj p (with_next v)).

(** Reading an attribute of [None] raises. *)
Definition deref (o : option ptr) : Q ptr :=
  match o with Some p => mret p | None => raise AttributeError end.

(** [FreeKVCacheBlockQueue.__init__] *)
Definition queue_init (blocks : list ptr) : Q unit :=
  _ ← modify (λ q, mkQueue (store q) (len blocks));
  let n := len blocks in
  _ ← for_ (range 0 n) (λ i,
        b ← lift_res (index blocks i);
        _ ← (if decide (i > 0) then
               p ← lift_res (index blocks (i - 1)); set_prev b (Some p)
             else mret tt);
        if decide (i < n - 1) then
          s ← lift_res (index blocks (i + 1)); set_next b (Some s)
        else mret tt);
  _ ← modify (update_obj FakeHead (λ _, new_block 0));
  _ ← modify (update_obj FakeTail (λ _, new_block 0));
  if decide (n > 0) then
    first ← lift_res (index blocks 0);
    last ← lift_res (index blocks (-1));
    _ ← set_next FakeHead (Some first);
    _ ← set_prev first (Some FakeHead);
    _ ← set_prev FakeTail (Some last);
    set_next last (Some FakeTail)
  else
    _ ← set_next FakeHead (Some FakeTail);
    set_prev FakeTail (Some FakeHead).

Definition popleft : Q ptr :=
  h ← get_next FakeHead;
  if decide (h = Some FakeTail ∨ h = None) then
    n ← gets num_free_blocks;
    _ ← assert_ (n =? 0);
    raise ValueError
  else
    first_block ← deref h;
    nx ← get_next first_block;
    match nx with
    | None => raise RuntimeError
    | Some n =>
        _ ← set_next FakeHead (Some n);
        _ ← set_prev n (Some FakeHead);
        _ ← set_prev first_block None;
        _ ← set_next first_block None;
        _ ← modify (add_num_free (-1));
        mret first_block
    end.

Definition popleft_n (n : Z) : Q (list ptr) :=
  if decide (n = 0) then mret [] else
  k ← gets num_free_blocks;
  _ ← assert_ (n <=? k);
  _ ← modify (add_num_free (- n));
  curr_block ← get_next FakeHead;
  '(ret, curr_block) ← for_acc (range 0 n) ([], curr_block) (λ acc _,
    let '(ret, curr_block) := acc in
    _ ← assert_ (bool_decide (curr_block ≠ None));
    last_block ← deref curr_block;
    curr_block ← get_next last_block;
    _ ← set_prev last_block None;
    _ ← set_next last_block None;
    mret (ret ++ [last_block], curr_block));
  _ ← match curr_block with
      | Some c => _ ← set_next FakeHead (Some c); set_prev c (Some FakeHead)
      | None => mret tt
      end;
  mret ret.

Definition remove (block : ptr) : Q unit :=
  p ← get_prev block;
  n ← get_next block;
  match p, n with
  | Some p, Some n =>
      _ ← set_next p (Some n);
      _ ← set_prev n (Some p);
      _ ← set_prev block None;
      _ ← set_next block None;
      modify (add_num_free (-1))
  | _, _ => raise RuntimeError
  end.

Definition append (block : ptr) : Q unit :=
  l ← get_prev FakeTail;
  match l with
  | None => raise RuntimeError
  | Some last_block =>
      _ ← set_next last_block (Some block);
      _ ← set_prev block (Some last_block);
      _ ← set_next block (Some FakeTail);
      _ ← set_prev FakeTail (Some block);
      modify (add_num_free 1)
  end.

Definition prepend_n (blocks : list ptr) : Q unit :=
  if decide (len blocks = 0) then mret tt else
  first_block ← get_next FakeHead;
  _ ← assert_ (bool_decide (first_block ≠ None));
  first_block ← deref first_block;
  prev_block ← for_acc blocks FakeHead (λ prev_block block,
    _ ← set_prev block (Some prev_block);
    _ ← set_next prev_block (Some block);
    mret block);
  _ ← set_next prev_block (Some first_block);
  _ ← set_prev first_block (Some prev_block);
  modify (add_num_free (len blocks)).

Definition append_n (blocks : list ptr) : Q unit :=
  if decide (len blocks = 0) then mret tt else
  last_block ← get_prev FakeTail;
  _ ← assert_ (bool_decide (last_block ≠ None));
  last_block ← deref last_block;
  last_block ← for_acc blocks last_block (λ last_block block,
    _ ← set_prev block (Some last_block);
    _ ← set_next last_block (Some block);
    mret block);
  _ ← set_next last_block (Some FakeTail);
  _ ← set_prev FakeTail (Some last_block);
  modify (add_num_free (len blocks)).

(** The [while] loop of [get_all_free_blocks]. *)
Fixpoint collect_free (fuel : nat) (ret : list ptr) (curr_block : ptr) : Q (list ptr) :=
  match fuel with
  | O => raise OutOfFuel
  | S fuel =>
      nx ← get_next curr_block;
      match nx with
      | None => mret ret
      | Some n => collect_free fuel (ret ++ [curr_block]) n
      end
  end.

Definition get_all_free_blocks (fuel : nat) : Q (list ptr) :=
  h ← get_next FakeHead;
  match h with
  | None => raise RuntimeError
  | Some curr_block => collect_free fuel [] curr_block
  end.

(** The blocks the generator [iter_blocks_after] yields while the queue is not
    changed. *)
Fixpoint iter_from (fuel : nat) (curr_block : option ptr) : Q (list ptr) :=
  match curr_block with
  | None | Some FakeTail => mret []
  | Some p =>
      match fuel with
      | O => raise OutOfFuel
      | S fuel => nx ← get_next p; ps ← iter_from fuel nx; mret (p :: ps)
      end
  end.

Definition iter_blocks_after (fuel : nat) (cursor : option ptr) : Q (list ptr) :=
  curr_block ← match cursor with
               | None => get_next FakeHead
               | Some c => get_next c
               end;
  iter_from fuel curr_block.

(** ** Representation *)

Definition nxt (q : FreeKVCacheBlockQueue) (p : ptr) : option ptr := next_free_block (obj q p).
Definition prv (q : FreeKVCacheBlockQueue) (p : ptr) : option ptr := prev_free_block (obj q p).

(** Consecutive elements of [c] point at each other. *)
Fixpoint linked (q : FreeKVCacheBlockQueue) (c : list ptr) : Prop :=
  match c with
  | x :: ((y :: _) as c') => nxt q x = Some y ∧ prv q y = Some x ∧ linked q c'
  | _ => True
  end.

(** The whole chain of the queue that holds [l]. *)
Definition chain (l : list nat) : list ptr := FakeHead :: (Block <$> l) ++ [FakeTail].

Record queue_repr (q : FreeKVCacheBlockQueue) (l : list nat) : Prop := {
  repr_linked : linked q (chain l);
  repr_head : prv q FakeHead = None;
  repr_tail : nxt q FakeTail = None;
  repr_NoDup : NoDup l;
  repr_out i : i ∉ l → nxt q (Block i) = None ∧ prv q (Block i) = None;
  repr_num : num_free_blocks q = len l
}.

(** The attributes of a block that the queue does not own. *)
Definition attrs (b : KVCacheBlock) : Z * option bytes * option Z * bool * Z :=
  (ref_cnt b, _block_hash b, _block_hash_num_tokens b, is_null b, block_pool_id b).

Definition same_attrs (q q' : FreeKVCacheBlockQueue) : Prop :=
  ∀ i, attrs (obj q' (Block i)) = attrs (obj q (Block i)).

Create HintDb queue discriminated.

Lemma obj_update q p f x :
  obj (update_obj p f q) x = if decide (p = x) then f (obj q p) else obj q x.
Proof. unfold obj, update_obj. simpl. by rewrite lookup_total_insert. Qed.

Lemma nxt_set_next q p v x :
  nxt (update_obj p (with_next v) q) x = if decide (p = x) then v else nxt q x.
Proof. unfold nxt. rewrite obj_update. by case_decide. Qed.
Lemma nxt_set_prev q p v x : nxt (update_obj p (with_prev v) q) x = nxt q x.
Proof. unfold nxt. rewrite obj_update. by case_decide; subst. Qed.
Lemma prv_set_prev q p v x :
  prv (update_obj p (with_prev v) q) x = if decide (p = x) then v else prv q x.
Proof. unfold prv. rewrite obj_update. by case_decide. Qed.
Lemma prv_set_next q p v x : prv (update_obj p (with_next v) q) x = prv q x.
Proof. unfold prv. rewrite obj_update. by case_decide; subst. Qed.
Lemma nxt_add_num q k x : nxt (add_num_free k q) x = nxt q x.
Proof. done. Qed.
Lemma prv_add_num q k x : prv (add_num_free k q) x = prv q x.
Proof. done. Qed.

(** Reduce the links of a state reached by attribute writes. *)
Ltac simp_links :=
  repeat first
    [ rewrite nxt_add_num | rewrite prv_add_num
    | rewrite nxt_set_prev | rewrite prv_set_next
    | rewrite nxt_set_next | rewrite prv_set_prev
    | rewrite decide_True by congruence
    | rewrite decide_False by (done || congruence || set_solver) ].

Lemma linked_app q c1 x c2 :
  linked q (c1 ++ x :: c2) ↔ linked q (c1 ++ [x]) ∧ linked q (x :: c2).
Proof.
  induction c1 as [|y [|z c1] IH].
  - simpl. tauto.
  - simpl. destruct c2; tauto.
  - change ((y :: z :: c1) ++ x :: c2) with (y :: z :: (c1 ++ x :: c2)).
    change ((y :: z :: c1) ++ [x]) with (y :: z :: (c1 ++ [x])).
    cbn [linked]. change (z :: c1 ++ x :: c2) with ((z :: c1) ++ x :: c2).
    rewrite IH. tauto.
Qed.

Lemma linked_tail q x c : linked q (x :: c) → linked q c.
Proof. destruct c as [|y c]; [done|]. by intros (_ & _ & ?). Qed.

Lemma linked_frame q q' c :
  (∀ c1 x y c2, c = c1 ++ x :: y :: c2 → nxt q' x = nxt q x ∧ prv q' y = prv q y) →
  linked q c → linked q' c.
Proof.
  induction c as [|x [|y c] IH]; [done..|]. intros Hf (Hn & Hp & Hl).
  destruct (Hf [] x y c eq_refl) as [Hn' Hp']. split_and!; [congruence..|].
  apply IH; [|done]. intros c1 x' y' c2 Heq. apply (Hf (x :: c1) x' y' c2). simpl. by rewrite Heq.
Qed.

Lemma linked_set_next_out q p v c :
  p ∉ c → linked q c → linked (update_obj p (with_next v) q) c.
Proof.
  intros Hp. apply linked_frame. intros c1 x y c2 ->. simp_links. done.
Qed.

Lemma linked_set_prev_out q p v c :
  p ∉ c → linked q c → linked (update_obj p (with_prev v) q) c.
Proof.
  intros Hp. apply linked_frame. intros c1 x y c2 ->. simp_links. done.
Qed.

Lemma linked_set_next_last q p v c :
  p ∉ c → linked q (c ++ [p]) → linked (update_obj p (with_next v) q) (c ++ [p]).
Proof.
  intros Hp. apply linked_frame. intros c1 x y c2 Heq.
  assert (x ∈ c).
  { destruct (exists_last (l := y :: c2)) as (c2' & z & Hz); [done|].
    rewrite Hz, app_comm_cons, app_assoc in Heq. apply app_inj_tail in Heq as [-> _]. set_solver. }
  simp_links. done.
Qed.

Lemma linked_set_prev_first q p v c :
  p ∉ c → linked q (p :: c) → linked (update_obj p (with_prev v) q) (p :: c).
Proof.
  intros Hp. apply linked_frame. intros c1 x y c2 Heq.
  assert (y ∈ c) by (destruct c1; simplify_eq/=; set_solver).
  simp_links. done.
Qed.

Lemma linked_add_num q k c : linked q c → linked (add_num_free k q) c.
Proof. by apply linked_frame. Qed.

#[export] Hint Resolve linked_set_next_out linked_set_prev_out linked_set_next_last
  linked_set_prev_first linked_add_num : queue.

#[global] Instance same_attrs_refl : Reflexive same_attrs.
Proof. by intros q i. Qed.
#[global] Instance same_attrs_trans : Transitive same_attrs.
Proof. intros q1 q2 q3 H1 H2 i. by rewrite H2, H1. Qed.

Lemma same_attrs_update q q' p f :
  (∀ b, attrs (f b) = attrs b) → same_attrs q q' → same_attrs q (update_obj p f q').
Proof. intros Hf Hs i. rewrite obj_update. case_decide; subst; rewrite ?Hf; apply Hs. Qed.

Lemma same_attrs_set_next q q' p v :
  same_attrs q q' → same_attrs q (update_obj p (with_next v) q').
Proof. by apply same_attrs_update. Qed.
Lemma same_attrs_set_prev q q' p v :
  same_attrs q q' → same_attrs q (update_obj p (with_prev v) q').
Proof. by apply same_attrs_update. Qed.
Lemma same_attrs_add_num q q' k : same_attrs q q' → same_attrs q (add_num_free k q').
Proof. done. Qed.

#[export] Hint Resolve same_attrs_set_next same_attrs_set_prev same_attrs_add_num
  same_attrs_refl : queue.

(** The chain from the first node on. *)
Lemma chain_cons l : chain l = FakeHead :: (Block <$> l) ++ [FakeTail].
Proof. done. Qed.

Lemma elem_of_blocks i (l : list nat) : Block i ∈ Block <$> l ↔ i ∈ l.
Proof. rewrite list_elem_of_fmap. split; [|by eauto]. by intros (j & [= ->] & Hj). Qed.

Lemma chain_NoDup l : NoDup l → NoDup (chain l).
Proof.
  intros Hl. unfold chain. apply NoDup_cons. split.
  - rewrite elem_of_app, list_elem_of_fmap. set_solver.
  - apply NoDup_app. split_and!; [by apply NoDup_fmap_2; [intros ?? [= ->]|]| |apply NoDup_singleton].
    intros x. rewrite list_elem_of_fmap. set_solver.
Qed.

(** Joining two linked segments. *)
Definition connect (a b : ptr) (q : FreeKVCacheBlockQueue) : FreeKVCacheBlockQueue :=
  update_obj b (with_prev (Some a)) (update_obj a (with_next (Some b)) q).

Lemma linked_connect q c a b d :
  NoDup (c ++ a :: b :: d) → linked q (c ++ [a]) → linked q (b :: d) →
  linked (connect a b q) (c ++ a :: b :: d).
Proof.
  intros Hnd Hc Hd. apply NoDup_app in Hnd as (Hndc & Hdis & Hnda).
  apply NoDup_cons in Hnda as [Ha Hndb]. apply NoDup_cons in Hndb as [Hb Hndd].
  unfold connect. apply linked_app. split.
  - apply linked_set_prev_out; [set_solver|]. apply linked_set_next_last; [|done]. set_solver.
  - cbn [linked]. split_and!; [by simp_links..|].
    apply linked_set_prev_first; [done|]. apply linked_set_next_out; [|done]. set_solver.
Qed.

(** Taking the node [x] out between [a] and [b]. *)
Definition unlink (a x b : ptr) (q : FreeKVCacheBlockQueue) : FreeKVCacheBlockQueue :=
  update_obj x (with_next None) (update_obj x (with_prev None) (connect a b q)).

Lemma linked_unlink q c a x b d :
  NoDup (c ++ a :: x :: b :: d) → linked q (c ++ a :: x :: b :: d) →
  linked (unlink a x b q) (c ++ a :: b :: d).
Proof.
  intros Hnd Hl. apply linked_app in Hl as [Hc Ha].
  apply linked_tail, linked_tail in Ha.
  assert ((x ∉ c ++ a :: b :: d) ∧ NoDup (c ++ a :: b :: d)) as [Hx Hnd'].
  { apply NoDup_cons. by rewrite (Permutation_middle c (a :: b :: d) x), (Permutation_swap a x). }
  unfold unlink. apply linked_set_next_out; [done|]. apply linked_set_prev_out; [done|].
  by apply linked_connect.
Qed.

(** The loop shared by [prepend_n] and [append_n]. *)
Definition link_after (blocks : list ptr) (last : ptr) : Q ptr :=
  for_acc blocks last (λ last_block block,
    _ ← set_prev block (Some last_block);
    _ ← set_next last_block (Some block);
    mret block).

Lemma link_after_spec bs q c last d :
  NoDup (c ++ last :: bs) → linked q (c ++ [last]) → linked q d →
  (∀ x, x ∈ last :: bs → x ∉ d) →
  wp (link_after bs last) (λ last' q',
    ∃ c', (c ++ last :: bs = c' ++ [last']) ∧ linked q' (c' ++ [last']) ∧ linked q' d ∧
      (∀ p, p ∉ bs → prv q' p = prv q p) ∧ (∀ p, p ∉ last :: bs → nxt q' p = nxt q p) ∧
      num_free_blocks q' = num_free_blocks q ∧ same_attrs q q') q.
Proof.
  revert q c last. induction bs as [|b bs IH]; intros q c last Hnd Hc Hd Hdis.
  { apply wp_ret. exists c. split_and!; auto with queue. }
  unfold link_after. cbn [for_acc]. unfold set_prev, set_next. wp_steps.
  assert (NoDup ((c ++ [last]) ++ b :: bs)) as Hnd' by (by rewrite <-app_assoc).
  assert ((b ∉ c ++ [last]) ∧ (last ∉ c) ∧ last ≠ b) as (Hb & Hlc & Hlb).
  { apply NoDup_app in Hnd' as (Hnd1 & Hd1 & _). split_and!.
    - intros Hb. apply (Hd1 b); set_solver.
    - apply NoDup_app in Hnd1 as (_ & Hd2 & _). set_solver.
    - intros ->. apply (Hd1 b); set_solver. }
  eapply wp_mono.
  { apply (IH _ (c ++ [last]) b).
    - done.
    - rewrite <-app_assoc. apply linked_app. split.
      + apply linked_set_next_last; [done|]. by apply linked_set_prev_out.
      + cbn [linked]. by simp_links.
    - apply linked_set_next_out; [set_solver|]. apply linked_set_prev_out; [|done]. set_solver.
    - set_solver. }
  simpl. intros last' q' (c' & Heq & Hl & Hd' & Hpr & Hnx & Hnum & Hsa).
  exists c'. split_and!; [by rewrite <-Heq, <-app_assoc|done|done| | |done|].
  - intros p Hp. rewrite Hpr by set_solver. by simp_links.
  - intros p Hp. rewrite Hnx by set_solver. by simp_links.
  - etrans; [|exact Hsa]. auto with queue.
Qed.

(** ** Each operation implements its list operation *)

Lemma chain_split l1 i l2 : ∃ c a b d,
  FakeHead :: (Block <$> l1) = c ++ [a] ∧
  chain (l1 ++ i :: l2) = c ++ a :: Block i :: b :: d ∧ chain (l1 ++ l2) = c ++ a :: b :: d.
Proof.
  destruct (exists_last (l := FakeHead :: (Block <$> l1))) as (c & a & Hca); [done|].
  destruct ((Block <$> l2) ++ [FakeTail]) as [|b d] eqn:Hbd; [by destruct l2|].
  exists c, a, b, d. unfold chain. rewrite !fmap_app, fmap_cons, <-!app_assoc. simpl.
  rewrite Hbd, !app_comm_cons, Hca, <-!app_assoc. done.
Qed.

Lemma chain_ends c a b d l : chain l = c ++ a :: b :: d → a ≠ FakeTail ∧ b ≠ FakeHead.
Proof.
  unfold chain. intros Heq. split; intros ->.
  - rewrite app_comm_cons in Heq. destruct (exists_last (l := b :: d)) as (d' & z & Hz); [done|].
    rewrite Hz, app_comm_cons, app_assoc in Heq. apply app_inj_tail in Heq as [Heq _].
    assert (FakeTail ∈ FakeHead :: (Block <$> l)) as Hin by (rewrite Heq; set_solver).
    apply elem_of_cons in Hin as [?|Hin]; [done|]. apply list_elem_of_fmap in Hin. naive_solver.
  - assert (FakeHead ∈ (Block <$> l) ++ [FakeTail]) as Hin.
    { apply (list_elem_of_lookup_2 _ (length c)).
      change (chain l !! S (length c) = Some FakeHead). unfold chain.
      rewrite Heq, lookup_app_r by lia. by replace (S (length c) - length c)%nat with 1%nat by lia. }
    apply elem_of_app in Hin as [Hin|Hin]; [|set_solver].
    apply list_elem_of_fmap in Hin. naive_solver.
Qed.

Lemma unlink_repr q l1 i l2 c a b d :
  queue_repr q (l1 ++ i :: l2) →
  chain (l1 ++ i :: l2) = c ++ a :: Block i :: b :: d → chain (l1 ++ l2) = c ++ a :: b :: d →
  queue_repr (add_num_free (-1) (unlink a (Block i) b q)) (l1 ++ l2).
Proof.
  intros [Hl Hh Ht Hnd Hout Hnum] Hc Hc'.
  destruct (chain_ends _ _ _ _ _ Hc') as [Ha Hb].
  pose proof (chain_NoDup _ Hnd) as Hndc. rewrite Hc in Hl, Hndc.
  split; unfold unlink, connect.
  - apply linked_add_num. rewrite Hc'. by apply linked_unlink.
  - by simp_links.
  - by simp_links.
  - apply NoDup_app in Hnd as (? & Hdis & [? ?]%NoDup_cons). apply NoDup_app. set_solver.
  - intros j Hj. destruct (decide (j = i)) as [->|Hji]; [by simp_links|].
    destruct (Hout j) as [Hjn Hjp]; [set_solver|].
    assert (Block j ∉ chain (l1 ++ l2)) as Hjc.
    { unfold chain. rewrite elem_of_cons, elem_of_app, elem_of_blocks. set_solver. }
    rewrite Hc' in Hjc. simp_links. done.
  - simpl. rewrite Hnum. unfold len. rewrite !length_app. simpl. lia.
Qed.

Lemma unlink_attrs q a x b k : same_attrs q (add_num_free k (unlink a x b q)).
Proof. unfold unlink, connect. auto 10 with queue. Qed.

Lemma popleft_spec q i l :
  queue_repr q (i :: l) →
  wp popleft (λ p q', p = Block i ∧ queue_repr q' l ∧ same_attrs q q') q.
Proof.
  intros Hq. destruct (chain_split [] i l) as (c & a & b & d & Hca & Hc & Hc').
  assert (c = [] ∧ a = FakeHead) as [-> ->].
  { destruct c as [|? [|??]]; by simplify_eq/=. }
  pose proof (repr_linked _ _ Hq) as Hl. simpl in Hc. rewrite Hc in Hl.
  destruct Hl as (Hn & _ & Hn2 & _).
  unfold popleft, get_next, set_next, set_prev. wp_steps. fold (nxt q FakeHead). rewrite Hn.
  rewrite decide_False by naive_solver. unfold deref. wp_steps.
  fold (nxt q (Block i)). rewrite Hn2. wp_steps.
  split_and!; [done|by apply (unlink_repr q [] i l [] FakeHead b d)|apply unlink_attrs].
Qed.

Lemma popleft_empty q : queue_repr q [] → popleft q = Raise ValueError.
Proof.
  intros Hq. pose proof (repr_linked _ _ Hq) as (Hn & _). pose proof (repr_num _ _ Hq) as Hnum.
  unfold popleft, get_next, mbind, M_bind, gets. fold (nxt q FakeHead).
  rewrite Hn, decide_True by auto. by rewrite Hnum.
Qed.

Lemma remove_spec q l1 i l2 :
  queue_repr q (l1 ++ i :: l2) →
  wp (remove (Block i)) (λ _ q', queue_repr q' (l1 ++ l2) ∧ same_attrs q q') q.
Proof.
  intros Hq. destruct (chain_split l1 i l2) as (c & a & b & d & _ & Hc & Hc').
  pose proof (repr_linked _ _ Hq) as Hl. rewrite Hc in Hl.
  apply linked_app in Hl as (_ & Hn & Hp & Hn2 & Hp2 & _).
  unfold remove, get_next, get_prev, set_next, set_prev. wp_steps.
  fold (prv q (Block i)) (nxt q (Block i)). rewrite Hp, Hn2. wp_steps.
  split; [by apply (unlink_repr q l1 i l2 c a b d)|apply unlink_attrs].
Qed.

Lemma remove_not_queued q l i :
  queue_repr q l → i ∉ l → remove (Block i) q = Raise RuntimeError.
Proof.
  intros Hq Hi. destruct (repr_out _ _ Hq i Hi) as [Hn Hp].
  unfold remove, get_prev, get_next, mbind, M_bind, gets.
  unfold prv, nxt in *. cbv beta iota. by rewrite Hp.
Qed.

(** Blocks as references, and references as the ids they name. *)
Lemma blocks_NoDup (l : list nat) : NoDup l → NoDup (Block <$> l).
Proof. apply NoDup_fmap_2. by intros ?? [= ->]. Qed.

Lemma range_length n : length (range 0 n) = Z.to_nat n.
Proof. unfold range. rewrite length_fmap, length_seq. f_equal. lia. Qed.

(** The first node after the sentinel. *)
Definition first_ptr (l : list nat) : ptr :=
  match l with [] => FakeTail | i :: _ => Block i end.

Lemma chain_first l : ∃ d, (Block <$> l) ++ [FakeTail] = first_ptr l :: d.
Proof. destruct l; simpl; eauto. Qed.

(** What [popleft_n] maintains after popping [l1] off [l1 ++ l2]. *)
Record popping (q0 : FreeKVCacheBlockQueue) (l l1 l2 : list nat) (q : FreeKVCacheBlockQueue) :
    Prop := {
  pop_split : l = l1 ++ l2;
  pop_linked : linked q ((Block <$> l2) ++ [FakeTail]);
  pop_head : prv q FakeHead = None;
  pop_tail : nxt q FakeTail = None;
  pop_out i : i ∉ l2 → nxt q (Block i) = None ∧ prv q (Block i) = None;
  pop_num : num_free_blocks q = num_free_blocks q0;
  pop_attrs : same_attrs q0 q
}.

Lemma popping_step q0 l l1 i l2 q :
  NoDup l → popping q0 l l1 (i :: l2) q →
  nxt q (Block i) = Some (first_ptr l2) ∧
  popping q0 l (l1 ++ [i]) l2
    (update_obj (Block i) (with_next None) (update_obj (Block i) (with_prev None) q)).
Proof.
  intros Hnd [-> Hl Hh Ht Hout Hnum Hat]. destruct (chain_first l2) as [d Hd].
  rewrite fmap_cons in Hl. simpl in Hl. rewrite Hd in Hl. destruct Hl as (Hn & Hp & Hl).
  split; [done|].
  apply NoDup_app in Hnd as (_ & _ & [Hi Hnd]%NoDup_cons).
  split; [by rewrite <-app_assoc| |by simp_links|by simp_links| |done|auto with queue].
  - assert (Block i ∉ (Block <$> l2) ++ [FakeTail]).
    { rewrite elem_of_app, elem_of_blocks. set_solver. }
    rewrite Hd in *. apply linked_set_next_out; [done|]. by apply linked_set_prev_out.
  - intros j Hj. destruct (decide (j = i)) as [->|]; [by simp_links|].
    simp_links. apply Hout. set_solver.
Qed.

Lemma popping_done q0 l l1 l2 q :
  NoDup l → popping q0 l l1 l2 q → num_free_blocks q0 = len l2 →
  queue_repr (connect FakeHead (first_ptr l2) q) l2.
Proof.
  intros Hnd [-> Hl Hh Ht Hout Hnum _] Hlen. apply NoDup_app in Hnd as (_ & _ & Hnd).
  destruct (chain_first l2) as [d Hd]. rewrite Hd in Hl.
  pose proof (chain_NoDup _ Hnd) as Hndc. unfold chain in Hndc. rewrite Hd in Hndc.
  assert (first_ptr l2 ≠ FakeHead) by (by destruct l2).
  split; unfold connect; [|by simp_links..|done| |by rewrite <-Hlen, <-Hnum].
  - unfold chain. rewrite Hd. by apply (linked_connect q [] FakeHead).
  - intros j Hj. assert (first_ptr l2 ≠ Block j).
    { destruct l2; simpl; [done|]. intros [= ->]. set_solver. }
    simp_links. by apply Hout.
Qed.

Lemma popleft_n_spec q l n :
  queue_repr q l → 0 ≤ n ≤ len l →
  wp (popleft_n n) (λ ps q', ps = Block <$> take (Z.to_nat n) l ∧
    queue_repr q' (drop (Z.to_nat n) l) ∧ same_attrs q q') q.
Proof.
  intros Hq Hn. unfold popleft_n, get_next, set_next, set_prev. case_decide; [subst|].
  { wp_steps. by rewrite drop_0. }
  wp_steps. { pose proof (repr_num _ _ Hq). lia. }
  wp_steps. fold (nxt (add_num_free (- n) q) FakeHead). rewrite nxt_add_num.
  assert (nxt q FakeHead = Some (first_ptr l)) as ->.
  { pose proof (repr_linked _ _ Hq) as Hl. unfold chain in Hl.
    destruct (chain_first l) as [d Hd]. rewrite Hd in Hl. apply Hl. }
  eapply wp_mono.
  { apply (wp_for_acc (λ pre acc q', popping (add_num_free (- n) q) l
      (take (length pre) l) (drop (length pre) l) q' ∧
      acc = (Block <$> take (length pre) l, Some (first_ptr (drop (length pre) l))))).
    - split; [|by rewrite drop_0]. destruct Hq. split; simpl; rewrite ?drop_0; auto with queue.
      apply linked_add_num. by eapply linked_tail.
    - intros pre x post acc q' Heq [Hpop ->]. cbv beta iota.
      assert (length pre < length l)%nat as Hlt.
      { apply (f_equal length) in Heq. rewrite range_length, length_app in Heq. simpl in Heq.
        unfold len in Hn. lia. }
      destruct (lookup_lt_is_Some_2 _ _ Hlt) as [i Hi].
      rewrite (drop_S _ _ _ Hi) in Hpop |- *. cbn [first_ptr].
      destruct (popping_step _ _ _ _ _ _ (repr_NoDup _ _ Hq) Hpop) as [Hni Hpop'].
      wp_steps; [by apply bool_decide_eq_true_2|]. unfold deref. wp_steps.
      fold (nxt q' (Block i)). rewrite Hni.
      rewrite length_app, Nat.add_1_r, (take_S_r _ _ _ Hi), fmap_app. done. }
  intros [ps cur] q'. rewrite range_length. intros [Hpop [= -> ->]]. cbv beta iota. wp_steps.
  split_and!; [done| |].
  - eapply popping_done; [by eapply repr_NoDup|done|].
    simpl. rewrite (repr_num _ _ Hq). unfold len in *. rewrite length_drop. lia.
  - etrans; [|eapply same_attrs_set_prev, same_attrs_set_next, same_attrs_refl].
    apply (pop_attrs _ _ _ _ _ Hpop).
Qed.

Lemma popleft_n_too_many q l n :
  queue_repr q l → len l < n → popleft_n n q = Raise AssertionError.
Proof.
  intros Hq Hn. unfold popleft_n. rewrite decide_False by (unfold len in *; lia).
  unfold mbind, M_bind, gets. rewrite (repr_num _ _ Hq).
  by replace (n <=? len l) with false by lia.
Qed.

(** Linking new blocks in never touches a block outside the old and new ones. *)
Lemma repr_intro q l :
  NoDup l → linked q (chain l) → prv q FakeHead = None → nxt q FakeTail = None →
  (∀ i, i ∉ l → nxt q (Block i) = None ∧ prv q (Block i) = None) →
  num_free_blocks q = len l → queue_repr q l.
Proof. by split. Qed.

Lemma append_n_spec q l bs :
  queue_repr q l → NoDup (l ++ bs) →
  wp (append_n (Block <$> bs)) (λ _ q', queue_repr q' (l ++ bs) ∧ same_attrs q q') q.
Proof.
  intros Hq Hnd. unfold append_n, get_prev. case_decide as Hlen.
  { apply wp_ret. destruct bs; [|done]. by rewrite app_nil_r. }
  destruct Hq as [Hl Hh Ht _ Hout Hnum].
  destruct (exists_last (l := FakeHead :: (Block <$> l))) as (c & a & Hca); [done|].
  pose proof (chain_NoDup _ Hnd) as Hndc.
  unfold chain in Hl, Hndc. rewrite fmap_app, app_comm_cons, Hca in *.
  rewrite <-(app_assoc c [a]) in Hl. simpl in Hl. apply linked_app in Hl as (Hlc & Hna & Hpa & _).
  rewrite !app_comm_cons, Hca, <-!app_assoc in Hndc. simpl in Hndc.
  rewrite (app_comm_cons _ _ a), app_assoc in Hndc.
  do 2 wp_step. fold (prv q FakeTail). rewrite Hpa. wp_steps; [by apply bool_decide_eq_true_2|].
  unfold deref. wp_steps. fold (link_after (Block <$> bs) a).
  pose proof Hndc as (Hnd1 & Hdis & _)%NoDup_app.
  eapply wp_mono; [by apply (link_after_spec _ _ c a []); [| |done|set_solver]|].
  simpl. intros last' q' (c' & Heq & Hl' & _ & Hpr & Hnx & Hnum' & Hsa).
  unfold set_next, set_prev. wp_steps.
  assert (chain (l ++ bs) = c' ++ [last'; FakeTail]) as Hch.
  { unfold chain. rewrite fmap_app, !app_comm_cons, Hca, <-!app_assoc. simpl.
    by rewrite (app_comm_cons _ _ a), app_assoc, Heq, <-app_assoc. }
  split; [|etrans; [exact Hsa|]; auto with queue].
  assert (last' ≠ FakeTail) by (apply (chain_ends c' _ FakeTail [] _ Hch)).
  apply repr_intro; [done| | | | |].
  - apply linked_add_num. rewrite Hch. apply (linked_connect q' c' last' FakeTail []); [|done..].
    rewrite <-Hch. by apply chain_NoDup.
  - simp_links. rewrite Hpr; [done|]. rewrite list_elem_of_fmap. naive_solver.
  - simp_links. rewrite Hnx; [done|]. intros Hin. apply (Hdis FakeTail); set_solver.
  - intros i Hi.
    assert (Block i ∉ c' ++ [last'; FakeTail]) as Hic.
    { rewrite <-Hch. unfold chain. rewrite elem_of_cons, elem_of_app, elem_of_blocks. set_solver. }
    assert (Block i ∉ c ++ a :: (Block <$> bs)) as Hic2 by (rewrite Heq; set_solver).
    simp_links. rewrite Hpr, Hnx by set_solver. apply Hout. set_solver.
  - simpl. rewrite Hnum', Hnum. unfold len. rewrite length_app, length_fmap. lia.
Qed.

Lemma update_obj_comm q p p' f g :
  p ≠ p' → update_obj p f (update_obj p' g q) = update_obj p' g (update_obj p f q).
Proof.
  intros Hp. unfold update_obj at 1 3. f_equal.
  rewrite !obj_update, !decide_False by done. unfold update_obj. simpl.
  by apply insert_insert_ne.
Qed.

(** [append] and [append_n] of one block write the same links. *)
Lemma append_append_n q l i :
  queue_repr q l → i ∉ l → append (Block i) q = append_n [Block i] q.
Proof.
  intros Hq Hi.
  destruct (exists_last (l := FakeHead :: (Block <$> l))) as (c & a & Hca); [done|].
  assert (prv q FakeTail = Some a ∧ a ≠ Block i) as [Hp Ha].
  { pose proof (repr_linked _ _ Hq) as Hl. unfold chain in Hl.
    rewrite app_comm_cons, Hca, <-app_assoc in Hl. apply linked_app in Hl as (_ & _ & Hp & _).
    split; [done|]. intros ->. apply Hi, elem_of_blocks.
    assert (Block i ∈ FakeHead :: (Block <$> l)) by (rewrite Hca; set_solver). set_solver. }
  unfold append, append_n, get_prev, set_next, set_prev, mbind, M_bind, gets, modify, assert_, deref.
  simpl. fold (prv q FakeTail). rewrite Hp. simpl. by rewrite (update_obj_comm q a (Block i)) by done.
Qed.

Lemma append_spec q l i :
  queue_repr q l → i ∉ l →
  wp (append (Block i)) (λ _ q', queue_repr q' (l ++ [i]) ∧ same_attrs q q') q.
Proof.
  intros Hq Hi. pose proof (append_n_spec q l [i] Hq) as Hs. unfold wp in *.
  rewrite (append_append_n q l i) by done. apply Hs. apply NoDup_app.
  split_and!; [by eapply repr_NoDup|set_solver|apply NoDup_singleton].
Qed.

Lemma prepend_n_spec q l bs :
  queue_repr q l → NoDup (bs ++ l) →
  wp (prepend_n (Block <$> bs)) (λ _ q', queue_repr q' (bs ++ l) ∧ same_attrs q q') q.
Proof.
  intros Hq Hnd. unfold prepend_n, get_next. case_decide as Hlen.
  { apply wp_ret. by destruct bs. }
  destruct Hq as [Hl Hh Ht _ Hout Hnum].
  destruct (chain_first l) as [d Hd]. pose proof (chain_NoDup _ Hnd) as Hndc.
  unfold chain in Hl, Hndc. rewrite fmap_app, <-app_assoc, Hd in Hndc. rewrite Hd in Hl.
  destruct Hl as (Hnh & _ & Hl). do 2 wp_step. fold (nxt q FakeHead). rewrite Hnh.
  wp_steps; [by apply bool_decide_eq_true_2|].
  unfold deref. wp_steps. fold (link_after (Block <$> bs) FakeHead).
  rewrite app_comm_cons in Hndc. pose proof Hndc as (Hnd1 & Hdis & _)%NoDup_app.
  eapply wp_mono; [by apply (link_after_spec _ _ [] FakeHead (first_ptr l :: d))|].
  simpl. intros last' q' (c' & Heq & Hl' & Hd' & Hpr & Hnx & Hnum' & Hsa).
  unfold set_next, set_prev. wp_steps.
  assert (chain (bs ++ l) = c' ++ last' :: first_ptr l :: d) as Hch.
  { unfold chain. by rewrite fmap_app, <-app_assoc, Hd, app_comm_cons, Heq, <-app_assoc. }
  destruct (chain_ends _ _ _ _ _ Hch) as [Hlt Hfh].
  split; [|etrans; [exact Hsa|]; auto with queue].
  apply repr_intro; [done| | | | |].
  - apply linked_add_num. rewrite Hch. apply (linked_connect q' c' last'); [|done..].
    rewrite <-Hch. by apply chain_NoDup.
  - simp_links. rewrite Hpr; [done|]. rewrite list_elem_of_fmap. naive_solver.
  - simp_links. rewrite Hnx; [done|]. rewrite elem_of_cons, list_elem_of_fmap. naive_solver.
  - intros i Hi.
    assert (Block i ∉ c' ++ last' :: first_ptr l :: d) as Hic.
    { rewrite <-Hch. unfold chain. rewrite elem_of_cons, elem_of_app, elem_of_blocks. set_solver. }
    assert (Block i ∉ FakeHead :: (Block <$> bs)) as Hic2 by (rewrite Heq; set_solver).
    simp_links. rewrite Hpr, Hnx by set_solver. apply Hout. set_solver.
  - simpl. rewrite Hnum', Hnum. unfold len. rewrite length_app, length_fmap. lia.
Qed.

(** ** Traversals *)

Lemma collect_free_spec fuel q ret l :
  linked q ((Block <$> l) ++ [FakeTail]) → nxt q FakeTail = None → (length l < fuel)%nat →
  collect_free fuel ret (first_ptr l) q = Ok (ret ++ (Block <$> l), q).
Proof.
  revert fuel ret. induction l as [|i l IH]; intros [|fuel] ret Hl Ht Hf; try (simpl in Hf; lia).
  - simpl. unfold get_next, mbind, M_bind, gets. fold (nxt q FakeTail). by rewrite Ht, app_nil_r.
  - destruct (chain_first l) as [d Hd]. rewrite fmap_cons in Hl. simpl in Hl.
    pose proof Hl as Hl'. rewrite Hd in Hl'. destruct Hl' as (Hn & _).
    cbn [collect_free first_ptr]. unfold get_next, mbind, M_bind, gets at 1.
    fold (nxt q (Block i)). rewrite Hn, IH; [|by eapply linked_tail|done|simpl in Hf; lia].
    by rewrite <-app_assoc.
Qed.

Lemma get_all_free_blocks_spec fuel q l :
  queue_repr q l → (length l < fuel)%nat →
  get_all_free_blocks fuel q = Ok (Block <$> l, q).
Proof.
  intros [Hl _ Ht _ _ _] Hf. unfold get_all_free_blocks, get_next, mbind, M_bind, gets.
  fold (nxt q FakeHead). destruct (chain_first l) as [d Hd]. unfold chain in Hl.
  pose proof Hl as Hl'. rewrite Hd in Hl'. destruct Hl' as (Hn & _). rewrite Hn.
  apply collect_free_spec; [by eapply linked_tail|done..].
Qed.

Lemma iter_from_spec fuel q l :
  linked q ((Block <$> l) ++ [FakeTail]) → (length l ≤ fuel)%nat →
  iter_from fuel (Some (first_ptr l)) q = Ok (Block <$> l, q).
Proof.
  revert fuel. induction l as [|i l IH]; intros fuel Hl Hf; [by destruct fuel|].
  destruct fuel as [|fuel]; [simpl in Hf; lia|].
  destruct (chain_first l) as [d Hd]. rewrite fmap_cons in Hl. simpl in Hl.
  pose proof Hl as Hl'. rewrite Hd in Hl'. destruct Hl' as (Hn & _).
  cbn [iter_from first_ptr]. unfold get_next, mbind, M_bind, gets at 1. fold (nxt q (Block i)).
  rewrite Hn, IH; [done|by eapply linked_tail|simpl in Hf; lia].
Qed.

Lemma iter_blocks_after_spec fuel q l1 i l2 :
  queue_repr q (l1 ++ i :: l2) → (length l2 ≤ fuel)%nat →
  iter_blocks_after fuel (Some (Block i)) q = Ok (Block <$> l2, q).
Proof.
  intros [Hl _ _ _ _ _] Hf. unfold chain in Hl.
  rewrite fmap_app, fmap_cons, <-app_assoc, app_comm_cons in Hl.
  apply linked_app in Hl as [_ Hl]. fold ((Block <$> l2) ++ [FakeTail]) in Hl.
  unfold iter_blocks_after, get_next, mbind, M_bind, gets. fold (nxt q (Block i)).
  destruct (chain_first l2) as [d Hd]. pose proof Hl as Hl'. simpl in Hl'. rewrite Hd in Hl'.
  destruct Hl' as (Hn & _). rewrite Hn. apply iter_from_spec; [by eapply linked_tail|done].
Qed.

(** ** Construction *)

Lemma linked_lookup q c :
  (∀ k x y, c !! k = Some x → c !! S k = Some y → nxt q x = Some y ∧ prv q y = Some x) →
  linked q c.
Proof.
  induction c as [|x [|y c] IH]; [done..|]. intros H.
  destruct (H 0%nat x y eq_refl eq_refl) as [Hn Hp]. split_and!; [done..|].
  apply IH. intros k. apply (H (S k)).
Qed.

Lemma index_lookup {A} (l : list A) (k : nat) x : l !! k = Some x → index l (Z.of_nat k) = Ok x.
Proof.
  intros Hk. unfold index. cbv zeta. rewrite (decide_False (P := Z.of_nat k < 0)) by lia.
  rewrite decide_True by lia. by rewrite Nat2Z.id, Hk.
Qed.

(** The links of the blocks after the loop of [__init__] has reached index [k]. *)
Record initing (q0 : FreeKVCacheBlockQueue) (bs : list ptr) (k : nat)
    (q : FreeKVCacheBlockQueue) : Prop := {
  init_prev j x y : (S j < k)%nat → bs !! j = Some x → bs !! S j = Some y → prv q y = Some x;
  init_next j x y : (j < k)%nat → bs !! j = Some x → bs !! S j = Some y → nxt q x = Some y;
  init_out p : p ∉ bs → nxt q p = nxt q0 p ∧ prv q p = prv q0 p;
  init_num : num_free_blocks q = len bs;
  init_attrs : same_attrs q0 q
}.

Lemma range_lookup_split n pre x post :
  range 0 n = pre ++ x :: post → x = Z.of_nat (length pre) ∧ (length pre < Z.to_nat n)%nat.
Proof.
  intros Heq. assert (range 0 n !! length pre = Some x) as Hx.
  { rewrite Heq, lookup_app_r, Nat.sub_diag by lia. done. }
  unfold range in Hx. rewrite list_lookup_fmap in Hx.
  apply fmap_Some in Hx as (k & Hk & ->). apply lookup_seq in Hk. lia.
Qed.

Lemma NoDup_lookup_ne {A} (l : list A) i j x y :
  NoDup l → l !! i = Some x → l !! j = Some y → i ≠ j → x ≠ y.
Proof. intros Hnd Hi Hj Hij ->. by eapply Hij, NoDup_lookup. Qed.

Lemma init_step q0 bs k b q :
  NoDup bs → bs !! k = Some b → initing q0 bs k q →
  wp (_ ← (if decide (Z.of_nat k > 0) then
             p ← lift_res (index bs (Z.of_nat k - 1)); set_prev b (Some p)
           else mret tt);
      if decide (Z.of_nat k < len bs - 1) then
        s ← lift_res (index bs (Z.of_nat k + 1)); set_next b (Some s)
      else mret tt) (λ _, initing q0 bs (S k)) q.
Proof.
  intros Hnd Hk [Hp Hn Ho Hnum Hat]. apply wp_bind.
  apply (wp_mono _ (λ _ q', initing q0 bs k q' ∧
     (∀ j x, S j = k → bs !! j = Some x → prv q' b = Some x))).
  - case_decide; [|apply wp_ret; split; [done|lia]].
    destruct k as [|k]; [lia|]. pose proof (lookup_lt_Some _ _ _ Hk).
    destruct (lookup_lt_is_Some_2 bs k) as [p Hpk]; [lia|].
    apply wp_bind, (wp_lift _ p).
    { replace (Z.of_nat (S k) - 1) with (Z.of_nat k) by lia. by apply index_lookup. }
    unfold set_prev. wp_steps. split; [split|].
    + intros j x y ? Hx Hy. rewrite prv_set_prev, decide_False; [by eapply Hp|].
      eapply NoDup_lookup_ne; [done|exact Hk|exact Hy|lia].
    + intros. rewrite nxt_set_prev. by eapply Hn.
    + intros p' Hp'. assert (b ≠ p').
      { intros ->. eapply Hp', list_elem_of_lookup_2, Hk. }
      simp_links. by apply Ho.
    + done.
    + auto with queue.
    + intros j x [= ->] Hx. simp_links. congruence.
  - clear Hp Hn Ho Hnum Hat q. intros u q [[Hp Hn Ho Hnum Hat] Hb].
    assert (∀ j x y, (S j < S k)%nat → bs !! j = Some x → bs !! S j = Some y →
      prv q y = Some x) as Hp'.
    { intros j x y Hj Hx Hy. destruct (decide (S j = k)) as [<-|]; [|by apply (Hp j); [lia|..]].
      simplify_eq. by eapply Hb. }
    case_decide as Hlt.
    + destruct (lookup_lt_is_Some_2 bs (S k)) as [s Hs]; [unfold len in Hlt; lia|].
      apply wp_bind, (wp_lift _ s).
      { replace (Z.of_nat k + 1) with (Z.of_nat (S k)) by lia. by apply index_lookup. }
      unfold set_next. wp_steps. split.
      * intros. rewrite prv_set_next. by eapply Hp'.
      * intros j x y Hj Hx Hy. rewrite nxt_set_next. case_decide as Hbx.
        -- assert (j = k) as -> by (eapply NoDup_lookup; [done..|by subst]). congruence.
        -- eapply Hn; [|done..]. assert (j ≠ k) by (intros ->; congruence). lia.
      * intros p' Hp''. assert (b ≠ p').
        { intros ->. eapply Hp'', list_elem_of_lookup_2, Hk. }
        simp_links. by apply Ho.
      * done.
      * auto with queue.
    + apply wp_ret. split; [done| |done..].
      intros j x y Hj Hx Hy. eapply Hn; [|done..].
      pose proof (lookup_lt_Some _ _ _ Hy). unfold len in Hlt. lia.
Qed.

Lemma init_sentinels q0 l q :
  NoDup l → (∀ i, i ∉ l → nxt q0 (Block i) = None ∧ prv q0 (Block i) = None) →
  initing q0 (Block <$> l) (length l) q →
  linked q (Block <$> l) ∧ (∀ i, i ∉ l → nxt q (Block i) = None ∧ prv q (Block i) = None).
Proof.
  intros Hnd Hout [Hp Hn Ho _ _]. split.
  - apply linked_lookup. intros k x y Hx Hy.
    pose proof (lookup_lt_Some _ _ _ Hy) as Hlt. rewrite length_fmap in Hlt.
    split; [by eapply Hn; [|done..]; lia|by eapply Hp].
  - intros i Hi. destruct (Ho (Block i)) as [-> ->]; [|by apply Hout].
    by rewrite elem_of_blocks.
Qed.

(** Resetting a sentinel to a fresh object. *)
Lemma nxt_fresh q p x : nxt (update_obj p (λ _, new_block 0) q) x = if decide (p = x) then None else nxt q x.
Proof. unfold nxt. rewrite obj_update. by case_decide. Qed.
Lemma prv_fresh q p x : prv (update_obj p (λ _, new_block 0) q) x = if decide (p = x) then None else prv q x.
Proof. unfold prv. rewrite obj_update. by case_decide. Qed.

Lemma init_connect q l :
  NoDup l → linked q (Block <$> l) →
  (∀ i, i ∉ l → nxt q (Block i) = None ∧ prv q (Block i) = None) →
  num_free_blocks q = len l → nxt q FakeTail = None → prv q FakeHead = None →
  l ≠ [] →
  wp (first ← lift_res (index (Block <$> l) 0);
      last ← lift_res (index (Block <$> l) (-1));
      _ ← set_next FakeHead (Some first);
      _ ← set_prev first (Some FakeHead);
      _ ← set_prev FakeTail (Some last);
      set_next last (Some FakeTail)) (λ _ q', queue_repr q' l ∧ same_attrs q q') q.
Proof.
  intros Hnd Hl Hout Hnum Ht Hh Hne.
  destruct l as [|a l1] eqn:Hla; [done|]. rewrite <-Hla in *.
  destruct (exists_last (l := l)) as (l2 & z & Hz); [done|].
  apply wp_bind, (wp_lift _ (Block a)); [apply (index_lookup _ 0); by rewrite Hla|].
  apply wp_bind, (wp_lift _ (Block z)); [rewrite Hz, fmap_app; apply index_last|].
  unfold set_next, set_prev. wp_steps. split; [|auto with queue].
  pose proof (chain_NoDup _ Hnd) as Hndc.
  apply repr_intro; [done| |by simp_links|by simp_links| |done].
  - assert (chain l = FakeHead :: (Block <$> l2) ++ [Block z; FakeTail]) as Hch.
    { unfold chain. by rewrite Hz, fmap_app, <-app_assoc. }
    rewrite (update_obj_comm _ (Block z) FakeTail) by done.
    fold (connect FakeHead (Block a) q). rewrite Hch, app_comm_cons.
    apply (linked_connect _ (FakeHead :: (Block <$> l2)) (Block z) FakeTail []).
    { rewrite Hch in Hndc. done. }
    2: done.
    change ((FakeHead :: (Block <$> l2)) ++ [Block z]) with (FakeHead :: ((Block <$> l2) ++ (Block <$> [z]))).
    rewrite <-fmap_app, <-Hz, Hla, fmap_cons.
    apply (linked_connect q [] FakeHead (Block a)); [|done|by rewrite <-fmap_cons, <-Hla].
    unfold chain in Hndc. rewrite app_comm_cons in Hndc. apply NoDup_app in Hndc as [Hndc _].
    by rewrite Hla in Hndc.
  - intros i Hi. assert (Block a ≠ Block i ∧ Block z ≠ Block i) as [??].
    { split; intros [= ->]; [subst l; set_solver|rewrite Hz in Hi; set_solver]. }
    simp_links. by apply Hout.
Qed.

Lemma queue_init_spec q l :
  NoDup l → (∀ i, i ∉ l → nxt q (Block i) = None ∧ prv q (Block i) = None) →
  wp (queue_init (Block <$> l)) (λ _ q', queue_repr q' l ∧ same_attrs q q') q.
Proof.
  intros Hnd Hout. unfold queue_init. wp_steps.
  set (q0 := mkQueue (store q) (len (Block <$> l))). eapply wp_mono.
  { apply (wp_for (λ pre, initing q0 (Block <$> l) (length pre))).
    - split; [simpl; lia..|done|done|apply same_attrs_refl].
    - intros pre x post q' [-> Hlt]%range_lookup_split HI.
      unfold len in Hlt. rewrite Nat2Z.id in Hlt.
      destruct (lookup_lt_is_Some_2 (Block <$> l) (length pre)) as [b Hb]; [done|].
      apply wp_bind, (wp_lift _ b); [by apply index_lookup|].
      rewrite length_app, Nat.add_1_r. apply init_step; [by apply blocks_NoDup|done..]. }
  simpl. intros u q' HI. rewrite range_length in HI. unfold len in HI.
  rewrite Nat2Z.id, length_fmap in HI.
  destruct (init_sentinels q0 l q' Hnd Hout HI) as [Hl Hout'].
  wp_steps. set (q1 := update_obj FakeTail _ _).
  assert (linked q1 (Block <$> l)) as Hl1.
  { eapply linked_frame; [|exact Hl]. intros c1 x y c2 Heq.
    assert (x ∈ Block <$> l ∧ y ∈ Block <$> l) as [Hx Hy] by (rewrite Heq; set_solver).
    apply list_elem_of_fmap in Hx as (? & -> & _). apply list_elem_of_fmap in Hy as (? & -> & _).
    unfold q1. by rewrite !nxt_fresh, !prv_fresh. }
  assert (same_attrs q q1) as Hat.
  { intros i. unfold q1. rewrite !obj_update, !decide_False by done. apply (init_attrs _ _ _ _ HI). }
  assert (num_free_blocks q1 = len l) as Hnum.
  { unfold q1. simpl. rewrite (init_num _ _ _ _ HI). unfold len. by rewrite length_fmap. }
  assert (∀ i, i ∉ l → nxt q1 (Block i) = None ∧ prv q1 (Block i) = None) as Hout1.
  { intros i Hi. unfold q1. rewrite !nxt_fresh, !prv_fresh. by apply Hout'. }
  case_decide as Hn.
  - eapply wp_mono; [apply init_connect; [done..|by unfold q1; rewrite !nxt_fresh
      |by unfold q1; rewrite !prv_fresh|by intros ->]|].
    intros ? q2 [? ?]. split; [done|]. by etrans.
  - assert (l = []) as -> by (destruct l; [done|]; unfold len in Hn; simpl in Hn; lia).
    unfold set_next, set_prev. wp_steps. split; [|by etrans; [exact Hat|auto with queue]].
    apply repr_intro; [by constructor| | | |by intros i Hi; simp_links; apply Hout1|done].
    + unfold chain. simpl. by simp_links.
    + simp_links. unfold q1. by rewrite !prv_fresh.
    + simp_links. unfold q1. by rewrite !nxt_fresh.
Qed.

(** ** The queue as an abstract data type

    The specification of the queue is a plain list of ids; the linked list
    simulates it over every sequence of operations, exceptions included. *)

Definition block_refs (l : list nat) : list ptr := Block <$> l.

Inductive queue_op :=
  | OpPopleft
  | OpPopleftN (n : nat)
  | OpRemove (i : nat)
  | OpAppend (i : nat)
  | OpPrependN (bs : list nat)
  | OpAppendN (bs : list nat).

Definition run_op (op : queue_op) : Q (list ptr) :=
  match op with
  | OpPopleft => p ← popleft; mret [p]
  | OpPopleftN n => popleft_n (Z.of_nat n)
  | OpRemove i => _ ← remove (Block i); mret []
  | OpAppend i => _ ← append (Block i); mret []
  | OpPrependN bs => _ ← prepend_n (Block <$> bs); mret []
  | OpAppendN bs => _ ← append_n (Block <$> bs); mret []
  end.

(** What the operation returns and leaves, on lists. *)
Definition spec_op (op : queue_op) (l : list nat) : res (list nat * list nat) :=
  match op with
  | OpPopleft => match l with i :: l => Ok ([i], l) | [] => Raise ValueError end
  | OpPopleftN n =>
      if decide (n ≤ length l)%nat then Ok (take n l, drop n l) else Raise AssertionError
  | OpRemove i => if decide (i ∈ l) then Ok ([], filter (.≠ i) l) else Raise RuntimeError
  | OpAppend i => Ok ([], l ++ [i])
  | OpPrependN bs => Ok ([], bs ++ l)
  | OpAppendN bs => Ok ([], l ++ bs)
  end.

(** A caller never puts back a block that is already free. *)
Definition op_allowed (op : queue_op) (l : list nat) : bool :=
  match op with
  | OpAppend i => bool_decide (i ∉ l)
  | OpPrependN bs | OpAppendN bs => bool_decide (NoDup (bs ++ l))
  | _ => true
  end.

Fixpoint run_ops (ops : list queue_op) : Q (list (list ptr)) :=
  match ops with
  | [] => mret []
  | op :: ops => r ← run_op op; rs ← run_ops ops; mret (r :: rs)
  end.

Fixpoint spec_ops (ops : list queue_op) (l : list nat) : res (list (list nat) * list nat) :=
  match ops with
  | [] => Ok ([], l)
  | op :: ops =>
      '(r, l1) ← spec_op op l; '(rs, l2) ← spec_ops ops l1; Ok (r :: rs, l2)
  end.

Fixpoint ops_allowed (ops : list queue_op) (l : list nat) : bool :=
  match ops with
  | [] => true
  | op :: ops =>
      op_allowed op l &&
      match spec_op op l with Ok (_, l') => ops_allowed ops l' | Raise _ => true end
  end.

Lemma filter_ne_mid (l1 l2 : list nat) i :
  NoDup (l1 ++ i :: l2) → filter (.≠ i) (l1 ++ i :: l2) = l1 ++ l2.
Proof.
  intros Hnd. pose proof Hnd as (Hnd1 & Hdis & [Hi Hnd2]%NoDup_cons)%NoDup_app.
  assert (∀ l : list nat, i ∉ l → filter (.≠ i) l = l) as Hf.
  { induction l as [|x l IH]; [done|]. intros Hx. rewrite filter_cons_True by set_solver.
    f_equal. set_solver. }
  rewrite filter_app, filter_cons_False by tauto.
  by rewrite (Hf l1), (Hf l2) by set_solver.
Qed.

(** The result of one operation agrees with the specification. *)
Definition agrees (q : FreeKVCacheBlockQueue) {A B} (conv : B → A)
    (r : res (A * FreeKVCacheBlockQueue)) (s : res (B * list nat)) : Prop :=
  match s, r with
  | Ok (b, l'), Ok (a, q') => a = conv b ∧ queue_repr q' l' ∧ same_attrs q q'
  | Raise e, Raise e' => e = e'
  | _, _ => False
  end.

Lemma wp_agrees {A B} (m : Q A) (conv : B → A) q b l' :
  wp m (λ a q', a = conv b ∧ queue_repr q' l' ∧ same_attrs q q') q →
  agrees q conv (m q) (Ok (b, l')).
Proof. unfold wp, agrees. by destruct (m q) as [[]|]. Qed.

Lemma run_op_agrees q l op :
  queue_repr q l → op_allowed op l = true →
  agrees q block_refs (run_op op q) (spec_op op l).
Proof.
  intros Hq Hal. destruct op as [|n|i|i|bs|bs]; cbn [run_op spec_op op_allowed] in Hal |- *.
  - destruct l as [|i l].
    + unfold mbind, M_bind. by rewrite popleft_empty.
    + apply wp_agrees, wp_bind. eapply wp_mono; [by apply popleft_spec|].
      intros p q' (-> & ? & ?). by apply wp_ret.
  - case_decide as Hn.
    + apply wp_agrees. eapply wp_mono; [apply (popleft_n_spec _ l); [done|unfold len; lia]|].
      intros ps q'. by rewrite Nat2Z.id.
    + rewrite (popleft_n_too_many _ l); [done..|unfold len; lia].
  - case_decide as Hi.
    + apply list_elem_of_split in Hi as (l1 & l2 & ->).
      rewrite filter_ne_mid by (by eapply repr_NoDup).
      apply wp_agrees, wp_bind. eapply wp_mono; [by apply remove_spec|].
      intros u q' (? & ?). by apply wp_ret.
    + unfold mbind, M_bind. by rewrite (remove_not_queued _ l).
  - apply bool_decide_eq_true in Hal. apply wp_agrees, wp_bind.
    eapply wp_mono; [by apply append_spec|]. intros u q' (? & ?). by apply wp_ret.
  - apply bool_decide_eq_true in Hal. apply wp_agrees, wp_bind.
    eapply wp_mono; [by apply prepend_n_spec|]. intros u q' (? & ?). by apply wp_ret.
  - apply bool_decide_eq_true in Hal. apply wp_agrees, wp_bind.
    eapply wp_mono; [apply append_n_spec; [done|by rewrite (comm (++))]|].
    intros u q' (? & ?). by apply wp_ret.
Qed.

Lemma run_ops_agrees q l ops :
  queue_repr q l → ops_allowed ops l = true →
  agrees q (fmap (M := list) (block_refs)) (run_ops ops q) (spec_ops ops l).
Proof.
  revert q l. induction ops as [|op ops IH]; intros q l Hq Hal.
  { simpl. split_and!; [done..|apply same_attrs_refl]. }
  simpl in Hal. apply andb_true_iff in Hal as [Hop Hal].
  pose proof (run_op_agrees q l op Hq Hop) as H1. simpl. unfold mbind at 1 3, M_bind, res_bind.
  destruct (spec_op op l) as [[r l1]|e], (run_op op q) as [[a q1]|e']; try done.
  destruct H1 as (-> & Hq1 & Hs1). pose proof (IH q1 l1 Hq1 Hal) as H2.
  unfold mbind, M_bind, res_bind.
  destruct (spec_ops ops l1) as [[rs l2]|e], (run_ops ops q1) as [[a q2]|e']; try done.
  destruct H2 as (-> & Hq2 & Hs2). split_and!; [done..|]. by etrans.
Qed.

(** ** Main theorems *)

(** C9: the linked list implements a list.  Build the queue over any distinct blocks that
    are not linked yet and run any sequence of operations in which a block is never put
    back while it is free: every operation returns what the same operation returns on a
    plain list of block ids, raises exactly when that one raises, with the same exception,
    and afterwards the pointers represent the list, the counter is its length and no other
    attribute of a block has changed. *)
Theorem free_queue_refines_list q l ops :
  NoDup l → (∀ i, i ∉ l → nxt q (Block i) = None ∧ prv q (Block i) = None) →
  ops_allowed ops l = true →
  ∃ q0, queue_init (block_refs l) q = Ok (tt, q0) ∧ queue_repr q0 l ∧ same_attrs q q0 ∧
    match spec_ops ops l, run_ops ops q0 with
    | Ok (rs, l'), Ok (ps, q') =>
        ps = block_refs <$> rs ∧ queue_repr q' l' ∧ num_free_blocks q' = len l' ∧ same_attrs q0 q'
    | Raise e, Raise e' => e = e'
    | _, _ => False
    end.
Proof.
  intros Hnd Hout Hal.
  pose proof (queue_init_spec q l Hnd Hout) as ([] & q0 & Hinit & Hq0 & Ha0)%wp_run.
  exists q0. split_and!; [done..|]. pose proof (run_ops_agrees q0 l ops Hq0 Hal) as Hag.
  unfold agrees in Hag.
  destruct (spec_ops ops l) as [[rs l']|e], (run_ops ops q0) as [[ps q']|e']; try done.
  destruct Hag as (-> & Hq' & Ha'). split_and!; try done. apply (repr_num _ _ Hq').
Qed.

Lemma free_queue_refines_list_witness :
  ∃ q0, queue_init (block_refs [0; 1; 2; 3]%nat) (mkQueue ∅ 0) = Ok (tt, q0) ∧
    match run_ops [OpPopleftN 2; OpRemove 3; OpAppend 0; OpPrependN [1; 3]; OpRemove 3; OpPopleft]%nat q0 with
    | Ok (ps, q') => ps = block_refs <$> [[0; 1]; []; []; []; []; [1]]%nat ∧ queue_repr q' [2; 0]%nat
    | Raise _ => False
    end.
Proof.
  destruct (free_queue_refines_list (mkQueue ∅ 0) [0; 1; 2; 3]%nat
    [OpPopleftN 2; OpRemove 3; OpAppend 0; OpPrependN [1; 3]; OpRemove 3; OpPopleft]%nat)
    as (q0 & Hi & _ & _ & Hrun).
  - repeat (apply NoDup_cons; split; [set_solver|]). apply NoDup_nil_2.
  - intros i _. split; reflexivity.
  - vm_compute. reflexivity.
  - exists q0. split; [exact Hi|]. revert Hrun.
    match goal with |- context [spec_ops ?a ?b] => let r := eval vm_compute in (spec_ops a b) in
      change (spec_ops a b) with r end.
    destruct (run_ops _ q0) as [[ps q']|e]; [|done]. intros (Hps & Hq & _). by split.
Defined.

(** Reading the queue terminates and is complete: with fuel for one step per free block
    and one more, [get_all_free_blocks] returns every free block once, in queue order, and
    [iter_blocks_after] yields exactly the blocks behind its cursor. *)
Lemma free_queue_enumeration q l :
  queue_repr q l →
  get_all_free_blocks (S (Z.to_nat (num_free_blocks q))) q = Ok (block_refs l, q) ∧
  ∀ l1 i l2, l = l1 ++ i :: l2 →
    iter_blocks_after (Z.to_nat (num_free_blocks q)) (Some (Block i)) q = Ok (block_refs l2, q).
Proof.
  intros Hq. pose proof (repr_num _ _ Hq) as Hnum. unfold len in Hnum. split.
  - apply get_all_free_blocks_spec; [done|lia].
  - intros l1 i l2 ->. apply (iter_blocks_after_spec _ _ l1); [done|].
    rewrite Hnum, length_app. simpl. lia.
Qed.

