(* ===== verification/Request.v ===== *)
(** * Requests (src/vllm/v1/request.py)

    The engine core's view of a generation request: the [Request] object, its
    status enumeration and the order that priority scheduling uses.

    What a request only carries along (trace headers, statistics, transfer
    parameters, the compiled grammar) has no field here; a structured-output
    request is represented by its presence. *)

From S2P Require Import Prelude FreeQueue.

Inductive RequestStatus :=
  | WAITING
  | WAITING_FOR_STRUCTURED_OUTPUT_GRAMMAR
  | WAITING_FOR_REMOTE_KVS
  | WAITING_FOR_STREAMING_REQ
  | RUNNING
  | PREEMPTED
  | FINISHED_STOPPED
  | FINISHED_LENGTH_CAPPED
  | FINISHED_ABORTED
  | FINISHED_IGNORED
  | FINISHED_ERROR
  | FINISHED_REPETITION.

#[global] Instance RequestStatus_eq_dec : EqDecision RequestStatus.
Proof. solve_decision. Defined.

(** [enum.auto()] numbers the members from 1. *)
Definition status_value (s : RequestStatus) : Z :=
  match s with
  | WAITING => 1
  | WAITING_FOR_STRUCTURED_OUTPUT_GRAMMAR => 2
  | WAITING_FOR_REMOTE_KVS => 3
  | WAITING_FOR_STREAMING_REQ => 4
  | RUNNING => 5
  | PREEMPTED => 6
  | FINISHED_STOPPED => 7
  | FINISHED_LENGTH_CAPPED => 8
  | FINISHED_ABORTED => 9
  | FINISHED_IGNORED => 10
  | FINISHED_ERROR => 11
  | FINISHED_REPETITION => 12
  end.

Definition is_finished_status (s : RequestStatus) : bool :=
  status_value PREEMPTED <? status_value s.

Inductive FinishReason := STOP | LENGTH | ABORT | ERROR | REPETITION.

(** [_FINISHED_REASON_MAP.get(status)] *)
Definition finished_reason (s : RequestStatus) : option FinishReason :=
  match s with
  | FINISHED_STOPPED => Some STOP
  | FINISHED_LENGTH_CAPPED => Some LENGTH
  | FINISHED_ABORTED => Some ABORT
  | FINISHED_IGNORED => Some LENGTH
  | FINISHED_ERROR => Some ERROR
  | WAITING_FOR_STREAMING_REQ => Some STOP
  | FINISHED_REPETITION => Some REPETITION
  | _ => None
  end.

(** ** What a request refers to *)

Record PlaceholderRange := mkPlaceholderRange {
  offset : Z;
  length_ : Z;
  is_embed : option (list bool)
}.

(** [is_embed.cumsum(dim=0).tolist()] *)
Fixpoint cumsum (acc : Z) (mask : list bool) : list Z :=
  match mask with
  | [] => []
  | b :: mask => let acc := acc + (if b then 1 else 0) in acc :: cumsum acc mask
  end.

Definition embeds_cumsum (p : PlaceholderRange) : option (list Z) :=
  cumsum 0 <$> is_embed p.

Definition get_num_embeds (p : PlaceholderRange) : Z :=
  match embeds_cumsum p with
  | None => length_ p
  | Some c => default 0 (last c)
  end.

Definition get_embeds_indices_in_range (p : PlaceholderRange) (start_idx end_idx : Z) :
    res (Z * Z) :=
  match embeds_cumsum p with
  | None => Ok (start_idx, end_idx)
  | Some c =>
      s ← (if decide (start_idx > 0) then index c (start_idx - 1) else Ok 0);
      e ← (if decide (end_idx > 0) then index c (end_idx - 1) else Ok 0);
      Ok (s, e)
  end.

Record MultiModalFeatureSpec := mkMMFeature {
  identifier : string;
  mm_position : PlaceholderRange
}.

Record LoRARequest := mkLoRARequest {
  lora_name : string;
  lora_int_id : Z
}.

Record RepetitionDetectionParams := mkRepetition {
  max_pattern_size : Z;
  min_pattern_size : Z;
  min_count : Z
}.

Record SamplingParams := mkSamplingParams {
  sp_max_tokens : option Z;
  min_tokens : Z;
  eos_token_id : option Z;
  stop_token_ids : option (list Z);
  repetition_detection : option RepetitionDetectionParams;
  sp_skip_reading_prefix_cache : option bool;
  (* [structured_outputs] is set and constrains something *)
  structured_outputs : bool;
  (* [extra_args["kv_cache_report_mode"]] *)
  extra_kv_cache_report_mode : option string
}.

Record PoolingParams := mkPoolingParams {
  pp_skip_reading_prefix_cache : option bool
}.

(** [Request.stop_reason : int | str | None] *)
Inductive StopReason := StopToken (t : Z) | StopString (s : string).

Record Request := mkRequest {
  object_id : Z; (* [id(self)] *)
  request_id : string;
  client_index : Z;
  priority : Z;
  arrival_time : Z; (* a clock reading; only compared *)
  sampling_params : option SamplingParams;
  pooling_params : option PoolingParams;
  lora_request : option LoRARequest;
  use_structured_output : bool;
  status : RequestStatus;
  stop_reason : option StopReason;
  kv_cache_report_mode : option string;
  max_tokens : Z;
  prompt_token_ids : option (list Z);
  prompt_embeds : option (list (list Z));
  prompt_embeds_per_block_hashes : gmap (Z * Z) bytes;
  num_prompt_tokens : Z;
  output_token_ids : list Z;
  all_token_ids : list Z;
  num_output_placeholders : Z;
  num_stale_output_tokens : Z;
  drop_stale_output : bool;
  num_in_flight_tokens : Z;
  next_decode_eligible_step : Z;
  last_sched_seq : Z;
  spec_token_ids : list Z;
  num_computed_tokens : Z;
  cache_salt : option string;
  mm_features : list MultiModalFeatureSpec;
  is_prefill_chunk : bool;
  shared_prefix_boundary : Z;
  num_preemptions : Z;
  block_hashes : list bytes;
  skip_reading_prefix_cache : bool;
  resumable : bool;
  abort_immediately : bool
}.

#[global] Instance Request_eta : Eta Request := λ r, mkRequest
  (object_id r) (request_id r) (client_index r) (priority r) (arrival_time r)
  (sampling_params r) (pooling_params r) (lora_request r) (use_structured_output r)
  (status r) (stop_reason r) (kv_cache_report_mode r) (max_tokens r)
  (prompt_token_ids r) (prompt_embeds r) (prompt_embeds_per_block_hashes r)
  (num_prompt_tokens r) (output_token_ids r) (all_token_ids r)
  (num_output_placeholders r) (num_stale_output_tokens r) (drop_stale_output r)
  (num_in_flight_tokens r) (next_decode_eligible_step r) (last_sched_seq r)
  (spec_token_ids r) (num_computed_tokens r) (cache_salt r) (mm_features r)
  (is_prefill_chunk r) (shared_prefix_boundary r) (num_preemptions r)
  (block_hashes r) (skip_reading_prefix_cache r) (resumable r) (abort_immediately r).

(** ** Methods *)

Definition num_tokens (r : Request) : Z := len (all_token_ids r).
Definition num_tokens_with_spec (r : Request) : Z :=
  len (all_token_ids r) + len (spec_token_ids r).
Definition num_output_tokens (r : Request) : Z := len (output_token_ids r).
Definition num_encoder_inputs (r : Request) : Z := len (mm_features r).
Definition has_encoder_inputs (r : Request) : bool := 0 <? num_encoder_inputs r.
Definition is_finished (r : Request) : bool := is_finished_status (status r).
Definition get_finished_reason (r : Request) : option FinishReason := finished_reason (status r).

Definition get_num_encoder_embeds (r : Request) (input_id : Z) : res Z :=
  if decide (input_id < len (mm_features r)) then
    f ← index (mm_features r) input_id; Ok (get_num_embeds (mm_position f))
  else Raise AssertionError.

(** The [_block_hasher] closure is an argument: it returns the hashes of the full
    blocks that have none yet, and the request, on which it memoises digests. *)
Definition block_hasher := Request → res (list bytes * Request).

Definition update_block_hashes (hasher : option block_hasher) (r : Request) : res Request :=
  match hasher with
  | None => Ok r
  | Some h => '(hs, r) ← h r; Ok (r <| block_hashes ::= (.++ hs) |>)
  end.

(** An [int] argument is the one-element list. *)
Definition append_output_token_ids (hasher : option block_hasher) (r : Request)
    (token_ids : list Z) : res Request :=
  update_block_hashes hasher
    (r <| output_token_ids ::= (.++ token_ids) |> <| all_token_ids ::= (.++ token_ids) |>).

Definition get_skip_reading_prefix_cache (sp : option SamplingParams)
    (pp : option PoolingParams) : bool :=
  match sp ≫= sp_skip_reading_prefix_cache, pp ≫= pp_skip_reading_prefix_cache with
  | Some b, _ => b
  | None, Some b => b
  | None, None => false
  end.

Definition length_from_prompt_token_ids_or_embeds
    (prompt_token_ids : option (list Z)) (prompt_embeds : option (list (list Z))) : res Z :=
  match prompt_token_ids, prompt_embeds with
  | None, None => Raise ValueError
  | None, Some e => Ok (len e)
  | Some t, None => Ok (len t)
  | Some t, Some e => if decide (len e ≠ len t) then Raise ValueError else Ok (len t)
  end.

(** The initial [_all_token_ids]: placeholders where the prompt has embeddings. *)
Definition initial_token_ids (prompt_token_ids : option (list Z))
    (prompt_is_token_ids : option (list bool)) (num_prompt_tokens : Z) : list Z :=
  match prompt_token_ids, prompt_is_token_ids with
  | None, _ => replicate (Z.to_nat num_prompt_tokens) 0
  | Some ts, None => ts
  | Some ts, Some is_tok => zip_with (λ t (b : bool), if b then t else 0) ts is_tok
  end.

(** [Request.__init__] *)
Definition new_Request (oid : Z) (request_id : string) (prompt_token_ids : option (list Z))
    (sp : option SamplingParams) (pp : option PoolingParams) (client_index arrival_time : Z)
    (prompt_embeds : option (list (list Z))) (prompt_is_token_ids : option (list bool))
    (mm_features : list MultiModalFeatureSpec) (lora_request : option LoRARequest)
    (cache_salt : option string) (priority : Z) (hasher : option block_hasher)
    (resumable abort_immediately : bool) : res Request :=
  let structured := match sp with Some p => structured_outputs p | None => false end in
  '(max_tokens, status, report_mode) ←
    match pp, sp with
    | Some _, _ => Ok (1, WAITING, None)
    | None, Some p =>
        match sp_max_tokens p with
        | None => Raise AssertionError
        | Some m =>
            Ok (m, if structured then WAITING_FOR_STRUCTURED_OUTPUT_GRAMMAR else WAITING,
                Some (default "incremental"%string (extra_kv_cache_report_mode p)))
        end
    | None, None => Raise ValueError
    end;
  num_prompt_tokens ← length_from_prompt_token_ids_or_embeds prompt_token_ids prompt_embeds;
  update_block_hashes hasher {|
    object_id := oid; request_id := request_id; client_index := client_index;
    priority := priority; arrival_time := arrival_time; sampling_params := sp;
    pooling_params := pp; lora_request := lora_request; use_structured_output := structured;
    status := status; stop_reason := None; kv_cache_report_mode := report_mode;
    max_tokens := max_tokens; prompt_token_ids := prompt_token_ids;
    prompt_embeds := prompt_embeds; prompt_embeds_per_block_hashes := ∅;
    num_prompt_tokens := num_prompt_tokens; output_token_ids := [];
    all_token_ids := initial_token_ids prompt_token_ids prompt_is_token_ids num_prompt_tokens;
    num_output_placeholders := 0; num_stale_output_tokens := 0; drop_stale_output := false;
    num_in_flight_tokens := 0; next_decode_eligible_step := 0; last_sched_seq := 0;
    spec_token_ids := []; num_computed_tokens := 0; cache_salt := cache_salt;
    mm_features := mm_features; is_prefill_chunk := false; shared_prefix_boundary := 0;
    num_preemptions := 0; block_hashes := [];
    skip_reading_prefix_cache := get_skip_reading_prefix_cache sp pp;
    resumable := resumable; abort_immediately := abort_immediately |}.

(** [Request.__lt__] *)
Definition request_ltb (self other : Request) : bool :=
  if decide (priority self ≠ priority other) then priority self <? priority other
  else if decide (arrival_time self ≠ arrival_time other) then
    arrival_time self <? arrival_time other
  else if decide (request_id self ≠ request_id other) then
    String.ltb (request_id self) (request_id other)
  else object_id self <? object_id other.

#[global] Instance Request_inhabited : Inhabited Request :=
  populate (mkRequest 0 "" 0 0 0 None None None false WAITING None None 0 None None ∅ 0 [] []
              0 0 false 0 0 0 [] 0 None [] false 0 0 [] false false false).
