(* ===== verification/Hashing.v ===== *)
(** * Block hashes for prefix caching (src/vllm/v1/core/kv_cache_utils.py)

    A request's tokens are cut into blocks of [hash_block_size]; the hash of a
    block covers the block's tokens, its extra keys (LoRA, multi-modal items,
    cache salt, prompt embeddings) and the hash of the block before it.

    The hash functions are library code (sha256, xxhash, CBOR): [hash_function]
    and [sha256] are parameters of the definitions. *)

From S2P Require Import Prelude FreeQueue Request.

(** ** Keys of the prefix cache *)

(** [int.to_bytes(n, "big", signed=False)] and its inverse. *)
Fixpoint be_bytes (n : nat) (v : Z) : bytes :=
  match n with
  | O => []
  | S n => be_bytes n (v // 256) ++ [v mod 256]
  end.

Definition to_bytes (n : nat) (v : Z) : res bytes :=
  if decide (0 ≤ v < 256 ^ Z.of_nat n) then Ok (be_bytes n v) else Raise OverflowError.

Definition from_bytes (bs : bytes) : Z := foldl (λ acc b, acc * 256 + b) 0 bs.

Definition make_block_hash_with_group_id (block_hash : bytes) (group_id : Z) : res bytes :=
  g ← to_bytes 4 group_id; Ok (block_hash ++ g).

Definition get_block_hash (key : bytes) : bytes := slice_to key (-4).
Definition get_group_id (key : bytes) : Z := from_bytes (slice_from key (-4)).

Inductive ExternalBlockHash :=
  | ExtBytes (h : bytes)
  | ExtInt (n : Z).

#[global] Instance ExternalBlockHash_eq_dec : EqDecision ExternalBlockHash.
Proof. solve_decision. Defined.

(** [use_int] is [envs.VLLM_KV_EVENTS_USE_INT_BLOCK_HASHES]. *)
Definition maybe_convert_block_hash (use_int : bool) (hash_bytes : bytes) : ExternalBlockHash :=
  if negb use_int then ExtBytes hash_bytes
  else ExtInt (Z.land (from_bytes hash_bytes) (Z.shiftl 1 64 - 1)).

(** ** Extra keys *)

Inductive ExtraKey :=
  | KeyStr (s : string)
  | KeyMM (identifier : string) (rel_offset : Z)
  | KeyBytes (b : bytes).

#[global] Instance ExtraKey_eq_dec : EqDecision ExtraKey.
Proof. solve_decision. Defined.

(** The [while] loop of [_gen_mm_extra_hash_keys], over the features from
    [curr_mm_idx] on. *)
Fixpoint mm_keys_loop (feats : list MultiModalFeatureSpec) (curr_mm_idx : Z)
    (start_token_idx end_token_idx : Z) (extra_keys : list ExtraKey) : list ExtraKey * Z :=
  match feats with
  | [] => (extra_keys, curr_mm_idx)
  | f :: feats =>
      let off := offset (mm_position f) in
      let length := length_ (mm_position f) in
      if decide (end_token_idx > off) then
        if decide (off + length ≤ start_token_idx) then
          mm_keys_loop feats (curr_mm_idx + 1) start_token_idx end_token_idx extra_keys
        else
          let extra_keys := extra_keys ++ [KeyMM (identifier f) (off - start_token_idx)] in
          if decide (off + length ≤ end_token_idx) then
            mm_keys_loop feats (curr_mm_idx + 1) start_token_idx end_token_idx extra_keys
          else (extra_keys, curr_mm_idx)
      else (extra_keys, curr_mm_idx)
  end.

Definition _gen_mm_extra_hash_keys (r : Request) (start_token_idx end_token_idx start_mm_idx : Z) :
    res (list ExtraKey * Z) :=
  match last (mm_features r) with
  | None => Ok ([], start_mm_idx)
  | Some last_feature =>
      let last_pos := mm_position last_feature in
      if decide (offset last_pos + length_ last_pos ≤ start_token_idx) then
        Ok ([], start_mm_idx)
      else
        curr_mm_idx ←
          (if decide (start_mm_idx < 0) then
             if decide (- start_mm_idx ≤ len (mm_features r)) then
               Ok (len (mm_features r) + start_mm_idx)
             else Raise AssertionError
           else Ok start_mm_idx);
        Ok (mm_keys_loop (drop (Z.to_nat curr_mm_idx) (mm_features r)) curr_mm_idx
              start_token_idx end_token_idx [])
  end.

Definition _gen_lora_extra_hash_keys (r : Request) : list ExtraKey :=
  match lora_request r with
  | None => []
  | Some l => [KeyStr (lora_name l)]
  end.

Section hashing.
(** [hashlib.sha256(tensor_data(rows)).digest()] *)
Variable sha256 : list (list Z) → bytes.

(** The digest is memoised on the request, which is returned updated. *)
Definition _gen_prompt_embeds_extra_hash_keys (r : Request) (start_token_idx end_token_idx : Z) :
    list ExtraKey * Request :=
  match prompt_embeds r with
  | None => ([], r)
  | Some rows =>
      let block_range := (start_token_idx, end_token_idx) in
      match prompt_embeds_per_block_hashes r !! block_range with
      | Some h => ([KeyBytes h], r)
      | None =>
          let h := sha256 (slice rows start_token_idx end_token_idx) in
          ([KeyBytes h], r <| prompt_embeds_per_block_hashes ::= insert block_range h |>)
      end
  end.

(** A [cache_salt] counts when it is a non-empty string. *)
Definition cache_salt_keys (r : Request) (start_token_idx : Z) : list ExtraKey :=
  match cache_salt r with
  | Some s => if decide (start_token_idx = 0 ∧ s ≠ EmptyString) then [KeyStr s] else []
  | None => []
  end.

Definition generate_block_hash_extra_keys (r : Request)
    (start_token_idx end_token_idx start_mm_idx : Z) :
    res (option (list ExtraKey) * Z * Request) :=
  '(mm_extra_keys, new_start_mm_idx) ←
    _gen_mm_extra_hash_keys r start_token_idx end_token_idx start_mm_idx;
  let lora_extra_keys := _gen_lora_extra_hash_keys r in
  let cache_salt_keys := cache_salt_keys r start_token_idx in
  let '(prompt_embeds_keys, r) :=
    _gen_prompt_embeds_extra_hash_keys r start_token_idx end_token_idx in
  let extra_keys := lora_extra_keys ++ mm_extra_keys ++ cache_salt_keys ++ prompt_embeds_keys in
  match extra_keys with
  | [] => Ok (None, new_start_mm_idx, r)
  | _ => Ok (Some extra_keys, new_start_mm_idx, r)
  end.

(** The block hash function: sha256, sha256_cbor, xxhash or xxhash_cbor applied to
    the tuple of parent hash, tokens and extra keys. *)
Variable hash_function : bytes * list Z * option (list ExtraKey) → bytes.
(** The global [NONE_HASH]. *)
Variable NONE_HASH : bytes.

Definition hash_block_tokens (parent_block_hash : option bytes) (curr_block_token_ids : list Z)
    (extra_keys : option (list ExtraKey)) : bytes :=
  let parent := match parent_block_hash with
                | None | Some [] => NONE_HASH
                | Some h => h
                end in
  hash_function (parent, curr_block_token_ids, extra_keys).

(** The [while True] loop of [request_block_hasher]. *)
Fixpoint hasher_loop (fuel : nat) (hash_block_size : Z) (r : Request)
    (start_token_idx curr_mm_idx : Z) (prev_block_hash_value : option bytes)
    (new_block_hashes : list bytes) : res (list bytes * Request) :=
  match fuel with
  | O => Raise OutOfFuel
  | S fuel =>
      let end_token_idx := start_token_idx + hash_block_size in
      if decide (end_token_idx > num_tokens r) then Ok (new_block_hashes, r) else
      '(extra_keys, curr_mm_idx, r) ←
        generate_block_hash_extra_keys r start_token_idx end_token_idx curr_mm_idx;
      let block_tokens := slice (all_token_ids r) start_token_idx end_token_idx in
      let block_hash := hash_block_tokens prev_block_hash_value block_tokens extra_keys in
      hasher_loop fuel hash_block_size r (start_token_idx + hash_block_size) curr_mm_idx
        (Some block_hash) (new_block_hashes ++ [block_hash])
  end.

(** [get_request_block_hasher(hash_block_size, caching_hash_fn)] *)
Definition request_block_hasher (hash_block_size : Z) : block_hasher := λ r,
  let start_token_idx := len (block_hashes r) * hash_block_size in
  if decide (start_token_idx + hash_block_size > num_tokens r) then Ok ([], r) else
  let curr_mm_idx := if decide (start_token_idx > 0) then -1 else 0 in
  let prev_block_hash_value := last (block_hashes r) in
  hasher_loop (S (length (all_token_ids r))) hash_block_size r start_token_idx curr_mm_idx
    prev_block_hash_value [].
End hashing.

(** ** Block hashes at a coarser granularity *)

Record BlockHashListWithBlockSize := mkBlockHashList {
  bhl_block_hashes : list bytes;
  scale_factor : Z
}.

Definition new_BlockHashListWithBlockSize (block_hashes : list bytes)
    (hash_block_size target_block_size : Z) : res BlockHashListWithBlockSize :=
  if decide (target_block_size mod hash_block_size = 0) then
    Ok (mkBlockHashList block_hashes (target_block_size // hash_block_size))
  else Raise AssertionError.

Definition bhl_len (v : BlockHashListWithBlockSize) : Z :=
  len (bhl_block_hashes v) // scale_factor v.

Definition _get_value_at (v : BlockHashListWithBlockSize) (idx : Z) : res bytes :=
  index (bhl_block_hashes v) ((idx + 1) * scale_factor v - 1).

(** [BlockHashList = list[BlockHash] | BlockHashListWithBlockSize] *)
Inductive BlockHashList :=
  | HashList (hs : list bytes)
  | HashView (v : BlockHashListWithBlockSize).

Definition hashes_len (hs : BlockHashList) : Z :=
  match hs with HashList l => len l | HashView v => bhl_len v end.

(** [hs[idx]] *)
Definition hashes_get (hs : BlockHashList) (idx : Z) : res bytes :=
  match hs with HashList l => index l idx | HashView v => _get_value_at v idx end.

(** [hs[start:]] for a non-negative [start]; [slice.indices] clips it to the length. *)
Definition hashes_from (hs : BlockHashList) (start : Z) : res (list bytes) :=
  match hs with
  | HashList l => Ok (slice_from l start)
  | HashView v =>
      mapM (M := res) (_get_value_at v) (range (Z.min start (bhl_len v)) (bhl_len v))
  end.

(** [resolve_block_hashes] with its two keyword arguments. *)
Definition resolve_block_hashes (block_hashes : BlockHashList) (hash_block_size block_size : Z)
    (supports_fine_grained_hash_lookup : bool) (alignment_tokens : option Z) :
    res BlockHashList :=
  if decide (block_size = hash_block_size) then Ok block_hashes else
  match block_hashes with
  | HashView v =>
      if decide (scale_factor v = block_size // hash_block_size) then Ok block_hashes
      else Raise AssertionError
  | HashList l =>
      let keep_raw :=
        supports_fine_grained_hash_lookup &&
        match alignment_tokens with
        | Some a => bool_decide (a < block_size ∧ block_size mod a = 0)
        | None => false
        end in
      if keep_raw then Ok block_hashes
      else if decide (block_size mod hash_block_size = 0) then
        v ← new_BlockHashListWithBlockSize l hash_block_size block_size; Ok (HashView v)
      else Raise AssertionError
  end.

(** ** The seed of the first block's parent hash *)

Definition DEFAULT_NONE_HASH_SEED : string := "vllm-none-hash".

(** [env_seed] is [os.getenv("PYTHONHASHSEED")], [non_crypto] membership in
    [_NON_CRYPTO_HASH_FUNCTIONS], [urandom] the random hex string. *)
Definition resolve_none_hash_seed (env_seed : option string) (non_crypto : bool)
    (urandom : string) : string :=
  match env_seed with
  | Some s => s
  | None => if non_crypto then urandom else DEFAULT_NONE_HASH_SEED
  end.

(** ** Packing and unpacking cache keys *)

Lemma be_bytes_length n v : length (be_bytes n v) = n.
Proof.
  revert v. induction n as [|n IH]; intros v; simpl; [done|].
  rewrite length_app, IH. simpl. lia.
Qed.

Lemma from_bytes_snoc bs b : from_bytes (bs ++ [b]) = from_bytes bs * 256 + b.
Proof. unfold from_bytes. by rewrite foldl_app. Qed.

Lemma from_be_bytes n v : 0 ≤ v < 256 ^ Z.of_nat n → from_bytes (be_bytes n v) = v.
Proof.
  revert v. induction n as [|n IH]; intros v Hv.
  - change (256 ^ Z.of_nat 0) with 1 in Hv. unfold from_bytes. simpl. lia.
  - rewrite Nat2Z.inj_succ, Z.pow_succ_r in Hv by lia. simpl.
    rewrite from_bytes_snoc, IH.
    + pose proof (Z.div_mod v 256). lia.
    + split; [apply Z.div_pos; lia|]. apply Z.div_lt_upper_bound; lia.
Qed.

Lemma make_block_hash_spec h g :
  0 ≤ g < 2 ^ 32 → make_block_hash_with_group_id h g = Ok (h ++ be_bytes 4 g).
Proof.
  intros Hg. unfold make_block_hash_with_group_id, to_bytes.
  change (256 ^ Z.of_nat 4) with (2 ^ 32). by rewrite decide_True.
Qed.

Lemma be_bytes_4 g : len (be_bytes 4 g) = 4.
Proof. unfold len. by rewrite be_bytes_length. Qed.

Lemma get_block_hash_packed h g : get_block_hash (h ++ be_bytes 4 g) = h.
Proof.
  unfold get_block_hash. change (-4) with (Z.opp 4).
  rewrite <-(be_bytes_4 g). apply slice_to_suffix.
  intros Heq. pose proof (be_bytes_4 g) as Hlen. by rewrite Heq in Hlen.
Qed.

Lemma get_group_id_packed h g : 0 ≤ g < 2 ^ 32 → get_group_id (h ++ be_bytes 4 g) = g.
Proof.
  intros Hg. unfold get_group_id. change (-4) with (Z.opp 4).
  rewrite <-(be_bytes_4 g). rewrite slice_from_suffix.
  - by apply from_be_bytes.
  - intros Heq. pose proof (be_bytes_4 g) as Hlen. by rewrite Heq in Hlen.
Qed.

Lemma make_block_hash_Ok h g k :
  make_block_hash_with_group_id h g = Ok k → 0 ≤ g < 2 ^ 32 ∧ k = h ++ be_bytes 4 g.
Proof.
  unfold make_block_hash_with_group_id, to_bytes. change (256 ^ Z.of_nat 4) with (2 ^ 32).
  case_decide; [|done]. intros [= <-]. done.
Qed.

Lemma make_block_hash_inj h g h' g' k :
  make_block_hash_with_group_id h g = Ok k → make_block_hash_with_group_id h' g' = Ok k →
  h = h' ∧ g = g'.
Proof.
  intros [Hg Hk]%make_block_hash_Ok [Hg' Hk']%make_block_hash_Ok. split.
  - rewrite <-(get_block_hash_packed h g), <-(get_block_hash_packed h' g'). congruence.
  - rewrite <-(get_group_id_packed h g Hg), <-(get_group_id_packed h' g' Hg'). congruence.
Qed.

(** ** Extra keys of a block

    The specification: the items that overlap the block, in order. *)

Definition mm_end (f : MultiModalFeatureSpec) : Z :=
  offset (mm_position f) + length_ (mm_position f).

Definition mm_overlaps (s e : Z) (f : MultiModalFeatureSpec) : Prop :=
  s < mm_end f ∧ offset (mm_position f) < e.
#[global] Instance mm_overlaps_dec s e f : Decision (mm_overlaps s e f).
Proof. unfold mm_overlaps. apply _. Defined.

Definition mm_key (s : Z) (f : MultiModalFeatureSpec) : ExtraKey :=
  KeyMM (identifier f) (offset (mm_position f) - s).

Definition mm_keys (feats : list MultiModalFeatureSpec) (s e : Z) : list ExtraKey :=
  mm_key s <$> filter (mm_overlaps s e) feats.

(** Items are sorted by offset, disjoint and not empty. *)
Definition mm_sorted (feats : list MultiModalFeatureSpec) : Prop :=
  StronglySorted (λ f g, mm_end f ≤ offset (mm_position g)) feats ∧
  Forall (λ f, 0 ≤ offset (mm_position f) ∧ 0 < length_ (mm_position f)) feats.

(** The position in the item list that an [mm_idx] denotes ([-1]: the last item). *)
Definition mm_pos (feats : list MultiModalFeatureSpec) (i : Z) : nat :=
  Z.to_nat (if decide (i < 0) then len feats + i else i).

(** [i] is an index to start from for a block at [s]: all items before it end by [s]. *)
Definition mm_idx_ok (feats : list MultiModalFeatureSpec) (s i : Z) : Prop :=
  (feats = [] ∨ - len feats ≤ i) ∧ Forall (λ f, mm_end f ≤ s) (take (mm_pos feats i) feats).

Lemma mm_filter_passed feats s e :
  Forall (λ f, mm_end f ≤ s) feats → filter (mm_overlaps s e) feats = [].
Proof.
  intros Hall. induction Hall as [|f feats Hf Hall IH]; [done|].
  rewrite filter_cons_False; [done|]. unfold mm_overlaps. lia.
Qed.

Lemma mm_filter_ahead feats s e :
  Forall (λ f, e ≤ offset (mm_position f)) feats → filter (mm_overlaps s e) feats = [].
Proof.
  intros Hall. induction Hall as [|f feats Hf Hall IH]; [done|].
  rewrite filter_cons_False; [done|]. unfold mm_overlaps. lia.
Qed.

Lemma mm_sorted_cons f feats : mm_sorted (f :: feats) →
  mm_sorted feats ∧ Forall (λ g, mm_end f ≤ offset (mm_position g)) feats ∧
  0 ≤ offset (mm_position f) ∧ 0 < length_ (mm_position f).
Proof.
  intros [[Hs Hf]%StronglySorted_inv Hpos]. apply Forall_cons in Hpos as [H1 H2].
  split_and!; [split|..]; tauto || done.
Qed.

Lemma mm_keys_loop_spec feats i s e acc :
  mm_sorted feats → s ≤ e →
  ∃ k : nat, mm_keys_loop feats i s e acc = (acc ++ mm_keys feats s e, i + Z.of_nat k) ∧
    Forall (λ f, mm_end f ≤ e) (take k feats).
Proof.
  intros Hs Hse. revert i acc. induction feats as [|f feats IH]; intros i acc.
  { exists O. simpl. rewrite app_nil_r, Z.add_0_r. done. }
  apply mm_sorted_cons in Hs as (Hs & Hlater & Hoff & Hlen). simpl.
  unfold mm_keys. rewrite filter_cons.
  repeat case_decide; try (exfalso; unfold mm_overlaps, mm_end in *; lia).
  all: try (exists O; rewrite mm_filter_ahead;
              [|eapply Forall_impl; [exact Hlater|]; unfold mm_end; simpl; lia];
            simpl; rewrite ?app_nil_r, Z.add_0_r; by split).
  - edestruct (IH Hs (i + 1)) as (k & -> & Hk). exists (S k).
    split; [f_equal; lia|]. simpl. constructor; [unfold mm_end; lia|done].
  - edestruct (IH Hs (i + 1)) as (k & -> & Hk). exists (S k).
    split; [rewrite <-app_assoc; f_equal; lia|].
    simpl. constructor; [unfold mm_end; lia|done].
Qed.

Lemma mm_sorted_drop n feats : mm_sorted feats → mm_sorted (drop n feats).
Proof.
  revert n. induction feats as [|f feats IH]; intros [|n] Hs; try done.
  apply IH. by apply mm_sorted_cons in Hs as [? _].
Qed.

Lemma mm_keys_drop feats n s e : Forall (λ f, mm_end f ≤ s) (take n feats) →
  mm_keys (drop n feats) s e = mm_keys feats s e.
Proof.
  intros Hp. unfold mm_keys. rewrite <-(take_drop n feats) at 2.
  by rewrite filter_app, (mm_filter_passed (take n feats)).
Qed.

Lemma mm_sorted_last_ends feats f s : mm_sorted feats → last feats = Some f → mm_end f ≤ s →
  Forall (λ g, mm_end g ≤ s) feats.
Proof.
  intros Hs Hl He. induction feats as [|g feats IH]; [done|].
  apply mm_sorted_cons in Hs as (Hs & Hlater & Hoff & Hlen).
  destruct feats as [|g' feats]; [by simplify_eq/=; constructor|].
  specialize (IH Hs Hl). constructor; [|done].
  apply Forall_cons in Hlater as [Hg _]. apply Forall_cons in IH as [Hg' _].
  apply mm_sorted_cons in Hs as (_ & _ & ? & ?). unfold mm_end in *. lia.
Qed.

(** [_gen_mm_extra_hash_keys] computes exactly the overlapping items, and the index it
    returns is one to continue from at the end of the block. *)
Lemma gen_mm_keys_spec r s e i :
  mm_sorted (mm_features r) → s ≤ e → mm_idx_ok (mm_features r) s i →
  ∃ i', _gen_mm_extra_hash_keys r s e i = Ok (mm_keys (mm_features r) s e, i') ∧
    mm_idx_ok (mm_features r) e i'.
Proof.
  intros Hs Hse [Hi Hp]. unfold _gen_mm_extra_hash_keys.
  assert (mm_idx_ok (mm_features r) e i) as Hie.
  { split; [done|]. eapply Forall_impl; [exact Hp|]. simpl. lia. }
  destruct (last (mm_features r)) as [f|] eqn:Hl.
  2:{ apply last_None in Hl. rewrite Hl. exists i. rewrite <-Hl at 2. by split. }
  fold (mm_end f). case_decide as He.
  { exists i. split; [|done]. unfold mm_keys.
    rewrite mm_filter_passed; [done|]. eapply mm_sorted_last_ends; eauto. }
  destruct Hi as [Hnil|Hi]; [by rewrite Hnil in Hl|].
  assert (∀ j, 0 ≤ j → mm_pos (mm_features r) i = Z.to_nat j →
    ∃ i', Ok (mm_keys_loop (drop (Z.to_nat j) (mm_features r)) j s e []) =
          Ok (mm_keys (mm_features r) s e, i') ∧ mm_idx_ok (mm_features r) e i') as Hloop.
  { intros j Hj Hpos. rewrite Hpos in Hp.
    destruct (mm_keys_loop_spec (drop (Z.to_nat j) (mm_features r)) j s e [])
      as (k & -> & Hk); [by apply mm_sorted_drop|done|].
    rewrite mm_keys_drop by done. eexists. split; [done|].
    unfold mm_idx_ok, mm_pos. rewrite decide_False by lia. split; [right; pose proof (len_nonneg (mm_features r)); lia|].
    rewrite Z2Nat.inj_add, Nat2Z.id, <-take_take_drop by lia.
    apply Forall_app. split; [|done]. eapply Forall_impl; [exact Hp|]. simpl. lia. }
  unfold mm_pos in Hloop. destruct (decide (i < 0)).
  - rewrite decide_True by lia. apply Hloop; lia.
  - apply Hloop; lia.
Qed.

(** ** The hash chain of a request *)

Section chain.
Variable sha256 : list (list Z) → bytes.
Variable hash_function : bytes * list Z * option (list ExtraKey) → bytes.
Variable NONE_HASH : bytes.
Variable bs : Z.

(** Specification of the extra keys, without index or memo. *)
Definition embeds_keys (r : Request) (s e : Z) : list ExtraKey :=
  match prompt_embeds r with Some rows => [KeyBytes (sha256 (slice rows s e))] | None => [] end.

Definition block_extra_keys (r : Request) (s e : Z) : option (list ExtraKey) :=
  match _gen_lora_extra_hash_keys r ++ mm_keys (mm_features r) s e ++ cache_salt_keys r s ++
        embeds_keys r s e with
  | [] => None
  | ks => Some ks
  end.

Definition block_content (r : Request) (k : nat) : list Z * option (list ExtraKey) :=
  let s := Z.of_nat k * bs in
  (slice (all_token_ids r) s (s + bs), block_extra_keys r s (s + bs)).

(** The hash of block [k], from scratch. *)
Fixpoint chain_hash (r : Request) (k : nat) : bytes :=
  hash_block_tokens hash_function NONE_HASH
    (match k with O => None | S j => Some (chain_hash r j) end)
    (block_content r k).1 (block_content r k).2.

Definition num_full_blocks (r : Request) : nat := Z.to_nat (num_tokens r // bs).

Definition chain_hashes (r : Request) (n : nat) : list bytes := chain_hash r <$> seq 0 n.

(** The request carries the hashes of exactly its full blocks. *)
Definition hashes_ok (r : Request) : Prop := block_hashes r = chain_hashes r (num_full_blocks r).

(** The memoised digests are the digests. *)
Definition memo_ok (r : Request) : Prop := ∀ s e h,
  prompt_embeds_per_block_hashes r !! (s, e) = Some h →
  ∃ rows, prompt_embeds r = Some rows ∧ h = sha256 (slice rows s e).

(** [r'] is [r] with another, still valid, memo. *)
Definition remembers (r r' : Request) : Prop :=
  (∃ m, r' = r <| prompt_embeds_per_block_hashes := m |>) ∧ memo_ok r'.

Lemma remembers_refl r : memo_ok r → remembers r r.
Proof. intros ?. split; [|done]. exists (prompt_embeds_per_block_hashes r). by destruct r. Qed.

Lemma remembers_trans r1 r2 r3 : remembers r1 r2 → remembers r2 r3 → remembers r1 r3.
Proof. intros [[m1 ->] _] [[m2 ->] Hm]. split; [|done]. by exists m2. Qed.

Lemma prompt_embeds_keys_spec r s e : memo_ok r →
  ∃ r', _gen_prompt_embeds_extra_hash_keys sha256 r s e = (embeds_keys r s e, r') ∧
    remembers r r'.
Proof.
  intros Hm. unfold _gen_prompt_embeds_extra_hash_keys, embeds_keys.
  destruct (prompt_embeds r) as [rows|] eqn:Hr; [|by eauto using remembers_refl].
  destruct (prompt_embeds_per_block_hashes r !! (s, e)) as [h|] eqn:Hh.
  - destruct (Hm _ _ _ Hh) as (? & ? & ->). simplify_eq. eauto using remembers_refl.
  - eexists. split; [done|]. split; [by eexists|]. intros s' e' h. simpl.
    destruct (decide ((s', e') = (s, e))) as [[= -> ->]|Hne].
    + rewrite lookup_insert_eq. intros [= <-]. eauto.
    + rewrite lookup_insert_ne by done. apply Hm.
Qed.

Lemma extra_keys_spec r s e i :
  memo_ok r → mm_sorted (mm_features r) → s ≤ e → mm_idx_ok (mm_features r) s i →
  ∃ i' r', generate_block_hash_extra_keys sha256 r s e i = Ok (block_extra_keys r s e, i', r') ∧
    mm_idx_ok (mm_features r) e i' ∧ remembers r r'.
Proof.
  intros Hm Hs Hse Hi. unfold generate_block_hash_extra_keys, block_extra_keys.
  destruct (gen_mm_keys_spec r s e i) as (i' & -> & Hi'); [done..|]. cbn.
  destruct (prompt_embeds_keys_spec r s e Hm) as (r' & -> & Hr').
  exists i', r'. split_and!; [|done..]. by destruct (_ ++ _).
Qed.

Lemma last_chain_hashes r k :
  last (chain_hashes r k) = match k with O => None | S j => Some (chain_hash r j) end.
Proof.
  destruct k as [|j]; [done|]. unfold chain_hashes.
  rewrite seq_S, fmap_app. cbn [fmap list_fmap]. by rewrite last_snoc.
Qed.

(** The chain depends on the content of the blocks only. *)
Lemma chain_hash_ext r r' k :
  (∀ j, (j ≤ k)%nat → block_content r j = block_content r' j) → chain_hash r k = chain_hash r' k.
Proof.
  intros Hc. induction k as [|k IH]; cbn [chain_hash]; rewrite (Hc _ (le_n _)); [done|].
  by rewrite IH by auto.
Qed.

Lemma chain_hashes_ext r r' n :
  (∀ j, (j < n)%nat → block_content r j = block_content r' j) →
  chain_hashes r n = chain_hashes r' n.
Proof.
  intros Hc. apply list_fmap_ext. intros i x Hx. apply lookup_seq in Hx as [-> Hi].
  apply chain_hash_ext. intros j Hj. apply Hc. lia.
Qed.

Lemma chain_hash_remembers r r' k : remembers r r' → chain_hash r' k = chain_hash r k.
Proof. intros [[m ->] _]. by apply chain_hash_ext. Qed.

Hypothesis Hbs : 0 < bs.

Lemma full_block_end r k :
  (k < num_full_blocks r)%nat ↔ Z.of_nat k * bs + bs ≤ num_tokens r.
Proof.
  unfold num_full_blocks. pose proof (len_nonneg (all_token_ids r)).
  pose proof (Z.div_mod (num_tokens r) bs). pose proof (Z.mod_pos_bound (num_tokens r) bs Hbs).
  assert (0 ≤ num_tokens r // bs) by (apply Z.div_pos; [apply len_nonneg|lia]).
  split; intros; [nia|]. apply Nat2Z.inj_lt. rewrite Z2Nat.id by done. nia.
Qed.

Lemma hasher_loop_spec fuel r k i acc :
  memo_ok r → mm_sorted (mm_features r) → mm_idx_ok (mm_features r) (Z.of_nat k * bs) i →
  (k ≤ num_full_blocks r)%nat → (num_full_blocks r - k < fuel)%nat →
  ∃ r', hasher_loop sha256 hash_function NONE_HASH fuel bs r (Z.of_nat k * bs) i
          (last (chain_hashes r k)) acc
        = Ok (acc ++ (chain_hash r <$> seq k (num_full_blocks r - k)), r') ∧ remembers r r'.
Proof.
  revert r k i acc. induction fuel as [|fuel IH]; intros r k i acc Hm Hs Hi Hk Hf; [lia|].
  cbn [hasher_loop]. cbv zeta. pose proof (full_block_end r k) as Hend. case_decide as Hd.
  { replace (num_full_blocks r - k)%nat with O by lia. simpl. rewrite app_nil_r.
    eauto using remembers_refl. }
  destruct (extra_keys_spec r (Z.of_nat k * bs) (Z.of_nat k * bs + bs) i)
    as (i' & r' & -> & Hi' & Hr'); [done..|lia|done|]. cbn [mbind res_bind].
  pose proof Hr' as [[m Heq] Hm']. rewrite last_chain_hashes.
  assert (hash_block_tokens hash_function NONE_HASH
    (match k with O => None | S j => Some (chain_hash r j) end)
    (slice (all_token_ids r') (Z.of_nat k * bs) (Z.of_nat k * bs + bs))
    (block_extra_keys r (Z.of_nat k * bs) (Z.of_nat k * bs + bs)) = chain_hash r k) as ->.
  { rewrite Heq. by destruct k. }
  destruct (IH r' (S k) i' (acc ++ [chain_hash r k])) as (r'' & Heq' & Hr'').
  { done. }
  { by rewrite Heq. }
  { rewrite Heq. by replace (Z.of_nat (S k) * bs) with (Z.of_nat k * bs + bs) by lia. }
  { rewrite Heq. change (S k ≤ num_full_blocks r)%nat. lia. }
  { rewrite Heq. change (num_full_blocks r - S k < fuel)%nat. lia. }
  exists r''. split; [|by eapply remembers_trans].
  rewrite last_chain_hashes, (chain_hash_remembers r r') in Heq' by done.
  replace (Z.of_nat (S k) * bs) with (Z.of_nat k * bs + bs) in Heq' by lia.
  replace (num_full_blocks r - k)%nat with (S (num_full_blocks r - S k)) by lia.
  rewrite Heq', <-app_assoc. cbn [seq fmap list_fmap app]. do 4 f_equal.
  rewrite Heq. change (num_full_blocks (_ <| _ := _ |>)) with (num_full_blocks r).
  apply list_fmap_ext. intros. rewrite <-Heq. by apply chain_hash_remembers.
Qed.

Lemma num_full_blocks_le r : Z.of_nat (num_full_blocks r) * bs ≤ num_tokens r.
Proof.
  unfold num_full_blocks. pose proof (len_nonneg (all_token_ids r)).
  assert (0 ≤ num_tokens r // bs) by (apply Z.div_pos; [apply len_nonneg|lia]).
  rewrite Z2Nat.id by done. pose proof (Z.mul_div_le (num_tokens r) bs). lia.
Qed.

(** The index the hasher starts from leaves out no item: either nothing is hashed yet, or
    only the last item reaches into the blocks to hash. *)
Definition mm_resume_ok (r : Request) (n : nat) : Prop :=
  (0 < n)%nat →
  Forall (λ f, mm_end f ≤ Z.of_nat n * bs) (take (length (mm_features r) - 1) (mm_features r)).

Lemma block_hasher_spec r n :
  memo_ok r → mm_sorted (mm_features r) → block_hashes r = chain_hashes r n →
  (n ≤ num_full_blocks r)%nat → mm_resume_ok r n →
  ∃ hs r', request_block_hasher sha256 hash_function NONE_HASH bs r = Ok (hs, r') ∧
    block_hashes r ++ hs = chain_hashes r (num_full_blocks r) ∧ remembers r r'.
Proof.
  intros Hm Hs Hh Hn Hres. unfold request_block_hasher.
  assert (len (block_hashes r) = Z.of_nat n) as ->.
  { rewrite Hh. unfold len, chain_hashes. by rewrite length_fmap, length_seq. }
  pose proof (full_block_end r n) as Hend. cbv zeta. case_decide as Hd.
  { exists [], r. split_and!; [done| |by apply remembers_refl].
    rewrite app_nil_r, Hh. f_equal. lia. }
  rewrite Hh. pose proof (num_full_blocks_le r) as Hle. unfold num_tokens, len in Hle.
  edestruct (hasher_loop_spec (S (length (all_token_ids r))) r n) as (r' & -> & Hr');
    [done|done| |done|nia|].
  2:{ eexists _, _. split_and!; [done| |done]. simpl. unfold chain_hashes.
      rewrite <-fmap_app, <-seq_app. do 2 f_equal. lia. }
  unfold mm_idx_ok, mm_pos. case_decide as Hn0.
  - rewrite decide_True by lia. split.
    + destruct (mm_features r); [by left|right]. rewrite len_cons.
      pose proof (len_nonneg l). lia.
    + unfold len. replace (Z.to_nat (_ + -1)) with (length (mm_features r) - 1)%nat by lia.
      apply Hres. lia.
  - rewrite decide_False by lia. split; [|done]. right. pose proof (len_nonneg (mm_features r)). lia.
Qed.

(** The request after its block hashes were brought up to date. *)
Lemma update_block_hashes_spec r n :
  memo_ok r → mm_sorted (mm_features r) → block_hashes r = chain_hashes r n →
  (n ≤ num_full_blocks r)%nat → mm_resume_ok r n →
  ∃ m, let r' := r <| prompt_embeds_per_block_hashes := m |>
                   <| block_hashes := chain_hashes r (num_full_blocks r) |> in
    update_block_hashes (Some (request_block_hasher sha256 hash_function NONE_HASH bs)) r = Ok r' ∧
    memo_ok r' ∧ hashes_ok r'.
Proof.
  intros Hm Hs Hh Hn Hres. unfold update_block_hashes.
  destruct (block_hasher_spec r n) as (hs & r' & -> & Heq & [[m ->] Hm']); [done..|].
  exists m. cbn. rewrite <-Heq. split_and!; [done|done|].
  unfold hashes_ok. cbn [block_hashes]. rewrite Heq. by apply chain_hashes_ext.
Qed.

(** What holds of a request between two scheduler steps. *)
Record hash_wf (r : Request) : Prop := {
  wf_memo : memo_ok r;
  wf_sorted : mm_sorted (mm_features r);
  wf_hashes : hashes_ok r;
  wf_resume : mm_resume_ok r (num_full_blocks r);
  wf_in_prompt : Forall (λ f, mm_end f ≤ num_tokens r) (mm_features r)
}.

Lemma block_content_app r r' ts j :
  all_token_ids r' = all_token_ids r ++ ts → mm_features r' = mm_features r →
  lora_request r' = lora_request r → cache_salt r' = cache_salt r →
  prompt_embeds r' = prompt_embeds r → (j < num_full_blocks r)%nat →
  block_content r' j = block_content r j.
Proof.
  intros Ht Hmm Hl Hc Hp Hj%full_block_end. unfold block_content, num_tokens in *. f_equal.
  - rewrite Ht. apply slice_app_l; lia.
  - unfold block_extra_keys, _gen_lora_extra_hash_keys, cache_salt_keys, embeds_keys.
    by rewrite Hmm, Hl, Hc, Hp.
Qed.

(** [r] has the tokens of [r0] and [ts], and everything else that [r0] puts into its hashes. *)
Record extends (r0 : Request) (ts : list Z) (r : Request) : Prop := {
  ext_tokens : all_token_ids r = all_token_ids r0 ++ ts;
  ext_mm : mm_features r = mm_features r0;
  ext_lora : lora_request r = lora_request r0;
  ext_salt : cache_salt r = cache_salt r0;
  ext_embeds : prompt_embeds r = prompt_embeds r0
}.

Lemma extends_trans r0 ts r ts' r' : extends r0 ts r → extends r ts' r' → extends r0 (ts ++ ts') r'.
Proof. intros [] []. split; [rewrite app_assoc|..]; congruence. Qed.

Lemma append_output_token_ids_wf r ts :
  hash_wf r →
  ∃ r', append_output_token_ids
          (Some (request_block_hasher sha256 hash_function NONE_HASH bs)) r ts = Ok r' ∧
    hash_wf r' ∧ extends r ts r'.
Proof.
  intros [Hm Hs Hh Hres Hin]. unfold append_output_token_ids. cbn [assign].
  set (r1 := r <| output_token_ids ::= (.++ ts) |> <| all_token_ids ::= (.++ ts) |>).
  assert (num_tokens r1 = num_tokens r + len ts) as Hnum by apply len_app.
  pose proof (len_nonneg ts).
  assert (num_full_blocks r ≤ num_full_blocks r1)%nat as Hle.
  { apply Z2Nat.inj_le; [apply Z.div_pos..|apply Z.div_le_mono]; unfold num_tokens in *;
      pose proof (len_nonneg (all_token_ids r)); lia. }
  destruct (update_block_hashes_spec r1 (num_full_blocks r)) as (m & Hup & Hm' & Hh').
  { done. }
  { done. }
  { change (block_hashes r1) with (block_hashes r). rewrite Hh. symmetry.
    apply chain_hashes_ext. intros. by eapply block_content_app. }
  { done. }
  { exact Hres. }
  eexists. split; [exact Hup|]. split; [|by split]. split; [done|done|done| |].
  - change (mm_resume_ok r1 (num_full_blocks r1)). intros Hpos.
    change (mm_features r1) with (mm_features r).
    destruct (decide (num_full_blocks r = 0)%nat) as [H0|H0].
    + apply Forall_take. eapply Forall_impl; [exact Hin|]. intros f Hf. simpl in Hf.
      pose proof (full_block_end r 0) as H1. simpl in H1. nia.
    + eapply Forall_impl; [apply Hres; lia|]. simpl. nia.
  - change (Forall (λ f, mm_end f ≤ num_tokens r1) (mm_features r)).
    eapply Forall_impl; [exact Hin|]. simpl. lia.
Qed.

(** ** A hash identifies the whole prefix *)

Section sound.
Hypothesis hash_inj : ∀ x y, hash_function x = hash_function y → x = y.
Hypothesis hash_not_none : ∀ x, hash_function x ≠ NONE_HASH.
Hypothesis hash_not_empty : ∀ x, hash_function x ≠ [].

Lemma chain_hash_not_empty r k : chain_hash r k ≠ [].
Proof. destruct k; apply hash_not_empty. Qed.

Lemma chain_hash_not_none r k : chain_hash r k ≠ NONE_HASH.
Proof. destruct k; apply hash_not_none. Qed.

Lemma chain_hash_S r k :
  chain_hash r (S k) =
  hash_function (chain_hash r k, (block_content r (S k)).1, (block_content r (S k)).2).
Proof.
  cbn [chain_hash]. unfold hash_block_tokens.
  pose proof (chain_hash_not_empty r k). by destruct (chain_hash r k).
Qed.

Lemma chain_hash_inj r1 r2 j k :
  chain_hash r1 j = chain_hash r2 k →
  j = k ∧ ∀ i, (i ≤ k)%nat → block_content r1 i = block_content r2 i.
Proof.
  revert k. induction j as [|j IH]; intros [|k] Heq; rewrite ?chain_hash_S in Heq;
    apply hash_inj in Heq.
  - injection Heq as Ht Hk. split; [done|].
    intros i Hi. replace i with O by lia. by apply pair_eq.
  - injection Heq as Hp _ _. by destruct (chain_hash_not_none r2 k).
  - injection Heq as Hp _ _. by destruct (chain_hash_not_none r1 j).
  - injection Heq as Hp Ht Hk. apply IH in Hp as [<- Hc]. split; [done|]. intros i Hi.
    destruct (decide (i = S j)) as [->|]; [by apply pair_eq|]. apply Hc. lia.
Qed.
End sound.

(** Equal blocks make equal prefixes. *)
Lemma blocks_prefix r1 r2 k :
  (∀ i, (i < k)%nat → (block_content r1 i).1 = (block_content r2 i).1) →
  (k ≤ num_full_blocks r1)%nat → (k ≤ num_full_blocks r2)%nat →
  take (k * Z.to_nat bs) (all_token_ids r1) = take (k * Z.to_nat bs) (all_token_ids r2).
Proof.
  intros Hc H1 H2. induction k as [|k IH]; [done|].
  replace (S k * Z.to_nat bs)%nat with (k * Z.to_nat bs + Z.to_nat bs)%nat by lia.
  rewrite <-!take_take_drop. f_equal; [apply IH; [|lia..]; intros; apply Hc; lia|].
  pose proof (Hc k ltac:(lia)) as Hk. cbn in Hk.
  apply full_block_end in H1, H2. unfold num_tokens in *.
  rewrite !slice_in in Hk by lia.
  replace (Z.to_nat (Z.of_nat k * bs)) with (k * Z.to_nat bs)%nat in Hk by lia.
  by replace (Z.to_nat (Z.of_nat k * bs + bs - Z.of_nat k * bs)) with (Z.to_nat bs) in Hk by lia.
Qed.

Lemma chain_hashes_lookup r n k h :
  chain_hashes r n !! k = Some h ↔ (k < n)%nat ∧ h = chain_hash r k.
Proof.
  unfold chain_hashes. rewrite list_lookup_fmap. split.
  - intros (i & [-> Hi]%lookup_seq & ->)%fmap_Some. done.
  - intros [Hk ->]. by rewrite lookup_seq_lt.
Qed.

(** The view at a coarser block size: entry [i] is the hash of the last small block of
    the [i]-th large one. *)
Lemma hash_view_spec r c v :
  0 < c → hashes_ok r →
  new_BlockHashListWithBlockSize (block_hashes r) bs (c * bs) = Ok v →
  bhl_len v = num_tokens r // (c * bs) ∧
  ∀ i, 0 ≤ i < bhl_len v → _get_value_at v i = Ok (chain_hash r (Z.to_nat ((i + 1) * c - 1))).
Proof.
  intros Hc Hh. unfold new_BlockHashListWithBlockSize. rewrite decide_True by (apply Z.mod_mul; lia).
  intros [= <-]. unfold bhl_len, _get_value_at. cbn. rewrite Z.div_mul, Hh by lia.
  assert (len (chain_hashes r (num_full_blocks r)) = num_tokens r // bs) as Hlen.
  { unfold len, chain_hashes, num_full_blocks. rewrite length_fmap, length_seq, Z2Nat.id; [done|].
    apply Z.div_pos; [apply len_nonneg|lia]. }
  rewrite Hlen, Z.div_div, (Z.mul_comm bs) by lia. split; [done|].
  intros i Hi. apply index_Ok; [nia|]. apply chain_hashes_lookup. split; [|done].
  unfold num_full_blocks.
  assert ((i + 1) * (c * bs) ≤ num_tokens r).
  { pose proof (Z.mul_div_le (num_tokens r) (c * bs)). nia. }
  assert ((i + 1) * c ≤ num_tokens r // bs) by (apply Z.div_le_lower_bound; nia).
  apply Z2Nat.inj_lt; nia.
Qed.
End chain.

Section new_request.
Variable sha256 : list (list Z) → bytes.
Variable hash_function : bytes * list Z * option (list ExtraKey) → bytes.
Variable NONE_HASH : bytes.
Variable bs : Z.
Hypothesis Hbs : 0 < bs.
Abbreviation hasher := (request_block_hasher sha256 hash_function NONE_HASH bs).

(** A constructor call that succeeds without a block hasher. *)
Lemma new_Request_hasher oid rid ts sp pp ci at_ emb is_tok feats lora salt pr res_ ab r0 h :
  new_Request oid rid ts sp pp ci at_ emb is_tok feats lora salt pr None res_ ab = Ok r0 →
  new_Request oid rid ts sp pp ci at_ emb is_tok feats lora salt pr (Some h) res_ ab =
    update_block_hashes (Some h) r0 ∧
  block_hashes r0 = [] ∧ prompt_embeds_per_block_hashes r0 = ∅ ∧
  mm_features r0 = feats ∧ lora_request r0 = lora ∧ cache_salt r0 = salt ∧ prompt_embeds r0 = emb ∧
  (n ← length_from_prompt_token_ids_or_embeds ts emb; Ok (initial_token_ids ts is_tok n)) = Ok (all_token_ids r0).
Proof.
  unfold new_Request. cbv zeta.
  destruct (match pp with Some _ => _ | None => _ end) as [[[mt st] rep]|e]; [|done]. cbn.
  destruct (length_from_prompt_token_ids_or_embeds ts emb) as [n|e]; [|done]. cbn.
  by intros [= <-].
Qed.

Lemma new_Request_plain oid rid ts sp pp ci at_ emb is_tok feats lora salt pr res_ ab h r :
  new_Request oid rid ts sp pp ci at_ emb is_tok feats lora salt pr (Some h) res_ ab = Ok r →
  ∃ r0, new_Request oid rid ts sp pp ci at_ emb is_tok feats lora salt pr None res_ ab = Ok r0.
Proof.
  unfold new_Request. cbv zeta.
  destruct (match pp with Some _ => _ | None => _ end) as [[[mt st] rep]|e]; [|done]. cbn.
  destruct (length_from_prompt_token_ids_or_embeds ts emb) as [n|e]; [|done]. cbn. eauto.
Qed.

(** The multi-modal items of a prompt are in order and inside the prompt, and at most the last
    one reaches beyond the full blocks of the prompt, unless there is no such block. *)
Record prompt_ok (r : Request) : Prop := {
  po_sorted : mm_sorted (mm_features r);
  po_inside : Forall (λ f, mm_end f ≤ num_tokens r) (mm_features r);
  po_tail : mm_resume_ok bs r (num_full_blocks bs r)
}.

Lemma new_Request_hashes oid rid ts sp pp ci at_ emb is_tok feats lora salt pr res_ ab r0 :
  new_Request oid rid ts sp pp ci at_ emb is_tok feats lora salt pr None res_ ab = Ok r0 → mm_sorted (mm_features r0) →
  ∃ r, new_Request oid rid ts sp pp ci at_ emb is_tok feats lora salt pr (Some hasher) res_ ab = Ok r ∧
    extends r0 [] r ∧ hashes_ok sha256 hash_function NONE_HASH bs r ∧
    (prompt_ok r0 → hash_wf sha256 hash_function NONE_HASH bs r).
Proof.
  intros Hr0 Hs. apply (new_Request_hasher _ _ _ _ _ _ _ _ _ _ _ _ _ _ _ _ hasher) in Hr0
    as (-> & Hh & Hm & _).
  destruct (update_block_hashes_spec sha256 hash_function NONE_HASH bs Hbs r0 0) as (m & Hup & Hm' & Hh').
  - intros s e h. by rewrite Hm, lookup_empty.
  - done.
  - by rewrite Hh.
  - lia.
  - intros Hlt. lia.
  - eexists. split; [exact Hup|]. split_and!; [split; [|done..]; by rewrite app_nil_r|done|].
    intros [_ Hin Htail]. by split.
Qed.

(** A request without multi-modal items. *)
Lemma plain_request_wf oid rid ts sp pp ci at_ emb is_tok lora salt pr res_ ab r :
  new_Request oid rid ts sp pp ci at_ emb is_tok [] lora salt pr (Some hasher) res_ ab = Ok r →
  hashes_ok sha256 hash_function NONE_HASH bs r ∧
  mm_features r = [] ∧ lora_request r = lora ∧ cache_salt r = salt ∧ prompt_embeds r = emb ∧
  (n ← length_from_prompt_token_ids_or_embeds ts emb; Ok (initial_token_ids ts is_tok n)) = Ok (all_token_ids r).
Proof.
  intros Hr. destruct (new_Request_plain _ _ _ _ _ _ _ _ _ _ _ _ _ _ _ _ _ Hr) as [r0 Hr0].
  destruct (new_Request_hasher _ _ _ _ _ _ _ _ _ _ _ _ _ _ _ _ hasher Hr0) as (_ & _ & _ & Hm & Hl & Hs & He & Ht).
  destruct (new_Request_hashes _ _ _ _ _ _ _ _ _ _ _ _ _ _ _ _ Hr0) as (r1 & Hr1 & [Ht1 Hm1 Hl1 Hs1 He1] & Hh & _).
  { rewrite Hm. split; constructor. }
  replace r1 with r in * by congruence. rewrite app_nil_r in Ht1. split; [done|]. rewrite Hm1, Hl1, Hs1, He1, Ht1. done.
Qed.

(** The outcome of appending several batches of tokens. *)
Definition append_batches (r : Request) (batches : list (list Z)) : res Request :=
  foldl (λ rr ts, r ← rr; append_output_token_ids (Some hasher) r ts) (Ok r) batches.

Lemma append_batches_wf batches r : hash_wf sha256 hash_function NONE_HASH bs r →
  ∃ r', append_batches r batches = Ok r' ∧ hash_wf sha256 hash_function NONE_HASH bs r' ∧ extends r (concat batches) r'.
Proof.
  unfold append_batches. revert r. induction batches as [|ts batches IH]; intros r Hwf; cbn [foldl concat mbind res_bind].
  { exists r. split_and!; [done|done|]. split; [by rewrite app_nil_r|done..]. }
  destruct (append_output_token_ids_wf sha256 hash_function NONE_HASH bs Hbs r ts Hwf) as (r1 & -> & Hwf1 & Hext). destruct (IH r1 Hwf1) as (r' & Hr' & Hwf' & Hext').
  exists r'. split_and!; [done|done|by eapply extends_trans].
Qed.

(** A request whose hashes the engine computed: it was created with the hasher, and sampled
    tokens were appended. *)
Inductive served : Request → Prop :=
  | served_new oid rid ts sp pp ci at_ emb is_tok feats lora salt pr res_ ab r0 r :
      new_Request oid rid ts sp pp ci at_ emb is_tok feats lora salt pr None res_ ab = Ok r0 → prompt_ok r0 →
      new_Request oid rid ts sp pp ci at_ emb is_tok feats lora salt pr (Some hasher) res_ ab = Ok r →
      served r
  | served_append r ts r' : served r → append_output_token_ids (Some hasher) r ts = Ok r' → served r'.

Lemma served_wf r : served r → hash_wf sha256 hash_function NONE_HASH bs r.
Proof.
  induction 1 as [oid rid ts sp pp ci at_ emb is_tok feats lora salt pr res_ ab r0 r Hr0 Hok Hr|r ts r' _ Hwf Hr'].
  - destruct (new_Request_hashes _ _ _ _ _ _ _ _ _ _ _ _ _ _ _ _ Hr0 (po_sorted _ Hok)) as (r1 & Hr1 & _ & _ & Hwf).
    replace r with r1 by congruence. by apply Hwf.
  - destruct (append_output_token_ids_wf sha256 hash_function NONE_HASH bs Hbs r ts Hwf) as (r1 & Hr1 & Hwf1 & _). congruence.
Qed.
End new_request.

(** ** Concrete hash functions, to run the hasher *)

#[global] Instance ExtraKey_countable : Countable ExtraKey.
Proof.
  refine (inj_countable'
    (λ k, match k with
          | KeyStr s => inl (inl s) | KeyMM i o => inl (inr (i, o)) | KeyBytes b => inr b end)
    (λ k, match k with
          | inl (inl s) => KeyStr s | inl (inr (i, o)) => KeyMM i o | inr b => KeyBytes b end) _).
  by intros [].
Defined.

(** An encoding: collision-free, though not of fixed size. *)
Definition encode_hash (x : bytes * list Z * option (list ExtraKey)) : bytes :=
  [Z.pos (encode x)].

Lemma encode_hash_inj x y : encode_hash x = encode_hash y → x = y.
Proof. intros [= Heq]. by apply (inj encode). Qed.

Definition text_request (tokens : list Z) (feats : list MultiModalFeatureSpec)
    (hasher : option block_hasher) : res Request :=
  new_Request 1 "r" (Some tokens)
    (Some (mkSamplingParams (Some 16) 0 None None None None false None)) None 0 0 None None
    feats None None 0 hasher false false.

(** ** Main theorems *)

(** C22: packing a block hash and a group id into a cache key succeeds exactly for group ids
    of 32 bits (any other raises OverflowError); both components are recovered, and two
    packings give the same key only for the same hash and the same group. *)
Theorem block_key_roundtrip h g :
  (0 ≤ g < 2 ^ 32 →
     ∃ k, make_block_hash_with_group_id h g = Ok k ∧ get_block_hash k = h ∧ get_group_id k = g) ∧
  (¬ (0 ≤ g < 2 ^ 32) → make_block_hash_with_group_id h g = Raise OverflowError) ∧
  (∀ h' g' k, make_block_hash_with_group_id h g = Ok k →
     make_block_hash_with_group_id h' g' = Ok k → h = h' ∧ g = g').
Proof.
  split_and!.
  - intros Hg. exists (h ++ be_bytes 4 g).
    by rewrite make_block_hash_spec, get_block_hash_packed, get_group_id_packed.
  - intros Hg. unfold make_block_hash_with_group_id, to_bytes.
    change (256 ^ Z.of_nat 4) with (2 ^ 32). by rewrite decide_False.
  - intros h' g' k. apply make_block_hash_inj.
Qed.

Lemma block_key_roundtrip_witness :
  ∃ k, make_block_hash_with_group_id [7; 8] 258 = Ok k ∧ get_block_hash k = [7; 8] ∧
    get_group_id k = 258.
Proof. destruct (block_key_roundtrip [7; 8] 258) as [H _]. apply H. lia. Defined.

(** C11: hashing is incremental without drift.  Create a request from any arguments that the
    constructor accepts, with multi-modal items in order: the constructor with the hasher returns,
    and the request carries, for exactly the full blocks of its prompt, the hashes that a
    computation from scratch over its tokens, multi-modal items, LoRA name, salt and prompt
    embeddings gives.  When also all items lie inside the prompt and at most the last one reaches
    beyond the full blocks of the prompt (or the prompt has none), append any batches of sampled
    tokens: every call returns, and the same holds then.  So the index and memo shortcuts of the
    hasher change nothing there. *)
Theorem incremental_hashes_exact sha256 hash_function NONE_HASH bs
    oid rid ts sp pp ci at_ emb is_tok feats lora salt pr res_ ab r0 :
  0 < bs →
  new_Request oid rid ts sp pp ci at_ emb is_tok feats lora salt pr None res_ ab = Ok r0 → mm_sorted (mm_features r0) →
  let exact r := block_hashes r = chain_hash sha256 hash_function NONE_HASH bs r <$> seq 0 (Z.to_nat (num_tokens r // bs)) in
  ∃ r, new_Request oid rid ts sp pp ci at_ emb is_tok feats lora salt pr
         (Some (request_block_hasher sha256 hash_function NONE_HASH bs)) res_ ab = Ok r ∧
    extends r0 [] r ∧ exact r ∧
    (prompt_ok bs r0 → ∀ batches, ∃ r', append_batches sha256 hash_function NONE_HASH bs r batches = Ok r' ∧
       extends r0 (concat batches) r' ∧ exact r').
Proof.
  intros Hbs Hr0 Hs exact.
  destruct (new_Request_hashes sha256 hash_function NONE_HASH bs Hbs _ _ _ _ _ _ _ _ _ _ _ _ _ _ _ _ Hr0 Hs)
    as (r & Hr & Hext & Hh & Hwf).
  exists r. split_and!; [done|done|done|]. intros Hok batches.
  destruct (append_batches_wf sha256 hash_function NONE_HASH bs Hbs batches r (Hwf Hok)) as (r' & Hr' & [_ _ Hh' _ _] & Hext').
  exists r'. split_and!; [done|by eapply (extends_trans _ [])|done].
Qed.

(** A prompt of 7 tokens with an image at 1..3 and one at 5..6. *)
Definition two_images (a b : string) : list MultiModalFeatureSpec :=
  [mkMMFeature a (mkPlaceholderRange 1 2 None); mkMMFeature b (mkPlaceholderRange 5 2 None)].

Lemma two_images_sorted a b : mm_sorted (two_images a b).
Proof.
  split; [|by repeat (apply Forall_cons_2 || apply Forall_nil_2)].
  repeat (apply SSorted_cons || apply SSorted_nil || apply Forall_cons_2 || apply Forall_nil_2).
  unfold mm_end. simpl. lia.
Qed.

Definition demo_hasher (bs : Z) : block_hasher :=
  request_block_hasher (λ _, []) encode_hash [0] bs.

Definition demo_request : Request :=
  match text_request [11; 0; 0; 14; 15; 0; 0] (two_images "a" "b") (Some (demo_hasher 4)) with
  | Ok r => r
  | Raise _ => mkRequest 0 "" 0 0 0 None None None false WAITING None None 0 None None ∅ 0 [] []
                 0 0 false 0 0 0 [] 0 None [] false 0 0 [] false false false
  end.

(** The prompt without hashes. *)
Definition demo_prompt : Request :=
  match text_request [11; 0; 0; 14; 15; 0; 0] (two_images "a" "b") None with
  | Ok r => r
  | Raise _ => demo_request
  end.

Lemma demo_prompt_new : new_Request 1 "r" (Some [11; 0; 0; 14; 15; 0; 0])
    (Some (mkSamplingParams (Some 16) 0 None None None None false None)) None 0 0 None None
    (two_images "a" "b") None None 0 None false false = Ok demo_prompt.
Proof. reflexivity. Qed.

Lemma demo_prompt_ok : prompt_ok 4 demo_prompt.
Proof.
  split; [apply two_images_sorted|repeat constructor; vm_compute; done|].
  intros _. repeat constructor. vm_compute. done.
Qed.

Lemma incremental_hashes_exact_witness :
  ∃ r r', text_request [11; 0; 0; 14; 15; 0; 0] (two_images "a" "b") (Some (demo_hasher 4)) = Ok r ∧
    append_batches (λ _, []) encode_hash [0] 4 r [[20]; [21; 22; 23; 24]] = Ok r' ∧
    all_token_ids r' = [11; 0; 0; 14; 15; 0; 0; 20; 21; 22; 23; 24] ∧
    block_hashes r' = chain_hash (λ _, []) encode_hash [0] 4 r' <$> seq 0 3.
Proof.
  destruct (incremental_hashes_exact (λ _, []) encode_hash [0] 4 _ _ _ _ _ _ _ _ _ _ _ _ _ _ _ demo_prompt
    ltac:(lia) demo_prompt_new (po_sorted _ _ demo_prompt_ok)) as (r & Hr & _ & _ & Happ).
  destruct (Happ demo_prompt_ok [[20]; [21; 22; 23; 24]]) as (r' & Hr' & [Hall _ _ _ _] & Hh).
  exists r, r'. unfold num_tokens in Hh. rewrite Hall in Hh. by split_and!.
Defined.

(** ** What a hash says *)

Definition lora_of (r : Request) : option string := lora_name <$> lora_request r.
(** An empty salt is none. *)
Definition salt_of (r : Request) : option string :=
  match cache_salt r with Some s => if decide (s = EmptyString) then None else Some s | None => None end.
(** The multi-modal items that reach into the tokens from [s] to [e], and the prompt embeddings there. *)
Definition items_in (r : Request) (s e : Z) : list (string * Z) :=
  (λ f, (identifier f, offset (mm_position f))) <$> filter (mm_overlaps s e) (mm_features r).
Definition rows_in (r : Request) (s e : Z) : option (list (list Z)) := (λ rows, slice rows s e) <$> prompt_embeds r.

(** One request has the name of its LoRA adapter where the other has its salt. *)
Definition mixed_up (r1 r2 : Request) : Prop := ∃ x,
  lora_of r1 = Some x ∧ salt_of r1 = None ∧ lora_of r2 = None ∧ salt_of r2 = Some x.

Definition opt_list {A} (o : option A) : list A := match o with Some x => [x] | None => [] end.
Definition key_str (k : ExtraKey) : option string := match k with KeyStr s => Some s | _ => None end.
Definition key_mm (k : ExtraKey) : option (string * Z) := match k with KeyMM i o => Some (i, o) | _ => None end.
Definition key_bytes (k : ExtraKey) : option bytes := match k with KeyBytes b => Some b | _ => None end.

Section keys.
Variable sha256 : list (list Z) → bytes.
Hypothesis sha256_inj : ∀ x y, sha256 x = sha256 y → x = y.

Definition all_keys (r : Request) (s e : Z) : list ExtraKey :=
  _gen_lora_extra_hash_keys r ++ mm_keys (mm_features r) s e ++ cache_salt_keys r s ++ embeds_keys sha256 r s e.

Lemma block_extra_keys_inj r1 r2 s e :
  block_extra_keys sha256 r1 s e = block_extra_keys sha256 r2 s e → all_keys r1 s e = all_keys r2 s e.
Proof.
  unfold block_extra_keys. fold (all_keys r1 s e) (all_keys r2 s e).
  by destruct (all_keys r1 s e), (all_keys r2 s e); intros [=]; subst.
Qed.

Lemma all_keys_eq r s e : all_keys r s e =
  (KeyStr <$> opt_list (lora_of r)) ++ ((λ x, KeyMM x.1 (x.2 - s)) <$> items_in r s e) ++
  (KeyStr <$> opt_list (if decide (s = 0) then salt_of r else None)) ++
  (KeyBytes <$> opt_list (sha256 <$> rows_in r s e)).
Proof.
  unfold all_keys, _gen_lora_extra_hash_keys, cache_salt_keys, embeds_keys, lora_of, salt_of, rows_in, items_in, mm_keys.
  rewrite <-list_fmap_compose. f_equal; [by destruct (lora_request r)|]. f_equal. f_equal; [|by destruct (prompt_embeds r)].
  destruct (cache_salt r) as [x|]; repeat case_decide; try done; tauto.
Qed.

Lemma omap_map {A B C} (g : A → B) (f : B → option C) (h : A → C) (l : list A) : (∀ x, f (g x) = Some (h x)) → omap f (g <$> l) = h <$> l.
Proof. intros Hf. induction l as [|x l IH]; simpl; [done|]. rewrite Hf. f_equal. exact IH. Qed.
Lemma omap_skip {A B C} (g : A → B) (f : B → option C) (l : list A) : (∀ x, f (g x) = None) → omap f (g <$> l) = [].
Proof. intros Hf. induction l as [|x l IH]; simpl; [done|]. rewrite Hf. exact IH. Qed.

(** The keys of a block say which items and embeddings it has, and name LoRA and salt in one list. *)
Lemma all_keys_inj r1 r2 s e : all_keys r1 s e = all_keys r2 s e →
  items_in r1 s e = items_in r2 s e ∧ rows_in r1 s e = rows_in r2 s e ∧
  opt_list (lora_of r1) ++ opt_list (if decide (s = 0) then salt_of r1 else None) =
  opt_list (lora_of r2) ++ opt_list (if decide (s = 0) then salt_of r2 else None).
Proof.
  rewrite !all_keys_eq. intros Hk.
  assert (Hm := Hk). assert (Hb := Hk). apply (f_equal (omap key_mm)) in Hm. apply (f_equal (omap key_bytes)) in Hb.
  apply (f_equal (omap key_str)) in Hk. rewrite !omap_app in Hk. rewrite !omap_app in Hm. rewrite !omap_app in Hb.
  rewrite !(omap_map KeyStr key_str id), !(omap_skip _ key_str), !list_fmap_id in Hk by done.
  rewrite !(omap_map _ key_mm (λ x, (x.1, x.2 - s))), !(omap_skip _ key_mm) in Hm by done.
  rewrite !(omap_map KeyBytes key_bytes id), !(omap_skip _ key_bytes), !list_fmap_id in Hb by done.
  rewrite ?app_nil_r, ?app_nil_l in *. split_and!; [|clear Hm Hk|done].
  - revert Hm. apply list_fmap_eq_inj. intros [i1 o1] [i2 o2] [= -> Ho]. f_equal. lia.
  - revert Hb. destruct (rows_in r1 s e), (rows_in r2 s e); simpl; [|done..]. intros [= ->%sha256_inj]. done.
Qed.
End keys.

Lemma names_agree r1 r2 (k : nat) :
  opt_list (lora_of r1) ++ opt_list (salt_of r1) = opt_list (lora_of r2) ++ opt_list (salt_of r2) →
  (k ≠ 0%nat → opt_list (lora_of r1) = opt_list (lora_of r2)) →
  lora_of r1 = lora_of r2 ∧ salt_of r1 = salt_of r2 ∨ k = 0%nat ∧ (mixed_up r1 r2 ∨ mixed_up r2 r1).
Proof.
  unfold mixed_up. destruct (lora_of r1), (salt_of r1), (lora_of r2), (salt_of r2); simpl; intros [=] Hk; subst;
    try (by left); (destruct (decide (k = 0%nat)) as [->|H0]; [right; split; [done|]; eauto 7|by specialize (Hk H0)]).
Qed.

(** C10: a block hash identifies what determines the block's content.  Take two requests that
    were created with the block hasher and extended by sampled tokens, with multi-modal items as
    [prompt_ok] asks.  With collision-free hash functions whose values differ from the seed and are
    not empty, two requests that carry the same hash, at any positions, carry it at the same
    position and agree on all tokens up to the end of that block, on the multi-modal items and
    their offsets and on the prompt embeddings of every block up to it, and on the LoRA adapter
    and the salt.  The only exception is the first block, where the name of an adapter passes for
    a salt. *)
Theorem block_hash_identifies_prefix sha256 hash_function NONE_HASH bs r1 r2 (j k : nat) h :
  0 < bs →
  (∀ x y, sha256 x = sha256 y → x = y) →
  (∀ x y, hash_function x = hash_function y → x = y) →
  (∀ x, hash_function x ≠ NONE_HASH) → (∀ x, hash_function x ≠ []) →
  served sha256 hash_function NONE_HASH bs r1 → served sha256 hash_function NONE_HASH bs r2 →
  block_hashes r1 !! j = Some h → block_hashes r2 !! k = Some h →
  j = k ∧
  take (S k * Z.to_nat bs) (all_token_ids r1) = take (S k * Z.to_nat bs) (all_token_ids r2) ∧
  (∀ i, (i ≤ k)%nat → let s := Z.of_nat i * bs in
     items_in r1 s (s + bs) = items_in r2 s (s + bs) ∧ rows_in r1 s (s + bs) = rows_in r2 s (s + bs)) ∧
  (lora_of r1 = lora_of r2 ∧ salt_of r1 = salt_of r2 ∨
   k = 0%nat ∧ (mixed_up r1 r2 ∨ mixed_up r2 r1)).
Proof.
  intros Hbs Hsha Hinj Hnone Hempty H1%served_wf H2%served_wf; [|done..].
  rewrite (wf_hashes _ _ _ _ _ H1), (wf_hashes _ _ _ _ _ H2).
  intros [Hj ->]%chain_hashes_lookup [Hk Heq]%chain_hashes_lookup.
  apply chain_hash_inj in Heq as [-> Hc]; [|done..].
  assert (∀ i, (i ≤ k)%nat → let s := Z.of_nat i * bs in
    items_in r1 s (s + bs) = items_in r2 s (s + bs) ∧ rows_in r1 s (s + bs) = rows_in r2 s (s + bs) ∧
    opt_list (lora_of r1) ++ opt_list (if decide (s = 0) then salt_of r1 else None) =
    opt_list (lora_of r2) ++ opt_list (if decide (s = 0) then salt_of r2 else None)) as Hkeys.
  { intros i Hi. apply (all_keys_inj sha256 Hsha), block_extra_keys_inj. apply Hc in Hi. by injection Hi. }
  split_and!; [done| |intros i Hi; split; apply (Hkeys i Hi)|].
  - apply (blocks_prefix sha256 bs Hbs); [|lia..]. intros i Hi. by rewrite Hc by lia.
  - apply names_agree.
    + destruct (Hkeys 0%nat ltac:(lia)) as (_ & _ & H0). by rewrite decide_True in H0.
    + intros Hk0. destruct (Hkeys 1%nat ltac:(lia)) as (_ & _ & H0). rewrite !decide_False in H0 by lia.
      rewrite !app_nil_r in H0. done.
Qed.

(** A collision-free digest of embedding rows. *)
Definition encode_rows (rows : list (list Z)) : bytes := [Z.pos (encode rows)].
Lemma encode_rows_inj x y : encode_rows x = encode_rows y → x = y.
Proof. intros [= Heq]. by apply (inj encode). Qed.

(** Two prompts that share their first block, with an image each in the second one. *)
Definition run_hasher : block_hasher := request_block_hasher encode_rows encode_hash [0] 4.
Definition hashed (tokens : list Z) (b : string) : Request :=
  match text_request tokens (two_images "a" b) (Some run_hasher) with Ok r => r | Raise _ => inhabitant end.

Lemma hashed_served tokens b r0 :
  text_request tokens (two_images "a" b) None = Ok r0 → length tokens = 7%nat → num_tokens r0 = 7 →
  mm_features r0 = two_images "a" b →
  text_request tokens (two_images "a" b) (Some run_hasher) = Ok (hashed tokens b) →
  served encode_rows encode_hash [0] 4 (hashed tokens b).
Proof.
  intros H0 Hl Hn Hf Hr. eapply served_new; [exact H0| |exact Hr]. split.
  - rewrite Hf. apply two_images_sorted.
  - rewrite Hf, Hn. repeat constructor; vm_compute; done.
  - intros _. unfold num_full_blocks. rewrite Hf, Hn. repeat constructor. vm_compute. done.
Qed.

Lemma block_hash_identifies_prefix_witness :
  let r1 := hashed [11; 0; 0; 14; 15; 0; 0] "b" in let r2 := hashed [11; 0; 0; 14; 99; 0; 0] "c" in
  take 4 (all_token_ids r1) = take 4 (all_token_ids r2) ∧ items_in r1 0 4 = items_in r2 0 4.
Proof.
  intros r1 r2.
  destruct (block_hash_identifies_prefix encode_rows encode_hash [0] 4 r1 r2 0 0 (default [] (block_hashes r1 !! 0%nat)))
    as (_ & Ht & Hi & _); [lia|apply encode_rows_inj|apply encode_hash_inj|done|done| | |reflexivity|vm_compute; reflexivity|].
  - eapply hashed_served; reflexivity.
  - eapply hashed_served; reflexivity.
  - split; [exact Ht|exact (proj1 (Hi 0%nat (le_n 0)))].
Defined.

(** C34: the extra keys of a block hold the name of the LoRA adapter and the cache salt as plain
    strings in one list.  Take any two requests with the same prompt, of at least one block and
    without multi-modal items, of which one uses an adapter and no salt, and the other no adapter
    and a salt that is the name of the adapter: the hashes of their first blocks are equal, for
    every hash function. *)
Theorem salt_passes_for_lora sha256 hash_function NONE_HASH bs
    oid rid ts sp pp ci at_ emb is_tok lora pr res_ ab oid' rid' sp' pp' ci' at_' pr' res_' ab' r1 r2 :
  0 < bs ≤ num_tokens r1 → lora_name lora ≠ EmptyString →
  let hasher := Some (request_block_hasher sha256 hash_function NONE_HASH bs) in
  new_Request oid rid ts sp pp ci at_ emb is_tok [] (Some lora) None pr hasher res_ ab = Ok r1 →
  new_Request oid' rid' ts sp' pp' ci' at_' emb is_tok [] None (Some (lora_name lora)) pr' hasher res_' ab' = Ok r2 →
  ∃ h, block_hashes r1 !! 0%nat = Some h ∧ block_hashes r2 !! 0%nat = Some h.
Proof.
  intros Hbs Hne hasher Hr1 Hr2.
  destruct (plain_request_wf _ _ _ bs ltac:(lia) _ _ _ _ _ _ _ _ _ _ _ _ _ _ _ Hr1) as (H1 & Hm1 & Hl1 & Hs1 & He1 & Ht1).
  destruct (plain_request_wf _ _ _ bs ltac:(lia) _ _ _ _ _ _ _ _ _ _ _ _ _ _ _ Hr2) as (H2 & Hm2 & Hl2 & Hs2 & He2 & Ht2).
  rewrite Ht1 in Ht2. injection Ht2 as Ht.
  assert (0 < num_full_blocks bs r1)%nat as Hfull by (apply full_block_end; lia).
  exists (chain_hash sha256 hash_function NONE_HASH bs r1 0). rewrite H1, H2. split; apply chain_hashes_lookup.
  - done.
  - split; [unfold num_full_blocks, num_tokens in *; by rewrite <-Ht|]. apply chain_hash_ext.
    intros j Hj. replace j with 0%nat by lia. unfold block_content. rewrite Ht. f_equal.
    unfold block_extra_keys, _gen_lora_extra_hash_keys, cache_salt_keys, embeds_keys.
    rewrite Hm1, Hm2, Hl1, Hl2, Hs1, Hs2, He1, He2. by rewrite decide_True by done.
Qed.

Lemma salt_passes_for_lora_witness :
  ∃ r1 r2 h, block_hashes r1 !! 0%nat = Some h ∧ block_hashes r2 !! 0%nat = Some h ∧
    lora_of r1 = Some "x"%string ∧ lora_of r2 = None.
Proof.
  set (sp := Some (mkSamplingParams (Some 16) 0 None None None None false None)).
  set (hasher := Some (request_block_hasher (λ _, []) encode_hash [0] 2)).
  destruct (new_Request 1 "r" (Some [1; 2; 3]) sp None 0 0 None None [] (Some (mkLoRARequest "x" 1)) None 0 hasher false false)
    as [r1|] eqn:H1; [|done].
  destruct (new_Request 2 "q" (Some [1; 2; 3]) sp None 0 0 None None [] None (Some "x"%string) 0 hasher false false)
    as [r2|] eqn:H2; [|done].
  assert (num_tokens r1 = 3 ∧ lora_of r1 = Some "x"%string) as [Hn Hl] by (vm_compute in H1; by injection H1 as <-).
  assert (0 < 2 ≤ num_tokens r1) as Hbs by lia.
  destruct (salt_passes_for_lora (λ _, []) encode_hash [0] 2 _ _ _ _ _ _ _ _ _ (mkLoRARequest "x" 1) _ _ _ _ _ _ _ _ _ _ _ _ r1 r2
    Hbs ltac:(done) H1 H2) as (h & Hh1 & Hh2).
  exists r1, r2, h. split_and!; [exact Hh1|exact Hh2|exact Hl|]. vm_compute in H2. by injection H2 as <-.
Defined.

(** [BlockHashListWithBlockSize] and [resolve_block_hashes] re-view the hashes at a
    multiple [c] of the hash block size: the view has one entry per full large block, and
    entry [i] is the chained hash of the small block that ends at token [(i+1)*c*bs], that
    is, of the large block's whole prefix. *)
Lemma coarse_view_exact sha256 hash_function NONE_HASH bs r c :
  0 < bs → 1 < c → hashes_ok sha256 hash_function NONE_HASH bs r →
  ∃ v, resolve_block_hashes (HashList (block_hashes r)) bs (c * bs) false None = Ok (HashView v) ∧
    hashes_len (HashView v) = num_tokens r // (c * bs) ∧
    ∀ i, 0 ≤ i < hashes_len (HashView v) →
      hashes_get (HashView v) i =
        Ok (chain_hash sha256 hash_function NONE_HASH bs r (Z.to_nat ((i + 1) * c - 1))).
Proof.
  intros Hbs Hc Hh. unfold resolve_block_hashes. rewrite decide_False by nia. simpl.
  rewrite decide_True by (apply Z.mod_mul; lia).
  destruct (new_BlockHashListWithBlockSize (block_hashes r) bs (c * bs)) as [v|e] eqn:Hv.
  - exists v. split; [done|]. eapply (hash_view_spec sha256); eauto; lia.
  - unfold new_BlockHashListWithBlockSize in Hv. rewrite decide_True in Hv; [done|].
    apply Z.mod_mul; lia.
Qed.

Definition concat_hash (x : bytes * list Z * option (list ExtraKey)) : bytes := x.1.1 ++ x.1.2.

