(* ===== verification/Session.v ===== *)
(** * Streaming-input sessions

    [StreamingUpdate] (src/vllm/v1/request.py) and the scheduler's
    [_update_request_as_session] and [_handle_stopped_request]
    (src/vllm/v1/core/sched/scheduler.py), which continue a resumable request
    with the next chunk of input.  The scheduler state these touch is the counter
    [num_waiting_for_streaming_input]. *)

From S2P Require Import Prelude FreeQueue Request Hashing.

Record StreamingUpdate := mkStreamingUpdate {
  su_mm_features : option (list MultiModalFeatureSpec);
  su_prompt_token_ids : option (list Z);
  su_max_tokens : Z;
  su_arrival_time : Z;
  su_sampling_params : option SamplingParams
}.

(** [StreamingUpdate.from_request] *)
Definition from_request (r : Request) : option StreamingUpdate :=
  if negb (resumable r) then None
  else Some (mkStreamingUpdate (Some (mm_features r)) (prompt_token_ids r) (max_tokens r)
               (arrival_time r) (sampling_params r)).

Definition shift_feature (base : Z) (f : MultiModalFeatureSpec) : MultiModalFeatureSpec :=
  mkMMFeature (identifier f)
    (mkPlaceholderRange (offset (mm_position f) + base) (length_ (mm_position f))
       (is_embed (mm_position f))).

(** [_update_request_as_session]; the result pairs the session with the counter
    [num_waiting_for_streaming_input]. *)
Definition _update_request_as_session (hasher : option block_hasher)
    (num_waiting_for_streaming_input : Z) (session : Request) (update : StreamingUpdate) :
    res (Request * Z) :=
  let kept_output_tokens :=
    slice (all_token_ids session) (num_prompt_tokens session) (num_computed_tokens session) in
  let session := session <| all_token_ids := slice_to (all_token_ids session)
                                               (num_computed_tokens session) |>
                         <| output_token_ids := [] |> in
  match prompt_token_ids session with
  | None => Raise AssertionError
  | Some prompt =>
      let prompt := prompt ++ kept_output_tokens in
      let session :=
        match su_mm_features update with
        | Some ((_ :: _) as feats) =>
            let base := num_tokens session in
            session <| mm_features ::= (.++ (shift_feature base <$> feats)) |>
        | _ => session
        end in
      let new_tokens := default [] (su_prompt_token_ids update) in
      let session := session <| all_token_ids ::= (.++ new_tokens) |>
                             <| prompt_token_ids := Some (prompt ++ new_tokens) |> in
      session ← update_block_hashes hasher session;
      let session := session <| num_prompt_tokens := len (prompt ++ new_tokens) |>
                             <| arrival_time := su_arrival_time update |>
                             <| sampling_params := su_sampling_params update |> in
      let waiting :=
        if decide (status session = WAITING_FOR_STREAMING_REQ)
        then num_waiting_for_streaming_input - 1 else num_waiting_for_streaming_input in
      Ok (session <| status := WAITING |>, waiting)
  end.

(** ** Behaviour *)

Section session.
Variable sha256 : list (list Z) → bytes.
Variable hash_function : bytes * list Z * option (list ExtraKey) → bytes.
Variable NONE_HASH : bytes.
Variable bs : Z.
Hypothesis Hbs : 0 < bs.
Abbreviation hasher := (request_block_hasher sha256 hash_function NONE_HASH bs).

Lemma slice_to_block (l : list Z) n s e : 0 ≤ s ≤ e → e ≤ n → n ≤ len l →
  slice (slice_to l n) s e = slice l s e.
Proof.
  intros. rewrite <-(take_drop (Z.to_nat n) l) at 2. unfold slice_to.
  rewrite slice_pos_in by lia. symmetry. apply slice_app_l; [lia|].
  unfold len in *. rewrite length_take. lia.
Qed.

(** A text-only update of a session whose discarded tokens lie in no hashed block. *)
Lemma session_update_text r w u prompt :
  hash_wf sha256 hash_function NONE_HASH bs r → prompt_token_ids r = Some prompt →
  mm_features r = [] → default [] (su_mm_features u) = [] →
  Z.of_nat (num_full_blocks bs r) * bs ≤ num_computed_tokens r ≤ num_tokens r →
  ∃ r' w', _update_request_as_session (Some hasher) w r u = Ok (r', w') ∧
    hashes_ok sha256 hash_function NONE_HASH bs r' ∧
    all_token_ids r' = slice_to (all_token_ids r) (num_computed_tokens r) ++
                       default [] (su_prompt_token_ids u).
Proof.
  intros [Hm Hs Hh Hres Hin] Hp Hmm Hu Hc. unfold _update_request_as_session. cbv zeta.
  match goal with |- context [match ?x with Some _ => _ | None => Raise _ end] =>
    change x with (prompt_token_ids r) end. rewrite Hp.
  set (ts := default [] (su_prompt_token_ids u)).
  match goal with |- context [update_block_hashes _ ?x] => set (r1 := x) end.
  assert (all_token_ids r1 = slice_to (all_token_ids r) (num_computed_tokens r) ++ ts) as Hall.
  { unfold r1. by destruct (su_mm_features u) as [[|]|]. }
  assert (mm_features r1 = [] ∧ prompt_embeds r1 = prompt_embeds r ∧ block_hashes r1 = block_hashes r ∧
    lora_request r1 = lora_request r ∧ cache_salt r1 = cache_salt r ∧
    prompt_embeds_per_block_hashes r1 = prompt_embeds_per_block_hashes r)
    as (Hmm1 & He & Hb & Hl & Hsalt & Hm1).
  { unfold r1. destruct (su_mm_features u) as [[|]|]; by rewrite ?Hmm. }
  assert (∀ j, (j < num_full_blocks bs r)%nat →
    block_content sha256 bs r1 j = block_content sha256 bs r j) as Hcont.
  { intros j Hj. apply (full_block_end bs Hbs) in Hj as Hj'.
    unfold block_content, num_tokens in *. f_equal.
    - rewrite Hall, slice_app_l, slice_to_block; [done|lia|nia|lia|lia|].
      unfold slice_to. rewrite slice_pos_in by nia. unfold len in *. rewrite length_take. nia.
    - unfold block_extra_keys, _gen_lora_extra_hash_keys, cache_salt_keys, embeds_keys.
      by rewrite Hmm1, Hmm, Hl, Hsalt, He. }
  destruct (update_block_hashes_spec sha256 hash_function NONE_HASH bs Hbs r1
    (num_full_blocks bs r)) as (m & Hup & Hm' & Hh').
  { unfold memo_ok. by rewrite Hm1, He. }
  { rewrite Hmm1. split; constructor. }
  { rewrite Hb, Hh. symmetry. by apply chain_hashes_ext. }
  { apply Z2Nat.inj_le. all: try (apply Z.div_pos; [apply len_nonneg|lia]).
    apply Z.div_le_lower_bound; [lia|]. unfold num_tokens in *.
    rewrite Hall, len_app. pose proof (len_nonneg ts).
    assert (len (slice_to (all_token_ids r) (num_computed_tokens r)) = num_computed_tokens r) as ->.
    { unfold slice_to. pose proof (Nat2Z.is_nonneg (num_full_blocks bs r)).
      rewrite slice_pos_in by nia. unfold len in *. rewrite length_take. nia. }
    unfold num_full_blocks, num_tokens in Hc. rewrite Z2Nat.id in Hc; [lia|].
    apply Z.div_pos; [apply len_nonneg|lia]. }
  { intros _. by rewrite Hmm1. }
  rewrite Hup. cbn [mbind res_bind]. eexists _, _. split; [reflexivity|].
  split; [|exact Hall]. etransitivity; [exact Hh'|]. by apply chain_hashes_ext.
Qed.
End session.

(** ** Main theorems *)

(** Continuing a text-only session keeps the computed tokens and appends the new input,
    and the session's hashes stay the from-scratch hashes of its full blocks, provided the
    tokens that are discarded lie outside the blocks already hashed. *)
Lemma session_update_hashes_exact sha256 hash_function NONE_HASH bs r w u prompt :
  0 < bs → hash_wf sha256 hash_function NONE_HASH bs r → prompt_token_ids r = Some prompt →
  mm_features r = [] → default [] (su_mm_features u) = [] →
  Z.of_nat (num_full_blocks bs r) * bs ≤ num_computed_tokens r ≤ num_tokens r →
  ∃ r' w', _update_request_as_session
             (Some (request_block_hasher sha256 hash_function NONE_HASH bs)) w r u = Ok (r', w') ∧
    all_token_ids r' = slice_to (all_token_ids r) (num_computed_tokens r) ++
                       default [] (su_prompt_token_ids u) ∧
    block_hashes r' = chain_hash sha256 hash_function NONE_HASH bs r' <$>
                        seq 0 (Z.to_nat (num_tokens r' // bs)).
Proof.
  intros Hbs Hwf Hp Hmm Hu Hc.
  destruct (session_update_text sha256 hash_function NONE_HASH bs Hbs r w u prompt)
    as (r' & w' & Hup & Hh & Hall); [done..|]. exists r', w'. done.
Qed.

Definition demo_session : Request :=
  match text_request [1; 2; 3; 4; 5; 6] [] (Some (demo_hasher 4)) with
  | Ok r => r <| num_computed_tokens := 5 |>
  | Raise _ => demo_request
  end.
Definition demo_update : StreamingUpdate := mkStreamingUpdate None (Some [7; 8; 9]) 16 1 None.


(** The update carries [max_tokens], but the session keeps its own. *)
Theorem session_ignores_max_tokens w r u r' w' :
  _update_request_as_session None w r u = Ok (r', w') → max_tokens r' = max_tokens r.
Proof.
  unfold _update_request_as_session. cbv zeta.
  match goal with |- context [match ?x with Some _ => _ | None => Raise _ end] => destruct x end;
    [|done].
  cbn [update_block_hashes mbind res_bind]. intros [= <- _].
  by destruct (su_mm_features u) as [[|]|].
Qed.
