(* ===== verification/BlockPool.v ===== *)
(** * The block pool (src/vllm/v1/core/block_pool.py)

    Allocation, reference counting, freeing and prefix caching of KV-cache blocks.

    A reference to one of the pool's [KVCacheBlock] objects is its index in
    [self.blocks], which is also its [block_id]; the objects live in the store of
    the free queue (FreeQueue.v).  Block 0 is the null block. *)

From S2P Require Import Prelude FreeQueue Request Hashing.

(** ** BlockHashToBlockMap *)

(** [KVCacheBlock | dict[int, KVCacheBlock]] *)
Inductive CacheEntry :=
  | Single (b : nat)
  | Multi (d : list (nat * nat)).

Abbreviation BlockHashToBlockMap := (gmap bytes CacheEntry).

Definition get_one_block (c : BlockHashToBlockMap) (key : bytes) : res (option nat) :=
  match c !! key with
  | None => Ok None
  | Some (Single b) => Ok (Some b)
  | Some (Multi d) => match d with (_, b) :: _ => Ok (Some b) | [] => Raise StopIteration end
  end.

Definition contain (c : BlockHashToBlockMap) (key : bytes) (block_id : nat) : bool :=
  match c !! key with
  | None => false
  | Some (Single b) => bool_decide (b = block_id)
  | Some (Multi d) => match dict_get d block_id with Some _ => true | None => false end
  end.

(** [insert] *)
Definition map_insert (c : BlockHashToBlockMap) (key : bytes) (block : nat) : BlockHashToBlockMap :=
  match c !! key with
  | None => <[key := Single block]> c
  | Some (Single b) => <[key := Multi (dict_set [(b, b)] block block)]> c
  | Some (Multi d) => <[key := Multi (dict_set d block block)]> c
  end.

(** [pop] *)
Definition map_pop (c : BlockHashToBlockMap) (key : bytes) (block_id : nat) :
    option nat * BlockHashToBlockMap :=
  match c !! key with
  | None => (None, c)
  | Some (Single b) => if decide (b = block_id) then (Some b, delete key c) else (None, c)
  | Some (Multi d) =>
      let block := dict_get d block_id in
      let d := dict_del d block_id in
      (block, if decide (0 < len d) then <[key := Multi d]> c else delete key c)
  end.

(** ** Events *)

Record BlockStored := mkBlockStored {
  ev_block_hashes : option (list ExternalBlockHash);
  ev_parent_block_hash : option ExternalBlockHash;
  ev_token_ids : list Z;
  ev_block_size : Z;
  ev_lora_id : option Z;
  ev_lora_name : option string;
  ev_extra_keys : option (list (option (list ExtraKey)));
  ev_group_idx : Z
}.

(** The medium is always [MEDIUM_GPU]. *)
Inductive KVCacheEvent :=
  | EvStored (e : BlockStored)
  | EvRemoved (block_hashes : list ExternalBlockHash) (group_idx : Z)
  | EvAllBlocksCleared.

(** The calls the pool makes on its metrics collector. *)
Inductive MetricsCall :=
  | OnBlockAllocated (b : nat)
  | OnBlockEvicted (b : nat)
  | OnBlockAccessed (b : nat)
  | MetricsReset.

(** ** The pool object *)

Record BlockPool := mkBlockPool {
  num_gpu_blocks : Z;
  enable_caching : bool;
  hash_block_size : Z;
  pool_id : Z;
  free_block_queue : FreeKVCacheBlockQueue;
  cached_block_hash_to_block : BlockHashToBlockMap;
  cached_block_hashes_by_block : gmap nat (gset bytes);
  enable_kv_cache_events : bool;
  kv_event_queue : list KVCacheEvent;
  metrics_collector : option (list MetricsCall)
}.

#[global] Instance BlockPool_eta : Eta BlockPool := λ p,
  mkBlockPool (num_gpu_blocks p) (enable_caching p) (hash_block_size p) (pool_id p)
    (free_block_queue p) (cached_block_hash_to_block p) (cached_block_hashes_by_block p)
    (enable_kv_cache_events p) (kv_event_queue p) (metrics_collector p).

(** The index of the null block. *)
Definition null_block : nat := 0.

Abbreviation P := (M BlockPool).

Definition blk (p : BlockPool) (i : nat) : KVCacheBlock := obj (free_block_queue p) (Block i).
Definition upd_blk (i : nat) (f : KVCacheBlock → KVCacheBlock) (p : BlockPool) : BlockPool :=
  p <| free_block_queue ::= update_obj (Block i) f |>.

(** A method of the free queue. *)
Definition on_queue {A} (m : Q A) : P A := λ p,
  match m (free_block_queue p) with
  | Ok (a, q) => Ok (a, p <| free_block_queue := q |>)
  | Raise e => Raise e
  end.

Definition ptr_block (x : ptr) : option nat := match x with Block i => Some i | _ => None end.

Definition metrics (c : MetricsCall) : P unit :=
  modify (λ p, p <| metrics_collector ::= fmap (.++ [c]) |>).

Definition emit (e : KVCacheEvent) : P unit :=
  modify (λ p, p <| kv_event_queue ::= (.++ [e]) |>).

(** [BlockPool.__init__] *)
Definition pool_blocks (num : nat) (pool_id : Z) : gmap ptr KVCacheBlock :=
  list_to_map ((λ i, (Block i, new_block pool_id)) <$> seq 0 num).

Definition new_BlockPool (num_gpu_blocks : Z) (enable_caching : bool) (hash_block_size : Z)
    (enable_kv_cache_events : bool) (metrics_collector : option (list MetricsCall))
    (pool_id : Z) : res BlockPool :=
  if decide (num_gpu_blocks > 0) then
    let n := Z.to_nat num_gpu_blocks in
    '(_, q) ← queue_init (Block <$> seq 0 n) (mkQueue (pool_blocks n pool_id) 0);
    '(nb, q) ← popleft q;
    let q := update_obj nb (λ b, b <| is_null := true |>) q in
    Ok (mkBlockPool num_gpu_blocks enable_caching hash_block_size pool_id q ∅ ∅
          enable_kv_cache_events [] metrics_collector)
  else Raise AssertionError.

Definition get_num_free_blocks (p : BlockPool) : Z := num_free_blocks (free_block_queue p).

(** [get_cached_block] *)
Fixpoint get_cached_block (p : BlockPool) (block_hash : bytes) (kv_cache_group_ids : list Z) :
    res (option (list nat)) :=
  match kv_cache_group_ids with
  | [] => Ok (Some [])
  | group_id :: ids =>
      key ← make_block_hash_with_group_id block_hash group_id;
      b ← get_one_block (cached_block_hash_to_block p) key;
      match b with
      | None => Ok None
      | Some b =>
          rest ← get_cached_block p block_hash ids;
          Ok (fmap (M := option) (cons b) rest)
      end
  end.

(** ** Hash metadata of a block *)

Definition reset_hash (i : nat) : P unit :=
  modify (upd_blk i (λ b, b <| _block_hash := None |> <| _block_hash_num_tokens := None |>)).

Definition set_block_hash (i : nat) (block_hash : bytes) (num_tokens : option Z) : P unit :=
  b ← gets (λ p, blk p i);
  _ ← assert_ (bool_decide (_block_hash b = None ∧ _block_hash_num_tokens b = None));
  modify (upd_blk i (λ b, b <| _block_hash := Some block_hash |>
                            <| _block_hash_num_tokens := num_tokens |>)).

Section pool.
Context `{SetIter}.
(** [envs.VLLM_KV_EVENTS_USE_INT_BLOCK_HASHES] *)
Variable use_int : bool.
Variable sha256 : list (list Z) → bytes.

Definition _remove_cached_block_hashes (block : nat) : P (list bytes) :=
  h ← gets (λ p, _block_hash (blk p block));
  extra ← gets (λ p, cached_block_hashes_by_block p !! block);
  _ ← modify (λ p, p <| cached_block_hashes_by_block ::= delete block |>);
  let block_hashes := match h with Some h => [h] | None => [] end ++
                      match extra with Some X => iter_set X | None => [] end in
  match block_hashes with
  | [] => mret []
  | _ =>
      removed_hashes ← for_acc block_hashes [] (λ removed_hashes block_hash,
        r ← gets (λ p, map_pop (cached_block_hash_to_block p) block_hash block);
        _ ← modify (λ p, p <| cached_block_hash_to_block := r.2 |>);
        mret (match r.1 with Some _ => removed_hashes ++ [block_hash] | None => removed_hashes end));
      _ ← reset_hash block;
      mret removed_hashes
  end.

Definition _emit_block_removed_events (block_hashes : list bytes) : P unit :=
  enabled ← gets enable_kv_cache_events;
  if negb enabled then mret tt else
  for_ block_hashes (λ block_hash,
    emit (EvRemoved [maybe_convert_block_hash use_int (get_block_hash block_hash)]
            (get_group_id block_hash))).

Definition _insert_block_hash (key : bytes) (block : nat) (num_tokens : option Z) : P unit :=
  h ← gets (λ p, _block_hash (blk p block));
  if decide (h = Some key) then mret tt else
  c ← gets (λ p, contain (cached_block_hash_to_block p) key block);
  if (c : bool) then mret tt else
  _ ← match h with
      | None => set_block_hash block key num_tokens
      | Some _ =>
          modify (λ p, p <| cached_block_hashes_by_block ::=
            λ m, <[block := default ∅ (m !! block) ∪ {[key]}]> m |>)
      end;
  modify (λ p, p <| cached_block_hash_to_block ::= λ c, map_insert c key block |>).

Definition move_block_hashes (src_block dst_block : nat) : P unit :=
  h ← gets (λ p, _block_hash (blk p dst_block));
  _ ← assert_ (bool_decide (h = None));
  extra ← gets (λ p, cached_block_hashes_by_block p !! dst_block);
  _ ← assert_ (bool_decide (extra = None));
  num_tokens ← gets (λ p, _block_hash_num_tokens (blk p src_block));
  removed ← _remove_cached_block_hashes src_block;
  for_ removed (λ block_hash, _insert_block_hash block_hash dst_block num_tokens).

Definition _maybe_evict_cached_block (block : nat) : P bool :=
  _ ← metrics (OnBlockEvicted block);
  evicted_hashes ← _remove_cached_block_hashes block;
  match evicted_hashes with
  | [] => mret false
  | _ => _ ← _emit_block_removed_events evicted_hashes; mret true
  end.

(** ** Allocation and reference counts *)

Definition get_new_blocks (num_blocks : Z) : P (list nat) :=
  free ← gets get_num_free_blocks;
  if decide (num_blocks > free) then raise ValueError else
  ret ← on_queue (popleft_n num_blocks);
  let ret := omap ptr_block ret in
  caching ← gets enable_caching;
  _ ← for_ ret (λ block,
    _ ← (if (caching : bool) then _ ← _maybe_evict_cached_block block; mret tt else mret tt);
    rc ← gets (λ p, ref_cnt (blk p block));
    _ ← assert_ (bool_decide (rc = 0));
    _ ← modify (upd_blk block (λ b, b <| ref_cnt ::= Z.add 1 |>));
    metrics (OnBlockAllocated block));
  mret ret.

Definition touch (blocks : list nat) : P unit :=
  for_ blocks (λ block,
    b ← gets (λ p, blk p block);
    _ ← (if decide (ref_cnt b = 0 ∧ is_null b = false)
         then on_queue (remove (Block block)) else mret tt);
    _ ← modify (upd_blk block (λ b, b <| ref_cnt ::= Z.add 1 |>));
    metrics (OnBlockAccessed block)).

Definition is_block_writable (p : BlockPool) (block : nat) : bool :=
  bool_decide (is_null (blk p block) = false ∧ ref_cnt (blk p block) = 1 ∧
               _block_hash (blk p block) = None).

Definition free_blocks (ordered_blocks : list nat) : P unit :=
  caching ← gets enable_caching;
  '(evict_first, evict_last) ← for_acc ordered_blocks ([], []) (λ '(evict_first, evict_last) block,
    _ ← modify (upd_blk block (λ b, b <| ref_cnt ::= λ n, n - 1 |>));
    b ← gets (λ p, blk p block);
    mret (if decide (ref_cnt b = 0 ∧ is_null b = false) then
            if decide (_block_hash b = None ∨ caching = false)
            then (evict_first ++ [block], evict_last)
            else (evict_first, evict_last ++ [block])
          else (evict_first, evict_last)));
  _ ← on_queue (prepend_n (Block <$> evict_first));
  on_queue (append_n (Block <$> evict_last)).

(** [block_ids] is a set; [self.blocks[block_id]] accepts a negative index. *)
Definition evict_blocks (block_ids : gset Z) : P unit :=
  n ← gets num_gpu_blocks;
  for_ (iter_set block_ids) (λ block_id,
    _ ← assert_ (bool_decide (block_id < n));
    block ← lift_res (index (seq 0 (Z.to_nat n)) block_id);
    _ ← _maybe_evict_cached_block block; mret tt).

Definition reset_prefix_cache : P bool :=
  num_used_blocks ← gets (λ p, num_gpu_blocks p - get_num_free_blocks p);
  if decide (num_used_blocks ≠ 1) then mret false else
  _ ← modify (λ p, p <| cached_block_hash_to_block := ∅ |>);
  _ ← modify (λ p, p <| cached_block_hashes_by_block := ∅ |>);
  n ← gets num_gpu_blocks;
  _ ← for_ (seq 0 (Z.to_nat n)) reset_hash;
  _ ← metrics MetricsReset;
  events ← gets enable_kv_cache_events;
  _ ← (if (events : bool) then emit EvAllBlocksCleared else mret tt);
  mret true.

Definition take_events : P (list KVCacheEvent) :=
  enabled ← gets enable_kv_cache_events;
  if negb enabled then mret [] else
  events ← gets kv_event_queue;
  _ ← modify (λ p, p <| kv_event_queue := [] |>);
  mret events.

(** ** Caching blocks *)

Definition _build_block_stored_event (request : Request)
    (block_hashes : option (list ExternalBlockHash)) (parent_block_hash : option ExternalBlockHash)
    (start_token_idx end_token_idx block_size kv_cache_group_id : Z)
    (extra_keys_list : list (option (list ExtraKey))) : BlockStored :=
  {| ev_block_hashes := block_hashes;
     ev_parent_block_hash := parent_block_hash;
     ev_token_ids := slice (all_token_ids request) start_token_idx end_token_idx;
     ev_block_size := block_size;
     ev_lora_id := lora_int_id <$> lora_request request;
     ev_lora_name := lora_name <$> lora_request request;
     ev_extra_keys := match extra_keys_list with [] => None | l => Some l end;
     ev_group_idx := kv_cache_group_id |}.

(** The mask bit of the [i]-th new block ([block_mask[i]]). *)
Definition mask_at (block_mask : option (list bool)) (i : Z) : res bool :=
  match block_mask with None => Ok true | Some m => index m i end.

(** The body of the first loop of [cache_full_blocks]: the [i]-th new full block. *)
Definition cache_one_block (new_block_hashes : list bytes) (num_cached_blocks block_size : Z)
    (kv_cache_group_id : Z) (block_mask : option (list bool))
    (new_hashes : list ExternalBlockHash) (ib : nat * nat) : P (list ExternalBlockHash) :=
  let '(i, block) := ib in
  null ← gets (λ p, is_null (blk p block));
  if (null : bool) then mret new_hashes else
  m ← lift_res (mask_at block_mask (Z.of_nat i));
  if negb m then mret new_hashes else
  block_hash ← lift_res (index new_block_hashes (Z.of_nat i));
  let num_hash_tokens := (num_cached_blocks + Z.of_nat i + 1) * block_size in
  key ← lift_res (make_block_hash_with_group_id block_hash kv_cache_group_id);
  b ← gets (λ p, blk p block);
  _ ← match _block_hash b with
      | None => mret tt
      | Some _ =>
          _ ← assert_ (match _block_hash_num_tokens b with
                       | Some n => bool_decide (n < num_hash_tokens)
                       | None => false
                       end);
          removed_hashes ← _remove_cached_block_hashes block;
          _emit_block_removed_events removed_hashes
      end;
  _ ← _insert_block_hash key block (Some num_hash_tokens);
  mret (new_hashes ++ [maybe_convert_block_hash use_int block_hash]).

(** The extra keys of the blocks of an event; the request comes back with its memo. *)
Definition event_keys (blocks : list nat) (num_cached_blocks block_size : Z)
    (block_mask : option (list bool)) (acc : list (option (list ExtraKey)) * Z * Request) (i : Z) :
    P (list (option (list ExtraKey)) * Z * Request) :=
  let '(extra_keys_list, curr_mm_idx, request) := acc in
  block ← lift_res (index blocks i);
  null ← gets (λ p, is_null (blk p block));
  if (null : bool) then mret acc else
  m ← lift_res (mask_at block_mask (i - num_cached_blocks));
  if negb m then mret acc else
  let block_start := i * block_size in
  let block_end := block_start + block_size in
  '(extra_keys, curr_mm_idx, request) ← lift_res
    (generate_block_hash_extra_keys sha256 request block_start block_end curr_mm_idx);
  mret (extra_keys_list ++ [extra_keys], curr_mm_idx, request).

Definition cache_full_blocks (request : Request) (blocks : list nat)
    (num_cached_blocks num_full_blocks block_size kv_cache_group_id : Z)
    (block_mask : option (list bool)) : P Request :=
  if decide (num_full_blocks ≤ num_cached_blocks) then mret request else
  let new_full_blocks := slice blocks num_cached_blocks num_full_blocks in
  _ ← assert_ (match block_mask with
               | None => true
               | Some m => bool_decide (len m = len new_full_blocks)
               end);
  hbs ← gets hash_block_size;
  block_hashes ← lift_res
    (resolve_block_hashes (HashList (block_hashes request)) hbs block_size false None);
  new_block_hashes ← lift_res (hashes_from block_hashes num_cached_blocks);
  new_hashes ← for_acc (imap pair new_full_blocks) []
    (cache_one_block new_block_hashes num_cached_blocks block_size kv_cache_group_id block_mask);
  events ← gets enable_kv_cache_events;
  if negb events then mret request else
  parent_block_hash ←
    (if decide (num_cached_blocks = 0) then mret None else
     h ← lift_res (hashes_get block_hashes (num_cached_blocks - 1));
     mret (Some (maybe_convert_block_hash use_int h)));
  '(extra_keys_list, _, request) ←
    for_acc (range num_cached_blocks num_full_blocks) ([], 0, request)
      (event_keys blocks num_cached_blocks block_size block_mask);
  _ ← emit (EvStored (_build_block_stored_event request (Some new_hashes) parent_block_hash
        (num_cached_blocks * block_size) (num_full_blocks * block_size) block_size
        kv_cache_group_id extra_keys_list));
  mret request.

Definition emit_cached_block_events (request : Request)
    (num_cached_blocks block_size kv_cache_group_id : Z) : P Request :=
  events ← gets enable_kv_cache_events;
  if decide (events = false ∨ num_cached_blocks = 0) then mret request else
  hbs ← gets hash_block_size;
  block_hashes ← lift_res
    (resolve_block_hashes (HashList (block_hashes request)) hbs block_size false None);
  '(cached_hashes, extra_keys_list, _, request) ←
    for_acc (range 0 num_cached_blocks) ([], [], 0, request)
      (λ '(cached_hashes, extra_keys_list, curr_mm_idx, request) i,
        let block_start := i * block_size in
        let block_end := block_start + block_size in
        h ← lift_res (hashes_get block_hashes i);
        '(extra_keys, curr_mm_idx, request) ← lift_res
          (generate_block_hash_extra_keys sha256 request block_start block_end curr_mm_idx);
        mret (cached_hashes ++ [maybe_convert_block_hash use_int h],
              extra_keys_list ++ [extra_keys], curr_mm_idx, request));
  match cached_hashes with
  | [] => mret request
  | _ =>
      _ ← emit (EvStored (_build_block_stored_event request (Some cached_hashes) None
            0 (num_cached_blocks * block_size) block_size kv_cache_group_id extra_keys_list));
      mret request
  end.

Definition _get_partial_block_hash (hbs : Z) (request : Request) (num_tokens : Z) : res bytes :=
  if decide (num_tokens mod hbs = 0) then
    let num_hash_blocks := num_tokens // hbs in
    if decide (0 < num_hash_blocks ≤ len (block_hashes request)) then
      index (block_hashes request) (num_hash_blocks - 1)
    else Raise AssertionError
  else Raise AssertionError.

Definition _get_partial_block_parent_hash_and_start (hbs : Z) (request : Request)
    (num_tokens : Z) : res (option bytes * Z) :=
  let num_hash_blocks := num_tokens // hbs in
  parent_hash ←
    (if decide (num_hash_blocks > 1) then
       h ← index (block_hashes request) (num_hash_blocks - 2); Ok (Some h)
     else Ok None);
  Ok (parent_hash, (num_hash_blocks - 1) * hbs).

Definition cache_partial_block (request : Request) (block : nat)
    (num_tokens kv_cache_group_id block_size : Z) : P (option bytes * Request) :=
  b ← gets (λ p, blk p block);
  if is_null b then mret (None, request) else
  hbs ← gets hash_block_size;
  _ ← assert_ (bool_decide (block_size > hbs));
  _ ← assert_ (bool_decide (block_size mod hbs = 0));
  _ ← assert_ (bool_decide (num_tokens mod block_size ≠ 0));
  block_hash ← lift_res (_get_partial_block_hash hbs request num_tokens);
  let num_hash_blocks := num_tokens // hbs in
  key ← lift_res (make_block_hash_with_group_id block_hash kv_cache_group_id);
  c ← gets (λ p, contain (cached_block_hash_to_block p) key block);
  let already_cached := bool_decide (_block_hash b = Some key) || c in
  _ ← match _block_hash b, _block_hash_num_tokens b with
      | Some _, Some n =>
          if negb already_cached && bool_decide (n < num_hash_blocks * hbs) then
            removed_hashes ← _remove_cached_block_hashes block;
            _emit_block_removed_events removed_hashes
          else mret tt
      | _, _ => mret tt
      end;
  _ ← _insert_block_hash key block (Some (num_hash_blocks * hbs));
  events ← gets enable_kv_cache_events;
  if decide (events = false ∨ already_cached = true) then mret (Some key, request) else
  '(parent_hash, block_start) ← lift_res
    (_get_partial_block_parent_hash_and_start hbs request num_tokens);
  let block_end := num_tokens in
  let curr_mm_idx := if decide (block_start > 0) then -1 else 0 in
  '(extra_keys, _, request) ← lift_res
    (generate_block_hash_extra_keys sha256 request block_start block_end curr_mm_idx);
  _ ← emit (EvStored
    {| ev_block_hashes := Some [maybe_convert_block_hash use_int block_hash];
       ev_parent_block_hash := maybe_convert_block_hash use_int <$> parent_hash;
       ev_token_ids := slice (all_token_ids request) block_start block_end;
       ev_block_size := block_end - block_start;
       ev_lora_id := lora_int_id <$> lora_request request;
       ev_lora_name := lora_name <$> lora_request request;
       ev_extra_keys := Some [extra_keys];
       ev_group_idx := kv_cache_group_id |});
  mret (Some key, request).
End pool.

Arguments get_new_blocks {_}.
