(* ===== verification/PoolSpecs.v ===== *)
(** * Specifications of the block pool's operations

    The invariant of the pool (its allocation half and its caching half) and what
    each operation of BlockPool.v does to it, as total-correctness specifications. *)

From S2P Require Import Prelude FreeQueue Request Hashing BlockPool.

(** ** The hash map as a relation between keys and blocks *)

Definition entry_ok (e : CacheEntry) : Prop :=
  match e with
  | Single _ => True
  | Multi d => d ≠ [] ∧ NoDup d.*1 ∧ Forall (λ kb, kb.1 = kb.2) d
  end.

Definition map_wf (c : BlockHashToBlockMap) : Prop := ∀ k e, c !! k = Some e → entry_ok e.

Lemma diag_get (d : list (nat * nat)) i j :
  Forall (λ kb, kb.1 = kb.2) d → dict_get d i = Some j → j = i.
Proof.
  intros Hd Hg. apply dict_get_elem in Hg. rewrite Forall_forall in Hd.
  symmetry. apply (Hd _ Hg).
Qed.

Lemma diag_set (d : list (nat * nat)) i :
  Forall (λ kb, kb.1 = kb.2) d → Forall (λ kb, kb.1 = kb.2) (dict_set d i i).
Proof.
  induction 1 as [|[k b] d Hk Hd IH]; simpl; [by repeat constructor|].
  case_decide; subst; constructor; done.
Qed.

Lemma diag_del (d : list (nat * nat)) i :
  Forall (λ kb, kb.1 = kb.2) d → Forall (λ kb, kb.1 = kb.2) (dict_del d i).
Proof.
  induction 1 as [|[k b] d Hk Hd IH]; simpl; [constructor|]. case_decide; [done|by constructor].
Qed.

Lemma dict_set_not_nil {K V} `{EqDecision K} (d : list (K * V)) k v : dict_set d k v ≠ [].
Proof. destruct d as [|[k' v'] d]; simpl; [done|]. by case_decide. Qed.

(** What a lookup of [(key, block)] sees of an entry. *)
Definition entry_has (e : CacheEntry) (i : nat) : bool :=
  match e with
  | Single b => bool_decide (b = i)
  | Multi d => match dict_get d i with Some _ => true | None => false end
  end.

Lemma contain_alt c k i :
  contain c k i = match c !! k with Some e => entry_has e i | None => false end.
Proof. unfold contain. by destruct (c !! k) as [[]|]. Qed.

Lemma map_wf_insert c k e : map_wf c → entry_ok e → map_wf (<[k := e]> c).
Proof.
  intros Hc He k' e'. destruct (decide (k = k')) as [->|Hk].
  - rewrite lookup_insert_eq. by intros [= <-].
  - rewrite lookup_insert_ne by done. apply Hc.
Qed.

Lemma map_wf_delete c k : map_wf c → map_wf (delete k c).
Proof. intros Hc k' e [_ Hk]%lookup_delete_Some. by eapply Hc. Qed.

Lemma contain_set c k e k' i :
  contain (<[k := e]> c) k' i = if decide (k = k') then entry_has e i else contain c k' i.
Proof.
  rewrite !contain_alt. case_decide; subst; [by rewrite lookup_insert_eq|].
  by rewrite lookup_insert_ne.
Qed.

Lemma contain_delete c k k' i :
  contain (delete k c) k' i = if decide (k = k') then false else contain c k' i.
Proof.
  rewrite !contain_alt. case_decide; subst; [by rewrite lookup_delete_eq|].
  by rewrite lookup_delete_ne.
Qed.

Lemma map_insert_wf c k i : map_wf c → map_wf (map_insert c k i).
Proof.
  intros Hc. unfold map_insert. destruct (c !! k) as [[b|d]|] eqn:Hk; apply map_wf_insert; auto.
  - split_and!; [apply dict_set_not_nil|apply dict_set_NoDup, NoDup_singleton|].
    apply diag_set. by repeat constructor.
  - apply Hc in Hk as (? & ? & ?). split_and!; auto using dict_set_not_nil, dict_set_NoDup, diag_set.
  - done.
Qed.

Lemma contain_insert c k i k' j :
  contain (map_insert c k i) k' j = bool_decide (k = k' ∧ i = j) || contain c k' j.
Proof.
  unfold map_insert. destruct (c !! k) as [[b|d]|] eqn:Hk; rewrite contain_set;
    case_decide as Hkk; subst; rewrite ?contain_alt, ?Hk; simpl.
  all: try (rewrite bool_decide_eq_false_2 by naive_solver; done).
  - case_all.
  - rewrite dict_get_set. case_all.
  - case_all.
Qed.

(** Popping a block from a key returns it when it was there and removes just that pair. *)
Lemma map_pop_spec c k i :
  map_wf c →
  (map_pop c k i).1 = (if contain c k i then Some i else None) ∧ map_wf (map_pop c k i).2 ∧
  ∀ k' j, contain (map_pop c k i).2 k' j = contain c k' j && negb (bool_decide (k = k' ∧ i = j)).
Proof.
  intros Hc. unfold map_pop. rewrite contain_alt. destruct (c !! k) as [[b|d]|] eqn:Hk; simpl.
  - case_decide; subst; simpl; [rewrite bool_decide_eq_true_2 by done|
                                rewrite bool_decide_eq_false_2 by done].
    + split_and!; auto using map_wf_delete. intros k' j. rewrite contain_delete.
      case_decide; subst; rewrite contain_alt, ?Hk; case_all.
    + split_and!; [done|done|]. intros k' j. case_bool_decide as Hd; [|by rewrite andb_true_r].
      destruct Hd as [-> ->]. rewrite contain_alt, Hk. simpl. by rewrite bool_decide_eq_false_2.
  - pose proof (Hc _ _ Hk) as (Hne & Hnd & Hdiag). split_and!.
    + destruct (dict_get d i) eqn:Hg; [|done]. by rewrite (diag_get _ _ _ Hdiag Hg).
    + case_decide; [|by apply map_wf_delete]. apply map_wf_insert; [done|].
      split_and!; [by intros Hnil; rewrite Hnil in *|by apply dict_del_NoDup|by apply diag_del].
    + intros k' j. destruct (decide (k = k')) as [<-|Hkk].
      * assert (contain c k j = match dict_get d j with Some _ => true | None => false end) as ->
          by (by rewrite contain_alt, Hk).
        pose proof (dict_get_del d i j Hnd) as Hget.
        destruct (decide (0 < len (dict_del d i))).
        -- rewrite contain_set, decide_True by done. simpl. rewrite Hget.
           destruct (dict_get d j); case_all.
        -- rewrite contain_delete, decide_True by done.
           destruct (dict_del d i) as [|x d']; [|rewrite len_cons in *; pose proof (len_nonneg d'); lia].
           simpl in Hget. destruct (dict_get d j); case_all.
      * rewrite (bool_decide_eq_false_2 (k = k' ∧ i = j)), andb_true_r by naive_solver.
        case_decide; rewrite ?contain_set, ?contain_delete; by rewrite decide_False.
  - split_and!; [done|done|]. intros k' j. case_bool_decide as Hd; [|by rewrite andb_true_r].
    destruct Hd as [-> ->]. by rewrite contain_alt, Hk.
Qed.

Lemma get_one_block_spec c k :
  map_wf c →
  match get_one_block c k with
  | Ok (Some i) => contain c k i = true
  | Ok None => ∀ i, contain c k i = false
  | Raise _ => False
  end.
Proof.
  intros Hc. unfold get_one_block. pose proof (contain_alt c k) as Hcon.
  destruct (c !! k) as [[b|d]|] eqn:Hk; rewrite ?Hcon; [by apply bool_decide_eq_true_2| |done].
  pose proof (Hc _ _ Hk) as (Hne & Hnd & Hdiag). destruct d as [|[k' b] d]; [done|].
  apply Forall_cons in Hdiag as [Hkb _]. simpl in Hkb. subst.
  rewrite Hcon. simpl. by rewrite decide_True.
Qed.

(** ** The invariant

    It has two independent halves: the allocation half speaks of reference counts
    and the free list, the caching half of hashes and the hash map. *)

Record alloc_wf (p : BlockPool) (l : list nat) : Prop := {
  wf_queue : queue_repr (free_block_queue p) l;
  wf_num : 0 < num_gpu_blocks p;
  (* the free list holds exactly the unreferenced blocks, the null block apart *)
  wf_free i : i ∈ l ↔ 0 < Z.of_nat i < num_gpu_blocks p ∧ ref_cnt (blk p i) = 0;
  wf_null i : is_null (blk p i) = true ↔ i = null_block;
  wf_ref i : i ≠ null_block → 0 ≤ ref_cnt (blk p i)
}.

(** Block [i] is the owner of key [k]. *)
Definition holds_key (p : BlockPool) (i : nat) (k : bytes) : Prop :=
  _block_hash (blk p i) = Some k ∨
  ∃ X, cached_block_hashes_by_block p !! i = Some X ∧ k ∈ X.

Record cache_wf (p : BlockPool) : Prop := {
  wf_map : map_wf (cached_block_hash_to_block p);
  (* the map finds a block under exactly the keys the block owns *)
  wf_cached k i : contain (cached_block_hash_to_block p) k i = true ↔ holds_key p i k;
  (* a block without a primary hash has no hash metadata at all *)
  wf_unhashed i : _block_hash (blk p i) = None →
    _block_hash_num_tokens (blk p i) = None ∧ cached_block_hashes_by_block p !! i = None;
  (* the further keys differ from the primary hash *)
  wf_extra i X k : cached_block_hashes_by_block p !! i = Some X → k ∈ X →
    _block_hash (blk p i) ≠ Some k;
  (* only proper blocks of the pool are cached *)
  wf_hashed i : _block_hash (blk p i) ≠ None → 0 < Z.of_nat i < num_gpu_blocks p
}.

Record same_config (p p' : BlockPool) : Prop := {
  cfg_num : num_gpu_blocks p' = num_gpu_blocks p;
  cfg_caching : enable_caching p' = enable_caching p;
  cfg_hbs : hash_block_size p' = hash_block_size p;
  cfg_id : pool_id p' = pool_id p;
  cfg_events : enable_kv_cache_events p' = enable_kv_cache_events p
}.

(** [p'] has the allocation state of [p]. *)
Record alloc_same (p p' : BlockPool) : Prop := {
  as_config : same_config p p';
  as_next x : nxt (free_block_queue p') x = nxt (free_block_queue p) x;
  as_prev x : prv (free_block_queue p') x = prv (free_block_queue p) x;
  as_num : num_free_blocks (free_block_queue p') = num_free_blocks (free_block_queue p);
  as_ref i : ref_cnt (blk p' i) = ref_cnt (blk p i);
  as_null i : is_null (blk p' i) = is_null (blk p i)
}.

(** [p'] has the caching state of [p]. *)
Record cache_same (p p' : BlockPool) : Prop := {
  cs_config : same_config p p';
  cs_hash i : _block_hash (blk p' i) = _block_hash (blk p i);
  cs_tokens i : _block_hash_num_tokens (blk p' i) = _block_hash_num_tokens (blk p i);
  cs_map : cached_block_hash_to_block p' = cached_block_hash_to_block p;
  cs_extra : cached_block_hashes_by_block p' = cached_block_hashes_by_block p
}.

(** The hash of [b] is unchanged or gone. *)
Definition hash_kept (p p' : BlockPool) (b : nat) : Prop :=
  (_block_hash (blk p' b) = _block_hash (blk p b) ∧
   _block_hash_num_tokens (blk p' b) = _block_hash_num_tokens (blk p b)) ∨
  _block_hash (blk p' b) = None.

Lemma hash_kept_trans p1 p2 p3 b : hash_kept p1 p2 b → hash_kept p2 p3 b → hash_kept p1 p3 b.
Proof. unfold hash_kept. intros H1 [[-> ->]|?]; [done|by right]. Qed.

#[global] Instance same_config_refl : Reflexive same_config.
Proof. by intros p. Qed.
#[global] Instance same_config_trans : Transitive same_config.
Proof. intros p1 p2 p3 [] []. split; congruence. Qed.
#[global] Instance alloc_same_refl : Reflexive alloc_same.
Proof. by intros p. Qed.
#[global] Instance alloc_same_trans : Transitive alloc_same.
Proof. intros p1 p2 p3 [] []. split; try congruence. by etrans. Qed.
#[global] Instance cache_same_refl : Reflexive cache_same.
Proof. by intros p. Qed.
#[global] Instance cache_same_trans : Transitive cache_same.
Proof. intros p1 p2 p3 [] []. split; try congruence. by etrans. Qed.

Lemma queue_repr_ext q q' l :
  (∀ x, nxt q' x = nxt q x) → (∀ x, prv q' x = prv q x) →
  num_free_blocks q' = num_free_blocks q → queue_repr q l → queue_repr q' l.
Proof.
  intros Hn Hp Hnum []. split; rewrite ?Hn, ?Hp, ?Hnum; auto.
  - eapply linked_frame; [|done]. intros. by rewrite Hn, Hp.
  - intros i Hi. rewrite Hn, Hp. auto.
Qed.

Lemma alloc_wf_same p p' l : alloc_same p p' → alloc_wf p l → alloc_wf p' l.
Proof.
  intros [[Hn _ _ _ _] ? ? ? Hr Hnull] []. split.
  - by eapply queue_repr_ext.
  - by rewrite Hn.
  - intros i. by rewrite Hn, Hr.
  - intros i. by rewrite Hnull.
  - intros i. rewrite Hr. auto.
Qed.

Lemma holds_key_same p p' i k : cache_same p p' → holds_key p' i k ↔ holds_key p i k.
Proof. intros [_ Hh _ _ He]. unfold holds_key. by rewrite Hh, He. Qed.

Lemma cache_wf_same p p' : cache_same p p' → cache_wf p → cache_wf p'.
Proof.
  intros Hs []. pose proof Hs as [[Hn _ _ _ _] Hh Ht Hm He]. split.
  - by rewrite Hm.
  - intros k i. by rewrite Hm, (holds_key_same p p').
  - intros i. rewrite Hh, Ht, He. auto.
  - intros i X k. rewrite Hh, He. eauto.
  - intros i. rewrite Hh, Hn. auto.
Qed.

Lemma blk_upd p i f j : blk (upd_blk i f p) j = if decide (i = j) then f (blk p i) else blk p j.
Proof. unfold blk, upd_blk. simpl. rewrite obj_update. case_all. Qed.

(** An update of hash metadata is invisible to the allocation half, an update of
    [ref_cnt] to the caching half. *)
Lemma alloc_same_upd p i f :
  (∀ b, ref_cnt (f b) = ref_cnt b ∧ is_null (f b) = is_null b ∧
        next_free_block (f b) = next_free_block b ∧ prev_free_block (f b) = prev_free_block b) →
  alloc_same p (upd_blk i f p).
Proof.
  intros Hf. split; [done|..].
  3: done.
  3,4: intros j; rewrite blk_upd; case_decide; subst; [apply Hf|done].
  all: intros x; unfold nxt, prv, upd_blk; simpl; rewrite obj_update;
    case_decide; subst; [apply Hf|done].
Qed.

Lemma cache_same_upd p i f :
  (∀ b, _block_hash (f b) = _block_hash b ∧
        _block_hash_num_tokens (f b) = _block_hash_num_tokens b) →
  cache_same p (upd_blk i f p).
Proof.
  intros Hf. split; try done; intros j; rewrite blk_upd; case_decide; subst; (apply Hf || done).
Qed.

(** The caching half does not see what the free queue does. *)
Lemma cache_same_queue p q :
  same_attrs (free_block_queue p) q → cache_same p (p <| free_block_queue := q |>).
Proof.
  intros Hq. split; try done; intros i; specialize (Hq i); unfold blk, attrs in *; simpl;
    congruence.
Qed.

Lemma same_attrs_blk p q i :
  same_attrs (free_block_queue p) q →
  ref_cnt (blk (p <| free_block_queue := q |>) i) = ref_cnt (blk p i) ∧
  is_null (blk (p <| free_block_queue := q |>) i) = is_null (blk p i).
Proof. intros Hq. specialize (Hq i). unfold blk, attrs in *. simpl. split; congruence. Qed.

Lemma wp_on_queue {A} (m : Q A) Q' p :
  wp m (λ a q, Q' a (p <| free_block_queue := q |>)) (free_block_queue p) → wp (on_queue m) Q' p.
Proof. unfold wp, on_queue. by destruct (m (free_block_queue p)) as [[a q]|e]. Qed.

(** ** Specifications of the caching operations *)

Section pool_specs.
Context `{SetIter}.
Variable use_int : bool.

(** The keys of a block in the order the pool removes them: the primary hash first. *)
Definition keys_of (p : BlockPool) (i : nat) : list bytes :=
  match _block_hash (blk p i) with Some h => [h] | None => [] end ++
  match cached_block_hashes_by_block p !! i with Some X => iter_set X | None => [] end.

Lemma elem_of_keys p i k : k ∈ keys_of p i ↔ holds_key p i k.
Proof.
  unfold keys_of, holds_key. rewrite elem_of_app.
  destruct (_block_hash (blk p i)) as [h|], (cached_block_hashes_by_block p !! i) as [X|];
    rewrite ?elem_of_iter_set, ?list_elem_of_singleton, ?elem_of_nil; naive_solver.
Qed.

Lemma keys_NoDup p i : cache_wf p → NoDup (keys_of p i).
Proof.
  intros Hc. unfold keys_of. apply NoDup_app. split_and!.
  - destruct (_block_hash (blk p i)); [apply NoDup_singleton|apply NoDup_nil_2].
  - intros k Hk. destruct (_block_hash (blk p i)) as [h|] eqn:Hh; [|by apply elem_of_nil in Hk].
    apply list_elem_of_singleton in Hk as ->.
    destruct (cached_block_hashes_by_block p !! i) as [X|] eqn:HX; [|apply not_elem_of_nil].
    rewrite elem_of_iter_set. intros Hin. by destruct (wf_extra p Hc i X h).
  - destruct (cached_block_hashes_by_block p !! i); [apply NoDup_iter_set|apply NoDup_nil_2].
Qed.

(** [p'] is [p] without the hashes of block [i]. *)
Record hashes_removed (p : BlockPool) (i : nat) (p' : BlockPool) : Prop := {
  hr_alloc : alloc_same p p';
  hr_wf : cache_wf p';
  hr_keys j k : holds_key p' j k ↔ j ≠ i ∧ holds_key p j k;
  hr_hash j : _block_hash (blk p' j) = if decide (i = j) then None else _block_hash (blk p j);
  hr_tokens j : _block_hash_num_tokens (blk p' j) =
    if decide (i = j) then None else _block_hash_num_tokens (blk p j);
  hr_by_block j : cached_block_hashes_by_block p' !! j =
    if decide (i = j) then None else cached_block_hashes_by_block p !! j
}.

Definition no_hash (b : KVCacheBlock) : KVCacheBlock :=
  b <| _block_hash := None |> <| _block_hash_num_tokens := None |>.

(** The state in which all entries of block [i] are gone. *)
Definition without_hashes (p : BlockPool) (i : nat) (c : BlockHashToBlockMap) : BlockPool :=
  upd_blk i no_hash
    (p <| cached_block_hashes_by_block ::= delete i |> <| cached_block_hash_to_block := c |>).

Lemma hashes_removed_intro p i c :
  cache_wf p → map_wf c →
  (∀ k j, contain c k j =
     contain (cached_block_hash_to_block p) k j && negb (bool_decide (i = j))) →
  hashes_removed p i (without_hashes p i c).
Proof.
  intros Hp Hc Hcon.
  assert (∀ j, blk (without_hashes p i c) j =
    if decide (i = j) then no_hash (blk p i) else blk p j) as Hblk.
  { intros j. unfold without_hashes. by rewrite blk_upd. }
  assert (∀ j, cached_block_hashes_by_block (without_hashes p i c) !! j =
    if decide (i = j) then None else cached_block_hashes_by_block p !! j) as Hby.
  { intros j. simpl. rewrite lookup_delete. by case_decide. }
  assert (∀ j k, holds_key (without_hashes p i c) j k ↔ j ≠ i ∧ holds_key p j k) as Hkeys.
  { intros j k. unfold holds_key. rewrite Hblk, Hby. case_decide; naive_solver. }
  split; try done.
  - etrans; [|by apply alloc_same_upd]. done.
  - split.
    + done.
    + intros k j. rewrite Hkeys, <-(wf_cached p Hp). simpl.
      rewrite Hcon. destruct (contain _ k j); case_all.
    + intros j. rewrite Hblk, Hby. case_decide; [done|apply (wf_unhashed p Hp)].
    + intros j X k. rewrite Hblk, Hby. case_decide; [done|apply (wf_extra p Hp)].
    + intros j. rewrite Hblk. case_decide; [done|apply (wf_hashed p Hp)].
  - intros j. rewrite Hblk. by case_decide.
  - intros j. rewrite Hblk. by case_decide.
Qed.

Lemma remove_cached_block_hashes_spec p i :
  cache_wf p →
  wp (_remove_cached_block_hashes i) (λ ks p', ks = keys_of p i ∧ hashes_removed p i p' ∧
    kv_event_queue p' = kv_event_queue p) p.
Proof.
  intros Hp. unfold _remove_cached_block_hashes. wp_steps. fold (keys_of p i).
  set (p1 := p <| cached_block_hashes_by_block ::= delete i |>).
  destruct (keys_of p i) as [|k0 ks0] eqn:Hks.
  - wp_steps. split; [done|]. split; [|done].
    assert (_block_hash (blk p i) = None) as Hnone.
    { unfold keys_of in Hks. by destruct (_block_hash (blk p i)). }
    destruct (wf_unhashed p Hp i Hnone) as [Htok Hby].
    assert (p1 = p) as ->. { unfold p1. simpl. rewrite delete_id by done. by destruct p. }
    split; try done.
    + intros j k. split; [|naive_solver]. intros Hk. split; [|done]. intros ->.
      apply elem_of_keys in Hk. rewrite Hks in Hk. by apply elem_of_nil in Hk.
    + intros j. case_all.
    + intros j. case_all.
    + intros j. case_all.
  - rewrite <-Hks. wp_steps.
    eapply wp_mono.
    { apply (wp_for_acc (λ pre removed p', removed = pre ∧ ∃ c,
        p' = p1 <| cached_block_hash_to_block := c |> ∧ map_wf c ∧
        ∀ k j, contain c k j = contain (cached_block_hash_to_block p) k j &&
                               negb (bool_decide (i = j ∧ k ∈ pre)))).
      - split; [done|]. exists (cached_block_hash_to_block p). split_and!; [done|apply (wf_map p Hp)|].
        intros k j. rewrite bool_decide_eq_false_2; [by rewrite andb_true_r|].
        intros [_ Hin]. by apply elem_of_nil in Hin.
      - intros pre k post removed p' Heq (-> & c & -> & Hc & Hcon). wp_steps.
        destruct (map_pop_spec c k i Hc) as (Hpop & Hwf & Hcon'). simpl.
        assert (contain c k i = true) as Hki.
        { rewrite Hcon. apply andb_true_iff. split.
          - apply (wf_cached p Hp), elem_of_keys. rewrite Heq. set_solver.
          - rewrite bool_decide_eq_false_2; [done|]. intros [_ Hin].
            pose proof (keys_NoDup p i Hp) as Hnd. rewrite Heq in Hnd.
            apply NoDup_app in Hnd as (_ & Hnd & _). apply (Hnd k); [done|set_solver]. }
        rewrite Hpop, Hki. split; [done|]. eexists. split_and!; [done|done|].
        intros k' j. rewrite Hcon', Hcon. destruct (contain _ k' j); [|done]. simpl.
        rewrite <-negb_orb, <-bool_decide_or. f_equal. apply bool_decide_ext.
        rewrite elem_of_app, list_elem_of_singleton. naive_solver. }
    intros removed p' (-> & c & -> & Hc & Hcon). unfold reset_hash. wp_steps. split; [done|].
    split; [|done]. change (hashes_removed p i (without_hashes p i c)). apply hashes_removed_intro; [done..|].
    intros k j. rewrite Hcon. destruct (contain _ k j) eqn:Hkj; [|done]. simpl. f_equal.
    apply (wf_cached p Hp), elem_of_keys in Hkj. case_all.
Qed.

(** [p'] differs from [p] in its event queue and metrics only. *)
Definition log_only (p p' : BlockPool) : Prop := alloc_same p p' ∧ cache_same p p'.

Lemma hashes_removed_log p p1 p2 p3 i :
  log_only p p1 → hashes_removed p1 i p2 → log_only p2 p3 → hashes_removed p i p3.
Proof.
  intros [Ha Hc] [Hra Hrw Hrk Hrh Hrt Hrb] [Ha' Hc']. split.
  - by do 2 (etrans; [eassumption|]).
  - by eapply cache_wf_same.
  - intros j k. by rewrite (holds_key_same _ _ _ _ Hc'), Hrk, (holds_key_same _ _ _ _ Hc).
  - intros j. by rewrite (cs_hash _ _ Hc'), Hrh, (cs_hash _ _ Hc).
  - intros j. by rewrite (cs_tokens _ _ Hc'), Hrt, (cs_tokens _ _ Hc).
  - intros j. by rewrite (cs_extra _ _ Hc'), Hrb, (cs_extra _ _ Hc).
Qed.

Definition removed_event (k : bytes) : KVCacheEvent :=
  EvRemoved [maybe_convert_block_hash use_int (get_block_hash k)] (get_group_id k).

Lemma emit_removed_spec p ks :
  wp (_emit_block_removed_events use_int ks) (λ _ p', log_only p p' ∧
    kv_event_queue p' = kv_event_queue p ++
      (if enable_kv_cache_events p then removed_event <$> ks else [])) p.
Proof.
  unfold _emit_block_removed_events. wp_steps. destruct (enable_kv_cache_events p) eqn:He; simpl.
  - eapply wp_mono; [apply (wp_for (λ pre p', log_only p p' ∧
      kv_event_queue p' = kv_event_queue p ++ (removed_event <$> pre)))|].
    + split; [done|]. by rewrite app_nil_r.
    + intros pre k post p' _ [[Ha Hc] Hq]. unfold emit. wp_steps. split.
      * split; [by etrans; [exact Ha|]|by etrans; [exact Hc|]].
      * simpl. by rewrite Hq, fmap_app, app_assoc.
    + done.
  - apply wp_ret. split; [done|]. by rewrite app_nil_r.
Qed.

Lemma maybe_evict_spec p i :
  cache_wf p →
  wp (_maybe_evict_cached_block use_int i) (λ b p', hashes_removed p i p' ∧
    kv_event_queue p' = kv_event_queue p ++
      (if enable_kv_cache_events p then removed_event <$> keys_of p i else [])) p.
Proof.
  intros Hp. unfold _maybe_evict_cached_block, metrics. wp_steps.
  set (p1 := p <| metrics_collector ::= _ |>).
  assert (log_only p p1) as Hlog by done.
  eapply wp_mono; [apply (remove_cached_block_hashes_spec p1); by eapply cache_wf_same; [apply Hlog|]|].
  intros ks p' (-> & Hr & Hev). change (keys_of p1 i) with (keys_of p i).
  change (kv_event_queue p1) with (kv_event_queue p) in Hev.
  assert (enable_kv_cache_events p' = enable_kv_cache_events p) as Hen.
  { apply (cfg_events _ _ (as_config _ _ (hr_alloc _ _ _ Hr))). }
  destruct (keys_of p i) as [|k ks] eqn:Hks.
  - wp_steps. split; [by eapply hashes_removed_log; [| |split]|].
    rewrite Hev. by case_match; rewrite app_nil_r.
  - wp_steps. eapply wp_mono; [apply emit_removed_spec|].
    intros u p2 [Hlog2 Hev2]. wp_steps. split; [by eapply hashes_removed_log|].
    by rewrite Hev2, Hev, Hen.
Qed.

(** [p'] is [p] with key [k] registered for block [i]. *)
Record key_added (p : BlockPool) (k : bytes) (i : nat) (nt : option Z) (p' : BlockPool) : Prop := {
  ka_alloc : alloc_same p p';
  ka_wf : cache_wf p';
  ka_keys j k' : holds_key p' j k' ↔ holds_key p j k' ∨ (j = i ∧ k' = k);
  ka_hash j : _block_hash (blk p' j) =
    if decide (i = j) then Some (default k (_block_hash (blk p i))) else _block_hash (blk p j);
  ka_tokens j : _block_hash_num_tokens (blk p' j) =
    if decide (i = j ∧ _block_hash (blk p i) = None) then nt else _block_hash_num_tokens (blk p j);
  ka_events : kv_event_queue p' = kv_event_queue p
}.

(** [k] becomes the primary hash. *)
Definition add_primary (k : bytes) (i : nat) (nt : option Z) (p : BlockPool) : BlockPool :=
  (upd_blk i (λ b, b <| _block_hash := Some k |> <| _block_hash_num_tokens := nt |>) p)
    <| cached_block_hash_to_block ::= λ c, map_insert c k i |>.

(** [k] becomes a further key. *)
Definition add_extra (k : bytes) (i : nat) (p : BlockPool) : BlockPool :=
  p <| cached_block_hashes_by_block ::= λ m, <[i := default ∅ (m !! i) ∪ {[k]}]> m |>
    <| cached_block_hash_to_block ::= λ c, map_insert c k i |>.

Lemma add_primary_spec p k i nt :
  cache_wf p → 0 < Z.of_nat i < num_gpu_blocks p → _block_hash (blk p i) = None →
  key_added p k i nt (add_primary k i nt p).
Proof.
  intros Hp Hi Hnone. destruct (wf_unhashed p Hp i Hnone) as [Htok Hby].
  assert (∀ j, blk (add_primary k i nt p) j = if decide (i = j) then
    (blk p i) <| _block_hash := Some k |> <| _block_hash_num_tokens := nt |> else blk p j) as Hblk.
  { intros j. change (blk (add_primary k i nt p) j) with
      (blk (upd_blk i (λ b, b <| _block_hash := Some k |> <| _block_hash_num_tokens := nt |>) p) j).
    by rewrite blk_upd. }
  assert (∀ j k', holds_key (add_primary k i nt p) j k' ↔
    holds_key p j k' ∨ (j = i ∧ k' = k)) as Hkeys.
  { intros j k'. unfold holds_key. rewrite Hblk. simpl.
    case_decide; [subst; rewrite Hnone; simpl|]; naive_solver. }
  split; try done.
  - etrans; [by apply (alloc_same_upd p i (λ b, b <| _block_hash := Some k |>
      <| _block_hash_num_tokens := nt |>))|done].
  - split.
    + apply map_insert_wf, (wf_map p Hp).
    + intros k' j. rewrite Hkeys, <-(wf_cached p Hp). simpl. rewrite contain_insert.
      rewrite orb_true_iff, bool_decide_eq_true. naive_solver.
    + intros j. rewrite Hblk. case_decide; [done|apply (wf_unhashed p Hp)].
    + intros j X k'. rewrite Hblk. simpl. case_decide; [subst; by rewrite Hby|apply (wf_extra p Hp)].
    + intros j. rewrite Hblk. case_decide; [by subst|apply (wf_hashed p Hp)].
  - intros j. rewrite Hblk, Hnone. by case_decide.
  - intros j. rewrite Hblk. case_all.
Qed.

Lemma add_extra_spec p k i h nt :
  cache_wf p → _block_hash (blk p i) = Some h → ¬ holds_key p i k →
  key_added p k i nt (add_extra k i p).
Proof.
  intros Hp Hh Hnk.
  assert (∀ j k', holds_key (add_extra k i p) j k' ↔
    holds_key p j k' ∨ (j = i ∧ k' = k)) as Hkeys.
  { intros j k'. unfold holds_key. change (blk (add_extra k i p) j) with (blk p j). simpl.
    destruct (decide (i = j)) as [<-|]; [rewrite lookup_insert_eq|rewrite lookup_insert_ne by done].
    - split.
      + intros [Hk|(Y & [= <-] & [Hin|Hin]%elem_of_union)]; [by left; left| |].
        * destruct (cached_block_hashes_by_block p !! i); simpl in Hin; [|set_solver].
          left. right. eauto.
        * apply elem_of_singleton in Hin. by right.
      + intros [[Hk|(Y & HY & Hin)]|[_ ->]]; [by left|..]; right; eexists;
          (split; [done|]); rewrite ?HY; set_solver.
    - naive_solver. }
  split; try done.
  - split.
    + apply map_insert_wf, (wf_map p Hp).
    + intros k' j. rewrite Hkeys, <-(wf_cached p Hp). simpl. rewrite contain_insert.
      rewrite orb_true_iff, bool_decide_eq_true. naive_solver.
    + intros j. change (blk (add_extra k i p) j) with (blk p j). intros Hj. simpl.
      rewrite lookup_insert_ne; [by apply (wf_unhashed p Hp)|]. by intros ->; rewrite Hh in Hj.
    + intros j X k'. change (blk (add_extra k i p) j) with (blk p j). simpl.
      destruct (decide (i = j)) as [<-|]; [rewrite lookup_insert_eq|
        rewrite lookup_insert_ne by done; apply (wf_extra p Hp)].
      intros [= <-] [Hin|Hin]%elem_of_union.
      * destruct (cached_block_hashes_by_block p !! i) as [X|] eqn:HX; [|by simpl in Hin].
        by apply (wf_extra p Hp i X).
      * apply elem_of_singleton in Hin as ->. intros Heq. apply Hnk. by left.
    + apply (wf_hashed p Hp).
  - intros j. change (blk (add_extra k i p) j) with (blk p j). case_decide; subst; by rewrite ?Hh.
  - intros j. change (blk (add_extra k i p) j) with (blk p j).
    rewrite decide_False; [done|]. intros [_ Hn]. by rewrite Hh in Hn.
Qed.

Lemma key_added_noop p k i h nt :
  cache_wf p → holds_key p i k → _block_hash (blk p i) = Some h → key_added p k i nt p.
Proof.
  intros Hp Hk Hh. split; try done.
  - intros j k'. naive_solver.
  - intros j. case_decide; subst; by rewrite ?Hh.
  - intros j. rewrite decide_False; [done|]. intros [_ Hn]. by rewrite Hh in Hn.
Qed.

Lemma insert_block_hash_spec p k i nt :
  cache_wf p → 0 < Z.of_nat i < num_gpu_blocks p →
  wp (_insert_block_hash k i nt) (λ _ p', key_added p k i nt p') p.
Proof.
  intros Hp Hi. unfold _insert_block_hash. wp_steps. case_decide as Hh.
  { wp_steps. eapply key_added_noop; [done|by left|done]. }
  wp_steps. destruct (contain (cached_block_hash_to_block p) k i) eqn:Hc.
  { wp_steps. apply (wf_cached p Hp) in Hc as Hk.
    destruct (_block_hash (blk p i)) as [h|] eqn:Hhash; [by eapply key_added_noop|].
    destruct Hk as [Hk|(X & HX & Hk)]; [congruence|].
    destruct (wf_unhashed p Hp i Hhash). congruence. }
  assert (¬ holds_key p i k) as Hnk. { rewrite <-(wf_cached p Hp), Hc. done. }
  destruct (_block_hash (blk p i)) as [h|] eqn:Hhash.
  - wp_steps. by eapply (add_extra_spec p k i).
  - unfold set_block_hash. wp_steps.
    + apply bool_decide_eq_true_2. split; [done|]. by apply (wf_unhashed p Hp).
    + wp_steps. by apply (add_primary_spec p k i nt).
Qed.

Lemma move_block_hashes_spec p src dst :
  cache_wf p → 0 < Z.of_nat dst < num_gpu_blocks p → _block_hash (blk p dst) = None →
  wp (move_block_hashes src dst) (λ _ p', alloc_same p p' ∧ cache_wf p' ∧
    kv_event_queue p' = kv_event_queue p ∧
    ∀ j k, holds_key p' j k ↔ (j ≠ src ∧ holds_key p j k) ∨ (j = dst ∧ holds_key p src k)) p.
Proof.
  intros Hp Hdst Hnone. unfold move_block_hashes. wp_steps.
  { by apply bool_decide_eq_true_2. }
  wp_steps. { apply bool_decide_eq_true_2. by apply (wf_unhashed p Hp). }
  wp_steps. eapply wp_mono; [by apply remove_cached_block_hashes_spec|].
  intros ks p1 (-> & [Ha1 Hw1 Hk1 _ _ _] & He1).
  eapply wp_mono.
  { apply (wp_for (λ pre p', alloc_same p p' ∧ cache_wf p' ∧
      kv_event_queue p' = kv_event_queue p ∧
      ∀ j k, holds_key p' j k ↔ (j ≠ src ∧ holds_key p j k) ∨ (j = dst ∧ k ∈ pre))).
    - split_and!; [done..|]. intros j k. rewrite Hk1, elem_of_nil. tauto.
    - intros pre k post p' _ (Ha & Hw & He & Hk). eapply wp_mono.
      + apply insert_block_hash_spec; [done|]. by rewrite (cfg_num _ _ (as_config _ _ Ha)).
      + intros u p2 [Ha2 Hw2 Hk2 _ _ He2]. split_and!; [by etrans|done|by rewrite He2|].
        intros j k'. rewrite Hk2, Hk, elem_of_app, list_elem_of_singleton. tauto. }
  intros u p' (Ha & Hw & He & Hk). split_and!; [done..|].
  intros j k. rewrite Hk. by setoid_rewrite elem_of_keys.
Qed.

(** ** Specifications of allocation *)

Lemma queue_repr_same p p' l :
  alloc_same p p' → queue_repr (free_block_queue p) l → queue_repr (free_block_queue p') l.
Proof. intros []. by apply queue_repr_ext. Qed.

(** Changing a reference count. *)
Lemma upd_ref_spec p i (f : Z → Z) l :
  let p' := upd_blk i (λ b, b <| ref_cnt ::= f |>) p in
  cache_same p p' ∧
  (queue_repr (free_block_queue p) l → queue_repr (free_block_queue p') l) ∧
  (∀ j, is_null (blk p' j) = is_null (blk p j)) ∧
  (∀ j, ref_cnt (blk p' j) = if decide (i = j) then f (ref_cnt (blk p i)) else ref_cnt (blk p j)).
Proof.
  cbv zeta. split_and!.
  - by apply cache_same_upd.
  - apply queue_repr_ext; [..|done]; intros x; unfold nxt, prv, upd_blk; simpl;
      rewrite obj_update; by case_decide; subst.
  - intros j. rewrite blk_upd. case_all.
  - intros j. rewrite blk_upd. by case_decide.
Qed.

Lemma omap_block_refs (l : list nat) : omap ptr_block (Block <$> l) = l.
Proof. induction l as [|i l IH]; csimpl; [done|]. by rewrite IH. Qed.

(** The loop state of [get_new_blocks] after the blocks [pre] are handled. *)
Record allocating (p : BlockPool) (l pre : list nat) (p' : BlockPool) : Prop := {
  al_config : same_config p p';
  al_wf : cache_wf p';
  al_queue : queue_repr (free_block_queue p') l;
  al_null i : is_null (blk p' i) = is_null (blk p i);
  al_ref i : ref_cnt (blk p' i) = ref_cnt (blk p i) + (if decide (i ∈ pre) then 1 else 0);
  al_hash i : _block_hash (blk p' i) =
    if decide (i ∈ pre ∧ enable_caching p = true) then None else _block_hash (blk p i);
  al_extra i : cached_block_hashes_by_block p' !! i =
    if decide (i ∈ pre ∧ enable_caching p = true) then None
    else cached_block_hashes_by_block p !! i;
  al_tokens i : i ∉ pre → _block_hash_num_tokens (blk p' i) = _block_hash_num_tokens (blk p i);
  al_events : kv_event_queue p' = kv_event_queue p ++
    (if enable_caching p && enable_kv_cache_events p
     then (i ← pre; removed_event <$> keys_of p i) else [])
}.

Lemma allocating_keys p l pre p' j k :
  allocating p l pre p' →
  holds_key p' j k ↔ holds_key p j k ∧ ¬ (j ∈ pre ∧ enable_caching p = true).
Proof.
  intros [? ? ? ? ? Hh He _ _]. unfold holds_key. rewrite Hh, He.
  destruct (decide (j ∈ pre ∧ enable_caching p = true)); [|tauto].
  split; [by intros [?|(?&?&?)]|tauto].
Qed.

Lemma allocating_log p l pre p1 p2 :
  allocating p l pre p1 → log_only p1 p2 → kv_event_queue p2 = kv_event_queue p1 →
  allocating p l pre p2.
Proof.
  intros [] [Ha Hc] He. split.
  - etrans; [eassumption|]. apply (as_config _ _ Ha).
  - by eapply cache_wf_same.
  - by eapply queue_repr_same.
  - intros i. by rewrite (as_null _ _ Ha).
  - intros i. by rewrite (as_ref _ _ Ha).
  - intros i. by rewrite (cs_hash _ _ Hc).
  - intros i. by rewrite (cs_extra _ _ Hc).
  - intros i Hi. rewrite (cs_tokens _ _ Hc). auto.
  - by rewrite He.
Qed.

(** The second half of an iteration, from the state [p2] after the eviction. *)
Lemma allocate_finish p l pre i p' p2 :
  allocating p l pre p' → i ∉ pre → ref_cnt (blk p i) = 0 →
  alloc_same p' p2 → cache_wf p2 →
  (∀ j, _block_hash (blk p2 j) = if decide (i = j ∧ enable_caching p = true)
          then None else _block_hash (blk p' j)) →
  (∀ j, cached_block_hashes_by_block p2 !! j = if decide (i = j ∧ enable_caching p = true)
          then None else cached_block_hashes_by_block p' !! j) →
  (∀ j, i ≠ j → _block_hash_num_tokens (blk p2 j) = _block_hash_num_tokens (blk p' j)) →
  kv_event_queue p2 = kv_event_queue p' ++
    (if enable_caching p && enable_kv_cache_events p then removed_event <$> keys_of p i else []) →
  wp (rc ← gets (λ p, ref_cnt (blk p i));
      _ ← assert_ (bool_decide (rc = 0));
      _ ← modify (upd_blk i (λ b, b <| ref_cnt ::= Z.add 1 |>));
      metrics (OnBlockAllocated i)) (λ _, allocating p l (pre ++ [i])) p2.
Proof.
  intros [Hcfg Hw Hq Hnull Href Hhash Hex Htk Hev] Hi Hrc Ha Hw2 Hh2 He2 Ht2 Hev2. unfold metrics.
  assert (ref_cnt (blk p2 i) = 0) as Hrc2.
  { by rewrite (as_ref _ _ Ha), Href, decide_False, Hrc by done. }
  wp_steps; [by apply bool_decide_eq_true_2|]. wp_steps.
  destruct (upd_ref_spec p2 i (Z.add 1) l) as (Hc3 & Hq3 & Hn3 & Hr3).
  set (p3 := upd_blk i _ p2) in *. apply (allocating_log _ _ _ p3); [|done|done].
  assert (∀ j, j ∈ pre ++ [i] ↔ j ∈ pre ∨ i = j) as Hin by set_solver. split.
  - etrans; [exact Hcfg|]. etrans; [apply (as_config _ _ Ha)|]. apply (cs_config _ _ Hc3).
  - by eapply (cache_wf_same p2).
  - apply Hq3. by eapply queue_repr_same.
  - intros j. by rewrite Hn3, (as_null _ _ Ha).
  - intros j. rewrite Hr3, !(as_ref _ _ Ha), !Href.
    repeat case_decide; subst; try lia; exfalso; set_solver.
  - intros j. rewrite (cs_hash _ _ Hc3), Hh2, Hhash.
    repeat case_decide; try done; exfalso; naive_solver.
  - intros j. rewrite (cs_extra _ _ Hc3), He2, Hex.
    repeat case_decide; try done; exfalso; naive_solver.
  - intros j Hj. rewrite (cs_tokens _ _ Hc3), Ht2, Htk; [done|set_solver..].
  - change (kv_event_queue p3) with (kv_event_queue p2). rewrite Hev2, Hev.
    destruct (enable_caching p && enable_kv_cache_events p); rewrite ?app_nil_r; [|done].
    rewrite bind_app. simpl. by rewrite app_nil_r, app_assoc.
Qed.

Lemma allocate_one p l pre i p' :
  allocating p l pre p' → i ∉ pre → ref_cnt (blk p i) = 0 →
  wp (_ ← (if enable_caching p then _ ← _maybe_evict_cached_block use_int i; mret tt else mret tt);
      rc ← gets (λ p, ref_cnt (blk p i));
      _ ← assert_ (bool_decide (rc = 0));
      _ ← modify (upd_blk i (λ b, b <| ref_cnt ::= Z.add 1 |>));
      metrics (OnBlockAllocated i))
    (λ _, allocating p l (pre ++ [i])) p'.
Proof.
  intros Hal Hi Hrc. pose proof Hal as [Hcfg Hw Hq Hnull Href Hhash Hex _ Hev].
  apply wp_bind. destruct (enable_caching p) eqn:Hcach.
  - apply wp_bind. eapply wp_mono; [by apply maybe_evict_spec|].
    intros b p2 [[Ha Hw2 Hk2 Hh2 Ht2 Hb2] Hev2]. apply wp_ret.
    eapply allocate_finish; [done..| | | |]; rewrite ?Hcach.
    + intros j. rewrite Hh2. repeat case_decide; naive_solver.
    + intros j. rewrite Hb2. repeat case_decide; naive_solver.
    + intros j Hj. by rewrite Ht2, decide_False.
    + rewrite Hev2, (cfg_events _ _ Hcfg). simpl. unfold keys_of. rewrite Hhash, Hex.
      destruct (decide (i ∈ pre ∧ true = true)); [tauto|done].
  - apply wp_ret. eapply allocate_finish; [done..| | | |]; rewrite ?Hcach; [| |done|by rewrite app_nil_r].
    all: intros j; destruct (decide (i = j ∧ false = true)); naive_solver.
Qed.

(** [get_new_blocks] hands out the first [n] blocks of the free list. *)
Record allocated (p : BlockPool) (bs l : list nat) (p' : BlockPool) : Prop := {
  ad_config : same_config p p';
  ad_alloc : alloc_wf p' l;
  ad_cache : cache_wf p';
  ad_ref i : ref_cnt (blk p' i) = if decide (i ∈ bs) then 1 else ref_cnt (blk p i);
  ad_fresh i : i ∈ bs → enable_caching p = true → _block_hash (blk p' i) = None;
  ad_keys j k : holds_key p' j k ↔ holds_key p j k ∧ ¬ (j ∈ bs ∧ enable_caching p = true);
  ad_hash j : j ∉ bs → _block_hash (blk p' j) = _block_hash (blk p j);
  ad_tokens j : j ∉ bs → _block_hash_num_tokens (blk p' j) = _block_hash_num_tokens (blk p j);
  ad_events : kv_event_queue p' = kv_event_queue p ++
    (if enable_caching p && enable_kv_cache_events p
     then (i ← bs; removed_event <$> keys_of p i) else [])
}.

Lemma get_new_blocks_spec p l n :
  alloc_wf p l → cache_wf p → 0 ≤ n ≤ len l →
  wp (get_new_blocks use_int n) (λ bs p',
    bs = take (Z.to_nat n) l ∧ allocated p bs (drop (Z.to_nat n) l) p') p.
Proof.
  intros Ha Hc Hn. pose proof Ha as [Hq Hnum Hfree Hnull Href].
  unfold get_new_blocks. wp_steps. unfold get_num_free_blocks.
  rewrite (repr_num _ _ Hq). case_decide; [lia|]. wp_steps.
  apply wp_on_queue. eapply wp_mono; [by apply popleft_n_spec|].
  intros ps q (-> & Hq' & Hattr). rewrite omap_block_refs. wp_steps.
  set (bs := take (Z.to_nat n) l) in *. set (p1 := p <| free_block_queue := q |>).
  pose proof (repr_NoDup _ _ Hq) as Hnd. rewrite <-(take_drop (Z.to_nat n) l) in Hnd.
  fold bs in Hnd. apply NoDup_app in Hnd as (Hndb & Hdisj & _).
  assert (∀ i, i ∈ l ↔ i ∈ bs ∨ i ∈ drop (Z.to_nat n) l) as Hsplit.
  { intros i. rewrite <-elem_of_app. unfold bs. by rewrite take_drop. }
  eapply wp_mono.
  { apply (wp_for (allocating p (drop (Z.to_nat n) l))).
    - pose proof (cache_same_queue p q Hattr) as Hcs. split; try done.
      + by eapply cache_wf_same.
      + intros i. by apply same_attrs_blk.
      + intros i. rewrite decide_False by apply not_elem_of_nil. rewrite Z.add_0_r.
        by apply same_attrs_blk.
      + intros i. rewrite (cs_hash _ _ Hcs). destruct (decide _) as [[[]%elem_of_nil _]|]; done.
      + intros i _. apply (cs_tokens _ _ Hcs).
      + simpl. by case_match; rewrite app_nil_r.
    - intros pre i post p' Heq Hal. change (enable_caching p1) with (enable_caching p).
      apply allocate_one; [done| |].
      + intros Hin. rewrite Heq in Hndb. apply NoDup_app in Hndb as (_ & Hd & _).
        apply (Hd i); [done|set_solver].
      + apply Hfree, Hsplit. left. rewrite Heq. set_solver. }
  intros u p' Hal. wp_steps. split; [done|]. pose proof Hal as [Hcfg Hw Hq2 Hn2 Hr2 Hh2 He2 Ht2 Hev2].
  assert (∀ i, i ∈ bs → ref_cnt (blk p i) = 0) as Hzero.
  { intros i Hi. apply Hfree, Hsplit. by left. }
  assert (∀ i, ref_cnt (blk p' i) = if decide (i ∈ bs) then 1 else ref_cnt (blk p i)) as Hr3.
  { intros i. rewrite Hr2. destruct (decide (i ∈ bs)) as [Hi|]; [rewrite (Hzero i Hi)|]; lia. }
  split; try done.
  - split; [done|by rewrite (cfg_num _ _ Hcfg)|..].
    + intros i. rewrite Hr3, (cfg_num _ _ Hcfg). specialize (Hfree i). rewrite Hsplit in Hfree.
      specialize (Hdisj i).
      destruct (decide (i ∈ bs)); [|tauto]. split; [tauto|]. intros [_ ?]; lia.
    + intros i. by rewrite Hn2.
    + intros i Hi. rewrite Hr3. destruct (decide (i ∈ bs)); [lia|]. by apply Href.
  - intros i Hi Hen. rewrite Hh2. by rewrite decide_True.
  - intros j k. by eapply allocating_keys.
  - intros j Hj. rewrite Hh2. destruct (decide _); tauto.
Qed.

Lemma get_new_blocks_too_many p l n :
  alloc_wf p l → len l < n → get_new_blocks use_int n p = Raise ValueError.
Proof.
  intros Ha Hn. unfold get_new_blocks, mbind, M_bind, gets, get_num_free_blocks.
  rewrite (repr_num _ _ (wf_queue _ _ Ha)). by rewrite decide_True by lia.
Qed.

(** ** Touching and freeing *)

Lemma filter_not_in_snoc (pre : list nat) x (l : list nat) :
  filter (λ i, i ∉ pre ++ [x]) l = filter (λ i, i ≠ x) (filter (λ i, i ∉ pre) l).
Proof. rewrite list_filter_filter. apply list_filter_iff. set_solver. Qed.

(** The state of [touch] after the blocks [pre]. *)
Record touched (p : BlockPool) (l pre : list nat) (p' : BlockPool) : Prop := {
  to_alloc : alloc_wf p' (filter (λ i, i ∉ pre) l);
  to_cache : cache_same p p';
  to_ref i : ref_cnt (blk p' i) = ref_cnt (blk p i) + occ i pre;
  to_events : kv_event_queue p' = kv_event_queue p
}.

(** The second half of an iteration, with block [x] out of the queue [q]. *)
Lemma touch_finish p l pre x p' q :
  touched p l pre p' → same_attrs (free_block_queue p') q →
  queue_repr q (filter (λ i, i ≠ x) (filter (λ i, i ∉ pre) l)) →
  wp (_ ← modify (upd_blk x (λ b, b <| ref_cnt ::= Z.add 1 |>)); metrics (OnBlockAccessed x))
    (λ _, touched p l (pre ++ [x])) (p' <| free_block_queue := q |>).
Proof.
  intros [Ha' Hc' Hr He] Hattr Hq2. pose proof Ha' as [Hq Hnum Hfree Hnull Href].
  set (l' := filter (λ i, i ∉ pre) l) in *. unfold metrics. wp_steps.
  set (p1 := p' <| free_block_queue := q |>).
  destruct (upd_ref_spec p1 x (Z.add 1) (filter (λ i, i ≠ x) l')) as (Hc3 & Hq3 & Hn3 & Hr3).
  set (p3 := upd_blk x _ p1) in *.
  assert (∀ i, ref_cnt (blk p3 i) = ref_cnt (blk p' i) + (if decide (x = i) then 1 else 0)) as Hr4.
  { intros i. rewrite Hr3. destruct (same_attrs_blk p' q i Hattr) as [Hri _].
    fold p1 in Hri. case_decide; subst; rewrite Hri; lia. }
  split; [|..|done].
  - rewrite filter_not_in_snoc. fold l'. apply (alloc_wf_same p3); [done|]. split.
    + by apply Hq3.
    + done.
    + intros i. rewrite list_elem_of_filter, Hfree, Hr4.
      change (num_gpu_blocks p3) with (num_gpu_blocks p').
      case_decide; [subst|naive_solver lia]. split; [naive_solver|]. intros [Hi Hr0].
      assert (0 ≤ ref_cnt (blk p' i)) by (apply Href; unfold null_block; lia). lia.
    + intros i. rewrite Hn3. destruct (same_attrs_blk p' q i Hattr) as [_ Hni]. fold p1 in Hni.
      by rewrite Hni.
    + intros i Hi. rewrite Hr4. specialize (Href i Hi). case_decide; lia.
  - apply (transitivity (y := p3)); [|done]. etrans; [exact Hc'|].
    etrans; [by apply cache_same_queue|]. exact Hc3.
  - intros i. change (ref_cnt (blk p3 i) = ref_cnt (blk p i) + occ i (pre ++ [x])).
    rewrite Hr4, Hr, occ_app, occ_cons, occ_nil. lia.
Qed.

(** [touch] references each block once per occurrence; free ones leave the free list. *)
Lemma touch_spec p l bs :
  alloc_wf p l → (∀ i, i ∈ bs → Z.of_nat i < num_gpu_blocks p) →
  wp (touch bs) (λ _, touched p l bs) p.
Proof.
  intros Ha Hbs. unfold touch. apply (wp_for (touched p l)).
  { split; [|done| |done].
    - rewrite filter_all; [done|]. intros. apply not_elem_of_nil.
    - intros i. rewrite occ_nil. lia. }
  intros pre x post p' Heq Ht. pose proof Ht as [Ha' Hc' Hr He].
  assert (Z.of_nat x < num_gpu_blocks p') as Hx.
  { rewrite (cfg_num _ _ (cs_config _ _ Hc')). apply Hbs. rewrite Heq. set_solver. }
  pose proof Ha' as [Hq Hnum Hfree Hnull Href]. set (l' := filter (λ i, i ∉ pre) l) in *.
  wp_step. wp_step. wp_step. case_decide as Hd.
  - assert (x ∈ l') as Hxl.
    { apply Hfree. split; [|apply Hd]. assert (x ≠ null_block); [|unfold null_block in *; lia].
      intros Hx0. apply Hnull in Hx0. destruct Hd. congruence. }
    apply list_elem_of_split in Hxl as (l1 & l2 & Hl).
    rewrite Hl in Hq. apply wp_on_queue. eapply wp_mono; [by apply remove_spec|].
    intros u q [Hq2 Hattr]. apply touch_finish; [done|done|]. fold l'. rewrite Hl, filter_ne_mid;
      [done|]. by eapply repr_NoDup.
  - apply wp_ret. replace p' with (p' <| free_block_queue := free_block_queue p' |>) at 1
      by by destruct p'.
    apply touch_finish; [done|done|]. fold l'. rewrite filter_all; [done|]. intros i Hi ->.
    apply Hfree in Hi as [Hi Hi0]. apply Hd. split; [done|].
    apply not_true_is_false. rewrite Hnull. unfold null_block. lia.
Qed.

(** The blocks whose reference count reaches zero while [bs] are released, in that order,
    from the counts [rc]. *)
Fixpoint freed (rc : nat → Z) (bs : list nat) : list nat :=
  match bs with
  | [] => []
  | i :: bs =>
      let rc' := λ j, rc j - (if decide (i = j) then 1 else 0) in
      (if decide (rc' i = 0 ∧ i ≠ null_block) then [i] else []) ++ freed rc' bs
  end.

Lemma freed_ext rc rc' bs : (∀ i, rc i = rc' i) → freed rc bs = freed rc' bs.
Proof.
  revert rc rc'. induction bs as [|i bs IH]; intros rc rc' Heq; [done|]. cbn [freed]. cbv zeta.
  rewrite (IH _ (λ j, rc' j - (if decide (i = j) then 1 else 0))).
  - f_equal. by rewrite Heq.
  - intros j. by rewrite Heq.
Qed.

Lemma freed_snoc rc bs i :
  freed rc (bs ++ [i]) = freed rc bs ++
    (if decide (rc i - occ i bs - 1 = 0 ∧ i ≠ null_block) then [i] else []).
Proof.
  revert rc. induction bs as [|j bs IH]; intros rc; cbn [freed app]; cbv zeta.
  - rewrite occ_nil, (decide_True (P := i = i)) by done.
    destruct (decide (rc i - 0 - 1 = 0 ∧ _)), (decide (rc i - 1 = 0 ∧ _)); naive_solver lia.
  - rewrite IH, app_assoc, occ_cons. f_equal.
    replace (rc i - (if decide (j = i) then 1 else 0) - occ i bs - 1)
      with (rc i - (occ i bs + (if decide (j = i) then 1 else 0)) - 1) by lia. done.
Qed.

(** When no block is released more often than it is referenced, exactly the blocks
    released as often as referenced are freed, each once. *)
Lemma freed_spec rc bs :
  (∀ i, i ≠ null_block → occ i bs ≤ rc i) →
  NoDup (freed rc bs) ∧
  ∀ i, i ∈ freed rc bs ↔ i ≠ null_block ∧ i ∈ bs ∧ occ i bs = rc i.
Proof.
  revert rc. induction bs as [|j bs IH]; intros rc Hle; cbn [freed]; cbv zeta.
  { split; [constructor|]. intros i. rewrite !elem_of_nil. tauto. }
  destruct (IH (λ k, rc k - (if decide (j = k) then 1 else 0))) as [Hnd Hin].
  { intros i Hi. specialize (Hle i Hi). rewrite occ_cons in Hle. lia. }
  set (fs := freed _ bs) in *. rewrite (decide_True (P := j = j)) by done.
  pose proof (Hle j) as Hj. rewrite occ_cons, decide_True in Hj by done.
  pose proof (occ_nonneg j bs). pose proof (occ_pos j bs) as Hjpos.
  destruct (decide (rc j - 1 = 0 ∧ j ≠ null_block)) as [[Hz Hjn]|Hno]; cbn [app].
  - assert (j ∉ bs) as Hjbs by (rewrite Hjpos; specialize (Hj Hjn); lia).
    assert (j ∉ fs) by (rewrite Hin; tauto). split; [by constructor|].
    intros i. rewrite elem_of_cons, Hin, occ_cons, elem_of_cons.
    destruct (decide (j = i)) as [<-|]; [|naive_solver lia].
    split; [|tauto]. intros _. split_and!; [done|by left|]. specialize (Hj Hjn). lia.
  - split; [done|]. intros i. rewrite Hin, occ_cons, elem_of_cons.
    destruct (decide (j = i)) as [<-|]; [|naive_solver lia].
    assert (j ≠ null_block → occ j bs + 1 = rc j → j ∈ bs).
    { intros Hjn Heq. apply Hjpos. destruct (decide (rc j - 1 = 0)); [tauto|lia]. }
    naive_solver lia.
Qed.

Lemma freed_NoDup rc bs :
  NoDup bs → freed rc bs = filter (λ i, rc i = 1 ∧ i ≠ null_block) bs.
Proof.
  revert rc. induction bs as [|j bs IH]; intros rc Hnd; [done|].
  apply NoDup_cons in Hnd as [Hj Hnd]. cbn [freed]. cbv zeta. rewrite IH by done.
  rewrite (decide_True (P := j = j)) by done. rewrite filter_cons.
  assert (filter (λ i, rc i - (if decide (j = i) then 1 else 0) = 1 ∧ i ≠ null_block) bs =
    filter (λ i, rc i = 1 ∧ i ≠ null_block) bs) as ->.
  { clear IH Hnd. induction bs as [|i bs IH]; [done|].
    apply not_elem_of_cons in Hj as [Hji Hj]. rewrite !filter_cons, IH by done.
    rewrite (decide_False (P := j = i)) by done. rewrite Z.sub_0_r. done. }
  destruct (decide (rc j - 1 = 0 ∧ _)), (decide (rc j = 1 ∧ _)); naive_solver lia.
Qed.

(** A block that is reused before the others when it is freed. *)
Definition evict_first (p : BlockPool) (i : nat) : Prop :=
  _block_hash (blk p i) = None ∨ enable_caching p = false.
#[global] Instance evict_first_dec p i : Decision (evict_first p i).
Proof. unfold evict_first. apply _. Defined.

(** The free list after [bs] are released: blocks without a hash in front, cached blocks
    at the end. *)
Definition free_list_after (p : BlockPool) (l bs : list nat) : list nat :=
  let fs := freed (λ i, ref_cnt (blk p i)) bs in
  filter (evict_first p) fs ++ l ++ filter (λ i, ¬ evict_first p i) fs.

Record released (p : BlockPool) (l bs : list nat) (p' : BlockPool) : Prop := {
  re_alloc : alloc_wf p' (free_list_after p l bs);
  re_cache : cache_same p p';
  re_ref i : ref_cnt (blk p' i) = ref_cnt (blk p i) - occ i bs;
  re_events : kv_event_queue p' = kv_event_queue p
}.

Lemma free_loop_spec p l bs :
  alloc_wf p l →
  wp (for_acc bs ([], []) (λ '(first, last) block,
       _ ← modify (upd_blk block (λ b, b <| ref_cnt ::= λ n, n - 1 |>));
       b ← gets (λ p, blk p block);
       mret (if decide (ref_cnt b = 0 ∧ is_null b = false) then
               if decide (_block_hash b = None ∨ enable_caching p = false)
               then (first ++ [block], last) else (first, last ++ [block])
             else (first, last))))
    (λ acc p',
      acc = (filter (evict_first p) (freed (λ i, ref_cnt (blk p i)) bs),
             filter (λ i, ¬ evict_first p i) (freed (λ i, ref_cnt (blk p i)) bs)) ∧
      cache_same p p' ∧ queue_repr (free_block_queue p') l ∧
      (∀ i, is_null (blk p' i) = is_null (blk p i)) ∧
      (∀ i, ref_cnt (blk p' i) = ref_cnt (blk p i) - occ i bs) ∧
      kv_event_queue p' = kv_event_queue p) p.
Proof.
  intros Ha. set (rc := λ i, ref_cnt (blk p i)).
  apply (wp_for_acc (λ pre acc p',
      acc = (filter (evict_first p) (freed rc pre), filter (λ i, ¬ evict_first p i) (freed rc pre)) ∧
      cache_same p p' ∧ queue_repr (free_block_queue p') l ∧
      (∀ i, is_null (blk p' i) = is_null (blk p i)) ∧
      (∀ i, ref_cnt (blk p' i) = rc i - occ i pre) ∧
      kv_event_queue p' = kv_event_queue p)).
  { split_and!; try done; [apply Ha|]. intros i. rewrite occ_nil. unfold rc. lia. }
  intros pre x post [first last] p' _ ([= -> ->] & Hc & Hq & Hn & Hr & He). cbv beta iota. wp_steps.
  destruct (upd_ref_spec p' x (λ n, n - 1) l) as (Hc3 & Hq3 & Hn3 & Hr3).
  set (p3 := upd_blk x _ p') in *.
  assert (ref_cnt (blk p3 x) = rc x - occ x pre - 1) as Hrx by (rewrite Hr3, decide_True, Hr; done).
  assert (is_null (blk p3 x) = false ↔ x ≠ null_block) as Hnx.
  { rewrite Hn3, Hn, <-not_true_iff_false, (wf_null _ _ Ha). done. }
  assert (_block_hash (blk p3 x) = _block_hash (blk p x)) as Hhx.
  { by rewrite (cs_hash _ _ Hc3), (cs_hash _ _ Hc). }
  split_and!.
  - rewrite freed_snoc, Hrx, Hhx, !filter_app.
    destruct (decide (rc x - occ x pre - 1 = 0 ∧ is_null (blk p3 x) = false)),
      (decide (rc x - occ x pre - 1 = 0 ∧ x ≠ null_block)); try (exfalso; tauto).
    + destruct (decide (_block_hash (blk p x) = None ∨ enable_caching p = false)) as [Hd|Hd];
        fold (evict_first p x) in Hd.
      * rewrite (filter_cons_True (evict_first p)), filter_cons_False, !filter_nil by tauto.
        by rewrite app_nil_r.
      * rewrite (filter_cons_False (evict_first p)), filter_cons_True, !filter_nil by tauto.
        by rewrite app_nil_r.
    + by rewrite !filter_nil, !app_nil_r.
  - by etrans.
  - by apply Hq3.
  - intros i. by rewrite Hn3.
  - intros i. rewrite Hr3, occ_app, occ_cons, occ_nil, !Hr. case_decide; subst; lia.
  - done.
Qed.

Lemma elem_of_free_list_after p l bs i :
  i ∈ free_list_after p l bs ↔ i ∈ l ∨ i ∈ freed (λ i, ref_cnt (blk p i)) bs.
Proof.
  unfold free_list_after. rewrite !elem_of_app, !list_elem_of_filter.
  destruct (decide (evict_first p i)); tauto.
Qed.

Lemma free_blocks_spec p l bs :
  alloc_wf p l → (∀ i, i ∈ bs → Z.of_nat i < num_gpu_blocks p) →
  (∀ i, i ≠ null_block → occ i bs ≤ ref_cnt (blk p i)) →
  wp (free_blocks bs) (λ _, released p l bs) p.
Proof.
  intros Ha Hrange Hle. unfold free_blocks. wp_steps. eapply wp_mono; [by apply free_loop_spec|].
  intros acc p1 (-> & Hc1 & Hq1 & Hn1 & Hr1 & He1). cbv beta iota.
  set (rc := λ i, ref_cnt (blk p i)) in *. set (fs := freed rc bs) in *.
  destruct (freed_spec rc bs Hle) as [Hnd Hin]. fold fs in Hnd, Hin.
  pose proof (wf_free _ _ Ha) as Hfree. pose proof (repr_NoDup _ _ (wf_queue _ _ Ha)) as Hndl.
  assert (∀ i, i ∈ fs → i ∉ l) as Hout.
  { intros i [_ [Hi Hoc]]%Hin [_ Hz]%Hfree. apply occ_pos in Hi. unfold rc in Hoc. lia. }
  assert (NoDup (filter (evict_first p) fs ++ l ++ filter (λ i, ¬ evict_first p i) fs)) as Hnd3.
  { apply NoDup_app. split_and!; [by apply NoDup_filter| |apply NoDup_app; split_and!];
      [|done| |by apply NoDup_filter].
    - intros i [Hev Hi]%list_elem_of_filter. rewrite elem_of_app, list_elem_of_filter.
      specialize (Hout i Hi). tauto.
    - intros i Hil [_ Hi]%list_elem_of_filter. by apply (Hout i). }
  apply wp_bind, wp_on_queue. eapply wp_mono.
  { apply prepend_n_spec; [exact Hq1|]. rewrite app_assoc in Hnd3.
    by apply NoDup_app in Hnd3 as [? _]. }
  intros u q2 [Hq2 Hat2]. apply wp_on_queue. eapply wp_mono.
  { apply append_n_spec; [exact Hq2|]. by rewrite <-app_assoc. }
  intros u' q3 [Hq3 Hat3]. rewrite <-app_assoc in Hq3.
  set (p3 := p1 <| free_block_queue := q3 |>).
  assert (same_attrs (free_block_queue p1) q3) as Hat by (by etrans).
  change (released p l bs p3).
  assert (∀ i, ref_cnt (blk p3 i) = rc i - occ i bs) as Hr3.
  { intros i. etrans; [apply (same_attrs_blk p1 q3 i Hat)|apply Hr1]. }
  assert (cache_same p p3) as Hc3. { etrans; [exact Hc1|]. by apply cache_same_queue. }
  split; [|done|done|done]. split.
  - exact Hq3.
  - rewrite (cfg_num _ _ (cs_config _ _ Hc3)). apply Ha.
  - intros i. rewrite elem_of_free_list_after. fold rc fs.
    rewrite Hin, Hfree, Hr3, (cfg_num _ _ (cs_config _ _ Hc3)). fold (rc i).
    pose proof (occ_pos i bs). pose proof (occ_nonneg i bs). specialize (Hle i). fold (rc i) in Hle.
    specialize (Hrange i). unfold null_block in *.
    destruct (decide (i ∈ bs)) as [Hb|Hb].
    + assert (0 < occ i bs) by tauto. specialize (Hrange Hb).
      split; [intros [[? ?]|(? & ? & ?)]; split; lia|]. intros [? ?]. right. split_and!; [lia|done|lia].
    + assert (¬ 0 < occ i bs) by tauto.
      split; [intros [[? ?]|(? & ? & ?)]; [split; lia|done]|]. intros [? ?]. left. split; lia.
  - intros i. destruct (same_attrs_blk p1 q3 i Hat) as [_ Hni]. fold p3 in Hni.
    rewrite Hni, Hn1. apply Ha.
  - intros i Hi. rewrite Hr3. specialize (Hle i Hi). fold (rc i) in Hle. lia.
Qed.

(** ** Evicting and resetting *)

Lemma range_index n i : 0 ≤ i < n → index (seq 0 (Z.to_nat n)) i = Ok (Z.to_nat i).
Proof.
  intros Hi. apply index_Ok; [lia|]. apply lookup_seq. lia.
Qed.

(** [evict_blocks] drops the hashes of the given blocks and nothing else. *)
Lemma evict_blocks_spec p X :
  cache_wf p → (∀ i, i ∈ X → 0 ≤ i < num_gpu_blocks p) →
  wp (evict_blocks use_int X) (λ _ p', alloc_same p p' ∧ cache_wf p' ∧ (∀ j, hash_kept p p' j) ∧
    ∀ j k, holds_key p' j k ↔ holds_key p j k ∧ Z.of_nat j ∉ X) p.
Proof.
  intros Hc HX. unfold evict_blocks. wp_steps. eapply wp_mono.
  { apply (wp_for (λ pre p', alloc_same p p' ∧ cache_wf p' ∧ (∀ j, hash_kept p p' j) ∧
      ∀ j k, holds_key p' j k ↔ holds_key p j k ∧ Z.of_nat j ∉ pre)).
    - split_and!; [done|done|by left|]. intros j k. rewrite elem_of_nil. tauto.
    - intros pre i post p' Heq (Ha & Hw & Hkept & Hk).
      assert (0 ≤ i < num_gpu_blocks p) as Hi.
      { apply HX, elem_of_iter_set. rewrite Heq. set_solver. }
      wp_steps; [apply bool_decide_eq_true_2; lia|].
      eapply wp_lift; [by apply range_index|].
      apply wp_bind. eapply wp_mono; [by apply maybe_evict_spec|].
      intros b p2 [[Ha2 Hw2 Hk2 Hh2 Ht2 _] _]. wp_steps. split_and!; [by etrans|done|..].
      { intros j. eapply hash_kept_trans; [done|]. unfold hash_kept. rewrite Hh2, Ht2. case_decide; [by right|by left]. }
      intros j k. rewrite Hk2, Hk, not_elem_of_app, not_elem_of_cons.
      pose proof (not_elem_of_nil (Z.of_nat j)).
      assert (j ≠ Z.to_nat i ↔ Z.of_nat j ≠ i) by lia. tauto. }
  intros u p' (Ha & Hw & Hh & Hk). split_and!; [done..|]. intros j k. by rewrite Hk, elem_of_iter_set.
Qed.

(** All proper blocks are free: nothing is referenced. *)
Lemma all_free p l :
  alloc_wf p l → num_gpu_blocks p - len l = 1 ↔
    ∀ i, 0 < Z.of_nat i < num_gpu_blocks p → ref_cnt (blk p i) = 0.
Proof.
  intros Ha. pose proof (repr_NoDup _ _ (wf_queue _ _ Ha)) as Hnd.
  pose proof (wf_num _ _ Ha) as Hn. pose proof (wf_free _ _ Ha) as Hfree.
  assert (l ⊆ seq 1 (Z.to_nat (num_gpu_blocks p) - 1)) as Hsub.
  { intros i Hi%Hfree. apply elem_of_seq. lia. }
  pose proof (NoDup_seq 1 (Z.to_nat (num_gpu_blocks p) - 1)) as Hnd'. split.
  - intros Hlen i Hi. apply Hfree.
    assert (l ≡ₚ seq 1 (Z.to_nat (num_gpu_blocks p) - 1)) as Hperm.
    { apply submseteq_length_Permutation; [by apply NoDup_submseteq|].
      rewrite length_seq. unfold len in Hlen. lia. }
    rewrite Hperm. apply elem_of_seq. lia.
  - intros Hall.
    assert (seq 1 (Z.to_nat (num_gpu_blocks p) - 1) ⊆+ l) as Hle.
    { apply NoDup_submseteq; [done|]. intros i Hi%elem_of_seq. apply Hfree. split; [lia|].
      apply Hall. lia. }
    apply submseteq_length in Hle. rewrite length_seq in Hle.
    apply NoDup_submseteq, submseteq_length in Hsub; [|done]. rewrite length_seq in Hsub.
    unfold len. lia.
Qed.

Lemma reset_hashes_spec p n :
  wp (for_ (seq 0 n) reset_hash) (λ _ p', alloc_same p p' ∧
    cached_block_hash_to_block p' = cached_block_hash_to_block p ∧
    cached_block_hashes_by_block p' = cached_block_hashes_by_block p ∧
    kv_event_queue p' = kv_event_queue p ∧
    ∀ i, blk p' i = if decide (i < n)%nat then no_hash (blk p i) else blk p i) p.
Proof.
  eapply wp_mono; [apply (wp_for (λ pre p', alloc_same p p' ∧
    cached_block_hash_to_block p' = cached_block_hash_to_block p ∧
    cached_block_hashes_by_block p' = cached_block_hashes_by_block p ∧
    kv_event_queue p' = kv_event_queue p ∧
    ∀ i, blk p' i = if decide (i ∈ pre) then no_hash (blk p i) else blk p i))|].
  - by split_and!.
  - intros pre x post p' Heq (Ha & Hm & Hx & He & Hb). unfold reset_hash. wp_steps.
    split_and!; [|done..|].
    + etrans; [exact Ha|]. by apply alloc_same_upd.
    + intros i. rewrite blk_upd. fold no_hash.
      assert (x ∉ pre).
      { pose proof (NoDup_seq 0 n) as Hnd. rewrite Heq in Hnd.
        apply NoDup_app in Hnd as (_ & Hnd & _). intros Hin. apply (Hnd x Hin). set_solver. }
      destruct (decide (x = i)) as [<-|]; rewrite ?Hb.
      * rewrite decide_False by done. by rewrite decide_True by set_solver.
      * destruct (decide (i ∈ pre)), (decide (i ∈ pre ++ [x])); set_solver.
  - intros u p' (Ha & Hm & Hx & He & Hb). split_and!; try done. intros i. rewrite Hb.
    destruct (decide (i ∈ seq 0 n)) as [Hi|Hi], (decide (i < n)%nat); try done;
      rewrite elem_of_seq in Hi; lia.
Qed.

(** [reset_prefix_cache] succeeds exactly when no block is in use, and then nothing is
    cached any more; otherwise it changes nothing. *)
Lemma reset_prefix_cache_spec p l :
  alloc_wf p l → cache_wf p →
  wp reset_prefix_cache (λ b p',
    (b = true ↔ ∀ i, 0 < Z.of_nat i < num_gpu_blocks p → ref_cnt (blk p i) = 0) ∧
    alloc_same p p' ∧ cache_wf p' ∧ (b = true → ∀ j k, ¬ holds_key p' j k) ∧
    (b = false → p' = p)) p.
Proof.
  intros Ha Hc. pose proof (all_free p l Ha) as Hall. unfold reset_prefix_cache. wp_steps.
  unfold get_num_free_blocks. rewrite (repr_num _ _ (wf_queue _ _ Ha)). case_decide as Hd.
  { wp_steps. split_and!; try done. split; [done|]. intros Hz%Hall. done. }
  wp_steps. set (p1 := p <| cached_block_hash_to_block := ∅ |> <| cached_block_hashes_by_block := ∅ |>).
  eapply wp_mono; [apply (reset_hashes_spec p1)|].
  intros u p2 (Ha2 & Hm2 & Hx2 & He2 & Hb2). wp_steps. unfold metrics. wp_steps.
  set (p3 := p2 <| metrics_collector ::= _ |>).
  assert (∀ i, _block_hash (blk p2 i) = None ∧ _block_hash_num_tokens (blk p2 i) = None) as Hnone.
  { intros i. rewrite Hb2. case_decide as Hi; [done|].
    change (blk p1 i) with (blk p i).
    assert (_block_hash (blk p i) = None) as Hh.
    { destruct (_block_hash (blk p i)) eqn:Hh; [|done]. exfalso. apply Hi.
      change (i < Z.to_nat (num_gpu_blocks p))%nat.
      assert (0 < Z.of_nat i < num_gpu_blocks p); [|lia]. apply (wf_hashed p Hc). by rewrite Hh. }
    split; [done|]. by apply (wf_unhashed p Hc). }
  assert (∀ p4, log_only p2 p4 → (true = true ↔
      ∀ i, 0 < Z.of_nat i < num_gpu_blocks p → ref_cnt (blk p i) = 0) ∧
    alloc_same p p4 ∧ cache_wf p4 ∧ (true = true → ∀ j k, ¬ holds_key p4 j k) ∧
    (true = false → p4 = p)) as Hfin.
  { intros p4 [Ha4 Hc4]. assert (∀ j k, ¬ holds_key p2 j k) as Hno.
    { intros j k [Hh|(X & HX & _)]; [by destruct (Hnone j); congruence|]. by rewrite Hx2 in HX. }
    split_and!; try done.
    - split; [|done]. intros _. apply Hall. lia.
    - etrans; [|exact Ha4]. by etrans; [|exact Ha2].
    - apply (cache_wf_same p2); [done|]. split.
      + rewrite Hm2. by intros k e.
      + intros k j. rewrite Hm2. specialize (Hno j k). split; [|done].
        change (contain (∅ : BlockHashToBlockMap) k j = true → holds_key p2 j k).
        by rewrite contain_alt, lookup_empty.
      + intros j _. rewrite Hx2. split; [apply Hnone|done].
      + intros j X k. by rewrite Hx2.
      + intros j Hj. by destruct (Hnone j).
    - intros _ j k. rewrite (holds_key_same _ _ _ _ Hc4). apply Hno. }
  destruct (enable_kv_cache_events p3); unfold emit; wp_steps; by apply Hfin.
Qed.

(** ** Caching full blocks *)

(** One new full block: block [b] ends up with key [key] and no other. *)
Record block_cached (p : BlockPool) (b : nat) (key : bytes) (nt : Z) (p' : BlockPool) : Prop := {
  bc_alloc : alloc_same p p';
  bc_wf : cache_wf p';
  bc_keys j k : holds_key p' j k ↔ (j = b ∧ k = key) ∨ (j ≠ b ∧ holds_key p j k);
  bc_hash j : _block_hash (blk p' j) = if decide (b = j) then Some key else _block_hash (blk p j);
  bc_tokens j : _block_hash_num_tokens (blk p' j) =
    if decide (b = j) then Some nt else _block_hash_num_tokens (blk p j)
}.

(** The block has no hash, or one for a shorter prefix (a partial entry). *)
Definition promotable (p : BlockPool) (b : nat) (nt : Z) : Prop :=
  _block_hash (blk p b) = None ∨ ∃ n, _block_hash_num_tokens (blk p b) = Some n ∧ n < nt.

Lemma key_added_cached p b key nt p1 p' :
  cache_wf p → hashes_removed p b p1 → key_added p1 key b (Some nt) p' →
  block_cached p b key nt p'.
Proof.
  intros Hc [Ha1 Hw1 Hk1 Hh1 Ht1 _] [Ha2 Hw2 Hk2 Hh2 Ht2 _]. split; try done.
  - by etrans.
  - intros j k. rewrite Hk2, Hk1. destruct (decide (j = b)); naive_solver.
  - intros j. rewrite Hh2, !Hh1, (decide_True (P := b = b)) by done. by case_decide.
  - intros j. rewrite Ht2, Hh1, Ht1, (decide_True (P := b = b)) by done.
    destruct (decide (b = j ∧ None = None)), (decide (b = j)); naive_solver.
Qed.

Lemma no_keys_removed p b :
  cache_wf p → _block_hash (blk p b) = None → hashes_removed p b p.
Proof.
  intros Hc Hn. destruct (wf_unhashed p Hc b Hn) as [Ht Hx]. split; try done.
  - intros j k. split; [|tauto]. intros Hk. split; [|done]. intros ->.
    destruct Hk as [Hk|(X & HX & _)]; congruence.
  - intros j. case_all.
  - intros j. case_all.
  - intros j. case_all.
Qed.

Lemma cache_one_block_spec p nbh nc bsz gid mask acc i b h key :
  cache_wf p → is_null (blk p b) = false → mask_at mask (Z.of_nat i) = Ok true →
  0 < Z.of_nat b < num_gpu_blocks p →
  index nbh (Z.of_nat i) = Ok h → make_block_hash_with_group_id h gid = Ok key →
  promotable p b ((nc + Z.of_nat i + 1) * bsz) →
  wp (cache_one_block use_int nbh nc bsz gid mask acc (i, b))
    (λ acc' p', block_cached p b key ((nc + Z.of_nat i + 1) * bsz) p') p.
Proof.
  intros Hc Hnull Hmask Hb Hh Hkey Hprom. unfold cache_one_block. wp_steps. rewrite Hnull.
  apply wp_bind. eapply wp_lift; [exact Hmask|]. cbn [negb].
  apply wp_bind. eapply wp_lift; [exact Hh|]. cbv zeta.
  apply wp_bind. eapply wp_lift; [exact Hkey|]. do 2 wp_step. apply wp_bind.
  assert (∀ p1, hashes_removed p b p1 → wp
    (_ ← _insert_block_hash key b (Some ((nc + Z.of_nat i + 1) * bsz));
     mret (acc ++ [maybe_convert_block_hash use_int h]))
    (λ _ p', block_cached p b key ((nc + Z.of_nat i + 1) * bsz) p') p1) as Hins.
  { intros p1 Hr. apply wp_bind. eapply wp_mono.
    - apply insert_block_hash_spec; [apply Hr|].
      by rewrite (cfg_num _ _ (as_config _ _ (hr_alloc _ _ _ Hr))).
    - intros u p2 Hadd. apply wp_ret. by eapply key_added_cached. }
  destruct (_block_hash (blk p b)) as [h0|] eqn:Hb0.
  - destruct Hprom as [Hn|(n & Hn & Hlt)]; [congruence|]. rewrite Hn. wp_steps.
    { by apply bool_decide_eq_true_2. }
    wp_steps. eapply wp_mono; [by apply remove_cached_block_hashes_spec|].
    intros ks p1 (-> & Hr & _). eapply wp_mono; [apply emit_removed_spec|].
    intros u p2 [Hlog _]. apply Hins. by eapply hashes_removed_log.
  - apply wp_ret, Hins. by apply no_keys_removed.
Qed.

(** Positions whose block is cached: not null and not masked out. *)
Definition selected (p : BlockPool) (mask : option (list bool)) (ib : nat * nat) : Prop :=
  is_null (blk p ib.2) = false ∧ mask_at mask (Z.of_nat ib.1) = Ok true.

(** What the loop of [cache_full_blocks] has done after the positions [pre]: [keyf i] is
    the key of position [i]. *)
Record caching (p : BlockPool) (mask : option (list bool)) (keyf : nat → bytes) (nt : nat → Z)
    (pre : list (nat * nat)) (p' : BlockPool) : Prop := {
  cg_alloc : alloc_same p p';
  cg_wf : cache_wf p';
  cg_keys j k : holds_key p' j k ↔
    (∃ i, (i, j) ∈ pre ∧ selected p mask (i, j) ∧ k = keyf i) ∨
    ((∀ i, (i, j) ∈ pre → ¬ selected p mask (i, j)) ∧ holds_key p j k);
  cg_hash j : (∀ i, (i, j) ∈ pre → ¬ selected p mask (i, j)) →
    _block_hash (blk p' j) = _block_hash (blk p j) ∧
    _block_hash_num_tokens (blk p' j) = _block_hash_num_tokens (blk p j);
  cg_primary i j : (i, j) ∈ pre → selected p mask (i, j) →
    _block_hash (blk p' j) = Some (keyf i) ∧ _block_hash_num_tokens (blk p' j) = Some (nt i)
}.

Section caching_steps.
Variables (p : BlockPool) (mask : option (list bool)) (keyf : nat → bytes) (nt : nat → Z).
Abbreviation sel := (selected p mask).
Abbreviation caching := (caching p mask keyf nt).

Lemma caching_skip pre i b p' :
  ¬ sel (i, b) → caching pre p' → caching (pre ++ [(i, b)]) p'.
Proof.
  intros Hns [Ha Hw Hk Hh Hp].
  assert (∀ i' j, (i', j) ∈ pre ++ [(i, b)] ↔ (i', j) ∈ pre ∨ (i' = i ∧ j = b)) as Hin.
  { intros. rewrite elem_of_app, list_elem_of_singleton, pair_eq. done. }
  split; try done.
  - intros j k. rewrite Hk. setoid_rewrite Hin. split.
    + intros [(i' & ? & ? & ?)|[Hno ?]]; [left; eauto|]. right. split; [|done].
      intros i' [?|[-> ->]]; auto.
    + intros [(i' & [?|[-> ->]] & ? & ?)|[Hno ?]]; [left; eauto|done|]. right. split; [|done].
      intros i' ?. apply Hno. by left.
  - intros j Hno. apply Hh. intros i' Hi'. apply Hno, Hin. by left.
  - intros i' j [Hi|[-> ->]]%Hin; [by apply Hp|done].
Qed.

Lemma caching_step pre i b p' p2 :
  sel (i, b) → (∀ i', (i', b) ∈ pre → ¬ sel (i', b)) → caching pre p' →
  block_cached p' b (keyf i) (nt i) p2 → caching (pre ++ [(i, b)]) p2.
Proof.
  intros Hs Hfresh [Ha Hw Hk Hh Hp] [Ha2 Hw2 Hk2 Hh2 Ht2].
  assert (∀ i' j, (i', j) ∈ pre ++ [(i, b)] ↔ (i', j) ∈ pre ∨ (i' = i ∧ j = b)) as Hin.
  { intros. rewrite elem_of_app, list_elem_of_singleton, pair_eq. done. }
  split; try done.
  - by etrans.
  - intros j k. rewrite Hk2, Hk. setoid_rewrite Hin. split.
    + intros [[-> ->]|[Hj [(i' & ? & ? & ?)|[Hno ?]]]];
        [left; exists i; auto|left; exists i'; auto|].
      right. split; [|done]. intros i' [?|[-> ->]]; auto.
    + intros [(i' & [Hi|[-> ->]] & Hsel & ->)|[Hno Hkey]].
      * right. split; [intros ->; by apply (Hfresh i')|]. left. by exists i'.
      * by left.
      * right. split; [intros ->; apply (Hno i); auto|]. right. split; [|done].
        intros i' ?. apply Hno. by left.
  - intros j Hno. assert (b ≠ j). { intros ->. apply (Hno i); [|done]. apply Hin. by right. }
    rewrite Hh2, Ht2, !decide_False by done. apply Hh. intros i' Hi'. apply Hno, Hin. by left.
  - intros i' j Hi Hsel. rewrite Hh2, Ht2. apply Hin in Hi as [Hi|[-> ->]].
    + rewrite !decide_False; [by apply Hp|..]; intros ->; by apply (Hfresh i').
    + by rewrite !decide_True.
Qed.
End caching_steps.

(** What [cache_full_blocks] requires of the positions [xs] it caches. *)
Record cacheable (p : BlockPool) (mask : option (list bool)) (nbh : list bytes) (gid : Z)
    (keyf : nat → bytes) (nt : nat → Z) (xs : list (nat * nat)) : Prop := {
  ca_mask i b : (i, b) ∈ xs → ∃ m, mask_at mask (Z.of_nat i) = Ok m;
  ca_block i b : (i, b) ∈ xs → selected p mask (i, b) →
    0 < Z.of_nat b < num_gpu_blocks p ∧ promotable p b (nt i);
  ca_key i b : (i, b) ∈ xs → selected p mask (i, b) →
    ∃ h, index nbh (Z.of_nat i) = Ok h ∧ make_block_hash_with_group_id h gid = Ok (keyf i);
  ca_inj i i' b : (i, b) ∈ xs → (i', b) ∈ xs →
    selected p mask (i, b) → selected p mask (i', b) → i = i';
  ca_NoDup : NoDup xs
}.

Lemma caching_loop_spec p nbh nc bsz gid mask keyf xs :
  cache_wf p →
  cacheable p mask nbh gid keyf (λ i, (nc + Z.of_nat i + 1) * bsz) xs →
  wp (for_acc xs [] (cache_one_block use_int nbh nc bsz gid mask))
    (λ _, caching p mask keyf (λ i, (nc + Z.of_nat i + 1) * bsz) xs) p.
Proof.
  intros Hc [Hmask Hblock Hkey Hinj Hnd]. set (nt := λ i, (nc + Z.of_nat i + 1) * bsz) in *.
  eapply wp_mono; [apply (wp_for_acc (λ pre _, caching p mask keyf nt pre))|done].
  { split; try done.
    - intros j k. split; [|intros [(i & []%elem_of_nil & _)|[_ ?]]; done].
      intros Hk. right. split; [|done]. by intros i []%elem_of_nil.
    - by intros i j []%elem_of_nil. }
  intros pre [i b] post acc p' Heq Hcg.
  assert ((i, b) ∈ xs) as Hi by (rewrite Heq; set_solver).
  pose proof Hcg as [Ha Hw Hk Hh Hp].
  destruct (decide (is_null (blk p b) = true)) as [Hn|Hn].
  { unfold cache_one_block. wp_steps. rewrite (as_null _ _ Ha), Hn. apply wp_ret.
    apply caching_skip; [|done]. intros [Hns _]. simpl in Hns. congruence. }
  apply not_true_is_false in Hn. destruct (Hmask i b Hi) as [m Hm]. destruct m.
  2:{ unfold cache_one_block. wp_steps. rewrite (as_null _ _ Ha), Hn.
      apply wp_bind. eapply wp_lift; [exact Hm|]. apply wp_ret.
      apply caching_skip; [|done]. intros [_ Hns]. simpl in Hns. congruence. }
  assert (selected p mask (i, b)) as Hsel by done.
  destruct (Hblock i b Hi Hsel) as [Hrange Hprom], (Hkey i b Hi Hsel) as (h & Hidx & Hmk).
  assert (∀ i', (i', b) ∈ pre → ¬ selected p mask (i', b)) as Hfresh.
  { intros i' Hi' Hsel'. assert ((i', b) ∈ xs) as Hx by (rewrite Heq; set_solver).
    rewrite (Hinj i' i b Hx Hi Hsel' Hsel) in Hi'. rewrite Heq in Hnd.
    apply NoDup_app in Hnd as (_ & Hnd & _). apply (Hnd _ Hi'). set_solver. }
  destruct (Hh b Hfresh) as [Hhb Htb].
  eapply wp_mono; [eapply (cache_one_block_spec p' nbh nc bsz gid mask acc i b h (keyf i)); try done|].
  - by rewrite (as_null _ _ Ha).
  - by rewrite (cfg_num _ _ (as_config _ _ Ha)).
  - unfold promotable. by rewrite Hhb, Htb.
  - intros u p2 Hbc. by eapply caching_step.
Qed.

(** ** The hashes a group of block size [c * hash_block_size] uses *)

Lemma mapM_Ok {A B} (f : A → res B) (g : A → B) xs :
  (∀ x, x ∈ xs → f x = Ok (g x)) → mapM f xs = Ok (g <$> xs).
Proof.
  induction xs as [|x xs IH]; intros Hf; [done|]. cbn.
  rewrite Hf by set_solver. cbn. rewrite IH; [done|]. intros y Hy. apply Hf. set_solver.
Qed.

Lemma range_lookup a b k : 0 ≤ k < b - a → range a b !! Z.to_nat k = Some (a + k).
Proof.
  intros Hk. unfold range. rewrite list_lookup_fmap, lookup_seq_lt by lia. simpl. f_equal. lia.
Qed.

Lemma range_nth a b pre x post : range a b = pre ++ x :: post → x = a + len pre.
Proof.
  intros Heq. assert (range a b !! length pre = Some x) as Hl
    by (rewrite Heq; by apply list_lookup_middle).
  apply lookup_lt_Some in Hl as Hlt. unfold range in Hlt. rewrite length_fmap, length_seq in Hlt.
  rewrite <-(Nat2Z.id (length pre)), range_lookup in Hl by lia. injection Hl as <-. done.
Qed.

Lemma len_range a b : a ≤ b → len (range a b) = b - a.
Proof. intros. unfold len, range. rewrite length_fmap, length_seq. lia. Qed.

(** The position of the hash of the [i]-th block of [c] hash blocks. *)
Definition hash_pos (c i : Z) : Z := (i + 1) * c - 1.

Lemma hash_pos_bound c i n : 0 < c → 0 ≤ i < n // c → 0 ≤ hash_pos c i < n.
Proof.
  intros Hc Hi. unfold hash_pos. pose proof (Z.mul_div_le n c). nia.
Qed.

Lemma resolve_spec hs hbs c :
  0 < hbs → 0 < c →
  ∃ HS, resolve_block_hashes (HashList hs) hbs (c * hbs) false None = Ok HS ∧
    hashes_len HS = len hs // c ∧
    (∀ i, hashes_get HS i = index hs (hash_pos c i)) ∧
    ∀ nc, 0 ≤ nc ≤ len hs // c → ∃ l, hashes_from HS nc = Ok l ∧
      ∀ i, 0 ≤ i → nc + i < len hs // c → index l i = index hs (hash_pos c (nc + i)).
Proof.
  intros Hh Hc. unfold resolve_block_hashes, hash_pos. case_decide as Heq.
  - assert (c = 1) as -> by nia. exists (HashList hs). rewrite Z.div_1_r. split_and!; [done|done| |].
    + intros i. simpl. f_equal. lia.
    + intros nc Hnc. eexists. split; [done|]. intros i Hi Hlt.
      rewrite !index_nonneg by lia. unfold slice_from. rewrite slice_pos_in by lia.
      rewrite lookup_drop.
      by replace (Z.to_nat ((nc + i + 1) * 1 - 1)) with (Z.to_nat nc + Z.to_nat i)%nat by lia.
  - cbn. rewrite decide_True by (apply Z.mod_mul; lia). unfold new_BlockHashListWithBlockSize.
    rewrite decide_True by (apply Z.mod_mul; lia). cbn. eexists. split; [done|].
    unfold hashes_len, bhl_len, hashes_from, _get_value_at. cbn. rewrite Z.div_mul by lia.
    split_and!; [done|done|]. intros nc Hnc.
    rewrite (mapM_Ok _ (λ i, hs !!! Z.to_nat ((i + 1) * c - 1))).
    + eexists. split; [done|]. intros i Hi Hlt.
      destruct (index_in_range hs ((nc + i + 1) * c - 1)) as (x & Hx & Hx').
      { apply (hash_pos_bound c); lia. }
      rewrite Hx. apply index_Ok; [done|].
      rewrite list_lookup_fmap, Z.min_l, range_lookup by (unfold bhl_len; cbn; lia).
      simpl. f_equal. by apply list_lookup_total_correct.
    + intros i Hi%elem_of_range. rewrite Z.min_l in Hi by (unfold bhl_len; cbn; lia).
      unfold bhl_len in Hi. cbn in Hi.
      destruct (index_in_range hs ((i + 1) * c - 1)) as (x & Hx & Hx').
      { apply (hash_pos_bound c); lia. }
      rewrite Hx. f_equal. symmetry. by apply list_lookup_total_correct.
Qed.

Lemma caching_log p mask keyf nt xs p1 p2 :
  caching p mask keyf nt xs p1 → log_only p1 p2 → caching p mask keyf nt xs p2.
Proof.
  intros [Ha Hw Hk Hh Hp] [Ha2 Hc2]. split.
  - by etrans.
  - by eapply cache_wf_same.
  - intros j k. by rewrite (holds_key_same _ _ _ _ Hc2).
  - intros j Hj. rewrite (cs_hash _ _ Hc2), (cs_tokens _ _ Hc2). auto.
  - intros i j. rewrite (cs_hash _ _ Hc2), (cs_tokens _ _ Hc2). auto.
Qed.

Variable sha256 : list (list Z) → bytes.

(** The extra keys of an event are computed for every block without an exception. *)
Lemma event_keys_spec p r blocks nc nf bsz mask :
  memo_ok sha256 r → mm_sorted (mm_features r) → 0 ≤ bsz →
  (∀ i, nc ≤ i < nf → (∃ b, index blocks i = Ok b) ∧ ∃ m, mask_at mask (i - nc) = Ok m) →
  wp (for_acc (range nc nf) ([], 0, r) (event_keys sha256 blocks nc bsz mask))
    (λ acc p', p' = p ∧ remembers sha256 r acc.2) p.
Proof.
  intros Hm Hs Hbsz Hb. eapply wp_mono.
  { apply (wp_for_acc (λ pre acc p', p' = p ∧ remembers sha256 r acc.2 ∧ 
      ∃ s, mm_idx_ok (mm_features r) s acc.1.2 ∧ ∀ x post, range nc nf = pre ++ x :: post → s ≤ x * bsz)).
    - split_and!; [done|by apply remembers_refl|]. exists (nc * bsz). split.
      + split; [right; pose proof (len_nonneg (mm_features r)); simpl; lia|constructor].
      + intros x post Hx. simpl in Hx. assert (nc ≤ x); [|nia].
        assert (x ∈ range nc nf) as ?%elem_of_range by (rewrite Hx; set_solver). lia.
    - intros pre x post [[ks idx] r'] p' Heq (-> & Hr & s & Hi & Hs'). cbn in Hr, Hi.
      assert (nc ≤ x < nf) as Hx. { apply elem_of_range. rewrite Heq. set_solver. }
      destruct (Hb x Hx) as [[b Hbx] [m Hmx]].
      assert (∀ y post', range nc nf = (pre ++ [x]) ++ y :: post' → y = x + 1) as Hnext.
      { intros y post' Hy%range_nth. apply range_nth in Heq. rewrite len_app in Hy.
        unfold len at 2 in Hy. simpl in Hy. lia. }
      specialize (Hs' x post Heq). unfold event_keys. apply wp_bind. eapply wp_lift; [exact Hbx|].
      wp_steps. destruct (is_null (blk p b)).
      { wp_steps. split_and!; [done|done|]. exists s. split; [done|]. intros y post' ->%Hnext. nia. }
      apply wp_bind. eapply wp_lift; [exact Hmx|]. destruct m; cbn [negb].
      2:{ wp_steps. split_and!; [done|done|]. exists s. split; [done|]. intros y post' ->%Hnext. nia. }
      pose proof Hr as [[mm Hreq] Hmem].
      destruct (extra_keys_spec sha256 r' (x * bsz) (x * bsz + bsz) idx) as (i' & r2 & Hgen & Hi' & Hr2).
      { done. }
      { by rewrite Hreq. }
      { lia. }
      { rewrite Hreq. destruct Hi as [? Hf]. split; [done|].
        eapply Forall_impl; [exact Hf|]. simpl. lia. }
      apply wp_bind. eapply wp_lift; [exact Hgen|]. cbv beta iota. wp_steps.
      split_and!; [done|by eapply remembers_trans|]. exists (x * bsz + bsz). split.
      + rewrite Hreq in Hi'. exact Hi'.
      + intros y post' ->%Hnext. nia. }
  intros acc p' (? & ? & _). done.
Qed.

(** What a call of [cache_full_blocks] needs, for positions [nc, nf) of [blocks]. *)
Record cache_call_ok (p : BlockPool) (r : Request) (blocks : list nat) (nc nf c gid : Z)
    (mask : option (list bool)) : Prop := {
  cc_hbs : 0 < hash_block_size p;
  cc_scale : 0 < c;
  cc_range : 0 ≤ nc < nf;
  cc_blocks : nf ≤ len blocks;
  cc_hashes : nf ≤ len (block_hashes r) // c;
  cc_gid : 0 ≤ gid < 2 ^ 32;
  cc_mask m : mask = Some m → len m = nf - nc;
  (* blocks that get cached are proper blocks, each at one position, and not cached yet
     under a prefix as long *)
  cc_block i b : (i, b) ∈ imap pair (slice blocks nc nf) → selected p mask (i, b) →
    Z.of_nat b < num_gpu_blocks p ∧ promotable p b ((nc + Z.of_nat i + 1) * (c * hash_block_size p));
  cc_inj i i' b : (i, b) ∈ imap pair (slice blocks nc nf) →
    (i', b) ∈ imap pair (slice blocks nc nf) →
    selected p mask (i, b) → selected p mask (i', b) → i = i';
  cc_events : enable_kv_cache_events p = true → memo_ok sha256 r ∧ mm_sorted (mm_features r)
}.

(** The key of position [nc + i]: its chained hash, packed with the group id. *)
Definition block_key (r : Request) (c nc gid : Z) (i : nat) : bytes :=
  (block_hashes r !!! Z.to_nat (hash_pos c (nc + Z.of_nat i))) ++ be_bytes 4 gid.

Lemma elem_of_imap_pair (l : list nat) i b : (i, b) ∈ imap pair l ↔ l !! i = Some b.
Proof.
  rewrite list_elem_of_lookup. setoid_rewrite list_lookup_imap. split.
  - intros (j & Hj). destruct (l !! j) eqn:Hl; simplify_eq/=. done.
  - intros Hi. exists i. by rewrite Hi.
Qed.

Lemma NoDup_imap_pair (l : list nat) : NoDup (imap pair l).
Proof.
  apply NoDup_alt. intros i j [k b]. rewrite !list_lookup_imap.
  destruct (l !! i), (l !! j); intros; simplify_eq/=; done.
Qed.

Lemma cache_full_blocks_spec p l r blocks nc nf c gid mask :
  alloc_wf p l → cache_wf p → cache_call_ok p r blocks nc nf c gid mask →
  wp (cache_full_blocks use_int sha256 r blocks nc nf (c * hash_block_size p) gid mask)
    (λ r' p', caching p mask (block_key r c nc gid)
       (λ i, (nc + Z.of_nat i + 1) * (c * hash_block_size p)) (imap pair (slice blocks nc nf)) p' ∧
     (r' = r ∨ remembers sha256 r r')) p.
Proof.
  intros Ha Hc [Hhbs Hscale Hrange Hlen Hhash Hgid Hmask Hblock Hinj Hev].
  assert (len (slice blocks nc nf) = nf - nc) as Hlens.
  { rewrite slice_in by lia. unfold len in *. rewrite length_take, length_drop. lia. }
  unfold cache_full_blocks. rewrite decide_False by lia. do 2 wp_step.
  { destruct mask as [m|]; [|done]. apply bool_decide_eq_true_2. rewrite (Hmask m) by done. lia. }
  do 2 wp_step. destruct (resolve_spec (block_hashes r) (hash_block_size p) c)
    as (HS & HHS & HHlen & HHget & HHfrom); [done..|].
  apply wp_bind. eapply wp_lift; [exact HHS|].
  destruct (HHfrom nc) as (nbh & Hnbh & Hidx); [lia|].
  apply wp_bind. eapply wp_lift; [exact Hnbh|]. apply wp_bind.
  assert (∀ i b, (i, b) ∈ imap pair (slice blocks nc nf) → Z.of_nat i < nf - nc) as Hi.
  { intros i b Hib%elem_of_imap_pair%lookup_lt_Some. rewrite <-Hlens. unfold len. lia. }
  assert (∀ i, 0 ≤ i < nf - nc → ∃ m, mask_at mask i = Ok m) as Hmat.
  { intros i Hlt. unfold mask_at. destruct mask as [m|]; [|eauto].
    destruct (index_in_range m i) as (x & Hx & _); [rewrite (Hmask m) by done; lia|eauto]. }
  eapply wp_mono.
  { apply (caching_loop_spec p nbh nc _ gid mask (block_key r c nc gid)); [done|]. split.
    - intros i b Hib. apply Hmat. specialize (Hi i b Hib). lia.
    - intros i b Hib Hsel. destruct (Hblock i b Hib Hsel). split; [|done]. split; [|done].
      destruct Hsel as [Hn _]. simpl in Hn. apply not_true_iff_false in Hn.
      rewrite (wf_null _ _ Ha) in Hn. unfold null_block in Hn. lia.
    - intros i b Hib Hsel. specialize (Hi i b Hib).
      destruct (index_in_range (block_hashes r) (hash_pos c (nc + Z.of_nat i))) as (h & Hh & Hh').
      { apply hash_pos_bound; lia. }
      exists h. rewrite Hidx by lia. split; [done|]. rewrite make_block_hash_spec by done.
      unfold block_key. by rewrite (list_lookup_total_correct _ _ _ Hh').
    - exact Hinj.
    - apply NoDup_imap_pair. }
  intros new_hashes p1 Hcg. do 2 wp_step.
  rewrite (cfg_events _ _ (as_config _ _ (cg_alloc _ _ _ _ _ _ Hcg))).
  destruct (enable_kv_cache_events p) eqn:Hen; cbn [negb]; [|apply wp_ret; by split; [|left]].
  destruct (Hev eq_refl) as [Hmem Hsort].
  assert (∀ (parent : option ExternalBlockHash) new_hashes,
    wp ('(extra_keys_list, _, request) ←
          for_acc (range nc nf) ([], 0, r)
            (event_keys sha256 blocks nc (c * hash_block_size p) mask);
        _ ← emit (EvStored (_build_block_stored_event request (Some new_hashes) parent
              (nc * (c * hash_block_size p)) (nf * (c * hash_block_size p))
              (c * hash_block_size p) gid extra_keys_list));
        mret request)
      (λ r' p', caching p mask (block_key r c nc gid)
        (λ i, (nc + Z.of_nat i + 1) * (c * hash_block_size p)) (imap pair (slice blocks nc nf)) p' ∧
        (r' = r ∨ remembers sha256 r r')) p1) as Hemit.
  { intros parent nh. apply wp_bind. eapply wp_mono.
    - apply event_keys_spec; [done|done|nia|]. intros i Hlt. split; [|apply Hmat; lia].
      destruct (index_in_range blocks i) as (b & Hb & _); [lia|eauto].
    - intros [[ks idx] r'] p2 [-> Hr']. unfold emit. wp_steps. split; [|by right].
      eapply caching_log; [exact Hcg|]. by split. }
  apply wp_bind. case_decide; [apply wp_ret; apply Hemit|].
  destruct (index_in_range (block_hashes r) (hash_pos c (nc - 1))) as (h & Hh & _).
  { apply hash_pos_bound; lia. }
  apply wp_bind. eapply wp_lift; [by rewrite HHget|]. apply wp_ret, Hemit.
Qed.
End pool_specs.
