(* ===== verification/PoolTheorems.v ===== *)
(** * Correctness of the block pool

    Construction, lookups, the pool as a transition system whose reachable states
    satisfy the invariant, and the main theorems about allocation, eviction and
    prefix caching. *)

From S2P Require Import Prelude FreeQueue Request Hashing BlockPool PoolSpecs.

(** ** Construction *)

Lemma pool_blocks_obj n pid k i :
  ∃ pid', obj (mkQueue (pool_blocks n pid) k) (Block i) = new_block pid'.
Proof.
  unfold obj, pool_blocks. simpl. rewrite lookup_total_alt.
  destruct (list_to_map _ !! Block i) as [b|] eqn:Hb; [|by exists 0].
  apply elem_of_list_to_map_2, list_elem_of_fmap in Hb as (j & Heq & _).
  exists pid. simpl. congruence.
Qed.

Lemma new_BlockPool_spec n caching hbs events mc pid :
  0 < n →
  ∃ p, new_BlockPool n caching hbs events mc pid = Ok p ∧
    alloc_wf p (seq 1 (Z.to_nat n - 1)) ∧ cache_wf p ∧
    num_gpu_blocks p = n ∧ enable_caching p = caching ∧ hash_block_size p = hbs ∧
    enable_kv_cache_events p = events ∧ kv_event_queue p = [] ∧
    ∀ i, ref_cnt (blk p i) = 0 ∧ _block_hash (blk p i) = None.
Proof.
  intros Hn. unfold new_BlockPool. rewrite decide_True by lia. cbv zeta.
  set (q0 := mkQueue (pool_blocks (Z.to_nat n) pid) 0).
  assert (∀ i, attrs (obj q0 (Block i)) = (0, None, None, false, block_pool_id (obj q0 (Block i))) ∧
    nxt q0 (Block i) = None ∧ prv q0 (Block i) = None) as Hq0.
  { intros i. unfold nxt, prv, q0. by destruct (pool_blocks_obj (Z.to_nat n) pid 0 i) as [pid' ->]. }
  destruct (proj1 (wp_run _ _ _) (queue_init_spec q0 (seq 0 (Z.to_nat n)) (NoDup_seq _ _)
    (λ i _, proj2 (Hq0 i)))) as (u & q1 & -> & Hq1 & Ha1). cbn [mbind res_bind].
  destruct (Z.to_nat n) as [|m] eqn:Hm; [lia|]. cbn [seq] in Hq1.
  destruct (proj1 (wp_run _ _ _) (popleft_spec q1 0 (seq 1 m) Hq1)) as (nb & q2 & -> & -> & Hq2 & Ha2).
  cbn [mbind res_bind]. eexists. split; [reflexivity|].
  match goal with |- alloc_wf ?x _ ∧ _ => set (p := x) end.
  assert (∀ i, attrs (blk p i) = (0, None, None, bool_decide (i = 0%nat),
    block_pool_id (obj q0 (Block i)))) as Hattrs.
  { intros i. unfold blk, p. simpl. rewrite obj_update.
    assert (attrs (obj q2 (Block i)) = attrs (obj q0 (Block i))) as Hi by (by rewrite Ha2, Ha1).
    rewrite (proj1 (Hq0 i)) in Hi. unfold attrs in *.
    destruct (decide (Block 0 = Block i)) as [[= <-]|Hne]; simpl; [congruence|].
    rewrite bool_decide_eq_false_2 by (by intros ->). congruence. }
  assert (∀ i, ref_cnt (blk p i) = 0 ∧ _block_hash (blk p i) = None ∧
    _block_hash_num_tokens (blk p i) = None ∧ is_null (blk p i) = bool_decide (i = 0%nat)) as Hb.
  { intros i. specialize (Hattrs i). unfold attrs in Hattrs. split_and!; congruence. }
  split_and!; try done.
  - replace (S m - 1)%nat with m by lia. split.
    + eapply queue_repr_ext; [..|exact Hq2]; [..|done]; intros x; unfold nxt, prv, p; simpl;
        rewrite obj_update; by case_decide; subst.
    + done.
    + intros i. rewrite elem_of_seq. destruct (Hb i) as (-> & _).
      change (num_gpu_blocks p) with n. lia.
    + intros i. destruct (Hb i) as (_ & _ & _ & ->). by rewrite bool_decide_eq_true.
    + intros i _. destruct (Hb i) as (-> & _). done.
  - split.
    + by intros k e.
    + intros k i. split; [done|]. intros [Hk|(X & HX & _)]; [|done].
      destruct (Hb i) as (_ & Hh & _). congruence.
    + intros i _. by split; [apply Hb|].
    + by intros i X k.
    + intros i Hi. by destruct (Hb i) as (_ & Hh & _).
  - intros i. split; apply Hb.
Qed.

(** ** Lookups *)

(** A hit gives, for every group, a block that owns the key of that group; a miss means
    that for some group no block does. *)
Lemma get_cached_block_spec p h gids :
  cache_wf p → Forall (λ g, 0 ≤ g < 2 ^ 32) gids →
  match get_cached_block p h gids with
  | Ok (Some bs) => Forall2 (λ g b, holds_key p b (h ++ be_bytes 4 g)) gids bs
  | Ok None => ∃ g, g ∈ gids ∧ ∀ b, ¬ holds_key p b (h ++ be_bytes 4 g)
  | Raise _ => False
  end.
Proof.
  intros Hc Hg. induction Hg as [|g gids Hg Hgs IH]; simpl; [constructor|].
  rewrite make_block_hash_spec by done. cbn [mbind res_bind].
  pose proof (get_one_block_spec (cached_block_hash_to_block p) (h ++ be_bytes 4 g) (wf_map p Hc)) as Hone.
  destruct (get_one_block _ _) as [[b|]|e]; [| |done]; cbn [mbind res_bind].
  - apply (wf_cached p Hc) in Hone.
    destruct (get_cached_block p h gids) as [[bs|]|e]; cbn; [by constructor| |done].
    destruct IH as (g' & Hin & Hno). exists g'. split; [by right|done].
  - exists g. split; [by left|]. intros b Hb%(wf_cached p Hc). by rewrite Hone in Hb.
Qed.

Section pool_theorems.
Context `{SetIter}.
Variable use_int : bool.
Variable sha256 : list (list Z) → bytes.

(** ** Partial blocks *)

(** Extra keys are defined from the first and from the last multi-modal item on. *)
Lemma extra_keys_total r s e i :
  memo_ok sha256 r → i = 0 ∨ i = -1 →
  ∃ ks i' r', generate_block_hash_extra_keys sha256 r s e i = Ok (ks, i', r') ∧
    remembers sha256 r r'.
Proof.
  intros Hm Hi. unfold generate_block_hash_extra_keys.
  assert (∃ ks i', _gen_mm_extra_hash_keys r s e i = Ok (ks, i')) as (ks & i' & ->).
  { unfold _gen_mm_extra_hash_keys. destruct (last (mm_features r)) as [f|] eqn:Hl; [|eauto].
    case_decide; [eauto|]. destruct (mm_features r) as [|g feats]; [done|].
    pose proof (len_nonneg feats). rewrite len_cons.
    destruct Hi as [-> | ->];
      [rewrite (decide_False (P := 0 < 0)) by lia
      |rewrite (decide_True (P := -1 < 0)), decide_True by lia]; cbn [mbind res_bind];
      match goal with |- context [Ok ?x] => destruct x; eauto end. }
  cbn [mbind res_bind]. destruct (prompt_embeds_keys_spec sha256 r s e Hm) as (r' & -> & Hr').
  destruct (_ ++ _); eauto.
Qed.

Record partial_call_ok (p : BlockPool) (r : Request) (b : nat) (nt gid bsz : Z) : Prop := {
  pc_hbs : 0 < hash_block_size p < bsz;
  pc_bsz : bsz mod hash_block_size p = 0;
  pc_partial : nt mod bsz ≠ 0;
  pc_boundary : nt mod hash_block_size p = 0;
  pc_hashed : 0 < nt // hash_block_size p ≤ len (block_hashes r);
  pc_gid : 0 ≤ gid < 2 ^ 32;
  pc_block : 0 < Z.of_nat b < num_gpu_blocks p;
  pc_memo : enable_kv_cache_events p = true → memo_ok sha256 r
}.

(** Only block [b] changed its cache entries; a full block can still replace them. *)
Record tail_changed (p : BlockPool) (b : nat) (key : bytes) (nt : Z) (p' : BlockPool) : Prop := {
  tc_alloc : alloc_same p p';
  tc_wf : cache_wf p';
  tc_keys k : holds_key p' b k → k = key ∨ holds_key p b k;
  tc_others j k : j ≠ b → holds_key p' j k ↔ holds_key p j k;
  tc_hash j : j ≠ b → _block_hash (blk p' j) = _block_hash (blk p j) ∧
    _block_hash_num_tokens (blk p' j) = _block_hash_num_tokens (blk p j);
  tc_promotable n : nt < n → promotable p b n → promotable p' b n
}.

Lemma tail_unchanged p b key nt : cache_wf p → tail_changed p b key nt p.
Proof. intros Hc. split; try done. auto. Qed.

Lemma tail_removed p b key nt p1 : hashes_removed p b p1 → tail_changed p b key nt p1.
Proof.
  intros [Ha Hw Hk Hh Ht _]. split; try done.
  - intros k Hkb. apply Hk in Hkb. tauto.
  - intros j k Hj. rewrite Hk. tauto.
  - intros j Hj. by rewrite Hh, Ht, !decide_False.
  - intros n _ _. left. by rewrite Hh, decide_True.
Qed.

Lemma tail_added p b key nt p1 p2 :
  tail_changed p b key nt p1 → key_added p1 key b (Some nt) p2 → tail_changed p b key nt p2.
Proof.
  intros [Ha1 Hw1 Hk1 Ho1 Hh1 Hp1] [Ha2 Hw2 Hk2 Hh2 Ht2 _]. split; [by etrans|done|..].
  - intros k [Hk|[_ ->]]%Hk2; auto.
  - intros j k Hj. rewrite Hk2, Ho1 by done. naive_solver.
  - intros j Hj. rewrite Hh2, Ht2, !decide_False by naive_solver. auto.
  - intros n Hn Hp. right. rewrite Ht2. destruct (decide (b = b ∧ _block_hash (blk p1 b) = None)) as [|Hd]; [eauto|].
    destruct (Hp1 n Hn Hp) as [?|?]; [tauto|done].
Qed.

Lemma tail_log p b key nt p1 p2 :
  tail_changed p b key nt p1 → log_only p1 p2 → tail_changed p b key nt p2.
Proof.
  intros [Ha1 Hw1 Hk1 Ho1 Hh1 Hp1] [Ha2 Hc2]. split; [by etrans|by eapply cache_wf_same|..].
  - intros k. rewrite (holds_key_same p1 p2) by done. auto.
  - intros j k. rewrite (holds_key_same p1 p2) by done. auto.
  - intros j Hj. rewrite (cs_hash _ _ Hc2), (cs_tokens _ _ Hc2). auto.
  - intros n Hn Hp. unfold promotable. rewrite (cs_hash _ _ Hc2), (cs_tokens _ _ Hc2). by apply Hp1.
Qed.

(** After [cache_partial_block] the block is found under the hash of the partial prefix;
    no other block's entries change, and of its own only outdated ones go. *)
Lemma cache_partial_block_spec p l r b nt gid bsz :
  alloc_wf p l → cache_wf p → partial_call_ok p r b nt gid bsz →
  let key := (block_hashes r !!! Z.to_nat (nt // hash_block_size p - 1)) ++ be_bytes 4 gid in
  wp (cache_partial_block use_int sha256 r b nt gid bsz) (λ res p',
    res.1 = Some key ∧ tail_changed p b key nt p' ∧ holds_key p' b key ∧
    (res.2 = r ∨ remembers sha256 r res.2)) p.
Proof.
  intros Ha Hc [Hhbs Hbsz Hpart Hbound Hhashed Hgid Hb Hmemo] key.
  unfold cache_partial_block. do 2 wp_step.
  assert (is_null (blk p b) = false) as ->.
  { apply not_true_is_false. rewrite (wf_null _ _ Ha). unfold null_block. lia. }
  do 4 wp_step. { apply bool_decide_eq_true_2. lia. }
  do 2 wp_step. { by apply bool_decide_eq_true_2. }
  do 2 wp_step. { by apply bool_decide_eq_true_2. }
  destruct (index_in_range (block_hashes r) (nt // hash_block_size p - 1)) as (h & Hh & Hh'); [lia|].
  apply wp_bind. eapply wp_lift.
  { unfold _get_partial_block_hash. rewrite decide_True by done. cbv zeta.
    rewrite decide_True by done. exact Hh. }
  cbv zeta. apply wp_bind. eapply wp_lift; [by apply make_block_hash_spec|].
  assert (key = h ++ be_bytes 4 gid) as <-.
  { unfold key. by rewrite (list_lookup_total_correct _ _ _ Hh'). }
  do 2 wp_step. set (already := bool_decide (_block_hash (blk p b) = Some key) || _).
  assert (nt // hash_block_size p * hash_block_size p = nt) as ->.
  { pose proof (Z.div_mod nt (hash_block_size p)). lia. }
  apply wp_bind. match goal with |- wp ?m ?Q p => assert (wp m (λ _ p1, tail_changed p b key nt p1) p) as Hrem end.
  { destruct (_block_hash (blk p b)); [|by apply wp_ret, tail_unchanged].
    destruct (_block_hash_num_tokens (blk p b)) as [n0|]; [|by apply wp_ret, tail_unchanged].
    destruct (_ && _); [|by apply wp_ret, tail_unchanged]. apply wp_bind.
    eapply wp_mono; [by apply remove_cached_block_hashes_spec|].
    intros ks p1 (_ & Hrm & _). eapply wp_mono; [apply emit_removed_spec|]. intros u p2 [Hlog _].
    eapply tail_log; [by apply tail_removed|done]. }
  eapply wp_mono; [exact Hrem|]. intros u p1 Ht1. apply wp_bind.
  eapply wp_mono; [apply insert_block_hash_spec; [apply Ht1|]|].
  { by rewrite (cfg_num _ _ (as_config _ _ (tc_alloc _ _ _ _ _ Ht1))). }
  intros u' p2 Hadd. pose proof (tail_added _ _ _ _ _ _ Ht1 Hadd) as Ht2.
  assert (holds_key p2 b key) as Hkb by (apply (ka_keys _ _ _ _ _ Hadd); by right). do 2 wp_step.
  case_decide as Hev; [apply wp_ret; split_and!; [done..|by left]|].
  rewrite (cfg_events _ _ (as_config _ _ (tc_alloc _ _ _ _ _ Ht2))) in Hev.
  assert (enable_kv_cache_events p = true) as Hen by (destruct (enable_kv_cache_events p); tauto).
  assert (∃ parent, _get_partial_block_parent_hash_and_start (hash_block_size p) r nt = Ok parent)
    as [[parent start] Hparent].
  { unfold _get_partial_block_parent_hash_and_start. cbv zeta. case_decide; [|eauto].
    destruct (index_in_range (block_hashes r) (nt // hash_block_size p - 2)) as (h2 & -> & _); [lia|].
    cbn. eauto. }
  apply wp_bind. eapply wp_lift; [exact Hparent|]. cbv beta iota zeta.
  destruct (extra_keys_total r start nt (if decide (start > 0) then -1 else 0))
    as (ks & i' & r' & Hgen & Hr'); [by apply Hmemo|case_decide; auto|].
  apply wp_bind. eapply wp_lift; [exact Hgen|]. cbv beta iota. unfold emit. wp_steps.
  set (p3 := p2 <| kv_event_queue ::= _ |>).
  assert (log_only p2 p3) as Hlog by done.
  split; [done|]. split; [by eapply tail_log|]. split; [|by right].
  apply (holds_key_same p2 p3); [apply Hlog|done].
Qed.

(** ** Events for reused blocks *)

Lemma emit_cached_events_spec p r n c gid :
  0 < hash_block_size p → 0 < c → 0 ≤ n ≤ len (block_hashes r) // c →
  memo_ok sha256 r → mm_sorted (mm_features r) →
  wp (emit_cached_block_events use_int sha256 r n (c * hash_block_size p) gid)
    (λ r' p', log_only p p' ∧ remembers sha256 r r') p.
Proof.
  intros Hhbs Hc Hn Hm Hs. unfold emit_cached_block_events. do 2 wp_step. case_decide.
  { apply wp_ret. split; [by split|by apply remembers_refl]. }
  do 2 wp_step. destruct (resolve_spec (block_hashes r) (hash_block_size p) c)
    as (HS & HHS & _ & HHget & _); [done..|].
  apply wp_bind. eapply wp_lift; [exact HHS|]. apply wp_bind. eapply wp_mono.
  { apply (wp_for_acc (λ pre acc p', p' = p ∧ remembers sha256 r acc.2 ∧
      mm_idx_ok (mm_features r) (len pre * (c * hash_block_size p)) acc.1.2)).
    - split_and!; [done|by apply remembers_refl|]. simpl. split; [|constructor].
      right. pose proof (len_nonneg (mm_features r)). lia.
    - intros pre x post [[[hs ks] idx] r'] p' Heq (-> & Hr & Hi). cbn in Hr, Hi. cbv beta iota zeta.
      assert (0 ≤ x < n) as Hx. { apply elem_of_range. rewrite Heq. set_solver. }
      apply range_nth in Heq. rewrite Z.add_0_l in Heq.
      destruct (index_in_range (block_hashes r) (hash_pos c x)) as (h & Hh & _).
      { apply hash_pos_bound; lia. }
      apply wp_bind. eapply wp_lift; [by rewrite HHget|]. pose proof Hr as [[mm Hreq] Hmem].
      destruct (extra_keys_spec sha256 r' (x * (c * hash_block_size p))
        (x * (c * hash_block_size p) + c * hash_block_size p) idx) as (i' & r2 & Hgen & Hi' & Hr2).
      { done. }
      { by rewrite Hreq. }
      { nia. }
      { rewrite Hreq, Heq. exact Hi. }
      apply wp_bind. eapply wp_lift; [exact Hgen|]. cbv beta iota. wp_steps.
      split_and!; [done|by eapply remembers_trans|]. cbn. rewrite Hreq in Hi'.
      rewrite len_app, <-Heq. unfold len. cbn [length].
      by replace ((x + Z.of_nat 1) * (c * hash_block_size p))
        with (x * (c * hash_block_size p) + c * hash_block_size p) by lia. }
  intros [[[hs ks] idx] r'] p' (-> & Hr & _). cbv beta iota. cbn in Hr.
  destruct hs; [apply wp_ret; split; [by split|done]|]. unfold emit. wp_steps. split; [by split|done].
Qed.

(** ** The pool as a transition system *)

Inductive pool_call :=
  | CNewBlocks (n : Z)
  | CTouch (bs : list nat)
  | CFree (bs : list nat)
  | CCacheFull (r : Request) (blocks : list nat) (nc nf c gid : Z) (mask : option (list bool))
  | CCachePartial (r : Request) (b : nat) (nt gid bsz : Z)
  | CEmitCached (r : Request) (n c gid : Z)
  | CMove (src dst : nat)
  | CEvict (ids : gset Z)
  | CReset
  | CTakeEvents.

Definition run_call (call : pool_call) : P unit :=
  match call with
  | CNewBlocks n => _ ← get_new_blocks use_int n; mret tt
  | CTouch bs => touch bs
  | CFree bs => free_blocks bs
  | CCacheFull r blocks nc nf c gid mask =>
      hbs ← gets hash_block_size;
      _ ← cache_full_blocks use_int sha256 r blocks nc nf (c * hbs) gid mask; mret tt
  | CCachePartial r b nt gid bsz =>
      _ ← cache_partial_block use_int sha256 r b nt gid bsz; mret tt
  | CEmitCached r n c gid =>
      hbs ← gets hash_block_size;
      _ ← emit_cached_block_events use_int sha256 r n (c * hbs) gid; mret tt
  | CMove src dst => move_block_hashes src dst
  | CEvict ids => evict_blocks use_int ids
  | CReset => _ ← reset_prefix_cache; mret tt
  | CTakeEvents => _ ← take_events; mret tt
  end.

(** What the callers of the pool guarantee. *)
Definition call_ok (p : BlockPool) (call : pool_call) : Prop :=
  match call with
  | CNewBlocks n => 0 ≤ n ≤ get_num_free_blocks p
  | CTouch bs => ∀ i, i ∈ bs → Z.of_nat i < num_gpu_blocks p
  | CFree bs => (∀ i, i ∈ bs → Z.of_nat i < num_gpu_blocks p) ∧
      ∀ i, i ≠ null_block → occ i bs ≤ ref_cnt (blk p i)
  | CCacheFull r blocks nc nf c gid mask => cache_call_ok sha256 p r blocks nc nf c gid mask
  | CCachePartial r b nt gid bsz => partial_call_ok p r b nt gid bsz
  | CEmitCached r n c gid => 0 < hash_block_size p ∧ 0 < c ∧ 0 ≤ n ≤ len (block_hashes r) // c ∧
      memo_ok sha256 r ∧ mm_sorted (mm_features r)
  | CMove src dst => 0 < Z.of_nat dst < num_gpu_blocks p ∧ _block_hash (blk p dst) = None
  | CEvict ids => ∀ i, i ∈ ids → 0 ≤ i < num_gpu_blocks p
  | CReset | CTakeEvents => True
  end.

Definition pool_wf (p : BlockPool) : Prop := (∃ l, alloc_wf p l) ∧ cache_wf p.

Lemma pool_wf_hash p p' : pool_wf p → alloc_same p p' → cache_wf p' → pool_wf p'.
Proof. intros [[l Hl] _] Ha Hc. split; [exists l; by eapply alloc_wf_same|done]. Qed.

Lemma pool_wf_log p p' : pool_wf p → log_only p p' → pool_wf p'.
Proof. intros Hp [Ha Hc]. eapply pool_wf_hash; [done|done|]. eapply cache_wf_same, Hp. done. Qed.

Lemma run_call_wf p call :
  pool_wf p → call_ok p call → wp (run_call call) (λ _, pool_wf) p.
Proof.
  intros Hp Hok. pose proof Hp as [[l Ha] Hc].
  destruct call as [n|bs|bs|r blocks nc nf c gid mask|r b nt gid bsz|r n c gid|src dst|ids| |];
    cbn [run_call call_ok] in *; wp_steps.
  - eapply wp_mono; [apply (get_new_blocks_spec use_int p l); [done|done|]|].
    + unfold get_num_free_blocks in Hok. by rewrite <-(repr_num _ _ (wf_queue _ _ Ha)).
    + intros bs p' [_ []]. wp_steps. split; eauto.
  - eapply wp_mono; [by apply touch_spec|]. intros u p' []. split; [eauto|by eapply cache_wf_same].
  - destruct Hok. eapply wp_mono; [by apply free_blocks_spec|].
    intros u p' []. split; [eauto|by eapply cache_wf_same].
  - eapply wp_mono; [by eapply cache_full_blocks_spec|]. intros r' p' [[] _]. wp_steps.
    by eapply pool_wf_hash.
  - eapply wp_mono; [by eapply cache_partial_block_spec|].
    intros r' p' (_ & [] & _). wp_steps. by eapply pool_wf_hash.
  - destruct Hok as (? & ? & ? & ? & ?). eapply wp_mono; [by apply emit_cached_events_spec|].
    intros r' p' [? _]. wp_steps. by eapply pool_wf_log.
  - destruct Hok. eapply wp_mono; [by apply move_block_hashes_spec|].
    intros u p' (? & ? & _). by eapply pool_wf_hash.
  - eapply wp_mono; [by apply evict_blocks_spec|]. intros u p' (? & ? & _). by eapply pool_wf_hash.
  - eapply wp_mono; [by eapply reset_prefix_cache_spec|]. intros u p' (_ & ? & ? & _). wp_steps.
    by eapply pool_wf_hash.
  - unfold take_events. wp_steps. destruct (enable_kv_cache_events p); cbn [negb]; wp_steps; [|done].
    eapply pool_wf_log; [done|]. by split.
Qed.

(** One call that satisfies its precondition. *)
Inductive pool_step : BlockPool → BlockPool → Prop :=
  | pool_step_call p call p' :
      call_ok p call → run_call call p = Ok (tt, p') → pool_step p p'.

Lemma pool_steps_wf p p' : rtc pool_step p p' → pool_wf p → pool_wf p'.
Proof.
  induction 1 as [|p p1 p' Hstep _ IH]; [done|]. intros Hp. apply IH.
  destruct Hstep as [p call p1 Hok Hrun]. pose proof (run_call_wf p call Hp Hok) as Hwp.
  unfold wp in Hwp. by rewrite Hrun in Hwp.
Qed.
End pool_theorems.

Lemma new_pool_wf n caching hbs events mc pid p :
  new_BlockPool n caching hbs events mc pid = Ok p → pool_wf p.
Proof.
  intros Hnew. destruct (decide (0 < n)) as [Hn|Hn].
  - destruct (new_BlockPool_spec n caching hbs events mc pid Hn) as (p' & Hp' & Ha & Hc & _).
    rewrite Hp' in Hnew. injection Hnew as <-. split; eauto.
  - unfold new_BlockPool in Hnew. by rewrite decide_False in Hnew by lia.
Qed.

(** ** Main theorems *)

Section statements.
Context `{SetIter}.
Variable use_int : bool.
Variable sha256 : list (list Z) → bytes.

(** C8: the pool's invariant.  From a freshly built pool, after any calls whose arguments
    are legal, the doubly linked free queue holds each unreferenced proper block exactly
    once and no other block, its counter is their number, no reference count of a proper
    block is negative, the hash map finds a block under exactly the keys recorded on the
    block itself, and the null block is never cached or free. *)
Theorem pool_invariant n caching hbs events mc pid p0 p :
  new_BlockPool n caching hbs events mc pid = Ok p0 →
  rtc (pool_step use_int sha256) p0 p →
  ∃ l, queue_repr (free_block_queue p) l ∧ get_num_free_blocks p = len l ∧
    (∀ i, i ∈ l ↔ 0 < Z.of_nat i < num_gpu_blocks p ∧ ref_cnt (blk p i) = 0) ∧
    (∀ i, i ≠ null_block → 0 ≤ ref_cnt (blk p i)) ∧
    (∀ k i, contain (cached_block_hash_to_block p) k i = true ↔ holds_key p i k) ∧
    (∀ i, _block_hash (blk p i) ≠ None → 0 < Z.of_nat i < num_gpu_blocks p).
Proof.
  intros Hnew Hsteps.
  pose proof (new_pool_wf _ _ _ _ _ _ _ Hnew) as Hp0.
  destruct (pool_steps_wf use_int sha256 p0 p Hsteps Hp0) as [[l [Hq _ Hf _ Hr]] [_ Hk _ _ Hh]].
  exists l. split_and!; try done. apply (repr_num _ _ Hq).
Qed.

(** C14: legal calls succeed.  In every state that is reachable by legal calls, a further
    legal call returns: no assertion of the pool fires, no queue operation raises, and the
    state stays reachable. *)
Theorem pool_calls_succeed n caching hbs events mc pid p0 p call :
  new_BlockPool n caching hbs events mc pid = Ok p0 →
  rtc (pool_step use_int sha256) p0 p → call_ok sha256 p call →
  ∃ p', run_call use_int sha256 call p = Ok (tt, p') ∧ rtc (pool_step use_int sha256) p0 p'.
Proof.
  intros Hnew Hsteps Hok.
  pose proof (new_pool_wf _ _ _ _ _ _ _ Hnew) as Hp0.
  pose proof (pool_steps_wf use_int sha256 p0 p Hsteps Hp0) as Hp.
  pose proof (run_call_wf use_int sha256 p call Hp Hok) as ([] & p' & Hrun & _)%wp_run.
  exists p'. split; [done|]. eapply rtc_r; [done|]. by econstructor.
Qed.

(** Allocation is exclusive and evicts in queue order.  [get_new_blocks n] returns the
    first [n] blocks of the free queue: distinct proper blocks that nobody referenced, now
    referenced once; with caching on they lose every cache entry, and exactly these entries
    are announced as removed; no other block's count or entries change.  Asking for more
    blocks than are free raises ValueError. *)
Lemma get_new_blocks_exclusive p l n :
  alloc_wf p l → cache_wf p → 0 ≤ n →
  (len l < n → get_new_blocks use_int n p = Raise ValueError) ∧
  (n ≤ len l → ∃ p', get_new_blocks use_int n p = Ok (take (Z.to_nat n) l, p') ∧
    alloc_wf p' (drop (Z.to_nat n) l) ∧
    (∀ i, i ∈ take (Z.to_nat n) l →
       0 < Z.of_nat i < num_gpu_blocks p ∧ ref_cnt (blk p i) = 0 ∧ ref_cnt (blk p' i) = 1 ∧
       (enable_caching p = true → ∀ k, ¬ holds_key p' i k)) ∧
    (∀ i, i ∉ take (Z.to_nat n) l →
       ref_cnt (blk p' i) = ref_cnt (blk p i) ∧ ∀ k, holds_key p' i k ↔ holds_key p i k) ∧
    kv_event_queue p' = kv_event_queue p ++
      (if enable_caching p && enable_kv_cache_events p
       then (i ← take (Z.to_nat n) l; removed_event use_int <$> keys_of p i) else [])).
Proof.
  intros Ha Hc Hn. split; [by apply get_new_blocks_too_many|]. intros Hle.
  pose proof (get_new_blocks_spec use_int p l n Ha Hc (conj Hn Hle))
    as (bs & p' & Hrun & -> & [Hcfg Ha' Hc' Hr Hf Hk Hh Hev])%wp_run.
  exists p'. split_and!; [done|done| | |done].
  - intros i Hi. assert (i ∈ l) as Hil by (rewrite <-(take_drop (Z.to_nat n) l); set_solver).
    apply (wf_free _ _ Ha) in Hil as [? ?]. rewrite Hr, decide_True by done. split_and!; try done; try lia.
    intros Hen k. rewrite Hk. tauto.
  - intros i Hi. rewrite Hr, decide_False by done. split; [done|]. intros k. rewrite Hk. tauto.
Qed.

(** Allocating and releasing restores the free list, order included: with caching on,
    [get_new_blocks n] followed by [free_blocks] of the returned blocks leaves every
    reference count as before and the free queue as it was. *)
Lemma alloc_free_restores p l n :
  alloc_wf p l → cache_wf p → enable_caching p = true → 0 ≤ n ≤ len l →
  ∃ bs p1 p2, get_new_blocks use_int n p = Ok (bs, p1) ∧ free_blocks bs p1 = Ok (tt, p2) ∧
    alloc_wf p2 l ∧ ∀ i, ref_cnt (blk p2 i) = ref_cnt (blk p i).
Proof.
  intros Ha Hc Hen Hn.
  pose proof (get_new_blocks_spec use_int p l n Ha Hc Hn)
    as (bs & p1 & Hrun & -> & [Hcfg Ha1 Hc1 Hr Hf Hk Hh Hev])%wp_run.
  set (bs := take (Z.to_nat n) l) in *.
  assert (NoDup bs) as Hnd.
  { eapply sublist_NoDup; [apply (repr_NoDup _ _ (wf_queue _ _ Ha))|]. apply sublist_take. }
  assert (∀ i, i ∈ bs → i ∈ l) as Hsub.
  { intros i Hi. rewrite <-(take_drop (Z.to_nat n) l). set_solver. }
  pose proof (free_blocks_spec p1 (drop (Z.to_nat n) l) bs Ha1) as Hfree.
  apply wp_run in Hfree as ([] & p2 & Hrun2 & [Ha2 _ Hr2 _]).
  - exists bs, p1, p2. split_and!; [done|done| |].
    + assert (free_list_after p1 (drop (Z.to_nat n) l) bs = l) as <-; [|done].
      unfold free_list_after. rewrite freed_NoDup by done.
      assert (∀ i, i ∈ bs → evict_first p1 i) as Hev1 by (intros i Hi; left; by apply Hf).
      rewrite (filter_all (λ i, ref_cnt (blk p1 i) = 1 ∧ i ≠ null_block)).
      2:{ intros i Hi. rewrite Hr, decide_True by done. split; [done|].
          apply Hsub, (wf_free _ _ Ha) in Hi. unfold null_block. lia. }
      rewrite filter_all by done.
      assert (filter (λ i, ¬ evict_first p1 i) bs = []) as ->.
      { clear -Hev1. induction bs as [|i bs IH]; [done|].
        rewrite filter_cons_False; [apply IH; set_solver|]. intros Hno. apply Hno, Hev1. by left. }
      rewrite app_nil_r. apply take_drop.
    + intros i. rewrite Hr2, Hr, (occ_NoDup i bs Hnd). case_decide as Hi; [|lia].
      apply Hsub, (wf_free _ _ Ha) in Hi. lia.
  - intros i Hi. apply Hsub, (wf_free _ _ Ha) in Hi. rewrite (cfg_num _ _ Hcfg). lia.
  - intros i Hi. rewrite Hr, (occ_NoDup i bs Hnd). case_decide; [lia|].
    apply (wf_ref _ _ Ha i Hi).
Qed.

(** releasing blocks.  When no proper block is released more often than it is
    referenced, [free_blocks] returns, each count drops by the block's number of
    occurrences, and the blocks that reach zero join the free queue: those without a cache
    entry at the front, to be reused first, the cached ones at the end, to be evicted last,
    each in the order given; cache entries are untouched, so a freed block can still be
    hit. *)
Lemma free_blocks_order p l bs :
  alloc_wf p l → enable_caching p = true → NoDup bs →
  (∀ i, i ∈ bs → 0 < Z.of_nat i < num_gpu_blocks p ∧ 0 < ref_cnt (blk p i)) →
  ∃ p', free_blocks bs p = Ok (tt, p') ∧ cache_same p p' ∧
    (∀ i, ref_cnt (blk p' i) = ref_cnt (blk p i) - occ i bs) ∧
    alloc_wf p'
      (filter (λ i, _block_hash (blk p i) = None) (filter (λ i, ref_cnt (blk p i) = 1) bs) ++ l ++
       filter (λ i, _block_hash (blk p i) ≠ None) (filter (λ i, ref_cnt (blk p i) = 1) bs)).
Proof.
  intros Ha Hen Hnd Hbs.
  assert (∀ i, i ≠ null_block → occ i bs ≤ ref_cnt (blk p i)) as Hle.
  { intros i Hi. rewrite (occ_NoDup i bs Hnd). case_decide as Hin; [apply Hbs in Hin; lia|].
    apply (wf_ref _ _ Ha i Hi). }
  pose proof (free_blocks_spec p l bs Ha) as Hfree.
  apply wp_run in Hfree as ([] & p' & Hrun & [Ha' Hc' Hr _]); [|intros i Hi; by apply Hbs|done].
  exists p'. split_and!; [done..|].
  unfold free_list_after in Ha'. rewrite (freed_NoDup _ _ Hnd) in Ha'.
  assert (filter (λ i, ref_cnt (blk p i) = 1 ∧ i ≠ null_block) bs =
          filter (λ i, ref_cnt (blk p i) = 1) bs) as Heq.
  { clear -Hbs. induction bs as [|i bs IH]; [done|]. rewrite !filter_cons, IH by set_solver.
    assert (i ≠ null_block) by (destruct (Hbs i) as [? _]; [by left|unfold null_block; lia]).
    destruct (decide (ref_cnt (blk p i) = 1 ∧ i ≠ null_block)), (decide (ref_cnt (blk p i) = 1));
      tauto. }
  assert (∀ i, evict_first p i ↔ _block_hash (blk p i) = None) as Hev.
  { intros i. unfold evict_first. rewrite Hen. intuition congruence. }
  rewrite Heq, (list_filter_iff (evict_first p) (λ i, _block_hash (blk p i) = None)) in Ha' by done.
  rewrite (list_filter_iff (λ i, ¬ evict_first p i) (λ i, _block_hash (blk p i) ≠ None)) in Ha';
    [done|]. intros i. by rewrite Hev.
Qed.

(** What was cached is found.  After [cache_full_blocks] over positions [nc, nf) of a
    request's block table, looking up the hash of any position that is neither null nor
    masked out, in the group it was cached for, hits, and every block it may return owns
    that key. *)
Lemma cached_blocks_are_found p l r blocks nc nf c gid mask :
  alloc_wf p l → cache_wf p → cache_call_ok sha256 p r blocks nc nf c gid mask →
  ∃ r' p', cache_full_blocks use_int sha256 r blocks nc nf (c * hash_block_size p) gid mask p
           = Ok (r', p') ∧
    ∀ i b, slice blocks nc nf !! i = Some b → selected p mask (i, b) →
      ∃ h b', block_hashes r !! Z.to_nat (hash_pos c (nc + Z.of_nat i)) = Some h ∧
        get_cached_block p' h [gid] = Ok (Some [b']) ∧ holds_key p' b' (h ++ be_bytes 4 gid) ∧
        holds_key p' b (h ++ be_bytes 4 gid).
Proof.
  intros Ha Hc Hok.
  pose proof (cache_full_blocks_spec use_int sha256 p l r blocks nc nf c gid mask Ha Hc Hok)
    as (r' & p' & Hrun & [Ha' Hw' Hk' _ _] & _)%wp_run.
  exists r', p'. split; [done|]. intros i b Hb Hsel. destruct Hok as [Hhbs Hs Hrg Hl Hhs Hg _ _ _ _].
  assert (Z.of_nat i < nf - nc).
  { apply lookup_lt_Some in Hb. rewrite slice_in, length_take in Hb by lia. lia. }
  destruct (index_in_range (block_hashes r) (hash_pos c (nc + Z.of_nat i))) as (h & _ & Hh).
  { apply hash_pos_bound; lia. }
  assert (holds_key p' b (h ++ be_bytes 4 gid)) as Hkey.
  { apply Hk'. left. exists i. split_and!; [by apply elem_of_imap_pair|done|].
    unfold block_key. by rewrite (list_lookup_total_correct _ _ _ Hh). }
  pose proof (get_cached_block_spec p' h [gid] Hw') as Hget.
  specialize (Hget (Forall_cons_2 _ _ _ Hg (Forall_nil_2 _))).
  destruct (get_cached_block p' h [gid]) as [[bs|]|e] eqn:Hgc; [| |done].
  - apply Forall2_cons_inv_l in Hget as (b' & bs' & Hb' & Hnil & ->).
    apply Forall2_nil_inv_l in Hnil as ->. exists h, b'. by split_and!.
  - destruct Hget as (g & ->%list_elem_of_singleton & Hno). by destruct (Hno b).
Qed.

(** [reset_prefix_cache] succeeds exactly when no proper block is referenced; then every
    later lookup misses, with all blocks still free.  Otherwise it returns False and changes
    nothing. *)
Lemma reset_clears_cache p l :
  alloc_wf p l → cache_wf p →
  ∃ b p', reset_prefix_cache p = Ok (b, p') ∧ alloc_wf p' l ∧
    (b = true ↔ ∀ i, 0 < Z.of_nat i < num_gpu_blocks p → ref_cnt (blk p i) = 0) ∧
    (b = true → ∀ h gid gids, Forall (λ g, 0 ≤ g < 2 ^ 32) (gid :: gids) →
       get_cached_block p' h (gid :: gids) = Ok None) ∧
    (b = false → p' = p).
Proof.
  intros Ha Hc.
  pose proof (reset_prefix_cache_spec p l Ha Hc)
    as (b & p' & Hrun & Hiff & Ha' & Hw' & Hno & Hsame)%wp_run.
  exists b, p'. split_and!; [done|by eapply alloc_wf_same|done| |done].
  intros Hb h gid gids Hg. pose proof (get_cached_block_spec p' h (gid :: gids) Hw' Hg) as Hget.
  destruct (get_cached_block p' h (gid :: gids)) as [[bs|]|e]; [|done|done].
  apply Forall2_cons_inv_l in Hget as (b' & bs' & Hb' & _). by destruct (Hno Hb b' (h ++ be_bytes 4 gid)).
Qed.

(** A cache hit is sound: every block that [get_cached_block] returns is a proper block
    of the pool that owns the packed key of its group, and a miss means that for some group
    no block owns it. *)
Lemma get_cached_block_exact p l h gids :
  alloc_wf p l → cache_wf p → Forall (λ g, 0 ≤ g < 2 ^ 32) gids →
  (∃ bs, get_cached_block p h gids = Ok (Some bs) ∧
     Forall2 (λ g b, 0 < Z.of_nat b < num_gpu_blocks p ∧
                     ∃ k, make_block_hash_with_group_id h g = Ok k ∧ holds_key p b k) gids bs) ∨
  (get_cached_block p h gids = Ok None ∧
     ∃ g k, g ∈ gids ∧ make_block_hash_with_group_id h g = Ok k ∧ ∀ b, ¬ holds_key p b k).
Proof.
  intros Ha Hc Hg. pose proof (get_cached_block_spec p h gids Hc Hg) as Hget.
  rewrite Forall_forall in Hg.
  destruct (get_cached_block p h gids) as [[bs|]|e]; [left|right|done].
  - exists bs. split; [done|]. apply Forall2_same_length_lookup in Hget as [Hlen Hget].
    apply Forall2_same_length_lookup. split; [done|]. intros i g b Hi Hb.
    specialize (Hget i g b Hi Hb). split.
    + apply (wf_hashed p Hc). intros Hn. destruct (wf_unhashed p Hc b Hn) as [_ Hx].
      destruct Hget as [|(X & HX & _)]; congruence.
    + eexists. split; [|done]. apply make_block_hash_spec, Hg. by eapply list_elem_of_lookup_2.
  - split; [done|]. destruct Hget as (g & Hin & Hno). exists g, (h ++ be_bytes 4 g).
    split_and!; [done| |done]. apply make_block_hash_spec, Hg, Hin.
Qed.
End statements.

(** ** The theorems at concrete pools *)

Definition demo_pool : BlockPool :=
  match new_BlockPool 4 true 4 true None 0 with
  | Ok p => p
  | Raise _ => mkBlockPool 0 false 0 0 (mkQueue ∅ 0) ∅ ∅ false [] None
  end.

(** After two blocks were allocated. *)
Definition demo_pool_2 : BlockPool :=
  match get_new_blocks (H := elements_iter) false 2 demo_pool with
  | Ok (_, p) => p
  | Raise _ => demo_pool
  end.

Lemma demo_pool_new : new_BlockPool 4 true 4 true None 0 = Ok demo_pool.
Proof. vm_compute. reflexivity. Qed.

Lemma demo_pool_steps :
  rtc (pool_step (H := elements_iter) false (λ _, [])) demo_pool demo_pool_2.
Proof.
  apply rtc_once. apply (pool_step_call _ _ _ (CNewBlocks 2)); [vm_compute; by split|].
  vm_compute. reflexivity.
Qed.

Lemma demo_pool_wf : alloc_wf demo_pool [1; 2; 3]%nat ∧ cache_wf demo_pool.
Proof.
  destruct (new_BlockPool_spec 4 true 4 true None 0) as (p & Hp & Ha & Hc & _); [lia|].
  rewrite demo_pool_new in Hp. injection Hp as <-. done.
Qed.

Lemma demo_pool_2_wf : alloc_wf demo_pool_2 [3%nat].
Proof.
  destruct demo_pool_wf as [Ha Hc].
  pose proof (get_new_blocks_spec (H := elements_iter) false demo_pool [1; 2; 3]%nat 2 Ha Hc)
    as Hwp. apply wp_run in Hwp as (bs & p' & Hrun & _ & [_ Ha' _ _ _ _ _ _]);
    [|unfold len; simpl; lia].
  assert (demo_pool_2 = p') as -> by (unfold demo_pool_2; by rewrite Hrun). exact Ha'.
Qed.

Lemma pool_invariant_witness :
  ∃ l, queue_repr (free_block_queue demo_pool_2) l ∧ get_num_free_blocks demo_pool_2 = len l ∧
    (∀ i, i ∈ l ↔ 0 < Z.of_nat i < 4 ∧ ref_cnt (blk demo_pool_2 i) = 0).
Proof.
  destruct (pool_invariant (H := elements_iter) false (λ _, []) 4 true 4 true None 0
    demo_pool demo_pool_2 demo_pool_new demo_pool_steps) as (l & Hq & Hn & Hf & _).
  exists l. split_and!; [exact Hq|exact Hn|exact Hf].
Defined.

Lemma pool_calls_succeed_witness :
  ∃ p', run_call (H := elements_iter) false (λ _, []) (CFree [2%nat]) demo_pool_2 = Ok (tt, p').
Proof.
  destruct (pool_calls_succeed (H := elements_iter) false (λ _, []) 4 true 4 true None 0
    demo_pool demo_pool_2 (CFree [2%nat]) demo_pool_new demo_pool_steps) as (p' & Hp' & _).
  - split.
    + intros i ->%list_elem_of_singleton. vm_compute. done.
    + intros i Hi. rewrite occ_cons, occ_nil. case_decide as Hi2; [subst; vm_compute; done|].
      apply (wf_ref _ _ demo_pool_2_wf i Hi).
  - by exists p'.
Defined.

