(* ===== verification/Heapq.v ===== *)
(** * Binary heaps of Python's [heapq]

    [heappush], [heappop] and [heapify] over a list, as CPython's heapq.py has
    them, for any comparison; used by the priority queue of requests.  The loops
    carry fuel: a position moves up at most as many times as its index, and down
    at most as many times as the heap has elements. *)

From S2P Require Import Prelude.

Section heapq.
Context {A : Type} `{Inhabited A}.
(** [x < y] *)
Variable ltb : A → A → bool.

(** [(pos - 1) >> 1] *)
Definition parent (pos : nat) : nat := Nat.div2 (pos - 1).

Fixpoint siftdown_loop (fuel : nat) (heap : list A) (startpos pos : nat) (newitem : A) :
    list A * nat :=
  match fuel with
  | O => (heap, pos)
  | S fuel =>
      if decide (startpos < pos)%nat then
        let parentpos := parent pos in
        let par := heap !!! parentpos in
        if ltb newitem par
        then siftdown_loop fuel (<[pos := par]> heap) startpos parentpos newitem
        else (heap, pos)
      else (heap, pos)
  end.

Definition _siftdown (heap : list A) (startpos pos : nat) : list A :=
  let newitem := heap !!! pos in
  let '(heap, pos) := siftdown_loop (S pos) heap startpos pos newitem in
  <[pos := newitem]> heap.

Fixpoint siftup_loop (fuel : nat) (heap : list A) (pos : nat) : list A * nat :=
  match fuel with
  | O => (heap, pos)
  | S fuel =>
      let endpos := length heap in
      let childpos := (2 * pos + 1)%nat in
      if decide (childpos < endpos)%nat then
        let rightpos := S childpos in
        let childpos :=
          if decide (rightpos < endpos)%nat then
            if negb (ltb (heap !!! childpos) (heap !!! rightpos)) then rightpos else childpos
          else childpos in
        siftup_loop fuel (<[pos := heap !!! childpos]> heap) childpos
      else (heap, pos)
  end.

Definition _siftup (heap : list A) (pos : nat) : list A :=
  let startpos := pos in
  let newitem := heap !!! pos in
  let '(heap, pos) := siftup_loop (length heap) heap pos in
  let heap := <[pos := newitem]> heap in
  _siftdown heap startpos pos.

Definition heappush (heap : list A) (item : A) : list A :=
  let heap := heap ++ [item] in
  _siftdown heap 0 (length heap - 1).

(** [heap.pop()] raises on an empty list. *)
Definition heappop (heap : list A) : res (A * list A) :=
  match last heap with
  | None => Raise IndexError
  | Some lastelt =>
      let heap := take (length heap - 1) heap in
      match heap with
      | [] => Ok (lastelt, [])
      | returnitem :: _ => Ok (returnitem, _siftup (<[0%nat := lastelt]> heap) 0)
      end
  end.

Definition heapify (x : list A) : list A :=
  foldl _siftup x (reverse (seq 0 (Nat.div2 (length x)))).

(** ** The heap order *)

Definition leb (x y : A) : Prop := ltb y x = false.

(** Every parent from position [s] on is at most its children. *)
Definition heap_from (s : nat) (h : list A) : Prop :=
  ∀ i, (0 < i < length h)%nat → (s ≤ parent i)%nat → leb (h !!! parent i) (h !!! i).

Definition is_heap (h : list A) : Prop := heap_from 0 h.

Lemma parent_spec i : (0 < i)%nat → i = (2 * parent i + 1)%nat ∨ i = (2 * parent i + 2)%nat.
Proof.
  intros Hi. unfold parent. destruct i as [|i]; [lia|].
  replace (S i - 1)%nat with i by lia. pose proof (Nat.div2_odd i) as Hd.
  destruct (Nat.odd i); simpl Nat.b2n in Hd; lia.
Qed.

Lemma parent_left p : parent (2 * p + 1) = p.
Proof. unfold parent. replace (2 * p + 1 - 1)%nat with (2 * p)%nat by lia. apply Nat.div2_double. Qed.

Lemma parent_right p : parent (2 * p + 2) = p.
Proof.
  unfold parent. replace (2 * p + 2 - 1)%nat with (S (2 * p))%nat by lia.
  apply Nat.div2_succ_double.
Qed.

Lemma parent_lt i : (0 < i)%nat → (parent i < i)%nat.
Proof. intros Hi. pose proof (parent_spec i Hi). lia. Qed.

(** Position [i] lies in the subtree of [s]. *)
Inductive below (s : nat) : nat → Prop :=
  | below_root : below s s
  | below_child i : (0 < i)%nat → below s (parent i) → below s i.

Lemma below_le s i : below s i → (s ≤ i)%nat.
Proof. induction 1 as [|i Hi Hb IH]; [done|]. pose proof (parent_lt i Hi). lia. Qed.

Lemma below_parent s i : below s i → (s < i)%nat → below s (parent i).
Proof. intros [|j Hj Hb] Hlt; [lia|done]. Qed.

(** Exchanging two positions. *)
Definition swap (i j : nat) (h : list A) : list A := <[i := h !!! j]> (<[j := h !!! i]> h).

Lemma swap_length i j h : length (swap i j h) = length h.
Proof. unfold swap. by rewrite !length_insert. Qed.

Lemma swap_lookup i j h k :
  (i < length h)%nat → (j < length h)%nat →
  swap i j h !!! k = if decide (k = i) then h !!! j else if decide (k = j) then h !!! i else h !!! k.
Proof.
  intros Hi Hj. unfold swap. destruct (decide (k = i)) as [->|Hki].
  - rewrite list_lookup_total_insert_eq; [done|]. by rewrite length_insert.
  - rewrite list_lookup_total_insert_ne by done. destruct (decide (k = j)) as [->|Hkj].
    + by rewrite list_lookup_total_insert_eq.
    + by rewrite list_lookup_total_insert_ne.
Qed.

Lemma swap_perm i j h : (i < length h)%nat → (j < length h)%nat → swap i j h ≡ₚ h.
Proof.
  intros Hi Hj. destruct (decide (i = j)) as [->|Hne].
  { unfold swap. rewrite list_insert_insert_eq, list_insert_id; [done|].
    by apply list_lookup_lookup_total_lt. }
  apply (Permutation_inj (A := A)). split.
  - by rewrite swap_length.
  - exists (λ k, if decide (k = i) then j else if decide (k = j) then i else k). split.
    + intros k k'. repeat case_decide; congruence.
    + intros k. destruct (decide (k < length h)%nat) as [Hk|Hk].
      * rewrite (list_lookup_lookup_total_lt (swap i j h)) by (by rewrite swap_length).
        rewrite swap_lookup by done.
        repeat case_decide; subst; symmetry; by apply list_lookup_lookup_total_lt.
      * rewrite !lookup_ge_None_2; [done| |by rewrite swap_length; lia].
        repeat case_decide; lia.
Qed.

(** ** Sifting restores the order *)

(** [x < y] is a strict weak order. *)
Hypothesis ltb_asym : ∀ x y, ltb x y = true → ltb y x = false.
Hypothesis leb_trans : ∀ x y z, leb x y → leb y z → leb x z.

(** Only position [pos] may be out of order with its parent. *)
Definition up_ok (s pos : nat) (h : list A) : Prop :=
  (∀ i, (0 < i < length h)%nat → (s ≤ parent i)%nat → i ≠ pos → leb (h !!! parent i) (h !!! i)) ∧
  (∀ c, (0 < c < length h)%nat → parent c = pos → (s < pos)%nat →
     leb (h !!! parent pos) (h !!! c)).

Lemma up_ok_swap s pos h :
  below s pos → (s < pos < length h)%nat → up_ok s pos h →
  ltb (h !!! pos) (h !!! parent pos) = true →
  up_ok s (parent pos) (swap pos (parent pos) h).
Proof.
  intros Hb Hpos [Hok Hbr] Hlt. pose proof (parent_lt pos ltac:(lia)) as Hq.
  pose proof (below_le _ _ (below_parent _ _ Hb ltac:(lia))) as Hsq.
  apply ltb_asym in Hlt as Hle. fold (leb (h !!! pos) (h !!! parent pos)) in Hle.
  set (q := parent pos) in *. split; intros i; rewrite swap_length; intros Hi.
  - intros Hsi Hiq. pose proof (parent_lt i ltac:(lia)).
    rewrite !swap_lookup by lia.
    destruct (decide (i = pos)) as [->|Hip].
    + fold q. rewrite (decide_False (P := q = pos)), decide_True by (done || lia). done.
    + rewrite (decide_False (P := i = q)) by done.
      destruct (decide (parent i = pos)) as [Hpi|Hpi].
      * apply Hbr; [lia|done|lia].
      * destruct (decide (parent i = q)) as [Hpq|Hpq]; [|by apply Hok].
        apply (leb_trans _ (h !!! q)); [done|]. rewrite <-Hpq. by apply Hok.
  - intros Hpi Hsq'. pose proof (parent_lt q ltac:(lia)).
    rewrite !swap_lookup by lia.
    rewrite (decide_False (P := parent q = pos)), (decide_False (P := parent q = q)) by lia.
    assert (leb (h !!! parent q) (h !!! q)) as Hqq.
    { apply Hok; [lia| |lia]. apply (below_le s). apply below_parent; [|done].
      apply below_parent; [done|lia]. }
    destruct (decide (i = pos)) as [->|Hip]; [done|].
    assert (i ≠ q) by (intros ->; pose proof (parent_lt q); lia).
    rewrite decide_False by done. apply (leb_trans _ (h !!! q)); [done|].
    rewrite <-Hpi. apply Hok; lia.
Qed.

(** The loop works on the heap with the new item written at [pos]. *)
Lemma siftdown_loop_spec fuel h s pos x :
  below s pos → (pos < length h)%nat → (pos < fuel)%nat → up_ok s pos (<[pos := x]> h) →
  let '(h', pos') := siftdown_loop fuel h s pos x in
  heap_from s (<[pos' := x]> h') ∧ <[pos' := x]> h' ≡ₚ <[pos := x]> h ∧ length h' = length h.
Proof.
  revert h pos. induction fuel as [|fuel IH]; intros h pos Hb Hpos Hf Hup; [lia|]. cbn [siftdown_loop].
  set (H0 := <[pos := x]> h) in *.
  assert (length H0 = length h) as Hlen by (unfold H0; by rewrite length_insert).
  assert (H0 !!! pos = x) as Hx by (unfold H0; by rewrite list_lookup_total_insert_eq).
  assert (∀ k, k ≠ pos → H0 !!! k = h !!! k) as Hother.
  { intros k Hk. unfold H0. by rewrite list_lookup_total_insert_ne. }
  case_decide as Hs.
  2:{ split_and!; [|done|done]. assert (pos = s) as -> by (pose proof (below_le _ _ Hb); lia).
      intros i Hi Hsi. apply Hup; [done|done|]. intros ->. pose proof (parent_lt s ltac:(lia)). lia. }
  pose proof (parent_lt pos ltac:(lia)) as Hq. cbv zeta.
  rewrite <-(Hother (parent pos)) by lia. destruct (ltb x (H0 !!! parent pos)) eqn:Hlt.
  - assert (<[parent pos := x]> (<[pos := H0 !!! parent pos]> h) = swap pos (parent pos) H0) as Hsw.
    { unfold swap. rewrite Hx. generalize (H0 !!! parent pos). intros v. unfold H0.
      rewrite (list_insert_insert_ne h (parent pos) pos x v) by lia.
      rewrite (list_insert_insert_ne h (parent pos) pos x x) by lia.
      by rewrite list_insert_insert_eq. }
    specialize (IH (<[pos := H0 !!! parent pos]> h) (parent pos)).
    rewrite Hsw, length_insert in IH. destruct (siftdown_loop _ _ _ _ _) as [h' pos'].
    destruct IH as (Hh & Hp & Hl).
    + apply below_parent; [done|lia].
    + lia.
    + lia.
    + apply up_ok_swap; [done|lia|done|]. by rewrite Hx.
    + split_and!; [done| |done]. rewrite Hp. apply swap_perm; lia.
  - split_and!; [|done|done]. fold H0. intros i Hi Hsi. destruct (decide (i = pos)) as [->|Hne].
    + unfold leb. by rewrite Hx.
    + by apply Hup.
Qed.

Lemma siftdown_spec h s pos :
  below s pos → (pos < length h)%nat → up_ok s pos h →
  heap_from s (_siftdown h s pos) ∧ _siftdown h s pos ≡ₚ h.
Proof.
  intros Hb Hpos Hup. unfold _siftdown.
  assert (<[pos := h !!! pos]> h = h) as Hid.
  { apply list_insert_id. by apply list_lookup_lookup_total_lt. }
  pose proof (siftdown_loop_spec (S pos) h s pos (h !!! pos) Hb Hpos) as Hl. rewrite Hid in Hl.
  destruct (siftdown_loop _ _ _ _ _) as [h' pos']. destruct Hl as (? & ? & _); [lia|done|done].
Qed.

(** Only the children of [pos] may be out of order with it. *)
Definition down_ok (s pos : nat) (h : list A) : Prop :=
  (∀ i, (0 < i < length h)%nat → (s ≤ parent i)%nat → i ≠ pos → parent i ≠ pos →
     leb (h !!! parent i) (h !!! i)) ∧
  (∀ c, (0 < c < length h)%nat → parent c = pos → (s < pos)%nat →
     leb (h !!! parent pos) (h !!! c)).

Lemma down_ok_swap s pos c h :
  below s pos → (pos < c < length h)%nat → parent c = pos → down_ok s pos h →
  (∀ i, (0 < i < length h)%nat → parent i = pos → leb (h !!! c) (h !!! i)) →
  down_ok s c (swap pos c h).
Proof.
  intros Hb Hc Hpc [Hok Hbr] Hmin. pose proof (below_le _ _ Hb) as Hsp.
  split; intros i; rewrite swap_length; intros Hi.
  - intros Hsi Hic Hpic. pose proof (parent_lt i ltac:(lia)). rewrite !swap_lookup by lia.
    rewrite (decide_False (P := parent i = c)), (decide_False (P := i = c)) by done.
    destruct (decide (i = pos)) as [->|Hip].
    + rewrite decide_False by lia. apply Hbr; [lia|done|].
      pose proof (parent_lt pos ltac:(lia)). lia.
    + destruct (decide (parent i = pos)); [by apply Hmin|]. by apply Hok.
  - intros Hpi Hsc. rewrite !swap_lookup by lia. rewrite Hpc, (decide_True (P := pos = pos)) by done.
    assert (i ≠ pos ∧ i ≠ c) as [? ?].
    { pose proof (parent_lt i ltac:(lia)). lia. }
    rewrite !decide_False by done. rewrite <-Hpi. apply Hok; lia.
Qed.

Lemma leb_refl x : leb x x.
Proof. unfold leb. destruct (ltb x x) eqn:Hx; [|done]. by rewrite (ltb_asym x x Hx) in Hx. Qed.

(** The child that moves up. *)
Definition min_child (h : list A) (pos : nat) : nat :=
  let childpos := (2 * pos + 1)%nat in
  if decide (S childpos < length h)%nat then
    if negb (ltb (h !!! childpos) (h !!! S childpos)) then S childpos else childpos
  else childpos.

Lemma min_child_spec h pos :
  (2 * pos + 1 < length h)%nat →
  (pos < min_child h pos < length h)%nat ∧ parent (min_child h pos) = pos ∧
  ∀ i, (0 < i < length h)%nat → parent i = pos → leb (h !!! min_child h pos) (h !!! i).
Proof.
  intros Hc. pose proof (parent_left pos) as Hl. pose proof (parent_right pos) as Hr.
  replace (2 * pos + 2)%nat with (S (2 * pos + 1)) in Hr by lia. unfold min_child.
  assert (∀ i, (0 < i < length h)%nat → parent i = pos →
    i = (2 * pos + 1)%nat ∨ i = S (2 * pos + 1)) as Hchild.
  { intros i Hi Hpi. pose proof (parent_spec i ltac:(lia)). lia. }
  cbv zeta. case_decide as Hright.
  - destruct (ltb (h !!! (2 * pos + 1)%nat) (h !!! S (2 * pos + 1))) eqn:Hlt; simpl negb; cbv iota.
    + split_and!; [lia|lia|done|]. intros i Hi Hpi.
      destruct (Hchild i Hi Hpi) as [->| ->]; [apply leb_refl|]. by apply ltb_asym.
    + split_and!; [lia|lia|done|]. intros i Hi Hpi.
      destruct (Hchild i Hi Hpi) as [->| ->]; [done|apply leb_refl].
  - split_and!; [lia|lia|done|]. intros i Hi Hpi.
    destruct (Hchild i Hi Hpi) as [->| ->]; [apply leb_refl|lia].
Qed.

Lemma siftup_loop_spec fuel h s pos x :
  below s pos → (pos < length h)%nat → (length h ≤ fuel + pos)%nat → down_ok s pos (<[pos := x]> h) →
  let '(h', pos') := siftup_loop fuel h pos in
  below s pos' ∧ (pos' < length h)%nat ∧ length h' = length h ∧
  up_ok s pos' (<[pos' := x]> h') ∧ <[pos' := x]> h' ≡ₚ <[pos := x]> h.
Proof.
  revert h pos. induction fuel as [|fuel IH]; intros h pos Hb Hpos Hf Hd; [lia|]. cbn [siftup_loop].
  cbv zeta. fold (min_child h pos). case_decide as Hc.
  2:{ split_and!; [done..| |done]. destruct Hd as [Hok Hbr]. rewrite length_insert in *.
      split; intros i; rewrite length_insert; intros Hi.
      - intros Hsi Hne. apply Hok; [done..|]. intros Hpi. pose proof (parent_spec i ltac:(lia)). lia.
      - intros Hpi. pose proof (parent_spec i ltac:(lia)). lia. }
  destruct (min_child_spec h pos Hc) as (Hmc & Hpar & Hmin). set (c := min_child h pos) in *.
  set (H0 := <[pos := x]> h) in *.
  assert (<[c := x]> (<[pos := h !!! c]> h) = swap pos c H0) as Hsw.
  { unfold swap, H0. rewrite list_lookup_total_insert_eq by done.
    rewrite (list_lookup_total_insert_ne h pos c) by lia.
    rewrite (list_insert_insert_ne h c pos x) by lia.
    rewrite (list_insert_insert_ne h c pos x x) by lia. by rewrite list_insert_insert_eq. }
  specialize (IH (<[pos := h !!! c]> h) c). rewrite Hsw, length_insert in IH.
  destruct (siftup_loop _ _ _) as [h' pos']. destruct IH as (Hb' & Hp' & Hl' & Hup' & Hperm').
  - apply below_child; [lia|]. by rewrite Hpar.
  - lia.
  - lia.
  - apply down_ok_swap; [done| |done|done|]; unfold H0; rewrite length_insert; [lia|].
    intros i Hi Hpi. pose proof (parent_lt i ltac:(lia)).
    rewrite !list_lookup_total_insert_ne by lia. by apply Hmin.
  - split_and!; try done. rewrite Hperm'. apply swap_perm; unfold H0; rewrite length_insert; lia.
Qed.

Lemma siftup_spec h s :
  (s < length h)%nat → heap_from (S s) h →
  heap_from s (_siftup h s) ∧ _siftup h s ≡ₚ h.
Proof.
  intros Hs Hh. unfold _siftup.
  assert (<[s := h !!! s]> h = h) as Hid.
  { apply list_insert_id. by apply list_lookup_lookup_total_lt. }
  pose proof (siftup_loop_spec (length h) h s s (h !!! s) (below_root s) Hs) as Hl.
  rewrite Hid in Hl. destruct (siftup_loop _ _ _) as [h' pos'].
  destruct Hl as (Hb & Hp & Hlen & Hup & Hperm); [lia| |].
  - split; [|lia]. intros i Hi Hsi His Hps. apply Hh; [done|]. lia.
  - destruct (siftdown_spec (<[pos' := h !!! s]> h') s pos') as [Hheap Hperm2];
      [done|by rewrite length_insert, Hlen|done|]. split; [done|]. by rewrite Hperm2.
Qed.

(** ** The operations *)

Lemma heap_root_min h i :
  is_heap h → (i < length h)%nat → leb (h !!! 0%nat) (h !!! i).
Proof.
  intros Hh. induction i as [i IH] using (well_founded_induction lt_wf). intros Hi.
  destruct (decide (i = 0)%nat) as [->|]; [apply leb_refl|].
  pose proof (parent_lt i ltac:(lia)). apply (leb_trans _ (h !!! parent i)).
  - apply IH; lia.
  - apply Hh; lia.
Qed.

Lemma heappush_spec h x : is_heap h → is_heap (heappush h x) ∧ heappush h x ≡ₚ x :: h.
Proof.
  intros Hh. unfold heappush. rewrite length_app. simpl.
  replace (length h + 1 - 1)%nat with (length h) by lia.
  destruct (siftdown_spec (h ++ [x]) 0 (length h)) as [Hheap Hperm].
  - generalize (length h). intros n. induction n as [n IH] using (well_founded_induction lt_wf).
    destruct (decide (n = 0)%nat) as [->|]; [constructor|].
    apply below_child; [lia|]. apply IH, parent_lt. lia.
  - rewrite length_app. simpl. lia.
  - split; intros i; rewrite length_app; simpl; intros Hi.
    + intros _ Hne. pose proof (parent_lt i ltac:(lia)).
      rewrite !lookup_total_app_l by lia. apply Hh; lia.
    + intros Hpi. pose proof (parent_lt i ltac:(lia)). lia.
  - split; [done|]. rewrite Hperm. symmetry. apply Permutation_cons_append.
Qed.

Lemma heappop_spec h :
  is_heap h →
  match heappop h with
  | Ok (x, h') => is_heap h' ∧ h ≡ₚ x :: h' ∧ (∀ y, y ∈ h → leb x y)
  | Raise e => e = IndexError ∧ h = []
  end.
Proof.
  intros Hh. unfold heappop. destruct (last h) as [z|] eqn:Hz.
  2:{ by apply last_None in Hz. }
  assert (∀ y, y ∈ h → leb (h !!! 0%nat) y) as Hmin.
  { intros y [i Hi]%list_elem_of_lookup. rewrite <-(list_lookup_total_correct _ _ _ Hi).
    apply heap_root_min; [done|]. by eapply lookup_lt_Some. }
  apply last_Some in Hz as [h0 ->]. rewrite length_app. simpl length.
  replace (length h0 + 1 - 1)%nat with (length h0) by lia. rewrite take_app_length.
  destruct h0 as [|x h0]; simpl.
  { split_and!; [intros i; simpl; lia|done|]. intros y ->%list_elem_of_singleton. apply leb_refl. }
  destruct (siftup_spec (z :: h0) 0) as [Hheap Hperm]; [simpl; lia| |].
  - intros i Hi Hsi. simpl length in Hi.
    destruct i as [|i]; [lia|]. destruct (parent (S i)) as [|q] eqn:Hq; [lia|].
    pose proof (parent_lt (S i) ltac:(lia)).
    specialize (Hh (S i)). rewrite Hq in Hh. simpl in Hh. rewrite length_app in Hh. simpl in Hh.
    rewrite !lookup_total_app_l in Hh by lia. simpl. apply Hh; lia.
  - split_and!; [done| |exact Hmin]. rewrite Hperm. simpl. f_equiv.
    symmetry. apply Permutation_cons_append.
Qed.

Lemma heapify_spec h : is_heap (heapify h) ∧ heapify h ≡ₚ h.
Proof.
  unfold heapify.
  assert (∀ n h', (n ≤ length h')%nat → heap_from n h' →
    heap_from 0 (foldl _siftup h' (reverse (seq 0 n))) ∧
    foldl _siftup h' (reverse (seq 0 n)) ≡ₚ h') as Hgen.
  { induction n as [|n IH]; intros h' Hn Hh; [done|].
    rewrite seq_S, reverse_snoc. simpl. destruct (siftup_spec h' n) as [Hh' Hp']; [lia|done|].
    destruct (IH (_siftup h' n)) as [Hh2 Hp2]; [|done|].
    - rewrite (Permutation_length Hp'). lia.
    - split; [done|]. by rewrite Hp2. }
  apply Hgen.
  - apply Nat.div2_decr. lia.
  - intros i Hi Hsi. pose proof (parent_spec i ltac:(lia)).
    pose proof (Nat.div2_odd (length h)) as Hd. destruct (Nat.odd (length h)); simpl Nat.b2n in Hd; lia.
Qed.
End heapq.
