(* ===== verification/RequestQueue.v ===== *)
(** * Request queues (src/vllm/v1/core/sched/request_queue.py)

    The first-come-first-served queue (a deque) and the priority queue (a
    [heapq] heap ordered by [Request.__lt__]) behind one interface, and what the
    scheduler may rely on for both. *)

From S2P Require Import Prelude FreeQueue Request Heapq.

Inductive SchedulingPolicy := FCFS | PRIORITY.

(** ** The interface

    Iteration is in the order in which requests are popped. *)

Class RequestQueue (Q : Type) := {
  empty_queue : Q;
  add_request : Q → Request → Q;
  pop_request : Q → res (Request * Q);
  peek_request : Q → res Request;
  prepend_request : Q → Request → Q;
  (* the argument is the other queue, as the list its iterator yields *)
  prepend_requests : Q → list Request → Q;
  remove_request : Q → Request → res Q;
  remove_requests : Q → list Request → Q;
  queue_bool : Q → bool;
  queue_len : Q → Z;
  queue_iter : Q → list Request
}.

(** [Request] has no [__eq__]: requests are equal when they are the same object. *)
Definition same_request (r s : Request) : Prop := object_id r = object_id s.
#[global] Instance same_request_dec r s : Decision (same_request r s).
Proof. unfold same_request. apply _. Defined.

(** [r in set(requests)] *)
Definition in_requests (r : Request) (rs : list Request) : Prop := object_id r ∈ object_id <$> rs.
#[global] Instance in_requests_dec r rs : Decision (in_requests r rs).
Proof. unfold in_requests. apply _. Defined.

(** [list.remove] and [deque.remove] *)
Fixpoint list_remove (l : list Request) (r : Request) : res (list Request) :=
  match l with
  | [] => Raise ValueError
  | x :: l => if decide (same_request x r) then Ok l else l' ← list_remove l r; Ok (x :: l')
  end.

(** ** First come, first served *)

Record FCFSRequestQueue := mkFCFS { fcfs_items : list Request }.

Definition fcfs_add (q : FCFSRequestQueue) (r : Request) : FCFSRequestQueue :=
  mkFCFS (fcfs_items q ++ [r]).
Definition fcfs_pop (q : FCFSRequestQueue) : res (Request * FCFSRequestQueue) :=
  match fcfs_items q with [] => Raise IndexError | r :: l => Ok (r, mkFCFS l) end.
Definition fcfs_peek (q : FCFSRequestQueue) : res Request :=
  match fcfs_items q with [] => Raise IndexError | r :: _ => Ok r end.
Definition fcfs_prepend (q : FCFSRequestQueue) (r : Request) : FCFSRequestQueue :=
  mkFCFS (r :: fcfs_items q).
(** [deque.extendleft] *)
Definition fcfs_prepend_requests (q : FCFSRequestQueue) (rs : list Request) : FCFSRequestQueue :=
  mkFCFS (foldl (λ l r, r :: l) (fcfs_items q) rs).
Definition fcfs_remove (q : FCFSRequestQueue) (r : Request) : res FCFSRequestQueue :=
  l ← list_remove (fcfs_items q) r; Ok (mkFCFS l).
Definition fcfs_remove_requests (q : FCFSRequestQueue) (rs : list Request) : FCFSRequestQueue :=
  mkFCFS (filter (λ r, ¬ in_requests r rs) (fcfs_items q)).

#[global] Instance FCFS_queue : RequestQueue FCFSRequestQueue := {|
  empty_queue := mkFCFS [];
  add_request := fcfs_add;
  pop_request := fcfs_pop;
  peek_request := fcfs_peek;
  prepend_request := fcfs_prepend;
  prepend_requests := fcfs_prepend_requests;
  remove_request := fcfs_remove;
  remove_requests := fcfs_remove_requests;
  queue_bool q := 0 <? len (fcfs_items q);
  queue_len q := len (fcfs_items q);
  queue_iter := fcfs_items
|}.

(** ** By priority *)

Record PriorityRequestQueue := mkPriority { _heap : list Request }.

Definition prio_add (q : PriorityRequestQueue) (r : Request) : PriorityRequestQueue :=
  mkPriority (heappush request_ltb (_heap q) r).
Definition prio_pop (q : PriorityRequestQueue) : res (Request * PriorityRequestQueue) :=
  '(r, h) ← heappop request_ltb (_heap q); Ok (r, mkPriority h).
Definition prio_peek (q : PriorityRequestQueue) : res Request :=
  match _heap q with [] => Raise IndexError | r :: _ => Ok r end.
Definition prio_prepend_requests (q : PriorityRequestQueue) (rs : list Request) :
    PriorityRequestQueue :=
  foldl prio_add q rs.
Definition prio_remove (q : PriorityRequestQueue) (r : Request) : res PriorityRequestQueue :=
  h ← list_remove (_heap q) r; Ok (mkPriority (heapify request_ltb h)).
Definition prio_remove_requests (q : PriorityRequestQueue) (rs : list Request) :
    PriorityRequestQueue :=
  mkPriority (heapify request_ltb (filter (λ r, ¬ in_requests r rs) (_heap q))).

(** [__iter__]: pop from a copy until it is empty. *)
Fixpoint heap_drain (fuel : nat) (h : list Request) : list Request :=
  match fuel with
  | O => []
  | S fuel =>
      match heappop request_ltb h with
      | Ok (r, h) => r :: heap_drain fuel h
      | Raise _ => []
      end
  end.

#[global] Instance Priority_queue : RequestQueue PriorityRequestQueue := {|
  empty_queue := mkPriority [];
  add_request := prio_add;
  pop_request := prio_pop;
  peek_request := prio_peek;
  prepend_request := prio_add;
  prepend_requests := prio_prepend_requests;
  remove_request := prio_remove;
  remove_requests := prio_remove_requests;
  queue_bool q := bool_decide (_heap q ≠ []);
  queue_len q := len (_heap q);
  queue_iter q := heap_drain (length (_heap q)) (_heap q)
|}.

(** [create_request_queue] *)
Definition create_request_queue (policy : SchedulingPolicy) :
    PriorityRequestQueue + FCFSRequestQueue :=
  match policy with PRIORITY => inl empty_queue | FCFS => inr empty_queue end.

(** ** The order of requests *)

Lemma string_compare_trans s t u :
  String.compare s t = Lt → String.compare t u = Lt → String.compare s u = Lt.
Proof.
  revert t u. induction s as [|a s IH]; intros [|b t] [|c u]; simpl; try done.
  unfold Ascii.compare.
  destruct (N.compare_spec (Ascii.N_of_ascii a) (Ascii.N_of_ascii b)) as [Hab|Hab|Hab]; [..|done];
    (destruct (N.compare_spec (Ascii.N_of_ascii b) (Ascii.N_of_ascii c)) as [Hbc|Hbc|Hbc]; [..|done]);
    destruct (N.compare_spec (Ascii.N_of_ascii a) (Ascii.N_of_ascii c)); try lia; try done.
  apply IH.
Qed.

(** The four fields that order requests, compared one after the other. *)
Definition request_compare (r s : Request) : comparison :=
  match (priority r ?= priority s)%Z with
  | Eq => match (arrival_time r ?= arrival_time s)%Z with
          | Eq => match String.compare (request_id r) (request_id s) with
                  | Eq => (object_id r ?= object_id s)%Z
                  | c => c
                  end
          | c => c
          end
  | c => c
  end.

Lemma request_ltb_compare r s :
  request_ltb r s = match request_compare r s with Lt => true | _ => false end.
Proof.
  unfold request_ltb, request_compare.
  destruct (Z.compare_spec (priority r) (priority s)) as [Hp|Hp|Hp];
    [rewrite (decide_False (P := priority r ≠ priority s)) by lia
    |rewrite (decide_True (P := priority r ≠ priority s)); lia..].
  destruct (Z.compare_spec (arrival_time r) (arrival_time s)) as [Ha|Ha|Ha];
    [rewrite (decide_False (P := arrival_time r ≠ arrival_time s)) by lia
    |rewrite (decide_True (P := arrival_time r ≠ arrival_time s)); lia..].
  case_decide as Hr.
  - unfold String.ltb. destruct (String.compare (request_id r) (request_id s)) eqn:Hc; [|done|done].
    by apply String.compare_eq_iff in Hc.
  - destruct (decide (request_id r = request_id s)) as [->|]; [|tauto].
    assert (String.compare (request_id s) (request_id s) = Eq) as ->.
    { pose proof (String.compare_antisym (request_id s) (request_id s)) as Hc.
      by destruct (String.compare (request_id s) (request_id s)). }
    done.
Qed.

Lemma request_compare_eq r s : request_compare r s = Eq → same_request r s.
Proof.
  unfold request_compare, same_request.
  destruct (priority r ?= priority s)%Z, (arrival_time r ?= arrival_time s)%Z,
    (String.compare (request_id r) (request_id s)); try done. apply Z.compare_eq.
Qed.

Lemma request_compare_antisym r s : request_compare s r = CompOpp (request_compare r s).
Proof.
  unfold request_compare. rewrite (Z.compare_antisym (priority r)), (Z.compare_antisym (arrival_time r)),
    (Z.compare_antisym (object_id r)), (String.compare_antisym (request_id s)).
  by destruct (priority r ?= priority s)%Z, (arrival_time r ?= arrival_time s)%Z,
    (String.compare (request_id r) (request_id s)).
Qed.

Lemma request_compare_trans r s t :
  request_compare r s = Lt → request_compare s t = Lt → request_compare r t = Lt.
Proof.
  unfold request_compare.
  destruct (Z.compare_spec (priority r) (priority s)); [..|done];
    (destruct (Z.compare_spec (priority s) (priority t)); [..|done]);
    destruct (Z.compare_spec (priority r) (priority t)); try lia; try done.
  destruct (Z.compare_spec (arrival_time r) (arrival_time s)); [..|done];
    (destruct (Z.compare_spec (arrival_time s) (arrival_time t)); [..|done]);
    destruct (Z.compare_spec (arrival_time r) (arrival_time t)); try lia; try done.
  destruct (String.compare (request_id r) (request_id s)) eqn:Hrs; [..|done];
    (destruct (String.compare (request_id s) (request_id t)) eqn:Hst; [..|done]).
  - apply String.compare_eq_iff in Hrs, Hst. rewrite Hrs, Hst.
    assert (String.compare (request_id t) (request_id t) = Eq) as ->.
    { pose proof (String.compare_antisym (request_id t) (request_id t)) as Hc.
      by destruct (String.compare (request_id t) (request_id t)). }
    rewrite !Z.compare_lt_iff. lia.
  - apply String.compare_eq_iff in Hrs. by rewrite Hrs, Hst.
  - apply String.compare_eq_iff in Hst. by rewrite <-Hst, Hrs.
  - by rewrite (string_compare_trans _ _ _ Hrs Hst).
Qed.

Lemma request_ltb_asym r s : request_ltb r s = true → request_ltb s r = false.
Proof.
  rewrite !request_ltb_compare, (request_compare_antisym r s). by destruct (request_compare r s).
Qed.

Lemma request_ltb_trans r s t :
  request_ltb r s = true → request_ltb s t = true → request_ltb r t = true.
Proof.
  rewrite !request_ltb_compare. intros Hrs Hst.
  destruct (request_compare r s) eqn:E1; try done. destruct (request_compare s t) eqn:E2; try done.
  by rewrite (request_compare_trans _ _ _ E1 E2).
Qed.

Lemma request_ltb_total r s :
  ¬ same_request r s → request_ltb r s = true ∨ request_ltb s r = true.
Proof.
  rewrite !request_ltb_compare, (request_compare_antisym r s). intros Hne.
  destruct (request_compare r s) eqn:E; [|auto..]. by apply request_compare_eq in E.
Qed.

Lemma request_compare_subst r s t : request_compare r s = Eq → request_compare t r = request_compare t s.
Proof.
  unfold request_compare.
  destruct (Z.compare_spec (priority r) (priority s)) as [Hp| |]; try done.
  destruct (Z.compare_spec (arrival_time r) (arrival_time s)) as [Ha| |]; try done.
  destruct (String.compare (request_id r) (request_id s)) eqn:Hr; try done.
  intros Ho%Z.compare_eq. apply String.compare_eq_iff in Hr. by rewrite Hp, Ha, Hr, Ho.
Qed.

Lemma request_leb_trans r s t :
  leb request_ltb r s → leb request_ltb s t → leb request_ltb r t.
Proof.
  unfold leb. rewrite !request_ltb_compare. intros Hrs Hst.
  destruct (request_compare t r) eqn:Htr; [done| |done].
  destruct (request_compare s r) eqn:Hsr; [|done|].
  - rewrite (request_compare_subst s r t Hsr), Htr in Hst. done.
  - assert (request_compare r s = Lt) as Hrs' by (by rewrite (request_compare_antisym s r), Hsr).
    by rewrite (request_compare_trans _ _ _ Htr Hrs') in Hst.
Qed.

Abbreviation request_le := (leb request_ltb).
Abbreviation request_heap := (is_heap request_ltb).

Definition push_spec := heappush_spec request_ltb request_ltb_asym request_leb_trans.
Definition pop_spec := heappop_spec request_ltb request_ltb_asym request_leb_trans.
Definition heapify_request_spec := heapify_spec request_ltb request_ltb_asym request_leb_trans.

(** ** What both queues promise *)

Class RequestQueueSpec (Q : Type) `{RequestQueue Q} := {
  queue_ok : Q → Prop;
  ok_empty : queue_ok empty_queue;
  ok_add q r : queue_ok q → queue_ok (add_request q r);
  ok_prepend q r : queue_ok q → queue_ok (prepend_request q r);
  ok_prepends q rs : queue_ok q → queue_ok (prepend_requests q rs);
  ok_removes q rs : queue_ok q → queue_ok (remove_requests q rs);
  iter_empty : queue_iter (Q := Q) empty_queue = [];
  iter_add q r : queue_ok q → queue_iter (add_request q r) ≡ₚ r :: queue_iter q;
  iter_prepend q r : queue_ok q → queue_iter (prepend_request q r) ≡ₚ r :: queue_iter q;
  iter_prepends q rs : queue_ok q → queue_iter (prepend_requests q rs) ≡ₚ rs ++ queue_iter q;
  iter_removes q rs : queue_ok q →
    queue_iter (remove_requests q rs) ≡ₚ filter (λ r, ¬ in_requests r rs) (queue_iter q);
  (* popping follows the iteration order *)
  pop_iter q : queue_ok q →
    match queue_iter q with
    | [] => pop_request q = Raise IndexError ∧ peek_request q = Raise IndexError
    | r :: rs => peek_request q = Ok r ∧
        ∃ q', pop_request q = Ok (r, q') ∧ queue_ok q' ∧ queue_iter q' = rs
    end;
  (* removing one request: the first that is the same object, or ValueError *)
  remove_iter q r : queue_ok q →
    match remove_request q r with
    | Ok q' => queue_ok q' ∧ ∃ x, same_request x r ∧ queue_iter q ≡ₚ x :: queue_iter q'
    | Raise e => e = ValueError ∧ ∀ x, x ∈ queue_iter q → ¬ same_request x r
    end;
  len_iter q : queue_ok q → queue_len q = len (queue_iter q);
  bool_iter q : queue_ok q → queue_bool q = true ↔ queue_iter q ≠ []
}.

Lemma list_remove_spec l r :
  match list_remove l r with
  | Ok l' => ∃ x, same_request x r ∧ l ≡ₚ x :: l'
  | Raise e => e = ValueError ∧ ∀ x, x ∈ l → ¬ same_request x r
  end.
Proof.
  induction l as [|y l IH]; simpl; [set_solver|]. case_decide as Hy; [by exists y|].
  destruct (list_remove l r) as [l'|e]; cbn [mbind res_bind].
  - destruct IH as (x & Hx & Hp). exists x. split; [done|]. rewrite Hp. apply Permutation_swap.
  - destruct IH as [-> Hno]. split; [done|]. intros x [->|Hx]%elem_of_cons; auto.
Qed.

#[global] Instance FCFS_spec : RequestQueueSpec FCFSRequestQueue.
Proof.
  refine {| queue_ok := λ q, True |}; try done; simpl.
  - intros q r _. symmetry. apply Permutation_cons_append.
  - intros [q] rs _. simpl. revert q. induction rs as [|r rs IH]; intros q; simpl; [done|].
    rewrite IH. symmetry. apply Permutation_middle.
  - intros [[|r l]] _; simpl; [done|]. split; [done|]. by exists (mkFCFS l).
  - intros [l] r _. unfold fcfs_remove. simpl. pose proof (list_remove_spec l r) as Hr.
    by destruct (list_remove l r).
  - intros [[|r l]] _; simpl; [done|]. rewrite len_cons. pose proof (len_nonneg l).
    rewrite Z.ltb_lt. split; [done|lia].
Defined.

Lemma heappop_head h r h' : heappop request_ltb h = Ok (r, h') → ∃ t, h = r :: t.
Proof.
  unfold heappop. destruct (last h) as [z|] eqn:Hz; [|done].
  apply last_Some in Hz as [h0 ->]. rewrite length_app. simpl length.
  replace (length h0 + 1 - 1)%nat with (length h0) by lia. rewrite take_app_length.
  destruct h0 as [|x h0]; simpl; intros [= <- _]; eauto.
Qed.

Lemma heap_drain_spec n h :
  request_heap h → length h = n →
  heap_drain n h ≡ₚ h ∧ StronglySorted request_le (heap_drain n h).
Proof.
  revert h. induction n as [|n IH]; intros h Hh Hn.
  { apply nil_length_inv in Hn as ->. split; [done|constructor]. }
  simpl. pose proof (pop_spec h Hh) as Hpop. destruct (heappop request_ltb h) as [[r h']|e].
  2:{ destruct Hpop as [_ ->]. done. }
  destruct Hpop as (Hh' & Hp & Hmin). destruct (IH h' Hh') as [Hperm Hsort].
  { apply Permutation_length in Hp. simpl in Hp. lia. }
  split; [by rewrite Hperm|]. constructor; [done|]. apply Forall_forall. intros x Hx.
  apply Hmin. rewrite Hp. right. by rewrite <-Hperm.
Qed.

Lemma prio_iter_perm h : request_heap h → queue_iter (mkPriority h) ≡ₚ h.
Proof. intros Hh. by apply heap_drain_spec. Qed.

#[global] Instance Priority_spec : RequestQueueSpec PriorityRequestQueue.
Proof.
  refine {| queue_ok := λ q, request_heap (_heap q) |}.
  - intros i Hi. simpl in Hi. lia.
  - intros [h] r Hh. by apply push_spec.
  - intros [h] r Hh. by apply push_spec.
  - intros q rs. simpl. unfold prio_prepend_requests. revert q.
    induction rs as [|r rs IH]; intros q Hq; simpl; [done|]. apply IH. by apply push_spec.
  - intros [h] rs Hh. apply heapify_request_spec.
  - done.
  - intros [h] r Hh. destruct (push_spec h r Hh) as [Hh' Hp].
    rewrite (prio_iter_perm h Hh). etrans; [by apply (prio_iter_perm (heappush request_ltb h r))|done].
  - intros [h] r Hh. destruct (push_spec h r Hh) as [Hh' Hp].
    rewrite (prio_iter_perm h Hh). etrans; [by apply (prio_iter_perm (heappush request_ltb h r))|done].
  - intros q rs Hq. change (prepend_requests q rs) with (foldl prio_add q rs).
    revert q Hq. induction rs as [|r rs IH]; intros [h] Hh; [done|]. cbn [foldl].
    destruct (push_spec h r Hh) as [Hh' Hp]. rewrite IH by done.
    rewrite (prio_iter_perm _ Hh), (prio_iter_perm (heappush request_ltb h r) Hh'), Hp. simpl.
    symmetry. apply Permutation_middle.
  - intros [h] rs Hh. rewrite (prio_iter_perm _ Hh).
    destruct (heapify_request_spec (filter (λ r, ¬ in_requests r rs) h)) as [Hh' Hp].
    etrans; [by apply (prio_iter_perm _ Hh')|done].
  - intros [h] Hh. simpl in Hh |- *. destruct h as [|x h]; [done|].
    pose proof (pop_spec _ Hh) as Hpop. pose proof (heappop_head (x :: h)) as Hhead.
    unfold prio_pop. simpl.
    destruct (heappop request_ltb (x :: h)) as [[r h']|e]; [|by destruct Hpop].
    destruct (Hhead r h' eq_refl) as [t [= <- _]]. destruct Hpop as (Hh' & Hp & _).
    apply Permutation_length in Hp. simpl in Hp. split; [done|]. exists (mkPriority h').
    split_and!; [done|done|]. simpl. f_equal. lia.
  - intros [h] r Hh. simpl in Hh |- *. unfold prio_remove. simpl.
    pose proof (list_remove_spec h r) as Hr. destruct (list_remove h r) as [h'|e]; cbn [mbind res_bind].
    + destruct Hr as (x & Hx & Hp). destruct (heapify_request_spec h') as [Hh' Hp'].
      split; [done|]. exists x. split; [done|]. simpl.
      etrans; [by apply (prio_iter_perm h Hh)|]. rewrite Hp. f_equiv.
      symmetry. etrans; [by apply (prio_iter_perm _ Hh')|done].
    + destruct Hr as [-> Hno]. split; [done|]. intros y Hy. apply Hno.
      by rewrite <-(prio_iter_perm h Hh).
  - intros [h] Hh. simpl. unfold len. f_equal. symmetry. apply Permutation_length.
    by apply (prio_iter_perm h Hh).
  - intros [h] Hh. simpl. rewrite bool_decide_eq_true.
    pose proof (prio_iter_perm h Hh) as Hp. simpl in Hp. split; intros Hn Hnil; apply Hn.
    + rewrite Hnil in Hp. by apply Permutation_nil_l in Hp.
    + rewrite Hnil in Hp |- *. done.
Defined.

(** ** Runs of a queue *)

Inductive queue_cmd :=
  | QAdd (r : Request)
  | QPrepend (r : Request)
  | QPrependAll (rs : list Request)
  | QRemove (r : Request)
  | QRemoveAll (rs : list Request)
  | QPop.

Section runs.
Context {Q : Type} `{RequestQueueSpec Q}.

(** The ids of the objects that enter, and of those that leave, with the queue after. *)
Definition cmd_added (cmd : queue_cmd) : list Z :=
  match cmd with
  | QAdd r | QPrepend r => [object_id r]
  | QPrependAll rs => object_id <$> rs
  | _ => []
  end.

Definition run_cmd (cmd : queue_cmd) (q : Q) : res (list Z * Q) :=
  match cmd with
  | QAdd r => Ok ([], add_request q r)
  | QPrepend r => Ok ([], prepend_request q r)
  | QPrependAll rs => Ok ([], prepend_requests q rs)
  | QRemove r => q' ← remove_request q r; Ok ([object_id r], q')
  | QRemoveAll rs =>
      Ok (object_id <$> filter (λ r, in_requests r rs) (queue_iter q), remove_requests q rs)
  | QPop => '(r, q') ← pop_request q; Ok ([object_id r], q')
  end.

Fixpoint run_cmds (cmds : list queue_cmd) (q : Q) : res (list Z * Q) :=
  match cmds with
  | [] => Ok ([], q)
  | cmd :: cmds => '(l, q1) ← run_cmd cmd q; '(ls, q2) ← run_cmds cmds q1; Ok (l ++ ls, q2)
  end.

Lemma filter_partition (rs l : list Request) :
  l ≡ₚ filter (λ r, in_requests r rs) l ++ filter (λ r, ¬ in_requests r rs) l.
Proof.
  induction l as [|x l IH]; [done|]. rewrite !filter_cons.
  destruct (decide (in_requests x rs)), (decide (¬ in_requests x rs)); try tauto; simpl.
  - by f_equiv.
  - rewrite <-Permutation_middle. by f_equiv.
Qed.

Lemma run_cmd_conserves cmd q l q' :
  queue_ok q → run_cmd cmd q = Ok (l, q') →
  queue_ok q' ∧
  (object_id <$> queue_iter q) ++ cmd_added cmd ≡ₚ l ++ (object_id <$> queue_iter q').
Proof.
  intros Hq. destruct cmd as [r|r|rs|r|rs|]; simpl.
  - intros [= <- <-]. split; [by apply ok_add|]. rewrite (iter_add q r Hq). simpl.
    symmetry. apply Permutation_cons_append.
  - intros [= <- <-]. split; [by apply ok_prepend|]. rewrite (iter_prepend q r Hq). simpl.
    symmetry. apply Permutation_cons_append.
  - intros [= <- <-]. split; [by apply ok_prepends|]. rewrite (iter_prepends q rs Hq), fmap_app.
    simpl. apply Permutation_app_comm.
  - pose proof (remove_iter q r Hq) as Hr. destruct (remove_request q r) as [q1|e]; [|done].
    cbn [mbind res_bind]. intros [= <- <-]. destruct Hr as (Hq1 & x & Hx & Hp). split; [done|].
    rewrite Hp, app_nil_r. simpl. by rewrite Hx.
  - intros [= <- <-]. split; [by apply ok_removes|]. rewrite (iter_removes q rs Hq), app_nil_r.
    rewrite <-fmap_app. by rewrite <-filter_partition.
  - pose proof (pop_iter q Hq) as Hp. destruct (queue_iter q) as [|r rs].
    + destruct Hp as [-> _]. done.
    + destruct Hp as (_ & q1 & -> & Hq1 & <-). cbn [mbind res_bind]. intros [= <- <-].
      by rewrite app_nil_r.
Qed.

Lemma run_cmds_conserve cmds q l q' :
  queue_ok q → run_cmds cmds q = Ok (l, q') →
  queue_ok q' ∧
  (object_id <$> queue_iter q) ++ (cmds ≫= cmd_added) ≡ₚ l ++ (object_id <$> queue_iter q').
Proof.
  revert q l. induction cmds as [|cmd cmds IH]; intros q l Hq; simpl.
  { intros [= <- <-]. split; [done|]. by rewrite app_nil_r. }
  destruct (run_cmd cmd q) as [[l1 q1]|e] eqn:H1; [|done]. cbn [mbind res_bind].
  destruct (run_cmds cmds q1) as [[l2 q2]|e] eqn:H2; [|done]. cbn [mbind res_bind].
  intros [= <- <-]. destruct (run_cmd_conserves _ _ _ _ Hq H1) as [Hq1 Hp1].
  destruct (IH _ _ Hq1 H2) as [Hq2 Hp2]. split; [done|].
  by rewrite app_assoc, Hp1, <-!app_assoc, Hp2.
Qed.

(** Pop until the queue is empty. *)
Fixpoint pop_all (n : nat) (q : Q) : res (list Request * Q) :=
  match n with
  | O => Ok ([], q)
  | S n => '(r, q) ← pop_request q; '(rs, q) ← pop_all n q; Ok (r :: rs, q)
  end.

Lemma pop_all_spec n q :
  queue_ok q → length (queue_iter q) = n →
  ∃ q', pop_all n q = Ok (queue_iter q, q') ∧ queue_ok q' ∧ queue_iter q' = [].
Proof.
  revert q. induction n as [|n IH]; intros q Hq Hn.
  { apply nil_length_inv in Hn as Hnil. exists q. simpl. by rewrite Hnil. }
  pose proof (pop_iter q Hq) as Hp. destruct (queue_iter q) as [|r rs] eqn:Hi; [done|].
  destruct Hp as (_ & q1 & Hpop & Hq1 & Hi1). simpl. rewrite Hpop. cbn [mbind res_bind].
  destruct (IH q1 Hq1) as (q2 & Hall & Hq2 & Hnil); [rewrite Hi1; simpl in Hn; lia|].
  rewrite Hall. cbn [mbind res_bind]. exists q2. by rewrite Hi1.
Qed.
End runs.

(** ** Main theorems *)

(** [Request.__lt__] is a strict total order on distinct request objects: no request
    precedes itself, the relation is transitive, and of two different objects one precedes
    the other.  So "the next request by priority" is well defined. *)
Lemma request_order_total r s t :
  request_ltb r r = false ∧
  (request_ltb r s = true → request_ltb s t = true → request_ltb r t = true) ∧
  (object_id r ≠ object_id s → request_ltb r s = negb (request_ltb s r)).
Proof.
  split_and!.
  - destruct (request_ltb r r) eqn:Hr; [|done]. by rewrite (request_ltb_asym r r Hr) in Hr.
  - apply request_ltb_trans.
  - intros Hne. destruct (request_ltb_total r s Hne) as [Hrs|Hsr].
    + by rewrite Hrs, (request_ltb_asym r s Hrs).
    + by rewrite Hsr, (request_ltb_asym s r Hsr).
Qed.

(** C28: no request is lost or served twice.  Whatever the policy, run any commands on an
    empty queue: the objects that entered are, with multiplicity, those that left by a pop
    or a removal and those still queued; and popping the rest takes exactly [len(queue)]
    pops, in iteration order, after which the queue raises IndexError. *)
Theorem queue_conserves_requests (Q : Type) `{RequestQueueSpec Q} cmds l (q : Q) :
  run_cmds cmds empty_queue = Ok (l, q) →
  (cmds ≫= cmd_added) ≡ₚ l ++ (object_id <$> queue_iter q) ∧
  ∃ q', pop_all (Z.to_nat (queue_len q)) q = Ok (queue_iter q, q') ∧
    pop_request q' = Raise IndexError.
Proof.
  intros Hrun. destruct (run_cmds_conserve cmds empty_queue l q ok_empty Hrun) as [Hq Hp].
  rewrite (iter_empty (Q := Q)) in Hp. split; [exact Hp|].
  destruct (pop_all_spec (Z.to_nat (queue_len q)) q Hq) as (q' & Hall & Hq' & Hnil).
  - rewrite (len_iter q Hq). unfold len. lia.
  - exists q'. split; [done|]. pose proof (pop_iter q' Hq') as Hpop. rewrite Hnil in Hpop.
    apply Hpop.
Qed.

(** The priority queue serves by priority.  After any commands from the empty queue, the
    queue iterates, and hence pops, in the order of [Request.__lt__]: by priority, then
    arrival time, then request id; and the request that is popped next precedes every other
    queued request. *)
Lemma priority_queue_sorted cmds l (q : PriorityRequestQueue) :
  run_cmds cmds empty_queue = Ok (l, q) →
  StronglySorted (λ r s, request_ltb s r = false) (queue_iter q) ∧
  ∀ r q', pop_request q = Ok (r, q') → ∀ s, s ∈ queue_iter q' → request_ltb s r = false.
Proof.
  intros Hrun. destruct (run_cmds_conserve cmds empty_queue l q ok_empty Hrun) as [Hq _].
  assert (StronglySorted request_le (queue_iter q)) as Hs.
  { by apply (heap_drain_spec (length (_heap q)) (_heap q) Hq). }
  split; [exact Hs|]. intros r q' Hpop s Hin. pose proof (pop_iter q Hq) as Hp.
  destruct (queue_iter q) as [|x rs]; [by destruct Hp; congruence|].
  destruct Hp as (_ & q1 & Hpop1 & _ & <-). rewrite Hpop in Hpop1. injection Hpop1 as <- <-.
  apply StronglySorted_inv in Hs as [_ Hall]. rewrite Forall_forall in Hall. by apply Hall.
Qed.

Definition demo_req (oid prio arrival : Z) : Request :=
  (inhabitant (A := Request)) <| object_id := oid |> <| priority := prio |> <| arrival_time := arrival |>.

Definition demo_cmds : list queue_cmd :=
  [QAdd (demo_req 1 5 0); QAdd (demo_req 2 3 1); QPrepend (demo_req 3 3 0); QAdd (demo_req 4 0 9);
   QPop; QRemoveAll [demo_req 1 5 0]].

Lemma queue_conserves_requests_witness :
  ∃ l (q : FCFSRequestQueue), run_cmds demo_cmds empty_queue = Ok (l, q) ∧
    demo_cmds ≫= cmd_added ≡ₚ l ++ (object_id <$> queue_iter q).
Proof.
  destruct (run_cmds demo_cmds (empty_queue (Q := FCFSRequestQueue))) as [[l q]|e] eqn:Hrun;
    [|vm_compute in Hrun; discriminate].
  exists l, q. split; [done|]. apply (queue_conserves_requests FCFSRequestQueue demo_cmds l q Hrun).
Defined.

