(* ===== verification/SchedUtils.v ===== *)
(** * Scheduler utilities (src/vllm/v1/core/sched/utils.py)

    When a request stops, repetition detection, and removal of items from a list. *)

From S2P Require Import Prelude FreeQueue Request.

(** ** Repetition detection *)

(** The inner loop over [m]: every repetition has [target_token] at offset [n]. *)
Fixpoint repeats_at (token_ids : list Z) (pattern_len n target_token : Z) (ms : list Z) : res bool :=
  match ms with
  | [] => Ok true
  | m :: ms =>
      t ← index token_ids (- (pattern_len * m + n));
      if decide (t ≠ target_token) then Ok false
      else repeats_at token_ids pattern_len n target_token ms
  end.

(** The outer loop over [n]. *)
Fixpoint repeats_from (token_ids : list Z) (pattern_len repetition_min_count : Z) (ns : list Z) :
    res bool :=
  match ns with
  | [] => Ok true
  | n :: ns =>
      target_token ← index token_ids (- n);
      b ← repeats_at token_ids pattern_len n target_token (range 1 repetition_min_count);
      if negb b then Ok false else repeats_from token_ids pattern_len repetition_min_count ns
  end.

Definition _has_repeating_pattern (token_ids : list Z) (pattern_len repetition_min_count : Z) :
    res bool :=
  repeats_from token_ids pattern_len repetition_min_count (range 1 (pattern_len + 1)).

(** The loop of [check_sequence_repetition] over the pattern lengths. *)
Fixpoint check_lengths (token_ids : list Z) (min_count : Z) (lens : list Z) : res bool :=
  match lens with
  | [] => Ok false
  | pattern_len :: lens =>
      if decide (pattern_len * min_count > len token_ids) then Ok false
      else
        b ← _has_repeating_pattern token_ids pattern_len min_count;
        if (b : bool) then Ok true else check_lengths token_ids min_count lens
  end.

Definition check_sequence_repetition (token_ids : list Z) (params : RepetitionDetectionParams) :
    res bool :=
  let min_pattern_size :=
    if decide (min_pattern_size params ≤ 0) then 1 else min_pattern_size params in
  if decide (max_pattern_size params ≤ 0 ∨ min_count params < 2 ∨
             min_pattern_size > max_pattern_size params)
  then Ok false
  else check_lengths token_ids (min_count params)
         (range min_pattern_size (max_pattern_size params + 1)).

(** ** Removing items *)

(** [lst.remove(item)] with [ValueError] suppressed. *)
Fixpoint remove_first {A} `{EqDecision A} (lst : list A) (item : A) : list A :=
  match lst with
  | [] => []
  | x :: lst => if decide (x = item) then lst else x :: remove_first lst item
  end.

Definition remove_all {A} `{Countable A} `{SetIter} (lst : list A) (items_to_remove : gset A) :
    list A :=
  if decide (items_to_remove = ∅) then lst
  else if decide (size items_to_remove = 1%nat) then
    match iter_set items_to_remove with
    | item :: _ => remove_first lst item
    | [] => lst
    end
  else filter (λ item, item ∉ items_to_remove) lst.

(** ** Stop conditions *)

Definition check_stop (request : Request) (max_model_len : Z) : res (bool * Request) :=
  match pooling_params request, sampling_params request with
  | Some _, _ => Raise AssertionError
  | None, None => Raise AssertionError
  | None, Some sp =>
      last_token_id ← index (output_token_ids request) (-1);
      if decide (eos_token_id sp = Some last_token_id) then
        Ok (true, request <| status := FINISHED_STOPPED |>)
      else if decide (last_token_id ∈ default [] (stop_token_ids sp)) then
        Ok (true, request <| status := FINISHED_STOPPED |>
                          <| stop_reason := Some (StopToken last_token_id) |>)
      else if decide (max_model_len ≤ num_tokens request ∨
                      max_tokens request ≤ num_output_tokens request) then
        Ok (true, request <| status := FINISHED_LENGTH_CAPPED |>)
      else if decide (num_output_tokens request < min_tokens sp) then Ok (false, request)
      else
        match repetition_detection sp with
        | None => Ok (false, request)
        | Some params =>
            b ← check_sequence_repetition (output_token_ids request) params;
            if (b : bool) then
              Ok (true, request <| status := FINISHED_REPETITION |>
                                <| stop_reason := Some (StopString "repetition_detected") |>)
            else Ok (false, request)
        end
  end.

(** ** What repetition means *)

(** The tokens end in [count] copies of one block of [n] tokens. *)
Definition ends_in_copies (tokens : list Z) (n count : Z) : Prop :=
  ∃ front p, tokens = front ++ concat (replicate (Z.to_nat count) p) ∧ len p = n.

Lemma index_neg {A} (l : list A) n :
  1 ≤ n ≤ len l → ∃ x, index l (- n) = Ok x ∧ reverse l !! Z.to_nat (n - 1) = Some x.
Proof.
  intros Hn. unfold len in Hn.
  destruct (lookup_lt_is_Some_2 (reverse l) (Z.to_nat (n - 1))) as [x Hx].
  { rewrite length_reverse. lia. }
  exists x. split; [|done]. rewrite reverse_lookup in Hx by lia. unfold index.
  rewrite (decide_True (P := - n < 0)) by lia. cbv zeta. unfold len. rewrite decide_True by lia.
  replace (Z.to_nat (- n + Z.of_nat (length l))) with (length l - S (Z.to_nat (n - 1)))%nat by lia.
  by rewrite Hx.
Qed.

(** Read from the end, the token at distance [i] equals the one a period further. *)
Definition periodic (l : list Z) (n count : Z) : Prop :=
  ∀ k m, 0 ≤ k < n → 1 ≤ m < count → l !! Z.to_nat (n * m + k) = l !! Z.to_nat k.

Lemma repeats_at_spec tokens n k t ms :
  (∀ m, m ∈ ms → 1 ≤ m ∧ n * m + k + 1 ≤ len tokens) → 0 ≤ k → 0 ≤ n →
  ∃ b, repeats_at tokens n (k + 1) t ms = Ok b ∧
    (b = true ↔ ∀ m, m ∈ ms → reverse tokens !! Z.to_nat (n * m + k) = Some t).
Proof.
  intros Hms Hk Hn. induction ms as [|m ms IH]; simpl.
  { exists true. split; [done|]. split; [|done]. by intros _ m ?%elem_of_nil. }
  destruct (Hms m) as [Hm Hlen]; [by left|].
  destruct (index_neg tokens (n * m + (k + 1))) as (x & Hx & Hx'); [nia|]. rewrite Hx.
  cbn [mbind res_bind]. replace (n * m + (k + 1) - 1) with (n * m + k) in Hx' by lia.
  destruct IH as (b & Hb & Hiff); [intros; apply Hms; by right|].
  case_decide as Ht.
  - exists false. split; [done|]. split; [done|]. intros Hall.
    rewrite (Hall m) in Hx' by (by left). congruence.
  - assert (x = t) as -> by (destruct (decide (x = t)); tauto). exists b. split; [done|].
    rewrite Hiff. setoid_rewrite elem_of_cons. naive_solver.
Qed.

Lemma repeats_from_spec tokens n count ks :
  (∀ k, k ∈ ks → 1 ≤ k ≤ n) → 0 ≤ n → 1 ≤ count → n * count ≤ len tokens →
  ∃ b, repeats_from tokens n count ks = Ok b ∧
    (b = true ↔ ∀ k m, k ∈ ks → 1 ≤ m < count →
       reverse tokens !! Z.to_nat (n * m + (k - 1)) = reverse tokens !! Z.to_nat (k - 1)).
Proof.
  intros Hks Hn Hc Hlen. induction ks as [|k ks IH]; simpl.
  { exists true. split; [done|]. split; [|done]. by intros _ k m ?%elem_of_nil. }
  destruct (Hks k) as [Hk1 Hk2]; [by left|].
  destruct (index_neg tokens k) as (t & Ht & Ht'); [nia|]. rewrite Ht. cbn [mbind res_bind].
  destruct (repeats_at_spec tokens n (k - 1) t (range 1 count)) as (b & Hb & Hbi).
  { intros m Hm%elem_of_range. nia. }
  { lia. }
  { lia. }
  replace (k - 1 + 1) with k in Hb by lia. rewrite Hb. cbn [mbind res_bind].
  assert (b = true ↔ ∀ m, 1 ≤ m < count →
    reverse tokens !! Z.to_nat (n * m + (k - 1)) = reverse tokens !! Z.to_nat (k - 1)) as Hb'.
  { rewrite Hbi, Ht'. setoid_rewrite elem_of_range. done. }
  destruct IH as (b' & Hb2 & Hiff); [intros; apply Hks; by right|]. destruct b; simpl.
  - exists b'. split; [done|]. rewrite Hiff. setoid_rewrite elem_of_cons. naive_solver.
  - exists false. split; [done|]. split; [done|]. intros Hall. apply Hb'. intros m Hm.
    apply Hall; [by left|done].
Qed.

Lemma lookup_copies {A} (p : list A) c m k :
  (m < c)%nat → (k < length p)%nat → concat (replicate c p) !! (length p * m + k)%nat = p !! k.
Proof.
  revert m. induction c as [|c IH]; intros m Hm Hk; [lia|]. cbn [replicate concat].
  destruct m as [|m].
  - rewrite Nat.mul_0_r, lookup_app_l by lia. done.
  - rewrite lookup_app_r by nia. replace (length p * S m + k - length p)%nat
      with (length p * m + k)%nat by nia. apply IH; lia.
Qed.

Lemma length_copies {A} (p : list A) c : length (concat (replicate c p)) = (c * length p)%nat.
Proof. induction c as [|c IH]; simpl; [done|]. rewrite length_app, IH. done. Qed.

Lemma reverse_copies {A} (p : list A) c :
  reverse (concat (replicate c p)) = concat (replicate c (reverse p)).
Proof.
  induction c as [|c IH]; [done|]. rewrite replicate_S_end, concat_app, reverse_app. simpl.
  by rewrite app_nil_r, IH.
Qed.

Lemma ends_in_copies_periodic tokens n count :
  1 ≤ n → 1 ≤ count → n * count ≤ len tokens →
  ends_in_copies tokens n count ↔ periodic (reverse tokens) n count.
Proof.
  intros Hn Hc Hlen. unfold ends_in_copies, periodic, len in *. split.
  - intros (front & p & -> & Hp) k m Hk Hm.
    rewrite reverse_app, reverse_copies.
    rewrite !lookup_app_l by (rewrite length_copies, length_reverse; nia).
    replace (Z.to_nat (n * m + k))
      with (length (reverse p) * Z.to_nat m + Z.to_nat k)%nat by (rewrite length_reverse; nia).
    replace (Z.to_nat k) with (length (reverse p) * 0 + Z.to_nat k)%nat at 2 by lia.
    rewrite !lookup_copies by (rewrite ?length_reverse; lia). done.
  - intros Hper. set (p := take (Z.to_nat n) (reverse tokens)).
    assert (length p = Z.to_nat n) as Hlp.
    { unfold p. rewrite length_take, length_reverse. nia. }
    exists (reverse (drop (Z.to_nat (n * count)) (reverse tokens))), (reverse p).
    rewrite length_reverse. split; [|lia].
    rewrite <-reverse_copies, <-reverse_app, <-(reverse_involutive tokens) at 1. f_equal.
    rewrite <-(take_drop (Z.to_nat (n * count)) (reverse tokens)) at 1. f_equal.
    apply list_eq_same_length with (n := Z.to_nat (n * count));
      [by rewrite length_copies; nia|rewrite length_take, length_reverse; nia|].
    intros i x y Hi. rewrite lookup_take_lt by done.
    pose proof (Nat.div_mod i (Z.to_nat n) ltac:(lia)) as Hdm.
    pose proof (Nat.mod_upper_bound i (Z.to_nat n) ltac:(lia)) as Hmod.
    set (m := (i / Z.to_nat n)%nat) in *. set (k := (i mod Z.to_nat n)%nat) in *.
    assert (m < Z.to_nat count)%nat as Hm by nia.
    rewrite Hdm, <-Hlp, lookup_copies by lia. unfold p. rewrite lookup_take_lt by lia.
    destruct m as [|m].
    { rewrite Nat.mul_0_r, Nat.add_0_l. intros; congruence. }
    specialize (Hper (Z.of_nat k) (Z.of_nat (S m)) ltac:(lia) ltac:(lia)).
    rewrite Nat2Z.id in Hper. fold p. rewrite Hlp.
    replace (Z.to_nat n * S m + k)%nat with (Z.to_nat (n * Z.of_nat (S m) + Z.of_nat k)) by nia.
    intros; congruence.
Qed.

Lemma has_repeating_pattern_spec tokens n count :
  1 ≤ n → 1 ≤ count → n * count ≤ len tokens →
  ∃ b, _has_repeating_pattern tokens n count = Ok b ∧
    (b = true ↔ ends_in_copies tokens n count).
Proof.
  intros Hn Hc Hlen. unfold _has_repeating_pattern.
  destruct (repeats_from_spec tokens n count (range 1 (n + 1))) as (b & Hb & Hiff);
    [|lia..|].
  { intros k Hk%elem_of_range. lia. }
  exists b. split; [done|]. rewrite Hiff, ends_in_copies_periodic by lia. unfold periodic.
  setoid_rewrite elem_of_range. split.
  - intros Hall k m Hk Hm. specialize (Hall (k + 1) m ltac:(lia) ltac:(lia)).
    by replace (k + 1 - 1) with k in Hall by lia.
  - intros Hall k m Hk Hm. apply Hall; lia.
Qed.

Lemma ends_in_copies_len tokens n count :
  0 ≤ count → ends_in_copies tokens n count → n * count ≤ len tokens.
Proof.
  intros Hc (front & p & -> & <-). unfold len. rewrite length_app, length_copies. nia.
Qed.

Lemma check_lengths_spec tokens count a b :
  1 ≤ a → 2 ≤ count →
  ∃ r, check_lengths tokens count (range a b) = Ok r ∧
    (r = true ↔ ∃ n, a ≤ n < b ∧ ends_in_copies tokens n count).
Proof.
  intros Ha Hc. remember (Z.to_nat (b - a)) as d eqn:Hd. revert a Ha Hd.
  induction d as [|d IH]; intros a Ha Hd.
  { rewrite range_nil by lia. exists false. split; [done|]. split; [done|].
    intros (n & Hn & _). lia. }
  rewrite range_cons by lia. cbn [check_lengths]. case_decide as Hgt.
  { exists false. split; [done|]. split; [done|]. intros (n & Hn & Hends).
    apply ends_in_copies_len in Hends; nia. }
  destruct (has_repeating_pattern_spec tokens a count) as (r & Hr & Hiff); [lia..|].
  rewrite Hr. cbn [mbind res_bind]. destruct r.
  { exists true. split; [done|]. split; [|done]. intros _. exists a. split; [lia|].
    by apply Hiff. }
  destruct (IH (a + 1)) as (r & Hr' & Hiff'); [lia..|]. exists r. split; [done|].
  rewrite Hiff'. split; intros (n & Hn & Hends).
  - exists n. split; [lia|done].
  - exists n. split; [|done]. destruct (decide (n = a)) as [->|]; [|lia].
    by apply Hiff in Hends.
Qed.

(** For some pattern length within the bounds (the lower one raised to 1) the tokens end in
    at least two, namely [min_count], consecutive copies of one block of that length. *)
Definition repeats (tokens : list Z) (params : RepetitionDetectionParams) : Prop :=
  2 ≤ min_count params ∧
  ∃ n, Z.max 1 (min_pattern_size params) ≤ n ≤ max_pattern_size params ∧
       ends_in_copies tokens n (min_count params).

(** The early exit on long patterns loses nothing and no index is out of range. *)
Lemma check_sequence_repetition_spec tokens params :
  ∃ b, check_sequence_repetition tokens params = Ok b ∧ (b = true ↔ repeats tokens params).
Proof.
  unfold repeats.
  unfold check_sequence_repetition. set (a := if decide _ then 1 else _).
  assert (a = Z.max 1 (min_pattern_size params)) as -> by (unfold a; case_decide; lia).
  case_decide as Hbad.
  { exists false. split; [done|]. split; [done|]. intros (Hc & n & Hn & _). lia. }
  destruct (check_lengths_spec tokens (min_count params) (Z.max 1 (min_pattern_size params))
              (max_pattern_size params + 1)) as (b & Hb & Hiff); [lia..|].
  exists b. split; [done|]. rewrite Hiff. split.
  - intros (n & Hn & Hends). split; [lia|]. exists n. split; [lia|done].
  - intros (_ & n & Hn & Hends). exists n. split; [lia|done].
Qed.

Lemma remove_first_filter {A} `{EqDecision A} (l : list A) x :
  NoDup l → remove_first l x = filter (λ y, y ≠ x) l.
Proof.
  induction 1 as [|y l Hy Hl IH]; [done|]. simpl. case_decide as Hyx.
  - subst. rewrite filter_cons_False by tauto. symmetry. apply filter_all.
    intros z Hz ->. tauto.
  - by rewrite filter_cons_True, IH by done.
Qed.

(** ** The properties *)

(** On a list without duplicates [remove_all] removes exactly the given items and keeps
    the order of the others, on the empty, the single-item and the general path, whatever
    order the set is iterated in. *)
Lemma remove_all_exact {A} `{Countable A} `{SetIter} (lst : list A) (items : gset A) :
  NoDup lst → remove_all lst items = filter (λ x, x ∉ items) lst.
Proof.
  intros Hnd. unfold remove_all. case_decide as Hempty.
  { subst. symmetry. apply filter_all. set_solver. }
  case_decide as Hsize; [|done].
  destruct (size_1_elem_of items Hsize) as [x Hx]. apply leibniz_equiv in Hx. subst items.
  assert (iter_set {[x]} = [x]) as ->.
  { apply Permutation_singleton_r. rewrite iter_set_perm. by rewrite elements_singleton. }
  rewrite remove_first_filter by done. apply list_filter_iff. set_solver.
Qed.

(** Why a request has stopped after its last output token, in order of precedence. *)
Definition hit_stop_token (sp : SamplingParams) (t : Z) : Prop :=
  eos_token_id sp = Some t ∨ t ∈ default [] (stop_token_ids sp).
Definition hit_length_cap (r : Request) (max_model_len : Z) : Prop :=
  max_model_len ≤ num_tokens r ∨ max_tokens r ≤ num_output_tokens r.
Definition hit_repetition (sp : SamplingParams) (r : Request) : Prop :=
  min_tokens sp ≤ num_output_tokens r ∧
  ∃ params, repetition_detection sp = Some params ∧ repeats (output_token_ids r) params.

(** The status and the stop reason that the request is left with. *)
Definition stopped_as (r : Request) (st : RequestStatus) (why : option StopReason) (r' : Request) : Prop :=
  r' = r <| status := st |> <| stop_reason := why |>.

(** C29: a request that generates text stops exactly when it should, with the right reason.
    After at least one output token [check_stop] returns; it reports a stop if and only if
    the last token is a stop token, or a length cap is reached, or the minimum number of
    tokens is out and the output ends in the configured number of copies of one block of
    tokens, of a length within the configured bounds.  The end-of-sequence token, the stop
    tokens, the caps and repetition take precedence in this order; the status and the stop
    reason say which it was, and nothing else of the request changes; without a stop nothing
    changes at all. *)
Theorem check_stop_exact r sp max_model_len outs t :
  pooling_params r = None → sampling_params r = Some sp → output_token_ids r = outs ++ [t] →
  ∃ b r', check_stop r max_model_len = Ok (b, r') ∧
    (b = true ↔ hit_stop_token sp t ∨ hit_length_cap r max_model_len ∨ hit_repetition sp r) ∧
    (b = false → r' = r) ∧
    (b = true → (eos_token_id sp = Some t ∧ stopped_as r FINISHED_STOPPED (stop_reason r) r') ∨
       (eos_token_id sp ≠ Some t ∧ hit_stop_token sp t ∧ stopped_as r FINISHED_STOPPED (Some (StopToken t)) r') ∨
       (¬ hit_stop_token sp t ∧ hit_length_cap r max_model_len ∧
        stopped_as r FINISHED_LENGTH_CAPPED (stop_reason r) r') ∨
       (¬ hit_stop_token sp t ∧ ¬ hit_length_cap r max_model_len ∧ hit_repetition sp r ∧
        stopped_as r FINISHED_REPETITION (Some (StopString "repetition_detected")) r')).
Proof.
  intros Hpool Hsp Hout. unfold check_stop. rewrite Hpool, Hsp.
  assert (index (output_token_ids r) (-1) = Ok t) as -> by (rewrite Hout; apply index_last).
  cbn [mbind res_bind].
  unfold hit_stop_token, hit_length_cap, hit_repetition, stopped_as.
  destruct (decide (eos_token_id sp = Some t)) as [He|He].
  { eexists true, _. split; [done|]. split_and!; [tauto|done|]. intros _. left. by destruct r. }
  destruct (decide (t ∈ _)) as [Hst|Hst].
  { eexists true, _. split; [done|]. split_and!; [tauto|done|]. intros _. right. left. tauto. }
  destruct (decide (_ ∨ _)) as [Hl|Hl].
  { eexists true, _. split; [done|]. split_and!; [tauto|done|]. intros _. do 2 right. left.
    split_and!; [tauto|tauto|by destruct r]. }
  destruct (decide (_ < _)) as [Hm|Hm].
  { exists false, r. split; [done|]. split_and!; [|done..]. split; [done|]. intros [?|[?|[? _]]]; tauto || lia. }
  destruct (repetition_detection sp) as [params|].
  2:{ exists false, r. split; [done|]. split_and!; [|done..]. naive_solver. }
  destruct (check_sequence_repetition_spec (output_token_ids r) params) as (b & Hb & Hiff).
  rewrite Hb. cbn [mbind res_bind]. destruct b.
  - assert (repeats (output_token_ids r) params) as Hrep by tauto.
    eexists true, _. split; [done|]. split_and!; [naive_solver lia|done|].
    intros _. do 3 right. split_and!; [tauto|tauto|lia|eauto|done].
  - exists false, r. split; [done|]. split_and!; [|done..].
    split; [done|]. intros [?|[?|(_ & params' & [= <-] & Hrep)]]; [tauto..|]. by apply Hiff in Hrep.
Qed.

(** A request whose output [7; 5; 7; 5] repeats a block of two tokens. *)
Definition looping_params : SamplingParams :=
  mkSamplingParams (Some 16) 2 (Some 2) (Some [9]) (Some (mkRepetition 3 1 2)) None false None.
Definition looping_request : Request :=
  (inhabitant (A := Request)) <| sampling_params := Some looping_params |>
    <| max_tokens := 16 |> <| output_token_ids := [7; 5; 7; 5] |>
    <| all_token_ids := [1; 7; 5; 7; 5] |>.

Lemma check_stop_exact_witness :
  ∃ r', check_stop looping_request 100 = Ok (true, r') ∧ hit_repetition looping_params looping_request ∧
    status r' = FINISHED_REPETITION.
Proof.
  destruct (check_stop_exact looping_request looping_params 100 [7; 5; 7] 5)
    as (b & r' & Hb & _ & _ & Hwhy); [reflexivity..|].
  assert (b = true) as -> by (vm_compute in Hb; congruence).
  exists r'. split; [exact Hb|].
  destruct (Hwhy eq_refl) as [[He _]|[(_ & Hs & _)|[(_ & Hl & _)|(_ & _ & Hr & Hf)]]].
  - discriminate He.
  - exfalso. revert Hs. apply (bool_decide_unpack _). vm_compute. exact I.
  - exfalso. revert Hl. apply (bool_decide_unpack _). vm_compute. exact I.
  - rewrite Hf. exact (conj Hr eq_refl).
Defined.
