(* ===== verification/EncoderCache.v ===== *)
(** * Encoder cache managers (src/vllm/v1/core/encoder_cache_manager.py)

    Bookkeeping of the encoder outputs of multi-modal inputs: capacity, references by
    requests, lazy eviction.  The interface is a class, with the manager for multi-modal
    models and the one for encoder-decoder models as instances. *)

From S2P Require Import Prelude FreeQueue Request.

(** ** The interface *)

Class EncoderManager (S : Type) := {
  mgr_reset : M S unit;
  mgr_check_and_update_cache : Request → Z → M S bool;
  mgr_can_allocate : Request → Z → Z → Z → M S bool;
  mgr_allocate : Request → Z → M S unit;
  mgr_get_cached_input_ids : Request → M S (gset Z);
  mgr_free_encoder_input : Request → Z → M S unit;
  mgr_free : Request → M S unit;
  mgr_get_freed_mm_hashes : M S (list string)
}.

(** ** EncoderCacheManager *)

Record EncoderCacheManager := mkEncoderCacheManager {
  cache_size : Z;
  num_free_slots : Z;
  num_freeable_slots : Z;
  cached : gmap string (gset string);
  request_cached_ids : gmap string (gset Z);
  freeable : list (string * Z);
  freed : list string
}.
#[export] Instance eta_EncoderCacheManager : Eta EncoderCacheManager := λ s,
  mkEncoderCacheManager (cache_size s) (num_free_slots s) (num_freeable_slots s) (cached s)
    (request_cached_ids s) (freeable s) (freed s).

Definition new_EncoderCacheManager (cache_size : Z) : EncoderCacheManager :=
  mkEncoderCacheManager cache_size cache_size cache_size ∅ ∅ [] [].

Definition reset : M EncoderCacheManager unit :=
  modify (λ s, s <| cached := ∅ |> <| request_cached_ids := ∅ |> <| freeable := [] |>
                 <| freed := [] |> <| num_free_slots := cache_size s |>
                 <| num_freeable_slots := cache_size s |>).

(** [request.mm_features[input_id].identifier] *)
Definition mm_identifier (request : Request) (input_id : Z) : res string :=
  f ← index (mm_features request) input_id; Ok (identifier f).

(** [self.cached[mm_hash].add(request_id)] and
    [self.request_cached_ids.setdefault(request_id, set()).add(input_id)] *)
Definition add_reference (mm_hash request_id : string) (input_id : Z) :
    M EncoderCacheManager unit :=
  refs ← gets (λ s, cached s !! mm_hash : option (gset string));
  match refs with
  | None => raise KeyError
  | Some refs =>
      modify (λ s, s <| cached ::= <[mm_hash := refs ∪ {[request_id]}]> |>);;
      modify (λ s, s <| request_cached_ids ::= λ d,
        <[request_id := default ∅ (d !! request_id) ∪ {[input_id]}]> d |>)
  end.

Definition check_and_update_cache (request : Request) (input_id : Z) :
    M EncoderCacheManager bool :=
  mm_hash ← lift_res (mm_identifier request input_id);
  refs ← gets (λ s, cached s !! mm_hash : option (gset string));
  match refs with
  | None => mret false
  | Some refs =>
      (if decide (refs = ∅) then
         n ← gets (λ s, dict_get (freeable s) mm_hash);
         match n with
         | None => raise KeyError
         | Some num_encoder_embeds =>
             modify (λ s, s <| freeable ::= λ d, dict_del d mm_hash |>);;
             modify (λ s, s <| num_freeable_slots ::= λ n, n - num_encoder_embeds |>)
         end
       else mret tt);;
      add_reference mm_hash (request_id request) input_id;;
      mret true
  end.

(** The eviction loop of [can_allocate]; [entries] is [freeable]. *)
Fixpoint evict_loop (num_embeds : Z) (entries : list (string * Z)) : M EncoderCacheManager unit :=
  free_slots ← gets num_free_slots;
  if decide (num_embeds > free_slots) then
    match entries with
    | [] => raise KeyError
    | (mm_hash, num_free_embeds) :: entries =>
        modify (λ s, s <| freeable := entries |>);;
        refs ← gets (λ s, cached s !! mm_hash : option (gset string));
        match refs with
        | None => raise KeyError
        | Some _ =>
            modify (λ s, s <| cached ::= delete mm_hash |>);;
            modify (λ s, s <| freed ::= λ l, l ++ [mm_hash] |>);;
            modify (λ s, s <| num_free_slots ::= λ n, n + num_free_embeds |>);;
            evict_loop num_embeds entries
        end
    end
  else mret tt.

Definition can_allocate (request : Request) (input_id encoder_compute_budget
    num_embeds_to_schedule : Z) : M EncoderCacheManager bool :=
  num_embeds ← lift_res (get_num_encoder_embeds request input_id);
  if decide (num_embeds > encoder_compute_budget) then mret false
  else
    let num_embeds := num_embeds + num_embeds_to_schedule in
    s ← gets (λ s, s);
    if decide (num_embeds ≤ num_free_slots s) then mret true
    else if decide (num_embeds > num_freeable_slots s) then mret false
    else
      evict_loop num_embeds (freeable s);;
      mret true.

Definition allocate (request : Request) (input_id : Z) : M EncoderCacheManager unit :=
  mm_hash ← lift_res (mm_identifier request input_id);
  modify (λ s, s <| cached ::= λ c, if decide (c !! mm_hash = None) then <[mm_hash := ∅]> c else c |>);;
  num_encoder_embeds ← lift_res (get_num_encoder_embeds request input_id);
  s ← gets (λ s, s);
  assert_ (num_encoder_embeds <=? num_free_slots s);;
  assert_ (num_encoder_embeds <=? num_freeable_slots s);;
  add_reference mm_hash (request_id request) input_id;;
  modify (λ s, s <| num_free_slots ::= λ n, n - num_encoder_embeds |>);;
  modify (λ s, s <| num_freeable_slots ::= λ n, n - num_encoder_embeds |>).

Definition get_cached_input_ids (request : Request) : M EncoderCacheManager (gset Z) :=
  gets (λ s, default ∅ (request_cached_ids s !! request_id request)).

(** [any(request.mm_features[other_id].identifier == mm_hash for other_id in ids)] *)
Fixpoint any_other_occurrence (request : Request) (mm_hash : string) (ids : list Z) : res bool :=
  match ids with
  | [] => Ok false
  | other_id :: ids =>
      h ← mm_identifier request other_id;
      if decide (h = mm_hash) then Ok true else any_other_occurrence request mm_hash ids
  end.

(** Drop [input_id] from the inputs recorded for the request. *)
Definition forget_input (req_id : string) (input_id : Z) : M EncoderCacheManager unit :=
  ids ← gets (λ s, request_cached_ids s !! req_id : option (gset Z));
  match ids with
  | None => mret tt
  | Some ids =>
      let ids := ids ∖ {[input_id]} in
      modify (λ s, s <| request_cached_ids ::= <[req_id := ids]> |>);;
      if decide (ids = ∅) then modify (λ s, s <| request_cached_ids ::= delete req_id |>)
      else mret tt
  end.

Section set_order.
Context `{SetIter}.

Definition free_encoder_input (request : Request) (input_id : Z) : M EncoderCacheManager unit :=
  let req_id := request_id request in
  mm_hash ← lift_res (mm_identifier request input_id);
  forget_input req_id input_id;;
  refs ← gets (λ s, default ∅ (cached s !! mm_hash) : gset string);
  if decide (refs = ∅) then mret tt
  else
    ids ← gets (λ s, default ∅ (request_cached_ids s !! req_id) : gset Z);
    occurs ← lift_res (any_other_occurrence request mm_hash (iter_set ids));
    if (occurs : bool) then mret tt
    else
      let refs := refs ∖ {[req_id]} in
      modify (λ s, s <| cached ::= <[mm_hash := refs]> |>);;
      if decide (refs = ∅) then
        num_encoder_embeds ← lift_res (get_num_encoder_embeds request input_id);
        modify (λ s, s <| freeable ::= λ d, dict_set d mm_hash num_encoder_embeds |>);;
        modify (λ s, s <| num_freeable_slots ::= λ n, n + num_encoder_embeds |>)
      else mret tt.

Definition free (request : Request) : M EncoderCacheManager unit :=
  ids ← get_cached_input_ids request;
  for_ (iter_set ids) (free_encoder_input request).
End set_order.

Definition get_freed_mm_hashes : M EncoderCacheManager (list string) :=
  hashes ← gets (λ s, filter (λ mm_hash, cached s !! mm_hash = None) (freed s));
  modify (λ s, s <| freed := [] |>);;
  mret hashes.

#[export] Instance EncoderCacheManager_manager `{SetIter} : EncoderManager EncoderCacheManager := {|
  mgr_reset := reset;
  mgr_check_and_update_cache := check_and_update_cache;
  mgr_can_allocate := can_allocate;
  mgr_allocate := allocate;
  mgr_get_cached_input_ids := get_cached_input_ids;
  mgr_free_encoder_input := free_encoder_input;
  mgr_free := free;
  mgr_get_freed_mm_hashes := get_freed_mm_hashes
|}.

(** ** EncoderDecoderCacheManager *)

Record EncoderDecoderCacheManager := mkEncoderDecoderCacheManager {
  ed_cache_size : Z;
  ed_num_free_slots : Z;
  ed_allocated : list string;
  ed_to_free : list string
}.
#[export] Instance eta_EncoderDecoderCacheManager : Eta EncoderDecoderCacheManager := λ s,
  mkEncoderDecoderCacheManager (ed_cache_size s) (ed_num_free_slots s) (ed_allocated s)
    (ed_to_free s).

Definition new_EncoderDecoderCacheManager (cache_size : Z) : EncoderDecoderCacheManager :=
  mkEncoderDecoderCacheManager cache_size cache_size [] [].

Definition ed_reset : M EncoderDecoderCacheManager unit :=
  modify (λ s, s <| ed_num_free_slots := ed_cache_size s |> <| ed_allocated := [] |>
                 <| ed_to_free := [] |>).

Definition ed_check_and_update_cache (request : Request) (input_id : Z) :
    M EncoderDecoderCacheManager bool := mret false.

Definition ed_can_allocate (request : Request) (input_id encoder_compute_budget
    num_embeds_to_schedule : Z) : M EncoderDecoderCacheManager bool :=
  num_encoder_embeds ← lift_res (get_num_encoder_embeds request input_id);
  if decide (num_encoder_embeds > encoder_compute_budget) then mret false
  else
    let num_encoder_embeds := num_encoder_embeds + num_embeds_to_schedule in
    free_slots ← gets ed_num_free_slots;
    mret (num_encoder_embeds <=? free_slots).

Definition ed_allocate (request : Request) (input_id : Z) : M EncoderDecoderCacheManager unit :=
  num_encoder_embeds ← lift_res (get_num_encoder_embeds request input_id);
  modify (λ s, s <| ed_num_free_slots ::= λ n, n - num_encoder_embeds |>);;
  mm_hash ← lift_res (mm_identifier request input_id);
  modify (λ s, s <| ed_allocated ::= λ l, l ++ [mm_hash] |>).

Definition ed_free_encoder_input (request : Request) (input_id : Z) :
    M EncoderDecoderCacheManager unit :=
  num_encoder_embeds ← lift_res (get_num_encoder_embeds request input_id);
  modify (λ s, s <| ed_num_free_slots ::= λ n, n + num_encoder_embeds |>).

Definition ed_free (request : Request) : M EncoderDecoderCacheManager unit :=
  for_ (range 0 (len (mm_features request))) (ed_free_encoder_input request).

Definition ed_get_cached_input_ids (request : Request) : M EncoderDecoderCacheManager (gset Z) :=
  mret (list_to_set (range 0 (len (mm_features request)))).

Definition ed_get_freed_mm_hashes : M EncoderDecoderCacheManager (list string) :=
  to_free ← gets ed_to_free;
  modify (λ s, s <| ed_to_free := ed_allocated s |>);;
  modify (λ s, s <| ed_allocated := [] |>);;
  mret to_free.

#[export] Instance EncoderDecoderCacheManager_manager :
    EncoderManager EncoderDecoderCacheManager := {|
  mgr_reset := ed_reset;
  mgr_check_and_update_cache := ed_check_and_update_cache;
  mgr_can_allocate := ed_can_allocate;
  mgr_allocate := ed_allocate;
  mgr_get_cached_input_ids := ed_get_cached_input_ids;
  mgr_free_encoder_input := ed_free_encoder_input;
  mgr_free := ed_free;
  mgr_get_freed_mm_hashes := ed_get_freed_mm_hashes
|}.

(** ** Budgets *)

(** The fields of [SchedulerConfig] that the encoder budget reads. *)
Record EncoderSchedulerConfig := mkEncoderSchedulerConfig {
  disable_chunked_mm_input : bool;
  max_num_batched_tokens : Z;
  max_num_encoder_input_tokens : Z;
  encoder_cache_size : Z
}.

Definition compute_mm_encoder_budget (scheduler_config : EncoderSchedulerConfig)
    (mm_max_toks_per_item : list (string * Z)) : res (Z * Z) :=
  match mm_max_toks_per_item.*2 with
  | [] => Ok (0, 0)
  | v :: vs =>
      let max_tokens_per_mm_item := foldl Z.max v vs in
      if decide (disable_chunked_mm_input scheduler_config = true ∧
                 max_tokens_per_mm_item > max_num_batched_tokens scheduler_config)
      then Raise ValueError
      else Ok (Z.max (max_num_encoder_input_tokens scheduler_config) max_tokens_per_mm_item,
               Z.max (encoder_cache_size scheduler_config) max_tokens_per_mm_item)
  end.

(** ** Slot accounting *)

Section accounting.
(** The number of embeddings of an item, by its identifier. *)
Variable embeds : string → Z.

Definition held_slots (c : gmap string (gset string)) : Z := map_sum (λ h _, embeds h) c.

Lemma held_slots_insert_new c h X :
  c !! h = None → held_slots (<[h := X]> c) = embeds h + held_slots c.
Proof. intros Hh. by apply map_sum_insert_new. Qed.

Lemma held_slots_delete c h X :
  c !! h = Some X → held_slots (delete h c) = held_slots c - embeds h.
Proof. intros Hh. by apply (map_sum_delete (λ h _, embeds h) c h X). Qed.

Lemma held_slots_update c h X Y :
  c !! h = Some X → held_slots (<[h := Y]> c) = held_slots c.
Proof. intros Hh. unfold held_slots. rewrite (map_sum_update _ c h X Y) by done. lia. Qed.

(** The counters and [freeable] describe [cached]: [freeable] lists the entries that no
    request references, each with its size, and every entry occupies its size. *)
Record slots_wf (size nf nfa : Z) (c : gmap string (gset string)) (fr : list (string * Z)) :
    Prop := mk_slots_wf {
  sw_nodup : NoDup fr.*1;
  sw_unreferenced h : h ∈ fr.*1 ↔ c !! h = Some ∅;
  sw_sizes h n : (h, n) ∈ fr → n = embeds h;
  sw_free : nf = size - held_slots c;
  sw_freeable : nfa = nf + sumZ fr.*2;
  sw_nonneg : 0 ≤ nf
}.

Hypothesis embeds_nonneg : ∀ h, 0 ≤ embeds h.

Lemma freeable_nonneg size nf nfa c fr : slots_wf size nf nfa c fr → 0 ≤ sumZ fr.*2.
Proof.
  intros Hwf. apply sumZ_nonneg. intros n ([h m] & -> & Hin)%list_elem_of_fmap. simpl.
  rewrite (sw_sizes _ _ _ _ _ Hwf h m Hin). apply embeds_nonneg.
Qed.

Lemma sumZ_dict_del (d : list (string * Z)) h n :
  dict_get d h = Some n → sumZ (dict_del d h).*2 = sumZ d.*2 - n.
Proof.
  induction d as [|[k m] d IH]; [done|]. cbn [dict_get dict_del]. case_decide; intros Hd.
  - rewrite fmap_cons, sumZ_cons. simpl. injection Hd as <-. lia.
  - rewrite !fmap_cons, !sumZ_cons, IH by done. lia.
Qed.

Lemma slots_new size : 0 ≤ size → slots_wf size size size ∅ [].
Proof.
  intros Hs. split; simpl.
  - constructor.
  - intros h. rewrite lookup_empty. split; [by intros ?%elem_of_nil|done].
  - by intros h n ?%elem_of_nil.
  - unfold held_slots. rewrite map_sum_empty. lia.
  - lia.
  - lia.
Qed.

(** A request starts to reference an unreferenced entry. *)
Lemma slots_reuse size nf nfa c fr h X :
  slots_wf size nf nfa c fr → c !! h = Some ∅ → X ≠ ∅ →
  ∃ n, dict_get fr h = Some n ∧ slots_wf size nf (nfa - n) (<[h := X]> c) (dict_del fr h).
Proof.
  intros [Hnd Hun Hsz Hf Hfa Hnn] Hh HX.
  destruct (dict_get fr h) as [n|] eqn:Hget.
  2:{ apply dict_get_None in Hget. by rewrite Hun in Hget. }
  exists n. split; [done|]. split.
  - by apply dict_del_NoDup.
  - intros k. rewrite <-dict_get_is_Some, dict_get_del by done.
    destruct (decide (h = k)) as [<-|Hne].
    + rewrite lookup_insert_eq. split; [by intros []|congruence].
    + by rewrite lookup_insert_ne, <-Hun, dict_get_is_Some by done.
  - intros k m Hin. apply Hsz. by eapply elem_of_sublist, dict_del_sublist.
  - by rewrite (held_slots_update c h ∅).
  - rewrite (sumZ_dict_del _ _ n) by done. lia.
  - done.
Qed.

(** The references of an entry change and remain. *)
Lemma slots_rereference size nf nfa c fr h X Y :
  slots_wf size nf nfa c fr → c !! h = Some X → X ≠ ∅ → Y ≠ ∅ →
  slots_wf size nf nfa (<[h := Y]> c) fr.
Proof.
  intros [Hnd Hun Hsz Hf Hfa Hnn] Hh HX HY. split; try done.
  - intros k. rewrite Hun. destruct (decide (h = k)) as [<-|Hne].
    + rewrite lookup_insert_eq. split; congruence.
    + by rewrite lookup_insert_ne.
  - by rewrite (held_slots_update c h X).
Qed.

(** A new entry. *)
Lemma slots_allocate size nf nfa c fr h X :
  slots_wf size nf nfa c fr → c !! h = None → X ≠ ∅ → embeds h ≤ nf →
  embeds h ≤ nfa ∧ slots_wf size (nf - embeds h) (nfa - embeds h) (<[h := X]> c) fr.
Proof.
  intros Hwf Hh HX Hle. pose proof (freeable_nonneg _ _ _ _ _ Hwf) as Hnonneg.
  destruct Hwf as [Hnd Hun Hsz Hf Hfa Hnn]. split; [lia|]. split; try done.
  - intros k. rewrite Hun. destruct (decide (h = k)) as [<-|Hne].
    + rewrite lookup_insert_eq. split; congruence.
    + by rewrite lookup_insert_ne.
  - rewrite held_slots_insert_new by done. lia.
  - lia.
  - lia.
Qed.

(** The last reference goes. *)
Lemma slots_release size nf nfa c fr h X :
  slots_wf size nf nfa c fr → c !! h = Some X → X ≠ ∅ →
  slots_wf size nf (nfa + embeds h) (<[h := ∅]> c) (dict_set fr h (embeds h)).
Proof.
  intros [Hnd Hun Hsz Hf Hfa Hnn] Hh HX.
  assert (dict_get fr h = None) as Hget.
  { apply dict_get_None. rewrite Hun. congruence. }
  rewrite dict_set_keys_None by done. split.
  - rewrite fmap_app. apply NoDup_app. split_and!; [done| |apply NoDup_singleton].
    intros k Hk ->%list_elem_of_singleton. apply Hun in Hk. simpl in Hk. congruence.
  - intros k. rewrite fmap_app, elem_of_app, Hun. simpl. rewrite list_elem_of_singleton.
    destruct (decide (h = k)) as [<-|Hne].
    + rewrite lookup_insert_eq. tauto.
    + rewrite lookup_insert_ne by done. naive_solver.
  - intros k n [Hin|Heq%list_elem_of_singleton]%elem_of_app; [by apply Hsz|]. congruence.
  - by rewrite (held_slots_update c h X).
  - rewrite fmap_app, sumZ_app. simpl. lia.
  - done.
Qed.

(** The oldest unreferenced entry is evicted. *)
Lemma slots_evict size nf nfa c h n fr :
  slots_wf size nf nfa c ((h, n) :: fr) →
  c !! h = Some ∅ ∧ slots_wf size (nf + n) nfa (delete h c) fr.
Proof.
  intros [Hnd Hun Hsz Hf Hfa Hnn]. rewrite fmap_cons in Hnd. rewrite fmap_cons, sumZ_cons in Hfa.
  cbn [fst snd] in *. apply NoDup_cons in Hnd as [Hh Hnd].
  assert (c !! h = Some ∅) as Hc by (apply Hun; by left).
  assert (n = embeds h) as Hn by (apply Hsz; by left).
  pose proof (embeds_nonneg h). split; [done|]. split.
  - done.
  - intros k. specialize (Hun k). rewrite fmap_cons, elem_of_cons in Hun. cbn [fst] in Hun.
    destruct (decide (h = k)) as [<-|Hne].
    + rewrite lookup_delete_eq. split; [done|congruence].
    + rewrite lookup_delete_ne by done. naive_solver.
  - intros k m Hin. apply Hsz. by right.
  - rewrite (held_slots_delete c h ∅) by done. lia.
  - lia.
  - lia.
Qed.
End accounting.

(** ** References *)

Definition recorded (ids : gmap string (gset Z)) (rid : string) (i : Z) : Prop :=
  i ∈ default ∅ (ids !! rid).
Definition referenced (c : gmap string (gset string)) (rid h : string) : Prop :=
  rid ∈ default ∅ (c !! h).

Lemma referenced_insert c h X rid k :
  referenced (<[h := X]> c) rid k ↔ if decide (k = h) then rid ∈ X else referenced c rid k.
Proof.
  unfold referenced. case_decide as Hk; [subst; by rewrite lookup_insert_eq|].
  by rewrite lookup_insert_ne.
Qed.

Lemma recorded_insert ids rid X rid' i :
  recorded (<[rid := X]> ids) rid' i ↔ if decide (rid' = rid) then i ∈ X else recorded ids rid' i.
Proof.
  unfold recorded. case_decide as Hk; [subst; by rewrite lookup_insert_eq|].
  by rewrite lookup_insert_ne.
Qed.

(** What [forget_input] leaves. *)
Definition forget_ids (ids : gmap string (gset Z)) (rid : string) (i : Z) : gmap string (gset Z) :=
  match ids !! rid with
  | None => ids
  | Some X => if decide (X ∖ {[i]} = ∅) then delete rid ids else <[rid := X ∖ {[i]}]> ids
  end.

Lemma recorded_forget ids rid i rid' j :
  recorded (forget_ids ids rid i) rid' j ↔ recorded ids rid' j ∧ ¬ (rid' = rid ∧ j = i).
Proof.
  unfold recorded, forget_ids. destruct (ids !! rid) as [X|] eqn:HX.
  2:{ destruct (decide (rid' = rid)) as [->|]; [rewrite HX|]; set_solver. }
  destruct (decide (rid = rid')) as [<-|Hne].
  - rewrite HX. case_decide as Hd; [rewrite lookup_delete_eq|rewrite lookup_insert_eq]; set_solver.
  - case_decide as Hd; [rewrite lookup_delete_ne by done|rewrite lookup_insert_ne by done];
      set_solver.
Qed.

Section references.
(** The identifier of an input of a request. *)
Variable ident : string → Z → option string.

(** A request references an entry exactly when one of its recorded inputs is that item. *)
Record refs_wf (c : gmap string (gset string)) (ids : gmap string (gset Z)) : Prop := mk_refs_wf {
  rw_ident rid i : recorded ids rid i → is_Some (ident rid i);
  rw_refs rid h : referenced c rid h ↔ ∃ i, recorded ids rid i ∧ ident rid i = Some h;
  rw_nonempty rid X : ids !! rid = Some X → X ≠ ∅
}.

Lemma refs_new : refs_wf ∅ ∅.
Proof.
  split; unfold recorded, referenced.
  - intros rid i. rewrite lookup_empty. set_solver.
  - intros rid h. setoid_rewrite lookup_empty. set_solver.
  - intros rid X. by rewrite lookup_empty.
Qed.

Lemma refs_same_references c c' ids :
  refs_wf c ids → (∀ rid h, referenced c' rid h ↔ referenced c rid h) → refs_wf c' ids.
Proof. intros [H1 H2 H3] Hsame. split; try done. intros rid h. by rewrite Hsame. Qed.

Lemma refs_evict c ids h : refs_wf c ids → c !! h = Some ∅ → refs_wf (delete h c) ids.
Proof.
  intros Hwf Hh. apply (refs_same_references c); [done|]. intros rid k. unfold referenced.
  destruct (decide (h = k)) as [<-|Hne]; [|by rewrite lookup_delete_ne].
  by rewrite lookup_delete_eq, Hh.
Qed.

Lemma refs_add c ids rid i h X :
  refs_wf c ids → X = default ∅ (c !! h) → ident rid i = Some h →
  refs_wf (<[h := X ∪ {[rid]}]> c) (<[rid := default ∅ (ids !! rid) ∪ {[i]}]> ids).
Proof.
  intros [H1 H2 H3] -> Hi. split.
  - intros rid' j. rewrite recorded_insert. case_decide as Hr; [subst|by apply H1].
    intros [Hj|Hj]%elem_of_union; [by apply H1|]. apply elem_of_singleton in Hj. by subst.
  - intros rid' k. rewrite referenced_insert. setoid_rewrite recorded_insert.
    specialize (H2 rid' k). case_decide as Hk; case_decide as Hr; subst.
    + rewrite elem_of_union, elem_of_singleton. split; [|tauto]. intros _. exists i. set_solver.
    + rewrite elem_of_union, elem_of_singleton. unfold referenced in H2. tauto.
    + rewrite H2. split; intros (j & Hj & Hid); exists j; (split; [|done]).
      * by apply elem_of_union_l.
      * apply elem_of_union in Hj as [?|Hj]; [done|]. apply elem_of_singleton in Hj. congruence.
    + done.
  - intros rid' Y. destruct (decide (rid = rid')) as [<-|Hne].
    + rewrite lookup_insert_eq. set_solver.
    + rewrite lookup_insert_ne by done. apply H3.
Qed.

(** Dropping input [i] of request [rid], which is item [h]: the reference goes with the last
    recorded input that is this item. *)
Lemma refs_forget c ids rid i h X :
  refs_wf c ids → ident rid i = Some h → X = default ∅ (c !! h) →
  ((∃ j, recorded (forget_ids ids rid i) rid j ∧ ident rid j = Some h) ∨ X = ∅ →
     refs_wf c (forget_ids ids rid i)) ∧
  (¬ (∃ j, recorded (forget_ids ids rid i) rid j ∧ ident rid j = Some h) →
     refs_wf (<[h := X ∖ {[rid]}]> c) (forget_ids ids rid i)).
Proof.
  intros [H1 H2 H3] Hi HX.
  assert (∀ rid' j, recorded (forget_ids ids rid i) rid' j → is_Some (ident rid' j)) as H1'.
  { intros rid' j [Hj _]%recorded_forget. by apply H1. }
  assert (∀ rid' Y, forget_ids ids rid i !! rid' = Some Y → Y ≠ ∅) as H3'.
  { intros rid' Y. unfold forget_ids. destruct (ids !! rid) as [Z|] eqn:HZ; [|by apply H3].
    destruct (decide (rid = rid')) as [<-|Hne].
    - case_decide; [by rewrite lookup_delete_eq|rewrite lookup_insert_eq]. congruence.
    - case_decide; [rewrite lookup_delete_ne by done|rewrite lookup_insert_ne by done];
        apply H3. }
  assert (∀ rid' k, (rid', k) ≠ (rid, h) → referenced c rid' k ↔
    ∃ j, recorded (forget_ids ids rid i) rid' j ∧ ident rid' j = Some k) as Hother.
  { intros rid' k Hne. rewrite H2. setoid_rewrite recorded_forget.
    split; intros (j & Hj & Hid); exists j; [|tauto].
    split; [|done]. split; [done|]. intros [-> ->]. congruence. }
  split.
  - intros Hstays. split; [done| |done]. intros rid' k.
    destruct (decide ((rid', k) = (rid, h))) as [[= -> ->]|Hne]; [|by apply Hother].
    destruct Hstays as [Hstays|Hempty].
    + split; [done|]. intros _. apply H2. destruct Hstays as (j & [Hj _]%recorded_forget & Hid).
      by exists j.
    + split; [unfold referenced; set_solver|]. intros (j & [Hj _]%recorded_forget & Hid).
      apply H2. by exists j.
  - intros Hgone. split; [done| |done]. intros rid' k. rewrite referenced_insert.
    destruct (decide ((rid', k) = (rid, h))) as [[= -> ->]|Hne].
    + rewrite decide_True by done. set_solver.
    + rewrite <-Hother by done. unfold referenced. case_decide; [|done]. subst.
      rewrite elem_of_difference, elem_of_singleton. split; [tauto|]. split; [done|congruence].
Qed.
End references.

(** ** The invariant of the manager *)

Section manager.
Context `{SetIter}.
(** The number of embeddings of an item, and the inputs of every request.  Both are fixed:
    the identifier stands for the content of an item. *)
Variable embeds : string → Z.
Variable features : string → list MultiModalFeatureSpec.

Definition ident (rid : string) (i : Z) : option string :=
  if decide (0 ≤ i) then identifier <$> features rid !! Z.to_nat i else None.

Definition request_ok (r : Request) : Prop :=
  mm_features r = features (request_id r) ∧
  ∀ f, f ∈ mm_features r → get_num_embeds (mm_position f) = embeds (identifier f).

(** [i] is an input of the request [r], with the item [h]. *)
Definition input_of (r : Request) (i : Z) (h : string) : Prop :=
  request_ok r ∧ ident (request_id r) i = Some h.

Record enc_wf (s : EncoderCacheManager) : Prop := mk_enc_wf {
  ew_slots : slots_wf embeds (cache_size s) (num_free_slots s) (num_freeable_slots s)
               (cached s) (freeable s);
  ew_refs : refs_wf ident (cached s) (request_cached_ids s)
}.

(** Nothing that a request references is lost. *)
Definition keeps (s s' : EncoderCacheManager) : Prop :=
  cache_size s' = cache_size s ∧
  ∀ rid h, referenced (cached s) rid h → referenced (cached s') rid h.

#[global] Instance keeps_preorder : PreOrder keeps.
Proof.
  split; [by intros s|]. intros s1 s2 s3 [? H1] [? H2]. split; [congruence|]. eauto.
Qed.

Lemma input_index r i h : input_of r i h →
  0 ≤ i < len (mm_features r) ∧
  ∃ f, index (mm_features r) i = Ok f ∧ identifier f = h ∧ get_num_embeds (mm_position f) = embeds h.
Proof.
  intros [[Hfeat Hsize] Hid]. unfold ident in Hid. case_decide as Hi; [|done].
  rewrite <-Hfeat in Hid. apply fmap_Some in Hid as (f & Hf & ->).
  split.
  - split; [done|]. apply lookup_lt_Some in Hf. unfold len. lia.
  - exists f. split; [by apply index_Ok|]. split; [done|]. apply Hsize.
    by eapply list_elem_of_lookup_2.
Qed.

Lemma mm_identifier_ok r i h : input_of r i h → mm_identifier r i = Ok h.
Proof.
  intros (_ & f & Hf & Hid & _)%input_index. unfold mm_identifier. by rewrite Hf, <-Hid.
Qed.

Lemma num_embeds_ok r i h : input_of r i h → get_num_encoder_embeds r i = Ok (embeds h).
Proof.
  intros ([_ Hi] & f & Hf & _ & Hn)%input_index. unfold get_num_encoder_embeds.
  rewrite decide_True by done. by rewrite Hf, <-Hn.
Qed.

Lemma wp_add_reference h rid i X s Q :
  cached s !! h = Some X →
  Q tt (s <| cached := <[h := X ∪ {[rid]}]> (cached s) |>
          <| request_cached_ids :=
               <[rid := default ∅ (request_cached_ids s !! rid) ∪ {[i]}]> (request_cached_ids s) |>) →
  wp (add_reference h rid i) Q s.
Proof. intros HX HQ. unfold add_reference. wp_steps. rewrite HX. wp_steps. exact HQ. Qed.

(** A hit adds the reference of the request; a miss changes nothing. *)
Lemma check_and_update_cache_spec r i h s :
  enc_wf s → input_of r i h →
  wp (check_and_update_cache r i) (λ b s',
    enc_wf s' ∧ keeps s s' ∧ dom (cached s') = dom (cached s) ∧ freed s' = freed s ∧
    num_free_slots s' = num_free_slots s ∧ b = bool_decide (h ∈ dom (cached s)) ∧
    (b = true → referenced (cached s') (request_id r) h)) s.
Proof.
  intros [Hsl Hrf] Hin. unfold check_and_update_cache. apply wp_bind.
  apply (wp_lift _ h); [by apply mm_identifier_ok|]. do 2 wp_step.
  assert (∀ X : gset string, (cached s !! h = Some X) → ∀ rid k, referenced (cached s) rid k →
    referenced (<[h := X ∪ {[request_id r]}]> (cached s)) rid k) as Hkeep.
  { intros X HX rid k Href. apply referenced_insert. case_decide; [|done]. subst.
    unfold referenced in Href. rewrite HX in Href. set_solver. }
  destruct (cached s !! h) as [X|] eqn:HX.
  2:{ apply wp_ret. split_and!; try done. rewrite bool_decide_eq_false_2; [done|].
      by apply not_elem_of_dom. }
  assert (true = bool_decide (h ∈ dom (cached s))) as Hdom.
  { symmetry. apply bool_decide_eq_true_2. apply elem_of_dom_2 with X. done. }
  assert (dom (<[h := X ∪ {[request_id r]}]> (cached s)) = dom (cached s)) as Hdom'.
  { rewrite dom_insert_lookup_L; [done|]. by exists X. }
  pose proof (refs_add ident _ _ (request_id r) i h X Hrf) as Hrf'.
  rewrite HX in Hrf'. specialize (Hrf' eq_refl (proj2 Hin)).
  destruct (decide (X = ∅)) as [HXe|HXe].
  - subst X. destruct (slots_reuse embeds _ _ _ _ _ h (∅ ∪ {[request_id r]}) Hsl HX)
      as (n & Hn & Hsl'); [set_solver|].
    apply wp_bind. apply wp_bind. wp_step. rewrite Hn. apply wp_bind. wp_step. wp_step. apply wp_bind.
    apply (wp_add_reference _ _ _ ∅); [done|]. apply wp_ret.
    split; [split; [exact Hsl'|exact Hrf']|]. split; [split; [done|exact (Hkeep _ eq_refl)]|].
    split_and!; try done. intros _. apply referenced_insert. rewrite decide_True by done. set_solver.
  - apply wp_bind. apply wp_ret. apply wp_bind. apply (wp_add_reference _ _ _ X); [done|]. apply wp_ret.
    split; [split; [|exact Hrf']|].
    { apply (slots_rereference embeds _ _ _ _ _ h X); [done..|]. set_solver. }
    split; [split; [done|exact (Hkeep _ eq_refl)]|].
    split_and!; try done. intros _. apply referenced_insert. rewrite decide_True by done. set_solver.
Qed.

Hypothesis embeds_nonneg : ∀ h, 0 ≤ embeds h.

(** The loop evicts the oldest unreferenced entries, no more than needed. *)
Lemma evict_loop_spec need entries s :
  enc_wf s → freeable s = entries → need ≤ num_freeable_slots s →
  wp (evict_loop need entries) (λ _ s',
    enc_wf s' ∧ keeps s s' ∧ need ≤ num_free_slots s' ∧
    num_freeable_slots s' = num_freeable_slots s ∧
    request_cached_ids s' = request_cached_ids s ∧
    ∃ evicted, entries = evicted ++ freeable s' ∧ freed s' = freed s ++ evicted.*1 ∧
      cached s' = foldl (λ c h, delete h c) (cached s) evicted.*1 ∧
      (∀ older newest, evicted = older ++ [newest] → num_free_slots s + sumZ older.*2 < need)) s.
Proof.
  revert s. induction entries as [|[h n] entries IH]; intros s [Hsl Hrf] Hfr Hneed;
    cbn [evict_loop]; apply wp_bind; apply wp_gets; case_decide as Hgt.
  - exfalso. pose proof (sw_freeable _ _ _ _ _ _ Hsl) as Hfa. rewrite Hfr in Hfa.
    simpl in Hfa. lia.
  - apply wp_ret. split_and!; try (done || lia). exists []. rewrite Hfr.
    split_and!; [done|by rewrite app_nil_r|done|by intros [] ?].
  - rewrite Hfr in Hsl. destruct (slots_evict embeds embeds_nonneg _ _ _ _ _ _ _ Hsl) as [Hh Hsl'].
    apply wp_bind, wp_modify, wp_bind, wp_gets.
    change (cached (s <| freeable := entries |>)) with (cached s). rewrite Hh.
    do 3 (apply wp_bind, wp_modify).
    set (s1 := _ <| num_free_slots ::= _ |>).
    assert (enc_wf s1) as Hwf1 by (split; [exact Hsl'|by apply refs_evict]).
    eapply wp_mono; [by apply IH|]. simpl.
    intros _ s' (Hwf' & [Hcs' Hk'] & Hle & Hnfa & Hids & evicted & He & Hfd & Hc & Hmin).
    split; [done|]. split.
    { split; [done|]. intros rid k Href. apply Hk'. unfold referenced in *. simpl.
      destruct (decide (h = k)) as [<-|Hne]; [by rewrite Hh in Href|by rewrite lookup_delete_ne]. }
    split_and!; try done. exists ((h, n) :: evicted). split_and!.
    + by rewrite He.
    + rewrite Hfd. simpl. by rewrite <-app_assoc.
    + by rewrite Hc.
    + intros [|x older] newest Heq; simplify_eq/=; [lia|].
      specialize (Hmin older newest eq_refl). simpl in Hmin.
      change (list_fmap _ _ snd older) with older.*2. lia.
  - apply wp_ret. split_and!; try (done || lia). exists []. rewrite Hfr.
    split_and!; [done|by rewrite app_nil_r|done|by intros [] ?].
Qed.

Lemma can_allocate_spec r i h budget scheduled s :
  enc_wf s → input_of r i h →
  wp (can_allocate r i budget scheduled) (λ b s',
    enc_wf s' ∧ keeps s s' ∧
    b = bool_decide (embeds h ≤ budget ∧ embeds h + scheduled ≤ num_free_slots s + sumZ (freeable s).*2) ∧
    (b = false → s' = s) ∧ (b = true → embeds h + scheduled ≤ num_free_slots s') ∧
    ∃ evicted, freeable s = evicted ++ freeable s' ∧ freed s' = freed s ++ evicted.*1 ∧
      cached s' = foldl (λ c h, delete h c) (cached s) evicted.*1 ∧
      (∀ older newest, evicted = older ++ [newest] →
         num_free_slots s + sumZ older.*2 < embeds h + scheduled)) s.
Proof.
  intros Hwf Hin. pose proof (sw_freeable _ _ _ _ _ _ (ew_slots s Hwf)) as Hfa.
  pose proof (freeable_nonneg embeds embeds_nonneg _ _ _ _ _ (ew_slots s Hwf)) as Hnn.
  assert (∃ evicted, freeable s = evicted ++ freeable s ∧ freed s = freed s ++ evicted.*1 ∧
    cached s = foldl (λ c h, delete h c) (cached s) evicted.*1 ∧
    (∀ older newest, evicted = older ++ [newest] →
       num_free_slots s + sumZ older.*2 < embeds h + scheduled)) as Hnone.
  { exists []. split_and!; [done|by rewrite app_nil_r|done|by intros [] ?]. }
  unfold can_allocate. apply wp_bind, (wp_lift _ (embeds h)); [by apply num_embeds_ok|].
  case_decide as Hb.
  { apply wp_ret. split_and!; try done. rewrite bool_decide_eq_false_2; [done|lia]. }
  apply wp_bind, wp_gets. destruct (decide (_ ≤ _)) as [Hfit|Hfit].
  { apply wp_ret. split_and!; try done. rewrite bool_decide_eq_true_2; [done|lia]. }
  case_decide as Hmax.
  { apply wp_ret. split_and!; try done. rewrite bool_decide_eq_false_2; [done|lia]. }
  apply wp_bind. eapply wp_mono; [apply evict_loop_spec; [done|done|lia]|].
  intros _ s' (Hwf' & Hk & Hle & _ & _ & evicted & He). apply wp_ret.
  split_and!; try done.
  - rewrite bool_decide_eq_true_2; [done|lia].
  - by exists evicted.
Qed.

(** With enough free slots, a new item gets its entry. *)
Lemma allocate_spec r i h s :
  enc_wf s → input_of r i h → cached s !! h = None → embeds h ≤ num_free_slots s →
  wp (allocate r i) (λ _ s',
    enc_wf s' ∧ keeps s s' ∧ num_free_slots s' = num_free_slots s - embeds h ∧
    cached s' = <[h := {[request_id r]}]> (cached s) ∧ freed s' = freed s) s.
Proof.
  intros [Hsl Hrf] Hin Hnew Hfit.
  destruct (slots_allocate embeds embeds_nonneg _ _ _ _ _ h {[request_id r]} Hsl Hnew)
    as [Hfit' Hsl']; [set_solver|done|].
  pose proof (refs_add ident _ _ (request_id r) i h ∅ Hrf) as Hrf'.
  rewrite Hnew in Hrf'. specialize (Hrf' eq_refl (proj2 Hin)).
  unfold allocate. apply wp_bind, (wp_lift _ h); [by apply mm_identifier_ok|].
  apply wp_bind, wp_modify, wp_bind, (wp_lift _ (embeds h)); [by apply num_embeds_ok|].
  apply wp_bind, wp_gets.
  apply wp_bind, wp_assert; [by apply Z.leb_le|]. apply wp_bind, wp_assert; [by apply Z.leb_le|].
  apply wp_bind, (wp_add_reference _ _ _ ∅).
  { simpl. rewrite decide_True by done. apply lookup_insert_eq. }
  apply wp_bind, wp_modify, wp_modify. simpl. rewrite decide_True by done.
  assert (∀ c : gmap string (gset string),
    <[h := ∅ ∪ {[request_id r]}]> (<[h := ∅]> c) = <[h := {[request_id r]}]> c) as Hins.
  { intros c. by rewrite insert_insert_eq, (left_id_L ∅ (∪)). }
  rewrite Hins. rewrite (left_id_L ∅ (∪)) in Hrf'. split; [by split|]. split; [|done]. split; [done|]. simpl. intros rid k Href.
  apply referenced_insert. case_decide; [|done]. subst. unfold referenced in Href.
  by rewrite Hnew in Href.
Qed.

Lemma any_other_occurrence_spec r h ids :
  request_ok r → (∀ j, j ∈ ids → is_Some (ident (request_id r) j)) →
  ∃ b, any_other_occurrence r h ids = Ok b ∧
    (b = true ↔ ∃ j, j ∈ ids ∧ ident (request_id r) j = Some h).
Proof.
  intros Hr Hids. induction ids as [|j ids IH]; simpl.
  { exists false. split; [done|]. split; [done|]. by intros (j & ?%elem_of_nil & _). }
  destruct (Hids j) as [k Hk]; [by left|].
  rewrite (mm_identifier_ok r j k) by done. cbn [mbind res_bind]. case_decide as Heq.
  - exists true. split; [done|]. split; [|done]. intros _. exists j. subst. split; [by left|done].
  - destruct IH as (b & Hb & Hiff); [intros; apply Hids; by right|]. exists b. split; [done|].
    rewrite Hiff. setoid_rewrite elem_of_cons. split; [naive_solver|].
    intros (j' & [->|Hj'] & Hj''); [congruence|by exists j'].
Qed.

Lemma wp_forget_input rid i s Q :
  Q tt (s <| request_cached_ids := forget_ids (request_cached_ids s) rid i |>) →
  wp (forget_input rid i) Q s.
Proof.
  intros HQ. unfold forget_input, forget_ids in *. apply wp_bind, wp_gets.
  destruct (request_cached_ids s !! rid) as [X|]; [|apply wp_ret; by destruct s].
  apply wp_bind, wp_modify. case_decide; [|apply wp_ret; done]. apply wp_modify.
  revert HQ. simpl. by rewrite delete_insert_eq.
Qed.

(** Freeing an input never raises, and forgets exactly that input. *)
Lemma free_encoder_input_spec r i h s :
  enc_wf s → input_of r i h →
  wp (free_encoder_input r i) (λ _ s',
    enc_wf s' ∧ cache_size s' = cache_size s ∧ num_free_slots s' = num_free_slots s ∧
    request_cached_ids s' = forget_ids (request_cached_ids s) (request_id r) i ∧
    dom (cached s') = dom (cached s) ∧ freed s' = freed s) s.
Proof.
  intros [Hsl Hrf] Hin. pose proof Hin as [Hr Hid]. unfold free_encoder_input.
  set (rid := request_id r) in *. set (ids' := forget_ids (request_cached_ids s) rid i).
  destruct (refs_forget ident (cached s) (request_cached_ids s) rid i h _ Hrf Hid eq_refl)
    as [Hstay Hgo]. fold ids' in Hstay, Hgo.
  apply wp_bind, (wp_lift _ h); [by apply mm_identifier_ok|].
  apply wp_bind, wp_forget_input. fold ids'. apply wp_bind, wp_gets. simpl.
  case_decide as Hempty.
  { apply wp_ret. split_and!; try done. split; [exact Hsl|]. apply Hstay. by right. }
  destruct (cached s !! h) as [X|] eqn:HX; simpl in *; [|done].
  apply wp_bind, wp_gets. simpl.
  destruct (any_other_occurrence_spec r h (iter_set (default ∅ (ids' !! rid))) Hr) as (b & Hb & Hbi).
  { intros j Hj%elem_of_iter_set. apply (rw_ident _ _ _ Hrf).
    unfold ids' in Hj. apply recorded_forget in Hj. tauto. }
  setoid_rewrite elem_of_iter_set in Hbi. apply wp_bind, (wp_lift _ b); [done|]. destruct b.
  { apply wp_ret. split_and!; try done. split; [exact Hsl|]. apply Hstay. left. by apply Hbi. }
  assert (refs_wf ident (<[h := X ∖ {[rid]}]> (cached s)) ids') as Hrf'.
  { apply Hgo. intros Hex%Hbi. done. }
  assert (∀ Y, dom (<[h := Y]> (cached s)) = dom (cached s)) as Hdom.
  { intros Y. apply dom_insert_lookup_L. by exists X. }
  apply wp_bind, wp_modify. case_decide as Hlast.
  - apply wp_bind, (wp_lift _ (embeds h)); [by apply num_embeds_ok|].
    apply wp_bind, wp_modify, wp_modify. split; [split; [|exact Hrf']|split_and!; try done; apply Hdom].
    simpl. rewrite Hlast. by apply (slots_release embeds _ _ _ _ _ h X).
  - apply wp_ret. split; [split; [|exact Hrf']|split_and!; try done; apply Hdom].
    by apply (slots_rereference embeds _ _ _ _ _ h X).
Qed.

(** Freeing a request forgets all its inputs. *)
Lemma free_spec r s :
  enc_wf s → request_ok r →
  wp (free r) (λ _ s',
    enc_wf s' ∧ cache_size s' = cache_size s ∧ num_free_slots s' = num_free_slots s ∧
    dom (cached s') = dom (cached s) ∧ freed s' = freed s ∧
    ∀ i, ¬ recorded (request_cached_ids s') (request_id r) i) s.
Proof.
  intros Hwf Hr. unfold free, get_cached_input_ids. apply wp_bind, wp_gets.
  set (ids := iter_set _).
  eapply wp_mono; [apply (wp_for (λ done s', enc_wf s' ∧ cache_size s' = cache_size s ∧
    num_free_slots s' = num_free_slots s ∧ dom (cached s') = dom (cached s) ∧
    freed s' = freed s ∧ ∀ i, recorded (request_cached_ids s') (request_id r) i →
      i ∈ ids ∧ i ∉ done))|].
  - split_and!; try done. intros i Hi. split; [|apply not_elem_of_nil].
    by apply elem_of_iter_set.
  - intros pre x post s1 Hids (Hwf1 & ? & ? & ? & ? & Hrec).
    assert (is_Some (ident (request_id r) x)) as [h Hh].
    { apply (rw_ident _ _ _ (ew_refs s Hwf)). apply elem_of_iter_set. fold ids. rewrite Hids.
      apply elem_of_app. right. by left. }
    eapply wp_mono; [by eapply free_encoder_input_spec|].
    intros _ s2 (Hwf2 & ? & ? & Hids2 & ? & ?). split_and!; try congruence.
    intros i. rewrite Hids2. intros [Hi Hne]%recorded_forget.
    destruct (Hrec i Hi) as [Hin Hpre]. split; [done|].
    rewrite elem_of_app, list_elem_of_singleton. tauto.
  - intros _ s' (? & ? & ? & ? & ? & Hrec). split_and!; try done.
    intros i Hi. by destruct (Hrec i Hi).
Qed.

(** ** All sequences of calls

    Beside the manager runs a worker that holds the encoder outputs: it computes an output
    when it is allocated, drops the outputs it is told to drop, and drops everything on a
    reset.  [W] is the set of items it holds. *)

Inductive enc_call :=
  | ECheck (r : Request) (i : Z)
  | ECanAllocate (r : Request) (i budget scheduled : Z)
  | EAllocate (r : Request) (i : Z)
  | EFreeInput (r : Request) (i : Z)
  | EFree (r : Request)
  | EGetFreed
  | EReset.

(** A call, with its effect on the worker. *)
Definition run_enc (call : enc_call) : M EncoderCacheManager (gset string → gset string) :=
  match call with
  | ECheck r i => check_and_update_cache r i;; mret (λ W, W)
  | ECanAllocate r i b n => can_allocate r i b n;; mret (λ W, W)
  | EAllocate r i => allocate r i;; h ← lift_res (mm_identifier r i); mret (λ W, W ∪ {[h]})
  | EFreeInput r i => free_encoder_input r i;; mret (λ W, W)
  | EFree r => free r;; mret (λ W, W)
  | EGetFreed => l ← get_freed_mm_hashes; mret (λ W, W ∖ list_to_set l)
  | EReset => reset;; mret (λ W, ∅)
  end.

(** What the caller ensures: requests are as declared, and [allocate] is called for an item
    without an entry that fits in the free slots. *)
Definition enc_ok (s : EncoderCacheManager) (call : enc_call) : Prop :=
  match call with
  | ECheck r i | ECanAllocate r i _ _ | EFreeInput r i => ∃ h, input_of r i h
  | EAllocate r i => ∃ h, input_of r i h ∧ cached s !! h = None ∧ embeds h ≤ num_free_slots s
  | EFree r => request_ok r
  | EGetFreed | EReset => True
  end.

Inductive enc_step : EncoderCacheManager * gset string → EncoderCacheManager * gset string → Prop :=
  | enc_step_call s W call f s' :
      enc_ok s call → run_enc call s = Ok (f, s') → enc_step (s, W) (s', f W).

(** The manager knows what the worker holds: every entry is there, and what is there without
    an entry is announced by the next [get_freed_mm_hashes]. *)
Definition worker_ok (s : EncoderCacheManager) (W : gset string) : Prop :=
  dom (cached s) ⊆ W ∧ W ⊆ dom (cached s) ∪ list_to_set (freed s).

Lemma evicted_worker s s' (evicted : list string) W :
  cached s' = foldl (λ c h, delete h c) (cached s) evicted → freed s' = freed s ++ evicted →
  worker_ok s W → worker_ok s' W.
Proof.
  intros Hc Hf [H1 H2].
  assert (dom (cached s') ⊆ dom (cached s) ∧
    dom (cached s) ⊆ dom (cached s') ∪ list_to_set evicted) as [Hd1 Hd2].
  { rewrite Hc. clear. generalize (cached s). induction evicted as [|h l IH]; intros c; simpl; [set_solver|].
    destruct (IH (delete h c)) as [IH1 IH2]. rewrite dom_delete_L in IH1, IH2.
    split; [set_solver|]. intros x Hx. destruct (decide (x = h)); set_solver. }
  split; [set_solver|]. rewrite Hf, list_to_set_app_L. set_solver.
Qed.

Lemma run_enc_wf s W call :
  enc_wf s → 0 ≤ cache_size s → worker_ok s W → enc_ok s call →
  wp (run_enc call) (λ f s', enc_wf s' ∧ cache_size s' = cache_size s ∧ worker_ok s' (f W)) s.
Proof.
  intros Hwf Hcs HW Hok. destruct call as [r i|r i b n|r i|r i|r| |]; cbn [run_enc enc_ok] in *;
    apply wp_bind.
  - destruct Hok as [h Hin]. eapply wp_mono; [by eapply check_and_update_cache_spec|].
    intros b s' (? & [? _] & Hd & Hf & _). apply wp_ret. split_and!; try done.
    unfold worker_ok. by rewrite Hd, Hf.
  - destruct Hok as [h Hin]. eapply wp_mono; [by eapply can_allocate_spec|].
    intros b' s' (? & [? _] & _ & _ & _ & evicted & _ & Hf & Hc & _). apply wp_ret.
    split_and!; try done. by eapply evicted_worker.
  - destruct Hok as (h & Hin & Hnew & Hfit). eapply wp_mono; [by eapply allocate_spec|].
    intros [] s' (? & [? _] & _ & Hc & Hf).
    apply wp_bind, (wp_lift _ h); [by apply mm_identifier_ok|]. apply wp_ret.
    split_and!; try done. destruct HW as [Hsub Hsup]. unfold worker_ok. rewrite Hc, Hf, dom_insert_L.
    set_solver.
  - destruct Hok as [h Hin]. eapply wp_mono; [by eapply free_encoder_input_spec|].
    intros [] s' (? & ? & _ & _ & Hd & Hf). apply wp_ret. split_and!; try done.
    unfold worker_ok. by rewrite Hd, Hf.
  - eapply wp_mono; [by eapply free_spec|].
    intros [] s' (? & ? & _ & Hd & Hf & _). apply wp_ret. split_and!; try done.
    unfold worker_ok. by rewrite Hd, Hf.
  - unfold get_freed_mm_hashes. apply wp_bind, wp_gets, wp_bind, wp_modify, wp_ret, wp_ret.
    destruct Hwf as [Hsl Hrf]. destruct HW as [Hsub Hsup].
    split; [by split|]. split; [done|]. split; simpl.
    + intros h Hh. apply elem_of_difference. split; [by apply Hsub|].
      rewrite elem_of_list_to_set, list_elem_of_filter. intros [Hn%not_elem_of_dom _]. done.
    + intros h [Hh Hnf]%elem_of_difference. apply Hsup in Hh.
      apply elem_of_union_l. rewrite elem_of_union, elem_of_list_to_set in Hh.
      destruct Hh as [|Hh]; [done|]. rewrite elem_of_list_to_set, list_elem_of_filter in Hnf.
      destruct (cached s !! h) eqn:Hc; [by eapply elem_of_dom_2|tauto].
  - unfold reset. apply wp_modify, wp_ret.
    split; [split; [by apply slots_new|apply refs_new]|]. split; [done|]. split; simpl.
    + by rewrite dom_empty_L.
    + set_solver.
Qed.

Lemma enc_steps_wf st st' :
  rtc enc_step st st' → enc_wf st.1 → 0 ≤ cache_size st.1 → worker_ok st.1 st.2 →
  enc_wf st'.1 ∧ cache_size st'.1 = cache_size st.1 ∧ worker_ok st'.1 st'.2.
Proof.
  induction 1 as [|st st1 st' Hstep _ IH]; [done|]. intros Hwf Hcs HW.
  destruct Hstep as [s W call f s' Hok Hrun]. simpl in *.
  pose proof (run_enc_wf s W call Hwf Hcs HW Hok) as Hwp. unfold wp in Hwp. rewrite Hrun in Hwp.
  destruct Hwp as (Hwf' & Hcs' & HW'). rewrite Hcs' in IH. by apply IH.
Qed.

Lemma new_enc_wf size : 0 ≤ size → enc_wf (new_EncoderCacheManager size).
Proof. intros Hs. split; [by apply slots_new|apply refs_new]. Qed.

Lemma enc_ok_succeeds s W call :
  enc_wf s → 0 ≤ cache_size s → worker_ok s W → enc_ok s call →
  ∃ f s', run_enc call s = Ok (f, s').
Proof.
  intros Hwf Hcs HW Hok. pose proof (run_enc_wf s W call Hwf Hcs HW Hok) as Hwp. unfold wp in Hwp.
  destruct (run_enc call s) as [[f s']|]; [eauto|done].
Qed.
End manager.

(** ** The properties *)

(** C25: the encoder cache is consistent in every reachable state.  Start from an empty cache
    and make any calls whose inputs are declared, allocating only items without an entry that
    fit.  Then the two slot counters equal the capacity minus what the entries, respectively
    the entries and not the unreferenced ones, occupy, and are not negative; [freeable] lists
    exactly the unreferenced entries with their sizes; a request references an entry exactly
    when one of its recorded inputs is that item; the worker holds every entry, and what it
    holds beyond that is reported by the next [get_freed_mm_hashes]; and the next such call
    raises nothing: no assertion fires, nothing is popped from an empty [freeable], no key is
    missing. *)
Theorem encoder_cache_invariant `{SetIter} (embeds : string → Z)
    (features : string → list MultiModalFeatureSpec) size s W :
  (∀ h, 0 ≤ embeds h) → 0 ≤ size →
  rtc (enc_step embeds features) (new_EncoderCacheManager size, ∅) (s, W) →
  enc_wf embeds features s ∧ cache_size s = size ∧ worker_ok s W ∧
  ∀ call, enc_ok embeds features s call → ∃ f s', run_enc call s = Ok (f, s').
Proof.
  intros Hnn Hsize Hsteps.
  destruct (enc_steps_wf embeds features Hnn _ _ Hsteps) as (Hwf & Hcs & HW); simpl in *;
    [by apply new_enc_wf|done|by split; set_solver|].
  split_and!; try done. intros call. apply (enc_ok_succeeds embeds features Hnn s W); [done|lia|done].
Qed.

(** [can_allocate] decides exactly whether the item can be stored, and evicts no more than
    it must.  In a consistent state it answers true if and only if the item is within the
    compute budget and, with what is already scheduled, within the free slots and those of
    the unreferenced entries; then that much is free.  It evicts a prefix of [freeable], the
    oldest unreferenced entries, and without the last of them the space would not do; the
    evicted items are queued for the worker, every other entry stays, and on a negative
    answer nothing changes. *)
Lemma can_allocate_exact (embeds : string → Z) (features : string → list MultiModalFeatureSpec)
    r i h budget scheduled s :
  (∀ h, 0 ≤ embeds h) → enc_wf embeds features s → input_of embeds features r i h →
  ∃ b s', can_allocate r i budget scheduled s = Ok (b, s') ∧
    enc_wf embeds features s' ∧
    (b = true ↔ embeds h ≤ budget ∧
       embeds h + scheduled ≤ num_free_slots s + sumZ (freeable s).*2) ∧
    (b = false → s' = s) ∧ (b = true → embeds h + scheduled ≤ num_free_slots s') ∧
    ∃ evicted, freeable s = evicted ++ freeable s' ∧ freed s' = freed s ++ evicted.*1 ∧
      cached s' = foldl (λ c h, delete h c) (cached s) evicted.*1 ∧
      (∀ older newest, evicted = older ++ [newest] →
         num_free_slots s + sumZ older.*2 < embeds h + scheduled).
Proof.
  intros Hnn Hwf Hin.
  pose proof (can_allocate_spec embeds features Hnn r i h budget scheduled s Hwf Hin) as Hwp.
  apply wp_run in Hwp as (b & s' & Hrun & Hwf' & _ & Hb & Hfalse & Htrue & Hev).
  exists b, s'. split_and!; try done. rewrite Hb. apply bool_decide_eq_true.
Qed.

(** The encoder budget admits every item.  Unless chunked input is disabled and an item is
    larger than a batch, which is a ValueError, both budgets are at least the configured ones
    and at least the size of every modality's largest item; so such an item passes
    [can_allocate] on the empty cache with the full compute budget and can always make
    progress. *)
Lemma encoder_budget_admits_items cfg (mm_max : list (string * Z)) budget size :
  compute_mm_encoder_budget cfg mm_max = Ok (budget, size) → mm_max ≠ [] →
  max_num_encoder_input_tokens cfg ≤ budget ∧ encoder_cache_size cfg ≤ size ∧
  ∀ modality n r i, (modality, n) ∈ mm_max →
    ∀ e, get_num_encoder_embeds r i = Ok e → e ≤ n →
    can_allocate r i budget 0 (new_EncoderCacheManager size) =
      Ok (true, new_EncoderCacheManager size).
Proof.
  unfold compute_mm_encoder_budget. intros Hb Hne.
  destruct (mm_max.*2) as [|v vs] eqn:Hvs; [by destruct mm_max|].
  case_decide; simplify_eq. split; [lia|]. split; [lia|].
  assert (∀ l v, v ≤ foldl Z.max v l ∧ ∀ n, n ∈ l → n ≤ foldl Z.max v l) as Hmax.
  { clear. induction l as [|x l IH]; intros v; simpl; [set_solver|].
    destruct (IH (v `max` x)) as [IH1 IH2]. split; [lia|]. intros n [->|Hn]%elem_of_cons; [lia|].
    by apply IH2. }
  intros modality n r i Hin e He Hle.
  assert (n ≤ foldl Z.max v vs) as Hn.
  { apply (list_elem_of_fmap_2 snd) in Hin. rewrite Hvs in Hin. destruct (Hmax vs v) as [Hv Hall].
    apply elem_of_cons in Hin as [Heq|Hin]; simpl in *; [lia|by apply Hall]. }
  unfold can_allocate. cbv [mbind M_bind lift_res]. rewrite He.
  rewrite (decide_False (P := e > _)) by lia. cbn. rewrite decide_True by lia. done.
Qed.

(** *** Two images in a cache of five slots *)

Definition demo_embeds (h : string) : Z := if decide (h = "x") then 4 else 3.
Definition demo_features (rid : string) : list MultiModalFeatureSpec :=
  if decide (rid = "a") then
    [mkMMFeature "x" (mkPlaceholderRange 0 4 None);
     mkMMFeature "y" (mkPlaceholderRange 4 5 (Some [true; false; true; true; false]))]
  else [].
Definition demo_mm_request : Request :=
  (inhabitant (A := Request)) <| request_id := "a" |> <| mm_features := demo_features "a" |>.

Lemma demo_embeds_nonneg h : 0 ≤ demo_embeds h.
Proof. unfold demo_embeds. case_decide; lia. Qed.

Lemma demo_input i h :
  ident demo_features "a" i = Some h → input_of demo_embeds demo_features demo_mm_request i h.
Proof.
  intros Hi. split; [|exact Hi]. split; [reflexivity|].
  assert (Forall (λ f, get_num_embeds (mm_position f) = demo_embeds (identifier f))
            (mm_features demo_mm_request)) as Hall.
  { repeat constructor. }
  rewrite Forall_forall in Hall. exact Hall.
Qed.

(** The item "x" is cached and freed, then evicted to make room for "y". *)
Definition demo_trace : list enc_call :=
  [ECheck demo_mm_request 0; ECanAllocate demo_mm_request 0 10 0; EAllocate demo_mm_request 0;
   EFree demo_mm_request; ECanAllocate demo_mm_request 1 10 0; EAllocate demo_mm_request 1].

(** A sequence of calls, with the conditions of each. *)
Fixpoint run_encs (calls : list enc_call) (s : EncoderCacheManager) (W : gset string) :
    EncoderCacheManager * gset string :=
  match calls with
  | [] => (s, W)
  | call :: calls =>
      match @run_enc elements_iter call s with
      | Ok (f, s') => run_encs calls s' (f W)
      | Raise _ => (s, W)
      end
  end.
Fixpoint encs_ok (calls : list enc_call) (s : EncoderCacheManager) : Prop :=
  match calls with
  | [] => True
  | call :: calls =>
      enc_ok demo_embeds demo_features s call ∧
      match @run_enc elements_iter call s with
      | Ok (_, s') => encs_ok calls s'
      | Raise _ => True
      end
  end.

Lemma run_encs_steps calls s W :
  encs_ok calls s →
  rtc (@enc_step elements_iter demo_embeds demo_features) (s, W) (run_encs calls s W).
Proof.
  revert s W. induction calls as [|call calls IH]; intros s W; cbn [run_encs encs_ok];
    [intros; apply rtc_refl|].
  intros [Hok Hrest]. destruct (@run_enc elements_iter call s) as [[f s']|] eqn:Hrun;
    [|apply rtc_refl].
  eapply rtc_l; [by eapply enc_step_call|by apply IH].
Qed.

Definition demo_end := run_encs demo_trace (new_EncoderCacheManager 5) ∅.

(** Evaluate the next call. *)
Ltac next_call :=
  match goal with
  | |- context [@run_enc ?i ?c ?s] =>
      let q := fresh in
      remember (@run_enc i c s) as q eqn:Hq; vm_compute in Hq; subst q; cbn [encs_ok enc_ok]
  end.

Lemma demo_steps :
  rtc (@enc_step elements_iter demo_embeds demo_features) (new_EncoderCacheManager 5, ∅)
    (demo_end.1, demo_end.2).
Proof.
  rewrite <-surjective_pairing. apply run_encs_steps. cbn [encs_ok demo_trace enc_ok].
  split; [exists "x"; by apply demo_input|]. next_call.
  split; [exists "x"; by apply demo_input|]. next_call.
  split; [exists "x"; split; [by apply demo_input|by split; vm_compute]|]. next_call.
  split; [exact (proj1 (demo_input 0 _ eq_refl))|]. next_call.
  split; [exists "y"; by apply demo_input|]. next_call.
  split; [exists "y"; split; [by apply demo_input|by split; vm_compute]|]. next_call. done.
Qed.

Lemma encoder_cache_invariant_witness :
  ∃ s W, rtc (@enc_step elements_iter demo_embeds demo_features) (new_EncoderCacheManager 5, ∅) (s, W) ∧
    num_free_slots s = 2 ∧ freed s = ["x"] ∧ enc_wf demo_embeds demo_features s ∧ worker_ok s W.
Proof.
  exists demo_end.1, demo_end.2. split; [exact demo_steps|].
  split; [vm_compute; reflexivity|]. split; [vm_compute; reflexivity|].
  destruct (@encoder_cache_invariant elements_iter demo_embeds demo_features 5 demo_end.1 demo_end.2
              demo_embeds_nonneg ltac:(lia) demo_steps) as (Hwf & _ & HW & _).
  exact (conj Hwf HW).
Defined.

