(* ===== verification/EncoderSched.v ===== *)
(** * Scheduling encoder inputs (src/vllm/v1/core/sched/scheduler.py)

    [Scheduler._try_schedule_encoder_inputs], the allocation that follows it, and
    [Scheduler._free_encoder_inputs], against the manager interface of [EncoderCache]. *)

From S2P Require Import Prelude FreeQueue Request EncoderCache.

(** ** Features in a window *)

(** [bisect.bisect_left(a, x, lo, hi, key)]; the interval halves, so [hi - lo] steps do. *)
Fixpoint bisect_loop {A} (fuel : nat) (a : list A) (x : Z) (key : A → Z) (lo hi : Z) : res Z :=
  if decide (lo < hi) then
    match fuel with
    | O => Raise OutOfFuel
    | S fuel =>
        let mid := (lo + hi) // 2 in
        v ← index a mid;
        if decide (key v < x) then bisect_loop fuel a x key (mid + 1) hi
        else bisect_loop fuel a x key lo mid
    end
  else Ok lo.
Definition bisect_left {A} (a : list A) (x : Z) (key : A → Z) : res Z :=
  bisect_loop (length a) a x key 0 (len a).

Definition get_mm_features_in_window (mm_features : list MultiModalFeatureSpec) (start stop : Z) :
    res (Z * Z) :=
  lo ← bisect_left mm_features (start + 1)
         (λ f, offset (mm_position f) + length_ (mm_position f));
  hi ← bisect_left mm_features stop (λ f, offset (mm_position f));
  Ok (lo, hi).

(** ** Scheduling *)

(** The local variables of the loop of [_try_schedule_encoder_inputs]. *)
Record EncoderPlan := mkEncoderPlan {
  encoder_inputs_to_schedule : list Z;
  num_new_tokens : Z;
  encoder_compute_budget : Z;
  external_load_encoder_input : list Z;
  mm_hashes_to_schedule : gset string;
  num_embeds_to_schedule : Z
}.
#[export] Instance eta_EncoderPlan : Eta EncoderPlan := λ p,
  mkEncoderPlan (encoder_inputs_to_schedule p) (num_new_tokens p) (encoder_compute_budget p)
    (external_load_encoder_input p) (mm_hashes_to_schedule p) (num_embeds_to_schedule p).

Section scheduler.
Context {S : Type} `{EncoderManager S} `{SetIter}.
(** Configuration of the scheduler; [has_cache_item] is the connector's answer, when there
    is a connector. *)
Variables (is_encoder_decoder disable_chunked_mm_input : bool).
Variable has_cache_item : option (string → bool).

(** The loop over [range(lo, hi)]. *)
Fixpoint schedule_inputs (request : Request) (num_computed_tokens shift_computed_tokens
    encoder_window_end : Z) (inputs : list Z) (p : EncoderPlan) : M S EncoderPlan :=
  match inputs with
  | [] => mret p
  | i :: inputs =>
      let continue := schedule_inputs request num_computed_tokens shift_computed_tokens
                        encoder_window_end inputs in
      mm_feature ← lift_res (index (mm_features request) i);
      let start_pos := offset (mm_position mm_feature) in
      let num_encoder_tokens := length_ (mm_position mm_feature) in
      let num_encoder_embeds := get_num_embeds (mm_position mm_feature) in
      let item_identifier := identifier mm_feature in
      if is_encoder_decoder && (0 <? num_computed_tokens) then
        assert_ (start_pos =? 0);;
        continue p
      else
        skip ← (if negb is_encoder_decoder then
                  if decide (item_identifier ∈ mm_hashes_to_schedule p) then mret true
                  else mgr_check_and_update_cache request i
                else mret false);
        if (skip : bool) then continue p
        else if disable_chunked_mm_input && (num_computed_tokens <? start_pos) &&
                (num_computed_tokens + num_new_tokens p <? start_pos + num_encoder_tokens) then
          mret (p <| num_new_tokens :=
                     Z.max 0 (start_pos - (num_computed_tokens + shift_computed_tokens)) |>)
        else
          ok ← mgr_can_allocate request i (encoder_compute_budget p) (num_embeds_to_schedule p);
          if negb ok then
            mret (p <| num_new_tokens :=
                       if decide (num_computed_tokens + shift_computed_tokens < start_pos)
                       then start_pos - (num_computed_tokens + shift_computed_tokens) else 0 |>)
          else
            let start_idx_rel := Z.max 0 (num_computed_tokens - start_pos) in
            let end_idx_rel := Z.min num_encoder_tokens (encoder_window_end - start_pos) in
            range ← lift_res (get_embeds_indices_in_range (mm_position mm_feature)
                                start_idx_rel end_idx_rel);
            let '(curr_embeds_start, curr_embeds_end) := range in
            if decide (curr_embeds_end - curr_embeds_start = 0) then continue p
            else if default false (has_cache_item ≫= λ has, Some (has item_identifier)) then
              continue (p <| mm_hashes_to_schedule ::= λ X, X ∪ {[item_identifier]} |>
                          <| external_load_encoder_input ::= λ l, l ++ [i] |>
                          <| num_embeds_to_schedule ::= λ n, n + num_encoder_embeds |>)
            else
              continue (p <| num_embeds_to_schedule ::= λ n, n + num_encoder_embeds |>
                          <| encoder_compute_budget ::= λ n, n - num_encoder_embeds |>
                          <| mm_hashes_to_schedule ::= λ X, X ∪ {[item_identifier]} |>
                          <| encoder_inputs_to_schedule ::= λ l, l ++ [i] |>)
  end.

Definition _try_schedule_encoder_inputs (request : Request) (num_computed_tokens num_new_tokens
    encoder_compute_budget shift_computed_tokens : Z) : M S EncoderPlan :=
  let p := mkEncoderPlan [] num_new_tokens encoder_compute_budget [] ∅ 0 in
  if decide (num_new_tokens = 0 ∨ has_encoder_inputs request = false) then mret p
  else
    assert_ (0 <? len (mm_features request));;
    let encoder_window_end := num_computed_tokens + num_new_tokens + shift_computed_tokens in
    window ← lift_res (get_mm_features_in_window (mm_features request) num_computed_tokens
                         encoder_window_end);
    let '(lo, hi) := window in
    let lo := if is_encoder_decoder then 0 else lo in
    schedule_inputs request num_computed_tokens shift_computed_tokens encoder_window_end
      (range lo hi) p.

(** In [schedule], once the request is scheduled. *)
Definition allocate_encoder_inputs (request : Request) (p : EncoderPlan) : M S unit :=
  for_ (encoder_inputs_to_schedule p) (mgr_allocate request);;
  for_ (external_load_encoder_input p) (mgr_allocate request).

Definition _free_encoder_inputs (num_prefill_lookahead : Z) (request : Request) : M S unit :=
  cached_encoder_input_ids ← mgr_get_cached_input_ids request;
  if decide (cached_encoder_input_ids = ∅) then mret tt
  else
    for_ (iter_set cached_encoder_input_ids) (λ input_id,
      mm_feature ← lift_res (index (mm_features request) input_id);
      let start_pos := offset (mm_position mm_feature) in
      let num_tokens := length_ (mm_position mm_feature) in
      if is_encoder_decoder && (0 <? num_computed_tokens request) then
        mgr_free_encoder_input request input_id
      else if start_pos + num_tokens + num_prefill_lookahead <=?
              num_computed_tokens request - num_output_placeholders request then
        mgr_free_encoder_input request input_id
      else mret tt).
End scheduler.

(** ** The window *)

Lemma bisect_loop_spec {A} (a : list A) x (key : A → Z) fuel lo hi :
  (∀ i j u v, (i ≤ j)%nat → a !! i = Some u → a !! j = Some v → key u ≤ key v) →
  0 ≤ lo ≤ hi → hi ≤ len a → hi - lo ≤ Z.of_nat fuel →
  (∀ i v, a !! i = Some v → Z.of_nat i < lo → key v < x) →
  (∀ i v, a !! i = Some v → hi ≤ Z.of_nat i → x ≤ key v) →
  ∃ k, bisect_loop fuel a x key lo hi = Ok k ∧ 0 ≤ k ≤ len a ∧
    ∀ i v, a !! i = Some v → if decide (Z.of_nat i < k) then key v < x else x ≤ key v.
Proof.
  intros Hsorted. revert lo hi. induction fuel as [|fuel IH]; intros lo hi Hlo Hhi Hfuel Hlt Hge;
    cbn [bisect_loop]; case_decide as Hcase; try lia.
  1,3: exists lo; (split; [done|]); (split; [lia|]); intros i v Hi; case_decide;
    [by eapply Hlt|eapply Hge; [done|lia]].
  pose proof (Z.div_mod (lo + hi) 2 ltac:(lia)). pose proof (Z.mod_pos_bound (lo + hi) 2 ltac:(lia)).
  cbv zeta. set (mid := (lo + hi) // 2) in *.
  destruct (index_in_range a mid) as (v & Hv & Hl); [lia|]. rewrite Hv. cbn [mbind res_bind].
  case_decide as Hkey; apply IH; try lia; try done.
  - intros i u Hi Hlti. enough (key u ≤ key v) by lia. eapply Hsorted; [|done..]. lia.
  - intros i u Hi Hlti. enough (key v ≤ key u) by lia. eapply Hsorted; [|done..]. lia.
Qed.

Lemma bisect_left_spec {A} (a : list A) x (key : A → Z) :
  (∀ i j u v, (i ≤ j)%nat → a !! i = Some u → a !! j = Some v → key u ≤ key v) →
  ∃ k, bisect_left a x key = Ok k ∧ 0 ≤ k ≤ len a ∧
    ∀ i v, a !! i = Some v → if decide (Z.of_nat i < k) then key v < x else x ≤ key v.
Proof.
  intros Hsorted. unfold bisect_left, len. apply bisect_loop_spec; unfold len; try lia; try done.
  intros i v Hi%lookup_lt_Some. lia.
Qed.

(** The items of a request lie one after another, and a mask covers its item. *)
Record features_ok (fs : list MultiModalFeatureSpec) : Prop := mk_features_ok {
  fo_sorted i j f g : (i < j)%nat → fs !! i = Some f → fs !! j = Some g →
    offset (mm_position f) + length_ (mm_position f) ≤ offset (mm_position g);
  fo_length f : f ∈ fs → 0 ≤ length_ (mm_position f);
  fo_mask f mask : f ∈ fs → is_embed (mm_position f) = Some mask →
    len mask = length_ (mm_position f)
}.

(** The token at [pos] is replaced by an embedding of the item. *)
Definition embed_at (f : MultiModalFeatureSpec) (pos : Z) : Prop :=
  let p := mm_position f in
  offset p ≤ pos < offset p + length_ p ∧
  match is_embed p with
  | None => True
  | Some mask => mask !! Z.to_nat (pos - offset p) = Some true
  end.

(** Some token of [start, stop) is. *)
Definition embed_in (f : MultiModalFeatureSpec) (start stop : Z) : Prop :=
  ∃ pos, start ≤ pos < stop ∧ embed_at f pos.

Lemma window_spec fs start stop :
  features_ok fs →
  ∃ lo hi, get_mm_features_in_window fs start stop = Ok (lo, hi) ∧ 0 ≤ lo ∧ hi ≤ len fs ∧
    (∀ i f, fs !! i = Some f → Z.of_nat i < hi → offset (mm_position f) < stop) ∧
    (∀ i f, fs !! i = Some f → lo ≤ Z.of_nat i →
       start < offset (mm_position f) + length_ (mm_position f)) ∧
    (∀ i f, fs !! i = Some f → embed_in f start stop → lo ≤ Z.of_nat i < hi).
Proof.
  intros [Hsort Hlen _]. unfold get_mm_features_in_window.
  assert (∀ i f, fs !! i = Some f → 0 ≤ length_ (mm_position f)) as Hlen'.
  { intros i f Hi. apply Hlen. by eapply list_elem_of_lookup_2. }
  assert (∀ i j f g, (i ≤ j)%nat → fs !! i = Some f → fs !! j = Some g →
    offset (mm_position f) ≤ offset (mm_position g) ∧
    offset (mm_position f) + length_ (mm_position f) ≤
      offset (mm_position g) + length_ (mm_position g)) as Hmono.
  { intros i j f g Hij Hi Hj. destruct (decide (i = j)) as [->|Hne]; [by simplify_eq|].
    pose proof (Hsort i j f g ltac:(lia) Hi Hj). pose proof (Hlen' _ _ Hi).
    pose proof (Hlen' _ _ Hj). lia. }
  destruct (bisect_left_spec fs (start + 1)
    (λ f, offset (mm_position f) + length_ (mm_position f))) as (lo & Hlo & Hlor & Hlos).
  { intros. by eapply Hmono. }
  destruct (bisect_left_spec fs stop (λ f, offset (mm_position f))) as (hi & Hhi & Hhir & Hhis).
  { intros. by eapply Hmono. }
  rewrite Hlo, Hhi. cbn [mbind res_bind]. exists lo, hi. split; [done|]. split; [lia|].
  split; [lia|]. split_and!.
  - intros i f Hi Hlt. specialize (Hhis i f Hi). by rewrite decide_True in Hhis.
  - intros i f Hi Hge. specialize (Hlos i f Hi). rewrite decide_False in Hlos by lia. lia.
  - intros i f Hi (pos & Hpos & Hat & _). specialize (Hlos i f Hi). specialize (Hhis i f Hi).
    repeat case_decide; lia.
Qed.

(** ** Embeddings in a range *)

(** The number of embeddings among the first [k] positions. *)
Definition embeds_before (mask : list bool) (k : nat) : Z :=
  len (filter (λ b, b = true) (take k mask)).

Lemma embeds_before_S mask k (b : bool) :
  mask !! k = Some b → embeds_before mask (S k) = embeds_before mask k + (if b then 1 else 0).
Proof.
  intros Hk. unfold embeds_before. rewrite (take_S_r mask k b) by done.
  rewrite filter_app, len_app. destruct b; done.
Qed.

Lemma embeds_before_mono mask j k : (j ≤ k)%nat → embeds_before mask j ≤ embeds_before mask k.
Proof.
  intros Hjk. unfold embeds_before. rewrite <-(take_drop j (take k mask)), take_take.
  rewrite Nat.min_l by done. rewrite filter_app, len_app. pose proof (len_nonneg
    (filter (λ b, b = true) (drop j (take k mask)))). lia.
Qed.

Lemma lookup_cumsum acc mask k :
  (k < length mask)%nat → cumsum acc mask !! k = Some (acc + embeds_before mask (S k)).
Proof.
  revert acc k. induction mask as [|b mask IH]; intros acc k Hk; simpl in *; [lia|].
  destruct k as [|k]; simpl.
  - destruct b; done.
  - rewrite IH by lia. unfold embeds_before. rewrite (firstn_cons (S k)), filter_cons.
    f_equal. destruct b; case_decide; try done; rewrite ?len_cons; lia.
Qed.

Lemma embeds_range_spec f start stop :
  let p := mm_position f in
  0 ≤ length_ p → (∀ mask, is_embed p = Some mask → len mask = length_ p) →
  offset p < stop → start < offset p + length_ p →
  ∃ a b, get_embeds_indices_in_range p (Z.max 0 (start - offset p))
           (Z.min (length_ p) (stop - offset p)) = Ok (a, b) ∧
    (b - a = 0 → ¬ embed_in f start stop).
Proof.
  intros p Hlen Hmask Hstop Hstart. unfold get_embeds_indices_in_range, embeds_cumsum.
  unfold embed_in, embed_at. fold p. destruct (is_embed p) as [mask|]; simpl.
  2:{ eexists _, _. split; [done|]. intros Heq (pos & Hpos & Hin & _). lia. }
  specialize (Hmask mask eq_refl). unfold len in Hmask.
  assert (∀ k, k ≤ length_ p → (if decide (k > 0) then index (cumsum 0 mask) (k - 1) else Ok 0) =
    Ok (embeds_before mask (Z.to_nat k))) as Hidx.
  { intros k Hk. case_decide as Hpos.
    - apply index_Ok; [lia|]. rewrite lookup_cumsum by lia.
      by replace (S (Z.to_nat (k - 1))) with (Z.to_nat k) by lia.
    - by replace (Z.to_nat k) with 0%nat by lia. }
  rewrite !Hidx by lia. cbn [mbind res_bind]. eexists _, _. split; [done|].
  intros Heq (pos & Hpos & Hin & Hb).
  pose proof (embeds_before_S _ _ _ Hb) as HS. simpl in HS.
  pose proof (embeds_before_mono mask (Z.to_nat (Z.max 0 (start - offset p)))
                (Z.to_nat (pos - offset p)) ltac:(lia)).
  pose proof (embeds_before_mono mask (S (Z.to_nat (pos - offset p)))
                (Z.to_nat (Z.min (length_ p) (stop - offset p))) ltac:(lia)). lia.
Qed.

(** ** The plan fits in the cache and covers the scheduled tokens *)

Section plan.
Context `{SetIter}.
Variable embeds : string → Z.
Variable features : string → list MultiModalFeatureSpec.
Hypothesis embeds_nonneg : ∀ h, 0 ≤ embeds h.
Variables (disable_chunked_mm_input : bool) (has_cache_item : option (string → bool)).
Variable req : Request.
Hypothesis req_ok : request_ok embeds features req.
Hypothesis req_features : features_ok (mm_features req).
(** The compute budget at the start. *)
Variable budget : Z.

Let rid := request_id req.
Let item (i : Z) (h : string) : Prop := ident features rid i = Some h.

(** The inputs planned so far are distinct items without an entry, their sizes are summed up
    correctly, and they fit in the free slots and the compute budget. *)
Record plan_ok (p : EncoderPlan) (s : EncoderCacheManager) (hs1 hs2 : list string) : Prop := {
  po_wf : enc_wf embeds features s;
  po_inputs : Forall2 item (encoder_inputs_to_schedule p) hs1;
  po_external : Forall2 item (external_load_encoder_input p) hs2;
  po_distinct : NoDup (hs1 ++ hs2);
  po_hashes : ∀ h, h ∈ mm_hashes_to_schedule p ↔ h ∈ hs1 ++ hs2;
  po_new : ∀ h, h ∈ hs1 ++ hs2 → cached s !! h = None;
  po_embeds : num_embeds_to_schedule p = sumZ (embeds <$> (hs1 ++ hs2));
  po_fit : num_embeds_to_schedule p ≤ num_free_slots s;
  po_budget : encoder_compute_budget p = budget - sumZ (embeds <$> hs1);
  po_budget_nonneg : 0 ≤ budget → 0 ≤ encoder_compute_budget p
}.

(** The item is at hand for the request, or planned. *)
Definition available (p : EncoderPlan) (s : EncoderCacheManager) (h : string) : Prop :=
  referenced (cached s) rid h ∨ h ∈ mm_hashes_to_schedule p.

Lemma foldl_delete_None (c : gmap string (gset string)) hs h :
  c !! h = None → foldl (λ c h, delete h c) c hs !! h = None.
Proof.
  revert c. induction hs as [|k hs IH]; intros c Hc; simpl; [done|]. apply IH.
  by apply lookup_delete_None; right.
Qed.

Lemma plan_ok_state p s s' hs1 hs2 :
  plan_ok p s hs1 hs2 → enc_wf embeds features s' → num_embeds_to_schedule p ≤ num_free_slots s' →
  (∀ h, cached s !! h = None → cached s' !! h = None) → plan_ok p s' hs1 hs2.
Proof. intros [] ? ? Hnew. split; auto. Qed.

Lemma plan_add_input p s hs1 hs2 i h :
  plan_ok p s hs1 hs2 → item i h → h ∉ mm_hashes_to_schedule p → cached s !! h = None →
  embeds h + num_embeds_to_schedule p ≤ num_free_slots s → embeds h ≤ encoder_compute_budget p →
  plan_ok (p <| num_embeds_to_schedule ::= λ n, n + embeds h |>
             <| encoder_compute_budget ::= λ n, n - embeds h |>
             <| mm_hashes_to_schedule ::= λ X, X ∪ {[h]} |>
             <| encoder_inputs_to_schedule ::= λ l, l ++ [i] |>) s (hs1 ++ [h]) hs2.
Proof.
  intros [Hwf Hi He Hd Hh Hn Hs Hf Hb Hbn] Hitem Hnotin Hnew Hfit Hbud.
  rewrite Hh in Hnotin.
  assert ((hs1 ++ [h]) ++ hs2 ≡ₚ h :: hs1 ++ hs2) as Hperm.
  { rewrite <-app_assoc. symmetry. apply Permutation_middle. }
  split; simpl; try done.
  - apply Forall2_app; [done|]. by constructor.
  - rewrite Hperm. by constructor.
  - intros k. rewrite elem_of_union, elem_of_singleton, Hh, Hperm, elem_of_cons. tauto.
  - intros k. rewrite Hperm, elem_of_cons. intros [->|]; [done|]. by apply Hn.
  - rewrite !fmap_app, !sumZ_app in *. simpl. lia.
  - lia.
  - rewrite fmap_app, sumZ_app. simpl. lia.
  - lia.
Qed.

Lemma plan_add_external p s hs1 hs2 i h :
  plan_ok p s hs1 hs2 → item i h → h ∉ mm_hashes_to_schedule p → cached s !! h = None →
  embeds h + num_embeds_to_schedule p ≤ num_free_slots s →
  plan_ok (p <| mm_hashes_to_schedule ::= λ X, X ∪ {[h]} |>
             <| external_load_encoder_input ::= λ l, l ++ [i] |>
             <| num_embeds_to_schedule ::= λ n, n + embeds h |>) s hs1 (hs2 ++ [h]).
Proof.
  intros [Hwf Hi He Hd Hh Hn Hs Hf Hb Hbn] Hitem Hnotin Hnew Hfit.
  rewrite Hh in Hnotin.
  assert (hs1 ++ (hs2 ++ [h]) ≡ₚ h :: hs1 ++ hs2) as Hperm.
  { rewrite app_assoc. apply Permutation_app_comm. }
  split; simpl; try done.
  - apply Forall2_app; [done|]. by constructor.
  - rewrite Hperm. by constructor.
  - intros k. rewrite elem_of_union, elem_of_singleton, Hh, Hperm, elem_of_cons. tauto.
  - intros k. rewrite Hperm, elem_of_cons. intros [->|]; [done|]. by apply Hn.
  - rewrite !fmap_app, !sumZ_app in *. simpl. lia.
  - lia.
Qed.

(** Distinct new items that fit together are all allocated. *)
Lemma allocate_all_spec inputs hs s :
  enc_wf embeds features s → Forall2 item inputs hs → NoDup hs → (∀ h, h ∈ hs → cached s !! h = None) →
  sumZ (embeds <$> hs) ≤ num_free_slots s →
  wp (for_ inputs (allocate req)) (λ _ s',
    enc_wf embeds features s' ∧ keeps s s' ∧ (∀ h, h ∈ hs → referenced (cached s') rid h) ∧
    (∀ h, h ∉ hs → cached s' !! h = cached s !! h) ∧
    num_free_slots s' = num_free_slots s - sumZ (embeds <$> hs)) s.
Proof.
  intros Hwf His. revert s Hwf.
  induction His as [|i h inputs hs Hi His IH]; intros s Hwf Hnd Hnew Hfit; cbn [for_].
  { apply wp_ret. split_and!; try done; [by intros h ?%elem_of_nil|simpl; lia]. }
  rewrite fmap_cons, sumZ_cons in Hfit. apply NoDup_cons in Hnd as [Hh Hnd].
  assert (0 ≤ sumZ (embeds <$> hs)) as Hnn.
  { apply sumZ_nonneg. intros n (k & -> & _)%list_elem_of_fmap. apply embeds_nonneg. }
  apply wp_bind. eapply wp_mono.
  { apply (allocate_spec embeds features embeds_nonneg req i h); [done|by split| |lia].
    apply Hnew. by left. }
  intros [] s1 (Hwf1 & Hk1 & Hfree1 & Hc1 & _). eapply wp_mono.
  { apply IH; [done|done| |lia]. intros k Hk. rewrite Hc1, lookup_insert_ne by congruence.
    apply Hnew. by right. }
  intros [] s2 (Hwf2 & Hk2 & Href & Hother & Hfree2). split; [done|].
  split; [by etransitivity|]. split_and!.
  - intros k [->|Hk]%elem_of_cons; [|by apply Href]. apply Hk2. rewrite Hc1.
    apply referenced_insert. rewrite decide_True by done. set_solver.
  - intros k [Hk1' Hk2']%not_elem_of_cons. rewrite Hother, Hc1, lookup_insert_ne by done. done.
  - rewrite fmap_cons, sumZ_cons. lia.
Qed.

Lemma allocate_plan_spec p s hs1 hs2 :
  plan_ok p s hs1 hs2 →
  wp (allocate_encoder_inputs req p) (λ _ s',
    enc_wf embeds features s' ∧ ∀ h, available p s h → referenced (cached s') rid h) s.
Proof.
  intros [Hwf Hi He Hd Hh Hn Hs Hf _ _]. apply NoDup_app in Hd as (Hd1 & Hdisj & Hd2).
  rewrite fmap_app, sumZ_app in Hs.
  assert (0 ≤ sumZ (embeds <$> hs2)) as Hnn.
  { apply sumZ_nonneg. intros n (k & -> & _)%list_elem_of_fmap. apply embeds_nonneg. }
  apply wp_bind. eapply wp_mono; [apply (allocate_all_spec _ hs1); try done|].
  { intros h Hin. apply Hn. apply elem_of_app. by left. }
  { lia. }
  intros [] s1 (Hwf1 & Hk1 & Href1 & Hother & Hfree).
  eapply wp_mono; [apply (allocate_all_spec _ hs2); try done|].
  { intros h Hin. rewrite Hother by (intros ?; by eapply Hdisj). apply Hn. apply elem_of_app. by right. }
  { lia. }
  intros [] s2 (Hwf2 & Hk2 & Href2 & _). split; [done|]. intros h [Hr|Hin].
  - by apply Hk2, Hk1.
  - apply Hh, elem_of_app in Hin as [Hin|Hin]; [by apply Hk2, Href1|by apply Href2].
Qed.

(** The step computes [num_new] tokens after [computed], with [shift] tokens of look-ahead. *)
Variables (computed shift num_new : Z).
Hypothesis shift_nonneg : 0 ≤ shift.
Hypothesis num_new_nonneg : 0 ≤ num_new.
Let window_end := computed + num_new + shift.

Definition in_window (i : Z) (f : MultiModalFeatureSpec) : Prop :=
  0 ≤ i ∧ mm_features req !! Z.to_nat i = Some f ∧
  offset (mm_position f) < window_end ∧
  computed < offset (mm_position f) + length_ (mm_position f).

(** What the loop over [inputs] establishes: the plan is sound, no more tokens than asked for
    are scheduled, and every item that has an embedding among them is available. *)
Definition plan_post (inputs : list Z) (p : EncoderPlan) (s : EncoderCacheManager)
    (p' : EncoderPlan) (s' : EncoderCacheManager) : Prop :=
  (∃ hs1 hs2, plan_ok p' s' hs1 hs2) ∧ keeps s s' ∧
  mm_hashes_to_schedule p ⊆ mm_hashes_to_schedule p' ∧
  0 ≤ num_new_tokens p' ≤ num_new ∧
  ∀ i f, i ∈ inputs → in_window i f → 0 < num_new_tokens p' →
    embed_in f computed (computed + num_new_tokens p' + shift) → available p' s' (identifier f).

Lemma available_mono p s p' s' h :
  available p s h → keeps s s' → mm_hashes_to_schedule p ⊆ mm_hashes_to_schedule p' →
  available p' s' h.
Proof. intros [Href|Hin] [_ Hk] Hsub; [left; by apply Hk|right; by apply Hsub]. Qed.

Lemma embed_in_weaken f start stop stop' :
  stop ≤ stop' → embed_in f start stop → embed_in f start stop'.
Proof. intros Hle (pos & Hpos & Hat). exists pos. split; [lia|done]. Qed.

(** After [continue]: the item at hand is available or not needed. *)
Lemma plan_continue i f inputs p s p1 s1 p' s' :
  in_window i f → keeps s s1 → mm_hashes_to_schedule p ⊆ mm_hashes_to_schedule p1 →
  (embed_in f computed window_end → available p1 s1 (identifier f)) →
  plan_post inputs p1 s1 p' s' → plan_post (i :: inputs) p s p' s'.
Proof.
  intros Hi Hk Hsub Hav (Hok & Hk' & Hsub' & Hnn & Hall). split; [done|].
  split; [by etransitivity|]. split; [by etransitivity|]. split; [done|].
  intros j g Hj Hg Hpos Hemb. apply elem_of_cons in Hj as [->|Hj]; [|by eapply Hall].
  assert (g = f) as ->. { destruct Hi as (_ & Hf & _), Hg as (_ & Hg & _). congruence. }
  eapply available_mono; [apply Hav|done|done].
  eapply embed_in_weaken; [|exact Hemb]. unfold window_end. lia.
Qed.

(** After [break]: the remaining items start where the scheduled tokens end. *)
Lemma plan_break i f inputs p s s1 hs1 hs2 n :
  in_window i f → keeps s s1 → plan_ok p s1 hs1 hs2 → (∀ j, j ∈ inputs → i < j) →
  0 ≤ n ≤ num_new → (0 < n → computed + n + shift ≤ offset (mm_position f)) →
  plan_post (i :: inputs) p s (p <| num_new_tokens := n |>) s1.
Proof.
  intros (Hi & Hf & Hstart & Hend) Hk Hok Hsorted Hn Hbreak. split.
  { exists hs1, hs2. by destruct Hok. }
  split; [done|]. split; [done|]. split; [done|]. simpl.
  intros j g Hj (Hj0 & Hg & _) Hpos (pos & Hin & Hat & _). exfalso.
  apply elem_of_cons in Hj as [->|Hj].
  - simplify_eq. lia.
  - pose proof (fo_sorted _ req_features (Z.to_nat i) (Z.to_nat j) f g
                  ltac:(specialize (Hsorted j Hj); lia) Hf Hg).
    pose proof (fo_length _ req_features f ltac:(by eapply list_elem_of_lookup_2)). lia.
Qed.

Lemma in_window_input i f : in_window i f →
  input_of embeds features req i (identifier f) ∧ index (mm_features req) i = Ok f ∧
  get_num_embeds (mm_position f) = embeds (identifier f).
Proof.
  intros (Hi & Hf & _). split.
  - split; [done|]. unfold ident. rewrite decide_True by done. destruct req_ok as [<- _].
    by rewrite Hf.
  - split; [by apply index_Ok|]. apply req_ok. by eapply list_elem_of_lookup_2.
Qed.

Lemma schedule_inputs_spec inputs p s hs1 hs2 :
  plan_ok p s hs1 hs2 → num_new_tokens p = num_new →
  StronglySorted Z.lt inputs → (∀ i, i ∈ inputs → ∃ f, in_window i f) →
  wp (schedule_inputs false disable_chunked_mm_input has_cache_item req computed shift window_end
        inputs p) (plan_post inputs p s) s.
Proof.
  revert p s hs1 hs2. induction inputs as [|i inputs IH]; intros p s hs1 hs2 Hok Hnn Hsort Hin.
  { apply wp_ret. split; [eauto|]. split; [done|]. split; [done|]. split; [lia|].
    by intros i f ?%elem_of_nil. }
  destruct (Hin i) as [f Hf]; [by left|]. destruct (in_window_input i f Hf) as (Hinp & Hidx & Hsz).
  apply StronglySorted_inv in Hsort as [Hsort Hlt]. rewrite Forall_forall in Hlt.
  assert (∀ p1 s1 hs1 hs2, plan_ok p1 s1 hs1 hs2 → num_new_tokens p1 = num_new → keeps s s1 →
    mm_hashes_to_schedule p ⊆ mm_hashes_to_schedule p1 →
    (embed_in f computed window_end → available p1 s1 (identifier f)) →
    wp (schedule_inputs false disable_chunked_mm_input has_cache_item req computed shift window_end
          inputs p1) (plan_post (i :: inputs) p s) s1) as Hcont.
  { intros p1 s1 h1 h2 Hok1 Hnn1 Hk1 Hsub1 Hav. eapply wp_mono.
    - eapply IH; [exact Hok1|done|done|]. intros j Hj. apply Hin. by right.
    - intros p' s' Hpost. by eapply plan_continue. }
  cbn [schedule_inputs]. apply wp_bind, (wp_lift _ f); [done|]. cbn [andb negb]. apply wp_bind.
  case_decide as Hdup.
  { apply wp_ret. eapply Hcont; [exact Hok|done|done|done|]. intros _. by right. }
  eapply wp_mono.
  { apply (check_and_update_cache_spec embeds features req i (identifier f)); [apply Hok|done]. }
  intros hit s1 (Hwf1 & Hk1 & Hdom & _ & Hfree & Hhit & Href).
  assert (plan_ok p s1 hs1 hs2) as Hok1.
  { apply (plan_ok_state p s); [done|done|rewrite Hfree; apply Hok|].
    intros h. by rewrite <-!not_elem_of_dom, Hdom. }
  destruct hit.
  { eapply Hcont; [done|done|done|done|]. intros _. left. by apply Href. }
  symmetry in Hhit. apply bool_decide_eq_false in Hhit. rewrite <-Hdom, not_elem_of_dom in Hhit.
  pose proof Hf as (_ & Hl & Hstart & Hend). apply list_elem_of_lookup_2 in Hl.
  unfold window_end in Hstart.
  destruct (disable_chunked_mm_input && _ && _) eqn:Hchunk.
  { apply wp_ret. eapply plan_break; [done|done|exact Hok1|done|lia|lia]. }
  apply wp_bind. eapply wp_mono.
  { apply (can_allocate_spec embeds features embeds_nonneg req i (identifier f)); done. }
  intros fits s2 (Hwf2 & Hk2 & Hfit & Hfalse & Htrue & evicted & _ & _ & Hcached & _).
  assert (keeps s s2) as Hk by (by etransitivity).
  destruct fits; cbn [negb].
  2:{ rewrite (Hfalse eq_refl) in *. clear Hfit. apply wp_ret.
      eapply plan_break; [done|done|exact Hok1|done|case_decide; lia|case_decide; lia]. }
  specialize (Htrue eq_refl). symmetry in Hfit. apply bool_decide_eq_true in Hfit as [Hbud _].
  pose proof (embeds_nonneg (identifier f)) as Hnonneg.
  assert (∀ h, cached s1 !! h = None → cached s2 !! h = None) as Hgone.
  { intros h Hh. rewrite Hcached. by apply foldl_delete_None. }
  assert (plan_ok p s2 hs1 hs2) as Hok2 by (apply (plan_ok_state p s1); [done|done|lia|done]).
  destruct (embeds_range_spec f computed window_end) as (a & b & Hrange & Hnone);
    [by apply req_features|intros mask; by apply (fo_mask _ req_features)|done|done|].
  apply wp_bind, (wp_lift _ (a, b)); [exact Hrange|]. case_decide as Hzero.
  { eapply Hcont; [exact Hok2|done|done|done|]. intros Hemb. by destruct (Hnone Hzero). }
  rewrite Hsz. destruct (default false _).
  - eapply (Hcont _ _ hs1 (hs2 ++ [identifier f])); [|done|done|simpl; set_solver|].
    + apply plan_add_external; [done|apply Hinp|done|by apply Hgone|done].
    + intros _. right. simpl. set_solver.
  - eapply (Hcont _ _ (hs1 ++ [identifier f]) hs2); [|done|done|simpl; set_solver|].
    + apply plan_add_input; [done|apply Hinp|done|by apply Hgone|done|done].
    + intros _. right. simpl. set_solver.
Qed.

Lemma try_schedule_spec s :
  enc_wf embeds features s → 0 < num_new → has_encoder_inputs req = true →
  wp (_try_schedule_encoder_inputs false disable_chunked_mm_input has_cache_item req
        computed num_new budget shift) (λ p s',
    (∃ hs1 hs2, plan_ok p s' hs1 hs2) ∧ 0 ≤ num_new_tokens p ≤ num_new ∧
    ∀ f, f ∈ mm_features req → 0 < num_new_tokens p →
      embed_in f computed (computed + num_new_tokens p + shift) → available p s' (identifier f)) s.
Proof.
  intros Hwf Hpos Henc. unfold _try_schedule_encoder_inputs.
  rewrite decide_False by (rewrite Henc; intros [?|?]; [lia|done]).
  apply wp_bind, wp_assert; [exact Henc|].
  destruct (window_spec (mm_features req) computed window_end req_features)
    as (lo & hi & Hw & Hlo & Hhi & Hbefore & Hafter & Hall).
  apply wp_bind, (wp_lift _ (lo, hi)); [exact Hw|].
  assert (∀ i, i ∈ range lo hi → ∃ f, in_window i f) as Hin.
  { intros i Hi%elem_of_range. destruct (lookup_lt_is_Some_2 (mm_features req) (Z.to_nat i)) as [f Hf].
    { unfold len in Hhi. lia. }
    exists f. split; [lia|]. split; [done|].
    split; [apply (Hbefore _ _ Hf); lia|apply (Hafter _ _ Hf); lia]. }
  eapply wp_mono; [apply (schedule_inputs_spec _ _ s [] []); [|done|apply range_sorted|exact Hin]|].
  { pose proof (sw_nonneg _ _ _ _ _ _ (ew_slots _ _ _ Hwf)). split; simpl; try done; try lia.
    - apply NoDup_nil_2.
    - intros h. rewrite elem_of_nil. set_solver.
    - by intros h ?%elem_of_nil. }
  intros p s' (Hok & _ & _ & Hrange & Hav). split; [done|]. split; [done|].
  intros f [j Hj]%list_elem_of_lookup_1 Hp Hemb.
  assert (lo ≤ Z.of_nat j < hi) as Hjr.
  { apply (Hall j f Hj). eapply embed_in_weaken; [|exact Hemb]. unfold window_end. lia. }
  apply (Hav (Z.of_nat j) f); [by apply elem_of_range| |done|done].
  split; [lia|]. rewrite Nat2Z.id. split; [done|].
  split; [apply (Hbefore _ _ Hj); lia|apply (Hafter _ _ Hj); lia].
Qed.
End plan.

(** ** Freeing processed inputs *)

Section freeing.
Context `{SetIter}.
Variable embeds : string → Z.
Variable features : string → list MultiModalFeatureSpec.
Hypothesis embeds_nonneg : ∀ h, 0 ≤ embeds h.
Variable req : Request.
Hypothesis req_ok : request_ok embeds features req.
Variable lookahead : Z.

(** The computed tokens have passed the input by the look-ahead. *)
Definition passed (i : Z) : Prop :=
  ∃ f, index (mm_features req) i = Ok f ∧
    offset (mm_position f) + length_ (mm_position f) + lookahead ≤
      num_computed_tokens req - num_output_placeholders req.

Lemma free_encoder_inputs_spec s :
  enc_wf embeds features s →
  wp (_free_encoder_inputs false lookahead req) (λ _ s',
    enc_wf embeds features s' ∧ dom (cached s') = dom (cached s) ∧
    ∀ rid i, recorded (request_cached_ids s') rid i ↔
      recorded (request_cached_ids s) rid i ∧ ¬ (rid = request_id req ∧ passed i)) s.
Proof.
  intros Hwf. unfold _free_encoder_inputs. apply wp_bind, wp_gets.
  set (ids := default ∅ (request_cached_ids s !! request_id req)).
  assert (∀ i, recorded (request_cached_ids s) (request_id req) i ↔ i ∈ ids) as Hrec by done.
  case_decide as Hempty.
  { apply wp_ret. split; [done|]. split; [done|]. intros rid i. split; [|tauto]. intros Hi.
    split; [done|]. intros [-> _]. rewrite Hrec, Hempty in Hi. set_solver. }
  eapply wp_mono; [apply (wp_for (λ pre s', enc_wf embeds features s' ∧
    dom (cached s') = dom (cached s) ∧ ∀ rid i, recorded (request_cached_ids s') rid i ↔
      recorded (request_cached_ids s) rid i ∧ ¬ (rid = request_id req ∧ i ∈ pre ∧ passed i)))|].
  - split; [done|]. split; [done|]. intros rid i. rewrite elem_of_nil. tauto.
  - intros pre x post s1 Hids (Hwf1 & Hdom & Hrec1).
    assert (recorded (request_cached_ids s) (request_id req) x) as Hx.
    { apply Hrec, elem_of_iter_set. rewrite Hids, elem_of_app. right. by left. }
    destruct (rw_ident _ _ _ (ew_refs _ _ _ Hwf) _ _ Hx) as [h Hh].
    destruct (input_index embeds features req x h ltac:(by split)) as (Hrange & f & Hf & _).
    apply wp_bind, (wp_lift _ f); [done|]. cbn [andb].
    assert (∀ i, i ∈ pre ++ [x] ↔ i ∈ pre ∨ i = x) as Hpre.
    { intros i. by rewrite elem_of_app, list_elem_of_singleton. }
    destruct (Z.leb_spec
      (offset (mm_position f) + length_ (mm_position f) + lookahead)
      (num_computed_tokens req - num_output_placeholders req)) as [Hp|Hp].
    + assert (passed x) as Hpx by (exists f; by split).
      eapply wp_mono; [by apply (free_encoder_input_spec embeds features req x h)|].
      intros [] s2 (Hwf2 & _ & _ & Hids2 & Hdom2 & _). split; [done|]. split; [congruence|].
      intros rid i. rewrite Hids2, recorded_forget, Hrec1, Hpre.
      destruct (decide (i = x)) as [->|]; tauto.
    + apply wp_ret. split; [done|]. split; [done|]. intros rid i. rewrite Hrec1, Hpre.
      assert (¬ passed x).
      { intros (g & Hg & Hle). assert (g = f) as -> by congruence. lia. }
      destruct (decide (i = x)) as [->|]; tauto.
  - intros [] s' (Hwf' & Hdom & Hrec'). split; [done|]. split; [done|]. intros rid i.
    rewrite Hrec', elem_of_iter_set. destruct (decide (rid = request_id req)) as [->|]; [|tauto].
    rewrite Hrec. tauto.
Qed.
End freeing.

(** The encoder-decoder manager counts every input of the request as cached, so each call
    frees them all again. *)
Section encoder_decoder.
Context `{SetIter}.

Definition total_embeds (r : Request) : Z :=
  sumZ ((λ f, get_num_embeds (mm_position f)) <$> mm_features r).

(** [get_num_encoder_embeds], for a valid input *)
Let embeds_of (r : Request) (i : Z) : Z :=
  match get_num_encoder_embeds r i with Ok n => n | Raise _ => 0 end.

Lemma embeds_of_lookup r i f :
  mm_features r !! i = Some f →
  get_num_encoder_embeds r (Z.of_nat i) = Ok (get_num_embeds (mm_position f)).
Proof.
  intros Hf. pose proof (lookup_lt_Some _ _ _ Hf). unfold get_num_encoder_embeds, len.
  rewrite decide_True by lia.
  assert (index (mm_features r) (Z.of_nat i) = Ok f) as ->; [|done].
  apply index_Ok; [lia|]. by rewrite Nat2Z.id.
Qed.

Lemma embeds_of_range r :
  embeds_of r <$> range 0 (len (mm_features r)) = (λ f, get_num_embeds (mm_position f)) <$> mm_features r.
Proof.
  apply list_eq. intros k. unfold range. rewrite !list_lookup_fmap.
  destruct (mm_features r !! k) as [f|] eqn:Hf; simpl.
  - pose proof (lookup_lt_Some _ _ _ Hf). rewrite lookup_seq_lt by (unfold len; lia).
    cbn [fmap option_fmap option_map Nat.add]. unfold embeds_of.
    by rewrite Z.add_0_l, (embeds_of_lookup r k f).
  - apply lookup_ge_None in Hf. rewrite lookup_seq_ge by (unfold len; lia). done.
Qed.

Lemma sumZ_perm l1 l2 : l1 ≡ₚ l2 → sumZ l1 = sumZ l2.
Proof. induction 1; simpl; lia. Qed.

Lemma ed_free_encoder_inputs_spec r lookahead s :
  0 < num_computed_tokens r →
  wp (_free_encoder_inputs true lookahead r) (λ _ s',
    s' = s <| ed_num_free_slots := ed_num_free_slots s + total_embeds r |>) s.
Proof.
  intros Hc. unfold _free_encoder_inputs. apply wp_bind, wp_ret.
  set (ids := list_to_set _). case_decide as Hempty.
  { apply wp_ret. unfold total_embeds. destruct (mm_features r) as [|f fs] eqn:Hf.
    - destruct s. simpl. by rewrite Z.add_0_r.
    - exfalso. assert (0 ∈ ids) as H0; [|by rewrite Hempty in H0; apply not_elem_of_empty in H0].
      apply elem_of_list_to_set, elem_of_range. rewrite len_cons. pose proof (len_nonneg fs). lia. }
  eapply wp_mono; [apply (wp_for (λ pre s',
    s' = s <| ed_num_free_slots := ed_num_free_slots s + sumZ (embeds_of r <$> pre) |>))|].
  { destruct s. simpl. by rewrite Z.add_0_r. }
  { intros pre i post s' Hids ->.
    assert (0 ≤ i < len (mm_features r)) as Hi.
    { apply elem_of_range. apply (elem_of_list_to_set (C := gset Z)), elem_of_iter_set.
      fold ids. rewrite Hids, elem_of_app. right. by left. }
    destruct (index_in_range _ i Hi) as (f & Hf & Hl).
    pose proof (embeds_of_lookup r _ f Hl) as Hn. rewrite Z2Nat.id in Hn by lia.
    apply wp_bind, (wp_lift _ f); [done|]. rewrite (proj2 (Z.ltb_lt _ _) Hc). cbn [andb].
    apply wp_bind, (wp_lift _ (get_num_embeds (mm_position f))); [done|]. apply wp_modify.
    rewrite fmap_app, sumZ_app. simpl. unfold embeds_of at 3. rewrite Hn. f_equal. lia. }
  intros [] s' ->. unfold total_embeds. rewrite <-embeds_of_range.
  rewrite (sumZ_perm _ (embeds_of r <$> range 0 (len (mm_features r)))); [done|].
  apply fmap_Permutation. rewrite iter_set_perm. apply elements_list_to_set.
  apply range_NoDup.
Qed.
End encoder_decoder.

(** ** The properties *)

(** C26: the tokens that a step computes find their encoder outputs.  For a request whose items
    lie one after another, from a consistent encoder cache,
    [_try_schedule_encoder_inputs] returns a number of tokens between 0 and the number asked
    for; the allocations of its plan then succeed, without a failing assertion; and if any
    token is scheduled, every item that has an embedding among the computed tokens or the
    look-ahead has an entry that the request references.  The compute budget is not
    overdrawn.  This holds whatever the connector answers and whether or not chunked input
    is disabled. *)
Theorem encoder_scheduling_sound `{SetIter} (embeds : string → Z)
    (features : string → list MultiModalFeatureSpec) disable_chunked has_cache_item
    r computed num_new budget shift s :
  (∀ h, 0 ≤ embeds h) → request_ok embeds features r → features_ok (mm_features r) →
  0 ≤ shift → 0 < num_new → 0 ≤ budget → has_encoder_inputs r = true →
  enc_wf embeds features s →
  ∃ p s1 s2,
    _try_schedule_encoder_inputs false disable_chunked has_cache_item r computed num_new budget shift
      s = Ok (p, s1) ∧
    allocate_encoder_inputs r p s1 = Ok (tt, s2) ∧ enc_wf embeds features s2 ∧
    0 ≤ num_new_tokens p ≤ num_new ∧ 0 ≤ encoder_compute_budget p ∧
    (0 < num_new_tokens p → ∀ f, f ∈ mm_features r →
       embed_in f computed (computed + num_new_tokens p + shift) →
       referenced (cached s2) (request_id r) (identifier f)).
Proof.
  intros Hnn Hr Hfs Hsh Hnew Hbud Henc Hwf.
  pose proof (try_schedule_spec embeds features Hnn disable_chunked has_cache_item r Hr Hfs budget
                computed shift num_new Hsh ltac:(lia) s Hwf Hnew Henc) as Hwp.
  apply wp_run in Hwp as (p & s1 & Hrun & (hs1 & hs2 & Hok) & Hrange & Hav).
  pose proof (allocate_plan_spec embeds features Hnn r Hr Hfs budget p s1 hs1 hs2 Hok) as Hwp.
  apply wp_run in Hwp as ([] & s2 & Hrun2 & Hwf2 & Href).
  exists p, s1, s2. split_and!; try done; try lia.
  - by apply Hok.
  - intros Hpos f Hf Hemb. by apply Href, Hav.
Qed.

(** [_free_encoder_inputs] releases exactly what is processed.  It succeeds, keeps the cache
    consistent and evicts nothing; the request stays recorded for exactly those inputs that
    the computed tokens have not passed by the look-ahead, and other requests keep all
    theirs. *)
Lemma free_encoder_inputs_exact `{SetIter} (embeds : string → Z)
    (features : string → list MultiModalFeatureSpec) r lookahead s :
  (∀ h, 0 ≤ embeds h) → request_ok embeds features r → enc_wf embeds features s →
  ∃ s', _free_encoder_inputs false lookahead r s = Ok (tt, s') ∧ enc_wf embeds features s' ∧
    dom (cached s') = dom (cached s) ∧
    ∀ rid i, recorded (request_cached_ids s') rid i ↔
      recorded (request_cached_ids s) rid i ∧ ¬ (rid = request_id r ∧ passed r lookahead i).
Proof.
  intros Hnn Hr Hwf.
  pose proof (free_encoder_inputs_spec embeds features Hnn r Hr lookahead s Hwf) as Hwp.
  apply wp_run in Hwp as ([] & s' & Hrun & Hwf' & Hdom & Hrec). by exists s'.
Qed.

(** C27: on encoder-decoder models the capacity of the encoder cache is not enforced.  The
    manager reports every input of a request as cached, so every step after the first frees
    all of them again: [n] steps of one request add [n] times its embeddings to the free
    slots, far beyond the capacity, without any allocation. *)
Theorem encoder_decoder_slots_leak `{SetIter} r lookahead n size :
  0 < num_computed_tokens r →
  for_ (replicate n tt) (λ _, _free_encoder_inputs true lookahead r) (new_EncoderDecoderCacheManager size) =
    Ok (tt, mkEncoderDecoderCacheManager size (size + Z.of_nat n * total_embeds r) [] []).
Proof.
  intros Hc.
  assert (∀ free, for_ (replicate n tt) (λ _, _free_encoder_inputs true lookahead r)
    (mkEncoderDecoderCacheManager size free [] []) =
    Ok (tt, mkEncoderDecoderCacheManager size (free + Z.of_nat n * total_embeds r) [] [])) as Hgen.
  { induction n as [|n IH]; intros free; cbn [replicate for_].
    - cbv [mret M_ret]. do 3 f_equal. lia.
    - pose proof (ed_free_encoder_inputs_spec r lookahead
        (mkEncoderDecoderCacheManager size free [] []) Hc) as Hwp.
      apply wp_run in Hwp as ([] & s' & Hrun & ->). cbv [mbind M_bind]. rewrite Hrun. simpl.
      rewrite IH. do 3 f_equal. lia. }
  apply Hgen.
Qed.

(** *** Two images, room for one *)

Lemma demo_features_ok : features_ok (mm_features demo_mm_request).
Proof.
  split.
  - intros [|[|i]] [|[|j]] f g Hij Hf Hg; simplify_eq/=; lia.
  - intros f [->|[->|?%elem_of_nil]%elem_of_cons]%elem_of_cons; simpl; by try lia.
  - intros f mask [->|[->|?%elem_of_nil]%elem_of_cons]%elem_of_cons Hm; simplify_eq/=; done.
Qed.

Lemma encoder_scheduling_sound_witness :
  ∃ p s1 s2,
    @_try_schedule_encoder_inputs _ (@EncoderCacheManager_manager elements_iter) false false None
      demo_mm_request 0 9 10 0 (new_EncoderCacheManager 5) = Ok (p, s1) ∧
    num_new_tokens p = 4 ∧ @allocate_encoder_inputs _ (@EncoderCacheManager_manager elements_iter)
      demo_mm_request p s1 = Ok (tt, s2) ∧ enc_wf demo_embeds demo_features s2.
Proof.
  destruct (@encoder_scheduling_sound elements_iter demo_embeds demo_features false None
              demo_mm_request 0 9 10 0 (new_EncoderCacheManager 5) demo_embeds_nonneg)
    as (p & s1 & s2 & Hrun & Halloc & Hwf & _).
  - exact (proj1 (demo_input 0 _ eq_refl)).
  - exact demo_features_ok.
  - lia.
  - lia.
  - lia.
  - reflexivity.
  - apply new_enc_wf. lia.
  - exists p, s1, s2. split; [exact Hrun|]. split; [|exact (conj Halloc Hwf)].
    vm_compute in Hrun. injection Hrun as <- _. reflexivity.
Defined.

Lemma encoder_decoder_slots_leak_witness :
  let r := demo_mm_request <| num_computed_tokens := 1 |> in
  for_ (replicate 3 tt) (λ _, @_free_encoder_inputs _ _ elements_iter true 0 r)
    (new_EncoderDecoderCacheManager 5) = Ok (tt, mkEncoderDecoderCacheManager 5 26 [] []).
Proof.
  exact (@encoder_decoder_slots_leak elements_iter (demo_mm_request <| num_computed_tokens := 1 |>)
           0 3 5 eq_refl).
Defined.
