(* ===== verification/SingleType.v ===== *)
(** * Per-layer-type cache managers (src/vllm/v1/core/single_type_kv_cache_manager.py)

    [SingleTypeKVCacheManager] and its subclasses for full, reference sliding-window,
    sliding-window, chunked-local and cross attention and for the two one-block ring buffers:
    which blocks a request holds, how many it needs, when they are cached and when they are
    released.  Definitions only; the theory is in SingleSpecs.v. *)

From S2P Require Import Prelude FreeQueue Request Hashing BlockPool.

(** [vllm.utils.math_utils.cdiv] *)
Definition cdiv (a b : Z) : Z := - (a // (- b)).

(** The subclass, with the fields of its [KVCacheSpec]. *)
Inductive ManagerClass :=
  | FullAttentionManager
  | RSWAManager (rswa_window : Z)
  | SlidingWindowManager (sliding_window extra_retained_tokens : Z)
  | ChunkedLocalAttentionManager (attention_chunk_size : Z)
  | KpoolTailManager
  | CircularBufferManager
  | CrossAttentionManager.

Record SingleTypeKVCacheManager := mkSingleType {
  manager_class : ManagerClass;
  cache_hit_alignment_tokens : Z;
  block_size : Z;
  block_pool : BlockPool; (* shared with the other managers *)
  st_enable_caching : bool;
  _max_admission_blocks_per_request : option Z;
  _record_new_block_ids : bool;
  new_block_ids : list nat;
  req_to_blocks : gmap string (list nat);
  num_cached_block : gmap string Z;
  kv_cache_group_id : Z;
  use_eagle : bool;
  _partial_hit_reqs : gmap string (Z * nat);
  _pending_cow_copies : list (nat * nat)
}.
#[global] Instance SingleType_eta : Eta SingleTypeKVCacheManager := λ m,
  mkSingleType (manager_class m) (cache_hit_alignment_tokens m) (block_size m) (block_pool m)
    (st_enable_caching m) (_max_admission_blocks_per_request m) (_record_new_block_ids m)
    (new_block_ids m) (req_to_blocks m) (num_cached_block m) (kv_cache_group_id m) (use_eagle m)
    (_partial_hit_reqs m) (_pending_cow_copies m).

(** [__init__]; [zeroed_spec] says whether the spec is one whose new blocks are zeroed. *)
Definition new_SingleType (cls : ManagerClass) (spec_block_size scheduler_block_size : Z)
    (pool : BlockPool) (enable_caching : bool) (kv_cache_group_id dcp_world_size : Z)
    (needs_kv_cache_zeroing zeroed_spec : bool) (max_admission : option Z) :
    SingleTypeKVCacheManager :=
  mkSingleType cls scheduler_block_size
    (if decide (dcp_world_size > 1) then spec_block_size * dcp_world_size else spec_block_size)
    pool enable_caching max_admission (needs_kv_cache_zeroing && zeroed_spec) [] ∅ ∅
    kv_cache_group_id false ∅ [].

Abbreviation T := (M SingleTypeKVCacheManager).

(** A method of the block pool. *)
Definition on_pool {A} (m : P A) : T A := λ s,
  match m (block_pool s) with
  | Ok (a, p) => Ok (a, s <| block_pool := p |>)
  | Raise e => Raise e
  end.

(** [self.req_to_blocks[request_id]] on the defaultdict: a missing entry is created. *)
Definition req_blocks (request_id : string) : T (list nat) :=
  bs ← gets (λ m, req_to_blocks m !! request_id : option (list nat));
  match bs with
  | Some bs => mret bs
  | None =>
      _ ← modify (λ m, m <| req_to_blocks ::= <[request_id := []]> |>);
      mret []
  end.

(** [req_blocks.extend(bs)] on the list that is stored for the request. *)
Definition extend_blocks (request_id : string) (bs : list nat) : T unit :=
  modify (λ m, m <| req_to_blocks ::= λ d, <[request_id := default [] (d !! request_id) ++ bs]> d |>).

Definition _get_num_evictable_blocks (p : BlockPool) (blocks : list nat) : Z :=
  len (filter (λ b, ref_cnt (blk p b) = 0 ∧ is_null (blk p b) = false) blocks).

Definition _has_partial_local_hit (m : SingleTypeKVCacheManager) (new_computed_blocks : list nat)
    (num_local_computed_tokens : Z) : bool :=
  bool_decide (len new_computed_blocks > 0 ∧ num_local_computed_tokens mod block_size m ≠ 0).

(** [get_num_skipped_tokens] of each subclass. *)
Definition get_num_skipped_tokens (cls : ManagerClass) (num_computed_tokens : Z) : Z :=
  match cls with
  | FullAttentionManager | RSWAManager _ => 0
  | KpoolTailManager | CircularBufferManager | CrossAttentionManager => 0
  | SlidingWindowManager w extra => Z.max 0 (num_computed_tokens - w + 1 - extra)
  | ChunkedLocalAttentionManager c => (num_computed_tokens // c) * c
  end.

(** [SingleTypeKVCacheManager.get_num_blocks_to_allocate] *)
Definition get_num_blocks_to_allocate_base (m : SingleTypeKVCacheManager) (request_id : string)
    (num_tokens : Z) (new_computed_blocks : list nat)
    (total_computed_tokens num_local_computed_tokens num_tokens_main_model : Z)
    (apply_admission_cap : bool) : res Z :=
  let num_required_blocks := cdiv num_tokens (block_size m) in
  let num_required_blocks :=
    match _max_admission_blocks_per_request m with
    | Some cap => if apply_admission_cap then Z.min num_required_blocks cap else num_required_blocks
    | None => num_required_blocks
    end in
  let num_req_blocks := len (default [] (req_to_blocks m !! request_id)) in
  match num_cached_block m !! request_id with
  | Some _ =>
      if decide (len new_computed_blocks = 0) then Ok (Z.max (num_required_blocks - num_req_blocks) 0)
      else Raise AssertionError
  | None =>
      let num_skipped_tokens := get_num_skipped_tokens (manager_class m) total_computed_tokens in
      let num_local_computed_blocks := len new_computed_blocks + num_req_blocks in
      let num_skipped_blocks := num_skipped_tokens // block_size m in
      let num_new_blocks :=
        Z.max (num_required_blocks - Z.max num_skipped_blocks num_local_computed_blocks) 0 in
      let num_skipped_new_computed_blocks := Z.max 0 (num_skipped_blocks - num_req_blocks) in
      let num_evictable_blocks := _get_num_evictable_blocks (block_pool m)
        (slice_from new_computed_blocks num_skipped_new_computed_blocks) in
      let num_new_blocks :=
        if _has_partial_local_hit m new_computed_blocks num_local_computed_tokens
        then num_new_blocks + 1 else num_new_blocks in
      Ok (num_new_blocks + num_evictable_blocks)
  end.

(** [get_num_blocks_to_allocate] of each subclass *)
Definition get_num_blocks_to_allocate (m : SingleTypeKVCacheManager) (request_id : string)
    (num_tokens : Z) (new_computed_blocks : list nat)
    (total_computed_tokens num_local_computed_tokens num_tokens_main_model : Z)
    (apply_admission_cap : bool) : res Z :=
  let blocks := default [] (req_to_blocks m !! request_id) in
  match manager_class m with
  | KpoolTailManager => Ok (Z.max (1 - len blocks) 0)
  | CircularBufferManager => Ok (if decide (blocks = []) then 1 else 0)
  | _ => get_num_blocks_to_allocate_base m request_id num_tokens new_computed_blocks
           total_computed_tokens num_local_computed_tokens num_tokens_main_model apply_admission_cap
  end.

(** [SingleTypeKVCacheManager.add_local_computed_blocks] *)
Definition add_local_computed_blocks_base (request_id : string) (new_computed_blocks : list nat)
    (num_local_computed_tokens num_external_computed_tokens : Z) : T unit :=
  blocks ← req_blocks request_id;
  _ ← assert_ (bool_decide (len blocks = 0));
  let num_total_computed_tokens := num_local_computed_tokens + num_external_computed_tokens in
  m ← gets (λ m, m);
  let num_skipped_tokens :=
    get_num_skipped_tokens (manager_class m) num_total_computed_tokens in
  let num_skipped_blocks := num_skipped_tokens // block_size m in
  let new_computed_blocks :=
    if decide (num_skipped_blocks > 0) then slice_from new_computed_blocks num_skipped_blocks
    else new_computed_blocks in
  _ ← (if st_enable_caching m then on_pool (touch new_computed_blocks)
       else assert_ (bool_decide (new_computed_blocks = [])));
  _ ← extend_blocks request_id (replicate (Z.to_nat num_skipped_blocks) null_block);
  _ ← extend_blocks request_id new_computed_blocks;
  blocks ← req_blocks request_id;
  _ ← modify (λ m, m <| num_cached_block ::= <[request_id := len blocks]> |>);
  if _has_partial_local_hit m new_computed_blocks num_local_computed_tokens then
    let block_idx := num_local_computed_tokens // block_size m in
    tail ← lift_res (index new_computed_blocks (-1));
    _ ← modify (λ m, m <| _partial_hit_reqs ::= <[request_id := (block_idx, tail)]> |>);
    modify (λ m, m <| num_cached_block ::= <[request_id := block_idx]> |>)
  else mret tt.

(** [add_local_computed_blocks] of each subclass *)
Definition add_local_computed_blocks (request_id : string) (new_computed_blocks : list nat)
    (num_local_computed_tokens num_external_computed_tokens : Z) : T unit :=
  cls ← gets manager_class;
  match cls with
  | KpoolTailManager | CircularBufferManager => mret tt
  | CrossAttentionManager => assert_ (bool_decide (len new_computed_blocks = 0))
  | _ => add_local_computed_blocks_base request_id new_computed_blocks
           num_local_computed_tokens num_external_computed_tokens
  end.

Section set_order.
Context `{SetIter}.
(** [envs.VLLM_KV_EVENTS_USE_INT_BLOCK_HASHES] *)
Variable use_int : bool.
Variable sha256 : list (list Z) → bytes.

(** [if self._record_new_block_ids: self.new_block_ids.extend(...)] *)
Definition record_ids (bs : list nat) : T unit :=
  record ← gets _record_new_block_ids;
  if (record : bool) then modify (λ m, m <| new_block_ids ::= (.++ bs) |>) else mret tt.

(** [CircularBufferManager._claim_ring_block]; [KpoolTailManager] has the same code inline. *)
Definition _claim_ring_block (request_id : string) : T (list nat) :=
  blocks ← req_blocks request_id;
  if decide (blocks = []) then
    new_blocks ← on_pool (get_new_blocks use_int 1);
    _ ← extend_blocks request_id new_blocks;
    _ ← record_ids new_blocks;
    mret new_blocks
  else mret [].

(** [SingleTypeKVCacheManager.allocate_external_computed_blocks] *)
Definition allocate_external_computed_blocks_base (request_id : string)
    (num_local_computed_tokens num_external_computed_tokens : Z) : T unit :=
  let num_total_computed_tokens := num_local_computed_tokens + num_external_computed_tokens in
  cls ← gets manager_class;
  let num_skipped_tokens := get_num_skipped_tokens cls num_total_computed_tokens in
  let num_external_computed_tokens :=
    if decide (num_skipped_tokens > 0)
    then Z.min (num_total_computed_tokens - num_skipped_tokens) num_external_computed_tokens
    else num_external_computed_tokens in
  if decide (num_external_computed_tokens ≤ 0) then mret tt else
  blocks ← req_blocks request_id;
  bsz ← gets block_size;
  let num_new_blocks := Z.max 0 (cdiv num_total_computed_tokens bsz - len blocks) in
  allocated_blocks ← on_pool (get_new_blocks use_int num_new_blocks);
  _ ← extend_blocks request_id allocated_blocks;
  _ ← record_ids allocated_blocks;
  mret tt.

(** [allocate_external_computed_blocks] of each subclass *)
Definition allocate_external_computed_blocks (request_id : string)
    (num_local_computed_tokens num_external_computed_tokens : Z) : T unit :=
  cls ← gets manager_class;
  match cls with
  | KpoolTailManager | CircularBufferManager => _ ← _claim_ring_block request_id; mret tt
  | CrossAttentionManager => mret tt
  | _ => allocate_external_computed_blocks_base request_id num_local_computed_tokens
           num_external_computed_tokens
  end.

Definition _apply_cow (request_id : string) (block_idx : Z) (source_block cow_block : nat) : T unit :=
  blocks ← req_blocks request_id;
  _ ← assert_ (bool_decide (block_idx < len blocks));
  b ← lift_res (index blocks block_idx);
  _ ← assert_ (bool_decide (b = source_block));
  src ← gets (λ m, blk (block_pool m) source_block);
  _ ← assert_ (bool_decide (is_null src = false ∧ ref_cnt src > 0));
  _ ← modify (λ m, m <| req_to_blocks ::= <[request_id := <[Z.to_nat block_idx := cow_block]> blocks]> |>);
  _ ← modify (λ m, m <| _pending_cow_copies ::= (.++ [(source_block, cow_block)]) |>);
  modify (λ m, m <| block_pool ::= upd_blk cow_block (λ b, b <| ref_cnt ::= Z.add 1 |>) |>).

(** [SingleTypeKVCacheManager.allocate_new_blocks] *)
Definition allocate_new_blocks_base (request_id : string) (num_tokens num_tokens_main_model : Z) :
    T (list nat) :=
  hit ← gets (λ m, _partial_hit_reqs m !! request_id : option (Z * nat));
  cow_blocks ← match hit with
    | Some (block_idx, source_block) =>
        _ ← modify (λ m, m <| _partial_hit_reqs ::= delete request_id |>);
        new ← on_pool (get_new_blocks use_int 1);
        cow_block ← lift_res (index new 0);
        _ ← _apply_cow request_id block_idx source_block cow_block;
        _ ← modify (λ m, m <| new_block_ids ::= (.++ [cow_block]) |>);
        mret [cow_block]
    | None => mret []
    end;
  blocks ← req_blocks request_id;
  bsz ← gets block_size;
  let num_new_blocks := cdiv num_tokens bsz - len blocks in
  if decide (num_new_blocks ≤ 0) then mret cow_blocks
  else
    new_blocks ← on_pool (get_new_blocks use_int num_new_blocks);
    _ ← extend_blocks request_id new_blocks;
    _ ← record_ids new_blocks;
    mret (cow_blocks ++ new_blocks).

(** [allocate_new_blocks] of each subclass *)
Definition allocate_new_blocks (request_id : string) (num_tokens num_tokens_main_model : Z) :
    T (list nat) :=
  cls ← gets manager_class;
  match cls with
  | KpoolTailManager | CircularBufferManager => _claim_ring_block request_id
  | _ => allocate_new_blocks_base request_id num_tokens num_tokens_main_model
  end.

Definition take_new_block_ids : T (list nat) :=
  ids ← gets new_block_ids;
  _ ← modify (λ m, m <| new_block_ids := [] |>);
  mret ids.

Definition take_pending_cow_copies : T (list (nat * nat)) :=
  pending ← gets _pending_cow_copies;
  _ ← modify (λ m, m <| _pending_cow_copies := [] |>);
  mret pending.

(** ** Caching *)

Definition _contiguous_blocks_for_hit (window_size block_size : Z) (use_eagle : bool) : Z :=
  let blocks := cdiv (window_size - 1) block_size in
  if use_eagle then blocks + 1 else blocks.

(** Set the mask bits of the blocks [lo, hi). *)
Definition mark (start_block lo hi : Z) (mask : list bool) : list bool :=
  foldl (λ mask j, <[Z.to_nat (j - start_block) := true]> mask) mask (range lo hi).

(** [SlidingWindowManager.reachable_block_mask] *)
Definition swa_block_mask (sliding_window block_size start_block end_block alignment_tokens : Z)
    (use_eagle : bool) (retention_interval : option Z) (reachable_boundaries : list Z) :
    res (option (list bool)) :=
  if decide (alignment_tokens mod block_size ≠ 0) then Raise AssertionError else
  let need := _contiguous_blocks_for_hit sliding_window block_size use_eagle in
  let shift := if use_eagle then 1 else 0 in
  let mask := replicate (Z.to_nat (end_block - start_block)) false in
  let segment_tokens :=
    match retention_interval with
    | None => Some alignment_tokens
    | Some n => if decide (n = 0) then None else Some n
    end in
  let per_segment := (λ t, t // block_size) <$> segment_tokens in
  if match per_segment with Some n => bool_decide (n ≤ need) | None => false end then Ok None else
  let mask := match per_segment with
    | None => mask
    | Some per_segment =>
        foldl (λ mask i,
          if decide (shift ≤ i ∧ per_segment - need ≤ (i - shift) mod per_segment)
          then <[Z.to_nat (i - start_block) := true]> mask else mask)
          mask (range start_block end_block)
    end in
  Ok (Some (match retention_interval with
    | None => mask
    | Some _ =>
        foldl (λ mask boundary_tokens,
          let aligned := boundary_tokens // alignment_tokens * alignment_tokens in
          let last := aligned // block_size + shift in
          mark start_block (Z.max start_block (last - need)) (Z.min end_block last) mask)
          mask reachable_boundaries
    end)).

(** [reachable_block_mask] of each subclass *)
Definition reachable_block_mask (m : SingleTypeKVCacheManager) (start_block end_block : Z)
    (retention_interval : option Z) (reachable_boundaries : list Z) : res (option (list bool)) :=
  match manager_class m with
  | SlidingWindowManager w _ =>
      swa_block_mask w (block_size m) start_block end_block (cache_hit_alignment_tokens m)
        (use_eagle m) retention_interval reachable_boundaries
  | _ => Ok None
  end.

(** [SingleTypeKVCacheManager.cache_blocks]; the request comes back with its memo. *)
Definition cache_blocks_base (request : Request) (num_tokens : Z) (retention_interval : option Z) :
    T Request :=
  m ← gets (λ m, m);
  let num_cached_blocks := default 0 (num_cached_block m !! request_id request) in
  let num_full_blocks := num_tokens // block_size m in
  if decide (num_full_blocks ≤ num_cached_blocks) then mret request else
  let reachable_boundaries := [num_prompt_tokens request - 1] ++
    (if decide (shared_prefix_boundary request ≠ 0) then [shared_prefix_boundary request] else []) in
  block_mask ← lift_res (reachable_block_mask m num_cached_blocks num_full_blocks
                           retention_interval reachable_boundaries);
  blocks ← req_blocks (request_id request);
  request' ← on_pool (cache_full_blocks use_int sha256 request blocks num_cached_blocks
    num_full_blocks (block_size m) (kv_cache_group_id m) block_mask);
  _ ← modify (λ m, m <| num_cached_block ::= <[request_id request := num_full_blocks]> |>);
  mret request'.

(** [FullAttentionManager._cache_partial_tail_block] *)
Definition _cache_partial_tail_block (request : Request) (num_tokens : Z) : T Request :=
  m ← gets (λ m, m);
  let hbs := hash_block_size (block_pool m) in
  let boundary_tokens := num_prompt_tokens request // hbs * hbs in
  if decide (boundary_tokens = 0 ∨ boundary_tokens > num_tokens) then mret request else
  if decide (boundary_tokens mod block_size m = 0) then mret request else
  blocks ← req_blocks (request_id request);
  let block_idx := boundary_tokens // block_size m in
  if decide (len blocks ≤ block_idx) then mret request else
  block ← lift_res (index blocks block_idx);
  '(_, request') ← on_pool (cache_partial_block use_int sha256 request block boundary_tokens
    (kv_cache_group_id m) (block_size m));
  mret request'.

(** [cache_blocks] of each subclass *)
Definition cache_blocks (request : Request) (num_tokens : Z) (retention_interval : option Z) :
    T Request :=
  m ← gets (λ m, m);
  match manager_class m with
  | FullAttentionManager | RSWAManager _ =>
      request' ← cache_blocks_base request num_tokens retention_interval;
      if decide (block_size m = hash_block_size (block_pool m)) then mret request'
      else _cache_partial_tail_block request' num_tokens
  | SlidingWindowManager _ _ | ChunkedLocalAttentionManager _ =>
      cache_blocks_base request num_tokens retention_interval
  | KpoolTailManager | CircularBufferManager => mret request
  | CrossAttentionManager => raise ValueError
  end.

(** ** Releasing blocks *)

Definition pop_blocks_for_free (request_id : string) : T (list nat) :=
  blocks ← gets (λ m, default [] (req_to_blocks m !! request_id) : list nat);
  _ ← modify (λ m, m <| req_to_blocks ::= delete request_id |>);
  _ ← modify (λ m, m <| num_cached_block ::= delete request_id |>);
  _ ← modify (λ m, m <| _partial_hit_reqs ::= delete request_id |>);
  mret blocks.

Definition free (request_id : string) : T unit :=
  blocks ← pop_blocks_for_free request_id;
  on_pool (free_blocks (reverse blocks)).

(** The loop of [_remove_blocks_in_range]: the blocks freed, and the list. *)
Fixpoint null_out (is_ : list Z) (blocks freed : list nat) : res (list nat * list nat) :=
  match is_ with
  | [] => Ok (freed, blocks)
  | i :: is_ =>
      b ← index blocks i;
      if decide (b = null_block) then Ok (freed, blocks)
      else null_out is_ (<[Z.to_nat i := null_block]> blocks) (freed ++ [b])
  end.

Definition _remove_blocks_in_range (request_id : string) (first_block last_block : Z) : T unit :=
  blocks ← gets (λ m, req_to_blocks m !! request_id : option (list nat));
  match blocks with
  | None => mret tt
  | Some blocks =>
      if decide (last_block ≤ first_block) then mret tt else
      let last_block := Z.min last_block (len blocks) in
      '(freed, blocks) ← lift_res
        (null_out (range_down (last_block - 1) (first_block - 1)) blocks []);
      _ ← modify (λ m, m <| req_to_blocks ::= <[request_id := blocks]> |>);
      if decide (freed = []) then mret tt else on_pool (free_blocks freed)
  end.

(** [SingleTypeKVCacheManager.remove_skipped_blocks] *)
Definition remove_skipped_blocks_base (request_id : string) (processed_computed_tokens : Z) :
    T unit :=
  m ← gets (λ m, m);
  let num_skipped_tokens := get_num_skipped_tokens (manager_class m) processed_computed_tokens in
  if decide (num_skipped_tokens ≤ 0) then mret tt else
  blocks ← req_blocks request_id;
  let num_skipped_blocks := num_skipped_tokens // block_size m in
  let num_skipped_blocks := Z.min num_skipped_blocks (len blocks) in
  _remove_blocks_in_range request_id 0 num_skipped_blocks.

(** [remove_skipped_blocks] of each subclass *)
Definition remove_skipped_blocks (request_id : string) (processed_computed_tokens : Z)
    (num_prompt_tokens : option Z) : T unit :=
  m ← gets (λ m, m);
  match manager_class m, num_prompt_tokens with
  | RSWAManager rswa_window, Some num_prompt_tokens =>
      let bs := block_size m in
      let first_gap_block := cdiv num_prompt_tokens bs in
      let window_start := Z.max num_prompt_tokens (processed_computed_tokens - rswa_window) in
      let last_gap_block := window_start // bs in
      _remove_blocks_in_range request_id first_gap_block last_gap_block
  | KpoolTailManager, _ | CircularBufferManager, _ => mret tt
  | _, _ => remove_skipped_blocks_base request_id processed_computed_tokens
  end.

(** The loop of [FullAttentionManager.get_num_common_prefix_blocks]. *)
Fixpoint count_common (p : BlockPool) (num_requests : Z) (blocks : list nat) : Z :=
  match blocks with
  | [] => 0
  | block :: blocks =>
      if decide (ref_cnt (blk p block) = num_requests) then count_common p num_requests blocks + 1
      else 0
  end.

(** [get_num_common_prefix_blocks] of each subclass *)
Definition get_num_common_prefix_blocks (running_request_id : string) : T Z :=
  cls ← gets manager_class;
  match cls with
  | FullAttentionManager | RSWAManager _ =>
      blocks ← req_blocks running_request_id;
      m ← gets (λ m, m);
      mret (count_common (block_pool m) (Z.of_nat (size (req_to_blocks m))) blocks)
  | _ => mret 0
  end.
End set_order.

(** ** Which tokens a query attends to

    The masks of the attention backends, on absolute token positions. *)

Definition causal_mask_mod (q_idx kv_idx : Z) : bool := bool_decide (kv_idx ≤ q_idx).

Definition sliding_window_mask_mod (sliding_window q_idx kv_idx : Z) : bool :=
  bool_decide (Z.abs (q_idx - kv_idx) < sliding_window).

Definition rswa_mask_mod (prefix_len window q_idx kv_idx : Z) : bool :=
  let in_prefix := bool_decide (kv_idx < prefix_len) in
  let in_window := bool_decide (q_idx - kv_idx < window) in
  in_prefix || in_window.

(** What a layer of each type attends to, as a specification for the managers: for full attention,
    sliding windows and reference sliding windows the mask that [get_mask_mod] composes for a decoder,
    of a model without bidirectional multimodal prefixes ([mm_prefix_range], whose mask would be
    or-ed in); for chunked-local attention the chunk of the query; for cross attention and the ring
    buffers everything. *)
Definition attends (cls : ManagerClass) (num_prompt_tokens : option Z) (q_idx kv_idx : Z) : bool :=
  match cls with
  | FullAttentionManager => causal_mask_mod q_idx kv_idx
  | RSWAManager w =>
      causal_mask_mod q_idx kv_idx &&
      match num_prompt_tokens with Some n => rswa_mask_mod n w q_idx kv_idx | None => true end
  | SlidingWindowManager w _ => causal_mask_mod q_idx kv_idx && sliding_window_mask_mod w q_idx kv_idx
  | ChunkedLocalAttentionManager c =>
      causal_mask_mod q_idx kv_idx && bool_decide (q_idx // c = kv_idx // c)
  | KpoolTailManager | CircularBufferManager | CrossAttentionManager => true
  end.
