(* ===== verification/SingleSpecs.v ===== *)
(** * Specifications of the per-layer-type managers

    The invariant that ties the block lists of a manager to the reference counts of the
    pool, and what each operation of SingleType.v does to both. *)

From S2P Require Import Prelude FreeQueue Request Hashing BlockPool PoolSpecs PoolTheorems SingleType.

(** ** Ceiling division *)

Lemma cdiv_spec a b : 0 < b → b * (cdiv a b - 1) < a ≤ b * cdiv a b.
Proof.
  intros Hb. unfold cdiv. pose proof (Z.div_mod a (- b) ltac:(lia)).
  pose proof (Z.mod_neg_bound a (- b) ltac:(lia)). nia.
Qed.

Lemma cdiv_mono a a' b : 0 < b → a ≤ a' → cdiv a b ≤ cdiv a' b.
Proof.
  intros Hb Ha. pose proof (cdiv_spec a b Hb). pose proof (cdiv_spec a' b Hb). nia.
Qed.

Lemma cdiv_partial a b : 0 < b → a mod b ≠ 0 → cdiv a b = a // b + 1.
Proof.
  intros Hb Ha. pose proof (cdiv_spec a b Hb). pose proof (Z.div_mod a b ltac:(lia)).
  pose proof (Z.mod_pos_bound a b Hb). nia.
Qed.

(** ** Skipped tokens *)

Definition class_ok (cls : ManagerClass) : Prop :=
  match cls with
  | FullAttentionManager => True
  | RSWAManager w => 0 ≤ w
  | SlidingWindowManager w extra => 0 < w ∧ 0 ≤ extra
  | ChunkedLocalAttentionManager c => 0 < c
  | KpoolTailManager | CircularBufferManager | CrossAttentionManager => True
  end.

(** Whether blocks of such layers are shared through the prefix cache. *)
Definition shares_prefix (cls : ManagerClass) : bool :=
  match cls with
  | KpoolTailManager | CircularBufferManager | CrossAttentionManager => false
  | _ => true
  end.

Lemma skipped_bounds cls n : class_ok cls → 0 ≤ n → 0 ≤ get_num_skipped_tokens cls n ≤ n.
Proof.
  intros Hc Hn. destruct cls as [|w|w e|c| | |]; simpl in *; try lia.
  pose proof (Z.div_mod n c ltac:(lia)). pose proof (Z.mod_pos_bound n c Hc).
  pose proof (Z.div_pos n c Hn Hc). nia.
Qed.

Lemma slice_from_drop {A} (l : list A) k : 0 ≤ k → slice_from l k = drop (Z.to_nat k) l.
Proof.
  intros Hk. unfold slice_from, slice_pos. rewrite decide_False by lia.
  destruct (decide (k ≤ len l)).
  - by rewrite Z.min_l.
  - rewrite Z.min_r by lia. unfold len in *. rewrite !drop_ge by lia. done.
Qed.

(** ** References *)

(** How often a manager references block [i]: once per entry in the block lists, and for the
    two ends of every pending copy. *)
Definition held (m : SingleTypeKVCacheManager) (i : nat) : Z :=
  map_sum (λ _, occ i) (req_to_blocks m) +
  occ i (sc ← _pending_cow_copies m; [sc.1; sc.2]).

Lemma held_nonneg m i : 0 ≤ held m i.
Proof.
  unfold held. pose proof (occ_nonneg i (sc ← _pending_cow_copies m; [sc.1; sc.2])).
  pose proof (map_sum_nonneg (λ _, occ i) (req_to_blocks m) (λ _ bs _, occ_nonneg i bs)). lia.
Qed.

Lemma held_lookup m rid bs i : req_to_blocks m !! rid = Some bs → occ i bs ≤ held m i.
Proof.
  intros Hrid. unfold held. pose proof (map_sum_delete (λ _, occ i) _ rid bs Hrid) as Hdel.
  cbv beta in Hdel.
  pose proof (map_sum_nonneg (λ _, occ i) (delete rid (req_to_blocks m)) (λ _ x _, occ_nonneg i x)).
  pose proof (occ_nonneg i (sc ← _pending_cow_copies m; [sc.1; sc.2])). lia.
Qed.

Section specs.
Context `{SetIter}.
Variable use_int : bool.
(** References to blocks by others: further managers of the pool, transfers in flight. *)
Variable ext : nat → Z.
Hypothesis ext_nonneg : ∀ i, 0 ≤ ext i.

(** [l] is the free list of the pool. *)
Record st_wf (m : SingleTypeKVCacheManager) (l : list nat) : Prop := mk_st_wf {
  sw_alloc : alloc_wf (block_pool m) l;
  sw_cache : cache_wf (block_pool m);
  (* reference counts are exact *)
  sw_refs i : i ≠ null_block → ref_cnt (blk (block_pool m) i) = held m i + ext i;
  sw_range rid bs i : req_to_blocks m !! rid = Some bs → i ∈ bs →
    Z.of_nat i < num_gpu_blocks (block_pool m);
  (* a recorded partial hit is in place *)
  sw_partial rid idx b : _partial_hit_reqs m !! rid = Some (idx, b) →
    0 ≤ idx ∧ b ≠ null_block ∧ default [] (req_to_blocks m !! rid) !! Z.to_nat idx = Some b;
  sw_shared rid : shares_prefix (manager_class m) = false → _partial_hit_reqs m !! rid = None;
  sw_size : 0 < block_size m;
  sw_class : class_ok (manager_class m);
  sw_pending b : b ∈ (sc ← _pending_cow_copies m; [sc.1; sc.2]) → Z.of_nat b < num_gpu_blocks (block_pool m)
}.

(** The settings of a manager besides its class and block size. *)
Definition settings (m : SingleTypeKVCacheManager) : Z * option Z * bool * Z * bool :=
  (cache_hit_alignment_tokens m, _max_admission_blocks_per_request m, _record_new_block_ids m,
   kv_cache_group_id m, use_eagle m).

(** The configuration, and everything that belongs to other requests, is unchanged. *)
Record st_frame (rid : string) (m m' : SingleTypeKVCacheManager) : Prop := mk_st_frame {
  sf_class : manager_class m' = manager_class m;
  sf_size : block_size m' = block_size m;
  sf_caching : st_enable_caching m' = st_enable_caching m;
  sf_settings : settings m' = settings m;
  sf_pool : same_config (block_pool m) (block_pool m');
  sf_blocks rid' : rid' ≠ rid → req_to_blocks m' !! rid' = req_to_blocks m !! rid';
  sf_cached rid' : rid' ≠ rid → num_cached_block m' !! rid' = num_cached_block m !! rid';
  sf_partial rid' : rid' ≠ rid → _partial_hit_reqs m' !! rid' = _partial_hit_reqs m !! rid'
}.

#[global] Instance st_frame_refl rid : Reflexive (st_frame rid).
Proof. by intros m. Qed.
#[global] Instance st_frame_trans rid : Transitive (st_frame rid).
Proof.
  intros m1 m2 m3 [A1 A2 A3 A0 A4 A5 A6 A7] [B1 B2 B3 B0 B4 B5 B6 B7].
  split; try congruence; [by etrans|..]; intros rid' Hne.
  - rewrite B5, A5; done.
  - rewrite B6, A6; done.
  - rewrite B7, A7; done.
Qed.

(** From free list [l] to [l'], blocks were handed out: those lost their hash, and no other
    hash changed. *)
Record handed_out (p : BlockPool) (l : list nat) (p' : BlockPool) (l' : list nat) : Prop := {
  hd_config : same_config p p';
  hd_sub : l' ⊆ l;
  hd_hash j : j ∉ l → _block_hash (blk p' j) = _block_hash (blk p j) ∧
    _block_hash_num_tokens (blk p' j) = _block_hash_num_tokens (blk p j);
  hd_fresh j : j ∈ l → j ∉ l' → enable_caching p = true → _block_hash (blk p' j) = None
}.

Lemma handed_out_refl p l : handed_out p l p l.
Proof. by split. Qed.

Lemma handed_out_trans p1 l1 p2 l2 p3 l3 :
  handed_out p1 l1 p2 l2 → handed_out p2 l2 p3 l3 → handed_out p1 l1 p3 l3.
Proof.
  intros [A1 A2 A3 A4] [B1 B2 B3 B4]. split; [by etrans|by etrans|..].
  - intros j Hj. assert (j ∉ l2) as Hj2 by (intros ?%A2; done).
    destruct (A3 j Hj) as [<- <-]. by apply B3.
  - intros j Hj Hj3 Hc. destruct (decide (j ∈ l2)) as [Hj2|Hj2].
    + apply B4; [done|done|]. by rewrite (cfg_caching _ _ A1).
    + rewrite (proj1 (B3 j Hj2)). by apply A4.
Qed.

Lemma handed_out_same p l p1 p2 l' :
  handed_out p l p1 l' → cache_same p1 p2 → handed_out p l p2 l'.
Proof.
  intros [A1 A2 A3 A4] [B1 B2 B3 _ _]. split; [by etrans|done|..]; intros j Hj; rewrite B2, ?B3; auto.
Qed.

Lemma allocated_handed_out p l n p' :
  NoDup l → allocated use_int p (take n l) (drop n l) p' → handed_out p l p' (drop n l).
Proof.
  intros Hnd [Hcfg _ _ _ Hf _ Hh Ht _].
  assert (∀ j, j ∈ l ↔ j ∈ take n l ∨ j ∈ drop n l) as Hsplit.
  { intros j. rewrite <-elem_of_app. by rewrite take_drop. }
  split; [done|..].
  - intros j Hj. apply Hsplit. by right.
  - intros j Hj. rewrite Hsplit in Hj. split; [apply Hh|apply Ht]; tauto.
  - intros j Hj Hn. apply Hf. apply Hsplit in Hj. tauto.
Qed.

Lemma wp_on_pool {A} (c : P A) Q m :
  wp c (λ a p, Q a (m <| block_pool := p |>)) (block_pool m) → wp (on_pool c) Q m.
Proof. unfold wp, on_pool. by destruct (c (block_pool m)) as [[a p]|]. Qed.

(** The free list has no duplicates, and its blocks are nowhere referenced. *)
Lemma free_unheld m l i : st_wf m l → i ∈ l → held m i = 0 ∧ ext i = 0 ∧ i ≠ null_block.
Proof.
  intros Hwf Hi. pose proof (proj1 (wf_free _ _ (sw_alloc m l Hwf) i) Hi) as [Hr Hz].
  assert (i ≠ null_block) as Hn by (unfold null_block; lia).
  rewrite (sw_refs m l Hwf i Hn) in Hz. pose proof (held_nonneg m i).
  specialize (ext_nonneg i). lia.
Qed.

Lemma held_blocks_update m rid bs bs' i :
  req_to_blocks m !! rid = Some bs →
  held (m <| req_to_blocks ::= <[rid := bs']> |>) i = held m i - occ i bs + occ i bs'.
Proof.
  intros Hrid. unfold held. simpl. rewrite (map_sum_update _ _ rid bs bs') by done. lia.
Qed.

Lemma held_blocks_fresh m rid bs i :
  req_to_blocks m !! rid = None →
  held (m <| req_to_blocks ::= <[rid := bs]> |>) i = held m i + occ i bs.
Proof. intros Hrid. unfold held. simpl. rewrite map_sum_insert_new by done. lia. Qed.

(** [self.req_to_blocks[rid]] gives the list, after which there is an entry. *)
Lemma req_blocks_spec m l rid :
  st_wf m l →
  wp (req_blocks rid) (λ bs m', bs = default [] (req_to_blocks m !! rid) ∧ st_wf m' l ∧
    st_frame rid m m' ∧ m' = m <| req_to_blocks ::= <[rid := bs]> |>) m.
Proof.
  intros Hwf. unfold req_blocks. apply wp_bind, wp_gets.
  destruct (req_to_blocks m !! rid) as [bs|] eqn:Hrid.
  - apply wp_ret. split_and!; try done. destruct m. simpl in *. by rewrite insert_id.
  - apply wp_bind, wp_modify, wp_ret. split; [done|].
    assert (∀ rid', default [] (<[rid := []]> (req_to_blocks m) !! rid') =
      default [] (req_to_blocks m !! rid')) as Hsame.
    { intros rid'. destruct (decide (rid = rid')) as [<-|]; [|by rewrite lookup_insert_ne].
      by rewrite lookup_insert_eq, Hrid. }
    split; [|split; [|done]].
    + destruct Hwf as [Ha Hc Hr Hg Hp Hsh Hs Hcl]. split; try done.
      * intros i Hi. rewrite held_blocks_fresh by done. rewrite occ_nil, Z.add_0_r. by apply Hr.
      * intros rid' bs i. simpl. destruct (decide (rid = rid')) as [<-|Hne].
        -- rewrite lookup_insert_eq. intros [= <-] ?%elem_of_nil. done.
        -- rewrite lookup_insert_ne by done. apply Hg.
      * intros rid' idx b Hpart. simpl. rewrite Hsame. by apply Hp.
    + split; try done. intros rid' Hne. simpl. by rewrite lookup_insert_ne.
Qed.

(** Blocks [new] are appended to the list [bs] of the request; nothing else changes. *)
Record grown (rid : string) (bs new : list nat) (m m' : SingleTypeKVCacheManager) : Prop := {
  gr_frame : st_frame rid m m';
  gr_blocks : req_to_blocks m' !! rid = Some (bs ++ new);
  gr_cached : num_cached_block m' = num_cached_block m;
  gr_partial : _partial_hit_reqs m' = _partial_hit_reqs m;
  gr_pending : _pending_cow_copies m' = _pending_cow_copies m
}.

Lemma allocated_refs m l p' n :
  st_wf m l → allocated use_int (block_pool m) (take (Z.to_nat n) l) (drop (Z.to_nat n) l) p' →
  ∀ i, i ≠ null_block →
    ref_cnt (blk p' i) = held m i + ext i + occ i (take (Z.to_nat n) l).
Proof.
  intros Hwf Had i Hi. rewrite (ad_ref _ _ _ _ _ Had i).
  rewrite occ_NoDup.
  2:{ eapply sublist_NoDup; [|apply sublist_take].
      apply repr_NoDup with (free_block_queue (block_pool m)). apply Hwf. }
  case_decide as Hin.
  - destruct (free_unheld m l i Hwf) as (-> & -> & _); [|done].
    by eapply elem_of_sublist, sublist_take.
  - rewrite (sw_refs m l Hwf i Hi). lia.
Qed.

Lemma grow_wf m l rid bs n p' :
  st_wf m l → req_to_blocks m !! rid = Some bs →
  allocated use_int (block_pool m) (take (Z.to_nat n) l) (drop (Z.to_nat n) l) p' →
  st_wf (m <| block_pool := p' |> <| req_to_blocks ::= <[rid := bs ++ take (Z.to_nat n) l]> |>)
    (drop (Z.to_nat n) l).
Proof.
  intros Hwf Hrid Had. set (new := take (Z.to_nat n) l) in *.
  pose proof (cfg_num _ _ (ad_config _ _ _ _ _ Had)) as Hnum. split; simpl.
  - apply Had.
  - apply Had.
  - intros i Hi. rewrite (allocated_refs m l p' n Hwf Had i Hi). fold new.
    pose proof (held_blocks_update m rid bs (bs ++ new) i Hrid) as Hheld.
    unfold held in *. simpl in *. rewrite occ_app in Hheld. lia.
  - intros rid' bs' i. rewrite Hnum. destruct (decide (rid = rid')) as [<-|Hne].
    + rewrite lookup_insert_eq. intros [= <-] [Hin|Hin]%elem_of_app; [by eapply (sw_range m l Hwf)|].
      assert (i ∈ l) as Hil by (by eapply elem_of_sublist, sublist_take).
      apply (wf_free _ _ (sw_alloc m l Hwf)) in Hil. lia.
    + rewrite lookup_insert_ne by done. apply (sw_range m l Hwf).
  - intros rid' idx b Hp. destruct (sw_partial m l Hwf rid' idx b Hp) as (Hidx & Hb & Hl).
    split; [done|]. split; [done|]. destruct (decide (rid = rid')) as [<-|Hne].
    + rewrite lookup_insert_eq. rewrite Hrid in Hl. simpl in *. by apply lookup_app_l_Some.
    + by rewrite lookup_insert_ne.
  - apply Hwf.
  - apply Hwf.
  - apply Hwf.
  - rewrite Hnum. apply Hwf.
Qed.

Lemma wp_extend_blocks m rid bs new Q :
  req_to_blocks m !! rid = Some bs → Q tt (m <| req_to_blocks ::= <[rid := bs ++ new]> |>) →
  wp (extend_blocks rid new) Q m.
Proof. intros Hrid HQ. apply wp_modify. simpl. rewrite Hrid. exact HQ. Qed.

Lemma wp_grow {A} m l rid bs n (k : list nat → T A) Q :
  st_wf m l → req_to_blocks m !! rid = Some bs → 0 ≤ n ≤ len l →
  (∀ m', st_wf m' (drop (Z.to_nat n) l) → grown rid bs (take (Z.to_nat n) l) m m' →
     handed_out (block_pool m) l (block_pool m') (drop (Z.to_nat n) l) →
     wp (k (take (Z.to_nat n) l)) Q m') →
  wp (new ← on_pool (get_new_blocks use_int n);
      _ ← extend_blocks rid new; _ ← record_ids new; k new) Q m.
Proof.
  intros Hwf Hrid Hn Hk. apply wp_bind, wp_on_pool.
  eapply wp_mono; [by apply get_new_blocks_spec; [apply Hwf|apply Hwf|]|].
  intros new p' [-> Had]. apply wp_bind, (wp_extend_blocks _ _ bs); [done|]. apply wp_bind.
  pose proof (grow_wf m l rid bs n p' Hwf Hrid Had) as Hwf'.
  set (m1 := m <| block_pool := p' |> <| req_to_blocks ::= _ |>) in *.
  assert (grown rid bs (take (Z.to_nat n) l) m m1) as Hgr.
  { split; simpl; try done; [|apply lookup_insert_eq].
    split; simpl; try done; [apply Had|]. intros rid' Hne. by rewrite lookup_insert_ne. }
  assert (handed_out (block_pool m) l (block_pool m1) (drop (Z.to_nat n) l)) as Hout.
  { apply allocated_handed_out; [|done]. eapply repr_NoDup, wf_queue, Hwf. }
  unfold record_ids. apply wp_bind, wp_gets. destruct (_record_new_block_ids m1).
  - apply wp_modify. apply Hk; [by destruct Hwf'|by destruct Hgr as [[] ? ? ?]|done].
  - apply wp_ret. by apply Hk.
Qed.

Lemma wp_req_blocks_Some m rid bs Q :
  req_to_blocks m !! rid = Some bs → Q bs m → wp (req_blocks rid) Q m.
Proof. intros Hrid HQ. unfold req_blocks. apply wp_bind, wp_gets. rewrite Hrid. by apply wp_ret. Qed.

(** ** Prefix-cache hits *)

(** The hit [hits] of [local] tokens: blocks of the pool, as many as the tokens touch, none
    without caching; a block that is hit only in part is a proper one. *)
Record hits_ok (m : SingleTypeKVCacheManager) (hits : list nat) (local : Z) : Prop := mk_hits_ok {
  ho_range b : b ∈ hits → Z.of_nat b < num_gpu_blocks (block_pool m);
  ho_caching : st_enable_caching m = false → hits = [];
  ho_shared : shares_prefix (manager_class m) = false → hits = [];
  ho_local : 0 ≤ local;
  ho_partial : hits ≠ [] → local mod block_size m ≠ 0 →
    len hits = cdiv local (block_size m) ∧ last hits ≠ Some null_block
}.

(** The request holds null blocks for the skipped tokens, then the rest of the hit. *)
Record added (rid : string) (k : Z) (hits : list nat) (local : Z)
    (m m' : SingleTypeKVCacheManager) : Prop := {
  ad_frame : st_frame rid m m';
  ad_blocks : req_to_blocks m' !! rid =
    Some (replicate (Z.to_nat k) null_block ++ drop (Z.to_nat k) hits);
  ad_cached : num_cached_block m' !! rid =
    Some (if decide (drop (Z.to_nat k) hits ≠ [] ∧ local mod block_size m ≠ 0) then local // block_size m
          else len (replicate (Z.to_nat k) null_block ++ drop (Z.to_nat k) hits));
  ad_cache : cache_same (block_pool m) (block_pool m');
  ad_partial : is_Some (_partial_hit_reqs m' !! rid) ↔
    drop (Z.to_nat k) hits ≠ [] ∧ local mod block_size m ≠ 0;
  ad_idx idx b : _partial_hit_reqs m' !! rid = Some (idx, b) → idx = local // block_size m;
  ad_pending : _pending_cow_copies m' = _pending_cow_copies m
}.

(** The blocks of a touched hit become the list of the request. *)
Lemma touched_wf m l rid hits k p' :
  st_wf m l → req_to_blocks m !! rid = Some [] → _partial_hit_reqs m !! rid = None →
  (∀ b, b ∈ hits → Z.of_nat b < num_gpu_blocks (block_pool m)) →
  touched (block_pool m) l hits p' →
  st_wf (m <| block_pool := p' |>
           <| req_to_blocks ::= <[rid := replicate k null_block ++ hits]> |>)
    (filter (λ i, i ∉ hits) l).
Proof.
  intros Hwf Hrid Hnp Hrange [Ha Hc Hr _]. pose proof (cfg_num _ _ (cs_config _ _ Hc)) as Hnum.
  split; simpl.
  - done.
  - eapply cache_wf_same, Hwf. done.
  - intros i Hi. rewrite Hr, (sw_refs m l Hwf i Hi).
    pose proof (held_blocks_update m rid [] (replicate k null_block ++ hits) i Hrid) as Hheld.
    unfold held in *. simpl in *. rewrite occ_app, occ_nil in Hheld.
    rewrite (occ_zero i (replicate k null_block)) in Hheld; [lia|].
    by intros [-> _]%elem_of_replicate.
  - intros rid' bs i. rewrite Hnum. destruct (decide (rid = rid')) as [<-|Hne].
    + rewrite lookup_insert_eq. intros [= <-] [Hin|Hin]%elem_of_app; [|by apply Hrange].
      apply elem_of_replicate in Hin as [-> _].
      pose proof (wf_num _ _ (sw_alloc m l Hwf)). unfold null_block. lia.
    + rewrite lookup_insert_ne by done. apply (sw_range m l Hwf).
  - intros rid' idx b Hp. destruct (decide (rid = rid')) as [<-|Hne]; [congruence|].
    rewrite lookup_insert_ne by done. by apply (sw_partial m l Hwf).
  - apply Hwf.
  - apply Hwf.
  - apply Hwf.
  - rewrite Hnum. apply Hwf.
Qed.

Lemma last_drop_lookup (hits : list nat) k b :
  drop k hits ≠ [] → last hits = Some b →
  last (drop k hits) = Some b ∧ hits !! (length hits - 1)%nat = Some b ∧ (k < length hits)%nat.
Proof.
  intros Hne Hb. assert (k < length hits)%nat as Hk.
  { destruct (decide (k < length hits)%nat); [done|]. rewrite drop_ge in Hne by lia. done. }
  split; [|split; [|done]].
  - rewrite last_lookup in *. rewrite lookup_drop, length_drop.
    by replace (k + pred (length hits - k))%nat with (pred (length hits)) by lia.
  - rewrite last_lookup in Hb. by replace (length hits - 1)%nat with (pred (length hits)) by lia.
Qed.

(** The partial tail of the hit sits at its block index. *)
Lemma partial_tail m hits local k b :
  0 < block_size m → hits_ok m hits local → drop k hits ≠ [] → local mod block_size m ≠ 0 →
  last (drop k hits) = Some b →
  0 ≤ local // block_size m ∧ b ≠ null_block ∧
  (replicate k null_block ++ drop k hits) !! Z.to_nat (local // block_size m) = Some b.
Proof.
  intros Hs [_ _ _ Hl Hp] Hne Hmod Hb.
  assert (hits ≠ []) as Hne'. { intros ->. by rewrite drop_nil in Hne. }
  destruct (Hp Hne' Hmod) as [Hlen Hnn]. rewrite cdiv_partial in Hlen by done.
  destruct (last hits) as [b'|] eqn:Hb'.
  2:{ by apply last_None in Hb'. }
  destruct (last_drop_lookup hits k b' Hne Hb') as (Hb2 & Hlook & Hk).
  assert (b' = b) as -> by congruence. split; [apply Z.div_pos; lia|]. split; [congruence|].
  replace (Z.to_nat (local // block_size m)) with (length hits - 1)%nat by (unfold len in Hlen; lia).
  rewrite lookup_app_r; rewrite length_replicate; [|lia]. rewrite lookup_drop.
  by replace (k + (length hits - 1 - k))%nat with (length hits - 1)%nat by lia.
Qed.

Lemma touch_hits_spec m l hits :
  st_wf m l → (st_enable_caching m = false → hits = []) →
  (∀ b, b ∈ hits → Z.of_nat b < num_gpu_blocks (block_pool m)) →
  wp (if st_enable_caching m then on_pool (touch hits) else assert_ (bool_decide (hits = [])))
    (λ _ m', ∃ p', touched (block_pool m) l hits p' ∧ m' = m <| block_pool := p' |>) m.
Proof.
  intros Hwf Hcach Hrange.
  assert (wp (touch hits) (λ _, touched (block_pool m) l hits) (block_pool m)) as Ht.
  { apply touch_spec; [apply Hwf|done]. }
  destruct (st_enable_caching m).
  - apply wp_on_pool. eapply wp_mono; [exact Ht|]. intros [] p' Hp'. by exists p'.
  - rewrite (Hcach eq_refl) in *. apply wp_assert; [done|]. exists (block_pool m).
    split; [exact Ht|]. by destruct m.
Qed.

Lemma st_wf_set_partial m l rid idx b :
  st_wf m l → shares_prefix (manager_class m) = true → 0 ≤ idx → b ≠ null_block →
  default [] (req_to_blocks m !! rid) !! Z.to_nat idx = Some b →
  st_wf (m <| _partial_hit_reqs ::= <[rid := (idx, b)]> |>) l.
Proof.
  intros [Ha Hc Hr Hg Hp Hsh Hs Hcl] Hcls Hi Hb Hl. split; try done; simpl.
  - intros rid' idx' b'. destruct (decide (rid = rid')) as [<-|Hne].
    + rewrite lookup_insert_eq. by intros [= <- <-].
    + rewrite lookup_insert_ne by done. apply Hp.
  - rewrite Hcls. done.
Qed.

(** The end of [add_local_computed_blocks]: the number of cached blocks, and the partial hit. *)
Lemma record_hit_spec m m3 l rid hits local k n :
  n = len (replicate (Z.to_nat k) null_block ++ drop (Z.to_nat k) hits) → cache_same (block_pool m) (block_pool m3) →
  st_wf m3 l → hits_ok m hits local → 0 < block_size m → block_size m3 = block_size m → 0 ≤ k →
  req_to_blocks m3 !! rid = Some (replicate (Z.to_nat k) null_block ++ drop (Z.to_nat k) hits) →
  st_frame rid m m3 → _partial_hit_reqs m3 !! rid = None →
  _pending_cow_copies m3 = _pending_cow_copies m →
  wp (_ ← modify (λ m, m <| num_cached_block ::= <[rid := n]> |>);
      if _has_partial_local_hit m (drop (Z.to_nat k) hits) local then
        let block_idx := local // block_size m in
        tail ← lift_res (index (drop (Z.to_nat k) hits) (-1));
        _ ← modify (λ m, m <| _partial_hit_reqs ::= <[rid := (block_idx, tail)]> |>);
        modify (λ m, m <| num_cached_block ::= <[rid := block_idx]> |>)
      else mret tt) (λ _ m', st_wf m' l ∧ added rid k hits local m m') m3.
Proof.
  intros Hlen Hcs Hwf Hok Hpos Hsz Hk Hrid Hfr Hpart Hpend. set (hits' := drop (Z.to_nat k) hits) in *.
  apply wp_bind, wp_modify. unfold _has_partial_local_hit. case_bool_decide as Hpt.
  - assert (hits' ≠ []) as Hne. { intros Hn. rewrite Hn, len_nil in Hpt. lia. }
    destruct (last hits') as [b|] eqn:Hb; [|by apply last_None in Hb].
    destruct (partial_tail m hits local (Z.to_nat k) b Hpos Hok Hne ltac:(tauto) Hb) as (Hi & Hbn & Hl).
    apply wp_bind, (wp_lift _ b).
    { apply last_Some in Hb as [pre ->]. apply index_last. }
    apply wp_bind, wp_modify, wp_modify.
    assert (st_wf (m3 <| _partial_hit_reqs ::= <[rid := (local // block_size m, b)]> |>) l) as Hwf'.
    { apply st_wf_set_partial; [done| |done..|by rewrite Hrid].
      rewrite (sf_class _ _ _ Hfr). apply not_false_iff_true. intros Hsh%(ho_shared m hits local Hok).
      unfold hits' in Hne. by rewrite Hsh, drop_nil in Hne. }
    split; [by destruct Hwf'|]. destruct Hfr. split; simpl; try done.
    + split; simpl; try done; intros rid' Hne'; rewrite ?lookup_insert_ne by done; auto.
    + rewrite lookup_insert_eq, decide_True; [done|]. split; [done|tauto].
    + rewrite lookup_insert_eq. split; [tauto|]. by eexists.
    + rewrite lookup_insert_eq. by intros idx b' [= <- _].
  - assert (¬ (hits' ≠ [] ∧ local mod block_size m ≠ 0)) as Hno.
    { intros [Hne Hmod]. apply Hpt. split; [|done]. destruct hits'; [done|]. rewrite len_cons.
      match goal with |- len ?x + 1 > 0 => pose proof (len_nonneg x) end. lia. }
    apply wp_ret. split; [by destruct Hwf|]. destruct Hfr. split; simpl; try done.
    + split; simpl; try done; intros rid' Hne'; rewrite ?lookup_insert_ne by done; auto.
    + rewrite lookup_insert_eq, decide_False; [by rewrite Hlen|done].
    + rewrite Hpart. split; [by intros []|]. done.
    + rewrite Hpart. done.
Qed.

Lemma add_local_base_spec m l rid hits local external k :
  st_wf m l → default [] (req_to_blocks m !! rid) = [] → _partial_hit_reqs m !! rid = None →
  hits_ok m hits local → 0 ≤ external →
  k = get_num_skipped_tokens (manager_class m) (local + external) // block_size m →
  wp (add_local_computed_blocks_base rid hits local external) (λ _ m',
    st_wf m' (filter (λ i, i ∉ drop (Z.to_nat k) hits) l) ∧ added rid k hits local m m') m.
Proof.
  intros Hwf Hnil Hnp Hok Hext Hk. unfold add_local_computed_blocks_base. apply wp_bind.
  eapply wp_mono; [by apply (req_blocks_spec m l)|]. intros bs m1 (-> & Hwf1 & Hfr1 & Hm1).
  rewrite Hnil in *. apply wp_bind, wp_assert; [done|]. apply wp_bind, wp_gets.
  assert (manager_class m1 = manager_class m ∧ block_size m1 = block_size m ∧
    st_enable_caching m1 = st_enable_caching m ∧ block_pool m1 = block_pool m ∧
    _partial_hit_reqs m1 = _partial_hit_reqs m ∧ req_to_blocks m1 !! rid = Some [])
    as (Hcls & Hsz & Hcach & Hpool & Hpart & Hrid1).
  { subst m1. split_and!; try done. simpl. apply lookup_insert_eq. }
  rewrite Hcls, Hsz, Hcach, <-Hk. pose proof (sw_size m l Hwf) as Hpos.
  destruct (skipped_bounds (manager_class m) (local + external)) as [Hs0 _];
    [apply Hwf|destruct Hok; lia|].
  assert (0 ≤ k) as Hk0 by (subst k; apply Z.div_pos; lia).
  assert ((if decide (k > 0) then slice_from hits k else hits) = drop (Z.to_nat k) hits) as ->.
  { case_decide; [by apply slice_from_drop|]. by replace (Z.to_nat k) with 0%nat by lia. }
  set (hits' := drop (Z.to_nat k) hits) in *.
  assert (∀ b, b ∈ hits' → Z.of_nat b < num_gpu_blocks (block_pool m1)) as Hrange.
  { intros b Hb. rewrite Hpool. apply (ho_range m hits local Hok).
    by eapply elem_of_sublist, sublist_drop. }
  rewrite <-Hcach. apply wp_bind. eapply wp_mono; [apply (touch_hits_spec m1 l hits')|]; [done| |done|].
  { intros Hc. rewrite Hcach in Hc. unfold hits'. by rewrite (ho_caching m hits local Hok Hc), drop_nil. }
  intros [] m2 (p' & Ht & ->).
  pose proof (touched_wf m1 l rid hits' (Z.to_nat k) p' Hwf1 Hrid1 ltac:(by rewrite Hpart) Hrange Ht) as Hwf3.
  apply wp_bind, (wp_extend_blocks _ _ []); [done|]. rewrite app_nil_l.
  apply wp_bind, (wp_extend_blocks _ _ (replicate (Z.to_nat k) null_block)).
  { apply lookup_insert_eq. }
  match goal with |- wp _ _ ?m4 => set (m3 := m4) end.
  assert (m3 = m1 <| block_pool := p' |>
    <| req_to_blocks ::= <[rid := replicate (Z.to_nat k) null_block ++ hits']> |>) as Hm3.
  { unfold m3. destruct m1. simpl. by rewrite insert_insert_eq. }
  rewrite <-Hm3 in Hwf3.
  assert (req_to_blocks m3 !! rid = Some (replicate (Z.to_nat k) null_block ++ hits')) as Hrid3.
  { rewrite Hm3. simpl. apply lookup_insert_eq. }
  assert (st_frame rid m m3 ∧ _partial_hit_reqs m3 = _partial_hit_reqs m ∧
    _pending_cow_copies m3 = _pending_cow_copies m ∧ cache_same (block_pool m) (block_pool m3))
    as (Hfr3 & Hpart3 & Hpend3 & Hcs3).
  { split; [|rewrite Hm3, Hm1; split_and!; try done; rewrite <-Hpool; apply Ht]. etrans; [exact Hfr1|]. rewrite Hm3. split; simpl; try done.
    - apply Ht.
    - intros rid' Hne. by rewrite lookup_insert_ne. }
  clearbody m3.
  apply wp_bind, (wp_req_blocks_Some _ _ _ _ Hrid3).
  assert (_has_partial_local_hit m1 hits' local = _has_partial_local_hit m hits' local) as ->.
  { unfold _has_partial_local_hit. by rewrite Hsz. }
  apply record_hit_spec; try done; [by destruct Hfr3|by rewrite Hpart3].
Qed.

(** The managers of layers without a shared prefix do nothing. *)
Lemma add_local_computed_blocks_spec m l rid hits local external k :
  st_wf m l → default [] (req_to_blocks m !! rid) = [] → _partial_hit_reqs m !! rid = None →
  hits_ok m hits local → 0 ≤ external →
  k = get_num_skipped_tokens (manager_class m) (local + external) // block_size m →
  wp (add_local_computed_blocks rid hits local external) (λ _ m',
    st_wf m' (filter (λ i, i ∉ drop (Z.to_nat k) hits) l) ∧
    if shares_prefix (manager_class m) then added rid k hits local m m' else m' = m) m.
Proof.
  intros Hwf Hnil Hnp Hok Hext Hk. unfold add_local_computed_blocks. apply wp_bind, wp_gets.
  assert (shares_prefix (manager_class m) = false →
    hits = [] ∧ st_wf m (filter (λ i, i ∉ drop (Z.to_nat k) hits) l)) as Hno.
  { intros Hsh. rewrite (ho_shared m hits local Hok Hsh) in *. split; [done|].
    rewrite filter_all; [done|]. rewrite drop_nil. intros i _. by intros ?%elem_of_nil. }
  pose proof (add_local_base_spec m l rid hits local external k Hwf Hnil Hnp Hok Hext Hk) as Hbase.
  destruct (manager_class m); simpl in *; try exact Hbase; destruct (Hno eq_refl) as [-> ?].
  - by apply wp_ret.
  - by apply wp_ret.
  - by apply wp_assert.
Qed.

(** ** Growing a request *)

(** Layers that keep one block per request. *)
Definition is_ring (cls : ManagerClass) : bool :=
  match cls with KpoolTailManager | CircularBufferManager => true | _ => false end.

(** The blocks [new] follow those that the request has. *)
Record appended (rid : string) (new : list nat) (m m' : SingleTypeKVCacheManager) : Prop := {
  ap_frame : st_frame rid m m';
  ap_blocks : default [] (req_to_blocks m' !! rid) = default [] (req_to_blocks m !! rid) ++ new;
  ap_cached : num_cached_block m' = num_cached_block m;
  ap_partial : _partial_hit_reqs m' = _partial_hit_reqs m;
  ap_pending : _pending_cow_copies m' = _pending_cow_copies m
}.

Lemma appended_nil rid m : appended rid [] m m.
Proof. split; try done. by rewrite app_nil_r. Qed.

Lemma grown_appended rid bs new m m1 m' :
  bs = default [] (req_to_blocks m !! rid) → m1 = m <| req_to_blocks ::= <[rid := bs]> |> →
  st_frame rid m m1 → grown rid bs new m1 m' → appended rid new m m'.
Proof.
  intros -> -> Hfr [Hf Hb Hc Hp Hd]. split; [by etrans|by rewrite Hb|done..].
Qed.

(** The blocks that [allocate_external_computed_blocks] allocates for a request that holds
    [held_blocks] blocks. *)
Definition num_external_blocks (m : SingleTypeKVCacheManager) (held_blocks local external : Z) : Z :=
  if is_ring (manager_class m) then Z.max 0 (1 - held_blocks) else
  if shares_prefix (manager_class m) then
    let total := local + external in
    let skipped := get_num_skipped_tokens (manager_class m) total in
    let external := if decide (skipped > 0) then Z.min (total - skipped) external else external in
    if decide (external ≤ 0) then 0 else Z.max 0 (cdiv total (block_size m) - held_blocks)
  else 0.

Lemma grown_nil rid bs m : req_to_blocks m !! rid = Some bs → grown rid bs [] m m.
Proof. intros Hrid. split; try done. by rewrite app_nil_r. Qed.

Lemma claim_ring_block_spec m l rid n :
  st_wf m l → n = Z.max 0 (1 - len (default [] (req_to_blocks m !! rid))) → n ≤ len l →
  wp (_claim_ring_block use_int rid) (λ r m',
    r = take (Z.to_nat n) l ∧ st_wf m' (drop (Z.to_nat n) l) ∧
    is_Some (req_to_blocks m' !! rid) ∧ appended rid (take (Z.to_nat n) l) m m' ∧
    handed_out (block_pool m) l (block_pool m') (drop (Z.to_nat n) l)) m.
Proof.
  intros Hwf Hn Hle. unfold _claim_ring_block. apply wp_bind.
  eapply wp_mono; [by apply (req_blocks_spec m l)|]. intros bs m1 (-> & Hwf1 & Hfr1 & Hm1).
  set (bs := default [] (req_to_blocks m !! rid)) in *.
  assert (req_to_blocks m1 !! rid = Some bs) as Hrid by (rewrite Hm1; apply lookup_insert_eq).
  case_decide as Hnil.
  - assert (n = 1) as -> by (by rewrite Hn, Hnil).
    apply (wp_grow m1 l rid bs); [done|done|lia|]. intros m' Hwf' Hgr Hout. apply wp_ret.
    split; [done|]. split; [done|]. split; [rewrite (gr_blocks _ _ _ _ _ Hgr); eauto|].
    split; [by eapply (grown_appended _ bs _ _ m1)|]. by rewrite Hm1 in Hout.
  - assert (n = 0) as ->. { destruct bs; [done|]. rewrite len_cons in Hn.
      match type of Hn with context [len ?x] => pose proof (len_nonneg x) end. lia. }
    apply wp_ret. simpl. rewrite drop_0. split; [done|]. split; [done|]. split; [by eexists|].
    split; [eapply grown_appended; [done|exact Hm1|done|by apply grown_nil]|].
    rewrite Hm1. apply handed_out_refl.
Qed.

Lemma allocate_external_base_spec m l rid local external n :
  st_wf m l → is_ring (manager_class m) = false → shares_prefix (manager_class m) = true →
  n = num_external_blocks m (len (default [] (req_to_blocks m !! rid))) local external → n ≤ len l →
  wp (allocate_external_computed_blocks_base use_int rid local external) (λ _ m',
    st_wf m' (drop (Z.to_nat n) l) ∧ appended rid (take (Z.to_nat n) l) m m' ∧
    handed_out (block_pool m) l (block_pool m') (drop (Z.to_nat n) l)) m.
Proof.
  intros Hwf Hring Hsh Hn Hle. unfold allocate_external_computed_blocks_base.
  unfold num_external_blocks in *. rewrite Hring, Hsh in *.
  apply wp_bind, wp_gets. cbv zeta in *.
  set (e := if decide (_ > 0) then _ else _) in *. case_decide.
  { apply wp_ret. subst n. simpl. rewrite drop_0.
    split; [done|]. split; [by apply appended_nil|by apply handed_out_refl]. }
  apply wp_bind. eapply wp_mono; [by apply (req_blocks_spec m l)|].
  intros bs m1 (Hbs & Hwf1 & Hfr1 & Hm1). apply wp_bind, wp_gets.
  rewrite (sf_size _ _ _ Hfr1), Hbs, <-Hn. rewrite <-Hbs in *.
  apply (wp_grow _ l rid bs); [done|by rewrite Hm1; apply lookup_insert_eq|lia|].
  intros m' Hwf' Hgr Hout. apply wp_ret. split; [done|].
  split; [by eapply (grown_appended _ bs _ _ m1); [rewrite Hbs|..]|]. by rewrite Hm1 in Hout.
Qed.

Lemma allocate_external_spec m l rid local external n :
  st_wf m l →
  n = num_external_blocks m (len (default [] (req_to_blocks m !! rid))) local external → n ≤ len l →
  wp (allocate_external_computed_blocks use_int rid local external) (λ _ m',
    st_wf m' (drop (Z.to_nat n) l) ∧ appended rid (take (Z.to_nat n) l) m m' ∧
    handed_out (block_pool m) l (block_pool m') (drop (Z.to_nat n) l)) m.
Proof.
  intros Hwf Hn Hle. unfold allocate_external_computed_blocks. apply wp_bind, wp_gets.
  pose proof (λ Hr Hs, allocate_external_base_spec m l rid local external n Hwf Hr Hs Hn Hle) as Hbase.
  assert (is_ring (manager_class m) = true →
    wp (_ ← _claim_ring_block use_int rid; mret tt) (λ _ m',
      st_wf m' (drop (Z.to_nat n) l) ∧ appended rid (take (Z.to_nat n) l) m m' ∧
      handed_out (block_pool m) l (block_pool m') (drop (Z.to_nat n) l)) m) as Hclaim.
  { intros Hr. unfold num_external_blocks in Hn. rewrite Hr in Hn. apply wp_bind.
    eapply wp_mono; [by apply (claim_ring_block_spec m l rid n)|].
    intros r m' (_ & ? & _ & ? & ?). by apply wp_ret. }
  unfold num_external_blocks in Hn. destruct (manager_class m); simpl in *; auto.
  apply wp_ret. subst n. simpl. rewrite drop_0.
  split; [done|]. split; [by apply appended_nil|by apply handed_out_refl].
Qed.

Lemma occ_insert (bs : list nat) j a b i :
  bs !! j = Some a →
  occ i (<[j := b]> bs) =
    occ i bs - (if decide (a = i) then 1 else 0) + (if decide (b = i) then 1 else 0).
Proof.
  intros Hj. rewrite <-(take_drop_middle bs j a Hj) at 2.
  rewrite insert_take_drop by (by eapply lookup_lt_Some).
  rewrite !occ_app, !occ_cons. lia.
Qed.

Lemma occ_lookup (bs : list nat) j a : bs !! j = Some a → 1 ≤ occ a bs.
Proof.
  intros Hj. assert (0 < occ a bs); [|lia]. apply occ_pos. by eapply list_elem_of_lookup_2.
Qed.

Lemma bump_ref_wf p l b :
  alloc_wf p l → 0 < ref_cnt (blk p b) →
  let p' := upd_blk b (λ b, b <| ref_cnt ::= Z.add 1 |>) p in
  alloc_wf p' l ∧ cache_same p p' ∧
  ∀ i, ref_cnt (blk p' i) = ref_cnt (blk p i) + (if decide (b = i) then 1 else 0).
Proof.
  intros [Hq Hnum Hfree Hnull Href] Hpos p'.
  destruct (upd_ref_spec p b (Z.add 1) l) as (Hc & Hq' & Hn & Hr). fold p' in Hc, Hq', Hn, Hr.
  assert (∀ i, ref_cnt (blk p' i) = ref_cnt (blk p i) + (if decide (b = i) then 1 else 0)) as Hr'.
  { intros i. rewrite Hr. case_decide; subst; lia. }
  split; [|done]. split; [by apply Hq'|done|..].
  - intros i. rewrite Hfree, Hr'. change (num_gpu_blocks p') with (num_gpu_blocks p).
    case_decide; subst; lia.
  - intros i. by rewrite Hn.
  - intros i Hi. rewrite Hr'. specialize (Href i Hi). case_decide; lia.
Qed.

(** The shared tail [src] of a partial hit is replaced by the new block [b]: both ends of the
    copy stay referenced until it is done. *)
Lemma cow_wf m l rid idx src b bs p' :
  st_wf m (b :: l) → allocated use_int (block_pool m) [b] l p' →
  req_to_blocks m !! rid = Some bs → bs !! idx = Some src → src ≠ null_block →
  let p2 := upd_blk b (λ b, b <| ref_cnt ::= Z.add 1 |>) p' in
  st_wf (m <| _partial_hit_reqs ::= delete rid |>
           <| req_to_blocks ::= <[rid := <[idx := b]> bs]> |>
           <| _pending_cow_copies ::= (.++ [(src, b)]) |>
           <| block_pool := p2 |>) l.
Proof.
  intros Hwf Had Hrid Hidx Hsrc p2.
  destruct (free_unheld m (b :: l) b Hwf ltac:(by left)) as (Hheld0 & Hext0 & Hbn).
  assert (ref_cnt (blk p' b) = 1) as Hb1.
  { by rewrite (ad_ref _ _ _ _ _ Had), decide_True by (by left). }
  destruct (bump_ref_wf p' l b (ad_alloc _ _ _ _ _ Had) ltac:(lia)) as (Ha & Hc & Hr).
  fold p2 in Ha, Hc, Hr.
  pose proof (cfg_num _ _ (ad_config _ _ _ _ _ Had)) as Hn1.
  split; simpl.
  - done.
  - eapply cache_wf_same, Had. done.
  - intros i Hi. rewrite Hr.
    pose proof (allocated_refs m (b :: l) p' 1 Hwf Had i Hi) as Hi'.
    change (take (Z.to_nat 1) (b :: l)) with [b] in Hi'. rewrite occ_cons, occ_nil in Hi'. rewrite Hi'.
    pose proof (held_blocks_update m rid bs (<[idx := b]> bs) i Hrid) as Hh.
    unfold held in *. simpl in *. rewrite bind_app, occ_app. simpl.
    rewrite !occ_cons, occ_nil. rewrite (occ_insert bs idx src b i Hidx) in Hh. lia.
  - intros rid' bs' i. rewrite Hn1. destruct (decide (rid = rid')) as [<-|Hne].
    + rewrite lookup_insert_eq. intros [= <-] [j Hj]%list_elem_of_lookup.
      apply list_lookup_insert_Some in Hj as [(_ & <- & _)|[_ Hj]].
      * assert (b ∈ b :: l) as Hb%(wf_free _ _ (sw_alloc _ _ Hwf)) by (by left). lia.
      * eapply (sw_range m _ Hwf); [exact Hrid|]. by eapply list_elem_of_lookup_2.
    + rewrite lookup_insert_ne by done. apply (sw_range m _ Hwf).
  - intros rid' idx' b'. destruct (decide (rid = rid')) as [<-|Hne]; [by rewrite lookup_delete_eq|].
    rewrite lookup_delete_ne, lookup_insert_ne by done. apply (sw_partial m _ Hwf).
  - intros rid' Hsh. rewrite lookup_delete_None. right. by apply (sw_shared m _ Hwf).
  - apply Hwf.
  - apply Hwf.
  - intros i. rewrite Hn1, bind_app. simpl. rewrite elem_of_app, !elem_of_cons.
    intros [Hi|[-> |[-> |[]%elem_of_nil]]]; [by apply (sw_pending m _ Hwf)|..].
    + eapply (sw_range m _ Hwf); [exact Hrid|]. by eapply list_elem_of_lookup_2.
    + assert (b ∈ b :: l) as Hb%(wf_free _ _ (sw_alloc _ _ Hwf)) by (by left). lia.
Qed.

(** What the redirection of a partial hit leaves. *)
Record redirected (rid : string) (idx src b : nat) (bs : list nat)
    (m m' : SingleTypeKVCacheManager) : Prop := {
  rd_frame : st_frame rid m m';
  rd_blocks : req_to_blocks m' !! rid = Some (<[idx := b]> bs);
  rd_cached : num_cached_block m' = num_cached_block m;
  rd_partial : _partial_hit_reqs m' !! rid = None;
  rd_pending : _pending_cow_copies m' = _pending_cow_copies m ++ [(src, b)]
}.

Lemma partial_entry m l rid idx src :
  st_wf m l → _partial_hit_reqs m !! rid = Some (idx, src) →
  0 ≤ idx ∧ src ≠ null_block ∧
  ∃ bs, req_to_blocks m !! rid = Some bs ∧ bs !! Z.to_nat idx = Some src.
Proof.
  intros Hwf Hp. destruct (sw_partial m l Hwf rid idx src Hp) as (Hi & Hs & Hl).
  destruct (req_to_blocks m !! rid) as [bs|]; [|done]. eauto.
Qed.

Lemma redirect_spec m b l rid idx src bs :
  st_wf m (b :: l) → _partial_hit_reqs m !! rid = Some (idx, src) →
  req_to_blocks m !! rid = Some bs →
  wp (_ ← modify (λ m, m <| _partial_hit_reqs ::= delete rid |>);
      new ← on_pool (get_new_blocks use_int 1);
      cow_block ← lift_res (index new 0);
      _ ← _apply_cow rid idx src cow_block;
      _ ← modify (λ m, m <| new_block_ids ::= (.++ [cow_block]) |>);
      mret [cow_block])
    (λ r m', r = [b] ∧ st_wf m' l ∧ redirected rid (Z.to_nat idx) src b bs m m' ∧
       handed_out (block_pool m) (b :: l) (block_pool m') l) m.
Proof.
  intros Hwf Hp Hrid. destruct (partial_entry m _ rid idx src Hwf Hp) as (Hi & Hs & bs' & Hbs & Hl).
  assert (bs' = bs) as -> by congruence.
  pose proof (free_unheld m (b :: l) b Hwf ltac:(by left)) as (Hheld0 & _).
  apply wp_bind, wp_modify, wp_bind, wp_on_pool.
  eapply wp_mono; [apply (get_new_blocks_spec use_int (block_pool m) (b :: l) 1)|];
    [apply Hwf|apply Hwf|rewrite len_cons; pose proof (len_nonneg l); lia|].
  intros new p' [-> Had]. change (take (Z.to_nat 1) (b :: l)) with [b] in *.
  change (drop (Z.to_nat 1) (b :: l)) with l in Had.
  apply wp_bind, (wp_lift _ b); [done|].
  pose proof (cow_wf m l rid (Z.to_nat idx) src b bs p' Hwf Had Hrid Hl Hs) as Hwf2.
  assert (is_null (blk p' src) = false ∧ ref_cnt (blk p' src) > 0) as Hsrc.
  { pose proof (allocated_refs m (b :: l) p' 1 Hwf Had src Hs) as Hr.
    pose proof (occ_lookup bs _ src Hl) as Hocc. pose proof (occ_nonneg src [b]).
    specialize (ext_nonneg src). change (take (Z.to_nat 1) (b :: l)) with [b] in Hr. split.
    - apply not_true_iff_false. by rewrite (wf_null _ _ (ad_alloc _ _ _ _ _ Had)).
    - pose proof (held_lookup m rid bs src Hrid). lia. }
  apply wp_bind. unfold _apply_cow.
  apply wp_bind, (wp_req_blocks_Some _ _ bs); [done|].
  pose proof (lookup_lt_Some _ _ _ Hl) as Hlt.
  apply wp_bind, wp_assert; [apply bool_decide_eq_true_2; unfold len; lia|].
  apply wp_bind, (wp_lift _ src); [by apply index_Ok|].
  apply wp_bind, wp_assert; [by apply bool_decide_eq_true_2|].
  apply wp_bind, wp_gets, wp_bind, wp_assert; [by apply bool_decide_eq_true_2|].
  apply wp_bind, wp_modify, wp_bind, wp_modify, wp_modify, wp_bind, wp_modify, wp_ret.
  assert (0 < ref_cnt (blk p' b)) as Hb1.
  { rewrite (ad_ref _ _ _ _ _ Had), decide_True by (by left). lia. }
  destruct (bump_ref_wf p' l b (ad_alloc _ _ _ _ _ Had) Hb1) as (_ & Hcs & _).
  split; [done|]. split; [by destruct Hwf2|]. split.
  2:{ eapply handed_out_same; [|exact Hcs]. apply (allocated_handed_out _ (b :: l) 1); [|done].
      eapply repr_NoDup, wf_queue, Hwf. }
  split; simpl; try done.
  - split; simpl; try done; [|intros; by rewrite lookup_insert_ne|intros; by rewrite lookup_delete_ne].
    etrans; [apply Had|apply Hcs].
  - apply lookup_insert_eq.
  - apply lookup_delete_eq.
Qed.

(** The blocks [allocate_new_blocks] takes: one for a pending redirection, and those the
    request lacks. *)
Definition num_redirects (m : SingleTypeKVCacheManager) (rid : string) : Z :=
  match _partial_hit_reqs m !! rid with Some _ => 1 | None => 0 end.
Definition required_blocks (m : SingleTypeKVCacheManager) (num_tokens : Z) : Z :=
  if is_ring (manager_class m) then 1 else cdiv num_tokens (block_size m).
Definition num_missing (m : SingleTypeKVCacheManager) (rid : string) (num_tokens : Z) : Z :=
  Z.max 0 (required_blocks m num_tokens - len (default [] (req_to_blocks m !! rid))).

Record extended (rid : string) (num_tokens : Z) (new : list nat) (m m' : SingleTypeKVCacheManager)
    (bs' : list nat) : Prop := {
  ex_frame : st_frame rid m m';
  ex_blocks : req_to_blocks m' !! rid = Some bs';
  ex_cached : num_cached_block m' = num_cached_block m;
  ex_partial : _partial_hit_reqs m' !! rid = None;
  (* the request has all the blocks for its tokens, and keeps those it had *)
  ex_len : len bs' = len (default [] (req_to_blocks m !! rid)) + num_missing m rid num_tokens;
  ex_kept j b : default [] (req_to_blocks m !! rid) !! j = Some b →
    (∀ idx src, _partial_hit_reqs m !! rid = Some (idx, src) → Z.to_nat idx ≠ j) → bs' !! j = Some b;
  ex_shape : match _partial_hit_reqs m !! rid with
    | Some (idx, _) => ∃ b new', new = b :: new' ∧
        bs' = <[Z.to_nat idx := b]> (default [] (req_to_blocks m !! rid)) ++ new'
    | None => bs' = default [] (req_to_blocks m !! rid) ++ new
    end
}.

(** The second half of [allocate_new_blocks]. *)
Lemma extend_to_spec m l rid num_tokens cows :
  st_wf m l → is_ring (manager_class m) = false → _partial_hit_reqs m !! rid = None → num_missing m rid num_tokens ≤ len l →
  wp (blocks ← req_blocks rid;
      bsz ← gets block_size;
      let num_new_blocks := cdiv num_tokens bsz - len blocks in
      if decide (num_new_blocks ≤ 0) then mret cows
      else
        new_blocks ← on_pool (get_new_blocks use_int num_new_blocks);
        _ ← extend_blocks rid new_blocks;
        _ ← record_ids new_blocks;
        mret (cows ++ new_blocks))
    (λ r m', r = cows ++ take (Z.to_nat (num_missing m rid num_tokens)) l ∧
       st_wf m' (drop (Z.to_nat (num_missing m rid num_tokens)) l) ∧
       extended rid num_tokens (take (Z.to_nat (num_missing m rid num_tokens)) l) m m'
         (default [] (req_to_blocks m !! rid) ++ take (Z.to_nat (num_missing m rid num_tokens)) l) ∧
       handed_out (block_pool m) l (block_pool m') (drop (Z.to_nat (num_missing m rid num_tokens)) l)) m.
Proof.
  intros Hwf Hring Hp Hle. unfold num_missing, required_blocks in *. rewrite Hring in *. set (bs := default [] (req_to_blocks m !! rid)) in *.
  apply wp_bind. eapply wp_mono; [by apply (req_blocks_spec m l)|]. fold bs.
  intros bs0 m1 (-> & Hwf1 & Hfr1 & Hm1). apply wp_bind, wp_gets.
  assert (block_size m1 = block_size m ∧ req_to_blocks m1 !! rid = Some bs ∧
    _partial_hit_reqs m1 = _partial_hit_reqs m ∧ num_cached_block m1 = num_cached_block m)
    as (Hsz & Hrid & Hpart & Hcach).
  { rewrite Hm1. split_and!; try done. simpl. apply lookup_insert_eq. }
  rewrite Hsz. cbv zeta. case_decide as Hn.
  - apply wp_ret. rewrite Z.max_l by lia. simpl. rewrite drop_0, !app_nil_r. split; [done|].
    split; [done|]. split; [|rewrite Hm1; apply handed_out_refl].
    split; try done; [by rewrite Hpart|..].
    + unfold num_missing, required_blocks. rewrite Hring. fold bs. lia.
    + rewrite Hp. by rewrite app_nil_r.
  - rewrite Z.max_r in * by lia.
    apply (wp_grow m1 l rid bs); [done|done|lia|]. intros m' Hwf' [Hfr Hb Hc Hpt _] Hout. apply wp_ret.
    split; [done|]. split; [done|]. split; [|by rewrite Hm1 in Hout]. split; try done.
    + by etrans.
    + congruence.
    + by rewrite Hpt, Hpart.
    + rewrite len_app. unfold num_missing, required_blocks. rewrite Hring. fold bs. unfold len in *. rewrite length_take. lia.
    + fold bs. intros j b Hj _. by apply lookup_app_l_Some.
    + by rewrite Hp.
Qed.

Lemma allocate_new_base_spec m l rid num_tokens main :
  st_wf m l → is_ring (manager_class m) = false →
  let n := num_redirects m rid + num_missing m rid num_tokens in
  n ≤ len l →
  wp (allocate_new_blocks_base use_int rid num_tokens main) (λ r m',
    r = take (Z.to_nat n) l ∧ st_wf m' (drop (Z.to_nat n) l) ∧
    (∃ bs', extended rid num_tokens (take (Z.to_nat n) l) m m' bs') ∧
    handed_out (block_pool m) l (block_pool m') (drop (Z.to_nat n) l)) m.
Proof.
  intros Hwf Hring n Hle. unfold allocate_new_blocks_base, num_redirects in *.
  assert (0 ≤ num_missing m rid num_tokens) as Hnn by (unfold num_missing; lia).
  apply wp_bind, wp_gets. destruct (_partial_hit_reqs m !! rid) as [[idx src]|] eqn:Hp; cbv zeta.
  - destruct l as [|b l]; [rewrite len_nil in Hle; lia|]. rewrite len_cons in Hle.
    destruct (partial_entry m _ rid idx src Hwf Hp) as (Hi & Hs & bs & Hbs & Hl).
    apply wp_bind. eapply wp_mono; [by apply (redirect_spec m b l)|].
    intros r m1 (-> & Hwf1 & [Hfr Hb Hc Hpt _] & Hout1).
    assert (num_missing m1 rid num_tokens = num_missing m rid num_tokens) as Hsame.
    { unfold num_missing, required_blocks. rewrite Hb, Hbs, (sf_size _ _ _ Hfr), (sf_class _ _ _ Hfr).
      simpl. unfold len. by rewrite length_insert. }
    eapply wp_mono; [apply extend_to_spec; [exact Hwf1|by rewrite (sf_class _ _ _ Hfr)|done|lia]|].
    intros r m2 (-> & Hwf2 & [Hfr2 Hb2 Hc2 Hp2 Hl2 Hk2 _] & Hout2). rewrite Hsame in *.
    replace (Z.to_nat n) with (S (Z.to_nat (num_missing m rid num_tokens))) by (unfold n; lia).
    split; [done|]. split; [done|]. split; [|by eapply handed_out_trans].
    eexists. split; [by etrans|exact Hb2|congruence|done|..].
    + rewrite Hl2, Hb, Hbs. simpl. unfold len. by rewrite length_insert.
    + rewrite Hbs. simpl. intros j b' Hj Hne. apply Hk2; [|by rewrite Hpt].
      rewrite Hb. simpl. rewrite list_lookup_insert_ne; [done|]. by apply (Hne idx src).
    + rewrite Hp, Hbs, Hb. simpl. eauto.
  - apply wp_bind, wp_ret. eapply wp_mono; [apply extend_to_spec; [done|done|done|lia]|].
    intros r m' (-> & Hwf' & Hex & Hout). change n with (0 + num_missing m rid num_tokens).
    rewrite Z.add_0_l. split; [done|]. split; [done|]. split; [by eexists|done].
Qed.

Lemma allocate_new_blocks_spec m l rid num_tokens main :
  st_wf m l →
  let n := num_redirects m rid + num_missing m rid num_tokens in
  n ≤ len l →
  wp (allocate_new_blocks use_int rid num_tokens main) (λ r m',
    r = take (Z.to_nat n) l ∧ st_wf m' (drop (Z.to_nat n) l) ∧
    (∃ bs', extended rid num_tokens (take (Z.to_nat n) l) m m' bs') ∧
    handed_out (block_pool m) l (block_pool m') (drop (Z.to_nat n) l)) m.
Proof.
  intros Hwf n Hle. unfold allocate_new_blocks. apply wp_bind, wp_gets.
  destruct (is_ring (manager_class m)) eqn:Hring.
  2:{ pose proof (allocate_new_base_spec m l rid num_tokens main Hwf Hring Hle) as Hbase.
      by destruct (manager_class m). }
  assert (_partial_hit_reqs m !! rid = None) as Hp.
  { apply (sw_shared m l Hwf). by destruct (manager_class m). }
  assert (n = Z.max 0 (1 - len (default [] (req_to_blocks m !! rid)))) as Hn.
  { unfold n, num_redirects, num_missing, required_blocks. rewrite Hp, Hring. lia. }
  assert (wp (_claim_ring_block use_int rid) (λ r m',
    r = take (Z.to_nat n) l ∧ st_wf m' (drop (Z.to_nat n) l) ∧
    (∃ bs', extended rid num_tokens (take (Z.to_nat n) l) m m' bs') ∧
    handed_out (block_pool m) l (block_pool m') (drop (Z.to_nat n) l)) m) as Hclaim; [|by destruct (manager_class m)].
  eapply wp_mono; [by apply (claim_ring_block_spec m l rid n)|].
  intros r m' (-> & Hwf' & [bs' Hbs'] & [Hf Hb Hc Hpt _] & Hout). split; [done|]. split; [done|].
  split; [|done]. exists bs'. rewrite Hbs' in Hb. simpl in Hb. split; try done; [by rewrite Hpt|..].
  - rewrite Hb, len_app. unfold num_missing, required_blocks. rewrite Hring.
    unfold len in *. rewrite length_take. lia.
  - intros j b Hj _. rewrite Hb. by apply lookup_app_l_Some.
  - by rewrite Hp.
Qed.
End specs.

(** A manager keeps its invariant when another one changes the pool. *)
Lemma st_wf_other o o' m l p' l' :
  st_wf o m l → same_config (block_pool m) p' → alloc_wf p' l' → cache_wf p' →
  (∀ j, j ≠ null_block → ref_cnt (blk p' j) = held m j + o' j) →
  st_wf o' (m <| block_pool := p' |>) l'.
Proof.
  intros [Ha Hc Hr Hrange Hp Hs Hsz Hcls Hpd] Hcfg Ha' Hc' Hr'. split; try done; simpl; rewrite (cfg_num _ _ Hcfg); done.
Qed.
