(* ===== verification/SingleTheorems.v ===== *)
(** * Correctness of the per-layer-type managers

    Releasing blocks, the manager as a transition system with exact reference counts, the
    contract between [get_num_blocks_to_allocate] and the allocations it predicts, and the
    safety of dropping blocks outside the attention window. *)

From S2P Require Import Prelude FreeQueue Request Hashing BlockPool PoolSpecs PoolTheorems.
From S2P Require Import SingleType SingleSpecs.

(** ** Releasing blocks *)

Lemma occ_reverse (l : list nat) i : occ i (reverse l) = occ i l.
Proof. unfold occ, len. by rewrite (reverse_Permutation l). Qed.

(** Positions [z, hi) of the list become null blocks. *)
Definition nulled (z hi : nat) (blocks : list nat) : list nat :=
  take z blocks ++ replicate (hi - z) null_block ++ drop hi blocks.

Lemma nulled_refl z blocks : nulled z z blocks = blocks.
Proof. unfold nulled. rewrite Nat.sub_diag. simpl. apply take_drop. Qed.

Lemma nulled_lookup z hi blocks j :
  (z ≤ hi ≤ length blocks)%nat →
  nulled z hi blocks !! j = if decide (z ≤ j < hi)%nat then Some null_block else blocks !! j.
Proof.
  intros Hz. unfold nulled. case_decide as Hj.
  - rewrite lookup_app_r by (rewrite length_take; lia).
    rewrite lookup_app_l by (rewrite length_take, length_replicate; lia).
    apply lookup_replicate_2. rewrite length_take. lia.
  - destruct (decide (j < z)%nat) as [Hlt|Hge].
    + rewrite lookup_app_l by (rewrite length_take; lia). by rewrite lookup_take_lt.
    + rewrite lookup_app_r by (rewrite length_take; lia).
      rewrite lookup_app_r by (rewrite length_take, length_replicate; lia).
      rewrite lookup_drop, length_take, length_replicate. f_equal. lia.
Qed.

Lemma nulled_length z hi blocks :
  (z ≤ hi ≤ length blocks)%nat → length (nulled z hi blocks) = length blocks.
Proof.
  intros Hz. unfold nulled. rewrite !length_app, length_take, length_replicate, length_drop. lia.
Qed.

(** Going down from [hi], the loop nulls out the positions [z, hi), where [z] is [lo] or
    follows a null block, and frees their blocks. *)
Lemma null_out_spec (lo hi : nat) blocks acc :
  (lo ≤ hi ≤ length blocks)%nat →
  ∃ z : nat, (lo ≤ z ≤ hi)%nat ∧
    null_out (range_down (Z.of_nat hi - 1) (Z.of_nat lo - 1)) blocks acc =
      Ok (acc ++ reverse (take (hi - z) (drop z blocks)), nulled z hi blocks) ∧
    (∀ j b, (z ≤ j < hi)%nat → blocks !! j = Some b → b ≠ null_block) ∧
    (z = lo ∨ blocks !! (z - 1)%nat = Some null_block).
Proof.
  intros Hlo. remember (hi - lo)%nat as d eqn:Hd. revert hi blocks acc Hlo Hd.
  induction d as [|d IH]; intros hi blocks acc Hlo Hd.
  { assert (hi = lo) as -> by lia. exists lo. split; [lia|]. rewrite range_down_nil by lia.
    rewrite Nat.sub_diag, nulled_refl. simpl. rewrite app_nil_r. split; [done|].
    split; [lia|by left]. }
  rewrite range_down_cons by lia. cbn [null_out].
  destruct (lookup_lt_is_Some_2 blocks (hi - 1)) as [b Hb]; [lia|].
  assert (index blocks (Z.of_nat hi - 1) = Ok b) as ->.
  { apply index_Ok; [lia|]. by replace (Z.to_nat (Z.of_nat hi - 1)) with (hi - 1)%nat by lia. }
  cbn [mbind res_bind]. case_decide as Hnull.
  { exists hi. split; [lia|]. rewrite Nat.sub_diag, nulled_refl. simpl. rewrite app_nil_r.
    split; [done|]. split; [lia|]. right. congruence. }
  replace (Z.to_nat (Z.of_nat hi - 1)) with (hi - 1)%nat by lia.
  replace (Z.of_nat hi - 1 - 1) with (Z.of_nat (hi - 1) - 1) by lia.
  destruct (IH (hi - 1)%nat (<[(hi - 1)%nat := null_block]> blocks) (acc ++ [b]))
    as (z & Hz & Hrun & Hnn & Hend); [rewrite length_insert; lia|lia|].
  assert (∀ j, (j < hi - 1)%nat → <[(hi - 1)%nat := null_block]> blocks !! j = blocks !! j) as Hsame.
  { intros j Hj. by rewrite list_lookup_insert_ne by lia. }
  exists z. split; [lia|]. split_and!.
  - rewrite Hrun. f_equal. f_equal.
    + rewrite <-app_assoc. f_equal. rewrite drop_insert_ge by lia.
      rewrite take_insert_ge by lia.
      replace (hi - z)%nat with (S (hi - 1 - z)) by lia. erewrite take_S_r.
      2:{ rewrite lookup_drop. replace (z + (hi - 1 - z))%nat with (hi - 1)%nat by lia. exact Hb. }
      by rewrite reverse_app.
    + apply list_eq. intros j. rewrite !nulled_lookup by (rewrite ?length_insert; lia).
      destruct (decide (z ≤ j < hi)%nat) as [Hj|Hj], (decide (z ≤ j < hi - 1)%nat); try done; try lia.
      * replace j with (hi - 1)%nat by lia. apply list_lookup_insert_eq. lia.
      * apply list_lookup_insert_ne. lia.
  - intros j b' Hj Hb'. destruct (decide (j = hi - 1)%nat) as [->|]; [congruence|].
    apply (Hnn j b'); [lia|]. by rewrite Hsame by lia.
  - destruct Hend as [|Hend]; [by left|]. destruct (decide (z = 0)%nat); [left; lia|].
    right. by rewrite Hsame in Hend by lia.
Qed.

Section releasing.
Context `{SetIter}.
Variable use_int : bool.
Variable ext : nat → Z.
Hypothesis ext_nonneg : ∀ i, 0 ≤ ext i.

(** Releasing blocks that the manager no longer lists: [rel] go back to the pool. *)
Lemma release_wf m m1 l rel p' :
  st_wf ext m l → released (block_pool m) l rel p' →
  manager_class m1 = manager_class m → block_size m1 = block_size m →
  (∀ i, i ≠ null_block → held m1 i = held m i - occ i rel) →
  (∀ rid bs i, req_to_blocks m1 !! rid = Some bs → i ∈ bs →
     Z.of_nat i < num_gpu_blocks (block_pool m)) →
  (∀ rid idx b, _partial_hit_reqs m1 !! rid = Some (idx, b) →
     0 ≤ idx ∧ b ≠ null_block ∧ default [] (req_to_blocks m1 !! rid) !! Z.to_nat idx = Some b) →
  (∀ rid, _partial_hit_reqs m !! rid = None → _partial_hit_reqs m1 !! rid = None) →
  _pending_cow_copies m1 = _pending_cow_copies m →
  st_wf ext (m1 <| block_pool := p' |>) (free_list_after (block_pool m) l rel).
Proof.
  intros Hwf [Ha Hc Hr _] Hcls Hsz Hheld Hrange Hpart Hnone Hpend. split; simpl.
  - done.
  - eapply cache_wf_same, Hwf. done.
  - intros i Hi. rewrite Hr, (sw_refs _ m l Hwf i Hi).
    match goal with |- _ = held ?x i + _ => change (held x i) with (held m1 i) end.
    rewrite Hheld by done. lia.
  - rewrite (cfg_num _ _ (cs_config _ _ Hc)). done.
  - done.
  - rewrite Hcls. intros rid Hsh. by apply Hnone, (sw_shared _ m l Hwf).
  - rewrite Hsz. apply Hwf.
  - rewrite Hcls. apply Hwf.
  - rewrite Hpend, (cfg_num _ _ (cs_config _ _ Hc)). apply Hwf.
Qed.

Lemma held_delete m rid bs i X Y :
  req_to_blocks m !! rid = Some bs →
  held (m <| req_to_blocks ::= delete rid |> <| num_cached_block := X |>
          <| _partial_hit_reqs := Y |>) i = held m i - occ i bs.
Proof. intros Hrid. unfold held. simpl. rewrite (map_sum_delete _ _ rid bs) by done. lia. Qed.

(** [free] forgets the request and drops each of its references. *)
Lemma manager_free_spec m l rid :
  st_wf ext m l →
  let rel := reverse (default [] (req_to_blocks m !! rid)) in
  wp (free rid) (λ _ m',
    st_wf ext m' (free_list_after (block_pool m) l rel) ∧ st_frame rid m m' ∧
    req_to_blocks m' = delete rid (req_to_blocks m) ∧ num_cached_block m' !! rid = None ∧
    _partial_hit_reqs m' !! rid = None ∧ released (block_pool m) l rel (block_pool m')) m.
Proof.
  intros Hwf rel. unfold free, pop_blocks_for_free.
  apply wp_bind, wp_bind, wp_gets, wp_bind, wp_modify, wp_bind, wp_modify, wp_bind, wp_modify, wp_ret.
  fold rel. match goal with |- wp _ _ ?x => set (m1 := x) end.
  assert (∀ i, held m1 i = held m i - occ i rel) as Hheld.
  { intros i. unfold rel. rewrite occ_reverse.
    destruct (req_to_blocks m !! rid) as [bs|] eqn:Hrid.
    - by apply held_delete.
    - unfold held, m1. simpl. rewrite delete_id by done. rewrite occ_nil. lia. }
  apply wp_on_pool. eapply wp_mono; [apply (free_blocks_spec (block_pool m) l)|].
  - apply Hwf.
  - unfold rel. intros i. rewrite elem_of_reverse. destruct (req_to_blocks m !! rid) as [bs|] eqn:Hrid;
      [by apply (sw_range _ m l Hwf rid)|by intros ?%elem_of_nil].
  - intros i Hi. rewrite (sw_refs _ m l Hwf i Hi). pose proof (held_nonneg m1 i) as Hnn.
    rewrite Hheld in Hnn. specialize (ext_nonneg i). lia.
  - intros [] p' Hrel. split.
    + apply (release_wf m); try done.
      * intros rid' bs i Hl. unfold m1 in Hl. simpl in Hl. apply lookup_delete_Some in Hl as [_ Hl].
        by apply (sw_range _ m l Hwf rid').
      * intros rid' idx b Hp. unfold m1 in *. simpl in *. apply lookup_delete_Some in Hp as [Hne Hp].
        rewrite lookup_delete_ne by done. by apply (sw_partial _ m l Hwf).
      * intros rid' Hn. simpl. rewrite lookup_delete_None. by right.
    + split_and!; try done; [|by apply lookup_delete_eq..].
      split; try done; simpl; [apply Hrel|..]; intros rid' Hne; by rewrite lookup_delete_ne.
Qed.

Lemma occ_nulled z hi bs i :
  (z ≤ hi ≤ length bs)%nat → i ≠ null_block →
  occ i (nulled z hi bs) = occ i bs - occ i (reverse (take (hi - z) (drop z bs))).
Proof.
  intros Hz Hi. rewrite occ_reverse. unfold nulled. rewrite !occ_app.
  rewrite (occ_zero i (replicate _ _)) by (by intros [-> _]%elem_of_replicate).
  rewrite <-(take_drop z bs) at 3. rewrite <-(take_drop (hi - z) (drop z bs)) at 1.
  rewrite !occ_app, drop_drop. replace (z + (hi - z))%nat with hi by lia. lia.
Qed.

Lemma elem_of_nulled z hi bs i :
  (z ≤ hi ≤ length bs)%nat → i ∈ nulled z hi bs → i = null_block ∨ i ∈ bs.
Proof.
  intros Hz [j Hj]%list_elem_of_lookup. rewrite nulled_lookup in Hj by done.
  case_decide; [left; congruence|]. right. by eapply list_elem_of_lookup_2.
Qed.

(** What [_remove_blocks_in_range] leaves: the positions [z, hi) of the request's list have
    been replaced by null blocks, and their references dropped from the last one on. *)
Record removed (rid : string) (first_block last_block : Z) (bs l : list nat) (z hi : nat)
    (m m' : SingleTypeKVCacheManager) : Prop := {
  rm_range : (z ≤ hi ≤ length bs)%nat;
  rm_inside j : (z ≤ j < hi)%nat → first_block ≤ Z.of_nat j < last_block;
  (* what is left inside the range lies before a null block *)
  rm_rest j : (j < length bs)%nat → first_block ≤ Z.of_nat j < last_block → ¬ (z ≤ j < hi)%nat →
    ∃ j', (j ≤ j')%nat ∧ first_block ≤ Z.of_nat j' < last_block ∧ bs !! j' = Some null_block;
  rm_wf : st_wf ext m'
    (free_list_after (block_pool m) l (reverse (take (hi - z) (drop z bs))));
  rm_blocks : req_to_blocks m' !! rid = Some (nulled z hi bs);
  rm_frame : st_frame rid m m';
  rm_cached : num_cached_block m' = num_cached_block m;
  rm_partial : _partial_hit_reqs m' = _partial_hit_reqs m;
  rm_cache : cache_same (block_pool m) (block_pool m')
}.

Lemma removed_nothing rid lo hi bs l m :
  st_wf ext m l → req_to_blocks m !! rid = Some bs →
  (∀ j : nat, (j < length bs)%nat → ¬ (lo ≤ Z.of_nat j < hi)) →
  removed rid lo hi bs l 0 0 m m.
Proof.
  intros Hwf Hrid Hout. split; try done; try lia.
  - intros j Hj Hin. by destruct (Hout j Hj).
  - simpl. unfold free_list_after. simpl. by rewrite app_nil_r.
Qed.

Lemma remove_wf m l rid bs z hi p' :
  st_wf ext m l → req_to_blocks m !! rid = Some bs → _partial_hit_reqs m !! rid = None →
  (z ≤ hi ≤ length bs)%nat →
  released (block_pool m) l (reverse (take (hi - z) (drop z bs))) p' →
  st_wf ext (m <| req_to_blocks ::= <[rid := nulled z hi bs]> |> <| block_pool := p' |>)
    (free_list_after (block_pool m) l (reverse (take (hi - z) (drop z bs)))).
Proof.
  intros Hwf Hrid Hnp Hz Hrel. apply (release_wf m); try done; simpl.
  - intros i Hi. etrans; [by apply (held_blocks_update m rid bs)|].
    rewrite occ_nulled by done. lia.
  - intros rid' bs' i. destruct (decide (rid = rid')) as [<-|Hne].
    + rewrite lookup_insert_eq. intros [= <-] [-> |Hin]%elem_of_nulled; [|by eapply (sw_range _ m l Hwf)|done].
      pose proof (wf_num _ _ (sw_alloc _ m l Hwf)). unfold null_block. lia.
    + rewrite lookup_insert_ne by done. apply (sw_range _ m l Hwf).
  - intros rid' idx b Hp. destruct (decide (rid = rid')) as [<-|Hne]; [congruence|].
    rewrite lookup_insert_ne by done. by apply (sw_partial _ m l Hwf).
Qed.

Lemma remove_blocks_in_range_spec m l rid bs lo hi :
  st_wf ext m l → req_to_blocks m !! rid = Some bs → _partial_hit_reqs m !! rid = None → 0 ≤ lo →
  wp (_remove_blocks_in_range rid lo hi) (λ _ m', ∃ z h, removed rid lo hi bs l z h m m') m.
Proof.
  intros Hwf Hrid Hnp Hlo. unfold _remove_blocks_in_range. apply wp_bind, wp_gets. rewrite Hrid.
  case_decide as Hle.
  { apply wp_ret. exists 0%nat, 0%nat. apply removed_nothing; [done..|lia]. }
  destruct (decide (Z.min hi (len bs) < lo)) as [Hgt|Hlh].
  { rewrite range_down_nil by lia. cbn [null_out]. apply wp_bind, (wp_lift _ ([], bs)); [done|].
    apply wp_bind, wp_modify. rewrite decide_True by done. apply wp_ret.
    exists 0%nat, 0%nat. destruct (removed_nothing rid lo hi bs l m) as [A B C D E F G I J];
      [done|done|unfold len in *; lia|].
    assert (m <| req_to_blocks ::= <[rid := bs]> |> = m) as ->; [|done].
    destruct m. simpl in *. by rewrite insert_id. }
  set (h := Z.to_nat (Z.min hi (len bs))).
  pose proof (len_nonneg bs). unfold len in *.
  destruct (null_out_spec (Z.to_nat lo) h bs []) as (z & Hz & Hrun & Hnn & Hend); [lia|].
  replace (Z.of_nat h - 1) with (Z.min hi (Z.of_nat (length bs)) - 1) in Hrun by lia.
  replace (Z.of_nat (Z.to_nat lo) - 1) with (lo - 1) in Hrun by lia.
  apply wp_bind. eapply wp_lift; [exact Hrun|]. rewrite app_nil_l. cbv beta iota.
  apply wp_bind, wp_modify. set (rel := reverse _).
  eapply (wp_mono _ (λ _ m', ∃ p', released (block_pool m) l rel p' ∧
    m' = m <| req_to_blocks ::= <[rid := nulled z h bs]> |> <| block_pool := p' |>)).
  - case_decide as Hrel.
    + apply wp_ret. exists (block_pool m). rewrite Hrel. split; [|by destruct m].
      split; [|done|..]; [|intros; rewrite occ_nil; lia|done].
      unfold free_list_after. simpl. rewrite app_nil_r. apply Hwf.
    + apply wp_on_pool. eapply wp_mono; [apply (free_blocks_spec (block_pool m) l)|];
        [apply Hwf|..|intros [] p' Hp'; by exists p'].
      * intros i Hi. apply (sw_range _ m l Hwf rid bs); [done|]. unfold rel in Hi.
        rewrite elem_of_reverse in Hi.
        eapply elem_of_sublist; [exact Hi|]. etrans; [apply sublist_take|apply sublist_drop].
      * intros i Hi. rewrite (sw_refs _ m l Hwf i Hi). pose proof (held_lookup m rid bs i Hrid).
        pose proof (occ_nulled z h bs i ltac:(lia) Hi) as Hocc. fold rel in Hocc.
        pose proof (occ_nonneg i (nulled z h bs)). specialize (ext_nonneg i). lia.
  - intros _ m' (p' & Hrel & ->). exists z, h.
    pose proof (remove_wf m l rid bs z h p' Hwf Hrid Hnp ltac:(lia) Hrel) as Hwf'.
    split; [lia|lia| |done|by apply lookup_insert_eq| |done|done|apply Hrel].
    + intros j Hj Hin Hout. destruct Hend as [->|Hend]; [lia|]. exists (z - 1)%nat.
      split; [lia|]. split; [lia|done].
    + split; simpl; try done; [apply Hrel|]. intros rid' Hne. by rewrite lookup_insert_ne.
Qed.

(** The blocks that [remove_skipped_blocks] may drop after [n] processed tokens. *)
Definition dropped_range (m : SingleTypeKVCacheManager) (n : Z) (prompt : option Z) : Z * Z :=
  match manager_class m, prompt with
  | RSWAManager w, Some np => (cdiv np (block_size m), Z.max np (n - w) // block_size m)
  | cls, _ => (0, get_num_skipped_tokens cls n // block_size m)
  end.

(** No query from position [n] on attends to a token of a dropped block. *)
Lemma dropped_invisible m n prompt q t :
  0 < block_size m → class_ok (manager_class m) → 0 ≤ n ≤ q → 0 ≤ t →
  (∀ np, prompt = Some np → 0 ≤ np) →
  attends (manager_class m) prompt q t = true →
  ¬ ((dropped_range m n prompt).1 ≤ t // block_size m < (dropped_range m n prompt).2).
Proof.
  intros Hs Hok Hq Ht Hnp Hatt Hin. unfold attends, causal_mask_mod in Hatt.
  assert (∀ b, t // block_size m < b // block_size m → t < b) as Hlt.
  { intros b Hb. destruct (decide (t < b)); [done|].
    pose proof (Z.div_le_mono b t (block_size m) Hs ltac:(lia)). lia. }
  unfold dropped_range in Hin.
  destruct (manager_class m) as [|w|w e|c| | |]; simpl in *;
    try (apply proj2, Hlt in Hin; lia); apply andb_prop in Hatt as [Hc%bool_decide_eq_true Hatt].
  - destruct prompt as [np|]; simpl in *; [|apply proj2, Hlt in Hin; lia].
    destruct Hin as [Hlo Hhi%Hlt]. assert (t < np) as Hp.
    { apply orb_prop in Hatt as [Hp%bool_decide_eq_true|Hw%bool_decide_eq_true]; lia. }
    pose proof (cdiv_spec np (block_size m) Hs). pose proof (Z.div_mod t (block_size m) ltac:(lia)).
    pose proof (Z.mod_pos_bound t (block_size m) Hs). nia.
  - destruct Hin as [_ Hin%Hlt]. apply bool_decide_eq_true in Hatt. lia.
  - destruct Hin as [_ Hin%Hlt]. apply bool_decide_eq_true in Hatt.
    pose proof (Z.div_mod t c ltac:(lia)). pose proof (Z.mod_pos_bound t c Hok).
    pose proof (Z.div_le_mono n q c Hok ltac:(lia)). nia.
Qed.

Lemma remove_skipped_blocks_spec m l rid bs n prompt :
  st_wf ext m l → req_to_blocks m !! rid = Some bs → _partial_hit_reqs m !! rid = None →
  (∀ np, prompt = Some np → 0 ≤ np) → 0 ≤ n →
  wp (remove_skipped_blocks rid n prompt) (λ _ m', ∃ z h,
    removed rid (dropped_range m n prompt).1 (dropped_range m n prompt).2 bs l z h m m') m.
Proof.
  intros Hwf Hrid Hnp Hprompt Hn. pose proof (sw_size _ m l Hwf) as Hs.
  pose proof (skipped_bounds (manager_class m) n (sw_class _ m l Hwf) Hn) as Hskip.
  assert (wp (remove_skipped_blocks_base rid n) (λ _ m', ∃ z h,
    removed rid 0 (get_num_skipped_tokens (manager_class m) n // block_size m) bs l z h m m') m) as Hbase.
  { unfold remove_skipped_blocks_base. apply wp_bind, wp_gets. case_decide.
    - apply wp_ret. exists 0%nat, 0%nat. apply removed_nothing; [done..|].
      replace (get_num_skipped_tokens _ n) with 0 by lia. rewrite Z.div_0_l by lia. lia.
    - apply wp_bind, (wp_req_blocks_Some _ _ _ _ Hrid).
      eapply wp_mono; [by apply (remove_blocks_in_range_spec m l rid bs)|].
      intros _ m' (z & h & [A B C D E F G I J]). exists z, h. split; try done.
      + intros j Hj. apply B in Hj. lia.
      + intros j Hj Hin Hout. destruct (C j) as (j' & ? & ? & ?);
          [done|unfold len; lia|done|]. exists j'. split; [done|]. split; [lia|done]. }
  unfold remove_skipped_blocks, dropped_range. apply wp_bind, wp_gets.
  destruct (manager_class m) eqn:Hcls, prompt as [np|]; try exact Hbase;
    try (apply wp_ret; exists 0%nat, 0%nat; apply removed_nothing;
         [done..|simpl; rewrite Z.div_0_l by lia; lia]).
  apply remove_blocks_in_range_spec; [done..|]. simpl.
  pose proof (cdiv_spec np (block_size m) Hs). specialize (Hprompt np eq_refl). nia.
Qed.

(** C30: Dropping blocks outside the attention window is safe and complete.  For full,
    sliding-window, chunked-local and R-SWA layers, [remove_skipped_blocks] never raises; no
    block that holds a token which the attention mask lets any query from position [n] on see
    is dropped; the reference counts stay exact; and every block of the range that the window
    has left becomes the null block, when the blocks dropped before form an initial part of
    that range. *)
Theorem remove_skipped_keeps_window m l rid bs n prompt :
  st_wf ext m l → req_to_blocks m !! rid = Some bs → _partial_hit_reqs m !! rid = None →
  (∀ np, prompt = Some np → 0 ≤ np) → 0 ≤ n →
  ∃ m' l' bs', remove_skipped_blocks rid n prompt m = Ok (tt, m') ∧ st_wf ext m' l' ∧
    req_to_blocks m' !! rid = Some bs' ∧ length bs' = length bs ∧ l ⊆ l' ∧
    (∀ q t, n ≤ q → 0 ≤ t → attends (manager_class m) prompt q t = true →
       bs' !! Z.to_nat (t // block_size m) = bs !! Z.to_nat (t // block_size m)) ∧
    let '(first_block, last_block) := dropped_range m n prompt in
    (∀ i j : nat, first_block ≤ Z.of_nat i → (i ≤ j)%nat → Z.of_nat j < last_block →
       bs !! j = Some null_block → bs !! i = Some null_block) →
    ∀ j : nat, first_block ≤ Z.of_nat j < last_block → (j < length bs)%nat →
      bs' !! j = Some null_block.
Proof.
  intros Hwf Hrid Hnp Hprompt Hn.
  pose proof (remove_skipped_blocks_spec m l rid bs n prompt Hwf Hrid Hnp Hprompt Hn) as Hrun.
  apply wp_run in Hrun as ([] & m' & Hrun & z & h & [Hz Hin Hrest Hwf' Hb _ _ _]).
  eexists m', _, _. split; [done|]. split; [exact Hwf'|]. split; [exact Hb|].
  split; [by apply nulled_length|]. split.
  { intros i Hi. apply elem_of_free_list_after. by left. }
  split.
  - intros q t Hq Ht Hatt. rewrite nulled_lookup by done. rewrite decide_False; [done|].
    intros Hj%Hin. rewrite Z2Nat.id in Hj by (apply Z.div_pos; [lia|apply Hwf]).
    eapply (dropped_invisible m n prompt q t); eauto; [apply Hwf|apply Hwf].
  - destruct (dropped_range m n prompt) as [lo hi] eqn:Hr. simpl in *.
    intros Hclosed j Hj Hlt. rewrite nulled_lookup by done. case_decide as Hd; [done|].
    destruct (Hrest j Hlt Hj Hd) as (j' & ? & ? & ?). apply (Hclosed j j'); [lia|done|lia|done].
Qed.
End releasing.

(** ** A sliding-window layer at work *)

Lemma new_SingleType_wf cls bsz sched pool caching gid dcp zeroing zeroed cap l :
  alloc_wf pool l → cache_wf pool → (∀ i, ref_cnt (blk pool i) = 0) →
  0 < bsz → 1 ≤ dcp → class_ok cls →
  st_wf (λ _, 0) (new_SingleType cls bsz sched pool caching gid dcp zeroing zeroed cap) l.
Proof.
  intros Ha Hc Hr Hb Hd Hcls. split; try done; simpl; [case_decide; lia|].
  by intros b ?%elem_of_nil.
Qed.

Definition window_manager : SingleTypeKVCacheManager :=
  new_SingleType (SlidingWindowManager 5 0) 4 4 demo_pool true 0 1 false true None.
Definition window_manager_2 : SingleTypeKVCacheManager :=
  match allocate_new_blocks (H := elements_iter) false "r" 12 12 window_manager with
  | Ok (_, m) => m
  | Raise _ => window_manager
  end.

Lemma window_manager_2_wf : st_wf (λ _, 0) window_manager_2 [].
Proof.
  assert (st_wf (λ _, 0) window_manager [1; 2; 3]%nat) as Hwf.
  { destruct demo_pool_wf as [Ha Hc]. apply new_SingleType_wf; try done.
    destruct (new_BlockPool_spec 4 true 4 true None 0) as (p & Hp & _ & _ & _ & _ & _ & _ & _ & Hr); [lia|].
    rewrite demo_pool_new in Hp. injection Hp as <-. intros i. apply Hr. }
  pose proof (allocate_new_blocks_spec (H := elements_iter) false (λ _, 0) (λ _, Z.le_refl 0)
    window_manager [1; 2; 3]%nat "r" 12 12 Hwf) as Hwp.
  apply wp_run in Hwp as (bs & m & Hrun & _ & Hm & _); [|vm_compute; done].
  assert (window_manager_2 = m) as -> by (unfold window_manager_2; by rewrite Hrun). exact Hm.
Qed.

Lemma remove_skipped_keeps_window_witness :
  ∃ m' l' bs', remove_skipped_blocks "r" 11 None window_manager_2 = Ok (tt, m') ∧
    st_wf (λ _, 0) m' l' ∧ req_to_blocks m' !! "r" = Some bs' ∧ length bs' = 3%nat.
Proof.
  destruct (remove_skipped_keeps_window (λ _, 0) (λ _, Z.le_refl 0) window_manager_2 [] "r" [1; 2; 3]%nat 11 None)
    as (m' & l' & bs' & Hrun & Hwf & Hbs & Hlen & _).
  - exact window_manager_2_wf.
  - vm_compute. reflexivity.
  - vm_compute. reflexivity.
  - intros np [=].
  - lia.
  - exists m', l', bs'. split_and!; [exact Hrun|exact Hwf|exact Hbs|exact Hlen].
Defined.
