(* ===== verification/Uncached.v ===== *)
(** * The part of a request that is not cached yet

    A block that a request still fills belongs to that request alone, and has no hash or only
    one for part of its tokens.  Every operation of a manager keeps this, so caching the blocks
    of a request never finds one that is cached already. *)

From S2P Require Import Prelude FreeQueue Request Hashing BlockPool PoolSpecs PoolTheorems.
From S2P Require Import SingleType SingleSpecs SingleTheorems.

(** Block [b] is at position [j] of the table of [rid].  A recorded partial hit does not count:
    the block is replaced before it is written. *)
Definition at_pos (m : SingleTypeKVCacheManager) (rid : string) (j b : nat) : Prop :=
  default [] (req_to_blocks m !! rid) !! j = Some b ∧ b ≠ null_block ∧
  ∀ idx src, _partial_hit_reqs m !! rid = Some (idx, src) → j ≠ Z.to_nat idx.
Definition cached_upto (m : SingleTypeKVCacheManager) (rid : string) : Z :=
  default 0 (num_cached_block m !! rid).
Definition uncached (m : SingleTypeKVCacheManager) (rid : string) (j b : nat) : Prop :=
  at_pos m rid j b ∧ cached_upto m rid ≤ Z.of_nat j.

(** The block at position [j] can get its hash. *)
Definition fresh (m : SingleTypeKVCacheManager) (j b : nat) : Prop :=
  enable_caching (block_pool m) = true →
  promotable (block_pool m) b ((Z.of_nat j + 1) * block_size m) ∧
  (block_size m = hash_block_size (block_pool m) → _block_hash (blk (block_pool m) b) = None).

Record uncached_ok (m : SingleTypeKVCacheManager) : Prop := {
  uo_cached rid n : num_cached_block m !! rid = Some n → 0 ≤ n;
  uo_fresh rid j b : uncached m rid j b → fresh m j b;
  uo_private rid j rid' j' b : uncached m rid j b → at_pos m rid' j' b → rid = rid' ∧ j = j'
}.

(** A step of a manager on a pool with free list [l] that may take over the cached blocks [hits],
    and with [grow] may take free blocks to be filled. *)
Record uncached_step (hits : list nat) (grow : bool) (m : SingleTypeKVCacheManager) (l : list nat)
    (m' : SingleTypeKVCacheManager) : Prop := {
  us_cached rid n : num_cached_block m' !! rid = Some n → 0 ≤ n;
  us_fresh rid j b : uncached m' rid j b → fresh m' j b;
  us_pos rid j b : at_pos m' rid j b → at_pos m rid j b ∨ b ∈ l ∨ b ∈ hits;
  us_new rid j b : uncached m' rid j b → uncached m rid j b ∨ (b ∈ l ∧ grow = true);
  us_private rid j rid' j' b : uncached m' rid j b → at_pos m' rid' j' b → b ∈ l → rid = rid' ∧ j = j';
  us_hash b : b ∉ l → (∀ rid j, ¬ at_pos m rid j b) → hash_kept (block_pool m) (block_pool m') b
}.

Lemma fresh_kept m m' j b :
  fresh m j b → block_size m' = block_size m → same_config (block_pool m) (block_pool m') →
  hash_kept (block_pool m) (block_pool m') b → fresh m' j b.
Proof.
  intros Hf Hs Hcfg Hk. unfold fresh. rewrite (cfg_caching _ _ Hcfg), (cfg_hbs _ _ Hcfg), Hs.
  intros Hc. destruct (Hf Hc) as [Hp Hn]. destruct Hk as [[Hh Ht]|Hh].
  - unfold promotable. rewrite Hh, Ht. done.
  - split; [by left|done].
Qed.

Lemma at_pos_not_free o m l rid j b :
  (∀ i, 0 ≤ o i) → st_wf o m l → at_pos m rid j b → b ∉ l.
Proof.
  intros Ho Hwf (Hb & Hn & _) Hl. destruct (free_unheld o Ho m l b Hwf Hl) as (Hz & _).
  destruct (req_to_blocks m !! rid) as [bs|] eqn:Hrid; [|done]. simpl in Hb.
  pose proof (held_lookup m rid bs b Hrid). pose proof (occ_lookup bs j b Hb). lia.
Qed.

Lemma step_ok hits grow m l m' :
  uncached_ok m → (∀ b rid j, b ∈ hits → ¬ uncached m rid j b) →
  uncached_step hits grow m l m' → uncached_ok m'.
Proof.
  intros [Hc Hf Hp] Hhits [Hc' Hf' Hpos Hnew Hpriv _]. split; [done|done|].
  intros rid j rid' j' b Hu Ha. destruct (decide (b ∈ l)) as [Hl|Hl]; [by eapply Hpriv|].
  destruct (Hnew _ _ _ Hu) as [Hu0|[? _]]; [|done].
  destruct (Hpos _ _ _ Ha) as [Ha0|[?|Hh]]; [by eapply Hp|done|]. by destruct (Hhits b rid j).
Qed.

Lemma uncached_same m m' :
  req_to_blocks m' = req_to_blocks m → num_cached_block m' = num_cached_block m →
  _partial_hit_reqs m' = _partial_hit_reqs m → ∀ rid j b, uncached m' rid j b ↔ uncached m rid j b.
Proof. intros H1 H2 H3 rid j b. unfold uncached, at_pos, cached_upto. by rewrite H1, H2, H3. Qed.

Section ops.
Context `{SetIter}.
Variable use_int : bool.
Variable ext : nat → Z.
Hypothesis ext_nonneg : ∀ i, 0 ≤ ext i.

(** A step that is about one request, and gives no block a hash. *)
Lemma step_frame rid hits grow m l m' :
  st_wf ext m l → uncached_ok m → st_frame rid m m' →
  (∀ n, num_cached_block m' !! rid = Some n → 0 ≤ n) →
  (∀ j b, at_pos m' rid j b → at_pos m rid j b ∨ b ∈ l ∨ b ∈ hits) →
  (∀ j b, uncached m' rid j b → uncached m rid j b ∨
     (b ∈ l ∧ grow = true ∧ (enable_caching (block_pool m) = true → _block_hash (blk (block_pool m') b) = None))) →
  (∀ j j' b, uncached m' rid j b → at_pos m' rid j' b → b ∈ l → j = j') →
  (∀ b, b ∉ l → hash_kept (block_pool m) (block_pool m') b) →
  uncached_step hits grow m l m'.
Proof.
  intros Hwf [Hc Hf Hp] [_ Hs _ _ Hcfg Hfb Hfc Hfp] Hc' Hpos Hnew Hpriv Hhash.
  assert (∀ rid' j b, rid' ≠ rid → at_pos m' rid' j b ↔ at_pos m rid' j b) as Ha.
  { intros rid' j b Hne. unfold at_pos. by rewrite Hfb, Hfp. }
  assert (∀ rid' j b, rid' ≠ rid → uncached m' rid' j b ↔ uncached m rid' j b) as Hu.
  { intros rid' j b Hne. unfold uncached, cached_upto. rewrite (Ha rid') by done. by rewrite Hfc. }
  assert (∀ rid' j b, at_pos m rid' j b → b ∉ l) as Hnf by (intros; by eapply at_pos_not_free).
  assert (∀ rid' j b, uncached m rid' j b → fresh m' j b) as Hold.
  { intros rid' j b Hub. eapply fresh_kept; [by apply (Hf rid')|done|done|].
    apply Hhash. eapply Hnf, Hub. }
  split.
  - intros rid' n. destruct (decide (rid' = rid)) as [->|Hne]; [apply Hc'|]. rewrite Hfc by done. apply Hc.
  - intros rid' j b Hub. destruct (decide (rid' = rid)) as [->|Hne]; [|apply (Hold rid'); by apply Hu].
    destruct (Hnew j b Hub) as [?|(_ & _ & Hnone)]; [by apply (Hold rid)|].
    intros Hcach. rewrite (cfg_caching _ _ Hcfg) in Hcach. specialize (Hnone Hcach). split; [by left|done].
  - intros rid' j b Hab. destruct (decide (rid' = rid)) as [->|Hne]; [by apply Hpos|]. left. by apply Ha.
  - intros rid' j b Hub. destruct (decide (rid' = rid)) as [->|Hne]; [|left; by apply Hu].
    destruct (Hnew j b Hub) as [?|(? & ? & _)]; [by left|by right].
  - intros rid1 j rid2 j' b Hub Hab Hl.
    destruct (decide (rid1 = rid)) as [->|Hne1].
    2:{ apply Hu in Hub; [|done]. by destruct (Hnf rid1 j b (proj1 Hub)). }
    destruct (decide (rid2 = rid)) as [->|Hne2]; [split; [done|by eapply Hpriv]|].
    apply Ha in Hab; [|done]. by destruct (Hnf rid2 j' b Hab).
  - intros b Hl _. by apply Hhash.
Qed.

Lemma handed_out_kept p l p' l' b : handed_out p l p' l' → b ∉ l → hash_kept p p' b.
Proof. intros Hout Hb. left. by apply Hout. Qed.
Lemma cache_same_kept p p' b : cache_same p p' → hash_kept p p' b.
Proof. intros Hc. left. split; apply Hc. Qed.

Lemma step_refl hits grow m l : st_wf ext m l → uncached_ok m → uncached_step hits grow m l m.
Proof.
  intros Hwf [Hc Hf Hp]. split; try done; auto.
  - intros rid j rid' j' b Hu _ Hl. by destruct (at_pos_not_free ext m l rid j b ext_nonneg Hwf (proj1 Hu)).
  - intros b _ _. by left.
Qed.

(** The blocks of a hit other than a partially filled tail. *)
Definition whole_hits (m : SingleTypeKVCacheManager) (k : nat) (hits : list nat) (local : Z) : list nat :=
  if decide (local mod block_size m ≠ 0) then take (length hits - 1 - k) (drop k hits) else drop k hits.
Lemma step_added rid k hits local m l m' :
  st_wf ext m l → uncached_ok m → hits_ok m hits local → 0 ≤ k → added rid k hits local m m' →
  uncached_step (whole_hits m (Z.to_nat k) hits local) false m l m'.
Proof.
  intros Hwf Hok Hhits Hk [Hfr Hb Hc Hcs Hpt Hidx _].
  pose proof (len_nonneg (replicate (Z.to_nat k) null_block ++ drop (Z.to_nat k) hits)) as Hnn.
  assert (drop (Z.to_nat k) hits ≠ [] → local mod block_size m ≠ 0 →
    Z.of_nat (length hits) = local // block_size m + 1 ∧ (Z.to_nat k < length hits)%nat ∧ 0 ≤ local // block_size m) as Hpart.
  { intros Hne Hmod. assert (hits ≠ []) as Hne' by (intros ->; by rewrite drop_nil in Hne).
    destruct (ho_partial _ _ _ Hhits Hne' Hmod) as [Hl _].
    rewrite cdiv_partial in Hl by (apply Hwf || done). split; [done|]. split.
    - destruct (decide (Z.to_nat k < length hits)%nat); [done|]. rewrite drop_ge in Hne by lia. done.
    - apply Z.div_pos; [apply Hhits|apply Hwf]. }
  assert (∀ j b, at_pos m' rid j b → (Z.to_nat k ≤ j)%nat ∧ drop (Z.to_nat k) hits !! (j - Z.to_nat k)%nat = Some b) as Hat.
  { intros j b (Hj & Hn & _). rewrite Hb in Hj. simpl in Hj.
    apply lookup_app_Some in Hj as [[-> _]%lookup_replicate|[Hlen Hj]]; [done|].
    rewrite length_replicate in Hlen, Hj. done. }
  assert (∀ j b, ¬ uncached m' rid j b) as Hnone.
  { intros j b [Hab Hle]. destruct (Hat j b Hab) as [Hkj Hj]. unfold cached_upto in Hle. rewrite Hc in Hle.
    simpl in Hle. pose proof (lookup_lt_Some _ _ _ Hj) as Hlt. rewrite length_drop in Hlt. case_decide as Hd.
    - destruct Hd as [Hne Hmod]. destruct (Hpart Hne Hmod) as (Hl & _ & Hi).
      destruct (proj2 Hpt ltac:(done)) as [[idx src] Hp].
      destruct Hab as (_ & _ & Hab). specialize (Hab idx src Hp). rewrite (Hidx idx src Hp) in Hab. lia.
    - unfold len in Hle. rewrite length_app, length_replicate, length_drop in Hle. lia. }
  apply (step_frame rid); try done.
  - intros n. rewrite Hc. intros [= <-]. case_decide as Hd; [|done]. by apply Hpart; apply Hd.
  - intros j b Hab. right. right. destruct (Hat j b Hab) as [Hkj Hj].
    assert (drop (Z.to_nat k) hits ≠ []) as Hne by (intros Hn; by rewrite Hn in Hj).
    unfold whole_hits. destruct (decide (local mod block_size m ≠ 0)) as [Hmod|Hmod]; [|by eapply list_elem_of_lookup_2].
    destruct (Hpart Hne Hmod) as (Hl & Hlt & Hi). destruct (proj2 Hpt ltac:(done)) as [[idx src] Hp].
    destruct Hab as (_ & _ & Hab). specialize (Hab idx src Hp). rewrite (Hidx idx src Hp) in Hab.
    apply (list_elem_of_lookup_2 _ (j - Z.to_nat k)%nat). rewrite lookup_take_lt; [done|].
    apply lookup_lt_Some in Hj. rewrite length_drop in Hj. lia.
  - intros j b Hu. by destruct (Hnone j b).
  - intros j j' b Hu. by destruct (Hnone j b).
  - intros b _. by apply cache_same_kept.
Qed.

(** The table [bs] grew to [bs'] by the blocks [new], the first of them at position [at_] if given. *)
Definition grew (bs new : list nat) (at_ : option nat) (bs' : list nat) : Prop :=
  match at_ with
  | Some i => ∃ b new', new = b :: new' ∧ bs' = <[i := b]> bs ++ new'
  | None => bs' = bs ++ new
  end.

Lemma grew_lookup bs new at_ bs' j b :
  grew bs new at_ bs' → bs' !! j = Some b → (bs !! j = Some b ∧ at_ ≠ Some j) ∨ b ∈ new.
Proof.
  destruct at_ as [i|]; simpl.
  - intros (b0 & new' & -> & ->) [Hj|[_ Hj]]%lookup_app_Some.
    + apply list_lookup_insert_Some in Hj as [(-> & -> & _)|[Hne Hj]]; [right; by left|]. left. split; congruence.
    + right. right. by eapply list_elem_of_lookup_2.
  - intros -> [Hj|[_ Hj]]%lookup_app_Some; [by left|]. right. by eapply list_elem_of_lookup_2.
Qed.

Lemma grew_distinct bs new at_ bs' j j' b :
  NoDup new → (∀ x, x ∈ bs → x ∉ new) → grew bs new at_ bs' →
  b ∈ new → bs' !! j = Some b → bs' !! j' = Some b → j = j'.
Proof.
  intros Hnd Hdis Hsh Hb. destruct at_ as [i|]; simpl in Hsh.
  - destruct Hsh as (b0 & new' & -> & ->). apply NoDup_cons in Hnd as [Hb0 Hnd].
    assert (∀ j, (<[i := b0]> bs ++ new') !! j = Some b → (j = i ∧ b = b0 ∧ (i < length bs)%nat) ∨
      (length bs ≤ j)%nat ∧ new' !! (j - length bs)%nat = Some b) as Hpos.
    { clear j j'. intros j [Hj|Hj]%lookup_app_Some; [|right; by rewrite length_insert in Hj].
      apply list_lookup_insert_Some in Hj as [(-> & -> & ?)|[_ Hj]]; [by left|].
      apply list_elem_of_lookup_2, Hdis in Hj. done. }
    intros [(-> & -> & ?)|[? Hj]]%Hpos [(-> & ? & ?)|[? Hj']]%Hpos; try done.
    + by apply list_elem_of_lookup_2 in Hj'.
    + subst. by apply list_elem_of_lookup_2 in Hj.
    + pose proof (NoDup_lookup _ _ _ _ Hnd Hj Hj'). lia.
  - subst bs'. assert (∀ j, (bs ++ new) !! j = Some b → (length bs ≤ j)%nat ∧ new !! (j - length bs)%nat = Some b) as Hpos.
    { clear j j'. intros j [Hj|Hj]%lookup_app_Some; [|done]. apply list_elem_of_lookup_2, Hdis in Hj. done. }
    intros [? Hj]%Hpos [? Hj']%Hpos. pose proof (NoDup_lookup _ _ _ _ Hnd Hj Hj'). lia.
Qed.

(** A table that grew by free blocks. *)
Lemma step_grew rid new m l m' l' :
  st_wf ext m l → uncached_ok m → st_frame rid m m' → num_cached_block m' = num_cached_block m →
  (_partial_hit_reqs m' !! rid = None ∧
   grew (default [] (req_to_blocks m !! rid)) new ((λ p, Z.to_nat p.1) <$> _partial_hit_reqs m !! rid)
     (default [] (req_to_blocks m' !! rid))) ∨
  (_partial_hit_reqs m' !! rid = _partial_hit_reqs m !! rid ∧
   grew (default [] (req_to_blocks m !! rid)) new None (default [] (req_to_blocks m' !! rid))) →
  NoDup new → (∀ b, b ∈ new → b ∈ l ∧ b ∉ l') → handed_out (block_pool m) l (block_pool m') l' →
  uncached_step [] true m l m'.
Proof.
  intros Hwf Hok Hfr Hc Htab Hnd Hnew Hout.
  assert (∀ x, x ∈ default [] (req_to_blocks m !! rid) → x ∉ new) as Hdis.
  { intros x Hx Hn%Hnew. destruct (free_unheld ext ext_nonneg m l x Hwf (proj1 Hn)) as (Hz & _).
    destruct (req_to_blocks m !! rid) as [bs|] eqn:Hrid; [|by apply elem_of_nil in Hx]. simpl in Hx.
    pose proof (held_lookup m rid bs x Hrid). apply occ_pos in Hx. lia. }
  assert (∀ j b, at_pos m' rid j b → at_pos m rid j b ∨ b ∈ new) as Hpos.
  { intros j b (Hj & Hn & Hp'). destruct Htab as [[Hp Hg]|[Hp Hg]];
      destruct (grew_lookup _ _ _ _ j b Hg Hj) as [[Hj0 Hat]|?]; auto; left; split; auto; split; auto.
    - intros idx src Heq. rewrite Heq in Hat. simpl in Hat. congruence.
    - intros idx src Heq. apply (Hp' idx src). by rewrite Hp. }
  apply (step_frame rid); try done.
  - rewrite Hc. apply Hok.
  - intros j b [?|?%Hnew]%Hpos; [by left|]. right. left. tauto.
  - intros j b [Hab Hle]. unfold cached_upto in Hle. rewrite Hc in Hle.
    destruct (Hpos j b Hab) as [Hab0|Hb%Hnew]; [left; by split|]. right. split_and!; [tauto|done|].
    intros Hcach. apply (hd_fresh _ _ _ _ Hout); tauto.
  - intros j j' b [Hab _] Hab' Hl.
    assert (b ∈ new) as Hb. { destruct (Hpos j b Hab) as [Hab0|?]; [|done].
      by destruct (at_pos_not_free ext m l rid j b ext_nonneg Hwf Hab0). }
    destruct Htab as [[_ Hg]|[_ Hg]]; eapply (grew_distinct _ _ _ _ j j' b Hnd Hdis Hg Hb); apply Hab || apply Hab'.
  - intros b Hb. by eapply handed_out_kept.
Qed.

(** Positions only disappear. *)
Lemma step_shrunk rid m l m' :
  st_wf ext m l → uncached_ok m → st_frame rid m m' →
  (∀ j b, at_pos m' rid j b → at_pos m rid j b) →
  (∀ n, num_cached_block m' !! rid = Some n → 0 ≤ n) →
  (∀ j b, at_pos m' rid j b → cached_upto m rid ≤ cached_upto m' rid) →
  cache_same (block_pool m) (block_pool m') → uncached_step [] true m l m'.
Proof.
  intros Hwf Hok Hfr Hpos Hc Hle Hcs. apply (step_frame rid); try done.
  - intros j b Hab. left. auto.
  - intros j b [Hab Hj]. left. split; [auto|]. specialize (Hle j b Hab). lia.
  - intros j j' b [Hab _] _ Hl. by destruct (at_pos_not_free ext m l rid j b ext_nonneg Hwf (Hpos j b Hab)).
  - intros b _. by apply cache_same_kept.
Qed.
End ops.
