(* ===== verification/CacheSpecs.v ===== *)
(** * Caching the blocks of a request

    [cache_blocks] of one manager: with the blocks of a request that are not cached yet kept
    apart (Uncached.v), it never raises, and gives hashes to blocks of that request only. *)

From S2P Require Import Prelude FreeQueue Request Hashing BlockPool PoolSpecs PoolTheorems.
From S2P Require Import SingleType SingleSpecs SingleTheorems Uncached.

(** ** Masks *)

Lemma length_mark s lo hi mask : length (mark s lo hi mask) = length mask.
Proof.
  unfold mark. revert mask. induction (range lo hi) as [|x xs IH]; intros mask; cbn [foldl]; [done|].
  by rewrite IH, length_insert.
Qed.

(** A mask has an entry for each block. *)
Lemma swa_block_mask_len w bsz s e align eagle retention boundaries :
  align mod bsz = 0 →
  ∃ mask, swa_block_mask w bsz s e align eagle retention boundaries = Ok mask ∧
    ∀ l, mask = Some l → length l = Z.to_nat (e - s).
Proof.
  intros Ha. unfold swa_block_mask. rewrite decide_False by lia. cbv zeta.
  set (seg := match retention with Some _ => _ | None => _ end).
  destruct (match (λ t, t // bsz) <$> seg with Some n => _ | None => _ end); [by exists None|].
  eexists. split; [done|]. intros l [= <-].
  set (m0 := match (λ t, t // bsz) <$> seg with Some _ => _ | None => _ end).
  assert (length m0 = Z.to_nat (e - s)) as Hm0.
  { unfold m0. destruct ((λ t, t // bsz) <$> seg); [|by rewrite length_replicate].
    match goal with |- length (foldl ?f _ _) = _ => set (step := f) end.
    assert (∀ is_ mask, length (foldl step mask is_) = length mask) as Hlen; [|by rewrite Hlen, length_replicate].
    intros is_. induction is_ as [|i is_ IH]; intros mask; cbn [foldl]; [done|].
    rewrite IH. unfold step. case_decide; [by rewrite length_insert|done]. }
  clearbody m0. destruct retention; [|exact Hm0]. rewrite <-Hm0. clear.
  revert m0. induction boundaries as [|b bs IH]; intros m0; cbn [foldl]; [done|]. by rewrite IH, length_mark.
Qed.

Lemma step_trans m l m1 m2 :
  uncached_step [] true m l m1 → uncached_step [] true m1 l m2 → uncached_step [] true m l m2.
Proof.
  intros [A1 A2 A3 A4 A5 A6] [B1 B2 B3 B4 B5 B6]. split; try done.
  - intros rid j b [?|[?|?]]%B3; [by apply A3|auto|auto].
  - intros rid j b [?|?]%B4; [by apply A4|by right].
  - intros b Hl Hno. specialize (A6 b Hl Hno). destruct (B6 b Hl) as [[H1 H2]|]; [| |by right].
    + intros rid j [?|[?|?%elem_of_nil]]%A3; [by eapply Hno|done|done].
    + unfold hash_kept in *. rewrite H1, H2. done.
Qed.

Section cache.
Context `{SetIter}.
Variable use_int : bool.
Variable sha256 : list (list Z) → bytes.
Variable ext : nat → Z.
Hypothesis ext_nonneg : ∀ i, 0 ≤ ext i.

(** The first [n] tokens of [r] are computed: they have hashes, and the table has their blocks. *)
Record cache_ready (m : SingleTypeKVCacheManager) (r : Request) (n : Z) : Prop := {
  cr_caching : enable_caching (block_pool m) = true;
  cr_hbs : 0 < hash_block_size (block_pool m);
  cr_class : manager_class m ≠ CrossAttentionManager;
  cr_scale : shares_prefix (manager_class m) = true →
    ∃ c, 0 < c ∧ block_size m = c * hash_block_size (block_pool m);
  cr_tokens : 0 ≤ n;
  cr_entry : ∃ bs, req_to_blocks m !! request_id r = Some bs ∧
    (shares_prefix (manager_class m) = true → n // block_size m ≤ len bs);
  cr_partial : _partial_hit_reqs m !! request_id r = None;
  cr_hashes : n // hash_block_size (block_pool m) ≤ len (block_hashes r);
  cr_gid : 0 ≤ kv_cache_group_id m < 2 ^ 32;
  cr_align w e : manager_class m = SlidingWindowManager w e → cache_hit_alignment_tokens m mod block_size m = 0;
  cr_prompt : 0 ≤ num_prompt_tokens r;
  cr_events : enable_kv_cache_events (block_pool m) = true → memo_ok sha256 r ∧ mm_sorted (mm_features r)
}.

(** What caching leaves: only hashes of blocks of the request change, and how many count as
    cached. *)
Record cached_more (rid : string) (m : SingleTypeKVCacheManager) (l : list nat) (m' : SingleTypeKVCacheManager) :
    Prop := {
  cm_wf : st_wf ext m' l;
  cm_frame : st_frame rid m m';
  cm_blocks : req_to_blocks m' = req_to_blocks m;
  cm_partial : _partial_hit_reqs m' = _partial_hit_reqs m;
  cm_step : uncached_step [] true m l m'
}.

(** The request is the same up to its memo. *)
Definition same_request (r r' : Request) : Prop := r' = r ∨ remembers sha256 r r'.

Lemma hashed_wf m l p' :
  st_wf ext m l → alloc_same (block_pool m) p' → cache_wf p' → st_wf ext (m <| block_pool := p' |>) l.
Proof.
  intros Hwf Ha Hc. apply (st_wf_other ext ext m l); [done|apply Ha|..|done|].
  - eapply alloc_wf_same; [exact Ha|apply Hwf].
  - intros j Hj. rewrite (as_ref _ _ Ha). by apply (sw_refs _ _ _ Hwf).
Qed.

(** The blocks that the base class caches are at positions not cached yet. *)
Lemma cached_position m r bs nc nf i b :
  req_to_blocks m !! request_id r = Some bs → _partial_hit_reqs m !! request_id r = None →
  nc = cached_upto m (request_id r) → 0 ≤ nc < nf → nf ≤ len bs → b ≠ null_block →
  (i, b) ∈ imap pair (slice bs nc nf) →
  uncached m (request_id r) (Z.to_nat nc + i) b ∧ Z.of_nat (Z.to_nat nc + i) < nf.
Proof.
  intros Hrid Hp Hnc Hn Hnf Hb Hin%elem_of_imap_pair. pose proof (lookup_lt_Some _ _ _ Hin) as Hlt.
  rewrite slice_in in Hin, Hlt by lia. rewrite length_take in Hlt. apply lookup_take_Some in Hin as [Hin _].
  rewrite lookup_drop in Hin. split; [|lia]. split; [|rewrite <-Hnc; lia].
  split_and!; [by rewrite Hrid|done|]. by rewrite Hp.
Qed.

Lemma mask_ready m r n nc nf retention boundaries :
  cache_ready m r n → nc ≤ nf →
  ∃ mask, reachable_block_mask m nc nf retention boundaries = Ok mask ∧
    ∀ l, mask = Some l → len l = nf - nc.
Proof.
  intros Hr Hle. unfold reachable_block_mask. destruct (manager_class m) eqn:Hcl; try (by exists None).
  destruct (swa_block_mask_len sliding_window (block_size m) nc nf (cache_hit_alignment_tokens m) (use_eagle m)
    retention boundaries) as (mask & Hmask & Hlen); [by eapply (cr_align _ _ _ Hr)|].
  exists mask. split; [done|]. intros l Hl. unfold len. rewrite (Hlen l Hl). lia.
Qed.

(** What [cache_full_blocks] needs holds for the positions not cached yet. *)
Lemma base_call_ok m l r n c mask bs :
  st_wf ext m l → uncached_ok m → cache_ready m r n → 0 < c → block_size m = c * hash_block_size (block_pool m) →
  shares_prefix (manager_class m) = true → req_to_blocks m !! request_id r = Some bs →
  let nc := cached_upto m (request_id r) in let nf := n // block_size m in
  nc < nf → (∀ l, mask = Some l → len l = nf - nc) →
  cache_call_ok sha256 (block_pool m) r bs nc nf c (kv_cache_group_id m) mask.
Proof.
  intros Hwf Hok Hr Hc Hsize Hsh Hrid nc nf Hlt Hmask.
  assert (0 ≤ nc) as Hnc.
  { unfold nc, cached_upto. destruct (num_cached_block m !! request_id r) eqn:Hcd; [|done]. by apply Hok in Hcd. }
  destruct (cr_entry _ _ _ Hr) as (bs' & Hbs' & Hlen). assert (bs' = bs) as -> by congruence. specialize (Hlen Hsh).
  assert (∀ i b, (i, b) ∈ imap pair (slice bs nc nf) → selected (block_pool m) mask (i, b) →
    uncached m (request_id r) (Z.to_nat nc + i) b ∧ b ∈ bs) as Hpos.
  { intros i b Hin [Hn _]. simpl in Hn. apply not_true_iff_false in Hn. rewrite (wf_null _ _ (sw_alloc _ _ _ Hwf)) in Hn.
    destruct (cached_position m r bs nc nf i b) as [Hu _]; try done; [apply Hr|]. split; [done|].
    destruct Hu as [(Hj & _) _]. rewrite Hrid in Hj. by eapply list_elem_of_lookup_2. }
  split; try done; try apply Hr.
  - pose proof (cr_hbs _ _ _ Hr). pose proof (cr_hashes _ _ _ Hr). unfold nf. rewrite Hsize, Z.mul_comm, <-Z.div_div by lia.
    by apply Z.div_le_mono.
  - intros i b Hin Hsel. destruct (Hpos i b Hin Hsel) as [Hu Hb]. split; [by eapply (sw_range _ _ _ Hwf)|].
    destruct (uo_fresh _ Hok _ _ _ Hu (cr_caching _ _ _ Hr)) as [Hpr _]. rewrite Hsize in Hpr.
    by replace (nc + Z.of_nat i + 1) with (Z.of_nat (Z.to_nat nc + i) + 1) by lia.
  - intros i i' b Hin Hin' Hsel Hsel'. destruct (Hpos i b Hin Hsel) as [Hu _], (Hpos i' b Hin' Hsel') as [Hu' _].
    destruct (uo_private _ Hok _ _ _ _ _ Hu (proj1 Hu')). lia.
Qed.

Lemma base_step m l r n c bs mask key nt p' :
  st_wf ext m l → uncached_ok m → cache_ready m r n → 0 < c → block_size m = c * hash_block_size (block_pool m) →
  req_to_blocks m !! request_id r = Some bs →
  let nc := cached_upto m (request_id r) in let nf := n // block_size m in
  0 ≤ nc < nf → nf ≤ len bs → caching (block_pool m) mask key nt (imap pair (slice bs nc nf)) p' →
  cached_more (request_id r) m l (m <| block_pool := p' |> <| num_cached_block ::= <[request_id r := nf]> |>).
Proof.
  intros Hwf Hok Hr Hc Hsize Hrid nc nf Hlt Hlen [Ha Hw _ Hh _]. set (m' := m <| block_pool := p' |> <| num_cached_block ::= _ |>).
  assert (∀ rid j b, uncached m' rid j b → uncached m rid j b ∧ (rid = request_id r → nf ≤ Z.of_nat j)) as Hun.
  { intros rid j b [Hat Hle]. unfold cached_upto in Hle. simpl in Hle. destruct (decide (rid = request_id r)) as [->|Hne].
    - rewrite lookup_insert_eq in Hle. simpl in Hle. split; [|done]. split; [done|]. fold nc. lia.
    - rewrite lookup_insert_ne in Hle by done. by split. }
  assert (∀ i b, (i, b) ∈ imap pair (slice bs nc nf) → selected (block_pool m) mask (i, b) →
    uncached m (request_id r) (Z.to_nat nc + i) b ∧ Z.of_nat (Z.to_nat nc + i) < nf) as Hpos.
  { intros i b Hin [Hn _]. simpl in Hn. apply not_true_iff_false in Hn. rewrite (wf_null _ _ (sw_alloc _ _ _ Hwf)) in Hn.
    by apply (cached_position m r bs nc nf i b); [|apply Hr|..]. }
  split; try done.
  - pose proof (hashed_wf m l p' Hwf Ha Hw) as Hwf'. by destruct Hwf'.
  - split; try done; [apply Ha|]. intros rid' Hne. simpl. by rewrite lookup_insert_ne.
  - split.
    + intros rid k. simpl. destruct (decide (rid = request_id r)) as [->|Hne].
      * rewrite lookup_insert_eq. intros [= <-]. lia.
      * rewrite lookup_insert_ne by done. apply Hok.
    + intros rid j b Hu. destruct (Hun rid j b Hu) as [Hu0 Hj]. eapply fresh_kept; [by apply (uo_fresh _ Hok rid)|done|apply Ha|].
      left. apply Hh. intros i Hin Hsel. destruct (Hpos i b Hin Hsel) as [Hui Hi].
      destruct (uo_private _ Hok _ _ _ _ _ Hui (proj1 Hu0)) as [Heq Hj']. specialize (Hj (eq_sym Heq)). lia.
    + intros rid j b Hat. by left.
    + intros rid j b Hu. left. by apply Hun.
    + intros rid j rid' j' b Hu Hat Hl. destruct (Hun rid j b Hu) as [[Hat0 _] _].
      by destruct (at_pos_not_free ext m l rid j b ext_nonneg Hwf Hat0).
    + intros b _ Hno. left. apply Hh. intros i Hin Hsel. destruct (Hpos i b Hin Hsel) as [[Hui _] _]. by eapply Hno.
Qed.

Lemma cached_refl rid m l : st_wf ext m l → uncached_ok m → cached_more rid m l m.
Proof. intros Hwf Hok. split; try done. by apply (step_refl ext ext_nonneg). Qed.

Lemma cache_base_spec m l r n retention :
  st_wf ext m l → uncached_ok m → cache_ready m r n → shares_prefix (manager_class m) = true →
  wp (cache_blocks_base use_int sha256 r n retention)
    (λ r' m', same_request r r' ∧ cached_more (request_id r) m l m') m.
Proof.
  intros Hwf Hok Hr Hsh. unfold cache_blocks_base. apply wp_bind, wp_gets. fold (cached_upto m (request_id r)).
  case_decide as Hle; [apply wp_ret; split; [by left|by apply cached_refl]|].
  set (nc := cached_upto m (request_id r)) in *. set (nf := n // block_size m) in *.
  assert (0 ≤ nc) as Hnc.
  { unfold nc, cached_upto. destruct (num_cached_block m !! request_id r) eqn:Hcd; [|done]. by apply Hok in Hcd. }
  match goal with |- context [reachable_block_mask m nc nf retention ?b] => set (bounds := b) end.
  destruct (mask_ready m r n nc nf retention bounds Hr ltac:(lia)) as (mask & Hmask & Hml).
  apply wp_bind, (wp_lift _ mask); [done|].
  destruct (cr_entry _ _ _ Hr) as (bs & Hbs & Hlen). destruct (cr_scale _ _ _ Hr Hsh) as (c & Hc & Hsize).
  apply wp_bind, (wp_req_blocks_Some _ _ _ _ Hbs). apply wp_bind, wp_on_pool. rewrite Hsize.
  eapply wp_mono; [apply (cache_full_blocks_spec use_int sha256 (block_pool m) l); [apply Hwf|apply Hwf|]|].
  { eapply base_call_ok; try done. fold nc nf. lia. }
  intros r' p' [Hcg Hr']. apply wp_bind, wp_modify, wp_ret. split; [done|].
  eapply (base_step m l r n c bs mask); try done; [lia|by apply Hlen].
Qed.

Lemma tail_step m l r idx b key nt p' :
  st_wf ext m l → uncached_ok m → at_pos m (request_id r) idx b → block_size m ≠ hash_block_size (block_pool m) →
  nt < (Z.of_nat idx + 1) * block_size m → tail_changed (block_pool m) b key nt p' →
  cached_more (request_id r) m l (m <| block_pool := p' |>).
Proof.
  intros Hwf Hok Hat Hne Hnt [Ha Hw _ _ Hh Hp]. split; try done.
  - by apply hashed_wf.
  - split; try done. apply Ha.
  - assert (∀ rid j b', uncached m rid j b' → b' ∉ l) as Hnf.
    { intros rid j b' [Hb _]. by eapply at_pos_not_free. }
    split.
    + apply Hok.
    + intros rid j b' Hu. destruct (decide (b' = b)) as [->|Hb'].
      * destruct (uo_private _ Hok _ _ _ _ _ Hu Hat) as [-> ->]. intros Hc.
        simpl in Hc. rewrite (cfg_caching _ _ (as_config _ _ Ha)) in Hc. simpl.
        destruct (uo_fresh _ Hok _ _ _ Hu Hc) as [Hpr _]. rewrite (cfg_hbs _ _ (as_config _ _ Ha)). split; [|done].
        by apply Hp.
      * eapply (fresh_kept m); [by apply (uo_fresh _ Hok rid)|done|apply Ha|]. left. by apply Hh.
    + by left.
    + by left.
    + intros rid j rid' j' b' Hu _ Hl. by destruct (Hnf rid j b').
    + intros b' _ Hno. left. apply Hh. intros ->. by eapply Hno.
Qed.

Lemma cache_tail_spec m l r n :
  st_wf ext m l → uncached_ok m → cache_ready m r n → shares_prefix (manager_class m) = true →
  block_size m ≠ hash_block_size (block_pool m) →
  wp (_cache_partial_tail_block use_int sha256 r n)
    (λ r' m', same_request r r' ∧ cached_more (request_id r) m l m') m.
Proof.
  intros Hwf Hok Hr Hsh Hne. unfold _cache_partial_tail_block. apply wp_bind, wp_gets. cbv zeta.
  set (hbs := hash_block_size (block_pool m)) in *. set (nt := num_prompt_tokens r // hbs * hbs).
  assert (same_request r r ∧ cached_more (request_id r) m l m) as Hskip by (split; [by left|by apply cached_refl]).
  case_decide as Hb0; [by apply wp_ret|]. case_decide as Hmod; [by apply wp_ret|].
  destruct (cr_entry _ _ _ Hr) as (bs & Hbs & _). apply wp_bind, (wp_req_blocks_Some _ _ _ _ Hbs).
  case_decide as Hlen; [by apply wp_ret|].
  pose proof (cr_hbs _ _ _ Hr) as Hpos. fold hbs in Hpos. pose proof (sw_size _ _ _ Hwf) as Hs.
  assert (0 ≤ nt) as Hnt0.
  { unfold nt. pose proof (Z.div_pos (num_prompt_tokens r) hbs (cr_prompt _ _ _ Hr) Hpos). nia. }
  assert (0 ≤ nt // block_size m) as Hidx by (apply Z.div_pos; lia).
  assert (nt // hbs * hbs = nt) as Hnt by (unfold nt; by rewrite Z.div_mul by lia).
  destruct (index_in_range bs (nt // block_size m)) as (b & Hb & Hb'); [lia|].
  apply wp_bind, (wp_lift _ b); [done|]. apply wp_bind, wp_on_pool.
  destruct (decide (b = null_block)) as [Hnull|Hnull].
  { unfold cache_partial_block. apply wp_bind, wp_gets.
    assert (is_null (blk (block_pool m) b) = true) as -> by (by apply (wf_null _ _ (sw_alloc _ _ _ Hwf))).
    apply wp_ret, wp_ret. assert (m <| block_pool := block_pool m |> = m) as -> by (by destruct m). done. }
  destruct (cr_scale _ _ _ Hr Hsh) as (c & Hc & Hsize). fold hbs in Hsize.
  eapply wp_mono; [apply (cache_partial_block_spec use_int sha256 (block_pool m) l); [apply Hwf|apply Hwf|]|].
  { split; fold hbs; try done; try apply Hr.
    - nia.
    - rewrite Hsize. by apply Z.mod_mul; lia.
    - unfold nt. by apply Z.mod_mul; lia.
    - pose proof (cr_hashes _ _ _ Hr) as Hh. fold hbs in Hh.
      pose proof (Z.div_le_mono nt n hbs Hpos ltac:(lia)). split; [|lia]. assert (nt // hbs ≠ 0) by (intros ?; nia).
      pose proof (Z.div_pos nt hbs Hnt0 Hpos). lia.
    - apply list_elem_of_lookup_2 in Hb'. pose proof (sw_range _ _ _ Hwf _ _ _ Hbs Hb'). unfold null_block in Hnull. lia. }
  intros [k r'] p' (_ & Htc & _ & Hr'). apply wp_ret. split; [exact Hr'|].
  eapply (tail_step m l r (Z.to_nat (nt // block_size m)) b); try done.
  - split_and!; [by rewrite Hbs|done|]. by rewrite (cr_partial _ _ _ Hr).
  - rewrite Z2Nat.id by done. pose proof (Z.div_mod nt (block_size m) ltac:(lia)).
    pose proof (Z.mod_pos_bound nt (block_size m) Hs). nia.
Qed.

Lemma same_request_facts r r' : same_request r r' →
  request_id r' = request_id r ∧ block_hashes r' = block_hashes r ∧ num_prompt_tokens r' = num_prompt_tokens r ∧
  mm_features r' = mm_features r ∧ num_tokens r' = num_tokens r ∧ (memo_ok sha256 r → memo_ok sha256 r').
Proof. by intros [-> |[[memo ->] Hm]]. Qed.

Lemma same_request_trans r1 r2 r3 : same_request r1 r2 → same_request r2 r3 → same_request r1 r3.
Proof.
  unfold same_request. intros [-> |H1] [-> |H2]; [by left|by right..|]. right. by eapply remembers_trans.
Qed.

Lemma cached_trans rid m l m1 m2 : cached_more rid m l m1 → cached_more rid m1 l m2 → cached_more rid m l m2.
Proof.
  intros [A1 A2 A3 A4 A5] [B1 B2 B3 B4 B5]. split; [done|by etrans|congruence|congruence|by eapply step_trans].
Qed.

(** A manager stays ready. *)
Lemma ready_cached m r n m' r' l :
  cache_ready m r n → same_request r r' → cached_more (request_id r) m l m' → cache_ready m' r' n.
Proof.
  intros [A B C D E F G I J K U V] Hreq [_ [Hcl Hsz _ Hset Hcfg _ _ _] Hb Hp _].
  destruct (same_request_facts r r' Hreq) as (Hid & Hbh & Hpt & Hmm & _ & Hmemo).
  injection Hset as Hal _ _ Hgid _.
  split; rewrite ?(cfg_caching _ _ Hcfg), ?(cfg_hbs _ _ Hcfg), ?(cfg_events _ _ Hcfg), ?Hcl, ?Hsz, ?Hid, ?Hb, ?Hp,
    ?Hbh, ?Hpt, ?Hgid, ?Hal, ?Hmm; try done. intros He. destruct (V He). auto.
Qed.

Lemma cache_blocks_spec m l r n retention :
  st_wf ext m l → uncached_ok m → cache_ready m r n →
  wp (cache_blocks use_int sha256 r n retention)
    (λ r' m', same_request r r' ∧ cached_more (request_id r) m l m') m.
Proof.
  intros Hwf Hok Hr. unfold cache_blocks. apply wp_bind, wp_gets.
  assert (same_request r r ∧ cached_more (request_id r) m l m) as Hskip by (split; [by left|by apply cached_refl]).
  pose proof (λ Hsh, cache_base_spec m l r n retention Hwf Hok Hr Hsh) as Hbase.
  assert (shares_prefix (manager_class m) = true →
    wp (request' ← cache_blocks_base use_int sha256 r n retention;
        if decide (block_size m = hash_block_size (block_pool m)) then mret request'
        else _cache_partial_tail_block use_int sha256 request' n)
      (λ r' m', same_request r r' ∧ cached_more (request_id r) m l m') m) as Htail.
  { intros Hsh. apply wp_bind. eapply wp_mono; [by apply Hbase|]. intros r1 m1 [Hr1 Hm1].
    case_decide as Heq; [by apply wp_ret|]. pose proof (cm_frame _ _ _ _ Hm1) as Hf.
    destruct (same_request_facts r r1 Hr1) as (Hid & _).
    eapply wp_mono; [apply (cache_tail_spec m1 l); [apply Hm1| |by eapply ready_cached|..]|].
    - eapply step_ok; [exact Hok|by intros b rid j ?%elem_of_nil|apply Hm1].
    - by rewrite (sf_class _ _ _ Hf).
    - by rewrite (sf_size _ _ _ Hf), (cfg_hbs _ _ (sf_pool _ _ _ Hf)).
    - intros r2 m2 [Hr2 Hm2]. rewrite Hid in Hm2. split; [by eapply same_request_trans|by eapply cached_trans]. }
  pose proof (cr_class _ _ _ Hr) as Hcross.
  destruct (manager_class m) eqn:Hcl; simpl in *; auto; by apply wp_ret.
Qed.
End cache.
