(* ===== verification/CacheHit.v ===== *)
(** * Prefix-cache lookups (src/vllm/v1/core/single_type_kv_cache_manager.py)

    [find_longest_cache_hit] of the full-attention, sliding-window and chunked-local managers:
    the blocks of the longest cached prefix a layer type can use, and its length in tokens.
    The theorems compare them with the declarative notion of a usable prefix. *)

From S2P Require Import Prelude FreeQueue Request Hashing BlockPool PoolSpecs PoolTheorems.
From S2P Require Import SingleType SingleSpecs.

(** [block_pool.get_cached_block(...)] as a condition: an empty list counts as a miss. *)
Definition cached_for (p : BlockPool) (block_hash : bytes) (kv_cache_group_ids : list Z) :
    res (option (list nat)) :=
  cached_block ← get_cached_block p block_hash kv_cache_group_ids;
  Ok (match cached_block with Some [] => None | x => x end).

(** [for computed, cached in zip(computed_blocks, cached_block): computed.append(cached)] *)
Definition append_each (computed_blocks : list (list nat)) (cached_block : list nat) :
    list (list nat) :=
  zip_with (λ computed cached, computed ++ [cached]) computed_blocks cached_block.

(** [for computed in computed_blocks: del computed[n:]] *)
Definition trim_each (n : Z) (computed_blocks : list (list nat)) : list (list nat) :=
  take (Z.to_nat n) <$> computed_blocks.

(** [len(computed_blocks[0])] *)
Definition first_len (computed_blocks : list (list nat)) : res Z :=
  computed ← index computed_blocks 0; Ok (len computed).

(** Phase 1 of the full-attention lookup: the run of cached full blocks. *)
Fixpoint full_run (p : BlockPool) (kv_cache_group_ids : list Z) (hs : BlockHashList) (is_ : list Z)
    (computed_blocks : list (list nat)) : res (list (list nat)) :=
  match is_ with
  | [] => Ok computed_blocks
  | i :: is_ =>
      block_hash ← hashes_get hs i;
      cached_block ← cached_for p block_hash kv_cache_group_ids;
      match cached_block with
      | None => Ok computed_blocks
      | Some cached_block =>
          full_run p kv_cache_group_ids hs is_ (append_each computed_blocks cached_block)
      end
  end.

(** Phase 2: the longest cached hash boundary inside the first block that is not full. *)
Fixpoint partial_tail_hit (p : BlockPool) (kv_cache_group_ids : list Z) (block_hashes : list bytes)
    (alignment_tokens : Z) (is_ : list Z) (computed_blocks : list (list nat)) (hit_length : Z) :
    res (list (list nat) * Z) :=
  match is_ with
  | [] => Ok (computed_blocks, hit_length)
  | fine_idx :: is_ =>
      h ← index block_hashes fine_idx;
      cached_tail ← cached_for p h kv_cache_group_ids;
      match cached_tail with
      | None =>
          partial_tail_hit p kv_cache_group_ids block_hashes alignment_tokens is_ computed_blocks
            hit_length
      | Some cached_tail =>
          Ok (append_each computed_blocks cached_tail, (fine_idx + 1) * alignment_tokens)
      end
  end.

(** The hashes of the full blocks: [block_hashes] themselves, or a view of the raw ones. *)
Definition full_view (block_hashes : BlockHashList) (fine_grained : bool)
    (alignment_tokens block_size : Z) : res BlockHashList :=
  if fine_grained then
    match block_hashes with
    | HashList l => v ← new_BlockHashListWithBlockSize l alignment_tokens block_size; Ok (HashView v)
    | HashView _ => Raise AssertionError
    end
  else Ok block_hashes.

(** Phase 2, when fine-grained. *)
Definition extend_into_partial (p : BlockPool) (kv_cache_group_ids : list Z)
    (block_hashes : BlockHashList) (fine_grained : bool)
    (max_length alignment_tokens block_size num_full : Z) (computed_blocks : list (list nat)) :
    res (list (list nat) * Z) :=
  let hit_length := num_full * block_size in
  if fine_grained then
    match block_hashes with
    | HashView _ => Raise AssertionError
    | HashList l =>
        let scale_factor := block_size // alignment_tokens in
        let first_partial_idx := num_full * scale_factor in
        let max_partial_idx := Z.min (first_partial_idx + scale_factor - 1)
                                 (Z.min (max_length // alignment_tokens) (len l)) in
        partial_tail_hit p kv_cache_group_ids l alignment_tokens
          (range_down (max_partial_idx - 1) (first_partial_idx - 1)) computed_blocks hit_length
    end
  else Ok (computed_blocks, hit_length).

(** [FullAttentionManager.find_longest_cache_hit]; [block_size] is that of the spec times the
    DCP world size. *)
Definition find_longest_cache_hit_full (block_hashes : BlockHashList) (max_length : Z)
    (kv_cache_group_ids : list Z) (p : BlockPool) (block_size : Z) (drop_eagle_block : bool)
    (alignment_tokens : Z) : res (list (list nat) * Z) :=
  block_hashes ← resolve_block_hashes block_hashes (hash_block_size p) block_size true
    (Some alignment_tokens);
  let fine_grained :=
    bool_decide (alignment_tokens < block_size ∧ block_size mod alignment_tokens = 0) in
  full_block_hashes ← full_view block_hashes fine_grained alignment_tokens block_size;
  _ ← (if decide (max_length // block_size < 0) then Raise ValueError else Ok tt);
  computed_blocks ← full_run p kv_cache_group_ids full_block_hashes
    (range 0 (Z.min (max_length // block_size) (hashes_len full_block_hashes)))
    (replicate (length kv_cache_group_ids) []);
  num_full ← first_len computed_blocks;
  '(computed_blocks, hit_length) ← extend_into_partial p kv_cache_group_ids block_hashes
    fine_grained max_length alignment_tokens block_size num_full computed_blocks;
  let hit_length :=
    if decide (drop_eagle_block = true ∧ hit_length > 0)
    then hit_length - Z.min alignment_tokens block_size else hit_length in
  let hit_length := hit_length - hit_length mod alignment_tokens in
  let num_blocks := cdiv hit_length block_size in
  Ok (trim_each num_blocks computed_blocks, hit_length).

(** The right-to-left scan of the sliding-window lookup.  The result has the lists, the
    length of the last run and whether it was long enough. *)
Fixpoint swa_scan (p : BlockPool) (kv_cache_group_ids : list Z) (hs : BlockHashList)
    (block_size alignment_tokens : Z) (drop_eagle_block : bool) (need : Z) (is_ : list Z)
    (computed_blocks : list (list nat)) (num_contiguous_blocks : Z) :
    res (list (list nat) * Z * bool) :=
  match is_ with
  | [] => Ok (computed_blocks, num_contiguous_blocks, false)
  | i :: is_ =>
      h ← hashes_get hs i;
      cached_block ← cached_for p h kv_cache_group_ids;
      match cached_block with
      | None =>
          swa_scan p kv_cache_group_ids hs block_size alignment_tokens drop_eagle_block need is_
            computed_blocks 0
      | Some cached_block =>
          let post_pop_blocks := if drop_eagle_block then i else i + 1 in
          if decide (num_contiguous_blocks = 0 ∧ block_size ≠ alignment_tokens ∧
                     (post_pop_blocks * block_size) mod alignment_tokens ≠ 0) then
            swa_scan p kv_cache_group_ids hs block_size alignment_tokens drop_eagle_block need is_
              computed_blocks num_contiguous_blocks
          else
            let computed_blocks :=
              zip_with (λ computed cached, <[Z.to_nat i := cached]> computed)
                computed_blocks cached_block in
            let num_contiguous_blocks := num_contiguous_blocks + 1 in
            if decide (need ≤ num_contiguous_blocks) then
              Ok (trim_each (i + num_contiguous_blocks) computed_blocks,
                  num_contiguous_blocks, true)
            else
              swa_scan p kv_cache_group_ids hs block_size alignment_tokens drop_eagle_block need is_
                computed_blocks num_contiguous_blocks
      end
  end.

(** [for computed in computed_blocks: computed.pop()] *)
Definition pop_each (computed_blocks : list (list nat)) : list (list nat) :=
  (λ computed, take (length computed - 1) computed) <$> computed_blocks.

(** The [while] loops that pop blocks until the hit is aligned. *)
Fixpoint pop_unaligned (fuel : nat) (block_size alignment_tokens : Z)
    (computed_blocks : list (list nat)) : res (list (list nat)) :=
  match fuel with
  | O => Raise OutOfFuel
  | S fuel =>
      n ← first_len computed_blocks;
      if decide (block_size ≠ alignment_tokens ∧ (n * block_size) mod alignment_tokens ≠ 0) then
        pop_unaligned fuel block_size alignment_tokens (pop_each computed_blocks)
      else Ok computed_blocks
  end.

(** [SlidingWindowManager.find_longest_cache_hit] *)
Definition find_longest_cache_hit_swa (block_hashes : BlockHashList) (max_length : Z)
    (kv_cache_group_ids : list Z) (p : BlockPool) (sliding_window block_size : Z)
    (drop_eagle_block : bool) (alignment_tokens dcp_world_size pcp_world_size : Z) :
    res (list (list nat) * Z) :=
  if decide (dcp_world_size ≠ 1) then Raise AssertionError else
  if decide (pcp_world_size ≠ 1) then Raise AssertionError else
  if decide (alignment_tokens mod block_size ≠ 0) then Raise AssertionError else
  block_hashes ← resolve_block_hashes block_hashes (hash_block_size p) block_size false
    (Some alignment_tokens);
  let sliding_window_contiguous_blocks :=
    _contiguous_blocks_for_hit sliding_window block_size drop_eagle_block in
  let max_num_blocks := max_length // block_size in
  let fuel := S (Z.to_nat max_num_blocks) in
  '(computed_blocks, num_contiguous_blocks, match_found) ←
    swa_scan p kv_cache_group_ids block_hashes block_size alignment_tokens drop_eagle_block
      sliding_window_contiguous_blocks (range_down (max_num_blocks - 1) (-1))
      (replicate (length kv_cache_group_ids) (replicate (Z.to_nat max_num_blocks) null_block)) 0;
  computed_blocks ←
    (if match_found : bool then Ok computed_blocks
     else pop_unaligned fuel block_size alignment_tokens
            (trim_each num_contiguous_blocks computed_blocks));
  n ← first_len computed_blocks;
  computed_blocks ←
    (if decide (drop_eagle_block = true ∧ n ≠ 0)
     then pop_unaligned fuel block_size alignment_tokens (pop_each computed_blocks)
     else Ok computed_blocks);
  n ← first_len computed_blocks;
  Ok (computed_blocks, n * block_size).

(** [ChunkedLocalAttentionManager.find_longest_cache_hit] *)
Definition find_longest_cache_hit_chunked (block_hashes : BlockHashList) (max_length : Z)
    (kv_cache_group_ids : list Z) (p : BlockPool) (attention_chunk_size block_size : Z)
    (drop_eagle_block : bool) (alignment_tokens dcp_world_size pcp_world_size : Z) :
    res (list (list nat) * Z) :=
  if drop_eagle_block then Raise AssertionError else
  if decide (dcp_world_size ≠ 1) then Raise AssertionError else
  if decide (pcp_world_size ≠ 1) then Raise AssertionError else
  if decide (block_size ≠ alignment_tokens) then Raise AssertionError else
  block_hashes ← resolve_block_hashes block_hashes (hash_block_size p) block_size false
    (Some alignment_tokens);
  let max_num_blocks := max_length // block_size in
  let local_attention_start_idx :=
    if decide (max_length > 0) then max_length // attention_chunk_size * attention_chunk_size else 0 in
  let local_attention_start_block_idx := local_attention_start_idx // block_size in
  computed_blocks ← full_run p kv_cache_group_ids block_hashes
    (range local_attention_start_block_idx max_num_blocks)
    (replicate (length kv_cache_group_ids)
       (replicate (Z.to_nat local_attention_start_block_idx) null_block));
  n ← first_len computed_blocks;
  Ok (computed_blocks, n * block_size).

(** ** Which blocks are cached *)

(** Some block is cached under the hash in every one of the groups. *)
Definition cached_in (p : BlockPool) (gids : list Z) (h : bytes) : Prop :=
  ∀ g, g ∈ gids → ∃ b, holds_key p b (h ++ be_bytes 4 g).

Lemma first_len_all (gids : list Z) n cs :
  gids ≠ [] → Forall2 (λ _ c, len c = n) gids cs → first_len cs = Ok n.
Proof. intros Hne HF. destruct HF as [|g c gs cs' Hc HF]; [done|]. by rewrite <-Hc. Qed.

Section lookups.
Variables (p : BlockPool) (gids : list Z).
Hypothesis p_wf : cache_wf p.
Hypothesis gids_ok : Forall (λ g, 0 ≤ g < 2 ^ 32) gids.
Hypothesis gids_ne : gids ≠ [].

Lemma cached_for_spec h :
  ∃ o, cached_for p h gids = Ok o ∧
    match o with
    | Some bs => Forall2 (λ g b, holds_key p b (h ++ be_bytes 4 g)) gids bs ∧ cached_in p gids h
    | None => ¬ cached_in p gids h
    end.
Proof.
  pose proof (get_cached_block_spec p h gids p_wf gids_ok) as Hspec. unfold cached_for.
  destruct (get_cached_block p h gids) as [[bs|]|e]; [| |done]; cbn [mbind res_bind].
  - exists (Some bs). split.
    + destruct bs; [|done]. by apply Forall2_nil_inv_r in Hspec.
    + split; [done|]. intros g [i Hi]%list_elem_of_lookup.
      destruct (Forall2_lookup_l _ _ _ _ _ Hspec Hi) as (b & _ & Hb). by exists b.
  - exists None. split; [done|]. intros Hc. destruct Hspec as (g & Hg & Hno).
    destruct (Hc g Hg) as [b Hb]. by apply (Hno b).
Qed.

(** The hashes of the blocks by position. *)
Variables (hs : BlockHashList) (hv : Z → bytes).

(** Blocks for the positions [a, n) have been appended to every list. *)
Definition run_of (a n : Z) (g : Z) (new : list nat) : Prop :=
  Forall2 (λ i b, holds_key p b (hv i ++ be_bytes 4 g)) (range a n) new.

(** Every list of [c0s] has been extended by a run of its group. *)
Definition runs (a n : Z) (c0s cs : list (list nat)) : Prop :=
  Forall3 (λ g c0 c, ∃ new, c = c0 ++ new ∧ run_of a n g new) gids c0s cs.

Lemma runs_start a c0s : length c0s = length gids → runs a a c0s c0s.
Proof.
  unfold runs. clear. revert c0s. induction gids as [|g gs IH]; intros [|c cs] Hlen; try done; [constructor|].
  constructor; [|apply IH; simpl in *; lia]. exists []. rewrite app_nil_r. split; [done|].
  unfold run_of. rewrite range_nil by lia. constructor.
Qed.

Lemma runs_step a n c0s bs cs :
  Forall2 (λ g b, holds_key p b (hv a ++ be_bytes 4 g)) gids bs → a < n →
  length c0s = length gids → runs (a + 1) n (append_each c0s bs) cs → runs a n c0s cs.
Proof.
  unfold runs, append_each. intros Hbs Hn. clear -Hbs Hn. revert c0s cs.
  induction Hbs as [|g b gs bs Hb Hbs IH]; intros [|c0 c0s] cs Hlen HF; try done; simpl in *.
  { inversion HF. constructor. }
  apply Forall3_cons_inv_l in HF as (? & ? & ? & ? & Hc & -> & (new & -> & Hnew) & HF).
  injection Hc as <- <-. constructor; [|apply IH; [lia|done]].
  exists (b :: new). rewrite <-app_assoc. split; [done|].
  unfold run_of in *. rewrite range_cons by lia. by constructor.
Qed.

Lemma full_run_spec a b c0s :
  (∀ i, a ≤ i < b → hashes_get hs i = Ok (hv i)) → a ≤ b → length c0s = length gids →
  ∃ n cs, full_run p gids hs (range a b) c0s = Ok cs ∧ a ≤ n ≤ b ∧
    (∀ i, a ≤ i < n → cached_in p gids (hv i)) ∧ (n < b → ¬ cached_in p gids (hv n)) ∧
    runs a n c0s cs.
Proof.
  intros Hget Hab. remember (Z.to_nat (b - a)) as d eqn:Hd. revert a c0s Hget Hab Hd.
  induction d as [|d IH]; intros a c0s Hget Hab Hd Hlen.
  - assert (b = a) as -> by lia. rewrite range_nil by lia. exists a, c0s.
    split; [done|]. split; [lia|]. split; [lia|]. split; [lia|by apply runs_start].
  - rewrite range_cons by lia. cbn [full_run]. rewrite Hget by lia. cbn [mbind res_bind].
    destruct (cached_for_spec (hv a)) as ([bs|] & -> & Hc); cbn [mbind res_bind].
    2:{ exists a, c0s. split; [done|]. split; [lia|]. split; [lia|]. split; [done|by apply runs_start]. }
    destruct Hc as [Hbs Hca].
    assert (length bs = length gids) as Hlb by (symmetry; by eapply Forall2_length).
    destruct (IH (a + 1) (append_each c0s bs)) as (n & cs & Hrun & Hn & Hin & Hout & HF).
    { intros i Hi. apply Hget. lia. }
    { lia. }
    { lia. }
    { unfold append_each. rewrite length_zip_with. lia. }
    exists n, cs. split; [done|]. split; [lia|]. split.
    { intros i Hi. destruct (decide (i = a)) as [->|]; [done|]. apply Hin. lia. }
    split; [done|]. eapply runs_step; [done|lia|done|done].
Qed.

Lemma run_of_take a n k g new :
  run_of a n g new → 0 ≤ k ≤ n - a → run_of a (a + k) g (take (Z.to_nat k) new).
Proof. unfold run_of. intros Hr Hk. rewrite <-(range_take a n) by done. by apply Forall2_take. Qed.

Lemma runs_replicate_inv a n (c0 : list nat) cs :
  runs a n (replicate (length gids) c0) cs →
  Forall2 (λ g c, ∃ new, c = c0 ++ new ∧ run_of a n g new) gids cs.
Proof.
  unfold runs. clear. revert cs. induction gids as [|g gs IH]; intros cs HF; simpl in *.
  - inversion HF. constructor.
  - apply Forall3_cons_inv_l in HF as (? & ? & ? & ? & Hc & -> & Hnew & HF).
    injection Hc as <- <-. constructor; [done|]. by apply IH.
Qed.

Lemma runs_nil_inv a n cs :
  runs a n (replicate (length gids) []) cs → Forall2 (run_of a n) gids cs.
Proof.
  intros HF%runs_replicate_inv. eapply Forall2_impl; [exact HF|]. by intros g c (new & -> & Hnew).
Qed.

Lemma run_of_len a n g new : run_of a n g new → a ≤ n → len new = n - a.
Proof.
  intros Hr Hn. rewrite <-(len_range a n) by done. unfold len. f_equal. symmetry.
  by eapply Forall2_length.
Qed.

Lemma run_of_lookup a n g new j :
  run_of a n g new → a ≤ j < n →
  ∃ b, new !! Z.to_nat (j - a) = Some b ∧ holds_key p b (hv j ++ be_bytes 4 g).
Proof.
  intros Hr Hj. pose proof (range_lookup a n (j - a) ltac:(lia)) as Hl.
  destruct (Forall2_lookup_l _ _ _ _ _ Hr Hl) as (b & Hb & Hk).
  exists b. split; [done|]. by replace (a + (j - a)) with j in Hk by lia.
Qed.

Lemma first_len_run a n cs : Forall2 (run_of a n) gids cs → a ≤ n → first_len cs = Ok (n - a).
Proof.
  intros HF Hn. eapply first_len_all; [exact gids_ne|]. eapply Forall2_impl; [exact HF|].
  intros g c Hr. by eapply run_of_len.
Qed.

End lookups.

(** The hash of the [i]-th block of [c] hash blocks. *)
Definition hash_at (hashes : list bytes) (c i : Z) : bytes := hashes !!! Z.to_nat (hash_pos c i).

Lemma hash_at_get hashes c i :
  0 < c → 0 ≤ i < len hashes // c → index hashes (hash_pos c i) = Ok (hash_at hashes c i).
Proof.
  intros Hc Hi. destruct (index_in_range hashes (hash_pos c i)) as (x & -> & Hx).
  { by apply hash_pos_bound. }
  f_equal. symmetry. by apply list_lookup_total_correct.
Qed.

(** Lookups that are not fine-grained see one hash per block. *)
Lemma resolve_coarse hashes hbs c fine align :
  0 < hbs → 0 < c → fine = false ∨ c * hbs ≤ align →
  ∃ HS, resolve_block_hashes (HashList hashes) hbs (c * hbs) fine (Some align) = Ok HS ∧
    hashes_len HS = len hashes // c ∧
    ∀ i, 0 ≤ i < len hashes // c → hashes_get HS i = Ok (hash_at hashes c i).
Proof.
  intros Hh Hc Hfine. destruct (resolve_spec hashes hbs c Hh Hc) as (HS & Hres & Hlen & Hget & _).
  exists HS. split; [|split; [done|]].
  - rewrite <-Hres. unfold resolve_block_hashes. case_decide; [done|].
    replace (fine && bool_decide (align < c * hbs ∧ (c * hbs) mod align = 0)) with false; [done|].
    destruct Hfine as [-> | Hle]; [done|]. rewrite bool_decide_eq_false_2 by lia.
    by rewrite andb_false_r.
  - intros i Hi. rewrite Hget. by apply hash_at_get.
Qed.

(** The last steps of the full-attention lookup, on a run of [n] blocks. *)
Lemma aligned_hit bsz align n eagle hit :
  0 < bsz → align mod bsz = 0 → 0 < align → 0 ≤ n → eagle = 0 ∨ eagle = 1 →
  hit = (let h := if decide (eagle = 1 ∧ n * bsz > 0) then n * bsz - bsz else n * bsz in
         h - h mod align) →
  hit mod align = 0 ∧ hit mod bsz = 0 ∧ 0 ≤ hit ≤ n * bsz ∧
  (hit = 0 ∨ hit + eagle * bsz ≤ n * bsz) ∧
  ∀ k, k mod align = 0 → 0 ≤ k → k + eagle * bsz ≤ n * bsz → k ≤ hit.
Proof.
  intros Hb Hal Ha Hn He Hhit. cbv zeta in Hhit.
  set (h := if decide (eagle = 1 ∧ n * bsz > 0) then n * bsz - bsz else n * bsz) in *.
  assert (0 ≤ h ≤ n * bsz ∧ (h = 0 ∨ h + eagle * bsz ≤ n * bsz) ∧
    ∀ k, 0 ≤ k → k + eagle * bsz ≤ n * bsz → k ≤ h) as (Hh & Hdr & Hmax).
  { unfold h. destruct He as [-> | ->]; case_decide as Hd; try lia; [split; [nia|split; [|intros]; lia]|..].
    - assert (1 ≤ n) by nia. split; [nia|split; [|intros]; lia].
    - assert (n = 0) as -> by nia. split; [lia|split; [|intros]; lia]. }
  clearbody h. assert (hit mod align = 0) as Hmod.
  { rewrite Hhit, Zminus_mod, Z.mod_mod, Z.sub_diag by lia. by apply Z.mod_0_l; lia. }
  pose proof (Z.mod_pos_bound h align Ha) as Hb1. pose proof (Z.mod_le h align ltac:(lia) Ha).
  split_and!; [done| |lia|lia|lia|].
  - apply Z.mod_divide; [lia|]. apply Z.mod_divide in Hmod; [|lia]. apply Z.mod_divide in Hal; [|lia].
    by etrans.
  - intros k Hk Hk0 Hle. specialize (Hmax k Hk0 Hle).
    apply Z.mod_divide in Hk as [x ->]; [|lia]. apply Z.mod_divide in Hmod as [y Hy]; [|lia].
    assert (x * align < (y + 1) * align) by lia. assert (x ≤ y) by nia. rewrite Hy. nia.
Qed.

(** The full-attention lookup, when hits are aligned to a multiple of the block size. *)
Lemma full_lookup_spec p gids hashes c max_length drop align :
  cache_wf p → Forall (λ g, 0 ≤ g < 2 ^ 32) gids → gids ≠ [] →
  0 < hash_block_size p → 0 < c → 0 < align →
  let bsz := c * hash_block_size p in
  let eagle := if drop : bool then 1 else 0 in
  align mod bsz = 0 → 0 ≤ max_length →
  ∃ blocks hit,
    find_longest_cache_hit_full (HashList hashes) max_length gids p bsz drop align = Ok (blocks, hit) ∧
    hit mod align = 0 ∧ 0 ≤ hit ≤ max_length ∧ (hit = 0 ∨ hit + eagle * bsz ≤ max_length) ∧
    Forall2 (run_of p (hash_at hashes c) 0 (hit // bsz)) gids blocks ∧
    ∀ n, n mod align = 0 → 0 ≤ n → n // bsz + eagle ≤ len hashes // c →
      n + eagle * bsz ≤ max_length →
      (∀ i, 0 ≤ i < n // bsz + eagle → cached_in p gids (hash_at hashes c i)) → n ≤ hit.
Proof.
  intros Hwf Hg Hne Hh Hc Ha bsz eagle Halign Hmax. assert (0 < bsz) as Hb by (unfold bsz; nia).
  assert (bsz ≤ align) as Hle. { apply Z.divide_pos_le; [done|]. by apply Z.mod_divide; [lia|]. }
  unfold find_longest_cache_hit_full.
  destruct (resolve_coarse hashes (hash_block_size p) c true align) as (HS & Hres & Hlen & Hget);
    [done|done|by right|]. fold bsz in Hres. rewrite Hres. cbn [mbind res_bind].
  rewrite bool_decide_eq_false_2 by lia. cbn [full_view mbind res_bind].
  pose proof (Z.div_pos max_length bsz Hmax Hb) as Hm0.
  rewrite decide_False by lia. cbn [mbind res_bind].
  rewrite Hlen. pose proof (len_nonneg hashes). pose proof (Z.div_pos (len hashes) c ltac:(lia) Hc).
  destruct (full_run_spec p gids Hwf Hg Hne HS (hash_at hashes c) 0
    (Z.min (max_length // bsz) (len hashes // c)) (replicate (length gids) []))
    as (n & cs & -> & Hn & Hin & Hout & Hruns%runs_nil_inv).
  { intros i Hi. apply Hget. lia. }
  { lia. }
  { apply length_replicate. }
  cbn [mbind res_bind]. assert (first_len cs = Ok (n - 0)) as -> by (eapply first_len_run; [..|exact Hruns|lia]; done).
  cbn [extend_into_partial mbind res_bind]. rewrite Z.sub_0_r, Z.min_r by done.
  set (hit := _ - _ mod align).
  destruct (aligned_hit bsz align n eagle hit) as (Hm1 & Hm2 & Hhit & Hdr & Hlong);
    [done|done|done|lia|unfold eagle; destruct drop; auto|..].
  { unfold hit, eagle. destruct drop, (decide (n * bsz > 0)); repeat case_decide; naive_solver lia. }
  clearbody hit. pose proof (Z.mul_div_le max_length bsz Hb).
  pose proof (Z.div_exact hit bsz ltac:(lia)) as [_ Hex]. specialize (Hex Hm2).
  eexists _, hit. split; [done|]. split; [done|]. split; [nia|]. split; [nia|]. split.
  - assert (cdiv hit bsz = hit // bsz) as ->.
    { pose proof (cdiv_spec hit bsz Hb). nia. }
    unfold trim_each. apply Forall2_fmap_r. eapply Forall2_impl; [exact Hruns|].
    intros g new Hr. apply (run_of_take _ _ _ _ (hit // bsz)) in Hr; [done|nia].
  - intros k Hk Hk0 Hkl Hkm Hkc. apply Hlong; [done|done|].
    destruct (decide (k // bsz + eagle ≤ n)) as [|Hgt].
    + pose proof (Z.div_exact k bsz ltac:(lia)) as [_ Hkx]. rewrite Hkx; [nia|].
      apply Z.mod_divide; [lia|]. apply Z.mod_divide in Hk; [|lia]. etrans; [|exact Hk].
      by apply Z.mod_divide; [lia|].
    + exfalso. apply Hout; [|apply Hkc; lia].
      assert (k // bsz + eagle ≤ max_length // bsz); [|lia].
      rewrite <-Z.div_add by lia. apply Z.div_le_mono; lia.
Qed.

(** ** Fine-grained hits

    Hits may end at any hash boundary.  A prefix of [n] hash blocks is usable when its full blocks
    are cached, and its last, partial block is cached under the hash of exactly this prefix. *)

Section fine.
Variables (p : BlockPool) (gids : list Z).
Hypothesis p_wf : cache_wf p.
Hypothesis gids_ok : Forall (λ g, 0 ≤ g < 2 ^ 32) gids.
Hypothesis gids_ne : gids ≠ [].
Variables (hashes : list bytes) (c max_length : Z).
Hypothesis (unit_pos : 0 < hash_block_size p) (c_big : 1 < c) (max_ok : 0 ≤ max_length).
Abbreviation u := (hash_block_size p).
Abbreviation bsz := (c * hash_block_size p).

Record fine_usable (n : Z) : Prop := {
  fu_bounds : 0 ≤ n ≤ len hashes;
  fu_fits : n * u ≤ max_length;
  fu_full i : 0 ≤ i < n // c → cached_in p gids (hash_at hashes c i);
  fu_tail : n mod c ≠ 0 → cached_in p gids (hashes !!! Z.to_nat (n - 1))
}.

Lemma partial_tail_spec a b cs hit : 0 ≤ a → b ≤ len hashes →
  (∃ i bs, partial_tail_hit p gids hashes u (range_down (b - 1) (a - 1)) cs hit = Ok (append_each cs bs, (i + 1) * u) ∧
     a ≤ i < b ∧ cached_in p gids (hashes !!! Z.to_nat i) ∧
     Forall2 (λ g b, holds_key p b (hashes !!! Z.to_nat i ++ be_bytes 4 g)) gids bs ∧
     ∀ j, i < j < b → ¬ cached_in p gids (hashes !!! Z.to_nat j)) ∨
  (partial_tail_hit p gids hashes u (range_down (b - 1) (a - 1)) cs hit = Ok (cs, hit) ∧
     ∀ j, a ≤ j < b → ¬ cached_in p gids (hashes !!! Z.to_nat j)).
Proof.
  intros Ha Hb. remember (Z.to_nat (b - a)) as d eqn:Hd. revert b Hb Hd. induction d as [|d IH]; intros b Hb Hd.
  { right. rewrite range_down_nil by lia. split; [done|]. lia. }
  rewrite range_down_cons by lia. cbn [partial_tail_hit].
  destruct (index_in_range hashes (b - 1)) as (h & -> & Hh); [lia|]. cbn [mbind res_bind].
  apply list_lookup_total_correct in Hh. rewrite <-Hh.
  destruct (cached_for_spec p gids p_wf gids_ok gids_ne (hashes !!! Z.to_nat (b - 1))) as ([bs|] & -> & Hc);
    cbn [mbind res_bind].
  - left. destruct Hc as [Hbs Hca]. exists (b - 1), bs. split_and!; [done|lia|lia|done|done|]. lia.
  - destruct (IH (b - 1)) as [(i & bs & Hrun & Hi & Hca & Hbs & Hno)|[Hrun Hno]]; [lia|lia| |].
    + left. exists i, bs. split_and!; [done|lia|lia|done|done|]. intros j Hj.
      destruct (decide (j = b - 1)) as [->|]; [done|]. apply Hno. lia.
    + right. split; [done|]. intros j Hj. destruct (decide (j = b - 1)) as [->|]; [done|]. apply Hno. lia.
Qed.

(** Block [j] holds the hash of a prefix that ends in it and covers the first [hit] tokens of it. *)
Definition covers (hit : Z) (g : Z) (blocks : list nat) : Prop :=
  len blocks = cdiv hit bsz ∧
  ∀ j b, blocks !! j = Some b → ∃ e, Z.of_nat j * c < e ≤ (Z.of_nat j + 1) * c ∧
    Z.min hit ((Z.of_nat j + 1) * bsz) ≤ e * u ∧ holds_key p b (hashes !!! Z.to_nat (e - 1) ++ be_bytes 4 g).

Lemma run_covers n g new : 0 ≤ n → run_of p (hash_at hashes c) 0 n g new →
  len new = n ∧ ∀ j b, new !! j = Some b → holds_key p b (hash_at hashes c (Z.of_nat j) ++ be_bytes 4 g).
Proof.
  intros Hn Hr. pose proof (run_of_len _ _ _ _ _ _ Hr Hn) as Hl. split; [lia|]. intros j b Hj.
  apply lookup_lt_Some in Hj as Hlt. unfold len in Hl.
  destruct (run_of_lookup _ _ _ _ _ _ (Z.of_nat j) Hr) as (b' & Hb' & Hk); [lia|].
  rewrite Z.sub_0_r, Nat2Z.id in Hb'. congruence.
Qed.

(** The lists after both phases, when the longest usable prefix has [n] hash blocks. *)
Definition found (n g : Z) (blocks : list nat) : Prop :=
  len blocks = cdiv (n * u) bsz ∧
  ∀ j b, blocks !! j = Some b → holds_key p b (hashes !!! Z.to_nat (Z.min n ((Z.of_nat j + 1) * c) - 1) ++ be_bytes 4 g).

Lemma cdiv_units n : cdiv (n * u) bsz = cdiv n c.
Proof.
  pose proof (cdiv_spec (n * u) bsz ltac:(nia)). pose proof (cdiv_spec n c ltac:(lia)). nia.
Qed.

Lemma found_full n g new : 0 ≤ n → run_of p (hash_at hashes c) 0 n g new → found (n * c) g new.
Proof.
  intros Hn Hr. destruct (run_covers n g new Hn Hr) as [Hl Hk]. split.
  - rewrite cdiv_units, Hl. pose proof (cdiv_spec (n * c) c ltac:(lia)). nia.
  - intros j b Hj. apply lookup_lt_Some in Hj as Hlt. unfold len in Hl. rewrite Z.min_r by nia. by apply Hk.
Qed.

Lemma found_tail n m g new b : 0 ≤ n → run_of p (hash_at hashes c) 0 n g new → n * c < m ≤ n * c + c - 1 →
  holds_key p b (hashes !!! Z.to_nat (m - 1) ++ be_bytes 4 g) → found m g (new ++ [b]).
Proof.
  intros Hn Hr Hm Hb. destruct (run_covers n g new Hn Hr) as [Hl Hk]. split.
  - rewrite cdiv_units, len_app. change (len [b]) with 1. pose proof (cdiv_spec m c ltac:(lia)). nia.
  - intros j x Hj. unfold len in Hl. apply lookup_app_Some in Hj as [Hj|[Hge Hj]].
    + apply lookup_lt_Some in Hj as Hlt. rewrite Z.min_r by nia. by apply Hk.
    + apply list_lookup_singleton_Some in Hj as [Hj ->]. rewrite Z.min_l by nia. done.
Qed.

Lemma found_trim n hit g new : 0 ≤ hit ≤ n * u → found n g new → covers hit g (take (Z.to_nat (cdiv hit bsz)) new).
Proof.
  intros Hhit [Hl Hk]. assert (0 < bsz) as Hb by nia. pose proof (cdiv_spec hit bsz Hb). pose proof (cdiv_spec (n * u) bsz Hb).
  assert (0 ≤ cdiv hit bsz ≤ cdiv (n * u) bsz) by nia. split.
  - unfold len in *. rewrite length_take. lia.
  - intros j b [Hj Hlt]%lookup_take_Some. exists (Z.min n ((Z.of_nat j + 1) * c)).
    split; [nia|]. split; [nia|]. by apply Hk.
Qed.

(** The full blocks and the tail are the longest usable prefix. *)
Lemma fine_longest n raw : 0 ≤ n ≤ Z.min (max_length // bsz) (len hashes // c) →
  (∀ i, 0 ≤ i < n → cached_in p gids (hash_at hashes c i)) →
  (n < Z.min (max_length // bsz) (len hashes // c) → ¬ cached_in p gids (hash_at hashes c n)) →
  let last := Z.min (n * c + c - 1) (Z.min (max_length // u) (len hashes)) in
  (raw = n * c ∧ (∀ j, n * c ≤ j < last → ¬ cached_in p gids (hashes !!! Z.to_nat j)) ∨
   n * c < raw ≤ last ∧ cached_in p gids (hashes !!! Z.to_nat (raw - 1)) ∧
     (∀ j, raw - 1 < j < last → ¬ cached_in p gids (hashes !!! Z.to_nat j))) →
  fine_usable raw ∧ ∀ m, fine_usable m → m ≤ raw.
Proof.
  intros Hn Hin Hout last Hraw. assert (0 < bsz) as Hb by nia.
  pose proof (Z.mul_div_le max_length bsz Hb). pose proof (Z.mul_div_le (len hashes) c ltac:(lia)).
  pose proof (Z.mul_div_le max_length u unit_pos).
  assert (raw // c = n) as Hdiv by (symmetry; apply (Z.div_unique_pos raw c n (raw - n * c)); lia).
  assert (0 ≤ n * c ≤ len hashes) by nia. assert (n * c * u ≤ max_length) by nia.
  split.
  - split; [lia| | |].
    + destruct Hraw as [[-> _]|(Hr & _)]; [done|]. assert (raw ≤ max_length // u) by lia. nia.
    + intros i Hi. apply Hin. lia.
    + intros Hmod. destruct Hraw as [[-> _]|(_ & Hc & _)]; [|done]. by rewrite Z.mod_mul in Hmod by lia.
  - intros m [Hm1 Hm2 Hm3 Hm4]. pose proof (Z.div_mod m c ltac:(lia)) as Hdm. pose proof (Z.mod_pos_bound m c ltac:(lia)).
    assert (m // c ≤ n) as Hmn.
    { destruct (decide (m // c ≤ n)) as [|Hgt]; [done|]. exfalso. apply Hout; [|apply Hm3; lia].
      assert (n + 1 ≤ max_length // bsz) by (apply Z.div_le_lower_bound; nia).
      assert (n + 1 ≤ len hashes // c) by (apply Z.div_le_lower_bound; nia). lia. }
    destruct (decide (m ≤ raw)) as [|Hgt]; [done|]. exfalso. assert (m // c = n) as Hmeq by nia.
    assert (m ≤ last) as Hlast by (unfold last; pose proof (Z.div_le_lower_bound max_length u m ltac:(lia) ltac:(lia)); nia).
    assert (cached_in p gids (hashes !!! Z.to_nat (m - 1))) as Hc by (apply Hm4; lia).
    destruct Hraw as [[-> Hno]|(_ & _ & Hno)]; eapply Hno; [|exact Hc| |exact Hc]; lia.
Qed.

Lemma append_found n m cs bs : 0 ≤ n → n * c < m ≤ n * c + c - 1 → Forall2 (run_of p (hash_at hashes c) 0 n) gids cs →
  Forall2 (λ g b, holds_key p b (hashes !!! Z.to_nat (m - 1) ++ be_bytes 4 g)) gids bs →
  Forall2 (found m) gids (append_each cs bs).
Proof.
  intros Hn Hm. clear gids_ok gids_ne. unfold append_each. revert cs bs.
  induction gids as [|g gs IH]; intros cs bs Hcs Hbs; inversion Hcs; inversion Hbs; subst; simpl; constructor.
  - by eapply found_tail.
  - by apply IH.
Qed.

Lemma fine_lookup_spec drop :
  ∃ blocks hit n,
    find_longest_cache_hit_full (HashList hashes) max_length gids p bsz drop u = Ok (blocks, hit) ∧
    fine_usable n ∧ (∀ m, fine_usable m → m ≤ n) ∧
    hit = (if drop : bool then Z.max 0 (n - 1) else n) * u ∧ Forall2 (covers hit) gids blocks.
Proof.
  assert (0 < bsz) as Hb by nia. assert (bsz mod u = 0) as Hmod by (apply Z.mod_mul; lia). assert (bsz // u = c) as Hsc by (apply Z.div_mul; lia).
  unfold find_longest_cache_hit_full, resolve_block_hashes. rewrite (decide_False (P := bsz = u)) by nia.
  rewrite bool_decide_eq_true_2 by (split; [nia|done]). cbn [andb mbind res_bind full_view].
  unfold new_BlockHashListWithBlockSize. rewrite (decide_True (P := bsz mod u = 0)) by done. cbn [mbind res_bind]. rewrite Hsc.
  pose proof (Z.div_pos max_length bsz max_ok Hb) as Hm0. rewrite (decide_False (P := max_length // bsz < 0)) by lia. cbn [mbind res_bind].
  change (hashes_len _) with (len hashes // c). pose proof (Z.div_pos (len hashes) c (len_nonneg _) ltac:(lia)).
  destruct (full_run_spec p gids p_wf gids_ok gids_ne (HashView (mkBlockHashList hashes c)) (hash_at hashes c) 0
    (Z.min (max_length // bsz) (len hashes // c)) (replicate (length gids) []))
    as (n & cs & -> & Hn & Hin & Hout & Hruns%runs_nil_inv).
  { intros i Hi. apply hash_at_get; lia. }
  { lia. }
  { apply length_replicate. }
  cbn [mbind res_bind]. rewrite (first_len_run _ _ gids_ne _ _ _ _ Hruns ltac:(lia)), Z.sub_0_r. cbn [extend_into_partial mbind res_bind].
  rewrite Hsc. set (last := Z.min _ (Z.min _ _)).
  assert (∃ m cs', partial_tail_hit p gids hashes u (range_down (last - 1) (n * c - 1)) cs (n * bsz) = Ok (cs', m * u) ∧
    fine_usable m ∧ (∀ k, fine_usable k → k ≤ m) ∧ Forall2 (found m) gids cs') as (m & cs' & -> & Hm & Hlong & Hf).
  { destruct (partial_tail_spec (n * c) last cs (n * bsz)) as [(i & bs & Hrun & Hi & Hca & Hbs & Hno)|[Hrun Hno]]; [nia|lia| |].
    - exists (i + 1), (append_each cs bs). split; [done|]. apply and_assoc. split.
      + apply (fine_longest n); [done..|]. right. rewrite Z.add_simpl_r. split; [lia|]. split; [done|]. intros j Hj. apply Hno. lia.
      + apply (append_found n); [lia|lia|done|]. by rewrite Z.add_simpl_r.
    - exists (n * c), cs. split; [rewrite Hrun; do 2 f_equal; lia|]. apply and_assoc. split.
      + apply (fine_longest n); [done..|]. left. split; [done|]. intros j Hj. apply Hno. lia.
      + eapply Forall2_impl; [exact Hruns|]. intros g new Hr. apply found_full; [lia|done]. }
  cbn [mbind res_bind]. pose proof (fu_bounds _ Hm) as Hmb. rewrite Z.min_l by nia.
  set (h := if decide (drop = true ∧ m * u > 0) then m * u - u else m * u).
  assert (h = (if drop then Z.max 0 (m - 1) else m) * u) as Hh.
  { unfold h. destruct drop; [|by rewrite decide_False by naive_solver]. destruct (decide (m = 0)) as [->|Hne].
    - rewrite decide_False by lia. lia.
    - rewrite decide_True by (split; [done|nia]). rewrite Z.max_r by lia. lia. }
  rewrite Hh, Z.mod_mul, Z.sub_0_r by lia. eexists _, _, m. split; [done|]. split; [done|]. split; [done|]. split; [done|].
  unfold trim_each. apply Forall2_fmap_r. eapply Forall2_impl; [exact Hf|]. intros g new. apply found_trim. destruct drop; nia.
Qed.
End fine.

(** C31: The full-attention lookup is exact, in both modes, and never raises.  With hits aligned to
    a multiple of the block size, it returns an aligned length [hit] of at most [max_length] tokens
    with exactly the blocks of that prefix, each cached under its chained hash for its group; and
    any other aligned prefix whose blocks (and, when an EAGLE drafter needs its last block
    recomputed, the one after them) are all cached is not longer.  With hits aligned to the hash
    block size, smaller than a block, the hit is the longest prefix whose full blocks are cached
    and whose partial tail block is cached under the hash of exactly this prefix, less one hash
    block for EAGLE; each returned block is cached under the hash of a prefix that ends in it and
    covers the part of the hit in it. *)
Theorem full_attention_hit_longest p gids hashes c max_length drop align :
  cache_wf p → Forall (λ g, 0 ≤ g < 2 ^ 32) gids → gids ≠ [] →
  0 < hash_block_size p → 0 < c → 0 < align → 0 ≤ max_length →
  let bsz := c * hash_block_size p in
  let eagle := if drop : bool then 1 else 0 in
  let lookup := find_longest_cache_hit_full (HashList hashes) max_length gids p bsz drop align in
  (align mod bsz = 0 →
   ∃ blocks hit, lookup = Ok (blocks, hit) ∧
     hit mod align = 0 ∧ 0 ≤ hit ≤ max_length ∧
     Forall2 (run_of p (hash_at hashes c) 0 (hit // bsz)) gids blocks ∧
     ∀ n, n mod align = 0 → 0 ≤ n → n // bsz + eagle ≤ len hashes // c →
       n + eagle * bsz ≤ max_length →
       (∀ i, 0 ≤ i < n // bsz + eagle → cached_in p gids (hash_at hashes c i)) → n ≤ hit) ∧
  (align = hash_block_size p → 1 < c →
   ∃ blocks hit n, lookup = Ok (blocks, hit) ∧
     fine_usable p gids hashes c max_length n ∧ (∀ m, fine_usable p gids hashes c max_length m → m ≤ n) ∧
     hit = Z.max 0 (n - eagle) * align ∧ Forall2 (covers p hashes c hit) gids blocks).
Proof.
  intros Hwf Hg Hne Hh Hc Ha Hmax bsz eagle lookup. split.
  - intros Hal. destruct (full_lookup_spec p gids hashes c max_length drop align)
      as (blocks & hit & Hrun & Hmod & Hle & _ & HF & Hlong); [done..|]. by exists blocks, hit.
  - intros -> Hc1. destruct (fine_lookup_spec p gids Hwf Hg Hne hashes c max_length Hh Hc1 Hmax drop)
      as (blocks & hit & n & Hrun & Hn & Hlong & Hhit & HF). exists blocks, hit, n. split_and!; try done.
    rewrite Hhit. unfold eagle. destruct drop; [done|]. rewrite Z.sub_0_r, Z.max_r; [done|apply Hn].
Qed.

(** ** Sliding-window lookups *)

Section swa.
Variables (p : BlockPool) (gids : list Z).
Hypothesis p_wf : cache_wf p.
Hypothesis gids_ok : Forall (λ g, 0 ≤ g < 2 ^ 32) gids.
Hypothesis gids_ne : gids ≠ [].
Variables (hs : BlockHashList) (hv : Z → bytes) (bsz align : Z) (drop : bool) (need N : Z).
Hypothesis hs_get : ∀ i, 0 ≤ i < N → hashes_get hs i = Ok (hv i).
Abbreviation eagle := (if drop then 1 else 0).

(** The hit ends on an aligned boundary once the EAGLE block is dropped. *)
Definition aligned_end (n : Z) : Prop := bsz = align ∨ ((n - eagle) * bsz) mod align = 0.

(** A list that has blocks for the positions [a, n) and null blocks or more hits elsewhere. *)
Record window_of (L a n : Z) (g : Z) (c : list nat) : Prop := {
  wo_len : len c = L;
  wo_run j : a ≤ j < n → ∃ b, c !! Z.to_nat j = Some b ∧ holds_key p b (hv j ++ be_bytes 4 g);
  wo_all j b : c !! j = Some b → b = null_block ∨ holds_key p b (hv (Z.of_nat j) ++ be_bytes 4 g)
}.
Lemma window_of_take L a n k g c :
  window_of L a n g c → 0 ≤ k ≤ L → 0 ≤ a → window_of k a (Z.min n k) g (take (Z.to_nat k) c).
Proof.
  intros [Hl Hr Ha] Hk Ha0. split.
  - unfold len in *. rewrite length_take. lia.
  - intros j Hj. rewrite lookup_take_lt by lia. apply Hr. lia.
  - intros j b Hj. apply Ha. apply lookup_take_Some in Hj. tauto.
Qed.

Lemma window_of_insert L a n g c b :
  window_of L (a + 1) n g c → 0 ≤ a < L → holds_key p b (hv a ++ be_bytes 4 g) →
  window_of L a n g (<[Z.to_nat a := b]> c).
Proof.
  intros [Hl Hr Ha] Hk Hb. unfold len in *. split.
  - unfold len. by rewrite length_insert.
  - intros j Hj. destruct (decide (j = a)) as [->|].
    + rewrite list_lookup_insert_eq by lia. eauto.
    + rewrite list_lookup_insert_ne by lia. apply Hr. lia.
  - intros j b' Hj. apply list_lookup_insert_Some in Hj as [(<- & <- & _)|[_ Hj]]; [|by apply Ha].
    right. by rewrite Z2Nat.id by lia.
Qed.

Lemma windows_insert L a n cs bs :
  0 ≤ a < L → Forall2 (λ g b, holds_key p b (hv a ++ be_bytes 4 g)) gids bs →
  Forall2 (window_of L (a + 1) n) gids cs →
  Forall2 (window_of L a n) gids (zip_with (λ c b, <[Z.to_nat a := b]> c) cs bs).
Proof.
  intros Ha Hbs. clear gids_ok gids_ne. revert cs.
  induction Hbs as [|g b gs bs Hb Hbs IH]; intros cs HF; inversion HF; subst; simpl; [constructor|].
  constructor; [by apply window_of_insert|by apply IH].
Qed.

(** A prefix of [n] blocks is usable before the EAGLE block is dropped: it ends on a boundary
    and the blocks that the window of its last ones covers are cached. *)
Definition usable (n : Z) : Prop :=
  0 ≤ n ≤ N ∧ aligned_end n ∧ ∀ j, Z.max 0 (n - need) ≤ j < n → cached_in p gids (hv j).

(** What the scan returns: a run that ends at [n]. *)
Definition scanned (n r : Z) (found : bool) (cs : list (list nat)) : Prop :=
  0 ≤ r ≤ n ∧ n ≤ N ∧ (r = 0 ∨ aligned_end n) ∧
  if found then need ≤ r ∧ 0 < r ∧ Forall2 (window_of n (n - r) n) gids cs
  else n = r ∧ r < need ∧ Forall2 (window_of N 0 r) gids cs.

Lemma swa_scan_spec k r cs :
  1 ≤ need → 0 ≤ k → 0 ≤ r → k + r ≤ N → r = 0 ∨ (aligned_end (k + r) ∧ r < need) →
  Forall2 (window_of N k (k + r)) gids cs → (∀ n, usable n → n ≤ k + r) →
  ∃ n r' found cs',
    swa_scan p gids hs bsz align drop need (range_down (k - 1) (-1)) cs r = Ok (cs', r', found) ∧
    scanned n r' found cs' ∧ ∀ m, usable m → m ≤ n.
Proof.
  intros Hneed Hk. remember (Z.to_nat k) as d eqn:Hd. revert k r cs Hk Hd.
  induction d as [|d IH]; intros k r cs Hk Hd Hr HN Hst Hwin Hmax.
  { assert (k = 0) as -> by lia. rewrite range_down_nil by lia. exists r, r, false, cs.
    split; [done|]. split; [|done]. split; [lia|]. split; [lia|]. split; [destruct Hst as [|[? _]]; auto|].
    split; [done|]. split; [lia|done]. }
  rewrite range_down_cons by lia. cbn [swa_scan]. set (i := k - 1) in *.
  rewrite hs_get by lia. cbn [mbind res_bind].
  destruct (cached_for_spec p gids p_wf gids_ok gids_ne (hv i)) as ([bs|] & -> & Hc); cbn [mbind res_bind].
  2:{ apply IH; [lia|lia|lia|lia|by left|..].
      - eapply Forall2_impl; [exact Hwin|]. intros g c [Hl Hrun Hall]. split; [done|lia|done].
      - intros n (Hn & Hal & Hca). destruct (decide (n ≤ i + 0)); [done|]. exfalso. apply Hc, Hca.
        specialize (Hmax n (conj Hn (conj Hal Hca))). lia. }
  destruct Hc as [Hbs Hca]. case_decide as Hskip.
  { destruct Hskip as (-> & Hne & Hmod). apply IH; [lia|lia|lia|lia|by left|..].
    - eapply Forall2_impl; [exact Hwin|]. intros g c [Hl Hrun Hall]. split; [done|lia|done].
    - intros n Hn. pose proof (Hmax n Hn). destruct (decide (n = k)) as [->|]; [|lia]. exfalso.
      destruct Hn as (_ & [|Hal] & _); [done|]. apply Hmod. rewrite <-Hal. f_equal.
      unfold i. destruct drop; lia. }
  assert (aligned_end (k + r)) as Hend.
  { destruct Hst as [-> |[? _]]; [|done]. unfold aligned_end.
    destruct (decide (bsz = align)); [by left|right].
    destruct (decide (((k + 0 - eagle) * bsz) mod align = 0)) as [|Hne]; [done|]. exfalso.
    apply Hskip. split; [done|]. split; [done|]. intros Hz. apply Hne. etrans; [|exact Hz].
    do 2 f_equal. unfold i. destruct drop; lia. }
  assert (Forall2 (window_of N i (k + r)) gids
    (zip_with (λ c b, <[Z.to_nat i := b]> c) cs bs)) as Hwin'.
  { apply windows_insert; [lia|done|]. by replace (i + 1) with k by lia. }
  case_decide as Hfound.
  - exists (k + r), (r + 1), true. eexists. split; [done|]. split; [|done].
    split; [lia|]. split; [lia|]. split; [by right|]. split; [lia|]. split; [lia|].
    replace (i + (r + 1)) with (k + r) by lia. replace (k + r - (r + 1)) with i by lia.
    unfold trim_each. apply Forall2_fmap_r. eapply Forall2_impl; [exact Hwin'|].
    intros g c Hw. apply (window_of_take _ _ _ (k + r)) in Hw; [|lia..].
    by rewrite Z.min_id in Hw.
  - replace (k + r) with (i + (r + 1)) in * by lia.
    apply IH; [lia|lia|lia|lia| |done|done]. right. split; [done|lia].
Qed.

Lemma first_len_windows L a n cs : Forall2 (window_of L a n) gids cs → first_len cs = Ok L.
Proof.
  intros HF. eapply first_len_all; [exact gids_ne|]. eapply Forall2_impl; [exact HF|].
  by intros g c [].
Qed.

Lemma windows_pop L a n cs :
  Forall2 (window_of L a n) gids cs → 1 ≤ L → 0 ≤ a →
  Forall2 (window_of (L - 1) a (Z.min n (L - 1))) gids (pop_each cs).
Proof.
  intros HF HL Ha. unfold pop_each. apply Forall2_fmap_r. eapply Forall2_impl; [exact HF|].
  intros g c Hw. pose proof (wo_len _ _ _ _ _ Hw) as Hl. unfold len in Hl.
  change (window_of (L - 1) a (Z.min n (L - 1)) g (take (length c - 1) c)).
  replace (length c - 1)%nat with (Z.to_nat (L - 1)) by lia. apply (window_of_take L); [done|lia|done].
Qed.

Lemma pop_unaligned_spec fuel L a n cs :
  Forall2 (window_of L a n) gids cs → 0 ≤ L < Z.of_nat fuel → 0 ≤ a →
  ∃ L' cs', pop_unaligned fuel bsz align cs = Ok cs' ∧ 0 ≤ L' ≤ L ∧
    (bsz = align ∨ (L' * bsz) mod align = 0) ∧
    (∀ m, 0 ≤ m ≤ L → bsz = align ∨ (m * bsz) mod align = 0 → m ≤ L') ∧
    Forall2 (window_of L' a (Z.min n L')) gids cs'.
Proof.
  revert L n cs. induction fuel as [|fuel IH]; intros L n cs HF HL Ha; [lia|].
  cbn [pop_unaligned]. rewrite (first_len_windows _ _ _ _ HF). cbn [mbind res_bind].
  case_decide as Hd.
  - assert (1 ≤ L) as HL1.
    { destruct (decide (L = 0)) as [->|]; [|lia]. destruct Hd as [_ []].
      destruct (decide (align = 0)) as [->|]; [by rewrite Z.mod_0_r|]. by apply Z.mod_0_l. }
    destruct (IH (L - 1) (Z.min n (L - 1)) (pop_each cs)) as (L' & cs' & Hrun & HL' & Hal & Hmost & HF');
      [by apply windows_pop|lia|done|].
    exists L', cs'. split; [done|]. split; [lia|]. split; [done|]. split.
    { intros m Hm Hma. apply Hmost; [|done]. destruct (decide (m = L)) as [->|]; [tauto|lia]. }
    by replace (Z.min n L') with (Z.min (Z.min n (L - 1)) L') by lia.
  - exists L, cs. split; [done|]. split; [lia|]. split.
    + destruct (decide (bsz = align)); [by left|right].
      destruct (decide ((L * bsz) mod align = 0)); [done|tauto].
    + split; [lia|]. eapply Forall2_impl; [exact HF|]. intros g c [Hl Hr Hall]. split; [done| |done].
      intros j Hj. apply Hr. lia.
Qed.

(** Two neighbours are aligned only when every block is. *)
Lemma no_two_aligned n : 0 < bsz → 0 < align → align mod bsz = 0 → bsz ≠ align →
  ((n - 1) * bsz) mod align = 0 → (n * bsz) mod align = 0 → False.
Proof.
  intros Hb Ha Hmul Hne H1 H2. apply Z.mod_divide in H1 as [q1 H1]; [|lia]. apply Z.mod_divide in H2 as [q2 H2]; [|lia].
  apply Z.mod_divide in Hmul as [A HA]; [|lia]. assert (1 ≤ A) by nia.
  assert (A * (q2 - q1) = 1) as Hone by (apply (Z.mul_reg_r _ _ bsz); nia).
  apply Z.eq_mul_1_nonneg in Hone as [-> _]; lia.
Qed.

(** After the scan: a run that was too short is cut back to an aligned length. *)
Lemma swa_trim n r found cs fuel :
  scanned n r found cs → 1 ≤ need → N < Z.of_nat fuel → 0 < bsz → 0 < align → align mod bsz = 0 →
  ∃ L a cs1,
    (if found then Ok cs else pop_unaligned fuel bsz align (trim_each r cs)) = Ok cs1 ∧
    0 ≤ L ≤ n ∧ 0 ≤ a ≤ Z.max 0 (L - need) ∧
    (if drop then ((L - 1) * bsz) mod align = 0 ∨ a = 0
     else L = n ∧ (L * bsz) mod align = 0) ∧
    (drop = true → L = n ∧ (n = 0 ∨ bsz = align ∨ ((n - 1) * bsz) mod align = 0 ∧ need ≤ n) ∨
       L = n - 1 ∧ bsz ≠ align ∧ 0 < n < need ∧ ((n - 1) * bsz) mod align = 0) ∧
    Forall2 (window_of L a L) gids cs1.
Proof.
  intros (Hr & HN & Hend & Hcase) Hneed Hfuel Hb Ha Hmul. destruct found.
  - destruct Hcase as (Hneed' & Hr0 & HF). exists n, (n - r), cs. split; [done|].
    split; [lia|]. split; [lia|]. split; [|split; [|done]].
    2:{ intros Hd. left. split; [done|]. right. unfold aligned_end in Hend. rewrite Hd in Hend.
        destruct Hend as [|[|]]; [lia|by left|right]. split; [done|lia]. }
    unfold aligned_end in Hend.
    destruct Hend as [|[Heq|Hend]]; [lia| |].
    + rewrite Heq. destruct drop; [left|split; [done|]]; apply Z.mod_mul; lia.
    + destruct drop; [by left|]. by rewrite Z.sub_0_r in Hend.
  - destruct Hcase as (-> & Hshort & HF).
    destruct (pop_unaligned_spec fuel r 0 r (trim_each r cs)) as (L & cs1 & Hrun & HL & Hal & Hmost & HF1);
      [|lia|done|].
    { unfold trim_each. apply Forall2_fmap_r. eapply Forall2_impl; [exact HF|]. intros g c Hw.
      apply (window_of_take _ _ _ r) in Hw; [|lia..]. by rewrite Z.min_id in Hw. }
    rewrite Z.min_r in HF1 by lia. exists L, 0, cs1. split; [done|]. split; [lia|]. split; [lia|].
    unfold aligned_end in Hend. split; [|split; [|done]]; destruct drop; [by right| |intros _|done].
    2:{ destruct (decide (bsz = align)) as [He|He].
        { left. pose proof (Hmost r ltac:(lia) (or_introl He)). split; [lia|]. auto. }
        destruct Hend as [-> |[|Hend]]; [left; split; [lia|auto]|done|].
        destruct (decide (r = 0)) as [->|Hr0]; [left; split; [lia|auto]|]. right.
        split; [|split_and!; [done|lia|lia|done]]. pose proof (Hmost (r - 1) ltac:(lia) (or_intror Hend)).
        assert (L ≠ r); [|lia]. intros ->. destruct Hal as [|Hal]; [done|]. by apply (no_two_aligned r). }
    assert (L = r) as ->.
    { apply Z.le_antisymm; [lia|]. apply Hmost; [lia|]. destruct Hend as [->|[|Hend]]; [right; by apply Z.mod_0_l; lia|by left|right].
      by rewrite Z.sub_0_r in Hend. }
    split; [done|]. destruct Hal as [->|]; [apply Z.mod_mul; lia|done].
Qed.

(** The EAGLE block is dropped and the hit re-aligned: hits remain for the last
    [need - eagle] blocks. *)
Lemma swa_drop L a cs1 fuel :
  0 ≤ L < Z.of_nat fuel → 0 ≤ a ≤ Z.max 0 (L - need) → 1 ≤ need → 0 < bsz → 0 < align →
  (if drop then ((L - 1) * bsz) mod align = 0 ∨ a = 0 else (L * bsz) mod align = 0) →
  Forall2 (window_of L a L) gids cs1 →
  ∃ n' a' cs2,
    (if decide (drop = true ∧ L ≠ 0) then pop_unaligned fuel bsz align (pop_each cs1)
     else Ok cs1) = Ok cs2 ∧
    0 ≤ n' ≤ L ∧ (n' = 0 ∨ n' + eagle ≤ L) ∧ 0 ≤ a' ≤ Z.max 0 (n' - (need - eagle)) ∧
    (n' * bsz) mod align = 0 ∧ (drop = false → n' = L) ∧
    (drop = true → ∀ m, 0 ≤ m ≤ L - 1 → bsz = align ∨ (m * bsz) mod align = 0 → m ≤ n') ∧
    Forall2 (window_of n' a' n') gids cs2.
Proof.
  intros HL Ha Hneed Hb Hal Hcase HF. case_decide as Hd.
  - destruct Hd as [-> HL0].
    destruct (pop_unaligned_spec fuel (L - 1) a (L - 1) (pop_each cs1))
      as (n' & cs2 & Hrun & Hn' & Hmod & Hmost & HF2); [|lia|lia|].
    { apply windows_pop in HF; [|lia..]. by rewrite Z.min_r in HF by lia. }
    exists n', a, cs2. split; [done|]. split; [lia|]. split; [lia|]. rewrite Z.min_r in HF2 by lia. split.
    { destruct Hcase as [Hc| ->]; [|lia]. pose proof (Hmost (L - 1) ltac:(lia) (or_intror Hc)). lia. }
    split; [|by split_and!]. destruct Hmod as [->|]; [apply Z.mod_mul; lia|done].
  - exists L, a, cs1. split; [done|]. split; [lia|]. split; [destruct drop; lia|].
    split; [destruct drop; lia|]. split; [|split_and!; [done|intros Hd'; destruct (decide (L = 0)); [lia|tauto]|done]].
    destruct drop; [|done]. destruct (decide (L = 0)) as [->|]; [|tauto]. by apply Z.mod_0_l; lia.
Qed.

Lemma null_windows :
  0 ≤ N → Forall2 (window_of N N N) gids (replicate (length gids) (replicate (Z.to_nat N) null_block)).
Proof.
  intros HN. clear gids_ok gids_ne. induction gids as [|g gs IH]; simpl; [constructor|]. constructor; [|done]. split.
  - unfold len. rewrite length_replicate. lia.
  - lia.
  - intros j b [-> _]%lookup_replicate. by left.
Qed.

(** The length of the hit when the longest run ends after [R] blocks: the EAGLE block goes, and
    when the run is shorter than the window, one more unit of the alignment. *)
Definition after_drop (R : Z) : Z :=
  if decide (drop = true ∧ bsz ≠ align ∧ R < need) then Z.max 0 ((R - 1) * bsz - align)
  else Z.max 0 (R - eagle) * bsz.

Lemma drop_exact n L n' : 0 < bsz → 0 < align → align mod bsz = 0 → 0 ≤ n' ≤ L → n' = 0 ∨ n' + 1 ≤ L → 0 ≤ L ≤ n →
  (n' * bsz) mod align = 0 →
  (L = n ∧ (n = 0 ∨ bsz = align ∨ ((n - 1) * bsz) mod align = 0 ∧ need ≤ n) ∨
   L = n - 1 ∧ bsz ≠ align ∧ 0 < n < need ∧ ((n - 1) * bsz) mod align = 0) →
  (∀ m, 0 ≤ m ≤ L - 1 → bsz = align ∨ (m * bsz) mod align = 0 → m ≤ n') →
  n' * bsz = if decide (true = true ∧ bsz ≠ align ∧ n < need) then Z.max 0 ((n - 1) * bsz - align) else Z.max 0 (n - 1) * bsz.
Proof.
  intros Hb Ha Hmul Hn' Hd HL Hmod Hcase Hmost. destruct Hcase as [(-> & Hal)|(-> & Hne & Hn & Hal)].
  - destruct (decide (n = 0)) as [->|Hn0].
    { assert (n' = 0) as -> by lia. case_decide; [rewrite Z.max_l by nia|]; lia. }
    assert (bsz = align ∨ ((n - 1) * bsz) mod align = 0) as Hal' by (destruct Hal as [|[|[? _]]]; auto; lia).
    pose proof (Hmost (n - 1) ltac:(lia) Hal'). assert (n' = n - 1) as -> by lia.
    rewrite decide_False; [by rewrite Z.max_r by lia|]. intros (_ & Hne & Hlt). destruct Hal as [|[|[_ ?]]]; [done|done|lia].
  - rewrite decide_True by (split_and!; [done|done|lia]).
    destruct (decide (n = 1)) as [->|Hn1]; [assert (n' = 0) as -> by lia; lia|].
    apply Z.mod_divide in Hal as [q Hq]; [|lia]. apply Z.mod_divide in Hmod as [q' Hq']; [|lia].
    apply Z.mod_divide in Hmul as [A HA]; [|lia].
    assert (n - 1 = q * A) as HnA by nia. assert (n' = q' * A) as HnA' by nia. assert (1 ≤ A) by nia. assert (1 ≤ q) by nia.
    assert (q' < q) by nia. assert ((q - 1) * A ≤ n'); [|nia]. apply Hmost; [nia|]. right.
    apply Z.mod_divide; [lia|]. exists (q - 1). nia.
Qed.

Lemma scanned_usable n r found cs : 1 ≤ need → scanned n r found cs → n = 0 ∨ usable n.
Proof.
  intros Hneed (Hr & HN & Hend & Hcase).
  assert (∀ L a n' (j : Z), Forall2 (window_of L a n') gids cs → a ≤ j < n' → cached_in p gids (hv j)) as Hca.
  { intros L a n' j HF Hj g [i Hi]%list_elem_of_lookup. destruct (Forall2_lookup_l _ _ _ _ _ HF Hi) as (c & _ & Hw).
    destruct (wo_run _ _ _ _ _ Hw j Hj) as (b & _ & Hb). eauto. }
  destruct found.
  - destruct Hcase as (Hnr & Hr0 & HF). right. destruct Hend as [|Hend]; [lia|]. split; [lia|]. split; [done|].
    intros j Hj. eapply Hca; [exact HF|lia].
  - destruct Hcase as (-> & _ & HF). destruct Hend as [|Hend]; [by left|]. right. split; [lia|]. split; [done|].
    intros j Hj. eapply Hca; [exact HF|lia].
Qed.

(** The lookup after the hashes are resolved: scan, trim and drop. *)
Lemma swa_lookup_spec :
  1 ≤ need → 0 ≤ N → 0 < bsz → 0 < align → align mod bsz = 0 →
  let fuel := S (Z.to_nat N) in
  ∃ n a cs,
    ('(cs, r, found) ← swa_scan p gids hs bsz align drop need (range_down (N - 1) (-1))
       (replicate (length gids) (replicate (Z.to_nat N) null_block)) 0;
     cs ← (if found : bool then Ok cs else pop_unaligned fuel bsz align (trim_each r cs));
     n ← first_len cs;
     cs ← (if decide (drop = true ∧ n ≠ 0) then pop_unaligned fuel bsz align (pop_each cs) else Ok cs);
     n ← first_len cs;
     Ok (cs, n * bsz)) = Ok (cs, n * bsz) ∧
    0 ≤ n ≤ N ∧ (n = 0 ∨ n + eagle ≤ N) ∧ 0 ≤ a ≤ Z.max 0 (n - (need - eagle)) ∧
    (n * bsz) mod align = 0 ∧ Forall2 (window_of n a n) gids cs ∧
    ∃ R, (R = 0 ∨ usable R) ∧ (∀ m, usable m → m ≤ R) ∧ n * bsz = after_drop R.
Proof.
  intros Hneed HN Hb Ha Hmul fuel.
  destruct (swa_scan_spec N 0 (replicate (length gids) (replicate (Z.to_nat N) null_block)))
    as (n & r & found & cs & Hrun & Hscan & Hlong);
    [done|done|done|lia|by left|rewrite Z.add_0_r; by apply null_windows|intros m (? & _); lia|].
  rewrite Hrun. cbn [mbind res_bind].
  destruct (swa_trim n r found cs fuel) as (L & a & cs1 & Htrim & HL & Ha1 & Hcase & HcaseL & HF1);
    [done..|lia|done|done|done|].
  rewrite Htrim. cbn [mbind res_bind]. rewrite (first_len_windows _ _ _ _ HF1). cbn [mbind res_bind].
  assert (n ≤ N) as HnN by (by destruct Hscan as (_ & ? & _)).
  destruct (swa_drop L a cs1 fuel) as (n' & a' & cs2 & Hdrop & Hn' & He' & Ha' & Hmod & Hnd & Hmost & HF2);
    [lia|done|done|done|done|destruct drop; tauto|done|].
  rewrite Hdrop. cbn [mbind res_bind]. rewrite (first_len_windows _ _ _ _ HF2). cbn [mbind res_bind].
  exists n', a', cs2. split; [done|]. split; [lia|]. split; [lia|]. split; [done|]. split; [done|].
  split; [done|]. exists n. split; [by eapply scanned_usable|]. split; [done|].
  unfold after_drop. destruct drop; [apply drop_exact with L; auto|].
  rewrite decide_False by naive_solver. rewrite Hnd by done. destruct Hcase as [-> _]. rewrite Z.sub_0_r, Z.max_r by lia. done.
Qed.
End swa.

(** Blocks and tokens of a window: the last [cdiv (w - 1) bsz] blocks of a prefix are those
    with a token less than [w] positions before its end. *)
Lemma window_token bsz w n t :
  0 < bsz → 0 ≤ t → n * bsz - w < t < n * bsz →
  Z.max 0 (n - cdiv (w - 1) bsz) ≤ t // bsz < n.
Proof.
  intros Hb Ht Hw. pose proof (cdiv_spec (w - 1) bsz Hb). pose proof (Z.div_mod t bsz ltac:(lia)).
  pose proof (Z.mod_pos_bound t bsz Hb). pose proof (Z.div_pos t bsz Ht Hb). nia.
Qed.

Lemma window_block bsz w n j :
  0 < bsz → Z.max 0 (n - cdiv (w - 1) bsz) ≤ j < n →
  ∃ t, 0 ≤ t ∧ n * bsz - w < t < n * bsz ∧ t // bsz = j.
Proof.
  intros Hb Hj. pose proof (cdiv_spec (w - 1) bsz Hb). exists (j * bsz + (bsz - 1)).
  assert ((j * bsz + (bsz - 1)) // bsz = j) as ->.
  { rewrite Z.div_add_l by lia. rewrite Z.div_small; lia. }
  split; [nia|]. split; [nia|done].
Qed.

(** A prefix of [m] blocks that a layer with window [w] can use: it ends on an aligned boundary
    and every token in the window of the next position is cached; with an EAGLE drafter also the
    block after the prefix, which fits into [max_length] too. *)
Record window_usable (p : BlockPool) (gids : list Z) (hashes : list bytes) (c max_length w : Z) (drop : bool)
    (align m : Z) : Prop := {
  wu_nonneg : 0 ≤ m;
  wu_fits : (m + if drop then 1 else 0) * (c * hash_block_size p) ≤ max_length;
  wu_aligned : (m * (c * hash_block_size p)) mod align = 0;
  wu_window t : 0 ≤ t → m * (c * hash_block_size p) - w < t < m * (c * hash_block_size p) →
    cached_in p gids (hash_at hashes c (t // (c * hash_block_size p)));
  wu_eagle : drop = true → cached_in p gids (hash_at hashes c m)
}.

(** The tokens of the hit when the longest usable prefix has [k] blocks. *)
Definition window_hit (bsz align w : Z) (drop : bool) (k : Z) : Z :=
  if decide (drop = true ∧ bsz ≠ align ∧ k * bsz < w - 1) then Z.max 0 (k * bsz - align) else k * bsz.

Section window.
Variables (p : BlockPool) (gids : list Z) (hashes : list bytes) (c max_length w : Z) (drop : bool) (align : Z).
Abbreviation bsz := (c * hash_block_size p).
Abbreviation N := (max_length // bsz).
Abbreviation need := (_contiguous_blocks_for_hit w bsz drop).
Hypothesis (bsz_pos : 0 < bsz) (align_pos : 0 < align) (window_pos : 1 < w).

Lemma need_eq : need = cdiv (w - 1) bsz + if drop then 1 else 0.
Proof. unfold _contiguous_blocks_for_hit. destruct drop; lia. Qed.

Lemma usable_window m : window_usable p gids hashes c max_length w drop align m →
  usable p gids (hash_at hashes c) bsz align drop need N (m + if drop then 1 else 0).
Proof.
  intros [H0 Hfit Hal Hwin He]. split; [split; [destruct drop; lia|]|split].
  - apply Z.div_le_lower_bound; lia.
  - right. replace (m + _ - _) with m by lia. done.
  - rewrite need_eq. intros j Hj. destruct (decide (j = m)) as [->|Hne]; [apply He; destruct drop; [done|lia]|].
    destruct (window_block bsz w m j bsz_pos) as (t & Ht & Htw & <-); [destruct drop; lia|by apply Hwin].
Qed.

Lemma window_usable_of R : 0 ≤ max_length → (if drop then 1 else 0) ≤ R →
  usable p gids (hash_at hashes c) bsz align drop need N R →
  window_usable p gids hashes c max_length w drop align (R - if drop then 1 else 0).
Proof.
  intros Hmax HR ([_ HRN] & Hal & Hca). rewrite need_eq in Hca. pose proof (Z.mul_div_le max_length bsz bsz_pos) as HN.
  split.
  - lia.
  - replace (R - _ + _) with R by lia. nia.
  - destruct Hal as [-> |Hal]; [by apply Z.mod_mul; lia|done].
  - intros t Ht Htw. apply Hca. pose proof (window_token bsz w _ t bsz_pos Ht Htw). destruct drop; lia.
  - intros Hd. rewrite Hd in *. apply Hca. pose proof (cdiv_spec (w - 1) bsz bsz_pos). assert (0 < cdiv (w - 1) bsz) by nia. lia.
Qed.
End window.

(** The sliding-window lookup, when hits are aligned to a multiple of the block size. *)
Lemma swa_lookup_exact p gids hashes c max_length w drop align :
  cache_wf p → Forall (λ g, 0 ≤ g < 2 ^ 32) gids → gids ≠ [] →
  0 < hash_block_size p → 0 < c → 0 < align → 1 < w →
  let bsz := c * hash_block_size p in
  align mod bsz = 0 → 0 ≤ max_length → max_length // bsz ≤ len hashes // c →
  ∃ blocks n,
    find_longest_cache_hit_swa (HashList hashes) max_length gids p w bsz drop align 1 1 =
      Ok (blocks, n * bsz) ∧
    0 ≤ n ∧ n * bsz ≤ max_length ∧ (n = 0 ∨ (n + if drop then 1 else 0) * bsz ≤ max_length) ∧
    (n * bsz) mod align = 0 ∧
    Forall2 (λ g blocks, len blocks = n ∧
      (∀ t, 0 ≤ t → n * bsz - w < t < n * bsz → ∃ b, blocks !! Z.to_nat (t // bsz) = Some b ∧
         holds_key p b (hash_at hashes c (t // bsz) ++ be_bytes 4 g)) ∧
      ∀ j b, blocks !! j = Some b →
        b = null_block ∨ holds_key p b (hash_at hashes c (Z.of_nat j) ++ be_bytes 4 g)) gids blocks ∧
    ∃ k, (k = 0 ∨ window_usable p gids hashes c max_length w drop align k) ∧
      (∀ m, window_usable p gids hashes c max_length w drop align m → m ≤ k) ∧
      n * bsz = window_hit bsz align w drop k.
Proof.
  intros Hwf Hg Hne Hh Hc Ha Hw bsz Hal Hmax Hlen. assert (0 < bsz) as Hb by (unfold bsz; nia).
  set (N := max_length // bsz) in *. set (need := _contiguous_blocks_for_hit w bsz drop).
  assert (0 ≤ N) as HN by (by apply Z.div_pos).
  pose proof (cdiv_spec (w - 1) bsz Hb) as Hcd.
  assert (need = cdiv (w - 1) bsz + if drop then 1 else 0) as Hneed by apply need_eq.
  assert (1 ≤ need) as Hneed1 by (destruct drop; nia).
  unfold find_longest_cache_hit_swa. rewrite !(decide_False (P := 1 ≠ 1)) by (by intros []).
  rewrite decide_False by (rewrite Hal; by intros []). fold N.
  destruct (resolve_coarse hashes (hash_block_size p) c false align) as (HS & Hres & _ & Hget);
    [done|done|by left|]. fold bsz in Hres. rewrite Hres. cbn [mbind res_bind].
  destruct (swa_lookup_spec p gids Hwf Hg Hne HS (hash_at hashes c) bsz align drop need N)
    as (n & a & cs & Hrun & Hn & Hdr & Ha1 & Hmod & HF & R & HR & Hlong & Hhit); [intros; apply Hget; lia|done..|].
  pose proof (Z.mul_div_le max_length bsz Hb) as HNmax. fold N in HNmax.
  exists cs, n. split; [exact Hrun|]. split; [lia|]. split; [nia|]. split; [nia|]. split; [done|]. split.
  - eapply Forall2_impl; [exact HF|]. intros g blocks [Hl Hrunw Hall]. split; [done|].
    split; [|done]. intros t Ht Htw. apply Hrunw.
    pose proof (window_token bsz w n t Hb Ht Htw). lia.
  - exists (Z.max 0 (R - if drop then 1 else 0)). split_and!.
    + destruct (decide ((if drop then 1 else 0) < R)) as [Hlt|]; [|left; lia]. right. rewrite Z.max_r by lia.
      destruct HR as [-> |HR]; [destruct drop; lia|]. by apply window_usable_of; [..|lia|].
    + intros m Hm. pose proof (Hlong _ (usable_window _ _ _ _ _ _ _ _ Hb m Hm)). lia.
    + rewrite Hhit. unfold after_drop, window_hit.
      assert (drop = true → Z.max 0 (R - 1) * bsz < w - 1 ↔ R < need) as Hshort.
      { intros Hd. rewrite Hneed, Hd. destruct (decide (R ≤ 0)); [rewrite Z.max_l by lia; nia|]. rewrite Z.max_r by lia. nia. }
      destruct drop; [|by rewrite !decide_False by naive_solver]. specialize (Hshort eq_refl).
      destruct (decide (bsz = align)) as [->|Hne']; [by rewrite !decide_False by naive_solver|].
      destruct (decide (R < need)); [|by rewrite !decide_False by naive_solver].
      rewrite !decide_True by naive_solver. destruct (decide (R ≤ 0)); [rewrite !(Z.max_l 0) by nia|rewrite (Z.max_r 0 (R - 1)) by lia]; done.
Qed.

(** C32: The sliding-window lookup is exact.  With hits aligned to a multiple of the block size it
    never raises and returns [n] blocks per group, of at most [max_length] tokens, ending on an
    aligned boundary: every token within the window of the next position lies in a block cached
    under its chained hash, and all other blocks are null or cached.  Let [k] be the length of the
    longest usable prefix: aligned, with its whole window cached in every group, and when an EAGLE
    drafter needs its last block recomputed, with the next block cached too.  Then the hit is this
    prefix; except that with EAGLE and an alignment coarser than a block, a prefix shorter than
    the window loses one more unit of the alignment. *)
Theorem sliding_window_hit_longest p gids hashes c max_length w drop align :
  cache_wf p → Forall (λ g, 0 ≤ g < 2 ^ 32) gids → gids ≠ [] →
  0 < hash_block_size p → 0 < c → 0 < align → 1 < w →
  let bsz := c * hash_block_size p in
  align mod bsz = 0 → 0 ≤ max_length → max_length // bsz ≤ len hashes // c →
  ∃ blocks n,
    find_longest_cache_hit_swa (HashList hashes) max_length gids p w bsz drop align 1 1 =
      Ok (blocks, n * bsz) ∧
    0 ≤ n ∧ n * bsz ≤ max_length ∧ (n * bsz) mod align = 0 ∧
    Forall2 (λ g blocks, len blocks = n ∧
      (∀ t, 0 ≤ t → n * bsz - w < t < n * bsz → ∃ b, blocks !! Z.to_nat (t // bsz) = Some b ∧
         holds_key p b (hash_at hashes c (t // bsz) ++ be_bytes 4 g)) ∧
      ∀ j b, blocks !! j = Some b →
        b = null_block ∨ holds_key p b (hash_at hashes c (Z.of_nat j) ++ be_bytes 4 g)) gids blocks ∧
    ∃ k, (k = 0 ∨ window_usable p gids hashes c max_length w drop align k) ∧
      (∀ m, window_usable p gids hashes c max_length w drop align m → m ≤ k) ∧
      n * bsz = window_hit bsz align w drop k.
Proof.
  intros Hwf Hg Hne Hh Hc Ha Hw bsz Hal Hmax Hlen.
  destruct (swa_lookup_exact p gids hashes c max_length w drop align)
    as (blocks & n & Hrun & Hn & Hle & _ & Hmod & HF & Hlong); [done..|].
  by exists blocks, n.
Qed.

(** The blocks of the chunk of [max_length] start at a chunk boundary. *)
Lemma chunk_start bsz chunk max_length start :
  0 < bsz → 0 < chunk → chunk mod bsz = 0 → 0 ≤ max_length → start = max_length // chunk * chunk →
  0 ≤ start // bsz ∧ start // bsz ≤ max_length // bsz ∧
  (∀ j, start // bsz ≤ j ≤ max_length // bsz → (j * bsz) // chunk = max_length // chunk) ∧
  ∀ j, j < start // bsz → (j * bsz) // chunk < max_length // chunk.
Proof.
  intros Hb Hc Hmod Hmax Hst. set (K := max_length // chunk) in *.
  assert (0 ≤ K) as HK by (by apply Z.div_pos).
  pose proof (Z.mul_div_le max_length chunk Hc) as HKm. fold K in HKm.
  assert (start // bsz * bsz = start) as Hex.
  { pose proof (Z.div_exact start bsz ltac:(lia)) as [_ Hx]. rewrite Z.mul_comm. symmetry. apply Hx.
    apply Z.mod_divide; [lia|]. rewrite Hst. apply Z.divide_mul_r. by apply Z.mod_divide; [lia|]. }
  assert (0 ≤ start) by nia.
  split_and!.
  - by apply Z.div_pos.
  - apply Z.div_le_mono; lia.
  - intros j [Hj1 Hj2]. pose proof (Z.mul_div_le max_length bsz Hb).
    apply Z.le_antisymm; [apply Z.div_le_mono; nia|]. apply Z.div_le_lower_bound; nia.
  - intros j Hj. apply Z.div_lt_upper_bound; nia.
Qed.

(** The chunked-local lookup. *)
Lemma chunked_lookup_spec p gids hashes c max_length chunk :
  cache_wf p → Forall (λ g, 0 ≤ g < 2 ^ 32) gids → gids ≠ [] →
  0 < hash_block_size p → 0 < c → 0 < chunk →
  let bsz := c * hash_block_size p in
  chunk mod bsz = 0 → 0 ≤ max_length → max_length // bsz ≤ len hashes // c →
  ∃ blocks n,
    find_longest_cache_hit_chunked (HashList hashes) max_length gids p chunk bsz false bsz 1 1 =
      Ok (blocks, n * bsz) ∧
    0 ≤ n ∧ n * bsz ≤ max_length ∧
    Forall2 (λ g blocks, len blocks = n ∧ ∀ j, 0 ≤ j < n → ∃ b, blocks !! Z.to_nat j = Some b ∧
      (if decide ((j * bsz) // chunk = (n * bsz) // chunk)
       then holds_key p b (hash_at hashes c j ++ be_bytes 4 g)
       else b = null_block ∨ holds_key p b (hash_at hashes c j ++ be_bytes 4 g))) gids blocks ∧
    ∀ m, 0 ≤ m → m * bsz ≤ max_length →
      (∀ j, 0 ≤ j < m → (j * bsz) // chunk = (m * bsz) // chunk →
         cached_in p gids (hash_at hashes c j)) → m ≤ n.
Proof.
  intros Hwf Hg Hne Hh Hc Hch bsz Hmod Hmax Hlen. assert (0 < bsz) as Hb by (unfold bsz; nia).
  unfold find_longest_cache_hit_chunked. rewrite !(decide_False (P := 1 ≠ 1)) by (by intros []).
  rewrite decide_False by (by intros []).
  destruct (resolve_coarse hashes (hash_block_size p) c false bsz) as (HS & Hres & _ & Hget);
    [done|done|by left|]. fold bsz in Hres. rewrite Hres. cbn [mbind res_bind].
  set (start := if decide (max_length > 0) then max_length // chunk * chunk else 0).
  assert (start = max_length // chunk * chunk) as Hstart.
  { unfold start. case_decide; [done|]. replace max_length with 0 by lia. by rewrite Z.div_0_l by lia. }
  clearbody start. set (S := start // bsz). set (N := max_length // bsz) in *.
  destruct (chunk_start bsz chunk max_length start) as (HS1 & HSN & Hsame & Hprev); [done..|].
  fold S N in HS1, HSN, Hsame, Hprev.
  destruct (full_run_spec p gids Hwf Hg Hne HS (hash_at hashes c) S N
    (replicate (length gids) (replicate (Z.to_nat S) null_block)))
    as (n & cs & -> & Hn & Hin & Hout & Hruns); [intros; apply Hget; lia|lia|apply length_replicate|].
  cbn [mbind res_bind]. apply runs_replicate_inv in Hruns.
  assert (∀ g c', (∃ new, c' = replicate (Z.to_nat S) null_block ++ new ∧
    run_of p (hash_at hashes c) S n g new) → len c' = n) as Hlens.
  { intros g c' (new & -> & Hnew). rewrite len_app.
    assert (len new = n - S) as -> by (eapply run_of_len; [done|lia]).
    unfold len. rewrite length_replicate. lia. }
  assert (first_len cs = Ok n) as ->.
  { eapply first_len_all; [exact Hne|]. eapply Forall2_impl; [exact Hruns|exact Hlens]. }
  cbn [mbind res_bind]. pose proof (Z.mul_div_le max_length bsz Hb) as HNmax. fold N in HNmax.
  exists cs, n. split; [done|]. split; [lia|]. split; [nia|]. split.
  - eapply Forall2_impl; [exact Hruns|]. intros g blocks Hnew. split; [exact (Hlens _ _ Hnew)|].
    destruct Hnew as (new & -> & Hnew).
    intros j Hj. destruct (decide (j < S)) as [Hlt|Hge].
    + exists null_block. rewrite lookup_app_l by (rewrite length_replicate; lia).
      split; [apply lookup_replicate; split; [done|lia]|].
      rewrite decide_False; [by left|]. pose proof (Hprev j ltac:(lia)). specialize (Hsame n). lia.
    + assert (S ≤ j < n) as Hjn by lia.
      eapply run_of_lookup in Hnew as (b & Hb1 & Hb2); [|exact Hjn]. exists b.
      rewrite lookup_app_r by (rewrite length_replicate; lia). rewrite length_replicate.
      replace (Z.to_nat j - Z.to_nat S)%nat with (Z.to_nat (j - S)) by lia.
      split; [done|]. case_decide; auto.
  - intros m Hm Hmm Hmc. destruct (decide (m ≤ n)); [done|]. exfalso.
    assert (m ≤ N) by (unfold N; apply Z.div_le_lower_bound; lia).
    apply Hout; [lia|]. apply Hmc; [lia|]. rewrite !Hsame by lia. done.
Qed.

(** The chunked-local lookup is exact, when the chunk size is a multiple of the block size
    (as the attention backend asserts): it returns [n] blocks per group, of at most [max_length]
    tokens, such that every token in the chunk of the next position is in a block cached under
    its chained hash, all others being null; and no longer prefix of at most [max_length] tokens
    has this property. *)
Lemma chunked_local_hit_longest p gids hashes c max_length chunk :
  cache_wf p → Forall (λ g, 0 ≤ g < 2 ^ 32) gids → gids ≠ [] →
  0 < hash_block_size p → 0 < c → 0 < chunk →
  let bsz := c * hash_block_size p in
  chunk mod bsz = 0 → 0 ≤ max_length → max_length // bsz ≤ len hashes // c →
  ∃ blocks n,
    find_longest_cache_hit_chunked (HashList hashes) max_length gids p chunk bsz false bsz 1 1 =
      Ok (blocks, n * bsz) ∧
    0 ≤ n ∧ n * bsz ≤ max_length ∧
    Forall2 (λ g blocks, len blocks = n ∧ ∀ j, 0 ≤ j < n → ∃ b, blocks !! Z.to_nat j = Some b ∧
      (if decide ((j * bsz) // chunk = (n * bsz) // chunk)
       then holds_key p b (hash_at hashes c j ++ be_bytes 4 g)
       else b = null_block ∨ holds_key p b (hash_at hashes c j ++ be_bytes 4 g))) gids blocks ∧
    ∀ m, 0 ≤ m → m * bsz ≤ max_length →
      (∀ j, 0 ≤ j < m → (j * bsz) // chunk = (m * bsz) // chunk →
         cached_in p gids (hash_at hashes c j)) → m ≤ n.
Proof. apply chunked_lookup_spec. Qed.

(** ** The lookups at a concrete pool *)

(** Blocks 1 and 2 are cached as the first two blocks of a prompt. *)
Definition fill_cache : P unit :=
  _ ← _insert_block_hash ([1] ++ be_bytes 4 0) 1 (Some 4);
  _insert_block_hash ([2] ++ be_bytes 4 0) 2 (Some 8).
Definition hit_pool : BlockPool :=
  match fill_cache demo_pool with Ok (_, p) => p | Raise _ => demo_pool end.
Definition hit_hashes : list bytes := [[1]; [2]; [3]].

Lemma hit_pool_wf : cache_wf hit_pool ∧ alloc_wf hit_pool [1; 2; 3]%nat.
Proof.
  destruct demo_pool_wf as [Ha Hc].
  assert (wp fill_cache (λ _ p, cache_wf p ∧ alloc_wf p [1; 2; 3]%nat) demo_pool) as Hwp.
  { apply wp_bind. eapply wp_mono; [apply insert_block_hash_spec; [done|vm_compute; done]|].
    intros [] p1 [Ha1 Hc1 _ _ _ _]. pose proof (cfg_num _ _ (as_config _ _ Ha1)) as Hn.
    eapply wp_mono; [apply insert_block_hash_spec; [done|rewrite Hn; vm_compute; done]|].
    intros [] p2 [Ha2 Hc2 _ _ _ _]. split; [done|].
    eapply alloc_wf_same; [exact Ha2|]. by eapply alloc_wf_same. }
  apply wp_run in Hwp as (u & p & Hrun & Hp). unfold hit_pool. by rewrite Hrun.
Qed.

Lemma one_group : Forall (λ g : Z, 0 ≤ g < 2 ^ 32) [0] ∧ [0] ≠ [].
Proof. split; [apply Forall_singleton; lia|done]. Qed.

(** A block of two hash blocks, of which only the first half is cached. *)
Lemma full_attention_hit_longest_witness :
  find_longest_cache_hit_full (HashList hit_hashes) 12 [0] hit_pool 4 false 4 =
    Ok ([[1; 2]%nat], 8) ∧
  find_longest_cache_hit_full (HashList [[1]; [9]; [2]]) 12 [0] hit_pool 8 false 4 = Ok ([[1]%nat], 4) ∧
  (∃ blocks hit,
    find_longest_cache_hit_full (HashList hit_hashes) 12 [0] hit_pool (1 * 4) true 4 =
      Ok (blocks, hit) ∧ hit mod 4 = 0 ∧ 0 ≤ hit ≤ 12) ∧
  ∃ blocks n,
    find_longest_cache_hit_full (HashList [[1]; [9]; [2]]) 12 [0] hit_pool (2 * 4) false 4 =
      Ok (blocks, n * 4) ∧ fine_usable hit_pool [0] [[1]; [9]; [2]] 2 12 n.
Proof.
  split; [vm_compute; reflexivity|]. split; [vm_compute; reflexivity|]. destruct hit_pool_wf as [Hwf _], one_group as [Hg Hne].
  destruct (full_attention_hit_longest hit_pool [0] hit_hashes 1 12 true 4 Hwf Hg Hne)
    as [(blocks & hit & Hrun & Hmod & Hle & _) _]; [vm_compute; done..|].
  split; [exists blocks, hit; split; [exact Hrun|]; split; [exact Hmod|exact Hle]|].
  destruct (full_attention_hit_longest hit_pool [0] [[1]; [9]; [2]] 2 12 false 4 Hwf Hg Hne)
    as [_ Hfine]; [vm_compute; done..|].
  destruct Hfine as (blocks' & hit' & n & Hrun' & Hn & _ & Hhit & _); [vm_compute; done|lia|].
  exists blocks', n. split; [|exact Hn]. refine (eq_trans Hrun' _). rewrite Hhit. do 2 f_equal. destruct Hn as [Hn _ _ _]. lia.
Defined.

(** All three blocks cached. *)
Definition full_pool : BlockPool :=
  match _insert_block_hash ([3] ++ be_bytes 4 0) 3 (Some 12) hit_pool with Ok (_, p) => p | Raise _ => hit_pool end.

(** With EAGLE, hits aligned to two blocks and a window of five, the first three blocks give a hit
    of two to full attention and none to the window. *)
Lemma sliding_window_hit_longest_witness :
  find_longest_cache_hit_swa (HashList hit_hashes) 12 [0] hit_pool 5 4 false 4 1 1 =
    Ok ([[0; 2]%nat], 8) ∧
  find_longest_cache_hit_full (HashList hit_hashes) 12 [0] full_pool 4 true 8 = Ok ([[1; 2]%nat], 8) ∧
  find_longest_cache_hit_swa (HashList hit_hashes) 12 [0] full_pool 20 4 true 8 1 1 = Ok ([[]], 0) ∧
  ∃ blocks n k,
    find_longest_cache_hit_swa (HashList hit_hashes) 12 [0] hit_pool 5 (1 * 4) true 4 1 1 =
      Ok (blocks, n * (1 * 4)) ∧ 0 ≤ n ∧ n * (1 * 4) ≤ 12 ∧ n * (1 * 4) = window_hit (1 * 4) 4 5 true k.
Proof.
  do 3 (split; [vm_compute; reflexivity|]). destruct hit_pool_wf as [Hwf _], one_group as [Hg Hne].
  destruct (sliding_window_hit_longest hit_pool [0] hit_hashes 1 12 5 true 4 Hwf Hg Hne)
    as (blocks & n & Hrun & Hn & Hle & _ & _ & k & _ & _ & Hhit); [vm_compute; done..|].
  exists blocks, n, k. split; [exact Hrun|]. split; [exact Hn|]. split; [exact Hle|exact Hhit].
Defined.
