(* ===== verification/Coordinator.v ===== *)
(** * Coordinating the cache groups (src/vllm/v1/core/kv_cache_coordinator.py)

    The managers of several layer types on shared block pools: how many blocks a request needs
    over all groups, the two-phase allocation for a prefix hit, and the release of blocks; the
    lookup of the longest prefix that every group of a hybrid model has cached.  Definitions
    only. *)

From S2P Require Import Prelude FreeQueue Request Hashing BlockPool SingleType CacheHit.

(** ** Cache specs and groups (src/vllm/v1/kv_cache_interface.py) *)

#[global] Instance ManagerClass_eq_dec : EqDecision ManagerClass.
Proof. solve_decision. Defined.

(** [spec_other] stands for the fields of a spec that only matter for equality. *)
Record KVCacheSpec := mkSpec {
  spec_class : ManagerClass;
  spec_block_size : Z;
  spec_other : Z
}.
#[global] Instance KVCacheSpec_eq_dec : EqDecision KVCacheSpec.
Proof. solve_decision. Defined.

Record KVCacheGroupSpec := mkGroup {
  kv_cache_spec : KVCacheSpec;
  is_eagle_group : bool;
  pool_id : nat
}.

Definition participates_in_prefix_caching (spec : KVCacheSpec) : bool :=
  match spec_class spec with KpoolTailManager | CircularBufferManager => false | _ => true end.

(** [isinstance(spec, FullAttentionSpec)] *)
Definition is_full_attention (spec : KVCacheSpec) : bool :=
  match spec_class spec with FullAttentionManager | RSWAManager _ => true | _ => false end.

(** [isinstance(spec, SlidingWindowSpec)]; the spec of a kpool tail is a subclass. *)
Definition is_sliding_window (spec : KVCacheSpec) : bool :=
  match spec_class spec with SlidingWindowManager _ _ | KpoolTailManager => true | _ => false end.

(** [max_admission_blocks_per_request] of the specs that have it *)
Definition max_admission_blocks_per_request (spec : KVCacheSpec)
    (max_in_flight_tokens max_model_len : Z) : option Z :=
  match spec_class spec with
  | SlidingWindowManager w extra =>
      let num_tokens := Z.min (w - 1 + extra + max_in_flight_tokens) max_model_len in
      Some (cdiv num_tokens (spec_block_size spec) + 1)
  | ChunkedLocalAttentionManager c =>
      let num_tokens := Z.min (c + max_in_flight_tokens) max_model_len in
      Some (cdiv num_tokens (spec_block_size spec))
  | KpoolTailManager => Some 1
  | _ => None
  end.

Definition dcp_world_size_for_kv_cache_spec (spec : KVCacheSpec) (dcp_world_size : Z) : Z :=
  if decide (dcp_world_size ≤ 1) then 1
  else if is_full_attention spec then dcp_world_size else 1.

(** ** The coordinator *)

(** Groups that share one spec, looked up together. *)
Record SpecGroup := mkSpecGroup {
  sg_spec : KVCacheSpec;
  sg_group_ids : list nat;
  sg_use_eagle : bool;
  sg_pool_id : nat
}.
#[global] Instance SpecGroup_eq_dec : EqDecision SpecGroup.
Proof. solve_decision. Defined.

Inductive CoordinatorClass :=
  | KVCacheCoordinatorNoPrefixCache
  | UnitaryKVCacheCoordinator
  | HybridKVCacheCoordinator (enable_partial_hash_hits : bool) (attention_groups : list SpecGroup).

Record KVCacheCoordinator := mkCoordinator {
  coordinator_class : CoordinatorClass;
  kv_cache_groups : list KVCacheGroupSpec;
  coord_dcp_world_size : Z;
  scheduler_block_size : Z;
  coord_hash_block_size : Z;
  num_reprefillable_tokens : Z;
  block_pools : list BlockPool;
  eagle_group_ids : list nat;
  single_type_managers : list SingleTypeKVCacheManager;
  retention_interval : option Z
}.
#[global] Instance Coordinator_eta : Eta KVCacheCoordinator := λ c,
  mkCoordinator (coordinator_class c) (kv_cache_groups c) (coord_dcp_world_size c)
    (scheduler_block_size c) (coord_hash_block_size c) (num_reprefillable_tokens c)
    (block_pools c) (eagle_group_ids c) (single_type_managers c) (retention_interval c).

Abbreviation C := (M KVCacheCoordinator).

(** The [i]-th manager, with the current state of its pool. *)
Definition manager_at (c : KVCacheCoordinator) (i : nat) : option SingleTypeKVCacheManager :=
  m ← single_type_managers c !! i;
  g ← kv_cache_groups c !! i;
  p ← block_pools c !! pool_id g;
  Some (m <| block_pool := p |>).

(** A method of the [i]-th manager; the pool it changes is shared. *)
Definition on_manager {A} (i : nat) (op : T A) : C A := λ c,
  match manager_at c i, kv_cache_groups c !! i with
  | Some m, Some g =>
      match op m with
      | Ok (a, m') =>
          Ok (a, c <| single_type_managers ::= <[i := m']> |>
                   <| block_pools ::= <[pool_id g := block_pool m']> |>)
      | Raise e => Raise e
      end
  | _, _ => Raise IndexError
  end.

(** [for i, manager in enumerate(self.single_type_managers)] *)
Definition for_managers (body : nat → T unit) : C unit :=
  n ← gets (λ c, length (single_type_managers c));
  for_ (seq 0 n) (λ i, on_manager i (body i)).

Definition is_cross (m : SingleTypeKVCacheManager) : bool :=
  match manager_class m with CrossAttentionManager => true | _ => false end.

(** [max(values, default=0)] *)
Definition max_default_0 (xs : list Z) : Z :=
  match xs with [] => 0 | x :: xs => foldl Z.max x xs end.

(** [KVCacheCoordinator.get_num_blocks_to_allocate] *)
Definition coord_get_num_blocks_to_allocate (c : KVCacheCoordinator) (request_id : string)
    (num_tokens : Z) (new_computed_blocks : list (list nat))
    (num_encoder_tokens total_computed_tokens num_local_computed_tokens num_tokens_main_model : Z)
    (apply_admission_cap : bool) : res Z :=
  nums ← mapM (M := res) (λ i : nat,
    match manager_at c i with
    | None => Raise IndexError
    | Some m =>
        if is_cross m then
          get_num_blocks_to_allocate m request_id num_encoder_tokens [] 0 0 num_encoder_tokens
            apply_admission_cap
        else
          hits ← index new_computed_blocks (Z.of_nat i);
          get_num_blocks_to_allocate m request_id num_tokens hits total_computed_tokens
            num_local_computed_tokens num_tokens_main_model apply_admission_cap
    end) (seq 0 (length (single_type_managers c)));
  let pool_ids := pool_id <$> kv_cache_groups c in
  let blocks_per_pool := (λ k : nat,
    sumZ (zip_with (λ n k', if decide (k' = k) then n else 0) nums pool_ids))
    <$> seq 0 (length (block_pools c)) in
  Ok (max_default_0 blocks_per_pool).

Section set_order.
Context `{SetIter}.
(** [envs.VLLM_KV_EVENTS_USE_INT_BLOCK_HASHES] *)
Variable use_int : bool.
Variable sha256 : list (list Z) → bytes.

(** [KVCacheCoordinator.allocate_new_computed_blocks] *)
Definition allocate_new_computed_blocks (request_id : string)
    (new_computed_blocks : list (list nat))
    (num_local_computed_tokens num_external_computed_tokens : Z) : C unit :=
  managers ← gets single_type_managers;
  if existsb (λ m, bool_decide (is_Some (num_cached_block m !! request_id))) managers then
    assert_ (forallb (λ blocks, bool_decide (len blocks = 0)) new_computed_blocks)
  else
    _ ← for_managers (λ i,
      hits ← lift_res (index new_computed_blocks (Z.of_nat i));
      add_local_computed_blocks request_id hits num_local_computed_tokens
        num_external_computed_tokens);
    if decide (num_external_computed_tokens > 0) then
      for_managers (λ _,
        allocate_external_computed_blocks use_int request_id num_local_computed_tokens
          num_external_computed_tokens)
    else mret tt.

(** [KVCacheCoordinator.allocate_new_blocks] *)
Definition coord_allocate_new_blocks (request_id : string)
    (num_tokens num_tokens_main_model num_encoder_tokens : Z) : C (list (list nat)) :=
  n ← gets (λ c, length (single_type_managers c));
  for_acc (seq 0 n) [] (λ acc i,
    new ← on_manager i (
      m ← gets (λ m, m);
      allocate_new_blocks use_int request_id (if is_cross m then num_encoder_tokens else num_tokens)
        num_tokens_main_model);
    mret (acc ++ [new])).

(** [HybridKVCacheCoordinator._align_cacheable] *)
Definition _align_cacheable (enable_partial_hash_hits : bool) (scheduler_block_size num_tokens : Z) : Z :=
  if enable_partial_hash_hits then num_tokens
  else num_tokens // scheduler_block_size * scheduler_block_size.

(** How many tokens the manager [m] may cache: [cache_blocks] of the base class, and of the
    hybrid coordinator. *)
Definition num_tokens_to_cache (c : KVCacheCoordinator) (m : SingleTypeKVCacheManager)
    (num_computed_tokens : Z) : Z :=
  let num_finalized_computed_tokens :=
    Z.max 0 (num_computed_tokens - num_reprefillable_tokens c) in
  match coordinator_class c with
  | HybridKVCacheCoordinator partial _ =>
      let align := _align_cacheable partial (scheduler_block_size c) in
      let cached_num_computed_tokens := align num_computed_tokens in
      if decide (use_eagle m = true ∧ cached_num_computed_tokens > 0) then
        Z.min num_finalized_computed_tokens
          (align num_finalized_computed_tokens + block_size m)
      else cached_num_computed_tokens
  | _ => num_finalized_computed_tokens
  end.

(** [cache_blocks]; the request comes back with its memo. *)
Definition coord_cache_blocks (request : Request) (num_computed_tokens : Z) : C Request :=
  c0 ← gets (λ c, c);
  for_acc (seq 0 (length (single_type_managers c0))) request (λ request i,
    on_manager i (
      m ← gets (λ m, m);
      cache_blocks use_int sha256 request (num_tokens_to_cache c0 m num_computed_tokens)
        (retention_interval c0))).
End set_order.

(** [KVCacheCoordinator.free] *)
Definition coord_free (request_id : string) : C unit := for_managers (λ _, free request_id).

(** [KVCacheCoordinator.pop_blocks_for_free]: the blocks, each with its pool. *)
Definition coord_pop_blocks_for_free (request_id : string) : C (list (nat * nat)) :=
  c0 ← gets (λ c, c);
  for_acc (seq 0 (length (single_type_managers c0))) [] (λ blocks i,
    bs ← on_manager i (pop_blocks_for_free request_id);
    mret (blocks ++ ((λ b, (default 0%nat (pool_id <$> kv_cache_groups c0 !! i), b)) <$> bs))).

(** [KVCacheCoordinator.get_num_common_prefix_blocks], constant without prefix caching *)
Definition coord_get_num_common_prefix_blocks (running_request_id : string) : C (list Z) :=
  c0 ← gets (λ c, c);
  match coordinator_class c0 with
  | KVCacheCoordinatorNoPrefixCache => mret (replicate (length (single_type_managers c0)) 0)
  | _ =>
      for_acc (seq 0 (length (single_type_managers c0))) [] (λ acc i,
        n ← on_manager i (get_num_common_prefix_blocks running_request_id);
        mret (acc ++ [n]))
  end.

(** [KVCacheCoordinator.remove_skipped_blocks] *)
Definition coord_remove_skipped_blocks (request_id : string) (processed_computed_tokens : Z)
    (num_prompt_tokens : option Z) : C unit :=
  for_managers (λ _, remove_skipped_blocks request_id processed_computed_tokens num_prompt_tokens).

(** [KVCacheCoordinator.get_blocks] *)
Definition coord_get_blocks (c : KVCacheCoordinator) (request_id : string) : list (list nat) :=
  (λ m, default [] (req_to_blocks m !! request_id)) <$> single_type_managers c.

(** ** Lookups *)

(** [manager_cls.find_longest_cache_hit]; the two ring buffers have no hits, and
    cross-attention raises. *)
Definition find_longest_cache_hit_cls (spec : KVCacheSpec) (block_hashes : BlockHashList)
    (max_length : Z) (kv_cache_group_ids : list nat) (p : BlockPool) (drop_eagle_block : bool)
    (alignment_tokens dcp_world_size pcp_world_size : Z) : res (list (list nat) * Z) :=
  let ids := Z.of_nat <$> kv_cache_group_ids in
  let bsz := spec_block_size spec in
  match spec_class spec with
  | FullAttentionManager | RSWAManager _ =>
      find_longest_cache_hit_full block_hashes max_length ids p
        (if decide (dcp_world_size > 1) then bsz * dcp_world_size else bsz)
        drop_eagle_block alignment_tokens
  | SlidingWindowManager w _ =>
      find_longest_cache_hit_swa block_hashes max_length ids p w bsz drop_eagle_block
        alignment_tokens dcp_world_size pcp_world_size
  | ChunkedLocalAttentionManager chunk =>
      find_longest_cache_hit_chunked block_hashes max_length ids p chunk bsz drop_eagle_block
        alignment_tokens dcp_world_size pcp_world_size
  | KpoolTailManager | CircularBufferManager => Ok (replicate (length kv_cache_group_ids) [], 0)
  | CrossAttentionManager => Raise NotImplementedError
  end.

(** [manager_cls.supports_fine_grained_hash_lookup] *)
Definition supports_fine_grained_hash_lookup (cls : ManagerClass) : bool :=
  match cls with FullAttentionManager | RSWAManager _ => true | _ => false end.

(** The local variables of the search of the hybrid coordinator. *)
Record HitSearch := mkHitSearch {
  curr_hit_length : Z;
  hit_blocks_by_group : list (option (list nat));
  hit_length_by_group : list Z;
  eagle_verified : list nat;
  longest_hit_length : Z
}.
#[global] Instance HitSearch_eta : Eta HitSearch := λ s,
  mkHitSearch (curr_hit_length s) (hit_blocks_by_group s) (hit_length_by_group s)
    (eagle_verified s) (longest_hit_length s).

Section lookup.
Variable c : KVCacheCoordinator.
Variable enable_partial_hash_hits : bool.
Variable block_hashes : BlockHashList.
Variable max_cache_hit_length : Z.

(** [_cache_hit_alignment_tokens] *)
Definition _cache_hit_alignment_tokens : Z :=
  if enable_partial_hash_hits then coord_hash_block_size c else scheduler_block_size c.

(** The lookup of one group at the candidate length. *)
Definition group_hit (g : SpecGroup) (group_block_size curr_hit_length : Z) (drop_eagle_block : bool) :
    res (list (list nat) * Z) :=
  let eagle_margin :=
    if enable_partial_hash_hits && supports_fine_grained_hash_lookup (spec_class (sg_spec g)) &&
       bool_decide (group_block_size > coord_hash_block_size c)
    then coord_hash_block_size c else group_block_size in
  let max_length :=
    if drop_eagle_block then Z.min (curr_hit_length + eagle_margin) max_cache_hit_length
    else curr_hit_length in
  match block_pools c !! sg_pool_id g with
  | None => Raise IndexError
  | Some p =>
      find_longest_cache_hit_cls (sg_spec g) block_hashes max_length (sg_group_ids g) p
        drop_eagle_block _cache_hit_alignment_tokens
        (dcp_world_size_for_kv_cache_spec (sg_spec g) (coord_dcp_world_size c)) 1
  end.

(** [for group_id, blocks in zip(group_ids, hit_blocks)] *)
Definition store_hits (group_ids : list nat) (hit_blocks : list (list nat)) (new_hit_length : Z)
    (s : HitSearch) : HitSearch :=
  foldl (λ s '(gid, blocks),
    s <| hit_blocks_by_group ::= <[gid := Some blocks]> |>
      <| hit_length_by_group ::= <[gid := new_hit_length]> |>) s (zip group_ids hit_blocks).

(** One iteration of the [for] loop over the attention groups. *)
Definition search_group (s : HitSearch) (idx_g : nat * SpecGroup) : res HitSearch :=
  let '(idx, g) := idx_g in
  first_group_id ← index (sg_group_ids g) 0;
  match single_type_managers c !! first_group_id,
        hit_blocks_by_group s !! first_group_id,
        hit_length_by_group s !! first_group_id with
  | Some m, Some cached_blocks, Some hit_length =>
      if decide (is_full_attention (sg_spec g) = true ∧ is_Some cached_blocks) then
        Ok (s <| curr_hit_length := Z.min (curr_hit_length s) hit_length |>)
      else
        let drop_eagle_block := sg_use_eagle g && bool_decide (idx ∉ eagle_verified s) in
        '(hit_blocks, new_hit_length) ← group_hit g (block_size m) (curr_hit_length s) drop_eagle_block;
        let eagle_verified' :=
          if drop_eagle_block then eagle_verified s ++ [idx]
          else if decide (new_hit_length < curr_hit_length s) then [] else eagle_verified s in
        Ok (store_hits (sg_group_ids g) hit_blocks new_hit_length
              (s <| eagle_verified := eagle_verified' |>
                 <| curr_hit_length := new_hit_length |>
                 <| longest_hit_length := Z.max (longest_hit_length s) new_hit_length |>))
  | _, _, _ => Raise IndexError
  end.

Fixpoint search_groups (s : HitSearch) (gs : list (nat * SpecGroup)) : res HitSearch :=
  match gs with
  | [] => Ok s
  | g :: gs => s' ← search_group s g; search_groups s' gs
  end.

(** The [while True] loop; the result has the final [hit_length]. *)
Fixpoint search_loop (fuel : nat) (attention_groups : list SpecGroup) (is_simple_hybrid : bool)
    (hit_length : Z) (s : HitSearch) : res (Z * HitSearch) :=
  match fuel with
  | O => Raise OutOfFuel
  | S fuel =>
      s' ← search_groups (s <| curr_hit_length := hit_length |>) (imap pair attention_groups);
      if decide (hit_length ≤ curr_hit_length s') then Ok (hit_length, s')
      else if is_simple_hybrid then Ok (curr_hit_length s', s')
      else search_loop fuel attention_groups is_simple_hybrid (curr_hit_length s') s'
  end.

(** Truncate the blocks of the full-attention groups to the final length. *)
Definition truncate_ids (num_blocks hit_length : Z) (group_ids : list nat) (s : HitSearch) : HitSearch :=
  foldl (λ s gid,
    match hit_blocks_by_group s !! gid with
    | Some (Some blks) =>
        s <| hit_blocks_by_group ::= <[gid := Some (take (Z.to_nat num_blocks) blks)]> |>
          <| hit_length_by_group ::= <[gid := hit_length]> |>
    | _ => s
    end) s group_ids.

Definition truncate_full (attention_groups : list SpecGroup) (hit_length : Z) (s : HitSearch) :
    HitSearch :=
  foldl (λ s g,
    if is_full_attention (sg_spec g) then
      let group_block_size := default 1 (
        gid ← sg_group_ids g !! 0%nat; m ← single_type_managers c !! gid; Some (block_size m)) in
      truncate_ids (cdiv hit_length group_block_size) hit_length (sg_group_ids g) s
    else s) s attention_groups.

(** [HybridKVCacheCoordinator.find_longest_cache_hit]: blocks per group, hit length, length of
    the uncached common prefix *)
Definition find_longest_cache_hit_hybrid (attention_groups : list SpecGroup) :
    res (list (list nat) * Z * Z) :=
  let num_groups := length (kv_cache_groups c) in
  let is_simple_hybrid :=
    bool_decide (length attention_groups = 2%nat) &&
    match attention_groups with g :: _ => is_full_attention (sg_spec g) | [] => false end in
  '(hit_length, s) ← search_loop (S (S (Z.to_nat max_cache_hit_length))) attention_groups
    is_simple_hybrid max_cache_hit_length
    (mkHitSearch max_cache_hit_length (replicate num_groups None) (replicate num_groups 0) [] 0);
  let s := truncate_full attention_groups hit_length s in
  Ok (default [] <$> hit_blocks_by_group s, hit_length, longest_hit_length s - hit_length).

(** What the name [manager] stands for in [find_longest_cache_hit_per_group], its
    [dcp_world_size] and [pcp_world_size]: nothing binds it, so that reading it raises. *)
Definition manager_world_sizes : res (Z * Z) := Raise NameError.

(** [HybridKVCacheCoordinator.find_longest_cache_hit_per_group]: the loop over the groups, each
    looked up on its own. *)
Fixpoint per_group_loop (gs : list SpecGroup) (hit_blocks : list (list nat)) (hit_lengths : list Z) :
    res (list (list nat) * list Z) :=
  match gs with
  | [] => Ok (hit_blocks, hit_lengths)
  | g :: gs =>
      p ← match block_pools c !! sg_pool_id g with Some p => Ok p | None => Raise IndexError end;
      '(dcp_world_size, pcp_world_size) ← manager_world_sizes;
      '(blocks, group_hit) ← find_longest_cache_hit_cls (sg_spec g) block_hashes max_cache_hit_length
        (sg_group_ids g) p (sg_use_eagle g) _cache_hit_alignment_tokens dcp_world_size pcp_world_size;
      per_group_loop gs
        (foldl (λ hits '(gid, blks), <[gid := blks]> hits) hit_blocks (zip (sg_group_ids g) blocks))
        (foldl (λ hits '(gid, _), <[gid := group_hit]> hits) hit_lengths (zip (sg_group_ids g) blocks))
  end.
Definition find_longest_cache_hit_per_group (attention_groups : list SpecGroup) :
    res (list (list nat) * list Z) :=
  let num_groups := length (kv_cache_groups c) in
  per_group_loop attention_groups (replicate num_groups []) (replicate num_groups 0).

(** [UnitaryKVCacheCoordinator.find_longest_cache_hit]; [pcp] is [pcp_world_size]. *)
Definition find_longest_cache_hit_unitary (pcp : Z) : res (list (list nat) * Z * Z) :=
  match single_type_managers c !! 0%nat, kv_cache_groups c !! 0%nat, block_pools c !! 0%nat with
  | Some m, Some g, Some p =>
      '(hit_blocks, hit_length) ← find_longest_cache_hit_cls (kv_cache_spec g) block_hashes
        max_cache_hit_length [0%nat] p (bool_decide (0%nat ∈ eagle_group_ids c)) (block_size m)
        (dcp_world_size_for_kv_cache_spec (kv_cache_spec g) (coord_dcp_world_size c)) pcp;
      Ok (hit_blocks, hit_length, 0)
  | _, _, _ => Raise IndexError
  end.
End lookup.

(** [find_longest_cache_hit] of each coordinator *)
Definition coord_find_longest_cache_hit (c : KVCacheCoordinator) (pcp : Z)
    (block_hashes : BlockHashList) (max_cache_hit_length : Z) : res (list (list nat) * Z * Z) :=
  match coordinator_class c with
  | KVCacheCoordinatorNoPrefixCache => Ok (replicate (length (single_type_managers c)) [], 0, 0)
  | UnitaryKVCacheCoordinator => find_longest_cache_hit_unitary c block_hashes max_cache_hit_length pcp
  | HybridKVCacheCoordinator partial attention_groups =>
      find_longest_cache_hit_hybrid c partial block_hashes max_cache_hit_length attention_groups
  end.

(** ** Construction *)

Record KVCacheConfig := mkKVCacheConfig {
  num_blocks : Z;
  config_groups : list KVCacheGroupSpec;
  prefix_cache_retention_interval : option Z;
  needs_kv_cache_zeroing : bool
}.

Definition num_pools (cfg : KVCacheConfig) : nat := S (max_list (pool_id <$> config_groups cfg)).

(** [n % d == 0] *)
Definition divides (d n : Z) : res bool :=
  if decide (d = 0) then Raise ZeroDivisionError else Ok (bool_decide (n mod d = 0)).

(** [assert all(...)] of such tests *)
Fixpoint assert_all (tests : list (res bool)) : res unit :=
  match tests with
  | [] => Ok tt
  | t :: tests => b ← t; if b : bool then assert_all tests else Raise AssertionError
  end.

Definition _validate_prefix_cache_retention_interval (retention_interval : option Z)
    (scheduler_block_size : Z) (groups : list KVCacheGroupSpec) : res unit :=
  match retention_interval with
  | None => Ok tt
  | Some r =>
      if existsb (λ g, is_sliding_window (kv_cache_spec g)) groups then
        if decide (r < 0) then Raise ValueError
        else
          b ← divides scheduler_block_size r;
          if b : bool then Ok tt else Raise ValueError
      else if decide (r = 0) then Ok tt else Raise ValueError
  end.

Definition get_manager_for_kv_cache_spec (spec : KVCacheSpec) (max_in_flight_tokens max_model_len : Z)
    (pool : BlockPool) (enable_caching : bool) (kv_cache_group_id dcp_world_size : Z)
    (scheduler_block_size : Z) (needs_zeroing : bool) : SingleTypeKVCacheManager :=
  new_SingleType (spec_class spec) (spec_block_size spec) scheduler_block_size pool enable_caching
    kv_cache_group_id dcp_world_size needs_zeroing
    (bool_decide (spec_class spec ≠ CircularBufferManager))
    (max_admission_blocks_per_request spec max_in_flight_tokens max_model_len).

Fixpoint res_map {A B} (f : A → res B) (xs : list A) : res (list B) :=
  match xs with
  | [] => Ok []
  | x :: xs => y ← f x; ys ← res_map f xs; Ok (y :: ys)
  end.

Section construct.
Variable cfg : KVCacheConfig.
Variables (max_model_len max_in_flight_tokens : Z) (use_eagle enable_kv_cache_events : bool).
Variables (dcp_world_size pcp_world_size scheduler_block_size hash_block_size : Z).
Variables (metrics_collector : option (list MetricsCall)) (num_prefill_lookahead : Z).

(** The indices of the groups with the EAGLE last-block drop. *)
Definition find_eagle_group_ids : list nat :=
  let flagged := (imap (λ i g, (i, g)) (config_groups cfg)) in
  let ids := (filter (λ ig, is_eagle_group ig.2 = true) flagged).*1 in
  if use_eagle && bool_decide (ids = []) then seq 0 (length (config_groups cfg)) else ids.

(** [KVCacheCoordinator.__init__] *)
Definition new_KVCacheCoordinator (cls : CoordinatorClass) (enable_caching : bool) :
    res KVCacheCoordinator :=
  _ ← assert_all (divides hash_block_size scheduler_block_size ::
    ((λ g, divides (spec_block_size (kv_cache_spec g)) scheduler_block_size) <$> config_groups cfg));
  pools ← res_map (λ pid, new_BlockPool (num_blocks cfg) enable_caching hash_block_size
    enable_kv_cache_events metrics_collector (Z.of_nat pid)) (seq 0 (num_pools cfg));
  let eagle_ids := find_eagle_group_ids in
  if enable_caching && bool_decide (eagle_ids ≠ []) &&
     bool_decide (scheduler_block_size < num_prefill_lookahead)
  then Raise ValueError
  else
    managers ← res_map (λ ig,
      match pools !! pool_id ig.2 with
      | Some pool =>
          Ok (get_manager_for_kv_cache_spec (kv_cache_spec ig.2) max_in_flight_tokens max_model_len
            pool enable_caching (Z.of_nat ig.1)
            (dcp_world_size_for_kv_cache_spec (kv_cache_spec ig.2) dcp_world_size)
            scheduler_block_size (needs_kv_cache_zeroing cfg))
      | None => Raise IndexError
      end) (imap (λ i g, (i, g)) (config_groups cfg));
    _ ← _validate_prefix_cache_retention_interval (prefix_cache_retention_interval cfg)
      scheduler_block_size (config_groups cfg);
    Ok (mkCoordinator cls (config_groups cfg) dcp_world_size scheduler_block_size hash_block_size
      (Z.max 0 (num_prefill_lookahead - 1)) pools eagle_ids managers
      (prefix_cache_retention_interval cfg)).

(** [UnitaryKVCacheCoordinator.__init__] *)
Definition new_Unitary (enable_caching : bool) : res KVCacheCoordinator :=
  c ← new_KVCacheCoordinator UnitaryKVCacheCoordinator enable_caching;
  match single_type_managers c !! 0%nat with
  | None => Raise IndexError
  | Some m =>
      if enable_caching && bool_decide (hash_block_size ≠ block_size m) then Raise AssertionError
      else if decide (length (kv_cache_groups c) ≠ 1%nat) then Raise AssertionError
      else Ok (c <| single_type_managers ::=
        alter (λ m, m <| SingleType.use_eagle := bool_decide (0%nat ∈ eagle_group_ids c) |>) 0%nat |>)
  end.

(** The search of [verify_and_split_kv_cache_groups] for a group with the same spec and pool;
    the class of the manager is a function of the spec. *)
Fixpoint join_group (i : nat) (g : KVCacheGroupSpec) (eagle : bool) (groups : list SpecGroup) :
    list SpecGroup :=
  match groups with
  | [] => [mkSpecGroup (kv_cache_spec g) [i] eagle (pool_id g)]
  | sg :: groups =>
      if decide (sg_spec sg = kv_cache_spec g ∧ sg_pool_id sg = pool_id g) then
        mkSpecGroup (sg_spec sg) (sg_group_ids sg ++ [i]) (sg_use_eagle sg || eagle) (sg_pool_id sg)
          :: groups
      else sg :: join_group i g eagle groups
  end.

Definition split_groups (c : KVCacheCoordinator) : list SpecGroup :=
  foldl (λ groups ig,
    if participates_in_prefix_caching (kv_cache_spec ig.2) then
      join_group ig.1 ig.2 (bool_decide (ig.1 ∈ eagle_group_ids c)) groups
    else groups) [] (imap (λ i g, (i, g)) (kv_cache_groups c)).

(** The sort by [not isinstance(g.spec, FullAttentionSpec)], which is stable. *)
Definition full_attention_first (groups : list SpecGroup) : list SpecGroup :=
  filter (λ g, is_full_attention (sg_spec g) = true) groups ++
  filter (λ g, is_full_attention (sg_spec g) = false) groups.

Definition set_eagle (groups : list SpecGroup) (managers : list SingleTypeKVCacheManager) :
    list SingleTypeKVCacheManager :=
  foldl (λ managers g,
    if sg_use_eagle g then
      foldl (λ managers gid, alter (λ m, m <| SingleType.use_eagle := true |>) gid managers)
        managers (sg_group_ids g)
    else managers) managers groups.

Definition verify_and_split_kv_cache_groups (partial : bool) (c : KVCacheCoordinator) :
    res KVCacheCoordinator :=
  let groups := split_groups c in
  if decide (groups = []) then Raise AssertionError
  else
    let groups := full_attention_first groups in
    Ok (c <| coordinator_class := HybridKVCacheCoordinator partial groups |>
          <| single_type_managers ::= set_eagle groups |>).

(** [HybridKVCacheCoordinator.__init__]; without state-space groups there are no fine-grained
    hits. *)
Definition new_Hybrid (enable_caching : bool) : res KVCacheCoordinator :=
  c ← new_KVCacheCoordinator (HybridKVCacheCoordinator false []) enable_caching;
  _ ← assert_all ((λ mg : SingleTypeKVCacheManager * KVCacheGroupSpec,
      divides hash_block_size (block_size mg.1)) <$>
    filter (λ mg, participates_in_prefix_caching (kv_cache_spec mg.2) = true)
      (zip (single_type_managers c) (kv_cache_groups c)));
  if decide (pcp_world_size ≠ 1) then Raise AssertionError
  else if bool_decide (dcp_world_size > 1) &&
    negb (forallb (λ g, is_full_attention (kv_cache_spec g)) (kv_cache_groups c))
  then Raise AssertionError
  else
    let partial := false in
    let c := c <| single_type_managers ::=
      fmap (λ m, m <| cache_hit_alignment_tokens := _cache_hit_alignment_tokens c partial |>) |> in
    verify_and_split_kv_cache_groups partial c.

Definition get_kv_cache_coordinator (enable_caching : bool) : res KVCacheCoordinator :=
  if negb enable_caching then new_KVCacheCoordinator KVCacheCoordinatorNoPrefixCache false
  else if decide (length (config_groups cfg) = 1%nat) then new_Unitary enable_caching
  else new_Hybrid enable_caching.
End construct.
