(* ===== verification/CoordLookup.v ===== *)
(** * The longest prefix that every cache group can use

    The fixed-point search of the hybrid coordinator, proved against an interface that states
    what the lookup of one group promises; the lookups of CacheHit.v implement it. *)

From S2P Require Import Prelude FreeQueue Request Hashing BlockPool PoolSpecs PoolTheorems.
From S2P Require Import SingleType SingleSpecs CacheHit Coordinator.

(** ** What a group promises *)

(** [find] looks up the groups of one spec.  [hit n blocks]: [blocks] are a hit of [n]
    tokens; [usable n]: everything that a prefix of [n] tokens needs is cached. *)
Class GroupLookup (find : Z → bool → res (list (list nat) * Z)) (num_groups : nat)
    (align margin max_length : Z) (full : option Z) (eagle : bool)
    (hit : Z → list (list nat) → Prop) (usable : Z → Prop) : Prop := {
  gl_find L drop : 0 ≤ L ≤ max_length → (drop = true → eagle = true) →
    ∃ blocks n, find L drop = Ok (blocks, n) ∧ length blocks = num_groups ∧
      0 ≤ n ≤ L ∧ (drop = true → n = 0 ∨ n + margin ≤ L) ∧ n mod align = 0 ∧ hit n blocks ∧
      (drop = false → ∀ m, 0 ≤ m ≤ L → m mod align = 0 → usable m → m ≤ n);
  (* hits of full attention are downward closed *)
  gl_truncate bsz n m blocks : full = Some bsz → hit n blocks → 0 ≤ m ≤ n → m mod align = 0 →
    hit m (take (Z.to_nat (cdiv m bsz)) <$> blocks)
}.

Section search.
Variable c : KVCacheCoordinator.
Variable partial : bool.
Variable hashes : BlockHashList.
Variable max_length : Z.
Hypothesis max_nonneg : 0 ≤ max_length.
Abbreviation align := (_cache_hit_alignment_tokens c partial).

(** The lookup of a group, and the margin it is given when it drops an EAGLE block. *)
Definition find_group (g : SpecGroup) (L : Z) (drop : bool) : res (list (list nat) * Z) :=
  match block_pools c !! sg_pool_id g with
  | None => Raise IndexError
  | Some p =>
      find_longest_cache_hit_cls (sg_spec g) hashes L (sg_group_ids g) p drop align
        (dcp_world_size_for_kv_cache_spec (sg_spec g) (coord_dcp_world_size c)) 1
  end.
Definition manager_block_size (g : SpecGroup) : option Z :=
  gid ← sg_group_ids g !! 0%nat; m ← single_type_managers c !! gid; Some (block_size m).
Definition margin_of (g : SpecGroup) : Z :=
  let bsz := default 1 (manager_block_size g) in
  if partial && supports_fine_grained_hash_lookup (spec_class (sg_spec g)) &&
     bool_decide (bsz > coord_hash_block_size c)
  then coord_hash_block_size c else bsz.
Definition full_size (g : SpecGroup) : option Z :=
  if is_full_attention (sg_spec g) then manager_block_size g else None.

(** The attention groups have distinct ids of managers, and each keeps its promise. *)
Variable groups : list SpecGroup.
Variable hit : SpecGroup → Z → list (list nat) → Prop.
Variable usable : SpecGroup → Z → Prop.
Hypothesis lookups : ∀ g, g ∈ groups →
  GroupLookup (find_group g) (length (sg_group_ids g)) align (margin_of g) max_length (full_size g)
    (sg_use_eagle g) (hit g) (usable g).
Hypothesis groups_ids : ∀ g gid, g ∈ groups → gid ∈ sg_group_ids g →
  (gid < length (kv_cache_groups c))%nat ∧ is_Some (single_type_managers c !! gid).
Hypothesis groups_ne : ∀ g, g ∈ groups → sg_group_ids g ≠ [].
Hypothesis groups_disjoint : ∀ k k' g g' gid, groups !! k = Some g → groups !! k' = Some g' →
  gid ∈ sg_group_ids g → gid ∈ sg_group_ids g' → k = k'.
Hypothesis ids_NoDup : ∀ g, g ∈ groups → NoDup (sg_group_ids g).

(** The search holds the hit [blocks] of [n] tokens for the group. *)
Record entry (s : HitSearch) (g : SpecGroup) (n : Z) (blocks : list (list nat)) : Prop := {
  en_length : length blocks = length (sg_group_ids g);
  en_blocks k gid : sg_group_ids g !! k = Some gid →
    hit_blocks_by_group s !! gid = Some (blocks !! k) ∧ hit_length_by_group s !! gid = Some n
}.

Lemma store_hits_spec ids blocks n s :
  NoDup ids → length blocks = length ids →
  (∀ gid, gid ∈ ids → (gid < length (hit_blocks_by_group s))%nat ∧
     (gid < length (hit_length_by_group s))%nat) →
  let s' := store_hits ids blocks n s in
  curr_hit_length s' = curr_hit_length s ∧ eagle_verified s' = eagle_verified s ∧
  longest_hit_length s' = longest_hit_length s ∧
  length (hit_blocks_by_group s') = length (hit_blocks_by_group s) ∧
  length (hit_length_by_group s') = length (hit_length_by_group s) ∧
  (∀ k gid, ids !! k = Some gid →
     hit_blocks_by_group s' !! gid = Some (blocks !! k) ∧ hit_length_by_group s' !! gid = Some n) ∧
  (∀ gid, gid ∉ ids → hit_blocks_by_group s' !! gid = hit_blocks_by_group s !! gid ∧
     hit_length_by_group s' !! gid = hit_length_by_group s !! gid).
Proof.
  unfold store_hits. revert blocks s. induction ids as [|i ids IH]; intros [|b blocks] s Hnd Hlen Hlt;
    try done. cbn [zip_with foldl]. apply NoDup_cons in Hnd as [Hi Hnd].
  set (s1 := s <| hit_blocks_by_group ::= <[i := Some b]> |> <| hit_length_by_group ::= <[i := n]> |>).
  destruct (IH blocks s1) as (A & B & D & E & F & G & I); [done|simpl in Hlen; lia|..].
  { intros gid Hg. simpl. rewrite !length_insert. apply Hlt. by right. }
  destruct (Hlt i ltac:(by left)) as [Hl1 Hl2].
  split_and!; try done.
  - rewrite E. apply length_insert.
  - rewrite F. apply length_insert.
  - intros [|k] gid Hk; simpl in Hk; [|by apply G]. injection Hk as <-.
    destruct (I i Hi) as [-> ->]. simpl. by rewrite !list_lookup_insert_eq.
  - intros gid [Hne Hg]%not_elem_of_cons. destruct (I gid Hg) as [-> ->]. simpl.
    by rewrite !list_lookup_insert_ne.
Qed.

(** ** One pass over the groups *)

(** The prefixes of [m] tokens that all groups can use; without EAGLE groups none that fits is
    longer than [n]. *)
Definition common (m : Z) : Prop :=
  0 ≤ m ≤ max_length ∧ m mod align = 0 ∧ ∀ g, g ∈ groups → usable g m.
Definition bounds (n : Z) : Prop :=
  (∀ g, g ∈ groups → sg_use_eagle g = false) → ∀ m, common m → m ≤ n.

(** The entries of the groups are hits. *)
Record search_ok (s : HitSearch) : Prop := {
  so_blocks : length (hit_blocks_by_group s) = length (kv_cache_groups c);
  so_lengths : length (hit_length_by_group s) = length (kv_cache_groups c);
  so_curr : 0 ≤ curr_hit_length s ≤ max_length;
  so_entry g : g ∈ groups →
    (∀ gid, gid ∈ sg_group_ids g → hit_blocks_by_group s !! gid = Some None) ∨
    ∃ n blocks, entry s g n blocks ∧ hit g n blocks ∧ 0 ≤ n ∧ n mod align = 0 ∧ bounds n;
  so_bounds : bounds (curr_hit_length s)
}.

(** What is known of a group that the pass has visited when the candidate is [curr]: a hit at
    least as long, which is also at most [start] tokens long unless it is of full attention. *)
Definition visited (s : HitSearch) (start curr : Z) (g : SpecGroup) : Prop :=
  ∃ n blocks, entry s g n blocks ∧ hit g n blocks ∧ n mod align = 0 ∧ curr ≤ n ∧
    (is_full_attention (sg_spec g) = false → n ≤ start).

Lemma others_disjoint g g' gid :
  g ∈ groups → g' ∈ groups → g' ≠ g → gid ∈ sg_group_ids g' → gid ∉ sg_group_ids g.
Proof.
  intros [k Hk]%list_elem_of_lookup [k' Hk']%list_elem_of_lookup Hne Hg' Hg.
  assert (k = k') as -> by (by eapply groups_disjoint). congruence.
Qed.

(** The lookup of a group at the candidate length does not exceed it. *)
Lemma group_hit_spec g gid m curr drop :
  g ∈ groups → sg_group_ids g !! 0%nat = Some gid → single_type_managers c !! gid = Some m →
  0 ≤ curr ≤ max_length → 0 < margin_of g → (drop = true → sg_use_eagle g = true) →
  ∃ blocks n, group_hit c partial hashes max_length g (block_size m) curr drop = Ok (blocks, n) ∧
    length blocks = length (sg_group_ids g) ∧ 0 ≤ n ≤ curr ∧ n mod align = 0 ∧ hit g n blocks ∧
    (drop = false → ∀ m, 0 ≤ m ≤ curr → m mod align = 0 → usable g m → m ≤ n).
Proof.
  intros Hg Hgid Hm Hcurr Hmargin Hdr.
  assert (manager_block_size g = Some (block_size m)) as Hbsz.
  { unfold manager_block_size. rewrite Hgid. simpl. by rewrite Hm. }
  set (L := if drop then Z.min (curr + margin_of g) max_length else curr).
  destruct (gl_find (GroupLookup := lookups g Hg) L drop)
    as (blocks & n & Hfind & Hlen & Hn & Hdrop & Hmod & Hhit & Hmax); [unfold L; destruct drop; lia|done|].
  exists blocks, n. split.
  { rewrite <-Hfind. unfold group_hit, find_group, L, margin_of. rewrite Hbsz. done. }
  split; [done|]. split; [unfold L in *; destruct drop; lia|]. split; [done|]. split; [done|].
  intros ->. by apply Hmax.
Qed.

Hypothesis margins : ∀ g, g ∈ groups → 0 < margin_of g.

Lemma first_id g : g ∈ groups → ∃ gid m, sg_group_ids g !! 0%nat = Some gid ∧
  single_type_managers c !! gid = Some m ∧ (gid < length (kv_cache_groups c))%nat.
Proof.
  intros Hg. destruct (sg_group_ids g) as [|gid ids] eqn:Hids; [by destruct (groups_ne g Hg)|].
  destruct (groups_ids g gid Hg) as [Hlt [m Hm]]; [rewrite Hids; by left|]. eauto.
Qed.

(** A fresh lookup of group [g] is stored. *)
Lemma store_ok s g n blocks ev lg :
  search_ok s → g ∈ groups → length blocks = length (sg_group_ids g) →
  0 ≤ n ≤ curr_hit_length s → n mod align = 0 → hit g n blocks → bounds n →
  let s1 := s <| eagle_verified := ev |> <| curr_hit_length := n |> <| longest_hit_length := lg |> in
  let s' := store_hits (sg_group_ids g) blocks n s1 in
  search_ok s' ∧ curr_hit_length s' = n ∧ entry s' g n blocks ∧
  (∀ g' gid, g' ∈ groups → g' ≠ g → gid ∈ sg_group_ids g' →
     hit_blocks_by_group s' !! gid = hit_blocks_by_group s !! gid ∧
     hit_length_by_group s' !! gid = hit_length_by_group s !! gid).
Proof.
  intros [Hb Hl Hc He Hbd] Hg Hlen Hn Hmod Hhit Hbn s1 s'.
  destruct (store_hits_spec (sg_group_ids g) blocks n s1) as (A & _ & _ & D & E & F & G).
  { by apply ids_NoDup. }
  { done. }
  { intros gid Hgid. simpl. rewrite Hb, Hl. split; by apply (groups_ids g gid). }
  fold s' in A, D, E, F, G.
  assert (entry s' g n blocks) as Hen by (by split).
  assert (∀ g' gid, g' ∈ groups → g' ≠ g → gid ∈ sg_group_ids g' →
     hit_blocks_by_group s' !! gid = hit_blocks_by_group s !! gid ∧
     hit_length_by_group s' !! gid = hit_length_by_group s !! gid) as Hother.
  { intros g' gid Hg' Hne Hgid. apply G. by apply (others_disjoint g g'). }
  split; [|done]. split.
  - by rewrite D.
  - by rewrite E.
  - rewrite A. simpl. lia.
  - intros g' Hg'. destruct (decide (g' = g)) as [->|Hne].
    + right. exists n, blocks. split_and!; [done|done|lia|done|done].
    + destruct (He g' Hg') as [Hnone|(n' & blocks' & [El Eb] & Hh')].
      * left. intros gid Hgid. destruct (Hother g' gid Hg' Hne Hgid) as [-> _]. by apply Hnone.
      * right. exists n', blocks'. split; [|done]. split; [done|]. intros k gid Hk.
        destruct (Hother g' gid Hg' Hne) as [-> ->]; [by eapply list_elem_of_lookup_2|by apply Eb].
  - by rewrite A.
Qed.

(** The candidate is aligned, or the next group is looked up for the first time. *)
Definition settles (s : HitSearch) (gs : list SpecGroup) : Prop :=
  curr_hit_length s mod align = 0 ∨
  ∃ g gs', gs = g :: gs' ∧ ∀ gid, gid ∈ sg_group_ids g → hit_blocks_by_group s !! gid = Some None.

Lemma search_group_spec s k g :
  search_ok s → groups !! k = Some g →
  ∃ s', search_group c partial hashes max_length s (k, g) = Ok s' ∧ search_ok s' ∧
    curr_hit_length s' ≤ curr_hit_length s ∧
    (∀ gs, settles s (g :: gs) → curr_hit_length s' mod align = 0) ∧
    visited s' (curr_hit_length s') (curr_hit_length s') g ∧
    (∀ g' gid, g' ∈ groups → g' ≠ g → gid ∈ sg_group_ids g' →
       hit_blocks_by_group s' !! gid = hit_blocks_by_group s !! gid ∧
       hit_length_by_group s' !! gid = hit_length_by_group s !! gid).
Proof.
  intros Hs Hk. pose proof (list_elem_of_lookup_2 _ _ _ Hk) as Hg. pose proof Hs as [Hb Hl Hc He Hbd].
  destruct (first_id g Hg) as (gid & m & Hgid & Hm & Hlt). unfold search_group.
  assert (index (sg_group_ids g) 0 = Ok gid) as -> by (by apply index_Ok). cbn [mbind res_bind].
  rewrite Hm. destruct (lookup_lt_is_Some_2 (hit_blocks_by_group s) gid) as [cb Hcb]; [lia|].
  destruct (lookup_lt_is_Some_2 (hit_length_by_group s) gid) as [hl Hhl]; [lia|]. rewrite Hcb, Hhl.
  case_decide as Hcase.
  - destruct Hcase as [Hfull [b ->]]. destruct (He g Hg) as [Hnone|(n & blocks & Hen & Hhit & Hn & Hmod & Hbn)].
    { rewrite (Hnone gid) in Hcb by (by eapply list_elem_of_lookup_2). done. }
    assert (hl = n) as ->. { destruct (en_blocks _ _ _ _ Hen _ _ Hgid). congruence. }
    eexists. split; [done|]. split; [|split; [simpl; lia|split; [|split; [|done]]]].
    + split; simpl; [done|done|lia| |].
      { intros g' Hg'. destruct (He g' Hg') as [?|(n' & blocks' & [] & ?)]; [by left|].
        right. exists n', blocks'. split; [by split|done]. }
      intros Hne x Hx. specialize (Hbd Hne x Hx). specialize (Hbn Hne x Hx). lia.
    + intros gs [Hal|(? & ? & [= <- <-] & Hfr)]; simpl.
      * destruct (Z.min_spec (curr_hit_length s) n) as [[_ ->]|[_ ->]]; done.
      * rewrite (Hfr gid) in Hcb by (by eapply list_elem_of_lookup_2). done.
    + exists n, blocks. split; [by destruct Hen|]. split_and!; try done; simpl; [lia|congruence].
  - set (drop := sg_use_eagle g && _).
    assert (drop = true → sg_use_eagle g = true) as Hdr by (intros [? _]%andb_prop; done).
    destruct (group_hit_spec g gid m (curr_hit_length s) drop Hg Hgid Hm Hc (margins g Hg) Hdr)
      as (blocks & n & -> & Hlen & Hn & Hmod & Hhit & Hmax). cbn [mbind res_bind].
    assert (bounds n) as Hbn.
    { intros Hne x Hx. pose proof (Hbd Hne x Hx) as Hxc. destruct Hx as (? & ? & Hus).
      apply Hmax; [unfold drop; by rewrite (Hne g Hg)|lia|done|by apply Hus]. }
    match goal with |- context [store_hits _ _ _ (s <| eagle_verified := ?e |> <| curr_hit_length := _ |>
      <| longest_hit_length := ?q |>)] =>
      destruct (store_ok s g n blocks e q Hs Hg Hlen Hn Hmod Hhit Hbn) as (A & B & D & E) end.
    eexists. split; [done|]. split; [done|]. rewrite B. split; [lia|]. split; [done|]. split; [|done].
    exists n, blocks. split_and!; try done; lia.
Qed.

Lemma visited_mono s s' start start' curr curr' g :
  visited s start curr g → start ≤ start' → curr' ≤ curr →
  (∀ gid, gid ∈ sg_group_ids g →
     hit_blocks_by_group s' !! gid = hit_blocks_by_group s !! gid ∧
     hit_length_by_group s' !! gid = hit_length_by_group s !! gid) →
  visited s' start' curr' g.
Proof.
  intros (n & blocks & [El Eb] & Hhit & Hmod & Hn & Hst) Hs Hc Hsame. exists n, blocks.
  split_and!; try done; [|lia|intros Hf; specialize (Hst Hf); lia]. split; [done|]. intros k gid Hk.
  destruct (Hsame gid) as [-> ->]; [by eapply list_elem_of_lookup_2|by apply Eb].
Qed.

(** A pass: every group ends with a hit at least as long as the final candidate, and the last
    one decided it. *)
Lemma search_groups_spec gs : ∀ pre s start,
  groups = pre ++ gs → search_ok s → curr_hit_length s ≤ start →
  (∀ g, g ∈ pre → visited s start (curr_hit_length s) g) →
  (∀ g, last pre = Some g → visited s (curr_hit_length s) (curr_hit_length s) g) →
  settles s gs →
  ∃ s', search_groups c partial hashes max_length s (imap (λ i g, ((length pre + i)%nat, g)) gs) = Ok s' ∧
    search_ok s' ∧ curr_hit_length s' ≤ curr_hit_length s ∧ curr_hit_length s' mod align = 0 ∧
    (∀ g, g ∈ groups → visited s' start (curr_hit_length s') g) ∧
    (∀ g, last groups = Some g → visited s' (curr_hit_length s') (curr_hit_length s') g).
Proof.
  induction gs as [|g gs IH]; intros pre s start Hgr Hs Hst Hpre Hlast Hset.
  { rewrite app_nil_r in Hgr. subst pre. exists s. destruct Hset as [Hal|(? & ? & ? & _)]; [|done].
    by split_and!. }
  cbn [imap search_groups]. rewrite Nat.add_0_r.
  assert (groups !! length pre = Some g) as Hk by (rewrite Hgr; by apply list_lookup_middle).
  destruct (search_group_spec s (length pre) g Hs Hk) as (s1 & -> & Hs1 & Hc1 & Hal1 & Hv1 & Hoth).
  cbn [mbind res_bind].
  assert (∀ g', g' ∈ pre → g' ≠ g) as Hne.
  { intros g' [k Hk']%list_elem_of_lookup ->. pose proof (lookup_lt_Some _ _ _ Hk') as Hlt.
    assert (groups !! k = Some g) as Hkg by (rewrite Hgr; by apply lookup_app_l_Some).
    destruct (first_id g) as (gid & _ & Hgid & _); [by eapply list_elem_of_lookup_2|].
    apply list_elem_of_lookup_2 in Hgid.
    pose proof (groups_disjoint _ _ _ _ gid Hk Hkg Hgid Hgid). lia. }
  destruct (IH (pre ++ [g]) s1 start) as (s' & Hrun & Hs' & Hc' & Hal' & Hall & Hl').
  { by rewrite <-app_assoc. }
  { done. }
  { lia. }
  { intros g' [Hg'| ->%list_elem_of_singleton]%elem_of_app.
    - eapply visited_mono; [by apply Hpre|lia|lia|]. intros gid Hgid.
      apply (Hoth g' gid); [|by apply Hne|done]. rewrite Hgr. apply elem_of_app. by left.
    - eapply visited_mono; [exact Hv1|lia|lia|done]. }
  { intros g'. rewrite last_snoc. by intros [= <-]. }
  { left. by eapply Hal1. }
  exists s'. split; [|split_and!; [done|lia|done|done|done]].
  rewrite <-Hrun. f_equal. apply imap_ext. intros i x _. simpl. rewrite length_app. simpl.
  f_equal. lia.
Qed.

Hypothesis groups_some : groups ≠ [].

(** ** The loop *)

(** The outcome: a common length, at which every group has a hit that is exactly as long, or of
    full attention and at least as long. *)
Definition agreed (h : Z) (s : HitSearch) : Prop :=
  0 ≤ h ≤ max_length ∧ h mod align = 0 ∧ bounds h ∧ search_ok s ∧
  ∀ g, g ∈ groups → ∃ n blocks, entry s g n blocks ∧ hit g n blocks ∧ h ≤ n ∧
    (is_full_attention (sg_spec g) = false → n = h).

Definition simple_hybrid : bool :=
  bool_decide (length groups = 2%nat) &&
  match groups with g :: _ => is_full_attention (sg_spec g) | [] => false end.

Lemma search_ok_start s H : search_ok s → 0 ≤ H ≤ max_length → bounds H →
  search_ok (s <| curr_hit_length := H |>).
Proof.
  intros [Hb Hl Hc He _] HH Hbd. split; simpl; [done|done|done| |done].
  intros g Hg. destruct (He g Hg) as [?|(n & blocks & [] & ?)]; [by left|].
  right. exists n, blocks. split; [by split|done].
Qed.

Lemma search_loop_spec fuel : ∀ H s,
  search_ok s → 0 ≤ H ≤ max_length → bounds H → H < Z.of_nat fuel →
  settles (s <| curr_hit_length := H |>) groups →
  ∃ h s', search_loop c partial hashes max_length fuel groups simple_hybrid H s = Ok (h, s') ∧ agreed h s'.
Proof.
  induction fuel as [|fuel IH]; intros H s Hs HH Hbd Hf Hset; [lia|]. cbn [search_loop].
  set (s0 := s <| curr_hit_length := H |>) in *.
  assert (search_ok s0) as Hs0 by (by apply search_ok_start).
  destruct (search_groups_spec groups [] s0 H) as (s1 & Hrun & Hs1 & Hc1 & Hal1 & Hall & Hlast);
    [done|done|simpl; lia|set_solver|done|done|].
  change (imap pair groups) with (imap (λ i g, ((length (A := SpecGroup) [] + i)%nat, g)) groups).
  rewrite Hrun. cbn [mbind res_bind]. simpl in Hc1. pose proof (so_curr _ Hs1) as Hcur.
  case_decide as Hdone.
  - exists H, s1. split; [done|]. assert (curr_hit_length s1 = H) as HcH by lia.
    split; [done|]. split; [by rewrite <-HcH|]. split; [done|]. split; [done|]. intros g Hg.
    destruct (Hall g Hg) as (n & blocks & Hen & Hhit & _ & Hn & Hst). exists n, blocks.
    split_and!; try done; [lia|]. intros Hnf. specialize (Hst Hnf). lia.
  - destruct simple_hybrid eqn:Hsimple.
    + exists (curr_hit_length s1), s1. split; [done|]. split; [done|]. split; [done|].
      split; [apply Hs1|]. split; [done|]. intros g Hg.
      destruct (Hall g Hg) as (n & blocks & Hen & Hhit & Hmod & Hn & Hst).
      destruct (is_full_attention (sg_spec g)) eqn:Hfg.
      { exists n, blocks. by split_and!. }
      assert (last groups = Some g) as Hl.
      { unfold simple_hybrid in Hsimple. apply andb_prop in Hsimple as [H2%bool_decide_eq_true Hfull].
        destruct groups as [|g1 [|g2 [|]]]; try done.
        apply elem_of_cons in Hg as [-> | ->%list_elem_of_singleton]; [congruence|done]. }
      destruct (Hlast g Hl) as (n' & blocks' & Hen' & Hhit' & _ & Hn' & Hst'). exists n', blocks'.
      split_and!; try done. intros _. specialize (Hst' Hfg). lia.
    + destruct (IH (curr_hit_length s1) s1) as (h & s' & Hrun' & Hag); try done; [apply Hs1|lia|by left|].
      rewrite Hrun'. eauto.
Qed.

(** ** The result *)

Lemma truncate_ids_spec n h ids : ∀ s, NoDup ids →
  let s' := truncate_ids n h ids s in
  longest_hit_length s' = longest_hit_length s ∧
  length (hit_blocks_by_group s') = length (hit_blocks_by_group s) ∧
  (∀ gid b, gid ∈ ids → hit_blocks_by_group s !! gid = Some (Some b) →
     hit_blocks_by_group s' !! gid = Some (Some (take (Z.to_nat n) b))) ∧
  (∀ gid, gid ∉ ids → hit_blocks_by_group s' !! gid = hit_blocks_by_group s !! gid).
Proof.
  unfold truncate_ids. induction ids as [|i ids IH]; intros s Hnd; [by split_and!; [..|set_solver|]|].
  apply NoDup_cons in Hnd as [Hi Hnd]. cbn [foldl].
  destruct (hit_blocks_by_group s !! i) as [[b0|]|] eqn:Hb0.
  - match goal with |- context [foldl _ ?x ids] => set (s1 := x) end.
    destruct (IH s1 Hnd) as (A & B & D & E). split_and!; [done|by rewrite B; apply length_insert|..].
    + intros gid b [->|Hg]%elem_of_cons Hb.
      * rewrite E by done. simpl. rewrite list_lookup_insert_eq by (by eapply lookup_lt_Some). congruence.
      * apply D; [done|]. simpl. by rewrite list_lookup_insert_ne by (by intros ->).
    + intros gid [Hne Hg]%not_elem_of_cons. rewrite E by done. simpl. by rewrite list_lookup_insert_ne.
  - destruct (IH s Hnd) as (A & B & D & E). split_and!; [done|done|..].
    + intros gid b [->|Hg]%elem_of_cons Hb; [congruence|by apply D].
    + intros gid [Hne Hg]%not_elem_of_cons. by apply E.
  - destruct (IH s Hnd) as (A & B & D & E). split_and!; [done|done|..].
    + intros gid b [->|Hg]%elem_of_cons Hb; [congruence|by apply D].
    + intros gid [Hne Hg]%not_elem_of_cons. by apply E.
Qed.

(** Group [g] has the hit [blocks] in the search. *)
Definition holds_hit (s : HitSearch) (g : SpecGroup) (blocks : list (list nat)) : Prop :=
  length blocks = length (sg_group_ids g) ∧
  ∀ k gid, sg_group_ids g !! k = Some gid → hit_blocks_by_group s !! gid = Some (blocks !! k).

Lemma holds_hit_truncate s g blocks n h :
  holds_hit s g blocks → NoDup (sg_group_ids g) →
  holds_hit (truncate_ids n h (sg_group_ids g) s) g (take (Z.to_nat n) <$> blocks).
Proof.
  intros [Hl Hb] Hnd. destruct (truncate_ids_spec n h (sg_group_ids g) s Hnd) as (_ & _ & D & _).
  split; [by rewrite length_fmap|]. intros k gid Hk. specialize (Hb k gid Hk).
  destruct (lookup_lt_is_Some_2 blocks k) as [b Hbk]; [rewrite Hl; by eapply lookup_lt_Some|].
  rewrite Hbk in Hb. rewrite (D gid b); [|by eapply list_elem_of_lookup_2|done].
  by rewrite list_lookup_fmap, Hbk.
Qed.

Lemma truncate_full_spec h s : ∀ gs,
  (∀ g, g ∈ gs → g ∈ groups) → NoDup gs → agreed h s →
  ∀ s0, length (hit_blocks_by_group s0) = length (hit_blocks_by_group s) →
  (∀ g, g ∈ groups → if decide (g ∈ gs)
     then ∀ gid, gid ∈ sg_group_ids g → hit_blocks_by_group s0 !! gid = hit_blocks_by_group s !! gid
     else ∃ blocks, holds_hit s0 g blocks ∧ hit g h blocks) →
  let s' := truncate_full c gs h s0 in
  longest_hit_length s' = longest_hit_length s0 ∧
  length (hit_blocks_by_group s') = length (hit_blocks_by_group s) ∧
  ∀ g, g ∈ groups → ∃ blocks, holds_hit s' g blocks ∧ hit g h blocks.
Proof.
  unfold truncate_full. induction gs as [|g gs IH]; intros Hsub Hnd Hag s0 Hlen Hst.
  { split_and!; [done|done|]. intros g Hg. specialize (Hst g Hg). rewrite decide_False in Hst by set_solver. done. }
  cbn [foldl]. apply NoDup_cons in Hnd as [Hgn Hnd].
  pose proof (Hsub g ltac:(by left)) as Hg.
  destruct Hag as (Hh & Hmod & Hbd & Hok & Hen).
  destruct (Hen g Hg) as (n & blocks & [El Eb] & Hhit & Hn & Hnf).
  assert (holds_hit s0 g blocks) as Hold.
  { split; [done|]. intros k gid Hk. pose proof (Hst g Hg) as Hs. rewrite decide_True in Hs by (by left).
    rewrite Hs by (by eapply list_elem_of_lookup_2). by apply Eb. }
  match goal with |- context [foldl _ ?x gs] => set (s1 := x) end.
  assert (longest_hit_length s1 = longest_hit_length s0 ∧
    length (hit_blocks_by_group s1) = length (hit_blocks_by_group s) ∧
    (∃ blocks, holds_hit s1 g blocks ∧ hit g h blocks) ∧
    ∀ g' gid, g' ∈ groups → g' ≠ g → gid ∈ sg_group_ids g' →
      hit_blocks_by_group s1 !! gid = hit_blocks_by_group s0 !! gid) as (A & B & D & E).
  { unfold s1. destruct (is_full_attention (sg_spec g)) eqn:Hf.
    - destruct (first_id g Hg) as (gid & m & Hgid & Hm & _). rewrite Hgid. simpl. rewrite Hm. simpl.
      destruct (truncate_ids_spec (cdiv h (block_size m)) h (sg_group_ids g) s0 (ids_NoDup g Hg))
        as (A & B & _ & E).
      split_and!; [done|by rewrite B| |].
      + eexists. split; [by apply holds_hit_truncate; [|apply ids_NoDup]|].
        apply (gl_truncate (GroupLookup := lookups g Hg) _ n); [|done|lia|done].
        unfold full_size, manager_block_size. rewrite Hf, Hgid. simpl. by rewrite Hm.
      + intros g' gid' Hg' Hne Hgid'. apply E. by apply (others_disjoint g g').
    - split_and!; [done|done| |done]. exists blocks. rewrite Hnf in Hhit by done. done. }
  destruct (IH ltac:(set_solver) Hnd (conj Hh (conj Hmod (conj Hbd (conj Hok Hen)))) s1 B) as (A' & B' & D').
  { intros g' Hg'. specialize (Hst g' Hg'). destruct (decide (g' = g)) as [->|Hne].
    - rewrite decide_False by done. done.
    - destruct (decide (g' ∈ gs)) as [Hin|Hnin].
      + rewrite decide_True in Hst by (by right). intros gid Hgid. rewrite (E g' gid) by done. by apply Hst.
      + rewrite decide_False in Hst by (intros [|]%elem_of_cons; done).
        destruct Hst as (bl & [Hl Hb] & Hht). exists bl. split; [|done]. split; [done|].
        intros k gid Hk. rewrite (E g' gid); [by apply Hb|done|done|by eapply list_elem_of_lookup_2]. }
  split_and!; [congruence|done|done].
Qed.

Lemma hybrid_search :
  ∃ blocks h extra,
    find_longest_cache_hit_hybrid c partial hashes max_length groups = Ok (blocks, h, extra) ∧
    length blocks = length (kv_cache_groups c) ∧ 0 ≤ h ≤ max_length ∧ h mod align = 0 ∧ bounds h ∧
    ∀ g, g ∈ groups → hit g h ((λ gid, blocks !!! gid) <$> sg_group_ids g).
Proof.
  unfold find_longest_cache_hit_hybrid. fold simple_hybrid.
  set (n := length (kv_cache_groups c)). set (s0 := mkHitSearch _ _ _ _ _).
  assert (∀ g gid, g ∈ groups → gid ∈ sg_group_ids g → hit_blocks_by_group s0 !! gid = Some None) as Hnone.
  { intros g gid Hg Hgid. apply lookup_replicate. split; [done|]. by apply (groups_ids g). }
  destruct (search_loop_spec (S (S (Z.to_nat max_length))) max_length s0) as (h & s & Hrun & Hag).
  - split; simpl; [by rewrite length_replicate..|lia| |].
    + intros g Hg. left. intros gid. by apply Hnone.
    + intros _ m (Hm & _). lia.
  - lia.
  - intros _ m (Hm & _). lia.
  - lia.
  - right. destruct groups as [|g gs] eqn:Hgs; [done|]. exists g, gs. split; [done|].
    intros gid Hgid. apply (Hnone g); [left|done].
  - rewrite Hrun. cbn [mbind res_bind].
    assert (NoDup groups) as Hnd.
    { apply NoDup_alt. intros k k' g Hk Hk'.
      destruct (first_id g) as (gid & _ & Hgid%list_elem_of_lookup_2 & _); [by eapply list_elem_of_lookup_2|].
      by eapply groups_disjoint. }
    pose proof Hag as (Hh & Hmod & Hbd & Hok & _).
    destruct (truncate_full_spec h s groups ltac:(done) Hnd Hag s eq_refl) as (_ & Hlen & Hhits).
    { intros g Hg. by rewrite decide_True. }
    eexists _, h, _. split; [done|]. rewrite length_fmap, Hlen. split; [apply Hok|]. split_and!; try done; try lia.
    intros g Hg. destruct (Hhits g Hg) as (blocks & [Hl Hb] & Hhit).
    enough ((λ gid, (default [] <$> hit_blocks_by_group (truncate_full c groups h s)) !!! gid) <$> sg_group_ids g = blocks)
      as -> by done.
    apply (list_eq_same_length _ _ (length blocks)); [done|by rewrite length_fmap|].
    intros k x y Hk Hx Hy. apply list_lookup_fmap_Some in Hx as (gid & -> & Hgid).
    rewrite list_lookup_total_alt, list_lookup_fmap, (Hb k gid Hgid), Hy. done.
Qed.
End search.

(** ** The lookups of the layer types keep the promise *)

Section layers.
Variables (p : BlockPool) (hashes : list bytes) (k bsz align max_length : Z) (gids : list nat).
Hypothesis p_wf : cache_wf p.
Hypothesis gids_small : ∀ gid, gid ∈ gids → Z.of_nat gid < 2 ^ 32.
Hypothesis gids_some : gids ≠ [].
Hypothesis hash_pos : 0 < hash_block_size p.
Hypothesis k_pos : 0 < k.
Hypothesis bsz_eq : bsz = k * hash_block_size p.
Hypothesis align_pos : 0 < align.
Hypothesis align_bsz : align mod bsz = 0.
Hypothesis max_hashed : max_length // hash_block_size p ≤ len hashes.
Abbreviation ids := (Z.of_nat <$> gids).

(** The blocks of a hit of [n] tokens: every block with a token that the query at position [n]
    sees is cached under the hash of its position and its group; the others may be null. *)
Definition hit_at (cls : ManagerClass) (n : Z) (blocks : list (list nat)) : Prop :=
  Forall2 (λ g bl, len bl = n // bsz ∧
    (∀ t, 0 ≤ t < n → attends cls None n t = true → ∃ b, bl !! Z.to_nat (t // bsz) = Some b ∧
       holds_key p b (hash_at hashes k (t // bsz) ++ be_bytes 4 g)) ∧
    ∀ j b, bl !! j = Some b →
      b = null_block ∨ holds_key p b (hash_at hashes k (Z.of_nat j) ++ be_bytes 4 g)) ids blocks.
Definition usable_at (cls : ManagerClass) (n : Z) : Prop :=
  ∀ t, 0 ≤ t < n → attends cls None n t = true → cached_in p ids (hash_at hashes k (t // bsz)).

Lemma ids_ok : Forall (λ g, 0 ≤ g < 2 ^ 32) ids ∧ ids ≠ [].
Proof.
  split; [|by destruct gids]. apply Forall_forall. intros g (gid & -> & Hg)%list_elem_of_fmap.
  specialize (gids_small gid Hg). lia.
Qed.

Lemma bsz_pos : 0 < bsz.
Proof. rewrite bsz_eq. nia. Qed.

Lemma hashed L : 0 ≤ L ≤ max_length → L // bsz ≤ len hashes // k.
Proof.
  intros HL. rewrite bsz_eq, Z.mul_comm, <-Z.div_div by lia. apply Z.div_le_mono; [done|].
  etrans; [|exact max_hashed]. apply Z.div_le_mono; lia.
Qed.

Lemma align_mod n : n mod align = 0 → n mod bsz = 0.
Proof.
  pose proof bsz_pos. intros Hn. apply Z.mod_divide; [lia|]. etrans; [|apply Z.mod_divide, Hn; lia].
  apply Z.mod_divide; [lia|done].
Qed.

Lemma token_block n t : 0 ≤ t < n → n mod bsz = 0 → 0 ≤ t // bsz < n // bsz.
Proof.
  pose proof bsz_pos as Hb. intros Ht Hn. split; [apply Z.div_pos; lia|].
  apply Z.div_lt_upper_bound; [lia|]. pose proof (Z.div_mod n bsz ltac:(lia)). lia.
Qed.

Lemma full_attends cls n t :
  is_full_attention (mkSpec cls 0 0) = true → t ≤ n → attends cls None n t = true.
Proof.
  intros Hcls Ht. destruct cls; try done; cbn; rewrite ?andb_true_r; unfold causal_mask_mod;
    by apply bool_decide_eq_true.
Qed.

Lemma hit_at_truncate cls n m blocks :
  is_full_attention (mkSpec cls 0 0) = true →
  hit_at cls n blocks → 0 ≤ m ≤ n → m mod align = 0 →
  hit_at cls m (take (Z.to_nat (cdiv m bsz)) <$> blocks).
Proof.
  intros Hcls Hhit Hm Hmod. pose proof bsz_pos as Hb. pose proof (align_mod m Hmod) as Hmb.
  assert (cdiv m bsz = m // bsz) as ->.
  { pose proof (cdiv_spec m bsz Hb). pose proof (Z.div_mod m bsz ltac:(lia)). nia. }
  apply Forall2_fmap_r. eapply Forall2_impl; [exact Hhit|]. intros g bl (Hl & Hs & Hall). simpl.
  pose proof (Z.div_le_mono m n bsz Hb ltac:(lia)). pose proof (Z.div_pos m bsz ltac:(lia) Hb).
  split_and!.
  - unfold len in *. rewrite length_take. lia.
  - intros t Ht Hat. destruct (Hs t) as (b & Hbl & Hk); [lia| |].
    { apply full_attends; [done|lia]. }
    exists b. split; [|done]. rewrite lookup_take_lt; [done|].
    destruct (token_block m t Ht Hmb). lia.
  - intros j b Hj. apply lookup_take_Some in Hj as [Hj _]. by apply Hall.
Qed.

Lemma full_group_lookup cls eagle :
  is_full_attention (mkSpec cls 0 0) = true →
  GroupLookup (λ L drop, find_longest_cache_hit_full (HashList hashes) L ids p bsz drop align)
    (length gids) align bsz max_length (Some bsz) eagle (hit_at cls) (usable_at cls).
Proof.
  intros Hcls. pose proof bsz_pos as Hb. destruct ids_ok as [Hok Hne].
  split.
  - intros L drop HL _. pose proof (hashed L HL) as Hh.
    destruct (full_lookup_spec p ids hashes k L drop align) as (blocks & h & Hrun & Hmod & Hb1 & Hb2 & Hruns & Hmax);
      try done; [by rewrite <-bsz_eq|lia|].
    rewrite <-bsz_eq in *. exists blocks, h. pose proof (Z.div_pos h bsz ltac:(lia) Hb) as Hq.
    split_and!; try done; try lia.
    + apply Forall2_length in Hruns. by rewrite <-Hruns, length_fmap.
    + intros ->. lia.
    + eapply Forall2_impl; [exact Hruns|]. intros g bl Hrun'.
      pose proof (run_of_len _ _ _ _ _ _ Hrun' Hq) as Hlen. split; [lia|].
      assert (∀ j, 0 ≤ j < h // bsz → ∃ b, bl !! Z.to_nat j = Some b ∧
        holds_key p b (hash_at hashes k j ++ be_bytes 4 g)) as Hat.
      { intros j Hj. destruct (run_of_lookup _ _ _ _ _ _ j Hrun' ltac:(lia)) as (b & Hbl & Hk).
        exists b. by rewrite Z.sub_0_r in Hbl. }
      split.
      * intros t Ht _. apply Hat. by apply token_block, align_mod.
      * intros j b Hj. right. pose proof (lookup_lt_Some _ _ _ Hj). unfold len in Hlen.
        destruct (Hat (Z.of_nat j)) as (b' & Hb' & Hk); [lia|].
        rewrite Nat2Z.id in Hb'. by simplify_eq.
    + intros -> m Hm Hmm Hu. pose proof (hashed m ltac:(lia)). apply Hmax; try done; try lia.
      intros i Hi. pose proof (align_mod m Hmm). pose proof (Z.div_mod m bsz ltac:(lia)).
      replace i with ((i * bsz) // bsz) by (apply Z.div_mul; lia). apply Hu; [nia|].
      apply full_attends; [done|nia].
  - intros bsz' n m blocks [= <-] Hhit Hm Hmod. by apply (hit_at_truncate cls n).
Qed.

Lemma window_group_lookup w extra eagle :
  1 < w →
  GroupLookup (λ L drop, find_longest_cache_hit_swa (HashList hashes) L ids p w bsz drop align 1 1)
    (length gids) align bsz max_length None eagle
    (hit_at (SlidingWindowManager w extra)) (usable_at (SlidingWindowManager w extra)).
Proof.
  intros Hw. pose proof bsz_pos as Hb. destruct ids_ok as [Hok Hne].
  assert (∀ n t, 0 ≤ t < n → attends (SlidingWindowManager w extra) None n t = true ↔ n - w < t) as Hatt.
  { intros n t Ht. cbn. unfold causal_mask_mod, sliding_window_mask_mod.
    rewrite andb_true_iff, !bool_decide_eq_true. lia. }
  split; [|done].
  intros L drop HL _. pose proof (hashed L HL) as Hh. rewrite bsz_eq in Hh.
  destruct (swa_lookup_exact p ids hashes k L w drop align) as
    (blocks & n & Hrun & Hn0 & HnL & Hdrop & Hmod & Hruns & Hmax); try done; [by rewrite <-bsz_eq|lia|].
  rewrite <-bsz_eq in *. exists blocks, (n * bsz).
  assert (n * bsz // bsz = n) as Hdiv by (apply Z.div_mul; lia).
  split_and!; try done; try nia.
  - apply Forall2_length in Hruns. by rewrite <-Hruns, length_fmap.
  - intros ->. nia.
  - eapply Forall2_impl; [exact Hruns|]. intros g bl (Hlen & Hwin & Hall).
    split; [by rewrite Hdiv|]. split; [|done].
    intros t Ht Hat. apply Hwin; [lia|]. rewrite Hatt in Hat by lia. lia.
  - intros -> m Hm Hmm Hu. pose proof (align_mod m Hmm). pose proof (Z.div_mod m bsz ltac:(lia)).
    replace m with (m // bsz * bsz) in Hmm by lia.
    destruct Hmax as (best & _ & Hbest & Heq). unfold window_hit in Heq. rewrite decide_False in Heq by naive_solver.
    assert (m // bsz ≤ best); [|nia]. apply Hbest. split; rewrite <-?bsz_eq; [apply Z.div_pos; lia|nia|done| |done].
    intros t Ht Hat. apply Hu; [lia|]. apply Hatt; lia.
Qed.

Lemma chunked_group_lookup chunk :
  0 < chunk → chunk mod bsz = 0 → align = bsz →
  GroupLookup (λ L drop, find_longest_cache_hit_chunked (HashList hashes) L ids p chunk bsz drop align 1 1)
    (length gids) align bsz max_length None false
    (hit_at (ChunkedLocalAttentionManager chunk)) (usable_at (ChunkedLocalAttentionManager chunk)).
Proof.
  intros Hc Hcb Hal. pose proof bsz_pos as Hb. destruct ids_ok as [Hok Hne].
  assert (∀ n t, 0 ≤ t < n → attends (ChunkedLocalAttentionManager chunk) None n t = true ↔
    n // chunk = t // chunk) as Hatt.
  { intros n t Ht. cbn. unfold causal_mask_mod. rewrite andb_true_iff, !bool_decide_eq_true. lia. }
  assert (∀ t, t // bsz * bsz // chunk = t // chunk) as Hch.
  { intros t. pose proof (Z.div_mod chunk bsz ltac:(lia)). rewrite Hcb, Z.add_0_r in H.
    assert (0 < chunk // bsz) by nia. rewrite H at 1 2.
    rewrite <-!Z.div_div by lia. by rewrite Z.div_mul by lia. }
  split; [|done].
  intros L drop HL Hdr. destruct drop; [by discriminate Hdr|].
  pose proof (hashed L HL) as Hh. rewrite bsz_eq in Hh, Hcb.
  destruct (chunked_lookup_spec p ids hashes k L chunk) as
    (blocks & n & Hrun & Hn0 & HnL & Hruns & Hmax); try done; [lia|].
  rewrite <-bsz_eq in *. rewrite Hal. exists blocks, (n * bsz).
  assert (n * bsz // bsz = n) as Hdiv by (apply Z.div_mul; lia).
  split_and!; try done; try nia.
  - apply Forall2_length in Hruns. by rewrite <-Hruns, length_fmap.
  - by apply Z.mod_mul; lia.
  - eapply Forall2_impl; [exact Hruns|]. intros g bl (Hlen & Hall).
    split; [by rewrite Hdiv|]. split.
    + intros t Ht Hat. destruct (Hall (t // bsz)) as (b & Hbl & Hk).
      { rewrite <-Hdiv. apply token_block; [done|]. by apply Z.mod_mul; lia. }
      exists b. split; [done|]. rewrite decide_True in Hk; [done|]. rewrite Hch. symmetry. by apply Hatt.
    + intros j b Hj. pose proof (lookup_lt_Some _ _ _ Hj). unfold len in Hlen.
      destruct (Hall (Z.of_nat j)) as (b' & Hb' & Hk); [lia|]. rewrite Nat2Z.id in Hb'. simplify_eq.
      case_decide; [by right|done].
  - intros _ m Hm Hmm Hu. pose proof (Z.div_mod m bsz ltac:(lia)).
    assert (m // bsz ≤ n); [|nia]. apply Hmax; [apply Z.div_pos; lia|nia|].
    intros j Hj He. replace j with ((j * bsz) // bsz) by (apply Z.div_mul; lia). apply Hu; [nia|].
    apply Hatt; [nia|]. rewrite He. f_equal. lia.
Qed.
End layers.

(** ** Hybrid models *)

(** The block size of a group, with the tokens of the decode-context-parallel ranks. *)
Definition group_block_size (c : KVCacheCoordinator) (spec : KVCacheSpec) : Z :=
  spec_block_size spec * dcp_world_size_for_kv_cache_spec spec (coord_dcp_world_size c).
Definition hashes_per_block (c : KVCacheCoordinator) (spec : KVCacheSpec) : Z :=
  group_block_size c spec // coord_hash_block_size c.

(** The layer types that a prefix lookup supports, and their restrictions. *)
Definition class_supported (sched bsz : Z) (cls : ManagerClass) (eagle : bool) : Prop :=
  match cls with
  | FullAttentionManager | RSWAManager _ => True
  | SlidingWindowManager w _ => 1 < w
  | ChunkedLocalAttentionManager chunk => 0 < chunk ∧ chunk mod bsz = 0 ∧ eagle = false ∧ sched = bsz
  | _ => False
  end.

(** What the construction of the coordinator establishes of an attention group. *)
Record group_wf (c : KVCacheCoordinator) (g : SpecGroup) : Prop := {
  gw_pool : ∃ p, block_pools c !! sg_pool_id g = Some p ∧ cache_wf p ∧
    hash_block_size p = coord_hash_block_size c;
  gw_ids gid : gid ∈ sg_group_ids g → (gid < length (kv_cache_groups c))%nat ∧ Z.of_nat gid < 2 ^ 32 ∧
    ∃ m, single_type_managers c !! gid = Some m ∧ block_size m = group_block_size c (sg_spec g);
  gw_some : sg_group_ids g ≠ [];
  gw_NoDup : NoDup (sg_group_ids g);
  gw_size : 0 < group_block_size c (sg_spec g) ∧
    group_block_size c (sg_spec g) mod coord_hash_block_size c = 0 ∧
    scheduler_block_size c mod group_block_size c (sg_spec g) = 0;
  gw_class : class_supported (scheduler_block_size c) (group_block_size c (sg_spec g))
    (spec_class (sg_spec g)) (sg_use_eagle g)
}.
Record hybrid_wf (c : KVCacheCoordinator) (groups : list SpecGroup) : Prop := {
  hw_hash : 0 < coord_hash_block_size c;
  hw_sched : 0 < scheduler_block_size c;
  hw_some : groups ≠ [];
  hw_groups g : g ∈ groups → group_wf c g;
  hw_disjoint k k' g g' gid : groups !! k = Some g → groups !! k' = Some g' →
    gid ∈ sg_group_ids g → gid ∈ sg_group_ids g' → k = k'
}.

(** The blocks are a hit of [n] tokens for the group; the group can use [n] tokens. *)
Definition group_hit_at (c : KVCacheCoordinator) (hashes : list bytes) (g : SpecGroup) (n : Z)
    (blocks : list (list nat)) : Prop :=
  ∃ p, block_pools c !! sg_pool_id g = Some p ∧
    hit_at p hashes (hashes_per_block c (sg_spec g)) (group_block_size c (sg_spec g)) (sg_group_ids g)
      (spec_class (sg_spec g)) n blocks.
Definition group_usable_at (c : KVCacheCoordinator) (hashes : list bytes) (g : SpecGroup) (n : Z) : Prop :=
  ∃ p, block_pools c !! sg_pool_id g = Some p ∧
    usable_at p hashes (hashes_per_block c (sg_spec g)) (group_block_size c (sg_spec g)) (sg_group_ids g)
      (spec_class (sg_spec g)) n.

Lemma GroupLookup_ext find find' ng align margin max full eagle (hit hit' : Z → _ → Prop)
    (usable usable' : Z → Prop) :
  (∀ L drop, find L drop = find' L drop) → (∀ n bs, hit n bs ↔ hit' n bs) →
  (∀ n, usable n ↔ usable' n) →
  GroupLookup find ng align margin max full eagle hit usable →
  GroupLookup find' ng align margin max full eagle hit' usable'.
Proof.
  intros Hf Hh Hu [Hfind Htr]. split.
  - intros L drop HL Hd. destruct (Hfind L drop HL Hd) as (blocks & n & ? & ? & ? & ? & ? & ? & Hm).
    exists blocks, n. rewrite <-Hf, <-Hh. split_and?; try (done || lia).
    intros Hdr m ? ? ?. apply Hm; [done..|by apply Hu].
  - intros bsz n m blocks Hfu Hhit Hm Hmod. apply Hh. apply Hh in Hhit. by eapply Htr.
Qed.

Lemma dcp_size spec n :
  let d := dcp_world_size_for_kv_cache_spec spec n in
  (if decide (d > 1) then spec_block_size spec * d else spec_block_size spec) = spec_block_size spec * d ∧
  (is_full_attention spec = false → d = 1).
Proof.
  unfold dcp_world_size_for_kv_cache_spec. simpl. destruct (is_full_attention spec); repeat case_decide; lia.
Qed.

Lemma manager_size c g :
  group_wf c g → manager_block_size c g = Some (group_block_size c (sg_spec g)).
Proof.
  intros [_ Hids Hne _ _ _]. unfold manager_block_size.
  destruct (sg_group_ids g) as [|gid ids] eqn:Hgi; [done|].
  destruct (Hids gid ltac:(by left)) as (_ & _ & m & Hm & Hbm). simpl. rewrite Hm. simpl. by rewrite Hbm.
Qed.

Lemma hashes_per_block_spec c g :
  0 < coord_hash_block_size c → group_wf c g →
  0 < hashes_per_block c (sg_spec g) ∧
  group_block_size c (sg_spec g) = hashes_per_block c (sg_spec g) * coord_hash_block_size c.
Proof.
  intros Hh [_ _ _ _ (Hb & Hmod & _) _]. unfold hashes_per_block.
  pose proof (Z.div_mod (group_block_size c (sg_spec g)) (coord_hash_block_size c)). nia.
Qed.

Lemma find_group_pool c hashes g p L drop :
  block_pools c !! sg_pool_id g = Some p →
  let bsz := group_block_size c (sg_spec g) in
  let ids := Z.of_nat <$> sg_group_ids g in
  let align := scheduler_block_size c in
  find_group c false hashes g L drop =
    match spec_class (sg_spec g) with
    | FullAttentionManager | RSWAManager _ => find_longest_cache_hit_full hashes L ids p bsz drop align
    | SlidingWindowManager w _ => find_longest_cache_hit_swa hashes L ids p w bsz drop align 1 1
    | ChunkedLocalAttentionManager chunk =>
        find_longest_cache_hit_chunked hashes L ids p chunk bsz drop align 1 1
    | KpoolTailManager | CircularBufferManager => Ok (replicate (length (sg_group_ids g)) [], 0)
    | CrossAttentionManager => Raise NotImplementedError
    end.
Proof.
  intros Hp. unfold find_group, find_longest_cache_hit_cls, group_block_size. rewrite Hp.
  destruct (dcp_size (sg_spec g) (coord_dcp_world_size c)) as [Hd1 Hd2].
  unfold is_full_attention in Hd2.
  destruct (spec_class (sg_spec g)); try done; by rewrite ?Hd1 || by rewrite (Hd2 eq_refl), Z.mul_1_r.
Qed.

Lemma group_lookup c groups hashes max_length g :
  hybrid_wf c groups → g ∈ groups → max_length // coord_hash_block_size c ≤ len hashes →
  GroupLookup (find_group c false (HashList hashes) g) (length (sg_group_ids g)) (scheduler_block_size c)
    (margin_of c false g) max_length (full_size c g) (sg_use_eagle g)
    (group_hit_at c hashes g) (group_usable_at c hashes g).
Proof.
  intros Hwf Hg Hmax. pose proof (hw_groups _ _ Hwf g Hg) as Hgw.
  pose proof (hashes_per_block_spec c g (hw_hash _ _ Hwf) Hgw) as [Hk Hbk].
  pose proof (hw_hash _ _ Hwf) as Hh. pose proof (hw_sched _ _ Hwf) as Hs.
  pose proof (manager_size c g Hgw) as Hmb.
  destruct Hgw as [(p & Hp & Hpwf & Hph) Hids Hne Hnd (Hb & Hbh & Hsb) Hcls].
  unfold margin_of, full_size. rewrite Hmb. simpl. rewrite <-Hph in *.
  assert (∀ gid, gid ∈ sg_group_ids g → Z.of_nat gid < 2 ^ 32) as Hsmall by (intros gid Hgid; by apply Hids).
  eapply (GroupLookup_ext _ _ _ _ _ _ _ _
    (hit_at p hashes (hashes_per_block c (sg_spec g)) _ _ _) _
    (usable_at p hashes (hashes_per_block c (sg_spec g)) _ _ _)).
  { intros L drop. symmetry. by apply find_group_pool. }
  { intros n bs. unfold group_hit_at. rewrite Hp. split; [eauto|]. by intros (? & [= <-] & ?). }
  { intros n. unfold group_usable_at. rewrite Hp. split; [eauto|]. by intros (? & [= <-] & ?). }
  unfold is_full_attention.
  destruct (spec_class (sg_spec g)) as [|w|w e|ch| | |]; try done.
  - by apply full_group_lookup.
  - by apply full_group_lookup.
  - by apply window_group_lookup.
  - destruct Hcls as (? & ? & -> & ?). by apply chunked_group_lookup.
Qed.
