(* ===== verification/CoordInit.v ===== *)
(** * The attention groups of a hybrid model

    What the constructors of the coordinator establish: the groups of layers that take part in
    prefix caching are split by spec and pool, and the searches of CoordLookup.v apply. *)

From S2P Require Import Prelude FreeQueue Request Hashing BlockPool PoolSpecs PoolTheorems.
From S2P Require Import SingleType SingleSpecs CacheHit Coordinator CoordLookup.

(** ** The split of the groups *)

Definition same_key (sg : SpecGroup) (g : KVCacheGroupSpec) : Prop :=
  sg_spec sg = kv_cache_spec g ∧ sg_pool_id sg = pool_id g.
Definition group_key (sg : SpecGroup) : KVCacheSpec * nat := (sg_spec sg, sg_pool_id sg).
Definition joined (sg : SpecGroup) (i : nat) (eagle : bool) : SpecGroup :=
  mkSpecGroup (sg_spec sg) (sg_group_ids sg ++ [i]) (sg_use_eagle sg || eagle) (sg_pool_id sg).

Lemma join_group_cases i g e groups :
  (∃ l1 sg l2, groups = l1 ++ sg :: l2 ∧ same_key sg g ∧
     join_group i g e groups = l1 ++ joined sg i e :: l2) ∨
  ((∀ sg, sg ∈ groups → ¬ same_key sg g) ∧
   join_group i g e groups = groups ++ [mkSpecGroup (kv_cache_spec g) [i] e (pool_id g)]).
Proof.
  induction groups as [|sg groups IH]; cbn [join_group]; [right; set_solver|].
  case_decide as Hk; [left; by exists [], sg, groups|].
  destruct IH as [(l1 & sg' & l2 & -> & Hsg & ->)|[Hno ->]].
  - left. by exists (sg :: l1), sg', l2.
  - right. split; [|done]. intros sg' [->|Hin]%elem_of_cons; [done|by apply Hno].
Qed.

(** The groups [groups] are the split of the cacheable groups among [seen]. *)
Record split_ok (eagle_ids : list nat) (seen : list (nat * KVCacheGroupSpec))
    (groups : list SpecGroup) : Prop := {
  so_member sg gid : sg ∈ groups → gid ∈ sg_group_ids sg →
    ∃ g, (gid, g) ∈ seen ∧ participates_in_prefix_caching (kv_cache_spec g) = true ∧ same_key sg g;
  so_cover gid g : (gid, g) ∈ seen → participates_in_prefix_caching (kv_cache_spec g) = true →
    ∃ sg, sg ∈ groups ∧ gid ∈ sg_group_ids sg;
  so_some sg : sg ∈ groups → sg_group_ids sg ≠ [];
  so_ids sg : sg ∈ groups → NoDup (sg_group_ids sg);
  so_eagle sg : sg ∈ groups →
    sg_use_eagle sg = true ↔ ∃ gid, gid ∈ sg_group_ids sg ∧ gid ∈ eagle_ids;
  so_keys : NoDup (group_key <$> groups)
}.

Lemma joined_ok eagle_ids seen l1 sg l2 i g :
  split_ok eagle_ids seen (l1 ++ sg :: l2) → same_key sg g → i ∉ seen.*1 →
  participates_in_prefix_caching (kv_cache_spec g) = true →
  split_ok eagle_ids (seen ++ [(i, g)]) (l1 ++ joined sg i (bool_decide (i ∈ eagle_ids)) :: l2).
Proof.
  intros [Hm Hc Hs Hi He Hk] Hkey Hnew Hp.
  assert (∀ sg', sg' ∈ l1 ++ joined sg i (bool_decide (i ∈ eagle_ids)) :: l2 →
    sg' ∈ l1 ++ sg :: l2 ∨ sg' = joined sg i (bool_decide (i ∈ eagle_ids))) as Hin.
  { intros sg'. rewrite !elem_of_app, !elem_of_cons. tauto. }
  assert (sg ∈ l1 ++ sg :: l2) as Hsg by (rewrite elem_of_app, elem_of_cons; tauto).
  split.
  - intros sg' gid [Hold | ->]%Hin Hgid.
    + destruct (Hm sg' gid Hold Hgid) as (g' & Hg' & ?). exists g'. set_solver.
    + apply elem_of_app in Hgid as [Hgid | ->%list_elem_of_singleton].
      * destruct (Hm sg gid Hsg Hgid) as (g' & Hg' & ? & ?). exists g'. set_solver.
      * exists g. split; [set_solver|done].
  - intros gid g' [Hold | [= -> ->]%list_elem_of_singleton]%elem_of_app Hp'.
    + destruct (Hc gid g' Hold Hp') as (sg' & Hsg' & Hgid). rewrite elem_of_app, elem_of_cons in Hsg'.
      destruct Hsg' as [? | [-> | ?]]; [exists sg'; set_solver| |exists sg'; set_solver].
      exists (joined sg i (bool_decide (i ∈ eagle_ids))). split; [set_solver|]. simpl. set_solver.
    + exists (joined sg i (bool_decide (i ∈ eagle_ids))). split; [set_solver|]. simpl. set_solver.
  - intros sg' [Hold | ->]%Hin; [by apply Hs|]. simpl. by destruct (sg_group_ids sg).
  - intros sg' [Hold | ->]%Hin; [by apply Hi|]. simpl. apply NoDup_app. split_and!; [by apply Hi| |apply NoDup_singleton].
    intros gid Hgid ->%list_elem_of_singleton. destruct (Hm sg i Hsg Hgid) as (g' & Hg' & _).
    apply Hnew. apply list_elem_of_fmap. by exists (i, g').
  - intros sg' [Hold | ->]%Hin; [by apply He|]. simpl. rewrite orb_true_iff, bool_decide_eq_true, (He sg Hsg).
    set_solver.
  - rewrite fmap_app, fmap_cons in *. exact Hk.
Qed.

Lemma fresh_ok eagle_ids seen groups i g :
  split_ok eagle_ids seen groups → (∀ sg, sg ∈ groups → ¬ same_key sg g) →
  participates_in_prefix_caching (kv_cache_spec g) = true →
  split_ok eagle_ids (seen ++ [(i, g)])
    (groups ++ [mkSpecGroup (kv_cache_spec g) [i] (bool_decide (i ∈ eagle_ids)) (pool_id g)]).
Proof.
  intros [Hm Hc Hs Hi He Hk] Hno Hp. set (new := mkSpecGroup _ _ _ _). split.
  - intros sg gid [Hold | ->%list_elem_of_singleton]%elem_of_app Hgid.
    + destruct (Hm sg gid Hold Hgid) as (g' & Hg' & ?). exists g'. set_solver.
    + apply list_elem_of_singleton in Hgid as ->. exists g. split; [set_solver|done].
  - intros gid g' [Hold | [= -> ->]%list_elem_of_singleton]%elem_of_app Hp'.
    + destruct (Hc gid g' Hold Hp') as (sg & ? & ?). exists sg. set_solver.
    + exists new. split; [set_solver|]. by left.
  - intros sg [Hold | ->%list_elem_of_singleton]%elem_of_app; [by apply Hs|done].
  - intros sg [Hold | ->%list_elem_of_singleton]%elem_of_app; [by apply Hi|apply NoDup_singleton].
  - intros sg [Hold | ->%list_elem_of_singleton]%elem_of_app; [by apply He|]. simpl.
    rewrite bool_decide_eq_true. set_solver.
  - rewrite fmap_app. apply NoDup_app. split_and!; [done| |apply NoDup_singleton].
    intros key (sg & -> & Hsg)%list_elem_of_fmap [= H1 H2]%list_elem_of_singleton. by apply (Hno sg Hsg).
Qed.

Lemma split_groups_ok c :
  split_ok (eagle_group_ids c) (imap (λ i g, (i, g)) (kv_cache_groups c)) (split_groups c).
Proof.
  unfold split_groups. set (all := imap _ _).
  assert (NoDup all.*1) as Hnd.
  { assert (all.*1 = seq 0 (length (kv_cache_groups c))) as ->; [|apply NoDup_seq].
    unfold all. rewrite fmap_imap. clear. apply list_eq. intros i. rewrite list_lookup_imap.
    destruct (decide (i < length (kv_cache_groups c))%nat) as [Hi|Hi].
    - rewrite lookup_seq_lt by done. by destruct (lookup_lt_is_Some_2 _ _ Hi) as [g ->].
    - rewrite lookup_seq_ge, lookup_ge_None_2 by lia. done. }
  enough (∀ rest seen groups, NoDup (seen ++ rest).*1 → split_ok (eagle_group_ids c) seen groups →
    split_ok (eagle_group_ids c) (seen ++ rest) (foldl (λ groups ig,
      if participates_in_prefix_caching (kv_cache_spec ig.2) then
        join_group ig.1 ig.2 (bool_decide (ig.1 ∈ eagle_group_ids c)) groups
      else groups) groups rest)) as Hgen.
  { apply (Hgen all [] []); [done|]. split; try set_solver. apply NoDup_nil_2. }
  clear. induction rest as [|[i g] rest IH]; intros seen groups Hnd Hok; [by rewrite app_nil_r|].
  cbn [foldl]. replace (seen ++ (i, g) :: rest) with ((seen ++ [(i, g)]) ++ rest) in *
    by (by rewrite <-app_assoc).
  apply IH; [done|].
  assert (i ∉ seen.*1) as Hi.
  { rewrite !fmap_app in Hnd. apply NoDup_app in Hnd as (Hnd & _). apply NoDup_app in Hnd as (_ & Hd & _).
    intros Hin. apply (Hd i Hin). by left. }
  simpl. destruct (participates_in_prefix_caching (kv_cache_spec g)) eqn:Hp.
  - destruct (join_group_cases i g (bool_decide (i ∈ eagle_group_ids c)) groups)
      as [(l1 & sg & l2 & -> & Hk & ->)|[Hno ->]]; [by apply joined_ok|by apply fresh_ok].
  - destruct Hok as [Hm Hc Hs Hids He Hk]. split; try done.
    + intros sg gid Hsg Hgid. destruct (Hm sg gid Hsg Hgid) as (g' & ? & ?). exists g'. set_solver.
    + intros gid g' [?|[= -> ->]%list_elem_of_singleton]%elem_of_app Hp'; [by eapply Hc|congruence].
Qed.

(** ** The constructors *)

Lemma res_bind_inv {A B} (x : res A) (f : A → res B) b :
  x ≫= f = Ok b → ∃ a, x = Ok a ∧ f a = Ok b.
Proof. destruct x as [a|e]; [by exists a|done]. Qed.

Lemma res_map_inv {A B} (f : A → res B) xs : ∀ ys, res_map f xs = Ok ys → Forall2 (λ x y, f x = Ok y) xs ys.
Proof.
  induction xs as [|x xs IH]; intros ys Hys; cbn [res_map] in Hys; [by injection Hys as <-|].
  apply res_bind_inv in Hys as (y & Hy & (ys' & Hys' & [= <-])%res_bind_inv). constructor; [done|by apply IH].
Qed.

Lemma assert_all_inv tests u : assert_all tests = Ok u → Forall (λ t, t = Ok true) tests.
Proof.
  induction tests as [|t tests IH]; cbn [assert_all]; [by constructor|].
  intros ([] & Ht & Hrest)%res_bind_inv; [constructor; [done|by apply IH]|done].
Qed.

Lemma divides_true d n : divides d n = Ok true → d ≠ 0 ∧ n mod d = 0.
Proof. unfold divides. case_decide; [done|]. intros [= Hb%bool_decide_eq_true]. done. Qed.

(** Setting the EAGLE flag changes nothing else of the managers. *)
Lemma set_eagle_lookup groups : ∀ managers gid m,
  managers !! gid = Some m → ∃ e, set_eagle groups managers !! gid = Some (m <| SingleType.use_eagle := e |>).
Proof.
  assert (∀ (ids : list nat) (managers : list SingleTypeKVCacheManager) gid m e, managers !! gid = Some (m <| SingleType.use_eagle := e |>) →
    ∃ e', foldl (λ managers gid, alter (λ m, m <| SingleType.use_eagle := true |>) gid managers) managers ids
      !! gid = Some (m <| SingleType.use_eagle := e' |>)) as Hids.
  { induction ids as [|i ids IH]; intros managers gid m e Hm; [by exists e|]. cbn [foldl].
    destruct (decide (i = gid)) as [->|Hne].
    - apply (IH _ _ m true). rewrite list_lookup_alter_eq, Hm. by destruct m.
    - apply (IH _ _ m e). by rewrite list_lookup_alter_ne. }
  intros managers gid m Hm. unfold set_eagle.
  assert (managers !! gid = Some (m <| SingleType.use_eagle := SingleType.use_eagle m |>)) as Hm'
    by (by destruct m).
  clear Hm. revert managers Hm'. generalize (SingleType.use_eagle m).
  induction groups as [|g groups IH]; intros e managers Hm; cbn [foldl]; [by exists e|].
  destruct (sg_use_eagle g); [|by eapply IH].
  destruct (Hids (sg_group_ids g) managers gid m e Hm) as [e' He']. by eapply IH.
Qed.

Lemma full_first_permutation groups : full_attention_first groups ≡ₚ groups.
Proof.
  unfold full_attention_first. induction groups as [|g groups IH]; [done|].
  rewrite !filter_cons. destruct (is_full_attention (sg_spec g)); repeat case_decide; try done.
  - simpl. by rewrite IH.
  - by rewrite <-Permutation_middle, IH.
Qed.

Lemma full_first_sorted groups k k' g g' :
  full_attention_first groups !! k = Some g → full_attention_first groups !! k' = Some g' →
  (k < k')%nat → is_full_attention (sg_spec g') = true → is_full_attention (sg_spec g) = true.
Proof.
  unfold full_attention_first. intros Hk Hk' Hlt Hf.
  apply lookup_app_Some in Hk' as [Hk'|[Hle Hk']].
  - rewrite lookup_app_l in Hk by (apply lookup_lt_Some in Hk'; lia).
    by apply list_elem_of_lookup_2, list_elem_of_filter in Hk as [].
  - apply list_elem_of_lookup_2, list_elem_of_filter in Hk' as []. congruence.
Qed.

Lemma split_ok_permutation eagle_ids seen groups groups' :
  groups ≡ₚ groups' → split_ok eagle_ids seen groups → split_ok eagle_ids seen groups'.
Proof.
  intros Hp [Hm Hc Hs Hi He Hk]. split.
  - intros sg gid. rewrite <-Hp. apply Hm.
  - intros gid g Hg Hpart. destruct (Hc gid g Hg Hpart) as (sg & ? & ?). exists sg. by rewrite <-Hp.
  - intros sg. rewrite <-Hp. apply Hs.
  - intros sg. rewrite <-Hp. apply Hi.
  - intros sg. rewrite <-Hp. apply He.
  - by rewrite <-Hp.
Qed.

(** Different groups of a split have no layer group in common. *)
Lemma split_ok_disjoint eagle_ids (all : list KVCacheGroupSpec) groups k k' sg sg' gid :
  split_ok eagle_ids (imap (λ i g, (i, g)) all) groups →
  groups !! k = Some sg → groups !! k' = Some sg' → gid ∈ sg_group_ids sg → gid ∈ sg_group_ids sg' → k = k'.
Proof.
  intros [Hm _ _ _ _ Hk] Hsg Hsg' Hin Hin'.
  destruct (Hm sg gid) as (g & Hg & _ & Hkey); [by eapply list_elem_of_lookup_2|done|].
  destruct (Hm sg' gid) as (g' & Hg' & _ & Hkey'); [by eapply list_elem_of_lookup_2|done|].
  apply elem_of_lookup_imap in Hg as (i & x & [= -> ->] & Hx), Hg' as (i' & x' & [= -> ->] & Hx').
  simplify_eq. eapply (NoDup_lookup _ _ _ (group_key sg) Hk); rewrite list_lookup_fmap.
  - by rewrite Hsg.
  - rewrite Hsg'. simpl. f_equal. unfold group_key. destruct Hkey, Hkey'. congruence.
Qed.

(** The configurations with prefix caching: every cacheable group is of a supported layer type,
    and its block size divides the scheduler's. *)
Definition supported (cfg : KVCacheConfig) (eagle : bool) (dcp sched hash : Z) : Prop :=
  0 < hash ∧ 0 < sched ∧ Z.of_nat (length (config_groups cfg)) ≤ 2 ^ 32 ∧
  ∀ gid g, config_groups cfg !! gid = Some g →
    participates_in_prefix_caching (kv_cache_spec g) = true →
    let spec := kv_cache_spec g in
    let bsz := spec_block_size spec * dcp_world_size_for_kv_cache_spec spec dcp in
    0 < bsz ∧ sched mod bsz = 0 ∧
    class_supported sched bsz (spec_class spec) (bool_decide (gid ∈ find_eagle_group_ids cfg eagle)).

Lemma set_eagle_length groups : ∀ managers, length (set_eagle groups managers) = length managers.
Proof.
  unfold set_eagle. induction groups as [|g groups IH]; intros managers; [done|]. cbn [foldl]. rewrite IH.
  destruct (sg_use_eagle g); [|done]. generalize managers. induction (sg_group_ids g) as [|i ids IH'];
    intros ms; [done|]. cbn [foldl]. rewrite IH'. apply length_alter.
Qed.
Section constructed.
Variable cfg : KVCacheConfig.
Variables (max_model_len max_in_flight_tokens : Z) (eagle events : bool).
Variables (dcp pcp sched hash : Z).
Variables (mc : option (list MetricsCall)) (lookahead : Z).
Abbreviation base := (new_KVCacheCoordinator cfg max_model_len max_in_flight_tokens eagle events
  dcp sched hash mc lookahead).
Abbreviation numbered := (imap (λ i g, (i, g)) (config_groups cfg)).

(** A manager of layers [spec] with empty tables. *)
Record fresh_manager (c : KVCacheCoordinator) (caching : bool) (spec : KVCacheSpec)
    (m : SingleTypeKVCacheManager) : Prop := {
  fm_class : manager_class m = spec_class spec;
  fm_size : block_size m = group_block_size c spec;
  fm_caching : st_enable_caching m = caching;
  fm_req : req_to_blocks m = ∅;
  fm_cached : num_cached_block m = ∅;
  fm_partial : _partial_hit_reqs m = ∅;
  fm_pending : _pending_cow_copies m = []
}.

(** What the constructor of the base class leaves behind. *)
Record base_ok (caching : bool) (c : KVCacheCoordinator) : Prop := {
  bo_groups : kv_cache_groups c = config_groups cfg;
  bo_sizes : coord_dcp_world_size c = dcp ∧ scheduler_block_size c = sched ∧ coord_hash_block_size c = hash;
  bo_eagle : eagle_group_ids c = find_eagle_group_ids cfg eagle;
  bo_hash : hash ≠ 0 ∧ sched mod hash = 0;
  bo_block g : g ∈ config_groups cfg → spec_block_size (kv_cache_spec g) ≠ 0 ∧
    sched mod spec_block_size (kv_cache_spec g) = 0;
  bo_pools : Forall2 (λ pid p, new_BlockPool (num_blocks cfg) caching hash events mc (Z.of_nat pid) = Ok p)
    (seq 0 (num_pools cfg)) (block_pools c);
  bo_managers : Forall2 (λ ig m, is_Some (block_pools c !! pool_id ig.2) ∧
    fresh_manager c caching (kv_cache_spec ig.2) m) numbered (single_type_managers c)
}.

Lemma base_constructed cls caching c :
  base cls caching = Ok c → base_ok caching c ∧ coordinator_class c = cls.
Proof.
  unfold new_KVCacheCoordinator.
  intros ([] & Hall%assert_all_inv & (pools & Hpools%res_map_inv & Hrest)%res_bind_inv)%res_bind_inv.
  destruct (caching && _ && _); [done|].
  apply res_bind_inv in Hrest as (ms & Hms%res_map_inv & (u & _ & [= <-])%res_bind_inv).
  apply Forall_cons in Hall as [Hh%divides_true Hall]. split; [|done]. split; simpl; try done.
  - intros g Hg. rewrite Forall_fmap, Forall_forall in Hall. apply divides_true. by apply Hall.
  - eapply Forall2_impl; [exact Hms|]. intros [i g] m. simpl.
    destruct (pools !! pool_id g) as [p|]; [|done]. intros [= <-]. split; [eauto|].
    split; try done. simpl. unfold group_block_size. simpl. apply dcp_size.
Qed.

Abbreviation coordinator := (get_kv_cache_coordinator cfg max_model_len max_in_flight_tokens eagle events
  dcp pcp sched hash mc lookahead).

(** The hybrid coordinator: the base class with the split groups. *)
Lemma hybrid_constructed c partial groups :
  coordinator true = Ok c → coordinator_class c = HybridKVCacheCoordinator partial groups →
  ∃ c0, base_ok true c0 ∧ partial = false ∧ groups = full_attention_first (split_groups c0) ∧ groups ≠ [] ∧
    (∀ mg, mg ∈ zip (single_type_managers c0) (kv_cache_groups c0) →
       participates_in_prefix_caching (kv_cache_spec mg.2) = true → block_size mg.1 mod hash = 0) ∧
    kv_cache_groups c = kv_cache_groups c0 ∧ block_pools c = block_pools c0 ∧
    eagle_group_ids c = eagle_group_ids c0 ∧
    coord_dcp_world_size c = dcp ∧ scheduler_block_size c = sched ∧ coord_hash_block_size c = hash ∧
    ∀ gid m, single_type_managers c0 !! gid = Some m →
      ∃ m', single_type_managers c !! gid = Some m' ∧ block_size m' = block_size m.
Proof.
  unfold get_kv_cache_coordinator. simpl. case_decide as Hone.
  { unfold new_Unitary. intros (c0 & [_ Hcls]%base_constructed & Hrest)%res_bind_inv Hc.
    destruct (single_type_managers c0 !! 0%nat); [|done]. destruct (true && _); [done|].
    case_decide; [done|]. injection Hrest as <-. simpl in Hc. congruence. }
  unfold new_Hybrid.
  intros (c0 & [Hok Hcls]%base_constructed & (u & Hall%assert_all_inv & Hrest)%res_bind_inv)%res_bind_inv Hc.
  case_decide; [done|]. destruct (bool_decide (dcp > 1) && _); [done|].
  unfold verify_and_split_kv_cache_groups in Hrest. case_decide as Hne; [done|]. injection Hrest as <-.
  simpl in Hc. injection Hc as <- <-. exists c0. pose proof (bo_sizes _ _ Hok) as (Hd & Hs & Hh).
  split_and!; try done.
  - intros He. apply Hne. apply Permutation_nil_r. rewrite <-He. symmetry.
    apply full_first_permutation.
  - intros mg Hmg Hp. rewrite Forall_fmap, Forall_forall in Hall. apply (divides_true hash). apply Hall.
    by apply list_elem_of_filter.
  - intros gid m Hm. simpl.
    destruct (set_eagle_lookup (full_attention_first (split_groups c0))
      ((λ m, m <| cache_hit_alignment_tokens := _cache_hit_alignment_tokens c0 false |>) <$> single_type_managers c0)
      gid (m <| cache_hit_alignment_tokens := _cache_hit_alignment_tokens c0 false |>)) as [e He].
    { by rewrite list_lookup_fmap, Hm. }
    eexists. split; [exact He|done].
Qed.

(** Any coordinator: the base class, up to the settings of the managers. *)
Lemma coordinator_base caching c :
  coordinator caching = Ok c →
  ∃ caching' c0, base_ok caching' c0 ∧ caching' = caching ∧ kv_cache_groups c = kv_cache_groups c0 ∧
    coord_dcp_world_size c = coord_dcp_world_size c0 ∧ block_pools c = block_pools c0 ∧
    length (single_type_managers c) = length (single_type_managers c0) ∧
    ∀ i m0, single_type_managers c0 !! i = Some m0 → ∃ a e, single_type_managers c !! i =
      Some (m0 <| cache_hit_alignment_tokens := a |> <| SingleType.use_eagle := e |>).
Proof.
  intros Hc. unfold get_kv_cache_coordinator in Hc. destruct caching; simpl in Hc.
  - case_decide.
    + apply res_bind_inv in Hc as (c0 & [Hok _]%base_constructed & Hrest). exists true, c0.
      destruct (single_type_managers c0 !! 0%nat) eqn:Hm0; [|done]. destruct (true && _); [done|].
      case_decide; [done|]. injection Hrest as <-. split_and!; try done; simpl.
      * by rewrite length_alter.
      * intros i m Hm. destruct (decide (i = 0)%nat) as [->|Hne].
        -- rewrite list_lookup_alter_eq, Hm. by eexists (cache_hit_alignment_tokens m), _; destruct m.
        -- rewrite list_lookup_alter_ne, Hm by done.
           exists (cache_hit_alignment_tokens m), (SingleType.use_eagle m). by destruct m.
    + apply res_bind_inv in Hc as (c0 & [Hok _]%base_constructed & (u & _ & Hrest)%res_bind_inv).
      exists true, c0. case_decide; [done|]. destruct (bool_decide (dcp > 1) && _); [done|].
      unfold verify_and_split_kv_cache_groups in Hrest. case_decide; [done|]. injection Hrest as <-.
      split_and!; try done; simpl.
      * rewrite set_eagle_length. apply length_fmap.
      * intros i m Hm. exists (_cache_hit_alignment_tokens c0 false).
        match goal with |- context [set_eagle ?gs ?ms] => destruct (set_eagle_lookup gs ms i
          (m <| cache_hit_alignment_tokens := _cache_hit_alignment_tokens c0 false |>)) as [e He] end.
        { by rewrite list_lookup_fmap, Hm. }
        exists e. exact He.
  - apply base_constructed in Hc as [Hok _]. exists false, c. split_and!; try done.
    intros i m Hm. exists (cache_hit_alignment_tokens m), (SingleType.use_eagle m). rewrite Hm. by destruct m.
Qed.

Lemma coordinator_constructed caching c :
  coordinator caching = Ok c →
  kv_cache_groups c = config_groups cfg ∧ coord_dcp_world_size c = dcp ∧
  length (single_type_managers c) = length (config_groups cfg) ∧
  Forall2 (λ pid p, new_BlockPool (num_blocks cfg) caching hash events mc (Z.of_nat pid) = Ok p)
    (seq 0 (num_pools cfg)) (block_pools c) ∧
  ∀ i m, single_type_managers c !! i = Some m → ∃ g, config_groups cfg !! i = Some g ∧
    is_Some (block_pools c !! pool_id g) ∧ fresh_manager c caching (kv_cache_spec g) m.
Proof.
  intros Hc. destruct (coordinator_base caching c Hc) as (caching' & c0 & Hok & -> & Hg & Hd & Hp & Hl & Hms).
  destruct Hok as [Hgs (Hdcp & _) _ _ _ Hpools Hm0]. rewrite Hg, Hp, Hd, Hl. split_and!; try done.
  { by rewrite <-(Forall2_length _ _ _ Hm0), length_imap. }
  intros i m Hm. destruct (lookup_lt_is_Some_2 (single_type_managers c0) i) as [m0 Hi].
  { rewrite <-Hl. by eapply lookup_lt_Some. }
  destruct (Forall2_lookup_r _ _ _ _ _ Hm0 Hi) as ([i' g] & Hig & Hpool & Hf).
  rewrite list_lookup_imap in Hig. apply fmap_Some in Hig as (g' & Hg' & [= -> ->]). exists g'.
  split_and!; [done|done|]. destruct (Hms _ m0 Hi) as (a & e & Hm'). rewrite Hm in Hm'. injection Hm' as ->.
  destruct Hf as [A B D E F G I]. split; try done. simpl. rewrite B. unfold group_block_size. by rewrite Hd.
Qed.
Lemma constructed_member c0 sg gid :
  base_ok true c0 → sg ∈ full_attention_first (split_groups c0) → gid ∈ sg_group_ids sg →
  ∃ g m, config_groups cfg !! gid = Some g ∧ single_type_managers c0 !! gid = Some m ∧
    participates_in_prefix_caching (kv_cache_spec g) = true ∧ same_key sg g ∧
    is_Some (block_pools c0 !! sg_pool_id sg) ∧
    block_size m = spec_block_size (sg_spec sg) * dcp_world_size_for_kv_cache_spec (sg_spec sg) dcp ∧
    (m, g) ∈ zip (single_type_managers c0) (kv_cache_groups c0).
Proof.
  intros Hok Hsg Hgid. rewrite full_first_permutation in Hsg.
  destruct (so_member _ _ _ (split_groups_ok c0) sg gid Hsg Hgid) as (g & Hg & Hp & Hkey).
  apply elem_of_lookup_imap in Hg as (i & g' & [= -> ->] & Hi).
  destruct Hok as [Hgs (Hd & _) _ _ _ _ Hms]. pose proof Hi as Hi0. rewrite Hgs in Hi.
  destruct (Forall2_lookup_l _ _ _ i (i, g') Hms) as (m & Hm & Hpool & [_ Hbm _ _ _ _ _]).
  { by rewrite list_lookup_imap, Hi. }
  exists g', m. destruct Hkey as [Hk1 Hk2]. split_and!; try done.
  - by rewrite Hk2.
  - rewrite Hbm. unfold group_block_size. by rewrite Hd, Hk1.
  - apply list_elem_of_lookup. exists i. rewrite lookup_zip_with, Hm. simpl. by rewrite Hi0.
Qed.

Lemma constructed_pool c0 pid p :
  base_ok true c0 → block_pools c0 !! pid = Some p → cache_wf p ∧ hash_block_size p = hash.
Proof.
  intros Hok Hpool. destruct (Forall2_lookup_r _ _ _ _ _ (bo_pools _ _ Hok) Hpool) as (i & _ & Hnew).
  destruct (decide (0 < num_blocks cfg)) as [Hn|Hn].
  - destruct (new_BlockPool_spec (num_blocks cfg) true hash events mc (Z.of_nat i) Hn)
      as (p' & Hp' & _ & Hcw & _ & _ & Hhb & _). rewrite Hp' in Hnew. by injection Hnew as <-.
  - unfold new_BlockPool in Hnew. by rewrite decide_False in Hnew by lia.
Qed.

Lemma constructed_group_wf c groups sg :
  coordinator true = Ok c → coordinator_class c = HybridKVCacheCoordinator false groups →
  supported cfg eagle dcp sched hash → sg ∈ groups → group_wf c sg.
Proof.
  intros Hc Hcls (Hh0 & Hs0 & Hlen & Hsup) Hsg.
  destruct (hybrid_constructed c false groups Hc Hcls)
    as (c0 & Hok & _ & -> & Hne & Hmod & Hgs & Hps & _ & Hd & Hs & Hh & Hms).
  pose proof (constructed_member c0 sg) as Hmem.
  assert (group_block_size c (sg_spec sg) =
    spec_block_size (sg_spec sg) * dcp_world_size_for_kv_cache_spec (sg_spec sg) dcp) as Hgb
    by (unfold group_block_size; by rewrite Hd).
  pose proof Hsg as Hsg'. rewrite full_first_permutation in Hsg'.
  pose proof (split_groups_ok c0) as [_ _ Hsome Hids Heag _].
  assert (∃ gid0, gid0 ∈ sg_group_ids sg) as [gid0 Hin0].
  { specialize (Hsome sg Hsg'). destruct (sg_group_ids sg) as [|i]; [done|]. exists i. by left. }
  destruct (Hmem gid0 Hok Hsg Hin0) as (g0 & m0 & Hg0 & Hm0 & Hp0 & [Hk0 _] & Hpool & Hb0 & Hz0).
  destruct (Hsup gid0 g0 Hg0 Hp0) as (Hbp & Hsb & Hcl). rewrite <-Hk0 in Hbp, Hsb, Hcl.
  split.
  - destruct Hpool as [p Hpool]. exists p. rewrite Hps, Hh. split; [done|]. by eapply constructed_pool.
  - intros gid Hgid. destruct (Hmem gid Hok Hsg Hgid) as (g & m & Hg & Hm & _ & _ & _ & Hb & _).
    pose proof (lookup_lt_Some _ _ _ Hg). rewrite Hgs, (bo_groups _ _ Hok). split_and!; [done|lia|].
    destruct (Hms gid m Hm) as (m' & Hm' & Hb'). exists m'. split; [done|]. congruence.
  - by apply Hsome.
  - by apply Hids.
  - rewrite Hgb, Hs, Hh. split_and!; [done| |done]. rewrite <-Hb0. by apply (Hmod (m0, g0)).
  - rewrite Hgb, Hs. destruct (sg_use_eagle sg) eqn:He.
    + apply Heag in He as (gid & Hgid & Hin); [|done].
      destruct (Hmem gid Hok Hsg Hgid) as (g & m & Hg & _ & Hp & [Hk _] & _).
      destruct (Hsup gid g Hg Hp) as (_ & _ & Hcl'). rewrite <-Hk in Hcl'.
      rewrite <-(bo_eagle _ _ Hok), bool_decide_eq_true_2 in Hcl' by done. done.
    + unfold class_supported in *. destruct (spec_class (sg_spec sg)); naive_solver.
Qed.

Lemma hybrid_constructed_wf c groups :
  coordinator true = Ok c → coordinator_class c = HybridKVCacheCoordinator false groups →
  supported cfg eagle dcp sched hash → hybrid_wf c groups.
Proof.
  intros Hc Hcls Hsup. pose proof (hybrid_constructed c false groups Hc Hcls)
    as (c0 & Hok & _ & -> & Hne & _ & Hgs & _ & Heg & _ & Hs & Hh & _).
  pose proof Hsup as (? & ? & ? & ?). split; [by rewrite Hh|by rewrite Hs|done| |].
  - intros g Hg. by eapply constructed_group_wf.
  - intros k k' g g' gid. eapply split_ok_disjoint. eapply split_ok_permutation; [|apply split_groups_ok].
    symmetry. apply full_first_permutation.
Qed.

(** The constructor of the coordinator of a hybrid model splits the groups of layers
    correctly.  Every cacheable group is in exactly one attention group, together with the
    groups of the same spec and pool; an attention group drops the EAGLE block exactly when one
    of its members does; full attention comes first; and the result satisfies all that the
    prefix search relies on. *)
Lemma hybrid_groups_partition c partial groups :
  coordinator true = Ok c → coordinator_class c = HybridKVCacheCoordinator partial groups →
  supported cfg eagle dcp sched hash →
  partial = false ∧ hybrid_wf c groups ∧
  (∀ gid g, config_groups cfg !! gid = Some g →
     participates_in_prefix_caching (kv_cache_spec g) = true →
     ∃ sg, sg ∈ groups ∧ gid ∈ sg_group_ids sg) ∧
  (∀ sg gid, sg ∈ groups → gid ∈ sg_group_ids sg → ∃ g, config_groups cfg !! gid = Some g ∧
     participates_in_prefix_caching (kv_cache_spec g) = true ∧ same_key sg g) ∧
  (∀ sg, sg ∈ groups →
     sg_use_eagle sg = true ↔ ∃ gid, gid ∈ sg_group_ids sg ∧ gid ∈ find_eagle_group_ids cfg eagle) ∧
  (∀ k k' sg sg', groups !! k = Some sg → groups !! k' = Some sg' → (k < k')%nat →
     is_full_attention (sg_spec sg') = true → is_full_attention (sg_spec sg) = true).
Proof.
  intros Hc Hcls Hsup. pose proof (hybrid_constructed c partial groups Hc Hcls)
    as (c0 & Hok & -> & -> & Hne & _ & Hgs & _ & Heg & _ & Hs & Hh & _).
  pose proof (split_ok_permutation _ _ _ _ (symmetry (full_first_permutation (split_groups c0)))
    (split_groups_ok c0)) as Hsplit.
  split; [done|]. split; [by apply hybrid_constructed_wf|split_and!].
  - intros gid g Hg Hp. apply (so_cover _ _ _ Hsplit gid g); [|done].
    apply elem_of_lookup_imap. exists gid, g. by rewrite (bo_groups _ _ Hok).
  - intros sg gid Hsg Hgid. destruct (constructed_member c0 sg gid Hok Hsg Hgid) as (g & m & ? & ? & ? & ? & _).
    eauto.
  - intros sg Hsg. rewrite (so_eagle _ _ _ Hsplit sg Hsg). by rewrite (bo_eagle _ _ Hok).
  - intros k k' sg sg'. apply full_first_sorted.
Qed.
End constructed.

(** ** The common prefix *)

Lemma hybrid_search_exact c groups hashes max_length :
  hybrid_wf c groups → 0 ≤ max_length → max_length // coord_hash_block_size c ≤ len hashes →
  ∃ blocks h extra,
    find_longest_cache_hit_hybrid c false (HashList hashes) max_length groups = Ok (blocks, h, extra) ∧
    length blocks = length (kv_cache_groups c) ∧
    0 ≤ h ≤ max_length ∧ h mod scheduler_block_size c = 0 ∧
    (∀ g, g ∈ groups → group_hit_at c hashes g h ((λ gid, blocks !!! gid) <$> sg_group_ids g)) ∧
    ((∀ g, g ∈ groups → sg_use_eagle g = false) →
     ∀ n, 0 ≤ n ≤ max_length → n mod scheduler_block_size c = 0 →
       (∀ g, g ∈ groups → group_usable_at c hashes g n) → n ≤ h).
Proof.
  intros Hwf Hmax Hlen.
  edestruct (hybrid_search c false (HashList hashes) max_length Hmax groups
    (group_hit_at c hashes) (group_usable_at c hashes)) as (blocks & h & extra & Hrun & Hl & Hh & Hmod & Hbd & Hhit).
  - intros g Hg. by apply (group_lookup c groups).
  - intros g gid Hg Hgid. destruct (hw_groups _ _ Hwf g Hg) as [_ Hids _ _ _ _].
    destruct (Hids gid Hgid) as (? & _ & m & ? & _). eauto.
  - intros g Hg. by apply (hw_groups _ _ Hwf).
  - apply (hw_disjoint _ _ Hwf).
  - intros g Hg. by apply (hw_groups _ _ Hwf).
  - intros g Hg. unfold margin_of. pose proof (hw_groups _ _ Hwf g Hg) as Hgw.
    rewrite (manager_size c g Hgw). apply Hgw.
  - apply Hwf.
  - exists blocks, h, extra. split_and!; try done; try lia. intros He n Hn Hnm Hu. by apply (Hbd He).
Qed.

(** C33: The search for a common prefix in a hybrid model ends, never raises, and is exact.
    The groups of layers (full, sliding-window, chunked-local, R-SWA) end up with hits of one
    length, a multiple of the scheduler's block size and at most the limit: every block with a
    token that the next query sees is cached for its group under the hash of its position, and
    the other blocks are null or cached.  Without EAGLE groups no longer prefix could be used
    by all groups. *)
Theorem hybrid_hit_common c groups hashes max_length :
  hybrid_wf c groups → 0 ≤ max_length → max_length // coord_hash_block_size c ≤ len hashes →
  ∃ blocks h extra,
    find_longest_cache_hit_hybrid c false (HashList hashes) max_length groups = Ok (blocks, h, extra) ∧
    length blocks = length (kv_cache_groups c) ∧
    0 ≤ h ≤ max_length ∧ h mod scheduler_block_size c = 0 ∧
    (∀ g, g ∈ groups → group_hit_at c hashes g h ((λ gid, blocks !!! gid) <$> sg_group_ids g)) ∧
    ((∀ g, g ∈ groups → sg_use_eagle g = false) →
     ∀ n, 0 ≤ n ≤ max_length → n mod scheduler_block_size c = 0 →
       (∀ g, g ∈ groups → group_usable_at c hashes g n) → n ≤ h).
Proof. apply hybrid_search_exact. Qed.

(** ** Later states *)

(** [c'] has the configuration of [c]; its pools have other contents. *)
Record coord_same (c c' : KVCacheCoordinator) : Prop := {
  cs_groups : kv_cache_groups c' = kv_cache_groups c;
  cs_sizes : coord_dcp_world_size c' = coord_dcp_world_size c ∧
    scheduler_block_size c' = scheduler_block_size c ∧ coord_hash_block_size c' = coord_hash_block_size c;
  cs_pools : Forall2 (λ p p', hash_block_size p' = hash_block_size p ∧ cache_wf p')
    (block_pools c) (block_pools c');
  cs_managers : Forall2 (λ m m', block_size m' = block_size m)
    (single_type_managers c) (single_type_managers c')
}.

Lemma hybrid_wf_same c c' groups : hybrid_wf c groups → coord_same c c' → hybrid_wf c' groups.
Proof.
  intros [Hh Hs Hne Hgs Hdis] [Eg (Ed & Es & Eh) Hps Hms].
  assert (∀ spec, group_block_size c' spec = group_block_size c spec) as Eb
    by (intros spec; unfold group_block_size; by rewrite Ed).
  split; [by rewrite Eh|by rewrite Es|done| |done].
  intros g Hg. destruct (Hgs g Hg) as [(p & Hp & _ & Hph) Hids Hsome Hnd Hsize Hcls].
  split; rewrite ?Es, ?Eh, ?Eb; try done.
  - destruct (Forall2_lookup_l _ _ _ _ _ Hps Hp) as (p' & Hp' & Hh' & Hc'). exists p'.
    split_and!; [done|done|congruence].
  - intros gid Hgid. destruct (Hids gid Hgid) as (? & ? & m & Hm & Hb). rewrite Eg. split_and!; [done|done|].
    destruct (Forall2_lookup_l _ _ _ _ _ Hms Hm) as (m' & Hm' & Hb'). exists m'. split; [done|congruence].
Qed.

(** ** A model with sliding-window and full-attention layers *)

Definition window_layers : KVCacheGroupSpec := mkGroup (mkSpec (SlidingWindowManager 5 0) 4 0) false 0.
Definition full_layers : KVCacheGroupSpec := mkGroup (mkSpec FullAttentionManager 8 0) false 0.
Definition demo_config : KVCacheConfig := mkKVCacheConfig 9 [window_layers; full_layers; window_layers] None false.
Definition demo_coordinator : KVCacheCoordinator :=
  match get_kv_cache_coordinator demo_config 64 16 false false 1 1 8 4 None 0 true with
  | Ok c => c
  | Raise _ => mkCoordinator KVCacheCoordinatorNoPrefixCache [] 0 0 0 0 [] [] [] None
  end.
Definition demo_groups : list SpecGroup :=
  [mkSpecGroup (kv_cache_spec full_layers) [1%nat] false 0;
   mkSpecGroup (kv_cache_spec window_layers) [0%nat; 2%nat] false 0].

Lemma demo_coordinator_new :
  get_kv_cache_coordinator demo_config 64 16 false false 1 1 8 4 None 0 true = Ok demo_coordinator ∧
  coordinator_class demo_coordinator = HybridKVCacheCoordinator false demo_groups.
Proof. vm_compute. done. Qed.

Lemma demo_supported : supported demo_config false 1 8 4.
Proof.
  split_and!; [lia|lia|vm_compute; done|].
  intros [|[|[|gid]]] g [= <-] _; vm_compute; done.
Qed.

(** The first two full-attention blocks and, for the window layers, the last two blocks of
    16 tokens are cached. *)
Definition hybrid_hashes : list bytes := [[1]; [2]; [3]; [4]; [5]].
Definition hybrid_keys : list (bytes * nat * Z) :=
  [([2] ++ be_bytes 4 1, 1%nat, 8); ([4] ++ be_bytes 4 1, 2%nat, 16);
   ([4] ++ be_bytes 4 0, 3%nat, 16); ([4] ++ be_bytes 4 2, 4%nat, 16)].
Definition fill_keys (keys : list (bytes * nat * Z)) : P unit :=
  for_ keys (λ '(k, i, nt), _insert_block_hash k i (Some nt)).
Lemma fill_keys_wf keys p :
  cache_wf p → Forall (λ '(_, i, _), 0 < Z.of_nat i < num_gpu_blocks p) keys →
  wp (fill_keys keys) (λ _ p', cache_wf p' ∧ alloc_same p p') p.
Proof.
  intros Hp Hk. eapply (wp_for (λ _ p', cache_wf p' ∧ alloc_same p p')); [done|].
  intros pre [[k i] nt] post p1 -> (Hp1 & Hs). rewrite Forall_app, Forall_cons in Hk. destruct Hk as (_ & Hi & _).
  rewrite <-(cfg_num _ _ (as_config _ _ Hs)) in Hi.
  eapply wp_mono; [apply insert_block_hash_spec; [done|exact Hi]|].
  intros [] p2 [Ha Hc _ _ _ _]. split; [done|by etrans].
Qed.

Lemma coord_same_pools c f :
  (∀ p, p ∈ block_pools c → hash_block_size (f p) = hash_block_size p ∧ cache_wf (f p)) →
  coord_same c (c <| block_pools ::= fmap f |>).
Proof.
  intros Hf. split; [done|done| |by apply Forall_Forall2_diag, Forall_forall]. simpl.
  apply Forall2_fmap_r, Forall_Forall2_diag, Forall_forall. exact Hf.
Qed.

Definition fill_pool (p : BlockPool) : BlockPool :=
  match fill_keys hybrid_keys p with Ok (_, p') => p' | Raise _ => p end.

Lemma fill_pool_ok p :
  p ∈ block_pools demo_coordinator → cache_wf (fill_pool p) ∧ alloc_same p (fill_pool p).
Proof.
  intros Hp. assert (num_gpu_blocks p = 9 ∧ new_BlockPool 9 true 4 false None 0 = Ok p) as [Hn Hnew].
  { revert Hp. clear. vm_compute. intros ->%list_elem_of_singleton. done. }
  apply new_pool_wf in Hnew as [_ Hpwf]. unfold fill_pool.
  destruct (proj1 (wp_run _ _ _) (fill_keys_wf hybrid_keys p Hpwf ltac:(rewrite Hn; repeat constructor; lia)))
    as (u & p' & Hrun & Hc & Ha). rewrite Hrun. split; assumption.
Qed.

Definition hybrid_filled : KVCacheCoordinator := demo_coordinator <| block_pools ::= fmap fill_pool |>.

Lemma hybrid_filled_wf : hybrid_wf hybrid_filled demo_groups.
Proof.
  destruct demo_coordinator_new as [Hnew Hcls].
  pose proof (hybrid_constructed_wf _ _ _ _ _ _ _ _ _ _ _ _ _ Hnew Hcls demo_supported) as Hwf.
  eapply hybrid_wf_same; [exact Hwf|]. apply coord_same_pools. intros p Hp.
  destruct (fill_pool_ok p Hp) as [Hc Ha]. split; [|exact Hc]. apply (cfg_hbs _ _ (as_config _ _ Ha)).
Qed.

Lemma hybrid_hit_common_witness :
  find_longest_cache_hit_hybrid hybrid_filled false (HashList hybrid_hashes) 19 demo_groups =
    Ok ([[0; 0; 0; 3]%nat; [1; 2]%nat; [0; 0; 0; 4]%nat], 16, 0) ∧
  ∃ blocks h extra,
    find_longest_cache_hit_hybrid hybrid_filled false (HashList hybrid_hashes) 19 demo_groups =
      Ok (blocks, h, extra) ∧ 0 ≤ h ≤ 19 ∧ h mod scheduler_block_size hybrid_filled = 0.
Proof.
  split; [vm_compute; reflexivity|].
  destruct (hybrid_hit_common hybrid_filled demo_groups hybrid_hashes 19 hybrid_filled_wf)
    as (blocks & h & extra & Hrun & _ & Hh & Hmod & _); [lia|vm_compute; done|].
  exists blocks, h, extra. split; [exact Hrun|]. split; [exact Hh|exact Hmod].
Defined.
