(* ===== verification/CoordSpecs.v ===== *)
(** * The invariant of the coordinator

    The managers of all cache groups on their shared pools: the reference count of a block is
    the number of places in all tables that list it, and the blocks that a request still fills
    are in no other place.  The operations on single managers
    (SingleSpecs.v) lift to loops over the managers that share a budget of free blocks. *)

From S2P Require Import Prelude FreeQueue Request Hashing BlockPool PoolSpecs PoolTheorems.
From S2P Require Import SingleType SingleSpecs SingleTheorems Uncached CacheHit Coordinator.

(** ** Shared reference counts *)

Definition held_on (k j : nat) (m : SingleTypeKVCacheManager) (g : KVCacheGroupSpec) : Z :=
  if decide (pool_id g = k) then held m j else 0.
Definition pool_held (c : KVCacheCoordinator) (k j : nat) : Z :=
  sumZ (zip_with (held_on k j) (single_type_managers c) (kv_cache_groups c)).

(** The references to block [j] by the others, from the [i]-th manager's point of view; [ext]
    gives the references to the blocks of each pool from outside, such as transfers in flight. *)
Definition others (ext : nat → nat → Z) (c : KVCacheCoordinator) (i j : nat) : Z :=
  match single_type_managers c !! i, kv_cache_groups c !! i with
  | Some m, Some g => ext (pool_id g) j + pool_held c (pool_id g) j - held m j
  | _, _ => 0
  end.

(** [L] gives the free list of each pool. *)
Record coord_refs (ext : nat → nat → Z) (c : KVCacheCoordinator) (L : nat → list nat) : Prop := {
  cw_len : length (single_type_managers c) = length (kv_cache_groups c);
  cw_at i : (i < length (single_type_managers c))%nat → is_Some (manager_at c i);
  cw_wf i m g : manager_at c i = Some m → kv_cache_groups c !! i = Some g →
    st_wf (others ext c i) m (L (pool_id g));
  cw_pool k p : block_pools c !! k = Some p → alloc_wf p (L k) ∧ cache_wf p
}.

(** A block that one table still fills is in no other place. *)
Record coord_private (c : KVCacheCoordinator) : Prop := {
  cp_ok i m : manager_at c i = Some m → uncached_ok m;
  cp_private i i' m m' g g' rid j rid' j' b : i ≠ i' →
    manager_at c i = Some m → kv_cache_groups c !! i = Some g →
    manager_at c i' = Some m' → kv_cache_groups c !! i' = Some g' → pool_id g = pool_id g' →
    uncached m rid j b → ¬ at_pos m' rid' j' b
}.

Record coord_wf (ext : nat → nat → Z) (c : KVCacheCoordinator) (L : nat → list nat) : Prop := {
  cw_refs :> coord_refs ext c L;
  cw_private : coord_private c
}.

(** No block of [hits], the blocks that the [i]-th manager is about to take over, is still
    being filled. *)
Definition none_uncached (c : KVCacheCoordinator) (hits : nat → list nat) : Prop :=
  ∀ i g i' m' g' rid j b, kv_cache_groups c !! i = Some g → b ∈ hits i →
    manager_at c i' = Some m' → kv_cache_groups c !! i' = Some g' → pool_id g = pool_id g' →
    ¬ uncached m' rid j b.

(** The coordinator after its [i]-th manager has become [m']. *)
Definition put (c : KVCacheCoordinator) (i : nat) (g : KVCacheGroupSpec)
    (m' : SingleTypeKVCacheManager) : KVCacheCoordinator :=
  c <| single_type_managers ::= <[i := m']> |> <| block_pools ::= <[pool_id g := block_pool m']> |>.
Definition upd_list (L : nat → list nat) (k : nat) (l : list nat) : nat → list nat :=
  λ k', if decide (k' = k) then l else L k'.

Section coord.
Context `{SetIter}.
Variable ext : nat → nat → Z.
Hypothesis ext_nonneg : ∀ k j, 0 ≤ ext k j.

Lemma manager_at_inv c i m :
  manager_at c i = Some m → ∃ m0 g p, single_type_managers c !! i = Some m0 ∧
    kv_cache_groups c !! i = Some g ∧ block_pools c !! pool_id g = Some p ∧ m = m0 <| block_pool := p |>.
Proof.
  unfold manager_at. intros (m0 & Hm0 & (g & Hg & (p & Hp & [= <-])%bind_Some)%bind_Some)%bind_Some.
  by exists m0, g, p.
Qed.

Lemma manager_at_intro c i m g p :
  single_type_managers c !! i = Some m → kv_cache_groups c !! i = Some g →
  block_pools c !! pool_id g = Some p → manager_at c i = Some (m <| block_pool := p |>).
Proof. unfold manager_at. intros -> Hg Hp. simpl. rewrite Hg. simpl. by rewrite Hp. Qed.

Lemma held_set_pool m p j : held (m <| block_pool := p |>) j = held m j.
Proof. done. Qed.

Lemma pool_held_put c i g m m' k j :
  single_type_managers c !! i = Some m → kv_cache_groups c !! i = Some g →
  pool_held (put c i g m') k j = pool_held c k j - held_on k j m g + held_on k j m' g.
Proof.
  intros Hm Hg. unfold pool_held. simpl.
  rewrite <-(sumZ_insert _ i (held_on k j m g)) by (by rewrite lookup_zip_with, Hm; simpl; rewrite Hg).
  f_equal. rewrite insert_zip_with. f_equal. by rewrite list_insert_id.
Qed.

Lemma held_on_nonneg k j ms gs n : n ∈ zip_with (held_on k j) ms gs → 0 ≤ n.
Proof.
  intros (m & g & -> & _)%elem_of_zip_with. unfold held_on. case_decide; [apply held_nonneg|lia].
Qed.

Lemma others_nonneg c i j : 0 ≤ others ext c i j.
Proof.
  unfold others. destruct (single_type_managers c !! i) as [m|] eqn:Hm; [|lia].
  destruct (kv_cache_groups c !! i) as [g|] eqn:Hg; [|lia].
  assert (held m j ≤ pool_held c (pool_id g) j); [|specialize (ext_nonneg (pool_id g) j); lia].
  apply (sumZ_lookup_le _ i); [apply held_on_nonneg|]. rewrite lookup_zip_with, Hm. simpl. rewrite Hg. simpl.
  unfold held_on. by rewrite decide_True.
Qed.

(** The managers after [put]. *)
Lemma manager_at_put c i m g m' i' :
  manager_at c i = Some m → kv_cache_groups c !! i = Some g →
  (i' = i ∧ manager_at (put c i g m') i' = Some m') ∨
  (i' ≠ i ∧ ∀ g', kv_cache_groups c !! i' = Some g' →
     manager_at (put c i g m') i' = (λ x, if decide (pool_id g' = pool_id g)
       then x <| block_pool := block_pool m' |> else x) <$> manager_at c i').
Proof.
  intros Hm Hg. destruct (manager_at_inv c i m Hm) as (m0 & g0 & p & Hm0 & Hg0 & Hp & ->).
  rewrite Hg in Hg0. injection Hg0 as <-. unfold manager_at. simpl.
  destruct (decide (i' = i)) as [->|Hne]; [left|right]; (split; [done|]).
  - rewrite list_lookup_insert_eq by (by eapply lookup_lt_Some). simpl. rewrite Hg. simpl.
    rewrite list_lookup_insert_eq by (by eapply lookup_lt_Some). by destruct m'.
  - intros g' Hg'. rewrite list_lookup_insert_ne by done. destruct (single_type_managers c !! i') as [m1|]; [|done].
    simpl. rewrite Hg'. simpl. case_decide as Hpool.
    + rewrite Hpool, Hp, list_lookup_insert_eq by (by eapply lookup_lt_Some). done.
    + rewrite list_lookup_insert_ne by done. by destruct (block_pools c !! pool_id g').
Qed.

Lemma total_held c i m g j :
  single_type_managers c !! i = Some m → kv_cache_groups c !! i = Some g →
  held m j + others ext c i j = ext (pool_id g) j + pool_held c (pool_id g) j.
Proof. intros Hm Hg. unfold others. rewrite Hm, Hg. lia. Qed.

(** What the others hold does not change; from another manager's point of view it changes
    with the one that changed, on the same pool.  References from outside may change to [ext']. *)
Lemma others_put ext' c i m g m' i' m1 g1 j :
  single_type_managers c !! i = Some m → kv_cache_groups c !! i = Some g →
  single_type_managers c !! i' = Some m1 → kv_cache_groups c !! i' = Some g1 →
  others ext' (put c i g m') i' j = ext' (pool_id g1) j - ext (pool_id g1) j +
    if decide (i' = i) then others ext c i j
    else if decide (pool_id g1 = pool_id g) then others ext c i' j - held m j + held m' j
    else others ext c i' j.
Proof.
  intros Hm Hg Hm1 Hg1. unfold others at 1. simpl. rewrite Hg1.
  case_decide as Hi.
  - subst i'. rewrite list_lookup_insert_eq by (by eapply lookup_lt_Some).
    rewrite (pool_held_put c i g m) by done. unfold others, held_on. simplify_eq. rewrite Hm, Hg.
    rewrite !decide_True by done. lia.
  - rewrite list_lookup_insert_ne, Hm1 by done. rewrite (pool_held_put c i g m) by done.
    unfold others, held_on. rewrite Hm1, Hg1. repeat case_decide; simplify_eq; try done; lia.
Qed.

Lemma st_wf_ext o o' m l : (∀ j, j ≠ null_block → o j = o' j) → st_wf o m l → st_wf o' m l.
Proof.
  intros Ho [Ha Hc Hr Hrange Hp Hs Hsz Hcls]. split; try done. intros i Hi. rewrite <-Ho by done. by apply Hr.
Qed.

Lemma put_refs ext' c L i m g m' l' :
  coord_refs ext c L → manager_at c i = Some m → kv_cache_groups c !! i = Some g →
  (∀ k j, j ≠ null_block → k ≠ pool_id g → ext' k j = ext k j) →
  st_wf (λ j, ext' (pool_id g) j - ext (pool_id g) j + others ext c i j) m' l' →
  same_config (block_pool m) (block_pool m') →
  coord_refs ext' (put c i g m') (upd_list L (pool_id g) l').
Proof.
  intros Hwf Hm Hg Hext Hm' Hcfg. destruct (manager_at_inv c i m Hm) as (m0 & g' & p & Hm0 & Hg' & Hp & ->).
  rewrite Hg in Hg'. injection Hg' as <-. pose proof (cw_len ext c L Hwf) as Hlen.
  split.
  - simpl. by rewrite length_insert.
  - intros i' Hi'. simpl in Hi'. rewrite length_insert in Hi'.
    destruct (lookup_lt_is_Some_2 (kv_cache_groups c) i') as [g' Hg']; [lia|].
    destruct (manager_at_put c i _ g m' i' Hm Hg) as [[_ ->]|[_ Hat]]; [eauto|].
    rewrite (Hat g' Hg'). by apply fmap_is_Some, Hwf.
  - intros i' m1 g' Hm1 Hg'. simpl in Hg'. unfold upd_list.
    destruct (manager_at_put c i _ g m' i' Hm Hg) as [[-> Hat]|[Hne Hat]].
    + rewrite Hat in Hm1. injection Hm1 as <-. rewrite Hg in Hg'. injection Hg' as <-.
      rewrite decide_True by done.
      eapply st_wf_ext; [|exact Hm']. intros j _. by rewrite (others_put ext' c i m0 g m' i m0 g), decide_True.
    + rewrite (Hat g' Hg') in Hm1. apply fmap_Some in Hm1 as (m2 & Hm2 & ->).
      pose proof (cw_wf ext c L Hwf i' m2 g' Hm2 Hg') as Hwf2.
      destruct (manager_at_inv c i' m2 Hm2) as (m3 & g3 & p3 & Hm3 & Hg3 & Hp3 & ->).
      rewrite Hg' in Hg3. injection Hg3 as <-. rename g' into g3, Hg' into Hg3.
      assert (∀ j, others ext' (put c i g m') i' j = ext' (pool_id g3) j - ext (pool_id g3) j +
        if decide (pool_id g3 = pool_id g)
        then others ext c i' j - held m0 j + held m' j else others ext c i' j) as Ho.
      { intros j. rewrite (others_put ext' c i m0 g m' i' m3 g3) by done. by rewrite (decide_False (P := i' = i)). }
      case_decide as Hpool.
      * eapply st_wf_other; [exact Hwf2| |apply Hm'|apply Hm'|].
        { simpl. rewrite Hpool, Hp in Hp3. injection Hp3 as <-. exact Hcfg. }
        intros j Hj. rewrite (sw_refs _ _ _ Hm' j Hj), Ho, held_set_pool.
        pose proof (total_held c i' m3 g3 j Hm3 Hg3). pose proof (total_held c i m0 g j Hm0 Hg).
        rewrite Hpool in *. lia.
      * eapply st_wf_ext; [|exact Hwf2]. intros j Hj. rewrite Ho, Hext by done. lia.
  - intros k p'. simpl. unfold upd_list. case_decide as Hk.
    + subst k. rewrite list_lookup_insert_eq by (by eapply lookup_lt_Some). intros [= <-].
      split; apply Hm'.
    + rewrite list_lookup_insert_ne by done. apply Hwf.
Qed.

(** The managers before and after a step of the [i]-th. *)
Lemma put_manager c i m g m' i' m1 :
  manager_at c i = Some m → kv_cache_groups c !! i = Some g → manager_at (put c i g m') i' = Some m1 →
  (i' = i ∧ m1 = m') ∨
  (i' ≠ i ∧ ∃ m0 g', manager_at c i' = Some m0 ∧ kv_cache_groups c !! i' = Some g' ∧
     m1 = if decide (pool_id g' = pool_id g) then m0 <| block_pool := block_pool m' |> else m0).
Proof.
  intros Hm Hg Hm1. destruct (manager_at_put c i m g m' i' Hm Hg) as [[-> Hat]|[Hne Hat]].
  - rewrite Hat in Hm1. injection Hm1 as <-. by left.
  - destruct (manager_at_inv _ _ _ Hm1) as (_ & g1 & _ & _ & Hg1 & _).
    rewrite (Hat g1 Hg1) in Hm1. apply fmap_Some in Hm1 as (m2 & Hm2 & ->). right. split; [done|].
    exists m2, g1. by split_and!.
Qed.

Lemma tables_pool (P : Prop) `{!Decision P} m p rid j b :
  (uncached (if decide P then m <| block_pool := p |> else m) rid j b → uncached m rid j b) ∧
  (at_pos (if decide P then m <| block_pool := p |> else m) rid j b → at_pos m rid j b).
Proof. by case_decide. Qed.

Section put_private.
Variables (c : KVCacheCoordinator) (L : nat → list nat) (hits : nat → list nat) (grow : bool).
Variables (i : nat) (m : SingleTypeKVCacheManager) (g : KVCacheGroupSpec) (m' : SingleTypeKVCacheManager).
Hypothesis c_wf : coord_wf ext c L.
Hypothesis m_at : manager_at c i = Some m.
Hypothesis g_at : kv_cache_groups c !! i = Some g.
Hypothesis hits_none : none_uncached c hits.
Hypothesis step : uncached_step (hits i) grow m (L (pool_id g)) m'.
Hypothesis config : same_config (block_pool m) (block_pool m').

Lemma not_free i' m1 g1 rid j b :
  manager_at c i' = Some m1 → kv_cache_groups c !! i' = Some g1 → at_pos m1 rid j b → b ∉ L (pool_id g1).
Proof.
  intros Hm1 Hg1. apply (at_pos_not_free (others ext c i')); [apply others_nonneg|].
  by apply (cw_wf ext c L c_wf i' m1 g1).
Qed.

Lemma put_private : coord_private (put c i g m').
Proof.
  pose proof (cw_private ext c L c_wf) as [Hok Hpriv]. split.
  - intros i' m1 Hm1. destruct (put_manager c i m g m' i' m1 m_at g_at Hm1) as [[-> ->]|(Hne & m0 & g0 & Hm0 & Hg0 & ->)].
    + eapply step_ok; [by apply (Hok i)| |exact step]. intros b rid j Hb. by apply (hits_none i g i m g rid j b).
    + case_decide as Hp; [|by apply (Hok i')]. destruct (Hok i' m0 Hm0) as [Hc Hf Hpr]. split; [done| |done].
      intros rid j b Hu. eapply fresh_kept; [by apply (Hf rid)|done|..]; simpl.
      * destruct (manager_at_inv c i' m0 Hm0) as (x & g1 & p & _ & Hg1 & Hpool & ->).
        destruct (manager_at_inv c i m m_at) as (y & g2 & p2 & _ & Hg2 & Hpool2 & Heq).
        assert (block_pool m = p) as Hbp by (rewrite Heq; simpl in *; congruence). simpl. by rewrite <-Hbp.
      * assert (block_pool m0 = block_pool m) as ->.
        { destruct (manager_at_inv c i' m0 Hm0) as (x & g1 & p & _ & Hg1 & Hpool & ->).
          destruct (manager_at_inv c i m m_at) as (y & g2 & p2 & _ & Hg2 & Hpool2 & ->). simpl. congruence. }
        apply (us_hash _ _ _ _ _ step).
        -- rewrite <-Hp. eapply not_free; [exact Hm0|exact Hg0|apply Hu].
        -- intros rid' j' Ha. by apply (Hpriv i' i m0 m g0 g rid j rid' j' b).
  - intros i1 i2 m1 m2 g1 g2 rid j rid' j' b Hne Hm1 Hg1 Hm2 Hg2 Hp Hu Ha. simpl in Hg1, Hg2.
    destruct (put_manager c i m g m' i1 m1 m_at g_at Hm1) as [[-> ->]|(Hne1 & m01 & g01 & Hm01 & Hg01 & Heq1)];
    destruct (put_manager c i m g m' i2 m2 m_at g_at Hm2) as [[-> ->]|(Hne2 & m02 & g02 & Hm02 & Hg02 & Heq2)]; [done|..].
    + assert (at_pos m02 rid' j' b) as Ha2 by (rewrite Heq2 in Ha; by eapply tables_pool).
      rewrite g_at in Hg1. injection Hg1 as <-.
      destruct (us_new _ _ _ _ _ step rid j b Hu) as [Hu0|[Hl _]].
      * by apply (Hpriv i i2 m m02 g g2 rid j rid' j' b).
      * rewrite Hp in Hl. by apply (not_free i2 m02 g2 rid' j' b).
    + assert (uncached m01 rid j b) as Hu1 by (rewrite Heq1 in Hu; by eapply tables_pool).
      rewrite g_at in Hg2. injection Hg2 as <-.
      destruct (us_pos _ _ _ _ _ step rid' j' b Ha) as [Ha0|[Hl|Hh]].
      * by apply (Hpriv i1 i m01 m g1 g rid j rid' j' b).
      * rewrite <-Hp in Hl. apply (not_free i1 m01 g1 rid j b Hm01 Hg1); [apply Hu1|done].
      * by apply (hits_none i g i1 m01 g1 rid j b).
    + assert (uncached m01 rid j b) as Hu1 by (rewrite Heq1 in Hu; by eapply tables_pool).
      assert (at_pos m02 rid' j' b) as Ha2 by (rewrite Heq2 in Ha; by eapply tables_pool).
      by apply (Hpriv i1 i2 m01 m02 g1 g2 rid j rid' j' b).
Qed.

Lemma put_none_uncached : (grow = true → ∀ i, hits i = []) → none_uncached (put c i g m') hits.
Proof.
  intros Hgrow i1 g1 i2 m2 g2 rid j b Hg1 Hb Hm2 Hg2 Hp Hu. simpl in Hg1, Hg2.
  destruct (put_manager c i m g m' i2 m2 m_at g_at Hm2) as [[-> ->]|(Hne2 & m02 & g02 & Hm02 & Hg02 & Heq2)].
  - destruct (us_new _ _ _ _ _ step rid j b Hu) as [Hu0|[_ Hgr]].
    + by apply (hits_none i1 g1 i m g2 rid j b).
    + rewrite (Hgrow Hgr) in Hb. by apply elem_of_nil in Hb.
  - assert (uncached m02 rid j b) as Hu2 by (rewrite Heq2 in Hu; by eapply tables_pool).
    by apply (hits_none i1 g1 i2 m02 g2 rid j b).
Qed.
End put_private.

(** A method of one manager. *)
Lemma wp_on_manager {A} c L hits grow i m g (op : T A) (Q : A → SingleTypeKVCacheManager → list nat → Prop) :
  coord_wf ext c L → manager_at c i = Some m → kv_cache_groups c !! i = Some g → none_uncached c hits →
  wp op (λ a m', ∃ l', st_wf (others ext c i) m' l' ∧ same_config (block_pool m) (block_pool m') ∧
    uncached_step (hits i) grow m (L (pool_id g)) m' ∧ Q a m' l') m →
  wp (on_manager i op) (λ a c', ∃ m' l', c' = put c i g m' ∧
    same_config (block_pool m) (block_pool m') ∧ uncached_step (hits i) grow m (L (pool_id g)) m' ∧
    coord_wf ext c' (upd_list L (pool_id g) l') ∧ Q a m' l') c.
Proof.
  intros Hwf Hm Hg Hnone Hop. unfold wp in *. unfold on_manager. rewrite Hm, Hg.
  destruct (op m) as [[a m']|e]; [|done]. destruct Hop as (l' & Hm' & Hcfg & Hstep & HQ).
  exists m', l'. split; [done|]. split; [done|]. split; [done|]. split; [|done].
  split; [|by eapply put_private]. eapply put_refs; [apply Hwf|exact Hm|exact Hg|done| |exact Hcfg].
  eapply st_wf_ext; [|exact Hm']. intros j _. lia.
Qed.

(** ** Loops over the managers *)

(** What the managers before the [n]-th may take from pool [k]. *)
Definition cost_on (c : KVCacheCoordinator) (cost : nat → Z) (n k : nat) : Z :=
  sumZ ((λ i, if decide (pool_id <$> kv_cache_groups c !! i = Some k) then cost i else 0) <$> seq 0 n).

Lemma sumZ_one x : sumZ [x] = x.
Proof. unfold sumZ. simpl. lia. Qed.

Lemma cost_on_S c cost n k g :
  kv_cache_groups c !! n = Some g →
  cost_on c cost (S n) k = cost_on c cost n k + if decide (pool_id g = k) then cost n else 0.
Proof.
  intros Hg. unfold cost_on. rewrite seq_S, fmap_app, sumZ_app. cbn [fmap list_fmap]. rewrite sumZ_one, Nat.add_0_l, Hg.
  simpl. repeat case_decide; simplify_eq; lia.
Qed.

Lemma cost_on_mono c cost cost' n k :
  (∀ i, (i < n)%nat → cost i ≤ cost' i) → cost_on c cost n k ≤ cost_on c cost' n k.
Proof.
  unfold cost_on. induction n as [|n IH]; intros Hle; [done|]. rewrite seq_S, !fmap_app, !sumZ_app.
  specialize (IH ltac:(intros; apply Hle; lia)). specialize (Hle n ltac:(lia)). cbn [fmap list_fmap].
  rewrite !sumZ_one, !Nat.add_0_l. case_decide; lia.
Qed.

Lemma cost_on_add c cost cost' n k :
  cost_on c (λ i, cost i + cost' i) n k = cost_on c cost n k + cost_on c cost' n k.
Proof.
  unfold cost_on. induction n as [|n IH]; [done|]. rewrite seq_S, !fmap_app, !sumZ_app, IH. cbn [fmap list_fmap].
  rewrite !sumZ_one, !Nat.add_0_l. case_decide; lia.
Qed.

Lemma cost_on_le c cost n n' k :
  (∀ i, 0 ≤ cost i) → (n ≤ n')%nat → cost_on c cost n k ≤ cost_on c cost n' k.
Proof.
  intros Hc Hn. unfold cost_on. replace n' with (n + (n' - n))%nat by lia.
  rewrite seq_app, fmap_app, sumZ_app. assert (∀ l, 0 ≤ sumZ ((λ i, if decide (pool_id <$> kv_cache_groups c !! i = Some k)
    then cost i else 0) <$> l)) as Hnn; [|specialize (Hnn (seq (0 + n) (n' - n))); lia].
  intros l. apply sumZ_nonneg. intros x (i & -> & _)%list_elem_of_fmap. case_decide; [apply Hc|lia].
Qed.

Section loop.
Context {A : Type}.
Variables (c : KVCacheCoordinator) (L : nat → list nat) (cost : nat → Z) (body : nat → T A).
(** How the free lists change: [sub new old]. *)
Context (sub : relation (list nat)) `{!PreOrder sub}.
(** Cached blocks that the managers take over, and whether they may take free blocks to fill. *)
Variables (hits : nat → list nat) (grow : bool).
Variable post : nat → SingleTypeKVCacheManager → A → SingleTypeKVCacheManager → Prop.
Hypothesis c_wf : coord_wf ext c L.
Hypothesis cost_nonneg : ∀ i, 0 ≤ cost i.
Hypothesis hits_none : none_uncached c hits.
Hypothesis no_hits : grow = true → ∀ i, hits i = [].
Abbreviation num := (length (single_type_managers c)).

(** Each step takes at most its cost from the free list, and what it does for its manager does
    not depend on the pool. *)
Hypothesis body_ok : ∀ i m g o l p,
  manager_at c i = Some m → kv_cache_groups c !! i = Some g → same_config (block_pool m) p →
  (∀ j, 0 ≤ o j) → st_wf o (m <| block_pool := p |>) l → uncached_ok (m <| block_pool := p |>) →
  sub l (L (pool_id g)) → cost i ≤ len l →
  wp (body i) (λ a m', ∃ l', st_wf o m' l' ∧ same_config p (block_pool m') ∧
    uncached_step (hits i) grow (m <| block_pool := p |>) l m' ∧ sub l' l ∧
    len l - cost i ≤ len l' ∧ ∀ p', post i m a (m' <| block_pool := p' |>)) (m <| block_pool := p |>).
Hypothesis enough : ∀ k, cost_on c cost num k ≤ len (L k).

(** The state after the first [n] managers, with their results. *)
Record stepped (n : nat) (rs : list A) (c' : KVCacheCoordinator) (L' : nat → list nat) : Prop := {
  sp_wf : coord_wf ext c' L';
  sp_none : none_uncached c' hits;
  sp_eq : ∃ ms ps, c' = c <| single_type_managers := ms |> <| block_pools := ps |>;
  sp_config : Forall2 same_config (block_pools c) (block_pools c');
  sp_rest i : (n ≤ i)%nat → single_type_managers c' !! i = single_type_managers c !! i;
  sp_len : length (single_type_managers c') = num;
  sp_done i m : (i < n)%nat → manager_at c i = Some m →
    ∃ a m', rs !! i = Some a ∧ manager_at c' i = Some m' ∧ ∀ p', post i m a (m' <| block_pool := p' |>);
  sp_rs : length rs = n;
  sp_lists k : sub (L' k) (L k) ∧ len (L k) - cost_on c cost n k ≤ len (L' k)
}.

Lemma stepped_start : stepped 0 [] c L.
Proof.
  clear body_ok enough no_hits cost_nonneg. split; try done; try lia.
  - exists (single_type_managers c), (block_pools c). by destruct c.
  - intros k. unfold cost_on. simpl. split; [done|lia].
Qed.

Lemma stepped_S n rs c1 L1 :
  stepped n rs c1 L1 → (n < num)%nat →
  wp (on_manager n (body n)) (λ a c2, ∃ L2, stepped (S n) (rs ++ [a]) c2 L2) c1.
Proof.
  intros [Hwf Hnone (ms & ps & Heq) Hcfg Hrest Hlen Hdone Hrs Hlists] Hn.
  assert (kv_cache_groups c1 = kv_cache_groups c) as Hgs by (by subst c1).
  destruct (cw_at ext c1 L1 Hwf n) as [m1 Hm1]; [lia|].
  destruct (manager_at_inv c1 n m1 Hm1) as (m0 & g & p & Hm0 & Hg & Hp & ->).
  rewrite Hrest in Hm0 by lia. rewrite Hgs in Hg.
  destruct (Forall2_lookup_r _ _ _ _ _ Hcfg Hp) as (p0 & Hp0 & Hcfg0).
  pose proof (manager_at_intro c n m0 g p0 Hm0 Hg Hp0) as Hm.
  pose proof (cost_on_S c cost n (pool_id g) g Hg) as HS. rewrite decide_True in HS by done.
  pose proof (cost_on_le c cost (S n) num (pool_id g) cost_nonneg Hn) as Hle.
  destruct (Hlists (pool_id g)) as [Hsub Hlen1]. specialize (enough (pool_id g)) as Hen.
  eapply wp_mono; [eapply (wp_on_manager _ _ hits grow); [exact Hwf|exact Hm1|by rewrite Hgs|exact Hnone|]|].
  { assert (m0 <| block_pool := p |> = (m0 <| block_pool := p0 |>) <| block_pool := p |>) as -> by done.
    eapply wp_mono; [apply (body_ok n _ g (others ext c1 n) (L1 (pool_id g)) p Hm Hg Hcfg0)|].
    - apply others_nonneg.
    - apply (cw_wf ext c1 L1 Hwf n _ g Hm1). by rewrite Hgs.
    - by apply (cp_ok _ (cw_private ext c1 L1 Hwf) n).
    - done.
    - lia.
    - intros a m' (l' & Hw & Hc' & Hstep & Hs & Hl & Hpost). exists l'. split; [done|]. split; [exact Hc'|].
      split; [exact Hstep|]. exact (conj Hs (conj Hl Hpost)). }
  simpl. intros a c2 (m' & l' & -> & Hc' & Hstep & Hwf2 & Hs & Hl & Hpost).
  exists (upd_list L1 (pool_id g) l'). split; [exact Hwf2|..].
  - eapply put_none_uncached; [exact Hm1|by rewrite Hgs|exact Hnone|exact Hstep|exact no_hits].
  - subst c1. by eexists _, _.
  - simpl. rewrite <-(list_insert_id (block_pools c) (pool_id g) p0) by done.
    apply Forall2_insert; [done|]. by etrans.
  - intros i Hi. simpl. rewrite list_lookup_insert_ne by lia. apply Hrest. lia.
  - simpl. by rewrite length_insert.
  - intros i m Hi Hmi. assert (kv_cache_groups c1 !! n = Some g) as Hg1 by (by rewrite Hgs).
    destruct (manager_at_put c1 n _ g m' i Hm1 Hg1) as [[-> Hat]|[Hne Hat]].
    + exists a, m'. rewrite Hm in Hmi. injection Hmi as <-. split_and!; [|done|done].
      rewrite lookup_app_r by lia. by rewrite Hrs, Nat.sub_diag.
    + destruct (Hdone i m ltac:(lia) Hmi) as (b & m2 & Hb & Hm2 & Hp2).
      destruct (manager_at_inv c1 i m2 Hm2) as (_ & g3 & _ & _ & Hg3 & _ & _).
      exists b. rewrite (Hat g3 Hg3), Hm2. eexists. split; [by apply lookup_app_l_Some|]. split; [done|].
      intros p'. case_decide; apply Hp2.
  - rewrite length_app. simpl. lia.
  - intros k. rewrite (cost_on_S c cost n k g Hg). unfold upd_list. destruct (Hlists k) as [Hk1 Hk2].
    destruct (decide (k = pool_id g)) as [->|Hne].
    + rewrite decide_True by done. split; [by etrans|lia].
    + rewrite decide_False by congruence. split; [done|lia].
Qed.

Lemma for_acc_managers_spec :
  wp (n ← gets (λ c, length (single_type_managers c));
      for_acc (seq 0 n) [] (λ acc i, new ← on_manager i (body i); mret (acc ++ [new])))
    (λ rs c', ∃ L', stepped num rs c' L') c.
Proof.
  apply wp_bind, wp_gets.
  eapply wp_mono; [apply (wp_for_acc (λ pre rs c', ∃ L', stepped (length pre) rs c' L'))|].
  - exists L. apply stepped_start.
  - intros pre i post' rs c1 Heq [L1 H1]. apply wp_bind.
    assert (i = length pre ∧ (length pre < num)%nat) as [-> Hlt].
    { assert (seq 0 num !! length pre = Some i) as Hi by (by rewrite Heq, lookup_app_r, Nat.sub_diag).
      apply lookup_seq in Hi. lia. }
    eapply wp_mono; [by apply (stepped_S _ rs c1 L1)|]. intros a c2 [L2 H2]. apply wp_ret. exists L2.
    by rewrite length_app, Nat.add_comm.
  - simpl. intros rs c' [L' H']. exists L'. by rewrite length_seq in H'.
Qed.
End loop.

Lemma for_managers_spec (sub : relation (list nat)) `{!PreOrder sub} hits grow c L cost
    (body : nat → T unit) post :
  coord_wf ext c L → (∀ i, 0 ≤ cost i) → none_uncached c hits → (grow = true → ∀ i, hits i = []) →
  (∀ i m g o l p,
    manager_at c i = Some m → kv_cache_groups c !! i = Some g → same_config (block_pool m) p →
    (∀ j, 0 ≤ o j) → st_wf o (m <| block_pool := p |>) l → uncached_ok (m <| block_pool := p |>) →
    sub l (L (pool_id g)) → cost i ≤ len l →
    wp (body i) (λ a m', ∃ l', st_wf o m' l' ∧ same_config p (block_pool m') ∧
      uncached_step (hits i) grow (m <| block_pool := p |>) l m' ∧ sub l' l ∧
      len l - cost i ≤ len l' ∧ ∀ p', post i m a (m' <| block_pool := p' |>)) (m <| block_pool := p |>)) →
  (∀ k, cost_on c cost (length (single_type_managers c)) k ≤ len (L k)) →
  wp (for_managers body) (λ _ c', ∃ rs L', stepped c L cost sub hits post (length (single_type_managers c)) rs c' L') c.
Proof.
  intros Hwf Hcost Hnone Hgrow Hbody Hen.
  pose proof (for_acc_managers_spec c L cost body sub hits grow post Hwf Hcost Hnone Hgrow Hbody Hen) as Hacc.
  unfold for_managers. apply wp_bind, wp_gets.
  apply wp_run in Hacc as (rs & c' & Hrun & L' & Hst).
  assert (∀ is_ acc c0 rs c', for_acc is_ acc (λ acc i, new ← on_manager i (body i); mret (acc ++ [new])) c0 = Ok (rs, c') →
    for_ is_ (λ i, on_manager i (body i)) c0 = Ok (tt, c')) as Hsame.
  { clear. induction is_ as [|i is_ IH]; intros acc c0 rs c' Hr; [by injection Hr as <- <-|].
    cbn [for_acc for_] in *. unfold mbind, M_bind in *.
    destruct (on_manager i (body i) c0) as [[a c1]|]; [|done]. destruct a. eapply (IH (acc ++ [tt])). exact Hr. }
  apply Hsame in Hrun. unfold wp. rewrite Hrun. eauto.
Qed.
End coord.
