(* ===== verification/CoordAlloc.v ===== *)
(** * Allocation over all cache groups

    The number that [get_num_blocks_to_allocate] predicts is enough for the two phases of the
    allocation that follows it: taking the blocks of a prefix hit, and growing the tables. *)

From S2P Require Import Prelude FreeQueue Request Hashing BlockPool PoolSpecs PoolTheorems.
From S2P Require Import SingleType SingleSpecs SingleTheorems Uncached CacheHit Coordinator CoordLookup CoordInit.
From S2P Require Import CoordSpecs.

(** Everything of the manager that belongs to other requests is unchanged. *)
Record same_others (rid : string) (m m' : SingleTypeKVCacheManager) : Prop := {
  so_class : manager_class m' = manager_class m;
  so_size : block_size m' = block_size m;
  so_caching : st_enable_caching m' = st_enable_caching m;
  so_settings : settings m' = settings m;
  so_req rid' : rid' ≠ rid → req_to_blocks m' !! rid' = req_to_blocks m !! rid';
  so_cached rid' : rid' ≠ rid → num_cached_block m' !! rid' = num_cached_block m !! rid';
  so_partial rid' : rid' ≠ rid → _partial_hit_reqs m' !! rid' = _partial_hit_reqs m !! rid'
}.

#[global] Instance same_others_refl rid : Reflexive (same_others rid).
Proof. by intros m. Qed.
#[global] Instance same_others_trans rid : Transitive (same_others rid).
Proof.
  intros m1 m2 m3 [A1 A2 A3 A0 A4 A5 A6] [B1 B2 B3 B0 B4 B5 B6]. split; try congruence; intros rid' Hne.
  - rewrite B4, A4; done.
  - rewrite B5, A5; done.
  - rewrite B6, A6; done.
Qed.

(** The pool of a manager is not part of its tables. *)
Lemma same_others_pools rid m m' p p' :
  st_frame rid (m <| block_pool := p |>) m' → same_others rid m (m' <| block_pool := p' |>).
Proof. intros [A B C D E F G I]. by split. Qed.

(** [c'] differs from [c] in the tables and the contents of the pools. *)
Record evolved (c c' : KVCacheCoordinator) : Prop := {
  ev_eq : ∃ ms ps, c' = c <| single_type_managers := ms |> <| block_pools := ps |>;
  ev_config : Forall2 same_config (block_pools c) (block_pools c');
  ev_len : length (single_type_managers c') = length (single_type_managers c)
}.
#[global] Instance evolved_refl : Reflexive evolved.
Proof.
  intros c. split; [|reflexivity|done].
  exists (single_type_managers c), (block_pools c). by destruct c.
Qed.
#[global] Instance evolved_trans : Transitive evolved.
Proof.
  intros c1 c2 c3 [(ms & ps & ->) A2 A3] [(ms' & ps' & ->) B2 B3]. split; simpl in *; [by eexists _, _| |congruence].
  by etrans.
Qed.
Lemma evolved_groups c c' : evolved c c' → kv_cache_groups c' = kv_cache_groups c.
Proof. by intros [(ms & ps & ->) _ _]. Qed.

(** Blocks that leave the free list for a hit were evictable before. *)
Lemma evictable_bound p0 L0 l hits :
  alloc_wf p0 L0 → NoDup l → l ⊆ L0 →
  len l - _get_num_evictable_blocks p0 hits ≤ len (filter (λ i, i ∉ hits) l).
Proof.
  intros Hp Hnd Hsub. unfold _get_num_evictable_blocks.
  pose proof (filter_app_complement (λ i, i ∈ hits) l) as Hperm. apply Permutation_length in Hperm.
  rewrite length_app in Hperm.
  assert (len (filter (λ i, i ∈ hits) l) ≤
    len (filter (λ b, ref_cnt (blk p0 b) = 0 ∧ is_null (blk p0 b) = false) hits)); [|unfold len in *; lia].
  apply inj_le, submseteq_length, NoDup_submseteq; [by apply NoDup_filter|].
  intros b [Hb Hbl]%list_elem_of_filter. apply list_elem_of_filter. split; [|done].
  apply Hsub, (wf_free _ _ Hp) in Hbl as [Hr Href]. split; [done|].
  destruct (is_null (blk p0 b)) eqn:Hn; [|done]. apply (wf_null _ _ Hp) in Hn. subst b. unfold null_block in Hr. lia.
Qed.

Section alloc.
Context `{SetIter}.
Variable use_int : bool.
Variable ext : nat → nat → Z.
Hypothesis ext_nonneg : ∀ k j, 0 ≤ ext k j.
Variable rid : string.
(** The request: its prefix hit of [local] tokens, [external] tokens to load, and the tokens
    that need slots. *)
Variables (hits : list (list nat)) (local external num_tokens main enc : Z).
Hypothesis external_nonneg : 0 ≤ external.
Hypothesis local_nonneg : 0 ≤ local.
Hypothesis tokens_fit : local + external ≤ num_tokens.

Abbreviation hits_of i := (default [] (hits !! i)).
Definition skip_of (m : SingleTypeKVCacheManager) : Z :=
  get_num_skipped_tokens (manager_class m) (local + external) // block_size m.
Definition tokens_of (m : SingleTypeKVCacheManager) : Z := if is_cross m then enc else num_tokens.

(** ** What one manager needs for a new request *)

(** The length of the table after the hit, the blocks for external tokens, and for the rest. *)
Definition hit_len (m : SingleTypeKVCacheManager) (h : list nat) : Z :=
  if shares_prefix (manager_class m) then Z.max (skip_of m) (len h) else 0.
Definition num_evicted (m : SingleTypeKVCacheManager) (h : list nat) : Z :=
  _get_num_evictable_blocks (block_pool m) (drop (Z.to_nat (skip_of m)) h).
Definition num_loaded (m : SingleTypeKVCacheManager) (h : list nat) : Z :=
  if decide (external > 0) then num_external_blocks m (hit_len m h) local external else 0.
Definition is_redirected (m : SingleTypeKVCacheManager) (h : list nat) : bool :=
  shares_prefix (manager_class m) &&
  bool_decide (drop (Z.to_nat (skip_of m)) h ≠ [] ∧ local mod block_size m ≠ 0).
Definition num_grown (m : SingleTypeKVCacheManager) (h : list nat) : Z :=
  (if is_redirected m h then 1 else 0) +
  Z.max 0 (required_blocks m (tokens_of m) - (hit_len m h + num_loaded m h)).

(** The prediction for one manager. *)
Definition predict (m : SingleTypeKVCacheManager) (h : list nat) (cap : bool) : res Z :=
  if is_cross m then get_num_blocks_to_allocate m rid enc [] 0 0 enc cap
  else get_num_blocks_to_allocate m rid num_tokens h (local + external) local main cap.

Definition new_to (m : SingleTypeKVCacheManager) : Prop :=
  default [] (req_to_blocks m !! rid) = [] ∧ num_cached_block m !! rid = None ∧
  _partial_hit_reqs m !! rid = None.

Lemma skip_nonneg o m l : st_wf o m l → 0 ≤ skip_of m.
Proof.
  intros Hwf. pose proof (skipped_bounds (manager_class m) (local + external) (sw_class _ _ _ Hwf) ltac:(lia)).
  apply Z.div_pos; [lia|apply Hwf].
Qed.

Lemma num_loaded_shared m h :
  shares_prefix (manager_class m) = true →
  num_loaded m h = 0 ∨ num_loaded m h = Z.max 0 (cdiv (local + external) (block_size m) - hit_len m h).
Proof.
  intros Hsh. unfold num_loaded, num_external_blocks. rewrite Hsh.
  replace (is_ring (manager_class m)) with false by (by destruct (manager_class m)).
  repeat case_decide; auto.
Qed.

Lemma redirected_predicted m h :
  (if is_redirected m h then 1 else 0) ≤ (if _has_partial_local_hit m h local then 1 else 0).
Proof.
  unfold is_redirected, _has_partial_local_hit. destruct (shares_prefix _); simpl; [|by case_bool_decide].
  case_bool_decide as Hd; [|by case_bool_decide]. destruct Hd as [Hne Hmod].
  rewrite bool_decide_eq_true_2; [done|]. split; [|done].
  destruct h as [|b h]; [by rewrite drop_nil in Hne|]. rewrite len_cons. pose proof (len_nonneg h). lia.
Qed.

Lemma predict_new o m l h :
  st_wf o m l → new_to m → (shares_prefix (manager_class m) = false → h = []) →
  ∃ n, predict m h false = Ok n ∧ num_evicted m h + num_loaded m h + num_grown m h ≤ n.
Proof.
  intros Hwf (Hb & Hc & Hp) Hsh. pose proof (skip_nonneg o m l Hwf) as Hk.
  pose proof (sw_size _ _ _ Hwf) as Hs. pose proof (len_nonneg h).
  pose proof (cdiv_mono (local + external) num_tokens (block_size m) Hs tokens_fit) as Hmono.
  destruct (shares_prefix (manager_class m)) eqn:Hshare.
  - assert (predict m h false = get_num_blocks_to_allocate_base m rid num_tokens h (local + external) local main false ∧
      is_cross m = false ∧ is_ring (manager_class m) = false) as (-> & Hcr & Hring).
    { unfold predict, is_cross, get_num_blocks_to_allocate. by destruct (manager_class m). }
    unfold get_num_blocks_to_allocate_base. rewrite Hb, Hc. fold (skip_of m).
    rewrite slice_from_drop by lia. eexists. split; [by destruct (_max_admission_blocks_per_request m)|].
    replace (Z.max 0 (skip_of m - len [])) with (skip_of m) by (unfold len; simpl; lia).
    fold (num_evicted m h). pose proof (num_loaded_shared m h Hshare). pose proof (redirected_predicted m h).
    unfold num_grown, hit_len, required_blocks, tokens_of in *. rewrite Hshare, Hcr, Hring in *.
    replace (len h + len []) with (len h) by (unfold len; simpl; lia).
    destruct (_has_partial_local_hit m h local), (_max_admission_blocks_per_request m); lia.
  - rewrite (Hsh eq_refl).
    assert (num_evicted m [] = 0) as -> by (unfold num_evicted; by rewrite drop_nil).
    unfold num_grown, num_loaded, hit_len, is_redirected, num_external_blocks, required_blocks, tokens_of,
      predict, is_cross, get_num_blocks_to_allocate, get_num_blocks_to_allocate_base.
    rewrite Hb, Hc. destruct (manager_class m) eqn:Hcl; try done; simpl; eexists.
    + split; [done|]. unfold len. simpl. case_decide; lia.
    + split; [done|]. case_decide; lia.
    + split; [by destruct (_max_admission_blocks_per_request m)|]. rewrite Z.div_0_l by lia.
      unfold _has_partial_local_hit, _get_num_evictable_blocks, len. simpl.
      destruct (_max_admission_blocks_per_request m); case_decide; simpl; lia.
Qed.

(** ** The three loops *)

Definition at_manager {A} (f : SingleTypeKVCacheManager → nat → A) (d : A) (c : KVCacheCoordinator) (i : nat) : A :=
  match manager_at c i with Some m => f m i | None => d end.

(** The table of the request after taking the hit [h]. *)
Record post_hit (h : list nat) (m m' : SingleTypeKVCacheManager) : Prop := {
  ph_same : same_others rid m m';
  ph_blocks : default [] (req_to_blocks m' !! rid) =
    if shares_prefix (manager_class m)
    then replicate (Z.to_nat (skip_of m)) null_block ++ drop (Z.to_nat (skip_of m)) h else [];
  ph_cached : shares_prefix (manager_class m) = true → is_Some (num_cached_block m' !! rid);
  ph_partial : is_Some (_partial_hit_reqs m' !! rid) ↔ is_redirected m h = true;
  ph_idx idx b : _partial_hit_reqs m' !! rid = Some (idx, b) → idx = local // block_size m
}.

Lemma hit_body c L i m g o l p h :
  coord_wf ext c L → manager_at c i = Some m → kv_cache_groups c !! i = Some g →
  same_config (block_pool m) p → (∀ j, 0 ≤ o j) → st_wf o (m <| block_pool := p |>) l →
  uncached_ok (m <| block_pool := p |>) → l ⊆ L (pool_id g) →
  hits !! i = Some h → new_to m → hits_ok m h local →
  wp (h ← lift_res (index hits (Z.of_nat i)); add_local_computed_blocks rid h local external) (λ _ m',
    ∃ l', st_wf o m' l' ∧ same_config p (block_pool m') ∧
      uncached_step (whole_hits m (Z.to_nat (skip_of m)) h local) false (m <| block_pool := p |>) l m' ∧ l' ⊆ l ∧
      len l - num_evicted m h ≤ len l' ∧ ∀ p', post_hit h m (m' <| block_pool := p' |>)) (m <| block_pool := p |>).
Proof.
  intros Hwf Hm Hg Hcfg Ho Hst Hun Hsub Hh (Hb & Hc & Hp) [Hr Hca Hsh Hl Hpa]. apply wp_bind.
  assert (hits_ok (m <| block_pool := p |>) h local) as Hhok.
  { split; try done. intros b Hbh. simpl. rewrite (cfg_num _ _ Hcfg). by apply Hr. }
  apply wp_lift with h; [by apply index_Ok; [lia|rewrite Nat2Z.id]|].
  eapply wp_mono; [apply (add_local_computed_blocks_spec o _ l rid h local external (skip_of m))|]; try done.
  intros [] m' [Hwf' Had]. exists (filter (λ i, i ∉ drop (Z.to_nat (skip_of m)) h) l). split; [done|].
  assert (len l - num_evicted m h ≤ len (filter (λ i, i ∉ drop (Z.to_nat (skip_of m)) h) l)) as Hlen.
  { apply (evictable_bound _ (L (pool_id g))); [apply (cw_wf _ _ _ Hwf i m g Hm Hg)| |done].
    apply repr_NoDup with (free_block_queue p). apply Hst. }
  assert (filter (λ i, i ∉ drop (Z.to_nat (skip_of m)) h) l ⊆ l) as Hs' by (intros b [_ ?]%list_elem_of_filter; done).
  change (manager_class (m <| block_pool := p |>)) with (manager_class m) in Had.
  destruct (shares_prefix (manager_class m)) eqn:Hshare.
  - assert (uncached_step (whole_hits m (Z.to_nat (skip_of m)) h local) false (m <| block_pool := p |>) l m') as Hstep.
    { change (whole_hits m) with (whole_hits (m <| block_pool := p |>)).
      apply (step_added o Ho rid (skip_of m) h local (m <| block_pool := p |>) l m'); try done.
      exact (skip_nonneg o (m <| block_pool := p |>) l Hst). }
    destruct Had as [Hf Hbl Hcd _ Hpt Hidx _]. split; [apply Hf|]. split; [done|]. split_and!; [done|done|].
    intros p'. split.
    + by eapply same_others_pools.
    + simpl. by rewrite Hbl, Hshare.
    + simpl. by rewrite Hcd.
    + simpl. rewrite Hpt. unfold is_redirected. rewrite Hshare. simpl. by rewrite bool_decide_eq_true.
    + exact Hidx.
  - subst m'. split; [done|]. split; [by apply (step_refl o Ho)|]. split_and!; [done|done|]. intros p'. split; try done.
    + simpl. by rewrite Hb, Hshare.
    + intros ?. congruence.
    + simpl. rewrite Hp. unfold is_redirected. rewrite Hshare. simpl. split; [by intros []|done].
    + simpl. by rewrite Hp.
Qed.

(** External blocks follow the table. *)
Record post_load (n : Z) (m m' : SingleTypeKVCacheManager) : Prop := {
  pl_same : same_others rid m m';
  pl_blocks : ∃ new, default [] (req_to_blocks m' !! rid) = default [] (req_to_blocks m !! rid) ++ new ∧ len new = n;
  pl_cached : num_cached_block m' = num_cached_block m;
  pl_partial : _partial_hit_reqs m' = _partial_hit_reqs m
}.
Definition load_cost (m : SingleTypeKVCacheManager) : Z :=
  num_external_blocks m (len (default [] (req_to_blocks m !! rid))) local external.

Lemma load_cost_nonneg m : 0 ≤ load_cost m.
Proof. unfold load_cost, num_external_blocks. repeat case_decide; repeat case_match; lia. Qed.

Lemma len_drop_take (l : list nat) n : 0 ≤ n ≤ len l →
  len (take (Z.to_nat n) l) = n ∧ len (drop (Z.to_nat n) l) = len l - n.
Proof. unfold len. intros. rewrite length_take, length_drop. lia. Qed.

Lemma drop_subseteq (l : list nat) n : drop n l ⊆ l.
Proof. intros x [i Hi]%list_elem_of_lookup. rewrite lookup_drop in Hi. by eapply list_elem_of_lookup_2. Qed.

(** The first blocks of the free list. *)
Lemma take_fresh o m l n :
  st_wf o m l → NoDup (take n l) ∧ ∀ b, b ∈ take n l → b ∈ l ∧ b ∉ drop n l.
Proof.
  intros Hwf. assert (NoDup l) as Hnd by (eapply repr_NoDup, wf_queue, Hwf).
  rewrite <-(take_drop n l) in Hnd. apply NoDup_app in Hnd as (Ht & Hd & _). split; [done|].
  intros b Hb. split; [|by apply Hd]. by eapply elem_of_sublist, sublist_take.
Qed.

Lemma load_body m o l p :
  (∀ j, 0 ≤ o j) → st_wf o (m <| block_pool := p |>) l → uncached_ok (m <| block_pool := p |>) →
  load_cost m ≤ len l →
  wp (allocate_external_computed_blocks use_int rid local external) (λ _ m',
    ∃ l', st_wf o m' l' ∧ same_config p (block_pool m') ∧
      uncached_step [] true (m <| block_pool := p |>) l m' ∧ l' ⊆ l ∧
      len l - load_cost m ≤ len l' ∧ ∀ p', post_load (load_cost m) m (m' <| block_pool := p' |>))
    (m <| block_pool := p |>).
Proof.
  intros Ho Hst Hun Hle. pose proof (load_cost_nonneg m) as Hn.
  eapply wp_mono; [by apply (allocate_external_spec use_int o Ho _ l rid local external (load_cost m))|].
  intros [] m' (Hwf' & [Hf Hb Hc Hp _] & Hout). destruct (len_drop_take l (load_cost m) ltac:(lia)) as [Ht Hd].
  destruct (take_fresh o _ l (Z.to_nat (load_cost m)) Hst) as [Hnd Hfresh].
  eexists. split; [exact Hwf'|]. split; [apply Hf|]. split.
  { eapply (step_grew o Ho rid); [exact Hst|exact Hun|exact Hf|exact Hc| |exact Hnd|exact Hfresh|exact Hout].
    right. split; [by rewrite Hp|exact Hb]. }
  split_and!; [apply drop_subseteq|lia|].
  intros p'. split; [by eapply same_others_pools|eauto|done|done].
Qed.

(** The table has all the blocks that the tokens need, and keeps those it had, apart from a
    partially filled block of the cache that is copied. *)
Record post_grow (m : SingleTypeKVCacheManager) (new : list nat) (m' : SingleTypeKVCacheManager) : Prop := {
  pg_same : same_others rid m m';
  pg_blocks : ∃ bs', req_to_blocks m' !! rid = Some bs' ∧
    len bs' = len (default [] (req_to_blocks m !! rid)) + num_missing m rid (tokens_of m) ∧
    ∀ j b, default [] (req_to_blocks m !! rid) !! j = Some b →
      (∀ idx src, _partial_hit_reqs m !! rid = Some (idx, src) → Z.to_nat idx ≠ j) → bs' !! j = Some b;
  pg_new : len new = num_redirects m rid + num_missing m rid (tokens_of m);
  pg_cached : num_cached_block m' = num_cached_block m;
  pg_partial : _partial_hit_reqs m' !! rid = None
}.
Definition grow_cost (m : SingleTypeKVCacheManager) : Z :=
  num_redirects m rid + num_missing m rid (tokens_of m).

Lemma grow_cost_nonneg m : 0 ≤ grow_cost m.
Proof. unfold grow_cost, num_redirects, num_missing. case_match; lia. Qed.

Lemma grow_body m o l p :
  (∀ j, 0 ≤ o j) → st_wf o (m <| block_pool := p |>) l → uncached_ok (m <| block_pool := p |>) →
  grow_cost m ≤ len l →
  wp (m ← gets (λ m, m); allocate_new_blocks use_int rid (if is_cross m then enc else num_tokens) main)
    (λ new m', ∃ l', st_wf o m' l' ∧ same_config p (block_pool m') ∧
      uncached_step [] true (m <| block_pool := p |>) l m' ∧ l' ⊆ l ∧
      len l - grow_cost m ≤ len l' ∧ ∀ p', post_grow m new (m' <| block_pool := p' |>))
    (m <| block_pool := p |>).
Proof.
  intros Ho Hst Hun Hle. pose proof (grow_cost_nonneg m) as Hn. apply wp_bind, wp_gets.
  eapply wp_mono; [by apply (allocate_new_blocks_spec use_int o Ho _ l rid (tokens_of m) main Hst)|].
  intros new m' (-> & Hwf' & (bs' & [Hf Hb Hc Hp Hlen Hkept Hshape]) & Hout).
  destruct (len_drop_take l (grow_cost m) ltac:(lia)) as [Ht Hd].
  destruct (take_fresh o _ l (Z.to_nat (grow_cost m)) Hst) as [Hnd Hfresh].
  eexists. split; [exact Hwf'|]. split; [apply Hf|]. split.
  { eapply (step_grew o Ho rid); [exact Hst|exact Hun|exact Hf|exact Hc| |exact Hnd|exact Hfresh|exact Hout].
    left. split; [exact Hp|]. rewrite Hb. unfold grew. revert Hshape. simpl.
    by destruct (_partial_hit_reqs m !! rid) as [[idx src]|]. }
  split_and!; [apply drop_subseteq| |].
  { unfold grow_cost in *. simpl in *. unfold num_redirects, num_missing, required_blocks in *. simpl in *. lia. }
  intros p'. split; [by eapply same_others_pools|by exists bs'|exact Ht|done|done].
Qed.

(** ** The prediction for all managers *)

Lemma max_default_0_spec xs :
  (∀ x, x ∈ xs → x ≤ max_default_0 xs) ∧ (max_default_0 xs ∈ xs ∨ xs = [] ∧ max_default_0 xs = 0).
Proof.
  unfold max_default_0. destruct xs as [|x xs]; [split; [by intros ? ?%elem_of_nil|by right]|].
  assert (∀ xs x, (∀ y, y = x ∨ y ∈ xs → y ≤ foldl Z.max x xs) ∧
    (foldl Z.max x xs = x ∨ foldl Z.max x xs ∈ xs)) as Hgen.
  { clear. induction xs as [|z xs IH]; intros x; cbn [foldl].
    - split; [intros y [-> | ?%elem_of_nil]; [lia|done]|by left].
    - destruct (IH (Z.max x z)) as [Hle Hin]. split.
      + pose proof (Hle (Z.max x z) ltac:(by left)).
        intros y [-> | [->|Hy]%elem_of_cons]; [lia..|]. apply Hle. by right.
      + destruct Hin as [-> | Hin]; [|right; by right].
        destruct (Z.max_spec x z) as [[_ ->] | [_ ->]]; [right; by left|by left]. }
  destruct (Hgen xs x) as [Hle Hin]. split.
  - intros y Hy. apply Hle. by apply elem_of_cons in Hy.
  - left. apply elem_of_cons. destruct Hin as [-> | ?]; [by left|by right].
Qed.

Lemma cost_on_zip c need k :
  length (single_type_managers c) = length (kv_cache_groups c) →
  sumZ (zip_with (λ n k', if decide (k' = k) then n else 0)
    (need <$> seq 0 (length (single_type_managers c))) (pool_id <$> kv_cache_groups c)) =
  cost_on c need (length (single_type_managers c)) k.
Proof.
  intros Hlen. unfold cost_on. f_equal. apply list_eq. intros i.
  rewrite lookup_zip_with, !list_lookup_fmap.
  destruct (decide (i < length (single_type_managers c))%nat) as [Hi|Hi].
  - rewrite lookup_seq_lt by done. simpl.
    destruct (lookup_lt_is_Some_2 (kv_cache_groups c) i) as [g Hg]; [lia|]. rewrite Hg. simpl.
    repeat case_decide; congruence.
  - rewrite lookup_seq_ge by lia. done.
Qed.

Lemma coord_predict_spec c L need cap :
  coord_wf ext c L →
  (∀ i m, manager_at c i = Some m → is_Some (hits !! i) ∧ predict m (hits_of i) cap = Ok (need i)) →
  ∃ n, coord_get_num_blocks_to_allocate c rid num_tokens hits enc (local + external) local main cap = Ok n ∧
    (∀ k, (k < length (block_pools c))%nat → cost_on c need (length (single_type_managers c)) k ≤ n) ∧
    (block_pools c ≠ [] → ∃ k, (k < length (block_pools c))%nat ∧ n = cost_on c need (length (single_type_managers c)) k).
Proof.
  intros Hwf Hneed. unfold coord_get_num_blocks_to_allocate.
  rewrite (mapM_Ok _ need).
  - cbn [mbind res_bind]. eexists. split; [done|].
    match goal with |- context [max_default_0 ?xs] => destruct (max_default_0_spec xs) as [Hle Hin] end.
    assert (∀ k, cost_on c need (length (single_type_managers c)) k = sumZ (zip_with
      (λ n k', if decide (k' = k) then n else 0) (need <$> seq 0 (length (single_type_managers c)))
      (pool_id <$> kv_cache_groups c))) as Hcost.
    { intros k. symmetry. apply cost_on_zip, Hwf. }
    split.
    + intros k Hk. apply Hle. apply list_elem_of_fmap. exists k. split; [apply Hcost|]. apply elem_of_seq. lia.
    + intros Hne. destruct Hin as [Hin|[Hnil _]].
      * apply list_elem_of_fmap in Hin as (k & Hk & Hin%elem_of_seq). exists k. rewrite Hcost. split; [lia|done].
      * apply fmap_nil_inv in Hnil. destruct (block_pools c); done.
  - intros i Hi%elem_of_seq. destruct (cw_at _ _ _ Hwf i) as [m Hm]; [lia|]. rewrite Hm.
    destruct (Hneed i m Hm) as [[h Hh] Hp]. rewrite Hh in Hp. simpl in Hp. unfold predict in Hp.
    destruct (is_cross m); [done|]. rewrite (proj2 (index_Ok hits (Z.of_nat i) h ltac:(lia))); [done|].
    by rewrite Nat2Z.id.
Qed.

(** ** Both phases for a new request *)

Lemma cost_on_groups c c' cost n k :
  kv_cache_groups c' = kv_cache_groups c → cost_on c' cost n k = cost_on c cost n k.
Proof. intros Hg. unfold cost_on. by rewrite Hg. Qed.

Lemma stepped_all {A} c L cost sub hts (post : nat → _ → A → _ → Prop) rs c' L' :
  stepped ext c L cost sub hts post (length (single_type_managers c)) rs c' L' →
  evolved c c' ∧ coord_wf ext c' L' ∧
  (∀ k, sub (L' k) (L k) ∧ len (L k) - cost_on c cost (length (single_type_managers c)) k ≤ len (L' k)) ∧
  length rs = length (single_type_managers c) ∧
  ∀ i m, manager_at c i = Some m → ∃ a m', rs !! i = Some a ∧ manager_at c' i = Some m' ∧ post i m a m'.
Proof.
  intros [Hwf _ Heq Hcfg _ Hlen Hdone Hrs Hl]. split; [by split|]. split; [done|]. split; [done|]. split; [done|].
  intros i m Hm. destruct (manager_at_inv c i m Hm) as (m0 & _ & _ & Hm0 & _).
  destruct (Hdone i m) as (a & m' & Ha & Hm' & Hp); [by eapply lookup_lt_Some|done|].
  exists a, m'. split_and!; try done. specialize (Hp (block_pool m')). by destruct m'.
Qed.

Lemma manager_back c c' i m' :
  evolved c c' → (∀ i, (i < length (single_type_managers c))%nat → is_Some (manager_at c i)) →
  manager_at c' i = Some m' → ∃ m, manager_at c i = Some m.
Proof.
  intros Hev Hat (m0 & _ & _ & Hm0%lookup_lt_Some & _)%manager_at_inv. rewrite (ev_len _ _ Hev) in Hm0.
  destruct (Hat i Hm0) as [m Hm]. eauto.
Qed.

(** The blocks that the [i]-th manager takes over, a partially filled one apart. *)
Definition taken_over (c : KVCacheCoordinator) (i : nat) : list nat :=
  at_manager (λ m i, whole_hits m (Z.to_nat (skip_of m)) (hits_of i) local) [] c i.

(** A new request; its hit has no block that another request still fills. *)
Record new_request (c : KVCacheCoordinator) : Prop := {
  nr_hits i m : manager_at c i = Some m → ∃ h, hits !! i = Some h ∧ new_to m ∧ hits_ok m h local;
  nr_filled : none_uncached c (taken_over c)
}.

Lemma none_uncached_nil c : none_uncached c (λ _, []).
Proof. intros ? ? ? ? ? ? ? ? _ []%elem_of_nil. Qed.

Lemma hit_table_len m h :
  0 ≤ skip_of m → len (if shares_prefix (manager_class m)
    then replicate (Z.to_nat (skip_of m)) null_block ++ drop (Z.to_nat (skip_of m)) h else []) = hit_len m h.
Proof.
  intros Hk. unfold hit_len. destruct (shares_prefix _); [|done].
  unfold len. rewrite length_app, length_replicate, length_drop. lia.
Qed.

(** The tables after the first phase. *)
Record loaded (h : list nat) (m m' : SingleTypeKVCacheManager) : Prop := {
  ld_same : same_others rid m m';
  ld_blocks : ∃ new, default [] (req_to_blocks m' !! rid) = (if shares_prefix (manager_class m)
    then replicate (Z.to_nat (skip_of m)) null_block ++ drop (Z.to_nat (skip_of m)) h else []) ++ new ∧
    len new = num_loaded m h;
  ld_cached : shares_prefix (manager_class m) = true → is_Some (num_cached_block m' !! rid);
  ld_partial : is_Some (_partial_hit_reqs m' !! rid) ↔ is_redirected m h = true;
  ld_idx idx b : _partial_hit_reqs m' !! rid = Some (idx, b) → idx = local // block_size m
}.

Definition evict_cost (c : KVCacheCoordinator) (i : nat) : Z := at_manager (λ m i, num_evicted m (hits_of i)) 0 c i.
Definition loaded_cost (c : KVCacheCoordinator) (i : nat) : Z := at_manager (λ m i, num_loaded m (hits_of i)) 0 c i.
Definition grown_cost (c : KVCacheCoordinator) (i : nat) : Z := at_manager (λ m i, num_grown m (hits_of i)) 0 c i.

Lemma evict_cost_nonneg c i : 0 ≤ evict_cost c i.
Proof. unfold evict_cost, at_manager. case_match; [|done]. apply len_nonneg. Qed.

Lemma loaded_cost_nonneg c i : 0 ≤ loaded_cost c i.
Proof.
  unfold loaded_cost, at_manager, num_loaded, num_external_blocks. repeat case_match; lia.
Qed.

(** The costs of a loop on a later state, in terms of the first one. *)
Lemma hit_load_cost c L m h m1 i :
  coord_wf ext c L → manager_at c i = Some m → post_hit h m m1 → external > 0 → load_cost m1 = num_loaded m h.
Proof.
  intros Hwf Hm Hp Hext. unfold load_cost, num_loaded. rewrite decide_True by done.
  destruct (manager_at_inv c i m Hm) as (_ & g & _ & _ & Hg & _).
  pose proof (skip_nonneg _ m _ (cw_wf _ _ _ Hwf i m g Hm Hg)) as Hk.
  rewrite (ph_blocks _ _ _ Hp), hit_table_len by done. unfold num_external_blocks.
  by rewrite (so_class _ _ _ (ph_same _ _ _ Hp)), (so_size _ _ _ (ph_same _ _ _ Hp)).
Qed.

Lemma new_not_cached c L :
  coord_wf ext c L → new_request c →
  existsb (λ m, bool_decide (is_Some (num_cached_block m !! rid))) (single_type_managers c) = false.
Proof.
  intros Hwf Hnew. destruct (existsb _ _) eqn:Hex; [|done].
  apply existsb_exists in Hex as (m0 & Hin & Hs%bool_decide_eq_true).
  apply list_elem_of_In, list_elem_of_lookup in Hin as [i Hi].
  destruct (cw_at _ _ _ Hwf i) as [m Hm]; [by eapply lookup_lt_Some|].
  destruct (nr_hits c Hnew i m Hm) as (_ & _ & (_ & Hc & _) & _).
  destruct (manager_at_inv c i m Hm) as (m1 & ? & ? & Hm1 & _ & _ & ->). simplify_eq.
  simpl in Hc. rewrite Hc in Hs. by destruct Hs.
Qed.

Lemma first_phase c L :
  coord_wf ext c L → new_request c →
  (∀ k, cost_on c (evict_cost c) (length (single_type_managers c)) k +
        cost_on c (loaded_cost c) (length (single_type_managers c)) k ≤ len (L k)) →
  wp (allocate_new_computed_blocks use_int rid hits local external) (λ _ c', ∃ L',
    evolved c c' ∧ coord_wf ext c' L' ∧
    (∀ k, L' k ⊆ L k ∧ len (L k) - cost_on c (evict_cost c) (length (single_type_managers c)) k
       - cost_on c (loaded_cost c) (length (single_type_managers c)) k ≤ len (L' k)) ∧
    ∀ i m, manager_at c i = Some m → ∃ m', manager_at c' i = Some m' ∧ loaded (hits_of i) m m') c.
Proof.
  intros Hwf Hnew Hen. set (n := length (single_type_managers c)) in *.
  assert (∀ k, 0 ≤ cost_on c (loaded_cost c) n k) as Hl0.
  { intros k. etrans; [|apply (cost_on_le c (loaded_cost c) 0 n k); [apply loaded_cost_nonneg|lia]]. done. }
  unfold allocate_new_computed_blocks. apply wp_bind, wp_gets.
  rewrite (new_not_cached c L Hwf Hnew).
  apply wp_bind. eapply wp_mono.
  { apply (for_managers_spec ext ext_nonneg (⊆) (taken_over c) false c L (evict_cost c) _
      (λ i m _ m', post_hit (hits_of i) m m') Hwf (evict_cost_nonneg c) (nr_filled c Hnew)); [done|..].
    - intros i m g o l p Hm Hg Hcfg Ho Hst Hun Hsub Hcost. destruct (nr_hits c Hnew i m Hm) as (h & Hh & Hnt & Hho).
      eapply wp_mono; [by eapply (hit_body c L i m g o l p h)|]. intros a m' (l' & ? & ? & ? & ? & Hlen & ?).
      exists l'. unfold evict_cost, taken_over, at_manager. rewrite Hm, Hh. simpl. by split_and?.
    - intros k. specialize (Hen k). specialize (Hl0 k). fold n. lia. }
  intros [] c1 (rs & L1 & (Hev1 & Hwf1 & Hlist1 & _ & Hat1)%stepped_all). fold n in Hlist1.
  case_decide as Hext.
  2: { apply wp_ret. exists L1. split; [done|]. split; [done|]. split.
    - intros k. specialize (Hlist1 k). specialize (Hl0 k). split; [tauto|lia].
    - intros i m Hm. destruct (Hat1 i m Hm) as (_ & m1 & _ & Hm1 & [Hs Hb Hc Hp Hi]). exists m1. split; [done|].
      split; try done. exists []. rewrite app_nil_r. split; [done|]. unfold num_loaded. by rewrite decide_False. }
  assert (∀ i m1, manager_at c1 i = Some m1 → ∃ m, manager_at c i = Some m ∧ post_hit (hits_of i) m m1 ∧
    load_cost m1 = loaded_cost c i) as Hback.
  { intros i m1 Hm1. destruct (manager_back c c1 i m1 Hev1 (cw_at _ _ _ Hwf) Hm1) as [m Hm].
    destruct (Hat1 i m Hm) as (_ & m1' & _ & Hm1' & Hp). simplify_eq. exists m. split_and!; [done|done|].
    unfold loaded_cost, at_manager. rewrite Hm. by apply (hit_load_cost c L m _ m1 i). }
  eapply wp_mono.
  { apply (for_managers_spec ext ext_nonneg (⊆) (λ _, []) true c1 L1 (loaded_cost c) _
      (λ i m _ m', post_load (load_cost m) m m') Hwf1 (loaded_cost_nonneg c) (none_uncached_nil c1)); [done|..].
    - intros i m1 g o l p Hm1 Hg Hcfg Ho Hst Hun Hsub Hcost. destruct (Hback i m1 Hm1) as (m & Hm & Hp & Hlc).
      rewrite <-Hlc in *. by eapply (load_body m1 o l p).
    - intros k. rewrite (cost_on_groups c c1), (ev_len _ _ Hev1) by (by apply evolved_groups).
      specialize (Hlist1 k). specialize (Hen k). fold n. lia. }
  intros [] c2 (rs2 & L2 & (Hev2 & Hwf2 & Hlist2 & _ & Hat2)%stepped_all).
  exists L2. split; [by etrans|]. split; [done|]. split.
  - intros k. specialize (Hlist1 k) as [? ?]. specialize (Hlist2 k) as [? Hl2].
    rewrite (cost_on_groups c c1), (ev_len _ _ Hev1) in Hl2 by (by apply evolved_groups). fold n in Hl2.
    split; [by etrans|lia].
  - intros i m Hm. destruct (Hat1 i m Hm) as (_ & m1 & _ & Hm1 & Hp1). destruct (Hat2 i m1 Hm1) as (_ & m2 & _ & Hm2 & Hp2).
    exists m2. split; [done|]. destruct (Hback i m1 Hm1) as (m' & Hm' & _ & Hlc). simplify_eq.
    destruct Hp1 as [Hs Hb Hc Hp Hi], Hp2 as [Hs2 (new & Hb2 & Hn) Hc2 Hpt2]. split.
    + by etrans.
    + exists new. rewrite Hb2, Hb. split; [done|]. rewrite Hn, Hlc. unfold loaded_cost, at_manager. by rewrite Hm.
    + by rewrite Hc2.
    + by rewrite Hpt2.
    + by rewrite Hpt2.
Qed.

Lemma grow_all c L :
  coord_wf ext c L →
  (∀ k, cost_on c (at_manager (λ m _, grow_cost m) 0 c) (length (single_type_managers c)) k ≤ len (L k)) →
  wp (coord_allocate_new_blocks use_int rid num_tokens main enc) (λ rs c', ∃ L',
    evolved c c' ∧ coord_wf ext c' L' ∧
    (∀ k, L' k ⊆ L k ∧ len (L k) - cost_on c (at_manager (λ m _, grow_cost m) 0 c)
       (length (single_type_managers c)) k ≤ len (L' k)) ∧
    length rs = length (single_type_managers c) ∧
    ∀ i m, manager_at c i = Some m →
      ∃ new m', rs !! i = Some new ∧ manager_at c' i = Some m' ∧ post_grow m new m') c.
Proof.
  intros Hwf Hen. unfold coord_allocate_new_blocks.
  eapply wp_mono; [apply (for_acc_managers_spec ext ext_nonneg c L (at_manager (λ m _, grow_cost m) 0 c) _ (⊆)
    (λ _, []) true (λ _ m new m', post_grow m new m') Hwf)|].
  - intros i. unfold at_manager. case_match; [apply grow_cost_nonneg|done].
  - apply none_uncached_nil.
  - done.
  - intros i m g o l p Hm Hg Hcfg Ho Hst Hun Hsub Hcost. unfold at_manager in *. rewrite Hm in *.
    by eapply (grow_body m o l p).
  - done.
  - intros rs c' (L' & Hst). exists L'. by apply stepped_all in Hst.
Qed.

(** The table of a new request. *)
Definition hit_table (m : SingleTypeKVCacheManager) (h : list nat) : list nat :=
  if shares_prefix (manager_class m)
  then replicate (Z.to_nat (skip_of m)) null_block ++ drop (Z.to_nat (skip_of m)) h else [].
Record allocated (h : list nat) (m m' : SingleTypeKVCacheManager) : Prop := {
  al_same : same_others rid m m';
  al_blocks : ∃ bs', req_to_blocks m' !! rid = Some bs' ∧ required_blocks m (tokens_of m) ≤ len bs' ∧
    ∀ j b, hit_table m h !! j = Some b →
      (is_redirected m h = true → j ≠ Z.to_nat (local // block_size m)) → bs' !! j = Some b;
  al_cached : shares_prefix (manager_class m) = true → is_Some (num_cached_block m' !! rid);
  al_partial : _partial_hit_reqs m' !! rid = None
}.

Lemma loaded_grow_cost c L i m h m2 :
  coord_wf ext c L → manager_at c i = Some m → loaded h m m2 → grow_cost m2 = num_grown m h.
Proof.
  intros Hwf Hm [Hs (new & Hb & Hn) _ Hp _]. destruct (manager_at_inv c i m Hm) as (_ & g & _ & _ & Hg & _).
  pose proof (skip_nonneg _ m _ (cw_wf _ _ _ Hwf i m g Hm Hg)) as Hk.
  unfold grow_cost, num_grown, num_redirects, num_missing, tokens_of, is_cross, required_blocks.
  rewrite Hb, len_app, hit_table_len, Hn, (so_class _ _ _ Hs), (so_size _ _ _ Hs) by done.
  f_equal. destruct (_partial_hit_reqs m2 !! rid) as [[idx b]|].
  - by rewrite (proj1 Hp) by eauto.
  - destruct (is_redirected m h); [|done]. by destruct (proj2 Hp eq_refl).
Qed.

Lemma loaded_allocated h m m2 new m' :
  loaded h m m2 → post_grow m2 new m' → allocated h m m'.
Proof.
  intros [Hs (nw & Hb & Hn) Hc Hp Hi] [Hs2 (bs' & Hbs' & Hlen & Hkept) _ Hc2 Hp2]. split.
  - by etrans.
  - exists bs'. split; [done|]. split.
    + unfold num_missing, tokens_of, is_cross, required_blocks in *. rewrite (so_class _ _ _ Hs), (so_size _ _ _ Hs) in Hlen.
      lia.
    + intros j b Hj Hred. apply Hkept.
      * rewrite Hb. by apply lookup_app_l_Some.
      * intros idx src Hpart. rewrite (Hi idx src Hpart). intros Heq. apply Hred; [|done]. apply Hp. eauto.
  - by rewrite Hc2.
  - done.
Qed.

Lemma both_phases c L :
  coord_wf ext c L → new_request c →
  (∀ k, cost_on c (evict_cost c) (length (single_type_managers c)) k +
        cost_on c (loaded_cost c) (length (single_type_managers c)) k +
        cost_on c (grown_cost c) (length (single_type_managers c)) k ≤ len (L k)) →
  wp (_ ← allocate_new_computed_blocks use_int rid hits local external;
      coord_allocate_new_blocks use_int rid num_tokens main enc) (λ rs c', ∃ L',
    evolved c c' ∧ coord_wf ext c' L' ∧
    (∀ k, L' k ⊆ L k ∧ len (L k) - cost_on c (evict_cost c) (length (single_type_managers c)) k -
        cost_on c (loaded_cost c) (length (single_type_managers c)) k -
        cost_on c (grown_cost c) (length (single_type_managers c)) k ≤ len (L' k)) ∧
    length rs = length (single_type_managers c) ∧
    ∀ i m, manager_at c i = Some m → ∃ m', manager_at c' i = Some m' ∧ allocated (hits_of i) m m') c.
Proof.
  intros Hwf Hnew Hen. set (n := length (single_type_managers c)) in *.
  assert (∀ k, 0 ≤ cost_on c (grown_cost c) n k) as Hg0.
  { intros k. etrans; [|apply (cost_on_le c (grown_cost c) 0 n k); [|lia]]; [done|]. intros i.
    unfold grown_cost, at_manager, num_grown. repeat case_match; lia. }
  apply wp_bind. eapply wp_mono; [apply (first_phase c L Hwf Hnew)|].
  { intros k. specialize (Hen k). specialize (Hg0 k). fold n. lia. }
  intros [] c1 (L1 & Hev1 & Hwf1 & Hlist1 & Hat1). fold n in Hlist1.
  assert (∀ k, cost_on c1 (at_manager (λ m _, grow_cost m) 0 c1) (length (single_type_managers c1)) k =
    cost_on c (grown_cost c) n k) as Hcost.
  { intros k. rewrite (cost_on_groups c c1), (ev_len _ _ Hev1) by (by apply evolved_groups). fold n.
    unfold cost_on. f_equal. apply list_fmap_ext. intros j i [-> Hi]%lookup_seq. case_decide; [|done].
    destruct (cw_at _ _ _ Hwf j Hi) as [m Hm]. destruct (Hat1 j m Hm) as (m1 & Hm1 & Hld).
    unfold grown_cost, at_manager. rewrite Nat.add_0_l, Hm, Hm1. by apply (loaded_grow_cost c L j m _ m1). }
  eapply wp_mono; [apply (grow_all c1 L1 Hwf1)|].
  { intros k. rewrite Hcost. specialize (Hlist1 k). specialize (Hen k). lia. }
  intros rs c2 (L2 & Hev2 & Hwf2 & Hlist2 & Hrs & Hat2). exists L2. split; [by etrans|]. split; [done|]. split_and!.
  - intros k. specialize (Hlist1 k) as [? ?]. specialize (Hlist2 k) as [? Hl2]. rewrite Hcost in Hl2. split; [by etrans|lia].
  - by rewrite Hrs, (ev_len _ _ Hev1).
  - intros i m Hm. destruct (Hat1 i m Hm) as (m1 & Hm1 & Hld). destruct (Hat2 i m1 Hm1) as (new & m2 & _ & Hm2 & Hp).
    exists m2. split; [done|]. by eapply loaded_allocated.
Qed.

Lemma sumZ_zero xs : (∀ x, x ∈ xs → x = 0) → sumZ xs = 0.
Proof.
  induction xs as [|y xs IH]; intros Hz; [done|]. rewrite sumZ_cons, (Hz y) by (by left).
  rewrite IH; [done|]. intros x Hx. apply Hz. by right.
Qed.

Lemma cost_on_outside c L cost k :
  coord_wf ext c L → ¬ (k < length (block_pools c))%nat →
  cost_on c cost (length (single_type_managers c)) k = 0.
Proof.
  intros Hwf Hk. apply sumZ_zero.
  intros x (i & -> & Hi%elem_of_seq)%list_elem_of_fmap. case_decide as Hp; [|done].
  destruct (cw_at _ _ _ Hwf i) as [m Hm]; [lia|].
  destruct (manager_at_inv c i m Hm) as (_ & g & p & _ & Hg & Hpool & _). rewrite Hg in Hp. simpl in Hp.
  injection Hp as <-. apply lookup_lt_Some in Hpool. done.
Qed.

(** The predicted number for each manager. *)
Definition need_of (c : KVCacheCoordinator) (i : nat) : Z :=
  at_manager (λ m i, match predict m (hits_of i) false with Ok n => n | Raise _ => 0 end) 0 c i.

Lemma new_prediction c L :
  coord_wf ext c L → new_request c →
  ∃ n, coord_get_num_blocks_to_allocate c rid num_tokens hits enc (local + external) local main false = Ok n ∧
    ∀ k, cost_on c (evict_cost c) (length (single_type_managers c)) k +
        cost_on c (loaded_cost c) (length (single_type_managers c)) k +
        cost_on c (grown_cost c) (length (single_type_managers c)) k ≤
        if decide (k < length (block_pools c))%nat then n else 0.
Proof.
  intros Hwf Hnew.
  assert (∀ i m, manager_at c i = Some m → is_Some (hits !! i) ∧ predict m (hits_of i) false = Ok (need_of c i) ∧
    evict_cost c i + loaded_cost c i + grown_cost c i ≤ need_of c i) as Hneed.
  { intros i m Hm. destruct (nr_hits c Hnew i m Hm) as (h & Hh & Hnt & Hho).
    destruct (manager_at_inv c i m Hm) as (_ & g & _ & _ & Hg & _).
    destruct (predict_new _ m _ h (cw_wf _ _ _ Hwf i m g Hm Hg) Hnt (ho_shared _ _ _ Hho)) as (n & Hn & Hle).
    unfold need_of, evict_cost, loaded_cost, grown_cost, at_manager. rewrite Hm, Hh. simpl. by rewrite Hn. }
  destruct (coord_predict_spec c L (need_of c) false Hwf) as (n & Hn & Hk & _).
  { intros i m Hm. destruct (Hneed i m Hm) as (? & ? & _). done. }
  exists n. split; [done|]. intros k. rewrite <-!cost_on_add.
  case_decide as Hlt; [|rewrite (cost_on_outside c L) by done; done].
  etrans; [|by apply Hk]. apply cost_on_mono. intros i Hi. destruct (cw_at _ _ _ Hwf i Hi) as [m Hm].
  by apply (Hneed i m).
Qed.

(** C13: The number of blocks that [get_num_blocks_to_allocate] predicts for a new request with
    a prefix hit covers the allocation that follows, over all managers and pools.  The
    prediction never raises; when every pool has that many free blocks, taking the hit,
    allocating blocks for external tokens and growing the tables never raises, takes at most
    that many blocks from any pool, keeps all reference counts exact, leaves other requests
    alone, and gives every layer a table that starts with the hit and is long enough. *)
Theorem prediction_covers_allocation c L :
  coord_wf ext c L → new_request c →
  ∃ n, coord_get_num_blocks_to_allocate c rid num_tokens hits enc (local + external) local main false = Ok n ∧
    ((∀ k, (k < length (block_pools c))%nat → n ≤ len (L k)) →
     ∃ rs c' L',
       (_ ← allocate_new_computed_blocks use_int rid hits local external;
        coord_allocate_new_blocks use_int rid num_tokens main enc) c = Ok (rs, c') ∧
       evolved c c' ∧ coord_wf ext c' L' ∧
       (∀ k, (k < length (block_pools c))%nat → L' k ⊆ L k ∧ len (L k) - n ≤ len (L' k)) ∧
       ∀ i m, manager_at c i = Some m → ∃ m', manager_at c' i = Some m' ∧ allocated (hits_of i) m m').
Proof.
  intros Hwf Hnew. destruct (new_prediction c L Hwf Hnew) as (n & Hn & Hcost). exists n. split; [done|].
  intros Hen. pose proof (both_phases c L Hwf Hnew) as Hwp.
  apply wp_run in Hwp as (rs & c' & Hrun & L' & Hev & Hwf' & Hl & _ & Hat).
  - exists rs, c', L'. split; [done|]. split; [done|]. split; [done|]. split; [|done].
    intros k Hk. specialize (Hcost k). rewrite decide_True in Hcost by done. destruct (Hl k). split; [done|lia].
  - intros k. etrans; [apply Hcost|]. case_decide as Hk; [by apply Hen|apply len_nonneg].
Qed.

(** ** A request that has run before *)

Definition continuing (m : SingleTypeKVCacheManager) : Prop :=
  _partial_hit_reqs m !! rid = None ∧
  (shares_prefix (manager_class m) = true → is_Some (num_cached_block m !! rid) ∨
     skip_of m ≤ len (default [] (req_to_blocks m !! rid))).

Lemma predict_base_continuing m tokens total loc mn :
  0 < block_size m → is_Some (num_cached_block m !! rid) ∨
    get_num_skipped_tokens (manager_class m) total // block_size m ≤ len (default [] (req_to_blocks m !! rid)) →
  get_num_blocks_to_allocate_base m rid tokens [] total loc mn false =
    Ok (Z.max 0 (cdiv tokens (block_size m) - len (default [] (req_to_blocks m !! rid)))).
Proof.
  intros Hs Hc. unfold get_num_blocks_to_allocate_base.
  pose proof (len_nonneg (default [] (req_to_blocks m !! rid))) as Hl.
  destruct (num_cached_block m !! rid).
  - rewrite decide_True by done. destruct (_max_admission_blocks_per_request m); f_equal; lia.
  - destruct Hc as [[? [=]]|Hc]. unfold _has_partial_local_hit. rewrite bool_decide_eq_false_2 by (unfold len; simpl; lia).
    assert (∀ n, slice_from (A := nat) [] n = []) as -> by (intros n; unfold slice_from; apply drop_nil).
    unfold _get_num_evictable_blocks. rewrite filter_nil, len_nil.
    destruct (_max_admission_blocks_per_request m); f_equal; lia.
Qed.

Lemma predict_continuing o m l : st_wf o m l → continuing m → predict m [] false = Ok (grow_cost m).
Proof.
  intros Hwf [Hp Hc]. pose proof (sw_size _ _ _ Hwf) as Hs.
  pose proof (len_nonneg (default [] (req_to_blocks m !! rid))) as Hl.
  pose proof (predict_base_continuing m num_tokens (local + external) local main Hs) as Hbase.
  pose proof (predict_base_continuing m enc 0 0 enc Hs) as Hcross.
  unfold predict, grow_cost, num_redirects, num_missing, required_blocks, tokens_of, is_cross,
    get_num_blocks_to_allocate. rewrite Hp.
  unfold skip_of in Hc. destruct (manager_class m); try (rewrite Hbase by auto; done).
  - simpl. f_equal. lia.
  - destruct (default [] (req_to_blocks m !! rid)) as [|b bs]; [done|]. rewrite decide_False by done.
    simpl. rewrite len_cons in *. pose proof (len_nonneg bs). f_equal. lia.
  - rewrite Hcross; [done|]. right. rewrite Z.div_0_l by lia. done.
Qed.

(** For a request that already has its prefix the prediction is exact: growing the tables over
    all managers takes exactly the predicted blocks per pool. *)
Lemma continued_allocation c L :
  coord_wf ext c L →
  (∀ i m, manager_at c i = Some m → hits !! i = Some [] ∧ continuing m) →
  ∃ n, coord_get_num_blocks_to_allocate c rid num_tokens hits enc (local + external) local main false = Ok n ∧
    ((∀ k, (k < length (block_pools c))%nat → n ≤ len (L k)) →
     ∃ rs c' L', coord_allocate_new_blocks use_int rid num_tokens main enc c = Ok (rs, c') ∧
       evolved c c' ∧ coord_wf ext c' L' ∧
       (∀ k, (k < length (block_pools c))%nat → L' k ⊆ L k ∧ len (L k) - n ≤ len (L' k)) ∧
       ∀ i m, manager_at c i = Some m →
         ∃ new m', rs !! i = Some new ∧ manager_at c' i = Some m' ∧ post_grow m new m').
Proof.
  intros Hwf Hreq.
  destruct (coord_predict_spec c L (at_manager (λ m _, grow_cost m) 0 c) false Hwf) as (n & Hn & Hk & _).
  { intros i m Hm. destruct (Hreq i m Hm) as [-> Hc]. split; [done|]. simpl.
    destruct (manager_at_inv c i m Hm) as (_ & g & _ & _ & Hg & _).
    unfold at_manager. rewrite Hm. eapply predict_continuing; [|done]. by apply (cw_wf _ _ _ Hwf i m g). }
  exists n. split; [done|]. intros Hen. pose proof (grow_all c L Hwf) as Hwp.
  apply wp_run in Hwp as (rs & c' & Hrun & L' & Hev & Hwf' & Hl & _ & Hat).
  - exists rs, c', L'. split; [done|]. split; [done|]. split; [done|]. split; [|done].
    intros k Hlt. specialize (Hk k Hlt). destruct (Hl k). split; [done|lia].
  - intros k. destruct (decide (k < length (block_pools c))%nat) as [Hlt|Hge].
    + etrans; [by apply Hk|by apply Hen].
    + rewrite (cost_on_outside c L) by done. apply len_nonneg.
Qed.
End alloc.

(** ** The state after construction *)

(** No request has blocks. *)
Definition idle (c : KVCacheCoordinator) : Prop := ∀ i m, single_type_managers c !! i = Some m →
  req_to_blocks m = ∅ ∧ num_cached_block m = ∅.

Lemma idle_at c i m rid j b : idle c → manager_at c i = Some m → ¬ at_pos m rid j b.
Proof.
  intros Hid (m0 & g & p & Hm0 & _ & _ & ->)%manager_at_inv (Hj & _). simpl in Hj.
  by rewrite (proj1 (Hid i m0 Hm0)) in Hj.
Qed.

Lemma idle_private c : idle c → coord_private c ∧ ∀ hits, none_uncached c hits.
Proof.
  intros Hid. split; [split|].
  - intros i m Hm. split.
    + destruct (manager_at_inv c i m Hm) as (m0 & g & p & Hm0 & _ & _ & ->). intros rid n. simpl.
      by rewrite (proj2 (Hid i m0 Hm0)).
    + intros rid j b [Ha _]. by destruct (idle_at c i m rid j b Hid Hm).
    + intros rid j rid' j' b [Ha _]. by destruct (idle_at c i m rid j b Hid Hm).
  - intros i i' m m' g g' rid j rid' j' b _ Hm _ _ _ _ [Ha _]. by destruct (idle_at c i m rid j b Hid Hm).
  - intros hits i g i' m g' rid j b _ _ Hm _ _ [Ha _]. by destruct (idle_at c i' m rid j b Hid Hm).
Qed.

Section start.
Variable cfg : KVCacheConfig.
Variables (max_model_len max_in_flight_tokens : Z) (eagle events : bool).
Variables (dcp pcp sched hash : Z).
Variables (mc : option (list MetricsCall)) (lookahead : Z).

(** A new coordinator satisfies the invariant; all blocks but the null blocks are free. *)
Lemma constructed_coord_wf caching c :
  get_kv_cache_coordinator cfg max_model_len max_in_flight_tokens eagle events dcp pcp sched hash mc
    lookahead caching = Ok c →
  (∀ g, g ∈ config_groups cfg → class_ok (spec_class (kv_cache_spec g)) ∧
     0 < spec_block_size (kv_cache_spec g) * dcp_world_size_for_kv_cache_spec (kv_cache_spec g) dcp) →
  coord_wf (λ _ _, 0) c (λ _, seq 1 (Z.to_nat (num_blocks cfg) - 1)) ∧ idle c.
Proof.
  intros Hc Hgs. destruct (coordinator_constructed _ _ _ _ _ _ _ _ _ _ _ _ _ Hc) as (Hg & Hd & Hlen & Hpools & Hms).
  assert (∀ k p, block_pools c !! k = Some p → alloc_wf p (seq 1 (Z.to_nat (num_blocks cfg) - 1)) ∧ cache_wf p ∧
    ∀ i, ref_cnt (blk p i) = 0) as Hp.
  { intros k p Hk. destruct (Forall2_lookup_r _ _ _ _ _ Hpools Hk) as (pid & _ & Hnew).
    destruct (decide (0 < num_blocks cfg)) as [Hn|Hn].
    - destruct (new_BlockPool_spec (num_blocks cfg) caching hash events mc (Z.of_nat pid) Hn)
        as (p' & Hp' & Ha & Hw & _ & _ & _ & _ & _ & Hr). rewrite Hp' in Hnew. injection Hnew as <-.
      split_and!; [done|done|]. intros i. apply Hr.
    - unfold new_BlockPool in Hnew. by rewrite decide_False in Hnew by lia. }
  assert (∀ i m j, single_type_managers c !! i = Some m → held m j = 0) as Hheld.
  { intros i m j Hi. destruct (Hms i m Hi) as (g & _ & _ & [_ _ _ Hreq _ _ Hpend]).
    unfold held. by rewrite Hreq, Hpend, map_sum_empty. }
  assert (∀ k j, pool_held c k j = 0) as Hzero.
  { intros k j. apply sumZ_zero. intros x [i Hx]%list_elem_of_lookup.
    apply lookup_zip_with_Some in Hx as (m & g & -> & Hm & _). unfold held_on. rewrite (Hheld i m j Hm). by case_decide. }
  assert (idle c) as Hidle.
  { intros i m Hm. by destruct (Hms i m Hm) as (g & _ & _ & []). }
  split; [|done]. split; [|by apply idle_private]. split.
  - by rewrite Hg.
  - intros i [m Hm]%lookup_lt_is_Some_2. destruct (Hms i m Hm) as (g & Hgi & [p Hpool] & _).
    eexists. eapply manager_at_intro; [done|by rewrite Hg|done].
  - intros i m g Hm Hgi. destruct (manager_at_inv c i m Hm) as (m0 & g' & p & Hm0 & Hg' & Hpool & ->). simplify_eq.
    destruct (Hms i m0 Hm0) as (g' & Hgi' & _ & [Hcl Hsz _ Hreq _ Hpart Hpend]). rewrite Hg in Hgi. simplify_eq.
    destruct (Hp _ _ Hpool) as (Ha & Hcw & Hr). destruct (Hgs g) as [Hok Hpos]; [by eapply list_elem_of_lookup_2|].
    split; simpl; try done.
    + intros j _. change (ref_cnt (blk p j) = held m0 j + others (λ _ _, 0) c i j).
      rewrite Hr, (Hheld i m0 j Hm0). unfold others. rewrite Hm0, Hg, Hgi, Hzero, (Hheld i m0 j Hm0). done.
    + by rewrite Hreq.
    + by rewrite Hpart.
    + by rewrite Hpart.
    + rewrite Hsz. unfold group_block_size. exact Hpos.
    + by rewrite Hcl.
    + rewrite Hpend. by intros b ?%elem_of_nil.
  - intros k p Hk. destruct (Hp k p Hk) as (? & ? & _). done.
Qed.
End start.

(** Caching blocks does not touch the reference counts. *)
Lemma coord_wf_cached ext c L f :
  coord_wf ext c L → idle c → (∀ p, p ∈ block_pools c → cache_wf (f p) ∧ alloc_same p (f p)) →
  coord_wf ext (c <| block_pools ::= fmap f |>) L.
Proof.
  intros Hwf Hid Hf. split; [|by apply idle_private].
  assert (∀ i, manager_at (c <| block_pools ::= fmap f |>) i =
    (λ m, m <| block_pool := f (block_pool m) |>) <$> manager_at c i) as Hat.
  { intros i. unfold manager_at. simpl. destruct (single_type_managers c !! i); [|done]. simpl.
    destruct (kv_cache_groups c !! i); [|done]. simpl. rewrite list_lookup_fmap. by destruct (block_pools c !! _). }
  split; simpl.
  - apply Hwf.
  - intros i Hi. rewrite Hat. by apply fmap_is_Some, Hwf.
  - intros i m g Hm Hg. rewrite Hat in Hm. apply fmap_Some in Hm as (m0 & Hm0 & ->).
    pose proof (cw_wf _ _ _ Hwf i m0 g Hm0 Hg) as Hst.
    destruct (manager_at_inv c i m0 Hm0) as (m1 & g' & p & _ & _ & Hp & ->).
    destruct (Hf p) as [Hc Ha]; [by eapply list_elem_of_lookup_2|].
    eapply (st_wf_other (others ext c i)); [exact Hst|apply Ha| |done|].
    + eapply alloc_wf_same; [exact Ha|apply Hst].
    + intros j Hj. simpl. rewrite (as_ref _ _ Ha). apply (sw_refs _ _ _ Hst j Hj).
  - intros k p. rewrite list_lookup_fmap. intros (p0 & Hp0 & ->)%fmap_Some.
    destruct (Hf p0) as [Hc Ha]; [by eapply list_elem_of_lookup_2|]. split; [|done].
    eapply alloc_wf_same; [exact Ha|]. by apply (cw_pool _ _ _ Hwf k).
Qed.

(** ** The hybrid model of CoordInit.v takes a request *)

Definition demo_hits : list (list nat) := [[0; 0; 0; 3]; [1; 2]; [0; 0; 0; 4]]%nat.

Lemma hybrid_filled_parts :
  single_type_managers hybrid_filled = single_type_managers demo_coordinator ∧
  block_pools hybrid_filled = fill_pool <$> block_pools demo_coordinator.
Proof. unfold hybrid_filled. by generalize demo_coordinator. Qed.

Lemma hybrid_filled_coord_wf : coord_wf (λ _ _, 0) hybrid_filled (λ _, seq 1 8) ∧ idle hybrid_filled.
Proof.
  destruct demo_coordinator_new as [Hnew _].
  destruct (constructed_coord_wf _ _ _ _ _ _ _ _ _ _ _ _ _ Hnew) as [Hwf Hid];
    [apply Forall_forall; repeat constructor; vm_compute; done|].
  split; [exact (coord_wf_cached _ _ _ _ Hwf Hid fill_pool_ok)|].
  unfold idle. rewrite (proj1 hybrid_filled_parts). exact Hid.
Qed.

Lemma demo_new_request : new_request "r" demo_hits 16 0 hybrid_filled.
Proof.
  split; [|apply idle_private, (proj2 hybrid_filled_coord_wf)].
  intros i m Hm. destruct (manager_at_inv _ _ _ Hm) as (m0 & g & p & Hm0 & Hg & Hp & ->).
  destruct demo_coordinator_new as [Hnew _].
  destruct (coordinator_constructed _ _ _ _ _ _ _ _ _ _ _ _ _ Hnew) as (_ & _ & _ & _ & Hms).
  destruct hybrid_filled_parts as [Hmgs Hps]. rewrite Hmgs in Hm0.
  destruct (Hms i m0 Hm0) as (g' & Hg' & _ & [Hcl Hsz Hca Hreq Hcd Hpart _]).
  assert (num_gpu_blocks p = 9) as Hn.
  { rewrite Hps, list_lookup_fmap in Hp. apply fmap_Some in Hp as (p0 & Hp0%list_elem_of_lookup_2 & ->).
    destruct (fill_pool_ok p0 Hp0) as [_ Ha]. rewrite (cfg_num _ _ (as_config _ _ Ha)).
    revert Hp0. clear. vm_compute. intros ->%list_elem_of_singleton. done. }
  assert (group_block_size demo_coordinator (kv_cache_spec g') = spec_block_size (kv_cache_spec g')) as Hb.
  { unfold group_block_size. assert (coord_dcp_world_size demo_coordinator = 1) as -> by (vm_compute; done).
    unfold dcp_world_size_for_kv_cache_spec. simpl. lia. }
  rewrite Hb in Hsz. clear Hnew Hms Hm Hm0 Hp Hg Hb Hmgs Hps.
  destruct i as [|[|[|i]]]; try done; injection Hg' as <-; (eexists; split; [reflexivity|]);
    (split; [unfold new_to; simpl; by rewrite Hreq, Hcd, Hpart|]); split; simpl;
    rewrite ?Hcl, ?Hsz, ?Hn, ?Hca; try done; set_solver by lia.
Qed.

Lemma prediction_covers_allocation_witness :
  coord_get_num_blocks_to_allocate hybrid_filled "r" 20 demo_hits 0 (16 + 0) 16 20 false = Ok 7 ∧
  ∃ rs c' L',
    (_ ← allocate_new_computed_blocks (H := elements_iter) false "r" demo_hits 16 0;
     coord_allocate_new_blocks (H := elements_iter) false "r" 20 20 0) hybrid_filled = Ok (rs, c') ∧
    coord_wf (λ _ _, 0) c' L'.
Proof.
  assert (coord_get_num_blocks_to_allocate hybrid_filled "r" 20 demo_hits 0 (16 + 0) 16 20 false = Ok 7) as Hn
    by (vm_compute; reflexivity).
  split; [exact Hn|].
  destruct (prediction_covers_allocation (H := elements_iter) false (λ _ _, 0) (λ _ _, Z.le_refl 0) "r" demo_hits 16 0 20 20 0)
    with (c := hybrid_filled) (L := λ _ : nat, seq 1 8) as (n & Hn' & Hall).
  1-3: lia.
  { exact (proj1 hybrid_filled_coord_wf). }
  { exact demo_new_request. }
  rewrite Hn in Hn'. injection Hn' as <-. destruct Hall as (rs & c' & L' & Hrun & _ & Hwf & _).
  { intros k _. vm_compute. done. }
  exists rs, c', L'. split; [exact Hrun|exact Hwf].
Defined.
