(* ===== verification/CoordRelease.v ===== *)
(** * Releasing blocks over all cache groups

    Dropping blocks outside the attention windows and freeing a request, for all managers at
    once. *)

From S2P Require Import Prelude FreeQueue Request Hashing BlockPool PoolSpecs PoolTheorems.
From S2P Require Import SingleType SingleSpecs SingleTheorems Uncached CacheHit Coordinator CoordSpecs CoordAlloc.

Lemma NoDup_subset_len (l l' : list nat) : NoDup l → l ⊆ l' → len l ≤ len l'.
Proof. intros Hnd Hs. unfold len. apply inj_le, submseteq_length. by apply NoDup_submseteq. Qed.

Lemma cost_on_zero c n k : cost_on c (λ _, 0) n k = 0.
Proof. unfold cost_on. apply sumZ_zero. intros x (i & -> & _)%list_elem_of_fmap. by case_decide. Qed.

Section release.
Context `{SetIter}.
Variable ext : nat → nat → Z.
Hypothesis ext_nonneg : ∀ k j, 0 ≤ ext k j.
Variable rid : string.

(** A method that only releases blocks, for all managers. *)
Lemma for_release c L (body : T unit) post :
  coord_wf ext c L →
  (∀ i m o l p, manager_at c i = Some m → (∀ j, 0 ≤ o j) → st_wf o (m <| block_pool := p |>) l →
    uncached_ok (m <| block_pool := p |>) →
    wp body (λ _ m', ∃ l', st_wf o m' l' ∧ same_config p (block_pool m') ∧
      uncached_step [] true (m <| block_pool := p |>) l m' ∧ l ⊆ l' ∧
      ∀ p', post m (m' <| block_pool := p' |>)) (m <| block_pool := p |>)) →
  wp (for_managers (λ _, body)) (λ _ c', ∃ L', evolved c c' ∧ coord_wf ext c' L' ∧
    (∀ k, L k ⊆ L' k ∧ len (L k) ≤ len (L' k)) ∧
    ∀ i m, manager_at c i = Some m → ∃ m', manager_at c' i = Some m' ∧ post m m') c.
Proof.
  intros Hwf Hbody.
  eapply wp_mono; [apply (for_managers_spec ext ext_nonneg (flip (⊆)) (λ _, []) true c L (λ _, 0) _ (λ _ m _ m', post m m') Hwf)|].
  - done.
  - apply none_uncached_nil.
  - done.
  - intros i m g o l p Hm Hg Hcfg Ho Hst Hun _ _. eapply wp_mono; [by apply (Hbody i m o l p)|].
    intros [] m' (l' & Hw & Hc & Hstep & Hs & Hpost). exists l'. split; [done|]. split; [done|]. split; [done|].
    split; [done|]. split; [|done]. assert (NoDup l) as Hnd by (eapply repr_NoDup, wf_queue, Hst).
    pose proof (NoDup_subset_len _ _ Hnd Hs). lia.
  - intros k. rewrite cost_on_zero. apply len_nonneg.
  - intros [] c' (rs & L' & Hst). apply stepped_all in Hst as (Hev & Hw & Hl & _ & Hat).
    exists L'. split; [done|]. split; [done|]. split.
    + intros k. destruct (Hl k) as [Hs Hle]. rewrite cost_on_zero in Hle. split; [done|lia].
    + intros i m Hm. destruct (Hat i m Hm) as (a & m' & _ & Hm' & Hpost). eauto.
Qed.

(** ** Blocks outside the window *)

Section skipped.
Variables (n : Z) (prompt : option Z).
Hypothesis n_nonneg : 0 ≤ n.
Hypothesis prompt_nonneg : ∀ np, prompt = Some np → 0 ≤ np.

(** The table keeps every block that a query from position [n] on can see. *)
Record post_remove (m m' : SingleTypeKVCacheManager) : Prop := {
  pr_same : same_others rid m m';
  pr_length : length (default [] (req_to_blocks m' !! rid)) = length (default [] (req_to_blocks m !! rid));
  pr_kept q t : n ≤ q → 0 ≤ t → attends (manager_class m) prompt q t = true →
    default [] (req_to_blocks m' !! rid) !! Z.to_nat (t // block_size m) =
    default [] (req_to_blocks m !! rid) !! Z.to_nat (t // block_size m);
  pr_cached : num_cached_block m' = num_cached_block m;
  pr_partial : _partial_hit_reqs m' = _partial_hit_reqs m
}.

Lemma remove_skipped_absent o m l :
  (∀ j, 0 ≤ o j) → st_wf o m l → req_to_blocks m !! rid = None →
  wp (remove_skipped_blocks rid n prompt) (λ _ m', st_wf o m' l ∧
    (m' = m ∨ m' = m <| req_to_blocks ::= <[rid := []]> |>)) m.
Proof.
  intros Ho Hwf Hno.
  assert (∀ lo hi, wp (_remove_blocks_in_range rid lo hi) (λ _ m', st_wf o m' l ∧
    (m' = m ∨ m' = m <| req_to_blocks ::= <[rid := []]> |>)) m) as Hr.
  { intros lo hi. unfold _remove_blocks_in_range. apply wp_bind, wp_gets. rewrite Hno. apply wp_ret. auto. }
  assert (wp (remove_skipped_blocks_base rid n) (λ _ m', st_wf o m' l ∧
    (m' = m ∨ m' = m <| req_to_blocks ::= <[rid := []]> |>)) m) as Hb.
  { unfold remove_skipped_blocks_base. apply wp_bind, wp_gets. case_decide; [apply wp_ret; auto|].
    apply wp_bind. eapply wp_mono; [by apply (req_blocks_spec o m l)|]. simpl. rewrite Hno. simpl.
    intros bs m' (-> & Hwf' & _ & ->). unfold _remove_blocks_in_range. apply wp_bind, wp_gets.
    simpl. rewrite lookup_insert_eq, decide_True by (change (len (@nil nat)) with 0; lia).
    apply wp_ret. auto. }
  unfold remove_skipped_blocks. apply wp_bind, wp_gets.
  destruct (manager_class m), prompt; try (apply wp_ret; auto); auto.
Qed.

Lemma remove_body m o l p :
  (∀ j, 0 ≤ o j) → st_wf o (m <| block_pool := p |>) l → uncached_ok (m <| block_pool := p |>) →
  _partial_hit_reqs m !! rid = None →
  wp (remove_skipped_blocks rid n prompt) (λ _ m', ∃ l', st_wf o m' l' ∧ same_config p (block_pool m') ∧
    uncached_step [] true (m <| block_pool := p |>) l m' ∧ l ⊆ l' ∧ ∀ p', post_remove m (m' <| block_pool := p' |>)) (m <| block_pool := p |>).
Proof.
  intros Ho Hst Hun Hp.
  destruct (req_to_blocks m !! rid) as [bs|] eqn:Hrid.
  - eapply wp_mono; [by apply (remove_skipped_blocks_spec o Ho (m <| block_pool := p |>) l rid bs n prompt Hst)|].
    intros [] m' (z & h & [Hz Hin _ Hwf' Hb Hf Hc Hpt Hcs]). eexists. split; [exact Hwf'|]. split; [apply Hf|].
    split.
    { apply (step_shrunk o Ho rid); try done.
      - intros j b (Hj & Hn & Hno). rewrite Hb in Hj. simpl in Hj. rewrite nulled_lookup in Hj by done.
        case_decide; [congruence|]. split; [simpl; by rewrite Hrid|]. by rewrite Hpt in Hno.
      - rewrite Hc. apply Hun.
      - intros j b _. unfold cached_upto. by rewrite Hc. }
    assert (l ⊆ free_list_after (block_pool (m <| block_pool := p |>)) l (reverse (take (h - z) (drop z bs)))) as Hs.
    { intros i Hi. apply elem_of_free_list_after. by left. }
    split; [done|]. intros p'. split; try done.
    + by eapply same_others_pools.
    + simpl. rewrite Hb, Hrid. simpl. by apply nulled_length.
    + intros q t Hq Ht Hatt. simpl. rewrite Hb, Hrid. simpl. rewrite nulled_lookup by done.
      rewrite decide_False; [done|]. intros Hj%Hin. rewrite Z2Nat.id in Hj by (apply Z.div_pos; [lia|apply Hst]).
      eapply (dropped_invisible (m <| block_pool := p |>) n prompt q t); eauto; apply Hst.
  - eapply wp_mono; [by apply (remove_skipped_absent o _ l)|]. intros [] m' (Hwf' & Hm'). exists l.
    split; [done|]. assert (same_config p (block_pool m')) as Hcfg by (by destruct Hm' as [-> | ->]).
    split; [done|]. split.
    { destruct Hm' as [-> | ->]; [by apply (step_refl o Ho)|]. apply (step_shrunk o Ho rid); try done.
      - split; try done. simpl. intros rid' Hne. by rewrite lookup_insert_ne.
      - intros j b (Hj & _). simpl in Hj. by rewrite lookup_insert_eq in Hj.
      - apply Hun. }
    split; [done|]. intros p'. destruct Hm' as [-> | ->]; [by split|].
    split; simpl; try done.
    + split; try done. simpl. intros rid' Hne. by rewrite lookup_insert_ne.
    + by rewrite lookup_insert_eq, Hrid.
    + intros q t _ _ _. by rewrite lookup_insert_eq, Hrid.
Qed.
Lemma remove_all c L :
  coord_wf ext c L → (∀ i m, manager_at c i = Some m → _partial_hit_reqs m !! rid = None) →
  wp (coord_remove_skipped_blocks rid n prompt) (λ _ c', ∃ L', evolved c c' ∧ coord_wf ext c' L' ∧
    (∀ k, L k ⊆ L' k ∧ len (L k) ≤ len (L' k)) ∧
    ∀ i m, manager_at c i = Some m → ∃ m', manager_at c' i = Some m' ∧ post_remove m m') c.
Proof.
  intros Hwf Hp. apply for_release; [done|]. intros i m o l p Hm Ho Hst Hun. by apply remove_body; eauto.
Qed.
End skipped.

(** ** A whole request *)

Record post_free (m m' : SingleTypeKVCacheManager) : Prop := {
  pf_same : same_others rid m m';
  pf_blocks : req_to_blocks m' = delete rid (req_to_blocks m);
  pf_cached : num_cached_block m' !! rid = None;
  pf_partial : _partial_hit_reqs m' !! rid = None
}.

Lemma free_all c L :
  coord_wf ext c L →
  wp (coord_free rid) (λ _ c', ∃ L', evolved c c' ∧ coord_wf ext c' L' ∧
    (∀ k, L k ⊆ L' k ∧ len (L k) ≤ len (L' k)) ∧
    ∀ i m, manager_at c i = Some m → ∃ m', manager_at c' i = Some m' ∧ post_free m m') c.
Proof.
  intros Hwf. apply for_release; [done|]. intros i m o l p Hm Ho Hst Hun.
  eapply wp_mono; [apply (manager_free_spec o Ho _ l rid Hst)|].
  intros [] m' (Hw & Hf & Hb & Hc & Hpt & Hrel). eexists. split; [exact Hw|]. split; [apply Hf|]. split.
  { apply (step_shrunk o Ho rid); try done; [|by rewrite Hc|..|apply Hrel];
      intros j b (Hj & _); by rewrite Hb, lookup_delete_eq in Hj. }
  split; [intros j Hj; apply elem_of_free_list_after; by left|].
  intros p'. split; [by eapply same_others_pools|done..].
Qed.
End release.
