(* ===== verification/CoordCache.v ===== *)
(** * Caching the blocks of a request in all layers *)

From S2P Require Import Prelude FreeQueue Request Hashing BlockPool PoolSpecs PoolTheorems.
From S2P Require Import SingleType SingleSpecs SingleTheorems Uncached CacheSpecs CacheHit Coordinator.
From S2P Require Import CoordSpecs CoordAlloc CoordRelease.

Section coord_cache.
Context `{SetIter}.
Variable use_int : bool.
Variable sha256 : list (list Z) → bytes.
Variable ext : nat → nat → Z.
Hypothesis ext_nonneg : ∀ k j, 0 ≤ ext k j.

(** Every manager is ready to cache the first tokens of [r], out of [n] computed ones. *)
Definition coord_ready (c : KVCacheCoordinator) (r : Request) (n : Z) : Prop := ∀ i m,
  manager_at c i = Some m → cache_ready sha256 m r (num_tokens_to_cache c m n).

(** The tables are the same. *)
Record post_cache (rid : string) (m m' : SingleTypeKVCacheManager) : Prop := {
  pc_same : same_others rid m m';
  pc_blocks : req_to_blocks m' = req_to_blocks m;
  pc_partial : _partial_hit_reqs m' = _partial_hit_reqs m
}.

Lemma ready_pool m p r r' n :
  cache_ready sha256 m r n → same_config (block_pool m) p → same_request sha256 r r' →
  cache_ready sha256 (m <| block_pool := p |>) r' n.
Proof.
  intros [A B C D E F G I J K U V] Hcfg Hreq.
  destruct (same_request_facts sha256 r r' Hreq) as (Hid & Hbh & Hpt & Hmm & _ & Hmemo).
  split; simpl; rewrite ?(cfg_caching _ _ Hcfg), ?(cfg_hbs _ _ Hcfg), ?(cfg_events _ _ Hcfg), ?Hid, ?Hbh, ?Hpt, ?Hmm;
    try done. intros He. destruct (V He). auto.
Qed.

Section loop.
Variables (c : KVCacheCoordinator) (L : nat → list nat) (r : Request) (n : Z).
Hypothesis c_wf : coord_wf ext c L.
Hypothesis ready : coord_ready c r n.
Abbreviation done_upto := (stepped ext c L (λ _, 0) (=) (λ _, [])
  (λ _ m r' m', same_request sha256 r r' ∧ post_cache (request_id r) m m')).

Lemma cache_one i r1 rs c1 L1 :
  same_request sha256 r r1 → done_upto i rs c1 L1 → (i < length (single_type_managers c))%nat →
  wp (on_manager i (m ← gets (λ m, m);
        cache_blocks use_int sha256 r1 (num_tokens_to_cache c m n) (retention_interval c)))
    (λ r2 c2, same_request sha256 r r2 ∧ ∃ L2, done_upto (S i) (rs ++ [r2]) c2 L2) c1.
Proof.
  intros Hr1 Hst Hi.
  set (body := λ _ : nat, m ← gets (λ m, m);
        cache_blocks use_int sha256 r1 (num_tokens_to_cache c m n) (retention_interval c)).
  eapply wp_mono; [apply (stepped_S ext ext_nonneg c L (λ _, 0) body (=) (λ _, []) true
    (λ _ m r' m', same_request sha256 r r' ∧ post_cache (request_id r) m m')) with (L1 := L1) (rs := rs); try done|].
  - intros j m g o l p Hm Hg Hcfg Ho Hw Hun -> _. unfold body. apply wp_bind, wp_gets.
    change (num_tokens_to_cache c (m <| block_pool := p |>) n) with (num_tokens_to_cache c m n).
    pose proof (ready_pool m p r r1 _ (ready j m Hm) Hcfg Hr1) as Hready.
    eapply wp_mono; [by apply (cache_blocks_spec use_int sha256 o Ho _ (L (pool_id g)))|].
    intros r2 m' [Hr2 [Hw' Hf Hb Hp Hs]]. exists (L (pool_id g)). split; [done|]. split; [apply Hf|].
    split; [done|]. split; [done|]. split; [lia|]. intros p'. split; [by eapply same_request_trans|].
    destruct (same_request_facts sha256 r r1 Hr1) as (Hid & _). rewrite Hid in *.
    split; [by eapply same_others_pools|done..].
  - intros k. rewrite cost_on_zero. apply len_nonneg.
  - intros r2 c2 [L2 H2]. split; [|by exists L2].
    destruct (cw_at _ _ _ c_wf i Hi) as [m Hm]. destruct (sp_done _ _ _ _ _ _ _ _ _ _ _ H2 i m) as (a & m2 & Ha & _ & Hp); [lia|done|].
    rewrite lookup_app_r in Ha by (by rewrite (sp_rs _ _ _ _ _ _ _ _ _ _ _ Hst)).
    rewrite (sp_rs _ _ _ _ _ _ _ _ _ _ _ Hst), Nat.sub_diag in Ha. injection Ha as ->. by apply (Hp (block_pool m)).
Qed.

(** No manager raises, and only hashes change. *)
Lemma cache_all :
  wp (coord_cache_blocks use_int sha256 r n) (λ r' c', ∃ L',
    same_request sha256 r r' ∧ evolved c c' ∧ coord_wf ext c' L' ∧ (∀ k, L' k = L k) ∧
    ∀ i m, manager_at c i = Some m → ∃ m', manager_at c' i = Some m' ∧ post_cache (request_id r) m m') c.
Proof.
  unfold coord_cache_blocks. apply wp_bind, wp_gets.
  eapply wp_mono; [apply (wp_for_acc (λ pre r1 c1, same_request sha256 r r1 ∧ ∃ rs L1, done_upto (length pre) rs c1 L1))|].
  - split; [by left|]. exists [], L. apply stepped_start; [apply _|done|apply none_uncached_nil].
  - intros pre i post r1 c1 Heq (Hr1 & rs & L1 & Hst).
    assert (i = length pre ∧ (length pre < length (single_type_managers c))%nat) as [-> Hlt].
    { assert (seq 0 (length (single_type_managers c)) !! length pre = Some i) as Hi
        by (by rewrite Heq, lookup_app_r, Nat.sub_diag). apply lookup_seq in Hi. lia. }
    eapply wp_mono; [by eapply (cache_one (length pre) r1 rs c1 L1)|]. intros r2 c2 (Hr2 & L2 & H2).
    split; [done|]. exists (rs ++ [r2]), L2. by rewrite length_app, Nat.add_comm.
  - intros r' c' (Hr' & rs & L' & Hst). rewrite length_seq in Hst.
    apply stepped_all in Hst as (Hev & Hw & Hl & _ & Hat). exists L'. split_and!; try done.
    + intros k. apply Hl.
    + intros i m Hm. destruct (Hat i m Hm) as (_ & m' & _ & Hm' & _ & Hp). eauto.
Qed.
End loop.
End coord_cache.
