(* ===== verification/Manager.v ===== *)
(** * The KV cache manager (src/vllm/v1/core/kv_cache_manager.py)

    The interface of the scheduler to the cache: prefix lookup, slots for the tokens of a
    request, release; and the operations on several pools at once ([BlockPoolCollection] of
    src/vllm/v1/core/block_pool.py).  Definitions only. *)

From S2P Require Import Prelude FreeQueue Request Hashing BlockPool SingleType CacheHit Coordinator.

(** ** Several pools *)

(** A method of the [k]-th pool. *)
Definition on_pool_at {A} (k : nat) (op : P A) : C A := λ c,
  match block_pools c !! k with
  | Some p =>
      match op p with
      | Ok (a, p') => Ok (a, c <| block_pools ::= <[k := p']> |>)
      | Raise e => Raise e
      end
  | None => Raise IndexError
  end.

Definition pools_get_num_free_blocks (pools : list BlockPool) : res Z :=
  match get_num_free_blocks <$> pools with
  | [] => Raise ValueError
  | n :: ns => Ok (foldl Z.min n ns)
  end.

(** [free_blocks]; each block comes with its pool. *)
Definition pools_free_blocks (ordered_blocks : list (nat * nat)) : C unit :=
  n ← gets (λ c, length (block_pools c));
  for_ (seq 0 n) (λ k,
    let pool_blocks := (filter (λ kb, kb.1 = k) ordered_blocks).*2 in
    if decide (pool_blocks = []) then mret tt else on_pool_at k (free_blocks pool_blocks)).

(** [all(pool.reset_prefix_cache() for pool in self.pools)] *)
Fixpoint reset_all (ks : list nat) : C bool :=
  match ks with
  | [] => mret true
  | k :: ks => b ← on_pool_at k reset_prefix_cache; if (b : bool) then reset_all ks else mret false
  end.

Definition pools_reset_prefix_cache : C bool :=
  pools ← gets block_pools;
  if existsb (λ p, bool_decide (get_num_free_blocks p ≠ num_gpu_blocks p - 1)) pools
  then mret false
  else reset_all (seq 0 (length pools)).

Definition pools_take_events : C (list KVCacheEvent) :=
  n ← gets (λ c, length (block_pools c));
  for_acc (seq 0 n) [] (λ acc k, events ← on_pool_at k take_events; mret (acc ++ events)).

(** ** The manager *)

(** The shared empty result, whose identity [allocate_slots] tests, or a new object. *)
Inductive KVCacheBlocks :=
  | EmptyBlocks
  | NewBlocks (blocks : list (list nat)).
#[global] Instance KVCacheBlocks_eq_dec : EqDecision KVCacheBlocks.
Proof. solve_decision. Defined.

Record PrefixCacheStats := mkStats {
  stats_reset : bool;
  requests : Z;
  queries : Z;
  hits : Z;
  preempted_requests : Z;
  preempted_queries : Z;
  preempted_hits : Z
}.
#[global] Instance PrefixCacheStats_eta : Eta PrefixCacheStats := λ s,
  mkStats (stats_reset s) (requests s) (queries s) (hits s) (preempted_requests s)
    (preempted_queries s) (preempted_hits s).

Definition new_PrefixCacheStats : PrefixCacheStats := mkStats false 0 0 0 0 0 0.

Definition record (num_tokens num_hits : Z) (preempted : bool) (s : PrefixCacheStats) : PrefixCacheStats :=
  if preempted then
    s <| preempted_requests ::= Z.add 1 |> <| preempted_queries ::= Z.add num_tokens |>
      <| preempted_hits ::= Z.add num_hits |>
  else s <| requests ::= Z.add 1 |> <| queries ::= Z.add num_tokens |> <| hits ::= Z.add num_hits |>.

Record KVCacheManager := mkManager {
  max_model_len : Z;
  mgr_enable_caching : bool;
  mgr_enable_kv_cache_events : bool;
  log_stats : bool;
  prefix_cache_stats : option PrefixCacheStats;
  coordinator : KVCacheCoordinator;
  mgr_pcp_world_size : Z; (* kept by the coordinator of a single group *)
  watermark_blocks : Z;
  (* the kind and window of each group *)
  kv_cache_event_metadata : list (string * option Z);
  _partial_tail_pins : gmap string (list (nat * nat))
}.
#[global] Instance KVCacheManager_eta : Eta KVCacheManager := λ k,
  mkManager (max_model_len k) (mgr_enable_caching k) (mgr_enable_kv_cache_events k) (log_stats k)
    (prefix_cache_stats k) (coordinator k) (mgr_pcp_world_size k) (watermark_blocks k) (kv_cache_event_metadata k)
    (_partial_tail_pins k).

Abbreviation K := (M KVCacheManager).

(** [__init__]; [watermark_blocks] is [int(watermark * num_blocks)] of a non-negative
    watermark. *)
Definition new_KVCacheManager (cfg : KVCacheConfig) (max_model_len scheduler_block_size hash_block_size : Z)
    (max_in_flight_tokens : option Z) (enable_caching use_eagle : bool) (num_prefill_lookahead : Z)
    (log_stats enable_kv_cache_events : bool) (dcp_world_size pcp_world_size : Z)
    (metrics_collector : option (list MetricsCall)) (watermark_blocks : Z)
    (metadata : list (string * option Z)) : res KVCacheManager :=
  coordinator ← get_kv_cache_coordinator cfg max_model_len (default max_model_len max_in_flight_tokens)
    use_eagle enable_kv_cache_events dcp_world_size pcp_world_size scheduler_block_size hash_block_size
    metrics_collector num_prefill_lookahead enable_caching;
  Ok (mkManager max_model_len enable_caching enable_kv_cache_events log_stats
    (if log_stats then Some new_PrefixCacheStats else None) coordinator pcp_world_size watermark_blocks metadata ∅).

Definition on_coordinator {A} (op : C A) : K A := λ k,
  match op (coordinator k) with
  | Ok (a, c) => Ok (a, k <| coordinator := c |>)
  | Raise e => Raise e
  end.

Definition make_prefix_cache_stats : K (option PrefixCacheStats) :=
  log ← gets log_stats;
  if negb log then mret None
  else
    stats ← gets prefix_cache_stats;
    _ ← modify (λ k, k <| prefix_cache_stats := Some new_PrefixCacheStats |>);
    mret stats.

Definition prefix_cache_lookup_enabled (k : KVCacheManager) (request : Request) : bool :=
  mgr_enable_caching k && negb (skip_reading_prefix_cache request).

Definition record_prefix_cache_stats (request : Request) (num_hits : Z) : K unit :=
  k ← gets (λ k, k);
  if negb (log_stats k) || negb (prefix_cache_lookup_enabled k request) then mret tt
  else
    _ ← assert_ (bool_decide (is_Some (prefix_cache_stats k)));
    modify (λ k, k <| prefix_cache_stats ::=
      fmap (record (num_tokens request) num_hits (bool_decide (num_preemptions request > 0))) |>).

Definition num_kv_cache_groups (k : KVCacheManager) : nat := length (kv_cache_groups (coordinator k)).

(** [.blocks] *)
Definition blocks_of (k : KVCacheManager) (b : KVCacheBlocks) : list (list nat) :=
  match b with EmptyBlocks => replicate (num_kv_cache_groups k) [] | NewBlocks l => l end.

Definition create_kv_cache_blocks (blocks : list (list nat)) : KVCacheBlocks :=
  if existsb (λ bs, bool_decide (bs ≠ [])) blocks then NewBlocks blocks else EmptyBlocks.

(** [get_num_free_blocks] of the pool or the collection. *)
Definition mgr_get_num_free_blocks (k : KVCacheManager) : res Z :=
  pools_get_num_free_blocks (block_pools (coordinator k)).

(** ** Lookup *)

Section set_order.
Context `{SetIter}.
(** [envs.VLLM_KV_EVENTS_USE_INT_BLOCK_HASHES] *)
Variable use_int : bool.
Variable sha256 : list (list Z) → bytes.

(** The events for reused blocks, one group after the other. *)
Definition emit_reused_blocks (request : Request) (computed_blocks : list (list nat)) : C Request :=
  groups ← gets kv_cache_groups;
  for_acc (zip computed_blocks (imap pair groups)) request (λ request '(blocks, (i, g)),
    if decide (len blocks > 0) then
      on_pool_at (pool_id g) (emit_cached_block_events use_int sha256 request (len blocks)
        (spec_block_size (kv_cache_spec g)) (Z.of_nat i))
    else mret request).

(** [get_computed_blocks]; the request comes back with its memo. *)
Definition get_computed_blocks (request : Request) : K (KVCacheBlocks * Z * Z * Request) :=
  k ← gets (λ k, k);
  if negb (prefix_cache_lookup_enabled k request) then mret (EmptyBlocks, 0, 0, request)
  else
    let max_cache_hit_length := num_tokens request - 1 in
    '(computed_blocks, num_new_computed_tokens, num_uncached) ←
      lift_res (coord_find_longest_cache_hit (coordinator k) (mgr_pcp_world_size k)
        (HashList (block_hashes request)) max_cache_hit_length);
    request ←
      (if decide (num_new_computed_tokens > 0 ∧ mgr_enable_kv_cache_events k = true ∧
                  kv_cache_report_mode request = Some "full"%string)
       then on_coordinator (emit_reused_blocks request computed_blocks) else mret request);
    let shared_prefix_boundary :=
      if decide (num_uncached ≠ 0) then num_new_computed_tokens + num_uncached else 0 in
    mret (create_kv_cache_blocks computed_blocks, num_new_computed_tokens, shared_prefix_boundary, request).

(** [self.full_attention_group_id] of the hybrid coordinator *)
Definition full_attention_group_id (attention_groups : list SpecGroup) : option nat :=
  match attention_groups with
  | g :: _ => if is_full_attention (sg_spec g) then sg_group_ids g !! 0%nat else None
  | [] => None
  end.

(** [get_computed_blocks_for_connector]; [has_mamba_layers] is the property of that name of the
    cache configuration, whether some layer has a [MambaSpec].  The groups of this model have other
    specs, so it is an argument. *)
Definition get_computed_blocks_for_connector (has_mamba_layers : bool) (request : Request) :
    K (KVCacheBlocks * Z * Z * bool * Request) :=
  k ← gets (λ k, k);
  let reconciled : K (KVCacheBlocks * Z * Z * bool * Request) :=
    '(blocks, n, boundary, request) ← get_computed_blocks request;
    mret (blocks, n, boundary, false, request) in
  match coordinator_class (coordinator k) with
  | HybridKVCacheCoordinator enable_partial_hash_hits attention_groups =>
      match full_attention_group_id attention_groups, has_mamba_layers with
      | Some fa_group_id, true =>
          if negb (prefix_cache_lookup_enabled k request) then mret (EmptyBlocks, 0, 0, false, request)
          else
            '(computed, per_group_hits) ←
              lift_res (find_longest_cache_hit_per_group (coordinator k) enable_partial_hash_hits
                (HashList (block_hashes request)) (num_tokens request - 1) attention_groups);
            num_local ← lift_res (index per_group_hits (Z.of_nat fa_group_id));
            if existsb (λ hit, bool_decide (hit > num_local)) per_group_hits then reconciled
            else mret (create_kv_cache_blocks computed, num_local, 0,
                       existsb (λ hit, bool_decide (hit < num_local)) per_group_hits, request)
      | _, _ => reconciled
      end
  | _ => reconciled
  end.

(** [truncate_computed_blocks] *)
Fixpoint truncate_groups (num_computed_tokens : Z) (blocks : list (list nat))
    (managers : list SingleTypeKVCacheManager) (groups : list KVCacheGroupSpec) : res (list (list nat)) :=
  match blocks, managers, groups with
  | [], [], [] => Ok []
  | bs :: blocks, m :: managers, g :: groups =>
      bs' ← (if negb (participates_in_prefix_caching (kv_cache_spec g)) then
               if decide (bs = []) then Ok [] else Raise AssertionError
             else
               b ← divides (block_size m) num_computed_tokens;
               let n := num_computed_tokens // block_size m in
               if (b : bool) && bool_decide (n ≤ len bs) then Ok (slice_to bs n) else Raise AssertionError);
      rest ← truncate_groups num_computed_tokens blocks managers groups;
      Ok (bs' :: rest)
  | _, _, _ => Raise ValueError (* zip(strict=True) *)
  end.

Definition truncate_computed_blocks (k : KVCacheManager) (blocks : KVCacheBlocks)
    (num_computed_tokens : Z) : res KVCacheBlocks :=
  truncated ← truncate_groups num_computed_tokens (blocks_of k blocks)
    (single_type_managers (coordinator k)) (kv_cache_groups (coordinator k));
  Ok (create_kv_cache_blocks truncated).

(** ** Slots *)

(** The full-sequence check of [allocate_slots]. *)
Definition full_sequence_fits (k : KVCacheManager) (request : Request) (new_computed : list (list nat))
    (num_encoder_tokens total_computed_tokens num_local_computed_tokens watermark : Z) : res bool :=
  let full_num_tokens := Z.min (num_tokens request) (max_model_len k) in
  n ← coord_get_num_blocks_to_allocate (coordinator k) (request_id request) full_num_tokens new_computed
    num_encoder_tokens total_computed_tokens num_local_computed_tokens full_num_tokens true;
  free ← mgr_get_num_free_blocks k;
  Ok (bool_decide (n + watermark ≤ free)).

(** The number of blocks that must be kept free for the request to be admitted. *)
Definition applied_watermark (k : KVCacheManager) (request : Request) (has_scheduled_reqs : bool) : Z :=
  if decide (has_scheduled_reqs = true ∧ (status request = WAITING ∨ status request = PREEMPTED))
  then watermark_blocks k else 0.

(** [allocate_slots]; the request comes back with its memo. *)
Definition allocate_slots (request : Request) (num_new_tokens num_new_computed_tokens : Z)
    (new_computed_blocks : option KVCacheBlocks) (num_lookahead_tokens num_external_computed_tokens : Z)
    (delay_cache_blocks : bool) (num_encoder_tokens : Z) (full_sequence_must_fit : bool)
    (reserved_blocks : Z) (has_scheduled_reqs : bool) : K (option KVCacheBlocks * Request) :=
  if decide (num_new_tokens = 0 ∧ num_external_computed_tokens = 0) then raise ValueError else
  k ← gets (λ k, k);
  let computed := default EmptyBlocks new_computed_blocks in
  let new_computed := blocks_of k computed in
  let num_local_computed_tokens := num_computed_tokens request + num_new_computed_tokens in
  let total_computed_tokens :=
    Z.min (num_local_computed_tokens + num_external_computed_tokens) (max_model_len k) in
  let watermark := applied_watermark k request has_scheduled_reqs in
  fits ← (if full_sequence_must_fit then
            lift_res (full_sequence_fits k request new_computed num_encoder_tokens total_computed_tokens
              num_local_computed_tokens watermark)
          else mret true);
  if negb fits then mret (None, request) else
  let num_tokens_main_model := total_computed_tokens + num_new_tokens in
  let num_tokens_need_slot := Z.min (num_tokens_main_model + num_lookahead_tokens) (max_model_len k) in
  _ ← on_coordinator (coord_remove_skipped_blocks (request_id request)
    (Z.max 0 (total_computed_tokens - num_in_flight_tokens request)) (Some (num_prompt_tokens request)));
  k ← gets (λ k, k);
  num_blocks_to_allocate ← lift_res (coord_get_num_blocks_to_allocate (coordinator k) (request_id request)
    num_tokens_need_slot new_computed num_encoder_tokens
    (num_local_computed_tokens + num_external_computed_tokens) num_local_computed_tokens
    num_tokens_main_model false);
  free ← lift_res (mgr_get_num_free_blocks k);
  if decide (num_blocks_to_allocate + watermark > free - reserved_blocks) then mret (None, request) else
  _ ← (if decide (computed ≠ EmptyBlocks ∨ num_external_computed_tokens > 0) then
         on_coordinator (allocate_new_computed_blocks use_int (request_id request) new_computed
           num_local_computed_tokens num_external_computed_tokens)
       else mret tt);
  new_blocks ← on_coordinator (coord_allocate_new_blocks use_int (request_id request) num_tokens_need_slot
    num_tokens_main_model num_encoder_tokens);
  if negb (mgr_enable_caching k) || delay_cache_blocks then
    mret (Some (create_kv_cache_blocks new_blocks), request)
  else
    let num_tokens_to_cache := Z.min (total_computed_tokens + num_new_tokens) (num_tokens request) in
    request ← on_coordinator (coord_cache_blocks use_int sha256 request num_tokens_to_cache);
    mret (Some (create_kv_cache_blocks new_blocks), request).

(** [cache_blocks] *)
Definition mgr_cache_blocks (request : Request) (num_computed_tokens : Z) : K Request :=
  caching ← gets mgr_enable_caching;
  if (caching : bool) then on_coordinator (coord_cache_blocks use_int sha256 request num_computed_tokens)
  else mret request.
End set_order.

(** ** Release and resets *)

(** [free] *)
Definition mgr_free (request : Request) : K unit :=
  pins ← gets (λ k, _partial_tail_pins k !! request_id request : option (list (nat * nat)));
  _ ← modify (λ k, k <| _partial_tail_pins ::= delete (request_id request) |>);
  _ ← match pins with
      | Some (b :: bs) => on_coordinator (pools_free_blocks (b :: bs))
      | _ => mret tt
      end;
  on_coordinator (coord_free (request_id request)).

Definition mgr_remove_skipped_blocks (request_id : string) (processed_computed_tokens : Z)
    (num_prompt_tokens : option Z) : K unit :=
  on_coordinator (coord_remove_skipped_blocks request_id processed_computed_tokens num_prompt_tokens).

Definition mgr_pop_blocks_for_free (request : Request) : K (list (nat * nat)) :=
  on_coordinator (coord_pop_blocks_for_free (request_id request)).

Definition mgr_evict_blocks `{SetIter} (use_int : bool) (block_ids : gset Z) : K unit :=
  on_coordinator (
    n ← gets (λ c, length (block_pools c));
    for_ (seq 0 n) (λ k, on_pool_at k (evict_blocks use_int block_ids))).

(** [reset_prefix_cache] *)
Definition mgr_reset_prefix_cache : K bool :=
  b ← on_coordinator pools_reset_prefix_cache;
  if negb b then mret false
  else
    log ← gets log_stats;
    _ ← (if (log : bool) then
           stats ← gets prefix_cache_stats;
           _ ← assert_ (bool_decide (is_Some stats));
           modify (λ k, k <| prefix_cache_stats ::= fmap (λ s, s <| stats_reset := true |>) |>)
         else mret tt);
    mret true.

Definition mgr_get_num_common_prefix_blocks (running_request_id : string) : K (list Z) :=
  on_coordinator (coord_get_num_common_prefix_blocks running_request_id).

(** [take_events]: a stored event of a known group with its kind and window. *)
Definition mgr_take_events : K (list (KVCacheEvent * option (string * option Z))) :=
  events ← on_coordinator pools_take_events;
  metadata ← gets kv_cache_event_metadata;
  mret ((λ e, (e, match e with
    | EvStored s =>
        let i := ev_group_idx s in
        if decide (0 ≤ i) then metadata !! Z.to_nat i else None
    | _ => None
    end)) <$> events).

(** ** Queries *)

Definition get_blocks (k : KVCacheManager) (request_id : string) : KVCacheBlocks :=
  create_kv_cache_blocks (coord_get_blocks (coordinator k) request_id).

Definition get_block_ids (k : KVCacheManager) (request_id : string) : list (list nat) :=
  blocks_of k (get_blocks k request_id).

Definition get_block_ids_for_computed_tokens (k : KVCacheManager) (request_id : string)
    (num_computed_tokens : Z) : list (list nat) :=
  zip_with (λ g ids,
    match spec_class (kv_cache_spec g) with
    | CrossAttentionManager => ids
    | _ => slice_to ids (cdiv num_computed_tokens (spec_block_size (kv_cache_spec g)))
    end) (kv_cache_groups (coordinator k)) (get_block_ids k request_id).

Definition estimate_cached_tokens (k : KVCacheManager) (request : Request) : Z :=
  let c := coordinator k in
  let group_tokens := zip_with (λ g blocks,
    match spec_class (kv_cache_spec g), block_pools c !! pool_id g with
    | CrossAttentionManager, _ | _, None => None
    | _, Some p => Some (foldl Z.max 0 ((λ b, default 0 (_block_hash_num_tokens (blk p b))) <$> blocks))
    end) (kv_cache_groups c) (get_block_ids k (request_id request)) in
  default 0 (foldl (λ cached n,
    match cached, n with
    | Some c, Some n => Some (Z.min c n)
    | None, n => n
    | c, None => c
    end) None group_tokens).

(** ** Hand-over to the workers

    A block with its pool stands for its id, which names the pool only when there are several. *)

Definition take_new_block_ids_all : K (list (nat * nat)) :=
  on_coordinator (
    c0 ← gets (λ c, c);
    for_acc (seq 0 (length (single_type_managers c0))) [] (λ ids i,
      new_ids ← on_manager i take_new_block_ids;
      mret (ids ++ ((λ b, (default 0%nat (pool_id <$> kv_cache_groups c0 !! i), b)) <$> new_ids)))).

(** [mgr.req_to_blocks[request_id]] of every manager that records new blocks; the default
    dictionary creates missing entries. *)
Definition get_zeroing_block_ids_in_range (request_id : string) (start_token end_token : Z) :
    K (list (nat * nat)) :=
  on_coordinator (
    c0 ← gets (λ c, c);
    for_acc (seq 0 (length (single_type_managers c0))) [] (λ ids i,
      bs ← on_manager i (
        m ← gets (λ m, m);
        if _record_new_block_ids m then
          let start_idx := start_token // block_size m in
          let end_idx := cdiv end_token (block_size m) in
          blocks ← req_blocks request_id;
          mret (slice blocks start_idx end_idx)
        else mret []);
      mret (ids ++ ((λ b, (default 0%nat (pool_id <$> kv_cache_groups c0 !! i), b)) <$> bs)))).

Definition record_blocks_for_zeroing (request_id : string) (start_token : Z) : K unit :=
  on_coordinator (for_managers (λ _,
    m ← gets (λ m, m);
    if _record_new_block_ids m then
      b ← lift_res (divides (block_size m) start_token);
      _ ← assert_ b;
      let start_idx := start_token // block_size m in
      blocks ← req_blocks request_id;
      modify (λ m, m <| new_block_ids ::= (.++ slice_from blocks start_idx) |>)
    else mret tt)).

(** [take_kv_cache_block_copies]: the copies, each with its pool, and their endpoints. *)
Definition take_kv_cache_block_copies : K (list (nat * (nat * nat)) * list (nat * nat)) :=
  on_coordinator (
    c0 ← gets (λ c, c);
    copies ← for_acc (seq 0 (length (single_type_managers c0))) [] (λ acc i,
      pending ← on_manager i take_pending_cow_copies;
      mret (acc ++ ((λ sd, (default 0%nat (pool_id <$> kv_cache_groups c0 !! i), sd)) <$> pending)));
    mret (copies, '(k, (src, dst)) ← copies; [(k, src); (k, dst)])).
