(* ===== verification/Handover.v ===== *)
(** * Blocks handed over

    References that leave the tables without being dropped: blocks popped for a later release
    and the two ends of pending copies.  Until they are released, they count as references from
    outside, as the invariant of the coordinator (CoordSpecs.v) has them. *)

From S2P Require Import Prelude FreeQueue Request Hashing BlockPool PoolSpecs PoolTheorems.
From S2P Require Import SingleType SingleSpecs SingleTheorems Uncached CacheHit Coordinator.
From S2P Require Import CoordSpecs CoordAlloc CoordRelease Manager.

(** [bs]: blocks with their pools. *)
Definition with_outside (ext : nat → nat → Z) (bs : list (nat * nat)) (k j : nat) : Z := ext k j + occ (k, j) bs.

Lemma coord_wf_same ext ext' c L L' :
  (∀ k j, j ≠ null_block → ext k j = ext' k j) → (∀ k, L k = L' k) → coord_wf ext c L → coord_wf ext' c L'.
Proof.
  intros He HL [[Hlen Hat Hwf Hp] Hpriv]. split; [|done]. split; [done|done|..].
  - intros i m g Hm Hg. rewrite <-HL. eapply st_wf_ext; [|by apply (Hwf i m g)].
    intros j Hj. unfold others. destruct (single_type_managers c !! i); [|done]. rewrite Hg. by rewrite He.
  - intros k p. rewrite <-HL. apply Hp.
Qed.

(** ** From the tables *)

(** The manager forgot some requests and pending copies; [d] counts the references. *)
Record forgot (d : nat → Z) (m m' : SingleTypeKVCacheManager) : Prop := {
  fg_pool : block_pool m' = block_pool m;
  fg_class : manager_class m' = manager_class m;
  fg_size : block_size m' = block_size m;
  fg_tables rid :
    (default [] (req_to_blocks m' !! rid) = default [] (req_to_blocks m !! rid) ∧
     num_cached_block m' !! rid = num_cached_block m !! rid ∧
     _partial_hit_reqs m' !! rid = _partial_hit_reqs m !! rid) ∨
    (default [] (req_to_blocks m' !! rid) = [] ∧ num_cached_block m' !! rid = None ∧ _partial_hit_reqs m' !! rid = None);
  fg_pending b : b ∈ (sc ← _pending_cow_copies m'; [sc.1; sc.2]) → b ∈ (sc ← _pending_cow_copies m; [sc.1; sc.2]);
  fg_held j : held m' j = held m j - d j
}.

Lemma forgot_step d o m l m' :
  (∀ j, 0 ≤ o j) → st_wf o m l → uncached_ok m → forgot d m m' → uncached_step [] true m l m'.
Proof.
  intros Ho Hwf [Hc Hf Hp] [Hpool _ Hs Ht _ _].
  assert (∀ rid j b, at_pos m' rid j b → at_pos m rid j b ∧ num_cached_block m' !! rid = num_cached_block m !! rid) as Ha.
  { intros rid j b (Hj & Hn & Hno). destruct (Ht rid) as [(Hr & Hcd & Hpt)|(Hr & _)]; rewrite Hr in Hj; [|done].
    split; [|done]. split_and!; [done|done|by rewrite <-Hpt]. }
  assert (∀ rid j b, uncached m' rid j b → uncached m rid j b) as Hu.
  { intros rid j b [Hat Hle]. destruct (Ha rid j b Hat) as [Hat' Heq]. split; [done|]. unfold cached_upto in *. by rewrite <-Heq. }
  split.
  - intros rid n. destruct (Ht rid) as [(_ & -> & _)|(_ & -> & _)]; [apply Hc|done].
  - intros rid j b Hub. eapply fresh_kept; [by eapply Hf, Hu|done|by rewrite Hpool|]. rewrite Hpool. by left.
  - intros rid j b Hat. left. by apply Ha.
  - intros rid j b Hub. left. auto.
  - intros rid j rid' j' b Hub _ Hl. by destruct (at_pos_not_free o m l rid j b Ho Hwf (proj1 (Hu rid j b Hub))).
  - intros b _ _. rewrite Hpool. by left.
Qed.

Lemma forgot_wf d o o' m l m' :
  st_wf o m l → forgot d m m' → (∀ j, j ≠ null_block → o' j = d j + o j) → st_wf o' m' l.
Proof.
  intros [Ha Hc Hr Hrange Hpart Hsh Hs Hcl Hpe] [Hpool Hcls Hsz Ht Hpe' Hd] Ho. split; rewrite ?Hpool, ?Hcls, ?Hsz; try done.
  - intros i Hi. rewrite Hr, Hd, Ho by done. lia.
  - intros rid bs i Hb Hi. destruct (Ht rid) as [(Heq & _)|(Heq & _)]; rewrite Hb in Heq; simpl in Heq; subst bs;
      [|by apply elem_of_nil in Hi]. destruct (req_to_blocks m !! rid) eqn:Hm; [by eapply Hrange|by apply elem_of_nil in Hi].
  - intros rid idx b. destruct (Ht rid) as [(-> & _ & ->)|(_ & _ & ->)]; [apply Hpart|done].
  - intros rid. destruct (Ht rid) as [(_ & _ & ->)|(_ & _ & ->)]; [apply Hsh|done].
  - intros b Hb. by apply Hpe, Hpe'.
Qed.

Section handover.
Variable ext : nat → nat → Z.
Hypothesis ext_nonneg : ∀ k j, 0 ≤ ext k j.

(** A manager hands over the blocks [bs] of pool [pool_id g]. *)
Lemma hand_over c L i m g m' (bs : list nat) :
  coord_wf ext c L → manager_at c i = Some m → kv_cache_groups c !! i = Some g →
  forgot (λ j, occ j bs) m m' → coord_wf (with_outside ext (pair (pool_id g) <$> bs)) (put c i g m') L.
Proof.
  intros Hwf Hm Hg Hfg. set (ext' := with_outside ext (pair (pool_id g) <$> bs)).
  assert (∀ k j, ext' k j = ext k j + if decide (k = pool_id g) then occ j bs else 0) as He.
  { intros k j. unfold ext', with_outside. f_equal. clear. induction bs as [|b bs IH]; cbn [fmap list_fmap].
    - rewrite !occ_nil. by case_decide.
    - rewrite !occ_cons, IH. repeat case_decide; simplify_eq; try lia; naive_solver. }
  apply (coord_wf_same ext' _ _ (upd_list L (pool_id g) (L (pool_id g)))); [done| |].
  { intros k. unfold upd_list. by case_decide; subst. }
  pose proof (cw_wf _ _ _ Hwf i m g Hm Hg) as Hst. split.
  - eapply (put_refs ext); [apply Hwf|exact Hm|exact Hg|..].
    + intros k j _ Hk. rewrite He, decide_False by done. lia.
    + eapply forgot_wf; [exact Hst|exact Hfg|]. intros j _. simpl. rewrite He, decide_True by done. lia.
    + by rewrite (fg_pool _ _ _ Hfg).
  - eapply (put_private ext ext_nonneg c L (λ _, []) true); [exact Hwf|exact Hm|exact Hg|apply none_uncached_nil| |].
    + eapply forgot_step; [apply (others_nonneg ext ext_nonneg)|exact Hst| |exact Hfg].
      by apply (cp_ok _ (cw_private _ _ _ Hwf) i).
    + by rewrite (fg_pool _ _ _ Hfg).
Qed.

End handover.

(** Blocks of the pools of some groups. *)
Definition in_range (c : KVCacheCoordinator) (bs : list (nat * nat)) : Prop :=
  ∀ k b, (k, b) ∈ bs → (∃ g, g ∈ kv_cache_groups c ∧ pool_id g = k) ∧
    ∃ p, block_pools c !! k = Some p ∧ Z.of_nat b < num_gpu_blocks p.

Lemma in_range_evolved c c' bs : evolved c c' → in_range c bs → in_range c' bs.
Proof.
  intros Hev Hr k b Hin. destruct (Hr k b Hin) as (Hg & p & Hp & Hlt). rewrite (evolved_groups _ _ Hev). split; [done|].
  destruct (Forall2_lookup_l _ _ _ _ _ (ev_config _ _ Hev) Hp) as (p' & Hp' & Hcfg). exists p'. split; [done|]. by rewrite (cfg_num _ _ Hcfg).
Qed.

Section all.
Variable ext : nat → nat → Z.
Hypothesis ext_nonneg : ∀ k j, 0 ≤ ext k j.

Lemma with_outside_app bs bs' k j : with_outside (with_outside ext bs) bs' k j = with_outside ext (bs ++ bs') k j.
Proof. unfold with_outside. rewrite occ_app. lia. Qed.

(** A step that leaves the pool leaves the other managers. *)
Lemma put_same_pool c i m g m' :
  manager_at c i = Some m → kv_cache_groups c !! i = Some g → block_pool m' = block_pool m →
  block_pools (put c i g m') = block_pools c ∧ manager_at (put c i g m') i = Some m' ∧
  ∀ i', i' ≠ i → manager_at (put c i g m') i' = manager_at c i'.
Proof.
  intros Hm Hg Hpool. destruct (manager_at_inv c i m Hm) as (m0 & g0 & p & Hm0 & Hg0 & Hp & ->).
  rewrite Hg in Hg0. injection Hg0 as <-. simpl in Hpool.
  assert (block_pools (put c i g m') = block_pools c) as Hbp by (simpl; rewrite Hpool; by apply list_insert_id).
  split; [done|]. split.
  - unfold manager_at. rewrite Hbp. simpl. rewrite list_lookup_insert_eq by (by eapply lookup_lt_Some). simpl.
    rewrite Hg. simpl. rewrite Hp. simpl. rewrite <-Hpool. by destruct m'.
  - intros i' Hne. unfold manager_at. rewrite Hbp. simpl. by rewrite list_lookup_insert_ne.
Qed.

Section loop.
Context {X Y : Type}.
Variables (c : KVCacheCoordinator) (L : nat → list nat) (op : T X) (bs_of : X → list nat).
Variables (out : nat → X → list Y) (ends : list Y → list (nat * nat)).
Variable post : SingleTypeKVCacheManager → SingleTypeKVCacheManager → Prop.
Hypothesis c_wf : coord_wf ext c L.
Hypothesis ends_nil : ends [] = [].
Hypothesis ends_out : ∀ acc k x, ends (acc ++ out k x) = ends acc ++ (pair k <$> bs_of x).
Hypothesis op_ok : ∀ o m l, st_wf o m l → wp op (λ x m', forgot (λ j, occ j (bs_of x)) m m' ∧ post m m' ∧
  ∀ b, b ∈ bs_of x → Z.of_nat b < num_gpu_blocks (block_pool m)) m.

Lemma hand_over_all :
  wp (for_acc (seq 0 (length (single_type_managers c))) [] (λ acc i,
        x ← on_manager i op; mret (acc ++ out (default 0%nat (pool_id <$> kv_cache_groups c !! i)) x)))
    (λ acc c', coord_wf (with_outside ext (ends acc)) c' L ∧ evolved c c' ∧ block_pools c' = block_pools c ∧
       in_range c (ends acc) ∧ ∀ i m, manager_at c i = Some m → ∃ m', manager_at c' i = Some m' ∧ post m m') c.
Proof.
  eapply wp_mono; [apply (wp_for_acc (λ pre acc c1, coord_wf (with_outside ext (ends acc)) c1 L ∧ evolved c c1 ∧
    block_pools c1 = block_pools c ∧ in_range c (ends acc) ∧ ∀ i m, manager_at c i = Some m →
      if decide (i < length pre)%nat then ∃ m', manager_at c1 i = Some m' ∧ post m m' else manager_at c1 i = Some m))|].
  - rewrite ends_nil. split_and!; try done; [|by intros k b ?%elem_of_nil].
    eapply coord_wf_same; [| |exact c_wf]; [|done].
    intros k j _. unfold with_outside. rewrite occ_nil. lia.
  - intros pre i rest acc c1 Heq (Hwf1 & Hev & Hpools & Hin & Hat).
    assert (i = length pre ∧ (length pre < length (single_type_managers c))%nat) as [-> Hlt].
    { assert (seq 0 (length (single_type_managers c)) !! length pre = Some i) as Hi
        by (by rewrite Heq, lookup_app_r, Nat.sub_diag). apply lookup_seq in Hi. lia. }
    destruct (cw_at _ _ _ c_wf (length pre) Hlt) as [m Hm].
    pose proof (Hat _ m Hm) as Hm1. rewrite decide_False in Hm1 by lia.
    destruct (manager_at_inv _ _ _ Hm) as (m0 & g & p & _ & Hg & Hp & Hm0). rewrite Hg. simpl. apply wp_bind. unfold on_manager, wp.
    rewrite Hm1, (evolved_groups _ _ Hev), Hg. 
    pose proof (op_ok _ m _ (cw_wf _ _ _ c_wf (length pre) m g Hm Hg)) as Hop. unfold wp in Hop.
    destruct (op m) as [[x m']|e]; [|done]. destruct Hop as (Hfg & Hpost & Hrange). fold (put c1 (length pre) g m').
    assert (kv_cache_groups c1 !! length pre = Some g) as Hg1 by (by rewrite (evolved_groups _ _ Hev)).
    destruct (put_same_pool c1 (length pre) m g m' Hm1 Hg1 (fg_pool _ _ _ Hfg)) as (Hbp & Hself & Hother).
    simpl. split_and!.
    + eapply coord_wf_same; [| |eapply (hand_over (with_outside ext (ends acc))); [|exact Hwf1|exact Hm1|exact Hg1|exact Hfg]].
      * intros k j _. rewrite with_outside_app. by rewrite ends_out.
      * done.
      * intros k j. unfold with_outside. pose proof (occ_nonneg (k, j) (ends acc)). specialize (ext_nonneg k j). lia.
    + etrans; [exact Hev|]. split; [by eexists _, _| |simpl; by rewrite length_insert].
      rewrite Hbp. reflexivity.
    + etrans; [exact Hbp|exact Hpools].
    + intros k b. rewrite ends_out. intros [Hb|(j & [= -> ->] & Hb)%list_elem_of_fmap]%elem_of_app; [by apply Hin|].
      split; [exists g; split; [by eapply list_elem_of_lookup_2|done]|]. exists p. split; [done|]. specialize (Hrange j Hb). by rewrite Hm0 in Hrange.
    + intros i m2 Hm2. rewrite length_app. simpl. destruct (decide (i = length pre)) as [->|Hne].
      * rewrite decide_True by lia. exists m'. split; [exact Hself|]. by assert (m2 = m) as -> by congruence.
      * specialize (Hat i m2 Hm2). rewrite (Hother i Hne). repeat case_decide; try lia; done.
  - intros acc c' (Hwf' & Hev & Hpools & Hin & Hat). do 4 (split; [done|]).
    intros i m Hm. specialize (Hat i m Hm). rewrite length_seq, decide_True in Hat; [done|].
    destruct (manager_at_inv _ _ _ Hm) as (? & _ & _ & Hl%lookup_lt_Some & _). done.
Qed.
End loop.

(** [pop_blocks_for_free] *)
Lemma pop_all c L rid :
  coord_wf ext c L →
  wp (coord_pop_blocks_for_free rid) (λ bs c', coord_wf (with_outside ext bs) c' L ∧ evolved c c' ∧
    block_pools c' = block_pools c ∧ in_range c bs ∧
    ∀ i m, manager_at c i = Some m → ∃ m', manager_at c' i = Some m' ∧ post_free rid m m') c.
Proof.
  intros Hwf. unfold coord_pop_blocks_for_free. apply wp_bind, wp_gets.
  apply (hand_over_all c L (pop_blocks_for_free rid) id (λ k bs, pair k <$> bs) id (post_free rid) Hwf); [done|done|].
  intros o m l Hst. unfold pop_blocks_for_free.
  apply wp_bind, wp_gets, wp_bind, wp_modify, wp_bind, wp_modify, wp_bind, wp_modify, wp_ret. split_and!.
  - split; try done; simpl.
    + intros rid'. destruct (decide (rid' = rid)) as [->|Hne].
      * right. by rewrite !lookup_delete_eq.
      * left. by rewrite !lookup_delete_ne.
    + intros j. destruct (req_to_blocks m !! rid) as [bs|] eqn:Hrid; simpl.
      * by apply held_delete.
      * unfold held. simpl. rewrite delete_id by done. rewrite occ_nil. lia.
  - split; try done; simpl; [|by rewrite lookup_delete_eq..].
    split; try done; simpl; intros rid' Hne; by rewrite lookup_delete_ne.
  - intros b. destruct (req_to_blocks m !! rid) as [bs|] eqn:Hrid; simpl; [|by intros ?%elem_of_nil].
    by apply (sw_range _ m l Hst rid).
Qed.

(** [take_kv_cache_block_copies] *)
Lemma copies_all c L :
  coord_wf ext c L →
  wp (c0 ← gets (λ c, c);
      copies ← for_acc (seq 0 (length (single_type_managers c0))) [] (λ acc i,
        pending ← on_manager i take_pending_cow_copies;
        mret (acc ++ ((λ sd, (default 0%nat (pool_id <$> kv_cache_groups c0 !! i), sd)) <$> pending)));
      mret (copies, '(k, (src, dst)) ← copies; [(k, src); (k, dst)]))
    (λ res c', coord_wf (with_outside ext res.2) c' L ∧ evolved c c' ∧ block_pools c' = block_pools c ∧
       in_range c res.2 ∧ ∀ i m, manager_at c i = Some m → manager_at c' i = Some (m <| _pending_cow_copies := [] |>)) c.
Proof.
  intros Hwf. apply wp_bind, wp_gets. apply wp_bind.
  eapply wp_mono; [apply (hand_over_all c L take_pending_cow_copies (λ pending, sc ← pending; [sc.1; sc.2])
    (λ k pending, pair k <$> pending) (λ copies, '(k, (src, dst)) ← copies; [(k, src); (k, dst)])
    (λ m m', m' = m <| _pending_cow_copies := [] |>) Hwf)|].
  - done.
  - intros acc k pending. rewrite bind_app. f_equal. induction pending as [|[s d] pending IH]; csimpl; [done|]. by rewrite IH.
  - intros o m l Hst. unfold take_pending_cow_copies. apply wp_bind, wp_gets, wp_bind, wp_modify, wp_ret.
    split_and!; [|done|apply Hst]. split; try done; [by left|by intros b ?%elem_of_nil|]. intros j. unfold held. simpl. rewrite occ_nil. lia.
  - intros copies c' (Hwf' & Hev & Hp & Hin & Hat). apply wp_ret. do 4 (split; [done|]).
    intros i m Hm. by destruct (Hat i m Hm) as (m' & Hm' & ->).
Qed.
End all.
