(* ===== verification/Pools.v ===== *)
(** * Operations on all pools

    [BlockPoolCollection] under the invariant of the coordinator: blocks that were handed over
    (Handover.v) come back, hashes are dropped, events are taken. *)

From S2P Require Import Prelude FreeQueue Request Hashing BlockPool PoolSpecs PoolTheorems.
From S2P Require Import SingleType SingleSpecs SingleTheorems Uncached CacheHit Coordinator.
From S2P Require Import CoordSpecs CoordAlloc CoordRelease Manager Handover.

Definition put_pool (c : KVCacheCoordinator) (k : nat) (p : BlockPool) : KVCacheCoordinator :=
  c <| block_pools ::= <[k := p]> |>.

Lemma manager_at_put_pool c k p p' i m' :
  block_pools c !! k = Some p → manager_at (put_pool c k p') i = Some m' →
  ∃ m g, manager_at c i = Some m ∧ kv_cache_groups c !! i = Some g ∧
    ((pool_id g = k ∧ block_pool m = p ∧ m' = m <| block_pool := p' |>) ∨ (pool_id g ≠ k ∧ m' = m)).
Proof.
  intros Hk (m0 & g & q & Hm0 & Hg & Hq & ->)%manager_at_inv. simpl in Hm0, Hg, Hq.
  destruct (decide (pool_id g = k)) as [<-|Hne].
  - rewrite list_lookup_insert_eq in Hq by (by eapply lookup_lt_Some). injection Hq as <-.
    exists (m0 <| block_pool := p |>), g. split; [by apply (manager_at_intro c i m0 g)|]. split; [done|]. by left.
  - rewrite list_lookup_insert_ne in Hq by done. exists (m0 <| block_pool := q |>), g.
    split; [by apply (manager_at_intro c i m0 g)|]. split; [done|]. by right.
Qed.

(** A pool changes under the managers: no block gets a hash, and reference counts change with
    the references from outside. *)
Lemma put_pool_wf ext ext' c L k p p' l' :
  coord_wf ext c L → block_pools c !! k = Some p → same_config p p' → alloc_wf p' l' → cache_wf p' →
  (∀ j, j ≠ null_block → ref_cnt (blk p' j) - ref_cnt (blk p j) = ext' k j - ext k j) →
  (∀ k' j, k' ≠ k → ext' k' j = ext k' j) → (∀ b, hash_kept p p' b) →
  coord_wf ext' (put_pool c k p') (upd_list L k l').
Proof.
  intros [[Hlen Hat Hwf Hp] [Hok Hpriv]] Hk Hcfg Ha Hc Href Hext Hh. split; split.
  - done.
  - intros i Hi. destruct (Hat i Hi) as [m Hm]. destruct (manager_at_inv c i m Hm) as (m0 & g & q & Hm0 & Hg & Hq & ->).
    destruct (lookup_lt_is_Some_2 (block_pools (put_pool c k p')) (pool_id g)) as [q' Hq'].
    { simpl. rewrite length_insert. by eapply lookup_lt_Some. }
    eexists. by eapply manager_at_intro.
  - intros i m' g Hm' Hg. simpl in Hg.
    assert (∀ j, others ext' (put_pool c k p') i j = others ext c i j + (ext' (pool_id g) j - ext (pool_id g) j)) as Ho.
    { intros j. destruct (manager_at_inv _ _ _ Hm') as (m0 & _ & _ & Hm0 & _). simpl in Hm0. unfold others. simpl.
      rewrite Hm0, Hg. unfold pool_held. simpl. lia. }
    destruct (manager_at_put_pool c k p p' i m' Hk Hm') as (m & g' & Hm & Hg' & Hcase). rewrite Hg in Hg'. injection Hg' as <-.
    pose proof (Hwf i m g Hm Hg) as Hst. unfold upd_list. destruct Hcase as [(Hpk & Hpm & ->)|(Hne & ->)].
    + rewrite decide_True by done. eapply (st_wf_other (others ext c i)); [exact Hst|by rewrite Hpm|done|done|].
      intros j Hj. rewrite Ho, Hpk. pose proof (sw_refs _ _ _ Hst j Hj) as Hr. rewrite Hpm in Hr. specialize (Href j Hj). lia.
    + rewrite decide_False by done. eapply st_wf_ext; [|exact Hst]. intros j _. rewrite Ho, Hext by done. lia.
  - intros k' q. simpl. unfold upd_list. case_decide as Hkk.
    + subst k'. rewrite list_lookup_insert_eq by (by eapply lookup_lt_Some). by intros [= <-].
    + rewrite list_lookup_insert_ne by done. apply Hp.
  - intros i m' Hm'. destruct (manager_at_put_pool c k p p' i m' Hk Hm') as (m & g & Hm & _ & [(_ & Hpm & ->)|(_ & ->)]).
    + destruct (Hok i m Hm) as [A B C]. split; [done| |done]. intros rid j b Hu.
      eapply fresh_kept; [by apply (B rid)|done|by rewrite Hpm|by rewrite Hpm].
    + by apply (Hok i).
  - intros i i' m1 m2 g g' rid j rid' j' b Hne Hm1 Hg Hm2 Hg' Hpool Hu.
    destruct (manager_at_put_pool c k p p' i m1 Hk Hm1) as (m1' & g1 & Hm1' & _ & H1).
    destruct (manager_at_put_pool c k p p' i' m2 Hk Hm2) as (m2' & g2 & Hm2' & _ & H2).
    assert (uncached m1' rid j b) as Hu' by (destruct H1 as [(_ & _ & ->)|(_ & ->)]; done).
    intros Ha2. assert (at_pos m2' rid' j' b) as Ha2' by (destruct H2 as [(_ & _ & ->)|(_ & ->)]; done).
    by apply (Hpriv i i' m1' m2' g g' rid j rid' j' b).
Qed.

Lemma wp_on_pool_at {A} k p (op : P A) Q c :
  block_pools c !! k = Some p → wp op (λ a p', Q a (put_pool c k p')) p → wp (on_pool_at k op) Q c.
Proof. intros Hk. unfold wp, on_pool_at. rewrite Hk. by destruct (op p) as [[a p']|]. Qed.

Lemma put_pool_evolved c k p p' :
  block_pools c !! k = Some p → same_config p p' → evolved c (put_pool c k p').
Proof.
  intros Hk Hcfg. split; [|simpl|done].
  - exists (single_type_managers c), (<[k := p']> (block_pools c)). by destruct c.
  - rewrite <-(list_insert_id (block_pools c) k p) at 1 by done. by apply Forall2_insert.
Qed.

(** An operation on one pool that only drops hashes. *)
Lemma hashes_dropped ext c L k p p' :
  coord_wf ext c L → block_pools c !! k = Some p → alloc_same p p' → cache_wf p' → (∀ b, hash_kept p p' b) →
  coord_wf ext (put_pool c k p') L ∧ evolved c (put_pool c k p').
Proof.
  intros Hwf Hk Ha Hc Hh. split; [|by eapply put_pool_evolved; [|apply Ha]].
  apply (coord_wf_same ext _ _ (upd_list L k (L k))); [done| |].
  { intros k'. unfold upd_list. by case_decide; subst. }
  eapply put_pool_wf; try done; [apply Ha| |].
  - eapply alloc_wf_same; [exact Ha|]. by apply (cw_pool _ _ _ Hwf k).
  - intros j _. rewrite (as_ref _ _ Ha). lia.
Qed.

(** All references to a block of a pool that serves a group. *)
Lemma pool_refs ext c L k p g j :
  coord_refs ext c L → block_pools c !! k = Some p → g ∈ kv_cache_groups c → pool_id g = k → j ≠ null_block →
  ref_cnt (blk p j) = ext k j + pool_held c k j.
Proof.
  intros Hwf Hp [i Hg]%list_elem_of_lookup Hk Hj. pose proof (cw_len _ _ _ Hwf) as Hlen.
  destruct (cw_at _ _ _ Hwf i) as [m Hm]; [by rewrite Hlen; eapply lookup_lt_Some|].
  pose proof (sw_refs _ _ _ (cw_wf _ _ _ Hwf i m g Hm Hg) j Hj) as Hr.
  destruct (manager_at_inv c i m Hm) as (m0 & g' & p' & Hm0 & Hg' & Hp' & ->). simplify_eq. simpl in Hr.
  rewrite Hr. by apply (total_held ext c i m0 g).
Qed.

Lemma pool_held_nonneg c k j : 0 ≤ pool_held c k j.
Proof. apply sumZ_nonneg. intros n. apply held_on_nonneg. Qed.

Section release.
Variable ext : nat → nat → Z.
Hypothesis ext_nonneg : ∀ k j, 0 ≤ ext k j.

(** Blocks [bs] that are still out when the pools [ks] have theirs back. *)
Definition still_out (bs : list (nat * nat)) (ks : list nat) (k j : nat) : Z :=
  ext k j + if decide (k ∈ ks) then 0 else occ (k, j) bs.

Lemma occ_of_pool (bs : list (nat * nat)) k j : occ j (filter (λ kb, kb.1 = k) bs).*2 = occ (k, j) bs.
Proof.
  induction bs as [|[k' j'] bs IH]; [done|]. rewrite occ_cons, filter_cons. simpl. case_decide as Hk; csimpl.
  - subst. rewrite occ_cons, IH. repeat case_decide; simplify_eq; done.
  - rewrite IH, decide_False by congruence. lia.
Qed.

(** One pool gets its blocks back. *)
Lemma release_one c L bs ks k p :
  coord_wf (still_out bs ks) c L → in_range c bs → k ∉ ks → block_pools c !! k = Some p →
  wp (free_blocks (filter (λ kb, kb.1 = k) bs).*2) (λ _ p',
    coord_wf (still_out bs (ks ++ [k])) (put_pool c k p') (upd_list L k (free_list_after p (L k) (filter (λ kb, kb.1 = k) bs).*2)) ∧
    same_config p p') p.
Proof.
  intros Hwf Hr Hk Hp. set (mine := (filter (λ kb, kb.1 = k) bs).*2).
  destruct (cw_pool _ _ _ Hwf k p Hp) as [Ha Hc].
  assert (∀ i, i ∈ mine → (k, i) ∈ bs) as Hmine.
  { intros i ([k' i'] & -> & [Hk' Hin]%list_elem_of_filter)%list_elem_of_fmap. simpl in *. by subst. }
  eapply wp_mono; [apply (free_blocks_spec p (L k)); [done|..]|].
  - intros i (_ & p' & Hp' & Hlt)%Hmine%Hr. by simplify_eq.
  - intros i Hi. unfold mine. rewrite occ_of_pool. pose proof (occ_pos (k, i) bs) as Hpos.
    destruct (decide ((k, i) ∈ bs)) as [Hin|Hout].
    + destruct (Hr k i Hin) as ((g & Hg & Hgk) & _).
      rewrite (pool_refs _ c L k p g i (cw_refs _ _ _ Hwf)) by done. unfold still_out. rewrite decide_False by done.
      pose proof (pool_held_nonneg c k i). specialize (ext_nonneg k i). lia.
    + rewrite occ_zero by done. by apply (wf_ref _ _ Ha).
  - intros [] p' [Ha' Hcs Href _]. split; [|apply Hcs]. eapply put_pool_wf; [exact Hwf|exact Hp|apply Hcs|exact Ha'|..].
    + by eapply cache_wf_same.
    + intros j _. rewrite Href. unfold still_out. rewrite (decide_True (P := k ∈ ks ++ [k])) by set_solver.
      rewrite decide_False by done. unfold mine. rewrite occ_of_pool. lia.
    + intros k' j Hne. unfold still_out. repeat case_decide; set_solver.
    + intros b. left. by rewrite (cs_hash _ _ Hcs), (cs_tokens _ _ Hcs).
Qed.

Lemma still_out_nonneg bs ks k j : 0 ≤ still_out bs ks k j.
Proof. unfold still_out. pose proof (occ_nonneg (k, j) bs). specialize (ext_nonneg k j). case_decide; lia. Qed.
End release.

(** Only pools changed. *)
Record only_pools (c c' : KVCacheCoordinator) : Prop := {
  op_evolved : evolved c c';
  op_tables : single_type_managers c' = single_type_managers c
}.
#[global] Instance only_pools_refl : Reflexive only_pools.
Proof. by split. Qed.
#[global] Instance only_pools_trans : Transitive only_pools.
Proof. intros c1 c2 c3 [] []. split; [by etrans|congruence]. Qed.

Lemma put_pool_only c k p p' : block_pools c !! k = Some p → same_config p p' → only_pools c (put_pool c k p').
Proof. intros. split; [by eapply put_pool_evolved|done]. Qed.

Section release_all.
Variable ext : nat → nat → Z.
Hypothesis ext_nonneg : ∀ k j, 0 ≤ ext k j.

(** [free_blocks] *)
Lemma release_outside c L bs :
  coord_wf (with_outside ext bs) c L → in_range c bs →
  wp (pools_free_blocks bs) (λ _ c', ∃ L', coord_wf ext c' L' ∧ only_pools c c' ∧ ∀ k, L k ⊆ L' k) c.
Proof.
  intros Hwf Hr. unfold pools_free_blocks. apply wp_bind, wp_gets.
  eapply wp_mono; [apply (wp_for (λ ks c1, ∃ L1, coord_wf (still_out ext bs ks) c1 L1 ∧ only_pools c c1 ∧
    ∀ k, L k ⊆ L1 k))|].
  - exists L. split_and!; [|done|done]. eapply coord_wf_same; [| |exact Hwf]; [|done].
    intros k j _. unfold still_out. rewrite decide_False by (by intros ?%elem_of_nil). done.
  - intros ks k rest c1 Heq (L1 & Hwf1 & Hop & Hl).
    assert ((k ∉ ks) ∧ (k < length (block_pools c))%nat) as [Hks Hk].
    { pose proof (NoDup_seq 0 (length (block_pools c))) as Hnd. rewrite Heq in Hnd. split.
      - apply NoDup_app in Hnd as (_ & Hnd & _). intros Hin. apply (Hnd k Hin). by left.
      - assert (k ∈ seq 0 (length (block_pools c))) as Hin%elem_of_seq by (rewrite Heq; set_solver). lia. }
    destruct (lookup_lt_is_Some_2 (block_pools c1) k) as [p Hp].
    { by rewrite <-(Forall2_length _ _ _ (ev_config _ _ (op_evolved _ _ Hop))). }
    assert (in_range c1 bs) as Hr1 by (eapply in_range_evolved; [apply Hop|done]).
    case_decide as Hnil.
    + apply wp_ret. exists L1. split_and!; [|done|done]. eapply coord_wf_same; [| |exact Hwf1]; [|done].
      intros k' j _. unfold still_out. destruct (decide (k' = k)) as [->|Hne].
      * rewrite decide_False, decide_True by set_solver. rewrite <-occ_of_pool, Hnil, occ_nil. done.
      * repeat case_decide; set_solver.
    + apply (wp_on_pool_at k p); [done|]. eapply wp_mono; [by apply (release_one ext ext_nonneg c1 L1 bs ks k p)|].
      intros [] p' [Hwf' Hcfg]. eexists. split_and!; [exact Hwf'|..].
      * etrans; [exact Hop|]. by eapply put_pool_only.
      * intros k' x Hx%Hl. unfold upd_list. case_decide; [subst|done]. apply elem_of_free_list_after. by left.
  - intros [] c1 (L1 & Hwf1 & Hop & Hl). exists L1. split_and!; [|done|done].
    eapply coord_wf_same; [| |exact Hwf1]; [|done]. intros k j _. unfold still_out. case_decide as Hk; [lia|].
    rewrite occ_zero; [lia|]. intros Hin. destruct (Hr k j Hin) as (_ & p & Hp%lookup_lt_Some & _).
    apply Hk, elem_of_seq. lia.
Qed.
End release_all.

(** An operation on one pool that only drops hashes. *)
Lemma on_pool_dropped {A} ext c L k p (op : P A) (R : A → BlockPool → Prop) :
  coord_wf ext c L → block_pools c !! k = Some p →
  wp op (λ a p', alloc_same p p' ∧ cache_wf p' ∧ (∀ b, hash_kept p p' b) ∧ R a p') p →
  wp (on_pool_at k op) (λ a c', coord_wf ext c' L ∧ only_pools c c' ∧ ∃ p', c' = put_pool c k p' ∧ R a p') c.
Proof.
  intros Hwf Hk Hop. apply (wp_on_pool_at k p); [done|]. eapply wp_mono; [exact Hop|].
  intros a p' (Ha & Hc & Hh & HR). destruct (hashes_dropped ext c L k p p' Hwf Hk Ha Hc Hh) as [? _].
  split; [done|]. split; [|eauto]. by eapply put_pool_only; [|apply Ha].
Qed.

Section drop_all.
Variables (ext : nat → nat → Z) (c : KVCacheCoordinator) (L : nat → list nat).
Hypothesis c_wf : coord_wf ext c L.

Lemma seq_index {n pre k rest} : seq 0 n = pre ++ k :: rest → k = length pre ∧ (k < n)%nat.
Proof.
  intros Heq. assert (seq 0 n !! length pre = Some k) as Hk by (by rewrite Heq, lookup_app_r, Nat.sub_diag).
  apply lookup_seq in Hk. lia.
Qed.

(** The events of all pools. *)
Lemma take_events_all : wp pools_take_events (λ _ c', coord_wf ext c' L ∧ only_pools c c') c.
Proof.
  unfold pools_take_events. apply wp_bind, wp_gets.
  apply (wp_for_acc (λ _ _ c1, coord_wf ext c1 L ∧ only_pools c c1)); [done|].
  intros pre k rest acc c1 [_ Hk]%seq_index [Hwf1 Hop1].
  destruct (lookup_lt_is_Some_2 (block_pools c1) k) as [p Hp].
  { by rewrite <-(Forall2_length _ _ _ (ev_config _ _ (op_evolved _ _ Hop1))). }
  apply wp_bind. eapply wp_mono; [apply (on_pool_dropped ext c1 L k p _ (λ _ _, True) Hwf1 Hp)|].
  - destruct (cw_pool _ _ _ Hwf1 k p Hp) as [_ Hc]. unfold take_events. apply wp_bind, wp_gets.
    assert (∀ b, hash_kept p p b) by (by left).
    destruct (enable_kv_cache_events p); cbn [negb]; [|by apply wp_ret].
    apply wp_bind, wp_gets, wp_bind, wp_modify, wp_ret. split_and!; [by split|by apply (cache_wf_same p)|by left|done].
  - intros ev c2 (Hwf2 & Hop2 & _). apply wp_ret. split; [done|by etrans].
Qed.

(** [evict_blocks] *)
Lemma evict_all `{SetIter} use_int (X : gset Z) :
  (∀ p i, p ∈ block_pools c → i ∈ X → 0 ≤ i < num_gpu_blocks p) →
  wp (n ← gets (λ c, length (block_pools c)); for_ (seq 0 n) (λ k, on_pool_at k (evict_blocks use_int X)))
    (λ _ c', coord_wf ext c' L ∧ only_pools c c') c.
Proof.
  intros HX. apply wp_bind, wp_gets.
  apply (wp_for (λ _ c1, coord_wf ext c1 L ∧ only_pools c c1)); [done|].
  intros pre k rest c1 [_ Hk]%seq_index [Hwf1 Hop1].
  destruct (lookup_lt_is_Some_2 (block_pools c) k Hk) as [p Hp].
  destruct (Forall2_lookup_l _ _ _ _ _ (ev_config _ _ (op_evolved _ _ Hop1)) Hp) as (p1 & Hp1 & Hcfg).
  eapply wp_mono; [apply (on_pool_dropped ext c1 L k p1 _ (λ _ _, True) Hwf1 Hp1)|].
  - destruct (cw_pool _ _ _ Hwf1 k p1 Hp1) as [_ Hc]. eapply wp_mono; [apply (evict_blocks_spec use_int p1 X Hc)|].
    + intros i Hi. rewrite (cfg_num _ _ Hcfg). apply HX; [by eapply list_elem_of_lookup_2|done].
    + by intros [] p' (? & ? & ? & _).
  - intros [] c2 (Hwf2 & Hop2 & _). split; [done|by etrans].
Qed.

Definition unused (p : BlockPool) : Prop := ∀ i, 0 < Z.of_nat i < num_gpu_blocks p → ref_cnt (blk p i) = 0.
Definition no_keys (p : BlockPool) : Prop := ∀ j key, ¬ holds_key p j key.

Lemma reset_pool p l :
  alloc_wf p l → cache_wf p → unused p →
  wp reset_prefix_cache (λ b p', alloc_same p p' ∧ cache_wf p' ∧ (∀ b, hash_kept p p' b) ∧ b = true ∧ no_keys p') p.
Proof.
  intros Ha Hc Hu. eapply wp_mono; [by eapply reset_prefix_cache_spec|].
  intros b p' (Hb & Ha' & Hc' & Hno & _). apply Hb in Hu as ->. specialize (Hno eq_refl). split_and!; try done.
  intros j. right. destruct (_block_hash (blk p' j)) as [key|] eqn:Hh; [|done]. destruct (Hno j key). by left.
Qed.
End drop_all.

Section reset.
Variables (ext : nat → nat → Z) (L : nat → list nat).

Lemma reset_pools ks c :
  coord_wf ext c L → NoDup ks → (∀ k, k ∈ ks → ∃ p, block_pools c !! k = Some p ∧ unused p) →
  wp (reset_all ks) (λ b c', b = true ∧ coord_wf ext c' L ∧ only_pools c c' ∧
    (∀ k p, block_pools c' !! k = Some p → k ∈ ks → no_keys p) ∧
    ∀ k, k ∉ ks → block_pools c' !! k = block_pools c !! k) c.
Proof.
  revert c. induction ks as [|k ks IH]; intros c Hwf Hnd Hks; cbn [reset_all].
  { apply wp_ret. split_and!; try done. by intros k p _ ?%elem_of_nil. }
  apply NoDup_cons in Hnd as [Hk Hnd]. destruct (Hks k) as (p & Hp & Hu); [by left|].
  destruct (cw_pool _ _ _ Hwf k p Hp) as [Ha Hc]. apply wp_bind.
  eapply wp_mono; [by eapply (on_pool_dropped ext c L k p), reset_pool|].
  intros b c1 (Hwf1 & Hop1 & p' & -> & -> & Hno). eapply wp_mono; [apply IH; [done|done|]|].
  - intros k' Hk'. destruct (Hks k') as (q & Hq & Hqu); [by right|]. exists q. split; [|done]. simpl.
    rewrite list_lookup_insert_ne; [done|]. by intros ->.
  - intros b c2 (-> & Hwf2 & Hop2 & Hno2 & Hsame). split_and!; [done|done|by etrans|..].
    + intros k' q Hq [->|Hk']%elem_of_cons; [|by apply (Hno2 k')]. rewrite (Hsame k Hk) in Hq. simpl in Hq.
      rewrite list_lookup_insert_eq in Hq by (by eapply lookup_lt_Some). by injection Hq as <-.
    + intros k' [Hne Hk']%not_elem_of_cons. rewrite (Hsame k' Hk'). simpl. by rewrite list_lookup_insert_ne.
Qed.

(** [reset_prefix_cache] of all pools or of none. *)
Lemma reset_all_spec c :
  coord_wf ext c L →
  wp pools_reset_prefix_cache (λ b c', coord_wf ext c' L ∧ only_pools c c' ∧
    (b = true ↔ ∀ p, p ∈ block_pools c → unused p) ∧
    (b = true → ∀ p, p ∈ block_pools c' → no_keys p) ∧ (b = false → c' = c)) c.
Proof.
  intros Hwf. unfold pools_reset_prefix_cache. apply wp_bind, wp_gets.
  assert (∀ k p, block_pools c !! k = Some p → get_num_free_blocks p = num_gpu_blocks p - 1 ↔ unused p) as Hfree.
  { intros k p Hp. destruct (cw_pool _ _ _ Hwf k p Hp) as [Ha _]. unfold unused. rewrite <-(all_free p (L k) Ha).
    unfold get_num_free_blocks. rewrite (repr_num _ _ (wf_queue _ _ Ha)). lia. }
  destruct (existsb _ (block_pools c)) eqn:He.
  - apply wp_ret. split_and!; try done. split; [done|]. intros Hall. exfalso.
    apply existsb_exists in He as (p & Hin%list_elem_of_In & Hd%bool_decide_eq_true). apply Hd.
    pose proof Hin as [k Hk]%list_elem_of_lookup. by apply (Hfree k p Hk), Hall.
  - assert (∀ k p, block_pools c !! k = Some p → unused p) as Hall.
    { intros k p Hk. apply (Hfree k p Hk). destruct (decide (get_num_free_blocks p = num_gpu_blocks p - 1)); [done|].
      assert (existsb (λ p, bool_decide (get_num_free_blocks p ≠ num_gpu_blocks p - 1)) (block_pools c) = true) as Ht; [|congruence].
      apply existsb_exists. exists p. split; [by eapply list_elem_of_In, list_elem_of_lookup_2|]. by apply bool_decide_eq_true. }
    eapply wp_mono; [apply reset_pools; [done|apply NoDup_seq|]|].
    + intros k Hk%elem_of_seq. destruct (lookup_lt_is_Some_2 (block_pools c) k) as [p Hp]; [lia|]. eauto.
    + intros b c' (-> & Hwf' & Hop & Hno & _). split_and!; try done.
      * split; [|done]. intros _ p [k Hk]%list_elem_of_lookup. by apply (Hall k).
      * intros _ p [k Hk]%list_elem_of_lookup. apply (Hno k p Hk), elem_of_seq.
        rewrite (Forall2_length _ _ _ (ev_config _ _ (op_evolved _ _ Hop))). split; [lia|]. by eapply lookup_lt_Some.
Qed.
End reset.
