(* ===== verification/Slots.v ===== *)
(** * Slots for a request

    [allocate_slots] of the KV cache manager (Manager.v), from the contracts of the coordinator:
    dropping blocks outside the window, predicting the blocks needed, the two phases of the
    allocation, and caching. *)

From S2P Require Import Prelude FreeQueue Request Hashing BlockPool PoolSpecs PoolTheorems.
From S2P Require Import SingleType SingleSpecs SingleTheorems Uncached CacheSpecs CacheHit Coordinator.
From S2P Require Import CoordLookup CoordInit CoordSpecs CoordAlloc CoordRelease CoordCache Manager.

(** ** Helpers *)

Lemma wp_bind_inv {S A B} (m : M S A) (f : A → M S B) Q s :
  wp (m ≫= f) Q s → wp m (λ a, wp (f a) Q) s.
Proof. unfold wp, mbind, M_bind. by destruct (m s) as [[a s']|e]. Qed.

Lemma wp_on_coordinator {A} (op : C A) Q k :
  wp op (λ a c, Q a (k <| coordinator := c |>)) (coordinator k) → wp (on_coordinator op) Q k.
Proof. unfold wp, on_coordinator. by destruct (op (coordinator k)) as [[a c]|]. Qed.

(** The smallest number of free blocks over the pools. *)
Lemma num_free_blocks_spec ext c L :
  coord_wf ext c L → block_pools c ≠ [] →
  ∃ n, pools_get_num_free_blocks (block_pools c) = Ok n ∧
    (∀ k, (k < length (block_pools c))%nat → n ≤ len (L k)) ∧
    ∃ k, (k < length (block_pools c))%nat ∧ n = len (L k).
Proof.
  intros Hwf Hne. assert (∀ k p, block_pools c !! k = Some p → get_num_free_blocks p = len (L k)) as Hp.
  { intros k p Hk. destruct (cw_pool _ _ _ Hwf k p Hk) as [Ha _]. apply (repr_num _ _ (wf_queue _ _ Ha)). }
  assert (∀ x, x ∈ get_num_free_blocks <$> block_pools c ↔ ∃ k, (k < length (block_pools c))%nat ∧ x = len (L k)) as Hin.
  { intros x. rewrite list_elem_of_fmap. split.
    - intros (p & -> & [k Hk]%list_elem_of_lookup). exists k. split; [by eapply lookup_lt_Some|by apply Hp].
    - intros (k & [p Hk]%lookup_lt_is_Some_2 & ->). exists p. split; [by rewrite (Hp k p Hk)|by eapply list_elem_of_lookup_2]. }
  unfold pools_get_num_free_blocks. destruct (get_num_free_blocks <$> block_pools c) as [|n ns] eqn:Hns.
  { by apply fmap_nil_inv in Hns. }
  destruct (foldl_min_spec ns n) as [Hle Hmin]. exists (foldl Z.min n ns). split; [done|]. split.
  - intros k Hk. apply Hle. rewrite <-elem_of_cons. apply Hin. eauto.
  - apply Hin, elem_of_cons. destruct Hmin as [-> | ?]; auto.
Qed.

(** The prediction is total when no request gets a second hit. *)
Lemma prediction_total ext c L rid hits num_tokens enc total local main cap :
  coord_wf ext c L →
  (∀ i m, manager_at c i = Some m → ∃ h, hits !! i = Some h ∧ (num_cached_block m !! rid = None ∨ h = [])) →
  ∃ n, coord_get_num_blocks_to_allocate c rid num_tokens hits enc total local main cap = Ok n.
Proof.
  intros Hwf Hhits. unfold coord_get_num_blocks_to_allocate.
  assert (∀ m h nt tot loc mn, num_cached_block m !! rid = None ∨ h = [] →
    ∃ n, get_num_blocks_to_allocate m rid nt h tot loc mn cap = Ok n) as Htot.
  { intros m h nt tot loc mn Hm. unfold get_num_blocks_to_allocate, get_num_blocks_to_allocate_base.
    destruct (manager_class m); try (by eexists); destruct (num_cached_block m !! rid); try (by eexists);
      destruct Hm as [?| ->]; try done; rewrite decide_True by done; by eexists. }
  set (f := λ i : nat, match manager_at c i with None => Raise IndexError | Some m => _ end).
  assert (∀ i, i ∈ seq 0 (length (single_type_managers c)) → ∃ n, f i = Ok n) as Hf.
  { intros i Hi%elem_of_seq. destruct (cw_at _ _ _ Hwf i) as [m Hm]; [lia|]. unfold f. rewrite Hm.
    destruct (is_cross m); [apply Htot; by right|]. destruct (Hhits i m Hm) as (h & Hh & Hor).
    rewrite (proj2 (index_Ok hits (Z.of_nat i) h ltac:(lia))) by (by rewrite Nat2Z.id). by apply Htot. }
  rewrite (mapM_Ok f (λ i, match f i with Ok n => n | Raise _ => 0 end)); [by eexists|].
  intros i Hi. by destruct (Hf i Hi) as [n ->].
Qed.

(** Pools keep their configuration. *)
Lemma evolved_pool c c' i m m' :
  evolved c c' → manager_at c i = Some m → manager_at c' i = Some m' → same_config (block_pool m) (block_pool m').
Proof.
  intros Hev (m0 & g & p & _ & Hg & Hp & ->)%manager_at_inv (m1 & g' & p' & _ & Hg' & Hp' & ->)%manager_at_inv. simpl.
  rewrite (evolved_groups c c' Hev), Hg in Hg'. injection Hg' as <-.
  destruct (Forall2_lookup_lr _ _ _ _ _ _ (ev_config _ _ Hev) Hp Hp'). done.
Qed.

Section slots.
Context `{SetIter}.
Variable use_int : bool.
Variable sha256 : list (list Z) → bytes.
Variable ext : nat → nat → Z.
Hypothesis ext_nonneg : ∀ k j, 0 ≤ ext k j.

(** The arguments of the call. *)
Variable request : Request.
Variables (num_new_tokens num_new_computed_tokens : Z) (new_computed_blocks : option KVCacheBlocks).
Variables (num_lookahead_tokens external : Z) (delay_cache_blocks : bool) (enc : Z) (must_fit : bool).
Variables (reserved : Z) (has_scheduled_reqs : bool).
Abbreviation rid := (request_id request).
Abbreviation computed := (default EmptyBlocks new_computed_blocks).
Abbreviation local := (num_computed_tokens request + num_new_computed_tokens).
Abbreviation main := (local + external + num_new_tokens).
Definition need_slot (k : KVCacheManager) : Z := Z.min (main + num_lookahead_tokens) (max_model_len k).
(** Whether the request comes with computed tokens, from the cache or from elsewhere. *)
Abbreviation starts := (computed ≠ EmptyBlocks ∨ external > 0).
Definition processed : Z := Z.max 0 (local + external - num_in_flight_tokens request).

(** ** The state after blocks outside the window are dropped *)

Definition slots_request (k : KVCacheManager) (c : KVCacheCoordinator) : Prop :=
  if decide starts then new_request rid (blocks_of k computed) local external c
  else ∀ i m, manager_at c i = Some m → continuing rid local external m.

Abbreviation removed_all := (post_remove rid processed (Some (num_prompt_tokens request))).

Lemma request_after_removal k c L c1 :
  coord_wf ext c L → evolved c c1 →
  (∀ i m, manager_at c i = Some m → ∃ m1, manager_at c1 i = Some m1 ∧ removed_all m m1) →
  slots_request k c → slots_request k c1.
Proof.
  intros Hwf Hev Hat. unfold slots_request.
  assert (∀ i m1, manager_at c1 i = Some m1 → ∃ m, manager_at c i = Some m ∧ removed_all m m1) as Hback.
  { intros i m1 Hm1. destruct (manager_back c c1 i m1 Hev (cw_at _ _ _ Hwf) Hm1) as [m Hm].
    destruct (Hat i m Hm) as (m1' & Hm1' & Hp). simplify_eq. eauto. }
  case_decide.
  - intros [Hhits Hfilled]. split.
    + intros i m1 Hm1. destruct (Hback i m1 Hm1) as (m & Hm & [Hs Hlen _ Hc Hp]).
      destruct (Hhits i m Hm) as (h & Hh & (Hb & Hcd & Hpt) & [A B C D E]). exists h. split; [done|].
      pose proof (evolved_pool c c1 i m m1 Hev Hm Hm1) as Hcfg. split.
      * split_and!; [|by rewrite Hc|by rewrite Hp]. rewrite Hb in Hlen. by apply nil_length_inv in Hlen.
      * destruct Hs as [Hcl Hsz Hca _ _ _ _]. split; rewrite ?Hcl, ?Hsz, ?Hca; try done.
        intros b Hb'. rewrite (cfg_num _ _ Hcfg). auto.
    + intros i g i' m1 g' rid' j b Hg Hb Hm1 Hg' Hpool Hu.
      rewrite (evolved_groups c c1 Hev) in Hg, Hg'. destruct (Hback i' m1 Hm1) as (m & Hm & Hpr).
      assert (b ∈ taken_over (blocks_of k computed) local external c i) as Hb0.
      { unfold taken_over, at_manager in *. destruct (manager_at c1 i) as [m2|] eqn:Hm2; [|by apply elem_of_nil in Hb].
        destruct (Hback i m2 Hm2) as (m2' & Hm2' & [[Hcl Hsz _ _ _ _ _] _ _ _ _]). rewrite Hm2'.
        unfold whole_hits, skip_of in *. by rewrite Hcl, Hsz in Hb. }
      apply (Hfilled i g i' m g' rid' j b); try done.
      destruct Hpr as [Hs Hlen _ Hc Hp]. destruct Hu as [(Hj & Hn & Hno) Hle]. unfold cached_upto in Hle.
      destruct (decide (rid' = rid)) as [->|Hne].
      * exfalso. destruct (Hhits i' m Hm) as (h & _ & (Hnil & _) & _). rewrite Hnil in Hlen.
        apply nil_length_inv in Hlen. by rewrite Hlen in Hj.
      * rewrite (so_req _ _ _ Hs) in Hj by done. rewrite (so_cached _ _ _ Hs) in Hle by done.
        rewrite (so_partial _ _ _ Hs) in Hno by done. split; [|done]. by split_and!.
  - intros Hcont i m1 Hm1. destruct (Hback i m1 Hm1) as (m & Hm & [Hs Hlen _ Hc Hp]).
    destruct (Hcont i m Hm) as [Hpt Hcd]. split; [by rewrite Hp|].
    unfold skip_of in *. unfold len in *. by rewrite (so_class _ _ _ Hs), (so_size _ _ _ Hs), Hc, Hlen.
Qed.

(** ** The allocation *)

(** What the tables get: all the blocks the tokens need, after the hit or after what the request
    still sees of its table [m]. *)
Record granted (k : KVCacheManager) (i : nat) (m m' : SingleTypeKVCacheManager) : Prop := {
  gs_same : same_others rid m m';
  gs_blocks : ∃ bs', req_to_blocks m' !! rid = Some bs' ∧
    required_blocks m (tokens_of (need_slot k) enc m) ≤ len bs' ∧
    if decide starts
    then ∀ j b, hit_table local external m (default [] (blocks_of k computed !! i)) !! j = Some b →
      (is_redirected local external m (default [] (blocks_of k computed !! i)) = true →
       j ≠ Z.to_nat (local // block_size m)) → bs' !! j = Some b
    else ∀ q t b, processed ≤ q → 0 ≤ t → attends (manager_class m) (Some (num_prompt_tokens request)) q t = true →
      default [] (req_to_blocks m !! rid) !! Z.to_nat (t // block_size m) = Some b →
      bs' !! Z.to_nat (t // block_size m) = Some b;
  gs_partial : _partial_hit_reqs m' !! rid = None
}.

Hypothesis external_nonneg : 0 ≤ external.
Hypothesis local_nonneg : 0 ≤ local.

(** The prediction on the state [c1], and the allocation if there are as many blocks. *)
Lemma slots_phase k c1 L1 :
  coord_wf ext c1 L1 → kv_cache_groups c1 = kv_cache_groups (coordinator k) → slots_request k c1 →
  local + external ≤ need_slot k →
  ∃ n, coord_get_num_blocks_to_allocate c1 rid (need_slot k) (blocks_of k computed) enc (local + external) local main
         false = Ok n ∧
    ((∀ i, (i < length (block_pools c1))%nat → n ≤ len (L1 i)) →
     wp (_ ← (if decide starts
              then allocate_new_computed_blocks use_int rid (blocks_of k computed) local external else mret tt);
         coord_allocate_new_blocks use_int rid (need_slot k) main enc) (λ _ c2, ∃ L2,
       evolved c1 c2 ∧ coord_wf ext c2 L2 ∧
       (∀ i, (i < length (block_pools c1))%nat → len (L1 i) - n ≤ len (L2 i)) ∧
       ∀ i m1, manager_at c1 i = Some m1 → ∃ m2, manager_at c2 i = Some m2 ∧
         if decide starts
         then allocated rid local external (need_slot k) enc (default [] (blocks_of k computed !! i)) m1 m2
         else ∃ new, post_grow rid (need_slot k) enc m1 new m2) c1).
Proof.
  intros Hwf Hgs Hreq Hneed. unfold slots_request in Hreq. case_decide as Hst.
  - destruct (new_prediction ext rid (blocks_of k computed) local external (need_slot k) main enc
      external_nonneg local_nonneg Hneed c1 L1 Hwf Hreq) as (n & Hn & Hcost).
    exists n. split; [exact Hn|]. intros Hen. eapply wp_mono; [eapply both_phases; [done..|exact Hwf|exact Hreq|]|].
    + intros i. etrans; [apply Hcost|]. case_decide; [by apply Hen|apply len_nonneg].
    + intros rs c2 (L2 & Hev & Hwf2 & Hl & _ & Hat). exists L2. split; [done|]. split; [done|]. split; [|done].
      intros i Hi. specialize (Hcost i). rewrite decide_True in Hcost by done. destruct (Hl i) as [_ Hl']. lia.
  - assert (computed = EmptyBlocks) as Hempty by (destruct computed; naive_solver).
    destruct (continued_allocation use_int ext ext_nonneg rid (blocks_of k computed) local external (need_slot k) main
      enc c1 L1 Hwf) as (n & Hn & Hall).
    { intros i m Hm. split; [|by apply (Hreq i)]. rewrite Hempty. simpl. unfold num_kv_cache_groups. rewrite <-Hgs.
      destruct (manager_at_inv c1 i m Hm) as (_ & g & _ & _ & Hg%lookup_lt_Some & _). by apply lookup_replicate_2. }
    exists n. split; [exact Hn|]. intros Hen. apply wp_bind, wp_ret. apply wp_run.
    destruct (Hall Hen) as (rs & c2 & L2 & Hrun & Hev & Hwf2 & Hl & Hat). exists rs, c2. split; [done|]. exists L2.
    split; [done|]. split; [done|]. split; [intros i Hi; by apply Hl|].
    intros i m1 Hm1. destruct (Hat i m1 Hm1) as (new & m2 & _ & Hm2 & Hp). eauto.
Qed.

(** What the two steps, dropping blocks and allocating, leave. *)
Lemma granted_trans k i m m1 m2 :
  removed_all m m1 →
  (if decide starts
   then allocated rid local external (need_slot k) enc (default [] (blocks_of k computed !! i)) m1 m2
   else ∃ new, post_grow rid (need_slot k) enc m1 new m2) →
  (¬ starts → _partial_hit_reqs m !! rid = None) → granted k i m m2.
Proof.
  intros [Hs Hlen Hkept Hc Hp]. pose proof Hs as [Hcl Hsz _ _ _ _ _].
  assert (∀ n, required_blocks m1 n = required_blocks m n) as Hreq by (intros n; unfold required_blocks; by rewrite Hcl, Hsz).
  assert (tokens_of (need_slot k) enc m1 = tokens_of (need_slot k) enc m) as Htok
    by (unfold tokens_of, is_cross; by rewrite Hcl).
  case_decide as Hst.
  - intros [Hs2 (bs' & Hb & Hl & Hk) _ Hpt] _. split; [by etrans| |done]. exists bs'. rewrite Hreq, Htok in Hl.
    split; [done|]. split; [done|]. rewrite decide_True by done. intros j b. specialize (Hk j b).
    unfold hit_table, is_redirected, skip_of in *. rewrite Hcl, Hsz in Hk. exact Hk.
  - intros (new & [Hs2 (bs' & Hb & Hl & Hk) _ _ Hpt]) Hno. specialize (Hno Hst). split; [by etrans| |done]. exists bs'.
    split; [done|]. unfold num_missing in Hl. rewrite Hreq, Htok in Hl. split; [lia|].
    rewrite decide_False by done. intros q t b Hq Ht Hatt Hj. apply Hk; [by rewrite (Hkept q t Hq Ht Hatt)|].
    intros idx src. rewrite Hp, Hno. done.
Qed.

(** ** Caching what was computed *)

(** The model can cache the tokens of the request: hashes for all of them, block sizes that are
    multiples of the hash block size, and sliding-window layers aligned with cache hits. *)
Record slots_cacheable (c : KVCacheCoordinator) : Prop := {
  sc_sched : 0 < scheduler_block_size c;
  sc_reprefill : 0 ≤ num_reprefillable_tokens c;
  sc_prompt : 0 ≤ num_prompt_tokens request;
  sc_manager i m : manager_at c i = Some m →
    enable_caching (block_pool m) = true ∧ 0 < hash_block_size (block_pool m) ∧
    manager_class m ≠ CrossAttentionManager ∧ 0 ≤ kv_cache_group_id m < 2 ^ 32 ∧
    (shares_prefix (manager_class m) = true → ∃ x, 0 < x ∧ block_size m = x * hash_block_size (block_pool m)) ∧
    (∀ w e, manager_class m = SlidingWindowManager w e → cache_hit_alignment_tokens m mod block_size m = 0);
  sc_hashes i m : manager_at c i = Some m →
    num_tokens request // hash_block_size (block_pool m) ≤ len (block_hashes request);
  sc_events i m : manager_at c i = Some m → enable_kv_cache_events (block_pool m) = true →
    memo_ok sha256 request ∧ mm_sorted (mm_features request)
}.

Lemma tokens_to_cache_bounds c m n :
  0 < scheduler_block_size c → 0 ≤ num_reprefillable_tokens c → 0 < block_size m → 0 ≤ n →
  0 ≤ num_tokens_to_cache c m n ≤ n.
Proof.
  intros Hs Hr Hb Hn. unfold num_tokens_to_cache.
  assert (∀ partial x, 0 ≤ x → 0 ≤ _align_cacheable partial (scheduler_block_size c) x ≤ x) as Hal.
  { intros partial x Hx. unfold _align_cacheable. destruct partial; [lia|].
    pose proof (Z.div_pos x (scheduler_block_size c) Hx Hs). pose proof (Z.mul_div_le x (scheduler_block_size c) Hs). nia. }
  destruct (coordinator_class c) as [| |partial groups]; [lia..|].
  pose proof (Hal partial n Hn). pose proof (Hal partial (Z.max 0 (n - num_reprefillable_tokens c)) ltac:(lia)).
  case_decide; lia.
Qed.

Lemma slots_ready k c L c2 n :
  coord_wf ext c L → slots_cacheable c → evolved c c2 → 0 ≤ n ≤ num_tokens request → n ≤ need_slot k →
  (∀ i m, manager_at c i = Some m → ∃ m2, manager_at c2 i = Some m2 ∧ granted k i m m2) →
  coord_ready sha256 c2 request n.
Proof.
  intros Hwf [Hsch Hrep Hpr Hm0 Hh He] Hev Hn Hneed Hat i m2 Hm2.
  destruct (manager_back c c2 i m2 Hev (cw_at _ _ _ Hwf) Hm2) as [m Hm].
  destruct (Hat i m Hm) as (m2' & Hm2' & [Hs (bs' & Hb & Hlen & _) Hp]). simplify_eq.
  destruct (Hm0 i m Hm) as (Hca & Hhbs & Hcl & Hgid & Hsc & Hal). pose proof (evolved_pool c c2 i m m2 Hev Hm Hm2) as Hcfg.
  destruct (manager_at_inv c i m Hm) as (_ & g & _ & _ & Hg & _).
  pose proof (sw_size _ _ _ (cw_wf _ _ _ Hwf i m g Hm Hg)) as Hbsz.
  assert (num_tokens_to_cache c2 m2 n = num_tokens_to_cache c m n) as Heq.
  { destruct (ev_eq _ _ Hev) as (ms & ps & ->). injection (so_settings _ _ _ Hs) as _ _ _ _ Heagle.
    unfold num_tokens_to_cache. simpl. by rewrite Heagle, (so_size _ _ _ Hs). }
  pose proof (tokens_to_cache_bounds c m n Hsch Hrep Hbsz ltac:(lia)) as Hbd. rewrite Heq.
  destruct Hs as [Hc1 Hc2 Hc3 Hset _ _ _]. injection Hset as Ha1 _ _ Ha4 _.
  split; rewrite ?(cfg_caching _ _ Hcfg), ?(cfg_hbs _ _ Hcfg), ?(cfg_events _ _ Hcfg), ?Hc1, ?Hc2, ?Ha1, ?Ha4; try done.
  - lia.
  - exists bs'. split; [done|]. intros Hsh. etrans; [|exact Hlen]. unfold required_blocks, tokens_of, is_cross.
    replace (is_ring (manager_class m)) with false by (by destruct (manager_class m)).
    pose proof (cdiv_spec (need_slot k) (block_size m) Hbsz).
    destruct (manager_class m); try done; apply Z.div_le_upper_bound; lia.
  - etrans; [|by apply (Hh i m)]. apply Z.div_le_mono; lia.
  - by eapply He.
Qed.

(** ** The whole call *)

Record slots_call (k : KVCacheManager) : Prop := {
  sl_new : 0 ≤ num_new_tokens;
  sl_some : num_new_tokens ≠ 0 ∨ external ≠ 0;
  sl_lookahead : 0 ≤ num_lookahead_tokens;
  sl_fits : main ≤ max_model_len k;
  sl_reserved : 0 ≤ reserved;
  sl_watermark : 0 ≤ watermark_blocks k;
  sl_prompt : 0 ≤ num_prompt_tokens request;
  sl_pools : block_pools (coordinator k) ≠ [];
  sl_request : slots_request k (coordinator k);
  sl_cacheable : mgr_enable_caching k = true → delay_cache_blocks = false → slots_cacheable (coordinator k)
}.

Abbreviation watermark k := (applied_watermark k request has_scheduled_reqs).

(** The request is refused: only blocks outside the window went, and some pool lacks blocks. *)
Record refused (k : KVCacheManager) (L : nat → list nat) (k' : KVCacheManager) (L' : nat → list nat) : Prop := {
  rf_lists i : L i ⊆ L' i;
  rf_tables i m : manager_at (coordinator k) i = Some m →
    ∃ m', manager_at (coordinator k') i = Some m' ∧ removed_all m m';
  rf_reason :
    (must_fit = true ∧
     full_sequence_fits k request (blocks_of k computed) enc (local + external) local (watermark k) = Ok false) ∨
    (∃ n i, coord_get_num_blocks_to_allocate (coordinator k') rid (need_slot k) (blocks_of k computed) enc
       (local + external) local main false = Ok n ∧
       (i < length (block_pools (coordinator k)))%nat ∧ len (L' i) - reserved < n + watermark k)
}.

(** The request is served, and the blocks to keep free stay free. *)
Record served (k k' : KVCacheManager) (L' : nat → list nat) : Prop := {
  sv_free i : (i < length (block_pools (coordinator k)))%nat → reserved + watermark k ≤ len (L' i);
  sv_tables i m : manager_at (coordinator k) i = Some m →
    ∃ m', manager_at (coordinator k') i = Some m' ∧ granted k i m m'
}.

Lemma evolved_pools c c' : evolved c c' → length (block_pools c') = length (block_pools c).
Proof. intros Hev. symmetry. eapply Forall2_length, Hev. Qed.

Lemma watermark_nonneg k : 0 ≤ watermark_blocks k → 0 ≤ watermark k.
Proof. intros Hw. unfold applied_watermark. case_decide; lia. Qed.

Lemma removed_all_refl c i m : manager_at c i = Some m → ∃ m', manager_at c i = Some m' ∧ removed_all m m'.
Proof. intros Hm. exists m. split; [done|]. by split. Qed.

(** Everything from the allocation on, with [n] blocks predicted on the state [c1] after the
    removal. *)
Lemma serve k L c1 L1 n free :
  coord_wf ext (coordinator k) L → slots_call k → evolved (coordinator k) c1 → coord_wf ext c1 L1 →
  (∀ i m, manager_at (coordinator k) i = Some m → ∃ m1, manager_at c1 i = Some m1 ∧ removed_all m m1) →
  coord_get_num_blocks_to_allocate c1 rid (need_slot k) (blocks_of k computed) enc (local + external) local main
    false = Ok n →
  (∀ i, (i < length (block_pools c1))%nat → free ≤ len (L1 i)) → ¬ n + watermark k > free - reserved →
  wp (_ ← (if decide starts then
             on_coordinator (allocate_new_computed_blocks use_int rid (blocks_of k computed) local external)
           else mret tt);
      new_blocks ← on_coordinator (coord_allocate_new_blocks use_int rid (need_slot k) main enc);
      if negb (mgr_enable_caching k) || delay_cache_blocks then
        mret (Some (create_kv_cache_blocks new_blocks), request)
      else
        request' ← on_coordinator (coord_cache_blocks use_int sha256 request (Z.min main (num_tokens request)));
        mret (Some (create_kv_cache_blocks new_blocks), request'))
    (λ res k', ∃ new L', res.1 = Some new ∧ same_request sha256 request res.2 ∧
      k' = k <| coordinator := coordinator k' |> ∧ evolved (coordinator k) (coordinator k') ∧
      coord_wf ext (coordinator k') L' ∧ served k k' L') (k <| coordinator := c1 |>).
Proof.
  intros Hwf [Hnew _ Hla Hfits Hres Hwm Hpr _ Hreq Hcach] Hev1 Hwf1 Hat1 Hn Hfree Hd.
  pose proof (watermark_nonneg k Hwm) as Hwm'. pose proof (evolved_pools _ _ Hev1) as Hlen1.
  assert (local + external ≤ need_slot k) as Hneed by (unfold need_slot; lia).
  destruct (slots_phase k c1 L1 Hwf1 (evolved_groups _ _ Hev1)) as (n' & Hn' & Hphase); [|done|].
  { eapply (request_after_removal k (coordinator k) L); [exact Hwf|exact Hev1|exact Hat1|exact Hreq]. }
  assert (n' = n) as -> by congruence.
  pose proof (Hphase ltac:(intros i Hi; specialize (Hfree i Hi); lia)) as Hwp. clear Hphase.
  match type of Hwp with wp _ ?Q _ => set (Qend := Q) in Hwp end. apply wp_bind_inv in Hwp.
  apply wp_bind. apply (wp_mono _ (λ _ k2, k2 = k <| coordinator := coordinator k2 |> ∧
    wp (coord_allocate_new_blocks use_int rid (need_slot k) main enc) Qend (coordinator k2))).
  { case_decide.
    - apply wp_on_coordinator. eapply wp_mono; [exact Hwp|]. intros [] c2 H2. split; [done|exact H2].
    - apply wp_ret. split; [done|exact Hwp]. }
  clear Hwp. intros [] k2 [-> Hwp]. simpl in Hwp. apply wp_bind, wp_on_coordinator. simpl.
  eapply wp_mono; [exact Hwp|]. intros new c2 (L2 & Hev2 & Hwf2 & Hl2 & Hat2).
  assert (evolved (coordinator k) c2) as Hev by (by etrans).
  assert (∀ i m, manager_at (coordinator k) i = Some m → ∃ m2, manager_at c2 i = Some m2 ∧ granted k i m m2) as Hgr.
  { intros i m Hm. destruct (Hat1 i m Hm) as (m1 & Hm1 & Hr1). destruct (Hat2 i m1 Hm1) as (m2 & Hm2 & Hp2).
    exists m2. split; [done|]. eapply granted_trans; [exact Hr1|exact Hp2|]. intros Hno. unfold slots_request in Hreq.
    rewrite decide_False in Hreq by done. by apply (Hreq i m Hm). }
  assert (∀ i, (i < length (block_pools (coordinator k)))%nat → reserved + watermark k ≤ len (L2 i)) as Hkeep.
  { intros i Hi. rewrite <-Hlen1 in Hi. specialize (Hfree i Hi). specialize (Hl2 i Hi). lia. }
  destruct (negb (mgr_enable_caching k) || delay_cache_blocks) eqn:Hc.
  { apply wp_ret. eexists _, L2. simpl. split; [done|]. split; [by left|]. split; [done|]. split; [done|]. by split. }
  apply orb_false_iff in Hc as [Hc1%negb_false_iff Hc2].
  assert (coord_ready sha256 c2 request (Z.min main (num_tokens request))) as Hready.
  { eapply (slots_ready k (coordinator k) L); try done; [by apply Hcach|..].
    - unfold num_tokens. pose proof (len_nonneg (all_token_ids request)). lia.
    - unfold need_slot. lia. }
  apply wp_bind, wp_on_coordinator. simpl.
  eapply wp_mono; [by apply (cache_all use_int sha256 ext ext_nonneg c2 L2)|].
  intros r' c3 (L3 & Hr' & Hev3 & Hwf3 & Hl3 & Hat3). apply wp_ret. eexists _, L3. simpl.
  split; [done|]. split; [done|]. split; [done|]. split; [by etrans|]. split; [done|]. split.
  - intros i Hi. rewrite Hl3. by apply Hkeep.
  - intros i m Hm. destruct (Hgr i m Hm) as (m2 & Hm2 & [Hs Hb Hp]). destruct (Hat3 i m2 Hm2) as (m3 & Hm3 & [Hs3 Hb3 Hp3]).
    exists m3. split; [done|]. split; [by etrans|by rewrite Hb3|by rewrite Hp3].
Qed.

Lemma slots_no_partial k c : slots_request k c → ∀ i m, manager_at c i = Some m → _partial_hit_reqs m !! rid = None.
Proof.
  unfold slots_request. case_decide; intros Hreq i m Hm.
  - by destruct (nr_hits _ _ _ _ _ Hreq i m Hm) as (_ & _ & (_ & _ & ?) & _).
  - by apply (Hreq i m Hm).
Qed.

(** The full-sequence check never raises. *)
Lemma fit_check_total k L :
  coord_wf ext (coordinator k) L → block_pools (coordinator k) ≠ [] → slots_request k (coordinator k) →
  ∃ b, full_sequence_fits k request (blocks_of k computed) enc (local + external) local (watermark k) = Ok b.
Proof.
  intros Hwf Hp Hreq. unfold full_sequence_fits. cbv zeta.
  destruct (prediction_total ext (coordinator k) L rid (blocks_of k computed)
    (Z.min (num_tokens request) (max_model_len k)) enc (local + external) local
    (Z.min (num_tokens request) (max_model_len k)) true Hwf) as [n ->].
  { intros i m Hm. unfold slots_request in Hreq. case_decide as Hst.
    - destruct (nr_hits _ _ _ _ _ Hreq i m Hm) as (h & Hh & (_ & Hc & _) & _). eauto.
    - assert (computed = EmptyBlocks) as -> by (destruct computed; naive_solver). exists []. split; [|by right].
      destruct (manager_at_inv _ i m Hm) as (_ & g & _ & _ & Hg%lookup_lt_Some & _). by apply lookup_replicate_2. }
  cbn [mbind res_bind]. destruct (num_free_blocks_spec ext (coordinator k) L Hwf Hp) as (free & Hfree & _).
  unfold mgr_get_num_free_blocks. rewrite Hfree. cbn [mbind res_bind]. by eexists.
Qed.

Lemma allocate_slots_spec k L :
  coord_wf ext (coordinator k) L → slots_call k →
  wp (allocate_slots use_int sha256 request num_new_tokens num_new_computed_tokens new_computed_blocks
      num_lookahead_tokens external delay_cache_blocks enc must_fit reserved has_scheduled_reqs) (λ res k', ∃ L',
    same_request sha256 request res.2 ∧ k' = k <| coordinator := coordinator k' |> ∧
    evolved (coordinator k) (coordinator k') ∧ coord_wf ext (coordinator k') L' ∧
    match res.1 with None => refused k L k' L' | Some _ => served k k' L' end) k.
Proof.
  intros Hwf Hcall. pose proof Hcall as [Hnew Hsome Hla Hfits Hres Hwm Hpr Hpools Hreq Hcach].
  unfold allocate_slots. rewrite decide_False by lia. apply wp_bind, wp_gets. cbv zeta.
  replace (Z.min (local + external) (max_model_len k)) with (local + external) by lia.
  destruct (fit_check_total k L Hwf Hpools Hreq) as [b Hb].
  apply wp_bind. apply (wp_mono _ (λ fits k1, k1 = k ∧ (fits = true ∨ must_fit = true ∧ b = false))).
  { destruct must_fit; [|by apply wp_ret; auto]. eapply wp_lift; [exact Hb|]. destruct b; auto. }
  intros fits k1 [-> Hfit]. destruct fits; simpl.
  2:{ apply wp_ret. destruct Hfit as [?|[Hmust ->]]; [done|]. exists L. simpl.
      split; [by left|]. split; [by destruct k|]. split; [done|]. split; [done|]. split; [done|apply removed_all_refl|].
      left. by split. }
  apply wp_bind, wp_on_coordinator.
  eapply wp_mono; [apply (remove_all ext ext_nonneg rid processed (Some (num_prompt_tokens request)))|];
    [unfold processed; lia|by intros np [= <-]|exact Hwf|by apply (slots_no_partial k)|].
  intros [] c1 (L1 & Hev1 & Hwf1 & Hl1 & Hat1). apply wp_bind, wp_gets. simpl. fold (need_slot k).
  assert (local + external ≤ need_slot k) as Hneed by (unfold need_slot; lia).
  destruct (slots_phase k c1 L1 Hwf1 (evolved_groups _ _ Hev1)) as (n & Hn & _);
    [by eapply (request_after_removal k (coordinator k) L)|done|].
  apply wp_bind. eapply wp_lift; [exact Hn|].
  destruct (num_free_blocks_spec ext c1 L1 Hwf1) as (free & Hfree & Hmin & i & Hi & Heq).
  { intros Hnil. pose proof (evolved_pools _ _ Hev1) as Hlen. rewrite Hnil in Hlen. by destruct (block_pools (coordinator k)). }
  apply wp_bind. eapply wp_lift; [exact Hfree|]. case_decide as Hd.
  - apply wp_ret. exists L1. simpl. split; [by left|]. split; [done|]. split; [done|]. split; [done|].
    split; [apply Hl1|done|]. right. exists n, i. rewrite <-(evolved_pools _ _ Hev1). split; [done|]. split; [done|lia].
  - eapply wp_mono; [eapply (serve k L c1 L1 n free); done|].
    intros [res r'] k' (new & L' & Hres' & ? & ? & ? & ? & ?). simpl in *. subst res. exists L'. by split_and!.
Qed.

(** C6: [allocate_slots] is total and keeps the cache consistent, for a new request with a
    prefix hit and external tokens as for one that continues, with and without prefix caching,
    over all layer types and pools.  It never raises.  When it refuses, some pool lacks the
    predicted blocks (or the full-sequence check fails), and at most blocks outside the
    attention window are gone.  When it serves the request, every layer has a table that is
    long enough for all tokens and keeps the hit, or whatever the request still attends to;
    the reserved blocks and the watermark stay free in every pool.  Either way all reference
    counts stay exact, a block that one request still fills is in no other table, and other
    requests keep their tables. *)
Theorem allocate_slots_sound k L :
  coord_wf ext (coordinator k) L → slots_call k →
  ∃ res request' k' L',
    allocate_slots use_int sha256 request num_new_tokens num_new_computed_tokens new_computed_blocks
      num_lookahead_tokens external delay_cache_blocks enc must_fit reserved has_scheduled_reqs k =
      Ok ((res, request'), k') ∧
    same_request sha256 request request' ∧ k' = k <| coordinator := coordinator k' |> ∧
    evolved (coordinator k) (coordinator k') ∧ coord_wf ext (coordinator k') L' ∧
    match res with None => refused k L k' L' | Some _ => served k k' L' end.
Proof.
  intros Hwf Hcall. pose proof (allocate_slots_spec k L Hwf Hcall) as Hwp.
  apply wp_run in Hwp as ([res r'] & k' & Hrun & L' & ?). eauto 10.
Qed.
End slots.

(** ** The hybrid model serves a request with a cached prefix *)

Definition slots_manager : KVCacheManager := mkManager 64 true false false None hybrid_filled 1 1 [] ∅.
Definition slots_demo_request : Request :=
  demo_request <| request_id := "r" |> <| all_token_ids := Z.of_nat <$> seq 0 20 |> <| num_prompt_tokens := 20 |>
    <| num_computed_tokens := 0 |> <| block_hashes := hybrid_hashes |> <| num_in_flight_tokens := 0 |>.

Lemma hybrid_filled_managers i m :
  manager_at hybrid_filled i = Some m →
  enable_caching (block_pool m) = true ∧ hash_block_size (block_pool m) = 4 ∧
  enable_kv_cache_events (block_pool m) = false ∧ manager_class m ≠ CrossAttentionManager ∧
  0 ≤ kv_cache_group_id m < 2 ^ 32 ∧ (∃ x, 0 < x ∧ block_size m = x * 4) ∧
  cache_hit_alignment_tokens m mod block_size m = 0.
Proof.
  intros Hm. destruct (manager_at_inv _ _ _ Hm) as (m0 & g & p & Hm0 & _ & Hp & ->). simpl.
  destruct hybrid_filled_parts as [Hmgs Hps]. rewrite Hmgs in Hm0. rewrite Hps, list_lookup_fmap in Hp.
  apply fmap_Some in Hp as (p0 & Hp0%list_elem_of_lookup_2 & ->).
  destruct (fill_pool_ok p0 Hp0) as [_ [[_ -> -> _ ->] _ _ _ _ _]].
  assert (enable_caching p0 = true ∧ hash_block_size p0 = 4 ∧ enable_kv_cache_events p0 = false) as (-> & -> & ->).
  { revert Hp0. clear. vm_compute. by intros ->%list_elem_of_singleton. }
  assert (Forall (λ '(cls, gid, bsz, align), cls ≠ CrossAttentionManager ∧ 0 ≤ gid < 2 ^ 32 ∧
    (bsz = 4 ∨ bsz = 8) ∧ align mod bsz = 0) ((λ m, (manager_class m, kv_cache_group_id m, block_size m,
    cache_hit_alignment_tokens m)) <$> single_type_managers demo_coordinator)) as Hall%Forall_fmap.
  { match goal with |- Forall ?P ?l => let l' := eval vm_compute in l in change (Forall P l') end.
    repeat (apply Forall_cons_2; [split_and!; [done|lia|lia|auto|done]|]). apply Forall_nil_2. }
  destruct (Forall_lookup_1 _ _ _ _ Hall Hm0) as (Hcl & Hgid & Hsz & Hal).
  split; [reflexivity|]. split; [reflexivity|]. split; [reflexivity|]. split; [exact Hcl|]. split; [exact Hgid|].
  split; [|exact Hal]. destruct Hsz as [Hsz|Hsz]; [exists 1|exists 2]; split; [lia|exact Hsz|lia|exact Hsz].
Qed.

Lemma slots_manager_cacheable : slots_cacheable (λ _, []) slots_demo_request hybrid_filled.
Proof.
  split.
  - vm_compute. reflexivity.
  - vm_compute. discriminate.
  - vm_compute. discriminate.
  - intros i m Hm. destruct (hybrid_filled_managers i m Hm) as (A & B & _ & C & D & (x & E & F) & G).
    rewrite B. split; [exact A|]. split; [lia|]. split; [exact C|]. split; [exact D|].
    split; [|intros w e _; exact G]. intros _. exists x. split; [exact E|exact F].
  - intros i m Hm. destruct (hybrid_filled_managers i m Hm) as (_ & -> & _). vm_compute. discriminate.
  - intros i m Hm He. destruct (hybrid_filled_managers i m Hm) as (_ & _ & Hf & _). congruence.
Qed.

Lemma hybrid_filled_pools : block_pools hybrid_filled ≠ [].
Proof. rewrite (proj2 hybrid_filled_parts). intros Hn%fmap_nil_inv. revert Hn. vm_compute. discriminate. Qed.

Lemma slots_manager_call :
  slots_call (λ _, []) slots_demo_request 4 16 (Some (NewBlocks demo_hits)) 0 0 false 0 slots_manager.
Proof.
  split; [lia|left; lia|lia|vm_compute; discriminate|lia|vm_compute; discriminate|vm_compute; discriminate| | |].
  - exact hybrid_filled_pools.
  - unfold slots_request. rewrite decide_True by (left; discriminate). exact demo_new_request.
  - intros _ _. exact slots_manager_cacheable.
Qed.

Lemma allocate_slots_sound_witness :
  ∃ res request' k' L',
    allocate_slots (H := elements_iter) false (λ _, []) slots_demo_request 4 16 (Some (NewBlocks demo_hits)) 0 0 false 0
      true 0 true slots_manager = Ok ((Some res, request'), k') ∧
    coord_wf (λ _ _, 0) (coordinator k') L' ∧ ∀ i, (i < 1)%nat → 1 ≤ len (L' i).
Proof.
  destruct (allocate_slots_sound (H := elements_iter) false (λ _, []) (λ _ _, 0) (λ _ _, Z.le_refl 0)
    slots_demo_request 4 16 (Some (NewBlocks demo_hits)) 0 0 false 0 true 0 true)
    with (k := slots_manager) (L := λ _ : nat, seq 1 8) as (res & r' & k' & L' & Hrun & _ & _ & _ & Hwf & Hres).
  - lia.
  - vm_compute. discriminate.
  - exact (proj1 hybrid_filled_coord_wf).
  - exact slots_manager_call.
  - destruct res as [res|].
    + exists res, r', k', L'. split; [exact Hrun|]. split; [exact Hwf|]. intros i Hi.
      destruct Hres as [Hfree _]. specialize (Hfree i). revert Hfree. vm_compute. auto.
    + exfalso. revert Hrun. vm_compute. discriminate.
Defined.
