(* ===== verification/PrefixModel.v ===== *)
(** * Prefix lookups of whole models

    What [find_longest_cache_hit] finds for the managers of a model, for each kind of
    coordinator, and that a model stays one for which the lookup works, from its construction
    through all calls. *)

From S2P Require Import Prelude FreeQueue Request Hashing BlockPool PoolSpecs PoolTheorems.
From S2P Require Import SingleType SingleSpecs SingleTheorems Uncached CacheSpecs CacheHit Coordinator CoordLookup CoordInit.
From S2P Require Import CoordSpecs CoordAlloc CoordRelease CoordCache Manager Handover Pools Slots.

(** ** Groups outside prefix caching get no hit *)

Section untouched.
Variables (c : KVCacheCoordinator) (partial : bool) (hashes : BlockHashList) (max_length : Z).
Variable gid : nat.

Lemma store_hits_other ids blocks n s :
  gid ∉ ids → hit_blocks_by_group (store_hits ids blocks n s) !! gid = hit_blocks_by_group s !! gid.
Proof.
  unfold store_hits. revert blocks s. induction ids as [|i ids IH]; intros [|b blocks] s Hg; try done.
  cbn [zip zip_with foldl]. apply not_elem_of_cons in Hg as [Hne Hg]. rewrite IH by done. simpl.
  by rewrite list_lookup_insert_ne.
Qed.

Lemma search_group_other s k g s' :
  gid ∉ sg_group_ids g → search_group c partial hashes max_length s (k, g) = Ok s' →
  hit_blocks_by_group s' !! gid = hit_blocks_by_group s !! gid.
Proof.
  intros Hg. unfold search_group. intros (first & _ & Hrun)%res_bind_inv.
  destruct (single_type_managers c !! first), (hit_blocks_by_group s !! first),
    (hit_length_by_group s !! first); try done.
  case_decide; [by injection Hrun as <-|].
  apply res_bind_inv in Hrun as ([blocks n] & _ & [= <-]). by rewrite store_hits_other.
Qed.

Lemma search_groups_other gs : ∀ s s',
  (∀ k g, (k, g) ∈ gs → gid ∉ sg_group_ids g) → search_groups c partial hashes max_length s gs = Ok s' →
  hit_blocks_by_group s' !! gid = hit_blocks_by_group s !! gid.
Proof.
  induction gs as [|[k g] gs IH]; intros s s' Hg; cbn [search_groups]; [by intros [= ->]|].
  intros (s1 & H1 & H2)%res_bind_inv. rewrite (IH s1 s'); [|set_solver|done].
  eapply search_group_other; [|exact H1]. eapply Hg. by left.
Qed.

Variable groups : list SpecGroup.
Hypothesis outside : ∀ g, g ∈ groups → gid ∉ sg_group_ids g.

Lemma search_loop_other simple fuel : ∀ H s h s',
  search_loop c partial hashes max_length fuel groups simple H s = Ok (h, s') →
  hit_blocks_by_group s' !! gid = hit_blocks_by_group s !! gid.
Proof.
  induction fuel as [|fuel IH]; intros H s h s'; [done|]. cbn [search_loop]. intros (s1 & H1 & H2)%res_bind_inv.
  assert (hit_blocks_by_group s1 !! gid = hit_blocks_by_group s !! gid) as Hs1.
  { apply (search_groups_other _ _ _) in H1; [done|]. intros k g (? & ? & [= -> ->] & Hin)%elem_of_lookup_imap.
    by eapply outside, list_elem_of_lookup_2. }
  case_decide; [by injection H2 as <- <-|]. destruct simple; [by injection H2 as <- <-|].
  by rewrite (IH _ _ _ _ H2).
Qed.

Lemma truncate_ids_other n h ids : ∀ s,
  gid ∉ ids → hit_blocks_by_group (truncate_ids n h ids s) !! gid = hit_blocks_by_group s !! gid.
Proof.
  unfold truncate_ids. induction ids as [|i ids IH]; intros s Hg; [done|]. cbn [foldl].
  apply not_elem_of_cons in Hg as [Hne Hg]. rewrite IH by done.
  destruct (hit_blocks_by_group s !! i) as [[b|]|]; try done. simpl. by rewrite list_lookup_insert_ne.
Qed.

Lemma truncate_full_other h : ∀ s,
  hit_blocks_by_group (truncate_full c groups h s) !! gid = hit_blocks_by_group s !! gid.
Proof.
  unfold truncate_full. clear -outside. induction groups as [|g gs IH]; intros s; [done|]. cbn [foldl].
  rewrite IH by set_solver. destruct (is_full_attention (sg_spec g)); [|done].
  apply truncate_ids_other. apply outside. by left.
Qed.

Lemma hybrid_other blocks h extra :
  find_longest_cache_hit_hybrid c partial hashes max_length groups = Ok (blocks, h, extra) →
  (gid < length (kv_cache_groups c))%nat → blocks !! gid = Some [].
Proof.
  unfold find_longest_cache_hit_hybrid. intros ([h' s] & Hs & [= <- _ _])%res_bind_inv Hlt.
  rewrite list_lookup_fmap, truncate_full_other, (search_loop_other _ _ _ _ _ _ Hs). simpl.
  by rewrite lookup_replicate_2.
Qed.
End untouched.

(** ** What the lookups find *)

(** The key of the [i]-th block of a request with these hashes, for the [gid]-th group. *)
Definition key_at (hashes : list bytes) (m : SingleTypeKVCacheManager) (gid : nat) (i : Z) : bytes :=
  hash_at hashes (block_size m // hash_block_size (block_pool m)) i ++ be_bytes 4 (Z.of_nat gid).

(** A hit of [h] tokens: every block with a token that the next query sees is cached under the
    hash of its position, and the other blocks are null or cached. *)
Record manager_hit (hashes : list bytes) (gid : nat) (m : SingleTypeKVCacheManager) (h : Z) (bl : list nat) : Prop := {
  mh_len : len bl = h // block_size m;
  mh_mod : h mod block_size m = 0;
  mh_caching : bl = [] ∨ st_enable_caching m = true;
  mh_seen t : 0 ≤ t < h → attends (manager_class m) None h t = true →
    ∃ b, bl !! Z.to_nat (t // block_size m) = Some b ∧ holds_key (block_pool m) b (key_at hashes m gid (t // block_size m));
  mh_cached j b : bl !! j = Some b → b = null_block ∨ holds_key (block_pool m) b (key_at hashes m gid (Z.of_nat j))
}.
Definition manager_result (hashes : list bytes) (gid : nat) (m : SingleTypeKVCacheManager) (h : Z) (bl : list nat) : Prop :=
  if shares_prefix (manager_class m) then manager_hit hashes gid m h bl else bl = [].

(** The attention groups [groups] are those of the managers that share prefixes. *)
Record prefix_model (c : KVCacheCoordinator) (groups : list SpecGroup) : Prop := {
  pm_wf : hybrid_wf c groups;
  pm_in i m g : manager_at c i = Some m → kv_cache_groups c !! i = Some g → shares_prefix (manager_class m) = true →
    st_enable_caching m = true ∧ ∃ sg, sg ∈ groups ∧ i ∈ sg_group_ids sg ∧
      spec_class (sg_spec sg) = manager_class m ∧ sg_pool_id sg = pool_id g;
  pm_out i m sg : manager_at c i = Some m → shares_prefix (manager_class m) = false → sg ∈ groups →
    i ∉ sg_group_ids sg
}.

(** A hit of an attention group, seen by one of its managers. *)
Lemma group_manager_hit c groups sg hashes h (blocks : list (list nat)) i m g :
  hybrid_wf c groups → sg ∈ groups → i ∈ sg_group_ids sg →
  manager_at c i = Some m → kv_cache_groups c !! i = Some g →
  st_enable_caching m = true → spec_class (sg_spec sg) = manager_class m → sg_pool_id sg = pool_id g → h mod scheduler_block_size c = 0 →
  group_hit_at c hashes sg h ((λ gid, blocks !!! gid) <$> sg_group_ids sg) →
  manager_hit hashes i m h (blocks !!! i).
Proof.
  intros Hwf Hsg Hi Hm Hg Hca Hcl Hpool Hmod (p & Hp & Hhit). pose proof (hw_groups _ _ Hwf sg Hsg) as Hgw.
  destruct Hgw as [(p' & Hp' & _ & Hph) Hids _ _ (Hb & _ & Hsb) _]. simplify_eq.
  destruct (manager_at_inv c i m Hm) as (m0 & g' & q & Hm0 & Hg' & Hq & ->). simplify_eq. simpl in *.
  rewrite <-Hpool, Hp in Hq. injection Hq as <-.
  destruct (Hids i Hi) as (_ & _ & m1 & Hm1 & Hsz). simplify_eq.
  pose proof Hi as [k Hk]%list_elem_of_lookup.
  unfold hit_at in Hhit. rewrite Forall2_fmap_l, Forall2_fmap_r in Hhit.
  destruct (Forall2_lookup_lr _ _ _ _ _ _ Hhit Hk Hk) as (Hlen & Hseen & Hall).
  unfold hashes_per_block in *. rewrite Hcl, <-Hsz in *. split; unfold key_at; simpl; rewrite ?Hph; try done; [|by right].
  apply Z.mod_divide; [lia|]. etrans; [|apply Z.mod_divide, Hmod; pose proof (hw_sched _ _ Hwf); lia].
  apply Z.mod_divide; [lia|]. done.
Qed.

Section lookups.
Variables (c : KVCacheCoordinator) (groups : list SpecGroup) (hashes : list bytes) (max_length : Z).
Hypothesis model : prefix_model c groups.
Hypothesis max_nonneg : 0 ≤ max_length.
Hypothesis hashed : max_length // coord_hash_block_size c ≤ len hashes.

Lemma hybrid_lookup :
  ∃ blocks h extra,
    find_longest_cache_hit_hybrid c false (HashList hashes) max_length groups = Ok (blocks, h, extra) ∧
    0 ≤ h ≤ max_length ∧ h mod scheduler_block_size c = 0 ∧ length blocks = length (kv_cache_groups c) ∧
    ∀ i m, manager_at c i = Some m → ∃ bl, blocks !! i = Some bl ∧ manager_result hashes i m h bl.
Proof.
  destruct (hybrid_search_exact c groups hashes max_length) as (blocks & h & extra & Hrun & Hlen & Hh & Hmod & Hhit & _);
    [apply model|done|done|].
  exists blocks, h, extra. split_and!; try done; try lia. intros i m Hm.
  destruct (manager_at_inv c i m Hm) as (_ & g & _ & _ & Hg & _).
  destruct (lookup_lt_is_Some_2 blocks i) as [bl Hbl]; [rewrite Hlen; by eapply lookup_lt_Some|].
  exists bl. split; [done|]. unfold manager_result. destruct (shares_prefix (manager_class m)) eqn:Hsh.
  - destruct (pm_in _ _ model i m g Hm Hg Hsh) as (Hca & sg & Hsg & Hi & Hcl & Hpool).
    rewrite <-(list_lookup_total_correct _ _ _ Hbl). eapply group_manager_hit; try done; [apply model|by apply Hhit].
  - enough (blocks !! i = Some []) by congruence.
    apply (hybrid_other _ _ _ _ i groups) in Hrun; [done| |by eapply lookup_lt_Some]. intros sg. by apply (pm_out _ _ model i m).
Qed.
End lookups.

(** The single group of the unitary coordinator, which aligns hits to its own block size. *)
Definition unitary_group (c : KVCacheCoordinator) (g : KVCacheGroupSpec) : SpecGroup :=
  mkSpecGroup (kv_cache_spec g) [0%nat] (bool_decide (0%nat ∈ eagle_group_ids c)) 0.

(** The coordinator can look up prefixes for its managers. *)
Definition lookup_model (c : KVCacheCoordinator) (pcp : Z) : Prop :=
  match coordinator_class c with
  | KVCacheCoordinatorNoPrefixCache => True
  | UnitaryKVCacheCoordinator => ∃ m g, single_type_managers c = [m] ∧ kv_cache_groups c = [g] ∧ pool_id g = 0%nat ∧
      pcp = 1 ∧ prefix_model (c <| scheduler_block_size := block_size m |>) [unitary_group c g]
  | HybridKVCacheCoordinator partial groups => partial = false ∧ prefix_model c groups
  end.

Lemma unitary_lookup c m g hashes max_length :
  single_type_managers c = [m] → kv_cache_groups c = [g] → pool_id g = 0%nat →
  prefix_model (c <| scheduler_block_size := block_size m |>) [unitary_group c g] →
  0 ≤ max_length → max_length // coord_hash_block_size c ≤ len hashes →
  ∃ blocks h, find_longest_cache_hit_unitary c (HashList hashes) max_length 1 = Ok (blocks, h, 0) ∧
    0 ≤ h ≤ max_length ∧
    ∀ i m, manager_at c i = Some m → ∃ bl, blocks !! i = Some bl ∧ manager_result hashes i m h bl.
Proof.
  intros Hms Hgs Hpg Hmodel Hmax Hlen. set (c' := c <| scheduler_block_size := block_size m |>) in *.
  set (sg := unitary_group c g) in *. pose proof (pm_wf _ _ Hmodel) as Hwf.
  destruct (hw_groups _ _ Hwf sg ltac:(by left)) as [(p & Hp & _) _ _ _ _ _].
  destruct (gl_find (GroupLookup := group_lookup c' [sg] hashes max_length sg Hwf ltac:(by left) Hlen)
    max_length (bool_decide (0%nat ∈ eagle_group_ids c))) as (blocks & h & Hrun & Hbl & Hh & _ & Hmod & Hhit & _);
    [lia|done|].
  unfold find_group in Hrun. rewrite Hp in Hrun. simpl in Hp, Hrun.
  exists blocks, h. unfold find_longest_cache_hit_unitary. rewrite Hms, Hgs, Hp. cbn [lookup list_lookup].
  unfold _cache_hit_alignment_tokens in Hrun. simpl in Hrun. rewrite Hrun. split; [done|]. split; [lia|].
  intros i m1 Hm1. destruct (manager_at_inv c i m1 Hm1) as (m0 & g0 & q & Hm0 & Hg0 & Hq & Heq).
  rewrite Hms in Hm0. rewrite Hgs in Hg0. apply list_lookup_singleton_Some in Hm0 as [-> <-].
  apply list_lookup_singleton_Some in Hg0 as [_ <-].
  destruct blocks as [|bl [|]]; try done. exists bl. split; [done|].
  unfold manager_result. destruct (shares_prefix (manager_class m1)) eqn:Hsh.
  - destruct (pm_in _ _ Hmodel 0%nat m1 g) as (Hca & sg' & Hsg & _ & Hcl & _); [exact Hm1|simpl; by rewrite Hgs|done|].
    apply list_elem_of_singleton in Hsg as ->.
    apply (group_manager_hit c' [sg] sg hashes h [bl] 0%nat m1 g); try done; [by left|by left|simpl; by rewrite Hgs].
  - exfalso. apply (pm_out _ _ Hmodel 0%nat m1 sg); [exact Hm1|done|by left|by left].
Qed.

Lemma no_hit hashes gid m : manager_result hashes gid m 0 [].
Proof.
  unfold manager_result. destruct (shares_prefix _); [|done]. split; [by rewrite Zdiv_0_l|apply Zmod_0_l|by left|lia|].
  intros j b ?. done.
Qed.

(** [find_longest_cache_hit] of every coordinator. *)
Lemma coord_lookup c pcp hashes max_length :
  lookup_model c pcp → 0 ≤ max_length → max_length // coord_hash_block_size c ≤ len hashes →
  ∃ blocks h extra, coord_find_longest_cache_hit c pcp (HashList hashes) max_length = Ok (blocks, h, extra) ∧
    0 ≤ h ≤ max_length ∧
    ∀ i m, manager_at c i = Some m → ∃ bl, blocks !! i = Some bl ∧ manager_result hashes i m h bl.
Proof.
  intros Hmodel Hmax Hlen. unfold lookup_model, coord_find_longest_cache_hit in *.
  destruct (coordinator_class c) as [| |partial groups].
  - eexists _, 0, 0. split; [done|]. split; [lia|]. intros i m Hm. exists []. split; [|apply no_hit].
    apply lookup_replicate_2. destruct (manager_at_inv c i m Hm) as (? & _ & _ & Hi%lookup_lt_Some & _). done.
  - destruct Hmodel as (m & g & Hms & Hgs & Hpg & -> & Hmodel).
    destruct (unitary_lookup c m g hashes max_length Hms Hgs Hpg Hmodel Hmax Hlen) as (blocks & h & Hrun & Hh & Hat).
    by exists blocks, h, 0.
  - destruct Hmodel as [-> Hmodel].
    destruct (hybrid_lookup c groups hashes max_length Hmodel Hmax Hlen) as (blocks & h & extra & Hrun & Hh & _ & _ & Hat).
    by exists blocks, h, extra.
Qed.

(** ** The model stays *)

(** What a manager keeps from its construction on. *)
Record same_kind (m m' : SingleTypeKVCacheManager) : Prop := {
  sk_class : manager_class m' = manager_class m;
  sk_size : block_size m' = block_size m;
  sk_caching : st_enable_caching m' = st_enable_caching m;
  sk_settings : settings m' = settings m
}.
#[global] Instance same_kind_refl : Reflexive same_kind.
Proof. by split. Qed.
#[global] Instance same_kind_trans : Transitive same_kind.
Proof. intros m1 m2 m3 [] []. split; congruence. Qed.

Lemma same_others_kind rid m m' : same_others rid m m' → same_kind m m'.
Proof. by intros [? ? ? ? _ _ _]. Qed.

Record same_model (c c' : KVCacheCoordinator) : Prop := {
  sm_evolved : evolved c c';
  sm_kinds i m : manager_at c i = Some m → ∃ m', manager_at c' i = Some m' ∧ same_kind m m'
}.
#[global] Instance same_model_refl : Reflexive same_model.
Proof. intros c. split; [done|]. intros i m Hm. by exists m. Qed.
#[global] Instance same_model_trans : Transitive same_model.
Proof.
  intros c1 c2 c3 [E1 K1] [E2 K2]. split; [by etrans|]. intros i m Hm. destruct (K1 i m Hm) as (m2 & Hm2 & Hk).
  destruct (K2 i m2 Hm2) as (m3 & Hm3 & Hk'). exists m3. split; [done|by etrans].
Qed.

Lemma only_pools_model c c' : only_pools c c' → same_model c c'.
Proof.
  intros [Hev Htab]. split; [done|]. intros i m (m0 & g & p & Hm0 & Hg & Hp & ->)%manager_at_inv.
  destruct (Forall2_lookup_l _ _ _ _ _ (ev_config _ _ Hev) Hp) as (p' & Hp' & _). eexists.
  split; [apply (manager_at_intro c' i m0 g); [by rewrite Htab|by rewrite (evolved_groups _ _ Hev)|done]|by split].
Qed.

Lemma same_model_coord ext ext' c L c' L' :
  coord_wf ext c L → coord_wf ext' c' L' → same_model c c' → coord_same c c'.
Proof.
  intros Hwf Hwf' [Hev Hk]. pose proof (evolved_groups _ _ Hev) as Hg. split; [done|..].
  - destruct (ev_eq _ _ Hev) as (ms & ps & ->). done.
  - apply Forall2_same_length_lookup. split; [by rewrite (evolved_pools _ _ Hev)|].
    intros k p p' Hp Hp'. destruct (Forall2_lookup_lr _ _ _ _ _ _ (ev_config _ _ Hev) Hp Hp') as [_ _ Hh _ _].
    split; [done|]. by apply (cw_pool _ _ _ Hwf' k p').
  - apply Forall2_same_length_lookup. split; [by rewrite (ev_len _ _ Hev)|]. intros i m m' Hm Hm'.
    destruct (cw_at _ _ _ Hwf i) as [x Hx]; [by eapply lookup_lt_Some|].
    destruct (Hk i x Hx) as (y & Hy & Hkind). destruct (manager_at_inv _ _ _ Hx) as (? & _ & ? & ? & _ & _ & ->).
    destruct (manager_at_inv _ _ _ Hy) as (? & _ & ? & ? & _ & _ & ->). simplify_eq. apply (sk_size _ _ Hkind).
Qed.

Lemma same_model_back ext c L c' i m' :
  coord_wf ext c L → same_model c c' → manager_at c' i = Some m' →
  ∃ m, manager_at c i = Some m ∧ same_kind m m'.
Proof.
  intros Hwf [Hev Hk] Hm'. destruct (manager_back c c' i m' Hev (cw_at _ _ _ Hwf) Hm') as [m Hm].
  destruct (Hk i m Hm) as (m'' & ? & ?). simplify_eq. eauto.
Qed.

Lemma prefix_model_same ext c L c' groups :
  coord_wf ext c L → same_model c c' → coord_same c c' → prefix_model c groups → prefix_model c' groups.
Proof.
  intros Hwf Hm Hs [Hw Hin Hout]. pose proof (evolved_groups _ _ (sm_evolved _ _ Hm)) as Hg. split.
  - by eapply hybrid_wf_same.
  - intros i m' g Hm' Hgi. rewrite Hg in Hgi. destruct (same_model_back ext c L c' i m' Hwf Hm Hm') as (m & Hmi & [-> _ -> _]).
    by apply (Hin i m g).
  - intros i m' sg Hm'. destruct (same_model_back ext c L c' i m' Hwf Hm Hm') as (m & Hmi & [-> _ _ _]).
    by apply (Hout i m sg).
Qed.

(** The pools of a single group; its own block size stands for the scheduler's. *)
Lemma coord_wf_sched ext c L n : coord_wf ext c L → coord_wf ext (c <| scheduler_block_size := n |>) L.
Proof. intros [[A B C D] [E F]]. split; split; done. Qed.
Lemma same_model_sched c c' n :
  same_model c c' → same_model (c <| scheduler_block_size := n |>) (c' <| scheduler_block_size := n |>).
Proof.
  intros [[(ms & ps & ->) Hcfg Hlen] Hk]. split; [|exact Hk]. split; [by exists ms, ps|exact Hcfg|exact Hlen].
Qed.

Lemma lookup_model_same ext ext' c L c' L' pcp :
  coord_wf ext c L → coord_wf ext' c' L' → same_model c c' → lookup_model c pcp → lookup_model c' pcp.
Proof.
  intros Hwf Hwf' Hm. pose proof (sm_evolved _ _ Hm) as Hev. unfold lookup_model.
  assert (coordinator_class c' = coordinator_class c) as -> by (by destruct (ev_eq _ _ Hev) as (ms & ps & ->)).
  destruct (coordinator_class c) as [| |partial groups]; [done|..].
  - intros (m & g & Hms & Hgs & Hpg & -> & Hmodel).
    pose proof (cs_managers _ _ (same_model_coord _ _ _ _ _ _ Hwf Hwf' Hm)) as Hall. rewrite Hms in Hall.
    apply Forall2_cons_inv_l in Hall as (m' & rest & Hsz & ->%Forall2_nil_inv_l & Hms').
    exists m', g. rewrite (evolved_groups _ _ Hev), Hsz. split_and!; try done.
    assert (unitary_group c' g = unitary_group c g) as -> by (by destruct (ev_eq _ _ Hev) as (ms & ps & ->)).
    pose proof (coord_wf_sched _ _ _ (block_size m) Hwf) as Hw1. pose proof (same_model_sched _ _ (block_size m) Hm) as Hm1.
    eapply prefix_model_same; [exact Hw1|exact Hm1| |exact Hmodel].
    eapply same_model_coord; [exact Hw1|exact (coord_wf_sched _ _ _ _ Hwf')|exact Hm1].
  - intros [-> Hmodel]. split; [done|]. eapply prefix_model_same; [exact Hwf|exact Hm| |exact Hmodel].
    eapply same_model_coord; [exact Hwf|exact Hwf'|exact Hm].
Qed.

(** The constructor of a hybrid model leaves such a model. *)
Lemma constructed_prefix_model cfg max_model_len in_flight eagle events dcp pcp sched hash mc lookahead c groups :
  get_kv_cache_coordinator cfg max_model_len in_flight eagle events dcp pcp sched hash mc lookahead true = Ok c →
  coordinator_class c = HybridKVCacheCoordinator false groups → supported cfg eagle dcp sched hash →
  prefix_model c groups.
Proof.
  intros Hc Hcls Hsup. pose proof (hybrid_constructed_wf _ _ _ _ _ _ _ _ _ _ _ _ _ Hc Hcls Hsup) as Hwf.
  destruct (hybrid_constructed _ _ _ _ _ _ _ _ _ _ _ _ _ _ Hc Hcls) as (c0 & Hok & _ & -> & _ & _ & Hgs & _).
  pose proof (split_ok_permutation _ _ _ _ (symmetry (full_first_permutation (split_groups c0))) (split_groups_ok c0)) as Hsplit.
  destruct (coordinator_constructed _ _ _ _ _ _ _ _ _ _ _ _ _ Hc) as (Hg & _ & _ & _ & Hms).
  assert (∀ i m, manager_at c i = Some m → ∃ g, config_groups cfg !! i = Some g ∧
    manager_class m = spec_class (kv_cache_spec g) ∧ st_enable_caching m = true) as Hat.
  { intros i m (m0 & _ & p & Hm0 & _ & _ & ->)%manager_at_inv.
    destruct (Hms i m0 Hm0) as (g & Hgi & _ & [Hcl _ Hca _ _ _ _]). exists g. split_and!; [done|exact Hcl|exact Hca]. }
  split; [done|..].
  - intros i m g Hm Hgi Hsh. destruct (Hat i m Hm) as (g' & Hg' & Hcl & Hca). rewrite Hg in Hgi. simplify_eq.
    split; [done|]. destruct (so_cover _ _ _ Hsplit i g) as (sg & Hsg & Hi).
    { apply elem_of_lookup_imap. exists i, g. by rewrite (bo_groups _ _ _ _ _ _ _ _ _ Hok). }
    { rewrite Hcl in Hsh. unfold participates_in_prefix_caching. by destruct (spec_class _). }
    exists sg. destruct (constructed_member _ _ _ _ _ _ _ c0 sg i Hok Hsg Hi) as (g' & _ & Hg'' & _ & _ & [Hk1 Hk2] & _).
    simplify_eq. split_and!; try done. by rewrite Hk1, Hcl.
  - intros i m sg Hm Hsh Hsg Hi. destruct (Hat i m Hm) as (g & Hgi & Hcl & _).
    destruct (hw_groups _ _ Hwf sg Hsg) as [_ _ _ _ _ Hcs].
    destruct (constructed_member _ _ _ _ _ _ _ c0 sg i Hok Hsg Hi) as (g' & _ & Hg'' & _ & _ & [Hk1 _] & _).
    simplify_eq. rewrite Hk1, <-Hcl in Hcs. by destruct (manager_class m).
Qed.

(** ** The hybrid model of CoordInit.v *)

Lemma demo_coordinator_wf : coord_wf (λ _ _, 0) demo_coordinator (λ _, seq 1 8) ∧ idle demo_coordinator.
Proof.
  destruct demo_coordinator_new as [Hnew _].
  destruct (constructed_coord_wf _ _ _ _ _ _ _ _ _ _ _ _ _ Hnew) as [Hwf Hid];
    [apply Forall_forall; repeat constructor; vm_compute; done|].
  split; [exact Hwf|exact Hid].
Qed.

Lemma demo_model : prefix_model demo_coordinator demo_groups.
Proof.
  destruct demo_coordinator_new as [Hnew Hcls]. exact (constructed_prefix_model _ _ _ _ _ _ _ _ _ _ _ _ _ Hnew Hcls demo_supported).
Qed.

Lemma fmap_pools_only c f :
  (∀ p, p ∈ block_pools c → same_config p (f p)) → only_pools c (c <| block_pools ::= fmap f |>).
Proof.
  intros Hf. split; [|done]. split; [|simpl|done].
  - exists (single_type_managers c), (f <$> block_pools c). by destruct c.
  - apply Forall2_fmap_r, Forall_Forall2_diag, Forall_forall. exact Hf.
Qed.

Lemma hybrid_filled_model : lookup_model hybrid_filled 1.
Proof.
  assert (only_pools demo_coordinator hybrid_filled) as Hop.
  { apply fmap_pools_only. intros p Hp. apply (as_config _ _ (proj2 (fill_pool_ok p Hp))). }
  eapply (lookup_model_same (λ _ _, 0) (λ _ _, 0) demo_coordinator _ hybrid_filled);
    [exact (proj1 demo_coordinator_wf)|exact (proj1 hybrid_filled_coord_wf)|exact (only_pools_model _ _ Hop)|].
  unfold lookup_model. rewrite (proj2 demo_coordinator_new). split; [reflexivity|exact demo_model].
Qed.
