(* ===== verification/Prefill.v ===== *)
(** * From the prefix lookup to the slots

    [get_computed_blocks] followed by [allocate_slots], as the scheduler calls them for a
    request that starts: the hits are blocks that the allocation can take over, and the tables
    end up with blocks that are cached under the hashes of the request. *)

From S2P Require Import Prelude FreeQueue Request Hashing BlockPool PoolSpecs PoolTheorems.
From S2P Require Import SingleType SingleSpecs SingleTheorems Uncached CacheSpecs CacheHit Coordinator CoordLookup CoordInit.
From S2P Require Import CoordSpecs CoordAlloc CoordRelease CoordCache Manager Handover Pools Slots PrefixModel.

(** ** Events for reused blocks *)

Lemma log_only_refl p : log_only p p.
Proof. by split. Qed.
Lemma log_only_trans p1 p2 p3 : log_only p1 p2 → log_only p2 p3 → log_only p1 p3.
Proof. intros [] []. split; by etrans. Qed.

Section reuse.
Context `{SetIter}.
Variable use_int : bool.
Variable sha256 : list (list Z) → bytes.
Variable ext : nat → nat → Z.

Lemma emit_reused_spec c L r blocks :
  coord_wf ext c L → memo_ok sha256 r → mm_sorted (mm_features r) →
  (∀ i bl g, blocks !! i = Some bl → kv_cache_groups c !! i = Some g → 0 < len bl →
     ∃ p x, block_pools c !! pool_id g = Some p ∧ 0 < hash_block_size p ∧ 0 < x ∧
       spec_block_size (kv_cache_spec g) = x * hash_block_size p ∧ len bl ≤ len (block_hashes r) // x) →
  wp (emit_reused_blocks use_int sha256 r blocks) (λ r' c', remembers sha256 r r' ∧ coord_wf ext c' L ∧
    only_pools c c' ∧ Forall2 log_only (block_pools c) (block_pools c')) c.
Proof.
  intros Hwf Hmemo Hmm Hok. unfold emit_reused_blocks. apply wp_bind, wp_gets.
  apply (wp_for_acc (λ _ r1 c1, remembers sha256 r r1 ∧ coord_wf ext c1 L ∧ only_pools c c1 ∧
    Forall2 log_only (block_pools c) (block_pools c1))).
  - split_and!; [by apply remembers_refl|done|done|]. by apply Forall_Forall2_diag, Forall_forall.
  - intros pre [bl [i g]] post r1 c1 Heq (Hr1 & Hwf1 & Hop1 & Hlog1).
    assert (blocks !! i = Some bl ∧ kv_cache_groups c !! i = Some g) as [Hbl Hg].
    { assert (zip blocks (imap pair (kv_cache_groups c)) !! length pre = Some (bl, (i, g))) as Hi
        by (by rewrite Heq, lookup_app_r, Nat.sub_diag).
      apply lookup_zip_with_Some in Hi as (x & y & [= <- <-] & Hx & Hy).
      rewrite list_lookup_imap in Hy. apply fmap_Some in Hy as (g' & Hg' & [= -> ->]). done. }
    case_decide as Hpos; [|by apply wp_ret].
    destruct (Hok i bl g Hbl Hg) as (p & x & Hp & Hh & Hx & Hs & Hlen); [lia|].
    destruct (Forall2_lookup_l _ _ _ _ _ Hlog1 Hp) as (p1 & Hp1 & [Ha Hc]).
    pose proof (as_config _ _ Ha) as Hcfg. destruct (cw_pool _ _ _ Hwf1 _ p1 Hp1) as [_ Hcw].
    destruct Hr1 as [[memo ->] Hm1].
    rewrite Hs, <-(cfg_hbs _ _ Hcfg). eapply wp_mono.
    { apply (on_pool_dropped ext c1 L _ p1 _ (λ r' p', log_only p1 p' ∧ remembers sha256 r r') Hwf1 Hp1).
      eapply wp_mono; [apply (emit_cached_events_spec use_int sha256 p1)|].
      - by rewrite (cfg_hbs _ _ Hcfg).
      - done.
      - split; [lia|exact Hlen].
      - done.
      - done.
      - intros r2 p2 [[Ha2 Hc2] Hr2]. split_and!; [done|by eapply cache_wf_same|..].
        + intros b. left. by rewrite (cs_hash _ _ Hc2), (cs_tokens _ _ Hc2).
        + by split.
        + destruct Hr2 as [[memo2 ->] Hm2]. split; [by exists memo2|done]. }
    intros r2 c2 (Hwf2 & Hop2 & p2 & -> & Hlog2 & Hr2). split_and!; [done|done|by etrans|].
    rewrite <-(list_insert_id (block_pools c) (pool_id g) p) at 1 by done. simpl.
    apply Forall2_insert; [done|]. eapply log_only_trans; [|exact Hlog2]. by split.
Qed.

(** Logging leaves the hits. *)
Lemma result_logged c c' hashes h i m' :
  only_pools c c' → Forall2 log_only (block_pools c) (block_pools c') → manager_at c' i = Some m' →
  ∃ m, manager_at c i = Some m ∧ ∀ bl, manager_result hashes i m h bl → manager_result hashes i m' h bl.
Proof.
  intros [Hev Htab] Hlog (m0 & g & p' & Hm0 & Hg & Hp' & ->)%manager_at_inv.
  rewrite Htab in Hm0. rewrite (evolved_groups _ _ Hev) in Hg.
  destruct (Forall2_lookup_r _ _ _ _ _ Hlog Hp') as (p & Hp & [Ha Hc]).
  exists (m0 <| block_pool := p |>). split; [by apply (manager_at_intro c i m0 g)|].
  intros bl. unfold manager_result. simpl. destruct (shares_prefix (manager_class m0)); [|done].
  intros [Hlen Hmod Hca Hseen Hcached]. simpl in *.
  assert (∀ b x, holds_key p b (key_at hashes (m0 <| block_pool := p |>) i x) →
    holds_key p' b (key_at hashes (m0 <| block_pool := p' |>) i x)) as Hkey.
  { intros b x. rewrite (holds_key_same _ _ _ _ Hc). unfold key_at. simpl. by rewrite (cfg_hbs _ _ (cs_config _ _ Hc)). }
  split; [exact Hlen|exact Hmod|exact Hca|..]; simpl.
  - intros t Ht Hatt. destruct (Hseen t Ht Hatt) as (b & ? & ?). eauto.
  - intros j b Hj. destruct (Hcached j b Hj); eauto.
Qed.

(** What the lookup relies on. *)
Record lookup_request (k : KVCacheManager) (request : Request) : Prop := {
  lc_tokens : 1 ≤ num_tokens request;
  lc_hashes : (num_tokens request - 1) // coord_hash_block_size (coordinator k) ≤ len (block_hashes request);
  (* the events of reused blocks count in units of the spec's block size *)
  lc_report : mgr_enable_kv_cache_events k = true → kv_cache_report_mode request = Some "full"%string →
    0 < coord_hash_block_size (coordinator k) ∧ memo_ok sha256 request ∧ mm_sorted (mm_features request) ∧
    ∀ i m g, manager_at (coordinator k) i = Some m → kv_cache_groups (coordinator k) !! i = Some g →
      hash_block_size (block_pool m) = coord_hash_block_size (coordinator k) ∧
      spec_block_size (kv_cache_spec g) ≤ block_size m ∧
      ∃ x, 0 < x ∧ spec_block_size (kv_cache_spec g) = x * hash_block_size (block_pool m)
}.
Definition lookup_call (k : KVCacheManager) (request : Request) : Prop :=
  lookup_model (coordinator k) (mgr_pcp_world_size k) ∧ lookup_request k request.

(** The blocks that come back are those of the lookup. *)
Record looked_up (request : Request) (c' : KVCacheCoordinator) (blocks : list (list nat)) (h : Z) : Prop := {
  lu_length : 0 ≤ h ≤ num_tokens request - 1;
  lu_hits i m : manager_at c' i = Some m →
    ∃ bl, blocks !! i = Some bl ∧ manager_result (block_hashes request) i m h bl
}.

Lemma num_reported h max bsz spec hbs x n :
  0 ≤ h ≤ max → 0 < hbs → 0 < x → spec = x * hbs → spec ≤ bsz → max // hbs ≤ n → h // bsz ≤ n // x.
Proof.
  intros Hh Hhbs Hx -> Hle Hn. transitivity (h // (x * hbs)).
  - apply Z.div_le_compat_l; nia.
  - rewrite (Z.mul_comm x), <-Z.div_div by lia. apply Z.div_le_mono; [lia|]. etrans; [|exact Hn]. apply Z.div_le_mono; lia.
Qed.

Lemma get_computed_blocks_spec k L request :
  coord_wf ext (coordinator k) L → (prefix_cache_lookup_enabled k request = true → lookup_call k request) →
  1 ≤ num_tokens request →
  wp (get_computed_blocks use_int sha256 request) (λ res k', ∃ blocks h boundary request',
    res = (create_kv_cache_blocks blocks, h, boundary, request') ∧ same_request sha256 request request' ∧
    k' = k <| coordinator := coordinator k' |> ∧ coord_wf ext (coordinator k') L ∧
    only_pools (coordinator k) (coordinator k') ∧
    Forall2 log_only (block_pools (coordinator k)) (block_pools (coordinator k')) ∧
    looked_up request (coordinator k') blocks h) k.
Proof.
  intros Hwf Hcall Htok. unfold get_computed_blocks. apply wp_bind, wp_gets.
  assert (Forall2 log_only (block_pools (coordinator k)) (block_pools (coordinator k)))
    by (by apply Forall_Forall2_diag, Forall_forall).
  destruct (prefix_cache_lookup_enabled k request) eqn:Hen; cbn [negb].
  2:{ apply wp_ret. eexists (replicate (num_kv_cache_groups k) []), 0, 0, request. split_and!; [|by left|by destruct k|done|done|done|].
      - unfold create_kv_cache_blocks. destruct (existsb _ _) eqn:He; [|done]. apply existsb_exists in He as (bs & Hin & Hb).
        apply list_elem_of_In, elem_of_replicate in Hin as [-> _]. done.
      - split; [lia|]. intros i m Hm. exists []. split; [|apply no_hit]. apply lookup_replicate_2.
        destruct (manager_at_inv _ _ _ Hm) as (_ & g & _ & _ & Hg%lookup_lt_Some & _). done. }
  destruct (Hcall eq_refl) as [Hmodel [_ Hlen Hrep]]. cbv zeta.
  destruct (coord_lookup (coordinator k) (mgr_pcp_world_size k) (block_hashes request) (num_tokens request - 1))
    as (blocks & h & extra & Hrun & Hh & Hat); [done|lia|done|].
  apply wp_bind. eapply wp_lift; [exact Hrun|]. cbv beta iota zeta. apply wp_bind. case_decide as Hd.
  - destruct Hd as (_ & Hev & Hfull). destruct (Hrep Hev Hfull) as (Hpos & Hmemo & Hmm & Hsz). apply wp_on_coordinator.
    eapply wp_mono; [apply (emit_reused_spec (coordinator k) L request blocks); [done|done|done|]|].
    + intros i bl g Hbl Hg Hne.
      destruct (cw_at _ _ _ Hwf i) as [m Hm]; [rewrite (cw_len _ _ _ Hwf); by eapply lookup_lt_Some|].
      destruct (Hsz i m g Hm Hg) as (Hhb & Hle & x & Hx & Hs).
      destruct (manager_at_inv _ _ _ Hm) as (m0 & g' & p & _ & Hg' & Hp & Heq). simplify_eq.
      exists p, x. simpl in *. rewrite Hhb. split_and!; [done|done|done|by rewrite <-Hhb|].
      destruct (Hat i _ Hm) as (bl' & Hbl' & Hres). simplify_eq. unfold manager_result in Hres. simpl in Hres.
      destruct (shares_prefix _); [|by subst]. rewrite (mh_len _ _ _ _ _ Hres). simpl. rewrite Hhb in Hs.
      by apply (num_reported h (num_tokens request - 1) _ (spec_block_size (kv_cache_spec g))
        (coord_hash_block_size (coordinator k))).
    + intros r' c' (Hr' & Hwf' & Hop & Hlog). apply wp_ret. eexists blocks, h, _, r'.
      split_and!; [done|by right|done|done|done|done|]. split; [done|]. intros i m' Hm'.
      destruct (result_logged _ c' (block_hashes request) h i m' Hop Hlog Hm') as (m & Hm & Himp).
      destruct (Hat i m Hm) as (bl & Hbl & Hres). eauto.
  - apply wp_ret, wp_ret. eexists blocks, h, _, request. split_and!; [done|by left|by destruct k|done|done|done|by split].
Qed.

(** ** The hits can be taken over *)

(** No block that a request still fills has a hash.  A block can get a hash early when it is
    larger than the unit of hashing. *)
Definition filled_unhashed (c : KVCacheCoordinator) : Prop :=
  ∀ i m rid j b, manager_at c i = Some m → uncached m rid j b → _block_hash (blk (block_pool m) b) = None.

Lemma filled_unhashed_uniform c :
  coord_private c →
  (∀ i m, manager_at c i = Some m → enable_caching (block_pool m) = true ∧ block_size m = hash_block_size (block_pool m)) →
  filled_unhashed c.
Proof.
  intros Hp Hsz i m rid j b Hm Hu. destruct (Hsz i m Hm) as [Hc Hs].
  by apply (uo_fresh _ (cp_ok _ Hp i m Hm) rid j b Hu Hc).
Qed.

Lemma filled_unhashed_logged c c' :
  filled_unhashed c → only_pools c c' → Forall2 log_only (block_pools c) (block_pools c') → filled_unhashed c'.
Proof.
  intros Hf [Hev Htab] Hlog i m' rid j b Hm' Hu. pose proof Hm' as (m0 & g & p' & Hm0 & Hg & Hp' & ->)%manager_at_inv.
  rewrite Htab in Hm0. rewrite (evolved_groups _ _ Hev) in Hg.
  destruct (Forall2_lookup_r _ _ _ _ _ Hlog Hp') as (p & Hp & [_ Hc]). simpl. rewrite (cs_hash _ _ Hc).
  by apply (Hf i _ rid j b (manager_at_intro c i m0 g p Hm0 Hg Hp)).
Qed.

Lemma holds_hashed p b key : cache_wf p → holds_key p b key → _block_hash (blk p b) ≠ None.
Proof. intros Hc [Hh|(X & HX & _)] Hn; [congruence|]. destruct (wf_unhashed p Hc b Hn). congruence. Qed.

(** The hits of the lookup. *)
Lemma result_hits_ok o m l hashes gid h bl :
  st_wf o m l → 0 ≤ h →
  manager_result hashes gid m h bl → hits_ok m bl h.
Proof.
  intros Hwf Hh. unfold manager_result. destruct (shares_prefix (manager_class m)) eqn:Hsh.
  - intros [Hlen Hmod Hca Hseen Hcached]. split; try done.
    + intros b [j Hj]%list_elem_of_lookup. destruct (Hcached j b Hj) as [->|Hk].
      * pose proof (wf_num _ _ (sw_alloc _ _ _ Hwf)). unfold null_block. lia.
      * apply (wf_hashed _ (sw_cache _ _ _ Hwf)). eapply holds_hashed; [apply Hwf|done].
    + intros Hf. destruct Hca; [done|congruence].
    + congruence.
  - intros ->. split; try done. intros b ?%elem_of_nil. done.
Qed.

Lemma result_blocks k request c' blocks h i m :
  looked_up request c' blocks h → manager_at c' i = Some m → (i < num_kv_cache_groups k)%nat →
  ∃ bl, blocks_of k (create_kv_cache_blocks blocks) !! i = Some bl ∧ manager_result (block_hashes request) i m h bl ∧
    (create_kv_cache_blocks blocks = EmptyBlocks → bl = []).
Proof.
  intros [_ Hat] Hm Hi. destruct (Hat i m Hm) as (bl & Hbl & Hres). exists bl. unfold create_kv_cache_blocks.
  destruct (existsb _ blocks) eqn:He; [done|]. assert (bl = []) as ->.
  { destruct (decide (bl = [])) as [?|Hne]; [done|].
    assert (existsb (λ bs : list nat, bool_decide (bs ≠ [])) blocks = true) as Ht; [|congruence].
    apply existsb_exists. exists bl. split; [by eapply list_elem_of_In, list_elem_of_lookup_2|by apply bool_decide_eq_true]. }
  split; [|done]. by apply lookup_replicate_2.
Qed.
End reuse.

(** ** A request starts *)

Section start.
Context `{SetIter}.
Variable use_int : bool.
Variable sha256 : list (list Z) → bytes.
Variable ext : nat → nat → Z.
Hypothesis ext_nonneg : ∀ k j, 0 ≤ ext k j.
Variable request : Request.
(** The number of tokens to schedule after a hit. *)
Variable new_tokens : Z → Z.
Variables (num_lookahead_tokens external : Z) (delay_cache_blocks : bool) (enc : Z) (must_fit : bool).
Variables (reserved : Z) (has_scheduled_reqs : bool).
Abbreviation rid := (request_id request).

(** The lookup and the allocation, with what the scheduler passes from one to the other. *)
Definition start_request : K (option KVCacheBlocks * Request * Z) :=
  '(blocks, n, boundary, request) ← get_computed_blocks use_int sha256 request;
  '(res, request) ← allocate_slots use_int sha256 (request <| shared_prefix_boundary := boundary |>) (new_tokens n) n
    (Some blocks) num_lookahead_tokens external delay_cache_blocks enc must_fit reserved has_scheduled_reqs;
  mret (res, request, n).

Record start_call (k : KVCacheManager) : Prop := {
  sa_tokens : 1 ≤ num_tokens request;
  sa_computed : num_computed_tokens request = 0;
  sa_new i m : manager_at (coordinator k) i = Some m → new_to rid m;
  sa_filled : filled_unhashed (coordinator k);
  sa_lookup : prefix_cache_lookup_enabled k request = true → lookup_call sha256 k request;
  sa_new_tokens h : 0 ≤ h < num_tokens request →
    0 ≤ new_tokens h ∧ (new_tokens h ≠ 0 ∨ external ≠ 0) ∧ h + external + new_tokens h ≤ max_model_len k;
  sa_external : 0 ≤ external;
  sa_lookahead : 0 ≤ num_lookahead_tokens;
  sa_reserved : 0 ≤ reserved;
  sa_watermark : 0 ≤ watermark_blocks k;
  sa_prompt : 0 ≤ num_prompt_tokens request;
  sa_pools : block_pools (coordinator k) ≠ [];
  sa_cacheable : mgr_enable_caching k = true → delay_cache_blocks = false → slots_cacheable sha256 request (coordinator k)
}.

(** The managers after the lookup. *)
Lemma only_pools_manager c c' i m' :
  only_pools c c' → manager_at c' i = Some m' →
  ∃ m, manager_at c i = Some m ∧ m' = m <| block_pool := block_pool m' |> ∧ same_config (block_pool m) (block_pool m').
Proof.
  intros [Hev Htab] (m0 & g & p' & Hm0 & Hg & Hp' & ->)%manager_at_inv.
  rewrite Htab in Hm0. rewrite (evolved_groups _ _ Hev) in Hg.
  destruct (Forall2_lookup_r _ _ _ _ _ (ev_config _ _ Hev) Hp') as (p & Hp & Hcfg).
  exists (m0 <| block_pool := p |>). split; [by apply (manager_at_intro c i m0 g)|done].
Qed.

Lemma slots_cacheable_looked_up c c' r' boundary :
  slots_cacheable sha256 request c → only_pools c c' → same_request sha256 request r' →
  slots_cacheable sha256 (r' <| shared_prefix_boundary := boundary |>) c'.
Proof.
  intros [A B C D E F] Hop Hr. destruct (same_request_facts sha256 _ _ Hr) as (_ & Hbh & Hpt & Hmm & Hnt & Hmemo).
  destruct (ev_eq _ _ (op_evolved _ _ Hop)) as (ms & ps & Heq).
  set (r2 := r' <| shared_prefix_boundary := boundary |>).
  assert (block_hashes r2 = block_hashes request ∧ num_prompt_tokens r2 = num_prompt_tokens request ∧
    mm_features r2 = mm_features request ∧ num_tokens r2 = num_tokens request ∧
    (memo_ok sha256 request → memo_ok sha256 r2)) as (Ebh & Ept & Emm & Ent & Ememo)
    by (split_and!; [exact Hbh|exact Hpt|exact Hmm|exact Hnt|exact Hmemo]).
  clearbody r2. clear Hbh Hpt Hmm Hnt Hmemo.
  assert (∀ i m', manager_at c' i = Some m' → ∃ m, manager_at c i = Some m ∧ m' = m <| block_pool := block_pool m' |> ∧
    same_config (block_pool m) (block_pool m')) as Hback by (intros; by apply (only_pools_manager c c')).
  split; rewrite ?Ept, ?Ebh, ?Emm, ?Ent.
  - by rewrite Heq.
  - by rewrite Heq.
  - done.
  - intros i m' Hm1. destruct (Hback i m' Hm1) as (m & Hm & Heqm & Hcfg). pose proof (D i m Hm) as HD.
    rewrite Heqm. simpl. rewrite (cfg_caching _ _ Hcfg), (cfg_hbs _ _ Hcfg). exact HD.
  - intros i m' Hm1. destruct (Hback i m' Hm1) as (m & Hm & _ & Hcfg). rewrite (cfg_hbs _ _ Hcfg). by apply (E i).
  - intros i m' Hm1. destruct (Hback i m' Hm1) as (m & Hm & _ & Hcfg). rewrite (cfg_events _ _ Hcfg).
    intros He. destruct (F i m Hm He). auto.
Qed.

Section after_lookup.
Variables (k : KVCacheManager) (L : nat → list nat) (c' : KVCacheCoordinator) (blocks : list (list nat)).
Variables (h boundary : Z) (r' : Request).
Hypothesis call : start_call k.
Hypothesis wf' : coord_wf ext c' L.
Hypothesis only : only_pools (coordinator k) c'.
Hypothesis logged : Forall2 log_only (block_pools (coordinator k)) (block_pools c').
Hypothesis found : looked_up request c' blocks h.
Hypothesis same : same_request sha256 request r'.
Abbreviation k' := (k <| coordinator := c' |>).
Abbreviation r2 := (r' <| shared_prefix_boundary := boundary |>).

Lemma after_request : request_id r2 = rid ∧ num_computed_tokens r2 = 0 ∧ num_prompt_tokens r2 = num_prompt_tokens request ∧
  num_tokens r2 = num_tokens request ∧ block_hashes r2 = block_hashes request.
Proof.
  pose proof (sa_computed _ call) as Hc. destruct same as [-> |[[memo ->] _]]; [by split_and!|].
  by split_and!.
Qed.

Lemma after_manager i m : manager_at c' i = Some m →
  new_to rid m ∧ (i < num_kv_cache_groups k')%nat ∧ ∃ g, kv_cache_groups c' !! i = Some g ∧
    st_wf (others ext c' i) m (L (pool_id g)).
Proof.
  intros Hm. destruct (only_pools_manager _ c' i m only Hm) as (m0 & Hm0 & Heq & _).
  split; [rewrite Heq; by apply (sa_new _ call i m0 Hm0)|].
  destruct (manager_at_inv _ _ _ Hm) as (_ & g & _ & _ & Hg & _). split; [by eapply lookup_lt_Some|].
  exists g. split; [done|]. by apply (cw_wf _ _ _ wf' i _ g Hm).
Qed.

(** A block of the hit is not one that is still being filled. *)
Lemma hit_filled i i' m m' g g' bl rid' j b :
  manager_at c' i = Some m → kv_cache_groups c' !! i = Some g → manager_result (block_hashes request) i m h bl →
  b ∈ bl → manager_at c' i' = Some m' → kv_cache_groups c' !! i' = Some g' → pool_id g = pool_id g' →
  ¬ uncached m' rid' j b.
Proof.
  intros Hm Hg Hres Hb Hm' Hg' Hpool Hu.
  pose proof (filled_unhashed_logged _ c' (sa_filled _ call) only logged i' m' rid' j b Hm' Hu) as Hnone.
  assert (block_pool m = block_pool m') as Hbp.
  { destruct (manager_at_inv _ _ _ Hm) as (? & g1 & p & _ & Hg1 & Hp & ->).
    destruct (manager_at_inv _ _ _ Hm') as (? & g2 & p' & _ & Hg2 & Hp' & ->). simpl. congruence. }
  unfold manager_result in Hres. destruct (shares_prefix (manager_class m)); [|subst; by apply elem_of_nil in Hb].
  apply list_elem_of_lookup in Hb as [j' Hj']. destruct (mh_cached _ _ _ _ _ Hres j' b Hj') as [->|Hk].
  - by destruct Hu as [(_ & ? & _) _].
  - rewrite Hbp in Hk. eapply holds_hashed; [|exact Hk|exact Hnone].
    destruct (manager_at_inv _ _ _ Hm') as (? & g2 & p' & _ & Hg2 & Hp' & ->). exact (proj2 (cw_pool _ _ _ wf' _ p' Hp')).
Qed.

Lemma whole_hits_sub m n bl x b : b ∈ whole_hits m n bl x → b ∈ bl.
Proof.
  unfold whole_hits. case_decide.
  - intros Hb. apply list_elem_of_lookup in Hb as [j Hj]. apply lookup_take_Some in Hj as [Hj _].
    rewrite lookup_drop in Hj. by eapply list_elem_of_lookup_2.
  - intros Hb. apply list_elem_of_lookup in Hb as [j Hj]. rewrite lookup_drop in Hj. by eapply list_elem_of_lookup_2.
Qed.

Lemma start_slots_request : slots_request r2 h (Some (create_kv_cache_blocks blocks)) external k' c'.
Proof.
  destruct after_request as (Hid & Hc & _). pose proof (lu_length _ _ _ _ found) as Hh.
  pose proof (sa_external _ call) as Hext. unfold slots_request. rewrite Hid, Hc, Z.add_0_l.
  change (default EmptyBlocks (Some (create_kv_cache_blocks blocks))) with (create_kv_cache_blocks blocks).
  case_decide as Hst.
  - split.
    + intros i m Hm. destruct (after_manager i m Hm) as (Hnew & Hi & g & Hg & Hst').
      destruct (result_blocks k' request c' blocks h i m found Hm Hi) as (bl & Hbl & Hres & _).
      exists bl. split; [done|]. split; [done|]. eapply result_hits_ok; [exact Hst'|lia|exact Hres].
    + intros i g i' m' g' rid' j b Hg Hb Hm' Hg' Hpool. unfold taken_over, at_manager in Hb.
      destruct (manager_at c' i) as [m|] eqn:Hm; [|by apply elem_of_nil in Hb].
      apply whole_hits_sub in Hb. destruct (after_manager i m Hm) as (_ & Hi & _).
      destruct (result_blocks k' request c' blocks h i m found Hm Hi) as (bl & Hbl & Hres & _).
      rewrite Hbl in Hb. by eapply (hit_filled i i' m m' g g' bl).
  - intros i m Hm. destruct (after_manager i m Hm) as ((Htab & Hcd & Hpt) & Hi & g & Hg & Hst').
    split; [done|]. intros Hsh. right. rewrite Htab.
    destruct (result_blocks k' request c' blocks h i m found Hm Hi) as (bl & _ & Hres & Hnil).
    assert (create_kv_cache_blocks blocks = EmptyBlocks) as He by (destruct (create_kv_cache_blocks blocks); naive_solver).
    rewrite (Hnil He) in Hres. unfold manager_result in Hres. rewrite Hsh in Hres.
    destruct Hres as [Hlen Hmod _ _ _]. pose proof (sw_size _ _ _ Hst') as Hb.
    assert (h = 0) as -> by (pose proof (Z.div_mod h (block_size m) ltac:(lia)); unfold len in Hlen; simpl in Hlen; nia).
    assert (external = 0) as -> by (destruct (decide (external > 0)); naive_solver lia).
    unfold skip_of. pose proof (skipped_bounds (manager_class m) 0 (sw_class _ _ _ Hst') ltac:(lia)).
    change (0 + 0) with 0. replace (get_num_skipped_tokens (manager_class m) 0) with 0 by lia. by rewrite Zdiv_0_l.
Qed.

Lemma start_slots_call :
  slots_call sha256 r2 (new_tokens h) h (Some (create_kv_cache_blocks blocks)) num_lookahead_tokens external
    delay_cache_blocks reserved k'.
Proof.
  destruct after_request as (Hid & Hc & Hpt & Hnt & Hbh). pose proof (lu_length _ _ _ _ found) as Hh.
  pose proof start_slots_request as Hreq.
  destruct (sa_new_tokens _ call h ltac:(lia)) as (Hn & Hsome & Hfit).
  split; rewrite ?Hc, ?Hpt; try done; try (by destruct call); try lia.
  - simpl. intros Hnil. apply (sa_pools _ call). apply nil_length_inv.
    by rewrite (Forall2_length _ _ _ logged), Hnil.
  - intros Hca Hd. eapply slots_cacheable_looked_up; [by apply (sa_cacheable _ call)|done|done].
Qed.

(** What a query from the first new token on sees of the hit is in the table. *)
Lemma hit_in_table i m m' bl :
  manager_at c' i = Some m → shares_prefix (manager_class m) = true → manager_hit (block_hashes request) i m h bl →
  blocks_of k' (create_kv_cache_blocks blocks) !! i = Some bl →
  granted r2 (new_tokens h) h (Some (create_kv_cache_blocks blocks)) num_lookahead_tokens external enc k' i m m' →
  ∃ bs, req_to_blocks m' !! rid = Some bs ∧
    required_blocks m (tokens_of (Z.min (h + external + new_tokens h + num_lookahead_tokens) (max_model_len k)) enc m) ≤
      len bs ∧
    ∀ q t, h + external ≤ q → 0 ≤ t < h → attends (manager_class m) None q t = true →
      ∃ b, bs !! Z.to_nat (t // block_size m) = Some b ∧
        holds_key (block_pool m) b (key_at (block_hashes request) m i (t // block_size m)).
Proof.
  intros Hm Hsh Hhit Hbl [_ (bs & Hbs & Hlen & Hst) _]. destruct after_request as (Hid & Hc & _).
  pose proof (lu_length _ _ _ _ found) as Hh. pose proof (sa_external _ call) as Hext.
  unfold need_slot in Hlen. rewrite Hid in Hbs. rewrite Hc, Z.add_0_l in *. exists bs. split; [done|]. split; [exact Hlen|].
  intros q t Hq Ht Hatt. destruct (after_manager i m Hm) as (_ & _ & g & _ & Hwf).
  pose proof (sw_size _ _ _ Hwf) as Hb. pose proof (sw_class _ _ _ Hwf) as Hcl.
  destruct (mh_seen _ _ _ _ _ Hhit t Ht) as (b & Hj & Hkey).
  { revert Hatt. unfold attends, causal_mask_mod, sliding_window_mask_mod.
    destruct (manager_class m) as [|w|w e|ch| | |]; try done; rewrite ?andb_true_iff, !bool_decide_eq_true; [lia|lia|lia|].
    intros [_ Hch]. split; [lia|]. pose proof (Z.div_le_mono t h ch Hcl ltac:(lia)).
    pose proof (Z.div_le_mono h q ch Hcl ltac:(lia)). lia. }
  exists b. split; [|done].
  assert (skip_of h external m ≤ t // block_size m) as Hskip.
  { pose proof (dropped_invisible m (h + external) None q t Hb Hcl ltac:(lia) ltac:(lia) ltac:(done) Hatt) as Hno.
    pose proof (Z.div_pos t (block_size m) ltac:(lia) Hb). unfold dropped_range, skip_of in *.
    destruct (manager_class m); cbn [fst snd] in Hno; lia. }
  assert (0 ≤ skip_of h external m).
  { unfold skip_of. apply Z.div_pos; [|done]. apply skipped_bounds; [done|lia]. }
  change (default EmptyBlocks (Some (create_kv_cache_blocks blocks))) with (create_kv_cache_blocks blocks) in Hst.
  rewrite decide_True in Hst; [|left; intros He; rewrite He in Hbl; simpl in Hbl; apply lookup_replicate in Hbl as [-> _]; done].
  apply Hst; rewrite Hbl; simpl.
  - unfold hit_table. rewrite Hsh, lookup_app_r; rewrite length_replicate; [|lia].
    rewrite lookup_drop. rewrite <-Hj. f_equal. lia.
  - unfold is_redirected. rewrite Hsh. simpl. rewrite bool_decide_eq_true, (mh_mod _ _ _ _ _ Hhit). by intros [_ ?].
Qed.
End after_lookup.

Lemma bind_Ok {S A B} (x : M S A) (f : A → M S B) s a s' r :
  x s = Ok (a, s') → f a s' = r → (x ≫= f) s = r.
Proof. intros Hx <-. unfold mbind, M_bind. by rewrite Hx. Qed.

Lemma only_pools_forward c c' i m :
  only_pools c c' → Forall2 log_only (block_pools c) (block_pools c') → manager_at c i = Some m →
  ∃ p', manager_at c' i = Some (m <| block_pool := p' |>) ∧ log_only (block_pool m) p'.
Proof.
  intros [Hev Htab] Hlog (m0 & g & p & Hm0 & Hg & Hp & ->)%manager_at_inv.
  destruct (Forall2_lookup_l _ _ _ _ _ Hlog Hp) as (p' & Hp' & Hl). exists p'. split; [|done].
  apply (manager_at_intro c' i m0 g); [by rewrite Htab|by rewrite (evolved_groups _ _ Hev)|done].
Qed.

(** C5: A request that starts is served from the prefix cache correctly.  The lookup followed
    by the allocation never raises, for all kinds of coordinators and layers.  Whatever the hit
    of [h] tokens, when the request is admitted every layer has a table that is long enough for
    all its tokens, and wherever a query from the first new token on attends to a token of the
    hit, the table has a block that is cached under the request's own hash of that position.
    All reference counts stay exact, no block that is still being filled is shared, and other
    requests keep their tables. *)
Theorem start_request_sound k L :
  coord_wf ext (coordinator k) L → start_call k →
  ∃ res request' h k' L', start_request k = Ok ((res, request', h), k') ∧ coord_wf ext (coordinator k') L' ∧
    0 ≤ h < num_tokens request ∧
    ∀ i m, manager_at (coordinator k) i = Some m →
      ∃ m', manager_at (coordinator k') i = Some m' ∧ same_others rid m m' ∧
      (is_Some res → ∃ bs, req_to_blocks m' !! rid = Some bs ∧
         required_blocks m (tokens_of (Z.min (h + external + new_tokens h + num_lookahead_tokens) (max_model_len k))
           enc m) ≤ len bs ∧
         (shares_prefix (manager_class m) = true → ∀ q t, h + external ≤ q → 0 ≤ t < h →
            attends (manager_class m) None q t = true → ∃ b, bs !! Z.to_nat (t // block_size m) = Some b ∧
              holds_key (block_pool m) b (key_at (block_hashes request) m i (t // block_size m)))).
Proof.
  intros Hwf Hcall.
  destruct (proj1 (wp_run _ _ _) (get_computed_blocks_spec use_int sha256 ext k L request Hwf (sa_lookup _ Hcall) (sa_tokens _ Hcall)))
    as (x & k1 & Hrun1 & blocks & h & boundary & r1 & -> & Hsame & Hk1 & Hwf1 & Hop & Hlog & Hfound).
  set (c1 := coordinator k1) in *. clearbody c1. subst k1. pose proof (lu_length _ _ _ _ Hfound) as Hh.
  destruct (after_request k boundary r1 Hcall Hsame) as (Hid & Hc & _).
  pose proof (start_slots_call k L c1 blocks h boundary r1 Hcall Hwf1 Hop Hlog Hfound Hsame) as Hslots.
  assert (coord_wf ext (coordinator (k <| coordinator := c1 |>)) L) as Hwf1' by (simpl; exact Hwf1).
  destruct (proj1 (wp_run _ _ _) (allocate_slots_spec use_int sha256 ext ext_nonneg
    (r1 <| shared_prefix_boundary := boundary |>) (new_tokens h) h (Some (create_kv_cache_blocks blocks))
    num_lookahead_tokens external delay_cache_blocks enc must_fit reserved has_scheduled_reqs (sa_external _ Hcall) ltac:(rewrite Hc; lia) (k <| coordinator := c1 |>) L Hwf1' Hslots))
    as ([res r2'] & k2 & Hrun2 & L2 & _ & _ & Hev2 & Hwf2 & Hres).
  exists res, r2', h, k2, L2. split.
  { unfold start_request. eapply bind_Ok; [exact Hrun1|]. eapply bind_Ok; [exact Hrun2|done]. }
  split; [done|]. split; [lia|]. intros i m Hm.
  destruct (only_pools_forward _ _ i m Hop Hlog Hm) as (p1 & Hm1 & [Ha Hcs]).
  assert (∀ m', same_others (request_id (r1 <| shared_prefix_boundary := boundary |>)) (m <| block_pool := p1 |>) m' →
    same_others rid m m') as Hothers by (intros m' [? ? ? ? ? ? ?]; rewrite Hid in *; by split).
  cbn [fst] in Hres. destruct res as [new|].
  - destruct Hres as [_ Htab]. destruct (Htab i _ Hm1) as (m2 & Hm2 & Hgr). exists m2. split; [done|].
    split; [by apply Hothers, Hgr|]. intros _. destruct (shares_prefix (manager_class m)) eqn:Hsh.
    + destruct (after_manager k L c1 Hcall Hwf1 Hop i _ Hm1) as (_ & Hi & _).
      destruct (result_blocks (k <| coordinator := c1 |>) request c1 blocks h i _ Hfound Hm1 Hi) as (bl & Hbl & Hhit & _).
      unfold manager_result in Hhit. simpl in Hhit. rewrite Hsh in Hhit.
      destruct (hit_in_table k L c1 blocks h boundary r1 Hcall Hwf1 Hop Hfound Hsame i _ m2 bl Hm1 Hsh Hhit Hbl Hgr)
        as (bs & Hbs & Hlen & Hat). exists bs. split; [done|]. split; [exact Hlen|]. intros _ q t Hq Ht Hatt.
      destruct (Hat q t Hq Ht Hatt) as (b & Hb & Hkey). exists b. split; [done|]. simpl in Hkey.
      rewrite (holds_key_same _ _ _ _ Hcs) in Hkey. unfold key_at in *. simpl in Hkey.
      by rewrite (cfg_hbs _ _ (cs_config _ _ Hcs)) in Hkey.
    + destruct Hgr as [_ (bs & Hbs & Hlen & _) _]. exists bs. rewrite Hid in Hbs. unfold need_slot in Hlen.
      rewrite Hc, Z.add_0_l in Hlen. done.
  - destruct Hres as [_ Htab _]. destruct (Htab i _ Hm1) as (m2 & Hm2 & Hrm). exists m2. split; [done|].
    split; [by apply Hothers, Hrm|]. by intros [? ?].
Qed.
End start.

(** ** The hybrid model serves a request *)

Lemma demo_start_call : start_call (λ _, []) slots_demo_request (λ h, 20 - h) 0 0 false 0 slots_manager.
Proof.
  split.
  - vm_compute. discriminate.
  - reflexivity.
  - intros i m Hm. destruct (nr_hits _ _ _ _ _ demo_new_request i m Hm) as (h & _ & Hnew & _). exact Hnew.
  - intros i m rid j b Hm [Ha _]. destruct (idle_at hybrid_filled i m rid j b (proj2 hybrid_filled_coord_wf) Hm Ha).
  - intros _. split; [exact hybrid_filled_model|]. split; [vm_compute; discriminate..|]. intros He. discriminate He.
  - intros h Hh. change (num_tokens slots_demo_request) with 20 in Hh. change (max_model_len slots_manager) with 64. lia.
  - lia.
  - lia.
  - lia.
  - vm_compute. discriminate.
  - vm_compute. discriminate.
  - exact hybrid_filled_pools.
  - intros _ _. exact slots_manager_cacheable.
Qed.

Lemma start_request_sound_witness :
  ∃ res request' k' L',
    start_request (H := elements_iter) false (λ _, []) slots_demo_request (λ h, 20 - h) 0 0 false 0 true 0 true slots_manager =
      Ok ((Some res, request', 16), k') ∧ coord_wf (λ _ _, 0) (coordinator k') L'.
Proof.
  destruct (start_request_sound (H := elements_iter) false (λ _, []) (λ _ _, 0) (λ _ _, Z.le_refl 0) slots_demo_request
    (λ h, 20 - h) 0 0 false 0 true 0 true slots_manager (λ _, seq 1 8) (proj1 hybrid_filled_coord_wf) demo_start_call)
    as (res & r' & h & k' & L' & Hrun & Hwf & _).
  assert ((λ x, match x with Ok (Some _, _, n, _) => n | _ => 0 end)
    (start_request (H := elements_iter) false (λ _, []) slots_demo_request (λ h, 20 - h) 0 0 false 0 true 0 true slots_manager) = 16)
    as Hv by (vm_compute; reflexivity).
  rewrite Hrun in Hv. destruct res as [res|]; [|discriminate Hv]. simpl in Hv. subst h.
  exists res, r', k', L'. split; [exact Hrun|exact Hwf].
Defined.
