(* ===== verification/Lifecycle.v ===== *)
(** * The life of the cache

    Every call that the scheduler makes on the KV cache manager (Manager.v), in any order, from
    its construction on: none raises, and the invariant of the coordinator (CoordSpecs.v) holds
    throughout, with the blocks that were handed over counted as references from outside.  When
    all requests are gone, all blocks are free. *)

From S2P Require Import Prelude FreeQueue Request Hashing BlockPool PoolSpecs PoolTheorems.
From S2P Require Import SingleType SingleSpecs SingleTheorems Uncached CacheSpecs CacheHit Coordinator CoordLookup CoordInit.
From S2P Require Import CoordSpecs CoordAlloc CoordRelease CoordCache Manager Handover Pools Slots PrefixModel Prefill.

(** ** Calls that read the tables *)

(** Nothing is handed over. *)
Abbreviation unchanged m m' := (forgot (λ j, occ j []) m m' ∧ same_kind m m').

Lemma unchanged_same m m' :
  block_pool m' = block_pool m → (∀ rid, default [] (req_to_blocks m' !! rid) = default [] (req_to_blocks m !! rid)) →
  num_cached_block m' = num_cached_block m → _partial_hit_reqs m' = _partial_hit_reqs m →
  _pending_cow_copies m' = _pending_cow_copies m → (∀ j, held m' j = held m j) → same_kind m m' → unchanged m m'.
Proof.
  intros Hp Hr Hc Hpt Hpe Hh Hk. split; [|done]. split; try done; try apply Hk.
  - intros rid. left. by rewrite Hr, Hc, Hpt.
  - intros b. by rewrite Hpe.
  - intros j. rewrite Hh, occ_nil. lia.
Qed.

Lemma req_blocks_unchanged m rid :
  wp (req_blocks rid) (λ bs m', bs = default [] (req_to_blocks m !! rid) ∧ unchanged m m' ∧ block_pool m' = block_pool m) m.
Proof.
  unfold req_blocks. apply wp_bind, wp_gets. destruct (req_to_blocks m !! rid) as [bs|] eqn:Hrid.
  - apply wp_ret. split; [done|]. split; [|done]. by apply unchanged_same.
  - apply wp_bind, wp_modify, wp_ret. split; [done|]. split; [|done]. apply unchanged_same; try done; simpl.
    + intros rid'. destruct (decide (rid = rid')) as [<-|Hne]; [by rewrite lookup_insert_eq, Hrid|by rewrite lookup_insert_ne].
    + intros j. unfold held. simpl. rewrite map_sum_insert_new by done. rewrite occ_nil. lia.
Qed.

Section reads.
Variable ext : nat → nat → Z.
Hypothesis ext_nonneg : ∀ k j, 0 ≤ ext k j.

Lemma read_all {X Y} c L (op : T X) (out : nat → X → list Y) :
  coord_wf ext c L → (∀ m, wp op (λ _ m', unchanged m m') m) →
  wp (for_acc (seq 0 (length (single_type_managers c))) [] (λ acc i,
        x ← on_manager i op; mret (acc ++ out (default 0%nat (pool_id <$> kv_cache_groups c !! i)) x)))
    (λ _ c', coord_wf ext c' L ∧ same_model c c') c.
Proof.
  intros Hwf Hop. eapply wp_mono.
  { apply (hand_over_all ext ext_nonneg c L op (λ _, []) out (λ _, []) same_kind Hwf); [done|done|].
    intros o m l _. eapply wp_mono; [apply Hop|]. intros x m' [? ?]. split_and!; try done. by intros b ?%elem_of_nil. }
  intros acc c' (Hwf' & Hev & _ & _ & Hat). split; [|by split].
  eapply coord_wf_same; [| |exact Hwf']; [|done]. intros k j _. unfold with_outside. rewrite occ_nil. lia.
Qed.

Lemma common_all c L rid :
  coord_wf ext c L → wp (coord_get_num_common_prefix_blocks rid) (λ _ c', coord_wf ext c' L ∧ same_model c c') c.
Proof.
  intros Hwf. unfold coord_get_num_common_prefix_blocks. apply wp_bind, wp_gets.
  assert (wp (for_acc (seq 0 (length (single_type_managers c))) [] (λ acc i,
        n ← on_manager i (get_num_common_prefix_blocks rid); mret (acc ++ [n])))
    (λ _ c', coord_wf ext c' L ∧ same_model c c') c) as Hloop.
  { apply (read_all c L _ (λ _ n, [n]) Hwf). intros m. unfold get_num_common_prefix_blocks. apply wp_bind, wp_gets.
    assert (unchanged m m) by (by apply unchanged_same).
    destruct (manager_class m); try (by apply wp_ret);
      apply wp_bind; (eapply wp_mono; [apply req_blocks_unchanged|]); intros bs m' (_ & ? & _); by apply wp_bind, wp_gets, wp_ret. }
  destruct (coordinator_class c); try done.
Qed.

Lemma new_ids_all c L :
  coord_wf ext c L →
  wp (c0 ← gets (λ c, c);
      for_acc (seq 0 (length (single_type_managers c0))) [] (λ ids i,
        new_ids ← on_manager i take_new_block_ids;
        mret (ids ++ ((λ b, (default 0%nat (pool_id <$> kv_cache_groups c0 !! i), b)) <$> new_ids))))
    (λ _ c', coord_wf ext c' L ∧ same_model c c') c.
Proof.
  intros Hwf. apply wp_bind, wp_gets. apply (read_all c L _ (λ k ids, (λ b, (k, b)) <$> ids) Hwf).
  intros m. unfold take_new_block_ids. by apply wp_bind, wp_gets, wp_bind, wp_modify, wp_ret, unchanged_same.
Qed.

Lemma zeroing_all c L rid start_token end_token :
  coord_wf ext c L →
  wp (c0 ← gets (λ c, c);
      for_acc (seq 0 (length (single_type_managers c0))) [] (λ ids i,
        bs ← on_manager i (
          m ← gets (λ m, m);
          if _record_new_block_ids m then
            let start_idx := start_token // block_size m in
            let end_idx := cdiv end_token (block_size m) in
            blocks ← req_blocks rid;
            mret (slice blocks start_idx end_idx)
          else mret []);
        mret (ids ++ ((λ b, (default 0%nat (pool_id <$> kv_cache_groups c0 !! i), b)) <$> bs))))
    (λ _ c', coord_wf ext c' L ∧ same_model c c') c.
Proof.
  intros Hwf. apply wp_bind, wp_gets. apply (read_all c L _ (λ k ids, (λ b, (k, b)) <$> ids) Hwf).
  intros m. apply wp_bind, wp_gets. destruct (_record_new_block_ids m); [|by apply wp_ret, unchanged_same].
  apply wp_bind. eapply wp_mono; [apply req_blocks_unchanged|]. intros bs m' (_ & ? & _). by apply wp_ret.
Qed.

Lemma record_zeroing_all c L rid start_token :
  coord_wf ext c L →
  (∀ i m, manager_at c i = Some m → _record_new_block_ids m = true → start_token mod block_size m = 0) →
  wp (for_managers (λ _,
        m ← gets (λ m, m);
        if _record_new_block_ids m then
          b ← lift_res (divides (block_size m) start_token);
          _ ← assert_ b;
          let start_idx := start_token // block_size m in
          blocks ← req_blocks rid;
          modify (λ m, m <| new_block_ids ::= (.++ slice_from blocks start_idx) |>)
        else mret tt))
    (λ _ c', ∃ L', coord_wf ext c' L' ∧ same_model c c') c.
Proof.
  intros Hwf Hdiv. eapply wp_mono; [apply (for_release ext ext_nonneg c L _ same_kind Hwf)|].
  - intros i m o l p Hm Ho Hst Hun. set (m0 := m <| block_pool := p |>) in *.
    eapply (wp_mono _ (λ _ m', unchanged m0 m' ∧ block_pool m' = p)).
    + apply wp_bind, wp_gets. destruct (_record_new_block_ids m0) eqn:Hrec; [|by apply wp_ret; split; [apply unchanged_same|]].
      apply wp_bind. eapply wp_lift.
      { unfold divides. rewrite decide_False; [done|]. pose proof (sw_size _ _ _ Hst). lia. }
      rewrite (bool_decide_eq_true_2 _ (Hdiv i m Hm Hrec)). apply wp_bind, wp_assert; [done|].
      apply wp_bind. eapply wp_mono; [apply req_blocks_unchanged|]. intros bs m1 (_ & [Hfg Hk] & Hp1).
      apply wp_modify. split; [|exact Hp1]. destruct Hfg as [A B C D E F]. split; [by split|]. destruct Hk. by split.
    + intros [] m' [[Hfg Hk] Hp]. exists l. split.
      { eapply forgot_wf; [exact Hst|exact Hfg|]. intros j _. simpl. rewrite occ_nil. lia. }
      split; [by rewrite Hp|]. split; [by eapply forgot_step|]. split; [done|]. intros p'. by destruct Hk.
  - intros [] c' (L' & Hev & Hwf' & _ & Hat). exists L'. split; [done|by split].
Qed.
End reads.

(** ** The calls *)

Section calls.
Context `{SetIter}.
Variable use_int : bool.
Variable sha256 : list (list Z) → bytes.

(** The calls of the scheduler, with their arguments. *)
Inductive manager_call :=
  | CLookup (request : Request)
  | CAllocate (request : Request) (num_new_tokens num_new_computed_tokens : Z)
      (new_computed_blocks : option KVCacheBlocks) (num_lookahead_tokens num_external_computed_tokens : Z)
      (delay_cache_blocks : bool) (num_encoder_tokens : Z) (full_sequence_must_fit : bool)
      (reserved_blocks : Z) (has_scheduled_reqs : bool)
  | CCache (request : Request) (num_computed_tokens : Z)
  | CRemoveSkipped (request_id : string) (processed_computed_tokens : Z) (num_prompt_tokens : option Z)
  | CFree (request : Request)
  | CPop (request : Request)
  | CCopies
  | CEvict (block_ids : gset Z)
  | CReset
  | CEvents
  | CMakeStats
  | CRecordStats (request : Request) (num_hits : Z)
  | CCommon (request_id : string)
  | CNewIds
  | CZeroing (request_id : string) (start_token end_token : Z)
  | CRecordZeroing (request_id : string) (start_token : Z).

(** A call returns the blocks that it hands over: the caller owns their references. *)
Definition run_manager (call : manager_call) : K (list (nat * nat)) :=
  match call with
  | CLookup request => _ ← get_computed_blocks use_int sha256 request; mret []
  | CAllocate request new computed blocks lookahead external delay enc fit reserved scheduled =>
      _ ← allocate_slots use_int sha256 request new computed blocks lookahead external delay enc fit reserved scheduled;
      mret []
  | CCache request n => _ ← mgr_cache_blocks use_int sha256 request n; mret []
  | CRemoveSkipped rid n prompt => _ ← mgr_remove_skipped_blocks rid n prompt; mret []
  | CFree request => _ ← mgr_free request; mret []
  | CPop request => mgr_pop_blocks_for_free request
  | CCopies => '(_, ends) ← take_kv_cache_block_copies; mret ends
  | CEvict ids => _ ← mgr_evict_blocks use_int ids; mret []
  | CReset => _ ← mgr_reset_prefix_cache; mret []
  | CEvents => _ ← mgr_take_events; mret []
  | CMakeStats => _ ← make_prefix_cache_stats; mret []
  | CRecordStats request n => _ ← record_prefix_cache_stats request n; mret []
  | CCommon rid => _ ← mgr_get_num_common_prefix_blocks rid; mret []
  | CNewIds => _ ← take_new_block_ids_all; mret []
  | CZeroing rid s e => _ ← get_zeroing_block_ids_in_range rid s e; mret []
  | CRecordZeroing rid s => _ ← record_blocks_for_zeroing rid s; mret []
  end.

(** What the scheduler guarantees. *)
Definition manager_call_ok (k : KVCacheManager) (call : manager_call) : Prop :=
  match call with
  | CLookup request => 1 ≤ num_tokens request ∧
      (prefix_cache_lookup_enabled k request = true → lookup_request sha256 k request)
  | CAllocate request new computed blocks lookahead external delay enc fit reserved scheduled =>
      0 ≤ external ∧ 0 ≤ num_computed_tokens request + computed ∧
      slots_call sha256 request new computed blocks lookahead external delay reserved k
  | CCache request n => mgr_enable_caching k = true → coord_ready sha256 (coordinator k) request n
  | CRemoveSkipped rid n prompt => 0 ≤ n ∧ (∀ np, prompt = Some np → 0 ≤ np) ∧
      ∀ i m, manager_at (coordinator k) i = Some m → _partial_hit_reqs m !! rid = None
  | CEvict ids => ∀ p i, p ∈ block_pools (coordinator k) → i ∈ ids → 0 ≤ i < num_gpu_blocks p
  | CRecordZeroing rid s => ∀ i m, manager_at (coordinator k) i = Some m →
      _record_new_block_ids m = true → s mod block_size m = 0
  | _ => True
  end.

(** ** The invariant *)

(** The manager at its construction. *)
Variables (k0 : KVCacheManager) (L0 : nat → list nat).
Hypothesis start_wf : coord_wf (λ _ _, 0) (coordinator k0) L0.
Hypothesis start_model : mgr_enable_caching k0 = true → lookup_model (coordinator k0) (mgr_pcp_world_size k0).
Hypothesis start_pins : _partial_tail_pins k0 = ∅.
Hypothesis start_stats : log_stats k0 = true → is_Some (prefix_cache_stats k0).

(** [out]: the blocks that are handed over and not yet released. *)
Abbreviation outside out := (with_outside (λ _ _, 0) out).
Record manager_inv (k : KVCacheManager) (out : list (nat * nat)) : Prop := {
  mi_wf : ∃ L, coord_wf (outside out) (coordinator k) L;
  mi_range : in_range (coordinator k) out;
  mi_model : same_model (coordinator k0) (coordinator k);
  mi_rest : k = k0 <| coordinator := coordinator k |> <| prefix_cache_stats := prefix_cache_stats k |>;
  mi_stats : log_stats k = true → is_Some (prefix_cache_stats k)
}.

Lemma outside_nonneg out k j : 0 ≤ outside out k j.
Proof. unfold with_outside. pose proof (occ_nonneg (k, j) out). lia. Qed.

Lemma outside_nil k j : outside [] k j = 0.
Proof. unfold with_outside. rewrite occ_nil. done. Qed.

Lemma start_inv : manager_inv k0 [].
Proof.
  split; try done.
  - exists L0. eapply coord_wf_same; [| |exact start_wf]; [|done]. intros k j _. by rewrite outside_nil.
  - by intros k b ?%elem_of_nil.
  - by destruct k0.
Qed.

(** A call that changes the coordinator. *)
Lemma inv_coordinator k out handed c' L' :
  manager_inv k out → coord_wf (outside (out ++ handed)) c' L' → same_model (coordinator k) c' →
  in_range (coordinator k) handed → manager_inv (k <| coordinator := c' |>) (out ++ handed).
Proof.
  intros [_ Hr Hm Hrest Hst] Hwf' Hm' Hin. split; simpl; [by exists L'| |by etrans| |done].
  - eapply in_range_evolved; [apply Hm'|]. intros j b [?|?]%elem_of_app; auto.
  - exact (f_equal (λ x, x <| coordinator := c' |>) Hrest).
Qed.
Lemma inv_kept k out c' L' :
  manager_inv k out → coord_wf (outside out) c' L' → same_model (coordinator k) c' →
  manager_inv (k <| coordinator := c' |>) (out ++ []).
Proof.
  intros Hi Hwf' Hm'. eapply inv_coordinator; [done|by rewrite app_nil_r|done|by intros j b ?%elem_of_nil].
Qed.

Lemma inv_same k out : manager_inv k out → manager_inv k (out ++ []).
Proof. by rewrite app_nil_r. Qed.

(** What calls that only change the coordinator have in common. *)
Lemma wp_coordinator_call {A} (op : C A) k out :
  manager_inv k out →
  (∀ L, coord_wf (outside out) (coordinator k) L →
     wp op (λ _ c', ∃ L', coord_wf (outside out) c' L' ∧ same_model (coordinator k) c') (coordinator k)) →
  wp (on_coordinator op) (λ _ k', manager_inv k' (out ++ [])) k.
Proof.
  intros Hi Hop. destruct (mi_wf _ _ Hi) as [L Hwf]. apply wp_on_coordinator.
  eapply wp_mono; [by apply (Hop L)|]. intros a c' (L' & ? & ?). by eapply inv_kept.
Qed.

Lemma wp_unit {A} (op : K A) (Q : KVCacheManager → Prop) k :
  wp op (λ _, Q) k → wp (_ ← op; mret ([] : list (nat * nat))) (λ _, Q) k.
Proof. intros Hop. apply wp_bind. eapply wp_mono; [exact Hop|]. intros a k' HQ. by apply wp_ret. Qed.

Lemma inv_caching k out : manager_inv k out → mgr_enable_caching k = mgr_enable_caching k0.
Proof. intros Hi. by rewrite (mi_rest _ _ Hi). Qed.

Lemma inv_lookup k out request :
  manager_inv k out → lookup_request sha256 k request → prefix_cache_lookup_enabled k request = true →
  lookup_call sha256 k request.
Proof.
  intros Hi Hr Hen. split; [|done]. destruct (mi_wf _ _ Hi) as [L Hwf].
  assert (mgr_pcp_world_size k = mgr_pcp_world_size k0) as -> by (by rewrite (mi_rest _ _ Hi)).
  eapply lookup_model_same; [exact start_wf|exact Hwf|apply Hi|]. apply start_model.
  rewrite <-(inv_caching _ _ Hi). by apply andb_prop in Hen as [? _].
Qed.

Lemma lookup_keeps k out request :
  manager_inv k out → manager_call_ok k (CLookup request) → wp (run_manager (CLookup request)) (λ _ k', manager_inv k' (out ++ [])) k.
Proof.
  intros Hi [Htok Hok]. destruct (mi_wf _ _ Hi) as [L Hwf]. apply wp_unit.
  eapply wp_mono; [apply (get_computed_blocks_spec use_int sha256 (outside out) k L request Hwf); [|done]|].
  - intros Hen. eapply inv_lookup; [exact Hi|by apply Hok|done].
  - intros res k' (blocks & h & boundary & r' & _ & _ & -> & Hwf' & Hop & _). eapply inv_kept; [done|exact Hwf'|].
    by apply only_pools_model.
Qed.

Lemma allocate_keeps k out request new computed blocks lookahead external delay enc fit reserved scheduled :
  let call := CAllocate request new computed blocks lookahead external delay enc fit reserved scheduled in
  manager_inv k out → manager_call_ok k call → wp (run_manager call) (λ _ k', manager_inv k' (out ++ [])) k.
Proof.
  intros call Hi (He & Hl & Hcall). destruct (mi_wf _ _ Hi) as [L Hwf]. apply wp_unit.
  eapply wp_mono; [apply (allocate_slots_spec use_int sha256 (outside out) (outside_nonneg out) request new computed
    blocks lookahead external delay enc fit reserved scheduled He Hl k L Hwf Hcall)|].
  intros [res r'] k' (L' & _ & -> & Hev & Hwf' & Hres). eapply inv_kept; [done|exact Hwf'|]. split; [done|].
  intros i m Hm. simpl in Hres. destruct res.
  - destruct Hres as [_ Htab]. destruct (Htab i m Hm) as (m' & Hm' & [Hs _ _]). exists m'.
    split; [exact Hm'|by eapply same_others_kind].
  - destruct Hres as [_ Htab _]. destruct (Htab i m Hm) as (m' & Hm' & [Hs _ _ _ _]). exists m'.
    split; [exact Hm'|by eapply same_others_kind].
Qed.

Lemma cache_keeps k out request n :
  manager_inv k out → manager_call_ok k (CCache request n) → wp (run_manager (CCache request n)) (λ _ k', manager_inv k' (out ++ [])) k.
Proof.
  intros Hi Hok. apply wp_unit. unfold mgr_cache_blocks. apply wp_bind, wp_gets.
  destruct (mgr_enable_caching k) eqn:Hc; [|by apply wp_ret, inv_same].
  apply wp_coordinator_call; [done|]. intros L Hwf.
  eapply wp_mono; [by apply (cache_all use_int sha256 (outside out) (outside_nonneg out) _ L request n Hwf), Hok|].
  intros r' c' (L' & _ & Hev & Hwf' & _ & Hat). exists L'. split; [done|]. split; [done|].
  intros i m Hm. destruct (Hat i m Hm) as (m' & Hm' & [Hs _ _]). exists m'. split; [done|by eapply same_others_kind].
Qed.

Lemma free_keeps k out request : manager_inv k out →
  wp (mgr_free request) (λ _ k', manager_inv k' out ∧ ∀ i m, manager_at (coordinator k) i = Some m →
    ∃ m', manager_at (coordinator k') i = Some m' ∧ post_free (request_id request) m m') k.
Proof.
  intros Hi. unfold mgr_free. apply wp_bind, wp_gets, wp_bind, wp_modify.
  assert (_partial_tail_pins k = ∅) as Hp by (by rewrite (mi_rest _ _ Hi)).
  assert (k <| _partial_tail_pins ::= delete (request_id request) |> = k) as ->.
  { destruct k; simpl in *. by rewrite Hp, delete_empty. }
  rewrite Hp, lookup_empty. apply wp_bind, wp_ret. destruct (mi_wf _ _ Hi) as [L Hwf]. apply wp_on_coordinator.
  eapply wp_mono; [by apply (free_all (outside out) (outside_nonneg out) (request_id request) _ L Hwf)|].
  intros [] c' (L' & Hev & Hwf' & _ & Hat). split; [|exact Hat]. rewrite <-(app_nil_r out). eapply inv_kept; [done|exact Hwf'|].
  split; [done|]. intros i m Hm. destruct (Hat i m Hm) as (m' & Hm' & [Hs _ _ _]). exists m'.
  split; [done|by eapply same_others_kind].
Qed.

Lemma skipped_keeps k out rid n prompt :
  manager_inv k out → manager_call_ok k (CRemoveSkipped rid n prompt) →
  wp (run_manager (CRemoveSkipped rid n prompt)) (λ _ k', manager_inv k' (out ++ [])) k.
Proof.
  intros Hi (Hn & Hp & Hpart). apply wp_unit, wp_coordinator_call; [done|]. intros L Hwf.
  eapply wp_mono; [by apply (remove_all (outside out) (outside_nonneg out) rid n prompt Hn Hp _ L Hwf)|].
  intros [] c' (L' & Hev & Hwf' & _ & Hat). exists L'. split; [done|]. split; [done|].
  intros i m Hm. destruct (Hat i m Hm) as (m' & Hm' & [Hs _ _ _ _]). exists m'. split; [done|by eapply same_others_kind].
Qed.

Lemma pop_keeps k out request : manager_inv k out →
  wp (mgr_pop_blocks_for_free request) (λ handed k', manager_inv k' (out ++ handed)) k.
Proof.
  intros Hi. destruct (mi_wf _ _ Hi) as [L Hwf]. apply wp_on_coordinator.
  eapply wp_mono; [by apply (pop_all (outside out) (outside_nonneg out) _ L _ Hwf)|].
  intros handed c' (Hwf' & Hev & _ & Hin & Hat). eapply (inv_coordinator k out handed c' L); [done| | |done].
  - eapply coord_wf_same; [| |exact Hwf']; [|done]. intros i j _. by rewrite with_outside_app.
  - split; [done|]. intros i m Hm. destruct (Hat i m Hm) as (m' & Hm' & [Hs _ _ _]). exists m'.
    split; [done|by eapply same_others_kind].
Qed.

Lemma copies_keeps k out : manager_inv k out →
  wp take_kv_cache_block_copies (λ res k', manager_inv k' (out ++ res.2) ∧
    ∀ i m, manager_at (coordinator k) i = Some m →
      manager_at (coordinator k') i = Some (m <| _pending_cow_copies := [] |>)) k.
Proof.
  intros Hi. destruct (mi_wf _ _ Hi) as [L Hwf]. apply wp_on_coordinator.
  eapply wp_mono; [by apply (copies_all (outside out) (outside_nonneg out) _ L Hwf)|].
  intros res c' (Hwf' & Hev & _ & Hin & Hat). split; [|exact Hat].
  eapply (inv_coordinator k out res.2 c' L); [done| | |done].
  - eapply coord_wf_same; [| |exact Hwf']; [|done]. intros i j _. by rewrite with_outside_app.
  - split; [done|]. intros i m Hm. eexists. split; [by apply Hat|by split].
Qed.

Lemma inv_with_stats k out st :
  manager_inv k out → is_Some st → manager_inv (k <| prefix_cache_stats := st |>) out.
Proof.
  intros [Hwf Hr Hm Hrest _] Hst. split; simpl; [done|done|done| |done].
  exact (f_equal (λ x, x <| prefix_cache_stats := st |>) Hrest).
Qed.

Lemma reset_keeps k out : manager_inv k out →
  wp mgr_reset_prefix_cache (λ b k', manager_inv k' out ∧
    (b = true ↔ ∀ p, p ∈ block_pools (coordinator k) → unused p) ∧
    (b = true → ∀ p, p ∈ block_pools (coordinator k') → no_keys p) ∧ only_pools (coordinator k) (coordinator k')) k.
Proof.
  intros Hi. destruct (mi_wf _ _ Hi) as [L Hwf]. unfold mgr_reset_prefix_cache. apply wp_bind, wp_on_coordinator.
  eapply wp_mono; [by apply (reset_all_spec (outside out) L)|]. intros b c' (Hwf' & Hop & Hiff & Hno & _).
  assert (manager_inv (k <| coordinator := c' |>) out) as Hi'.
  { rewrite <-(app_nil_r out). eapply inv_kept; [done|exact Hwf'|by apply only_pools_model]. }
  destruct b; cbn [negb]; [|by apply wp_ret]. apply wp_bind, wp_gets. destruct (log_stats (k <| coordinator := c' |>)) eqn:Hlog.
  - destruct (mi_stats _ _ Hi Hlog) as [st Hst].
    apply wp_bind, wp_bind, wp_gets, wp_bind, wp_assert; [simpl; by rewrite Hst|]. apply wp_modify, wp_ret.
    split; [|done]. apply (inv_with_stats (k <| coordinator := c' |>)); [done|]. simpl. by rewrite Hst.
  - by apply wp_bind, wp_ret, wp_ret.
Qed.

(** No call raises, and each keeps the invariant. *)
Lemma run_manager_ok k out call :
  manager_inv k out → manager_call_ok k call → wp (run_manager call) (λ handed k', manager_inv k' (out ++ handed)) k.
Proof.
  intros Hi Hok. pose proof (outside_nonneg out) as Ho.
  assert (∀ {A} (op : K A), wp op (λ _ k', manager_inv k' (out ++ [])) k →
    wp (_ ← op; mret ([] : list (nat * nat))) (λ handed k', manager_inv k' (out ++ handed)) k) as Hunit.
  { intros A op Hop. apply wp_bind. eapply wp_mono; [exact Hop|]. intros a k' ?. by apply wp_ret. }
  assert (∀ {A} (op : C A), (∀ L, coord_wf (outside out) (coordinator k) L →
     wp op (λ _ c', coord_wf (outside out) c' L ∧ same_model (coordinator k) c') (coordinator k)) →
    wp (on_coordinator op) (λ _ k', manager_inv k' (out ++ [])) k) as Hcoord.
  { intros A op Hop. apply wp_coordinator_call; [done|]. intros L Hwf. eapply wp_mono; [by apply Hop|]. intros a c' ?. by exists L. }
  destruct call; cbn [run_manager].
  - apply Hunit. exact (wp_bind_inv _ _ _ _ (lookup_keeps k out request Hi Hok)).
  - apply Hunit. exact (wp_bind_inv _ _ _ _ (allocate_keeps k out _ _ _ _ _ _ _ _ _ _ _ Hi Hok)).
  - apply Hunit. exact (wp_bind_inv _ _ _ _ (cache_keeps k out request _ Hi Hok)).
  - apply Hunit. exact (wp_bind_inv _ _ _ _ (skipped_keeps k out _ _ _ Hi Hok)).
  - apply Hunit. eapply wp_mono; [by apply (free_keeps k out)|]. intros [] k' [? _]. by apply inv_same.
  - by apply pop_keeps.
  - apply wp_bind. eapply wp_mono; [by apply copies_keeps|]. intros [copies ends] k' [? _]. by apply wp_ret.
  - apply Hunit, Hcoord. intros L Hwf. eapply wp_mono; [by apply (evict_all (outside out) _ L Hwf)|].
    intros [] c' [? ?]. split; [done|by apply only_pools_model].
  - apply Hunit. eapply wp_mono; [by apply reset_keeps|]. intros b k' [? _]. by apply inv_same.
  - apply Hunit. unfold mgr_take_events. apply wp_bind. eapply wp_mono; [apply Hcoord|].
    + intros L Hwf. eapply wp_mono; [by apply (take_events_all (outside out) _ L Hwf)|].
      intros ev c' [? ?]. split; [done|by apply only_pools_model].
    + intros ev k' ?. by apply wp_bind, wp_gets, wp_ret.
  - apply Hunit. unfold make_prefix_cache_stats. apply wp_bind, wp_gets. destruct (log_stats k); simpl; [|by apply wp_ret, inv_same].
    apply wp_bind, wp_gets, wp_bind, wp_modify, wp_ret, inv_same. by apply inv_with_stats.
  - apply Hunit. unfold record_prefix_cache_stats. apply wp_bind, wp_gets. destruct (log_stats k) eqn:Hlog; simpl; [|by apply wp_ret, inv_same].
    destruct (prefix_cache_lookup_enabled k request); simpl; [|by apply wp_ret, inv_same].
    destruct (mi_stats _ _ Hi Hlog) as [st Hst]. apply wp_bind, wp_assert; [by rewrite Hst|]. apply wp_modify, inv_same.
    rewrite Hst. by apply inv_with_stats.
  - apply Hunit, Hcoord. intros L Hwf. by apply common_all.
  - apply Hunit, Hcoord. intros L Hwf. by apply new_ids_all.
  - apply Hunit, Hcoord. intros L Hwf. by apply zeroing_all.
  - apply Hunit. apply wp_coordinator_call; [done|]. intros L Hwf. by apply (record_zeroing_all (outside out) Ho _ L).
Qed.

(** Blocks that were handed over come back. *)
Lemma release_keeps k out bs rest :
  manager_inv k out → out ≡ₚ bs ++ rest →
  wp (on_coordinator (pools_free_blocks bs)) (λ _ k', manager_inv k' rest ∧ only_pools (coordinator k) (coordinator k')) k.
Proof.
  intros Hi Hperm. destruct (mi_wf _ _ Hi) as [L Hwf]. pose proof (mi_range _ _ Hi) as Hr. apply wp_on_coordinator.
  eapply wp_mono; [apply (release_outside (outside rest) (outside_nonneg rest) _ L bs)|].
  - eapply coord_wf_same; [| |exact Hwf]; [|done]. intros i j _. unfold with_outside. rewrite Hperm, occ_app. lia.
  - intros i b Hb. apply Hr. rewrite Hperm. apply elem_of_app. by left.
  - intros [] c' (L' & Hwf' & Hop & _). split; [|exact Hop]. destruct Hi as [_ _ Hm Hrest Hst]. split; simpl.
    + by exists L'.
    + eapply in_range_evolved; [apply Hop|]. intros i b Hb. apply Hr. rewrite Hperm. apply elem_of_app. by right.
    + etrans; [done|by apply only_pools_model].
    + exact (f_equal (λ x, x <| coordinator := c' |>) Hrest).
    + done.
Qed.

(** ** Any sequence of calls *)

(** The manager and the blocks that its callers own. *)
Record world := mkWorld {
  kv : KVCacheManager;
  outstanding : list (nat * nat)
}.

Inductive world_step : world → world → Prop :=
  | step_call w call handed k' :
      manager_call_ok (kv w) call → run_manager call (kv w) = Ok (handed, k') →
      world_step w (mkWorld k' (outstanding w ++ handed))
  | step_release w bs rest k' :
      outstanding w ≡ₚ bs ++ rest → on_coordinator (pools_free_blocks bs) (kv w) = Ok (tt, k') →
      world_step w (mkWorld k' rest).

Lemma world_steps_inv w w' :
  rtc world_step w w' → manager_inv (kv w) (outstanding w) → manager_inv (kv w') (outstanding w').
Proof.
  induction 1 as [|w1 w2 w3 Hstep _ IH]; [done|]. intros Hi. apply IH. clear IH.
  destruct Hstep as [w call handed k' Hok Hrun|w bs rest k' Hperm Hrun]; simpl.
  - pose proof (run_manager_ok (kv w) (outstanding w) call Hi Hok) as Hwp. unfold wp in Hwp. by rewrite Hrun in Hwp.
  - pose proof (release_keeps (kv w) (outstanding w) bs rest Hi Hperm) as Hwp. unfold wp in Hwp. rewrite Hrun in Hwp. apply Hwp.
Qed.

(** ** When everything is given back *)

Definition pools_used (c : KVCacheCoordinator) : Prop :=
  ∀ k p, block_pools c !! k = Some p → ∃ g, g ∈ kv_cache_groups c ∧ pool_id g = k.
Definition no_references (c : KVCacheCoordinator) : Prop :=
  ∀ i m j, manager_at c i = Some m → held m j = 0.

Lemma all_unused k : manager_inv k [] → pools_used (coordinator k) → no_references (coordinator k) →
  ∀ p, p ∈ block_pools (coordinator k) → unused p ∧ get_num_free_blocks p = num_gpu_blocks p - 1.
Proof.
  intros Hi Hused Hno p [n Hp]%list_elem_of_lookup. destruct (mi_wf _ _ Hi) as [L Hwf].
  destruct (Hused n p Hp) as (g & Hg & Hgn). assert (unused p) as Hu.
  { intros i Hri. rewrite (pool_refs _ _ L n p g i (cw_refs _ _ _ Hwf) Hp Hg Hgn) by (unfold null_block; lia).
    rewrite outside_nil, Z.add_0_l. apply sumZ_zero. intros x [a Hx]%list_elem_of_lookup.
    apply lookup_zip_with_Some in Hx as (m & g' & -> & Hm & Hg'). unfold held_on. case_decide; [|done].
    destruct (cw_at _ _ _ Hwf a) as [m' Hm']; [by eapply lookup_lt_Some|].
    pose proof (Hno a m' i Hm') as Hz. destruct (manager_at_inv _ _ _ Hm') as (m1 & _ & ? & Hm1 & _ & _ & ->). simplify_eq. done. }
  split; [done|]. destruct (cw_pool _ _ _ Hwf n p Hp) as [Ha _]. apply (all_free p (L n) Ha) in Hu.
  unfold get_num_free_blocks. rewrite (repr_num _ _ (wf_queue _ _ Ha)). lia.
Qed.

Lemma inv_manager k k' out out' i m' :
  manager_inv k out → manager_inv k' out' → manager_at (coordinator k') i = Some m' →
  ∃ m, manager_at (coordinator k) i = Some m.
Proof.
  intros Hi Hi' (m0 & _ & _ & Hl%lookup_lt_Some & _)%manager_at_inv. destruct (mi_wf _ _ Hi) as [L Hwf].
  apply (cw_at _ _ _ Hwf). by rewrite (ev_len _ _ (sm_evolved _ _ (mi_model _ _ Hi))), <-(ev_len _ _ (sm_evolved _ _ (mi_model _ _ Hi'))).
Qed.

Lemma inv_pools_used k k' out out' :
  manager_inv k out → manager_inv k' out' → pools_used (coordinator k) → pools_used (coordinator k').
Proof.
  intros Hi Hi' Hused n p Hp.
  pose proof (sm_evolved _ _ (mi_model _ _ Hi)) as Hev. pose proof (sm_evolved _ _ (mi_model _ _ Hi')) as Hev'.
  destruct (lookup_lt_is_Some_2 (block_pools (coordinator k)) n) as [q Hq].
  { apply lookup_lt_Some in Hp. by rewrite (evolved_pools _ _ Hev), <-(evolved_pools _ _ Hev'). }
  destruct (Hused n q Hq) as (g & Hg & ?). exists g. split; [|done].
  by rewrite (evolved_groups _ _ Hev'), <-(evolved_groups _ _ Hev).
Qed.

(** The end of a run: free the requests, hand over the pending copies, release everything that
    was handed over, reset the prefix cache. *)
Definition drain (requests : list Request) (out : list (nat * nat)) : K bool :=
  _ ← for_ requests mgr_free;
  '(_, ends) ← take_kv_cache_block_copies;
  _ ← on_coordinator (pools_free_blocks (out ++ ends));
  mgr_reset_prefix_cache.

(** Every table that is not empty belongs to one of the requests. *)
Definition covers (requests : list Request) (c : KVCacheCoordinator) : Prop :=
  ∀ i m rid bs, manager_at c i = Some m → req_to_blocks m !! rid = Some bs → bs ≠ [] →
    ∃ r, r ∈ requests ∧ request_id r = rid.

Lemma free_requests k out requests : manager_inv k out → covers requests (coordinator k) →
  wp (for_ requests mgr_free) (λ _ k', manager_inv k' out ∧ covers [] (coordinator k')) k.
Proof.
  intros Hi Hcov. eapply wp_mono.
  { apply (wp_for (λ pre k1, manager_inv k1 out ∧ ∀ i m rid bs, manager_at (coordinator k1) i = Some m →
      req_to_blocks m !! rid = Some bs → bs ≠ [] → ∃ r, r ∈ requests ∧ request_id r = rid ∧ ∀ r', r' ∈ pre → request_id r' ≠ rid)).
    - split; [done|]. intros i m rid bs Hm Hb Hne. destruct (Hcov i m rid bs Hm Hb Hne) as (r & ? & ?).
      exists r. split_and!; try done. by intros r' ?%elem_of_nil.
    - intros pre r post k1 _ [Hi1 Hc1]. eapply wp_mono; [by apply (free_keeps k1 out r)|].
      intros [] k2 [Hi2 Hat]. split; [done|]. intros i m2 rid bs Hm2 Hb Hne.
      destruct (inv_manager k1 k2 out out i m2 Hi1 Hi2 Hm2) as [m1 Hm1].
      destruct (Hat i m1 Hm1) as (m2' & Hm2' & [_ Hdel _ _]). simplify_eq. rewrite Hdel in Hb.
      apply lookup_delete_Some in Hb as [Hnr Hb]. destruct (Hc1 i m1 rid bs Hm1 Hb Hne) as (r0 & ? & ? & Hpre).
      exists r0. split_and!; try done. intros r' [?| ->%list_elem_of_singleton]%elem_of_app; auto. }
  intros [] k' [Hi' Hc']. split; [done|]. intros i m rid bs Hm Hb Hne.
  destruct (Hc' i m rid bs Hm Hb Hne) as (r & Hr & Hid & Hno). by destruct (Hno r Hr).
Qed.

Lemma covers_nil_held m j :
  (∀ rid bs, req_to_blocks m !! rid = Some bs → bs = []) → _pending_cow_copies m = [] → held m j = 0.
Proof.
  intros Ht Hp. unfold held. rewrite Hp. simpl. rewrite occ_nil, Z.add_0_r.
  apply map_sum_zero. intros rid bs Hb. rewrite (Ht rid bs Hb). apply occ_nil.
Qed.

Lemma drain_spec k out requests :
  manager_inv k out → covers requests (coordinator k) → pools_used (coordinator k) →
  wp (drain requests out) (λ b k', b = true ∧ manager_inv k' [] ∧ ∀ p, p ∈ block_pools (coordinator k') →
    get_num_free_blocks p = num_gpu_blocks p - 1 ∧ no_keys p) k.
Proof.
  intros Hi Hcov Hused. unfold drain. apply wp_bind.
  eapply wp_mono; [by apply (free_requests k out)|]. intros [] k1 [Hi1 Hc1].
  apply wp_bind. eapply wp_mono; [by apply (copies_keeps k1 out)|]. intros [copies ends] k2 [Hi2 Hat2]. cbn [snd] in Hi2.
  apply wp_bind. eapply wp_mono; [by apply (release_keeps k2 (out ++ ends) (out ++ ends) []); [|rewrite app_nil_r]|].
  intros [] k3 [Hi3 Hop3].
  assert (pools_used (coordinator k3)) as Hused3 by exact (inv_pools_used k k3 _ _ Hi Hi3 Hused).
  assert (∀ k4, manager_inv k4 [] → only_pools (coordinator k2) (coordinator k4) → no_references (coordinator k4)) as Hno.
  { intros k4 Hi4 Hop4 i m j Hm. destruct (only_pools_manager _ _ i m Hop4 Hm) as (m2 & Hm2 & Heq & _).
    assert (held m j = held m2 j) as -> by (by rewrite Heq).
    destruct (inv_manager _ _ _ _ i m2 Hi1 Hi2 Hm2) as [m1 Hm1].
    rewrite (Hat2 i m1 Hm1) in Hm2. injection Hm2 as <-. apply covers_nil_held; [|done]. intros rid bs Hb.
    destruct (decide (bs = [])) as [?|Hne]; [done|]. by destruct (Hc1 i m1 rid bs Hm1 Hb Hne) as (r & ?%elem_of_nil & _). }
  eapply wp_mono; [by apply (reset_keeps k3 [])|]. intros b k4 (Hi4 & Hiff & Hkeys & Hop4).
  assert (b = true) as ->. { apply Hiff. intros p Hp. by apply (all_unused k3 Hi3 Hused3 (Hno k3 Hi3 Hop3)). }
  split; [done|]. split; [done|]. intros p Hp. split; [|by apply Hkeys].
  apply (all_unused k4); [done|exact (inv_pools_used k k4 _ _ Hi Hi4 Hused)|apply Hno; [done|by etrans]|done].
Qed.
End calls.

(** ** From the construction on *)

Section constructed.
Context `{SetIter}.
Variable use_int : bool.
Variable sha256 : list (list Z) → bytes.
Variable cfg : KVCacheConfig.
Variables (max_model_len sched hash : Z) (in_flight : option Z) (caching eagle : bool) (lookahead : Z).
Variables (log events : bool) (dcp pcp : Z) (mc : option (list MetricsCall)) (watermark : Z).
Variable metadata : list (string * option Z).
Variable k0 : KVCacheManager.
Hypothesis new_ok : new_KVCacheManager cfg max_model_len sched hash in_flight caching eagle lookahead log events dcp pcp mc
  watermark metadata = Ok k0.
Hypothesis groups_ok : ∀ g, g ∈ config_groups cfg → class_ok (spec_class (kv_cache_spec g)) ∧
  0 < spec_block_size (kv_cache_spec g) * dcp_world_size_for_kv_cache_spec (kv_cache_spec g) dcp.
Hypothesis model_ok : caching = true → lookup_model (coordinator k0) pcp.

Lemma new_manager_inv : ∃ L0, coord_wf (λ _ _, 0) (coordinator k0) L0 ∧ _partial_tail_pins k0 = ∅ ∧
  (log_stats k0 = true → is_Some (prefix_cache_stats k0)) ∧ mgr_enable_caching k0 = caching ∧ mgr_pcp_world_size k0 = pcp ∧
  kv_cache_groups (coordinator k0) = config_groups cfg ∧ length (block_pools (coordinator k0)) = num_pools cfg.
Proof.
  unfold new_KVCacheManager in new_ok. apply res_bind_inv in new_ok as (c & Hc & [= <-]). simpl.
  destruct (coordinator_constructed _ _ _ _ _ _ _ _ _ _ _ _ _ Hc) as (Hg & _ & _ & Hpools & _).
  destruct (constructed_coord_wf _ _ _ _ _ _ _ _ _ _ _ _ _ Hc groups_ok) as [Hwf _].
  eexists. split; [exact Hwf|]. split_and!; try done; [by intros ->|].
  by rewrite <-(Forall2_length _ _ _ Hpools), length_seq.
Qed.

(** C1: The KV cache manager never gets stuck.  From its construction on, after any sequence of
    calls (lookup, allocation, caching, release, hand-over and release of handed-over blocks,
    eviction, resets, statistics, zeroing) in any order, every further call whose precondition
    holds returns; and the cache is consistent: the reference count of every block is the number
    of places in all tables and of handed-over references, the free lists hold exactly the
    unreferenced blocks, the hash map finds exactly the keys of the blocks, and a block that a
    request still fills is in no other place. *)
Theorem manager_never_stuck w :
  rtc (world_step use_int sha256) (mkWorld k0 []) w →
  (∃ L, coord_wf (with_outside (λ _ _, 0) (outstanding w)) (coordinator (kv w)) L) ∧
  (∀ call, manager_call_ok sha256 (kv w) call → ∃ handed k', run_manager use_int sha256 call (kv w) = Ok (handed, k')) ∧
  (∀ bs rest, outstanding w ≡ₚ bs ++ rest → ∃ k', on_coordinator (pools_free_blocks bs) (kv w) = Ok (tt, k')).
Proof.
  intros Hrun. destruct new_manager_inv as (L0 & Hwf0 & Hpins & Hst & Hca & Hpcp & _).
  assert (mgr_enable_caching k0 = true → lookup_model (coordinator k0) (mgr_pcp_world_size k0)) as Hmodel
    by (rewrite Hca, Hpcp; done).
  assert (manager_inv k0 (kv w) (outstanding w)) as Hi.
  { eapply (world_steps_inv use_int sha256 k0 L0 Hwf0 Hmodel Hpins _ _ Hrun). by eapply start_inv. }
  split; [apply Hi|]. split.
  - intros call Hok. pose proof (run_manager_ok use_int sha256 k0 L0 Hwf0 Hmodel Hpins _ _ call Hi Hok) as Hwp.
    apply wp_run in Hwp as (handed & k' & ? & _). eauto.
  - intros bs rest Hperm. pose proof (release_keeps k0 _ _ bs rest Hi Hperm) as Hwp.
    apply wp_run in Hwp as ([] & k' & ? & _). eauto.
Qed.

(** C12: No block is ever lost.  From any state that calls can reach, freeing the requests that
    still have tables, taking the pending copies and releasing what was handed over makes every
    block of every pool free again, and the reset of the prefix cache succeeds and forgets every
    cached key. *)
Theorem no_block_leaks w requests :
  rtc (world_step use_int sha256) (mkWorld k0 []) w →
  covers requests (coordinator (kv w)) →
  (∀ n, (n < num_pools cfg)%nat → ∃ g, g ∈ config_groups cfg ∧ pool_id g = n) →
  ∃ k', drain requests (outstanding w) (kv w) = Ok (true, k') ∧
    ∀ p, p ∈ block_pools (coordinator k') → get_num_free_blocks p = num_gpu_blocks p - 1 ∧ no_keys p.
Proof.
  intros Hrun Hcov Hused. destruct new_manager_inv as (L0 & Hwf0 & Hpins & Hst & Hca & Hpcp & Hg & Hlen).
  assert (mgr_enable_caching k0 = true → lookup_model (coordinator k0) (mgr_pcp_world_size k0)) as Hmodel
    by (rewrite Hca, Hpcp; done).
  assert (manager_inv k0 k0 []) as Hi0 by (by eapply start_inv).
  pose proof (world_steps_inv use_int sha256 k0 L0 Hwf0 Hmodel Hpins _ _ Hrun Hi0) as Hi.
  assert (pools_used (coordinator (kv w))) as Hpu.
  { eapply (inv_pools_used k0 k0 _ _ _ Hi0 Hi). intros n p Hp%lookup_lt_Some. rewrite Hg. apply Hused. by rewrite <-Hlen. }
  pose proof (drain_spec k0 Hpins _ _ requests Hi Hcov Hpu) as Hwp.
  apply wp_run in Hwp as (b & k' & Hd & -> & _ & Hp). eauto.
Qed.
End constructed.

(** ** A short life of the hybrid model *)

Definition with_coordinator (c : KVCacheCoordinator) : KVCacheManager := mkManager 64 true false false None c 1 1 [] ∅.
Definition demo_manager : KVCacheManager := with_coordinator demo_coordinator.

Lemma demo_manager_new :
  new_KVCacheManager demo_config 64 8 4 (Some 16) true false 0 false false 1 1 None 1 [] = Ok demo_manager.
Proof. unfold new_KVCacheManager. cbn [from_option id]. rewrite (proj1 demo_coordinator_new). reflexivity. Qed.

Lemma demo_groups_ok g : g ∈ config_groups demo_config → class_ok (spec_class (kv_cache_spec g)) ∧
  0 < spec_block_size (kv_cache_spec g) * dcp_world_size_for_kv_cache_spec (kv_cache_spec g) 1.
Proof. revert g. apply Forall_forall. repeat constructor; vm_compute; done. Qed.

Lemma demo_manager_model : lookup_model (coordinator demo_manager) 1.
Proof.
  change (lookup_model demo_coordinator 1). unfold lookup_model. rewrite (proj2 demo_coordinator_new).
  split; [reflexivity|exact demo_model].
Qed.

(** A request gets slots for eight tokens, then its blocks are handed over. *)
Definition demo_allocate : manager_call := CAllocate slots_demo_request 8 0 None 0 0 true 0 false 0 false.
Definition after (call : manager_call) (w : world) : world :=
  match run_manager (H := elements_iter) false (λ _, []) call (kv w) with
  | Ok (handed, k') => mkWorld k' (outstanding w ++ handed)
  | Raise _ => w
  end.

Definition returns {A} (x : res A) : bool := match x with Ok _ => true | Raise _ => false end.

Lemma step_after w call :
  manager_call_ok (λ _, []) (kv w) call → returns (run_manager (H := elements_iter) false (λ _, []) call (kv w)) = true →
  world_step (H := elements_iter) false (λ _, []) w (after call w).
Proof.
  intros Hok Hret. unfold after. destruct (run_manager _ _ call (kv w)) as [[handed k']|e] eqn:Hrun; [|done].
  by apply (step_call _ _ w call).
Qed.

(** Without tables, every request can start from nothing. *)
Lemma idle_continuing ext c L rid i m :
  coord_wf ext c L → idle c → manager_at c i = Some m → continuing rid 0 0 m.
Proof.
  intros Hwf Hid Hm. destruct (manager_at_inv c i m Hm) as (m0 & g & p & Hm0 & Hg & _ & Heq).
  pose proof (cw_wf _ _ _ Hwf i m g Hm Hg) as Hst. destruct (Hid i m0 Hm0) as [Hreq _].
  assert (req_to_blocks m = ∅) as Hreq' by (by rewrite Heq).
  split.
  - destruct (_partial_hit_reqs m !! rid) as [[idx b]|] eqn:Hp; [|done].
    destruct (sw_partial _ _ _ Hst rid idx b Hp) as (_ & _ & Hb). by rewrite Hreq', lookup_empty in Hb.
  - intros _. right. rewrite Hreq', lookup_empty. unfold skip_of. rewrite Z.add_0_r.
    pose proof (skipped_bounds (manager_class m) 0 (sw_class _ _ _ Hst) ltac:(lia)).
    replace (get_num_skipped_tokens (manager_class m) 0) with 0 by lia. by rewrite Zdiv_0_l.
Qed.

Lemma idle_allocate_ok ext c L :
  coord_wf ext c L → idle c → block_pools c ≠ [] → manager_call_ok (λ _, []) (with_coordinator c) demo_allocate.
Proof.
  intros Hwf Hid Hp. split; [lia|]. split; [done|].
  split; [lia|left; lia|lia|done|lia|done|done|done| |done].
  unfold slots_request. rewrite decide_False by (intros [Hf|Hf]; [by apply Hf|lia]).
  intros i m Hm. exact (idle_continuing ext c L "r" i m Hwf Hid Hm).
Qed.

Lemma demo_allocate_ok : manager_call_ok (λ _, []) demo_manager demo_allocate.
Proof.
  apply (idle_allocate_ok (λ _ _, 0) demo_coordinator (λ _, seq 1 8));
    [exact (proj1 demo_coordinator_wf)|exact (proj2 demo_coordinator_wf)|].
  vm_compute. discriminate.
Qed.

Definition demo_world : world := after (CPop slots_demo_request) (after demo_allocate (mkWorld demo_manager [])).

Lemma demo_allocated_reached :
  rtc (world_step (H := elements_iter) false (λ _, [])) (mkWorld demo_manager []) (after demo_allocate (mkWorld demo_manager [])).
Proof. apply rtc_once, step_after; [exact demo_allocate_ok|]. vm_compute. reflexivity. Qed.

Lemma demo_world_reached :
  rtc (world_step (H := elements_iter) false (λ _, [])) (mkWorld demo_manager []) demo_world ∧
  outstanding demo_world = [(0, 1); (0, 2); (0, 3); (0, 4); (0, 5)]%nat.
Proof.
  split; [|vm_compute; reflexivity]. eapply rtc_r; [exact demo_allocated_reached|].
  apply step_after; [exact I|]. vm_compute. reflexivity.
Qed.

Lemma manager_never_stuck_witness :
  outstanding demo_world = [(0, 1); (0, 2); (0, 3); (0, 4); (0, 5)]%nat ∧
  (∃ L, coord_wf (with_outside (λ _ _, 0) (outstanding demo_world)) (coordinator (kv demo_world)) L) ∧
  ∃ k', on_coordinator (pools_free_blocks [(0, 5); (0, 2)]%nat) (kv demo_world) = Ok (tt, k').
Proof.
  destruct demo_world_reached as [Hrun Hout].
  destruct (manager_never_stuck (H := elements_iter) false (λ _, []) _ _ _ _ _ _ _ _ _ _ _ _ _ _ _ demo_manager
    demo_manager_new demo_groups_ok (λ _, demo_manager_model) demo_world Hrun) as (Hwf & _ & Hrel).
  split; [exact Hout|]. split; [exact Hwf|]. apply (Hrel _ [(0, 1); (0, 3); (0, 4)]%nat). rewrite Hout. solve_Permutation.
Defined.

(** [covers] as a test. *)
Definition covers_b (requests : list Request) (c : KVCacheCoordinator) : bool :=
  forallb (λ m, forallb (λ '(rid, bs), bool_decide (bs = []) || existsb (λ r, bool_decide (request_id r = rid)) requests)
    (map_to_list (req_to_blocks m))) (single_type_managers c).
Lemma covers_b_true requests c : covers_b requests c = true → covers requests c.
Proof.
  unfold covers_b. rewrite forallb_forall. intros Hall i m rid bs (m0 & _ & p & Hm0 & _ & _ & ->)%manager_at_inv Hb Hne.
  pose proof (Hall m0 (proj1 (list_elem_of_In _ _) (list_elem_of_lookup_2 _ _ _ Hm0))) as Hm. rewrite forallb_forall in Hm.
  specialize (Hm (rid, bs) (proj1 (list_elem_of_In _ _) (proj2 (elem_of_map_to_list _ _ _) Hb))). simpl in Hm.
  rewrite bool_decide_eq_false_2 in Hm by done. apply existsb_exists in Hm as (r & Hr & Hid%bool_decide_eq_true).
  exists r. split; [by apply list_elem_of_In|done].
Qed.

Lemma no_block_leaks_witness :
  ∃ k', drain [slots_demo_request] (outstanding (after demo_allocate (mkWorld demo_manager [])))
      (kv (after demo_allocate (mkWorld demo_manager []))) = Ok (true, k') ∧
    ∀ p, p ∈ block_pools (coordinator k') → get_num_free_blocks p = num_gpu_blocks p - 1 ∧ no_keys p.
Proof.
  apply (no_block_leaks (H := elements_iter) false (λ _, []) demo_config 64 8 4 (Some 16) true false 0 false false 1 1 None 1 []
    demo_manager demo_manager_new demo_groups_ok (λ _, demo_manager_model)).
  - exact demo_allocated_reached.
  - apply covers_b_true. vm_compute. reflexivity.
  - intros n Hn. exists full_layers. split; [right; left|]. revert Hn. vm_compute. lia.
Defined.
