(* ===== verification/Ngram.v ===== *)
(** * The n-gram proposer of speculative decoding

    [NgramProposer] of src/vllm/v1/spec_decode/ngram_proposer.py: the routine
    that drafts tokens by finding the longest n-gram of the context which
    matches its suffix (a Knuth-Morris-Pratt failure table over the reversed
    tokens, capped at [max_ngram] entries), the batched call that writes the
    drafts into buffers reused between steps, and [propose].

    The theorems compare the routine with a search that tries every length and
    every position, and show that drafts left in the buffers by earlier steps
    are never returned.  The number of numba threads is not modelled: the
    iterations of the parallel loop write rows of distinct indices. *)

From S2P Require Import Prelude.

(** ** The matching routine *)

(** [a[i] = v] on an array: a position outside it is an error. *)
Definition set_item {A} (l : list A) (i : Z) (v : A) : res (list A) :=
  if decide (0 ≤ i < len l) then Ok (<[Z.to_nat i := v]> l) else Raise IndexError.

(** The variables of the loop. *)
Record kmp := Kmp {
  lps : list Z;
  longest_ngram : Z;
  position : Z;
  prev_lps : Z;
  kmp_i : Z
}.

(** The body of the [while] loop: the flipped tokens, the cap and the variables. *)
Definition kmp_step (tokens : list Z) (max_ngram : Z) (s : kmp) : res kmp :=
  a ← index tokens (prev_lps s);
  b ← index tokens (kmp_i s);
  if decide (a = b) then
    let prev := prev_lps s + 1 in
    let better := bool_decide (longest_ngram s ≤ prev) in
    let longest := if better then prev else longest_ngram s in
    let pos := if better then kmp_i s else position s in
    table ← (if decide (kmp_i s < max_ngram) then set_item (lps s) (kmp_i s) prev
             else Ok (lps s));
    prev' ← (if decide (prev = max_ngram) then index table (max_ngram - 1) else Ok prev);
    Ok (Kmp table longest pos prev' (kmp_i s + 1))
  else if decide (prev_lps s ≠ 0) then
    prev' ← index (lps s) (prev_lps s - 1);
    Ok (Kmp (lps s) (longest_ngram s) (position s) prev' (kmp_i s))
  else Ok (Kmp (lps s) (longest_ngram s) (position s) (prev_lps s) (kmp_i s + 1)).

Fixpoint kmp_loop (fuel : nat) (tokens : list Z) (max_ngram : Z) (s : kmp) : res kmp :=
  if decide (kmp_i s < len tokens) then
    match fuel with
    | O => Raise OutOfFuel
    | S fuel => s' ← kmp_step tokens max_ngram s; kmp_loop fuel tokens max_ngram s'
    end
  else Ok s.

Definition find_longest_matched_ngram_and_propose_tokens
    (origin_tokens : list Z) (min_ngram max_ngram max_model_len k : Z) : res (list Z) :=
  let total_token := len origin_tokens in
  if decide (total_token < min_ngram) then Ok [] else
  let k := Z.min k (max_model_len - total_token) in
  if decide (k ≤ 0) then Ok [] else
  let tokens := reverse origin_tokens in
  s ← kmp_loop (2 * length origin_tokens) tokens max_ngram
        (Kmp (replicate (Z.to_nat max_ngram) 0) 0 0 0 1);
  if decide (longest_ngram s < min_ngram) then Ok [] else
  let start_position := total_token - 1 - position s + longest_ngram s in
  let k := Z.min k (total_token - start_position) in
  Ok (slice origin_tokens start_position (start_position + k)).

(** ** The batch *)

(** The configuration and the buffers of the proposer; the buffers persist
    from one step to the next. *)
Record NgramProposer := {
  min_n : Z;
  max_n : Z;
  ng_k : Z;
  ng_max_model_len : Z;
  valid_ngram_draft : list (list Z);
  valid_ngram_num_drafts : list Z
}.

#[global] Instance eta_NgramProposer : Eta NgramProposer := λ p, {|
  min_n := min_n p; max_n := max_n p; ng_k := ng_k p; ng_max_model_len := ng_max_model_len p;
  valid_ngram_draft := valid_ngram_draft p; valid_ngram_num_drafts := valid_ngram_num_drafts p |}.

Definition NgramProposer_init (prompt_lookup_min prompt_lookup_max num_speculative_tokens
    max_model_len max_num_seqs : Z) : NgramProposer := {|
  min_n := prompt_lookup_min;
  max_n := prompt_lookup_max;
  ng_k := num_speculative_tokens;
  ng_max_model_len := max_model_len;
  valid_ngram_draft := replicate (Z.to_nat max_num_seqs)
    (replicate (Z.to_nat num_speculative_tokens) 0);
  valid_ngram_num_drafts := replicate (Z.to_nat max_num_seqs) 0 |}.

(** [row[: len(out)] = out]: numpy refuses a slice of another length. *)
Definition write_prefix (row out : list Z) : res (list Z) :=
  if decide (len out ≤ len row) then Ok (out ++ drop (length out) row) else Raise ValueError.

(** The iteration of [batch_propose_numba] for the request [idx]. *)
Definition propose_row (num_tokens_no_spec : list Z) (token_ids_cpu : list (list Z))
    (k : Z) (idx : Z) : M NgramProposer unit :=
  num_tokens ← lift_res (index num_tokens_no_spec idx);
  row ← lift_res (index token_ids_cpu idx);
  p ← gets id;
  drafter_output ← lift_res (find_longest_matched_ngram_and_propose_tokens
    (slice_to row num_tokens) (min_n p) (max_n p) (ng_max_model_len p) k);
  counts ← lift_res (set_item (valid_ngram_num_drafts p) idx (len drafter_output));
  _ ← modify (λ p, p <| valid_ngram_num_drafts := counts |>);
  if decide (0 < len drafter_output) then
    draft ← lift_res (index (valid_ngram_draft p) idx);
    draft' ← lift_res (write_prefix draft drafter_output);
    rows ← lift_res (set_item (valid_ngram_draft p) idx draft');
    modify (λ p, p <| valid_ngram_draft := rows |>)
  else mret tt.

Definition batch_propose_numba (valid_ngram_requests num_tokens_no_spec : list Z)
    (token_ids_cpu : list (list Z)) (k : Z) : M NgramProposer unit :=
  for_ valid_ngram_requests (propose_row num_tokens_no_spec token_ids_cpu k).

(** The draft of the request [i], read back from the buffers. *)
Definition read_draft (valid_ngram_requests : list Z) (i : Z) : M NgramProposer (list Z) :=
  if decide (i ∈ valid_ngram_requests) then
    p ← gets id;
    n ← lift_res (index (valid_ngram_num_drafts p) i);
    if decide (0 < n) then
      row ← lift_res (index (valid_ngram_draft p) i);
      mret (slice_to row n)
    else mret []
  else mret [].

Definition batch_propose (num_requests : Z) (valid_ngram_requests num_tokens_no_spec : list Z)
    (token_ids_cpu : list (list Z)) (k : Z) : M NgramProposer (list (list Z)) :=
  _ ← (if decide (0 < len valid_ngram_requests)
       then batch_propose_numba valid_ngram_requests num_tokens_no_spec token_ids_cpu k
       else mret tt);
  map_m (read_draft valid_ngram_requests) (range 0 num_requests).

(** The requests that need drafts: a token was sampled and there is room left. *)
Definition needs_draft (sampled_token_ids : list (list Z)) (num_tokens_no_spec : list Z)
    (valid : list Z) (i : Z) : M NgramProposer (list Z) :=
  sampled_ids ← lift_res (index sampled_token_ids i);
  if decide (len sampled_ids = 0) then mret valid else
  num_tokens ← lift_res (index num_tokens_no_spec i);
  limit ← gets ng_max_model_len;
  mret (if decide (limit ≤ num_tokens) then valid else valid ++ [i]).

Definition propose (num_speculative_tokens : Z) (sampled_token_ids : list (list Z))
    (num_tokens_no_spec : list Z) (token_ids_cpu : list (list Z)) :
    M NgramProposer (list (list Z)) :=
  k ← gets ng_k;
  _ ← assert_ (bool_decide (num_speculative_tokens ≤ k));
  valid_ngram_requests ← for_acc (range 0 (len sampled_token_ids)) []
    (needs_draft sampled_token_ids num_tokens_no_spec);
  batch_propose (len sampled_token_ids) valid_ngram_requests num_tokens_no_spec token_ids_cpu
    num_speculative_tokens.

(** ** Borders

    [v] is a border of the first [e] tokens when the [v] first of them are also
    the [v] last of them. *)

Section borders.
Context (t : list Z).

Definition border (e v : nat) : Prop :=
  (v < e)%nat ∧ ∀ j, (j < v)%nat → t !! j = t !! (e - v + j)%nat.

(** The longest border of the first [e] tokens. *)
Definition longest_border (e v : nat) : Prop :=
  border e v ∧ ∀ w, border e w → (w ≤ v)%nat.

Lemma border_zero e : (0 < e)%nat → border e 0.
Proof. split; [lia|]. intros; lia. Qed.

Lemma border_extend e v : border e v → t !! v = t !! e → border (S e) (S v).
Proof.
  intros [Hv Hb] He. split; [lia|]. intros j Hj. destruct (decide (j = v)) as [->|Hne].
  - rewrite He. f_equal; lia.
  - rewrite Hb by lia. f_equal; lia.
Qed.

Lemma border_shrink e v : border (S e) (S v) → border e v ∧ t !! v = t !! e.
Proof.
  intros [Hv Hb]. split.
  - split; [lia|]. intros j Hj. rewrite Hb by lia. f_equal; lia.
  - rewrite Hb by lia. f_equal; lia.
Qed.

Lemma border_trans e v w : border e v → border v w → border e w.
Proof.
  intros [Hv Hb] [Hw Hb']. split; [lia|]. intros j Hj.
  rewrite Hb' by lia. rewrite Hb by lia. f_equal; lia.
Qed.

Lemma border_nest e v w : border e v → border e w → (w < v)%nat → border v w.
Proof.
  intros [Hv Hb] [Hw Hb'] Hlt. split; [lia|]. intros j Hj.
  rewrite Hb' by lia. rewrite (Hb (v - w + j)%nat) by lia. f_equal; lia.
Qed.

Lemma longest_border_one : longest_border 1 0.
Proof. split; [apply border_zero; lia|]. intros w [Hw _]. lia. Qed.

End borders.

(** ** The loop keeps the failure table and the best match *)

Section loop.
Context (t : list Z) (m : nat) (Hm : (1 ≤ m)%nat).

(** The table holds the longest border of each prefix up to the cap. *)
Definition table_ok (table : list nat) (i : nat) : Prop :=
  length table = m ∧
  ∀ j v, table !! j = Some v → if decide (j < i)%nat then longest_border t (S j) v else v = 0%nat.

(** [longest] is the longest capped border among the prefixes seen, and
    [S pos] the last prefix that has it. *)
Definition best_ok (longest pos i : nat) : Prop :=
  (∀ e v, (e ≤ i)%nat → (0 < v ≤ m)%nat → border t e v →
     (v ≤ longest)%nat ∧ (v = longest → (e ≤ S pos)%nat)) ∧
  ((0 < longest)%nat → border t (S pos) longest ∧ (longest ≤ m)%nat ∧ (pos < i)%nat).

(** [prev] is a border of the first [i] tokens, and no longer one below the cap
    can be extended by the next token. *)
Definition prev_ok (prev i : nat) : Prop :=
  border t i prev ∧ (prev < m)%nat ∧
  ∀ w, (w < m)%nat → border t (S i) (S w) → (w ≤ prev)%nat.

Definition loop_state (table : list nat) (longest pos prev i : nat) : kmp :=
  Kmp (Z.of_nat <$> table) (Z.of_nat longest) (Z.of_nat pos) (Z.of_nat prev) (Z.of_nat i).

Definition loop_ok (table : list nat) (longest pos prev i : nat) : Prop :=
  table_ok table i ∧ best_ok longest pos i ∧ prev_ok prev i ∧ (i ≤ length t ∨ i = 1)%nat.

Lemma loop_ok_init : loop_ok (replicate m 0%nat) 0 0 0 1.
Proof.
  split; [split|split; [|split; [|by right]]].
  - by rewrite length_replicate.
  - intros j v Hj. apply lookup_replicate in Hj as [-> Hj].
    case_decide; [|done]. replace j with 0%nat by lia. apply longest_border_one.
  - split; [|lia]. intros e v He Hv [Hlt _]. lia.
  - split; [apply border_zero; lia|]. split; [lia|]. intros w _ [Hw _]. lia.
Qed.

Lemma table_lookup table i j : table_ok table i → (j < m)%nat → (j < i)%nat →
  ∃ v, table !! j = Some v ∧ longest_border t (S j) v.
Proof.
  intros [Hl Ht] Hj Hi. destruct (lookup_lt_is_Some_2 table j) as [v Hv]; [lia|].
  exists v. split; [done|]. specialize (Ht _ _ Hv). by rewrite decide_True in Ht by lia.
Qed.

Lemma index_table (table : list nat) j v : table !! j = Some v →
  index (Z.of_nat <$> table) (Z.of_nat j) = Ok (Z.of_nat v).
Proof.
  intros Hv. apply index_Ok; [lia|]. by rewrite Nat2Z.id, list_lookup_fmap, Hv.
Qed.

Lemma index_token j a : t !! j = Some a → index t (Z.of_nat j) = Ok a.
Proof. intros Ha. apply index_Ok; [lia|]. by rewrite Nat2Z.id. Qed.

(** What a match establishes: the extended border is the longest capped one. *)
Lemma match_longest prev i : prev_ok prev i → t !! prev = t !! i →
  border t (S i) (S prev) ∧ ∀ v, (v ≤ m)%nat → border t (S i) v → (v ≤ S prev)%nat.
Proof.
  intros (Hb & Hp & Hmax) He. split; [by apply border_extend|].
  intros [|w] Hw Hbw; [lia|]. specialize (Hmax w). lia || (specialize (Hmax ltac:(lia) Hbw); lia).
Qed.

Lemma table_extend table i v : table_ok table i → (1 ≤ i)%nat → longest_border t (S i) v ∨ (m ≤ i)%nat →
  table_ok (if decide (i < m)%nat then <[i := v]> table else table) (S i).
Proof.
  intros [Hl Ht] Hi Hv. split; [case_decide; by rewrite ?length_insert|].
  intros j u. case_decide as Him.
  - destruct Hv as [Hv|?]; [|lia]. destruct (decide (i = j)) as [<-|Hne].
    + rewrite list_lookup_insert_eq by lia. intros [= <-]. by rewrite decide_True by lia.
    + rewrite list_lookup_insert_ne by done. intros Hu. specialize (Ht _ _ Hu).
      repeat case_decide; try lia; done.
  - intros Hu. assert (j < m)%nat by (rewrite <- Hl; by eapply lookup_lt_Some).
    specialize (Ht _ _ Hu). rewrite decide_True in Ht by lia. by rewrite decide_True by lia.
Qed.

Lemma best_extend longest pos prev i :
  best_ok longest pos i → border t (S i) (S prev) → (S prev ≤ m)%nat →
  (∀ v, (v ≤ m)%nat → border t (S i) v → (v ≤ S prev)%nat) →
  best_ok (if decide (longest ≤ S prev)%nat then S prev else longest)
          (if decide (longest ≤ S prev)%nat then i else pos) (S i).
Proof.
  intros [Hall Hbest] Hb Hc Hmax. split.
  - intros e v He Hv Hev. destruct (decide (e = S i)) as [->|Hne].
    + specialize (Hmax v ltac:(lia) Hev). case_decide; lia.
    + destruct (Hall e v ltac:(lia) Hv Hev). case_decide; lia.
  - intros Hpos. case_decide; [by auto with lia|].
    destruct (Hbest Hpos) as (? & ? & ?). auto with lia.
Qed.

Lemma best_skip longest pos i : best_ok longest pos i →
  (∀ v, (0 < v ≤ m)%nat → ¬ border t (S i) v) → best_ok longest pos (S i).
Proof.
  intros [Hall Hbest] Hno. split.
  - intros e v He Hv Hev. destruct (decide (e = S i)) as [->|Hne]; [by edestruct Hno|].
    apply Hall; [lia|done|done].
  - intros Hpos. destruct (Hbest Hpos) as (? & ? & ?). auto with lia.
Qed.

Lemma prev_extend prev i : border t (S i) (S prev) →
  (∀ v, (v ≤ m)%nat → border t (S i) v → (v ≤ S prev)%nat) → (S prev < m)%nat →
  prev_ok (S prev) (S i).
Proof.
  intros Hb Hmax Hlt. repeat split; [apply Hb|apply Hb|done|].
  intros w Hw [Hbw _]%border_shrink. apply Hmax; [lia|done].
Qed.

(** A match of [max_ngram] tokens goes on with the longest border of the n-gram. *)
Lemma prev_wrap i v : border t (S i) m → longest_border t m v → prev_ok v (S i).
Proof.
  intros Hb [Hv Hmax]. split; [by eapply border_trans|]. split; [apply Hv|].
  intros w Hw [Hbw _]%border_shrink. apply Hmax. by eapply border_nest.
Qed.

(** A mismatch goes on with the longest border of the matched prefix. *)
Lemma prev_fallback prev i v : prev_ok (S prev) i → t !! S prev ≠ t !! i →
  longest_border t (S prev) v → prev_ok v i.
Proof.
  intros (Hb & Hp & Hmax) Hne [Hv Hlong]. split; [by eapply border_trans|].
  split; [destruct Hv; lia|]. intros w Hw Hbw. pose proof (Hmax w Hw Hbw) as Hle.
  apply border_shrink in Hbw as [Hbw He].
  destruct (decide (w = S prev)) as [->|]; [done|].
  apply Hlong. eapply border_nest; [done|done|lia].
Qed.

(** A mismatch with the empty prefix: the next token extends no border. *)
Lemma no_match_no_border i : prev_ok 0 i → t !! 0%nat ≠ t !! i →
  ∀ v, (0 < v ≤ m)%nat → ¬ border t (S i) v.
Proof.
  intros (Hb & Hp & Hmax) Hne [|w] Hw Hbw; [lia|].
  pose proof (Hmax w ltac:(lia) Hbw). apply border_shrink in Hbw as [_ He].
  by replace w with 0%nat in He by lia.
Qed.

Lemma next_prev table prev i : table_ok table (S i) → border t (S i) (S prev) →
  (∀ v, (v ≤ m)%nat → border t (S i) v → (v ≤ S prev)%nat) → (prev < m)%nat →
  ∃ prev', (if decide (Z.of_nat prev + 1 = Z.of_nat m) then
              index (Z.of_nat <$> table) (Z.of_nat m - 1)
            else Ok (Z.of_nat prev + 1)) = Ok (Z.of_nat prev') ∧
    prev_ok prev' (S i) ∧ (prev' ≤ S prev)%nat.
Proof.
  intros Ht Hb Hmax Hlt. case_decide as Hc.
  - assert (m = S prev) as Hmp by lia.
    destruct (table_lookup table (S i) prev) as (v & Hv & Hlong);
      [done|done|destruct Hb; lia|]. exists v. split.
    + rewrite <- (index_table _ _ _ Hv). f_equal. lia.
    + rewrite <- Hmp in Hlong, Hb. split; [by apply prev_wrap|]. destruct Hlong as [[? _] _]. lia.
  - exists (S prev). split; [f_equal; lia|]. split; [|lia]. apply prev_extend; [done|done|lia].
Qed.

Lemma store_table table i v : length table = m →
  (if decide (Z.of_nat i < Z.of_nat m) then
     set_item (Z.of_nat <$> table) (Z.of_nat i) (Z.of_nat v + 1)
   else Ok (Z.of_nat <$> table)) =
  Ok (Z.of_nat <$> (if decide (i < m)%nat then <[i := S v]> table else table)).
Proof.
  intros Hl. repeat case_decide; try lia; [|done]. unfold set_item, len.
  rewrite length_fmap, Hl, decide_True, Nat2Z.id, list_fmap_insert by lia.
  do 3 f_equal. lia.
Qed.

Lemma step_match table longest pos prev i :
  loop_ok table longest pos prev i → (i < length t)%nat → t !! prev = t !! i →
  ∃ table' longest' pos' prev',
    kmp_step t (Z.of_nat m) (loop_state table longest pos prev i) =
      Ok (loop_state table' longest' pos' prev' (S i)) ∧
    loop_ok table' longest' pos' prev' (S i) ∧ (prev' ≤ S prev)%nat.
Proof.
  intros (Ht & Hbest & Hprev & _) Hi He.
  destruct (match_longest _ _ Hprev He) as [Hb Hmax].
  destruct (lookup_lt_is_Some_2 t i Hi) as [a Ha]. destruct Hprev as ([Hpi _] & Hpm & _).
  set (table' := if decide (i < m)%nat then <[i := S prev]> table else table).
  assert (table_ok table' (S i)) as Ht'.
  { apply table_extend; [done|lia|]. destruct (decide (i < m)%nat); [left|right; lia].
    split; [done|]. intros w Hw. apply Hmax; [destruct Hw; lia|done]. }
  destruct (next_prev table' prev i Ht' Hb Hmax Hpm) as (prev' & Hnext & Hp' & Hle).
  exists table', (if decide (longest ≤ S prev)%nat then S prev else longest),
    (if decide (longest ≤ S prev)%nat then i else pos), prev'.
  split; [|by split; [split; [|split; [by apply best_extend; try lia|split; [|left]]]|]].
  unfold kmp_step, loop_state; simpl.
  rewrite (index_token prev a), (index_token i a) by congruence. simpl.
  rewrite decide_True by done. rewrite (store_table table i prev (proj1 Ht)). fold table'. simpl.
  rewrite Hnext. simpl. do 2 f_equal; [| |lia];
    clear Hnext; case_bool_decide; case_decide; done || lia.
Qed.

Lemma step_mismatch table longest pos prev i :
  loop_ok table longest pos (S prev) i → (i < length t)%nat → t !! S prev ≠ t !! i →
  ∃ prev',
    kmp_step t (Z.of_nat m) (loop_state table longest pos (S prev) i) =
      Ok (loop_state table longest pos prev' i) ∧
    loop_ok table longest pos prev' i ∧ (prev' ≤ prev)%nat.
Proof.
  intros (Ht & Hbest & Hprev & Hlen) Hi Hne. destruct (Hprev) as ([Hpi _] & Hpm & _).
  destruct (lookup_lt_is_Some_2 t i Hi) as [a Ha].
  destruct (lookup_lt_is_Some_2 t (S prev)) as [b Hb]; [lia|].
  destruct (table_lookup table i prev) as (v & Hv & Hlong); [done|lia|lia|].
  exists v. split; [|split; [|destruct Hlong as [[? _] _]; lia]].
  - unfold kmp_step, loop_state; simpl.
    rewrite (index_token i a), (index_token (S prev) b) by done. simpl.
    rewrite decide_False by congruence.
    replace (Z.of_nat (S prev) - 1) with (Z.of_nat prev) by lia. by rewrite (index_table _ _ _ Hv).
  - split; [done|]. split; [done|]. split; [|done]. by eapply prev_fallback.
Qed.

Lemma step_zero table longest pos i :
  loop_ok table longest pos 0 i → (i < length t)%nat → t !! 0%nat ≠ t !! i →
  kmp_step t (Z.of_nat m) (loop_state table longest pos 0 i) =
    Ok (loop_state table longest pos 0 (S i)) ∧
  loop_ok table longest pos 0 (S i).
Proof.
  intros (Ht & Hbest & Hprev & Hlen) Hi Hne. destruct (Hprev) as ([Hpi _] & Hpm & _).
  destruct (lookup_lt_is_Some_2 t i Hi) as [a Ha].
  destruct (lookup_lt_is_Some_2 t 0) as [b Hb]; [lia|].
  pose proof (no_match_no_border i Hprev Hne) as Hno. split.
  - unfold kmp_step, loop_state; simpl.
    rewrite (index_token i a), (index_token 0 b) by done. simpl.
    rewrite decide_False by congruence. do 2 f_equal. lia.
  - split; [|split; [by apply best_skip|split; [|by left]]].
    + destruct Ht as [Hl Ht]. split; [done|]. intros j v Hv. specialize (Ht _ _ Hv).
      repeat case_decide; try lia; [done|]. replace j with i by lia. subst v.
      split; [by apply border_zero; lia|]. intros w Hw. destruct (decide (w = 0)%nat); [lia|].
      destruct (Hno w); [|done]. assert (j < m)%nat by (rewrite <- Hl; by eapply lookup_lt_Some).
      destruct Hw. lia.
    + split; [apply border_zero; lia|]. split; [done|]. intros w Hw [Hbw _]%border_shrink.
      destruct w as [|w]; [done|]. destruct (Hno (S w)); [lia|done].
Qed.

Lemma kmp_loop_exit fuel table longest pos prev i :
  loop_ok table longest pos prev i → ¬ (i < length t)%nat →
  ∃ table' longest' pos' prev' i',
    kmp_loop fuel t (Z.of_nat m) (loop_state table longest pos prev i) =
      Ok (loop_state table' longest' pos' prev' i') ∧
    best_ok longest' pos' i' ∧ (length t ≤ i')%nat ∧ (pos' < length t ∨ longest' = 0)%nat.
Proof.
  intros (_ & Hbest & _ & Hlen) Hi. exists table, longest, pos, prev, i.
  split; [destruct fuel; simpl; unfold len; by rewrite decide_False by lia|].
  split; [done|]. split; [lia|]. destruct longest as [|longest]; [by right|left].
  destruct Hbest as [_ Hbest]. destruct Hbest as ([Hlt _] & _ & Hpos); lia.
Qed.

(** The loop returns, within twice as many iterations as there are tokens. *)
Lemma kmp_loop_ok fuel table longest pos prev i :
  loop_ok table longest pos prev i → (2 * (length t - i) + prev ≤ fuel)%nat →
  ∃ table' longest' pos' prev' i',
    kmp_loop fuel t (Z.of_nat m) (loop_state table longest pos prev i) =
      Ok (loop_state table' longest' pos' prev' i') ∧
    best_ok longest' pos' i' ∧ (length t ≤ i')%nat ∧ (pos' < length t ∨ longest' = 0)%nat.
Proof.
  revert table longest pos prev i. induction fuel as [|fuel IH];
    intros table longest pos prev i Hok Hf.
  all: destruct (decide (i < length t)%nat) as [Hi|Hi]; [|by apply kmp_loop_exit].
  { lia. }
  simpl. unfold len. rewrite decide_True by lia.
  destruct (decide (t !! prev = t !! i)) as [He|He]; [|destruct prev as [|prev]].
  - destruct (step_match _ _ _ _ _ Hok Hi He) as (table' & longest' & pos' & prev' & -> & Hok' & Hle).
    simpl. apply IH; [done|lia].
  - destruct (step_zero _ _ _ _ Hok Hi He) as [-> Hok']. simpl. apply IH; [done|lia].
  - destruct (step_mismatch _ _ _ _ _ Hok Hi He) as (prev' & -> & Hok' & Hle).
    simpl. apply IH; [done|lia].
Qed.

End loop.

(** ** The reference search

    [earlier_match l v s]: the last [v] tokens of [l] also occur at [s], before
    their final occurrence. *)

Definition earlier_match (l : list Z) (v s : nat) : Prop :=
  (s + v < length l)%nat ∧ take v (drop s l) = drop (length l - v) l.

#[global] Instance earlier_match_dec l v s : Decision (earlier_match l v s).
Proof. unfold earlier_match. apply _. Defined.

(** The first position where the last [v] tokens occur. *)
Definition first_match (l : list Z) (v : nat) : option nat :=
  head (filter (earlier_match l v) (seq 0 (length l))).

(** The longest n-gram of at most [v] and at least [lo] tokens, from the
    longest length down. *)
Fixpoint longest_match (l : list Z) (lo v : nat) : option (nat * nat) :=
  match v with
  | O => None
  | S v' =>
      if decide (v < lo)%nat then None
      else match first_match l v with
           | Some s => Some (v, s)
           | None => longest_match l lo v'
           end
  end.

(** The tokens that follow the match: at most [k], and the draft never goes
    beyond the maximum length of the model. *)
Definition reference_propose (l : list Z) (lo hi limit k : Z) : list Z :=
  match longest_match l (Z.to_nat lo) (Z.to_nat hi) with
  | Some (v, s) => take (Z.to_nat (Z.min k (limit - len l))) (drop (s + v) l)
  | None => []
  end.

Lemma head_filter_seq (P : nat → Prop) `{∀ s, Decision (P s)} a n s :
  (a ≤ s < a + n)%nat → P s → (∀ s', (a ≤ s' < s)%nat → ¬ P s') →
  head (filter P (seq a n)) = Some s.
Proof.
  revert a. induction n as [|n IH]; intros a Hs HP Hmin; [lia|]. simpl.
  destruct (decide (a = s)) as [->|Hne]; [by rewrite filter_cons_True|].
  rewrite filter_cons_False by (apply Hmin; lia). apply IH; [lia|done|]. intros; apply Hmin; lia.
Qed.

Lemma first_match_Some l v s : earlier_match l v s →
  (∀ s', earlier_match l v s' → (s ≤ s')%nat) → first_match l v = Some s.
Proof.
  intros Hs Hmin. apply head_filter_seq; [destruct Hs; lia|done|].
  intros s' Hs' Hm. specialize (Hmin _ Hm). lia.
Qed.

Lemma first_match_None l v : (∀ s, ¬ earlier_match l v s) → first_match l v = None.
Proof.
  intros Hno. unfold first_match.
  induction (seq 0 (length l)) as [|s ss IH]; [done|]. by rewrite filter_cons_False.
Qed.

Lemma longest_match_Some l lo hi v s :
  (0 < lo ≤ v)%nat → (v ≤ hi)%nat → earlier_match l v s →
  (∀ s', earlier_match l v s' → (s ≤ s')%nat) →
  (∀ w s', (v < w ≤ hi)%nat → ¬ earlier_match l w s') →
  longest_match l lo hi = Some (v, s).
Proof.
  intros Hv Hle Hs Hmin Hlong. induction hi as [|hi IH]; [lia|]. cbn -[decide].
  rewrite decide_False by lia. destruct (decide (v = S hi)) as [->|Hne].
  - by rewrite (first_match_Some l (S hi) s).
  - rewrite first_match_None by (intros s'; apply Hlong; lia).
    apply IH; [lia|]. intros w s' Hw. apply Hlong. lia.
Qed.

Lemma longest_match_None l lo hi :
  (∀ v s, (lo ≤ v ≤ hi)%nat → ¬ earlier_match l v s) → longest_match l lo hi = None.
Proof.
  induction hi as [|hi IH]; intros Hno; [done|]. cbn -[decide]. case_decide; [done|].
  rewrite first_match_None by (intros s; apply Hno; lia). apply IH.
  intros v s Hv. apply Hno. lia.
Qed.

(** Borders of the flipped tokens are the earlier occurrences of suffixes. *)
Lemma border_reverse l e v : (e ≤ length l)%nat →
  border (reverse l) e v ↔ (v < e)%nat ∧ earlier_match l v (length l - e).
Proof.
  intros He. unfold border, earlier_match. split.
  - intros [Hv Hb]. split; [done|]. split; [lia|]. apply list_eq. intros j.
    destruct (decide (j < v)%nat) as [Hj|Hj].
    + rewrite lookup_take_lt, !lookup_drop by done.
      specialize (Hb (v - 1 - j)%nat ltac:(lia)). rewrite !reverse_lookup in Hb by lia.
      etrans; [|etrans; [symmetry; exact Hb|]]; f_equal; lia.
    + rewrite lookup_take_ge by lia. rewrite lookup_drop, lookup_ge_None_2; [done|lia].
  - intros [Hv [Hs Heq]]. split; [done|]. intros j Hj.
    apply (f_equal (λ x : list Z, x !! (v - 1 - j)%nat)) in Heq.
    rewrite lookup_take_lt, !lookup_drop in Heq by lia. rewrite !reverse_lookup by lia.
    etrans; [|etrans; [symmetry; exact Heq|]]; f_equal; lia.
Qed.

(** What the loop found, in the original order. *)
Lemma best_longest_match l lo m longest pos i :
  (1 ≤ lo)%nat → best_ok (reverse l) m longest pos i → (length l ≤ i)%nat →
  (pos < length l ∨ longest = 0)%nat →
  longest_match l lo m =
    if decide (longest < lo)%nat then None else Some (longest, length l - S pos)%nat.
Proof.
  intros Hlo [Hall Hbest] Hi Hpos.
  assert (∀ v s, (0 < v ≤ m)%nat → earlier_match l v s →
    (v ≤ longest)%nat ∧ (v = longest → (length l - S pos ≤ s)%nat)) as Hmatch.
  { intros v s Hv Hs. destruct (Hall (length l - s)%nat v); [lia|done| |lia].
    apply border_reverse; [lia|]. pose proof (proj1 Hs). split; [lia|].
    by replace (length l - (length l - s))%nat with s by lia. }
  case_decide as Hlt.
  - apply longest_match_None. intros v s Hv Hs.
    destruct (Hmatch v s ltac:(lia) Hs). lia.
  - destruct Hbest as (Hb & Hm & _); [lia|].
    apply border_reverse in Hb as [Hv Hb]; [|lia].
    apply longest_match_Some; [lia|done|done| |].
    + intros s' Hs'. by apply (Hmatch longest s' ltac:(lia) Hs').
    + intros w s' Hw Hs'. destruct (Hmatch w s' ltac:(lia) Hs'). lia.
Qed.

Lemma find_exact l lo hi limit k : 1 ≤ lo ≤ hi →
  find_longest_matched_ngram_and_propose_tokens l lo hi limit k =
    Ok (reference_propose l lo hi limit k).
Proof.
  intros Hlo. unfold find_longest_matched_ngram_and_propose_tokens, reference_propose.
  case_decide as Hn.
  { rewrite longest_match_None; [done|]. intros v s Hv [Hs _]. unfold len in Hn. lia. }
  case_decide as Hk.
  { rewrite (Z2Nat.nonpos _ Hk). by destruct (longest_match _ _ _) as [[??]|]. }
  destruct (kmp_loop_ok (reverse l) (Z.to_nat hi) ltac:(lia) (2 * length l)
    (replicate (Z.to_nat hi) 0%nat) 0 0 0 1) as (table & longest & pos & prev & i & Hrun & Hbest & Hi & Hpos).
  { apply loop_ok_init. lia. }
  { rewrite length_reverse. lia. }
  rewrite Z2Nat.id in Hrun by lia. unfold loop_state in Hrun.
  rewrite fmap_replicate in Hrun. change (Z.of_nat 0) with 0 in Hrun. change (Z.of_nat 1) with 1 in Hrun. rewrite Hrun. clear Hrun. simpl.
  rewrite length_reverse in Hi, Hpos.
  rewrite (best_longest_match l (Z.to_nat lo) (Z.to_nat hi) longest pos i) by (done || lia).
  repeat case_decide; try lia; [done|].
  destruct Hbest as [_ Hbest]. destruct Hbest as ([Hlt _] & _); [lia|].
  unfold len in *. f_equal. rewrite slice_in by (unfold len; lia).
  replace (Z.to_nat (Z.of_nat (length l) - 1 - Z.of_nat pos + Z.of_nat longest))
    with (length l - S pos + longest)%nat by lia.
  destruct (decide (Z.min k (limit - Z.of_nat (length l)) ≤ 1 + Z.of_nat pos - Z.of_nat longest)).
  - f_equal. lia.
  - rewrite !take_ge; [done|rewrite length_drop; lia..].
Qed.

(** ** The buffers *)

Section batch.
Context (nums : list Z) (ids : list (list Z)) (k rows : Z).

(** The buffers have a row for each of [rows] requests, wide enough for [k] drafts. *)
Record proposer_ok (p : NgramProposer) : Prop := {
  po_lengths : 1 ≤ min_n p ≤ max_n p;
  po_counts : len (valid_ngram_num_drafts p) = rows;
  po_rows : len (valid_ngram_draft p) = rows;
  po_width : ∀ i row, valid_ngram_draft p !! i = Some row → k ≤ len row
}.

(** The draft of the request [i]. *)
Definition draft_of (p : NgramProposer) (i : Z) : list Z :=
  match nums !! Z.to_nat i, ids !! Z.to_nat i with
  | Some n, Some row =>
      reference_propose (slice_to row n) (min_n p) (max_n p) (ng_max_model_len p) k
  | _, _ => []
  end.

(** The two proposers have the same configuration. *)
Definition same_config (p p' : NgramProposer) : Prop :=
  min_n p' = min_n p ∧ max_n p' = max_n p ∧ ng_k p' = ng_k p ∧
  ng_max_model_len p' = ng_max_model_len p.

(** The buffers hold the draft of the request [i]. *)
Definition draft_stored (p : NgramProposer) (d : list Z) (i : Z) : Prop :=
  valid_ngram_num_drafts p !! Z.to_nat i = Some (len d) ∧
  ∃ row, valid_ngram_draft p !! Z.to_nat i = Some row ∧ take (length d) row = d.

Lemma draft_of_same p p' i : same_config p p' → draft_of p' i = draft_of p i.
Proof. intros (H1 & H2 & _ & H4). unfold draft_of. by rewrite H1, H2, H4. Qed.

Lemma draft_of_length p i : len (draft_of p i) ≤ Z.max 0 k.
Proof.
  unfold draft_of, reference_propose.
  destruct (nums !! _) as [n|]; [|done || (unfold len; simpl; lia)].
  destruct (ids !! _) as [row|]; [|unfold len; simpl; lia].
  destruct (longest_match _ _ _) as [[v s]|]; [|unfold len; simpl; lia].
  unfold len at 1. rewrite length_take. lia.
Qed.

Lemma set_item_Ok {A} (l : list A) i v : 0 ≤ i < len l → set_item l i v = Ok (<[Z.to_nat i := v]> l).
Proof. intros. unfold set_item. by rewrite decide_True. Qed.

Lemma write_prefix_Ok row out : len out ≤ len row →
  write_prefix row out = Ok (out ++ drop (length out) row).
Proof. intros. unfold write_prefix. by rewrite decide_True. Qed.

(** An iteration stores the draft of its request and keeps the other rows. *)
Lemma propose_row_spec p i : proposer_ok p → 0 ≤ i < rows → i < len nums → i < len ids →
  wp (propose_row nums ids k i)
    (λ _ p', proposer_ok p' ∧ same_config p p' ∧ draft_stored p' (draft_of p i) i ∧
       ∀ j d, 0 ≤ j → j ≠ i → draft_stored p d j → draft_stored p' d j) p.
Proof.
  intros [Hl Hc Hr Hw] Hi Hn Hd. unfold propose_row.
  destruct (index_in_range nums i) as (n & En & Ln); [lia|].
  destruct (index_in_range ids i) as (row & Ed & Ld); [lia|].
  destruct (index_in_range (valid_ngram_draft p) i) as (draft & Er & Lr); [lia|].
  pose proof (draft_of_length p i) as Hlen. pose proof (Hw _ _ Lr) as Hwide.
  assert (draft_of p i = reference_propose (slice_to row n) (min_n p) (max_n p)
    (ng_max_model_len p) k) as Hdraft by (unfold draft_of; by rewrite Ln, Ld).
  wp_steps. eapply wp_lift; [done|]. wp_steps. eapply wp_lift; [done|]. wp_steps. unfold id.
  eapply wp_lift; [apply find_exact; done|]. rewrite <- Hdraft. wp_steps.
  eapply wp_lift; [apply set_item_Ok; simpl; lia|]. wp_steps. simpl.
  assert (∀ j, 0 ≤ j → j ≠ i → Z.to_nat j ≠ Z.to_nat i) as Hne by lia.
  case_decide as Hpos.
  - wp_steps. eapply wp_lift; [done|]. wp_steps.
    eapply wp_lift; [apply write_prefix_Ok; lia|]. wp_steps.
    eapply wp_lift; [apply set_item_Ok; lia|]. wp_steps. split; [|split; [done|split]].
    + split; simpl; [done|unfold len in *; by rewrite length_insert..|].
      intros j r' Hj. apply list_lookup_insert_Some in Hj as [(<- & <- & _)|[_ Hj]]; [|by eapply Hw].
      unfold len in *. rewrite length_app, length_drop. lia.
    + unfold len in Hc, Hr. split; simpl; [by rewrite list_lookup_insert_eq by lia|].
      eexists. rewrite list_lookup_insert_eq by lia. split; [done|]. by rewrite take_app_length.
    + intros j d Hj Hji [Hcj Hrj]. split; simpl; rewrite list_lookup_insert_ne by (symmetry; auto);
        done.
  - wp_steps. split; [|split; [done|split]].
    + split; simpl; [done|unfold len in *; by rewrite ?length_insert..|done].
    + unfold len in Hc, Hpos. split; simpl; [by rewrite list_lookup_insert_eq by lia|].
      exists draft. split; [done|]. by replace (draft_of p i) with (@nil Z) by
        (destruct (draft_of p i); simpl in *; [done|lia]).
    + intros j d Hj Hji [Hcj Hrj]. split; simpl; [|done].
      by rewrite list_lookup_insert_ne by (symmetry; auto).
Qed.

(** The whole loop stores the draft of every request of the list. *)
Lemma batch_numba_spec p reqs : proposer_ok p →
  (∀ i, i ∈ reqs → 0 ≤ i < rows ∧ i < len nums ∧ i < len ids) →
  wp (batch_propose_numba reqs nums ids k)
    (λ _ p', proposer_ok p' ∧ same_config p p' ∧
       ∀ i, i ∈ reqs → draft_stored p' (draft_of p i) i) p.
Proof.
  intros Hp Hreqs.
  apply (wp_for (λ pre p', proposer_ok p' ∧ same_config p p' ∧
    ∀ i, i ∈ pre → draft_stored p' (draft_of p i) i)).
  { split; [done|]. split; [by repeat split|]. intros i Hi. by apply elem_of_nil in Hi. }
  intros pre i post p1 -> (Hp1 & Hsame & Hpre).
  destruct (Hreqs i) as (Hi & Hn & Hd); [set_solver|].
  eapply wp_mono; [by apply propose_row_spec|]. simpl.
  intros _ p2 (Hp2 & Hsame2 & Hst & Hkeep). split; [done|]. split.
  { destruct Hsame as (?&?&?&?), Hsame2 as (?&?&?&?). repeat split; congruence. }
  rewrite (draft_of_same p p1) in Hst by done.
  intros j Hj. destruct (decide (j = i)) as [->|Hne]; [done|].
  apply Hkeep; [apply (Hreqs j); set_solver|done|apply Hpre; set_solver].
Qed.

(** Reading a draft back; the buffers are consulted only for the requests of
    this step. *)
Lemma read_draft_spec p reqs i (d : list Z) :
  0 ≤ i → (i ∈ reqs → draft_stored p d i) →
  wp (read_draft reqs i) (λ r p', p' = p ∧ r = if decide (i ∈ reqs) then d else []) p.
Proof.
  intros Hi Hst. unfold read_draft. case_decide as Hin; [|by wp_steps].
  destruct (Hst Hin) as (Hc & row & Hr & Ht). wp_steps. unfold id.
  eapply wp_lift; [apply index_Ok; [done|exact Hc]|]. case_decide as Hpos.
  - wp_steps. eapply wp_lift; [apply index_Ok; [done|exact Hr]|]. wp_steps. split; [done|].
    unfold slice_to. rewrite slice_pos_in; [unfold len; by rewrite Nat2Z.id|].
    split; [lia|]. rewrite <- Ht. unfold len. rewrite length_take. lia.
  - wp_steps. split; [done|]. destruct d; [done|]. unfold len in Hpos. simpl in Hpos. lia.
Qed.

Lemma batch_propose_spec p n reqs : proposer_ok p →
  (∀ i, i ∈ reqs → 0 ≤ i < rows ∧ i < len nums ∧ i < len ids) →
  wp (batch_propose n reqs nums ids k)
    (λ drafts p', proposer_ok p' ∧ same_config p p' ∧
       drafts = (λ i, if decide (i ∈ reqs) then draft_of p i else []) <$> range 0 n) p.
Proof.
  intros Hp Hreqs. unfold batch_propose. wp_steps.
  apply (wp_mono _ (λ _ p', proposer_ok p' ∧ same_config p p' ∧
    ∀ i, i ∈ reqs → draft_stored p' (draft_of p i) i)).
  { case_decide as Hlen; [by apply batch_numba_spec|]. wp_steps. split; [done|].
    split; [by repeat split|]. intros i Hi. destruct reqs; [by apply elem_of_nil in Hi|].
    unfold len in Hlen. simpl in Hlen. lia. }
  intros _ p1 (Hp1 & Hsame & Hst).
  eapply wp_mono; [apply (wp_map_m (λ pre ys p', p' = p1 ∧
    ys = (λ i, if decide (i ∈ reqs) then draft_of p i else []) <$> pre))|].
  - done.
  - intros pre i post ys p2 Heq [-> ->].
    assert (0 ≤ i) by (apply (elem_of_range 0 n); rewrite Heq; set_solver).
    eapply wp_mono; [apply (read_draft_spec _ _ _ (draft_of p i)); [done|auto]|].
    intros r p3 [-> ->]. split; [done|]. by rewrite fmap_app.
  - by intros ys p2 [-> ->].
Qed.

(** The requests that need a draft. *)
Definition drafted (sampled : list (list Z)) (limit : Z) (i : Z) : bool :=
  match sampled !! Z.to_nat i, nums !! Z.to_nat i with
  | Some x, Some n => bool_decide (x ≠ []) && bool_decide (n < limit)
  | _, _ => false
  end.

Lemma needs_draft_spec p sampled : len sampled ≤ len nums →
  wp (for_acc (range 0 (len sampled)) [] (needs_draft sampled nums))
    (λ valid p', p' = p ∧
       valid = filter (λ i, drafted sampled (ng_max_model_len p) i) (range 0 (len sampled))) p.
Proof.
  intros Hle. eapply wp_mono; [apply (wp_for_acc (λ pre valid p', p' = p ∧
    valid = filter (λ i, drafted sampled (ng_max_model_len p) i) pre))|]; [done| |done].
  intros pre i post valid p1 Heq [-> ->].
  assert (0 ≤ i < len sampled) as Hi by (apply elem_of_range; rewrite Heq; set_solver).
  destruct (index_in_range sampled i) as (x & Ex & Lx); [lia|].
  destruct (index_in_range nums i) as (n & En & Ln); [lia|].
  unfold needs_draft. wp_steps. eapply wp_lift; [done|]. rewrite filter_app.
  assert (drafted sampled (ng_max_model_len p) i =
    bool_decide (x ≠ []) && bool_decide (n < ng_max_model_len p)) as Hd
    by (unfold drafted; by rewrite Lx, Ln).
  destruct (decide (len x = 0)) as [Hx|Hx].
  { wp_steps. split; [done|]. destruct x; [|unfold len in Hx; simpl in Hx; lia].
    rewrite filter_cons_False by (rewrite Hd; by intros [Hne%bool_decide_unpack _]%andb_prop_elim).
    by rewrite app_nil_r. }
  wp_steps. eapply wp_lift; [done|]. wp_steps. split; [done|].
  assert (x ≠ []) by (by intros ->).
  destruct (decide (ng_max_model_len p ≤ n)).
  - rewrite filter_cons_False by (rewrite Hd;
      intros [_ Hlt%bool_decide_unpack]%andb_prop_elim; lia).
    by rewrite app_nil_r.
  - rewrite filter_cons_True by (rewrite Hd, !bool_decide_eq_true_2 by (done || lia); done). done.
Qed.

End batch.

(** C35: a step of the proposer on any batch that fits its buffers succeeds and
    returns, for each request with a sampled token and room left, the draft of
    the exhaustive search over its tokens, and for every other request no draft
    at all: what an earlier step left in the buffers is never returned.  The
    configuration and the shape of the buffers are kept for the next step. *)
Theorem proposer_drafts_exact nums ids k rows sampled p :
  proposer_ok k rows p → k ≤ ng_k p →
  len sampled ≤ rows → len sampled ≤ len nums → len sampled ≤ len ids →
  wp (propose k sampled nums ids)
    (λ drafts p', proposer_ok k rows p' ∧ same_config p p' ∧
       drafts = (λ i, if drafted nums sampled (ng_max_model_len p) i
                      then draft_of nums ids k p i else []) <$> range 0 (len sampled)) p.
Proof.
  intros Hp Hk Hrows Hnums Hids. unfold propose. wp_steps.
  { by apply bool_decide_eq_true_2. }
  eapply wp_mono; [by apply needs_draft_spec|]. intros valid p1 [-> ->].
  eapply wp_mono; [apply (batch_propose_spec nums ids k rows); [done|]|].
  - intros i [_ Hi%elem_of_range]%list_elem_of_filter. lia.
  - intros drafts p2 (Hp2 & Hsame & ->). split; [done|]. split; [done|].
    apply list_fmap_ext. intros j i Hi.
    assert (i ∈ range 0 (len sampled)) by (by eapply list_elem_of_lookup_2).
    destruct (drafted nums sampled (ng_max_model_len p) i) eqn:Hd.
    + rewrite decide_True; [done|]. apply list_elem_of_filter. by rewrite Hd.
    + rewrite decide_False; [done|]. rewrite list_elem_of_filter, Hd. naive_solver.
Qed.

(** A proposer with drafts of an earlier step in its buffers. *)
Definition stale_proposer : NgramProposer := {|
  min_n := 1; max_n := 2; ng_k := 2; ng_max_model_len := 10;
  valid_ngram_draft := [[7; 7]; [8; 8]; [9; 9]]; valid_ngram_num_drafts := [2; 2; 2] |}.

Lemma proposer_drafts_exact_witness :
  wp (propose 2 [[5]; []; [6]] [5; 3; 10] [[1; 2; 3; 1; 2; 0]; [4; 4; 4]; [6]])
    (λ drafts _, drafts = [[3; 1]; []; []]) stale_proposer.
Proof.
  eapply wp_mono.
  - apply (proposer_drafts_exact [5; 3; 10] [[1; 2; 3; 1; 2; 0]; [4; 4; 4]; [6]] 2 3
      [[5]; []; [6]] stale_proposer); try (vm_compute; congruence).
    split; try (vm_compute; congruence); [vm_compute; split; congruence|].
    intros i row Hi. destruct i as [|[|[|i]]]; simplify_eq/=; vm_compute; congruence.
  - intros drafts p (_ & _ & ->). vm_compute. reflexivity.
Defined.

(** C17: on a context of any length, with [1 <= min_ngram <= max_ngram], the
    matching routine returns - the loop ends and reads no position outside its
    arrays - and drafts what the exhaustive search gives: among the n-grams of
    [min_ngram] to [max_ngram] tokens that end the context and also occur
    earlier in it the longest one, at its earliest occurrence, and the tokens
    that follow it there, at most [k] of them and never beyond the maximum
    length of the model. *)
Theorem ngram_match_exact l min_ngram max_ngram max_model_len k :
  1 ≤ min_ngram ≤ max_ngram →
  find_longest_matched_ngram_and_propose_tokens l min_ngram max_ngram max_model_len k =
    Ok (reference_propose l min_ngram max_ngram max_model_len k).
Proof. apply find_exact. Qed.

Lemma ngram_match_exact_witness :
  find_longest_matched_ngram_and_propose_tokens [1; 2; 3; 4; 2; 3; 9; 1; 2; 3] 2 3 12 5 =
    Ok [4; 2] ∧
  reference_propose [1; 2; 3; 4; 2; 3; 9; 1; 2; 3] 2 3 12 5 = [4; 2].
Proof.
  rewrite (ngram_match_exact [1; 2; 3; 4; 2; 3; 9; 1; 2; 3] 2 3 12 5) by lia.
  split; vm_compute; reflexivity.
Defined.
