(* ===== verification/Floats.v ===== *)
(** * Python floats

    The IEEE 754 binary64 numbers, as the standard library's [SpecFloat] defines
    them: round to nearest even, with infinities and not-a-numbers.  The lemmas
    bound the results of additions and subtractions that are clamped between
    zero and an integer, which is how the replacement policy of the CPU tier
    uses them. *)

From Stdlib Require Import SpecFloat.
From S2P Require Import Prelude.

Definition float := spec_float.
Definition float_of (z : Z) : float := binary_normalize 53 1024 z 0 false.
Definition float_add : float → float → float := SFadd 53 1024.
Definition float_sub : float → float → float := SFsub 53 1024.
Definition float_div : float → float → float := SFdiv 53 1024.

(** [int(x)] *)
Definition float_trunc (x : float) : res Z :=
  match x with
  | S754_zero _ => Ok 0
  | S754_infinity _ => Raise OverflowError
  | S754_nan => Raise ValueError
  | S754_finite s m e =>
      let v := if decide (0 ≤ e) then Z.pos m * 2 ^ e else Z.pos m // 2 ^ (- e) in
      Ok (if s then - v else v)
  end.

(** [max(a, b)] and [min(a, b)]: the second only when it is strictly beyond. *)
Definition float_max (a b : float) : float := if SFltb a b then b else a.
Definition float_min (a b : float) : float := if SFltb b a then b else a.

(** [a / b] on integers *)
Definition true_div (a b : Z) : res float :=
  if decide (b = 0) then Raise ZeroDivisionError else Ok (float_div (float_of a) (float_of b)).

(** ** Rounding *)

#[local] Abbreviation fexp64 := (fexp 53 1024).

Lemma digits2_pos_log2 p : Z.pos (digits2_pos p) = Z.log2 (Z.pos p) + 1.
Proof.
  induction p as [p IH|p IH|]; [| |done]; simpl digits2_pos; rewrite Pos2Z.inj_succ, IH.
  - rewrite Pos2Z.inj_xI, Z.log2_succ_double; lia.
  - rewrite Pos2Z.inj_xO, Z.log2_double; lia.
Qed.

Lemma Zdigits2_bound m : 0 ≤ m → m < 2 ^ Zdigits2 m ∧ 0 ≤ Zdigits2 m.
Proof.
  intros Hm. destruct m as [|p|p]; [done| |lia]. simpl Zdigits2. rewrite digits2_pos_log2.
  split; [apply Z.log2_spec; lia|]. pose proof (Z.log2_nonneg (Z.pos p)). lia.
Qed.

Lemma Zdigits2_le m k : 0 ≤ m < 2 ^ k → 0 ≤ k → Zdigits2 m ≤ k.
Proof.
  intros Hm Hk. destruct m as [|p|p]; [done| |lia]. simpl Zdigits2. rewrite digits2_pos_log2.
  enough (Z.log2 (Z.pos p) < k) by lia. apply Z.log2_lt_pow2; lia.
Qed.

Lemma shr_1_m mrs : 0 ≤ shr_m mrs → shr_m (shr_1 mrs) = shr_m mrs // 2.
Proof.
  destruct mrs as [m b1 b2]; simpl. intros Hm. destruct m as [|[p|p|]|p]; try done; simpl.
  - rewrite Pos2Z.inj_xI. by rewrite Z.mul_comm, Z.div_add_l, Z.add_0_r by done.
  - rewrite Pos2Z.inj_xO. by rewrite Z.mul_comm, Z.div_mul by done.
Qed.

Lemma iter_shr_m p mrs : 0 ≤ shr_m mrs →
  shr_m (SpecFloat.iter_pos shr_1 p mrs) = shr_m mrs // 2 ^ Z.pos p.
Proof.
  revert mrs. induction p as [p IH|p IH|]; intros mrs Hm; simpl.
  - assert (0 ≤ shr_m (shr_1 mrs)) by (rewrite shr_1_m by done; by apply Z.div_pos).
    rewrite !IH by (try rewrite IH; try apply Z.div_pos; done || lia).
    rewrite shr_1_m by done. rewrite !Z.div_div by lia. f_equal.
    rewrite Pos2Z.inj_xI. replace (2 * Z.pos p + 1) with (Z.succ (Z.pos p + Z.pos p)) by lia.
    rewrite Z.pow_succ_r, Z.pow_add_r by lia. lia.
  - rewrite !IH by (try rewrite IH; try apply Z.div_pos; done || lia).
    rewrite Z.div_div by lia. f_equal. rewrite <- Z.pow_add_r by lia. f_equal. lia.
  - by apply shr_1_m.
Qed.

(** The mantissa that [shr_fexp] keeps, and its exponent. *)
Lemma shr_fexp_spec m e l : 0 ≤ m →
  ∃ mrs e', shr_fexp 53 1024 m e l = (mrs, e') ∧
    e' = Z.max e (fexp64 (Zdigits2 m + e)) ∧
    shr_m mrs = m // 2 ^ (e' - e) ∧ 0 ≤ shr_m mrs < 2 ^ 53.
Proof.
  intros Hm. destruct (Zdigits2_bound m Hm) as [Hd Hd0].
  assert (shr_m (shr_record_of_loc m l) = m) as Hrec by (by destruct l as [|[]]).
  unfold shr_fexp, shr. set (n := fexp64 (Zdigits2 m + e) - e).
  assert (Zdigits2 m - 53 ≤ n) as Hn by (unfold n, fexp; lia).
  assert (∀ k, 0 ≤ k → n ≤ k → 0 ≤ m // 2 ^ k < 2 ^ 53) as Hsmall.
  { intros k Hk Hnk. split; [apply Z.div_pos; lia|]. apply Z.div_lt_upper_bound; [lia|].
    eapply Z.lt_le_trans; [exact Hd|]. rewrite <- Z.pow_add_r by lia.
    apply Z.pow_le_mono_r; lia. }
  destruct n as [|p|p] eqn:Hp; eexists _, _; (split; [reflexivity|]); rewrite ?Hrec.
  - split; [lia|]. replace (e - e) with 0 by lia. rewrite Z.pow_0_r, Z.div_1_r. split; [done|].
    specialize (Hsmall 0). rewrite Z.pow_0_r, Z.div_1_r in Hsmall. lia.
  - rewrite iter_shr_m by (by rewrite Hrec). rewrite Hrec. split; [lia|].
    replace (e + Z.pos p - e) with (Z.pos p) by lia. split; [done|]. apply Hsmall; lia.
  - split; [lia|]. replace (e - e) with 0 by lia. rewrite Z.pow_0_r, Z.div_1_r. split; [done|].
    specialize (Hsmall 0). rewrite Z.pow_0_r, Z.div_1_r in Hsmall. lia.
Qed.

Lemma round_nearest_even_le m l : m ≤ round_nearest_even m l ≤ m + 1.
Proof. destruct l as [|[]]; simpl; try lia. destruct (Z.even m); lia. Qed.

(** A rounded number: no not-a-number, a mantissa of at most 53 bits, and the
    sign it was given. *)
Definition rounded (s : bool) (x : float) : Prop :=
  match x with
  | S754_zero s' | S754_infinity s' => s' = s
  | S754_finite s' m _ => s' = s ∧ Z.pos m < 2 ^ 53
  | S754_nan => False
  end.

(** A finite number between 0 and [2 ^ 53]. *)
Definition small (x : float) : Prop :=
  match x with
  | S754_zero _ => True
  | S754_finite s m e => s = false ∧ Z.pos m < 2 ^ 53 ∧ e ≤ 0
  | _ => False
  end.

Lemma round_aux_rounded s m e l : 0 ≤ m → rounded s (binary_round_aux 53 1024 s m e l).
Proof.
  intros Hm. unfold binary_round_aux.
  destruct (shr_fexp_spec m e l Hm) as (mrs & e' & -> & _ & _ & Hm').
  pose proof (round_nearest_even_le (shr_m mrs) (loc_of_shr_record mrs)).
  destruct (shr_fexp_spec (round_nearest_even (shr_m mrs) (loc_of_shr_record mrs)) e' loc_Exact)
    as (mrs2 & e2 & -> & _ & _ & Hm2); [lia|].
  destruct (shr_m mrs2) as [|p|p]; [done| |lia]. destruct (e2 <=? _); simpl; [split; [done|lia]|done].
Qed.

Lemma round_aux_small m e : 0 ≤ m < (2 ^ 53 - 1) * 2 ^ (- e) → e ≤ 0 →
  small (binary_round_aux 53 1024 false m e loc_Exact).
Proof.
  intros [Hm Hlt] He. unfold binary_round_aux.
  destruct (shr_fexp_spec m e loc_Exact Hm) as (mrs & e' & -> & He' & Hv & Hm').
  assert (Zdigits2 m ≤ 53 - e).
  { apply Zdigits2_le; [|lia]. split; [done|]. eapply Z.lt_le_trans; [exact Hlt|].
    replace (53 - e) with (53 + - e) by lia. rewrite (Z.pow_add_r 2 53) by lia.
    apply Z.mul_le_mono_nonneg_r; lia. }
  assert (e' ≤ 0) by (unfold fexp, emin in He'; lia).
  pose proof (round_nearest_even_le (shr_m mrs) (loc_of_shr_record mrs)) as Hround.
  set (r := round_nearest_even _ _) in *.
  destruct (shr_fexp_spec r e' loc_Exact) as (mrs2 & e2 & -> & He2 & _ & Hm2); [lia|].
  assert (e2 ≤ 0).
  { destruct (decide (e' = 0)) as [->|Hne].
    - assert (shr_m mrs < 2 ^ 53 - 1).
      { rewrite Hv. apply Z.div_lt_upper_bound; [lia|]. rewrite Z.mul_comm. done. }
      assert (Zdigits2 r ≤ 53) by (apply Zdigits2_le; lia). unfold fexp, emin in He2. lia.
    - assert (Zdigits2 r ≤ 54) by (apply Zdigits2_le; lia). unfold fexp, emin in He2. lia. }
  destruct (shr_m mrs2) as [|p|p]; [done| |lia]. rewrite (proj2 (Z.leb_le _ _)) by lia. simpl. lia || (split; [done|lia]).
Qed.

(** ** Normalisation *)

Lemma shl_align_value mx ex ex' mz ez : shl_align mx ex ex' = (mz, ez) →
  ez = Z.min ex ex' ∧ Z.pos mz = Z.pos mx * 2 ^ (ex - ez).
Proof.
  unfold shl_align. destruct (ex' - ex) as [|d|d] eqn:Hd; intros [= <- <-].
  - rewrite Z.sub_diag. lia.
  - rewrite Z.sub_diag. lia.
  - split; [lia|]. replace (ex - ex') with (Z.pos d) by lia.
    clear Hd. induction d as [|d IH] using Pos.peano_ind; [simpl; lia|].
    rewrite Pos.iter_succ, Pos2Z.inj_succ, Z.pow_succ_r by lia. rewrite Pos2Z.inj_xO, IH. lia.
Qed.

Lemma round_rounded s m e : rounded s (binary_round 53 1024 s m e).
Proof.
  unfold binary_round. destruct (shl_align _ _ _) as [mz ez]. by apply round_aux_rounded.
Qed.

Lemma round_small m e : Z.pos m < (2 ^ 53 - 1) * 2 ^ (- e) → e ≤ 0 →
  small (binary_round 53 1024 false m e).
Proof.
  intros Hm He. unfold binary_round. destruct (shl_align _ _ _) as [mz ez] eqn:Hz.
  apply shl_align_value in Hz as [Hle Hv]. apply round_aux_small; [|lia]. split; [lia|].
  rewrite Hv. replace (- ez) with (- e + (e - ez)) by lia. rewrite Z.pow_add_r, Z.mul_assoc by lia.
  apply Z.mul_lt_mono_pos_r; lia.
Qed.

Lemma float_of_small z : 0 ≤ z < 2 ^ 53 - 1 → small (float_of z).
Proof.
  intros Hz. destruct z as [|p|p]; [done| |lia]. apply round_small; simpl; lia.
Qed.

Lemma float_of_rounded z : ∃ s, rounded s (float_of z).
Proof.
  destruct z as [|p|p]; [by exists false|..]; eexists; apply round_rounded.
Qed.

Lemma small_trunc x : small x → ∃ z, float_trunc x = Ok z.
Proof. destruct x as [| | |s m e]; naive_solver. Qed.

(** ** Clamped steps *)

(** A number above zero, possibly infinite. *)
Definition positive (x : float) : Prop :=
  match x with
  | S754_finite s m _ => s = false ∧ Z.pos m < 2 ^ 53
  | S754_infinity s => s = false
  | _ => False
  end.

Lemma div_rounded x y : (∃ s, rounded s x) → (∃ s, rounded s y) →
  (∃ s, rounded s (float_div x y)) ∨ float_div x y = S754_nan.
Proof.
  intros [s Hx] [s' Hy]. unfold float_div, SFdiv.
  destruct x as [|sx| |sx mx ex], y as [|sy| |sy my ey]; try done;
    try (by right); try (by left; eexists).
  left. eexists. unfold SFdiv_core_binary.
  match goal with |- context [Z.div_eucl ?a ?b] =>
    pose proof (Z_div_mod a b ltac:(lia)) as Hdiv; destruct (Z.div_eucl a b) as [q r] eqn:Hq;
    assert (0 ≤ a) as Ha by (destruct (_ - _); [lia|apply Z.shiftl_nonneg; lia|lia])
  end.
  apply round_aux_rounded. nia.
Qed.

Lemma max_one_positive y : (∃ s, rounded s y) ∨ y = S754_nan → positive (float_max (float_of 1) y).
Proof.
  intros Hy. unfold float_max. destruct (SFltb (float_of 1) y) eqn:Hlt; [|done].
  destruct y as [|[]| |[] m e]; try done. destruct Hy as [[s Hs]|?]; [|done]. by destruct Hs.
Qed.

(** [max(1, a / b)] *)
Lemma ratio_positive a b x : true_div a b = Ok x → positive (float_max (float_of 1) x).
Proof.
  unfold true_div. case_decide; [done|]. intros [= <-].
  apply max_one_positive, div_rounded; apply float_of_rounded.
Qed.

Lemma min_small x c : rounded false x → small c → small (float_min x c).
Proof.
  intros Hx Hc. unfold float_min. destruct (SFltb c x) eqn:Hlt; [done|].
  destruct x as [s|s| |s m e], c as [s'|s'| |s' m' e']; simpl in *; try done; try naive_solver.
  destruct Hx as [-> Hm], Hc as (-> & Hm' & He'). split; [done|]. split; [done|].
  unfold SFltb in Hlt. simpl in Hlt. destruct (Z.compare_spec e' e); try lia.
Qed.

Lemma max_zero_small x : small x ∨ rounded true x → small (float_max x (float_of 0)).
Proof.
  intros Hx. unfold float_max. destruct (SFltb x (float_of 0)) eqn:Hlt; [done|].
  destruct Hx as [?|Hx]; [done|]. destruct x as [| | |[] m e]; try done; naive_solver.
Qed.

(** [min(t + delta, c)] *)
Lemma add_clamped t d c : small t → positive d → small c → small (float_min (float_add t d) c).
Proof.
  intros Ht Hd Hc. apply min_small; [|done].
  unfold float_add, SFadd. destruct t as [| | |s m e], d as [|sd| |sd md ed]; try done.
  destruct Ht as (-> & ? & ?), Hd as (-> & ?). simpl cond_Zopp.
  apply (round_rounded false).
Qed.

(** [max(t - delta, 0)] *)
Lemma sub_clamped t d : small t → positive d → small (float_max (float_sub t d) (float_of 0)).
Proof.
  intros Ht Hd. apply max_zero_small.
  unfold float_sub, SFsub. destruct t as [| | |s m e], d as [|sd| |sd md ed]; try done;
    try (right; simpl in Hd; naive_solver).
  destruct Ht as (-> & Hm & He), Hd as (-> & Hmd). simpl cond_Zopp.
  destruct (shl_align m e (Z.min e ed)) as [mz ez] eqn:Hz.
  destruct (shl_align md ed (Z.min e ed)) as [mz' ez'] eqn:Hz'.
  apply shl_align_value in Hz as [Hle Hv]. apply shl_align_value in Hz' as [Hle' Hv'].
  simpl fst. unfold binary_normalize. destruct (Z.pos mz - Z.pos mz') as [|p|p] eqn:Hp.
  - by left.
  - left. apply round_small; [|lia]. assert (ez = Z.min e ed) as -> by lia.
    rewrite <- Hp, Hv.
    eapply Z.lt_le_trans; [|apply (Z.mul_le_mono_nonneg_l (2 ^ (e - Z.min e ed)))]; [|lia|].
    { eapply Z.lt_le_trans; [|apply (Z.mul_le_mono_nonneg_r (Z.pos m) (2 ^ 53 - 1)); lia]. lia. }
    apply Z.pow_le_mono_r; lia.
  - right. apply round_rounded.
Qed.
