(* ===== verification/Offload.v ===== *)
(** * CPU offloading of KV blocks

    The manager of the CPU tier (src/vllm/v1/kv_offload/cpu/manager.py) and its
    replacement policies (src/vllm/v1/kv_offload/cpu/policies/): which blocks
    are offloaded, in which slot of the CPU buffer, which transfers hold them,
    and which ones give way to new blocks.

    A [BlockStatus] object is reachable from the one dictionary entry that holds
    it, so the manager's assignments to its fields are an operation of the
    policy, [store_status], that replaces the status in that entry.  The
    per-request context is an argument no operation of this tier reads. *)

From S2P Require Import Prelude FreeQueue Hashing Floats.

(** ** Keys *)

Definition OffloadKey := bytes.

Definition make_offload_key (block_hash : bytes) (group_idx : Z) : res OffloadKey :=
  g ← to_bytes 4 group_idx; Ok (block_hash ++ g).

Definition get_offload_block_hash (key : OffloadKey) : bytes := slice_to key (-4).

Definition get_offload_group_idx (key : OffloadKey) : Z := from_bytes (slice_from key (-4)).

(** ** Block status *)

(** A value stored in a [c_int32] field. *)
Definition c_int32 (z : Z) : Z := (z + 2 ^ 31) mod 2 ^ 32 - 2 ^ 31.

Record BlockStatus := {
  st_ref_cnt : Z;
  st_block_id : Z
}.

#[global] Instance BlockStatus_eq_dec : EqDecision BlockStatus.
Proof. solve_decision. Defined.
#[global] Instance eta_BlockStatus : Eta BlockStatus :=
  λ b, {| st_ref_cnt := st_ref_cnt b; st_block_id := st_block_id b |}.

Definition new_BlockStatus (id : Z) : BlockStatus := {| st_ref_cnt := -1; st_block_id := id |}.

Definition is_ready (b : BlockStatus) : bool := bool_decide (0 ≤ st_ref_cnt b).

(** ** The interface of a policy *)

Class CachePolicy (P : Type) := {
  policy_init : Z → P;
  policy_get : P → OffloadKey → option BlockStatus;
  policy_insert : OffloadKey → BlockStatus → M P unit;
  policy_remove : OffloadKey → M P unit;
  policy_touch : list OffloadKey → M P unit;
  policy_evict : Z → gset OffloadKey → M P (option (list (OffloadKey * BlockStatus)));
  policy_clear : M P unit;
  mark_evictable : OffloadKey → M P unit;
  mark_non_evictable : OffloadKey → M P unit;
  (** assignment to the fields of the object that [policy_get] returned *)
  store_status : OffloadKey → BlockStatus → P → P
}.

(** [del d[k]] *)
Definition del_key {V} (d : list (OffloadKey * V)) (k : OffloadKey) : res (list (OffloadKey * V)) :=
  match dict_get d k with Some _ => Ok (dict_del d k) | None => Raise KeyError end.

(** ** Least recently used *)

Record LRUCachePolicy := {
  lru_capacity : Z;
  evictable_blocks : list (OffloadKey * unit);
  lru_blocks : gmap OffloadKey BlockStatus
}.

#[global] Instance eta_LRU : Eta LRUCachePolicy := λ p, {|
  lru_capacity := lru_capacity p; evictable_blocks := evictable_blocks p;
  lru_blocks := lru_blocks p |}.

Definition lru_insert (key : OffloadKey) (block : BlockStatus) : M LRUCachePolicy unit :=
  _ ← modify (λ p, p <| lru_blocks ::= <[key := block]> |>);
  if decide (st_ref_cnt block = 0)
  then modify (λ p, p <| evictable_blocks ::= λ d, dict_set d key () |>)
  else mret tt.

(** [del self.blocks[key]] *)
Definition lru_del_block (key : OffloadKey) : M LRUCachePolicy unit :=
  blocks ← gets lru_blocks;
  match blocks !! key with
  | Some _ => modify (λ p, p <| lru_blocks := delete key blocks |>)
  | None => raise KeyError
  end.

Definition lru_remove (key : OffloadKey) : M LRUCachePolicy unit :=
  _ ← lru_del_block key;
  modify (λ p, p <| evictable_blocks ::= λ d, dict_del d key |>).

Definition lru_touch_one (key : OffloadKey) : M LRUCachePolicy unit :=
  modify (λ p, match dict_get (evictable_blocks p) key with
               | Some _ => p <| evictable_blocks ::= λ d, dict_move_to_end d key |>
               | None => p
               end).

Definition lru_touch (keys : list OffloadKey) : M LRUCachePolicy unit :=
  for_ (reverse keys) lru_touch_one.

Definition lru_clear : M LRUCachePolicy unit :=
  modify (λ p, p <| evictable_blocks := [] |> <| lru_blocks := ∅ |>).

(** The loop that collects the candidates, from the least recently used. *)
Fixpoint lru_candidates (blocks : gmap OffloadKey BlockStatus) (n : Z)
    (protected : gset OffloadKey) (entries : list (OffloadKey * unit))
    (candidates : list (OffloadKey * BlockStatus)) : res (list (OffloadKey * BlockStatus)) :=
  match entries with
  | [] => Ok candidates
  | (key, _) :: entries =>
      if decide (key ∈ protected) then lru_candidates blocks n protected entries candidates
      else match blocks !! key with
           | None => Raise KeyError
           | Some block =>
               if decide (st_ref_cnt block = 0) then
                 let candidates := candidates ++ [(key, block)] in
                 if decide (len candidates = n) then Ok candidates
                 else lru_candidates blocks n protected entries candidates
               else Raise AssertionError
           end
  end.

Definition lru_evict (n : Z) (protected : gset OffloadKey) :
    M LRUCachePolicy (option (list (OffloadKey * BlockStatus))) :=
  if decide (n = 0) then mret (Some []) else
  p ← gets id;
  candidates ← lift_res (lru_candidates (lru_blocks p) n protected (evictable_blocks p) []);
  if decide (len candidates < n) then mret None else
  _ ← for_ candidates (λ '(key, _),
    d ← gets evictable_blocks;
    d' ← lift_res (del_key d key);
    _ ← modify (λ p, p <| evictable_blocks := d' |>);
    lru_del_block key);
  mret (Some candidates).

Definition lru_mark_evictable (key : OffloadKey) : M LRUCachePolicy unit :=
  modify (λ p, p <| evictable_blocks ::= λ d, dict_set d key () |>).

Definition lru_mark_non_evictable (key : OffloadKey) : M LRUCachePolicy unit :=
  d ← gets evictable_blocks;
  d' ← lift_res (del_key d key);
  modify (λ p, p <| evictable_blocks := d' |>).

Definition lru_store_status (key : OffloadKey) (block : BlockStatus) (p : LRUCachePolicy) :
    LRUCachePolicy :=
  p <| lru_blocks ::= alter (λ _, block) key |>.

#[global] Instance LRU : CachePolicy LRUCachePolicy := {|
  policy_init := λ capacity,
    {| lru_capacity := capacity; evictable_blocks := []; lru_blocks := ∅ |};
  policy_get := λ p key, lru_blocks p !! key;
  policy_insert := lru_insert;
  policy_remove := lru_remove;
  policy_touch := lru_touch;
  policy_evict := lru_evict;
  policy_clear := lru_clear;
  mark_evictable := lru_mark_evictable;
  mark_non_evictable := lru_mark_non_evictable;
  store_status := lru_store_status |}.

(** ** Adaptive replacement *)

Record ARCCachePolicy := {
  arc_capacity : Z;
  target_t1_size : float;
  arc_t1 : list (OffloadKey * BlockStatus);
  arc_t2 : list (OffloadKey * BlockStatus);
  arc_b1 : list (OffloadKey * unit);
  arc_b2 : list (OffloadKey * unit)
}.

#[global] Instance eta_ARC : Eta ARCCachePolicy := λ p, {|
  arc_capacity := arc_capacity p; target_t1_size := target_t1_size p;
  arc_t1 := arc_t1 p; arc_t2 := arc_t2 p; arc_b1 := arc_b1 p; arc_b2 := arc_b2 p |}.

Definition arc_get (p : ARCCachePolicy) (key : OffloadKey) : option BlockStatus :=
  match dict_get (arc_t1 p) key with
  | Some block => Some block
  | None => dict_get (arc_t2 p) key
  end.

Definition arc_insert (key : OffloadKey) (block : BlockStatus) : M ARCCachePolicy unit :=
  modify (λ p, p <| arc_t1 ::= λ d, dict_set d key block |>
                 <| arc_b1 ::= λ d, dict_del d key |>
                 <| arc_b2 ::= λ d, dict_del d key |>).

Definition arc_remove (key : OffloadKey) : M ARCCachePolicy unit :=
  modify (λ p, match dict_get (arc_t1 p) key with
               | Some _ => p <| arc_t1 ::= λ d, dict_del d key |>
               | None => p <| arc_t2 ::= λ d, dict_del d key |>
               end).

Definition arc_touch_one (key : OffloadKey) : M ARCCachePolicy unit :=
  p ← gets id;
  match dict_get (arc_t1 p) key with
  | Some block =>
      let t1 := dict_del (arc_t1 p) key in
      if negb (is_ready block)
      then modify (λ p, p <| arc_t1 := dict_set t1 key block |>)
      else modify (λ p, p <| arc_t1 := t1 |> <| arc_t2 ::= λ d, dict_set d key block |>)
  | None =>
      match dict_get (arc_t2 p) key with
      | Some _ => modify (λ p, p <| arc_t2 ::= λ d, dict_move_to_end d key |>)
      | None =>
          match dict_get (arc_b1 p) key with
          | Some _ =>
              ratio ← lift_res (true_div (len (arc_b2 p)) (len (arc_b1 p)));
              let delta := float_max (float_of 1) ratio in
              modify (λ p, p
                <| target_t1_size ::= λ t, float_min (float_add t delta) (float_of (arc_capacity p)) |>
                <| arc_b1 ::= λ d, dict_move_to_end d key |>)
          | None =>
              match dict_get (arc_b2 p) key with
              | Some _ =>
                  ratio ← lift_res (true_div (len (arc_b1 p)) (len (arc_b2 p)));
                  let delta := float_max (float_of 1) ratio in
                  modify (λ p, p
                    <| target_t1_size ::= λ t, float_max (float_sub t delta) (float_of 0) |>
                    <| arc_b2 ::= λ d, dict_move_to_end d key |>)
              | None => mret tt
              end
          end
      end
  end.

Definition arc_touch (keys : list OffloadKey) : M ARCCachePolicy unit :=
  for_ (reverse keys) arc_touch_one.

Definition arc_clear : M ARCCachePolicy unit :=
  modify (λ p, p <| arc_t1 := [] |> <| arc_t2 := [] |> <| arc_b1 := [] |> <| arc_b2 := [] |>
                 <| target_t1_size := float_of 0 |>).

(** The next idle, unprotected entry of an iterator, and the iterator after it. *)
Fixpoint next_candidate (protected : gset OffloadKey) (entries : list (OffloadKey * BlockStatus)) :
    option (OffloadKey * BlockStatus) * list (OffloadKey * BlockStatus) :=
  match entries with
  | [] => (None, [])
  | (key, block) :: entries =>
      if decide (st_ref_cnt block = 0 ∧ key ∉ protected) then (Some (key, block), entries)
      else next_candidate protected entries
  end.

(** A candidate and whether it comes from T1. *)
Definition arc_candidate : Type := (OffloadKey * BlockStatus) * bool.

(** The loop that selects [n] candidates; [limit] is [int(self.target_t1_size)].
    Nothing is modified before all of them are found. *)
Fixpoint arc_select (n : nat) (limit : Z) (protected : gset OffloadKey) (virtual_t1_size : Z)
    (t1_iter t2_iter : list (OffloadKey * BlockStatus)) (candidates : list arc_candidate) :
    option (list arc_candidate) :=
  match n with
  | O => Some candidates
  | S n =>
      let '(entry, t1_iter) :=
        if decide (limit ≤ virtual_t1_size) then next_candidate protected t1_iter
        else (None, t1_iter) in
      match entry with
      | Some e =>
          arc_select n limit protected (virtual_t1_size - 1) t1_iter t2_iter
            (candidates ++ [(e, true)])
      | None =>
          let '(entry, t2_iter) := next_candidate protected t2_iter in
          match entry with
          | None => None
          | Some e =>
              arc_select n limit protected virtual_t1_size t1_iter t2_iter
                (candidates ++ [(e, false)])
          end
      end
  end.

(** One selected block leaves its list for the ghost list. *)
Definition arc_evict_one (c : arc_candidate) : M ARCCachePolicy unit :=
  let '((key, _), from_t1) := c in
  if (from_t1 : bool) then
    d ← gets arc_t1;
    d' ← lift_res (del_key d key);
    modify (λ p, p <| arc_t1 := d' |> <| arc_b1 ::= λ d, dict_set d key () |>)
  else
    d ← gets arc_t2;
    d' ← lift_res (del_key d key);
    modify (λ p, p <| arc_t2 := d' |> <| arc_b2 ::= λ d, dict_set d key () |>).

(** [for _ in range(n): ghost.popitem(last=False)] *)
Definition popitems (n : Z) (ghost : list (OffloadKey * unit)) : res (list (OffloadKey * unit)) :=
  if decide (n ≤ len ghost) then Ok (drop (Z.to_nat n) ghost) else Raise KeyError.

Definition arc_trim : M ARCCachePolicy unit :=
  p ← gets id;
  b1 ← lift_res (popitems (len (arc_b1 p) - arc_capacity p) (arc_b1 p));
  _ ← modify (λ p, p <| arc_b1 := b1 |>);
  b2 ← lift_res (popitems (len (arc_b2 p) - arc_capacity p) (arc_b2 p));
  modify (λ p, p <| arc_b2 := b2 |>).

Definition arc_evict (n : Z) (protected : gset OffloadKey) :
    M ARCCachePolicy (option (list (OffloadKey * BlockStatus))) :=
  if decide (n = 0) then mret (Some []) else
  p ← gets id;
  limit ← lift_res (float_trunc (target_t1_size p));
  match arc_select (Z.to_nat n) limit protected (len (arc_t1 p)) (arc_t1 p) (arc_t2 p) [] with
  | None => mret None
  | Some candidates =>
      _ ← for_ candidates arc_evict_one;
      _ ← arc_trim;
      mret (Some candidates.*1)
  end.

Definition arc_store_status (key : OffloadKey) (block : BlockStatus) (p : ARCCachePolicy) :
    ARCCachePolicy :=
  match dict_get (arc_t1 p) key with
  | Some _ => p <| arc_t1 ::= λ d, dict_set d key block |>
  | None =>
      match dict_get (arc_t2 p) key with
      | Some _ => p <| arc_t2 ::= λ d, dict_set d key block |>
      | None => p
      end
  end.

#[global] Instance ARC : CachePolicy ARCCachePolicy := {|
  policy_init := λ capacity,
    {| arc_capacity := capacity; target_t1_size := float_of 0;
       arc_t1 := []; arc_t2 := []; arc_b1 := []; arc_b2 := [] |};
  policy_get := arc_get;
  policy_insert := arc_insert;
  policy_remove := arc_remove;
  policy_touch := arc_touch;
  policy_evict := arc_evict;
  policy_clear := arc_clear;
  mark_evictable := λ _, mret tt;
  mark_non_evictable := λ _, mret tt;
  store_status := arc_store_status |}.

(** ** The manager *)

Inductive LookupResult := MISS | HIT | HIT_PENDING | RETRY.

Record OffloadingEvent := {
  oe_keys : list OffloadKey;
  oe_removed : bool
}.

Record PrepareStoreOutput := {
  keys_to_store : list OffloadKey;
  store_spec : list Z;
  evicted_keys : list OffloadKey
}.

(** The gauges, observations and counter that [get_stats] reports. *)
Record OffloadStats := {
  cpu_cache_usage : float;
  cpu_allocation_sizes : list Z;
  cpu_cache_write_usage : float;
  cpu_cache_read_usage : float;
  stores_skipped : option Z
}.

Section manager.
Context {P : Type} `{CachePolicy P}.

Record CPUOffloadingManager := {
  om_num_blocks : Z;
  num_allocated_blocks : Z;
  free_list : list Z;
  om_events : option (list OffloadingEvent);
  om_policy : P;
  num_evictable_cache_blocks : Z;
  num_write_pending_blocks : Z;
  store_threshold : Z;
  max_tracker_size : Z;
  stores_skipped_in_current_batch : Z;
  allocation_sizes_in_current_batch : list Z;
  counts : option (list (OffloadKey * Z))
}.

#[global] Instance eta_CPUOffloadingManager : Eta CPUOffloadingManager := λ s, {|
  om_num_blocks := om_num_blocks s; num_allocated_blocks := num_allocated_blocks s;
  free_list := free_list s; om_events := om_events s; om_policy := om_policy s;
  num_evictable_cache_blocks := num_evictable_cache_blocks s;
  num_write_pending_blocks := num_write_pending_blocks s;
  store_threshold := store_threshold s; max_tracker_size := max_tracker_size s;
  stores_skipped_in_current_batch := stores_skipped_in_current_batch s;
  allocation_sizes_in_current_batch := allocation_sizes_in_current_batch s;
  counts := counts s |}.

Definition CPUOffloadingManager_init (num_blocks : Z) (enable_events : bool)
    (threshold tracker_size : Z) : CPUOffloadingManager := {|
  om_num_blocks := num_blocks;
  num_allocated_blocks := 0;
  free_list := [];
  om_events := if enable_events then Some [] else None;
  om_policy := policy_init num_blocks;
  num_evictable_cache_blocks := 0;
  num_write_pending_blocks := 0;
  store_threshold := threshold;
  max_tracker_size := tracker_size;
  stores_skipped_in_current_batch := 0;
  allocation_sizes_in_current_batch := [];
  counts := if decide (2 ≤ threshold) then Some [] else None |}.

(** A call of the policy. *)
Definition on_policy {A} (m : M P A) : M CPUOffloadingManager A := λ s,
  match m (om_policy s) with
  | Ok (a, p) => Ok (a, s <| om_policy := p |>)
  | Raise e => Raise e
  end.

(** An assignment to the status that [self._policy.get(key)] returned. *)
Definition write_status (key : OffloadKey) (b : BlockStatus) : M CPUOffloadingManager unit :=
  modify (λ s, s <| om_policy ::= store_status key b |>).

Definition _get_num_free_blocks (s : CPUOffloadingManager) : Z :=
  len (free_list s) + om_num_blocks s - num_allocated_blocks s.

(** [BlockStatus(self._num_allocated_blocks)] and the increment after it. *)
Definition fresh_block : M CPUOffloadingManager BlockStatus :=
  n ← gets num_allocated_blocks;
  _ ← modify (λ s, s <| num_allocated_blocks ::= λ n, n + 1 |>);
  mret (new_BlockStatus n).

(** [BlockStatus(self._free_list.pop())] *)
Definition reused_block : M CPUOffloadingManager BlockStatus :=
  l ← gets free_list;
  id ← lift_res (index l (-1));
  _ ← modify (λ s, s <| free_list := slice_to l (-1) |>);
  mret (new_BlockStatus id).

Definition _allocate_blocks (keys : list OffloadKey) : M CPUOffloadingManager (list BlockStatus) :=
  s ← gets id;
  let num_fresh := Z.min (len keys) (om_num_blocks s - num_allocated_blocks s) in
  let num_reused := len keys - num_fresh in
  _ ← assert_ (bool_decide (num_reused ≤ len (free_list s)));
  fresh ← map_m (λ _, fresh_block) (range 0 num_fresh);
  reused ← map_m (λ _, reused_block) (range 0 num_reused);
  mret (fresh ++ reused).

Definition _free_block (block : BlockStatus) : M CPUOffloadingManager unit :=
  modify (λ s, s <| free_list ::= λ l, l ++ [st_block_id block] |>).

Definition _get_load_store_spec (blocks : list BlockStatus) : list Z := st_block_id <$> blocks.

(** [self.counts.popitem(last=False)] *)
Definition popitem_first (d : list (OffloadKey * Z)) : res (list (OffloadKey * Z)) :=
  match d with [] => Raise KeyError | _ :: d => Ok d end.

Definition _record_access (key : OffloadKey) : M CPUOffloadingManager unit :=
  s ← gets id;
  match counts s with
  | None => raise AssertionError
  | Some d =>
      match dict_get d key with
      | Some n =>
          modify (λ s, s <| counts := Some (dict_set (dict_move_to_end d key) key (n + 1)) |>)
      | None =>
          d' ← lift_res (if decide (max_tracker_size s ≤ len d) then popitem_first d else Ok d);
          modify (λ s, s <| counts := Some (dict_set d' key 1) |>)
      end
  end.

Definition lookup_offload (s : CPUOffloadingManager) (key : OffloadKey) : LookupResult :=
  match policy_get (om_policy s) key with
  | None => MISS
  | Some block => if negb (is_ready block) then HIT_PENDING else HIT
  end.

Definition load_one (blocks : list BlockStatus) (key : OffloadKey) :
    M CPUOffloadingManager (list BlockStatus) :=
  p ← gets om_policy;
  match policy_get p key with
  | None => raise AssertionError
  | Some block =>
      _ ← assert_ (is_ready block);
      _ ← (if decide (st_ref_cnt block = 0) then
             _ ← on_policy (mark_non_evictable key);
             _ ← modify (λ s, s <| num_evictable_cache_blocks ::= λ n, n - 1 |>);
             n ← gets num_evictable_cache_blocks;
             assert_ (bool_decide (0 ≤ n))
           else mret tt);
      let block := block <| st_ref_cnt := c_int32 (st_ref_cnt block + 1) |> in
      _ ← write_status key block;
      mret (blocks ++ [block])
  end.

Definition prepare_load (keys : list OffloadKey) : M CPUOffloadingManager (list Z) :=
  blocks ← for_acc keys [] load_one;
  mret (_get_load_store_spec blocks).

Definition touch_offload (keys : list OffloadKey) : M CPUOffloadingManager unit :=
  on_policy (policy_touch keys).

Definition complete_load_one (key : OffloadKey) : M CPUOffloadingManager unit :=
  p ← gets om_policy;
  match policy_get p key with
  | None => raise AssertionError
  | Some block =>
      _ ← assert_ (bool_decide (0 < st_ref_cnt block));
      let block := block <| st_ref_cnt := c_int32 (st_ref_cnt block - 1) |> in
      _ ← write_status key block;
      if decide (st_ref_cnt block = 0) then
        _ ← modify (λ s, s <| num_evictable_cache_blocks ::= λ n, n + 1 |>);
        on_policy (mark_evictable key)
      else mret tt
  end.

Definition complete_load (keys : list OffloadKey) : M CPUOffloadingManager unit :=
  for_ keys complete_load_one.

(** The admission filter: a key is stored once it was seen often enough. *)
Definition admitted_keys (keys : list OffloadKey) : M CPUOffloadingManager (list OffloadKey) :=
  tracked ← gets counts;
  match tracked with
  | None => mret keys
  | Some _ =>
      _ ← for_ keys _record_access;
      s ← gets id;
      let kept := filter (λ k, store_threshold s ≤ default 0 (dict_get (default [] (counts s)) k)) keys in
      _ ← modify (λ s, s <| stores_skipped_in_current_batch ::= λ n, n + (len keys - len kept) |>);
      mret kept
  end.

Definition append_event (keys : list OffloadKey) (removed : bool) : M CPUOffloadingManager unit :=
  modify (λ s, match om_events s, keys with
               | Some evs, _ :: _ =>
                   s <| om_events := Some (evs ++ [{| oe_keys := keys; oe_removed := removed |}]) |>
               | _, _ => s
               end).

(** The evictions that make room for [num_blocks_to_evict] blocks: the keys
    that left, or [None] when the policy cannot free that many. *)
Definition make_room (num_blocks_to_evict : Z) (keys : list OffloadKey) :
    M CPUOffloadingManager (option (list OffloadKey)) :=
  if decide (0 < num_blocks_to_evict) then
    n ← gets num_evictable_cache_blocks;
    if decide (n < num_blocks_to_evict) then mret None else
    evicted ← on_policy (policy_evict num_blocks_to_evict (list_to_set keys));
    match evicted with
    | None => mret None
    | Some evicted =>
        _ ← modify (λ s, s <| num_evictable_cache_blocks ::= λ n, n - len evicted |>);
        n ← gets num_evictable_cache_blocks;
        _ ← assert_ (bool_decide (0 ≤ n));
        _ ← for_ evicted.*2 _free_block;
        mret (Some evicted.*1)
    end
  else mret (Some []).

(** The new blocks get their slots and enter the policy, not readable yet. *)
Definition store_blocks (to_store to_evict : list OffloadKey) :
    M CPUOffloadingManager PrepareStoreOutput :=
  blocks ← _allocate_blocks to_store;
  _ ← assert_ (bool_decide (len blocks = len to_store));
  _ ← for_ (zip to_store blocks) (λ '(key, block), on_policy (policy_insert key block));
  _ ← modify (λ s, s <| num_write_pending_blocks ::= λ n, n + len to_store |>);
  mret {| keys_to_store := to_store; store_spec := _get_load_store_spec blocks;
          evicted_keys := to_evict |}.

Definition prepare_store (keys : list OffloadKey) :
    M CPUOffloadingManager (option PrepareStoreOutput) :=
  keys ← admitted_keys keys;
  s ← gets id;
  let to_store := filter (λ k, policy_get (om_policy s) k = None) keys in
  if decide (to_store = []) then
    mret (Some {| keys_to_store := []; store_spec := _get_load_store_spec []; evicted_keys := [] |})
  else
  _ ← modify (λ s, s <| allocation_sizes_in_current_batch ::= λ l, l ++ [len to_store] |>);
  let num_blocks_to_evict := len to_store - _get_num_free_blocks s in
  room ← make_room num_blocks_to_evict keys;
  match room with
  | None => mret None
  | Some to_evict =>
      _ ← append_event to_evict true;
      out ← store_blocks to_store to_evict;
      mret (Some out)
  end.

(** A block whose store succeeded becomes readable; one whose store failed is
    dropped. *)
Definition store_succeeded (stored_keys : list OffloadKey) (key : OffloadKey) :
    M CPUOffloadingManager (list OffloadKey) :=
  p ← gets om_policy;
  match policy_get p key with
  | Some block =>
      if negb (is_ready block) then
        _ ← write_status key (block <| st_ref_cnt := 0 |>);
        _ ← modify (λ s, s <| num_write_pending_blocks ::= λ n, n - 1 |>
                           <| num_evictable_cache_blocks ::= λ n, n + 1 |>);
        _ ← on_policy (mark_evictable key);
        mret (stored_keys ++ [key])
      else mret stored_keys
  | None => mret stored_keys
  end.

Definition store_failed (key : OffloadKey) : M CPUOffloadingManager unit :=
  p ← gets om_policy;
  match policy_get p key with
  | Some block =>
      if negb (is_ready block) then
        _ ← modify (λ s, s <| num_write_pending_blocks ::= λ n, n - 1 |>);
        _ ← on_policy (policy_remove key);
        _free_block block
      else mret tt
  | None => mret tt
  end.

Definition complete_store (keys : list OffloadKey) (success : bool) : M CPUOffloadingManager unit :=
  stored_keys ← (if success then for_acc keys [] store_succeeded
                 else _ ← for_ keys store_failed; mret []);
  append_event stored_keys false.

Definition reset_offload : M CPUOffloadingManager unit :=
  _ ← on_policy policy_clear;
  modify (λ s, s <| num_evictable_cache_blocks := 0 |> <| num_write_pending_blocks := 0 |>
                 <| free_list := [] |> <| num_allocated_blocks := 0 |>).

(** The events, once the iterator is exhausted. *)
Definition take_offload_events : M CPUOffloadingManager (list OffloadingEvent) :=
  evs ← gets om_events;
  match evs with
  | Some evs => _ ← modify (λ s, s <| om_events := Some [] |>); mret evs
  | None => mret []
  end.

Definition get_stats : M CPUOffloadingManager OffloadStats :=
  s ← gets id;
  let num_used := num_allocated_blocks s - len (free_list s) - num_evictable_cache_blocks s in
  usage ← lift_res (if decide (0 < om_num_blocks s) then true_div num_used (om_num_blocks s)
                    else Ok (float_of 0));
  _ ← modify (λ s, s <| allocation_sizes_in_current_batch := [] |>);
  write_usage ← lift_res (if decide (0 < om_num_blocks s)
                          then true_div (num_write_pending_blocks s) (om_num_blocks s)
                          else Ok (float_of 0));
  let read_usage := float_max (float_sub usage write_usage) (float_of 0) in
  skipped ← (if decide (2 ≤ store_threshold s) then
               _ ← modify (λ s, s <| stores_skipped_in_current_batch := 0 |>);
               mret (Some (stores_skipped_in_current_batch s))
             else mret None);
  mret {| cpu_cache_usage := usage; cpu_allocation_sizes := allocation_sizes_in_current_batch s;
          cpu_cache_write_usage := write_usage; cpu_cache_read_usage := read_usage;
          stores_skipped := skipped |}.

End manager.
Arguments CPUOffloadingManager : clear implicits.
