(* ===== verification/OffloadPolicies.v ===== *)
(** * What a replacement policy promises

    The interface between the manager of the CPU tier and its policies
    (src/vllm/v1/kv_offload/cpu/policies/): the blocks a policy holds, the keys
    it was told can be evicted, and what each operation does to them.  The
    least-recently-used and the adaptive policy implement it; the manager is
    verified against the interface only. *)

From Stdlib Require Import SpecFloat.
From S2P Require Import Prelude FreeQueue Hashing Floats Offload.

(** ** Ordered dictionaries *)

Section dict_facts.
Context {V : Type}.
Implicit Types (d : list (OffloadKey * V)) (k : OffloadKey) (v : V).

Lemma list_to_map_dict d k : (list_to_map d : gmap OffloadKey V) !! k = dict_get d k.
Proof.
  induction d as [|[k' v'] d IH]; simpl; [done|]. case_decide as Hk.
  - subst. apply lookup_insert_eq.
  - by rewrite lookup_insert_ne.
Qed.

Lemma dict_del_keys d k v : dict_get d k = Some v → d.*1 ≡ₚ k :: (dict_del d k).*1.
Proof. intros Hk. by rewrite (dict_del_perm d k v Hk) at 1. Qed.

Lemma dict_move_keys d k : (dict_move_to_end d k).*1 ≡ₚ d.*1.
Proof.
  unfold dict_move_to_end. destruct (dict_get d k) as [v|] eqn:Hk; [|done].
  rewrite fmap_app, (dict_del_keys d k v Hk). simpl. by rewrite Permutation_app_comm.
Qed.

Lemma dict_get_move d k k' : NoDup d.*1 → dict_get (dict_move_to_end d k) k' = dict_get d k'.
Proof.
  intros Hnd. unfold dict_move_to_end. destruct (dict_get d k) as [v|] eqn:Hk; [|done].
  rewrite dict_get_app, dict_get_del by done. simpl. case_decide; [subst|].
  - rewrite decide_True by done. done.
  - rewrite decide_False by done. by destruct (dict_get d k').
Qed.

Lemma del_key_Ok d k v : dict_get d k = Some v → del_key d k = Ok (dict_del d k).
Proof. unfold del_key. by intros ->. Qed.

Lemma dict_del_filter d k : NoDup d.*1 → dict_del d k = filter (λ e, e.1 ≠ k) d.
Proof.
  induction d as [|[k' v'] d IH]; csimpl; [done|]. intros [Hni Hnd]%NoDup_cons. case_decide as Hk.
  - subst. rewrite filter_cons_False by naive_solver. symmetry. apply filter_all.
    intros [k2 v2] Hin Heq. simpl in Heq. subst. apply Hni, list_elem_of_fmap. by exists (k', v2).
  - rewrite filter_cons_True by (simpl; congruence). by rewrite IH.
Qed.

End dict_facts.

(** ** The interface *)

(** The keys of the blocks no transfer uses. *)
Definition idle (view : gmap OffloadKey BlockStatus) : gset OffloadKey :=
  dom (filter (λ kb, st_ref_cnt kb.2 = 0) view).

(** What [evict] promises of a selection [l] of [n] blocks. *)
Record evicted_ok (view : gmap OffloadKey BlockStatus) (n : Z) (protected : gset OffloadKey)
    (l : list (OffloadKey * BlockStatus)) : Prop := {
  ev_len : len l = n;
  ev_distinct : NoDup l.*1;
  ev_held : ∀ k b, (k, b) ∈ l → view !! k = Some b;
  ev_idle : ∀ k b, (k, b) ∈ l → st_ref_cnt b = 0 ∧ k ∉ protected
}.

(** The blocks that stay after an eviction. *)
Definition remaining (view : gmap OffloadKey BlockStatus) (l : list (OffloadKey * BlockStatus)) :
    gmap OffloadKey BlockStatus :=
  filter (λ kb, kb.1 ∉ l.*1) view.

Class PolicyLaws (P : Type) `{CachePolicy P} := {
  (** [policy_ok p E]: [p] is well formed and was told that the keys of [E] are evictable *)
  policy_ok : P → gset OffloadKey → Prop;
  policy_view : P → gmap OffloadKey BlockStatus;
  law_init capacity : 0 ≤ capacity < 2 ^ 53 - 1 →
    policy_ok (policy_init capacity) ∅ ∧ policy_view (policy_init capacity) = ∅;
  law_get p E k : policy_ok p E → policy_get p k = policy_view p !! k;
  law_insert p E k b : policy_ok p E → policy_view p !! k = None → st_ref_cnt b ≠ 0 →
    wp (policy_insert k b)
      (λ _ p', policy_ok p' E ∧ policy_view p' = <[k := b]> (policy_view p)) p;
  law_remove p E k b : policy_ok p E → policy_view p !! k = Some b →
    wp (policy_remove k)
      (λ _ p', policy_ok p' (E ∖ {[k]}) ∧ policy_view p' = delete k (policy_view p)) p;
  law_touch p E ks : policy_ok p E →
    wp (policy_touch ks) (λ _ p', policy_ok p' E ∧ policy_view p' = policy_view p) p;
  law_clear p E : policy_ok p E →
    wp policy_clear (λ _ p', policy_ok p' ∅ ∧ policy_view p' = ∅) p;
  law_mark p E k b : policy_ok p E → policy_view p !! k = Some b →
    wp (mark_evictable k)
      (λ _ p', policy_ok p' ({[k]} ∪ E) ∧ policy_view p' = policy_view p) p;
  law_unmark p E k : policy_ok p E → k ∈ E →
    wp (mark_non_evictable k)
      (λ _ p', policy_ok p' (E ∖ {[k]}) ∧ policy_view p' = policy_view p) p;
  law_status p E k b b' : policy_ok p E → policy_view p !! k = Some b →
    policy_ok (store_status k b' p) E ∧
    policy_view (store_status k b' p) = <[k := b']> (policy_view p);
  law_evict p n protected : policy_ok p (idle (policy_view p)) → 0 ≤ n →
    wp (policy_evict n protected)
      (λ r p', match r with
               | None => p' = p
               | Some l =>
                   evicted_ok (policy_view p) n protected l ∧
                   policy_ok p' (idle (policy_view p) ∖ list_to_set l.*1) ∧
                   policy_view p' = remaining (policy_view p) l
               end) p
}.

Lemma elem_of_idle view k :
  k ∈ idle view ↔ ∃ b, view !! k = Some b ∧ st_ref_cnt b = 0.
Proof.
  unfold idle. rewrite elem_of_dom. split.
  - intros [b [Hb Hr]%map_lookup_filter_Some]. eauto.
  - intros (b & Hb & Hr). exists b. by apply map_lookup_filter_Some.
Qed.

Lemma lookup_remaining view l k :
  remaining view l !! k = if decide (k ∈ l.*1) then None else view !! k.
Proof.
  unfold remaining. case_decide as Hk.
  - apply map_lookup_filter_None_2. right. intros b _. naive_solver.
  - destruct (view !! k) as [b|] eqn:Hb.
    + by apply map_lookup_filter_Some_2.
    + apply map_lookup_filter_None_2. by left.
Qed.

(** ** Least recently used *)

Record lru_ok (p : LRUCachePolicy) (E : gset OffloadKey) : Prop := {
  lru_distinct : NoDup (evictable_blocks p).*1;
  lru_evictable k : k ∈ (evictable_blocks p).*1 ↔ k ∈ E;
  lru_held : E ⊆ dom (lru_blocks p)
}.

(** The idle, unprotected blocks from the least recently used. *)
Definition lru_order (p : LRUCachePolicy) (protected : gset OffloadKey) :
    list (OffloadKey * BlockStatus) :=
  omap (λ k, if decide (k ∈ protected) then None else (k,.) <$> lru_blocks p !! k)
    (evictable_blocks p).*1.

Lemma lru_candidates_exact blocks n protected entries acc :
  (∀ k, k ∈ entries.*1 → ∃ b, blocks !! k = Some b ∧ st_ref_cnt b = 0) → 0 ≤ len acc < n →
  lru_candidates blocks n protected entries acc =
    Ok (acc ++ take (Z.to_nat (n - len acc))
      (omap (λ k, if decide (k ∈ protected) then None else (k,.) <$> blocks !! k) entries.*1)).
Proof.
  revert acc. induction entries as [|[k []] entries IH]; intros acc Hidle Hacc; simpl.
  { by rewrite take_nil, app_nil_r. }
  destruct (Hidle k) as (b & Hb & Hr); [set_solver|].
  case_decide as Hk; [apply IH; [set_solver|done]|].
  rewrite Hb. simpl. rewrite decide_True by done. rewrite len_app.
  replace (len [(k, b)]) with 1 by done. case_decide as Hn.
  - replace (Z.to_nat (n - len acc)) with 1%nat by lia. by rewrite firstn_cons.
  - rewrite IH; [|set_solver|rewrite len_app; unfold len in *; simpl; lia].
    rewrite len_app. replace (len [(k, b)]) with 1 by done.
    replace (Z.to_nat (n - len acc)) with (S (Z.to_nat (n - (len acc + 1)))) by lia.
    by rewrite firstn_cons, <- app_assoc.
Qed.

Lemma elem_of_lru_order p protected k b : (k, b) ∈ lru_order p protected ↔
  k ∈ (evictable_blocks p).*1 ∧ (k ∉ protected) ∧ lru_blocks p !! k = Some b.
Proof.
  unfold lru_order. rewrite list_elem_of_omap. split.
  - intros (k' & Hk' & Heq). case_decide; [done|].
    destruct (lru_blocks p !! k') as [b'|] eqn:Hb; simplify_eq/=. done.
  - intros (Hk & Hp & Hb). exists k. rewrite decide_False, Hb by done. done.
Qed.

Lemma lru_order_keys p protected :
  (lru_order p protected).*1 `sublist_of` (evictable_blocks p).*1.
Proof.
  unfold lru_order. induction (evictable_blocks p).*1 as [|k ks IH]; [done|].
  csimpl. case_decide; [by apply sublist_cons|].
  destruct (lru_blocks p !! k); csimpl; [by apply sublist_skip|by apply sublist_cons].
Qed.

Lemma lru_order_NoDup p E protected : lru_ok p E → NoDup (lru_order p protected).*1.
Proof. intros [Hnd _ _]. eapply sublist_NoDup; [exact Hnd|apply lru_order_keys]. Qed.

(** The entries that stay. *)
Definition without {V} (ks : list OffloadKey) (d : list (OffloadKey * V)) : list (OffloadKey * V) :=
  filter (λ e, e.1 ∉ ks) d.

(** The removals of the selected blocks. *)
Lemma lru_delete_all p E cands : lru_ok p E → NoDup cands.*1 →
  (∀ k, k ∈ cands.*1 → k ∈ E) →
  wp (for_ cands (λ '(key, _),
        d ← gets evictable_blocks;
        d' ← lift_res (del_key d key);
        _ ← modify (λ p, p <| evictable_blocks := d' |>);
        lru_del_block key))
    (λ _ p', evictable_blocks p' = without cands.*1 (evictable_blocks p) ∧
       lru_blocks p' = remaining (lru_blocks p) cands) p.
Proof.
  intros [Hnd Hev Hheld] Hcs Hin.
  apply (wp_for (λ pre p', evictable_blocks p' = without pre.*1 (evictable_blocks p) ∧
    lru_blocks p' = remaining (lru_blocks p) pre)).
  { split.
    - symmetry. apply filter_all. intros e _. apply not_elem_of_nil.
    - apply map_eq. intros k. rewrite lookup_remaining. by rewrite decide_False by apply not_elem_of_nil. }
  intros pre [k b] post p1 -> [Hd Hb]. rewrite fmap_app in Hcs, Hin. simpl in Hcs, Hin.
  assert (k ∉ pre.*1) as Hpre by (apply NoDup_app in Hcs as (_ & Hcs & _); intros Hk; apply (Hcs k Hk); set_solver).
  assert (k ∈ E) as HkE by (apply Hin; set_solver).
  assert (NoDup (evictable_blocks p1).*1) as Hnd1.
  { rewrite Hd. eapply sublist_NoDup; [exact Hnd|]. apply fmap_sublist, sublist_filter. }
  assert (∃ v, dict_get (evictable_blocks p1) k = Some v) as [v Hv].
  { apply dict_get_is_Some. rewrite Hd. apply Hev, list_elem_of_fmap in HkE as ([k' v] & -> & He).
    apply list_elem_of_fmap. exists (k', v). split; [done|]. by apply list_elem_of_filter. }
  assert (∃ b', lru_blocks p1 !! k = Some b') as [b' Hb'].
  { rewrite Hb, lookup_remaining, decide_False by done. apply elem_of_dom. set_solver. }
  wp_steps. eapply wp_lift; [by eapply del_key_Ok|]. unfold lru_del_block. wp_steps. simpl.
  rewrite Hb'. wp_steps. simpl. rewrite fmap_app. simpl. split.
  - rewrite dict_del_filter, Hd by done. unfold without. rewrite list_filter_filter. apply list_filter_iff.
    intros [k2 v2]. simpl. set_solver.
  - rewrite Hb. apply map_eq. intros k2. rewrite lookup_delete, !lookup_remaining, fmap_app.
    simpl. repeat case_decide; set_solver.
Qed.

Lemma lru_evict_spec p n protected : lru_ok p (idle (lru_blocks p)) → 0 ≤ n →
  wp (lru_evict n protected)
    (λ r p',
       if decide (n ≤ len (lru_order p protected)) then
         let l := take (Z.to_nat n) (lru_order p protected) in
         r = Some l ∧ evictable_blocks p' = without l.*1 (evictable_blocks p) ∧
         lru_blocks p' = remaining (lru_blocks p) l
       else r = None ∧ p' = p) p.
Proof.
  intros Hok Hn. pose proof (len_nonneg (lru_order p protected)). unfold lru_evict.
  destruct (decide (n = 0)) as [->|Hn0].
  { wp_steps. rewrite decide_True by done. simpl. split; [done|]. split.
    - symmetry. apply filter_all. intros e _. apply not_elem_of_nil.
    - apply map_eq. intros k. rewrite lookup_remaining. by rewrite decide_False by apply not_elem_of_nil. }
  wp_steps. unfold id. eapply wp_lift.
  { apply lru_candidates_exact; [|unfold len; simpl; lia]. intros k Hk.
    apply elem_of_idle, Hok, Hk. }
  simpl. rewrite Z.sub_0_r. fold (lru_order p protected).
  set (l := take (Z.to_nat n) (lru_order p protected)).
  assert (len l = Z.min n (len (lru_order p protected))) as Hlen
    by (unfold l, len; rewrite length_take; lia).
  destruct (decide (len l < n)) as [Hlt|Hlt]; [wp_steps; by rewrite decide_False by lia|]. wp_steps.
  eapply wp_mono; [apply (lru_delete_all p (idle (lru_blocks p)))|].
  - done.
  - eapply sublist_NoDup; [exact (lru_order_NoDup p _ protected Hok)|].
    apply fmap_sublist, sublist_take.
  - intros k Hk. apply Hok. 
    apply (sublist_subseteq _ _ (lru_order_keys p protected)).
    apply (sublist_subseteq l.*1 _); [apply fmap_sublist, sublist_take|done].
  - intros _ p' [He Hb]. wp_steps. by rewrite decide_True by lia.
Qed.

Lemma lru_order_evicted p n protected : lru_ok p (idle (lru_blocks p)) →
  0 ≤ n ≤ len (lru_order p protected) →
  evicted_ok (lru_blocks p) n protected (take (Z.to_nat n) (lru_order p protected)).
Proof.
  intros Hok Hn. assert (∀ k b, (k, b) ∈ take (Z.to_nat n) (lru_order p protected) →
    (k, b) ∈ lru_order p protected) as Hsub.
  { intros k b Hin. eapply sublist_subseteq; [apply sublist_take|done]. }
  split.
  - unfold len in *. rewrite length_take. lia.
  - eapply sublist_NoDup; [by eapply lru_order_NoDup|]. apply fmap_sublist, sublist_take.
  - intros k b (_ & _ & Hb)%Hsub%elem_of_lru_order. done.
  - intros k b (Hk & Hp & Hb)%Hsub%elem_of_lru_order. split; [|done].
    apply Hok, elem_of_idle in Hk as (b' & Hb' & Hr). congruence.
Qed.

Lemma lru_touch_spec p E ks : lru_ok p E →
  wp (lru_touch ks) (λ _ p', lru_ok p' E ∧ lru_blocks p' = lru_blocks p) p.
Proof.
  intros Hok. unfold lru_touch.
  apply (wp_for (λ _ p', lru_ok p' E ∧ lru_blocks p' = lru_blocks p)); [done|].
  intros pre k post p1 _ [Hok1 Hb]. unfold lru_touch_one. wp_steps.
  destruct (dict_get _ k) eqn:Hk; [|done]. split; [|done].
  destruct Hok1 as [Hnd Hev Hheld]. split; simpl.
  - by rewrite dict_move_keys.
  - intros k'. by rewrite dict_move_keys.
  - done.
Qed.

#[global] Program Instance LRU_laws : PolicyLaws LRUCachePolicy := {|
  policy_ok := lru_ok;
  policy_view := lru_blocks |}.
Next Obligation.
  intros capacity _. split; [|done]. split; simpl; [by apply NoDup_nil|set_solver|set_solver].
Qed.
Next Obligation. done. Qed.
Next Obligation.
  intros p E k b [Hnd Hev Hheld] Hk Hb. simpl. unfold lru_insert. wp_steps.
  rewrite decide_False by done. wp_steps. split; [|done]. split; simpl; [done|done|set_solver].
Qed.
Next Obligation.
  intros p E k b [Hnd Hev Hheld] Hk. simpl. unfold lru_remove, lru_del_block. wp_steps.
  rewrite Hk. wp_steps. split; [|done]. split; simpl.
  - by apply dict_del_NoDup.
  - intros k'. rewrite <- dict_get_is_Some, dict_get_del by done.
    case_decide; [|rewrite dict_get_is_Some, Hev; set_solver].
    split; [by intros []|set_solver].
  - rewrite dom_delete. set_solver.
Qed.
Next Obligation. intros p E ks. apply lru_touch_spec. Qed.
Next Obligation.
  intros p E _. simpl. unfold lru_clear. wp_steps. split; [|done].
  split; simpl; [by apply NoDup_nil|set_solver|set_solver].
Qed.
Next Obligation.
  intros p E k b [Hnd Hev Hheld] Hk. simpl. unfold lru_mark_evictable. wp_steps. split; [|done].
  split; simpl.
  - by apply dict_set_NoDup.
  - intros k'. rewrite <- dict_get_is_Some, dict_get_set. case_decide as Heq.
    + split; [set_solver|by eexists].
    + rewrite dict_get_is_Some, Hev. set_solver.
  - apply elem_of_dom_2 in Hk. set_solver.
Qed.
Next Obligation.
  intros p E k [Hnd Hev Hheld] Hk. simpl. unfold lru_mark_non_evictable.
  apply Hev, dict_get_is_Some in Hk as [v Hv]. wp_steps.
  eapply wp_lift; [by eapply del_key_Ok|]. wp_steps. split; [|done]. split; simpl.
  - by apply dict_del_NoDup.
  - intros k'. rewrite <- dict_get_is_Some, dict_get_del by done.
    case_decide; [|rewrite dict_get_is_Some, Hev; set_solver].
    split; [by intros []|set_solver].
  - set_solver.
Qed.
Next Obligation.
  intros p E k b b' [Hnd Hev Hheld] Hk. unfold lru_store_status. simpl in *. split.
  - split; simpl; [done|done|by rewrite dom_alter].
  - apply map_eq. intros k'. rewrite lookup_alter, lookup_insert. case_decide; [|done]. subst.
    by rewrite Hk.
Qed.
Next Obligation.
  intros p n protected Hok Hn. simpl in *. eapply wp_mono; [by apply lru_evict_spec|].
  intros r p' Hr. simpl in Hr. case_decide as Hlen; [|by destruct Hr as [-> ->]].
  destruct Hr as (-> & He & Hb). split; [by apply lru_order_evicted|]. split; [|done].
  destruct Hok as [Hnd Hev Hheld]. split.
  - rewrite He. eapply sublist_NoDup; [exact Hnd|]. apply fmap_sublist, sublist_filter.
  - intros k. rewrite He. unfold without. rewrite list_elem_of_fmap. split.
    + intros ([k' v] & -> & [Hn' Hin]%list_elem_of_filter). simpl in *.
      apply elem_of_difference. rewrite elem_of_list_to_set. split; [|done].
      apply Hev, list_elem_of_fmap. by exists (k', v).
    + intros [Hin Hn']%elem_of_difference. rewrite elem_of_list_to_set in Hn'.
      apply Hev, list_elem_of_fmap in Hin as ([k' v] & -> & Hin). exists (k', v).
      split; [done|]. by apply list_elem_of_filter.
  - intros k [(b & Hk & _)%elem_of_idle Hn']%elem_of_difference. apply elem_of_dom.
    rewrite elem_of_list_to_set in Hn'. rewrite Hb, lookup_remaining, decide_False by done.
    by exists b.
Qed.
