(* ===== verification/OffloadArc.v ===== *)
(** * The adaptive replacement policy

    The invariant of ARC (src/vllm/v1/kv_offload/cpu/policies/arc.py): a key is
    in at most one of the two lists and the two ghost lists, the ghost lists
    never outgrow the capacity, and the adaptive target stays a finite number;
    and that ARC keeps the promises of the policy interface. *)

From Stdlib Require Import SpecFloat.
From S2P Require Import Prelude FreeQueue Hashing Floats Offload OffloadPolicies.

(** The keys of the four lists. *)
Definition arc_keys (p : ARCCachePolicy) : list OffloadKey :=
  (arc_t1 p).*1 ++ (arc_t2 p).*1 ++ (arc_b1 p).*1 ++ (arc_b2 p).*1.

Record arc_ok (p : ARCCachePolicy) : Prop := {
  ak_distinct : NoDup (arc_keys p);
  ak_capacity : 0 ≤ arc_capacity p < 2 ^ 53 - 1;
  ak_target : small (target_t1_size p);
  ak_b1 : len (arc_b1 p) ≤ arc_capacity p;
  ak_b2 : len (arc_b2 p) ≤ arc_capacity p
}.

Definition arc_view (p : ARCCachePolicy) : gmap OffloadKey BlockStatus :=
  list_to_map (arc_t1 p ++ arc_t2 p).

Lemma lookup_arc_view p k : arc_view p !! k = arc_get p k.
Proof. unfold arc_view. by rewrite list_to_map_dict, dict_get_app. Qed.

(** Two policies with the same blocks. *)
Lemma arc_view_eq p p' : (∀ k, arc_get p' k = arc_get p k) → arc_view p' = arc_view p.
Proof. intros Heq. apply map_eq. intros k. by rewrite !lookup_arc_view. Qed.

(** ** A key is in one list only *)

Lemma arc_t1_NoDup p : NoDup (arc_keys p) → NoDup (arc_t1 p).*1.
Proof. by intros [H _]%NoDup_app. Qed.

Lemma arc_t2_NoDup p : NoDup (arc_keys p) → NoDup (arc_t2 p).*1.
Proof. by intros (_ & _ & [H _]%NoDup_app)%NoDup_app. Qed.

Lemma arc_b1_NoDup p : NoDup (arc_keys p) → NoDup (arc_b1 p).*1.
Proof. by intros (_ & _ & (_ & _ & [H _]%NoDup_app)%NoDup_app)%NoDup_app. Qed.

Lemma arc_b2_NoDup p : NoDup (arc_keys p) → NoDup (arc_b2 p).*1.
Proof. by intros (_ & _ & (_ & _ & (_ & _ & H)%NoDup_app)%NoDup_app)%NoDup_app. Qed.

Lemma arc_t1_fresh p k : NoDup (arc_keys p) → k ∈ (arc_t1 p).*1 →
  (k ∉ (arc_t2 p).*1) ∧ (k ∉ (arc_b1 p).*1) ∧ k ∉ (arc_b2 p).*1.
Proof. intros (_ & H & _)%NoDup_app Hk. specialize (H k Hk). set_solver. Qed.

Lemma arc_t2_fresh p k : NoDup (arc_keys p) → k ∈ (arc_t2 p).*1 →
  (k ∉ (arc_t1 p).*1) ∧ (k ∉ (arc_b1 p).*1) ∧ k ∉ (arc_b2 p).*1.
Proof.
  intros (_ & H1 & (_ & H2 & _)%NoDup_app)%NoDup_app Hk. specialize (H2 k Hk).
  split; [|set_solver]. intros Hk1. specialize (H1 k Hk1). set_solver.
Qed.

(** A key that moves between the lists. *)
Section moves.
Context (A B C D : list OffloadKey) (k : OffloadKey).

Lemma move_first_second : A ++ (B ++ [k]) ++ C ≡ₚ (k :: A) ++ B ++ C.
Proof. rewrite <- !app_assoc. simpl. by rewrite <- !Permutation_middle. Qed.

Lemma move_first_third : A ++ B ++ (C ++ [k]) ++ D ≡ₚ (k :: A) ++ B ++ C ++ D.
Proof. rewrite <- !app_assoc. simpl. by rewrite <- !Permutation_middle. Qed.

Lemma move_second_fourth : A ++ B ++ C ++ (D ++ [k]) ≡ₚ A ++ (k :: B) ++ C ++ D.
Proof.
  apply Permutation_app; [done|]. simpl. rewrite !app_assoc, (Permutation_app_comm _ [k]). done.
Qed.

End moves.

(** ** Touching *)

(** Keys that only change places keep the invariant. *)
Lemma arc_ok_perm p p' : arc_ok p → arc_keys p' ≡ₚ arc_keys p →
  arc_capacity p' = arc_capacity p → small (target_t1_size p') →
  length (arc_b1 p') = length (arc_b1 p) → length (arc_b2 p') = length (arc_b2 p) → arc_ok p'.
Proof.
  intros [Hnd Hcap Ht Hb1 Hb2] Hperm Hc Ht' Hl1 Hl2. unfold len in *.
  split; [by rewrite Hperm|by rewrite Hc|done|unfold len; congruence..].
Qed.

Lemma dict_move_length {V} (d : list (OffloadKey * V)) k : length (dict_move_to_end d k) = length d.
Proof. rewrite <- !(length_fmap fst). by rewrite dict_move_keys. Qed.

(** A block of T1 that is touched: a pending one moves to the end, a readable
    one to T2. *)
Lemma arc_touch_t1 p k b : arc_ok p → dict_get (arc_t1 p) k = Some b →
  let t1 := dict_del (arc_t1 p) k in
  let pending := p <| arc_t1 := dict_set t1 k b |> in
  let promoted := p <| arc_t1 := t1 |> <| arc_t2 ::= λ d, dict_set d k b |> in
  (arc_ok pending ∧ arc_view pending = arc_view p) ∧
  (arc_ok promoted ∧ arc_view promoted = arc_view p).
Proof.
  intros Hok Hk t1. pose proof (ak_distinct p Hok) as Hnd.
  pose proof (arc_t1_NoDup p Hnd) as Hnd1.
  assert (k ∈ (arc_t1 p).*1) as Hin by (apply dict_get_is_Some; by rewrite Hk).
  destruct (arc_t1_fresh p k Hnd Hin) as (Hn2%dict_get_None & _ & _).
  assert (dict_get t1 k = None) as Hdel by by apply dict_get_del_eq.
  assert (∀ k', k ≠ k' → dict_get t1 k' = dict_get (arc_t1 p) k') as Hne
    by (intros; by apply dict_get_del_ne).
  split; (split; [apply (arc_ok_perm p); try done; [|exact (ak_target p Hok)]|apply arc_view_eq]).
  - unfold arc_keys. simpl. rewrite dict_set_keys_None, fmap_app by done. simpl.
    apply Permutation_app; [|done]. rewrite (dict_del_keys _ _ _ Hk). by rewrite Permutation_app_comm.
  - intros k'. unfold arc_get. simpl. rewrite dict_get_set. case_decide; [subst; by rewrite Hk|].
    by rewrite Hne.
  - unfold arc_keys. simpl. rewrite (dict_set_keys_None _ k b Hn2), fmap_app. simpl.
    rewrite (dict_del_keys _ _ _ Hk). apply move_first_second.
  - intros k'. unfold arc_get. simpl. destruct (decide (k = k')) as [<-|Hkk].
    + by rewrite Hdel, Hk, dict_get_set_eq.
    + by rewrite Hne, dict_get_set_ne.
Qed.

Lemma arc_touch_one_spec p k : arc_ok p →
  wp (arc_touch_one k) (λ _ p', arc_ok p' ∧ arc_view p' = arc_view p) p.
Proof.
  intros Hok. unfold arc_touch_one. wp_steps. unfold id.
  destruct (dict_get (arc_t1 p) k) as [b|] eqn:Hk1.
  { destruct (arc_touch_t1 p k b Hok Hk1) as [Hpend Hprom].
    destruct (negb (is_ready b)); wp_steps; [exact Hpend|exact Hprom]. }
  pose proof (ak_distinct p Hok) as Hnd. pose proof (ak_capacity p Hok) as Hcap.
  destruct (dict_get (arc_t2 p) k) as [b|] eqn:Hk2.
  { wp_steps. split; [apply (arc_ok_perm p); try done; [|exact (ak_target p Hok)]|].
    - unfold arc_keys. simpl. by rewrite dict_move_keys.
    - apply arc_view_eq. intros k'. unfold arc_get. simpl.
      by rewrite dict_get_move by by apply arc_t2_NoDup. }
  destruct (dict_get (arc_b1 p) k) as [u|] eqn:Hg1; [|destruct (dict_get (arc_b2 p) k) as [u|] eqn:Hg2].
  - assert (len (arc_b1 p) ≠ 0) by (destruct (arc_b1 p); [done|]; unfold len; simpl; lia).
    wp_steps. eapply wp_lift; [unfold true_div; by rewrite decide_False|]. wp_steps.
    split; [|by apply arc_view_eq]. apply (arc_ok_perm p); try done; simpl.
    + unfold arc_keys. simpl. by rewrite dict_move_keys.
    + apply add_clamped; [exact (ak_target p Hok)| |by apply float_of_small].
      apply (ratio_positive (len (arc_b2 p)) (len (arc_b1 p))). unfold true_div.
      by rewrite decide_False.
    + apply dict_move_length.
  - assert (len (arc_b2 p) ≠ 0) by (destruct (arc_b2 p); [done|]; unfold len; simpl; lia).
    wp_steps. eapply wp_lift; [unfold true_div; by rewrite decide_False|]. wp_steps.
    split; [|by apply arc_view_eq]. apply (arc_ok_perm p); try done; simpl.
    + unfold arc_keys. simpl. by rewrite dict_move_keys.
    + apply sub_clamped; [exact (ak_target p Hok)|].
      apply (ratio_positive (len (arc_b1 p)) (len (arc_b2 p))). unfold true_div.
      by rewrite decide_False.
    + apply dict_move_length.
  - by wp_steps.
Qed.

(** ** Selecting the candidates *)

(** The candidates from T1, or those from T2. *)
Definition from_list (side : bool) (cs : list arc_candidate) : list (OffloadKey * BlockStatus) :=
  (filter (λ c, c.2 = side) cs).*1.

Lemma from_list_cons side e s cs :
  from_list side ((e, s) :: cs) = (if decide (s = side) then [e] else []) ++ from_list side cs.
Proof.
  unfold from_list. case_decide.
  - by rewrite filter_cons_True.
  - by rewrite filter_cons_False.
Qed.

Lemma next_candidate_Some protected entries e rest :
  next_candidate protected entries = (Some e, rest) →
  st_ref_cnt e.2 = 0 ∧ (e.1 ∉ protected) ∧ e :: rest `sublist_of` entries.
Proof.
  induction entries as [|[k b] entries IH]; simpl; [done|]. case_decide as Hk.
  - intros [= <- <-]. simpl. naive_solver.
  - intros Hn. destruct (IH Hn) as (? & ? & ?). split_and!; [done|done|by apply sublist_cons].
Qed.

Lemma next_candidate_None protected entries rest :
  next_candidate protected entries = (None, rest) → rest = [].
Proof.
  induction entries as [|[k b] entries IH]; simpl; [by intros [= <-]|]. by case_decide.
Qed.

Record selection (n : nat) (protected : gset OffloadKey)
    (i1 i2 : list (OffloadKey * BlockStatus)) (cs : list arc_candidate) : Prop := {
  se_len : length cs = n;
  se_t1 : from_list true cs `sublist_of` i1;
  se_t2 : from_list false cs `sublist_of` i2;
  se_idle : ∀ k b s, (k, b, s) ∈ cs → st_ref_cnt b = 0 ∧ k ∉ protected
}.

Lemma arc_select_spec n limit protected v i1 i2 acc cs :
  arc_select n limit protected v i1 i2 acc = Some cs →
  ∃ new, cs = acc ++ new ∧ selection n protected i1 i2 new.
Proof.
  revert v i1 i2 acc. induction n as [|n IH]; intros v i1 i2 acc; simpl.
  { intros [= <-]. exists []. split; [by rewrite app_nil_r|].
    split; try done; [apply sublist_nil_l..|]. intros ??? []%elem_of_nil. }
  assert (∀ (e : OffloadKey * BlockStatus) (s : bool) i1' i2' v', st_ref_cnt e.2 = 0 → e.1 ∉ protected →
    (if s then [e] else []) ++ i1' `sublist_of` i1 →
    (if s then [] else [e]) ++ i2' `sublist_of` i2 →
    arc_select n limit protected v' i1' i2' (acc ++ [(e, s)]) = Some cs →
    ∃ new, cs = acc ++ new ∧ selection (S n) protected i1 i2 new) as Hstep.
  { intros [k b] s i1' i2' v' Hr Hp H1 H2 (new & -> & [Hl Hs1 Hs2 Hi])%IH.
    exists ((k, b, s) :: new). split; [by rewrite <- app_assoc|]. split.
    - simpl. by rewrite Hl.
    - rewrite from_list_cons. etrans; [|exact H1]. destruct s; simpl; [by apply sublist_skip|done].
    - rewrite from_list_cons. etrans; [|exact H2]. destruct s; simpl; [done|by apply sublist_skip].
    - intros k' b' s' [?|Hin]%elem_of_cons; [by simplify_eq|by eapply Hi]. }
  destruct (if decide (limit ≤ v) then _ else _) as [entry i1'] eqn:He.
  destruct entry as [e|].
  - case_decide; [|done]. apply next_candidate_Some in He as (? & ? & ?).
    by apply (Hstep e true).
  - destruct (next_candidate protected i2) as [[e|] i2'] eqn:He2; [|done].
    apply next_candidate_Some in He2 as (? & ? & ?). apply (Hstep e false); [done|done| |done].
    case_decide; simplify_eq/=; [|done]. apply next_candidate_None in He as ->. apply sublist_nil_l.
Qed.

Lemma from_list_elem k b s cs : (k, b, s) ∈ cs → (k, b) ∈ from_list s cs.
Proof.
  intros Hin. apply list_elem_of_fmap. exists (k, b, s). split; [done|].
  by apply list_elem_of_filter.
Qed.

(** The keys of the candidates: those from T1 and those from T2. *)
Lemma candidate_keys cs :
  cs.*1.*1 ≡ₚ (from_list true cs).*1 ++ (from_list false cs).*1.
Proof.
  induction cs as [|[e s] cs IH]; [done|]. rewrite !from_list_cons. csimpl.
  destruct s; simpl; rewrite IH; [done|]. by rewrite <- Permutation_middle.
Qed.

(** ** Evicting *)

(** After the candidates [pre] left: their keys are in the ghost lists. *)
Record arc_moved (p : ARCCachePolicy) (pre : list OffloadKey) (p' : ARCCachePolicy) : Prop := {
  mv_keys : arc_keys p' ≡ₚ arc_keys p;
  mv_capacity : arc_capacity p' = arc_capacity p;
  mv_target : target_t1_size p' = target_t1_size p;
  mv_t1 k : dict_get (arc_t1 p') k = if decide (k ∈ pre) then None else dict_get (arc_t1 p) k;
  mv_t2 k : dict_get (arc_t2 p') k = if decide (k ∈ pre) then None else dict_get (arc_t2 p) k
}.

Lemma arc_moved_nil p : arc_moved p [] p.
Proof. split; try done; intros k; by rewrite decide_False by apply not_elem_of_nil. Qed.

Lemma arc_evict_one_spec p pre p1 k b (s : bool) : NoDup (arc_keys p) → arc_moved p pre p1 →
  k ∉ pre → dict_get (if s then arc_t1 p else arc_t2 p) k = Some b →
  wp (arc_evict_one (k, b, s)) (λ _, arc_moved p (pre ++ [k])) p1.
Proof.
  intros Hnd [Hkeys Hcap Ht H1 H2] Hpre Hk.
  assert (NoDup (arc_keys p1)) as Hnd1 by by rewrite Hkeys.
  pose proof (arc_t1_NoDup _ Hnd1) as Hd1. pose proof (arc_t2_NoDup _ Hnd1) as Hd2.
  assert (∀ (d d' : list (OffloadKey * BlockStatus)), NoDup d'.*1 →
    (∀ k, dict_get d' k = if decide (k ∈ pre) then None else dict_get d k) →
    ∀ k', dict_get (dict_del d' k) k' =
      if decide (k' ∈ pre ++ [k]) then None else dict_get d k') as Hdel.
  { intros d d' Hd Hget k'. rewrite dict_get_del, Hget by done. repeat case_decide; set_solver. }
  assert (∀ (d d' : list (OffloadKey * BlockStatus)), dict_get d k = None →
    (∀ k, dict_get d' k = if decide (k ∈ pre) then None else dict_get d k) →
    ∀ k', dict_get d' k' = if decide (k' ∈ pre ++ [k]) then None else dict_get d k') as Hother.
  { intros d d' Hd Hget k'. rewrite Hget. repeat case_decide; try set_solver. }
  unfold arc_evict_one. destruct s.
  - assert (dict_get (arc_t1 p1) k = Some b) as Hk1 by by rewrite H1, decide_False.
    assert (k ∈ (arc_t1 p).*1) as Hin by (apply dict_get_is_Some; by rewrite Hk).
    assert (k ∈ (arc_t1 p1).*1) as Hin1 by (apply dict_get_is_Some; by rewrite Hk1).
    destruct (arc_t1_fresh p k Hnd Hin) as (Hn2%dict_get_None & _ & _).
    destruct (arc_t1_fresh p1 k Hnd1 Hin1) as (_ & Hnb%dict_get_None & _).
    wp_steps. eapply wp_lift; [by eapply del_key_Ok|]. wp_steps.
    split; simpl; try done; [|by apply Hdel|by apply Hother].
    rewrite <- Hkeys. unfold arc_keys. simpl. rewrite (dict_set_keys_None _ k () Hnb), fmap_app.
    rewrite (dict_del_keys _ _ _ Hk1). apply move_first_third.
  - assert (dict_get (arc_t2 p1) k = Some b) as Hk1 by by rewrite H2, decide_False.
    assert (k ∈ (arc_t2 p).*1) as Hin by (apply dict_get_is_Some; by rewrite Hk).
    assert (k ∈ (arc_t2 p1).*1) as Hin1 by (apply dict_get_is_Some; by rewrite Hk1).
    destruct (arc_t2_fresh p k Hnd Hin) as (Hn2%dict_get_None & _ & _).
    destruct (arc_t2_fresh p1 k Hnd1 Hin1) as (_ & _ & Hnb%dict_get_None).
    wp_steps. eapply wp_lift; [by eapply del_key_Ok|]. wp_steps.
    split; simpl; try done; [|by apply Hother|by apply Hdel].
    rewrite <- Hkeys. unfold arc_keys. simpl. rewrite (dict_set_keys_None _ k () Hnb), fmap_app.
    rewrite (dict_del_keys _ _ _ Hk1). apply move_second_fourth.
Qed.

Lemma arc_evict_all_spec p cs : NoDup (arc_keys p) → NoDup cs.*1.*1 →
  (∀ k b s, (k, b, s) ∈ cs → dict_get (if (s : bool) then arc_t1 p else arc_t2 p) k = Some b) →
  wp (for_ cs arc_evict_one) (λ _, arc_moved p cs.*1.*1) p.
Proof.
  intros Hnd Hcs Hheld. apply (wp_for (λ pre, arc_moved p pre.*1.*1)); [apply arc_moved_nil|].
  intros pre [[k b] s] post p1 -> Hmv. rewrite !fmap_app in *. simpl in *.
  apply (arc_evict_one_spec p _ _ k b s); [done|done| |apply Hheld; set_solver].
  apply NoDup_app in Hcs as (_ & Hcs & _). intros Hk. apply (Hcs k Hk). set_solver.
Qed.

(** The ghost lists are cut to the capacity. *)
Lemma popitems_spec n ghost : n ≤ len ghost →
  ∃ ghost', popitems n ghost = Ok ghost' ∧ ghost' `sublist_of` ghost ∧
    len ghost' = len ghost - Z.max 0 n.
Proof.
  intros Hn. unfold popitems. rewrite decide_True by done. eexists. split; [done|].
  split; [apply sublist_drop|]. unfold len in *. rewrite length_drop. lia.
Qed.

Lemma arc_trim_spec p : NoDup (arc_keys p) → 0 ≤ arc_capacity p < 2 ^ 53 - 1 →
  small (target_t1_size p) → wp arc_trim (λ _ p', arc_ok p' ∧ arc_view p' = arc_view p) p.
Proof.
  intros Hnd Hcap Ht. unfold arc_trim. wp_steps. unfold id.
  destruct (popitems_spec (len (arc_b1 p) - arc_capacity p) (arc_b1 p)) as (b1 & E1 & Hs1 & Hl1);
    [lia|].
  destruct (popitems_spec (len (arc_b2 p) - arc_capacity p) (arc_b2 p)) as (b2 & E2 & Hs2 & Hl2);
    [lia|].
  eapply wp_lift; [done|]. wp_steps. eapply wp_lift; [done|]. wp_steps.
  split; [|by apply arc_view_eq]. split; simpl; [|done|done|lia|lia].
  eapply sublist_NoDup; [exact Hnd|]. unfold arc_keys. simpl.
  by repeat (apply sublist_app; [done|]); apply sublist_app; apply fmap_sublist.
Qed.

Lemma arc_evict_spec p n protected : arc_ok p → 0 ≤ n →
  wp (arc_evict n protected)
    (λ r p', match r with
             | None => p' = p
             | Some l => evicted_ok (arc_view p) n protected l ∧ arc_ok p' ∧
                 arc_view p' = remaining (arc_view p) l
             end) p.
Proof.
  intros Hok Hn. pose proof (ak_distinct p Hok) as Hnd. unfold arc_evict. case_decide as Hn0.
  { wp_steps. subst. split; [|split; [done|]].
    - split; [done|apply NoDup_nil_2|by intros ?? []%elem_of_nil..].
    - apply map_eq. intros k. rewrite lookup_remaining.
      by rewrite decide_False by apply not_elem_of_nil. }
  wp_steps. unfold id. destruct (small_trunc _ (ak_target p Hok)) as [limit Hlimit].
  eapply wp_lift; [done|].
  destruct (arc_select _ _ _ _ _ _ _) as [cs|] eqn:Hsel; [|by wp_steps].
  apply arc_select_spec in Hsel as (new & Heq & [Hl Hs1 Hs2 Hidle]). simpl in Heq. subst cs.
  assert (∀ k b s, (k, b, s) ∈ new → dict_get (if (s : bool) then arc_t1 p else arc_t2 p) k = Some b)
    as Hheld.
  { intros k b s Hin%from_list_elem. destruct s; apply dict_elem_get.
    - by apply arc_t1_NoDup.
    - by eapply sublist_subseteq.
    - by apply arc_t2_NoDup.
    - by eapply sublist_subseteq. }
  assert (NoDup new.*1.*1) as Hdist.
  { rewrite candidate_keys. eapply sublist_NoDup; [exact Hnd|]. unfold arc_keys.
    rewrite (app_assoc (arc_t1 p).*1). apply sublist_inserts_r, sublist_app; by apply fmap_sublist. }
  wp_steps. eapply wp_mono; [by apply arc_evict_all_spec|]. intros _ p1 [Hk1 Hc1 Ht1 Hg1 Hg2].
  wp_steps. eapply wp_mono; [apply arc_trim_spec; [by rewrite Hk1|rewrite Hc1; apply Hok|rewrite Ht1; apply Hok]|].
  intros _ p2 [Hok2 Hv2]. wp_steps. split; [|split; [done|]].
  - split; [unfold len; rewrite length_fmap; etrans; [exact (f_equal Z.of_nat Hl)|lia]|done|..].
    + intros k b ([[k' b'] s] & Heq & Hin)%list_elem_of_fmap. simplify_eq/=.
      apply Hheld in Hin. rewrite lookup_arc_view. unfold arc_get. destruct s; [by rewrite Hin|].
      assert (k' ∈ (arc_t2 p).*1) as Hin2 by (apply dict_get_is_Some; by rewrite Hin).
      destruct (arc_t2_fresh p k' Hnd Hin2) as (->%dict_get_None & _). done.
    + intros k b ([[k' b'] s] & Heq & Hin)%list_elem_of_fmap. simplify_eq/=. by eapply Hidle.
  - rewrite Hv2. apply map_eq. intros k. rewrite lookup_remaining, !lookup_arc_view.
    unfold arc_get. rewrite Hg1, Hg2. by case_decide.
Qed.

(** ** The other operations *)

Lemma arc_insert_spec p k b : arc_ok p → arc_get p k = None →
  wp (arc_insert k b) (λ _ p', arc_ok p' ∧ arc_view p' = <[k := b]> (arc_view p)) p.
Proof.
  intros [Hnd Hcap Ht Hb1 Hb2] Hk. unfold arc_get in Hk.
  destruct (dict_get (arc_t1 p) k) eqn:Hk1; [done|]. unfold arc_insert. wp_steps. split.
  - pose proof (arc_b1_NoDup p Hnd) as Hn1. pose proof (arc_b2_NoDup p Hnd) as Hn2.
    assert (∀ d : list (OffloadKey * unit), len (dict_del d k) ≤ len d) as Hlen.
    { intros d. unfold len. apply inj_le, sublist_length, dict_del_sublist. }
    split; simpl; [|done|done|etrans; [apply Hlen|done]..].
    unfold arc_keys. simpl. rewrite dict_set_keys_None, fmap_app by done. simpl.
    rewrite <- app_assoc. simpl. rewrite <- Permutation_middle. apply NoDup_cons. split.
    + rewrite !elem_of_app, <- !dict_get_is_Some, Hk1, Hk, !dict_get_del_eq by done.
      intros [[]|[[]|[[]|[]]]]; done.
    + eapply sublist_NoDup; [exact Hnd|].
      by repeat (apply sublist_app; [done|]); apply sublist_app; apply fmap_sublist, dict_del_sublist.
  - apply map_eq. intros k'. rewrite lookup_insert, !lookup_arc_view. unfold arc_get. simpl.
    rewrite dict_get_set. by case_decide.
Qed.

Lemma arc_remove_spec p k : arc_ok p →
  wp (arc_remove k) (λ _ p', arc_ok p' ∧ arc_view p' = delete k (arc_view p)) p.
Proof.
  intros [Hnd Hcap Ht Hb1 Hb2]. unfold arc_remove. wp_steps.
  pose proof (arc_t1_NoDup p Hnd) as Hn1. pose proof (arc_t2_NoDup p Hnd) as Hn2.
  destruct (dict_get (arc_t1 p) k) as [b|] eqn:Hk.
  - assert (k ∈ (arc_t1 p).*1) as Hin by (apply dict_get_is_Some; by rewrite Hk).
    destruct (arc_t1_fresh p k Hnd Hin) as (Hk2%dict_get_None & _ & _). split.
    + split; simpl; try done. eapply sublist_NoDup; [exact Hnd|]. unfold arc_keys; simpl.
      apply sublist_app; [apply fmap_sublist, dict_del_sublist|done].
    + apply map_eq. intros k'. rewrite lookup_delete, !lookup_arc_view. unfold arc_get. simpl.
      rewrite dict_get_del by done. case_decide; [by subst|done].
  - split.
    + split; simpl; try done. eapply sublist_NoDup; [exact Hnd|]. unfold arc_keys; simpl.
      apply sublist_app; [done|]. apply sublist_app; [apply fmap_sublist, dict_del_sublist|done].
    + apply map_eq. intros k'. rewrite lookup_delete, !lookup_arc_view. unfold arc_get. simpl.
      rewrite dict_get_del by done. case_decide; [subst; by rewrite Hk|done].
Qed.

Lemma arc_status_spec p k b b' : arc_ok p → arc_get p k = Some b →
  arc_ok (arc_store_status k b' p) ∧
  arc_view (arc_store_status k b' p) = <[k := b']> (arc_view p).
Proof.
  intros Hok Hk. unfold arc_store_status, arc_get in *.
  destruct (dict_get (arc_t1 p) k) as [b1|] eqn:Hk1; [|rewrite Hk].
  - split.
    + apply (arc_ok_perm p); try done; [|exact (ak_target p Hok)]. unfold arc_keys. simpl.
      by rewrite dict_set_keys_Some by by rewrite Hk1.
    + apply map_eq. intros k'. rewrite lookup_insert, !lookup_arc_view. unfold arc_get. simpl.
      rewrite dict_get_set. by case_decide.
  - split.
    + apply (arc_ok_perm p); try done; [|exact (ak_target p Hok)]. unfold arc_keys. simpl.
      by rewrite (dict_set_keys_Some (arc_t2 p)) by by rewrite Hk.
    + apply map_eq. intros k'. rewrite lookup_insert, !lookup_arc_view. unfold arc_get. simpl.
      rewrite dict_get_set. case_decide; [subst; by rewrite Hk1|done].
Qed.

#[global] Program Instance ARC_laws : PolicyLaws ARCCachePolicy := {|
  policy_ok := λ p _, arc_ok p;
  policy_view := arc_view |}.
Next Obligation.
  intros capacity Hc. split; [|done]. split; simpl; try done; [apply NoDup_nil_2|unfold len; simpl; lia..].
Qed.
Next Obligation. intros p E k _. by rewrite lookup_arc_view. Qed.
Next Obligation.
  intros p E k b Hok Hk _. rewrite lookup_arc_view in Hk. by apply arc_insert_spec.
Qed.
Next Obligation. intros p E k b Hok _. by apply arc_remove_spec. Qed.
Next Obligation.
  intros p E ks Hok. simpl. unfold arc_touch.
  apply (wp_for (λ _ p', arc_ok p' ∧ arc_view p' = arc_view p)); [done|].
  intros pre k post p1 _ [Hok1 Hv]. eapply wp_mono; [by apply arc_touch_one_spec|].
  intros _ p2 [Hok2 Hv2]. split; [done|congruence].
Qed.
Next Obligation.
  intros p E [Hnd Hcap Ht Hb1 Hb2]. simpl. unfold arc_clear. wp_steps. split; [|done].
  split; simpl; try done; [apply NoDup_nil_2|unfold len; simpl; lia..].
Qed.
Next Obligation. intros p E k b Hok _. by simpl; wp_steps. Qed.
Next Obligation. intros p E k Hok _. by simpl; wp_steps. Qed.
Next Obligation.
  intros p E k b b' Hok Hk. rewrite lookup_arc_view in Hk. by eapply arc_status_spec.
Qed.
Next Obligation. intros p n protected Hok Hn. by apply arc_evict_spec. Qed.
