(* ===== verification/OffloadManager.v ===== *)
(** * The manager of the CPU tier

    The invariant of [CPUOffloadingManager]
    (src/vllm/v1/kv_offload/cpu/manager.py), for any policy that keeps the
    promises of [PolicyLaws]: every slot handed out is held by exactly one block
    or is free, the reference count of a block is the number of loads that read
    it, and the two counters count what they say.  Each operation keeps it, and
    raises nothing, whenever its caller keeps the protocol of loads and stores. *)

From S2P Require Import Prelude FreeQueue Hashing Floats Offload OffloadPolicies OffloadArc.

(** ** The blocks of a view *)

(** The slots the blocks hold. *)
Definition slots (view : gmap OffloadKey BlockStatus) : list Z :=
  (λ kb, st_block_id kb.2) <$> map_to_list view.

(** The number of blocks with reference count [n]. *)
Definition count_refs (n : Z) (view : gmap OffloadKey BlockStatus) : Z :=
  map_sum (λ _ b, if decide (st_ref_cnt b = n) then 1 else 0) view.

Lemma slots_insert_new view k b : view !! k = None →
  slots (<[k := b]> view) ≡ₚ st_block_id b :: slots view.
Proof. intros Hk. unfold slots. by rewrite map_to_list_insert. Qed.

Lemma slots_delete view k b : view !! k = Some b →
  slots view ≡ₚ st_block_id b :: slots (delete k view).
Proof.
  intros Hk. rewrite <- (insert_delete_id view k b Hk) at 1.
  apply slots_insert_new, lookup_delete_eq.
Qed.

Lemma slots_update view k b b' : view !! k = Some b → st_block_id b' = st_block_id b →
  slots (<[k := b']> view) ≡ₚ slots view.
Proof.
  intros Hk Hid. rewrite <- insert_delete_eq, slots_insert_new by apply lookup_delete_eq.
  by rewrite (slots_delete view k b Hk), Hid.
Qed.

Lemma elem_of_slots view z : z ∈ slots view ↔ ∃ k b, view !! k = Some b ∧ st_block_id b = z.
Proof.
  unfold slots. rewrite list_elem_of_fmap. split.
  - intros ([k b] & -> & Hin%elem_of_map_to_list). eauto.
  - intros (k & b & Hk & <-). exists (k, b). by rewrite elem_of_map_to_list.
Qed.

(** An eviction seen from the blocks: the evicted ones leave one by one. *)
Lemma remaining_cons view k b l : remaining view ((k, b) :: l) = delete k (remaining view l).
Proof.
  apply map_eq. intros k'. rewrite lookup_delete, !lookup_remaining. csimpl.
  repeat case_decide; set_solver.
Qed.

Lemma remaining_nil view : remaining view [] = view.
Proof.
  apply map_eq. intros k. rewrite lookup_remaining. by rewrite decide_False by apply not_elem_of_nil.
Qed.

Lemma remaining_lookup_head view k b l : NoDup (k :: l.*1) → view !! k = Some b →
  remaining view l !! k = Some b.
Proof. intros [Hk _]%NoDup_cons Hb. by rewrite lookup_remaining, decide_False. Qed.

Lemma slots_remaining view l : NoDup l.*1 → (∀ k b, (k, b) ∈ l → view !! k = Some b) →
  slots view ≡ₚ (st_block_id <$> l.*2) ++ slots (remaining view l).
Proof.
  induction l as [|[k b] l IH]; intros Hnd Hheld; [by rewrite remaining_nil|].
  rewrite remaining_cons. csimpl in Hnd. csimpl.
  rewrite Permutation_middle, <- (slots_delete (remaining view l) k b).
  - apply IH; [by apply NoDup_cons in Hnd as [_ ?]|]. intros k' b' Hin. apply Hheld. set_solver.
  - apply remaining_lookup_head; [done|]. apply Hheld. set_solver.
Qed.

Lemma count_insert_new n view k b : view !! k = None →
  count_refs n (<[k := b]> view) = (if decide (st_ref_cnt b = n) then 1 else 0) + count_refs n view.
Proof. intros Hk. unfold count_refs. by rewrite map_sum_insert_new. Qed.

Lemma count_delete n view k b : view !! k = Some b →
  count_refs n (delete k view) = count_refs n view - (if decide (st_ref_cnt b = n) then 1 else 0).
Proof. intros Hk. unfold count_refs. by rewrite (map_sum_delete _ _ _ _ Hk). Qed.

Lemma count_update n view k b b' : view !! k = Some b →
  count_refs n (<[k := b']> view) =
    count_refs n view - (if decide (st_ref_cnt b = n) then 1 else 0)
      + (if decide (st_ref_cnt b' = n) then 1 else 0).
Proof. intros Hk. unfold count_refs. rewrite (map_sum_update _ _ _ _ _ Hk). lia. Qed.

Lemma count_nonneg n view : 0 ≤ count_refs n view.
Proof. apply map_sum_nonneg. intros. case_decide; lia. Qed.

Lemma count_remaining n view l : NoDup l.*1 → (∀ k b, (k, b) ∈ l → view !! k = Some b) →
  (∀ k b, (k, b) ∈ l → st_ref_cnt b = 0) →
  count_refs n (remaining view l) = count_refs n view - (if decide (n = 0) then len l else 0).
Proof.
  induction l as [|[k b] l IH]; intros Hnd Hheld Hidle.
  { rewrite remaining_nil. unfold len. simpl. case_decide; lia. }
  rewrite remaining_cons. csimpl in Hnd.
  rewrite (count_delete n (remaining view l) k b).
  - rewrite IH; [|by apply NoDup_cons in Hnd as [_ ?]|set_solver|set_solver].
    rewrite (Hidle k b) by set_solver. rewrite len_cons. repeat case_decide; lia.
  - apply remaining_lookup_head; [done|]. apply Hheld. set_solver.
Qed.

Lemma idle_insert view k b :
  idle (<[k := b]> view) =
    if decide (st_ref_cnt b = 0) then {[k]} ∪ idle view else idle view ∖ {[k]}.
Proof.
  apply set_eq. intros k'. rewrite elem_of_idle. setoid_rewrite lookup_insert.
  destruct (decide (st_ref_cnt b = 0)) as [Hr|Hr].
  - rewrite elem_of_union, elem_of_singleton, elem_of_idle.
    destruct (decide (k = k')) as [->|Hne]; naive_solver.
  - rewrite elem_of_difference, elem_of_singleton, elem_of_idle.
    destruct (decide (k = k')) as [->|Hne]; naive_solver.
Qed.

Lemma idle_delete view k : idle (delete k view) = idle view ∖ {[k]}.
Proof.
  apply set_eq. intros k'. rewrite elem_of_difference, elem_of_singleton, !elem_of_idle.
  setoid_rewrite lookup_delete. destruct (decide (k = k')); naive_solver.
Qed.

Lemma idle_busy view k b : view !! k = Some b → st_ref_cnt b ≠ 0 → idle view ∖ {[k]} = idle view.
Proof.
  intros Hk Hr. apply set_eq. intros k'.
  rewrite elem_of_difference, elem_of_singleton, elem_of_idle.
  split; [naive_solver|]. intros (b2 & Hb2 & Hr2). split; [by exists b2|]. intros ->. congruence.
Qed.

Lemma idle_remaining view l : idle (remaining view l) = idle view ∖ list_to_set l.*1.
Proof.
  apply set_eq. intros k'. rewrite elem_of_difference, elem_of_list_to_set, !elem_of_idle.
  setoid_rewrite lookup_remaining. destruct (decide (k' ∈ l.*1)); naive_solver.
Qed.

(** ** The invariant *)

Section invariant.
Context {P : Type} `{PolicyLaws P}.
Implicit Types (s : CPUOffloadingManager P) (loads keys : list OffloadKey) (k : OffloadKey).

(** The blocks the tier holds. *)
Definition held s : gmap OffloadKey BlockStatus := policy_view (om_policy s).

(** The tracker of accesses holds each key once and never outgrows its bound. *)
Definition tracker_ok s : Prop :=
  1 ≤ max_tracker_size s ∧
  match counts s with None => True | Some d => NoDup d.*1 ∧ len d ≤ max_tracker_size s end.

(** [loads]: the loads in flight, a key once for every load that reads it. *)
Record offload_ok s loads : Prop := {
  oo_policy : policy_ok (om_policy s) (idle (held s));
  oo_slots : free_list s ++ slots (held s) ≡ₚ range 0 (num_allocated_blocks s);
  oo_allocated : 0 ≤ num_allocated_blocks s ≤ om_num_blocks s;
  oo_evictable : num_evictable_cache_blocks s = count_refs 0 (held s);
  oo_pending : num_write_pending_blocks s = count_refs (-1) (held s);
  oo_refs k b : held s !! k = Some b →
    (st_ref_cnt b = -1 ∧ k ∉ loads) ∨ st_ref_cnt b = occ k loads;
  oo_loads k : k ∈ loads → is_Some (held s !! k);
  oo_inflight : len loads < 2 ^ 31;
  oo_tracker : tracker_ok s
}.

Lemma offload_ok_perm s loads loads' : loads ≡ₚ loads' → offload_ok s loads → offload_ok s loads'.
Proof.
  intros Hp [H1 H2 H3 H4 H5 H6 H7 H8 H9]. split; try done.
  - intros k b Hk. rewrite <- Hp. by apply H6.
  - intros k. rewrite <- Hp. apply H7.
  - unfold len in *. by rewrite <- Hp.
Qed.

(** What an operation that changes no slot leaves alone. *)
Definition same_pool s s' : Prop :=
  om_num_blocks s' = om_num_blocks s ∧ num_allocated_blocks s' = num_allocated_blocks s ∧
  free_list s' = free_list s ∧ counts s' = counts s ∧ max_tracker_size s' = max_tracker_size s ∧
  store_threshold s' = store_threshold s.

#[global] Instance same_pool_preorder : PreOrder same_pool.
Proof.
  split; [by repeat split|]. intros s1 s2 s3 (?&?&?&?&?&?) (?&?&?&?&?&?).
  repeat split; congruence.
Qed.

Lemma wp_on_policy {A} (m : M P A) Q s :
  wp m (λ a p, Q a (s <| om_policy := p |>)) (om_policy s) → wp (on_policy m) Q s.
Proof. unfold wp, on_policy. by destruct (m (om_policy s)) as [[a p]|e]. Qed.

Lemma get_held s loads k : offload_ok s loads → policy_get (om_policy s) k = held s !! k.
Proof. intros Hok. eapply law_get, Hok. Qed.

(** One block gets a new status in its slot. *)
Lemma offload_ok_update s s' loads loads' k b b' :
  offload_ok s loads → held s !! k = Some b → st_block_id b' = st_block_id b →
  same_pool s s' → held s' = <[k := b']> (held s) →
  policy_ok (om_policy s') (idle (held s')) →
  num_evictable_cache_blocks s' = num_evictable_cache_blocks s
    - (if decide (st_ref_cnt b = 0) then 1 else 0) + (if decide (st_ref_cnt b' = 0) then 1 else 0) →
  num_write_pending_blocks s' = num_write_pending_blocks s
    - (if decide (st_ref_cnt b = -1) then 1 else 0) + (if decide (st_ref_cnt b' = -1) then 1 else 0) →
  (st_ref_cnt b' = -1 ∧ k ∉ loads') ∨ st_ref_cnt b' = occ k loads' →
  (∀ k', k' ≠ k → occ k' loads' = occ k' loads) → len loads' < 2 ^ 31 →
  offload_ok s' loads'.
Proof.
  intros [H1 H2 H3 H4 H5 H6 H7 _ [Ht H8]] Hk Hid (E1 & E2 & E3 & E4 & E5 & E6) Hh Hp He Hw Hr Hl Hlen.
  assert (∀ k', k' ≠ k → k' ∈ loads' ↔ k' ∈ loads) as Hmem.
  { intros k' Hne. by rewrite !occ_pos, Hl. }
  split.
  - done.
  - rewrite E2, E3, Hh, (slots_update _ _ _ _ Hk Hid). done.
  - by rewrite E1, E2.
  - rewrite He, Hh, (count_update _ _ _ _ _ Hk), H4. done.
  - rewrite Hw, Hh, (count_update _ _ _ _ _ Hk), H5. done.
  - intros k' b2. rewrite Hh, lookup_insert. intros Hb2.
    destruct (decide (k = k')) as [<-|Hkk]; [by simplify_eq|]. rewrite Hl, Hmem by congruence. by apply H6.
  - intros k' Hk'. rewrite Hh, lookup_insert. destruct (decide (k = k')) as [<-|Hkk]; [by eexists|]. apply H7, Hmem; [congruence|done].
  - done.
  - unfold tracker_ok. by rewrite E4, E5.
Qed.

Lemma occ_le_len k loads : occ k loads ≤ len loads.
Proof. unfold occ, len. apply inj_le, length_filter. Qed.

Lemma c_int32_id z : - 2 ^ 31 ≤ z < 2 ^ 31 → c_int32 z = z.
Proof. intros Hz. unfold c_int32. rewrite Z.mod_small; lia. Qed.

(** ** Loads *)

Lemma load_one_spec s loads acc k b : offload_ok s loads → held s !! k = Some b →
  0 ≤ st_ref_cnt b → len (k :: loads) < 2 ^ 31 →
  wp (load_one acc k)
    (λ r s', r = acc ++ [b <| st_ref_cnt := st_ref_cnt b + 1 |>] ∧ offload_ok s' (k :: loads) ∧
       held s' = <[k := b <| st_ref_cnt := st_ref_cnt b + 1 |>]> (held s) ∧ same_pool s s') s.
Proof.
  intros Hok Hk Hr Hlen. pose proof (occ_le_len k loads) as Hocc. rewrite len_cons in Hlen.
  unfold load_one. wp_steps. rewrite (get_held s loads), Hk by done.
  pose proof (oo_refs s loads Hok k b Hk) as Hrefs.
  assert (st_ref_cnt b = occ k loads) as Href by lia. clear Hrefs.
  wp_steps; [by apply bool_decide_eq_true_2|].
  rewrite (c_int32_id (st_ref_cnt b + 1)) by lia. set (b' := b <| st_ref_cnt := st_ref_cnt b + 1 |>).
  assert (idle (<[k := b']> (held s)) = idle (held s) ∖ {[k]}) as Hidle.
  { rewrite idle_insert, decide_False; [done|]. unfold b'. simpl. lia. }
  assert (∀ s', same_pool s s' → held s' = <[k := b']> (held s) →
    policy_ok (om_policy s') (idle (held s) ∖ {[k]}) →
    num_evictable_cache_blocks s' = num_evictable_cache_blocks s -
      (if decide (st_ref_cnt b = 0) then 1 else 0) →
    num_write_pending_blocks s' = num_write_pending_blocks s →
    acc ++ [b'] = acc ++ [b'] ∧ offload_ok s' (k :: loads) ∧
    held s' = <[k := b']> (held s) ∧ same_pool s s') as Hdone.
  { intros s' Hs Hh Hp He Hw. split; [done|]. split; [|done].
    apply (offload_ok_update s s' loads (k :: loads) k b b'); try done.
    - by rewrite Hh, Hidle.
    - rewrite He. unfold b'. simpl. case_decide; case_decide; lia.
    - rewrite Hw. unfold b'. simpl. repeat case_decide; lia.
    - right. unfold b'. simpl. rewrite occ_cons, decide_True by done. lia.
    - intros k' Hne. rewrite occ_cons, decide_False by done. lia.
    - by rewrite len_cons. }
  case_decide as Hz.
  - wp_steps. apply wp_on_policy. eapply wp_mono.
    { apply (law_unmark _ (idle (held s))); [apply Hok|]. apply elem_of_idle. eauto. }
    intros _ p1 [Hp1 Hv1]. wp_steps.
    { apply bool_decide_eq_true_2. simpl. rewrite (oo_evictable s loads Hok).
      pose proof (count_delete 0 (held s) k b Hk) as Hc. rewrite decide_True in Hc by done.
      pose proof (count_nonneg 0 (delete k (held s))). lia. }
    unfold write_status. wp_steps.
    destruct (law_status p1 (idle (held s) ∖ {[k]}) k b b') as [Hp2 Hv2]; [done|by rewrite Hv1|].
    apply Hdone; [by repeat split| |done|done|done]. unfold held at 1. simpl. by rewrite Hv2, Hv1.
  - wp_steps. unfold write_status. wp_steps.
    destruct (law_status (om_policy s) (idle (held s)) k b b') as [Hp2 Hv2]; [apply Hok|done|].
    apply Hdone; [by repeat split|done| |simpl; lia|done].
    by rewrite (idle_busy (held s) k b).
Qed.

(** The slot of a key. *)
Definition slot_of s k : option Z := st_block_id <$> held s !! k.

Lemma slot_of_insert s s' k b b' : held s !! k = Some b → st_block_id b' = st_block_id b →
  held s' = <[k := b']> (held s) → ∀ k', slot_of s' k' = slot_of s k'.
Proof.
  intros Hk Hid Hh k'. unfold slot_of. rewrite Hh, lookup_insert.
  case_decide; [subst|done]. rewrite Hk. simpl. by rewrite Hid.
Qed.

(** The key can be read. *)
Definition readable s k : Prop := lookup_offload s k = HIT.

Lemma readable_held s loads k : offload_ok s loads →
  readable s k ↔ ∃ b, held s !! k = Some b ∧ 0 ≤ st_ref_cnt b.
Proof.
  intros Hok. unfold readable, lookup_offload. rewrite (get_held s loads) by done.
  unfold is_ready. destruct (held s !! k) as [b|]; [|naive_solver].
  case_bool_decide; simpl; naive_solver.
Qed.

Lemma prepare_load_spec s loads keys : offload_ok s loads →
  (∀ k, k ∈ keys → readable s k) → len keys + len loads < 2 ^ 31 →
  wp (prepare_load keys)
    (λ r s', Some <$> r = slot_of s <$> keys ∧ offload_ok s' (keys ++ loads) ∧
       (∀ k, slot_of s' k = slot_of s k) ∧ dom (held s') = dom (held s) ∧ same_pool s s') s.
Proof.
  intros Hok Hread Hlen. unfold prepare_load. wp_steps.
  eapply wp_mono; [apply (wp_for_acc (λ pre acc s',
    Some <$> (st_block_id <$> acc) = slot_of s <$> pre ∧ offload_ok s' (pre ++ loads) ∧
    (∀ k, slot_of s' k = slot_of s k) ∧ dom (held s') = dom (held s) ∧ same_pool s s' ∧
    ∀ k, readable s k → readable s' k))|].
  - split_and!; try done.
  - intros pre k post acc s1 -> (Hacc & Hok1 & Hslot & Hdom & Hsame & Hmono).
    assert (readable s1 k) as Hk by (apply Hmono, Hread; set_solver).
    pose proof Hk as (b & Hb & Hr)%(readable_held _ _ _ Hok1).
    eapply wp_mono; [apply (load_one_spec s1 (pre ++ loads) acc k b); try done|].
    { rewrite !len_app, !len_cons in *. rewrite len_app. pose proof (len_nonneg post). lia. }
    intros r s2 (-> & Hok2 & Hh & Hsame2). split_and!.
    + rewrite !fmap_app, Hacc. simpl. f_equal. rewrite <- Hslot. unfold slot_of. by rewrite Hb.
    + eapply offload_ok_perm; [|exact Hok2]. rewrite <- app_assoc. simpl.
      by rewrite <- Permutation_middle.
    + intros k'. rewrite <- Hslot. by eapply (slot_of_insert s1 s2 k b _ Hb); [|exact Hh].
    + rewrite Hh, dom_insert_lookup_L; [done|by eexists].
    + by etrans.
    + intros k' Hk'%Hmono. apply (readable_held _ _ _ Hok1) in Hk' as (b2 & Hb2 & Hr2).
      apply (readable_held _ _ _ Hok2). rewrite Hh, lookup_insert. case_decide; [|by eauto].
      eexists. split; [done|]. simpl. lia.
  - intros acc s1 (Hacc & Hok1 & Hslot & Hdom & Hsame & _). wp_steps. by split_and!.
Qed.

Lemma complete_load_one_spec s loads k : offload_ok s (k :: loads) →
  wp (complete_load_one k)
    (λ _ s', offload_ok s' loads ∧ (∀ k', slot_of s' k' = slot_of s k') ∧
       dom (held s') = dom (held s) ∧ same_pool s s') s.
Proof.
  intros Hok. destruct (oo_loads s _ Hok k) as [b Hb]; [set_solver|].
  assert (st_ref_cnt b = occ k loads + 1) as Hr.
  { destruct (oo_refs s _ Hok k b Hb) as [[_ Hn]|Hr]; [set_solver|].
    by rewrite occ_cons, decide_True in Hr. }
  pose proof (occ_nonneg k loads). unfold complete_load_one. wp_steps.
  rewrite (get_held s (k :: loads)), Hb by done.
  wp_steps; [apply bool_decide_eq_true_2; lia|].
  pose proof (oo_inflight s _ Hok) as Hlen. rewrite len_cons in Hlen.
  pose proof (occ_le_len k loads). rewrite (c_int32_id (st_ref_cnt b - 1)) by lia.
  set (b' := b <| st_ref_cnt := st_ref_cnt b - 1 |>). unfold write_status. wp_steps.
  destruct (law_status (om_policy s) (idle (held s)) k b b') as [Hp1 Hv1]; [apply Hok|done|].
  assert (∀ s', same_pool s s' → held s' = <[k := b']> (held s) →
    policy_ok (om_policy s') (idle (<[k := b']> (held s))) →
    num_evictable_cache_blocks s' = num_evictable_cache_blocks s +
      (if decide (st_ref_cnt b' = 0) then 1 else 0) →
    num_write_pending_blocks s' = num_write_pending_blocks s →
    offload_ok s' loads ∧ (∀ k', slot_of s' k' = slot_of s k') ∧
    dom (held s') = dom (held s) ∧ same_pool s s') as Hdone.
  { intros s' Hs Hh Hp He Hw. split_and!; [|by eapply (slot_of_insert s s' k b b')| |done].
    - apply (offload_ok_update s s' (k :: loads) loads k b b'); try done.
      + by rewrite Hh.
      + rewrite He. rewrite (decide_False (P := st_ref_cnt b = 0)) by lia. lia.
      + rewrite Hw. unfold b'. simpl. rewrite !decide_False by lia. lia.
      + right. unfold b'. simpl. lia.
      + intros k' Hne. rewrite occ_cons, decide_False by done. lia.
      + lia.
    - rewrite Hh, dom_insert_lookup_L; [done|by eexists]. }
  case_decide as Hz.
  - wp_steps. apply wp_on_policy.
    eapply wp_mono; [apply (law_mark _ (idle (held s)) k b'); [done|simpl; by rewrite Hv1, lookup_insert_eq]|].
    intros _ p2 [Hp2 Hv2]. apply Hdone; [by repeat split| | |done|done].
    + unfold held at 1. simpl. by rewrite Hv2.
    + simpl. by rewrite idle_insert, decide_True.
  - wp_steps. apply Hdone; [by repeat split|done| |simpl; lia|done].
    simpl. rewrite idle_insert, decide_False by done.
    rewrite (idle_busy (held s) k b) by (done || lia). done.
Qed.

Lemma complete_load_spec s loads keys : offload_ok s (keys ++ loads) →
  wp (complete_load keys)
    (λ _ s', offload_ok s' loads ∧ (∀ k, slot_of s' k = slot_of s k) ∧
       dom (held s') = dom (held s) ∧ same_pool s s') s.
Proof.
  revert s. induction keys as [|k keys IH]; intros s Hok; unfold complete_load; simpl.
  { by wp_steps. }
  wp_steps. eapply wp_mono; [by apply (complete_load_one_spec s (keys ++ loads))|].
  intros _ s1 (Hok1 & Hslot & Hdom & Hsame). eapply wp_mono; [by apply IH|].
  intros _ s2 (Hok2 & Hslot2 & Hdom2 & Hsame2).
  split_and!; [done|by intros k'; rewrite Hslot2, Hslot|congruence|by etrans].
Qed.

Lemma touch_offload_spec s loads keys : offload_ok s loads →
  wp (touch_offload keys)
    (λ _ s', offload_ok s' loads ∧ held s' = held s ∧ same_pool s s') s.
Proof.
  intros [H1 H2 H3 H4 H5 H6 H7 H8 H9]. unfold touch_offload. apply wp_on_policy.
  eapply wp_mono; [by eapply law_touch|]. intros _ p [Hp Hv].
  assert (held (s <| om_policy := p |>) = held s) as Hh by done.
  split; [|by repeat split]. split; rewrite ?Hh; done.
Qed.

(** ** Slots *)

Lemma fresh_blocks_spec s n : 0 ≤ n →
  wp (map_m (λ _, fresh_block) (range 0 n))
    (λ r s', r = new_BlockStatus <$> range (num_allocated_blocks s) (num_allocated_blocks s + n) ∧
       s' = s <| num_allocated_blocks := num_allocated_blocks s + n |>) s.
Proof.
  intros Hn. eapply wp_mono; [apply (wp_map_m (λ pre ys s',
    ys = new_BlockStatus <$> range (num_allocated_blocks s) (num_allocated_blocks s + len pre) ∧
    s' = s <| num_allocated_blocks := num_allocated_blocks s + len pre |>))|].
  - rewrite range_nil by (unfold len; simpl; lia). split; [done|]. destruct s; simpl.
    by rewrite Z.add_0_r.
  - intros pre x post ys s1 _ [-> ->]. unfold fresh_block. wp_steps. simpl.
    rewrite len_app, len_cons, len_nil, Z.add_0_l, Z.add_assoc. split; [|done].
    assert (0 ≤ len pre) by apply len_nonneg. unfold range.
    replace (Z.to_nat (num_allocated_blocks s + len pre + 1 - num_allocated_blocks s))
      with (S (Z.to_nat (num_allocated_blocks s + len pre - num_allocated_blocks s))) by lia.
    rewrite seq_S, !fmap_app. simpl. do 3 f_equal. lia.
  - intros ys s1 [-> ->]. replace (len (range 0 n)) with n; [done|].
    unfold len, range. rewrite length_fmap, length_seq. lia.
Qed.

Lemma reused_blocks_spec s n : 0 ≤ n ≤ len (free_list s) →
  wp (map_m (λ _, reused_block) (range 0 n))
    (λ r s', ∃ ids rest, r = new_BlockStatus <$> ids ∧ len ids = n ∧
       free_list s = rest ++ reverse ids ∧ s' = s <| free_list := rest |>) s.
Proof.
  intros Hn. assert (len (range 0 n) = n) as Hlen.
  { unfold len, range. rewrite length_fmap, length_seq. lia. }
  eapply wp_mono; [apply (wp_map_m (λ pre ys s', ∃ ids rest, ys = new_BlockStatus <$> ids ∧
    len ids = len pre ∧ free_list s = rest ++ reverse ids ∧ s' = s <| free_list := rest |>))|].
  - exists [], (free_list s). rewrite app_nil_r. split_and!; try done. by destruct s.
  - intros pre x post ys s1 Hpre (ids & rest & -> & Hl & Hf & ->). unfold reused_block. wp_steps.
    simpl. assert (0 < len rest).
    { apply (f_equal len) in Hf. rewrite len_app in Hf. unfold len at 3 in Hf.
      rewrite length_reverse in Hf. apply (f_equal len) in Hpre.
      rewrite len_app, len_cons in Hpre. pose proof (len_nonneg post). unfold len in *. lia. }
    destruct rest as [|z rest _] using rev_ind; [unfold len in *; simpl in *; lia|].
    eapply wp_lift; [apply index_last|]. wp_steps. exists (ids ++ [z]), rest. split_and!.
    + by rewrite fmap_app.
    + rewrite !len_app, Hl. done.
    + rewrite Hf, reverse_snoc, <- app_assoc. done.
    + simpl. by rewrite (slice_to_suffix rest [z] ltac:(done) : slice_to (rest ++ [z]) (-1) = rest).
  - intros ys s1 (ids & rest & -> & Hl & Hf & ->). exists ids, rest. rewrite Hlen in Hl. done.
Qed.

(** An allocation hands out distinct slots, fresh ones and then free ones. *)
Lemma allocate_blocks_spec s keys :
  0 ≤ num_allocated_blocks s ≤ om_num_blocks s → len keys ≤ _get_num_free_blocks s →
  wp (_allocate_blocks keys)
    (λ blocks s', ∃ ids rest n, blocks = new_BlockStatus <$> ids ∧ len ids = len keys ∧
       num_allocated_blocks s ≤ n ≤ om_num_blocks s ∧
       rest ++ ids ≡ₚ free_list s ++ range (num_allocated_blocks s) n ∧
       s' = s <| num_allocated_blocks := n |> <| free_list := rest |>) s.
Proof.
  intros Ha Hf. unfold _get_num_free_blocks in Hf. pose proof (len_nonneg keys).
  pose proof (len_nonneg (free_list s)).
  unfold _allocate_blocks. wp_steps; unfold id; [apply bool_decide_eq_true_2; lia|].
  set (nf := Z.min (len keys) (om_num_blocks s - num_allocated_blocks s)).
  eapply wp_mono; [apply fresh_blocks_spec; lia|]. intros fresh s1 [-> ->]. wp_steps.
  eapply wp_mono; [apply reused_blocks_spec; simpl; lia|].
  intros reused s2 (ids & rest & -> & Hl & Hr & ->). wp_steps. simpl in Hr.
  exists (range (num_allocated_blocks s) (num_allocated_blocks s + nf) ++ ids), rest,
    (num_allocated_blocks s + nf). split_and!; [by rewrite fmap_app| |lia|lia| |done].
  - rewrite len_app, Hl. unfold len at 1, range. rewrite length_fmap, length_seq. lia.
  - rewrite Hr, reverse_Permutation. rewrite <- app_assoc. apply Permutation_app; [done|].
    apply Permutation_app_comm.
Qed.
End invariant.
