(* ===== verification/OffloadStores.v ===== *)
(** * Stores of the CPU tier

    What [prepare_store] and [complete_store] of
    src/vllm/v1/kv_offload/cpu/manager.py do to the invariant: the admission
    filter, the evictions that make room, the slots handed out, and the end of a
    store; then the tier as a transition system over all calls of its interface. *)

From S2P Require Import Prelude FreeQueue Hashing Floats Offload OffloadPolicies OffloadArc OffloadManager.

Section stores.
Context {P : Type} `{PolicyLaws P}.
Implicit Types (s : CPUOffloadingManager P) (loads keys : list OffloadKey) (k : OffloadKey).

(** An operation that touches neither blocks nor slots keeps the invariant. *)
Lemma offload_ok_ext s s' loads : offload_ok s loads → om_policy s' = om_policy s →
  om_num_blocks s' = om_num_blocks s → num_allocated_blocks s' = num_allocated_blocks s →
  free_list s' = free_list s → num_evictable_cache_blocks s' = num_evictable_cache_blocks s →
  num_write_pending_blocks s' = num_write_pending_blocks s → tracker_ok s' → offload_ok s' loads.
Proof.
  intros [H1 H2 H3 H4 H5 H6 H7 H8 H9] Ep En Ea Ef Ee Ew Ht.
  assert (held s' = held s) as Eh by (unfold held; by rewrite Ep).
  split; rewrite ?Eh, ?Ep, ?En, ?Ea, ?Ef, ?Ee, ?Ew; done.
Qed.

(** ** Admission *)

Lemma dict_set_len {V} (d : list (OffloadKey * V)) k v :
  len (dict_set d k v) = if decide (k ∈ d.*1) then len d else len d + 1.
Proof.
  case_decide as Hk.
  - unfold len. rewrite <- !(length_fmap fst). rewrite dict_set_keys_Some; [done|].
    by apply dict_get_is_Some.
  - rewrite dict_set_keys_None by by apply dict_get_None. rewrite len_app. done.
Qed.

(** An access leaves the tracker within its bound and changes nothing else. *)
Lemma record_access_spec s d k : counts s = Some d → tracker_ok s →
  wp (_record_access k) (λ _ s', ∃ d', s' = s <| counts := Some d' |> ∧ tracker_ok s') s.
Proof.
  intros Hc [Hm Ht]. rewrite Hc in Ht. destruct Ht as [Hnd Hlen].
  unfold _record_access. wp_steps. unfold id. rewrite Hc.
  destruct (dict_get d k) as [n|] eqn:Hk.
  - wp_steps. eexists. split; [done|]. split; [done|]. simpl. split.
    + apply dict_set_NoDup. by rewrite dict_move_keys.
    + rewrite dict_set_len, decide_True.
      * unfold len in *. by rewrite dict_move_length.
      * rewrite dict_move_keys. apply dict_get_is_Some. by rewrite Hk.
  - assert (∃ d', (if decide (max_tracker_size s ≤ len d) then popitem_first d else Ok d) = Ok d' ∧
      d' `sublist_of` d ∧ len d' < max_tracker_size s) as (d' & Hd' & Hsub & Hlt).
    { case_decide; [|exists d; split_and!; [done|done|lia]].
      destruct d as [|e d]; [unfold len in *; simpl in *; lia|]. exists d. simpl.
      split_and!; [done|by apply sublist_cons|]. rewrite len_cons in Hlen. lia. }
    wp_steps. eapply wp_lift; [done|]. wp_steps. eexists. split; [done|]. split; [done|]. simpl.
    split.
    + apply dict_set_NoDup. eapply sublist_NoDup; [exact Hnd|by apply fmap_sublist].
    + rewrite dict_set_len. destruct (decide (k ∈ d'.*1)); lia.
Qed.

(** The keys seen often enough, by the tracker after this call. *)
Definition admitted s' keys : list OffloadKey :=
  match counts s' with
  | None => keys
  | Some d => filter (λ k, store_threshold s' ≤ default 0 (dict_get d k)) keys
  end.

Lemma admitted_keys_spec s keys : tracker_ok s →
  wp (admitted_keys keys)
    (λ r s', r = admitted s' keys ∧ tracker_ok s' ∧
       ∃ d n, s' = s <| counts := d |> <| stores_skipped_in_current_batch := n |>) s.
Proof.
  intros Ht. unfold admitted_keys. wp_steps. destruct (counts s) as [d|] eqn:Hc.
  - wp_steps. eapply wp_mono; [apply (wp_for (λ _ s', ∃ d', s' = s <| counts := Some d' |> ∧ tracker_ok s'))|].
    + exists d. split; [|done]. rewrite <- Hc. by destruct s.
    + intros pre k post s1 _ (d1 & -> & Ht1).
      eapply wp_mono; [by apply (record_access_spec _ d1)|]. intros _ s2 (d2 & -> & Ht2). eauto.
    + intros _ s1 (d1 & -> & Ht1). wp_steps. unfold id. simpl.
      split; [done|]. split; [exact Ht1|]. eauto.
  - wp_steps. unfold admitted. rewrite Hc. split; [done|]. split; [done|].
    exists None, (stores_skipped_in_current_batch s). rewrite <- Hc. by destruct s.
Qed.

Lemma admitted_ext s s' keys : counts s' = counts s → store_threshold s' = store_threshold s →
  admitted s' keys = admitted s keys.
Proof. intros Hc Ht. unfold admitted. by rewrite Hc, Ht. Qed.

Lemma admitted_sublist s' keys : admitted s' keys `sublist_of` keys.
Proof. unfold admitted. destruct (counts s'); [apply sublist_filter|done]. Qed.

(** ** Making room *)

Lemma free_slots_spec s bs :
  wp (for_ bs _free_block) (λ _ s', s' = s <| free_list := free_list s ++ (st_block_id <$> bs) |>) s.
Proof.
  apply (wp_for (λ pre s', s' = s <| free_list := free_list s ++ (st_block_id <$> pre) |>)).
  - rewrite app_nil_r. by destruct s.
  - intros pre b post s1 _ ->. unfold _free_block. wp_steps. simpl.
    by rewrite fmap_app, app_assoc.
Qed.

Record room_ok s loads (n : Z) keys (l : list (OffloadKey * BlockStatus)) s' : Prop := {
  ro_evicted : evicted_ok (held s) (Z.max 0 n) (list_to_set keys) l;
  ro_ok : offload_ok s' loads;
  ro_held : held s' = remaining (held s) l;
  ro_free : free_list s' = free_list s ++ (st_block_id <$> l.*2);
  ro_pool : om_num_blocks s' = om_num_blocks s ∧ num_allocated_blocks s' = num_allocated_blocks s;
  ro_tracker : counts s' = counts s ∧ store_threshold s' = store_threshold s
}.

Lemma evicted_unloaded s loads n X l k : offload_ok s loads → evicted_ok (held s) n X l →
  k ∈ l.*1 → k ∉ loads.
Proof.
  intros Hok [_ _ Hheld Hidle] ([k' b] & -> & Hin)%list_elem_of_fmap Hk.
  destruct (oo_refs s loads Hok k' b (Hheld _ _ Hin)) as [[_ ?]|Hr]; [done|].
  apply Hidle in Hin as [Hz _]. apply occ_pos in Hk. simpl in Hk. lia.
Qed.

(** Evicted blocks give back their slots. *)
Lemma evicted_offload_ok s s' loads X l : offload_ok s loads →
  evicted_ok (held s) (len l) X l → held s' = remaining (held s) l →
  policy_ok (om_policy s') (idle (remaining (held s) l)) →
  free_list s' = free_list s ++ (st_block_id <$> l.*2) →
  om_num_blocks s' = om_num_blocks s → num_allocated_blocks s' = num_allocated_blocks s →
  num_evictable_cache_blocks s' = num_evictable_cache_blocks s - len l →
  num_write_pending_blocks s' = num_write_pending_blocks s → tracker_ok s' →
  offload_ok s' loads.
Proof.
  intros Hok Hev Hh Hp Hf Hn Ha He Hw Ht. pose proof Hev as [Hl Hnd Hheld Hidle].
  destruct Hok as [H1 H2 H3 H4 H5 H6 H7 H8 H9] eqn:HokE. clear HokE.
  assert (offload_ok s loads) as Hok' by by split.
  assert (∀ k b, (k, b) ∈ l → st_ref_cnt b = 0) as Hzero by naive_solver.
  split; rewrite ?Hh, ?Hn, ?Ha; try done.
  - rewrite Hf, <- app_assoc, <- slots_remaining by done. done.
  - rewrite He, count_remaining, decide_True by done. by rewrite H4.
  - rewrite Hw, count_remaining, decide_False by done. rewrite H5. lia.
  - intros k b. rewrite lookup_remaining. case_decide; [done|]. apply H6.
  - intros k Hk. rewrite lookup_remaining, decide_False; [by apply H7|].
    intros Hin. by eapply (evicted_unloaded s loads).
Qed.

Lemma make_room_spec s loads n keys : offload_ok s loads →
  wp (make_room n keys)
    (λ r s', match r with
             | None => s' = s ∧ 0 < n
             | Some ev => ∃ l, ev = l.*1 ∧ room_ok s loads n keys l s'
             end) s.
Proof.
  intros Hok. unfold make_room. case_decide as Hn.
  2: { wp_steps. exists []. split; [done|]. split; try done.
       - split; [unfold len; simpl; lia|apply NoDup_nil_2|by intros ?? []%elem_of_nil..].
       - by rewrite remaining_nil.
       - by rewrite app_nil_r. }
  wp_steps. case_decide as Hlt; [by wp_steps|]. wp_steps. apply wp_on_policy.
  eapply wp_mono; [apply law_evict; [apply Hok|lia]|]. intros [l|] p; simpl.
  2: { intros ->. wp_steps. split; [|done]. by destruct s. }
  intros (Hev & Hp & Hv). pose proof Hev as [Hl Hnd Hheld Hidle].
  assert (count_refs 0 (remaining (held s) l) = num_evictable_cache_blocks s - len l) as Hcount.
  { rewrite count_remaining, decide_True by naive_solver. by rewrite (oo_evictable s loads Hok). }
  wp_steps.
  { apply bool_decide_eq_true_2. simpl. rewrite <- Hcount. apply count_nonneg. }
  eapply wp_mono; [apply free_slots_spec|]. intros _ s1 ->. wp_steps. exists l. split; [done|].
  split; simpl; try done.
  - by rewrite Z.max_r by lia.
  - apply (evicted_offload_ok s _ loads (list_to_set keys) l); try done.
    + simpl. by rewrite idle_remaining.
    + exact (oo_tracker s loads Hok).
Qed.

(** ** Inserting the new blocks *)

Lemma insert_all_spec s E entries : policy_ok (om_policy s) E → NoDup entries.*1 →
  (∀ k b, (k, b) ∈ entries → held s !! k = None ∧ st_ref_cnt b = -1) →
  wp (for_ entries (λ '(key, block), on_policy (policy_insert key block)))
    (λ _ s', ∃ p, s' = s <| om_policy := p |> ∧ policy_ok p E ∧
       policy_view p = list_to_map entries ∪ held s) s.
Proof.
  intros Hp Hnd Hnew.
  apply (wp_for (λ pre s', ∃ p, s' = s <| om_policy := p |> ∧ policy_ok p E ∧
    policy_view p = list_to_map pre ∪ held s)).
  { exists (om_policy s). split; [by destruct s|]. split; [done|]. simpl.
    by rewrite (left_id_L ∅ (∪)). }
  intros pre [k b] post s1 -> (p1 & -> & Hp1 & Hv1). rewrite fmap_app in Hnd. simpl in Hnd.
  destruct (Hnew k b) as [Hk Hr]; [set_solver|].
  assert (k ∉ pre.*1) as Hpre.
  { apply NoDup_app in Hnd as (_ & Hd & _). intros Hin. apply (Hd k Hin). set_solver. }
  assert ((list_to_map pre : gmap OffloadKey BlockStatus) !! k = None) as Hnone.
  { by apply not_elem_of_list_to_map_1. }
  apply wp_on_policy. eapply wp_mono; [apply (law_insert _ E); [done| |lia]|].
  { simpl. rewrite Hv1. by apply lookup_union_None. }
  intros _ p2 [Hp2 Hv2]. simpl in Hv2. exists p2. split; [done|]. split; [done|].
  rewrite Hv2, Hv1, insert_union_l. f_equal. apply map_eq. intros k'.
  rewrite lookup_insert, !list_to_map_dict, dict_get_app. simpl.
  case_decide; subst; [|rewrite decide_False by done; by destruct (dict_get pre k')].
  rewrite decide_True by done. apply dict_get_None in Hpre. by rewrite Hpre.
Qed.

(** The new blocks beside the ones already held. *)
Section added.
Context (view : gmap OffloadKey BlockStatus).

Definition fresh_entries (entries : list (OffloadKey * BlockStatus)) : Prop :=
  NoDup entries.*1 ∧ ∀ k b, (k, b) ∈ entries → view !! k = None ∧ st_ref_cnt b = -1.

Lemma fresh_entries_cons k b entries : fresh_entries ((k, b) :: entries) →
  fresh_entries entries ∧ (list_to_map entries ∪ view) !! k = None ∧ st_ref_cnt b = -1.
Proof.
  intros [[Hk Hnd]%NoDup_cons Hnew]. destruct (Hnew k b) as [Hv Hr]; [set_solver|].
  split; [split; [done|set_solver]|]. split; [|done]. apply lookup_union_None.
  split; [by apply not_elem_of_list_to_map_1|done].
Qed.

Lemma slots_added entries : fresh_entries entries →
  slots (list_to_map entries ∪ view) ≡ₚ (st_block_id <$> entries.*2) ++ slots view.
Proof.
  induction entries as [|[k b] entries IH]; intros Hf; simpl.
  { by rewrite (left_id_L ∅ (∪)). }
  destruct (fresh_entries_cons _ _ _ Hf) as (Hf' & Hk & _).
  rewrite <- insert_union_l, slots_insert_new by done. by rewrite IH.
Qed.

Lemma count_added n entries : fresh_entries entries →
  count_refs n (list_to_map entries ∪ view) =
    (if decide (n = -1) then len entries else 0) + count_refs n view.
Proof.
  induction entries as [|[k b] entries IH]; intros Hf; simpl.
  { rewrite (left_id_L ∅ (∪)). unfold len. simpl. case_decide; lia. }
  destruct (fresh_entries_cons _ _ _ Hf) as (Hf' & Hk & Hr).
  rewrite <- insert_union_l, count_insert_new, Hr, IH, len_cons by done.
  repeat case_decide; lia.
Qed.

Lemma idle_added entries : fresh_entries entries → idle (list_to_map entries ∪ view) = idle view.
Proof.
  induction entries as [|[k b] entries IH]; intros Hf; simpl.
  { by rewrite (left_id_L ∅ (∪)). }
  destruct (fresh_entries_cons _ _ _ Hf) as (Hf' & Hk & Hr).
  rewrite <- insert_union_l, idle_insert, decide_False, IH by (done || lia).
  apply set_eq. intros k'. rewrite elem_of_difference, elem_of_singleton, elem_of_idle.
  split; [naive_solver|]. intros (b' & Hb' & Hz). split; [by exists b'|]. intros ->.
  apply lookup_union_None in Hk as [_ Hk]. congruence.
Qed.

End added.

Lemma range_app a b c : a ≤ b ≤ c → range a b ++ range b c = range a c.
Proof.
  intros Habc. unfold range. replace (Z.to_nat (c - a)) with (Z.to_nat (b - a) + Z.to_nat (c - b))%nat by lia.
  rewrite seq_app, fmap_app. f_equal.
  apply list_eq. intros i. rewrite !list_lookup_fmap.
  destruct (decide (i < Z.to_nat (c - b))%nat).
  - rewrite !lookup_seq_lt by done. simpl. f_equal. lia.
  - rewrite !lookup_seq_ge by lia. done.
Qed.

(** What a successful [prepare_store] gives. *)
Record store_ok s loads keys (out : PrepareStoreOutput) s' : Prop := {
  st_keys : keys_to_store out = filter (λ k, held s !! k = None) (admitted s' keys);
  st_slots : NoDup (store_spec out) ∧ len (store_spec out) = len (keys_to_store out);
  st_range : ∀ z, z ∈ store_spec out → 0 ≤ z < om_num_blocks s;
  st_evicted : len (evicted_keys out) =
    Z.max 0 (len (keys_to_store out) - _get_num_free_blocks s) ∨ keys_to_store out = [];
  st_victims : ∀ k, k ∈ evicted_keys out →
    (∃ b, held s !! k = Some b ∧ st_ref_cnt b = 0) ∧ k ∉ admitted s' keys;
  st_held : held s' =
    list_to_map (zip (keys_to_store out) (new_BlockStatus <$> store_spec out)) ∪
    filter (λ kb, kb.1 ∉ evicted_keys out) (held s);
  st_disjoint : ∀ k b, k ∉ keys_to_store out → held s' !! k = Some b →
    st_block_id b ∉ store_spec out
}.

(** New blocks in slots nobody holds keep the invariant. *)
Lemma added_offload_ok s s' loads entries : offload_ok s loads → fresh_entries (held s) entries →
  held s' = list_to_map entries ∪ held s → policy_ok (om_policy s') (idle (held s)) →
  free_list s' ++ (st_block_id <$> entries.*2) ++ slots (held s) ≡ₚ range 0 (num_allocated_blocks s') →
  0 ≤ num_allocated_blocks s' ≤ om_num_blocks s' →
  num_evictable_cache_blocks s' = num_evictable_cache_blocks s →
  num_write_pending_blocks s' = num_write_pending_blocks s + len entries → tracker_ok s' →
  offload_ok s' loads.
Proof.
  intros [H1 H2 H3 H4 H5 H6 H7 H8 H9] Hf Hh Hp Hs Ha He Hw Ht. split; rewrite ?Hh; try done.
  - by rewrite idle_added.
  - by rewrite slots_added.
  - by rewrite count_added, decide_False, He, H4 by done.
  - rewrite count_added, decide_True, Hw, H5 by done. lia.
  - intros k b. rewrite lookup_union, list_to_map_dict. destruct (dict_get entries k) as [b'|] eqn:Hb.
    + apply dict_get_elem in Hb. destruct Hf as [_ Hf]. apply Hf in Hb as [Hk Hr].
      rewrite Hk. intros [= <-]. left. split; [done|]. intros Hin. destruct (H7 k Hin). congruence.
    + intros Hk. apply H6. by destruct (held s !! k).
  - intros k [b Hk]%H7. apply lookup_union_is_Some. right. by exists b.
Qed.

Lemma zip_fresh s keys ids : NoDup keys → (∀ k, k ∈ keys → held s !! k = None) →
  length keys = length ids →
  let entries := zip keys (new_BlockStatus <$> ids) in
  entries.*2 = new_BlockStatus <$> ids ∧ fresh_entries (held s) entries ∧ len entries = len keys.
Proof.
  intros Hnd Hnew Hlen entries.
  assert (length keys = length (new_BlockStatus <$> ids)) as Hlen' by by rewrite length_fmap.
  assert (entries.*1 = keys) as Hkeys by (apply fst_zip; lia).
  assert (entries.*2 = new_BlockStatus <$> ids) as Hblocks by (apply snd_zip; lia).
  split; [done|]. split.
  - split; [by rewrite Hkeys|]. intros k b Hin. split.
    + apply Hnew. rewrite <- Hkeys. apply list_elem_of_fmap. by exists (k, b).
    + assert (b ∈ entries.*2) as Hb by (apply list_elem_of_fmap; by exists (k, b)).
      rewrite Hblocks in Hb. apply list_elem_of_fmap in Hb as (z & -> & _). done.
  - unfold len. by rewrite <- (length_fmap fst entries), Hkeys.
Qed.

(** The slots handed out are distinct and held by no other block. *)
Lemma store_blocks_spec s loads keys evicted : offload_ok s loads → NoDup keys →
  (∀ k, k ∈ keys → held s !! k = None) → len keys ≤ _get_num_free_blocks s →
  wp (store_blocks keys evicted)
    (λ out s', offload_ok s' loads ∧ keys_to_store out = keys ∧ evicted_keys out = evicted ∧
       (NoDup (store_spec out) ∧ len (store_spec out) = len keys) ∧
       (∀ z, z ∈ store_spec out → (0 ≤ z < om_num_blocks s) ∧ z ∉ slots (held s)) ∧
       held s' = list_to_map (zip keys (new_BlockStatus <$> store_spec out)) ∪ held s ∧
       counts s' = counts s ∧ store_threshold s' = store_threshold s) s.
Proof.
  intros Hok Hnd Hnew Hfree. pose proof (oo_slots s loads Hok) as Hslots.
  pose proof (oo_allocated s loads Hok) as Halloc.
  unfold store_blocks. wp_steps. eapply wp_mono; [by apply allocate_blocks_spec|].
  intros blocks s1 (ids & rest & n & -> & Hl & Hn & Hperm & ->).
  assert (length keys = length ids) as Hlen by (unfold len in Hl; lia).
  wp_steps; [apply bool_decide_eq_true_2; unfold len in *; rewrite length_fmap; lia|].
  destruct (zip_fresh s keys ids Hnd Hnew Hlen) as (Hblocks & Hf & Hle).
  set (entries := zip keys (new_BlockStatus <$> ids)) in *.
  assert (st_block_id <$> (new_BlockStatus <$> ids) = ids) as Hid.
  { rewrite <- list_fmap_compose. apply list_fmap_id. }
  assert (rest ++ ids ++ slots (held s) ≡ₚ range 0 n) as Hall.
  { rewrite <- (range_app 0 (num_allocated_blocks s) n) by lia. rewrite <- Hslots, app_assoc, Hperm.
    rewrite <- !app_assoc. apply Permutation_app; [done|]. apply Permutation_app_comm. }
  assert (NoDup (rest ++ ids ++ slots (held s))) as Hdist by (rewrite Hall; apply range_NoDup).
  apply NoDup_app in Hdist as (_ & _ & (Hids & Hdisj & _)%NoDup_app).
  eapply wp_mono; [apply (insert_all_spec _ (idle (held s)) entries); [apply Hok|apply Hf|apply Hf]|].
  intros _ s2 (p & -> & Hp & Hv). wp_steps. unfold _get_load_store_spec. simpl.
  rewrite !Hid. split_and!; try done.
  - apply (added_offload_ok s _ loads entries); try done.
    + by rewrite Hblocks, Hid.
    + simpl. lia.
    + simpl. by rewrite Hle.
    + exact (oo_tracker s loads Hok).
  - intros z Hz. split; [|by apply Hdisj].
    assert (z ∈ range 0 n) as Hz'%elem_of_range by (rewrite <- Hall; set_solver). lia.
Qed.

Lemma append_event_spec s keys removed :
  wp (append_event keys removed) (λ _ s', ∃ evs, s' = s <| om_events := evs |>) s.
Proof.
  unfold append_event. wp_steps.
  destruct (om_events s) as [evs|] eqn:He; [destruct keys as [|k keys]|]; [|by eexists|].
  all: exists (om_events s); by destruct s.
Qed.

(** A store that nothing has to be done for. *)
Lemma store_ok_nothing s loads keys s' : offload_ok s loads → held s' = held s →
  filter (λ k, held s !! k = None) (admitted s' keys) = [] →
  store_ok s loads keys {| keys_to_store := []; store_spec := []; evicted_keys := [] |} s'.
Proof.
  intros Hok Hh Hnone. split; simpl; try done.
  - split; [apply NoDup_nil_2|done].
  - by intros z []%elem_of_nil.
  - by right.
  - by intros k []%elem_of_nil.
  - rewrite (left_id_L ∅ (∪)), Hh. symmetry. apply map_filter_id.
    intros k b _. apply not_elem_of_nil.
  - intros k b _ _. apply not_elem_of_nil.
Qed.

Lemma prepare_store_spec s loads keys : offload_ok s loads → NoDup keys →
  wp (prepare_store keys)
    (λ r s', offload_ok s' loads ∧
       match r with None => held s' = held s | Some out => store_ok s loads keys out s' end) s.
Proof.
  intros Hok Hnd. unfold prepare_store. wp_steps.
  eapply wp_mono; [apply admitted_keys_spec, Hok|]. intros r s1 (-> & Ht & d & n & ->).
  set (s1 := s <| counts := d |> <| stores_skipped_in_current_batch := n |>) in *.
  assert (offload_ok s1 loads) as Hok1 by by apply (offload_ok_ext s).
  wp_steps. unfold id.
  assert (filter (λ k, policy_get (om_policy s1) k = None) (admitted s1 keys) =
    filter (λ k, held s !! k = None) (admitted s1 keys)) as ->.
  { apply list_filter_iff. intros k. by rewrite (get_held s1 loads). }
  set (to_store := filter (λ k, held s !! k = None) (admitted s1 keys)).
  case_decide as Hempty.
  { wp_steps. split; [done|]. by apply (store_ok_nothing s loads). }
  wp_steps. set (s2 := s1 <| allocation_sizes_in_current_batch ::= _ |>).
  assert (offload_ok s2 loads) as Hok2 by by apply (offload_ok_ext s1).
  eapply wp_mono; [by apply (make_room_spec s2 loads)|]. intros [ev|] s3; simpl.
  2: { intros [-> _]. wp_steps. done. }
  intros (l & -> & [Hev Hok3 Hh3 Hf3 [Hn3 Ha3] [Hc3 Ht3]]). wp_steps.
  eapply wp_mono; [apply append_event_spec|]. intros _ s4 [evs ->].
  assert (NoDup to_store) as Hnd'.
  { eapply sublist_NoDup; [exact Hnd|]. etrans; [apply sublist_filter|apply admitted_sublist]. }
  wp_steps. eapply wp_mono; [apply (store_blocks_spec _ loads);
    [by apply (offload_ok_ext s3); [..|exact (oo_tracker s3 loads Hok3)]|done|..]|].
  { intros k [Hk _]%list_elem_of_filter. change (held s3 !! k = None).
    rewrite Hh3, lookup_remaining. case_decide; done. }
  { unfold _get_num_free_blocks in *. simpl. rewrite Hn3, Ha3, Hf3, len_app. simpl.
    destruct Hev as [Hl _ _ _]. unfold len at 3. rewrite !length_fmap. unfold len in Hl at 1.
    unfold _get_num_free_blocks in Hl. simpl in Hl. lia. }
  intros out s5 (Hok5 & Hk5 & He5 & Hs5 & Hr5 & Hh5 & Hc5 & Ht5). wp_steps. split; [done|].
  simpl in Hc5, Ht5. change (held (s3 <| om_events := evs |>)) with (held s3) in *.
  assert (admitted s5 keys = admitted s1 keys) as Hadm 
    by (apply admitted_ext; [by rewrite Hc5, Hc3|by rewrite Ht5, Ht3]).
  destruct Hev as [Hl Hnd1 Hheld Hidle]. split; rewrite ?Hk5, ?He5, ?Hadm; try done.
  - intros z Hz. apply Hr5 in Hz as [Hz _]. simpl in Hz. by rewrite Hn3 in Hz.
  - left. unfold len at 1. rewrite length_fmap. exact Hl.
  - intros k ([k' b] & -> & Hin)%list_elem_of_fmap. 
    split; [exists b; split; [exact (Hheld _ _ Hin)|apply (Hidle _ _ Hin)]|].
    apply Hidle in Hin as [_ Hin]. by rewrite elem_of_list_to_set in Hin.
  - by rewrite Hh5, Hh3.
  - intros k b Hk. rewrite Hh5, lookup_union, list_to_map_dict.
    destruct (dict_get _ k) as [b'|] eqn:Hb.
    { apply dict_get_elem, (list_elem_of_fmap_2 fst) in Hb. rewrite fst_zip in Hb; [done|].
      rewrite length_fmap. destruct Hs5 as [_ Hs5]. unfold len in Hs5. lia. }
    rewrite (left_id_L None (∪)). intros Hb' Hz. apply Hr5 in Hz as [_ Hz]. apply Hz, elem_of_slots.
    eauto.
Qed.

(** ** The end of a store *)

Lemma pending_ref s loads k b : offload_ok s loads → held s !! k = Some b →
  is_ready b = false → st_ref_cnt b = -1 ∧ k ∉ loads.
Proof.
  intros Hok Hk Hr. unfold is_ready in Hr. apply bool_decide_eq_false in Hr.
  destruct (oo_refs s loads Hok k b Hk) as [?|Ho]; [done|]. pose proof (occ_nonneg k loads). lia.
Qed.

(** The blocks after the stores of [keys] succeeded, and after they failed. *)
Definition published keys (view : gmap OffloadKey BlockStatus) : gmap OffloadKey BlockStatus :=
  map_imap (λ k b, Some (if decide (k ∈ keys ∧ is_ready b = false)
                         then b <| st_ref_cnt := 0 |> else b)) view.

Definition dropped keys (view : gmap OffloadKey BlockStatus) : gmap OffloadKey BlockStatus :=
  filter (λ kb, ¬ (kb.1 ∈ keys ∧ is_ready kb.2 = false)) view.

Lemma lookup_published keys view k : published keys view !! k =
  (λ b, if decide (k ∈ keys ∧ is_ready b = false) then b <| st_ref_cnt := 0 |> else b) <$> view !! k.
Proof. unfold published. rewrite map_lookup_imap. by destruct (view !! k). Qed.

Lemma lookup_dropped keys view k : dropped keys view !! k =
  b ← view !! k; if decide (k ∈ keys ∧ is_ready b = false) then None else Some b.
Proof.
  unfold dropped. rewrite map_lookup_filter. destruct (view !! k) as [b|]; [|done]. simpl.
  repeat case_guard || case_decide; naive_solver.
Qed.

Lemma store_succeeded_spec s loads acc k : offload_ok s loads →
  wp (store_succeeded acc k)
    (λ _ s', offload_ok s' loads ∧ held s' = published [k] (held s)) s.
Proof.
  intros Hok. unfold store_succeeded. wp_steps. rewrite (get_held s loads) by done.
  assert (∀ b, held s !! k = Some b → published [k] (held s) =
    if is_ready b then held s else <[k := b <| st_ref_cnt := 0 |>]> (held s)) as Hpub.
  { intros b Hb. apply map_eq. intros k'. rewrite lookup_published.
    destruct (decide (k' = k)) as [->|Hne].
    - rewrite Hb. simpl. destruct (is_ready b) eqn:Hr.
      + by rewrite Hb, decide_False by naive_solver.
      + rewrite lookup_insert_eq, decide_True by set_solver. done.
    - assert (held s !! k' = (if is_ready b then held s
        else <[k := b <| st_ref_cnt := 0 |>]> (held s)) !! k') as <-
        by (destruct (is_ready b); [done|by rewrite lookup_insert_ne]).
      destruct (held s !! k'); [|done]. simpl. by rewrite decide_False by set_solver. }
  destruct (held s !! k) as [b|] eqn:Hk.
  2: { wp_steps. split; [done|]. apply map_eq. intros k'. rewrite lookup_published.
       destruct (decide (k' = k)) as [->|]; [by rewrite Hk|].
       destruct (held s !! k'); [|done]. simpl. by rewrite decide_False by set_solver. }
  specialize (Hpub b eq_refl). destruct (is_ready b) eqn:Hr; cbn [negb]; wp_steps; [done|].
  destruct (pending_ref s loads k b Hok Hk Hr) as [Hm Hn].
  set (b' := b <| st_ref_cnt := 0 |>) in *. unfold write_status. wp_steps.
  destruct (law_status (om_policy s) (idle (held s)) k b b') as [Hp1 Hv1]; [apply Hok|done|].
  apply wp_on_policy.
  eapply wp_mono; [apply (law_mark _ (idle (held s)) k b'); [done|simpl; by rewrite Hv1, lookup_insert_eq]|].
  intros _ p2 [Hp2 Hv2]. wp_steps. simpl in Hv2. rewrite Hv1 in Hv2. split; [|by rewrite Hpub].
  apply (offload_ok_update s _ loads loads k b b'); try done.
  - unfold held. simpl. rewrite Hv2. fold (held s). by rewrite idle_insert, decide_True.
  - simpl. rewrite Hm. simpl. lia.
  - simpl. rewrite Hm. simpl. lia.
  - right. simpl. by rewrite occ_zero.
  - apply Hok.
Qed.

Lemma store_failed_spec s loads k : offload_ok s loads →
  wp (store_failed k) (λ _ s', offload_ok s' loads ∧ held s' = dropped [k] (held s)) s.
Proof.
  intros Hok. unfold store_failed. wp_steps. rewrite (get_held s loads) by done.
  assert (∀ view : gmap OffloadKey BlockStatus, (∀ b, view !! k = Some b → is_ready b = true) →
    dropped [k] view = view) as Hsame.
  { intros view Hready. apply map_eq. intros k'. rewrite lookup_dropped.
    destruct (view !! k') as [b|] eqn:Hb; [|done]. simpl. rewrite decide_False; [done|].
    intros [->%list_elem_of_singleton Hr]. rewrite (Hready b Hb) in Hr. done. }
  destruct (held s !! k) as [b|] eqn:Hk; [|wp_steps; split; [done|]; symmetry; apply Hsame; naive_solver].
  destruct (is_ready b) eqn:Hr; simpl; wp_steps.
  { split; [done|]. symmetry. apply Hsame. naive_solver. }
  destruct (pending_ref s loads k b Hok Hk Hr) as [Hm Hn].
  pose proof Hok as [H1 H2 H3 H4 H5 H6 H7 H8 H9].
  apply wp_on_policy. eapply wp_mono; [apply (law_remove _ (idle (held s)) k b); [done|done]|].
  intros _ p [Hp Hv]. simpl in Hp, Hv. unfold _free_block. wp_steps.
  match goal with |- offload_ok ?s' _ ∧ _ => set (s1 := s') end.
  assert (held s1 = delete k (held s)) as Hh by exact Hv.
  split.
  - split; rewrite ?Hh; try done.
    + by rewrite idle_delete.
    + simpl. rewrite <- H2, (slots_delete _ k b Hk), <- app_assoc. done.
    + simpl. rewrite (count_delete _ _ _ _ Hk), decide_False, H4 by lia. lia.
    + simpl. rewrite (count_delete _ _ _ _ Hk), decide_True, H5 by lia. lia.
    + intros k' b'. rewrite lookup_delete. case_decide; [done|]. apply H6.
    + intros k' Hk'. rewrite lookup_delete. case_decide; [congruence|]. by apply H7.
  - rewrite Hh. apply map_eq. intros k'. rewrite lookup_delete, lookup_dropped.
    case_decide as Hkk; [subst; rewrite Hk; simpl; by rewrite decide_True by set_solver|].
    destruct (held s !! k'); [|done]. simpl. by rewrite decide_False by set_solver.
Qed.

Lemma published_snoc pre k view : published (pre ++ [k]) view = published [k] (published pre view).
Proof.
  apply map_eq. intros k'. rewrite !lookup_published. destruct (view !! k') as [b|]; [|done]. simpl.
  f_equal. destruct (decide (k' ∈ pre ∧ is_ready b = false)) as [Hp|Hp].
  - rewrite decide_True by set_solver. by rewrite decide_False by (simpl; naive_solver).
  - destruct (decide (k' ∈ [k] ∧ is_ready b = false)).
    + by rewrite decide_True by set_solver.
    + by rewrite decide_False by set_solver.
Qed.

Lemma dropped_snoc pre k view : dropped (pre ++ [k]) view = dropped [k] (dropped pre view).
Proof.
  apply map_eq. intros k'. rewrite !lookup_dropped. destruct (view !! k') as [b|]; [|done]. simpl.
  destruct (decide (k' ∈ pre ∧ is_ready b = false)) as [Hp|Hp]; simpl.
  - by rewrite decide_True by set_solver.
  - destruct (decide (k' ∈ [k] ∧ is_ready b = false)).
    + by rewrite decide_True by set_solver.
    + by rewrite decide_False by set_solver.
Qed.

Lemma published_nil view : published [] view = view.
Proof.
  apply map_eq. intros k. rewrite lookup_published. by destruct (view !! k).
Qed.

Lemma dropped_nil view : dropped [] view = view.
Proof.
  apply map_eq. intros k. rewrite lookup_dropped. by destruct (view !! k).
Qed.

Lemma complete_store_spec s loads keys (success : bool) : offload_ok s loads →
  wp (complete_store keys success)
    (λ _ s', offload_ok s' loads ∧
       held s' = if success then published keys (held s) else dropped keys (held s)) s.
Proof.
  intros Hok. unfold complete_store. wp_steps.
  apply (wp_mono _ (λ _ s', offload_ok s' loads ∧
    held s' = if success then published keys (held s) else dropped keys (held s))).
  - destruct success; wp_steps.
    + apply (wp_for_acc (λ pre _ s', offload_ok s' loads ∧ held s' = published pre (held s)));
        [by rewrite published_nil|].
      intros pre k post acc s1 _ [Hok1 Hh1]. eapply wp_mono; [by apply store_succeeded_spec|].
      intros _ s2 [Hok2 Hh2]. by rewrite Hh2, Hh1, <- published_snoc.
    + eapply wp_mono; [apply (wp_for (λ pre s', offload_ok s' loads ∧ held s' = dropped pre (held s)));
        [by rewrite dropped_nil|]|by intros; wp_steps].
      intros pre k post s1 _ [Hok1 Hh1]. eapply wp_mono; [by apply store_failed_spec|].
      intros _ s2 [Hok2 Hh2]. by rewrite Hh2, Hh1, <- dropped_snoc.
  - intros stored s1 [Hok1 Hh1]. eapply wp_mono; [apply append_event_spec|].
    intros _ s2 [evs ->]. split; [|done].
    by apply (offload_ok_ext s1); [..|exact (oo_tracker s1 loads Hok1)].
Qed.

Lemma empty_offload_ok s : policy_ok (om_policy s) ∅ → held s = ∅ → free_list s = [] →
  num_allocated_blocks s = 0 → 0 ≤ om_num_blocks s → num_evictable_cache_blocks s = 0 →
  num_write_pending_blocks s = 0 → tracker_ok s → offload_ok s [].
Proof.
  intros Hp Hh Hf Ha Hn He Hw Ht. split; rewrite ?Hh, ?Hf, ?Ha, ?He, ?Hw; try done.
  - by intros k []%elem_of_nil.
Qed.

Lemma reset_spec s loads : offload_ok s loads →
  wp reset_offload (λ _ s', offload_ok s' [] ∧ held s' = ∅) s.
Proof.
  intros Hok. unfold reset_offload. wp_steps. apply wp_on_policy.
  eapply wp_mono; [eapply law_clear, Hok|]. intros _ p [Hp Hv]. wp_steps. split; [|done].
  apply empty_offload_ok; try done; [|exact (oo_tracker s loads Hok)].
  simpl. pose proof (oo_allocated s loads Hok). lia.
Qed.

Lemma init_offload_ok num_blocks enable_events threshold tracker_size :
  0 ≤ num_blocks < 2 ^ 53 - 1 → 1 ≤ tracker_size →
  offload_ok (CPUOffloadingManager_init num_blocks enable_events threshold tracker_size) [].
Proof.
  intros Hn Ht. destruct (law_init num_blocks Hn) as [Hp Hv].
  apply empty_offload_ok; try done; simpl; [lia|]. split; [done|]. simpl.
  case_decide; [|done]. split; [apply NoDup_nil_2|unfold len; simpl; lia].
Qed.

Lemma stats_spec s loads : offload_ok s loads → wp get_stats (λ _ s', offload_ok s' loads) s.
Proof.
  intros Hok. pose proof (oo_tracker s loads Hok) as Ht. unfold get_stats. wp_steps. unfold id.
  assert (∀ n, ∃ x, (if decide (0 < om_num_blocks s) then true_div n (om_num_blocks s)
    else Ok (float_of 0)) = Ok x) as Hdiv.
  { intros n. case_decide; [|by eexists]. unfold true_div. rewrite decide_False by lia. by eexists. }
  destruct (Hdiv (num_allocated_blocks s - len (free_list s) - num_evictable_cache_blocks s)) as [u Hu].
  destruct (Hdiv (num_write_pending_blocks s)) as [w Hw].
  eapply wp_lift; [exact Hu|]. wp_steps. eapply wp_lift; [exact Hw|]. wp_steps.
  destruct (decide (2 ≤ store_threshold s)); wp_steps; by apply (offload_ok_ext s).
Qed.

(** ** All calls

    The calls of the interface, and the protocol the caller keeps: a load reads
    blocks that can be read, a finished load was started, and a store names
    each key once. *)

Inductive offload_call :=
  | CallLookup (key : OffloadKey)
  | CallPrepareLoad (keys : list OffloadKey)
  | CallCompleteLoad (keys : list OffloadKey)
  | CallTouch (keys : list OffloadKey)
  | CallPrepareStore (keys : list OffloadKey)
  | CallCompleteStore (keys : list OffloadKey) (success : bool)
  | CallReset
  | CallTakeEvents
  | CallStats.

Definition run_offload (c : offload_call) : M (CPUOffloadingManager P) unit :=
  match c with
  | CallLookup key => _ ← gets (λ s, lookup_offload s key); mret tt
  | CallPrepareLoad keys => _ ← prepare_load keys; mret tt
  | CallCompleteLoad keys => complete_load keys
  | CallTouch keys => touch_offload keys
  | CallPrepareStore keys => _ ← prepare_store keys; mret tt
  | CallCompleteStore keys success => complete_store keys success
  | CallReset => reset_offload
  | CallTakeEvents => _ ← take_offload_events; mret tt
  | CallStats => _ ← get_stats; mret tt
  end.

(** [offload_allowed s loads c loads']: with the loads [loads] in flight the
    call is allowed, and the loads [loads'] are in flight after it. *)
Inductive offload_allowed s loads : offload_call → list OffloadKey → Prop :=
  | allow_lookup key : offload_allowed s loads (CallLookup key) loads
  | allow_prepare_load keys : (∀ k, k ∈ keys → readable s k) → len keys + len loads < 2 ^ 31 →
      offload_allowed s loads (CallPrepareLoad keys) (keys ++ loads)
  | allow_complete_load keys rest : loads ≡ₚ keys ++ rest →
      offload_allowed s loads (CallCompleteLoad keys) rest
  | allow_touch keys : offload_allowed s loads (CallTouch keys) loads
  | allow_prepare_store keys : NoDup keys → offload_allowed s loads (CallPrepareStore keys) loads
  | allow_complete_store keys success :
      offload_allowed s loads (CallCompleteStore keys success) loads
  | allow_reset : offload_allowed s loads CallReset []
  | allow_take_events : offload_allowed s loads CallTakeEvents loads
  | allow_stats : offload_allowed s loads CallStats loads.

Inductive offload_step : CPUOffloadingManager P * list OffloadKey →
    CPUOffloadingManager P * list OffloadKey → Prop :=
  | step_offload s loads c loads' s' :
      offload_allowed s loads c loads' → run_offload c s = Ok (tt, s') →
      offload_step (s, loads) (s', loads').

Lemma run_offload_spec s loads c loads' : offload_ok s loads → offload_allowed s loads c loads' →
  wp (run_offload c) (λ _ s', offload_ok s' loads') s.
Proof.
  intros Hok Hall. destruct Hall; simpl; wp_steps; try done.
  - eapply wp_mono; [by apply (prepare_load_spec s loads)|]. intros ids s' (_ & ? & _). by wp_steps.
  - eapply wp_mono; [apply complete_load_spec; by eapply offload_ok_perm|]. by intros ? s' (? & _).
  - eapply wp_mono; [by apply (touch_offload_spec s loads)|]. by intros ? s' (? & _).
  - eapply wp_mono; [by apply (prepare_store_spec s loads)|]. intros ? s' (? & _). by wp_steps.
  - eapply wp_mono; [by apply (complete_store_spec s loads)|]. by intros ? s' (? & _).
  - eapply wp_mono; [by apply (reset_spec s loads)|]. by intros ? s' (? & _).
  - unfold take_offload_events. wp_steps. pose proof (oo_tracker s loads Hok).
    destruct (om_events s); wp_steps; [|done]. by apply (offload_ok_ext s).
  - eapply wp_mono; [by apply stats_spec|]. intros ? s' ?. by wp_steps.
Qed.

Lemma offload_reachable_ok s0 loads0 s loads : offload_ok s0 loads0 →
  rtc offload_step (s0, loads0) (s, loads) → offload_ok s loads.
Proof.
  intros Hok Hsteps. change (offload_ok (s, loads).1 (s, loads).2).
  change (offload_ok (s0, loads0).1 (s0, loads0).2) in Hok.
  induction Hsteps as [|x y z Hstep _ IH]; [done|]. apply IH.
  destruct Hstep as [s1 loads1 c loads' s' Hall Hrun]. simpl in *.
  pose proof (run_offload_spec _ _ _ _ Hok Hall) as Hwp. unfold wp in Hwp. by rewrite Hrun in Hwp.
Qed.

End stores.
