(* ===== verification/OffloadTheorems.v ===== *)
(** * The CPU tier: theorems

    The properties of the CPU tier over all sequences of calls, of its stores
    and of the two replacement policies, and the calls that show where a policy
    gives up early and where a block of the request itself is evicted. *)

From S2P Require Import Prelude FreeQueue Hashing Floats Offload OffloadPolicies OffloadArc OffloadManager OffloadStores.

(** ** Running calls *)

Section runs.
Context {P : Type} `{PolicyLaws P}.

(** The protocol, decided along the run. *)
Definition allowed_after (s : CPUOffloadingManager P) (loads : list OffloadKey) (c : offload_call) :
    option (list OffloadKey) :=
  match c with
  | CallPrepareLoad keys =>
      if forallb (λ k, match lookup_offload s k with HIT => true | _ => false end) keys
         && bool_decide (len keys + len loads < 2 ^ 31) then Some (keys ++ loads) else None
  | CallCompleteLoad keys =>
      if decide (loads ≡ₚ keys ++ list_difference loads keys)
      then Some (list_difference loads keys) else None
  | CallPrepareStore keys => if decide (NoDup keys) then Some loads else None
  | CallReset => Some []
  | _ => Some loads
  end.

Lemma allowed_after_sound s loads c loads' :
  allowed_after s loads c = Some loads' → offload_allowed s loads c loads'.
Proof.
  destruct c as [k|keys|keys|keys|keys|keys success| | |]; simpl; try (intros [= <-]; constructor).
  - destruct (forallb _ _ && _) eqn:Hb; [|done]. intros [= <-].
    apply andb_true_iff in Hb as [Hr Hl%bool_decide_eq_true]. constructor; [|done].
    intros k Hk. rewrite forallb_forall in Hr. apply list_elem_of_In in Hk.
    specialize (Hr k Hk). unfold readable. by destruct (lookup_offload s k).
  - case_decide; [|done]. intros [= <-]. by constructor.
  - case_decide; [|done]. intros [= <-]. by constructor.
Qed.

(** A checked run: every call is allowed and returns. *)
Fixpoint checked_run (cs : list offload_call) (s : CPUOffloadingManager P) (loads : list OffloadKey) :
    option (CPUOffloadingManager P * list OffloadKey) :=
  match cs with
  | [] => Some (s, loads)
  | c :: cs =>
      loads' ← allowed_after s loads c;
      match run_offload c s with Ok (_, s') => checked_run cs s' loads' | Raise _ => None end
  end.

Lemma checked_run_steps cs s loads s' loads' :
  checked_run cs s loads = Some (s', loads') → rtc offload_step (s, loads) (s', loads').
Proof.
  revert s loads. induction cs as [|c cs IH]; intros s loads; simpl.
  { intros [= <- <-]. done. }
  destruct (allowed_after s loads c) as [loads1|] eqn:Ha; [|done]. simpl.
  destruct (run_offload c s) as [[[] s1]|] eqn:Hr; [|done]. intros Hrun.
  eapply rtc_l; [|by apply IH]. econstructor; [by apply allowed_after_sound|done].
Qed.


End runs.

(** Two blocks are stored, one is read, and the tier is full. *)
Definition demo_calls : list offload_call :=
  [CallPrepareStore [[1]; [2]]; CallCompleteStore [[1]; [2]] true; CallPrepareLoad [[1]]].

Definition demo_tier (P : Type) `{CachePolicy P} : CPUOffloadingManager P :=
  CPUOffloadingManager_init 2 true 1 64.

(** C15: for any replacement policy that keeps its promises, from the
    construction of the manager on and after any sequence of calls that follow
    the protocol, every slot below the high-water mark is free or held by
    exactly one block, the reference count of a readable block is the number of
    loads that read it, both counters are exact and the access tracker is within
    its bound; and the next allowed call returns: no assertion fires. *)
Theorem offload_never_stuck {P} `{PolicyLaws P} num_blocks enable_events threshold tracker_size
    (s : CPUOffloadingManager P) loads c loads' :
  0 ≤ num_blocks < 2 ^ 53 - 1 → 1 ≤ tracker_size →
  rtc offload_step
    (CPUOffloadingManager_init num_blocks enable_events threshold tracker_size, []) (s, loads) →
  offload_allowed s loads c loads' →
  offload_ok s loads ∧ ∃ s', run_offload c s = Ok (tt, s') ∧ offload_ok s' loads'.
Proof.
  intros Hn Ht Hsteps Hall.
  assert (offload_ok s loads) as Hok.
  { eapply offload_reachable_ok; [|done]. by apply init_offload_ok. }
  split; [done|]. pose proof (run_offload_spec s loads c loads' Hok Hall) as Hrun.
  apply wp_run in Hrun as ([] & s' & Hrun & Hok'). eauto.
Qed.

Lemma offload_never_stuck_witness :
  match checked_run demo_calls (demo_tier ARCCachePolicy) [] with
  | Some (s, loads) => ∃ s', run_offload (CallCompleteLoad [[1]]) s = Ok (tt, s') ∧ offload_ok s' []
  | None => False
  end.
Proof.
  destruct (checked_run demo_calls (demo_tier ARCCachePolicy) []) as [[s loads]|] eqn:Hrun.
  - pose proof (checked_run_steps _ _ _ _ _ Hrun) as Hsteps.
    refine (proj2 (offload_never_stuck 2 true 1 64 s loads (CallCompleteLoad [[1]]) [] _ _ Hsteps _)).
    + lia.
    + lia.
    + apply (allow_complete_load _ _ [[1]] []). revert Hrun. vm_compute. by intros [= <- <-].
  - revert Hrun. vm_compute. discriminate.
Defined.

(** C16: a store request with distinct keys never raises.  When it is refused
    the blocks are as before.  When it is served, it stores the admitted keys
    that were not stored yet, each in a slot of its own that no other block
    holds, evicts exactly as many blocks as slots were missing, all of them idle
    and none of them an admitted key, and leaves every other block, and so every
    block a load is reading, in its slot. *)
Theorem prepare_store_sound {P} `{PolicyLaws P} (s : CPUOffloadingManager P) loads keys :
  offload_ok s loads → NoDup keys →
  wp (prepare_store keys)
    (λ r s', offload_ok s' loads ∧
       match r with
       | None => held s' = held s
       | Some out => store_ok s loads keys out s' ∧
           ∀ k z, k ∈ loads → slot_of s k = Some z → slot_of s' k = Some z ∧ z ∉ store_spec out
       end) s.
Proof.
  intros Hok Hnd. eapply wp_mono; [by apply prepare_store_spec|].
  intros [out|] s' [Hok' Hout]; [|done]. split; [done|]. split; [done|]. intros k z Hk Hz.
  pose proof Hout as [Hkeys _ _ _ Hvic Hheld Hdisj].
  unfold slot_of in Hz. destruct (held s !! k) as [b|] eqn:Hb; [|done].
  assert (k ∉ evicted_keys out) as Hne.
  { intros Hin. destruct (Hvic k Hin) as [(b' & Hb' & Hz') _].
    destruct (oo_refs s loads Hok k b' Hb') as [[? ?]|Hr]; [done|]. apply occ_pos in Hk. lia. }
  assert (k ∉ keys_to_store out) as Hnk.
  { rewrite Hkeys. intros [Hnone _]%list_elem_of_filter. congruence. }
  assert (held s' !! k = Some b) as Hb'.
  { rewrite Hheld. apply lookup_union_Some_raw. right. split.
    - apply not_elem_of_list_to_map_1. intros ([k' b'] & -> & Hin)%list_elem_of_fmap.
      by apply elem_of_zip_l in Hin.
    - by apply map_lookup_filter_Some. }
  unfold slot_of. rewrite Hb'. split; [done|]. simpl in Hz. simplify_eq. by eapply Hdisj.
Qed.

Lemma prepare_store_sound_witness :
  wp (prepare_store [[1]; [2]])
    (λ r s', offload_ok s' [] ∧ (store_spec <$> r) = Some [0; 1]) (demo_tier LRUCachePolicy).
Proof.
  assert (∃ s', prepare_store [[1]; [2]] (demo_tier LRUCachePolicy) =
    Ok (Some {| keys_to_store := [[1]; [2]]; store_spec := [0; 1]; evicted_keys := [] |}, s')) as [s' Hrun].
  { eexists. vm_compute. reflexivity. }
  assert (wp (prepare_store [[1]; [2]]) (λ _ s', offload_ok s' []) (demo_tier LRUCachePolicy)) as Hok.
  { eapply wp_mono; [apply (prepare_store_sound (demo_tier LRUCachePolicy) [] [[1]; [2]])|].
    - apply init_offload_ok; lia.
    - apply (bool_decide_unpack _). vm_compute. exact I.
    - by intros r s1 [? _]. }
  unfold wp in *. rewrite Hrun in *. by split.
Defined.

(** The least-recently-used policy evicts the [n] least recently used idle
    blocks that are not protected, in that order, when there are that many;
    otherwise it refuses and changes nothing.  The order of the blocks that stay
    is kept. *)
Lemma lru_evicts_oldest p n protected :
  lru_ok p (idle (lru_blocks p)) → 0 ≤ n →
  wp (lru_evict n protected)
    (λ r p',
       if decide (n ≤ len (lru_order p protected)) then
         let l := take (Z.to_nat n) (lru_order p protected) in
         r = Some l ∧ evictable_blocks p' = without l.*1 (evictable_blocks p) ∧
         lru_blocks p' = remaining (lru_blocks p) l
       else r = None ∧ p' = p) p.
Proof. apply lru_evict_spec. Qed.

(** Three idle blocks and one that is being read. *)
Definition demo_lru : LRUCachePolicy := {|
  lru_capacity := 4;
  evictable_blocks := [([3], ()); ([1], ()); ([2], ())];
  lru_blocks := list_to_map [([1], {| st_ref_cnt := 0; st_block_id := 0 |});
    ([2], {| st_ref_cnt := 0; st_block_id := 1 |}); ([3], {| st_ref_cnt := 0; st_block_id := 2 |});
    ([4], {| st_ref_cnt := 1; st_block_id := 3 |})] |}.

(** C36: in every state of the tier with the adaptive policy a key is in at most
    one of T1, T2 and the two ghost lists, neither ghost list is longer than the
    capacity, and the target is a finite number whose integer part exists: the
    conversion in [evict] never raises. *)
Theorem arc_lists_consistent num_blocks enable_events threshold tracker_size
    (s : CPUOffloadingManager ARCCachePolicy) loads :
  0 ≤ num_blocks < 2 ^ 53 - 1 → 1 ≤ tracker_size →
  rtc offload_step
    (CPUOffloadingManager_init num_blocks enable_events threshold tracker_size, []) (s, loads) →
  NoDup (arc_keys (om_policy s)) ∧
  len (arc_b1 (om_policy s)) ≤ arc_capacity (om_policy s) ∧
  len (arc_b2 (om_policy s)) ≤ arc_capacity (om_policy s) ∧
  ∃ z, float_trunc (target_t1_size (om_policy s)) = Ok z.
Proof.
  intros Hn Ht Hsteps. assert (offload_ok s loads) as Hok.
  { eapply offload_reachable_ok; [|done]. by apply init_offload_ok. }
  destruct (oo_policy s loads Hok) as [Hnd _ Htarget Hb1 Hb2].
  by split_and!; [..|apply small_trunc].
Qed.

(** Two blocks make way for two others, and are asked for again. *)
Definition growing_calls : list offload_call :=
  [CallPrepareStore [[1]; [2]]; CallCompleteStore [[1]; [2]] true;
   CallPrepareStore [[3]; [4]]; CallCompleteStore [[3]; [4]] true; CallTouch [[1]; [2]]].

Lemma arc_lists_consistent_witness :
  match checked_run growing_calls (demo_tier ARCCachePolicy) [] with
  | Some (s, _) => len (arc_b1 (om_policy s)) = 2 ∧ NoDup (arc_keys (om_policy s))
  | None => False
  end.
Proof.
  destruct (checked_run growing_calls (demo_tier ARCCachePolicy) []) as [[s loads]|] eqn:Hrun.
  - pose proof (checked_run_steps _ _ _ _ _ Hrun) as Hsteps. split.
    + revert Hrun. vm_compute. by intros [= <- <-].
    + apply (arc_lists_consistent 2 true 1 64 s loads); [lia|lia|exact Hsteps].
  - revert Hrun. vm_compute. discriminate.
Defined.





