(* ===== verification/DynamicSD.v ===== *)
(** * Dynamic speculative decoding (src/vllm/v1/spec_decode/dynamic/utils.py)

    A configured schedule says for ranges of batch sizes how many draft tokens a step uses.  It is
    validated and expanded into a table that the scheduler indexes with the size of its batch.
    The theorem says which schedules are accepted and what the table holds.  The configuration is
    a list of lists of integers; values of other types are not modelled. *)

From S2P Require Import Prelude.

(** [(range_start, range_end, num_speculative_tokens)] *)
Definition DynamicSDSchedule : Type := list (Z * Z * Z).
Abbreviation sd_entry := (Z * Z * Z)%type.
Definition range_start (e : sd_entry) : Z := e.1.1.
Definition range_end (e : sd_entry) : Z := e.1.2.

(** One entry of the configuration. *)
Definition parse_entry (entry : list Z) : res sd_entry :=
  match entry with
  | [start; end_; k] =>
      if decide (start ≤ 0 ∨ end_ ≤ 0) then Raise ValueError
      else if decide (start > end_) then Raise ValueError
      else if decide (k < 0) then Raise ValueError
      else Ok (start, end_, k)
  | _ => Raise ValueError
  end.

(** [parsed_schedule.sort(key=lambda entry: entry[0])]; Python's sort is stable. *)
Fixpoint insert_entry (e : sd_entry) (l : DynamicSDSchedule) : DynamicSDSchedule :=
  match l with
  | [] => [e]
  | e' :: l' => if decide (range_start e ≤ range_start e') then e :: l else e' :: insert_entry e l'
  end.
Definition sort_entries (l : DynamicSDSchedule) : DynamicSDSchedule := foldr insert_entry [] l.

Fixpoint check_ranges (previous_end : Z) (l : DynamicSDSchedule) : res unit :=
  match l with
  | [] => Ok tt
  | e :: l => if decide (range_start e ≤ previous_end) then Raise ValueError else check_ranges (range_end e) l
  end.

Definition validate_and_normalize_dynamic_sd_schedule (config : option (list (list Z))) : res DynamicSDSchedule :=
  match config with
  | None | Some [] => Raise ValueError
  | Some entries =>
      parsed ← mapM (M := res) parse_entry entries;
      let parsed_schedule := sort_entries parsed in
      check_ranges 0 parsed_schedule;;
      first ← index parsed_schedule 0;
      if decide (range_start first ≠ 1) then Raise ValueError else Ok parsed_schedule
  end.

(** [l[i] = v] *)
Definition list_set (l : list Z) (i v : Z) : res (list Z) :=
  let j := if decide (i < 0) then i + len l else i in
  if decide (0 ≤ j < len l) then Ok (<[Z.to_nat j := v]> l) else Raise IndexError.

(** [for batch_size in sizes: dense_schedule[batch_size] = v] *)
Fixpoint fill (dense : list Z) (sizes : list Z) (v : Z) : res (list Z) :=
  match sizes with
  | [] => Ok dense
  | n :: sizes => dense ← list_set dense n v; fill dense sizes v
  end.

(** The sizes between the previous range and the next one keep the previous number. *)
Definition fill_gap (max_batch_size max_tokens start : Z) (dense : list Z) (next : Z) (last_tokens : option Z) :
    res (list Z) :=
  match last_tokens with
  | Some p =>
      if decide (start > next)
      then fill dense (range next (Z.min start (max_batch_size + 1))) (Z.min max_tokens p) else Ok dense
  | None => Ok dense
  end.

(** The loop over the ranges: the table, [next_batch_size] and [last_num_speculative_tokens]. *)
Fixpoint fill_ranges (max_batch_size max_tokens : Z) (l : DynamicSDSchedule) (dense : list Z)
    (next : Z) (last_tokens : option Z) : res (list Z * Z * option Z) :=
  match l with
  | [] => Ok (dense, next, last_tokens)
  | (start, end_, k) :: l =>
      dense ← fill_gap max_batch_size max_tokens start dense next last_tokens;
      dense ← fill dense (range (Z.max start next) (Z.min end_ max_batch_size + 1)) (Z.min max_tokens k);
      let next := Z.max next (end_ + 1) in
      if decide (next > max_batch_size) then Ok (dense, next, Some k)
      else fill_ranges max_batch_size max_tokens l dense next (Some k)
  end.

Definition build_dynamic_sd_schedule_lookup (config : option (list (list Z)))
    (vllm_max_batch_size vllm_num_speculative_tokens : Z) : res (list Z) :=
  if decide (vllm_max_batch_size ≤ 0) then Raise ValueError
  else if decide (vllm_num_speculative_tokens ≤ 0) then Raise ValueError
  else
    parsed_schedule ← validate_and_normalize_dynamic_sd_schedule config;
    let dense := replicate (Z.to_nat (vllm_max_batch_size + 1)) 0 in
    '(dense, next, last_tokens) ← fill_ranges vllm_max_batch_size vllm_num_speculative_tokens parsed_schedule dense 1 None;
    match last_tokens with
    | None => Raise ValueError
    | Some p => fill dense (range next (vllm_max_batch_size + 1)) (Z.min vllm_num_speculative_tokens p)
    end.

(** ** What a schedule means *)

Definition entry_ok (e : sd_entry) : Prop := 1 ≤ range_start e ≤ range_end e ∧ 0 ≤ e.2.
Definition before (e e' : sd_entry) : Prop := range_end e < range_start e'.

(** Well-formed ranges that do not overlap, one of which starts at 1. *)
Record valid_schedule (l : DynamicSDSchedule) : Prop := {
  vs_entries e : e ∈ l → entry_ok e;
  vs_disjoint e e' rest : l ≡ₚ e :: e' :: rest → before e e' ∨ before e' e;
  vs_first : ∃ e, e ∈ l ∧ range_start e = 1
}.

(** The range that decides for batches of [n] requests: the one with the greatest start up to [n]. *)
Definition decides (l : DynamicSDSchedule) (n : Z) (e : sd_entry) : Prop :=
  e ∈ l ∧ range_start e ≤ n ∧ ∀ e', e' ∈ l → range_start e' ≤ n → range_start e' ≤ range_start e.

Definition entry_list (e : sd_entry) : list Z := [e.1.1; e.1.2; e.2].

(** ** Validation *)

Lemma insert_entry_perm e l : insert_entry e l ≡ₚ e :: l.
Proof.
  induction l as [|e' l IH]; simpl; [done|]. case_decide; [done|]. rewrite IH. apply Permutation_swap.
Qed.

Lemma sort_perm l : sort_entries l ≡ₚ l.
Proof. induction l as [|e l IH]; simpl; [done|]. by rewrite insert_entry_perm, IH. Qed.

Lemma insert_sorted e l : StronglySorted (λ x y, range_start x ≤ range_start y) l →
  StronglySorted (λ x y, range_start x ≤ range_start y) (insert_entry e l).
Proof.
  induction 1 as [|e' l Hs IH Hall]; simpl; [repeat constructor|]. case_decide.
  - constructor; [by constructor|]. constructor; [done|]. eapply Forall_impl; [exact Hall|]. simpl. lia.
  - constructor; [done|]. rewrite insert_entry_perm. constructor; [lia|done].
Qed.

Lemma sort_sorted l : StronglySorted (λ x y, range_start x ≤ range_start y) (sort_entries l).
Proof. induction l; simpl; [constructor|by apply insert_sorted]. Qed.

Lemma check_ranges_ok p l : (∀ e, e ∈ l → entry_ok e) →
  check_ranges p l = Ok tt ↔ StronglySorted before l ∧ Forall (λ e, p < range_start e) l.
Proof.
  revert p. induction l as [|e l IH]; intros p Hok; simpl; [split; [repeat constructor|done]|].
  destruct (Hok e ltac:(by left)) as [He _]. case_decide as Hp.
  - split; [done|]. intros [_ Hall]. inversion Hall. lia.
  - rewrite IH by set_solver. split.
    + intros [Hs Hall]. split; [by constructor|]. constructor; [lia|]. eapply Forall_impl; [exact Hall|]. simpl. lia.
    + intros [Hs _]. by inversion Hs.
Qed.

Lemma check_ranges_error p l x : check_ranges p l = Raise x → x = ValueError.
Proof. revert p. induction l as [|e l IH]; intros p; simpl; [done|]. case_decide; [by intros [= <-]|apply IH]. Qed.

(** Sorted by start and disjoint is sorted by [before], and back. *)
Lemma disjoint_sorted l : StronglySorted (λ x y, range_start x ≤ range_start y) l → (∀ e, e ∈ l → entry_ok e) →
  (∀ e e' rest, l ≡ₚ e :: e' :: rest → before e e' ∨ before e' e) → StronglySorted before l.
Proof.
  induction 1 as [|e l Hs IH Hall]; intros Hok Hd; constructor.
  - apply IH; [set_solver|]. intros x y rest Hp. apply (Hd x y (e :: rest)). rewrite Hp. solve_Permutation.
  - rewrite Forall_forall in Hall |- *. intros y Hy. destruct (elem_of_Permutation l y) as [[rest Hp] _]; [done|].
    destruct (Hd e y rest) as [?|Hb]; [by rewrite Hp|done|]. specialize (Hall y Hy). destruct (Hok y) as [? _]; [by right|].
    unfold before in Hb. lia.
Qed.

Lemma sorted_disjoint l e e' rest : StronglySorted before l → l ≡ₚ e :: e' :: rest → before e e' ∨ before e' e.
Proof.
  intros Hs. revert rest. induction Hs as [|z l Hs IH Hall]; intros rest Hp; [by apply Permutation_nil_cons in Hp|].
  rewrite Forall_forall in Hall. destruct (decide (z = e)) as [->|Hze].
  { apply Permutation_cons_inv in Hp. left. apply Hall. rewrite Hp. by left. }
  destruct (decide (z = e')) as [->|Hze'].
  { rewrite Permutation_swap in Hp. apply Permutation_cons_inv in Hp. right. apply Hall. rewrite Hp. by left. }
  assert (z ∈ rest) as [rest' Hr]%elem_of_Permutation.
  { assert (z ∈ e :: e' :: rest) as Hz by (rewrite <-Hp; by left). set_solver. }
  apply (IH rest'). apply (Permutation_cons_inv (a := z)). rewrite Hp, Hr. solve_Permutation.
Qed.

Lemma parse_entry_spec entry :
  match parse_entry entry with
  | Ok e => entry = entry_list e ∧ entry_ok e
  | Raise x => x = ValueError ∧ ∀ e, entry = entry_list e → ¬ entry_ok e
  end.
Proof.
  unfold parse_entry, entry_list, entry_ok, range_start, range_end.
  destruct entry as [|a [|b [|k [|]]]]; try (split; [done|]; by intros [[? ?] ?]).
  repeat case_decide; (split; [done|]); try (simpl; lia); intros [[? ?] ?] [= <- <- <-]; simpl; lia.
Qed.

Lemma parse_entries_spec entries :
  match mapM (M := res) parse_entry entries with
  | Ok l => entries = entry_list <$> l ∧ ∀ e, e ∈ l → entry_ok e
  | Raise x => x = ValueError ∧ ∀ l, entries = entry_list <$> l → ¬ ∀ e, e ∈ l → entry_ok e
  end.
Proof.
  induction entries as [|entry entries IH]; [split; [done|]; by intros ? ?%elem_of_nil|].
  cbn [mapM]. pose proof (parse_entry_spec entry) as He. destruct (parse_entry entry) as [e|x]; simpl in *.
  - destruct He as [-> He]. destruct (mapM _ entries) as [l|x]; simpl in *.
    + destruct IH as [-> Hl]. split; [done|]. by intros e' [->|?]%elem_of_cons; auto.
    + destruct IH as [-> Hl]. split; [done|]. intros [|e' l]; [done|]. intros Heq Hok. apply (Hl l (f_equal tail Heq)). set_solver.
  - destruct He as [-> He]. split; [done|]. intros [|e' l]; [done|]. intros Heq Hok. apply (He e' (f_equal (hd []) Heq)), Hok. by left.
Qed.

#[export] Instance entry_list_inj : Inj (=) (=) entry_list.
Proof. intros [[? ?] ?] [[? ?] ?]. unfold entry_list. simpl. by intros [= -> -> ->]. Qed.

(** A schedule is accepted when it is valid; the result is sorted. *)
Lemma validate_spec entries :
  match validate_and_normalize_dynamic_sd_schedule (Some entries) with
  | Ok l => StronglySorted before l ∧ (∃ e l', l = e :: l' ∧ range_start e = 1) ∧
      ∃ l0, entries = entry_list <$> l0 ∧ l ≡ₚ l0 ∧ valid_schedule l0
  | Raise x => x = ValueError ∧ ∀ l0, entries = entry_list <$> l0 → ¬ valid_schedule l0
  end.
Proof.
  pose proof (parse_entries_spec entries) as Hp. destruct entries as [|entry entries].
  { split; [done|]. intros [|]; [|done]. intros _ [_ _ (? & ?%elem_of_nil & _)]; done. }
  unfold validate_and_normalize_dynamic_sd_schedule. set (es := entry :: entries) in *.
  destruct (mapM parse_entry es) as [l0|x]; simpl; [|destruct Hp as [-> Hp]; split; [done|]; intros l0 He [Hok _ _]; by eapply Hp].
  destruct Hp as [He Hok]. assert (∀ e, e ∈ sort_entries l0 → entry_ok e) as Hok' by (intros e; rewrite sort_perm; auto).
  assert (∀ l1, es = entry_list <$> l1 → l1 = l0) as Huniq.
  { intros l1 Hl1. rewrite He in Hl1. symmetry. by apply (inj (fmap entry_list)) in Hl1. }
  pose proof (check_ranges_ok 0 (sort_entries l0) Hok') as Hc. destruct (check_ranges 0 (sort_entries l0)) as [[]|x] eqn:Hr; simpl.
  2: { apply check_ranges_error in Hr as ->. split; [done|]. intros l1 ->%Huniq [H1 H2 _]. enough (Raise ValueError = Ok tt) by done.
    apply Hc. split; [|apply Forall_forall; intros e Hin; destruct (Hok' e Hin); lia].
    apply disjoint_sorted; [apply sort_sorted|done|]. intros e e' rest. rewrite sort_perm. apply H2. }
  destruct Hc as [Hc _]. destruct (Hc eq_refl) as [Hs Hpos].
  destruct (sort_entries l0) as [|e l] eqn:Hl. { pose proof (sort_perm l0) as Hp. rewrite Hl in Hp. by apply Permutation_nil_l in Hp as <-. }
  change (index (e :: l) 0) with (@Ok sd_entry e). simpl. destruct (decide (range_start e ≠ 1)) as [H1|H1].
  - split; [done|]. intros l1 ->%Huniq [_ _ (e1 & Hin & Hst)]. rewrite <-sort_perm, Hl in Hin.
    apply elem_of_cons in Hin as [->|Hin]; [done|]. apply StronglySorted_inv in Hs as [_ Hall]. rewrite Forall_forall in Hall.
    specialize (Hall e1 Hin). destruct (Hok' e); [by left|]. unfold before in Hall. lia.
  - assert (range_start e = 1) as Hst by (destruct (decide (range_start e = 1)); [done|by destruct H1]).
    split; [done|]. split; [by exists e, l|]. exists l0. rewrite <-Hl. split; [done|]. split; [apply sort_perm|]. split; [done| |].
    + intros e1 e2 rest Hp. apply (sorted_disjoint (e :: l) e1 e2 rest Hs). by rewrite <-Hl, sort_perm.
    + exists e. split; [rewrite <-sort_perm, Hl; by left|done].
Qed.

(** ** The table *)

Lemma fill_spec dense lo hi v : 0 ≤ lo → hi ≤ len dense →
  ∃ d, fill dense (range lo hi) v = Ok d ∧ len d = len dense ∧
    ∀ n, 0 ≤ n → d !! Z.to_nat n = if decide (lo ≤ n < hi) then Some v else dense !! Z.to_nat n.
Proof.
  remember (Z.to_nat (hi - lo)) as fuel eqn:Hf. revert dense lo Hf. induction fuel as [|fuel IH]; intros dense lo Hf Hlo Hhi.
  { rewrite range_nil by lia. exists dense. split; [done|]. split; [done|]. intros n Hn. by rewrite decide_False by lia. }
  rewrite range_cons by lia. cbn [fill]. unfold list_set. rewrite (decide_False (P := lo < 0)), decide_True by lia. simpl.
  destruct (IH (<[Z.to_nat lo := v]> dense) (lo + 1)) as (d & Hd & Hlen & Hat);
    [lia|lia|unfold len; rewrite length_insert; fold (len dense); lia|].
  exists d. split; [done|]. split; [by rewrite Hlen; unfold len; rewrite length_insert|].
  intros n Hn. rewrite Hat by done. unfold len in Hhi. destruct (decide (n = lo)) as [->|Hne].
  - rewrite decide_False, decide_True by lia. apply list_lookup_insert_eq. lia.
  - rewrite list_lookup_insert_ne by lia. destruct (decide (lo + 1 ≤ n < hi)); [by rewrite decide_True by lia|].
    by rewrite decide_False by lia.
Qed.

(** The number of tokens that a sorted schedule gives to batches of [n]. *)
Definition in_force (l : DynamicSDSchedule) (n : Z) : option Z :=
  foldl (λ acc e, if decide (range_start e ≤ n) then Some e.2 else acc) None l.

Lemma in_force_snoc l e n : in_force (l ++ [e]) n = if decide (range_start e ≤ n) then Some e.2 else in_force l n.
Proof. unfold in_force. by rewrite foldl_app. Qed.

Lemma in_force_app l l' n : Forall (λ e, n < range_start e) l' → in_force (l ++ l') n = in_force l n.
Proof.
  intros Hl. induction l' as [|e l' IH] using rev_ind; [by rewrite app_nil_r|]. apply Forall_app in Hl as [Hl He].
  inversion He. rewrite (assoc_L (++)), in_force_snoc, decide_False by lia. auto.
Qed.

Lemma in_force_decides l n k : StronglySorted before l → (∀ e, e ∈ l → entry_ok e) → in_force l n = Some k →
  ∃ e, decides l n e ∧ e.2 = k.
Proof.
  induction l as [|e l IH] using rev_ind; intros Hs Hok; [done|]. rewrite in_force_snoc.
  apply StronglySorted_app in Hs as (Hx & Hs & _). case_decide as He.
  - intros [= <-]. exists e. split; [|done]. split; [set_solver|]. split; [done|].
    intros e' [Hin| ->%list_elem_of_singleton]%elem_of_app _; [|done].
    specialize (Hx e' e Hin ltac:(by left)). destruct (Hok e'); [set_solver|]. unfold before in Hx. lia.
  - intros (e' & (Hin & Hst & Hmax) & Hk)%IH; [|done|set_solver]. exists e'. split; [|done]. split; [set_solver|]. split; [done|].
    intros e2 [?| ->%list_elem_of_singleton]%elem_of_app ?; [auto|lia].
Qed.

(** The state of the loop after the ranges [pre]: the table is filled below [next]. *)
Record filled (max k : Z) (pre : DynamicSDSchedule) (dense : list Z) (next : Z) (p : option Z) : Prop := {
  fl_len : len dense = max + 1;
  fl_next : 1 ≤ next;
  fl_last n : next ≤ n ≤ max → in_force pre n = p;
  fl_at n : 1 ≤ n < next → n ≤ max → ∃ v, in_force pre n = Some v ∧ dense !! Z.to_nat n = Some (Z.min k v)
}.

(** Carrying the last number forward up to [a]. *)
Lemma filled_carry max k pre dense next p a : filled max k pre dense next (Some p) → next ≤ a →
  ∃ d, fill dense (range next (Z.min a (max + 1))) (Z.min k p) = Ok d ∧ filled max k pre d a (Some p).
Proof.
  intros [Hlen Hnext Hlast Hat] Ha.
  destruct (fill_spec dense next (Z.min a (max + 1)) (Z.min k p)) as (d & Hd & Hl & Hv); [lia|lia|].
  exists d. split; [done|]. split; [lia|lia|intros n Hn; apply Hlast; lia|].
  intros n Hn Hmax. rewrite Hv by lia. destruct (decide (next ≤ n < Z.min a (max + 1)));
    [exists p; split; [apply Hlast; lia|done]|apply Hat; lia].
Qed.

Lemma filled_gap max k pre dense next p a : filled max k pre dense next p → next ≤ a → (p = None → a ≤ next) →
  ∃ d, fill_gap max k a dense next p = Ok d ∧ filled max k pre d a p.
Proof.
  intros Hfl Ha Hfirst. unfold fill_gap. destruct (decide (a > next)) as [Hgt|].
  - destruct p as [p|]; [by apply filled_carry|]. specialize (Hfirst eq_refl). lia.
  - exists dense. replace a with next by lia. by destruct p.
Qed.

(** The range of an entry that starts at [next]. *)
Lemma filled_range max k pre dense p e : entry_ok e → filled max k pre dense (range_start e) p →
  ∃ d, fill dense (range (range_start e) (Z.min (range_end e) max + 1)) (Z.min k e.2) = Ok d ∧
    filled max k (pre ++ [e]) d (range_end e + 1) (Some e.2).
Proof.
  intros [He _] [Hlen Hnext Hlast Hat].
  destruct (fill_spec dense (range_start e) (Z.min (range_end e) max + 1) (Z.min k e.2)) as (d & Hd & Hl & Hv); [lia|lia|].
  exists d. split; [done|]. split; [lia|lia|intros n Hn; rewrite in_force_snoc, decide_True by lia; done|].
  intros n Hn Hmax. rewrite in_force_snoc, Hv by lia. destruct (decide (range_start e ≤ n)).
  - exists e.2. split; [done|]. by rewrite decide_True by lia.
  - rewrite decide_False by lia. apply Hat; lia.
Qed.

Lemma filled_more max k pre post dense next p : filled max k pre dense next p → Forall (λ e, max < range_start e) post →
  filled max k (pre ++ post) dense next p.
Proof.
  intros [Hlen Hnext Hlast Hat] Hpost.
  assert (∀ n, n ≤ max → in_force (pre ++ post) n = in_force pre n) as Hf.
  { intros n Hn. apply in_force_app. eapply Forall_impl; [exact Hpost|]. simpl. lia. }
  split; [done|done|intros n Hn; rewrite Hf by lia; auto|intros n Hn Hm; rewrite Hf by lia; auto].
Qed.

Lemma fill_ranges_cons max k e l dense next p : fill_ranges max k (e :: l) dense next p =
  (dense ← fill_gap max k (range_start e) dense next p;
   dense ← fill dense (range (Z.max (range_start e) next) (Z.min (range_end e) max + 1)) (Z.min k e.2);
   let next := Z.max next (range_end e + 1) in
   if decide (next > max) then Ok (dense, next, Some e.2) else fill_ranges max k l dense next (Some e.2)).
Proof. by destruct e as [[a b] v]. Qed.

(** An entry of the loop: the gap before it, and its range.  The first one leaves no gap. *)
Lemma fill_ranges_spec max k pre l dense next p :
  filled max k pre dense next p → StronglySorted before l → Forall (λ e, next ≤ range_start e ∧ entry_ok e) l → next ≤ max + 1 →
  (p = None → ∃ e l', l = e :: l' ∧ range_start e ≤ next) →
  ∃ d next' p', fill_ranges max k l dense next p = Ok (d, next', Some p') ∧ filled max k (pre ++ l) d next' (Some p').
Proof.
  revert pre dense next p. induction l as [|e l IH]; intros pre dense next p Hfl Hs Hall Hle Hfirst.
  { destruct p as [p|]; [|by destruct Hfirst as (? & ? & ? & _)]. exists dense, next, p. by rewrite app_nil_r. }
  apply StronglySorted_inv in Hs as [Hs Hbefore]. apply Forall_cons in Hall as [[Hst He] Hall].
  rewrite fill_ranges_cons. destruct (filled_gap max k pre dense next p (range_start e)) as (d & Hd & Hfl');
    [done|done|by intros Hp; destruct (Hfirst Hp) as (? & ? & [= <- <-] & ?)|].
  rewrite Hd. simpl. rewrite (Z.max_l (range_start e) next) by done. destruct (filled_range max k pre d p e He Hfl') as (d' & Hd' & Hfl2).
  rewrite Hd'. simpl. rewrite (Z.max_r next (range_end e + 1)) by (destruct He; lia). case_decide as Hend.
  - exists d', (range_end e + 1), e.2. split; [done|]. rewrite cons_middle, (assoc_L (++)). apply filled_more; [done|].
    eapply Forall_impl; [exact Hbefore|]. unfold before. lia.
  - rewrite cons_middle, (assoc_L (++)). apply IH; [done|done| |lia|done].
    rewrite Forall_forall in Hall, Hbefore |- *. intros e' Hin. destruct (Hall e' Hin). split; [|done].
    specialize (Hbefore e' Hin). unfold before in Hbefore. lia.
Qed.

(** The whole table. *)
Lemma table_spec max k l : 0 < max → StronglySorted before l → (∀ e, e ∈ l → entry_ok e) →
  (∃ e l', l = e :: l' ∧ range_start e = 1) →
  ∃ dense next p d, fill_ranges max k l (replicate (Z.to_nat (max + 1)) 0) 1 None = Ok (dense, next, Some p) ∧
    fill dense (range next (max + 1)) (Z.min k p) = Ok d ∧ len d = max + 1 ∧
    ∀ n, 1 ≤ n ≤ max → ∃ e, decides l n e ∧ index d n = Ok (Z.min k e.2).
Proof.
  intros Hmax Hs Hok Hfirst. destruct (fill_ranges_spec max k [] l (replicate (Z.to_nat (max + 1)) 0) 1 None)
    as (dense & next & p & Hrun & Hfl).
  - split; [unfold len; rewrite length_replicate; lia|lia|done|lia].
  - done.
  - apply Forall_forall. intros e He. destruct (Hok e He) as [? ?]. split; [lia|done].
  - lia.
  - intros _. destruct Hfirst as (e & l' & -> & He). exists e, l'. split; [done|lia].
  - destruct (filled_carry max k l dense next p (Z.max next (max + 1)) Hfl ltac:(lia)) as (d & Hd & [Hlen _ _ Hat]).
    rewrite Z.min_r in Hd by lia. exists dense, next, p, d. split; [done|]. split; [done|]. split; [done|].
    intros n Hn. destruct (Hat n) as (v & Hf & Hv); [lia|lia|].
    destruct (in_force_decides l n v Hs Hok Hf) as (e & He & <-). exists e. split; [done|].
    unfold index. rewrite (decide_False (P := n < 0)), decide_True by lia. by rewrite Hv.
Qed.

Lemma decides_perm l l' n e : l ≡ₚ l' → decides l n e → decides l' n e.
Proof. intros Hp (Hin & Hst & Hmax). split; [by rewrite <-Hp|]. split; [done|]. intros e'. rewrite <-Hp. auto. Qed.

(** The table of an accepted schedule. *)
Lemma build_ok entries max k d : build_dynamic_sd_schedule_lookup (Some entries) max k = Ok d →
  0 < max ∧ 0 < k ∧ ∃ l, entries = entry_list <$> l ∧ valid_schedule l ∧ len d = max + 1 ∧
    ∀ n, 1 ≤ n ≤ max → ∃ e, decides l n e ∧ index d n = Ok (Z.min k e.2).
Proof.
  unfold build_dynamic_sd_schedule_lookup. destruct (decide (max ≤ 0)); [done|]. destruct (decide (k ≤ 0)); [done|].
  pose proof (validate_spec entries) as Hv. destruct (validate_and_normalize_dynamic_sd_schedule (Some entries)) as [l|]; [|done].
  destruct Hv as (Hs & Hfirst & l0 & -> & Hp & Hl0).
  destruct (table_spec max k l) as (dense & next & p & d' & Hr & Hd & Hlen & Hat); [lia|done|intros e; rewrite Hp; apply Hl0|done|].
  simpl. rewrite Hr. simpl. rewrite Hd. intros [= <-]. split; [lia|]. split; [lia|]. exists l0. split; [done|]. split; [done|].
  split; [done|]. intros m Hm. destruct (Hat m Hm) as (e & He & Hi). exists e. split; [by eapply decides_perm|done].
Qed.

(** C20: the table of draft tokens.  A schedule is accepted exactly when its ranges are well formed
    and do not overlap, one of them starts at 1, and the two limits are positive; everything else
    is a [ValueError].  The table of an accepted schedule has an entry for every batch size up to
    the maximum: the number of the range with the greatest start up to that size, so that gaps and
    the sizes after the last range keep the previous number, capped by the number of speculative
    tokens. *)
Theorem dynamic_lookup_exact entries max k :
  match build_dynamic_sd_schedule_lookup (Some entries) max k with
  | Ok d => 0 < max ∧ 0 < k ∧ ∃ l, entries = entry_list <$> l ∧ valid_schedule l ∧ len d = max + 1 ∧
      ∀ n, 1 ≤ n ≤ max → ∃ e, decides l n e ∧ index d n = Ok (Z.min k e.2)
  | Raise x => x = ValueError ∧ ¬ (0 < max ∧ 0 < k ∧ ∃ l, entries = entry_list <$> l ∧ valid_schedule l)
  end.
Proof.
  destruct (build_dynamic_sd_schedule_lookup (Some entries) max k) as [d|x] eqn:Hb; [by apply build_ok|].
  unfold build_dynamic_sd_schedule_lookup in Hb. destruct (decide (max ≤ 0)); [simplify_eq; split; [done|lia]|].
  destruct (decide (k ≤ 0)); [simplify_eq; split; [done|lia]|]. pose proof (validate_spec entries) as Hv.
  destruct (validate_and_normalize_dynamic_sd_schedule (Some entries)) as [l|x']; simpl in Hb.
  - exfalso. destruct Hv as (Hs & Hfirst & l0 & -> & Hp & Hl0).
    destruct (table_spec max k l) as (dense & next & p & d & Hr & Hd & _); [lia|done|intros e; rewrite Hp; apply Hl0|done|].
    rewrite Hr in Hb. simpl in Hb. by rewrite Hd in Hb.
  - destruct Hv as [-> Hv]. simplify_eq. split; [done|]. intros (_ & _ & l & He & Hl). by apply (Hv l).
Qed.
