(* ===== verification/Scheduler.v ===== *)
(** * The scheduler (src/vllm/v1/core/sched/scheduler.py)

    The state of the scheduler, its interfaces to the KV cache manager, the encoder cache
    manager and the connectors, and its operations outside of a scheduling step: queueing,
    preemption, finishing, deferred release of blocks, token updates, resets.  Definitions only;
    [ScheduleStep] has [schedule] and [SchedOutput] has [update_from_output].

    Requests are shared objects: the queues and sets of the scheduler hold references (the
    identity of the object), and [objects] is the store that every access reads.  Events,
    statistics, log output and routed experts are left out. *)

From S2P Require Import Prelude FreeQueue Request Hashing Session BlockPool RequestQueue SchedUtils EncoderCache EncoderSched.
From S2P Require Import SingleType Coordinator Manager.

(** ** Interfaces *)

(** The digests that the hasher memoises on a request; the only attribute of a request that the
    KV cache manager writes. *)
Abbreviation memo := (gmap (Z * Z) bytes).

(** A block with its pool. *)
Abbreviation block_ref := (nat * nat)%type.

(** What the scheduler calls on the KV cache manager. *)
Class KVManager (K : Type) := {
  kv_get_computed_blocks : Request → M K (KVCacheBlocks * Z * Z * memo);
  kv_get_computed_blocks_for_connector : Request → M K (KVCacheBlocks * Z * Z * bool * memo);
  kv_truncate_computed_blocks : KVCacheBlocks → Z → M K KVCacheBlocks;
  kv_allocate_slots : Request → Z → Z → option KVCacheBlocks → Z → Z → bool → Z → bool → Z → bool →
    M K (option KVCacheBlocks * memo);
  kv_cache_blocks : Request → Z → M K memo;
  kv_record_prefix_cache_stats : Request → Z → M K unit;
  kv_get_blocks : K → string → KVCacheBlocks;
  kv_get_block_ids : K → KVCacheBlocks → list (list nat);
  kv_get_block_ids_for_computed_tokens : K → string → Z → list (list nat);
  (* [coordinator.get_num_blocks_to_allocate] of a request that has all its tokens so far *)
  kv_num_blocks_to_allocate : K → string → Z → Z → res Z;
  kv_remove_skipped_blocks : string → Z → option Z → M K unit;
  kv_free : Request → M K unit;
  kv_pop_blocks_for_free : Request → M K (list block_ref);
  kv_pool_free_blocks : list block_ref → M K unit;
  kv_take_block_copies : M K (list (nat * (nat * nat)) * list block_ref);
  kv_take_new_block_ids : M K (list block_ref);
  kv_get_zeroing_block_ids_in_range : string → Z → Z → M K (list block_ref);
  kv_record_blocks_for_zeroing : string → Z → M K unit;
  kv_get_num_common_prefix_blocks : string → M K (list Z);
  kv_evict_blocks : gset Z → M K unit;
  kv_take_events : M K unit;
  kv_reset_prefix_cache : M K bool
}.

(** What a step sends to the workers (src/vllm/v1/core/sched/output.py).  The parameters that a
    new request only carries along are left out. *)
Record NewRequestData := mkNewRequestData {
  nr_req_id : string;
  nr_prompt_token_ids : option (list Z);
  nr_block_ids : list (list nat);
  nr_num_computed_tokens : Z;
  nr_prefill_token_ids : option (list Z)
}.

Record CachedRequestData := mkCachedRequestData {
  cr_req_ids : list string;
  cr_resumed_req_ids : gset string;
  cr_new_token_ids : list (list Z);
  cr_all_token_ids : list (string * list Z);
  cr_new_block_ids : list (option (list (list nat)));
  cr_num_computed_tokens : list Z;
  cr_num_output_tokens : list Z
}.
#[global] Instance CachedRequestData_eta : Eta CachedRequestData := λ c,
  mkCachedRequestData (cr_req_ids c) (cr_resumed_req_ids c) (cr_new_token_ids c) (cr_all_token_ids c)
    (cr_new_block_ids c) (cr_num_computed_tokens c) (cr_num_output_tokens c).

Record SchedulerOutput := mkSchedulerOutput {
  so_new_reqs : list NewRequestData;
  so_cached_reqs : CachedRequestData;
  so_num_scheduled_tokens : list (string * Z);
  total_num_scheduled_tokens : Z;
  so_spec_decode_tokens : list (string * list Z);
  so_encoder_inputs : list (string * list Z);
  num_common_prefix_blocks : list Z;
  so_preempted_req_ids : gset string;
  so_finished_req_ids : gset string;
  free_encoder_mm_hashes : list string;
  new_block_ids_to_zero : option (list block_ref);
  so_has_sync_kv_loads : bool;
  kv_cache_block_copies : list (nat * (nat * nat));
  num_spec_tokens_to_schedule : Z;
  has_structured_output_requests : bool;
  pending_structured_output_tokens : bool
}.
#[global] Instance SchedulerOutput_eta : Eta SchedulerOutput := λ o,
  mkSchedulerOutput (so_new_reqs o) (so_cached_reqs o) (so_num_scheduled_tokens o)
    (total_num_scheduled_tokens o) (so_spec_decode_tokens o) (so_encoder_inputs o)
    (num_common_prefix_blocks o) (so_preempted_req_ids o) (so_finished_req_ids o)
    (free_encoder_mm_hashes o) (new_block_ids_to_zero o) (so_has_sync_kv_loads o)
    (kv_cache_block_copies o) (num_spec_tokens_to_schedule o) (has_structured_output_requests o)
    (pending_structured_output_tokens o).

(** The KV connector (src/vllm/distributed/kv_transfer/kv_connector/v1/base.py): code of many
    vendors.  Its hooks return. *)
Class KVConnector (N : Type) := {
  conn_supports_divergent_local_hybrid_hits : N → bool;
  conn_get_num_new_matched_tokens : Request → Z → N → (option Z * bool) * N;
  conn_update_state_after_alloc : Request → KVCacheBlocks → Z → N → N;
  (* [request_finished], or [request_finished_all_groups] of a connector that supports several
     groups: whether the blocks must stay *)
  conn_supports_hma : N → bool;
  conn_request_finished : Request → list (list nat) → N → bool * N;
  conn_on_new_request : Request → N → N;
  (* [reset_cache() is not False] *)
  conn_reset_cache : N → bool * N;
  conn_update_output : gset string → gset string → N → N;
  conn_build_connector_meta : SchedulerOutput → N → N;
  conn_has_pending_push_work : N → bool
}.

(** The encoder-cache connector. *)
Class ECConnector (X : Type) := {
  ec_has_cache_item : X → string → bool;
  ec_ensure_cache_available : Request → Z → X → bool * X;
  ec_update_state_after_alloc : Request → Z → X → X;
  ec_request_finished : Request → X → bool * X;
  ec_build_connector_meta : SchedulerOutput → X → X;
  ec_has_pending_push_work : X → bool
}.

(** ** Configuration and state *)

Inductive PauseState := UNPAUSED | PAUSED_NEW | PAUSED_ALL.
#[global] Instance PauseState_eq_dec : EqDecision PauseState.
Proof. solve_decision. Defined.

#[global] Instance SchedulingPolicy_eq_dec : EqDecision SchedulingPolicy.
Proof. solve_decision. Defined.

(** What [__init__] takes from the configuration. *)
Record SchedulerConfig := mkSchedulerConfig {
  policy : SchedulingPolicy;
  max_num_running_reqs : Z;
  max_num_scheduled_tokens : Z;
  max_num_batched_tokens : Z;
  sc_max_model_len : Z;
  num_sampled_tokens_per_step : Z;
  long_prefill_token_threshold : Z;
  enable_chunked_prefill : bool;
  (* [max_num_new_slots_for_drafting], 0 without speculative decoding *)
  draft_slots : Z;
  num_spec_tokens : Z;
  dynamic_sd_lookup : option (list Z);
  num_lookahead_tokens : Z;
  num_prefill_lookahead : Z;
  use_eagle : bool;
  sc_block_size : Z;
  cache_config_block_size : Z;
  sc_hash_block_size : Z;
  need_mamba_block_aligned_split : bool;
  mamba_has_prefill_checkpoint_blocks : bool;
  mamba_partial_cache_hit : bool;
  sc_is_encoder_decoder : bool;
  sc_disable_chunked_mm_input : bool;
  is_mm_encoder_only : bool;
  max_num_encoder_input_tokens : Z;
  (* [lora_config.max_loras] *)
  max_loras : option Z;
  scheduler_reserve_full_isl : bool;
  defer_block_free : bool;
  requires_kv_delivery : bool;
  recompute_kv_load_failures : bool;
  needs_kv_cache_zeroing : bool;
  use_v2_model_runner : bool;
  sc_num_kv_cache_groups : nat;
  (* the class is [AsyncScheduler] (async_scheduler.py) *)
  async_scheduling : bool;
  pp_size : Z
}.

(** [structured_output_request.grammar]: not there yet, a compilation error, or ready. *)
Inductive Grammar := GrammarPending | GrammarFailed | GrammarReady.
#[global] Instance Grammar_eq_dec : EqDecision Grammar.
Proof. solve_decision. Defined.

Record Scheduler {K E N X : Type} := mkScheduler {
  objects : gmap Z Request;
  (* attributes of the objects: [streaming_queue], [structured_output_request.grammar], and
     whether [prefill_stats] is set *)
  streaming_queues : gmap Z (list (option StreamingUpdate));
  grammars : gmap Z Grammar;
  prefill_stats : gset Z;
  sched_requests : list (string * Z);
  waiting : list Z;
  skipped_waiting : list Z;
  running : list Z;
  finished_req_ids : gset string;
  finished_req_ids_dict : option (gmap Z (gset string));
  reset_preempted_req_ids : gset string;
  prev_step_scheduled_req_ids : gset string;
  num_waiting_for_streaming_input : Z;
  finished_recving_kv_req_ids : gset string;
  failed_recving_kv_req_ids : gset string;
  grammar_compile_error_reqs : gset string;
  _inflight_prefills : gset Z;
  _skip_zero_block_ids : gset block_ref;
  sched_step_seq : Z;
  processed_step_seq : Z;
  current_step : Z;
  deferred_frees : list (Z * list block_ref);
  _pause_state : PauseState;
  prefill_capacity_bound : bool;
  kv_cache_manager : K;
  encoder_cache_manager : E;
  connector : option N;
  ec_connector : option X
}.
Arguments Scheduler : clear implicits.
#[global] Instance Scheduler_eta K E N X : Eta (Scheduler K E N X) := λ s,
  mkScheduler K E N X (objects s) (streaming_queues s) (grammars s) (prefill_stats s) (sched_requests s)
    (waiting s) (skipped_waiting s) (running s) (finished_req_ids s) (finished_req_ids_dict s)
    (reset_preempted_req_ids s) (prev_step_scheduled_req_ids s) (num_waiting_for_streaming_input s)
    (finished_recving_kv_req_ids s) (failed_recving_kv_req_ids s) (grammar_compile_error_reqs s)
    (_inflight_prefills s) (_skip_zero_block_ids s) (sched_step_seq s) (processed_step_seq s)
    (current_step s) (deferred_frees s) (_pause_state s) (prefill_capacity_bound s)
    (kv_cache_manager s) (encoder_cache_manager s) (connector s) (ec_connector s).

(** [__init__], after the managers are constructed. *)
Definition new_Scheduler {K E N X} (include_finished_set : bool) (kv : K) (enc : E)
    (conn : option N) (ec : option X) : Scheduler K E N X :=
  mkScheduler K E N X ∅ ∅ ∅ ∅ [] [] [] [] ∅ (if include_finished_set then Some ∅ else None) ∅ ∅ 0
    ∅ ∅ ∅ ∅ ∅ 0 0 0 [] UNPAUSED false kv enc conn ec.

(** ** Queues of references

    A queue of the scheduler is the deque or heap of [RequestQueue], whose entries are
    references: each operation works on the requests as they are now. *)

Definition q_view (objs : gmap Z Request) (q : list Z) : list Request := (λ o, objs !!! o) <$> q.

Section queues.
Variable p : SchedulingPolicy.
Variable objs : gmap Z Request.

Definition lift_queue (op : ∀ {Q} `{!RequestQueue Q}, Q → Q) (q : list Z) : list Z :=
  match p with
  | FCFS => object_id <$> fcfs_items (op (mkFCFS (q_view objs q)))
  | PRIORITY => object_id <$> _heap (op (mkPriority (q_view objs q)))
  end.

Definition q_add (q : list Z) (o : Z) : list Z := lift_queue (λ _ _ q, add_request q (objs !!! o)) q.
Definition q_prepend (q : list Z) (o : Z) : list Z :=
  lift_queue (λ _ _ q, prepend_request q (objs !!! o)) q.
(** [remove_requests] *)
Definition q_removes (q : list Z) (os : list Z) : list Z :=
  lift_queue (λ _ _ q, remove_requests q (q_view objs os)) q.

Definition q_peek (q : list Z) : res Z :=
  match p with
  | FCFS => r ← peek_request (mkFCFS (q_view objs q)); Ok (object_id r)
  | PRIORITY => r ← peek_request (mkPriority (q_view objs q)); Ok (object_id r)
  end.
Definition q_pop (q : list Z) : res (Z * list Z) :=
  match p with
  | FCFS => '(r, q') ← pop_request (mkFCFS (q_view objs q)); Ok (object_id r, object_id <$> fcfs_items q')
  | PRIORITY => '(r, q') ← pop_request (mkPriority (q_view objs q)); Ok (object_id r, object_id <$> _heap q')
  end.
(** [iter(queue)] *)
Definition q_iter (q : list Z) : list Z :=
  match p with
  | FCFS => object_id <$> queue_iter (mkFCFS (q_view objs q))
  | PRIORITY => object_id <$> queue_iter (mkPriority (q_view objs q))
  end.
(** [prepend_requests]: the argument is iterated in its order. *)
Definition q_prepends (q other : list Z) : list Z :=
  lift_queue (λ _ _ q, prepend_requests q (q_view objs (q_iter other))) q.
End queues.

(** ** Operations *)

Section operations.
Context {K E N X : Type}.
Context `{!KVManager K} `{!EncoderManager E} `{!KVConnector N} `{!ECConnector X} `{!SetIter}.
Variable cfg : SchedulerConfig.
(** [Request._block_hasher], the same for all requests. *)
Variable hasher : option block_hasher.

Abbreviation Sched := (Scheduler K E N X).
Abbreviation MS := (M Sched).

(** *** Access to the parts *)

Definition on_kv {A} (op : M K A) : MS A := λ s,
  match op (kv_cache_manager s) with
  | Ok (a, k) => Ok (a, s <| kv_cache_manager := k |>)
  | Raise e => Raise e
  end.
Definition on_encoder {A} (op : M E A) : MS A := λ s,
  match op (encoder_cache_manager s) with
  | Ok (a, m) => Ok (a, s <| encoder_cache_manager := m |>)
  | Raise e => Raise e
  end.
(** A hook of the connector, when there is one; [a] otherwise. *)
Definition on_connector {A} (a : A) (op : N → A * N) : MS A := λ s,
  match connector s with
  | None => Ok (a, s)
  | Some n => let '(a, n) := op n in Ok (a, s <| connector := Some n |>)
  end.
Definition on_ec_connector {A} (a : A) (op : X → A * X) : MS A := λ s,
  match ec_connector s with
  | None => Ok (a, s)
  | Some x => let '(a, x) := op x in Ok (a, s <| ec_connector := Some x |>)
  end.

Definition deref (o : Z) : MS Request := gets (λ s, objects s !!! o).
Definition set_object (o : Z) (r : Request) : MS unit := modify (λ s, s <| objects ::= <[o := r]> |>).
Definition update_object (o : Z) (f : Request → Request) : MS unit :=
  modify (λ s, s <| objects ::= λ objs, <[o := f (objs !!! o)]> objs |>).
Definition set_memo (o : Z) (m : memo) : MS unit :=
  update_object o (λ r, r <| prompt_embeds_per_block_hashes := m |>).

(** [self.requests.get(req_id)] *)
Definition get_request (req_id : string) : MS (option Z) := gets (λ s, dict_get (sched_requests s) req_id).

Definition add_to (queue : Sched → list Z) `{!Setter queue} (o : Z) : MS unit :=
  modify (λ s, s <| queue ::= λ q, q_add (policy cfg) (objects s) q o |>).

(** *** Chunks of a prefill *)

(** The earliest mandatory stop strictly inside the chunk. *)
Definition earliest_stop (start stop : Z) (stops : list Z) : Z :=
  match filter (λ p, start < p < stop) stops with
  | [] => stop
  | p :: ps => foldl Z.min p ps
  end.

Definition _mamba_block_aligned_split (request : Request) (num_new_tokens
    num_new_local_computed_tokens num_external_computed_tokens : Z) : Z :=
  let start := num_computed_tokens request + num_new_local_computed_tokens + num_external_computed_tokens in
  let prefill_end := Z.max (num_prompt_tokens request) (num_tokens request - 1) in
  if decide (prefill_end ≤ start) then num_new_tokens else
  let block_size := cache_config_block_size cfg in
  let last_cache_position := num_tokens request - num_tokens request mod block_size in
  let last_cache_position :=
    if use_eagle cfg then Z.max (last_cache_position - block_size) 0 else last_cache_position in
  let stop := start + num_new_tokens in
  let use_internal_checkpoint :=
    mamba_has_prefill_checkpoint_blocks cfg && bool_decide (start mod block_size = 0) in
  let last_cache_position := if use_internal_checkpoint then 0 else last_cache_position in
  let stop :=
    if decide (stop < prefill_end ∧ use_internal_checkpoint = false) then
      let max_prefill_tokens :=
        if decide (long_prefill_token_threshold cfg > 0)
        then Z.min (max_num_scheduled_tokens cfg) (long_prefill_token_threshold cfg)
        else max_num_scheduled_tokens cfg in
      let aligned_end := stop // block_size * block_size in
      if decide (aligned_end > start ∨ block_size ≤ max_prefill_tokens) then aligned_end else stop
    else stop in
  let next_block_boundary := (start // block_size + 1) * block_size in
  let tail_boundary :=
    if mamba_partial_cache_hit cfg
    then num_prompt_tokens request // sc_hash_block_size cfg * sc_hash_block_size cfg else 0 in
  let stops := [
    (if decide (start mod block_size ≠ 0) then next_block_boundary else 0);
    last_cache_position;
    (if decide (last_cache_position < tail_boundary < num_prompt_tokens request) then tail_boundary else 0);
    (if decide (start < shared_prefix_boundary request < stop)
     then start + (shared_prefix_boundary request - start) // block_size * block_size else 0)] in
  Z.max (earliest_stop start stop stops - start) 0.

Definition _reserve_prefill_lookahead (request : Request) (num_computed_tokens num_new_tokens : Z) : Z :=
  let remaining := num_tokens request - num_computed_tokens - num_new_tokens in
  let num_new_tokens :=
    if decide (0 < remaining < num_prefill_lookahead cfg)
    then num_new_tokens - (num_prefill_lookahead cfg - remaining) else num_new_tokens in
  Z.max num_new_tokens 0.

(** *** Waiting requests *)

Definition _is_blocked_waiting_status (st : RequestStatus) : bool :=
  match st with
  | WAITING_FOR_STRUCTURED_OUTPUT_GRAMMAR | WAITING_FOR_REMOTE_KVS | WAITING_FOR_STREAMING_REQ => true
  | _ => false
  end.

Definition _enqueue_waiting_request (o : Z) : MS unit :=
  r ← deref o;
  if _is_blocked_waiting_status (status r) then add_to skipped_waiting o else add_to waiting o.

(** Which of the two queues is next: [Some true] for [skipped_waiting], [Some false] for
    [waiting]. *)
Definition _select_waiting_queue_for_scheduling : MS (option bool) :=
  s ← gets (λ s, s);
  match policy cfg with
  | FCFS =>
      if decide (skipped_waiting s ≠ []) then mret (Some true)
      else if decide (waiting s ≠ []) then mret (Some false) else mret None
  | PRIORITY =>
      if decide (waiting s ≠ [] ∧ skipped_waiting s ≠ []) then
        waiting_req ← lift_res (q_peek (policy cfg) (objects s) (waiting s));
        skipped_req ← lift_res (q_peek (policy cfg) (objects s) (skipped_waiting s));
        mret (Some (negb (request_ltb (objects s !!! waiting_req) (objects s !!! skipped_req))))
      else if decide (waiting s ≠ []) then mret (Some false)
      else if decide (skipped_waiting s ≠ []) then mret (Some true) else mret None
  end.

(** [_update_request_as_session] on the shared session *)
Definition update_session (o : Z) (update : StreamingUpdate) : MS unit :=
  s ← gets (λ s, s);
  '(r, n) ← lift_res (_update_request_as_session hasher (num_waiting_for_streaming_input s) (objects s !!! o) update);
  set_object o r;;
  modify (λ s, s <| num_waiting_for_streaming_input := n |>).

(** Whether the request is finished. *)
Definition _handle_stopped_request (o : Z) : MS bool :=
  r ← deref o;
  if negb (resumable r) then mret true else
  queue ← gets (λ s, default [] (streaming_queues s !! o));
  match queue with
  | update :: queue =>
      modify (λ s, s <| streaming_queues ::= <[o := queue]> |>);;
      match update with
      | None => mret true
      | Some update => update_session o update;; _enqueue_waiting_request o;; mret false
      end
  | [] =>
      update_object o (λ r, r <| status := WAITING_FOR_STREAMING_REQ |>);;
      modify (λ s, s <| num_waiting_for_streaming_input ::= Z.add 1 |>);;
      _enqueue_waiting_request o;; mret false
  end.

(** *** Releasing blocks *)

Definition _free_request_blocks (o : Z) : MS unit :=
  s ← gets (λ s, s);
  let request := objects s !!! o in
  if decide (defer_block_free cfg = false ∨ last_sched_seq request ≤ processed_step_seq s) then
    on_kv (kv_free request)
  else
    blocks ← on_kv (kv_pop_blocks_for_free request);
    if decide (blocks = []) then mret tt
    else modify (λ s, s <| deferred_frees ::= (.++ [(sched_step_seq s, blocks)]) |>).

Definition _free_cow_retained_blocks (blocks : list block_ref) (fence_seq : Z) : MS unit :=
  s ← gets (λ s, s);
  if decide (defer_block_free cfg = false ∨ fence_seq ≤ processed_step_seq s) then
    on_kv (kv_pool_free_blocks blocks)
  else modify (λ s, s <| deferred_frees ::= (.++ [(fence_seq, reverse blocks)]) |>).

(** One step per entry of [deferred_frees]. *)
Fixpoint drain_loop (entries : list (Z * list block_ref)) : MS unit :=
  match entries with
  | [] => mret tt
  | (fence, blocks) :: entries =>
      seq ← gets processed_step_seq;
      if decide (fence > seq) then mret tt
      else
        modify (λ s, s <| deferred_frees := entries |>);;
        on_kv (kv_pool_free_blocks (reverse blocks));;
        drain_loop entries
  end.
Definition _drain_deferred_frees : MS unit := entries ← gets deferred_frees; drain_loop entries.

Definition _free_blocks (o : Z) : MS unit :=
  r ← deref o;
  assert_ (is_finished r);;
  _free_request_blocks o;;
  present ← get_request (request_id r);
  match present with
  | None => raise KeyError
  | Some _ => modify (λ s, s <| sched_requests ::= λ d, dict_del d (request_id r) |>)
  end.

(** [_connector_finished]: whether the connector keeps the blocks. *)
Definition _connector_finished (o : Z) : MS bool :=
  conn ← gets connector;
  match conn with
  | None => mret false
  | Some n =>
      r ← deref o;
      on_kv (kv_remove_skipped_blocks (request_id r)
        (Z.max 0 (num_computed_tokens r - num_in_flight_tokens r)) (Some (num_prompt_tokens r)));;
      block_ids ← gets (λ s, kv_get_block_ids_for_computed_tokens (kv_cache_manager s) (request_id r)
        (num_computed_tokens r));
      (if conn_supports_hma n then mret tt
       else assert_ (bool_decide (sc_num_kv_cache_groups cfg = 1%nat)));;
      on_connector false (conn_request_finished r block_ids)
  end.

Definition _free_request (o : Z) (delay_free_blocks : bool) : MS unit :=
  r ← deref o;
  assert_ (is_finished r);;
  modify (λ s, s <| _inflight_prefills ::= λ d, d ∖ {[o]} |>);;
  connector_delay ← _connector_finished o;
  ec_delay ← on_ec_connector false (ec_request_finished r);
  on_encoder (EncoderCache.mgr_free r);;
  modify (λ s, s <| finished_req_ids ::= λ d, d ∪ {[request_id r]} |>
                 <| finished_req_ids_dict ::= fmap (λ d,
                      <[client_index r := default ∅ (d !! client_index r) ∪ {[request_id r]}]> d) |>);;
  if negb (delay_free_blocks || (connector_delay || ec_delay)) then _free_blocks o else mret tt.

(** *** Preemption *)

Definition _preempt_request (o : Z) (drop_stale : bool) : MS unit :=
  r ← deref o;
  assert_ (bool_decide (status r = RUNNING));;
  _free_request_blocks o;;
  on_encoder (EncoderCache.mgr_free r);;
  modify (λ s, s <| _inflight_prefills ::= λ d, d ∖ {[o]} |>);;
  update_object o (λ r, r <| status := PREEMPTED |> <| num_computed_tokens := 0 |> <| spec_token_ids := [] |>
    <| drop_stale_output := drop_stale || (drop_stale_output r && bool_decide (num_stale_output_tokens r > 0)) |>
    <| num_stale_output_tokens := num_in_flight_tokens r |> <| num_output_placeholders := 0 |>
    <| num_preemptions ::= Z.add 1 |>);;
  modify (λ s, s <| waiting ::= λ q, q_prepend (policy cfg) (objects s) q o |>);;
  modify (λ s, s <| reset_preempted_req_ids ::= λ d, d ∪ {[request_id r]} |>).

(** *** Finishing and adding requests *)

(** The argument of [finish_requests]: one id, several ids, or all requests. *)
Inductive RequestIds := OneId (req_id : string) | SomeIds (req_ids : gset string) | AllIds.

(** The ids in the order of the loop. *)
Definition request_ids_list (ids : RequestIds) (requests : list (string * Z)) : list string :=
  match ids with
  | OneId req_id => [req_id]
  | SomeIds req_ids => iter_set req_ids
  | AllIds => requests.*1
  end.

(** The first pass: the requests to remove from the queues, and all requests that finish. *)
Definition collect_requests (req_ids : list string) : MS (gset Z * list Z * list Z) :=
  for_acc req_ids (∅, [], []) (λ '(running_remove, waiting_remove, valid) req_id,
    found ← get_request req_id;
    match found with
    | None => mret (running_remove, waiting_remove, valid)
    | Some o =>
        r ← deref o;
        if is_finished r then mret (running_remove, waiting_remove, valid)
        else if decide (status r = RUNNING) then mret (running_remove ∪ {[o]}, waiting_remove, valid ++ [o])
        else
          (if decide (status r = WAITING_FOR_STREAMING_REQ) then
             modify (λ s, s <| num_waiting_for_streaming_input ::= λ n, n - 1 |>)
           else mret tt);;
          mret (running_remove, waiting_remove ++ [o], valid ++ [o])
    end).

Definition remove_from_running (to_remove : gset Z) : MS unit :=
  if decide (to_remove = ∅) then mret tt
  else modify (λ s, s <| running ::= λ l, remove_all l to_remove |>).
Definition remove_from_waiting (to_remove : list Z) : MS unit :=
  if decide (to_remove = []) then mret tt
  else modify (λ s, s <| waiting ::= λ q, q_removes (policy cfg) (objects s) q to_remove |>
                      <| skipped_waiting ::= λ q, q_removes (policy cfg) (objects s) q to_remove |>).

(** The second pass, for one request. *)
Definition finish_request (finished_status : RequestStatus) (o : Z) : MS unit :=
  r ← deref o;
  delay_free_blocks ←
    (if decide (status r = WAITING_FOR_REMOTE_KVS) then
       recvd ← gets (λ s, bool_decide (request_id r ∈ finished_recving_kv_req_ids s));
       modify (λ s, s <| finished_recving_kv_req_ids ::= λ d, d ∖ {[request_id r]} |>
                      <| failed_recving_kv_req_ids ::= λ d, d ∖ {[request_id r]} |>);;
       mret (negb recvd)
     else mret false);
  update_object o (λ r, r <| status := finished_status |>);;
  _free_request o delay_free_blocks.

Definition finish_requests (ids : RequestIds) (finished_status : RequestStatus) : MS (list Z) :=
  assert_ (is_finished_status finished_status);;
  req_ids ← gets (λ s, request_ids_list ids (sched_requests s));
  '(running_remove, waiting_remove, valid_requests) ← collect_requests req_ids;
  remove_from_running running_remove;;
  remove_from_waiting waiting_remove;;
  for_ valid_requests (finish_request finished_status);;
  mret valid_requests.

(** [add_request]; the argument is a new object. *)
Definition sched_add_request (request : Request) : MS unit :=
  found ← get_request (request_id request);
  match found with
  | Some o =>
      let update := from_request request in
      existing ← deref o;
      if decide (status existing ≠ WAITING_FOR_STREAMING_REQ) then
        queue ← gets (λ s, streaming_queues s !! o : option (list (option StreamingUpdate)));
        match queue with
        | None => raise AssertionError
        | Some queue => modify (λ s, s <| streaming_queues ::= <[o := queue ++ [update]]> |>)
        end
      else
        match update with
        | Some update => update_session o update
        | None => _ ← finish_requests (OneId (request_id request)) FINISHED_ABORTED; mret tt
        end
  | None =>
      let o := object_id request in
      set_object o request;;
      modify (λ s, s <| prefill_stats ::= λ d, d ∪ {[o]} |>);;
      (if resumable request then modify (λ s, s <| streaming_queues ::= <[o := []]> |>) else mret tt);;
      _enqueue_waiting_request o;;
      modify (λ s, s <| sched_requests ::= λ d, dict_set d (request_id request) o |>);;
      on_connector tt (λ n, (tt, conn_on_new_request request n))
  end.

(** *** Queries and resets *)

Definition set_pause_state (p : PauseState) : MS unit := modify (λ s, s <| _pause_state := p |>).

Definition get_request_counts (s : Sched) : Z * Z := (len (running s), len (waiting s) + len (skipped_waiting s)).

Definition get_num_unfinished_requests (s : Sched) : Z :=
  match _pause_state s with
  | PAUSED_ALL => 0
  | PAUSED_NEW => len (running s)
  | UNPAUSED =>
      len (waiting s) + len (skipped_waiting s) - num_waiting_for_streaming_input s + len (running s)
  end.

Definition has_finished_requests (s : Sched) : bool :=
  if decide (finished_req_ids s ≠ ∅) then true
  else match connector s with
       | None => false
       | Some _ => bool_decide (len (waiting s) + len (skipped_waiting s) + len (running s) <
                                len (sched_requests s))
       end.

(** [has_unfinished_requests] is [get_num_unfinished_requests() > 0] *)
Definition has_requests (s : Sched) : bool :=
  bool_decide (get_num_unfinished_requests s > 0) || has_finished_requests s ||
  default false (conn_has_pending_push_work <$> connector s) ||
  default false (ec_has_pending_push_work <$> ec_connector s).

(** The loop that preempts the running requests from the end; one step per request. *)
Fixpoint preempt_all (fuel : nat) : MS unit :=
  l ← gets running;
  match last l with
  | None => mret tt
  | Some o =>
      match fuel with
      | O => raise OutOfFuel
      | S fuel =>
          modify (λ s, s <| running ::= λ l, take (length l - 1) l |>);;
          _preempt_request o true;;
          preempt_all fuel
      end
  end.

Definition reset_connector_cache : MS bool := on_connector true conn_reset_cache.

Definition sched_reset_prefix_cache (reset_running_requests reset_connector : bool) : MS bool :=
  (if reset_running_requests then
     l ← gets running;
     preempt_all (length l);;
     modify (λ s, s <| prev_step_scheduled_req_ids := ∅ |>)
   else mret tt);;
  reset_successful ← on_kv kv_reset_prefix_cache;
  if reset_running_requests && negb reset_successful then raise RuntimeError else
  if reset_connector then
    b ← reset_connector_cache; mret (b && reset_successful)
  else mret reset_successful.

Definition reset_encoder_cache : MS unit := on_encoder mgr_reset.

(** *** Sampled and drafted tokens *)

(** The loop of [Scheduler._update_request_with_output]: the tokens that were appended, and
    whether the last of them stopped the request. *)
Fixpoint append_tokens (o : Z) (new_token_ids : list Z) : MS (list Z * bool) :=
  match new_token_ids with
  | [] => mret ([], false)
  | t :: new_token_ids =>
      r ← deref o;
      r ← lift_res (append_output_token_ids hasher r [t]);
      '(stopped, r) ← lift_res (check_stop r (sc_max_model_len cfg));
      set_object o r;;
      if (stopped : bool) then mret ([t], true)
      else '(kept, stopped) ← append_tokens o new_token_ids; mret (t :: kept, stopped)
  end.

(** [_update_request_with_output] of [Scheduler], or of [AsyncScheduler]. *)
Definition _update_request_with_output (o : Z) (new_token_ids : list Z) (is_stale : bool) :
    MS (list Z * bool) :=
  if negb (async_scheduling cfg) then append_tokens o new_token_ids else
  before ← deref o;
  '(new_token_ids, stopped) ← append_tokens o new_token_ids;
  (if negb is_stale then
     update_object o (λ r, r <| num_output_placeholders ::= λ n, n - len new_token_ids |>);;
     r ← deref o;
     assert_ (0 <=? num_output_placeholders r)
   else mret tt);;
  (if decide (status before = RUNNING) then
     r ← deref o;
     m ← on_kv (kv_cache_blocks r (num_computed_tokens r - num_output_placeholders r));
     set_memo o m
   else mret tt);;
  mret (new_token_ids, stopped).

(** [structured_output_manager.should_advance] and the grammar's [validate_tokens] *)
Variable should_advance : Request → option (list Z) → bool.
Variable validate_tokens : Request → list Z → list Z.

(** The argument zips the request ids with their draft tokens. *)
Definition update_draft_token_ids (draft_token_ids : list (string * list Z)) : MS unit :=
  for_ draft_token_ids (λ '(req_id, tokens),
    found ← get_request req_id;
    match found with
    | None => mret tt
    | Some o =>
        r ← deref o;
        if is_finished r then mret tt
        else if is_prefill_chunk r then update_object o (λ r, r <| spec_token_ids := [] |>)
        else
          let tokens := if should_advance r None then validate_tokens r tokens else tokens in
          update_object o (λ r, r <| spec_token_ids := tokens |>)
    end).

(** [update_draft_token_ids_in_output]: the new [scheduled_spec_decode_tokens] and
    [num_invalid_spec_tokens] of the scheduler output. *)
Definition update_draft_token_ids_in_output (draft_token_ids : list (string * list Z))
    (sched_spec_tokens : list (string * list Z)) : MS (list (string * list Z) * list (string * Z)) :=
  for_acc draft_token_ids (sched_spec_tokens, []) (λ '(spec, invalid) '(req_id, tokens),
    found ← get_request req_id;
    match found with
    | None => mret (spec, invalid)
    | Some o =>
        r ← deref o;
        if is_finished r then mret (spec, invalid) else
        match dict_get spec req_id with
        | None | Some [] => mret (spec, invalid)
        | Some placeholder =>
            let tokens := slice_to tokens (len placeholder) in
            let tokens := if should_advance r None then validate_tokens r tokens else tokens in
            let num_invalid := len placeholder - len tokens in
            if decide (num_invalid ≠ 0) then
              mret (dict_set spec req_id (tokens ++ replicate (Z.to_nat num_invalid) (-1)),
                    dict_set invalid req_id num_invalid)
            else mret (dict_set spec req_id tokens, invalid)
        end
    end).
End operations.
