(* ===== verification/ScheduleStep.v ===== *)
(** * A scheduling step (Scheduler.schedule, src/vllm/v1/core/sched/scheduler.py)

    [schedule] gives tokens to the running requests, preempting others when blocks are missing,
    then admits waiting requests, then advances the requests that were scheduled.  Definitions
    only.  The local variables of [schedule] are the record [Batch]. *)

From S2P Require Import Prelude FreeQueue Request Hashing Session BlockPool RequestQueue SchedUtils EncoderCache EncoderSched.
From S2P Require Import SingleType Coordinator Manager Scheduler.

Record Batch := mkBatch {
  scheduled_new_reqs : list Z;
  scheduled_resumed_reqs : list Z;
  scheduled_running_reqs : list Z;
  preempted_reqs : list Z;
  req_to_new_blocks : list (string * KVCacheBlocks);
  num_scheduled_tokens : list (string * Z);
  token_budget : Z;
  input_budget : Z;
  scheduled_encoder_inputs : list (string * list Z);
  encoder_budget : Z; (* [encoder_compute_budget] *)
  scheduled_spec_decode_tokens : list (string * list Z);
  prefill_scheduled : bool;
  scheduled_loras : gset Z;
  has_sync_kv_loads : bool
}.
#[global] Instance Batch_eta : Eta Batch := λ b,
  mkBatch (scheduled_new_reqs b) (scheduled_resumed_reqs b) (scheduled_running_reqs b) (preempted_reqs b)
    (req_to_new_blocks b) (num_scheduled_tokens b) (token_budget b) (input_budget b)
    (scheduled_encoder_inputs b) (encoder_budget b) (scheduled_spec_decode_tokens b)
    (prefill_scheduled b) (scheduled_loras b) (has_sync_kv_loads b).

Section step.
Context {K E N X : Type}.
Context `{!KVManager K} `{!EncoderManager E} `{!KVConnector N} `{!ECConnector X} `{!SetIter}.
Variable cfg : SchedulerConfig.
Abbreviation Sched := (Scheduler K E N X).
Abbreviation MS := (M Sched).

Definition new_batch (s : Sched) : Batch :=
  mkBatch [] [] [] [] [] []
    (if decide (_pause_state s = PAUSED_ALL) then 0 else max_num_scheduled_tokens cfg)
    (max_num_batched_tokens cfg) [] (max_num_encoder_input_tokens cfg) [] false ∅ false.

(** [allocate_slots] on the shared request *)
Definition allocate_slots_for (o : Z) (num_new_tokens num_new_computed_tokens : Z)
    (new_computed_blocks : option KVCacheBlocks) (num_lookahead_tokens num_external_computed_tokens : Z)
    (delay_cache_blocks : bool) (num_encoder_tokens : Z) (full_sequence_must_fit : bool)
    (reserved_blocks : Z) (has_scheduled_reqs : bool) : MS (option KVCacheBlocks) :=
  r ← deref o;
  '(blocks, m) ← on_kv (kv_allocate_slots r num_new_tokens num_new_computed_tokens new_computed_blocks
    num_lookahead_tokens num_external_computed_tokens delay_cache_blocks num_encoder_tokens
    full_sequence_must_fit reserved_blocks has_scheduled_reqs);
  set_memo o m;;
  mret blocks.

(** [_try_schedule_encoder_inputs], when the request has encoder inputs *)
Definition plan_encoder_inputs (r : Request) (num_computed_tokens num_new_tokens encoder_compute_budget : Z) :
    MS EncoderPlan :=
  if has_encoder_inputs r then
    ec ← gets ec_connector;
    on_encoder (_try_schedule_encoder_inputs (sc_is_encoder_decoder cfg) (sc_disable_chunked_mm_input cfg)
      (ec_has_cache_item <$> ec) r num_computed_tokens num_new_tokens encoder_compute_budget
      (num_prefill_lookahead cfg))
  else mret (mkEncoderPlan [] num_new_tokens encoder_compute_budget [] ∅ 0).

(** The encoder part after a request is scheduled. *)
Definition commit_encoder_inputs (o : Z) (p : EncoderPlan) (b : Batch) : MS Batch :=
  r ← deref o;
  let allocate_inputs := λ inputs, for_ inputs (λ i,
    on_encoder (mgr_allocate r i);; on_ec_connector tt (λ x, (tt, ec_update_state_after_alloc r i x))) in
  b ← (if decide (encoder_inputs_to_schedule p ≠ []) then
         allocate_inputs (encoder_inputs_to_schedule p);;
         mret (b <| scheduled_encoder_inputs ::= λ d, dict_set d (request_id r) (encoder_inputs_to_schedule p) |>
                 <| encoder_budget := encoder_compute_budget p |>)
       else mret b);
  allocate_inputs (external_load_encoder_input p);;
  mret b.

(** *** The running requests *)

(** How many tokens a running request gets, before its encoder inputs are considered. *)
Definition running_tokens (r : Request) (b : Batch) : Z :=
  let n := num_tokens_with_spec r + num_output_placeholders r - num_computed_tokens r in
  let n := if decide (0 < long_prefill_token_threshold cfg < n) then long_prefill_token_threshold cfg else n in
  let n := Z.min n (Z.min (token_budget b) (input_budget b - draft_slots cfg)) in
  let n := Z.min n (sc_max_model_len cfg - num_computed_tokens r - num_sampled_tokens_per_step cfg) in
  if need_mamba_block_aligned_split cfg then _mamba_block_aligned_split cfg r n 0 0 else n.

(** [max(self.running, key=lambda r: (r.priority, r.arrival_time))]: the first of the largest. *)
Definition victim_key (objs : gmap Z Request) (o : Z) : Z * Z :=
  (priority (objs !!! o), arrival_time (objs !!! o)).
Definition key_lt (k1 k2 : Z * Z) : bool :=
  (k1.1 <? k2.1) || ((k1.1 =? k2.1) && (k1.2 <? k2.2)).
Definition pick_victim (objs : gmap Z Request) (running : list Z) : res Z :=
  match running with
  | [] => Raise ValueError
  | o :: os => Ok (foldl (λ best o, if key_lt (victim_key objs best) (victim_key objs o) then o else best) o os)
  end.

(** [running.index(o)] *)
Definition index_of (l : list Z) (o : Z) : res Z :=
  match list_find (eq o) l with Some (i, _) => Ok (Z.of_nat i) | None => Raise ValueError end.

(** [d.pop(k)] *)
Definition dict_pop {V} (d : list (string * V)) (k : string) : res (V * list (string * V)) :=
  match dict_get d k with Some v => Ok (v, dict_del d k) | None => Raise KeyError end.

(** Take back what the step gave to a request that is preempted. *)
Definition unschedule (o : Z) (b : Batch) : MS Batch :=
  if decide (o ∈ scheduled_running_reqs b) then
    r ← deref o;
    '(restored, tokens) ← lift_res (dict_pop (num_scheduled_tokens b) (request_id r));
    '(_, blocks) ← lift_res (dict_pop (req_to_new_blocks b) (request_id r));
    let inputs := default [] (dict_get (scheduled_encoder_inputs b) (request_id r)) in
    embeds ← lift_res (mapM (M := res) (get_num_encoder_embeds r) inputs);
    mret (b <| scheduled_running_reqs ::= λ l, remove_first l o |>
            <| num_scheduled_tokens := tokens |>
            <| token_budget ::= Z.add restored |>
            <| input_budget ::= Z.add (restored + draft_slots cfg) |>
            <| req_to_new_blocks := blocks |>
            <| scheduled_spec_decode_tokens ::= λ d, dict_del d (request_id r) |>
            <| scheduled_encoder_inputs ::= λ d, dict_del d (request_id r) |>
            <| encoder_budget ::= Z.add (sumZ embeds) |>)
  else mret b.

(** Remove a victim from [running]; the cursor follows. *)
Definition take_victim (req_index : Z) (b : Batch) : MS (Z * Z * Batch) :=
  s ← gets (λ s, s);
  match policy cfg with
  | PRIORITY =>
      o ← lift_res (pick_victim (objects s) (running s));
      victim_index ← lift_res (index_of (running s) o);
      modify (λ s, s <| running ::= delete (Z.to_nat victim_index) |>);;
      let req_index := if decide (victim_index < req_index) then req_index - 1 else req_index in
      b ← unschedule o b;
      mret (o, req_index, b)
  | FCFS =>
      match last (running s) with
      | None => raise IndexError
      | Some o =>
          modify (λ s, s <| running ::= λ l, take (length l - 1) l |>);;
          mret (o, req_index, b)
      end
  end.

(** The inner loop: allocate slots, and preempt as long as there are none.  Each round removes a
    running request. *)
Fixpoint allocate_or_preempt (fuel : nat) (o : Z) (num_new_tokens req_index : Z) (b : Batch) :
    MS (option KVCacheBlocks * Z * Batch) :=
  match fuel with
  | O => raise OutOfFuel
  | S fuel =>
      new_blocks ← allocate_slots_for o num_new_tokens 0 None (num_lookahead_tokens cfg) 0 false 0 false 0 true;
      match new_blocks with
      | Some blocks => mret (Some blocks, req_index, b)
      | None =>
          '(preempted_req, req_index, b) ← take_victim req_index b;
          _preempt_request cfg preempted_req (requires_kv_delivery cfg);;
          let b := b <| preempted_reqs ::= (.++ [preempted_req]) |> in
          if decide (preempted_req = o) then mret (None, req_index, b)
          else allocate_or_preempt fuel o num_new_tokens req_index b
      end
  end.

(** The draft tokens that a request with [num_new_tokens] computes. *)
Definition commit_spec_tokens (o : Z) (num_new_tokens : Z) (b : Batch) : MS Batch :=
  r ← deref o;
  if decide (spec_token_ids r = []) then mret b else
  let num_scheduled_spec_tokens :=
    num_new_tokens + num_computed_tokens r - num_tokens r - num_output_placeholders r in
  update_object o (λ r, r <| spec_token_ids := [] |>);;
  if decide (num_scheduled_spec_tokens > 0) then
    let tokens :=
      if decide (len (spec_token_ids r) > num_scheduled_spec_tokens)
      then slice_to (spec_token_ids r) num_scheduled_spec_tokens else spec_token_ids r in
    mret (b <| scheduled_spec_decode_tokens ::= λ d, dict_set d (request_id r) tokens |>)
  else mret b.

(** Whether a running request is passed over before its tokens are counted. *)
Definition skips_running (s : Sched) (defer_prefills : bool) (r : Request) : bool :=
  bool_decide (num_output_placeholders r > 0 ∧
    num_prompt_tokens r + max_tokens r ≤ num_computed_tokens r + 2 - num_output_placeholders r) ||
  bool_decide (current_step s < next_decode_eligible_step r) ||
  (defer_prefills && is_prefill_chunk r).

(** The loop over the running requests; the distance of the cursor from the end decreases. *)
Fixpoint running_loop (fuel : nat) (defer_prefills : bool) (req_index : Z) (b : Batch) : MS Batch :=
  s ← gets (λ s, s);
  if decide (req_index < len (running s) ∧ token_budget b > 0) then
    match fuel with
    | O => raise OutOfFuel
    | S fuel =>
        o ← lift_res (index (running s) req_index);
        r ← deref o;
        if decide (input_budget b ≤ draft_slots cfg) then mret b
        else if skips_running s defer_prefills r then running_loop fuel defer_prefills (req_index + 1) b
        else
          p ← plan_encoder_inputs r (num_computed_tokens r) (running_tokens r b) (encoder_budget b);
          let n := _reserve_prefill_lookahead cfg r (num_computed_tokens r) (num_new_tokens p) in
          if decide (n = 0) then running_loop fuel defer_prefills (req_index + 1) b
          else
            '(new_blocks, req_index, b) ← allocate_or_preempt (length (running s)) o n req_index b;
            match new_blocks with
            | None => mret b
            | Some blocks =>
                r ← deref o;
                let b := b <| scheduled_running_reqs ::= (.++ [o]) |>
                           <| prefill_scheduled ::= λ p, p || is_prefill_chunk r |>
                           <| req_to_new_blocks ::= λ d, dict_set d (request_id r) blocks |>
                           <| num_scheduled_tokens ::= λ d, dict_set d (request_id r) n |>
                           <| token_budget ::= λ t, t - n |>
                           <| input_budget ::= λ t, t - (n + draft_slots cfg) |> in
                b ← commit_spec_tokens o n b;
                b ← commit_encoder_inputs o p b;
                running_loop fuel defer_prefills (req_index + 1) b
            end
    end
  else mret b.

Definition schedule_running (defer_prefills : bool) (b : Batch) : MS Batch :=
  l ← gets running;
  running_loop (length l) defer_prefills 0 b.

(** *** Waiting requests *)

Definition _update_waiting_for_remote_kv (o : Z) : MS unit :=
  s ← gets (λ s, s);
  assert_ (bool_decide (is_Some (connector s)));;
  r ← deref o;
  (if decide (request_id r ∈ failed_recving_kv_req_ids s) then
     (if decide (num_computed_tokens r ≠ 0) then
        m ← on_kv (kv_cache_blocks r (num_computed_tokens r));
        set_memo o m;;
        if needs_kv_cache_zeroing cfg
        then on_kv (kv_record_blocks_for_zeroing (request_id r) (num_computed_tokens r)) else mret tt
      else on_kv (kv_free r));;
     modify (λ s, s <| failed_recving_kv_req_ids ::= λ d, d ∖ {[request_id r]} |>)
   else
     m ← on_kv (kv_cache_blocks r (num_computed_tokens r));
     set_memo o m;;
     if decide (num_computed_tokens r = num_tokens r)
     then update_object o (λ r, r <| num_computed_tokens := num_tokens r - 1 |>) else mret tt);;
  recvd ← gets (λ s, bool_decide (request_id r ∈ finished_recving_kv_req_ids s));
  if (recvd : bool) then modify (λ s, s <| finished_recving_kv_req_ids ::= λ d, d ∖ {[request_id r]} |>)
  else raise KeyError.

Definition _try_promote_blocked_waiting_request (o : Z) : MS bool :=
  r ← deref o;
  match status r with
  | WAITING_FOR_REMOTE_KVS =>
      recvd ← gets (λ s, bool_decide (request_id r ∈ finished_recving_kv_req_ids s));
      if negb recvd then mret false else
      _update_waiting_for_remote_kv o;;
      update_object o (λ r, r <| status := if decide (num_preemptions r ≠ 0) then PREEMPTED else WAITING |>);;
      mret true
  | WAITING_FOR_STRUCTURED_OUTPUT_GRAMMAR =>
      g ← gets (λ s, default GrammarPending (grammars s !! o));
      if negb (use_structured_output r) then mret false else
      match g with
      | GrammarPending => mret false
      | GrammarFailed =>
          modify (λ s, s <| grammar_compile_error_reqs ::= λ d, d ∪ {[request_id r]} |>);; mret false
      | GrammarReady => update_object o (λ r, r <| status := WAITING |>);; mret true
      end
  | WAITING_FOR_STREAMING_REQ =>
      queue ← gets (λ s, default [] (streaming_queues s !! o));
      assert_ (bool_decide (queue = []));; mret false
  | _ => raise AssertionError
  end.

(** [request_queue.pop_request()] *)
Definition pop_from (from_skipped : bool) : MS Z :=
  s ← gets (λ s, s);
  if from_skipped then
    '(o, q) ← lift_res (q_pop (policy cfg) (objects s) (skipped_waiting s));
    modify (λ s, s <| skipped_waiting := q |>);; mret o
  else
    '(o, q) ← lift_res (q_pop (policy cfg) (objects s) (waiting s));
    modify (λ s, s <| waiting := q |>);; mret o.

(** [step_skipped_waiting.prepend_request(request)] *)
Definition prepend_skipped (step_skipped : list Z) (o : Z) : MS (list Z) :=
  gets (λ s, q_prepend (policy cfg) (objects s) step_skipped o).

Definition skip_request (from_skipped : bool) (o : Z) (step_skipped : list Z) : MS (list Z) :=
  _ ← pop_from from_skipped;
  prepend_skipped step_skipped o.

(** Scheduling the request would exceed [max_loras]. *)
Definition exceeds_loras (r : Request) (b : Batch) : bool :=
  match max_loras cfg, lora_request r with
  | Some n, Some l =>
      bool_decide (Z.of_nat (size (scheduled_loras b)) = n ∧ lora_int_id l ∉ scheduled_loras b)
  | _, _ => false
  end.

Definition _get_local_prefix_cache_hit (o : Z) : MS (KVCacheBlocks * Z * Z * bool) :=
  r ← deref o;
  conn ← gets connector;
  if default false (conn_supports_divergent_local_hybrid_hits <$> conn) then
    '(blocks, n, boundary, diverged, m) ← on_kv (kv_get_computed_blocks_for_connector r);
    set_memo o m;; mret (blocks, n, boundary, diverged)
  else
    '(blocks, n, boundary, m) ← on_kv (kv_get_computed_blocks r);
    set_memo o m;; mret (blocks, n, boundary, false).

(** The local and external tokens of a request that starts: the local blocks and their number,
    the external tokens, and whether they load asynchronously; [None] when the connector
    cannot tell yet. *)
Definition match_external (o : Z) (blocks : KVCacheBlocks) (local : Z) (diverged : bool) :
    MS (option (KVCacheBlocks * Z * Z * bool)) :=
  conn ← gets connector;
  match conn with
  | None => mret (Some (blocks, local, 0, false))
  | Some _ =>
      let partial_tail := local mod sc_block_size cfg in
      let block_aligned_local := local - partial_tail in
      r ← deref o;
      '(ext_tokens, load_kv_async) ← on_connector (None, false)
        (conn_get_num_new_matched_tokens r block_aligned_local);
      match ext_tokens with
      | None => mret None
      | Some ext_tokens =>
          '(blocks, local, external, load_kv_async) ←
            (if decide (partial_tail ≠ 0 ∧ ext_tokens > partial_tail) then
               truncated ← on_kv (kv_truncate_computed_blocks blocks block_aligned_local);
               mret (truncated, block_aligned_local, ext_tokens, load_kv_async)
             else if decide (partial_tail ≠ 0) then mret (blocks, local, 0, false)
             else mret (blocks, local, ext_tokens, load_kv_async));
          if decide (diverged = true ∧ external = 0) then
            r ← deref o;
            '(blocks, local, boundary, m) ← on_kv (kv_get_computed_blocks r);
            set_memo o m;;
            update_object o (λ r, r <| shared_prefix_boundary := boundary |>);;
            mret (Some (blocks, local, external, load_kv_async))
          else mret (Some (blocks, local, external, load_kv_async))
      end
  end.

(** What [schedule] knows of a waiting request before it counts its tokens. *)
Record Hit := mkHit {
  hit_blocks : KVCacheBlocks; (* [new_computed_blocks] *)
  num_new_local_computed_tokens : Z;
  num_external_computed_tokens : Z;
  load_kv_async : bool;
  hit_num_computed_tokens : Z; (* [num_computed_tokens] *)
  did_prefix_cache_lookup : bool
}.

(** "Get already-cached tokens"; [None]: the request is skipped. *)
Definition find_hit (o : Z) : MS (option Hit) :=
  r ← deref o;
  if decide (num_computed_tokens r = 0) then
    '(blocks, local, boundary, diverged) ← _get_local_prefix_cache_hit o;
    update_object o (λ r, r <| shared_prefix_boundary := boundary |>);;
    matched ← match_external o blocks local diverged;
    match matched with
    | None => mret None
    | Some (blocks, local, external, load_kv_async) =>
        r ← deref o;
        let n := local + external in
        assert_ (n <=? num_tokens r);;
        available ← (if decide (mm_features r ≠ []) then on_ec_connector true (ec_ensure_cache_available r n)
                     else mret true);
        if negb available then mret None else
        stats ← gets (λ s, bool_decide (o ∈ prefill_stats s));
        assert_ (negb (stats && (num_preemptions r <=? 0)) || (n <=? num_prompt_tokens r));;
        mret (Some (mkHit blocks local external load_kv_async n true))
    end
  else mret (Some (mkHit EmptyBlocks 0 0 false (num_computed_tokens r) false)).

(** The tokens of a waiting request without a limit, padded to a full row of draft tokens when it
    joins a batch of decoding requests; [None]: stop scheduling. *)
Definition padded_tokens (r : Request) (computed budget : Z) (b : Batch) : option (Z * bool) :=
  let n := num_tokens r - computed in
  let padded := 1 + num_spec_tokens cfg in
  if decide (num_spec_tokens cfg > 0 ∧ dynamic_sd_lookup cfg = None ∧ num_sampled_tokens_per_step cfg > 0 ∧
             n = 1 ∧ scheduled_running_reqs b ≠ [] ∧ prefill_scheduled b = false ∧
             computed + padded + num_sampled_tokens_per_step cfg ≤ sc_max_model_len cfg) then
    if decide (padded > budget) then None else Some (padded, true)
  else Some (n, false).

(** How many tokens a waiting request gets, with its encoder plan, and whether it is padded;
    [None]: stop scheduling. *)
Definition waiting_tokens (o : Z) (h : Hit) (defer_prefills : bool) (b : Batch) :
    MS (option (Z * EncoderPlan * bool)) :=
  r ← deref o;
  let computed := hit_num_computed_tokens h in
  if load_kv_async h then
    assert_ (0 <? num_external_computed_tokens h);;
    mret (Some (0, mkEncoderPlan [] 0 (encoder_budget b) [] ∅ 0, false))
  else if decide (defer_prefills = true ∧ computed < num_tokens r - 1) then mret None
  else
    let budget := Z.min (token_budget b) (input_budget b - draft_slots cfg) in
    match padded_tokens r computed budget b with
    | None => mret None
    | Some (n, pad) =>
        let n := if decide (0 < long_prefill_token_threshold cfg < n)
                 then long_prefill_token_threshold cfg else n in
        if decide (enable_chunked_prefill cfg = false ∧ n > budget) then mret None else
        let n := Z.min n budget in
        assert_ (0 <? n);;
        let aligned :=
          if need_mamba_block_aligned_split cfg
          then _mamba_block_aligned_split cfg r n (num_new_local_computed_tokens h) (num_external_computed_tokens h)
          else n in
        if decide (need_mamba_block_aligned_split cfg = true ∧ aligned = 0) then mret None else
        let '(n, pad) :=
          if decide (need_mamba_block_aligned_split cfg = true ∧ pad = true ∧ aligned ≠ 1 + num_spec_tokens cfg)
          then (1, false) else (aligned, pad) in
        p ← plan_encoder_inputs r computed n (encoder_budget b);
        let n := _reserve_prefill_lookahead cfg r computed (num_new_tokens p) in
        if decide (n = 0) then mret None else mret (Some (n, p, pad))
    end.

Definition _request_remaining_blocks (s : Sched) (r : Request) : res Z :=
  kv_num_blocks_to_allocate (kv_cache_manager s) (request_id r) (Z.min (num_tokens r) (sc_max_model_len cfg))
    (num_computed_tokens r).

Definition _inflight_prefill_reserved_blocks : MS Z :=
  s ← gets (λ s, s);
  ns ← lift_res (mapM (M := res) (λ o, _request_remaining_blocks s (objects s !!! o))
                   (iter_set (_inflight_prefills s)));
  mret (sumZ ns).

(** The slots of a waiting request; [false]: there are none. *)
Definition admit_slots (o : Z) (h : Hit) (n : Z) (p : EncoderPlan) : MS bool :=
  r ← deref o;
  enc ← (if decide (sc_is_encoder_decoder cfg = true ∧ has_encoder_inputs r = true)
         then ns ← lift_res (mapM (M := res) (get_num_encoder_embeds r) (encoder_inputs_to_schedule p)); mret (sumZ ns)
         else mret 0);
  reserved ← (if load_kv_async h then _inflight_prefill_reserved_blocks else mret 0);
  s ← gets (λ s, s);
  blocks ← allocate_slots_for o n (num_new_local_computed_tokens h) (Some (hit_blocks h))
    (if decide (load_kv_async h = true ∧ num_lookahead_tokens cfg > 0) then 0 else num_lookahead_tokens cfg)
    (num_external_computed_tokens h) (load_kv_async h) enc (scheduler_reserve_full_isl cfg) reserved
    (bool_decide (running s ≠ []));
  match blocks with
  | None =>
      r ← deref o;
      (if has_encoder_inputs r then on_encoder (EncoderCache.mgr_free r) else mret tt);;
      mret false
  | Some _ =>
      r ← deref o;
      s ← gets (λ s, s);
      on_connector tt (λ c, (tt, conn_update_state_after_alloc r
        (kv_get_blocks (kv_cache_manager s) (request_id r)) (num_external_computed_tokens h) c));;
      (if did_prefix_cache_lookup h
       then on_kv (kv_record_prefix_cache_stats r (num_new_local_computed_tokens h)) else mret tt);;
      mret true
  end.

(** A request whose KV loads asynchronously waits for it. *)
Definition start_async_load (o : Z) (h : Hit) (step_skipped : list Z) : MS (list Z) :=
  update_object o (λ r, r <| status := WAITING_FOR_REMOTE_KVS |>);;
  step_skipped ← prepend_skipped step_skipped o;
  update_object o (λ r, r <| num_computed_tokens := hit_num_computed_tokens h |>);;
  modify (λ s, s <| _inflight_prefills ::= λ d, d ∪ {[o]} |>);;
  r ← deref o;
  (if needs_kv_cache_zeroing cfg then
     ids ← on_kv (kv_get_zeroing_block_ids_in_range (request_id r) (num_new_local_computed_tokens h)
             (hit_num_computed_tokens h));
     modify (λ s, s <| _skip_zero_block_ids ::= λ d, d ∪ list_to_set ids |>)
   else mret tt);;
  mret step_skipped.

(** A request that starts or resumes in this step. *)
Definition start_running (o : Z) (h : Hit) (n : Z) (p : EncoderPlan) (pad : bool) (b : Batch) : MS Batch :=
  modify (λ s, s <| running ::= (.++ [o]) |>);;
  let b := if decide (num_external_computed_tokens h > 0) then b <| has_sync_kv_loads := true |> else b in
  r ← deref o;
  b ← (if decide (status r = WAITING) then mret (b <| scheduled_new_reqs ::= (.++ [o]) |>)
       else if decide (status r = PREEMPTED) then mret (b <| scheduled_resumed_reqs ::= (.++ [o]) |>)
       else raise RuntimeError);
  s ← gets (λ s, s);
  let b := b <| scheduled_loras ::= λ d,
                  match max_loras cfg, lora_request r with Some _, Some l => d ∪ {[lora_int_id l]} | _, _ => d end |>
             <| req_to_new_blocks ::= λ d, dict_set d (request_id r) (kv_get_blocks (kv_cache_manager s) (request_id r)) |>
             <| num_scheduled_tokens ::= λ d, dict_set d (request_id r) n |>
             <| token_budget ::= λ t, t - n |>
             <| input_budget ::= λ t, t - (n + draft_slots cfg) |> in
  update_object o (λ r, r <| status := RUNNING |> <| num_computed_tokens := hit_num_computed_tokens h |>);;
  b ← (if (pad : bool) then
         assert_ (n =? 1 + num_spec_tokens cfg);;
         mret (b <| scheduled_spec_decode_tokens ::= λ d,
                     dict_set d (request_id r) (replicate (Z.to_nat (num_spec_tokens cfg)) (-1)) |>)
       else mret b);
  (if decide (hit_num_computed_tokens h + n < num_tokens r)
   then modify (λ s, s <| _inflight_prefills ::= λ d, d ∪ {[o]} |>) else mret tt);;
  commit_encoder_inputs o p b.

(** The loop over the waiting requests; every round takes one from a queue, or is the last. *)
Fixpoint waiting_loop (fuel : nat) (defer_prefills : bool) (step_skipped : list Z) (b : Batch) :
    MS (list Z * Batch) :=
  s ← gets (λ s, s);
  if decide ((waiting s ≠ [] ∨ skipped_waiting s ≠ []) ∧ token_budget b > 0) then
    match fuel with
    | O => raise OutOfFuel
    | S fuel =>
        if decide (input_budget b ≤ draft_slots cfg) then mret (step_skipped, b)
        else if decide (max_num_running_reqs cfg ≤ len (running s) + num_waiting_for_streaming_input s)
        then mret (step_skipped, b)
        else
          selected ← _select_waiting_queue_for_scheduling cfg;
          match selected with
          | None => raise AssertionError
          | Some from_skipped =>
              o ← lift_res (q_peek (policy cfg) (objects s)
                    (if (from_skipped : bool) then skipped_waiting s else waiting s));
              let skip := (step_skipped ← skip_request from_skipped o step_skipped;
                           waiting_loop fuel defer_prefills step_skipped b) in
              r ← deref o;
              promoted ← (if _is_blocked_waiting_status (status r)
                          then _try_promote_blocked_waiting_request o else mret true);
              if negb promoted then skip else
              r ← deref o;
              if (0 <? num_stale_output_tokens r) && negb (drop_stale_output r) then skip
              else if exceeds_loras r b then skip
              else
                hit ← find_hit o;
                match hit with
                | None => skip
                | Some h =>
                    tokens ← waiting_tokens o h defer_prefills b;
                    match tokens with
                    | None => mret (step_skipped, b)
                    | Some (n, p, pad) =>
                        admitted ← admit_slots o h n p;
                        if negb admitted then mret (step_skipped, b) else
                        o ← pop_from from_skipped;
                        if load_kv_async h then
                          step_skipped ← start_async_load o h step_skipped;
                          waiting_loop fuel defer_prefills step_skipped b
                        else
                          b ← start_running o h n p pad b;
                          waiting_loop fuel defer_prefills step_skipped b
                    end
                end
          end
    end
  else mret (step_skipped, b).

Definition schedule_waiting (defer_prefills : bool) (b : Batch) : MS Batch :=
  s ← gets (λ s, s);
  if decide (preempted_reqs b = [] ∧ _pause_state s = UNPAUSED) then
    '(step_skipped, b) ← waiting_loop (length (waiting s) + length (skipped_waiting s)) defer_prefills [] b;
    (if decide (step_skipped ≠ []) then
       modify (λ s, s <| skipped_waiting ::= λ q, q_prepends (policy cfg) (objects s) q step_skipped |>)
     else mret tt);;
    (if negb defer_prefills then modify (λ s, s <| prefill_capacity_bound := bool_decide (waiting s ≠ []) |>)
     else mret tt);;
    mret b
  else mret b.

(** *** The whole step *)

(** [scheduled_loras] of the running requests *)
Definition running_loras (b : Batch) : MS Batch :=
  match max_loras cfg with
  | None => mret b
  | Some n =>
      s ← gets (λ s, s);
      let loras : gset Z := list_to_set (omap (λ o,
        l ← lora_request (objects s !!! o); if decide (lora_int_id l > 0) then Some (lora_int_id l) else None)
        (scheduled_running_reqs b)) in
      assert_ (bool_decide (Z.of_nat (size loras) ≤ n));;
      mret (b <| scheduled_loras := loras |>)
  end.

(** [req_to_new_blocks[req_id].get_block_ids()] *)
Definition new_block_ids_of (s : Sched) (b : Batch) (req_id : string) : res (list (list nat)) :=
  match dict_get (req_to_new_blocks b) req_id with
  | None => Raise KeyError
  | Some blocks => Ok (kv_get_block_ids (kv_cache_manager s) blocks)
  end.

Definition make_new_request_data (s : Sched) (b : Batch) (o : Z) : res NewRequestData :=
  let r := objects s !!! o in
  ids ← new_block_ids_of s b (request_id r);
  Ok (mkNewRequestData (request_id r) (prompt_token_ids r) ids (num_computed_tokens r)
        (if use_v2_model_runner cfg then Some (all_token_ids r) else None)).

(** [all_token_ids] of the requests that the previous step did not schedule, and the other
    columns, one request after the other. *)
Definition add_cached_request (s : Sched) (b : Batch) (c : CachedRequestData) (resumed : bool) (o : Z) :
    res CachedRequestData :=
  let r := objects s !!! o in
  let rid := request_id r in
  new_token_ids ←
    (if decide (pp_size cfg > 1 ∧ async_scheduling cfg = false) then
       match dict_get (num_scheduled_tokens b) rid with
       | None => Raise KeyError
       | Some n =>
           let n := n - len (default [] (dict_get (scheduled_spec_decode_tokens b) rid)) in
           Ok [slice (all_token_ids r) (num_computed_tokens r) (num_computed_tokens r + n)]
       end
     else Ok []);
  ids ← new_block_ids_of s b rid;
  Ok (c <| cr_req_ids ::= (.++ [rid]) |>
        <| cr_resumed_req_ids ::= λ d, if resumed then d ∪ {[rid]} else d |>
        <| cr_new_token_ids ::= (.++ new_token_ids) |>
        <| cr_all_token_ids ::= λ d,
             if decide (use_v2_model_runner cfg = false ∧ rid ∉ prev_step_scheduled_req_ids s)
             then dict_set d rid (all_token_ids r) else d |>
        <| cr_new_block_ids ::= (.++ [if existsb (λ l, bool_decide (l ≠ [])) ids then Some ids else None]) |>
        <| cr_num_computed_tokens ::= (.++ [num_computed_tokens r]) |>
        <| cr_num_output_tokens ::= (.++ [num_output_tokens r + num_output_placeholders r]) |>).

Fixpoint add_cached_requests (s : Sched) (b : Batch) (c : CachedRequestData) (resumed : bool) (os : list Z) :
    res CachedRequestData :=
  match os with
  | [] => Ok c
  | o :: os => c ← add_cached_request s b c resumed o; add_cached_requests s b c resumed os
  end.

Definition _make_cached_request_data (s : Sched) (b : Batch) (running_reqs resumed_reqs : list Z) :
    res CachedRequestData :=
  c ← add_cached_requests s b (mkCachedRequestData [] ∅ [] [] [] [] []) false running_reqs;
  add_cached_requests s b c true resumed_reqs.

Definition _get_new_block_ids_to_zero : MS (option (list block_ref)) :=
  ids ← on_kv kv_take_new_block_ids;
  if negb (needs_kv_cache_zeroing cfg) then mret None else
  skip ← gets _skip_zero_block_ids;
  let ids := filter (λ b, b ∉ skip) ids in
  modify (λ s, s <| _skip_zero_block_ids := ∅ |>);;
  mret (if decide (ids = []) then None else Some ids).

(** [Scheduler._update_after_schedule] for one request; whether it needs structured output. *)
Definition advance_request (req_id : string) (n : Z) : MS bool :=
  found ← get_request req_id;
  match found with
  | None => raise KeyError
  | Some o =>
      seq ← gets sched_step_seq;
      update_object o (λ r,
        let r := r <| num_computed_tokens ::= λ c, c + n |> <| num_in_flight_tokens ::= λ c, c + n |>
                   <| last_sched_seq ::= λ q, if defer_block_free cfg then seq else q |> in
        r <| is_prefill_chunk :=
               bool_decide (num_computed_tokens r < num_tokens r + num_output_placeholders r) |>);;
      r ← deref o;
      (if negb (is_prefill_chunk r) then modify (λ s, s <| _inflight_prefills ::= λ d, d ∖ {[o]} |>)
       else mret tt);;
      mret (use_structured_output r && negb (is_prefill_chunk r))
  end.

(** The rest of [AsyncScheduler._update_after_schedule] for one request; whether it has structured
    output that is not sampled yet. *)
Definition add_placeholders (out : SchedulerOutput) (req_id : string) : MS bool :=
  found ← get_request req_id;
  match found with
  | None => raise KeyError
  | Some o =>
      r ← deref o;
      if is_prefill_chunk r then mret false else
      step ← gets current_step;
      update_object o (λ r,
        r <| num_output_placeholders ::= λ n, n + (num_sampled_tokens_per_step cfg +
               len (default [] (dict_get (so_spec_decode_tokens out) req_id))) |>
          <| spec_token_ids := replicate (Z.to_nat (num_spec_tokens_to_schedule out)) (-1) |>
          <| next_decode_eligible_step ::= λ n, if use_v2_model_runner cfg then step + pp_size cfg else n |>);;
      mret (use_structured_output r && bool_decide (num_output_placeholders r > 0))
  end.

Definition _update_after_schedule (out : SchedulerOutput) : MS SchedulerOutput :=
  out ← for_acc (so_num_scheduled_tokens out) out (λ out '(req_id, n),
    structured ← advance_request req_id n;
    mret (out <| has_structured_output_requests ::= λ b, b || structured |>));
  modify (λ s, s <| finished_req_ids := ∅ |> <| reset_preempted_req_ids := ∅ |>);;
  if negb (async_scheduling cfg) then mret out else
  for_acc (so_num_scheduled_tokens out) out (λ out '(req_id, _),
    pending ← add_placeholders out req_id;
    mret (out <| pending_structured_output_tokens ::= λ b, b || pending |>)).

(** The checks at the end of the two phases. *)
Definition check_batch (b : Batch) : MS unit :=
  assert_ (sumZ (num_scheduled_tokens b).*2 <=? max_num_scheduled_tokens cfg);;
  assert_ (0 <=? token_budget b);;
  assert_ (0 <=? input_budget b);;
  l ← gets running;
  assert_ (len l <=? max_num_running_reqs cfg);;
  assert_ (len (scheduled_new_reqs b) + len (scheduled_resumed_reqs b) + len (scheduled_running_reqs b) <=? len l).

(** [self.dynamic_sd_lookup[len(num_scheduled_tokens)]] *)
Definition spec_tokens_to_schedule (b : Batch) : res Z :=
  match dynamic_sd_lookup cfg with
  | Some lookup =>
      if decide (len (num_scheduled_tokens b) > 0) then index lookup (len (num_scheduled_tokens b))
      else Ok (num_spec_tokens cfg)
  | None => Ok (num_spec_tokens cfg)
  end.

(** The construction of the output from the batch. *)
Definition make_output (b : Batch) : MS SchedulerOutput :=
  s ← gets (λ s, s);
  common ← match running s with
           | [] => mret (replicate (sc_num_kv_cache_groups cfg) 0)
           | o :: _ => on_kv (kv_get_num_common_prefix_blocks (request_id (objects s !!! o)))
           end;
  let '(new_reqs, resumed_reqs) :=
    if use_v2_model_runner cfg then (scheduled_new_reqs b ++ scheduled_resumed_reqs b, [])
    else (scheduled_new_reqs b, scheduled_resumed_reqs b) in
  new_data ← lift_res (mapM (M := res) (make_new_request_data s b) new_reqs);
  cached_data ← lift_res (_make_cached_request_data s b (scheduled_running_reqs b) resumed_reqs);
  (if negb (use_v2_model_runner cfg) then
     modify (λ s, s <| prev_step_scheduled_req_ids := list_to_set (num_scheduled_tokens b).*1 |>)
   else mret tt);;
  '(copies, retained) ← on_kv kv_take_block_copies;
  (if decide (copies ≠ []) then _free_cow_retained_blocks cfg retained (sched_step_seq s + 1) else mret tt);;
  num_spec ← lift_res (spec_tokens_to_schedule b);
  freed_hashes ← on_encoder mgr_get_freed_mm_hashes;
  to_zero ← _get_new_block_ids_to_zero;
  mret (mkSchedulerOutput new_data cached_data (num_scheduled_tokens b) (sumZ (num_scheduled_tokens b).*2)
    (scheduled_spec_decode_tokens b) (scheduled_encoder_inputs b) common (reset_preempted_req_ids s)
    (finished_req_ids s) freed_hashes to_zero (has_sync_kv_loads b) copies num_spec false false).

(** The two phases. *)
Definition schedule_phases (throttle_prefills : bool) : MS Batch :=
  modify (λ s, s <| current_step ::= Z.add 1 |>);;
  s ← gets (λ s, s);
  let defer_prefills := throttle_prefills && negb (prefill_capacity_bound s) &&
    existsb (λ o, negb (is_prefill_chunk (objects s !!! o))) (running s) in
  b ← schedule_running defer_prefills (new_batch s);
  b ← running_loras b;
  schedule_waiting defer_prefills b.

Definition schedule (throttle_prefills : bool) : MS SchedulerOutput :=
  b ← schedule_phases throttle_prefills;
  check_batch b;;
  out ← make_output b;
  on_connector tt (λ c, (tt, conn_build_connector_meta out c));;
  on_ec_connector tt (λ x, (tt, ec_build_connector_meta out x));;
  (if decide (defer_block_free cfg = true ∧ total_num_scheduled_tokens out > 0)
   then modify (λ s, s <| sched_step_seq ::= Z.add 1 |>) else mret tt);;
  _update_after_schedule out.
End step.
