(* ===== verification/SchedOutput.v ===== *)
(** * Processing the output of a step (Scheduler.update_from_output, src/vllm/v1/core/sched/scheduler.py)

    The sampled tokens of a step are appended to their requests, requests that stop leave the
    queues, and what the connectors report is taken over.  Definitions only.  Logprobs, routed
    experts, statistics and events are left out. *)

From S2P Require Import Prelude FreeQueue Request Hashing Session BlockPool RequestQueue SchedUtils EncoderCache EncoderSched.
From S2P Require Import SingleType Coordinator Manager Scheduler ScheduleStep.

(** What the connector of the workers reports. *)
Record KVConnectorOutput := mkKVConnectorOutput {
  invalid_block_ids : gset Z;
  finished_recving : gset string;
  finished_sending : gset string
}.

Record ModelRunnerOutput := mkModelRunnerOutput {
  req_id_to_index : gmap string Z;
  sampled_token_ids : list (list Z);
  (* which entries of [pooler_output] are there *)
  pooler_output : list bool;
  kv_connector_output : option KVConnectorOutput
}.

Record EngineCoreOutput := mkEngineCoreOutput {
  eo_request_id : string;
  eo_new_token_ids : list Z;
  eo_finish_reason : option FinishReason;
  eo_stop_reason : option StopReason
}.

(** The local variables of the loop over the scheduled requests. *)
Record Processed := mkProcessed {
  outputs : list (Z * list EngineCoreOutput);
  stopped_running_reqs : gset Z;
  stopped_preempted_reqs : gset Z
}.
#[global] Instance Processed_eta : Eta Processed := λ p,
  mkProcessed (outputs p) (stopped_running_reqs p) (stopped_preempted_reqs p).

(** [outputs[client_index].append(output)] *)
Definition add_output (client_index : Z) (out : EngineCoreOutput) (d : list (Z * list EngineCoreOutput)) :
    list (Z * list EngineCoreOutput) :=
  dict_set d client_index (default [] (dict_get d client_index) ++ [out]).

Section output.
Context {K E N X : Type}.
Context `{!KVManager K} `{!EncoderManager E} `{!KVConnector N} `{!ECConnector X} `{!SetIter}.
Variable cfg : SchedulerConfig.
Variable hasher : option block_hasher.
(** The structured output manager: [should_advance], and whether the grammar accepts the tokens
    after the reasoning is trimmed ([trim_reasoning_for_advance] and [accept_tokens]). *)
Variable should_advance : Request → option (list Z) → bool.
Variable accept_tokens : Request → list Z → bool.
Abbreviation Sched := (Scheduler K E N X).
Abbreviation MS := (M Sched).

(** *** Failed loads *)

(** The local variables of the scan. *)
Record Scan := mkScan {
  affected_req_ids : gset string;
  total_affected_tokens : Z;
  blocks_to_evict : gset Z;
  marked_invalid_block_ids : gset Z
}.
#[global] Instance Scan_eta : Eta Scan := λ c,
  mkScan (affected_req_ids c) (total_affected_tokens c) (blocks_to_evict c) (marked_invalid_block_ids c).

(** The loop over the blocks of one request: whether it is affected, and where its computed
    tokens end when one of its blocks is the first invalid one. *)
Fixpoint scan_blocks (invalid : gset Z) (evict_blocks : bool) (req_block_ids : list Z) (computed : Z)
    (blocks : list (Z * Z)) (is_affected : bool) (cut : option Z) (c : Scan) : bool * option Z * Scan :=
  match blocks with
  | [] => (is_affected, cut, c)
  | (idx, block_id) :: blocks =>
      let continue := scan_blocks invalid evict_blocks req_block_ids computed blocks in
      if decide (block_id ∉ invalid) then continue is_affected cut c
      else if decide (block_id ∈ marked_invalid_block_ids c) then continue true cut c
      else
        let c := c <| marked_invalid_block_ids ::= λ d, d ∪ {[block_id]} |> in
        match cut with
        | Some _ => continue true cut c
        | None =>
            let new_computed := idx * sc_block_size cfg in
            continue true (Some new_computed)
              (c <| total_affected_tokens ::= Z.add (computed - new_computed) |>
                 <| blocks_to_evict ::= λ d,
                      if evict_blocks then d ∪ list_to_set (slice_from req_block_ids idx) else d |>)
        end
  end.

Definition scan_request (invalid : gset Z) (num_scheduled : list (string * Z)) (evict_blocks : bool)
    (c : Scan) (o : Z) : MS Scan :=
  s ← gets (λ s, s);
  let r := objects s !!! o in
  match kv_get_block_ids (kv_cache_manager s) (kv_get_blocks (kv_cache_manager s) (request_id r)) with
  | [ids] =>
      let req_block_ids := Z.of_nat <$> ids in
      let computed := num_computed_tokens r - default 0 (dict_get num_scheduled (request_id r)) in
      let num_blocks := (computed + sc_block_size cfg - 1) // sc_block_size cfg in
      let '(is_affected, cut, c) :=
        scan_blocks invalid evict_blocks req_block_ids computed (zip (range 0 num_blocks) req_block_ids) false None c in
      if negb is_affected then mret c else
      match cut with
      | Some n =>
          update_object o (λ r, r <| num_computed_tokens := n |>);;
          mret (c <| affected_req_ids ::= λ d, d ∪ {[request_id r]} |>)
      | None =>
          update_object o (λ r, r <| num_computed_tokens := computed |>);;
          mret (c <| total_affected_tokens ::= Z.add (num_computed_tokens r - computed) |>
                  <| affected_req_ids ::= λ d, d ∪ {[request_id r]} |>)
      end
  | _ => raise ValueError
  end.

Definition _update_requests_with_invalid_blocks (requests : list Z) (invalid : gset Z)
    (num_scheduled : list (string * Z)) (evict_blocks : bool) : MS Scan :=
  for_acc requests (mkScan ∅ 0 ∅ ∅) (scan_request invalid num_scheduled evict_blocks).

Definition _handle_invalid_blocks (invalid : gset Z) (num_scheduled : list (string * Z)) : MS (gset string) :=
  s ← gets (λ s, s);
  let async_load_reqs := filter (λ o, status (objects s !!! o) = WAITING_FOR_REMOTE_KVS)
    (q_iter (policy cfg) (objects s) (skipped_waiting s)) in
  c ← _update_requests_with_invalid_blocks async_load_reqs invalid num_scheduled false;
  let async_failed_req_ids := affected_req_ids c in
  c ← _update_requests_with_invalid_blocks (running s) invalid num_scheduled true;
  let sync_failed_req_ids := affected_req_ids c in
  if decide (async_failed_req_ids = ∅ ∧ sync_failed_req_ids = ∅) then mret ∅ else
  (if decide (blocks_to_evict c ≠ ∅ ∧ recompute_kv_load_failures cfg = false)
   then on_kv (kv_evict_blocks (blocks_to_evict c)) else mret tt);;
  if negb (recompute_kv_load_failures cfg) then mret (async_failed_req_ids ∪ sync_failed_req_ids) else
  modify (λ s, s <| failed_recving_kv_req_ids ::= λ d, d ∪ async_failed_req_ids |>);;
  mret sync_failed_req_ids.

(** *** Transfers that finished *)

Definition finish_recving (req_id : string) : MS unit :=
  found ← get_request req_id;
  match found with
  | None => mret tt
  | Some o =>
      r ← deref o;
      if decide (status r = WAITING_FOR_REMOTE_KVS) then
        modify (λ s, s <| finished_recving_kv_req_ids ::= λ d, d ∪ {[req_id]} |>)
      else if is_finished r then _free_blocks cfg o else mret tt
  end.

Definition finish_sending (req_id : string) : MS unit :=
  found ← get_request req_id;
  match found with None => mret tt | Some o => _free_blocks cfg o end.

Definition _update_from_kv_xfer_finished (out : KVConnectorOutput) : MS unit :=
  on_connector tt (λ n, (tt, conn_update_output (finished_recving out) (finished_sending out) n));;
  for_ (iter_set (finished_recving out)) finish_recving;;
  for_ (iter_set (finished_sending out)) finish_sending.

(** *** One request *)

(** The in-flight tokens return; whether they are stale. *)
Definition drain_in_flight (o : Z) (n : Z) : MS bool :=
  r ← deref o;
  let stale := bool_decide (num_stale_output_tokens r > 0) in
  update_object o (λ r, r <| num_in_flight_tokens ::= λ m, m - n |>
                          <| num_stale_output_tokens ::= λ m, if stale then m - n else m |>);;
  r ← deref o;
  assert_ (negb stale || (0 <=? num_stale_output_tokens r));;
  mret stale.

(** Rejected draft tokens are taken back. *)
Definition reject_drafts (o : Z) (spec generated : list Z) (stale : bool) : MS unit :=
  if decide (spec ≠ [] ∧ (generated ≠ [] ∨ num_sampled_tokens_per_step cfg = 0) ∧ stale = false) then
    let num_accepted := Z.max (len generated - num_sampled_tokens_per_step cfg) 0 in
    let num_rejected := len spec - num_accepted in
    update_object o (λ r,
      r <| num_computed_tokens ::= λ n, if decide (n > 0) then n - num_rejected else n |>
        <| num_output_placeholders ::= λ n, if decide (n > 0) then n - num_rejected else n |>)
  else mret tt.

(** The new tokens, or the end of a request that samples none; whether the request stopped. *)
Definition apply_output (o : Z) (generated : list Z) (pooled stale : bool) : MS (list Z * bool) :=
  r ← deref o;
  '(new_token_ids, stopped) ←
    (if decide (generated ≠ []) then _update_request_with_output cfg hasher o generated stale
     else if (bool_decide (is_Some (pooling_params r)) && pooled) ||
             (is_mm_encoder_only cfg && (num_prompt_tokens r <=? num_computed_tokens r)) then
       update_object o (λ r, r <| status := FINISHED_STOPPED |>);; mret ([], true)
     else mret ([], false));
  r ← deref o;
  if decide (new_token_ids ≠ [] ∧ should_advance r (Some new_token_ids) = true ∧
             accept_tokens r new_token_ids = false) then
    update_object o (λ r, r <| status := FINISHED_ERROR |> <| resumable := false |>);;
    mret (new_token_ids, true)
  else mret (new_token_ids, stopped).

(** A request that stopped: its finish reason. *)
Definition stop_request (o : Z) (status_before : RequestStatus) (p : Processed) :
    MS (option FinishReason * Processed) :=
  r ← deref o;
  finished ← _handle_stopped_request cfg hasher o;
  (if (finished : bool) then _free_request cfg o false else mret tt);;
  mret (get_finished_reason r,
        if decide (status_before = RUNNING) then p <| stopped_running_reqs ::= λ d, d ∪ {[o]} |>
        else p <| stopped_preempted_reqs ::= λ d, d ∪ {[o]} |>).

Definition process_request (out : SchedulerOutput) (runner : ModelRunnerOutput) (failed : gset string)
    (p : Processed) (req_id : string) (n : Z) : MS Processed :=
  assert_ (0 <? n);;
  found ← get_request req_id;
  match found with
  | None => mret p
  | Some o =>
      stale ← drain_in_flight o n;
      r ← deref o;
      if decide (req_id ∈ failed) then mret p
      else if is_finished r then mret p
      else if stale && drop_stale_output r then mret p
      else
        req_index ← match req_id_to_index runner !! req_id with
                    | Some i => mret i
                    | None => raise KeyError
                    end;
        generated ← (if decide (sampled_token_ids runner ≠ [])
                     then lift_res (index (sampled_token_ids runner) req_index) else mret []);
        reject_drafts o (default [] (dict_get (so_spec_decode_tokens out) req_id)) generated stale;;
        r ← deref o;
        (if has_encoder_inputs r
         then on_encoder (_free_encoder_inputs (sc_is_encoder_decoder cfg) (num_prefill_lookahead cfg) r)
         else mret tt);;
        pooled ← (if decide (pooler_output runner ≠ [])
                  then lift_res (index (pooler_output runner) req_index) else mret false);
        '(new_token_ids, stopped) ← apply_output o generated pooled stale;
        (if decide (new_token_ids ≠ [] ∨ pooled = true ∨ stopped = true)
         then modify (λ s, s <| prefill_stats ::= λ d, d ∖ {[o]} |>) else mret tt);;
        '(reason, p) ← (if (stopped : bool) then stop_request o (status r) p else mret (None, p));
        r' ← deref o;
        if decide (new_token_ids ≠ [] ∨ pooled = true ∨ stopped = true) then
          mret (p <| outputs ::= add_output (client_index r)
                       (mkEngineCoreOutput req_id new_token_ids reason (stop_reason r')) |>)
        else mret p
  end.

(** *** The whole output *)

Definition update_from_output (out : SchedulerOutput) (runner : ModelRunnerOutput) :
    MS (list (Z * list EngineCoreOutput) * option (gmap Z (gset string))) :=
  (if decide (defer_block_free cfg = true ∧ total_num_scheduled_tokens out > 0) then
     modify (λ s, s <| processed_step_seq ::= Z.add 1 |>);;
     _drain_deferred_frees
   else mret tt);;
  let invalid := default ∅ (invalid_block_ids <$> kv_connector_output runner) in
  failed ← (if decide (invalid ≠ ∅) then _handle_invalid_blocks invalid (so_num_scheduled_tokens out) else mret ∅);
  p ← for_acc (so_num_scheduled_tokens out) (mkProcessed [] ∅ ∅) (λ p '(req_id, n),
    process_request out runner failed p req_id n);
  remove_from_running (stopped_running_reqs p);;
  remove_from_waiting cfg (iter_set (stopped_preempted_reqs p));;
  errors ← gets grammar_compile_error_reqs;
  modify (λ s, s <| grammar_compile_error_reqs := ∅ |>);;
  let error_req_ids := if recompute_kv_load_failures cfg then errors else errors ∪ failed in
  outs ← (if decide (error_req_ids ≠ ∅) then
            error_reqs ← finish_requests cfg (SomeIds error_req_ids) FINISHED_ERROR;
            s ← gets (λ s, s);
            mret (foldl (λ d o, let r := objects s !!! o in
              add_output (client_index r) (mkEngineCoreOutput (request_id r) [] (get_finished_reason r) None) d)
              (outputs p) error_reqs)
          else mret (outputs p));
  match kv_connector_output runner with
  | Some kv_out => _update_from_kv_xfer_finished kv_out
  | None => mret tt
  end;;
  on_kv kv_take_events;;
  finished ← gets finished_req_ids_dict;
  modify (λ s, s <| finished_req_ids_dict ::= fmap (λ _, ∅) |>);;
  mret (outs, finished).
End output.
