(* ===== verification/SchedChunks.v ===== *)
(** * Where a prefill chunk ends

    [_mamba_block_aligned_split] and [_reserve_prefill_lookahead] of the scheduler. *)

From S2P Require Import Prelude FreeQueue Request Scheduler.

Lemma earliest_stop_spec start stop stops : let e := earliest_stop start stop stops in
  e ≤ stop ∧ (e = stop ∨ e ∈ stops ∧ start < e < stop) ∧ ∀ p, p ∈ stops → start < p < stop → e ≤ p.
Proof.
  cbv zeta. unfold earliest_stop. destruct (filter _ stops) as [|p ps] eqn:Hf.
  - split; [done|]. split; [by left|]. intros p Hp Hin. exfalso.
    apply (elem_of_nil p). rewrite <-Hf. by apply list_elem_of_filter.
  - destruct (foldl_min_spec ps p) as [Hle Hin]. set (e := foldl Z.min p ps) in *.
    setoid_rewrite <-elem_of_cons in Hle. rewrite <-elem_of_cons in Hin. rewrite <-Hf in Hin, Hle. apply list_elem_of_filter in Hin as [He Hin]. split; [lia|]. split; [by right|].
    intros q Hq Hr. apply Hle. by apply list_elem_of_filter.
Qed.

Section chunks.
Variable cfg : SchedulerConfig.
Abbreviation bs := (cache_config_block_size cfg).
Hypothesis bs_pos : 0 < bs.
Variables (r : Request) (num_new_tokens local external : Z).

(** The positions of the chunk. *)
Definition chunk_start : Z := num_computed_tokens r + local + external.
Definition prefill_end : Z := Z.max (num_prompt_tokens r) (num_tokens r - 1).
Abbreviation split := (_mamba_block_aligned_split cfg r num_new_tokens local external).

(** The last position whose state is cached, [None] when the kernel saves it inside the chunk. *)
Definition internal_checkpoint : bool :=
  mamba_has_prefill_checkpoint_blocks cfg && bool_decide (chunk_start mod bs = 0).
Definition last_cached : Z :=
  let p := num_tokens r - num_tokens r mod bs in if use_eagle cfg then Z.max (p - bs) 0 else p.
Definition tail_boundary : Z :=
  if mamba_partial_cache_hit cfg then num_prompt_tokens r // sc_hash_block_size cfg * sc_hash_block_size cfg else 0.
Definition max_prefill : Z :=
  if decide (long_prefill_token_threshold cfg > 0)
  then Z.min (max_num_scheduled_tokens cfg) (long_prefill_token_threshold cfg) else max_num_scheduled_tokens cfg.

(** The end of the chunk before the mandatory stops. *)
Definition chunk_end : Z :=
  let stop := chunk_start + num_new_tokens in
  if decide (stop < prefill_end ∧ internal_checkpoint = false) then
    if decide (stop // bs * bs > chunk_start ∨ bs ≤ max_prefill) then stop // bs * bs else stop
  else stop.
Definition next_boundary : Z := (chunk_start // bs + 1) * bs.
Definition last_stop : Z := if internal_checkpoint then 0 else last_cached.
Definition mandatory_stops : list Z := [
  (if decide (chunk_start mod bs ≠ 0) then next_boundary else 0);
  last_stop;
  (if decide (last_stop < tail_boundary < num_prompt_tokens r) then tail_boundary else 0);
  (if decide (chunk_start < shared_prefix_boundary r < chunk_end)
   then chunk_start + (shared_prefix_boundary r - chunk_start) // bs * bs else 0)].

Lemma split_eq : split =
  if decide (prefill_end ≤ chunk_start) then num_new_tokens
  else Z.max (earliest_stop chunk_start chunk_end mandatory_stops - chunk_start) 0.
Proof. reflexivity. Qed.

Lemma floor_le a : a // bs * bs ≤ a < a // bs * bs + bs.
Proof. pose proof (Z.mod_pos_bound a bs bs_pos). pose proof (Z.div_mod a bs ltac:(lia)). lia. Qed.

Lemma mul_mod k : (k * bs) mod bs = 0.
Proof. apply Z.mod_mul. lia. Qed.

Lemma last_cached_mod : last_cached mod bs = 0.
Proof.
  unfold last_cached. pose proof (Z.div_mod (num_tokens r) bs ltac:(lia)) as Hd.
  assert (num_tokens r - num_tokens r mod bs = num_tokens r // bs * bs) as -> by lia. destruct (use_eagle cfg).
  - destruct (Z.max_spec (num_tokens r // bs * bs - bs) 0) as [[_ ->]|[_ ->]]; [apply Zmod_0_l|].
    replace (num_tokens r // bs * bs - bs) with ((num_tokens r // bs - 1) * bs) by lia. apply mul_mod.
  - apply mul_mod.
Qed.

Lemma chunk_end_le : chunk_end ≤ chunk_start + num_new_tokens.
Proof. unfold chunk_end. pose proof (floor_le (chunk_start + num_new_tokens)). repeat case_decide; lia. Qed.

Lemma split_bounds : split ≤ Z.max num_new_tokens 0 ∧ (0 ≤ num_new_tokens → 0 ≤ split).
Proof.
  rewrite split_eq. case_decide; [lia|]. pose proof chunk_end_le.
  destruct (earliest_stop_spec chunk_start chunk_end mandatory_stops) as [Hle _]. lia.
Qed.

(** No mandatory stop lies strictly inside the chunk. *)
Lemma split_stops p : chunk_start < prefill_end → p ∈ mandatory_stops → ¬ chunk_start < p < chunk_start + split.
Proof.
  rewrite split_eq. intros Hpre Hp. rewrite decide_False by lia.
  destruct (earliest_stop_spec chunk_start chunk_end mandatory_stops) as (Hle & _ & Hall). intros Hin.
  pose proof (Hall p Hp ltac:(lia)). lia.
Qed.

(** The junction of a shared prefix never stops a chunk that starts inside a block. *)
Lemma stop_aligned e :
  e ∈ mandatory_stops → chunk_start < e → (∀ p, p ∈ mandatory_stops → chunk_start < p → e ≤ p) → 0 ≤ chunk_start →
  e mod bs = 0 ∨ e = tail_boundary.
Proof.
  intros He Hs Hmin H0. pose proof (floor_le chunk_start). unfold mandatory_stops in He.
  repeat (apply elem_of_cons in He as [He|He]); [..|by apply elem_of_nil in He]; subst e; revert Hs Hmin.
  - case_decide; [|lia]. intros _ _. left. unfold next_boundary. apply mul_mod.
  - unfold last_stop. destruct internal_checkpoint; [lia|]. intros _ _. left. apply last_cached_mod.
  - case_decide; [|lia]. by right.
  - case_decide; [|lia]. intros Hs Hmin. left. destruct (decide (chunk_start mod bs = 0)) as [Hz|Hz].
    + rewrite Z.add_mod, Hz, mul_mod by lia. by rewrite Z.mod_0_l by lia.
    + exfalso. set (k := (shared_prefix_boundary r - chunk_start) // bs) in *.
      assert (1 ≤ k) by nia. pose proof (Hmin next_boundary) as Hb. unfold next_boundary in Hb.
      rewrite Z.mod_eq in Hz by lia. enough (chunk_start + k * bs ≤ (chunk_start // bs + 1) * bs) by nia.
      apply Hb; [|lia]. unfold mandatory_stops. rewrite decide_True by (rewrite Z.mod_eq by lia; lia). by left.
Qed.

(** A chunk that does not finish the prefill ends at a block boundary or at the last hash
    boundary of the prompt; only when a block does not fit into a chunk it may end inside the
    block in which it starts. *)
Lemma split_aligned :
  0 ≤ chunk_start < prefill_end → internal_checkpoint = false → 0 < split → chunk_start + split < prefill_end →
  (chunk_start + split) mod bs = 0 ∨ chunk_start + split = tail_boundary ∨
  max_prefill < bs ∧ chunk_start + split ≤ next_boundary.
Proof.
  intros Hpre Hck. rewrite split_eq, decide_False by lia. intros Hpos Hend.
  destruct (earliest_stop_spec chunk_start chunk_end mandatory_stops) as (Hle & Hcase & Hall).
  set (e := earliest_stop chunk_start chunk_end mandatory_stops) in *.
  replace (chunk_start + Z.max (e - chunk_start) 0) with e in * by lia. destruct Hcase as [Heq|[He Hr]].
  - revert Heq Hend. unfold chunk_end. pose proof (floor_le (chunk_start + num_new_tokens)) as Hfl.
    pose proof (floor_le chunk_start). intros Heq Hend.
    destruct (decide (_ ∧ internal_checkpoint = false)) as [Hd|Hd] in Heq; [|exfalso; apply Hd; split; [lia|done]].
    destruct (decide (_ ∨ _)) as [Hd'|Hd'] in Heq.
    + left. rewrite Heq. apply mul_mod.
    + right. right. split; [lia|]. unfold next_boundary. rewrite Heq.
      pose proof (Z.div_le_lower_bound chunk_start bs ((chunk_start + num_new_tokens) // bs) bs_pos ltac:(lia)). nia.
  - destruct (stop_aligned e He ltac:(lia)) as [?|?]; [|lia|by left|by right; left].
    intros p Hp Hlt. destruct (decide (p < chunk_end)); [apply Hall; [done|lia]|lia].
Qed.

(** When the kernel saves the states inside the chunk, it is shortened by a mandatory stop only. *)
Lemma split_internal : 0 ≤ chunk_start < prefill_end → internal_checkpoint = true → 0 ≤ num_new_tokens →
  split = num_new_tokens ∨ (chunk_start + split) mod bs = 0 ∨ chunk_start + split = tail_boundary.
Proof.
  intros Hpre Hck Hn. rewrite split_eq, decide_False by lia.
  destruct (earliest_stop_spec chunk_start chunk_end mandatory_stops) as (Hle & Hcase & Hall).
  set (e := earliest_stop chunk_start chunk_end mandatory_stops) in *.
  assert (chunk_end = chunk_start + num_new_tokens) as Hce by (unfold chunk_end; by rewrite decide_False by (intros [_ Hf]; congruence)).
  destruct Hcase as [Heq|[He Hr]]; [left; lia|right]. replace (chunk_start + Z.max (e - chunk_start) 0) with e by lia.
  apply stop_aligned; [done|lia| |lia]. intros p Hp Hlt. destruct (decide (p < chunk_end)); [apply Hall; [done|lia]|lia].
Qed.

(** A chunk of at least a block makes progress. *)
Lemma split_progress : bs ≤ num_new_tokens → 0 < split.
Proof.
  intros Hn. rewrite split_eq. case_decide; [lia|].
  destruct (earliest_stop_spec chunk_start chunk_end mandatory_stops) as (Hle & Hcase & _).
  assert (chunk_start < chunk_end).
  { unfold chunk_end. pose proof (floor_le (chunk_start + num_new_tokens)). repeat case_decide; lia. }
  lia.
Qed.
End chunks.

(** The chunk never ends within the look-ahead of the drafter before the end of the prefill. *)
Lemma reserve_bounds cfg r c n : let k := _reserve_prefill_lookahead cfg r c n in
  0 ≤ k ≤ Z.max n 0 ∧
  (k = 0 ∨ num_tokens r - c - k ≤ 0 ∨ num_prefill_lookahead cfg ≤ num_tokens r - c - k).
Proof. cbv zeta. unfold _reserve_prefill_lookahead. cbv zeta. case_decide; lia. Qed.
