(* ===== verification/SchedFrame.v ===== *)
(** * What the operations of the scheduler leave alone

    A weakest liberal precondition for the computations of the scheduler, the relation between
    states whose queues and requests agree, and the operations that keep it: whatever the KV
    cache manager, the encoder cache manager and the connectors do. *)

From S2P Require Import Prelude FreeQueue Request Hashing Session BlockPool RequestQueue SchedUtils EncoderCache EncoderSched.
From S2P Require Import SingleType Coordinator Manager Scheduler ScheduleStep SchedOutput.

(** ** Partial correctness *)

Definition wlp {S A} (m : M S A) (Q : A → S → Prop) (s : S) : Prop := ∀ a s', m s = Ok (a, s') → Q a s'.

Section wlp_rules.
Context {S : Type}.

Lemma wlp_ret {A} (a : A) Q (s : S) : Q a s → wlp (mret a) Q s.
Proof. by intros HQ ? ? [= <- <-]. Qed.
Lemma wlp_bind {A B} (m : M S A) (k : A → M S B) Q s : wlp m (λ a, wlp (k a) Q) s → wlp (m ≫= k) Q s.
Proof.
  intros Hm b s' Hrun. unfold mbind, M_bind in Hrun. destruct (m s) as [[a s1]|e] eqn:Hms; [|done].
  by eapply Hm.
Qed.
Lemma wlp_mono {A} (m : M S A) (Q Q' : A → S → Prop) s :
  wlp m Q s → (∀ a s', Q a s' → Q' a s') → wlp m Q' s.
Proof. intros Hm HQ a s' Hrun. by apply HQ, Hm. Qed.
Lemma wlp_gets {A} (f : S → A) Q s : Q (f s) s → wlp (gets f) Q s.
Proof. by intros HQ ? ? [= <- <-]. Qed.
Lemma wlp_modify (f : S → S) Q s : Q tt (f s) → wlp (modify f) Q s.
Proof. by intros HQ ? ? [= <- <-]. Qed.
Lemma wlp_assert (b : bool) Q (s : S) : (b = true → Q tt s) → wlp (assert_ b) Q s.
Proof. intros HQ ? ?. destruct b; [|done]. intros [= <- <-]. by apply HQ. Qed.
Lemma wlp_lift {A} (r : res A) Q (s : S) : (∀ a, r = Ok a → Q a s) → wlp (lift_res r) Q s.
Proof. intros HQ a s' Hrun. unfold lift_res in Hrun. destruct r; [|done]. injection Hrun as <- <-. by apply HQ. Qed.
Lemma wlp_raise {A} e (Q : A → S → Prop) s : wlp (raise e) Q s.
Proof. by intros ? ?. Qed.
Lemma wlp_and {A} (m : M S A) (Q Q' : A → S → Prop) s :
  wlp m Q s → wlp m Q' s → wlp m (λ a s', Q a s' ∧ Q' a s') s.
Proof. intros H1 H2 a s' Hrun. split; [by apply H1|by apply H2]. Qed.
Lemma wlp_for {A} (I : list A → S → Prop) (xs : list A) body s :
  I [] s → (∀ pre x post s, xs = pre ++ x :: post → I pre s → wlp (body x) (λ _, I (pre ++ [x])) s) →
  wlp (for_ xs body) (λ _, I xs) s.
Proof.
  intros H0 Hstep.
  assert (∀ post pre s, xs = pre ++ post → I pre s → wlp (for_ post body) (λ _, I xs) s) as Hgen.
  { induction post as [|x post IH]; intros pre s' Heq HI; simpl.
    - apply wlp_ret. by rewrite Heq, app_nil_r.
    - apply wlp_bind. eapply wlp_mono; [by eapply Hstep|]. intros u s'' HI'.
      apply (IH (pre ++ [x])); [|done]. by rewrite <-app_assoc. }
  by apply (Hgen xs []).
Qed.
Lemma wlp_for_acc {A B} (I : list A → B → S → Prop) (xs : list A) (acc : B) body s :
  I [] acc s →
  (∀ pre x post acc s, xs = pre ++ x :: post → I pre acc s → wlp (body acc x) (I (pre ++ [x])) s) →
  wlp (for_acc xs acc body) (I xs) s.
Proof.
  intros H0 Hstep.
  assert (∀ post pre acc s, xs = pre ++ post → I pre acc s → wlp (for_acc post acc body) (I xs) s) as Hgen.
  { induction post as [|x post IH]; intros pre acc' s' Heq HI; simpl.
    - apply wlp_ret. by rewrite Heq, app_nil_r.
    - apply wlp_bind. eapply wlp_mono; [by eapply Hstep|]. intros acc'' s'' HI'.
      apply (IH (pre ++ [x])); [|done]. by rewrite <-app_assoc. }
  by apply (Hgen xs []).
Qed.
End wlp_rules.

Ltac wlp_step :=
  lazymatch goal with
  | |- wlp (mbind _ _) _ _ => apply wlp_bind
  | |- wlp (mret _) _ _ => apply wlp_ret
  | |- wlp (gets _) _ _ => apply wlp_gets
  | |- wlp (modify _) _ _ => apply wlp_modify
  | |- wlp (raise _) _ _ => apply wlp_raise
  | |- wlp (deref _) _ _ => apply wlp_gets
  | |- wlp (get_request _) _ _ => apply wlp_gets
  | |- wlp (let _ := _ in _) _ _ => cbv zeta
  end.
Ltac wlp_steps := repeat wlp_step.

(** ** States that agree *)

(** What stays of a request unless an operation changes its place. *)
Record same_skel (r r' : Request) : Prop := {
  ss_object : object_id r' = object_id r;
  ss_id : request_id r' = request_id r;
  ss_status : status r' = status r;
  ss_features : mm_features r' = mm_features r;
  ss_priority : priority r' = priority r;
  ss_arrival : arrival_time r' = arrival_time r;
  ss_resumable : resumable r' = resumable r
}.
#[global] Instance same_skel_equiv : Equivalence same_skel.
Proof. split; [by split|by intros ? ? []; split|intros ? ? ? [] []; split; congruence]. Qed.

Record same_core {K E N X} (s s' : Scheduler K E N X) : Prop := {
  sc_objects o : same_skel (objects s !!! o) (objects s' !!! o);
  sc_requests : sched_requests s' = sched_requests s;
  sc_waiting : waiting s' = waiting s;
  sc_skipped : skipped_waiting s' = skipped_waiting s;
  sc_running : running s' = running s;
  sc_streaming : num_waiting_for_streaming_input s' = num_waiting_for_streaming_input s
}.
#[global] Instance same_core_equiv {K E N X} : Equivalence (@same_core K E N X).
Proof.
  split; [by split|intros ? ? []; split; done|].
  intros s1 s2 s3 H1 H2. split; [intros o; etrans; [apply H1|apply H2]|by destruct H1, H2; congruence..].
Qed.

Definition Keeps {K E N X A} (m : M (Scheduler K E N X) A) : Prop := ∀ s, wlp m (λ _ s', same_core s s') s.

Section keeps.
Context {K E N X : Type}.
Abbreviation Sched := (Scheduler K E N X).

Lemma keeps_ret {A} (a : A) : Keeps (N := N) (K := K) (E := E) (X := X) (mret a).
Proof. intros s. by apply wlp_ret. Qed.
Lemma keeps_bind {A B} (m : M Sched A) (k : A → M Sched B) : Keeps m → (∀ a, Keeps (k a)) → Keeps (m ≫= k).
Proof.
  intros Hm Hk s. apply wlp_bind. eapply wlp_mono; [apply Hm|]. intros a s1 H1.
  eapply wlp_mono; [apply Hk|]. intros b s2 H2. by transitivity s1.
Qed.
Lemma keeps_gets {A} (f : Sched → A) : Keeps (gets f).
Proof. intros s. by apply wlp_gets. Qed.
Lemma keeps_raise {A} e : Keeps (K := K) (E := E) (N := N) (X := X) (A := A) (raise e).
Proof. intros s. apply wlp_raise. Qed.
Lemma keeps_assert b : Keeps (K := K) (E := E) (N := N) (X := X) (assert_ b).
Proof. intros s. by apply wlp_assert. Qed.
Lemma keeps_lift {A} (r : res A) : Keeps (K := K) (E := E) (N := N) (X := X) (lift_res r).
Proof. intros s. by apply wlp_lift. Qed.
Lemma keeps_modify (f : Sched → Sched) : (∀ s, same_core s (f s)) → Keeps (modify f).
Proof. intros Hf s. apply wlp_modify, Hf. Qed.
Lemma keeps_on_kv {A} (op : M K A) : Keeps (E := E) (N := N) (X := X) (on_kv op).
Proof. intros s a s'. unfold on_kv. destruct (op _) as [[? ?]|]; [|done]. intros [= <- <-]. by split. Qed.
Lemma keeps_on_encoder {A} (op : M E A) : Keeps (K := K) (N := N) (X := X) (on_encoder op).
Proof. intros s a s'. unfold on_encoder. destruct (op _) as [[? ?]|]; [|done]. intros [= <- <-]. by split. Qed.
Lemma keeps_on_connector {A} (a : A) op : Keeps (K := K) (E := E) (X := X) (on_connector (N := N) a op).
Proof.
  intros s b s'. unfold on_connector. destruct (connector s) as [n|]; [|by intros [= <- <-]].
  destruct (op n). intros [= <- <-]. by split.
Qed.
Lemma keeps_on_ec_connector {A} (a : A) op : Keeps (K := K) (E := E) (N := N) (on_ec_connector (X := X) a op).
Proof.
  intros s b s'. unfold on_ec_connector. destruct (ec_connector s) as [n|]; [|by intros [= <- <-]].
  destruct (op n). intros [= <- <-]. by split.
Qed.
Lemma objects_insert (objs : gmap Z Request) o o' r :
  <[o := r]> objs !!! o' = if decide (o = o') then r else objs !!! o'.
Proof. case_decide; [subst; apply lookup_total_insert_eq|by apply lookup_total_insert_ne]. Qed.
Lemma keeps_update_object o f : (∀ r, same_skel r (f r)) →
  Keeps (K := K) (E := E) (N := N) (X := X) (update_object o f).
Proof.
  intros Hf s. apply wlp_modify. split; try done. intros o'. simpl. rewrite objects_insert.
  case_decide; subst; [apply Hf|done].
Qed.
Lemma keeps_for {A} (xs : list A) (body : A → M Sched unit) : (∀ x, Keeps (body x)) → Keeps (for_ xs body).
Proof. intros Hb. induction xs as [|x xs IH]; simpl; [apply keeps_ret|]. by apply keeps_bind. Qed.
Lemma keeps_for_acc {A B} (xs : list A) (acc : B) (body : B → A → M Sched B) :
  (∀ acc x, Keeps (body acc x)) → Keeps (for_acc xs acc body).
Proof.
  intros Hb. revert acc. induction xs as [|x xs IH]; intros acc; simpl; [apply keeps_ret|]. by apply keeps_bind.
Qed.
End keeps.

(** Decompose a computation into the steps above. *)
Ltac keeps_step :=
  lazymatch goal with
  | |- Keeps (mret _) => apply keeps_ret
  | |- Keeps (mbind _ _) => apply keeps_bind; [|intros ?]
  | |- Keeps (gets _) => apply keeps_gets
  | |- Keeps (deref _) => apply keeps_gets
  | |- Keeps (get_request _) => apply keeps_gets
  | |- Keeps (raise _) => apply keeps_raise
  | |- Keeps (assert_ _) => apply keeps_assert
  | |- Keeps (lift_res _) => apply keeps_lift
  | |- Keeps (on_kv _) => apply keeps_on_kv
  | |- Keeps (on_encoder _) => apply keeps_on_encoder
  | |- Keeps (on_connector _ _) => apply keeps_on_connector
  | |- Keeps (on_ec_connector _ _) => apply keeps_on_ec_connector
  | |- Keeps (set_memo _ _) => apply keeps_update_object; by intros []
  | |- Keeps (update_object _ _) => apply keeps_update_object; by intros []
  | |- Keeps (modify _) => apply keeps_modify; by intros []
  | |- Keeps (for_ _ _) => apply keeps_for; intros ?
  | |- Keeps (for_acc _ _ _) => apply keeps_for_acc; intros ? ?
  | |- Keeps (let _ := _ in _) => cbv zeta
  | |- Keeps (if ?b then _ else _) => destruct b
  | |- Keeps (match ?x with _ => _ end) => destruct x
  | |- Keeps _ => progress cbv beta
  end.
Create HintDb keeps.
Ltac keeps := repeat (keeps_step || (progress eauto with keeps)).

(** ** Operations that keep queues and requests *)

Section operations.
Context {K E N X : Type}.
Context `{!KVManager K} `{!EncoderManager E} `{!KVConnector N} `{!ECConnector X} `{!SetIter}.
Variable cfg : SchedulerConfig.
Variable hasher : option block_hasher.
Abbreviation Sched := (Scheduler K E N X).
Abbreviation KeepsM := (Keeps (K := K) (E := E) (N := N) (X := X)).

Lemma keeps_free_request_blocks o : KeepsM (_free_request_blocks cfg o).
Proof. unfold _free_request_blocks. keeps. Qed.
Lemma keeps_free_cow blocks fence : KeepsM (_free_cow_retained_blocks cfg blocks fence).
Proof. unfold _free_cow_retained_blocks. keeps. Qed.
Lemma keeps_drain_loop entries : KeepsM (drain_loop entries).
Proof. induction entries as [|[fence blocks] entries IH]; simpl; keeps. Qed.
Lemma keeps_drain : KeepsM _drain_deferred_frees.
Proof. unfold _drain_deferred_frees. pose proof keeps_drain_loop. keeps. Qed.
Lemma keeps_connector_finished o : KeepsM (_connector_finished cfg o).
Proof. unfold _connector_finished. keeps. Qed.

Lemma keeps_allocate o a1 a2 a3 a4 a5 a6 a7 a8 a9 a10 :
  KeepsM (allocate_slots_for o a1 a2 a3 a4 a5 a6 a7 a8 a9 a10).
Proof. unfold allocate_slots_for. keeps. Qed.
Lemma keeps_plan r a1 a2 a3 : KeepsM (plan_encoder_inputs cfg r a1 a2 a3).
Proof. unfold plan_encoder_inputs. keeps. Qed.
Lemma keeps_commit_encoder o p b : KeepsM (commit_encoder_inputs o p b).
Proof. unfold commit_encoder_inputs. keeps. Qed.
Lemma keeps_commit_spec o n b : KeepsM (commit_spec_tokens o n b).
Proof. unfold commit_spec_tokens. keeps. Qed.
Lemma keeps_unschedule o b : KeepsM (unschedule cfg o b).
Proof. unfold unschedule. keeps. Qed.

Lemma keeps_local_hit o : KeepsM (_get_local_prefix_cache_hit o).
Proof. unfold _get_local_prefix_cache_hit. keeps. Qed.
Lemma keeps_match_external o blocks local diverged : KeepsM (match_external cfg o blocks local diverged).
Proof. unfold match_external. keeps. Qed.
Hint Resolve keeps_local_hit keeps_match_external keeps_plan keeps_allocate keeps_commit_encoder : keeps.
Lemma keeps_find_hit o : KeepsM (find_hit cfg o).
Proof. unfold find_hit. keeps. Qed.
Lemma keeps_waiting_tokens o h d b : KeepsM (waiting_tokens cfg o h d b).
Proof. unfold waiting_tokens. keeps. Qed.
Lemma keeps_reserved : KeepsM (_inflight_prefill_reserved_blocks cfg).
Proof. unfold _inflight_prefill_reserved_blocks. keeps. Qed.
Hint Resolve keeps_reserved : keeps.
Lemma keeps_admit o h n p : KeepsM (admit_slots cfg o h n p).
Proof. unfold admit_slots. keeps. Qed.
Lemma keeps_remote_kv o : KeepsM (_update_waiting_for_remote_kv cfg o).
Proof. unfold _update_waiting_for_remote_kv. keeps. Qed.

Lemma keeps_running_loras b : KeepsM (running_loras cfg b).
Proof. unfold running_loras. keeps. Qed.
Lemma keeps_check_batch b : KeepsM (check_batch cfg b).
Proof. unfold check_batch. keeps. Qed.
Lemma keeps_to_zero : KeepsM (_get_new_block_ids_to_zero cfg).
Proof. unfold _get_new_block_ids_to_zero. keeps. Qed.
Hint Resolve keeps_to_zero keeps_free_cow : keeps.
Lemma keeps_make_output b : KeepsM (make_output cfg b).
Proof. unfold make_output. keeps. Qed.
Lemma keeps_advance rid n : KeepsM (advance_request cfg rid n).
Proof. unfold advance_request. keeps. Qed.
Lemma keeps_placeholders out rid : KeepsM (add_placeholders cfg out rid).
Proof. unfold add_placeholders. keeps. Qed.
Hint Resolve keeps_advance keeps_placeholders : keeps.
Lemma keeps_update_after out : KeepsM (_update_after_schedule cfg out).
Proof. unfold _update_after_schedule. keeps. Qed.

Lemma keeps_scan invalid ns ev c o : KeepsM (scan_request cfg invalid ns ev c o).
Proof. unfold scan_request. keeps. Qed.
Hint Resolve keeps_scan : keeps.
Lemma keeps_invalid_blocks invalid ns : KeepsM (_handle_invalid_blocks cfg invalid ns).
Proof. unfold _handle_invalid_blocks, _update_requests_with_invalid_blocks. keeps. Qed.
Lemma keeps_in_flight o n : KeepsM (drain_in_flight o n).
Proof. unfold drain_in_flight. keeps. Qed.
Lemma keeps_reject o spec generated stale : KeepsM (reject_drafts cfg o spec generated stale).
Proof. unfold reject_drafts. keeps. Qed.
Lemma keeps_draft_tokens sa vt drafts : KeepsM (update_draft_token_ids sa vt drafts).
Proof. unfold update_draft_token_ids. keeps. Qed.
Lemma keeps_draft_output sa vt drafts spec : KeepsM (update_draft_token_ids_in_output sa vt drafts spec).
Proof.
  unfold update_draft_token_ids_in_output. apply keeps_for_acc. intros [spec' invalid] [rid tokens]. keeps.
Qed.
End operations.

#[export] Hint Resolve keeps_free_request_blocks keeps_free_cow keeps_drain keeps_connector_finished keeps_allocate
  keeps_plan keeps_commit_encoder keeps_commit_spec keeps_unschedule keeps_local_hit keeps_match_external
  keeps_find_hit keeps_waiting_tokens keeps_reserved keeps_admit keeps_remote_kv keeps_running_loras
  keeps_check_batch keeps_to_zero keeps_make_output keeps_advance keeps_placeholders keeps_update_after keeps_scan
  keeps_invalid_blocks keeps_in_flight keeps_reject keeps_draft_tokens keeps_draft_output : keeps.
