(* ===== verification/SchedQueues.v ===== *)
(** * The queues of the scheduler as collections of references

    Whatever the order of the requests, even when the heap order is lost because a queued request
    changed, the operations of both kinds of queues neither lose nor duplicate an entry. *)

From S2P Require Import Prelude FreeQueue Request Hashing Session BlockPool Heapq RequestQueue SchedUtils Scheduler.

(** ** Heaps without an order *)

Section heap.
Context {A : Type} `{Inhabited A}.
Variable ltb : A → A → bool.
Implicit Types h : list A.

(** Moving the hole from [i] to [j]. *)
Lemma hole_perm h i j x :
  (i < length h)%nat → (j < length h)%nat → <[j := x]> (<[i := h !!! j]> h) ≡ₚ <[i := x]> h.
Proof.
  intros Hi Hj. set (g := <[i := x]> h).
  assert (length g = length h) as Hlen by apply length_insert.
  destruct (decide (i = j)) as [->|Hne].
  { by rewrite list_insert_insert_eq. }
  rewrite <-(swap_perm i j g) by lia. unfold swap, g.
  rewrite list_lookup_total_insert_eq by done. rewrite list_lookup_total_insert_ne by done.
  assert (<[j := x]> (<[i := h !!! j]> h) = <[i := h !!! j]> (<[j := x]> (<[i := x]> h))) as ->; [|done].
  rewrite (list_insert_insert_ne (<[i := x]> h)), list_insert_insert_eq; done.
Qed.

Lemma siftdown_loop_perm fuel h s pos x :
  (pos < length h)%nat →
  let '(h', pos') := siftdown_loop ltb fuel h s pos x in
  <[pos' := x]> h' ≡ₚ <[pos := x]> h ∧ length h' = length h.
Proof.
  revert h pos. induction fuel as [|fuel IH]; intros h pos Hpos; simpl; [done|].
  case_decide as Hs; [|done]. destruct (ltb x _); [|done].
  pose proof (parent_lt pos ltac:(lia)) as Hp.
  specialize (IH (<[pos := h !!! parent pos]> h) (parent pos)). rewrite length_insert in IH.
  specialize (IH ltac:(lia)). destruct (siftdown_loop _ _ _ _ _ _) as [h' pos'].
  destruct IH as [IH ->]. split; [|done]. rewrite IH. apply hole_perm; lia.
Qed.

Lemma siftdown_perm h s pos : (pos < length h)%nat → _siftdown ltb h s pos ≡ₚ h.
Proof.
  intros Hpos. unfold _siftdown. pose proof (siftdown_loop_perm (S pos) h s pos (h !!! pos) Hpos) as Hp.
  destruct (siftdown_loop _ _ _ _ _ _) as [h' pos']. destruct Hp as [-> _].
  rewrite list_insert_id; [done|]. by apply list_lookup_lookup_total_lt.
Qed.

Lemma siftup_loop_perm fuel h pos x :
  (pos < length h)%nat →
  let '(h', pos') := siftup_loop ltb fuel h pos in
  <[pos' := x]> h' ≡ₚ <[pos := x]> h ∧ length h' = length h ∧ (pos' < length h)%nat.
Proof.
  revert h pos. induction fuel as [|fuel IH]; intros h pos Hpos; cbn [siftup_loop]; [done|].
  case_decide as Hc; [|done]. cbv zeta.
  match goal with |- context [siftup_loop ltb fuel _ ?c] => set (child := c) end.
  assert (child < length h)%nat as Hch.
  { unfold child. case_decide; [|done]. by destruct (negb _). }
  specialize (IH (<[pos := h !!! child]> h) child). rewrite length_insert in IH. specialize (IH Hch).
  destruct (siftup_loop _ _ _ _) as [h' pos']. destruct IH as (IH & -> & ?). split_and!; [|done|done].
  rewrite IH. by apply hole_perm.
Qed.

Lemma siftup_perm h pos : (pos < length h)%nat → _siftup ltb h pos ≡ₚ h.
Proof.
  intros Hpos. unfold _siftup. pose proof (siftup_loop_perm (length h) h pos (h !!! pos) Hpos) as Hp.
  destruct (siftup_loop _ _ _ _) as [h' pos']. destruct Hp as (Hp & Hlen & Hpos').
  rewrite siftdown_perm by (rewrite length_insert; lia). rewrite Hp.
  rewrite list_insert_id; [done|]. by apply list_lookup_lookup_total_lt.
Qed.

Lemma heappush_perm h x : heappush ltb h x ≡ₚ x :: h.
Proof.
  unfold heappush. rewrite siftdown_perm by (rewrite length_app; simpl; lia). symmetry. apply Permutation_cons_append.
Qed.

Lemma heappop_perm h :
  match heappop ltb h with
  | Ok (x, h') => h ≡ₚ x :: h' ∧ head h = Some x
  | Raise e => e = IndexError ∧ h = []
  end.
Proof.
  unfold heappop. destruct (last h) as [z|] eqn:Hz; [|by apply last_None in Hz].
  apply last_Some in Hz as [h0 ->]. rewrite length_app. simpl length.
  replace (length h0 + 1 - 1)%nat with (length h0) by lia. rewrite take_app_length.
  destruct h0 as [|x h0]; simpl; [done|]. split; [|done].
  rewrite siftup_perm by (simpl; lia). f_equiv. symmetry. apply Permutation_cons_append.
Qed.

Lemma heapify_perm h : heapify ltb h ≡ₚ h.
Proof.
  unfold heapify. pose proof (Nat.div2_decr (length h) (length h) ltac:(lia)) as Hle. revert Hle.
  generalize (Nat.div2 (length h)) as n. intros n.
  assert (∀ h', length h' = length h → (n ≤ length h')%nat → foldl (_siftup ltb) h' (reverse (seq 0 n)) ≡ₚ h') as Hgen.
  { induction n as [|n IH]; intros h' Hlen Hn; [done|].
    rewrite seq_S, reverse_snoc. simpl. pose proof (siftup_perm h' n ltac:(lia)) as Hp.
    pose proof (Permutation_length Hp). rewrite IH; [done|lia|lia]. }
  intros Hn. by apply Hgen.
Qed.
End heap.

Lemma heap_drain_perm n h : length h = n → heap_drain n h ≡ₚ h.
Proof.
  revert h. induction n as [|n IH]; intros h Hn; [by apply nil_length_inv in Hn as ->|].
  simpl. pose proof (heappop_perm request_ltb h) as Hp. destruct (heappop request_ltb h) as [[r h']|e].
  - destruct Hp as [Hp _]. rewrite Hp. f_equiv. apply IH. apply Permutation_length in Hp. simpl in Hp. lia.
  - by destruct Hp as [_ ->].
Qed.

(** ** Queues of references *)

Section queues.
Variable p : SchedulingPolicy.
Variable objs : gmap Z Request.
Implicit Types q : list Z.

(** The references are the identities of their objects. *)
Definition refs_ok q : Prop := ∀ o, o ∈ q → object_id (objs !!! o) = o.

Lemma refs_view q : refs_ok q → object_id <$> q_view objs q = q.
Proof.
  intros Hq. unfold q_view. rewrite <-list_fmap_compose. rewrite <-(list_fmap_id q) at 2.
  apply list_fmap_ext. intros i o Ho. simpl. apply Hq. by eapply list_elem_of_lookup_2.
Qed.

Lemma q_add_perm q o : refs_ok (o :: q) → q_add p objs q o ≡ₚ o :: q.
Proof.
  intros Hq. pose proof (refs_view (o :: q) Hq) as Hv. unfold q_add, lift_queue. destruct p; simpl.
  - rewrite <-Permutation_cons_append. change (object_id <$> q_view objs (o :: q) ≡ₚ o :: q). by rewrite Hv.
  - rewrite heappush_perm. change (object_id <$> q_view objs (o :: q) ≡ₚ o :: q). by rewrite Hv.
Qed.

Lemma q_prepend_perm q o : refs_ok (o :: q) → q_prepend p objs q o ≡ₚ o :: q.
Proof.
  intros Hq. pose proof (refs_view (o :: q) Hq) as Hv. unfold q_prepend, lift_queue. destruct p; simpl.
  - change (object_id <$> q_view objs (o :: q) ≡ₚ o :: q). by rewrite Hv.
  - rewrite heappush_perm. change (object_id <$> q_view objs (o :: q) ≡ₚ o :: q). by rewrite Hv.
Qed.

Lemma view_filter q os : refs_ok q → refs_ok os →
  object_id <$> filter (λ r, ¬ in_requests r (q_view objs os)) (q_view objs q) = filter (λ o, o ∉ os) q.
Proof.
  intros Hq Hos. induction q as [|o q IH]; [done|].
  assert (∀ r, in_requests r (q_view objs os) ↔ object_id r ∈ os) as Hin.
  { intros r. unfold in_requests. by rewrite (refs_view os Hos). }
  assert (object_id (objs !!! o) = o) as Ho by (apply Hq; by left).
  assert (refs_ok q) as Hq' by (intros x Hx; apply Hq; by right).
  change (q_view objs (o :: q)) with (objs !!! o :: q_view objs q). rewrite !filter_cons. specialize (IH Hq').
  specialize (Hin (objs !!! o)). rewrite Ho in Hin.
  destruct (decide (¬ in_requests _ _)), (decide (o ∉ os)); try tauto. rewrite fmap_cons, Ho. by f_equal.
Qed.

Lemma q_removes_perm q os : refs_ok q → refs_ok os → q_removes p objs q os ≡ₚ filter (λ o, o ∉ os) q.
Proof.
  intros Hq Hos. pose proof (view_filter q os Hq Hos) as Hv. unfold q_removes, lift_queue. destruct p; simpl.
  - by rewrite Hv.
  - rewrite heapify_perm. by rewrite Hv.
Qed.

Lemma q_pop_perm q o q' : refs_ok q → q_pop p objs q = Ok (o, q') → q ≡ₚ o :: q' ∧ q_peek p objs q = Ok o.
Proof.
  intros Hq. pose proof (refs_view q Hq) as Hv. unfold q_pop, q_peek. destruct p; simpl.
  - unfold fcfs_pop, fcfs_peek. simpl. destruct (q_view objs q) as [|r l]; [done|].
    simpl. intros [= <- <-]. split; [|done]. by rewrite <-Hv.
  - unfold prio_pop, prio_peek. simpl. pose proof (heappop_perm request_ltb (q_view objs q)) as Hp.
    destruct (heappop request_ltb (q_view objs q)) as [[r h]|e]; [|done]. simpl. intros [= <- <-].
    destruct Hp as [Hp Hhd]. split.
    + rewrite <-Hv, Hp. done.
    + destruct (q_view objs q); [done|]. by injection Hhd as ->.
Qed.

(** A queue that is not empty has a first request, which is in it. *)
Lemma q_peek_elem q o : refs_ok q → q_peek p objs q = Ok o → o ∈ q.
Proof.
  intros Hq. pose proof (refs_view q Hq) as Hv. unfold q_peek.
  assert (∀ r, head (q_view objs q) = Some r → object_id r ∈ q) as Hhd.
  { intros r Hr. rewrite <-Hv. apply list_elem_of_fmap. exists r. split; [done|].
    destruct (q_view objs q); [done|]. injection Hr as ->. by left. }
  destruct p; simpl; unfold fcfs_peek, prio_peek; simpl;
    (destruct (q_view objs q) as [|r l] eqn:Hl; [done|]); simpl; intros [= <-]; by apply Hhd.
Qed.

Lemma q_iter_perm q : refs_ok q → q_iter p objs q ≡ₚ q.
Proof.
  intros Hq. pose proof (refs_view q Hq) as Hv. unfold q_iter. destruct p; simpl; [by rewrite Hv|].
  rewrite heap_drain_perm by done. by rewrite Hv.
Qed.

Lemma foldl_cons_perm {A} (l rs : list A) : foldl (λ l r, r :: l) l rs ≡ₚ rs ++ l.
Proof.
  revert l. induction rs as [|r rs IH]; intros l; simpl; [done|]. rewrite IH. symmetry. apply Permutation_middle.
Qed.
Lemma foldl_push_perm h rs : _heap (foldl prio_add (mkPriority h) rs) ≡ₚ rs ++ h.
Proof.
  revert h. induction rs as [|r rs IH]; intros h; simpl; [done|]. unfold prio_add at 2. simpl.
  rewrite IH, heappush_perm. symmetry. apply Permutation_middle.
Qed.

Lemma q_prepends_perm q other : refs_ok q → refs_ok other → q_prepends p objs q other ≡ₚ other ++ q.
Proof.
  intros Hq Ho. pose proof (q_iter_perm other Ho) as Hi.
  assert (refs_ok (q_iter p objs other)) as Ho' by (intros o; rewrite Hi; apply Ho).
  pose proof (refs_view q Hq) as Hv. pose proof (refs_view _ Ho') as Hv'.
  unfold q_prepends, lift_queue. set (it := q_iter p objs other) in *. clearbody it. destruct p; simpl.
  - rewrite foldl_cons_perm, fmap_app, Hv. by rewrite Hv', Hi.
  - unfold prio_prepend_requests. rewrite foldl_push_perm, fmap_app, Hv. by rewrite Hv', Hi.
Qed.
End queues.
