(* ===== verification/SchedInvariant.v ===== *)
(** * Where the requests are

    Every request that is not finished is in exactly one queue of the scheduler, with the status
    that belongs there.  This file states the invariant on the queues and shows what moving one
    request does to it. *)

From S2P Require Import Prelude FreeQueue Request Hashing Session BlockPool Heapq RequestQueue SchedUtils EncoderCache EncoderSched.
From S2P Require Import SingleType Coordinator Manager Scheduler ScheduleStep SchedOutput SchedFrame SchedQueues.

Section placed.
(** [max_num_running_reqs] *)
Variable max_running : Z.
Implicit Types (objs : gmap Z Request) (reqs : list (string * Z)) (run wait skip : list Z).

Definition streaming objs (skip : list Z) : Z :=
  len (filter (λ o, status (objs !!! o) = WAITING_FOR_STREAMING_REQ) skip).

(** [reqs] are the known requests, [n] counts the sessions that wait for input; they keep their
    place in the batch of the workers. *)
Record placed objs reqs run wait skip (n : Z) : Prop := mk_placed {
  pl_keys : NoDup reqs.*1;
  pl_refs rid o : (rid, o) ∈ reqs → object_id (objs !!! o) = o ∧ request_id (objs !!! o) = rid;
  pl_nodup : NoDup (run ++ wait ++ skip);
  pl_live o : o ∈ run ++ wait ++ skip → ∃ rid, (rid, o) ∈ reqs;
  pl_run o : o ∈ run → status (objs !!! o) = RUNNING;
  pl_wait o : o ∈ wait → status (objs !!! o) = WAITING ∨ status (objs !!! o) = PREEMPTED;
  pl_skip o : o ∈ skip → status (objs !!! o) ≠ RUNNING ∧ is_finished (objs !!! o) = false;
  pl_complete rid o : (rid, o) ∈ reqs → is_finished (objs !!! o) = false → o ∈ run ++ wait ++ skip;
  pl_count : n = streaming objs skip;
  pl_bound : len run + n ≤ max_running
}.

Lemma placed_perm objs reqs run wait skip n run' wait' skip' :
  run ≡ₚ run' → wait ≡ₚ wait' → skip ≡ₚ skip' → placed objs reqs run wait skip n → placed objs reqs run' wait' skip' n.
Proof.
  intros Hr Hw Hs [A B C D F G I J L O]. split; try done.
  - by rewrite <-Hr, <-Hw, <-Hs.
  - intros o. rewrite <-Hr, <-Hw, <-Hs. apply D.
  - intros o. rewrite <-Hr. apply F.
  - intros o. rewrite <-Hw. apply G.
  - intros o. rewrite <-Hs. apply I.
  - intros rid o. rewrite <-Hr, <-Hw, <-Hs. apply J.
  - rewrite L. unfold streaming, len. by rewrite Hs.
  - unfold len in *. by rewrite <-Hr.
Qed.

Lemma streaming_ext objs objs' skip :
  (∀ o, o ∈ skip → status (objs' !!! o) = status (objs !!! o)) → streaming objs' skip = streaming objs skip.
Proof.
  intros Hst. unfold streaming. f_equal. induction skip as [|o skip IH]; [done|].
  rewrite !filter_cons, IH by (intros; apply Hst; by right).
  destruct (decide (status (objs' !!! o) = _)) as [H1|H1], (decide (status (objs !!! o) = _)) as [H2|H2]; try done;
    rewrite Hst in H1 by (by left); congruence.
Qed.

Lemma placed_ext objs objs' reqs run wait skip n :
  (∀ o, same_skel (objs !!! o) (objs' !!! o)) → placed objs reqs run wait skip n → placed objs' reqs run wait skip n.
Proof.
  intros Hs [A B C D F G I J L O].
  assert (∀ o, status (objs' !!! o) = status (objs !!! o)) as Hst by (intros o; apply Hs).
  assert (∀ o, is_finished (objs' !!! o) = is_finished (objs !!! o)) as Hfin by (intros o; unfold is_finished; by rewrite Hst).
  split; try done.
  - intros rid o Hin. destruct (Hs o) as [-> -> _ _ _ _ _]. by apply B.
  - intros o. rewrite Hst. apply F.
  - intros o. rewrite Hst. apply G.
  - intros o. rewrite Hst, Hfin. apply I.
  - intros rid o. rewrite Hfin. apply J.
  - rewrite L. symmetry. by apply streaming_ext.
Qed.

(** ** Moving one request *)

Inductive place := InRun | InWait | InSkip | Out.
#[global] Instance place_eq_dec : EqDecision place.
Proof. solve_decision. Defined.

Definition run_at o (pl : place) run := if decide (pl = InRun) then o :: run else run.
Definition wait_at o (pl : place) wait := if decide (pl = InWait) then o :: wait else wait.
Definition skip_at o (pl : place) skip := if decide (pl = InSkip) then o :: skip else skip.

(** The status belongs to the place. *)
Definition fits (pl : place) (st : RequestStatus) : Prop :=
  match pl with
  | InRun => st = RUNNING
  | InWait => st = WAITING ∨ st = PREEMPTED
  | InSkip => st ≠ RUNNING ∧ is_finished_status st = false
  | Out => is_finished_status st = true
  end.

(** What the request adds to the count of sessions. *)
Definition counts (pl : place) (st : RequestStatus) : Z :=
  if decide (pl = InSkip ∧ st = WAITING_FOR_STREAMING_REQ) then 1 else 0.

Lemma at_perm o pl run wait skip :
  run_at o pl run ++ wait_at o pl wait ++ skip_at o pl skip ≡ₚ
  (if decide (pl = Out) then [] else [o]) ++ run ++ wait ++ skip.
Proof.
  unfold run_at, wait_at, skip_at. destruct pl; simpl; try done.
  - by rewrite <-Permutation_middle.
  - rewrite (app_assoc run wait (o :: skip)), <-Permutation_middle. by rewrite <-app_assoc.
Qed.

Lemma streaming_cons objs o skip :
  streaming objs (o :: skip) = streaming objs skip + (if decide (status (objs !!! o) = WAITING_FOR_STREAMING_REQ) then 1 else 0).
Proof. unfold streaming. rewrite filter_cons. case_decide; rewrite ?len_cons; lia. Qed.

Lemma streaming_at objs o pl skip :
  streaming objs (skip_at o pl skip) = streaming objs skip + counts pl (status (objs !!! o)).
Proof.
  unfold skip_at, counts. destruct (decide (pl = InSkip)) as [->|Hpl].
  - rewrite streaming_cons. do 2 case_decide; try tauto; lia.
  - rewrite decide_False by tauto. lia.
Qed.

Lemma placed_move objs objs' reqs reqs' run wait skip n n' o pl pl' :
  placed objs reqs (run_at o pl run) (wait_at o pl wait) (skip_at o pl skip) n →
  (pl = Out → o ∉ run ++ wait ++ skip) →
  (∀ o', o' ≠ o → same_skel (objs !!! o') (objs' !!! o')) →
  NoDup reqs'.*1 → (∀ rid o', o' ≠ o → (rid, o') ∈ reqs' ↔ (rid, o') ∈ reqs) →
  (∀ rid, (rid, o) ∈ reqs' → object_id (objs' !!! o) = o ∧ request_id (objs' !!! o) = rid) →
  (pl' ≠ Out → ∃ rid, (rid, o) ∈ reqs') →
  (pl' ≠ Out ∨ (∃ rid, (rid, o) ∈ reqs') → fits pl' (status (objs' !!! o))) →
  n' = n - counts pl (status (objs !!! o)) + counts pl' (status (objs' !!! o)) →
  len (run_at o pl' run) + n' ≤ max_running →
  placed objs' reqs' (run_at o pl' run) (wait_at o pl' wait) (skip_at o pl' skip) n'.
Proof.
  intros [A B C D F G I J L O] Hout Hsk Hkeys Hreqs Hself Hin' Hfit Hn Hb.
  assert (o ∉ run ++ wait ++ skip) as Hno.
  { destruct (decide (pl = Out)) as [?|Hpl]; [by apply Hout|]. rewrite at_perm, decide_False in C by done.
    by apply NoDup_cons in C as [? _]. }
  assert (NoDup (run ++ wait ++ skip)) as Hnd.
  { rewrite at_perm in C. destruct (decide (pl = Out)); [done|]. by apply NoDup_cons in C as [_ ?]. }
  assert (∀ o', o' ∈ run ++ wait ++ skip → o' ≠ o) as Hne by (intros o' ? ->; done).
  assert (∀ x, o ≠ x → status (objs' !!! x) = status (objs !!! x)) as Hst by (intros x Hx; apply Hsk; done).
  assert (∀ x, o ≠ x → is_finished (objs' !!! x) = is_finished (objs !!! x)) as Hfin
    by (intros x Hx; unfold is_finished; by rewrite Hst).
  assert (∀ x, x ∈ run → x ∈ run_at o pl run) as Hrun by (unfold run_at; intros; case_decide; [by right|done]).
  assert (∀ x, x ∈ wait → x ∈ wait_at o pl wait) as Hwait by (unfold wait_at; intros; case_decide; [by right|done]).
  assert (∀ x, x ∈ skip → x ∈ skip_at o pl skip) as Hskip by (unfold skip_at; intros; case_decide; [by right|done]).
  split; try done.
  - intros rid x Hx. destruct (decide (x = o)) as [->|Hxo]; [by apply Hself|].
    destruct (Hsk x Hxo) as [-> -> _ _ _ _ _]. apply B. by apply Hreqs.
  - rewrite at_perm. case_decide; [done|]. apply NoDup_cons. done.
  - intros x. rewrite at_perm, elem_of_app. intros [Hx|Hx].
    + case_decide; [by apply elem_of_nil in Hx|]. apply list_elem_of_singleton in Hx as ->. by apply Hin'.
    + destruct (D x) as [rid Hrid]; [rewrite at_perm, elem_of_app; by right|]. exists rid. apply Hreqs; auto.
  - intros x Hx. unfold run_at in Hx. case_decide as Hd; subst; [apply elem_of_cons in Hx as [->|Hx]|].
    + by apply Hfit; left.
    + rewrite Hst by (intros <-; apply Hno; set_solver). auto.
    + rewrite Hst by (intros <-; apply Hno; set_solver). auto.
  - intros x Hx. unfold wait_at in Hx. case_decide as Hd; subst; [apply elem_of_cons in Hx as [->|Hx]|].
    + by apply Hfit; left.
    + rewrite Hst by (intros <-; apply Hno; set_solver). auto.
    + rewrite Hst by (intros <-; apply Hno; set_solver). auto.
  - intros x Hx. unfold skip_at in Hx. case_decide as Hd; subst; [apply elem_of_cons in Hx as [->|Hx]|].
    + by apply Hfit; left.
    + rewrite Hst, Hfin by (intros <-; apply Hno; set_solver). auto.
    + rewrite Hst, Hfin by (intros <-; apply Hno; set_solver). auto.
  - intros rid x Hx Hf. rewrite at_perm, elem_of_app. destruct (decide (x = o)) as [->|Hxo].
    + case_decide as Hpl; [|left; by apply list_elem_of_singleton]. exfalso.
      specialize (Hfit ltac:(right; eauto)). rewrite Hpl in Hfit. unfold is_finished in Hf. simpl in Hfit. congruence.
    + right. rewrite Hfin in Hf by done. pose proof (J rid x ltac:(by apply Hreqs) Hf) as Hj.
      rewrite at_perm, elem_of_app in Hj. destruct Hj as [Hj|?]; [|done].
      case_decide; [by apply elem_of_nil in Hj|]. by apply list_elem_of_singleton in Hj.
  - rewrite Hn, L, !streaming_at. rewrite (streaming_ext objs objs' skip); [lia|].
    intros x Hx. apply Hst. intros <-. apply Hno. set_solver.
Qed.

(** The known requests stay the same. *)
Lemma placed_shift objs objs' reqs run wait skip n n' o pl pl' :
  placed objs reqs (run_at o pl run) (wait_at o pl wait) (skip_at o pl skip) n → pl ≠ Out →
  (∀ o', o' ≠ o → same_skel (objs !!! o') (objs' !!! o')) →
  object_id (objs' !!! o) = object_id (objs !!! o) → request_id (objs' !!! o) = request_id (objs !!! o) →
  fits pl' (status (objs' !!! o)) →
  n' = n - counts pl (status (objs !!! o)) + counts pl' (status (objs' !!! o)) →
  len (run_at o pl' run) + n' ≤ max_running →
  placed objs' reqs (run_at o pl' run) (wait_at o pl' wait) (skip_at o pl' skip) n'.
Proof.
  intros Hpl Hout Hsk Hoid Hrid Hfit Hn Hb.
  assert (∃ rid, (rid, o) ∈ reqs) as [rid Hin].
  { apply (pl_live _ _ _ _ _ _ Hpl). rewrite at_perm, decide_False by done. by left. }
  eapply placed_move; [exact Hpl|done|done|apply Hpl|done| |eauto|done|done|done].
  intros rid' Hin'. destruct (pl_refs _ _ _ _ _ _ Hpl _ _ Hin') as [H1 H2]. split; congruence.
Qed.

Lemma placed_unique objs reqs run wait skip n rid rid' o o' :
  placed objs reqs run wait skip n → (rid, o) ∈ reqs → (rid', o') ∈ reqs →
  request_id (objs !!! o) = request_id (objs !!! o') → o = o'.
Proof.
  intros Hpl Ho Ho' Heq. destruct (pl_refs _ _ _ _ _ _ Hpl _ _ Ho) as [_ Hr], (pl_refs _ _ _ _ _ _ Hpl _ _ Ho') as [_ Hr'].
  assert (rid' = rid) as -> by congruence.
  pose proof (dict_elem_get reqs rid o (pl_keys _ _ _ _ _ _ Hpl) Ho).
  pose proof (dict_elem_get reqs rid o' (pl_keys _ _ _ _ _ _ Hpl) Ho'). congruence.
Qed.
End placed.

(** ** The invariant of a scheduler *)

Section state.
Context {K E N X : Type}.
Variable cfg : SchedulerConfig.
Abbreviation Sched := (Scheduler K E N X).
Implicit Types s : Sched.

Abbreviation placed_ := (placed (max_num_running_reqs cfg)).

(** [ext] are requests that an operation took from [skipped_waiting] or will put there. *)
Definition queues_with (ext : list Z) s : Prop :=
  placed_ (objects s) (sched_requests s) (running s) (waiting s) (ext ++ skipped_waiting s)
    (num_waiting_for_streaming_input s).
Definition queues_ok s : Prop := queues_with [] s.

Lemma queues_with_core ext s s' : same_core s s' → queues_with ext s → queues_with ext s'.
Proof.
  intros [Ho Hr Hw Hs Hru Hn] Hq. unfold queues_with. rewrite Hr, Hw, Hs, Hru, Hn. by eapply placed_ext.
Qed.

Lemma queues_live ext s o : queues_with ext s → o ∈ running s ++ waiting s ++ ext ++ skipped_waiting s →
  (request_id (objects s !!! o), o) ∈ sched_requests s ∧ object_id (objects s !!! o) = o.
Proof.
  intros Hq Ho. destruct (pl_live _ _ _ _ _ _ _ Hq o Ho) as [rid Hin].
  destruct (pl_refs _ _ _ _ _ _ _ Hq _ _ Hin) as [? <-]. done.
Qed.

Lemma queues_refs ext s : queues_with ext s →
  refs_ok (objects s) (running s) ∧ refs_ok (objects s) (waiting s) ∧ refs_ok (objects s) (skipped_waiting s) ∧
  refs_ok (objects s) ext.
Proof. intros Hq. split_and!; intros o Ho; eapply queues_live; try exact Hq; set_solver. Qed.

Lemma queues_unique ext s o o' : queues_with ext s →
  o ∈ running s ++ waiting s ++ ext ++ skipped_waiting s → o' ∈ running s ++ waiting s ++ ext ++ skipped_waiting s →
  request_id (objects s !!! o) = request_id (objects s !!! o') → o = o'.
Proof.
  intros Hq Ho Ho' Heq. destruct (queues_live _ _ _ Hq Ho) as [Hin _], (queues_live _ _ _ Hq Ho') as [Hin' _].
  by eapply placed_unique.
Qed.

(** Only [o] changed, and of its place and identity at most the status. *)
Record moved (o : Z) (st : RequestStatus) (s s' : Sched) : Prop := {
  mv_others o' : o' ≠ o → same_skel (objects s !!! o') (objects s' !!! o');
  mv_self : same_skel ((objects s !!! o) <| status := st |>) (objects s' !!! o)
}.

Lemma moved_core o st s s' s'' : moved o st s s' → same_core s' s'' → moved o st s s''.
Proof.
  intros [Ho Hs] [Hc _ _ _ _ _]. split.
  - intros o' Hne. etrans; [by apply Ho|apply Hc].
  - etrans; [exact Hs|apply Hc].
Qed.

Lemma core_moved o st s s' s'' :
  (∀ x, same_skel (objects s !!! x) (objects s' !!! x)) → moved o st s' s'' → moved o st s s''.
Proof.
  intros Hc [Ho Hs]. split.
  - intros o' Hne. etrans; [apply Hc|by apply Ho].
  - etrans; [|exact Hs]. by destruct (Hc o); split.
Qed.

(** The new state of the queues. *)
Record lists s (reqs : list (string * Z)) (run wait skip : list Z) (n : Z) : Prop := {
  li_requests : sched_requests s = reqs;
  li_running : running s = run;
  li_waiting : waiting s ≡ₚ wait;
  li_skipped : skipped_waiting s ≡ₚ skip;
  li_streaming : num_waiting_for_streaming_input s = n
}.

Lemma core_lists s s' : same_core s s' →
  lists s' (sched_requests s) (running s) (waiting s) (skipped_waiting s) (num_waiting_for_streaming_input s).
Proof. intros [_ Hr Hw Hs Hru Hn]. split; try done; [by rewrite Hw|by rewrite Hs]. Qed.

Lemma lists_core s s' reqs run wait skip n : same_core s s' → lists s reqs run wait skip n → lists s' reqs run wait skip n.
Proof. intros [_ Hr Hw Hs Hru Hn] [A B C D F]. split; congruence. Qed.

(** One request changes its status and its place. *)
Lemma queues_shift ext ext' s s' o st run wait skip n' pl pl' :
  queues_with ext s → moved o st s s' → pl ≠ Out →
  running s ≡ₚ run_at o pl run → waiting s ≡ₚ wait_at o pl wait → ext ++ skipped_waiting s ≡ₚ skip_at o pl skip →
  sched_requests s' = sched_requests s →
  running s' ≡ₚ run_at o pl' run → waiting s' ≡ₚ wait_at o pl' wait → ext' ++ skipped_waiting s' ≡ₚ skip_at o pl' skip →
  fits pl' st →
  n' = num_waiting_for_streaming_input s - counts pl (status (objects s !!! o)) + counts pl' st →
  num_waiting_for_streaming_input s' = n' → len (running s') + n' ≤ max_num_running_reqs cfg →
  queues_with ext' s'.
Proof.
  intros Hq [Hoth Hself] Hout Hr Hw Hs Hreq Hr' Hw' Hs' Hfit Hn Hns Hb. unfold queues_with.
  eapply placed_perm; [symmetry; exact Hr'|symmetry; exact Hw'|symmetry; exact Hs'|].
  assert (status (objects s' !!! o) = st) as Hst by (by rewrite (ss_status _ _ Hself)).
  rewrite Hreq. eapply (placed_shift _ (objects s)); [|exact Hout|exact Hoth| | | | |].
  - eapply placed_perm; [exact Hr|exact Hw|exact Hs|exact Hq].
  - by rewrite (ss_object _ _ Hself).
  - by rewrite (ss_id _ _ Hself).
  - by rewrite Hst.
  - rewrite Hst, Hns. exact Hn.
  - rewrite Hns. unfold len in *. by rewrite <-Hr'.
Qed.
End state.
