(* ===== verification/SchedRunning.v ===== *)
(** * The running requests in a step

    The first phase of [schedule]: budgets, preemption and the queues, for any KV cache manager,
    encoder cache manager and connectors. *)

From S2P Require Import Prelude FreeQueue Request Hashing Session BlockPool Heapq RequestQueue SchedUtils EncoderCache EncoderSched.
From S2P Require Import SingleType Coordinator Manager Scheduler ScheduleStep SchedOutput SchedChunks SchedFrame SchedQueues SchedInvariant.

Section running.
Context {K E N X : Type}.
Context `{!KVManager K} `{!EncoderManager E} `{!KVConnector N} `{!ECConnector X} `{!SetIter}.
Variable cfg : SchedulerConfig.
Abbreviation Sched := (Scheduler K E N X).
Implicit Types s : Sched.

(** ** Preemption *)

Lemma wlp_keeps {A} (m : M Sched A) Q s :
  Keeps m → (∀ a s', same_core s s' → Q a s') → wlp m Q s.
Proof. intros Hm HQ. eapply wlp_mono; [apply Hm|]. done. Qed.

Lemma refs_same_core s s' q : same_core s s' → refs_ok (objects s) q → refs_ok (objects s') q.
Proof. intros Hc Hq o Ho. rewrite (ss_object _ _ (sc_objects _ _ Hc o)). by apply Hq. Qed.

(** An assignment to attributes of [o]. *)
Lemma update_moved o f st s :
  (∀ r, same_skel (r <| status := st |>) (f r)) →
  wlp (update_object o f) (λ _ s', moved o st s s' ∧ sched_requests s' = sched_requests s ∧ running s' = running s ∧
    waiting s' = waiting s ∧ skipped_waiting s' = skipped_waiting s ∧
    num_waiting_for_streaming_input s' = num_waiting_for_streaming_input s) s.
Proof.
  intros Hf. apply wlp_modify. split; [|done]. split; simpl.
  - intros o' Hne. by rewrite objects_insert, decide_False.
  - rewrite objects_insert, decide_True by done. exact (Hf _).
Qed.

Lemma moved_refs o st s s' q : moved o st s s' → refs_ok (objects s) q → refs_ok (objects s') q.
Proof.
  intros [Hoth Hself] Hq x Hx. destruct (decide (x = o)) as [->|Hne].
  - rewrite (ss_object _ _ Hself). by apply Hq.
  - rewrite (ss_object _ _ (Hoth x Hne)). by apply Hq.
Qed.

Lemma preempt_effect o d s :
  refs_ok (objects s) (o :: waiting s) →
  wlp (_preempt_request cfg o d) (λ _ s', status (objects s !!! o) = RUNNING ∧ moved o PREEMPTED s s' ∧
    lists s' (sched_requests s) (running s) (o :: waiting s) (skipped_waiting s) (num_waiting_for_streaming_input s)) s.
Proof.
  intros Href. unfold _preempt_request. do 2 wlp_step. apply wlp_bind, wlp_assert. intros Hrun%bool_decide_eq_true.
  apply wlp_bind, wlp_keeps; [keeps|]. intros [] s1 H1. apply wlp_bind, wlp_keeps; [keeps|]. intros [] s2 H2.
  apply wlp_bind, wlp_keeps; [keeps|]. intros [] s3 H3.
  assert (same_core s s3) as Hc by (transitivity s2; [by transitivity s1|done]). clear s1 s2 H1 H2 H3.
  apply wlp_bind. eapply wlp_mono; [apply (update_moved o _ PREEMPTED); by intros []|].
  intros [] s4 (Hm & Hr & Hru & Hw & Hs & Hn). apply wlp_bind, wlp_modify, wlp_modify. split; [done|].
  assert (moved o PREEMPTED s s4) as Hm' by (eapply core_moved; [apply Hc|done]). split; [by destruct Hm'; split|].
  split; simpl; [rewrite Hr|rewrite Hru|rewrite Hw|rewrite Hs|rewrite Hn]; try apply Hc;
    [|by rewrite (sc_skipped _ _ Hc)].
  rewrite (sc_waiting _ _ Hc). apply q_prepend_perm. by eapply moved_refs.
Qed.

(** A running request moves to the waiting queue. *)
Lemma preempt_running ext o d s s1 i :
  queues_with cfg ext s → running s !! i = Some o → same_core (s <| running ::= delete i |>) s1 →
  wlp (_preempt_request cfg o d) (λ _ s', moved o PREEMPTED s s' ∧ queues_with cfg ext s' ∧
    lists s' (sched_requests s) (delete i (running s)) (o :: waiting s) (skipped_waiting s)
      (num_waiting_for_streaming_input s)) s1.
Proof.
  intros Hq Hi Hc. destruct (queues_refs cfg ext s Hq) as (Hrun & Hwait & _).
  assert (refs_ok (objects s1) (o :: waiting s1)) as Href.
  { eapply refs_same_core; [exact Hc|]. rewrite (sc_waiting _ _ Hc).
    intros x [->|Hx]%elem_of_cons; [apply Hrun; by eapply list_elem_of_lookup_2|by apply Hwait]. }
  eapply wlp_mono; [by apply preempt_effect|]. intros [] s' (Hst & Hm & [Hr Hru Hw Hs Hn]).
  assert (moved o PREEMPTED s s') as Hm' by (eapply (core_moved o _ _ s1); [apply Hc|done]).
  rewrite (sc_requests _ _ Hc) in Hr. rewrite (sc_running _ _ Hc) in Hru. rewrite (sc_waiting _ _ Hc) in Hw.
  rewrite (sc_skipped _ _ Hc) in Hs. rewrite (sc_streaming _ _ Hc) in Hn. simpl in *.
  split; [done|]. split; [|by split].
  assert (running s ≡ₚ o :: delete i (running s)) as Hp by (by apply delete_Permutation).
  eapply (queues_shift cfg ext ext s s' o PREEMPTED (delete i (running s)) (waiting s) (ext ++ skipped_waiting s)
    _ InRun InWait); try done; simpl.
  - by rewrite Hru.
  - by rewrite Hs.
  - by right.
  - unfold counts. rewrite !decide_False by naive_solver. rewrite Hn. lia.
  - rewrite Hru. pose proof (pl_bound _ _ _ _ _ _ _ Hq) as Hb. apply Permutation_length in Hp. simpl in Hp.
    unfold counts. rewrite !decide_False by naive_solver. unfold len in *. lia.
Qed.

(** ** Accounting *)

Definition ids_of s (os : list Z) : list string := (λ o, request_id (objects s !!! o)) <$> os.

(** What the step has given to the running requests [sched], in terms of the budgets
    [(tokens, inputs)] of the step. *)
Record accounts s (tokens inputs : Z) (sched : list Z) (b : Batch) : Prop := {
  ac_keys : (num_scheduled_tokens b).*1 = ids_of s sched;
  ac_blocks : (req_to_new_blocks b).*1 = ids_of s sched;
  ac_pos n : n ∈ (num_scheduled_tokens b).*2 → 0 < n;
  ac_tokens : token_budget b + sumZ (num_scheduled_tokens b).*2 = tokens;
  ac_inputs : input_budget b + sumZ (num_scheduled_tokens b).*2 + draft_slots cfg * len sched = inputs;
  ac_tokens_left : 0 ≤ token_budget b;
  ac_inputs_left : 0 ≤ input_budget b
}.

Lemma ids_of_same s s' os : (∀ o, o ∈ os → request_id (objects s' !!! o) = request_id (objects s !!! o)) →
  ids_of s' os = ids_of s os.
Proof.
  intros Hs. unfold ids_of. apply list_fmap_ext. intros i o Ho. apply Hs. by eapply list_elem_of_lookup_2.
Qed.

Lemma accounts_same s s' tokens inputs sched b :
  (∀ o, o ∈ sched → request_id (objects s' !!! o) = request_id (objects s !!! o)) →
  accounts s tokens inputs sched b → accounts s' tokens inputs sched b.
Proof. intros Hs [A B C D F G I]. by split; rewrite ?(ids_of_same s s' sched Hs). Qed.

(** Distinct requests have distinct ids. *)
Definition distinct_ids s (os : list Z) : Prop :=
  ∀ o o', o ∈ os → o' ∈ os → request_id (objects s !!! o) = request_id (objects s !!! o') → o = o'.

Lemma ids_NoDup s os : NoDup os → distinct_ids s os → NoDup (ids_of s os).
Proof.
  intros Hnd Hd. apply NoDup_fmap_2_strong; [|done]. intros x y Hx Hy Heq. by apply Hd.
Qed.

(** Scheduling one more request. *)
Lemma accounts_add s tokens inputs sched b o n blocks :
  accounts s tokens inputs sched b → request_id (objects s !!! o) ∉ ids_of s sched →
  0 < n → n ≤ token_budget b → n + draft_slots cfg ≤ input_budget b →
  accounts s tokens inputs (sched ++ [o])
    (b <| req_to_new_blocks ::= λ d, dict_set d (request_id (objects s !!! o)) blocks |>
       <| num_scheduled_tokens ::= λ d, dict_set d (request_id (objects s !!! o)) n |>
       <| token_budget ::= λ t, t - n |> <| input_budget ::= λ t, t - (n + draft_slots cfg) |>).
Proof.
  intros [A B C D F G I] Hno Hn Ht Hi. unfold ids_of in *.
  assert (dict_set (num_scheduled_tokens b) (request_id (objects s !!! o)) n =
    num_scheduled_tokens b ++ [(request_id (objects s !!! o), n)]) as Hset.
  { apply dict_set_keys_None, dict_get_None. by rewrite A. }
  assert (dict_set (req_to_new_blocks b) (request_id (objects s !!! o)) blocks =
    req_to_new_blocks b ++ [(request_id (objects s !!! o), blocks)]) as Hset'.
  { apply dict_set_keys_None, dict_get_None. by rewrite B. }
  split; simpl; rewrite ?Hset, ?Hset', ?fmap_app; simpl; try lia.
  - unfold ids_of. by rewrite A, fmap_app.
  - unfold ids_of. by rewrite B, fmap_app.
  - intros m [?| ->%list_elem_of_singleton]%elem_of_app; auto.
  - rewrite sumZ_app. simpl. lia.
  - rewrite sumZ_app, len_app, len_cons, len_nil. simpl. lia.
Qed.

Lemma remove_first_split {A} `{EqDecision A} (l : list A) x :
  x ∈ l → ∃ l1 l2, l = l1 ++ x :: l2 ∧ remove_first l x = l1 ++ l2 ∧ x ∉ l1.
Proof.
  induction l as [|y l IH]; [by intros ?%elem_of_nil|]. intros Hx. simpl. case_decide as Hy.
  - subst. exists [], l. split_and!; [done|done|apply not_elem_of_nil].
  - apply elem_of_cons in Hx as [->|Hx]; [done|]. destruct (IH Hx) as (l1 & l2 & -> & -> & Hno).
    exists (y :: l1), l2. split_and!; [done|done|]. set_solver.
Qed.

Lemma dict_del_split {V} (d : list (string * V)) k ks1 ks2 :
  d.*1 = ks1 ++ k :: ks2 → k ∉ ks1 →
  ∃ d1 v d2, d = d1 ++ (k, v) :: d2 ∧ d1.*1 = ks1 ∧ d2.*1 = ks2 ∧ dict_get d k = Some v ∧ dict_del d k = d1 ++ d2.
Proof.
  revert d. induction ks1 as [|k1 ks1 IH]; intros [|[k' v] d] Hks Hno; csimpl in Hks; try done.
  - injection Hks as -> Hks. exists [], v, d. simpl. rewrite !decide_True by done. done.
  - injection Hks as -> Hks. assert (k ≠ k1) as Hne by set_solver. assert (k ∉ ks1) as Hno' by set_solver.
    destruct (IH d ltac:(done) Hno') as (d1 & v1 & d2 & -> & <- & <- & Hg & Hd).
    exists ((k1, v) :: d1), v1, d2. simpl. rewrite !decide_False by done. split_and!; try done. by rewrite Hd.
Qed.

(** Taking back what one request got. *)
Lemma accounts_remove s tokens inputs sched b o r :
  accounts s tokens inputs sched b → 0 ≤ draft_slots cfg → o ∈ sched → distinct_ids s sched → NoDup sched →
  request_id r = request_id (objects s !!! o) →
  ∃ restored blocks,
    dict_pop (num_scheduled_tokens b) (request_id r) = Ok (restored, dict_del (num_scheduled_tokens b) (request_id r)) ∧
    dict_pop (req_to_new_blocks b) (request_id r) = Ok (blocks, dict_del (req_to_new_blocks b) (request_id r)) ∧
    0 < restored ∧
    accounts s tokens inputs (remove_first sched o)
      (b <| num_scheduled_tokens := dict_del (num_scheduled_tokens b) (request_id r) |>
         <| token_budget ::= Z.add restored |> <| input_budget ::= Z.add (restored + draft_slots cfg) |>
         <| req_to_new_blocks := dict_del (req_to_new_blocks b) (request_id r) |>).
Proof.
  intros [A B C D F G I] Hdraft Ho Hdist Hnd Hr.
  destruct (remove_first_split sched o Ho) as (l1 & l2 & -> & Hrm & Hno).
  assert (request_id (objects s !!! o) ∉ ids_of s l1) as Hno'.
  { intros (x & Heq & Hx)%list_elem_of_fmap. apply Hno. rewrite (Hdist o x); [done|set_solver|set_solver|done]. }
  unfold ids_of in A, B. rewrite fmap_app, fmap_cons in A, B.
  destruct (dict_del_split _ _ _ _ A Hno') as (d1 & v & d2 & Hd & Hd1 & Hd2 & Hg & Hdel).
  destruct (dict_del_split _ _ _ _ B Hno') as (e1 & w & e2 & He & He1 & He2 & Hge & Hdele).
  assert (0 < v) as Hv. { apply C. rewrite Hd, fmap_app, fmap_cons. simpl. apply elem_of_app. right. by left. }
  exists v, w. rewrite !Hr. unfold dict_pop. rewrite Hg, Hge. split_and!; try done. rewrite Hdel, Hdele, Hrm.
  rewrite Hd, fmap_app, fmap_cons, sumZ_app, sumZ_cons in D, F. simpl in D, F. rewrite len_app, len_cons in F.
  split; simpl; rewrite ?fmap_app, ?sumZ_app, ?len_app.
  - by rewrite Hd1, Hd2, <-fmap_app.
  - by rewrite He1, He2, <-fmap_app.
  - intros m Hm. apply C. rewrite Hd, fmap_app, fmap_cons. simpl. apply elem_of_app in Hm as [?|?]; set_solver.
  - lia.
  - lia.
  - lia.
  - lia.
Qed.

Lemma unschedule_spec s tokens inputs o b :
  accounts s tokens inputs (scheduled_running_reqs b) b → 0 ≤ draft_slots cfg →
  distinct_ids s (scheduled_running_reqs b) → NoDup (scheduled_running_reqs b) →
  wlp (unschedule cfg o b) (λ b' s', same_core s s' ∧ accounts s tokens inputs (scheduled_running_reqs b') b' ∧
    (o ∉ scheduled_running_reqs b') ∧ scheduled_running_reqs b' ⊆ scheduled_running_reqs b ∧
    NoDup (scheduled_running_reqs b') ∧ token_budget b ≤ token_budget b' ∧ input_budget b ≤ input_budget b' ∧
    preempted_reqs b' = preempted_reqs b ∧ scheduled_new_reqs b' = scheduled_new_reqs b ∧
    scheduled_resumed_reqs b' = scheduled_resumed_reqs b) s.
Proof.
  intros Hac Hdraft Hdist Hnd. unfold unschedule. case_decide as Ho; [|by apply wlp_ret; split_and!].
  destruct (accounts_remove s tokens inputs _ b o (objects s !!! o) Hac Hdraft Ho Hdist Hnd eq_refl)
    as (restored & blocks & Hp1 & Hp2 & Hpos & [A B C D F G I]).
  destruct (remove_first_split _ _ Ho) as (l1 & l2 & Heq & Hrm & _).
  do 2 wlp_step. apply wlp_bind, wlp_lift. rewrite Hp1. intros ? [= <-].
  apply wlp_bind, wlp_lift. rewrite Hp2. intros ? [= <-]. cbv beta iota zeta. apply wlp_bind, wlp_lift. intros embeds _.
  apply wlp_ret. split; [done|]. split; [by split|]. simpl. rewrite Hrm in *. rewrite Heq in Hnd |- *.
  apply NoDup_app in Hnd as (Hn1 & Hd1 & [Hn2 Hn3]%NoDup_cons). split_and!; try done; try lia.
  - intros [Hx|Hx]%elem_of_app; [|done]. apply (Hd1 o Hx). by left.
  - intros x. rewrite !elem_of_app. set_solver.
  - apply NoDup_app. split_and!; try done. intros x Hx Hx'. apply (Hd1 x Hx). by right.
Qed.

(** ** Victims *)

Lemma key_lt_spec k1 k2 : key_lt k1 k2 = true ↔ k1.1 < k2.1 ∨ k1.1 = k2.1 ∧ k1.2 < k2.2.
Proof. unfold key_lt. rewrite orb_true_iff, andb_true_iff, !Z.ltb_lt, Z.eqb_eq. done. Qed.

Lemma pick_victim_spec objs l v : pick_victim objs l = Ok v →
  v ∈ l ∧ ∀ w, w ∈ l → key_lt (victim_key objs v) (victim_key objs w) = false.
Proof.
  unfold pick_victim. destruct l as [|o os]; [done|]. intros [= <-].
  set (step := λ best x, if key_lt (victim_key objs best) (victim_key objs x) then x else best).
  assert (∀ seen best, best ∈ seen → (∀ w, w ∈ seen → key_lt (victim_key objs best) (victim_key objs w) = false) →
    foldl step best os ∈ seen ++ os ∧
    ∀ w, w ∈ seen ++ os → key_lt (victim_key objs (foldl step best os)) (victim_key objs w) = false) as Hgen.
  { induction os as [|x os IH]; intros seen best Hin Hmax; simpl; [by rewrite app_nil_r|].
    rewrite cons_middle, app_assoc. apply IH.
    - unfold step. destruct (key_lt _ _); set_solver.
    - intros w Hw. apply not_true_iff_false. rewrite key_lt_spec. unfold step.
      apply elem_of_app in Hw as [Hw| ->%list_elem_of_singleton].
      + specialize (Hmax w Hw). apply not_true_iff_false in Hmax. rewrite key_lt_spec in Hmax.
        destruct (key_lt (victim_key objs best) (victim_key objs x)) eqn:Hlt; [|done].
        apply key_lt_spec in Hlt. lia.
      + destruct (key_lt (victim_key objs best) (victim_key objs x)) eqn:Hlt; [lia|].
        apply not_true_iff_false in Hlt. by rewrite key_lt_spec in Hlt. }
  apply (Hgen [o] o); [by left|]. intros w ->%list_elem_of_singleton. apply not_true_iff_false. rewrite key_lt_spec. lia.
Qed.

Lemma index_of_spec l v i : index_of l v = Ok i → ∃ j, i = Z.of_nat j ∧ l !! j = Some v.
Proof.
  unfold index_of. destruct (list_find (eq v) l) as [[j x]|] eqn:Hf; [|done]. intros [= <-].
  apply list_find_Some in Hf as (Hj & <- & _). eauto.
Qed.

(** The order in which requests are preempted: the last one, or one with the largest key. *)
Definition victim_ok s (i : nat) (v : Z) : Prop :=
  match policy cfg with
  | FCFS => S i = length (running s)
  | PRIORITY => ∀ w, w ∈ running s → key_lt (victim_key (objects s) v) (victim_key (objects s) w) = false
  end.

Lemma take_victim_spec s tokens inputs (idx : nat) b :
  accounts s tokens inputs (scheduled_running_reqs b) b → 0 ≤ draft_slots cfg →
  distinct_ids s (scheduled_running_reqs b) → NoDup (scheduled_running_reqs b) →
  (∀ o, o ∈ scheduled_running_reqs b → o ∈ take idx (running s)) → (idx < length (running s))%nat → NoDup (running s) →
  wlp (take_victim cfg (Z.of_nat idx) b) (λ '(v, idx', b') s', ∃ i, running s !! i = Some v ∧ victim_ok s i v ∧
    same_core (s <| running ::= delete i |>) s' ∧ idx' = Z.of_nat (if decide (i < idx)%nat then idx - 1 else idx) ∧
    accounts s tokens inputs (scheduled_running_reqs b') b' ∧ (v ∉ scheduled_running_reqs b') ∧
    scheduled_running_reqs b' ⊆ scheduled_running_reqs b ∧ NoDup (scheduled_running_reqs b') ∧
    token_budget b ≤ token_budget b' ∧ input_budget b ≤ input_budget b' ∧ preempted_reqs b' = preempted_reqs b ∧
    scheduled_new_reqs b' = scheduled_new_reqs b ∧ scheduled_resumed_reqs b' = scheduled_resumed_reqs b) s.
Proof.
  intros Hac Hdraft Hdist Hnd Hbefore Hidx Hndr. unfold take_victim, victim_ok. do 2 wlp_step.
  destruct (policy cfg).
  - destruct (last (running s)) as [v|] eqn:Hv; [|apply wlp_raise].
    rewrite last_lookup in Hv. set (i := Nat.pred (length (running s))) in *.
    apply wlp_bind, wlp_modify, wlp_ret. exists i. split; [done|]. split; [unfold i; lia|]. split.
    { assert (take (length (running s) - 1) (running s) = delete i (running s)) as Hdel.
      { rewrite delete_take_drop, drop_ge, app_nil_r by (unfold i; lia). f_equal. unfold i. lia. }
      by split. }
    split; [rewrite decide_False by (unfold i; lia); done|]. split_and!; try done.
    intros Hin%Hbefore. apply list_elem_of_lookup in Hin as [j Hj]. apply lookup_take_Some in Hj as [Hj Hlt].
    pose proof (NoDup_lookup _ _ _ _ Hndr Hj Hv). unfold i in *. lia.
  - apply wlp_bind, wlp_lift. intros v Hv%pick_victim_spec. destruct Hv as [Hin Hmax].
    apply wlp_bind, wlp_lift. intros vi Hvi%index_of_spec. destruct Hvi as (i & -> & Hi).
    apply wlp_bind, wlp_modify. cbv zeta. apply wlp_bind.
    eapply wlp_mono; [apply (unschedule_spec _ tokens inputs v b)|]; try done.
    + destruct Hac. by split.
    + intros b' s' (Hc & Hac' & Hrest). apply wlp_ret. exists i. split; [done|]. split; [done|].
      rewrite Nat2Z.id in Hc. split; [done|]. split; [do 2 case_decide; lia|].
      split; [destruct Hac'; by split|]. exact Hrest.
Qed.

(** ** The phase *)

Lemma elem_of_take_sub {A} (l : list A) n x : x ∈ take n l → x ∈ l.
Proof. intros [j Hj]%list_elem_of_lookup. apply lookup_take_Some in Hj as [Hj _]. by eapply list_elem_of_lookup_2. Qed.
Lemma elem_of_delete_sub {A} (l : list A) i x : x ∈ delete i l → x ∈ l.
Proof.
  destruct (l !! i) as [y|] eqn:Hi.
  - intros Hx. rewrite (delete_Permutation _ _ _ Hi). by right.
  - rewrite delete_take_drop. apply lookup_ge_None in Hi. rewrite take_ge, drop_ge, app_nil_r by lia. done.
Qed.

(** The state of the phase that started in [s0] with the budgets [tokens] and [inputs], with the
    cursor at [idx]. *)
Record phase (s0 : Sched) (tokens inputs : Z) s (idx : nat) (b : Batch) : Prop := {
  ph_queues : queues_ok cfg s;
  ph_accounts : accounts s tokens inputs (scheduled_running_reqs b) b;
  ph_before o : o ∈ scheduled_running_reqs b → o ∈ take idx (running s);
  ph_nodup : NoDup (scheduled_running_reqs b);
  ph_new : scheduled_new_reqs b = [] ∧ scheduled_resumed_reqs b = [];
  ph_objects o : (o ∉ preempted_reqs b) → same_skel (objects s0 !!! o) (objects s !!! o);
  ph_preempted o : o ∈ preempted_reqs b → same_skel ((objects s0 !!! o) <| status := PREEMPTED |>) (objects s !!! o);
  ph_running : running s0 ≡ₚ running s ++ preempted_reqs b;
  ph_order :
    match policy cfg with
    | FCFS => running s0 = running s ++ reverse (preempted_reqs b)
    | PRIORITY => ∀ v w, v ∈ preempted_reqs b → w ∈ running s →
        key_lt (victim_key (objects s) v) (victim_key (objects s) w) = false
    end;
  ph_waiting : waiting s ≡ₚ preempted_reqs b ++ waiting s0;
  ph_skipped : skipped_waiting s ≡ₚ skipped_waiting s0;
  ph_requests : sched_requests s = sched_requests s0;
  ph_streaming : num_waiting_for_streaming_input s = num_waiting_for_streaming_input s0
}.

Lemma victim_key_same objs objs' o : same_skel (objs !!! o) (objs' !!! o) → victim_key objs' o = victim_key objs o.
Proof. intros []. unfold victim_key. congruence. Qed.

(** Operations that keep the queues keep the phase. *)
Lemma phase_core s0 tokens inputs s s' idx b : same_core s s' → phase s0 tokens inputs s idx b → phase s0 tokens inputs s' idx b.
Proof.
  intros Hc [A B C D F G G' I J L O P Q]. pose proof Hc as [Ho Hr Hw Hs Hru Hn].
  split; rewrite ?Hr, ?Hw, ?Hs, ?Hru, ?Hn; try done.
  - by eapply queues_with_core.
  - eapply accounts_same; [|exact B]. intros o _. apply Ho.
  - intros o Hno. etrans; [by apply G|apply Ho].
  - intros o Hin. etrans; [by apply G'|apply Ho].
  - destruct (policy cfg); [done|]. intros v w Hv Hw'.
    rewrite (victim_key_same _ _ v (Ho v)), (victim_key_same _ _ w (Ho w)). by apply J.
Qed.

Lemma phase_distinct s0 tokens inputs s idx b : phase s0 tokens inputs s idx b →
  distinct_ids s (scheduled_running_reqs b).
Proof.
  intros Hph o o' Ho Ho'. pose proof (ph_before _ _ _ _ _ _ Hph) as Hb.
  eapply queues_unique; [apply Hph|..]; apply elem_of_app; left; eapply elem_of_take_sub; by apply Hb.
Qed.

Lemma phase_nodup_running s0 tokens inputs s idx b : phase s0 tokens inputs s idx b → NoDup (running s).
Proof. intros Hph. pose proof (pl_nodup _ _ _ _ _ _ _ (ph_queues _ _ _ _ _ _ Hph)) as Hnd. by apply NoDup_app in Hnd as [? _]. Qed.

(** After the victim [v] at position [i] is preempted. *)
Lemma phase_preempted s0 tokens inputs s idx b s' b' i v :
  phase s0 tokens inputs s idx b → (idx < length (running s))%nat →
  running s !! i = Some v → victim_ok s i v → moved v PREEMPTED s s' → queues_ok cfg s' →
  lists s' (sched_requests s) (delete i (running s)) (v :: waiting s) (skipped_waiting s) (num_waiting_for_streaming_input s) →
  accounts s tokens inputs (scheduled_running_reqs b') b' → (v ∉ scheduled_running_reqs b') →
  scheduled_running_reqs b' ⊆ scheduled_running_reqs b → NoDup (scheduled_running_reqs b') →
  preempted_reqs b' = preempted_reqs b ++ [v] → scheduled_new_reqs b' = scheduled_new_reqs b →
  scheduled_resumed_reqs b' = scheduled_resumed_reqs b →
  phase s0 tokens inputs s' (if decide (i < idx)%nat then idx - 1 else idx)%nat b'.
Proof.
  intros [A B C D F G G' I J L O P Q] Hidx Hi Hv [Hoth Hself] Hq [Hr Hru Hw Hs Hn] Hac Hvno Hsub Hnd Hpre Hnew Hres.
  assert (v ∉ preempted_reqs b) as Hvp.
  { intros Hin. pose proof (pl_nodup _ _ _ _ _ _ _ A) as Hnd0. apply NoDup_app in Hnd0 as (_ & Hd & _).
    apply (Hd v); [by eapply list_elem_of_lookup_2|]. apply elem_of_app. left. rewrite L. apply elem_of_app. by left. }
  assert (∀ o, victim_key (objects s') o = victim_key (objects s) o) as Hkey.
  { intros o. destruct (decide (o = v)) as [->|Hne]; [|by apply victim_key_same, Hoth].
    unfold victim_key. by rewrite (ss_priority _ _ Hself), (ss_arrival _ _ Hself). }
  split; try done.
  - eapply accounts_same; [|exact Hac]. intros o Ho. apply Hoth. by intros ->.
  - intros o Ho. pose proof (C o (Hsub o Ho)) as Hin. apply list_elem_of_lookup in Hin as [j Hj].
    apply lookup_take_Some in Hj as [Hj Hlt].
    assert (j ≠ i) as Hji by (intros ->; apply Hvno; congruence). rewrite Hru, list_elem_of_lookup.
    case_decide as Hd.
    + destruct (decide (j < i)%nat).
      * exists j. apply lookup_take_Some. split; [|lia]. by rewrite list_lookup_delete_lt.
      * exists (j - 1)%nat. apply lookup_take_Some. split; [|lia]. rewrite list_lookup_delete_ge by lia.
        by replace (S (j - 1)) with j by lia.
    + exists j. apply lookup_take_Some. split; [|lia]. rewrite list_lookup_delete_lt by lia. done.
  - by rewrite Hnew, Hres.
  - intros o. rewrite Hpre, elem_of_app, list_elem_of_singleton. intros Ho.
    etrans; [apply G; tauto|apply Hoth; tauto].
  - intros o. rewrite Hpre, elem_of_app, list_elem_of_singleton. intros Ho. destruct (decide (o = v)) as [->|Hne].
    + etrans; [|exact Hself]. by destruct (G v Hvp); split.
    + destruct Ho as [Ho|?]; [|done]. etrans; [by apply G'|by apply Hoth].
  - rewrite Hru, Hpre, I, app_assoc. rewrite <-(Permutation_cons_append (delete i (running s) ++ preempted_reqs b)).
    apply delete_Permutation in Hi. by rewrite Hi at 1.
  - rewrite Hru, Hpre. unfold victim_ok in Hv. destruct (policy cfg).
    + rewrite J, reverse_snoc, cons_middle, app_assoc. f_equal.
      rewrite <-(take_drop_middle _ _ _ Hi) at 1. rewrite drop_ge by lia.
      rewrite delete_take_drop, drop_ge by lia. by rewrite app_nil_r.
    + intros x w Hx Hw'. rewrite !Hkey. apply elem_of_app in Hx as [Hx| ->%list_elem_of_singleton].
      * apply J; [done|]. by eapply elem_of_delete_sub.
      * apply Hv. by eapply elem_of_delete_sub.
  - rewrite Hw, Hpre, L. rewrite <-app_assoc. simpl. by rewrite Permutation_middle.
  - by rewrite Hs.
  - by rewrite Hr.
  - by rewrite Hn.
Qed.

Lemma allocate_or_preempt_spec fuel s0 tokens inputs s idx b cur n :
  0 ≤ draft_slots cfg → phase s0 tokens inputs s idx b → running s !! idx = Some cur →
  wlp (allocate_or_preempt cfg fuel cur n (Z.of_nat idx) b) (λ '(blocks, idx', b') s', ∃ j, idx' = Z.of_nat j ∧
    phase s0 tokens inputs s' j b' ∧ token_budget b ≤ token_budget b' ∧ input_budget b ≤ input_budget b' ∧
    (is_Some blocks → running s' !! j = Some cur)) s.
Proof.
  intros Hdraft. revert s idx b. induction fuel as [|fuel IH]; intros s idx b Hph Hcur; [apply wlp_raise|].
  cbn [allocate_or_preempt]. apply wlp_bind, wlp_keeps; [keeps|]. intros [blocks|] s1 Hc.
  { apply wlp_ret. exists idx. split; [done|]. split; [by eapply phase_core|]. split_and!; [done..|].
    intros _. by rewrite (sc_running _ _ Hc). }
  eapply phase_core in Hph; [|exact Hc]. rewrite <-(sc_running _ _ Hc) in Hcur. clear Hc s. rename s1 into s.
  assert (idx < length (running s))%nat as Hidx by (by eapply lookup_lt_Some). apply wlp_bind.
  eapply wlp_mono; [apply (take_victim_spec s tokens inputs idx b)|]; try done; try apply Hph.
  { by eapply phase_distinct. }
  { by eapply phase_nodup_running. }
  intros [[v idx'] b1] s1 (i & Hi & Hv & Hc & -> & Hac & Hvno & Hsub & Hnd & Ht & Hin & Hpre & Hnew & Hres).
  apply wlp_bind. eapply wlp_mono; [eapply (preempt_running [] v _ s s1 i); [apply Hph|done|done]|].
  intros [] s2 (Hm & Hq & Hli). set (b2 := b1 <| preempted_reqs ::= _ |>).
  assert (phase s0 tokens inputs s2 (if decide (i < idx)%nat then idx - 1 else idx)%nat b2) as Hph2.
  { eapply phase_preempted; [exact Hph|exact Hidx|exact Hi|exact Hv|exact Hm|exact Hq|exact Hli| |exact Hvno|
      exact Hsub|exact Hnd| |exact Hnew|exact Hres]; [|by unfold b2; simpl; rewrite Hpre].
    destruct Hac. by split. }
  destruct (decide (v = cur)) as [Hvc|Hvc].
  { apply wlp_ret. eexists. split; [done|]. split; [exact Hph2|]. split_and!; [done..|]. by intros [? ?]. }
  eapply wlp_mono; [apply IH; [exact Hph2|]|].
  - destruct Hli as [_ -> _ _ _]. assert (i ≠ idx) by (intros ->; congruence). case_decide.
    + rewrite list_lookup_delete_ge by lia. by replace (S (idx - 1)) with idx by lia.
    + by rewrite list_lookup_delete_lt by lia.
  - intros [[blocks idx2] b3] s3 (j & -> & Hph3 & ? & ? & ?). exists j. split_and!; try done; simpl in *; lia.
Qed.

(** ** Tokens of a request *)

Lemma wlp_on_encoder {A} (op : M E A) (Q : A → Sched → Prop) s :
  wlp op (λ a m, Q a (s <| encoder_cache_manager := m |>)) (encoder_cache_manager s) → wlp (on_encoder op) Q s.
Proof.
  intros Hop a s'. unfold on_encoder. destruct (op (encoder_cache_manager s)) as [[a' m]|e] eqn:Hr; [|done].
  intros [= <- <-]. by apply Hop.
Qed.

Lemma wlp_any {T A} (m : M T A) (Q : A → T → Prop) t : (∀ a t', Q a t') → wlp m Q t.
Proof. by intros HQ a t' _. Qed.

(** The encoder inputs only reduce the number of tokens. *)
Lemma schedule_inputs_bound ied dc hci r c shift n inputs p m :
  num_new_tokens p ≤ Z.max n 0 →
  (∀ i f, i ∈ inputs → index (mm_features r) i = Ok f → offset (mm_position f) < c + n + shift) →
  wlp (schedule_inputs (S := E) ied dc hci r c shift (c + n + shift) inputs p) (λ p' _, num_new_tokens p' ≤ Z.max n 0) m.
Proof.
  intros Hp Hin. revert p m Hp. induction inputs as [|i inputs IH]; intros p m Hp; [by apply wlp_ret|].
  assert (∀ p m, num_new_tokens p ≤ Z.max n 0 →
    wlp (schedule_inputs (S := E) ied dc hci r c shift (c + n + shift) inputs p) (λ p' _, num_new_tokens p' ≤ Z.max n 0) m) as Hcont.
  { intros. apply IH; [|done]. intros j f Hj. apply Hin. by right. }
  cbn [schedule_inputs]. apply wlp_bind, wlp_lift. intros f Hf. specialize (Hin i f ltac:(by left) Hf).
  destruct (ied && _); [by apply wlp_bind, wlp_assert; intros _; apply Hcont|].
  apply wlp_bind, wlp_any. intros skip m1. destruct skip; [by apply Hcont|].
  destruct (dc && _ && _); [apply wlp_ret; simpl; lia|].
  apply wlp_bind, wlp_any. intros ok m2. destruct ok; simpl; [|apply wlp_ret; simpl; case_decide; lia].
  apply wlp_bind, wlp_lift. intros [a b] _. case_decide; [by apply Hcont|].
  destruct (default false _); by apply Hcont.
Qed.

Lemma plan_bound r c n eb s : features_ok (mm_features r) →
  wlp (plan_encoder_inputs cfg r c n eb) (λ p s', same_core s s' ∧ num_new_tokens p ≤ Z.max n 0) s.
Proof.
  intros Hf. apply wlp_and; [apply keeps_plan|]. unfold plan_encoder_inputs.
  destruct (has_encoder_inputs r); [|apply wlp_ret; simpl; lia]. do 2 wlp_step. apply wlp_on_encoder.
  unfold _try_schedule_encoder_inputs. case_decide; [apply wlp_ret; simpl; lia|].
  apply wlp_bind, wlp_assert. intros _.
  destruct (window_spec (mm_features r) c (c + n + num_prefill_lookahead cfg) Hf)
    as (lo & hi & Hw & Hlo & Hhi & Hbefore & _).
  apply wlp_bind, wlp_lift. rewrite Hw. intros ? [= <-].
  apply schedule_inputs_bound; [simpl; lia|]. intros i f Hi Hidx.
  assert (0 ≤ i < hi) as Hir by (apply elem_of_range in Hi; destruct (sc_is_encoder_decoder cfg); lia).
  apply index_Ok in Hidx; [|lia]. apply (Hbefore (Z.to_nat i) f Hidx). lia.
Qed.

(** Block alignment needs blocks. *)
Definition split_ok : Prop := need_mamba_block_aligned_split cfg = true → 0 < cache_config_block_size cfg.

Lemma running_tokens_bound r b :
  split_ok → 0 < token_budget b → draft_slots cfg < input_budget b →
  running_tokens cfg r b ≤ Z.min (token_budget b) (input_budget b - draft_slots cfg).
Proof.
  intros Hsplit Ht Hi. unfold running_tokens. cbv zeta. set (n1 := if decide (0 < _ < _) then _ else _).
  set (n := Z.min (Z.min n1 _) _). assert (n ≤ Z.min (token_budget b) (input_budget b - draft_slots cfg)) by (unfold n; lia).
  destruct (need_mamba_block_aligned_split cfg) eqn:Hm; [|done].
  pose proof (split_bounds cfg (Hsplit Hm) r n 0 0) as [Hb _]. lia.
Qed.

(** What the encoder and the draft tokens do not touch. *)
Record same_accounts (b b' : Batch) : Prop := {
  sa_new : scheduled_new_reqs b' = scheduled_new_reqs b;
  sa_resumed : scheduled_resumed_reqs b' = scheduled_resumed_reqs b;
  sa_running : scheduled_running_reqs b' = scheduled_running_reqs b;
  sa_preempted : preempted_reqs b' = preempted_reqs b;
  sa_blocks : req_to_new_blocks b' = req_to_new_blocks b;
  sa_tokens : num_scheduled_tokens b' = num_scheduled_tokens b;
  sa_token_budget : token_budget b' = token_budget b;
  sa_input_budget : input_budget b' = input_budget b
}.

Lemma commit_spec_same o n b s : wlp (commit_spec_tokens o n b) (λ b' s', same_core s s' ∧ same_accounts b b') s.
Proof.
  apply wlp_and; [apply keeps_commit_spec|]. unfold commit_spec_tokens. wlp_steps.
  case_decide; [by apply wlp_ret|]. apply wlp_bind, wlp_any. intros _ s1. by case_decide; apply wlp_ret.
Qed.

Lemma commit_encoder_same o p b s : wlp (commit_encoder_inputs o p b) (λ b' s', same_core s s' ∧ same_accounts b b') s.
Proof.
  apply wlp_and; [apply keeps_commit_encoder|]. unfold commit_encoder_inputs. do 2 wlp_step. cbv zeta.
  apply wlp_bind. apply (wlp_mono _ (λ b' _, same_accounts b b')).
  - case_decide; [|by apply wlp_ret]. apply wlp_bind, wlp_any. intros _ s1. by apply wlp_ret.
  - intros b' s1 Hb. apply wlp_bind, wlp_any. intros _ s2. by apply wlp_ret.
Qed.

Lemma accounts_batch s tokens inputs sched b b' :
  same_accounts b b' → accounts s tokens inputs sched b → accounts s tokens inputs sched b'.
Proof. intros [A B C D F G I J] [A' B' C' D' F' G' I']. split; by rewrite ?F, ?G, ?I, ?J. Qed.

Lemma phase_batch s0 tokens inputs s idx b b' :
  same_accounts b b' → phase s0 tokens inputs s idx b → phase s0 tokens inputs s idx b'.
Proof.
  intros Hsa [A B C D F G G' I J L O P Q]. pose proof Hsa as [S1 S2 S3 S4 S5 S6 S7 S8].
  split; rewrite ?S1, ?S2, ?S3, ?S4; try done. by eapply accounts_batch.
Qed.

(** The request at the cursor is scheduled. *)
Lemma phase_schedule s0 tokens inputs s idx b b' o n blocks :
  phase s0 tokens inputs s idx b → running s !! idx = Some o →
  0 < n → n ≤ token_budget b → n + draft_slots cfg ≤ input_budget b →
  same_accounts (b <| scheduled_running_reqs ::= (.++ [o]) |>
    <| req_to_new_blocks ::= λ d, dict_set d (request_id (objects s !!! o)) blocks |>
    <| num_scheduled_tokens ::= λ d, dict_set d (request_id (objects s !!! o)) n |>
    <| token_budget ::= λ t, t - n |> <| input_budget ::= λ t, t - (n + draft_slots cfg) |>) b' →
  phase s0 tokens inputs s (S idx) b'.
Proof.
  intros Hph Ho Hn Ht Hi Hsa. eapply phase_batch; [exact Hsa|]. clear Hsa b'.
  pose proof (phase_nodup_running _ _ _ _ _ _ Hph) as Hndr.
  assert (o ∉ scheduled_running_reqs b) as Hno.
  { intros Hin%(ph_before _ _ _ _ _ _ Hph). apply list_elem_of_lookup in Hin as [j Hj].
    apply lookup_take_Some in Hj as [Hj Hlt]. pose proof (NoDup_lookup _ _ _ _ Hndr Hj Ho). lia. }
  assert (request_id (objects s !!! o) ∉ ids_of s (scheduled_running_reqs b)) as Hno'.
  { intros (x & Heq & Hx)%list_elem_of_fmap. apply Hno.
    assert (o = x) as ->; [|done]. eapply queues_unique; [apply Hph| | |done]; apply elem_of_app; left.
    - by eapply list_elem_of_lookup_2.
    - eapply elem_of_take_sub. by eapply (ph_before _ _ _ _ _ _ Hph). }
  pose proof (accounts_add s tokens inputs _ b o n blocks (ph_accounts _ _ _ _ _ _ Hph) Hno' Hn Ht Hi) as Hac.
  destruct Hph as [A B C D F G G' I J L O P Q]. split; try done.
  - simpl. destruct Hac. by split.
  - simpl. rewrite (take_S_r _ _ o) by done. intros x [Hx|Hx]%elem_of_app; apply elem_of_app; [left; by apply C|by right].
  - simpl. apply NoDup_app. split; [done|]. split; [|apply NoDup_singleton]. by intros x Hx ->%list_elem_of_singleton.
Qed.

Lemma running_loop_spec fuel s0 tokens inputs defer s idx b :
  0 ≤ draft_slots cfg → split_ok → (∀ o, o ∈ running s0 → features_ok (mm_features (objects s0 !!! o))) →
  phase s0 tokens inputs s idx b →
  wlp (running_loop cfg fuel defer (Z.of_nat idx) b) (λ b' s', ∃ j, phase s0 tokens inputs s' j b') s.
Proof.
  intros Hdraft Hsplit Hfeat. revert s idx b. induction fuel as [|fuel IH]; intros s idx b Hph; cbn [running_loop].
  { do 2 wlp_step. case_decide; [apply wlp_raise|]. apply wlp_ret. eauto. }
  do 2 wlp_step. case_decide as Hguard; [|apply wlp_ret; eauto].
  apply wlp_bind, wlp_lift. intros o Ho. apply index_Ok in Ho; [|lia]. rewrite Nat2Z.id in Ho.
  do 2 wlp_step. set (r := objects s !!! o). case_decide as Hin; [apply wlp_ret; eauto|].
  replace (Z.of_nat idx + 1) with (Z.of_nat (S idx)) by lia.
  assert (wlp (running_loop cfg fuel defer (Z.of_nat (S idx)) b) (λ b' s', ∃ j, phase s0 tokens inputs s' j b') s) as Hskip.
  { apply IH. destruct Hph as [A B C D F G G' I J L O P Q]. split; try done. intros x Hx.
    pose proof (C x Hx) as Hx'. rewrite (take_S_r _ _ o) by done. apply elem_of_app. by left. }
  destruct (skips_running _ _ _); [exact Hskip|].
  assert (features_ok (mm_features r)) as Hf.
  { assert (o ∈ running s0) as Ho0.
    { rewrite (ph_running _ _ _ _ _ _ Hph). apply elem_of_app. left. by eapply list_elem_of_lookup_2. }
    unfold r. destruct (decide (o ∈ preempted_reqs b)) as [Hp|Hp].
    - rewrite (ss_features _ _ (ph_preempted _ _ _ _ _ _ Hph o Hp)). by apply Hfeat.
    - rewrite (ss_features _ _ (ph_objects _ _ _ _ _ _ Hph o Hp)). by apply Hfeat. }
  pose proof (running_tokens_bound r b Hsplit ltac:(lia) ltac:(lia)) as Hrt.
  apply wlp_bind. eapply wlp_mono; [by apply plan_bound|]. intros p s1 [Hc1 Hp]. cbv zeta.
  pose proof (reserve_bounds cfg r (num_computed_tokens r) (num_new_tokens p)) as [Hres _].
  set (n := _reserve_prefill_lookahead _ _ _ _) in *. eapply phase_core in Hph; [|exact Hc1].
  case_decide as Hn0.
  { apply IH. destruct Hph as [A B C D F G G' I J L O P Q]. split; try done. intros x Hx.
    pose proof (C x Hx) as Hx'. rewrite (take_S_r _ _ o) by (by rewrite (sc_running _ _ Hc1)). apply elem_of_app. by left. }
  apply wlp_bind. eapply wlp_mono.
  { apply (allocate_or_preempt_spec _ s0 tokens inputs s1 idx b o n Hdraft Hph). by rewrite (sc_running _ _ Hc1). }
  intros [[blocks idx'] b1] s2 (j & -> & Hph2 & Hb1 & Hb2 & Hcur). destruct blocks as [blocks|]; [|apply wlp_ret; eauto].
  specialize (Hcur ltac:(done)). do 2 wlp_step. cbv zeta.
  apply wlp_bind. eapply wlp_mono; [apply commit_spec_same|]. intros b2 s3 [Hc3 Hsa2].
  apply wlp_bind. eapply wlp_mono; [apply commit_encoder_same|]. intros b3 s4 [Hc4 Hsa3].
  replace (Z.of_nat j + 1) with (Z.of_nat (S j)) by lia. apply IH.
  eapply phase_core; [exact Hc4|]. eapply phase_core; [exact Hc3|]. eapply phase_batch; [exact Hsa3|].
  eapply (phase_schedule s0 tokens inputs s2 j b1 b2 o n blocks Hph2 Hcur); [lia|lia|lia|].
  destruct Hsa2. by split.
Qed.

Lemma schedule_running_spec s tokens inputs defer b :
  0 ≤ draft_slots cfg → split_ok → (∀ o, o ∈ running s → features_ok (mm_features (objects s !!! o))) →
  phase s tokens inputs s 0 b →
  wlp (schedule_running cfg defer b) (λ b' s', ∃ j, phase s tokens inputs s' j b') s.
Proof. intros. unfold schedule_running. do 2 wlp_step. by apply (running_loop_spec _ s tokens inputs defer s 0 b). Qed.
End running.
