(* ===== verification/SchedWaiting.v ===== *)
(** * The waiting requests in a step

    The second phase of [schedule]: admission within the budgets, and the queues, for any KV cache
    manager, encoder cache manager and connectors. *)

From S2P Require Import Prelude FreeQueue Request Hashing Session BlockPool Heapq RequestQueue SchedUtils EncoderCache EncoderSched.
From S2P Require Import SingleType Coordinator Manager Scheduler ScheduleStep SchedOutput SchedChunks SchedFrame SchedQueues SchedInvariant SchedRunning.

Lemma q_peek_head p objs q o : refs_ok objs q → q_peek p objs q = Ok o ↔ head q = Some o.
Proof.
  intros Hq. unfold q_peek. destruct q as [|x q]; [by destruct p|].
  assert (object_id (objs !!! x) = x) as Hx by (apply Hq; by left).
  destruct p; simpl; rewrite Hx; split; congruence.
Qed.

Lemma counts_other pl st : st ≠ WAITING_FOR_STREAMING_REQ → counts pl st = 0.
Proof. intros Hst. unfold counts. by rewrite decide_False by tauto. Qed.

Section waiting.
Context {K E N X : Type}.
Context `{!KVManager K} `{!EncoderManager E} `{!KVConnector N} `{!ECConnector X} `{!SetIter}.
Variable cfg : SchedulerConfig.
Abbreviation Sched := (Scheduler K E N X).
Implicit Types s : Sched.

(** ** Moves of one request *)

(** The known requests, their ids and their encoder inputs stay. *)
Record same_requests s s' : Prop := {
  sr_requests : sched_requests s' = sched_requests s;
  sr_id o : request_id (objects s' !!! o) = request_id (objects s !!! o);
  sr_features o : mm_features (objects s' !!! o) = mm_features (objects s !!! o)
}.

#[global] Instance same_requests_preorder : PreOrder same_requests.
Proof. split; [by split|]. intros s1 s2 s3 [A B C] [A' B' C']. split; intros; etrans; eauto. Qed.
Lemma same_requests_core s s' : same_core s s' → same_requests s s'.
Proof. intros Hc. split; intros; apply Hc. Qed.
Lemma same_requests_moved o st s s' : moved o st s s' → sched_requests s' = sched_requests s → same_requests s s'.
Proof.
  intros [Hoth Hself] Hr. split; [done|..]; intros x; (destruct (decide (x = o)) as [->|Hne]; [|by apply Hoth]).
  - by rewrite (ss_id _ _ Hself).
  - by rewrite (ss_features _ _ Hself).
Qed.
Lemma same_requests_objects s s' : objects s' = objects s → sched_requests s' = sched_requests s → same_requests s s'.
Proof. intros Ho Hr. split; [done|..]; intros; by rewrite Ho. Qed.

Definition queue_of (from_skipped : bool) s : list Z := if from_skipped then skipped_waiting s else waiting s.

Lemma pop_from_spec from_skipped ext s : queues_with cfg ext s →
  wlp (pop_from cfg from_skipped) (λ o s', ∃ q, head (queue_of from_skipped s) = Some o ∧
    queue_of from_skipped s ≡ₚ o :: q ∧
    s' = if from_skipped then s <| skipped_waiting := q |> else s <| waiting := q |>) s.
Proof.
  intros Hq. destruct (queues_refs cfg ext s Hq) as (_ & Hw & Hs & _). unfold pop_from, queue_of. do 2 wlp_step.
  destruct from_skipped; apply wlp_bind, wlp_lift; intros [o q] Hpop.
  - destruct (q_pop_perm _ _ _ _ _ Hs Hpop) as [Hp Hk]. apply (q_peek_head _ _ _ _ Hs) in Hk.
    apply wlp_bind, wlp_modify, wlp_ret. eauto.
  - destruct (q_pop_perm _ _ _ _ _ Hw Hpop) as [Hp Hk]. apply (q_peek_head _ _ _ _ Hw) in Hk.
    apply wlp_bind, wlp_modify, wlp_ret. eauto.
Qed.

Lemma moved_refl o s s' : (∀ x, same_skel (objects s !!! x) (objects s' !!! x)) → moved o (status (objects s !!! o)) s s'.
Proof. intros Hs. split; [intros; apply Hs|]. destruct (Hs o). by split. Qed.

(** Where a request that is taken from a queue was. *)
Definition queue_place (from_skipped : bool) : place := if from_skipped then InSkip else InWait.

Lemma queue_split from_skipped ext s o q :
  queue_of from_skipped s ≡ₚ o :: q →
  ∃ wait skip, waiting s ≡ₚ wait_at o (queue_place from_skipped) wait ∧
    ext ++ skipped_waiting s ≡ₚ skip_at o (queue_place from_skipped) skip ∧
    (∀ s', (s' = if from_skipped then s <| skipped_waiting := q |> else s <| waiting := q |>) →
       waiting s' ≡ₚ wait ∧ ext ++ skipped_waiting s' ≡ₚ skip ∧ running s' = running s ∧
       objects s' = objects s ∧ sched_requests s' = sched_requests s ∧
       num_waiting_for_streaming_input s' = num_waiting_for_streaming_input s).
Proof.
  unfold queue_of, queue_place, wait_at, skip_at. destruct from_skipped; simpl; intros Hp.
  - exists (waiting s), (ext ++ q). split; [done|]. split; [rewrite Hp; symmetry; apply Permutation_middle|].
    by intros s' ->.
  - exists q, (ext ++ skipped_waiting s). split; [done|]. split; [done|]. by intros s' ->.
Qed.

(** The request of status [st] that was taken from a queue goes to the place [pl]. *)
Lemma popped_shift from_skipped ext ext' s s1 s2 o q st wait skip run n pl :
  queues_with cfg ext s → queue_of from_skipped s ≡ₚ o :: q →
  (s1 = if from_skipped then s <| skipped_waiting := q |> else s <| waiting := q |>) →
  waiting s ≡ₚ wait_at o (queue_place from_skipped) wait → ext ++ skipped_waiting s ≡ₚ skip_at o (queue_place from_skipped) skip →
  moved o st s1 s2 → sched_requests s2 = sched_requests s → running s2 = run →
  run ≡ₚ run_at o pl (running s) → waiting s2 ≡ₚ wait_at o pl wait → ext' ++ skipped_waiting s2 ≡ₚ skip_at o pl skip →
  fits pl st → num_waiting_for_streaming_input s2 = n →
  n = num_waiting_for_streaming_input s - counts (queue_place from_skipped) (status (objects s !!! o)) + counts pl st →
  len run + n ≤ max_num_running_reqs cfg → queues_with cfg ext' s2.
Proof.
  intros Hq Hp Hs1 Hw Hs Hm Hr Hrun Hrp Hw' Hs' Hfit Hn Hcount Hb.
  assert (objects s1 = objects s) as Hobj by (rewrite Hs1; by destruct from_skipped).
  assert (moved o st s s2) as Hm' by (destruct Hm; rewrite Hobj in *; by split).
  eapply (queues_shift cfg ext ext' s s2 o st (running s) wait skip n (queue_place from_skipped) pl); try done.
  - by destruct from_skipped.
  - by destruct from_skipped.
  - by rewrite Hrun.
  - by rewrite Hrun.
Qed.

Lemma head_elem {A} (l : list A) x : head l = Some x → x ∈ l.
Proof. destruct l; [done|]. intros [= ->]. by left. Qed.

Lemma bound_kept ext s : queues_with cfg ext s →
  len (running s) + num_waiting_for_streaming_input s ≤ max_num_running_reqs cfg.
Proof. apply pl_bound. Qed.

(** A request in a queue is neither running nor finished, and keeps its status when skipped. *)
Lemma queue_fits from_skipped ext s o : queues_with cfg ext s → o ∈ queue_of from_skipped s →
  fits InSkip (status (objects s !!! o)) ∧ fits (queue_place from_skipped) (status (objects s !!! o)).
Proof.
  intros Hq Ho. destruct from_skipped; simpl in *.
  - assert (o ∈ ext ++ skipped_waiting s) as Ho' by (apply elem_of_app; by right).
    pose proof (pl_skip _ _ _ _ _ _ _ Hq o Ho'). done.
  - destruct (pl_wait _ _ _ _ _ _ _ Hq o Ho) as [Hst|Hst]; rewrite Hst; naive_solver.
Qed.

(** Skipping: the request moves to the requests skipped in this pass. *)
Lemma skip_request_spec from_skipped ext s o :
  queues_with cfg ext s → head (queue_of from_skipped s) = Some o →
  wlp (skip_request cfg from_skipped o ext) (λ ext' s', ext' ≡ₚ o :: ext ∧ queues_with cfg ext' s' ∧
    running s' = running s ∧ same_requests s s') s.
Proof.
  intros Hq Hhd. unfold skip_request. apply wlp_bind. eapply wlp_mono; [by eapply pop_from_spec|].
  intros o' s1 (q & Hhd' & Hp & Hs1). assert (o' = o) as -> by congruence.
  destruct (queue_split from_skipped ext s o q Hp) as (wait & skip & Hw & Hs & Hrest).
  destruct (Hrest s1 Hs1) as (Hw1 & Hsk1 & Hr1 & Ho1 & Hreq1 & Hn1).
  destruct (queue_fits from_skipped ext s o Hq) as [Hfit _]; [by apply head_elem|].
  destruct (queues_refs cfg ext s Hq) as (_ & Hrw & Hrs & Hre).
  apply wlp_gets.
  assert (q_prepend (policy cfg) (objects s1) ext o ≡ₚ o :: ext) as Hext.
  { apply q_prepend_perm. rewrite Ho1. intros x [->|Hx]%elem_of_cons; [|by apply Hre].
    apply head_elem in Hhd. destruct from_skipped; [by apply Hrs|by apply Hrw]. }
  split; [exact Hext|]. split; [|split; [exact Hr1|by apply same_requests_objects]].
  eapply (popped_shift from_skipped ext _ s s1 s1 o q (status (objects s !!! o)) wait skip (running s) _ InSkip); try done.
  - rewrite <-Ho1. by apply moved_refl.
  - rewrite Hext. simpl. by rewrite Hsk1.
  - destruct from_skipped; simpl; [lia|].
    destruct (pl_wait _ _ _ _ _ _ _ Hq o) as [Hst|Hst]; [by apply head_elem|rewrite !counts_other by congruence; lia..].
  - by eapply bound_kept.
Qed.

(** Promotion: the request stays in its queue; only a blocked one changes its status. *)
Lemma promote_effect o s :
  wlp (_try_promote_blocked_waiting_request cfg o) (λ ok s',
    if (ok : bool) then ∃ st, (st = WAITING ∨ st = PREEMPTED) ∧ moved o st s s' ∧
      status (objects s !!! o) ≠ WAITING_FOR_STREAMING_REQ ∧
      lists s' (sched_requests s) (running s) (waiting s) (skipped_waiting s) (num_waiting_for_streaming_input s) ∧
      waiting s' = waiting s ∧ skipped_waiting s' = skipped_waiting s
    else same_core s s') s.
Proof.
  unfold _try_promote_blocked_waiting_request. do 2 wlp_step. destruct (status (objects s !!! o)) eqn:Hst; try apply wlp_raise.
  - do 2 wlp_step. destruct (negb (use_structured_output _)); [by apply wlp_ret|].
    destruct (default _ _); [by apply wlp_ret|apply wlp_bind, wlp_modify, wlp_ret; by split|].
    apply wlp_bind. eapply wlp_mono; [apply (update_moved o _ WAITING); by intros []|].
    intros [] s1 (Hm & Hr & Hru & Hw & Hs & Hn). apply wlp_ret. exists WAITING.
    split_and!; try done; [by left|split; try done; [by rewrite Hw|by rewrite Hs]].
  - do 2 wlp_step. destruct (negb _); [by apply wlp_ret|]. apply wlp_bind, wlp_keeps; [keeps|]. intros [] s1 Hc.
    apply wlp_bind, wlp_modify, wlp_ret.
    exists (if decide (num_preemptions (objects s1 !!! o) ≠ 0) then PREEMPTED else WAITING).
    split; [case_decide; auto|]. split.
    { eapply core_moved; [apply Hc|]. split; simpl.
      - intros o' Hne. by rewrite objects_insert, decide_False.
      - rewrite lookup_total_insert_eq. by destruct (objects s1 !!! o). }
    split; [done|]. destruct Hc as [_ Hr Hw Hs Hru Hn].
    split_and!; [split; simpl; try done; [by rewrite Hw|by rewrite Hs]|done|done].
  - do 2 wlp_step. apply wlp_bind, wlp_assert. intros _. by apply wlp_ret.
Qed.

(** A request that is selected is promoted, or stays as it is. *)
Lemma promote_spec from_skipped ext s o :
  queues_with cfg ext s → head (queue_of from_skipped s) = Some o →
  wlp (if _is_blocked_waiting_status (status (objects s !!! o)) then _try_promote_blocked_waiting_request cfg o
       else mret true) (λ ok s', queues_with cfg ext s' ∧ queue_of from_skipped s' = queue_of from_skipped s ∧
    running s' = running s ∧ num_waiting_for_streaming_input s' = num_waiting_for_streaming_input s ∧ same_requests s s' ∧
    (ok = true → status (objects s' !!! o) ≠ WAITING_FOR_STREAMING_REQ)) s.
Proof.
  intros Hq Hhd. destruct (_is_blocked_waiting_status _) eqn:Hb.
  2: { apply wlp_ret. split_and!; try done. intros _ Hst. by rewrite Hst in Hb. }
  eapply wlp_mono; [apply promote_effect|]. intros [] s'.
  2: { intros Hc. pose proof Hc as [_ _ Hw Hs Hr Hn]. split; [by eapply queues_with_core|].
       split; [unfold queue_of; by rewrite Hw, Hs|]. split_and!; try done. by apply same_requests_core. }
  intros (st & Hst & Hm & Hold & [Hr Hru Hw Hs Hn] & Hwe & Hse).
  assert (st ≠ WAITING_FOR_STREAMING_REQ) as Hnew by (by destruct Hst as [-> | ->]).
  split; [|split_and!; [unfold queue_of; by rewrite Hwe, Hse|done|done|by eapply same_requests_moved|]].
  2: { intros _. by rewrite (ss_status _ _ (mv_self _ _ _ _ Hm)). }
  assert (o ∈ skipped_waiting s) as Ho.
  { apply head_elem in Hhd. destruct from_skipped; [done|]. exfalso.
    destruct (pl_wait _ _ _ _ _ _ _ Hq o Hhd) as [Hw0|Hw0]; by rewrite Hw0 in Hb. }
  assert (∃ skip, ext ++ skipped_waiting s ≡ₚ o :: skip) as [skip Hsk].
  { apply elem_of_Permutation, elem_of_app. by right. }
  eapply (queues_shift cfg ext ext s s' o st (running s) (waiting s) skip _ InSkip InSkip); try done.
  - by rewrite Hru.
  - by rewrite Hse.
  - by destruct Hst as [-> | ->].
  - rewrite Hn, !counts_other by done. lia.
  - rewrite Hru, !counts_other by done. pose proof (bound_kept ext s Hq). lia.
Qed.

(** The selected request waits for its KV data. *)
Lemma start_async_spec from_skipped ext s s1 o q h :
  queues_with cfg ext s → queue_of from_skipped s ≡ₚ o :: q →
  (s1 = if from_skipped then s <| skipped_waiting := q |> else s <| waiting := q |>) →
  status (objects s !!! o) ≠ WAITING_FOR_STREAMING_REQ →
  wlp (start_async_load cfg o h ext) (λ ext' s', queues_with cfg ext' s' ∧ running s' = running s ∧ same_requests s s') s1.
Proof.
  intros Hq Hp Hs1 Hst. destruct (queue_split from_skipped ext s o q Hp) as (wait & skip & Hw & Hs & Hrest).
  destruct (Hrest s1 Hs1) as (Hw1 & Hsk1 & Hr1 & Ho1 & Hreq1 & Hn1).
  destruct (queues_refs cfg ext s Hq) as (_ & Hrw & Hrs & Hre).
  unfold start_async_load. apply wlp_bind.
  eapply wlp_mono; [apply (update_moved o _ WAITING_FOR_REMOTE_KVS); by intros []|].
  intros [] s2 (Hm & Hr & Hru & Hwe & Hse & Hn). apply wlp_bind, wlp_gets.
  assert (q_prepend (policy cfg) (objects s2) ext o ≡ₚ o :: ext) as Hext.
  { apply q_prepend_perm. eapply moved_refs; [exact Hm|]. rewrite Ho1. intros x [->|Hx]%elem_of_cons; [|by apply Hre].
    assert (o ∈ queue_of from_skipped s) as Hin by (rewrite Hp; by left).
    destruct from_skipped; [by apply Hrs|by apply Hrw]. }
  set (ext' := q_prepend _ _ _ _) in *.
  assert (queues_with cfg ext' s2) as Hq2.
  { eapply (popped_shift from_skipped ext ext' s s1 s2 o q WAITING_FOR_REMOTE_KVS wait skip (running s) _ InSkip);
      try done; [by rewrite Hr|by rewrite Hru|by rewrite Hwe| | |].
    - rewrite Hext, Hse. simpl. by rewrite Hsk1.
    - rewrite ?Hn, ?Hn1, !counts_other by done. lia.
    - rewrite ?Hn, ?Hn1. by eapply bound_kept. }
  assert (same_requests s s2) as Hids.
  { transitivity s1; [by apply same_requests_objects|by eapply same_requests_moved]. }
  assert (running s2 = running s) as Hru2 by congruence.
  eapply (wlp_mono _ (λ e s', e = ext' ∧ same_core s2 s')).
  - apply wlp_bind, wlp_keeps; [keeps|]. intros [] s3 H3. apply wlp_bind, wlp_keeps; [keeps|]. intros [] s4 H4.
    do 2 wlp_step. apply wlp_bind, wlp_keeps; [keeps|]. intros [] s5 H5. apply wlp_ret. split; [done|].
    transitivity s4; [transitivity s3; done|done].
  - intros e s' [-> Hc]. split; [by eapply queues_with_core|]. split; [by rewrite (sc_running _ _ Hc)|].
    transitivity s2; [done|by apply same_requests_core].
Qed.

(** The selected request starts or resumes. *)
Lemma start_running_spec from_skipped ext s s1 o q h n p pad b :
  queues_with cfg ext s → queue_of from_skipped s ≡ₚ o :: q →
  (s1 = if from_skipped then s <| skipped_waiting := q |> else s <| waiting := q |>) →
  len (running s) + num_waiting_for_streaming_input s < max_num_running_reqs cfg →
  wlp (start_running cfg o h n p pad b) (λ b' s', queues_with cfg ext s' ∧ running s' = running s ++ [o] ∧
    same_requests s s' ∧ ∃ new resumed blocks, [o] ≡ₚ new ++ resumed ∧
    same_accounts (b <| scheduled_new_reqs ::= (.++ new) |> <| scheduled_resumed_reqs ::= (.++ resumed) |>
      <| req_to_new_blocks ::= λ d, dict_set d (request_id (objects s !!! o)) blocks |>
      <| num_scheduled_tokens ::= λ d, dict_set d (request_id (objects s !!! o)) n |>
      <| token_budget ::= λ t, t - n |> <| input_budget ::= λ t, t - (n + draft_slots cfg) |>) b') s1.
Proof.
  intros Hq Hp Hs1 Hb. destruct (queue_split from_skipped ext s o q Hp) as (wait & skip & Hw & Hs & Hrest).
  destruct (Hrest s1 Hs1) as (Hw1 & Hsk1 & Hr1 & Ho1 & Hreq1 & Hn1).
  unfold start_running. apply wlp_bind, wlp_modify. cbv zeta. do 2 wlp_step.
  set (s2 := s1 <| running ::= (.++ [o]) |>). assert (objects s2 = objects s) as Ho2 by (rewrite <-Ho1; done). rewrite Ho2.
  set (b0 := if decide (num_external_computed_tokens h > 0) then _ else b).
  assert (same_accounts b b0) as Hsa0 by (unfold b0; by case_decide). clearbody b0. apply wlp_bind.
  apply (wlp_mono _ (λ b' s', s' = s2 ∧
    (status (objects s !!! o) = WAITING ∨ status (objects s !!! o) = PREEMPTED) ∧ ∃ new resumed, [o] ≡ₚ new ++ resumed ∧
    same_accounts (b <| scheduled_new_reqs ::= (.++ new) |> <| scheduled_resumed_reqs ::= (.++ resumed) |>) b')).
  { destruct Hsa0. destruct (decide (status _ = WAITING)) as [Hst|_]; [|destruct (decide (status _ = PREEMPTED)) as [Hst|_];
      [|apply wlp_raise]]; apply wlp_ret; (split; [done|]); (split; [auto|]).
    - exists [o], []. split; [done|]. split; simpl; rewrite ?app_nil_r; congruence.
    - exists [], [o]. split; [done|]. split; simpl; rewrite ?app_nil_r; congruence. }
  intros b1 ? (-> & Hst & new & resumed & Hone & Hsa1). do 2 wlp_step. cbv zeta.
  match goal with |- context [update_object o ?f] => set (upd := f) end.
  apply wlp_bind. eapply wlp_mono; [apply (update_moved o upd RUNNING); by intros []|]. simpl.
  intros [] s3 (Hm & Hr & Hru & Hwe & Hse & Hn).
  assert (queues_with cfg ext s3) as Hq3.
  { eapply (popped_shift from_skipped ext ext s s1 s3 o q RUNNING wait skip (running s ++ [o]) _ InRun); try done.
    - destruct Hm as [A B]. by split.
    - by rewrite Hr.
    - by rewrite Hru, <-Hr1.
    - simpl. symmetry. apply Permutation_cons_append.
    - by rewrite Hwe.
    - by rewrite Hse.
    - rewrite ?Hn, ?Hn1, !counts_other by (destruct Hst; congruence). lia.
    - rewrite ?Hn, ?Hn1, len_app, len_cons, len_nil. lia. }
  assert (same_requests s s3) as Hids.
  { transitivity s1; [by apply same_requests_objects|]. eapply same_requests_moved; [|done]. destruct Hm as [A B]. by split. }
  match goal with |- context [if pad then _ else mret ?b] => set (b2 := b) end.
  apply wlp_bind. apply (wlp_mono _ (λ b' s', same_core s3 s' ∧ same_accounts b2 b')).
  { destruct pad; [|by apply wlp_ret]. apply wlp_bind, wlp_assert. intros _. by apply wlp_ret. }
  intros b3 s4 [H4 Hsa3]. apply wlp_bind, wlp_keeps; [keeps|]. intros [] s5 H5.
  eapply wlp_mono; [apply commit_encoder_same|]. intros b4 s6 [H6 Hsa4].
  assert (same_core s3 s6) as Hc by (transitivity s5; [by transitivity s4|done]).
  split; [by eapply queues_with_core|]. split; [rewrite (sc_running _ _ Hc), Hru; by rewrite Hr1|].
  split; [transitivity s3; [done|by apply same_requests_core]|].
  exists new, resumed, (kv_get_blocks (kv_cache_manager s2) (request_id (objects s !!! o))). split; [done|].
  unfold b2 in *. destruct Hsa1, Hsa3, Hsa4. split; simpl in *; congruence.
Qed.

(** ** The phase *)

Lemma waiting_tokens_bound o h defer b s :
  split_ok cfg → features_ok (mm_features (objects s !!! o)) → 0 < token_budget b → draft_slots cfg < input_budget b →
  wlp (waiting_tokens cfg o h defer b) (λ tokens s', same_core s s' ∧
    match tokens with
    | Some (n, _, _) => load_kv_async h = true ∨ 0 < n ≤ Z.min (token_budget b) (input_budget b - draft_slots cfg)
    | None => True
    end) s.
Proof.
  intros Hsplit Hf Ht Hi. apply wlp_and; [apply keeps_waiting_tokens|]. unfold waiting_tokens. do 2 wlp_step. cbv zeta.
  set (r := objects s !!! o) in *. set (budget := Z.min _ _). destruct (load_kv_async h).
  { apply wlp_bind, wlp_assert. intros _. apply wlp_ret. by left. }
  case_decide; [by apply wlp_ret|]. destruct (padded_tokens _ _ _ _ _) as [[n0 pad]|]; [|by apply wlp_ret].
  set (n1 := if decide (0 < _ < _) then _ else _). destruct (decide (enable_chunked_prefill cfg = false ∧ _)); [by apply wlp_ret|].
  apply wlp_bind, wlp_assert. intros Hn%Z.ltb_lt. set (aligned := if need_mamba_block_aligned_split cfg then _ else _).
  assert (aligned ≤ Z.min n1 budget) as Hal.
  { unfold aligned. destruct (need_mamba_block_aligned_split cfg) eqn:Hm; [|lia].
    pose proof (split_bounds cfg (Hsplit Hm) r (Z.min n1 budget) (num_new_local_computed_tokens h)
      (num_external_computed_tokens h)) as [Hb _]. lia. }
  destruct (decide (need_mamba_block_aligned_split cfg = true ∧ aligned = 0)); [by apply wlp_ret|].
  set (choice := if decide _ then (1, false) else (aligned, pad)).
  assert (choice.1 ≤ budget) as Hch by (unfold choice; case_decide; simpl; unfold budget; lia).
  destruct choice as [k pad']. simpl in Hch. apply wlp_bind. eapply wlp_mono; [by apply plan_bound|].
  intros p s1 [_ Hp]. pose proof (reserve_bounds cfg r (hit_num_computed_tokens h) (num_new_tokens p)) as [Hres _].
  case_decide; apply wlp_ret; [done|]. right. unfold budget in *. lia.
Qed.

(** The state of the phase that started in [s0] with the batch [b0], with the skipped requests
    [ext]. *)
Record admission (s0 : Sched) (b0 : Batch) (tokens inputs : Z) (ext : list Z) s (b : Batch) : Prop := {
  ad_queues : queues_with cfg ext s;
  ad_requests : same_requests s0 s;
  ad_sched : ∃ sched, accounts cfg s tokens inputs sched b ∧ NoDup sched ∧ (∀ o, o ∈ sched → o ∈ running s) ∧
    sched ≡ₚ scheduled_running_reqs b ++ scheduled_new_reqs b ++ scheduled_resumed_reqs b;
  ad_running : scheduled_running_reqs b = scheduled_running_reqs b0;
  ad_preempted : preempted_reqs b = preempted_reqs b0;
  ad_started : ∃ started, running s = running s0 ++ started ∧ started ≡ₚ scheduled_new_reqs b ++ scheduled_resumed_reqs b
}.

Lemma admission_state s0 b0 tokens inputs ext ext' s s' b :
  admission s0 b0 tokens inputs ext s b → queues_with cfg ext' s' → running s' = running s → same_requests s s' →
  admission s0 b0 tokens inputs ext' s' b.
Proof.
  intros [A B (sched & Hac & Hnd & Hin & Hp) D D' F] Hq Hr Hs. split; try done.
  - by transitivity s.
  - exists sched. split; [eapply accounts_same; [|done]; intros; apply Hs|]. split_and!; [done| |done]. by rewrite Hr.
  - by rewrite Hr.
Qed.

Lemma admission_core s0 b0 tokens inputs ext s s' b :
  admission s0 b0 tokens inputs ext s b → same_core s s' → admission s0 b0 tokens inputs ext s' b.
Proof.
  intros Had Hc. eapply admission_state; [done| |apply Hc|by apply same_requests_core].
  eapply queues_with_core; [done|apply Had].
Qed.

(** One more request starts. *)
Lemma admission_start s0 b0 tokens inputs ext s s' b b' o n new resumed blocks :
  admission s0 b0 tokens inputs ext s b → o ∈ waiting s ++ ext ++ skipped_waiting s →
  queues_with cfg ext s' → running s' = running s ++ [o] → same_requests s s' →
  0 < n → n ≤ token_budget b → n + draft_slots cfg ≤ input_budget b → [o] ≡ₚ new ++ resumed →
  same_accounts (b <| scheduled_new_reqs ::= (.++ new) |> <| scheduled_resumed_reqs ::= (.++ resumed) |>
    <| req_to_new_blocks ::= λ d, dict_set d (request_id (objects s !!! o)) blocks |>
    <| num_scheduled_tokens ::= λ d, dict_set d (request_id (objects s !!! o)) n |>
    <| token_budget ::= λ t, t - n |> <| input_budget ::= λ t, t - (n + draft_slots cfg) |>) b' →
  admission s0 b0 tokens inputs ext s' b'.
Proof.
  intros [A B (sched & Hac & Hnd & Hin & Hp) D D' (started & Hst & Hsp)] Ho Hq Hr Hs Hn Ht Hi Hone Hsa.
  assert (o ∉ running s) as Hno.
  { intros Hrun. pose proof (pl_nodup _ _ _ _ _ _ _ A) as Hd. apply NoDup_app in Hd as (_ & Hd & _). by apply (Hd o). }
  assert (request_id (objects s !!! o) ∉ ids_of s sched) as Hno'.
  { intros (x & Heq & Hx)%list_elem_of_fmap. apply Hno.
    assert (o = x) as ->; [|by apply Hin]. eapply queues_unique; [exact A| | |done]; apply elem_of_app; [by right|left].
    by apply Hin. }
  pose proof (accounts_add cfg s tokens inputs sched b o n blocks Hac Hno' Hn Ht Hi) as Hac'.
  destruct Hsa as [S1 S2 S3 S4 S5 S6 S7 S8]. simpl in *. split; [done|by transitivity s| |congruence|congruence|].
  - exists (sched ++ [o]). split; [|split_and!].
    + eapply accounts_same; [intros; apply Hs|].
      destruct Hac'. by split; rewrite ?S5, ?S6, ?S7, ?S8.
    + apply NoDup_app. split_and!; [done| |apply NoDup_singleton]. intros x Hx ->%list_elem_of_singleton. by apply Hno, Hin.
    + rewrite Hr. intros x. rewrite !elem_of_app. naive_solver.
    + rewrite S1, S2, S3, Hp, Hone. solve_Permutation.
  - exists (started ++ [o]). split; [by rewrite Hr, Hst, app_assoc|]. rewrite S1, S2, Hsp, Hone. solve_Permutation.
Qed.

Definition requests_ok s : Prop := ∀ rid o, (rid, o) ∈ sched_requests s → features_ok (mm_features (objects s !!! o)).

Lemma waiting_features s0 b0 tokens inputs ext s b from_skipped o :
  requests_ok s0 → admission s0 b0 tokens inputs ext s b → o ∈ queue_of from_skipped s →
  features_ok (mm_features (objects s !!! o)).
Proof.
  intros Hf [A B _ _ _ _] Ho. destruct (queues_live cfg ext s o A) as [Hin _].
  { apply elem_of_app; right. destruct from_skipped; simpl in *; set_solver. }
  rewrite (sr_features _ _ B). eapply Hf. by rewrite <-(sr_requests _ _ B).
Qed.

(** The request [o] at the head of its queue is admitted with [n] tokens, or waits for its KV
    data. *)
Lemma admit_spec s0 b0 tokens inputs ext s b from_skipped o h n p pad
    (Q : list Z * Batch → Sched → Prop) (loop : list Z → Batch → M Sched (list Z * Batch)) :
  admission s0 b0 tokens inputs ext s b → head (queue_of from_skipped s) = Some o →
  status (objects s !!! o) ≠ WAITING_FOR_STREAMING_REQ →
  len (running s) + num_waiting_for_streaming_input s < max_num_running_reqs cfg →
  load_kv_async h = true ∨ 0 < n ≤ Z.min (token_budget b) (input_budget b - draft_slots cfg) →
  (∀ ext' b' s', admission s0 b0 tokens inputs ext' s' b' → wlp (loop ext' b') Q s') →
  wlp (o ← pop_from cfg from_skipped;
       if load_kv_async h then step_skipped ← start_async_load cfg o h ext; loop step_skipped b
       else b ← start_running cfg o h n p pad b; loop ext b) Q s.
Proof.
  intros Had Hhd Hst Hb Hn Hloop. pose proof (ad_queues _ _ _ _ _ _ _ Had) as Hq.
  apply wlp_bind. eapply wlp_mono; [by eapply pop_from_spec|]. intros o' s1 (q & Hhd' & Hp & Hs1).
  assert (o' = o) as -> by congruence. destruct (load_kv_async h) eqn:Hl; apply wlp_bind.
  - eapply wlp_mono; [by eapply start_async_spec|]. intros ext' s2 (Hq2 & Hr2 & Hs2). apply Hloop.
    by eapply admission_state.
  - eapply wlp_mono; [by eapply start_running_spec|].
    intros b' s2 (Hq2 & Hr2 & Hs2 & new & resumed & blocks & Hone & Hsa). apply Hloop.
    destruct Hn as [?|Hn]; [done|]. eapply (admission_start _ _ _ _ _ s s2 b b' o n new resumed blocks); try done; try lia.
    apply head_elem in Hhd. destruct from_skipped; simpl in Hhd; set_solver.
Qed.

Lemma waiting_loop_spec fuel s0 b0 tokens inputs defer ext s b :
  split_ok cfg → requests_ok s0 → admission s0 b0 tokens inputs ext s b →
  wlp (waiting_loop cfg fuel defer ext b) (λ '(ext', b') s', admission s0 b0 tokens inputs ext' s' b') s.
Proof.
  intros Hsplit Hfeat. revert ext s b. induction fuel as [|fuel IH]; intros ext s b Had; cbn [waiting_loop].
  { do 2 wlp_step. case_decide; [apply wlp_raise|by apply wlp_ret]. }
  do 2 wlp_step. case_decide as Hguard; [|by apply wlp_ret]. case_decide as Hin; [by apply wlp_ret|].
  case_decide as Hrun; [by apply wlp_ret|]. apply wlp_bind, wlp_keeps; [unfold _select_waiting_queue_for_scheduling; keeps|].
  intros [from_skipped|] s1 Hc; [|apply wlp_raise].
  apply wlp_bind, wlp_lift. intros o Ho.
  assert (head (queue_of from_skipped s) = Some o) as Hhd.
  { destruct (queues_refs cfg ext s (ad_queues _ _ _ _ _ _ _ Had)) as (_ & Hrw & Hrs & _).
    destruct from_skipped; by apply (q_peek_head (policy cfg) (objects s)). }
  assert (∀ s', admission s0 b0 tokens inputs ext s' b → queue_of from_skipped s' = queue_of from_skipped s →
    wlp (step_skipped ← skip_request cfg from_skipped o ext; waiting_loop cfg fuel defer step_skipped b)
      (λ '(ext', b') s', admission s0 b0 tokens inputs ext' s' b') s') as Hskip.
  { intros s' Had' Hqe. apply wlp_bind. eapply wlp_mono; [eapply skip_request_spec; [apply Had'|congruence]|].
    intros ext' s'' (_ & Hq & Hr & Hs). apply IH. by eapply admission_state. }
  eapply admission_core in Had; [|exact Hc]. cbv zeta.
  assert (queue_of from_skipped s1 = queue_of from_skipped s) as Hqe1
    by (unfold queue_of; by rewrite (sc_waiting _ _ Hc), (sc_skipped _ _ Hc)).
  rewrite <-(sc_running _ _ Hc), <-(sc_streaming _ _ Hc) in Hrun. rewrite <-Hqe1 in Hhd, Hskip.
  clear Hqe1 Hc Ho. do 2 wlp_step. apply wlp_bind. eapply wlp_mono; [eapply promote_spec; [apply Had|done]|].
  intros ok s2 (Hq2 & Hqe2 & Hr2 & Hn2 & Hs2 & Hst). eapply admission_state in Had; [|exact Hq2|exact Hr2|exact Hs2].
  destruct ok; simpl; [|by apply Hskip]. specialize (Hst eq_refl). do 2 wlp_step.
  destruct (_ && _); [by apply Hskip|]. destruct (exceeds_loras _ _ _); [by apply Hskip|].
  apply wlp_bind, wlp_keeps; [keeps|]. intros [h|] s3 H3;
    (eapply admission_core in Had; [|exact H3]);
    (assert (queue_of from_skipped s3 = queue_of from_skipped s1) as Hqe3
       by (rewrite <-Hqe2; unfold queue_of; by rewrite (sc_waiting _ _ H3), (sc_skipped _ _ H3)));
    [|by apply Hskip].
  apply wlp_bind. eapply wlp_mono; [apply waiting_tokens_bound; [done| |lia|lia]|].
  { eapply (waiting_features _ _ _ _ _ _ _ from_skipped); [done|exact Had|]. rewrite Hqe3. by apply head_elem. }
  intros [[[n p] pad]|] s4 [H4 Hn]; (eapply admission_core in Had; [|exact H4]); [|by apply wlp_ret].
  apply wlp_bind, wlp_keeps; [keeps|]. intros ok s5 H5. eapply admission_core in Had; [|exact H5].
  destruct ok; simpl; [|by apply wlp_ret].
  assert (same_core s2 s5) as Hc5 by (transitivity s4; [by transitivity s3|done]).
  eapply (admit_spec s0 b0 tokens inputs ext s5 b from_skipped o h n p pad _ (waiting_loop cfg fuel defer));
    [done| | | |done|].
  - rewrite <-Hhd, <-Hqe2. unfold queue_of. by rewrite (sc_waiting _ _ Hc5), (sc_skipped _ _ Hc5).
  - by rewrite (ss_status _ _ (sc_objects _ _ Hc5 o)).
  - rewrite (sc_running _ _ Hc5), (sc_streaming _ _ Hc5), Hr2, Hn2. lia.
  - intros ext' b' s' Had'. by apply IH.
Qed.

(** The skipped requests go back to [skipped_waiting]. *)
Lemma requeue_spec ext s : queues_with cfg ext s →
  wlp (if decide (ext ≠ []) then
         modify (λ s, s <| skipped_waiting ::= λ q, q_prepends (policy cfg) (objects s) q ext |>)
       else mret tt) (λ _ s', queues_ok cfg s' ∧ running s' = running s ∧ same_requests s s') s.
Proof.
  intros Hq. destruct (queues_refs cfg ext s Hq) as (_ & _ & Hs & He). case_decide as Hne.
  - apply wlp_modify. split; [|by split]. unfold queues_ok, queues_with. simpl.
    eapply placed_perm; [done|done| |exact Hq]. symmetry. by apply q_prepends_perm.
  - apply wlp_ret. by subst.
Qed.

Lemma schedule_waiting_spec s tokens inputs defer b :
  split_ok cfg → requests_ok s → admission s b tokens inputs [] s b →
  wlp (schedule_waiting cfg defer b) (λ b' s', admission s b tokens inputs [] s' b' ∧
    (preempted_reqs b ≠ [] ∨ _pause_state s ≠ UNPAUSED → b' = b ∧ running s' = running s)) s.
Proof.
  intros Hsplit Hf Had. unfold schedule_waiting. do 2 wlp_step. case_decide as Hd.
  2: { apply wlp_ret. done. }
  apply wlp_bind. eapply wlp_mono; [by apply (waiting_loop_spec _ s b tokens inputs)|]. intros [ext b'] s1 Had1.
  apply wlp_bind. eapply wlp_mono; [apply requeue_spec, Had1|]. intros [] s2 (Hq & Hr & Hs).
  eapply admission_state in Had1; [|exact Hq|exact Hr|exact Hs].
  apply wlp_bind, wlp_keeps; [keeps|]. intros [] s3 Hc. apply wlp_ret. split; [by eapply admission_core|].
  intros [?|?]; naive_solver.
Qed.
End waiting.
