(* ===== verification/SchedBatch.v ===== *)
(** * A whole scheduling step

    What [schedule] does to the queues and the budgets, and that its final checks hold, for any
    KV cache manager, encoder cache manager and connectors. *)

From S2P Require Import Prelude FreeQueue Request Hashing Session BlockPool Heapq RequestQueue SchedUtils EncoderCache EncoderSched.
From S2P Require Import SingleType Coordinator Manager Scheduler ScheduleStep SchedOutput SchedChunks SchedFrame SchedQueues SchedInvariant SchedRunning SchedWaiting.

(** The limits of the configuration are sizes. *)
Record config_ok (cfg : SchedulerConfig) : Prop := {
  co_draft : 0 ≤ draft_slots cfg;
  co_split : split_ok cfg;
  co_tokens : 0 ≤ max_num_scheduled_tokens cfg;
  co_inputs : 0 ≤ max_num_batched_tokens cfg
}.

Section batch.
Context {K E N X : Type}.
Context `{!KVManager K} `{!EncoderManager E} `{!KVConnector N} `{!ECConnector X} `{!SetIter}.
Variable cfg : SchedulerConfig.
Abbreviation Sched := (Scheduler K E N X).
Implicit Types s : Sched.

(** The tokens that a step may give out. *)
Definition step_tokens s : Z := if decide (_pause_state s = PAUSED_ALL) then 0 else max_num_scheduled_tokens cfg.

Lemma phase_start s : config_ok cfg → queues_ok cfg s →
  phase cfg s (step_tokens s) (max_num_batched_tokens cfg) s 0 (new_batch cfg s).
Proof.
  intros [_ _ Ht Hi] Hq. split; try done.
  - split; simpl; try done.
    + by intros n Hn%elem_of_nil.
    + fold (step_tokens s). lia.
    + unfold len. simpl. lia.
    + case_decide; lia.
  - apply NoDup_nil_2.
  - by intros o Ho%elem_of_nil.
  - simpl. by rewrite app_nil_r.
  - simpl. destruct (policy cfg); [by rewrite app_nil_r|]. by intros v w Hv%elem_of_nil.
Qed.

Lemma phase_requests s0 tokens inputs s idx b : phase cfg s0 tokens inputs s idx b → same_requests s0 s.
Proof.
  intros Hph. split; [apply Hph|..]; intros o; (destruct (decide (o ∈ preempted_reqs b)) as [Hp|Hp];
    [pose proof (ph_preempted _ _ _ _ _ _ _ Hph o Hp) as Hs|pose proof (ph_objects _ _ _ _ _ _ _ Hph o Hp) as Hs]).
  all: try exact (ss_id _ _ Hs). all: exact (ss_features _ _ Hs).
Qed.

(** The batch [b] that the phases make of the state [s], leaving [s']. *)
Record planned s (b : Batch) s' : Prop := {
  pn_queues : queues_ok cfg s';
  pn_requests : same_requests s s';
  (* every scheduled request runs, and has its tokens within the budgets *)
  pn_sched : ∃ sched, accounts cfg s' (step_tokens s) (max_num_batched_tokens cfg) sched b ∧ NoDup sched ∧
    (∀ o, o ∈ sched → o ∈ running s') ∧
    sched ≡ₚ scheduled_running_reqs b ++ scheduled_new_reqs b ++ scheduled_resumed_reqs b;
  (* who stops and who starts running *)
  pn_running : ∃ kept started, running s' = kept ++ started ∧ running s ≡ₚ kept ++ preempted_reqs b ∧
    started ≡ₚ scheduled_new_reqs b ++ scheduled_resumed_reqs b ∧
    match policy cfg with
    | FCFS => running s = kept ++ reverse (preempted_reqs b)
    | PRIORITY => ∀ v w, v ∈ preempted_reqs b → w ∈ kept → key_lt (victim_key (objects s) v) (victim_key (objects s) w) = false
    end;
  (* after a preemption nothing is admitted *)
  pn_preempted : preempted_reqs b ≠ [] → scheduled_new_reqs b = [] ∧ scheduled_resumed_reqs b = []
}.

Lemma phase_keys s0 tokens inputs s idx b o : phase cfg s0 tokens inputs s idx b →
  victim_key (objects s) o = victim_key (objects s0) o.
Proof.
  intros Hph. destruct (decide (o ∈ preempted_reqs b)) as [Hp|Hp].
  - pose proof (ph_preempted _ _ _ _ _ _ _ Hph o Hp) as Hs. unfold victim_key.
    by rewrite (ss_priority _ _ Hs), (ss_arrival _ _ Hs).
  - by apply victim_key_same, (ph_objects _ _ _ _ _ _ _ Hph).
Qed.

Lemma running_loras_same b s : wlp (running_loras cfg b) (λ b' s', same_core s s' ∧ same_accounts b b') s.
Proof.
  apply wlp_and; [apply keeps_running_loras|]. unfold running_loras. destruct (max_loras cfg); [|by apply wlp_ret].
  do 2 wlp_step. cbv zeta. apply wlp_bind, wlp_assert. intros _. by apply wlp_ret.
Qed.

Lemma admission_begin s0 tokens inputs s idx b :
  phase cfg s0 tokens inputs s idx b → admission cfg s b tokens inputs [] s b.
Proof.
  intros Hph. destruct (ph_new _ _ _ _ _ _ _ Hph) as [Hn Hr]. split; try done; [apply Hph| |].
  - exists (scheduled_running_reqs b). split; [apply Hph|]. split; [apply Hph|]. split.
    + intros o Ho. eapply elem_of_take_sub. by eapply (ph_before _ _ _ _ _ _ _ Hph).
    + by rewrite Hn, Hr, app_nil_r.
  - exists []. by rewrite Hn, Hr, app_nil_r.
Qed.

Lemma requests_ok_same s s' : same_requests s s' → requests_ok s → requests_ok s'.
Proof. intros [A B C] Hok rid o. rewrite A, C. apply Hok. Qed.

Lemma phases_spec throttle s : config_ok cfg → queues_ok cfg s → requests_ok s →
  wlp (schedule_phases cfg throttle) (planned s) s.
Proof.
  intros Hcfg Hq Hf. unfold schedule_phases. apply wlp_bind, wlp_modify. do 2 wlp_step. cbv zeta.
  set (s1 := s <| current_step ::= _ |>). set (defer := _ && _ && _).
  assert (same_core s s1) as Hc1 by done. assert (step_tokens s1 = step_tokens s) as Ht by done.
  apply wlp_bind. eapply wlp_mono.
  { apply (schedule_running_spec cfg s1 (step_tokens s1) (max_num_batched_tokens cfg)); [apply Hcfg|apply Hcfg| |by apply phase_start].
    intros o Ho. destruct (queues_live cfg [] s o Hq) as [Hin _]; [apply elem_of_app; by left|]. by eapply Hf. }
  intros b1 s2 [j Hph]. apply wlp_bind. eapply wlp_mono; [apply running_loras_same|]. intros b2 s3 [Hc3 Hsa].
  eapply phase_core in Hph; [|exact Hc3]. eapply phase_batch in Hph; [|exact Hsa].
  pose proof (phase_requests _ _ _ _ _ _ Hph) as Hsr.
  eapply wlp_mono; [eapply (schedule_waiting_spec cfg s3); [apply Hcfg| |by eapply admission_begin]|].
  { by eapply requests_ok_same. }
  intros b s' [[A B C D D' F] Hpre]. rewrite Ht in C. split; [done| |done| |].
  - transitivity s3; [by transitivity s1; [apply same_requests_core|]|done].
  - destruct F as (started & Hru & Hst). exists (running s3), started. rewrite D'.
    split_and!; [done|exact (ph_running _ _ _ _ _ _ _ Hph)|done|].
    pose proof (ph_order _ _ _ _ _ _ _ Hph) as Ho. destruct (policy cfg); [done|]. intros v w Hv Hw.
    specialize (Ho v w Hv Hw). by rewrite !(phase_keys _ _ _ _ _ _ _ Hph) in Ho.
  - rewrite D'. intros Hne. destruct Hpre as [-> _]; [by left|]. apply Hph.
Qed.

(** ** The checks *)

Lemma sched_length s' sched b : NoDup sched → (∀ o, o ∈ sched → o ∈ running s') →
  sched ≡ₚ scheduled_running_reqs b ++ scheduled_new_reqs b ++ scheduled_resumed_reqs b →
  len (scheduled_new_reqs b) + len (scheduled_resumed_reqs b) + len (scheduled_running_reqs b) ≤ len (running s').
Proof.
  intros Hnd Hin Hp. apply Permutation_length in Hp. rewrite !length_app in Hp.
  pose proof (submseteq_length _ _ (NoDup_submseteq sched (running s') Hnd Hin)). unfold len. lia.
Qed.

Lemma streaming_nonneg objs skip : 0 ≤ streaming objs skip.
Proof. apply len_nonneg. Qed.

Lemma check_batch_ok s b s' : config_ok cfg → planned s b s' → check_batch cfg b s' = Ok (tt, s').
Proof.
  intros Hcfg [Hq _ (sched & [_ _ _ Ht Hi Htl Hil] & Hnd & Hin & Hp) _ _].
  pose proof (sched_length _ _ _ Hnd Hin Hp) as Hl. pose proof (pl_bound _ _ _ _ _ _ _ Hq) as Hb.
  pose proof (pl_count _ _ _ _ _ _ _ Hq) as Hn. pose proof (streaming_nonneg (objects s') ([] ++ skipped_waiting s')).
  assert (sumZ (num_scheduled_tokens b).*2 ≤ max_num_scheduled_tokens cfg) as Hsum.
  { unfold step_tokens in Ht. destruct Hcfg. case_decide; lia. }
  unfold check_batch, mbind, M_bind, assert_, gets. simpl.
  rewrite (proj2 (Z.leb_le _ _) Hsum), (proj2 (Z.leb_le _ _) Htl), (proj2 (Z.leb_le _ _) Hil). simpl.
  rewrite (proj2 (Z.leb_le _ _) Hl), (proj2 (Z.leb_le (len (running s')) _)) by lia. done.
Qed.
End batch.
