(* ===== verification/SchedFinish.v ===== *)
(** * Adding, finishing and resetting requests

    The operations of the scheduler between steps keep the invariant on the queues. *)

From S2P Require Import Prelude FreeQueue Request Hashing Session BlockPool Heapq RequestQueue SchedUtils EncoderCache EncoderSched.
From S2P Require Import SingleType Coordinator Manager Scheduler ScheduleStep SchedOutput SchedFrame SchedQueues SchedInvariant SchedRunning SchedWaiting.

Lemma dict_del_elem {V} (d : list (string * V)) k k' v' : NoDup d.*1 →
  (k', v') ∈ dict_del d k ↔ (k', v') ∈ d ∧ k' ≠ k.
Proof.
  intros Hnd. destruct (dict_get d k) as [v|] eqn:Hk.
  - pose proof (dict_del_perm d k v Hk) as Hp. assert (NoDup ((k, v) :: dict_del d k).*1) as Hnd' by (by rewrite <-Hp).
    apply NoDup_cons in Hnd' as [Hno _].
    assert ((k', v') ∈ d ↔ (k', v') = (k, v) ∨ (k', v') ∈ dict_del d k) as -> by (by rewrite Hp at 1; rewrite elem_of_cons).
    split; [|naive_solver].
    intros Hin. split; [by right|]. intros ->. apply Hno, list_elem_of_fmap. by exists (k, v').
  - rewrite dict_del_None by done. split; [|naive_solver]. intros Hin. split; [done|]. intros ->.
    apply dict_get_None in Hk. apply Hk, list_elem_of_fmap. by exists (k, v').
Qed.

Lemma filter_none {A} (P : A → Prop) `{∀ x, Decision (P x)} (l : list A) :
  (∀ x, x ∈ l → ¬ P x) → filter P l = [].
Proof. induction l as [|a l IH]; intros Hl; [done|]. rewrite filter_cons_False by (apply Hl; by left). apply IH. set_solver. Qed.

Section finish.
Context {K E N X : Type}.
Context `{!KVManager K} `{!EncoderManager E} `{!KVConnector N} `{!ECConnector X} `{!SetIter}.
Variable cfg : SchedulerConfig.
Variable hasher : option block_hasher.
Abbreviation Sched := (Scheduler K E N X).
Implicit Types s : Sched.
Abbreviation placed_ := (placed (max_num_running_reqs cfg)).

(** ** Releasing a finished request *)

(** The queues stay; the request may be forgotten. *)
Record forgets (o : Z) s s' : Prop := {
  fg_objects x : same_skel (objects s !!! x) (objects s' !!! x);
  fg_requests : sched_requests s' = sched_requests s ∨
    sched_requests s' = dict_del (sched_requests s) (request_id (objects s !!! o));
  fg_running : running s' = running s;
  fg_waiting : waiting s' = waiting s;
  fg_skipped : skipped_waiting s' = skipped_waiting s;
  fg_streaming : num_waiting_for_streaming_input s' = num_waiting_for_streaming_input s
}.

Lemma core_forgets o s s' s'' : same_core s s' → forgets o s' s'' → forgets o s s''.
Proof.
  intros [A B C D F G] [A' B' C' D' F' G']. split; try congruence.
  - intros x. etrans; [apply A|apply A'].
  - rewrite <-B, <-(ss_id _ _ (A o)). done.
Qed.
Lemma forgets_core o s s' : same_core s s' → forgets o s s'.
Proof. intros [A B C D F G]. split; auto. Qed.

Lemma free_blocks_effect o s : wlp (_free_blocks cfg o) (λ _ s', is_finished (objects s !!! o) = true ∧ forgets o s s') s.
Proof.
  unfold _free_blocks. do 2 wlp_step. apply wlp_bind, wlp_assert. intros Hfin.
  apply wlp_bind, wlp_keeps; [keeps|]. intros [] s1 Hc. do 2 wlp_step. destruct (dict_get _ _); [|apply wlp_raise].
  apply wlp_modify. split; [done|]. eapply core_forgets; [exact Hc|]. split; simpl; try done.
  right. by rewrite (ss_id _ _ (sc_objects _ _ Hc o)).
Qed.

Lemma free_request_effect o d s :
  wlp (_free_request cfg o d) (λ _ s', is_finished (objects s !!! o) = true ∧ forgets o s s') s.
Proof.
  unfold _free_request. do 2 wlp_step. apply wlp_bind, wlp_assert. intros Hfin.
  apply wlp_bind, wlp_keeps; [keeps|]. intros [] s1 H1. apply wlp_bind, wlp_keeps; [keeps|]. intros delay s2 H2.
  apply wlp_bind, wlp_keeps; [keeps|]. intros ec s3 H3. apply wlp_bind, wlp_keeps; [keeps|]. intros [] s4 H4.
  apply wlp_bind, wlp_keeps; [keeps|]. intros [] s5 H5.
  assert (same_core s s5) as Hc by (transitivity s4; [transitivity s3; [transitivity s2; [by transitivity s1|done]|done]|done]).
  destruct (negb _).
  - eapply wlp_mono; [apply free_blocks_effect|]. intros [] s6 [_ Hfg]. split; [done|]. by eapply core_forgets.
  - apply wlp_ret. split; [done|]. by apply forgets_core.
Qed.

(** ** Requests that are about to finish *)

Definition pending_run (objs : gmap Z Request) (pend : list Z) : list Z := filter (λ o, status (objs !!! o) = RUNNING) pend.
Definition pending_skip (objs : gmap Z Request) (pend : list Z) : list Z := filter (λ o, status (objs !!! o) ≠ RUNNING) pend.

(** The invariant, with the requests [pend] out of the queues. *)
Definition queues_pending (pend : list Z) s : Prop :=
  placed_ (objects s) (sched_requests s) (pending_run (objects s) pend ++ running s) (waiting s)
    (pending_skip (objects s) pend ++ skipped_waiting s)
    (num_waiting_for_streaming_input s + streaming (objects s) pend).

Lemma queues_pending_nil s : queues_pending [] s ↔ queues_ok cfg s.
Proof. unfold queues_pending, queues_ok, queues_with. simpl. by rewrite Z.add_0_r. Qed.

Lemma filter_same (P : RequestStatus → Prop) `{∀ st, Decision (P st)} (objs objs' : gmap Z Request) (l : list Z) :
  (∀ o, o ∈ l → status (objs' !!! o) = status (objs !!! o)) →
  filter (λ o, P (status (objs' !!! o))) l = filter (λ o, P (status (objs !!! o))) l.
Proof.
  intros Hst. induction l as [|o l IH]; [done|]. rewrite !filter_cons, IH by (intros; apply Hst; by right).
  specialize (Hst o ltac:(by left)). destruct (decide (P (status (objs' !!! o)))) as [Hp|Hp],
    (decide (P (status (objs !!! o)))) as [Hp'|Hp']; rewrite ?Hst in Hp; done.
Qed.

Lemma pending_cons objs o pend run skip :
  let pl := if decide (status (objs !!! o) = RUNNING) then InRun else InSkip in
  pending_run objs (o :: pend) ++ run = run_at o pl (pending_run objs pend ++ run) ∧
  pending_skip objs (o :: pend) ++ skip = skip_at o pl (pending_skip objs pend ++ skip) ∧
  streaming objs (o :: pend) = streaming objs pend + counts pl (status (objs !!! o)).
Proof.
  unfold pending_run, pending_skip. rewrite !filter_cons, streaming_cons. unfold counts.
  destruct (decide (status (objs !!! o) = RUNNING)) as [Hr|Hr].
  - rewrite (decide_False (P := ¬ _)), Hr by tauto. done.
  - rewrite (decide_True (P := ¬ _)) by done. split_and!; [done|done|]. do 2 case_decide; naive_solver.
Qed.

(** The request [o] of a state that differs from [s] in [o] only leaves the invariant. *)
Lemma pending_finish o pend s s' :
  queues_pending (o :: pend) s → (∀ x, x ≠ o → same_skel (objects s !!! x) (objects s' !!! x)) →
  object_id (objects s' !!! o) = object_id (objects s !!! o) → request_id (objects s' !!! o) = request_id (objects s !!! o) →
  is_finished (objects s' !!! o) = true →
  (sched_requests s' = sched_requests s ∨ sched_requests s' = dict_del (sched_requests s) (request_id (objects s !!! o))) →
  running s' = running s → waiting s' = waiting s → skipped_waiting s' = skipped_waiting s →
  num_waiting_for_streaming_input s' = num_waiting_for_streaming_input s → queues_pending pend s'.
Proof.
  intros Hq Hoth Hoid Hrid Hfin Hreq Hru Hw Hs Hn. unfold queues_pending in Hq |- *.
  destruct (pending_cons (objects s) o pend (running s) (skipped_waiting s)) as (Hpr & Hps & Hst).
  set (pl := if decide _ then _ else _) in *. assert (pl ≠ Out) as Hpl by (unfold pl; by case_decide).
  rewrite Hpr, Hps, Hst in Hq. rewrite Hru, Hw, Hs, Hn.
  change (waiting s) with (wait_at o Out (waiting s)).
  assert (waiting s = wait_at o pl (waiting s)) as Hwp by (unfold wait_at, pl; by repeat case_decide).
  rewrite Hwp in Hq at 1. pose proof (pl_nodup _ _ _ _ _ _ _ Hq) as Hnd. rewrite at_perm, decide_False in Hnd by done.
  apply NoDup_cons in Hnd as [Hno _].
  assert (∀ x, x ∈ pend → x ≠ o) as Hne.
  { intros x Hx ->. apply Hno. unfold pending_run, pending_skip. rewrite !elem_of_app, !list_elem_of_filter.
    destruct (decide (status (objects s !!! o) = RUNNING)); tauto. }
  assert (∀ x, x ∈ pend → status (objects s' !!! x) = status (objects s !!! x)) as Hsame by (intros x Hx; apply Hoth, Hne, Hx).
  assert (pending_run (objects s') pend = pending_run (objects s) pend) as -> by exact (filter_same (λ st, st = RUNNING) _ _ _ Hsame).
  assert (pending_skip (objects s') pend = pending_skip (objects s) pend) as -> by exact (filter_same (λ st, st ≠ RUNNING) _ _ _ Hsame).
  rewrite (streaming_ext (objects s) (objects s') pend Hsame).
  assert (∃ rid, (rid, o) ∈ sched_requests s) as [rid Hin].
  { apply (pl_live _ _ _ _ _ _ _ Hq). rewrite at_perm, decide_False by done. by left. }
  destruct (pl_refs _ _ _ _ _ _ _ Hq _ _ Hin) as [Ho Hr]. pose proof (pl_keys _ _ _ _ _ _ _ Hq) as Hkeys.
  pose proof (pl_bound _ _ _ _ _ _ _ Hq) as Hb.
  eapply (placed_move _ _ _ _ _ _ _ _ _ _ o pl Out Hq); try done.
  - destruct Hreq as [-> | ->]; [done|by apply dict_del_NoDup].
  - intros rid' x Hx. destruct Hreq as [-> | ->]; [done|]. rewrite dict_del_elem by done. split; [tauto|].
    intros Hin'. split; [done|]. intros ->. destruct (pl_refs _ _ _ _ _ _ _ Hq _ _ Hin') as [_ Hr'].
    apply Hx. symmetry. eapply (placed_unique _ _ _ _ _ _ _ _ _ o x Hq Hin Hin'). by rewrite Hr'.
  - intros rid' Hin'. rewrite Hoid, Hrid. apply (pl_refs _ _ _ _ _ _ _ Hq).
    destruct Hreq as [Heq|Heq]; rewrite Heq in Hin'; [done|]. by apply dict_del_elem in Hin' as [? _].
  - unfold counts at 3. rewrite (decide_False (P := Out = InSkip ∧ _)) by naive_solver. lia.
  - change (run_at o Out ?l) with l. unfold counts in Hb. unfold run_at in Hb. revert Hb.
    repeat case_decide; rewrite ?len_cons; lia.
Qed.

Lemma finish_request_spec st o pend s : is_finished_status st = true → queues_pending (o :: pend) s →
  wlp (finish_request cfg st o) (λ _, queues_pending pend) s.
Proof.
  intros Hst Hq. unfold finish_request. do 2 wlp_step. apply wlp_bind, wlp_keeps; [keeps|]. intros d s1 Hc.
  apply wlp_bind. eapply wlp_mono; [apply (update_moved o _ st); by intros []|].
  intros [] s2 (Hm & Hr & Hru & Hw & Hs & Hn). eapply wlp_mono; [apply free_request_effect|]. intros [] s3 [_ Hfg].
  assert (moved o st s s2) as [Hoth Hself] by (eapply core_moved; [apply Hc|done]).
  pose proof Hc as [_ C1 C2 C3 C4 C5]. destruct Hfg as [F0 F1 F2 F3 F4 F5].
  pose proof (F0 o) as Hso. eapply (pending_finish o pend s s3 Hq); try congruence.
  - intros x Hx. etrans; [by apply Hoth|apply F0].
  - rewrite (ss_object _ _ Hso), (ss_object _ _ Hself). done.
  - rewrite (ss_id _ _ Hso), (ss_id _ _ Hself). done.
  - unfold is_finished. rewrite (ss_status _ _ Hso), (ss_status _ _ Hself). done.
  - rewrite (ss_id _ _ Hself) in F1. simpl in F1. rewrite Hr, C1 in F1. done.
Qed.

Lemma finish_loop_spec st valid s : is_finished_status st = true → queues_pending valid s →
  wlp (for_ valid (finish_request cfg st)) (λ _, queues_ok cfg) s.
Proof.
  intros Hst. revert s. induction valid as [|o valid IH]; intros s Hq; simpl.
  - apply wlp_ret. by apply queues_pending_nil.
  - apply wlp_bind. eapply wlp_mono; [by eapply finish_request_spec|]. intros [] s1. apply IH.
Qed.

(** *** Which requests finish *)

(** The requests [valid] that the first pass found in [s], with those to remove from the queues. *)
Record collected s (ids : list string) (rr : gset Z) (wr valid : list Z) : Prop := {
  cl_nodup : NoDup valid;
  cl_valid o : o ∈ valid → ∃ rid, rid ∈ ids ∧ (rid, o) ∈ sched_requests s ∧ is_finished (objects s !!! o) = false;
  cl_running o : o ∈ rr ↔ o ∈ valid ∧ status (objects s !!! o) = RUNNING;
  cl_waiting o : o ∈ wr ↔ o ∈ valid ∧ status (objects s !!! o) ≠ RUNNING
}.

Lemma streaming_app objs l l' : streaming objs (l ++ l') = streaming objs l + streaming objs l'.
Proof. unfold streaming. by rewrite filter_app, len_app. Qed.

Lemma streaming_nil objs : streaming objs [] = 0.
Proof. done. Qed.

Lemma collected_snoc s ids rr wr valid rid o rr' wr' :
  collected s ids rr wr valid → queues_ok cfg s → (rid ∉ ids) → dict_get (sched_requests s) rid = Some o →
  is_finished (objects s !!! o) = false →
  (∀ x, x ∈ rr' ↔ x ∈ rr ∨ x = o ∧ status (objects s !!! o) = RUNNING) →
  (∀ x, x ∈ wr' ↔ x ∈ wr ∨ x = o ∧ status (objects s !!! o) ≠ RUNNING) →
  collected s (ids ++ [rid]) rr' wr' (valid ++ [o]).
Proof.
  intros [A B C D] Hq Hrid Ho%dict_get_elem Hfin Hr Hw. split.
  - apply NoDup_app. split; [done|]. split; [|apply NoDup_singleton]. intros x Hx ->%list_elem_of_singleton.
    destruct (B o Hx) as (rid' & Hin & Hreq & _). apply Hrid.
    destruct (pl_refs _ _ _ _ _ _ _ Hq _ _ Hreq) as [_ <-], (pl_refs _ _ _ _ _ _ _ Hq _ _ Ho) as [_ <-]. done.
  - intros x [Hx| ->%list_elem_of_singleton]%elem_of_app.
    + destruct (B x Hx) as (rid' & Hin & ?). exists rid'. split; [apply elem_of_app; by left|done].
    + exists rid. split; [apply elem_of_app; right; by left|done].
  - intros x. rewrite Hr, C, elem_of_app, list_elem_of_singleton. naive_solver.
  - intros x. rewrite Hw, D, elem_of_app, list_elem_of_singleton. naive_solver.
Qed.

Lemma collect_spec ids s : queues_ok cfg s → NoDup ids →
  wlp (collect_requests ids) (λ '(rr, wr, valid) s',
    s' = s <| num_waiting_for_streaming_input ::= λ n, n - streaming (objects s) valid |> ∧ collected s ids rr wr valid) s.
Proof.
  intros Hq Hnd. unfold collect_requests.
  apply (wlp_for_acc (λ pre '(rr, wr, valid) s',
    s' = s <| num_waiting_for_streaming_input ::= λ n, n - streaming (objects s) valid |> ∧ collected s pre rr wr valid)).
  { split; [destruct s; unfold streaming; simpl; by rewrite Z.sub_0_r|].
    split; [apply NoDup_nil_2|by intros o ?%elem_of_nil|set_solver|set_solver]. }
  intros pre rid post [[rr wr] valid] s' Heq [-> Hcl].
  assert (rid ∉ pre) as Hrid.
  { rewrite Heq in Hnd. apply NoDup_app in Hnd as (_ & Hd & _). intros Hin. apply (Hd rid Hin). by left. }
  assert (collected s (pre ++ [rid]) rr wr valid) as Hsame.
  { destruct Hcl as [A B C D]. split; try done. intros o Ho. destruct (B o Ho) as (r' & ? & ?). exists r'.
    split; [apply elem_of_app; by left|done]. }
  do 2 wlp_step. simpl. destruct (dict_get (sched_requests s) rid) as [o|] eqn:Ho; [|by apply wlp_ret].
  do 2 wlp_step. simpl. destruct (is_finished (objects s !!! o)) eqn:Hfin; [by apply wlp_ret|].
  destruct (decide (status (objects s !!! o) = RUNNING)) as [Hr|Hr].
  { apply wlp_ret. split.
    - rewrite streaming_app, (streaming_cons _ o []), Hr, streaming_nil. simpl. by rewrite Z.add_0_r.
    - eapply collected_snoc; try done; [set_solver|]. intros x. naive_solver. }
  assert (collected s (pre ++ [rid]) rr (wr ++ [o]) (valid ++ [o])) as Hnew.
  { eapply collected_snoc; try done; intros x; [naive_solver|]. rewrite elem_of_app, list_elem_of_singleton. naive_solver. }
  destruct (decide (status (objects s !!! o) = WAITING_FOR_STREAMING_REQ)) as [Hs|Hs].
  - apply wlp_bind, wlp_modify, wlp_ret. split; [|done]. destruct s. simpl in *. f_equal.
    rewrite streaming_app, (streaming_cons _ o []), decide_True by done. rewrite streaming_nil. lia.
  - apply wlp_bind, wlp_ret, wlp_ret. split; [|done].
    rewrite streaming_app, (streaming_cons _ o []), decide_False by done. rewrite streaming_nil. by rewrite !Z.add_0_r.
Qed.

(** *** Removal from the queues *)

Lemma remove_from_running_spec rr s : NoDup (running s) →
  wlp (remove_from_running rr) (λ _ s', s' = s <| running := filter (λ o, o ∉ rr) (running s) |>) s.
Proof.
  intros Hnd. unfold remove_from_running. case_decide as Hr.
  - apply wlp_ret. subst. rewrite filter_all by set_solver. by destruct s.
  - apply wlp_modify. by rewrite <-(remove_all_exact (running s) rr Hnd).
Qed.

Lemma remove_from_waiting_spec wr s : refs_ok (objects s) (waiting s) → refs_ok (objects s) (skipped_waiting s) →
  refs_ok (objects s) wr →
  wlp (remove_from_waiting cfg wr) (λ _ s', ∃ w k, s' = s <| waiting := w |> <| skipped_waiting := k |> ∧
    w ≡ₚ filter (λ o, o ∉ wr) (waiting s) ∧ k ≡ₚ filter (λ o, o ∉ wr) (skipped_waiting s)) s.
Proof.
  intros Hw Hs Hr. unfold remove_from_waiting. case_decide as Hd.
  - apply wlp_ret. exists (waiting s), (skipped_waiting s). subst. split; [by destruct s|].
    rewrite !filter_all by (intros; apply not_elem_of_nil). done.
  - apply wlp_modify. do 2 eexists. split; [done|]. split; by apply q_removes_perm.
Qed.

(** Requests of the waiting queue may be counted with the skipped ones. *)
Lemma placed_wait_skip max objs reqs run w wait skip n :
  placed max objs reqs run (w ++ wait) skip n → placed max objs reqs run wait (w ++ skip) n.
Proof.
  intros [A B C D F G I J L O].
  assert (run ++ wait ++ w ++ skip ≡ₚ run ++ (w ++ wait) ++ skip) as Hp by solve_Permutation.
  assert (∀ o, o ∈ w → status (objs !!! o) = WAITING ∨ status (objs !!! o) = PREEMPTED) as Hw
    by (intros o Ho; apply G, elem_of_app; by left).
  split; try done.
  - by rewrite Hp.
  - intros o. rewrite Hp. apply D.
  - intros o Ho. apply G, elem_of_app. by right.
  - intros o [Ho|Ho]%elem_of_app; [|by apply I]. unfold is_finished. by destruct (Hw o Ho) as [-> | ->].
  - intros rid o Hin Hf. rewrite Hp. by eapply J.
  - rewrite streaming_app, L. assert (streaming objs w = 0) as ->; [|lia]. unfold streaming.
    rewrite filter_none; [done|]. intros o Ho Hst. destruct (Hw o Ho); congruence.
Qed.

Lemma filter_split_perm {A} (P : A → Prop) `{∀ x, Decision (P x)} (l : list A) :
  l ≡ₚ filter P l ++ filter (λ x, ¬ P x) l.
Proof.
  induction l as [|x l IH]; [done|]. rewrite !filter_cons. destruct (decide (P x)).
  - rewrite (decide_False (P := ¬ P x)) by tauto. simpl. by rewrite <-IH.
  - rewrite (decide_True (P := ¬ P x)) by done. rewrite <-Permutation_middle. by rewrite <-IH.
Qed.

Lemma collected_place s ids rr wr valid o : queues_ok cfg s → collected s ids rr wr valid → o ∈ valid →
  (status (objects s !!! o) = RUNNING ∧ o ∈ running s) ∨
  (status (objects s !!! o) ≠ RUNNING ∧ o ∈ waiting s ++ skipped_waiting s).
Proof.
  intros Hq Hcl Ho. destruct (cl_valid _ _ _ _ _ Hcl o Ho) as (rid & _ & Hin & Hfin).
  pose proof (pl_complete _ _ _ _ _ _ _ Hq rid o Hin Hfin) as Hm. rewrite !elem_of_app in Hm.
  destruct Hm as [Hm|[Hm|[Hm|Hm]]].
  - left. split; [by apply (pl_run _ _ _ _ _ _ _ Hq)|done].
  - right. split; [|apply elem_of_app; by left]. destruct (pl_wait _ _ _ _ _ _ _ Hq o Hm); congruence.
  - by apply elem_of_nil in Hm.
  - right. split; [|apply elem_of_app; by right]. by apply (pl_skip _ _ _ _ _ _ _ Hq).
Qed.

Lemma collected_pending s ids rr wr valid w k : queues_ok cfg s → collected s ids rr wr valid →
  w ≡ₚ filter (λ o, o ∉ wr) (waiting s) → k ≡ₚ filter (λ o, o ∉ wr) (skipped_waiting s) →
  queues_pending valid (s <| num_waiting_for_streaming_input ::= λ n, n - streaming (objects s) valid |>
    <| running := filter (λ o, o ∉ rr) (running s) |> <| waiting := w |> <| skipped_waiting := k |>).
Proof.
  intros Hq Hcl Hw Hk. unfold queues_pending. simpl.
  replace (num_waiting_for_streaming_input s - streaming (objects s) valid + streaming (objects s) valid)
    with (num_waiting_for_streaming_input s) by lia.
  pose proof (pl_nodup _ _ _ _ _ _ _ Hq) as Hnd. simpl in Hnd. apply NoDup_app in Hnd as (Hnr & Hd & Hnw).
  assert (running s ≡ₚ pending_run (objects s) valid ++ filter (λ o, o ∉ rr) (running s)) as Hr.
  { rewrite (filter_split_perm (λ o, o ∈ rr) (running s)) at 1. f_equiv. apply NoDup_Permutation.
    - by apply NoDup_filter.
    - apply NoDup_filter, Hcl.
    - intros o. unfold pending_run. rewrite !list_elem_of_filter, (cl_running _ _ _ _ _ Hcl). split; [tauto|].
      intros [Hst Ho]. destruct (collected_place _ _ _ _ _ o Hq Hcl Ho); tauto. }
  assert (pending_skip (objects s) valid ≡ₚ filter (λ o, o ∈ wr) (waiting s) ++ filter (λ o, o ∈ wr) (skipped_waiting s)) as Hs.
  { rewrite <-filter_app. apply NoDup_Permutation.
    - apply NoDup_filter, Hcl.
    - by apply NoDup_filter.
    - intros o. unfold pending_skip. rewrite !list_elem_of_filter, (cl_waiting _ _ _ _ _ Hcl). split; [|tauto].
      intros [Hst Ho]. destruct (collected_place _ _ _ _ _ o Hq Hcl Ho); tauto. }
  eapply (placed_perm _ _ _ (running s) (filter (λ o, o ∉ wr) (waiting s))
    (filter (λ o, o ∈ wr) (waiting s) ++ skipped_waiting s)); [exact Hr|symmetry; exact Hw| |].
  { rewrite Hs, Hk, <-app_assoc. f_equiv. apply (filter_split_perm (λ o, o ∈ wr)). }
  apply placed_wait_skip. eapply placed_perm; [reflexivity| |reflexivity|exact Hq]. apply (filter_split_perm (λ o, o ∈ wr)).
Qed.

Lemma request_ids_NoDup ids s : queues_ok cfg s → NoDup (request_ids_list ids (sched_requests s)).
Proof.
  intros Hq. destruct ids; simpl; [apply NoDup_singleton|apply NoDup_iter_set|apply Hq].
Qed.

(** Finishing requests takes them, and no others, out of the queues. *)
Lemma finish_requests_spec ids st s : queues_ok cfg s →
  wlp (finish_requests cfg ids st) (λ _, queues_ok cfg) s.
Proof.
  intros Hq. unfold finish_requests. apply wlp_bind, wlp_assert. intros Hst. do 2 wlp_step.
  apply wlp_bind. eapply wlp_mono; [apply collect_spec; [done|by apply request_ids_NoDup]|].
  intros [[rr wr] valid] s1 [-> Hcl]. set (s1 := s <| num_waiting_for_streaming_input ::= _ |>).
  destruct (queues_refs cfg [] s Hq) as (Hrr & Hrw & Hrs & _).
  assert (refs_ok (objects s) wr) as Hwr.
  { intros o [Ho _]%(cl_waiting _ _ _ _ _ Hcl). destruct (cl_valid _ _ _ _ _ Hcl o Ho) as (rid & _ & Hin & _).
    by apply (pl_refs _ _ _ _ _ _ _ Hq _ _ Hin). }
  pose proof (pl_nodup _ _ _ _ _ _ _ Hq) as Hnd. apply NoDup_app in Hnd as (Hnr & _ & _).
  apply wlp_bind. eapply wlp_mono; [by apply remove_from_running_spec|]. intros [] s2 ->.
  apply wlp_bind. eapply wlp_mono; [by apply remove_from_waiting_spec|]. intros [] s3 (w & k & -> & Hw & Hk).
  apply wlp_bind. eapply wlp_mono; [eapply finish_loop_spec; [done|]|].
  - exact (collected_pending s _ rr wr valid w k Hq Hcl Hw Hk).
  - intros [] s4 Hq4. by apply wlp_ret.
Qed.

(** ** Adding requests *)

(** The hasher writes to a request only the digests that it memoises. *)
Definition memoises : Prop := ∀ h r hs r', hasher = Some h → h r = Ok (hs, r') →
  ∃ m, r' = r <| prompt_embeds_per_block_hashes := m |>.

Lemma update_hashes_frame r r' : memoises → update_block_hashes hasher r = Ok r' →
  ∃ m hs, r' = r <| prompt_embeds_per_block_hashes := m |> <| block_hashes := hs |>.
Proof.
  intros Hm. unfold update_block_hashes. destruct hasher as [h|] eqn:Hh.
  - destruct (h r) as [[hs r1]|] eqn:Hr; [|done]. simpl. intros [= <-].
    destruct (Hm h r hs r1 Hh Hr) as [m ->]. eexists m, _. done.
  - intros [= <-]. exists (prompt_embeds_per_block_hashes r), (block_hashes r). by destruct r.
Qed.

(** What a session update keeps and sets. *)
Lemma session_frame n r u r' n' : memoises → _update_request_as_session hasher n r u = Ok (r', n') →
  object_id r' = object_id r ∧ request_id r' = request_id r ∧ resumable r' = resumable r ∧ status r' = WAITING ∧
  n' = if decide (status r = WAITING_FOR_STREAMING_REQ) then n - 1 else n.
Proof.
  intros Hm. unfold _update_request_as_session. cbv zeta.
  match goal with |- context [match ?x with Some _ => _ | None => Raise _ end] => destruct x as [prompt|]; [|done] end.
  match goal with |- context [update_block_hashes hasher ?x] => set (r1 := x) end.
  destruct (update_block_hashes hasher r1) as [r2|] eqn:Hu; [|done]. simpl. intros [= <- <-].
  destruct (update_hashes_frame _ _ Hm Hu) as (m & hs & ->). simpl. unfold r1. clear.
  destruct (su_mm_features u) as [[|]|]; done.
Qed.

(** A session that waits for input continues. *)
Lemma update_session_spec o u s : memoises → queues_ok cfg s → status (objects s !!! o) = WAITING_FOR_STREAMING_REQ →
  (∃ rid, (rid, o) ∈ sched_requests s) → wlp (update_session hasher o u) (λ _, queues_ok cfg) s.
Proof.
  intros Hm Hq Hst [rid Hin]. unfold update_session. do 2 wlp_step. apply wlp_bind, wlp_lift. intros [r n] Hu.
  destruct (session_frame _ _ _ _ _ Hm Hu) as (Hoid & Hrid & Hres & Hr & Hn). rewrite decide_True in Hn by done.
  apply wlp_bind, wlp_modify, wlp_modify.
  assert (o ∈ skipped_waiting s) as Ho.
  { pose proof (pl_complete _ _ _ _ _ _ _ Hq rid o Hin) as Hc. unfold is_finished in Hc. rewrite Hst in Hc.
    specialize (Hc eq_refl). rewrite !elem_of_app in Hc. destruct Hc as [Hc|[Hc|[Hc|Hc]]]; [| |by apply elem_of_nil in Hc|done].
    - pose proof (pl_run _ _ _ _ _ _ _ Hq o Hc). congruence.
    - destruct (pl_wait _ _ _ _ _ _ _ Hq o Hc); congruence. }
  assert (∃ skip, skipped_waiting s ≡ₚ o :: skip) as [skip Hsk] by (by apply elem_of_Permutation).
  unfold queues_ok, queues_with. simpl. eapply placed_perm; [reflexivity|reflexivity|symmetry; exact Hsk|].
  eapply (placed_shift _ (objects s) _ _ (running s) (waiting s) skip _ _ o InSkip InSkip); try done.
  - eapply placed_perm; [reflexivity|reflexivity|exact Hsk|exact Hq].
  - intros x Hx. rewrite objects_insert, decide_False by done. done.
  - by rewrite lookup_total_insert_eq.
  - by rewrite lookup_total_insert_eq.
  - rewrite lookup_total_insert_eq, Hr. done.
  - rewrite lookup_total_insert_eq, Hr, Hst, Hn. unfold counts. simpl. lia.
  - rewrite Hn. change (run_at o InSkip (running s)) with (running s). pose proof (pl_bound _ _ _ _ _ _ _ Hq). lia.
Qed.

Lemma enqueue_spec o s : refs_ok (objects s) (o :: waiting s) → refs_ok (objects s) (o :: skipped_waiting s) →
  wlp (_enqueue_waiting_request cfg o) (λ _ s', ∃ w k, s' = s <| waiting := w |> <| skipped_waiting := k |> ∧
    let pl := if _is_blocked_waiting_status (status (objects s !!! o)) then InSkip else InWait in
    w ≡ₚ wait_at o pl (waiting s) ∧ k ≡ₚ skip_at o pl (skipped_waiting s)) s.
Proof.
  intros Hw Hs. unfold _enqueue_waiting_request. do 2 wlp_step. destruct (_is_blocked_waiting_status _); apply wlp_modify.
  - exists (waiting s), (q_add (policy cfg) (objects s) (skipped_waiting s) o). split; [by destruct s|]. split; [done|]. simpl. by apply q_add_perm.
  - exists (q_add (policy cfg) (objects s) (waiting s) o), (skipped_waiting s). split; [by destruct s|]. split; [|done]. simpl. by apply q_add_perm.
Qed.

(** A new request: no known request is this object, and it waits. *)
Definition new_request s (r : Request) : Prop :=
  (∀ rid, (rid, object_id r) ∉ sched_requests s) ∧
  (status r = WAITING ∨ status r = WAITING_FOR_STRUCTURED_OUTPUT_GRAMMAR).

(** The state after a new request is stored, queued and known. *)
Lemma added_queues r s s1 w k :
  queues_ok cfg s → new_request s r → dict_get (sched_requests s) (request_id r) = None →
  (∀ x, same_skel (<[object_id r := r]> (objects s) !!! x) (objects s1 !!! x)) →
  sched_requests s1 = dict_set (sched_requests s) (request_id r) (object_id r) → running s1 = running s →
  num_waiting_for_streaming_input s1 = num_waiting_for_streaming_input s →
  waiting s1 = w → skipped_waiting s1 = k →
  (let pl := if _is_blocked_waiting_status (status r) then InSkip else InWait in
   w ≡ₚ wait_at (object_id r) pl (waiting s) ∧ k ≡ₚ skip_at (object_id r) pl (skipped_waiting s)) →
  queues_ok cfg s1.
Proof.
  intros Hq [Hfresh Hst] Hnone Hobj Hreq Hru Hn Hw Hk. set (o := object_id r) in *.
  set (pl := if _is_blocked_waiting_status _ then _ else _). intros [Hwp Hkp].
  assert (pl = InSkip ∨ pl = InWait) as Hpl by (unfold pl; destruct (_is_blocked_waiting_status _); auto).
  unfold queues_ok, queues_with. apply (placed_ext _ (<[o := r]> (objects s))); [done|].
  rewrite Hreq, Hru, Hn, Hw, Hk. rewrite dict_set_keys_None by done.
  apply (placed_perm _ _ _ (run_at o pl (running s)) (wait_at o pl (waiting s)) (skip_at o pl (skipped_waiting s)));
    [unfold run_at; by destruct Hpl as [-> | ->]|done|done|].
  assert (counts pl (status (<[o := r]> (objects s) !!! o)) = 0) as Hcount.
  { apply counts_other. rewrite lookup_total_insert_eq. destruct Hst; congruence. }
  pose proof (pl_bound _ _ _ _ _ _ _ Hq) as Hb.
  eapply (placed_move _ (objects s) _ (sched_requests s) _ (running s) (waiting s) (skipped_waiting s) _ _ o Out pl);
    [exact Hq| | | | | | | | |].
  - intros _ Hin. destruct (pl_live _ _ _ _ _ _ _ Hq o Hin) as [rid Hin']. by apply (Hfresh rid).
  - intros x Hx. by rewrite objects_insert, decide_False.
  - rewrite fmap_app. apply NoDup_app. split; [apply Hq|]. split; [|apply NoDup_singleton].
    intros x Hx ->%list_elem_of_singleton. by apply dict_get_None in Hnone.
  - intros rid x Hx. rewrite elem_of_app, list_elem_of_singleton. naive_solver.
  - intros rid [Hin|[= ->]%list_elem_of_singleton]%elem_of_app; [by apply Hfresh in Hin|].
    by rewrite lookup_total_insert_eq.
  - intros _. exists (request_id r). apply elem_of_app. right. by left.
  - intros _. rewrite lookup_total_insert_eq. unfold pl. by destruct Hst as [-> | ->]; simpl; auto.
  - rewrite Hcount. unfold counts. rewrite decide_False by naive_solver. lia.
  - unfold run_at. destruct Hpl as [-> | ->]; simpl in *; lia.
Qed.

Lemma add_request_spec r s : memoises → queues_ok cfg s → new_request s r →
  wlp (sched_add_request cfg hasher r) (λ _, queues_ok cfg) s.
Proof.
  intros Hm Hq Hnew. unfold sched_add_request. do 2 wlp_step.
  destruct (dict_get (sched_requests s) (request_id r)) as [o|] eqn:Ho.
  - do 2 wlp_step. case_decide as Hst.
    + do 2 wlp_step. destruct (streaming_queues s !! o); [|apply wlp_raise]. apply wlp_modify.
      eapply queues_with_core; [|exact Hq]. by split.
    + destruct (from_request r) as [u|].
      * apply update_session_spec; try done. apply dict_get_elem in Ho. eauto.
      * apply wlp_bind. eapply wlp_mono; [by apply finish_requests_spec|]. intros ? s1 Hq1. by apply wlp_ret.
  - apply wlp_bind, wlp_modify. set (s1 := s <| objects ::= _ |>). apply wlp_bind, wlp_keeps; [keeps|]. intros [] s2 H2.
    apply wlp_bind, wlp_keeps; [keeps|]. intros [] s3 H3. assert (same_core s1 s3) as Hc by (by transitivity s2).
    assert (∀ q, refs_ok (objects s) q → refs_ok (objects s3) (object_id r :: q)) as Hrefs.
    { intros q Hqr. apply (refs_same_core s1 s3 _ Hc). intros x Hx. simpl. rewrite objects_insert. case_decide; [by subst|].
      apply elem_of_cons in Hx as [->|Hx]; [done|]. by apply Hqr. }
    destruct (queues_refs cfg [] s Hq) as (_ & Hrw & Hrs & _).
    apply wlp_bind. eapply wlp_mono.
    { apply enqueue_spec; [rewrite (sc_waiting _ _ Hc)|rewrite (sc_skipped _ _ Hc)]; by apply Hrefs. }
    rewrite (sc_waiting _ _ Hc), (sc_skipped _ _ Hc), (ss_status _ _ (sc_objects _ _ Hc (object_id r))).
    simpl. rewrite lookup_total_insert_eq. intros [] s4 (w & k & -> & Hwk).
    apply wlp_bind, wlp_modify, wlp_keeps; [keeps|]. intros [] s5 H5. eapply queues_with_core; [exact H5|].
    eapply (added_queues r s _ w k Hq Hnew Ho); simpl; try done; try apply Hc. by rewrite (sc_requests _ _ Hc).
Qed.

(** ** Resetting the prefix cache *)

Lemma preempt_all_spec fuel s : queues_ok cfg s → wlp (preempt_all cfg fuel) (λ _, queues_ok cfg) s.
Proof.
  revert s. induction fuel as [|fuel IH]; intros s Hq; cbn [preempt_all]; do 2 wlp_step;
    (destruct (last (running s)) as [o|] eqn:Hl; [|by apply wlp_ret]); [apply wlp_raise|].
  rewrite last_lookup in Hl. apply wlp_bind, wlp_modify, wlp_bind. eapply wlp_mono.
  { eapply (preempt_running cfg [] o true s _ (Nat.pred (length (running s))) Hq Hl). split; try done. simpl.
    pose proof (lookup_lt_Some _ _ _ Hl). rewrite delete_take_drop, drop_ge, app_nil_r by lia. f_equal. lia. }
  intros [] s1 (_ & Hq1 & _). by apply IH.
Qed.

Lemma sched_reset_spec rr rc s : queues_ok cfg s → wlp (sched_reset_prefix_cache cfg rr rc) (λ _, queues_ok cfg) s.
Proof.
  intros Hq. unfold sched_reset_prefix_cache. apply wlp_bind.
  apply (wlp_mono _ (λ _, queues_ok cfg)).
  - destruct rr; [|by apply wlp_ret]. do 2 wlp_step. apply wlp_bind. eapply wlp_mono; [by apply preempt_all_spec|].
    intros [] s1 Hq1. apply wlp_modify. eapply queues_with_core; [|exact Hq1]. by split.
  - intros [] s1 Hq1. apply (wlp_keeps _ _ s1); [|intros ? s2 Hc; by eapply queues_with_core].
    unfold reset_connector_cache. keeps.
Qed.
End finish.
