(* ===== verification/SchedProcess.v ===== *)
(** * Processing the output of a step

    [update_from_output] keeps the invariant on the queues, as long as the requests of the step
    that are no longer running are not sessions. *)

From S2P Require Import Prelude FreeQueue Request Hashing Session BlockPool Heapq RequestQueue SchedUtils EncoderCache EncoderSched.
From S2P Require Import SingleType Coordinator Manager Scheduler ScheduleStep SchedOutput SchedFrame SchedQueues SchedInvariant SchedRunning SchedWaiting SchedFinish.

Section process.
Context {K E N X : Type}.
Context `{!KVManager K} `{!EncoderManager E} `{!KVConnector N} `{!ECConnector X} `{!SetIter}.
Variable cfg : SchedulerConfig.
Variable hasher : option block_hasher.
Variable should_advance : Request → option (list Z) → bool.
Variable accept_tokens : Request → list Z → bool.
Abbreviation Sched := (Scheduler K E N X).
Implicit Types s : Sched.
Abbreviation placed_ := (placed (max_num_running_reqs cfg)).

(** ** New tokens *)

(** Only [o] changed: its status is [st] now, and it may have stopped to be a session. *)
Record touched (o : Z) (st : RequestStatus) s s' : Prop := {
  to_others x : x ≠ o → same_skel (objects s !!! x) (objects s' !!! x);
  to_object : object_id (objects s' !!! o) = object_id (objects s !!! o);
  to_id : request_id (objects s' !!! o) = request_id (objects s !!! o);
  to_status : status (objects s' !!! o) = st;
  to_resumable : resumable (objects s' !!! o) = true → resumable (objects s !!! o) = true;
  to_requests : sched_requests s' = sched_requests s;
  to_running : running s' = running s;
  to_waiting : waiting s' = waiting s;
  to_skipped : skipped_waiting s' = skipped_waiting s;
  to_streaming : num_waiting_for_streaming_input s' = num_waiting_for_streaming_input s
}.

Lemma touched_core o st s s' s'' : touched o st s s' → same_core s' s'' → touched o st s s''.
Proof.
  intros [A B C D F G I J L O] [A' B' C' D' F' G']. pose proof (A' o) as [S1 S2 S3 S4 S5 S6 S7]. split; try congruence.
  - intros x Hx. etrans; [by apply A|apply A'].
  - rewrite S7. done.
Qed.
Lemma core_touched o st s s' s'' : same_core s s' → touched o st s' s'' → touched o st s s''.
Proof.
  intros [A' B' C' D' F' G'] [A B C D F G I J L O]. pose proof (A' o) as [S1 S2 S3 S4 S5 S6 S7]. split; try congruence.
  - intros x Hx. etrans; [apply A'|by apply A].
  - intros Hr%F. congruence.
Qed.
Lemma touched_again o st st' s s' s'' : touched o st s s' → touched o st' s' s'' → touched o st' s s''.
Proof.
  intros [A B C D F G I J L O] [A' B' C' D' F' G' I' J' L' O']. split; try congruence; auto.
  intros x Hx. etrans; [by apply A|by apply A'].
Qed.

Lemma set_object_touched o r s : object_id r = object_id (objects s !!! o) → request_id r = request_id (objects s !!! o) →
  (resumable r = true → resumable (objects s !!! o) = true) → touched o (status r) s (s <| objects ::= <[o := r]> |>).
Proof.
  intros Ho Hr Hres. split; simpl; try done; rewrite ?lookup_total_insert_eq; try done.
  intros x Hx. by rewrite objects_insert, decide_False.
Qed.

(** The effect of code that may stop the request. *)
Definition may_stop (o : Z) s : list Z * bool → Sched → Prop := λ '(_, stopped) s',
  if (stopped : bool) then ∃ st, is_finished_status st = true ∧ touched o st s s' else same_core s s'.

Lemma append_frame r ts r' : memoises hasher → append_output_token_ids hasher r ts = Ok r' → same_skel r r'.
Proof.
  intros Hm Hr. destruct (update_hashes_frame hasher _ _ Hm Hr) as (m & hs & ->). by destruct r.
Qed.

Lemma check_stop_frame r max stopped r' : check_stop r max = Ok (stopped, r') →
  (stopped = false ∧ r' = r) ∨
  (stopped = true ∧ is_finished_status (status r') = true ∧ object_id r' = object_id r ∧ request_id r' = request_id r ∧
   resumable r' = resumable r).
Proof.
  unfold check_stop. destruct (pooling_params r); [done|]. destruct (sampling_params r) as [sp|]; [|done].
  destruct (index _ _) as [last|]; [|done]. simpl. repeat (case_decide; [intros [= <- <-]; auto 10; fail|]).
  destruct (repetition_detection sp); [|intros [= <- <-]; auto].
  destruct (check_sequence_repetition _ _) as [[]|]; [| |done]; simpl; intros [= <- <-]; auto 10.
Qed.

Lemma append_tokens_spec o ts s : memoises hasher → wlp (append_tokens cfg hasher o ts) (may_stop o s) s.
Proof.
  intros Hm. revert s. induction ts as [|t ts IH]; intros s; simpl; [by apply wlp_ret|].
  do 2 wlp_step. apply wlp_bind, wlp_lift. intros r1 H1%append_frame; [|done].
  apply wlp_bind, wlp_lift. intros [stopped r2] H2. apply wlp_bind, wlp_modify.
  destruct (check_stop_frame _ _ _ _ H2) as [[-> ->]|(-> & Hfin & Ho & Hr & Hres)].
  - apply wlp_bind. eapply wlp_mono; [apply IH|]. intros [kept stopped] s2 Hs2. apply wlp_ret.
    assert (same_core s (s <| objects ::= <[o := r1]> |>)) as Hc.
    { split; try done. intros x. simpl. rewrite objects_insert. case_decide; by subst. }
    destruct stopped; simpl in *.
    + destruct Hs2 as (st & Hst & Ht). exists st. split; [done|]. by eapply core_touched.
    + by etransitivity.
  - apply wlp_ret. exists (status r2). split; [done|]. destruct H1. apply set_object_touched; congruence.
Qed.

Lemma update_with_output_spec o ts stale s : memoises hasher →
  wlp (_update_request_with_output cfg hasher o ts stale) (may_stop o s) s.
Proof.
  intros Hm. unfold _update_request_with_output. destruct (negb (async_scheduling cfg)); [by apply append_tokens_spec|].
  do 2 wlp_step. apply wlp_bind. eapply wlp_mono; [by apply append_tokens_spec|]. intros [kept stopped] s1 H1.
  apply wlp_bind, wlp_keeps; [keeps|]. intros [] s2 H2. apply wlp_bind, wlp_keeps; [keeps|]. intros [] s3 H3.
  apply wlp_ret. assert (same_core s1 s3) as Hc by (by transitivity s2). destruct stopped; simpl in *.
  - destruct H1 as (st & Hst & Ht). exists st. split; [done|]. by eapply touched_core.
  - by transitivity s1.
Qed.

Lemma update_object_touched o f st s : (∀ r, object_id (f r) = object_id r ∧ request_id (f r) = request_id r ∧
    status (f r) = st ∧ (resumable (f r) = true → resumable r = true)) →
  wlp (update_object o f) (λ _ s', touched o st s s') s.
Proof.
  intros Hf. apply wlp_modify. destruct (Hf (objects s !!! o)) as (Ho & Hr & <- & Hres).
  exact (set_object_touched o (f (objects s !!! o)) s Ho Hr Hres).
Qed.

Lemma apply_output_spec o generated pooled stale s : memoises hasher →
  wlp (apply_output cfg hasher should_advance accept_tokens o generated pooled stale) (may_stop o s) s.
Proof.
  intros Hm. unfold apply_output. do 2 wlp_step. apply wlp_bind. apply (wlp_mono _ (may_stop o s)).
  - case_decide; [by apply update_with_output_spec|]. destruct (_ || _); [|by apply wlp_ret].
    apply wlp_bind. eapply wlp_mono; [apply (update_object_touched o _ FINISHED_STOPPED); by intros []|].
    intros [] s1 H1. apply wlp_ret. by exists FINISHED_STOPPED.
  - intros [ts stopped] s1 H1. do 2 wlp_step. case_decide; [|by apply wlp_ret].
    apply wlp_bind. eapply wlp_mono; [apply (update_object_touched o _ FINISHED_ERROR); by intros []|].
    intros [] s2 H2. apply wlp_ret. exists FINISHED_ERROR. split; [done|]. destruct stopped; simpl in H1.
    + destruct H1 as (st & _ & H1). by eapply touched_again.
    + by eapply core_touched.
Qed.

(** ** Requests that stopped *)

(** A session that stopped is queued again at [pl]. *)
Record requeued (o : Z) (pl : place) s s' : Prop := {
  rq_place : pl = InWait ∨ pl = InSkip;
  rq_others x : x ≠ o → same_skel (objects s !!! x) (objects s' !!! x);
  rq_object : object_id (objects s' !!! o) = object_id (objects s !!! o);
  rq_id : request_id (objects s' !!! o) = request_id (objects s !!! o);
  rq_fits : fits pl (status (objects s' !!! o));
  rq_requests : sched_requests s' = sched_requests s;
  rq_running : running s' = running s;
  rq_waiting : waiting s' ≡ₚ wait_at o pl (waiting s);
  rq_skipped : skipped_waiting s' ≡ₚ skip_at o pl (skipped_waiting s);
  rq_streaming : num_waiting_for_streaming_input s' =
    num_waiting_for_streaming_input s + counts pl (status (objects s' !!! o))
}.

(** [_enqueue_waiting_request] after the object was changed to [r]. *)
Lemma requeue_object o r n s s1 :
  refs_ok (objects s) (o :: waiting s) → refs_ok (objects s) (o :: skipped_waiting s) →
  objects s1 = <[o := r]> (objects s) → sched_requests s1 = sched_requests s → running s1 = running s →
  waiting s1 = waiting s → skipped_waiting s1 = skipped_waiting s → num_waiting_for_streaming_input s1 = n →
  object_id r = object_id (objects s !!! o) → request_id r = request_id (objects s !!! o) →
  (status r = WAITING ∧ n = num_waiting_for_streaming_input s) ∨
  (status r = WAITING_FOR_STREAMING_REQ ∧ n = num_waiting_for_streaming_input s + 1) →
  wlp (_enqueue_waiting_request cfg o) (λ _ s', ∃ pl, requeued o pl s s') s1.
Proof.
  intros Hw Hs Hobj Hreq Hru Hwe Hse Hn Ho Hr Hst.
  assert (∀ q, refs_ok (objects s) (o :: q) → refs_ok (objects s1) (o :: q)) as Hrefs.
  { intros q Hq x Hx. rewrite Hobj, objects_insert. case_decide; [subst; rewrite Ho; apply Hq; by left|by apply Hq]. }
  eapply wlp_mono; [apply enqueue_spec; [rewrite Hwe; by apply Hrefs|rewrite Hse; by apply Hrefs]|].
  intros [] s2 (w & k & -> & Hwk). rewrite Hobj, lookup_total_insert_eq, Hwe, Hse in Hwk.
  set (pl := if _is_blocked_waiting_status _ then _ else _) in Hwk. exists pl.
  split; simpl; rewrite ?Hobj, ?lookup_total_insert_eq; try done; try apply Hwk.
  - unfold pl. destruct (_is_blocked_waiting_status _); auto.
  - intros x Hx. by rewrite lookup_total_insert_ne.
  - unfold pl. destruct Hst as [[-> _]|[-> _]]; simpl; auto.
  - rewrite Hn. unfold pl. destruct Hst as [[-> ->]|[-> ->]]; unfold counts; simpl; lia.
Qed.

Lemma handle_stopped_spec o s : memoises hasher → is_finished (objects s !!! o) = true →
  refs_ok (objects s) (o :: waiting s) → refs_ok (objects s) (o :: skipped_waiting s) →
  wlp (_handle_stopped_request cfg hasher o) (λ finished s',
    if (finished : bool) then same_core s s' else resumable (objects s !!! o) = true ∧ ∃ pl, requeued o pl s s') s.
Proof.
  intros Hm Hfin Hw Hs. unfold _handle_stopped_request. do 2 wlp_step. destruct (resumable (objects s !!! o)) eqn:Hres; simpl.
  2: { by apply wlp_ret. }
  do 2 wlp_step. destruct (default [] _) as [|u queue].
  - apply wlp_bind, wlp_modify, wlp_bind, wlp_modify, wlp_bind. eapply wlp_mono.
    + eapply (requeue_object o _ _ s _ Hw Hs); try reflexivity. right. split; [done|]. simpl. lia.
    + intros [] s1 H1. by apply wlp_ret.
  - apply wlp_bind, wlp_modify. destruct u as [u|]; [|apply wlp_ret; by split].
    unfold update_session. apply wlp_bind. do 2 wlp_step. apply wlp_bind, wlp_lift. intros [r n] Hu.
    destruct (session_frame hasher _ _ _ _ _ Hm Hu) as (Hoid & Hrid & _ & Hr & Hn). simpl in *.
    rewrite decide_False in Hn by (intros Hst; unfold is_finished in Hfin; by rewrite Hst in Hfin).
    apply wlp_bind, wlp_modify, wlp_modify, wlp_bind. eapply wlp_mono.
    + eapply (requeue_object o r n s _ Hw Hs); try reflexivity; [done|done|]. by left.
    + intros [] s1 H1. by apply wlp_ret.
Qed.

(** ** The loop *)

(** The queues without the requests that stopped. *)
Definition live_running (p : Processed) s : list Z := filter (λ o, o ∉ stopped_running_reqs p) (running s).
Definition live_waiting (p : Processed) s : list Z := filter (λ o, o ∉ stopped_preempted_reqs p) (waiting s).
Definition live_skipped (p : Processed) s : list Z := filter (λ o, o ∉ stopped_preempted_reqs p) (skipped_waiting s).

(** The loop that started in [s0] has processed the requests [pre]. *)
Record processing (s0 : Sched) (pre : list string) (p : Processed) s : Prop := {
  pr_placed : placed_ (objects s) (sched_requests s) (live_running p s) (live_waiting p s) (live_skipped p s)
    (num_waiting_for_streaming_input s);
  pr_running : running s = running s0;
  pr_refs : refs_ok (objects s) (waiting s) ∧ refs_ok (objects s) (skipped_waiting s);
  pr_stopped o : o ∈ stopped_running_reqs p ∨ o ∈ stopped_preempted_reqs p →
    request_id (objects s !!! o) ∈ pre ∧ object_id (objects s !!! o) = o;
  pr_later o : (request_id (objects s !!! o) ∉ pre) → same_skel (objects s0 !!! o) (objects s !!! o);
  pr_requests x : x ∈ sched_requests s → x ∈ sched_requests s0
}.

Lemma processing_start s pre : queues_ok cfg s → processing s pre (mkProcessed [] ∅ ∅) s.
Proof.
  intros Hq. destruct (queues_refs cfg [] s Hq) as (_ & Hw & Hs & _). split; try done.
  - unfold live_running, live_waiting, live_skipped. simpl. rewrite !filter_all by set_solver. exact Hq.
  - set_solver.
Qed.

Lemma processing_mono s0 pre pre' p s : pre ⊆ pre' → processing s0 pre p s → processing s0 pre' p s.
Proof.
  intros Hp [A B C D F G]. split; try done.
  - intros o Ho. destruct (D o Ho). auto.
  - intros o Ho. apply F. auto.
Qed.

Lemma processing_core s0 pre p s s' : same_core s s' → processing s0 pre p s → processing s0 pre p s'.
Proof.
  intros Hc [A B C D F G]. pose proof Hc as [Ho Hr Hw Hs Hru Hn].
  split; unfold live_running, live_waiting, live_skipped; rewrite ?Hr, ?Hw, ?Hs, ?Hru, ?Hn; try done.
  - by eapply placed_ext.
  - destruct C. split; by eapply refs_same_core.
  - intros o Hin. destruct (Ho o) as [-> -> _ _ _ _ _]. by apply D.
  - intros o Hno. etrans; [|apply Ho]. apply F. by rewrite <-(ss_id _ _ (Ho o)).
Qed.

Lemma live_add (l : list Z) (stopped : gset Z) o : NoDup (filter (λ x, x ∉ stopped) l) → o ∈ l → o ∉ stopped →
  filter (λ x, x ∉ stopped) l ≡ₚ o :: filter (λ x, x ∉ stopped ∪ {[o]}) l.
Proof.
  intros Hnd Hin Hno. apply NoDup_Permutation; [done| |].
  - apply NoDup_cons. split; [rewrite list_elem_of_filter; set_solver|].
    assert (filter (λ x, x ∉ stopped ∪ {[o]}) l = filter (λ x, x ≠ o) (filter (λ x, x ∉ stopped) l)) as ->.
    { rewrite list_filter_filter. apply list_filter_iff. set_solver. }
    by apply NoDup_filter.
  - intros x. rewrite elem_of_cons, !list_elem_of_filter. destruct (decide (x = o)); set_solver.
Qed.
Lemma live_same (l : list Z) (stopped : gset Z) o : (o ∈ stopped ∨ o ∉ l) →
  filter (λ x, x ∉ stopped ∪ {[o]}) l = filter (λ x, x ∉ stopped) l.
Proof.
  intros Ho. induction l as [|x l IH]; [done|]. rewrite !filter_cons, IH by set_solver.
  destruct (decide (x ∉ stopped ∪ {[o]})), (decide (x ∉ stopped)); try done; set_solver.
Qed.

(** One request leaves its place. *)
Lemma processing_move s0 pre p p' s s' o rid pl pl' R W S :
  processing s0 pre p s → (rid, o) ∈ sched_requests s → pl ≠ Out →
  (∀ x, x ≠ o → same_skel (objects s !!! x) (objects s' !!! x)) →
  object_id (objects s' !!! o) = object_id (objects s !!! o) → request_id (objects s' !!! o) = request_id (objects s !!! o) →
  sched_requests s' = sched_requests s ∨ pl' = Out ∧ sched_requests s' = dict_del (sched_requests s) rid →
  fits pl' (status (objects s' !!! o)) →
  live_running p s ≡ₚ run_at o pl R → live_waiting p s ≡ₚ wait_at o pl W → live_skipped p s ≡ₚ skip_at o pl S →
  live_running p' s' ≡ₚ run_at o pl' R → live_waiting p' s' ≡ₚ wait_at o pl' W → live_skipped p' s' ≡ₚ skip_at o pl' S →
  num_waiting_for_streaming_input s' = num_waiting_for_streaming_input s - counts pl (status (objects s !!! o)) +
    counts pl' (status (objects s' !!! o)) →
  pl = InRun ∧ pl' ≠ InRun ∨ pl' = Out → running s' = running s →
  (∀ x, x ∈ stopped_running_reqs p' ∨ x ∈ stopped_preempted_reqs p' →
     x = o ∨ x ∈ stopped_running_reqs p ∨ x ∈ stopped_preempted_reqs p) →
  (∀ x, x ∈ waiting s' → x = o ∨ x ∈ waiting s) → (∀ x, x ∈ skipped_waiting s' → x = o ∨ x ∈ skipped_waiting s) →
  processing s0 (pre ++ [rid]) p' s'.
Proof.
  intros [A B C D F G] Hin Hpl Hoth Hoid Hrid Hreq Hfit Hr Hw Hs Hr' Hw' Hs' Hn Hout Hru Hst Hwx Hsx.
  destruct (pl_refs _ _ _ _ _ _ _ A _ _ Hin) as [Ho Hrid0]. pose proof (pl_keys _ _ _ _ _ _ _ A) as Hkeys.
  assert (∀ x, object_id (objects s' !!! x) = object_id (objects s !!! x) ∧
    request_id (objects s' !!! x) = request_id (objects s !!! x)) as Hids.
  { intros x. destruct (decide (x = o)) as [->|Hx]; [done|]. destruct (Hoth x Hx). done. }
  split.
  - eapply placed_perm; [symmetry; exact Hr'|symmetry; exact Hw'|symmetry; exact Hs'|].
    pose proof (placed_perm _ _ _ _ _ _ _ _ _ _ Hr Hw Hs A) as A'. pose proof (pl_bound _ _ _ _ _ _ _ A') as Hb.
    eapply (placed_move _ _ _ _ _ _ _ _ _ _ o pl pl' A'); try done.
    + destruct Hreq as [-> |[_ ->]]; [done|by apply dict_del_NoDup].
    + intros rid' x Hx. destruct Hreq as [-> |[_ ->]]; [done|]. rewrite dict_del_elem by done. split; [tauto|].
      intros Hin'. split; [done|]. intros ->. apply Hx. symmetry.
      eapply (placed_unique _ _ _ _ _ _ _ _ _ o x A Hin Hin').
      destruct (pl_refs _ _ _ _ _ _ _ A _ _ Hin') as [_ ->]. done.
    + intros rid' Hin'. rewrite Hoid, Hrid. apply (pl_refs _ _ _ _ _ _ _ A).
      destruct Hreq as [Heq|[_ Heq]]; rewrite Heq in Hin'; [done|]. by apply dict_del_elem in Hin' as [? _].
    + intros Hpl'. destruct Hreq as [-> |[-> _]]; [eauto|done].
    + revert Hb Hn. unfold run_at, counts. destruct Hout as [[-> Hpl']| ->]; repeat case_decide;
        rewrite ?len_cons; try naive_solver lia.
  - congruence.
  - destruct C as [C1 C2]. split; intros x Hx; destruct (Hids x) as [-> _];
      [destruct (Hwx x Hx) as [->|?]|destruct (Hsx x Hx) as [->|?]]; auto.
  - intros x Hx. destruct (Hids x) as [-> ->]. destruct (Hst x Hx) as [->|Hx'].
    + split; [|done]. rewrite Hrid0. apply elem_of_app. right. by left.
    + destruct (D x Hx'). split; [apply elem_of_app; by left|done].
  - intros x. destruct (Hids x) as [_ ->]. rewrite elem_of_app, list_elem_of_singleton. intros Hno.
    etrans; [apply F; tauto|]. apply Hoth. intros ->. tauto.
  - intros [k v] Hx. apply G. destruct Hreq as [Heq|[_ Heq]]; rewrite Heq in Hx; [done|]. by apply dict_del_elem in Hx as [? _].
Qed.

(** Where a request of the loop is. *)
Lemma processing_place s0 pre p s o rid : processing s0 pre p s → (rid ∉ pre) → (rid, o) ∈ sched_requests s →
  is_finished (objects s !!! o) = false →
  (o ∉ stopped_running_reqs p) ∧ (o ∉ stopped_preempted_reqs p) ∧
  ((o ∈ live_running p s ∧ status (objects s !!! o) = RUNNING) ∨
   (status (objects s !!! o) ≠ RUNNING ∧ (o ∈ live_waiting p s ∨ o ∈ live_skipped p s))).
Proof.
  intros [A B C D F G] Hrid Hin Hfin. destruct (pl_refs _ _ _ _ _ _ _ A _ _ Hin) as [Ho Hr].
  split_and!; [intros Hx; destruct (D o) as [Hx' _]; [auto|congruence]..|].
  pose proof (pl_complete _ _ _ _ _ _ _ A rid o Hin Hfin) as Hm. rewrite !elem_of_app in Hm. destruct Hm as [Hm|[Hm|Hm]].
  - left. split; [done|]. by apply (pl_run _ _ _ _ _ _ _ A).
  - right. split; [|by left]. destruct (pl_wait _ _ _ _ _ _ _ A o Hm); congruence.
  - right. split; [|by right]. by apply (pl_skip _ _ _ _ _ _ _ A).
Qed.

(** The sets of stopped requests after [o] stopped. *)
Definition add_stopped (o : Z) (was_running : bool) (p : Processed) : Processed :=
  if was_running then p <| stopped_running_reqs ::= λ d, d ∪ {[o]} |>
  else p <| stopped_preempted_reqs ::= λ d, d ∪ {[o]} |>.

Lemma processing_finish s0 pre p s s' o rid :
  processing s0 pre p s → (rid ∉ pre) → (rid, o) ∈ sched_requests s → is_finished (objects s !!! o) = false →
  status (objects s !!! o) ≠ WAITING_FOR_STREAMING_REQ →
  (∀ x, x ≠ o → same_skel (objects s !!! x) (objects s' !!! x)) →
  object_id (objects s' !!! o) = object_id (objects s !!! o) → request_id (objects s' !!! o) = request_id (objects s !!! o) →
  is_finished (objects s' !!! o) = true →
  sched_requests s' = sched_requests s ∨ sched_requests s' = dict_del (sched_requests s) rid →
  running s' = running s → waiting s' = waiting s → skipped_waiting s' = skipped_waiting s →
  num_waiting_for_streaming_input s' = num_waiting_for_streaming_input s →
  processing s0 (pre ++ [rid]) (add_stopped o (bool_decide (status (objects s !!! o) = RUNNING)) p) s'.
Proof.
  intros Hp Hrid Hin Hunf Hns Hoth Hoid Hr Hfin Hreq Hru Hw Hs Hn.
  destruct (processing_place _ _ _ _ _ _ Hp Hrid Hin Hunf) as (Hn1 & Hn2 & Hpl).
  pose proof (pl_nodup _ _ _ _ _ _ _ (pr_placed _ _ _ _ Hp)) as Hnd.
  apply NoDup_app in Hnd as (Hnr & Hd1 & Hnd). apply NoDup_app in Hnd as (Hnw & Hd2 & Hns').
  assert (∀ pl, counts pl (status (objects s !!! o)) = 0) as Hc0 by (intros; by apply counts_other).
  assert (counts Out (status (objects s' !!! o)) = 0) as Hc1 by (unfold counts; by rewrite decide_False by naive_solver).
  assert (∀ l, o ∈ filter (λ x, x ∉ stopped_preempted_reqs p) l ↔ o ∈ l) as Hl
    by (intros l; rewrite list_elem_of_filter; tauto).
  assert (sched_requests s' = sched_requests s ∨ Out = Out ∧ sched_requests s' = dict_del (sched_requests s) rid) as Hreq'
    by (destruct Hreq; auto).
  destruct Hpl as [[Ho Hst]|[Hst Ho]].
  - rewrite bool_decide_true by done. unfold live_running in Ho. apply list_elem_of_filter in Ho as [_ Ho].
    eapply (processing_move s0 pre p _ s s' o rid InRun Out _ (live_waiting p s) (live_skipped p s)); try done;
      unfold live_running, live_waiting, live_skipped; simpl; rewrite ?Hru, ?Hw, ?Hs, ?Hn, ?Hc0, ?Hc1; try done.
    { by apply live_add. }
    all: first [done|lia|by right|tauto|set_solver].
  - rewrite bool_decide_false by done. destruct Ho as [Ho|Ho].
    + assert (o ∉ skipped_waiting s) as Hno by (intros Hx; apply (Hd2 o Ho); by apply Hl).
      eapply (processing_move s0 pre p _ s s' o rid InWait Out (live_running p s) _ (live_skipped p s)); try done;
        unfold live_running, live_waiting, live_skipped; simpl; rewrite ?Hru, ?Hw, ?Hs, ?Hn, ?Hc0, ?Hc1; try done.
      { apply live_add; [done|by apply Hl|done]. }
      all: first [done|lia|by right|tauto|by rewrite live_same by (by right)|set_solver].
    + assert (o ∉ waiting s) as Hno by (intros Hx; apply (Hd2 o); [by apply Hl|done]).
      eapply (processing_move s0 pre p _ s s' o rid InSkip Out (live_running p s) (live_waiting p s)); try done;
        unfold live_running, live_waiting, live_skipped; simpl; rewrite ?Hru, ?Hw, ?Hs, ?Hn, ?Hc0, ?Hc1; try done.
      { apply live_add; [done|by apply Hl|done]. }
      all: first [done|lia|by right|tauto|by rewrite live_same by (by right)|set_solver].
Qed.

Lemma processing_requeue s0 pre p s s' o rid pl :
  processing s0 pre p s → (rid ∉ pre) → (rid, o) ∈ sched_requests s → status (objects s !!! o) = RUNNING →
  requeued o pl s s' → processing s0 (pre ++ [rid]) (add_stopped o true p) s'.
Proof.
  intros Hp Hrid Hin Hst [A B C D F G I J L O].
  assert (is_finished (objects s !!! o) = false) as Hunf by (unfold is_finished; by rewrite Hst).
  destruct (processing_place _ _ _ _ _ _ Hp Hrid Hin Hunf) as (Hn1 & Hn2 & [[Ho _]|[? _]]); [|done].
  unfold live_running in Ho. apply list_elem_of_filter in Ho as [_ Ho].
  pose proof (pl_nodup _ _ _ _ _ _ _ (pr_placed _ _ _ _ Hp)) as Hnd. apply NoDup_app in Hnd as (Hnr & _ & _).
  assert (∀ q pl', filter (λ x, x ∉ stopped_preempted_reqs p) (wait_at o pl' q) =
    wait_at o pl' (filter (λ x, x ∉ stopped_preempted_reqs p) q)) as Hfw.
  { intros q pl'. unfold wait_at. case_decide; [|done]. by rewrite filter_cons_True. }
  assert (∀ q pl', filter (λ x, x ∉ stopped_preempted_reqs p) (skip_at o pl' q) =
    skip_at o pl' (filter (λ x, x ∉ stopped_preempted_reqs p) q)) as Hfs.
  { intros q pl'. unfold skip_at. case_decide; [|done]. by rewrite filter_cons_True. }
  eapply (processing_move s0 pre p _ s s' o rid InRun pl _ (live_waiting p s) (live_skipped p s)); try done;
    unfold live_running, live_waiting, live_skipped; simpl; rewrite ?I.
  - by left.
  - by apply live_add.
  - unfold run_at. destruct A as [-> | ->]; done.
  - rewrite J. by rewrite Hfw.
  - rewrite L. by rewrite Hfs.
  - rewrite O, Hst. unfold counts at 2. simpl. lia.
  - left. split; [done|]. by destruct A as [-> | ->].
  - set_solver.
  - intros x. rewrite J. unfold wait_at. case_decide; rewrite ?elem_of_cons; tauto.
  - intros x. rewrite L. unfold skip_at. case_decide; rewrite ?elem_of_cons; tauto.
Qed.

(** A request of the step that no longer runs is not a session. *)
Definition sessions_run s (out : SchedulerOutput) : Prop := ∀ rid n o,
  (rid, n) ∈ so_num_scheduled_tokens out → dict_get (sched_requests s) rid = Some o → is_finished (objects s !!! o) = false →
  status (objects s !!! o) = RUNNING ∨
  resumable (objects s !!! o) = false ∧ status (objects s !!! o) ≠ WAITING_FOR_STREAMING_REQ.

Lemma stop_request_spec s0 pre p s s1 o rid st :
  memoises hasher → processing s0 pre p s → (rid ∉ pre) → (rid, o) ∈ sched_requests s →
  is_finished (objects s !!! o) = false →
  status (objects s !!! o) = RUNNING ∨
    resumable (objects s !!! o) = false ∧ status (objects s !!! o) ≠ WAITING_FOR_STREAMING_REQ →
  is_finished_status st = true → touched o st s s1 →
  wlp (stop_request cfg hasher o (status (objects s !!! o)) p) (λ '(_, p') s', processing s0 (pre ++ [rid]) p' s') s1.
Proof.
  intros Hm Hp Hrid Hin Hunf Hleg Hst [A B C D F G I J L O].
  destruct (pl_refs _ _ _ _ _ _ _ (pr_placed _ _ _ _ Hp) _ _ Hin) as [Ho Hr0].
  assert (∀ x, object_id (objects s1 !!! x) = object_id (objects s !!! x)) as Hoids.
  { intros x. destruct (decide (x = o)) as [->|Hx]; [done|apply A, Hx]. }
  assert (∀ q, refs_ok (objects s) q → refs_ok (objects s1) (o :: q)) as Hrefs.
  { intros q Hq x [->|Hx]%elem_of_cons; rewrite Hoids; auto. }
  destruct (pr_refs _ _ _ _ Hp) as [Hw Hs].
  unfold stop_request. do 2 wlp_step. apply wlp_bind. eapply wlp_mono.
  { apply handle_stopped_spec; [done|by unfold is_finished; rewrite D| |]; [rewrite J|rewrite L]; by apply Hrefs. }
  assert (∀ p', add_stopped o (bool_decide (status (objects s !!! o) = RUNNING)) p = p' →
    (if decide (status (objects s !!! o) = RUNNING) then p <| stopped_running_reqs ::= λ d, d ∪ {[o]} |>
     else p <| stopped_preempted_reqs ::= λ d, d ∪ {[o]} |>) = p') as Hadd.
  { intros p' <-. unfold add_stopped. case_decide; [by rewrite bool_decide_true|by rewrite bool_decide_false]. }
  intros [] s2.
  - intros Hc. apply wlp_bind. eapply wlp_mono; [apply free_request_effect|]. intros [] s3 [Hfin Hfg]. apply wlp_ret.
    rewrite (Hadd _ eq_refl). pose proof (core_forgets o _ _ _ Hc Hfg) as [F0 F1 F2 F3 F4 F5].
    pose proof (F0 o) as Hso. eapply processing_finish; try done; try congruence.
    + by destruct Hleg as [-> |[_ ?]].
    + intros x Hx. etrans; [by apply A|apply F0].
    + rewrite (ss_object _ _ Hso). done.
    + rewrite (ss_id _ _ Hso). done.
    + unfold is_finished. by rewrite (ss_status _ _ Hso), D.
  - intros [Hres [pl [Q1 Q2 Q3 Q4 Q5 Q6 Q7 Q8 Q9 Q10]]]. apply wlp_bind, wlp_ret, wlp_ret. rewrite (Hadd _ eq_refl).
    assert (status (objects s !!! o) = RUNNING) as Hrun by (destruct Hleg as [?|[Hres' _]]; [done|]; apply F in Hres; congruence).
    rewrite bool_decide_true by done. eapply (processing_requeue _ _ _ _ _ _ _ pl); try done.
    split; try congruence; intros x Hx. etrans; [by apply A|by apply Q2].
Qed.

(** What does not matter for the invariant. *)
Lemma processing_outputs s0 pre p s f : processing s0 pre p s → processing s0 pre (p <| outputs ::= f |>) s.
Proof. by intros [A B C D F G]; split. Qed.

Lemma process_request_spec out runner failed s0 pre p s rid n :
  memoises hasher → NoDup (sched_requests s0).*1 → sessions_run s0 out → (rid, n) ∈ so_num_scheduled_tokens out →
  (rid ∉ pre) → processing s0 pre p s →
  wlp (process_request cfg hasher should_advance accept_tokens out runner failed p rid n)
    (λ p' s', processing s0 (pre ++ [rid]) p' s') s.
Proof.
  intros Hm Hkeys Hleg Hout Hrid Hp. unfold process_request. apply wlp_bind, wlp_assert. intros _. do 2 wlp_step.
  assert (∀ s', same_core s s' → wlp (mret p) (λ p' s', processing s0 (pre ++ [rid]) p' s') s') as Hskip.
  { intros s' Hc. apply wlp_ret. eapply processing_mono; [|by eapply processing_core]. set_solver. }
  destruct (dict_get (sched_requests s) rid) as [o|] eqn:Ho; [|by apply Hskip]. apply dict_get_elem in Ho as Hin.
  apply wlp_bind, wlp_keeps; [keeps|]. intros stale s1 H1. do 2 wlp_step. case_decide; [by apply Hskip|].
  destruct (is_finished (objects s1 !!! o)) eqn:Hfin; [by apply Hskip|]. destruct (stale && _); [by apply Hskip|].
  apply wlp_bind, wlp_keeps; [keeps|]. intros idx s2 H2. apply wlp_bind, wlp_keeps; [keeps|]. intros generated s3 H3.
  apply wlp_bind, wlp_keeps; [keeps|]. intros [] s4 H4. do 2 wlp_step.
  apply wlp_bind, wlp_keeps; [keeps|]. intros [] s5 H5. apply wlp_bind, wlp_keeps; [keeps|]. intros pooled s6 H6.
  assert (same_core s1 s6) as H16
    by (transitivity s5; [transitivity s4; [transitivity s3; [by transitivity s2|done]|done]|done]).
  assert (same_core s s6) as Hc by (by transitivity s1).
  assert (status (objects s4 !!! o) = status (objects s6 !!! o)) as Hst46.
  { symmetry. apply (sc_objects s4 s6). by transitivity s5. }
  eapply processing_core in Hp; [|exact Hc]. rewrite <-(sc_requests _ _ Hc) in Hin.
  assert (is_finished (objects s6 !!! o) = false) as Hunf
    by (unfold is_finished in *; by rewrite (ss_status _ _ (sc_objects _ _ H16 o))).
  assert (status (objects s6 !!! o) = RUNNING ∨
    resumable (objects s6 !!! o) = false ∧ status (objects s6 !!! o) ≠ WAITING_FOR_STREAMING_REQ) as Hl.
  { destruct (pl_refs _ _ _ _ _ _ _ (pr_placed _ _ _ _ Hp) _ _ Hin) as [_ Hr].
    assert (same_skel (objects s0 !!! o) (objects s6 !!! o)) as [_ _ -> _ _ _ ->].
    { apply (pr_later _ _ _ _ Hp). congruence. }
    apply (Hleg rid n o Hout). { apply dict_elem_get; [done|]. by apply (pr_requests _ _ _ _ Hp). }
    unfold is_finished in *. rewrite <-(ss_status _ _ (pr_later _ _ _ _ Hp o ltac:(congruence))). done. }
  rewrite Hst46. apply wlp_bind. eapply wlp_mono; [by apply apply_output_spec|]. intros [ts stopped] s7 H7.
  apply wlp_bind. apply (wlp_mono _ (λ _ s8, may_stop o s6 (ts, stopped) s8)).
  { apply wlp_keeps; [keeps|]. intros [] s8 H8. destruct stopped; simpl in *; [|by transitivity s7].
    destruct H7 as (st & ? & ?). exists st. split; [done|]. by eapply touched_core. }
  intros [] s8 H8. apply wlp_bind.
  apply (wlp_mono _ (λ '(_, p') s', processing s0 (pre ++ [rid]) p' s')).
  { destruct stopped; simpl in H8.
    - destruct H8 as (st & ? & ?). by eapply stop_request_spec.
    - apply wlp_ret. eapply processing_mono; [|by eapply processing_core]. set_solver. }
  intros [reason p'] s9 H9. do 2 wlp_step. case_decide; apply wlp_ret; [by apply processing_outputs|done].
Qed.

(** ** The whole output *)

Lemma processing_end s0 pre p s : processing s0 pre p s → NoDup (running s) →
  wlp (remove_from_running (stopped_running_reqs p))
    (λ _, wlp (remove_from_waiting cfg (iter_set (stopped_preempted_reqs p))) (λ _, queues_ok cfg)) s.
Proof.
  intros [A B [Hw Hs] D F G] Hnd. eapply wlp_mono; [by apply remove_from_running_spec|]. intros [] s1 ->.
  eapply wlp_mono; [apply remove_from_waiting_spec; [exact Hw|exact Hs|]|].
  { intros o Ho. apply elem_of_iter_set in Ho. simpl. apply D. by right. }
  intros [] s2 (w & k & -> & Hwp & Hkp). unfold queues_ok, queues_with. simpl in *.
  eapply placed_perm; [reflexivity| | |exact A].
  - rewrite Hwp. unfold live_waiting. apply reflexive_eq, list_filter_iff. intros x. by rewrite elem_of_iter_set.
  - rewrite Hkp. unfold live_skipped. apply reflexive_eq, list_filter_iff. intros x. by rewrite elem_of_iter_set.
Qed.

(** A finished request is forgotten. *)
Lemma queues_forget o s s' : queues_ok cfg s → is_finished (objects s !!! o) = true →
  (∃ rid, (rid, o) ∈ sched_requests s) → forgets o s s' → queues_ok cfg s'.
Proof.
  intros Hq Hfin [rid Hin] [A B C D F G]. destruct (pl_refs _ _ _ _ _ _ _ Hq _ _ Hin) as [Ho Hr].
  unfold queues_ok, queues_with. rewrite C, D, F, G. apply (placed_ext _ (objects s)); [done|].
  assert (o ∉ running s ++ waiting s ++ [] ++ skipped_waiting s) as Hno.
  { unfold is_finished in Hfin. intros [Hx|[Hx|Hx]%elem_of_app]%elem_of_app.
    - pose proof (pl_run _ _ _ _ _ _ _ Hq o Hx) as Hst. by rewrite Hst in Hfin.
    - destruct (pl_wait _ _ _ _ _ _ _ Hq o Hx) as [Hst|Hst]; by rewrite Hst in Hfin.
    - destruct (pl_skip _ _ _ _ _ _ _ Hq o Hx) as [_ Hst]. unfold is_finished in Hst. congruence. }
  destruct B as [-> | ->]; [exact Hq|]. rewrite Hr. pose proof (pl_keys _ _ _ _ _ _ _ Hq) as Hkeys.
  pose proof Hq as [P1 P2 P3 P4 P5 P6 P7 P8 P9 P10]. split; try done.
  - by apply dict_del_NoDup.
  - intros rid' x [Hx _]%dict_del_elem; [|done]. by apply P2.
  - intros x Hx. destruct (P4 x Hx) as [rid' Hin']. exists rid'. apply dict_del_elem; [done|]. split; [done|]. intros ->.
    apply Hno. assert (o = x) as ->; [|done]. eapply (placed_unique _ _ _ _ _ _ _ _ _ o x Hq Hin Hin').
    destruct (P2 _ _ Hin') as [_ ->]. done.
  - intros rid' x [Hx _]%dict_del_elem; [|done]. by eapply P8.
Qed.

Lemma free_known_spec rid o s : queues_ok cfg s → dict_get (sched_requests s) rid = Some o →
  wlp (_free_blocks cfg o) (λ _, queues_ok cfg) s.
Proof.
  intros Hq Ho%dict_get_elem. eapply wlp_mono; [apply free_blocks_effect|]. intros [] s' [Hfin Hfg].
  eapply queues_forget; eauto.
Qed.

Lemma wlp_for_inv {A} (I : Sched → Prop) (xs : list A) (body : A → M Sched unit) s :
  I s → (∀ x s, I s → wlp (body x) (λ _, I) s) → wlp (for_ xs body) (λ _, I) s.
Proof. intros Hs Hb. apply (wlp_for (λ _, I)); [done|]. auto. Qed.

Lemma kv_xfer_spec out s : queues_ok cfg s → wlp (_update_from_kv_xfer_finished cfg out) (λ _, queues_ok cfg) s.
Proof.
  intros Hq. unfold _update_from_kv_xfer_finished. apply wlp_bind, wlp_keeps; [keeps|]. intros [] s1 H1.
  eapply queues_with_core in Hq; [|exact H1]. apply wlp_bind. eapply wlp_mono; [apply (wlp_for_inv (queues_ok cfg)); [exact Hq|]|].
  - intros rid s2 Hq2. unfold finish_recving. do 2 wlp_step. destruct (dict_get _ _) as [o|] eqn:Ho; [|by apply wlp_ret].
    do 2 wlp_step. case_decide.
    + apply wlp_modify. eapply queues_with_core; [|exact Hq2]. by split.
    + destruct (is_finished _); [by eapply free_known_spec|by apply wlp_ret].
  - intros [] s2 Hq2. apply (wlp_for_inv (queues_ok cfg)); [done|]. intros rid s3 Hq3. unfold finish_sending.
    do 2 wlp_step. destruct (dict_get _ _) as [o|] eqn:Ho; [by eapply free_known_spec|by apply wlp_ret].
Qed.

Lemma update_from_output_spec out runner s :
  memoises hasher → queues_ok cfg s → sessions_run s out → NoDup (so_num_scheduled_tokens out).*1 →
  wlp (update_from_output cfg hasher should_advance accept_tokens out runner) (λ _, queues_ok cfg) s.
Proof.
  intros Hm Hq Hleg Hnd. unfold update_from_output. apply wlp_bind, wlp_keeps; [keeps|]. intros [] s1 H1. cbv zeta.
  apply wlp_bind, wlp_keeps; [keeps|]. intros failed s2 H2. assert (same_core s s2) as Hc by (by transitivity s1).
  eapply queues_with_core in Hq; [|exact Hc].
  assert (sessions_run s2 out) as Hleg2.
  { intros rid n o Hin. rewrite (sc_requests _ _ Hc). unfold is_finished.
    destruct (sc_objects _ _ Hc o) as [_ _ -> _ _ _ ->]. apply (Hleg rid n o Hin). }
  apply wlp_bind. eapply wlp_mono.
  { apply (wlp_for_acc (λ pre p s', processing s2 pre.*1 p s')); [by apply processing_start|].
    intros pre [rid n] post p s3 Heq Hp. rewrite fmap_app. eapply process_request_spec; try done.
    - apply Hq.
    - rewrite Heq. apply elem_of_app. right. by left.
    - rewrite Heq, fmap_app in Hnd. apply NoDup_app in Hnd as (_ & Hd & _). intros Hx. apply (Hd rid Hx). by left. }
  intros p s3 Hp. assert (NoDup (running s3)) as Hndr.
  { rewrite (pr_running _ _ _ _ Hp). pose proof (pl_nodup _ _ _ _ _ _ _ Hq) as Hn. by apply NoDup_app in Hn as [? _]. }
  apply wlp_bind. eapply wlp_mono; [by eapply processing_end|]. intros [] s4 H4.
  apply wlp_bind. eapply wlp_mono; [exact H4|]. intros [] s5 Hq5. do 2 wlp_step. apply wlp_bind, wlp_modify.
  assert (queues_ok cfg (s5 <| grammar_compile_error_reqs := ∅ |>)) as Hq5' by (eapply queues_with_core; [|exact Hq5]; by split).
  apply wlp_bind. apply (wlp_mono _ (λ _, queues_ok cfg)).
  { case_decide; [|by apply wlp_ret]. apply wlp_bind. eapply wlp_mono; [by apply finish_requests_spec|].
    intros reqs s6 Hq6. do 2 wlp_step. by apply wlp_ret. }
  intros outs s6 Hq6. apply wlp_bind. apply (wlp_mono _ (λ _, queues_ok cfg)).
  { destruct (kv_connector_output runner); [by apply kv_xfer_spec|by apply wlp_ret]. }
  intros [] s7 Hq7. apply (wlp_keeps _ _ s7); [keeps|]. intros ? s8 H8. by eapply queues_with_core.
Qed.
End process.
