(* ===== verification/SchedLoops.v ===== *)
(** * The loops of a step end

    [schedule] preempts in a loop, and walks over queues that it changes.  When the calls on the
    managers return or raise, so does [schedule]: its loops never run forever. *)

From S2P Require Import Prelude FreeQueue Request Hashing Session BlockPool Heapq RequestQueue SchedUtils EncoderCache EncoderSched.
From S2P Require Import SingleType Coordinator Manager Scheduler ScheduleStep SchedOutput SchedFrame SchedQueues SchedInvariant SchedRunning SchedWaiting.

(** ** Computations that end *)

(** The computation returns or raises a Python exception. *)
Definition ends {S A} (m : M S A) (s : S) : Prop := m s ≠ Raise OutOfFuel.
Definition Ends {S A} (m : M S A) : Prop := ∀ s, ends m s.

Lemma ends_bind {S A B} (m : M S A) (k : A → M S B) s :
  ends m s → wlp m (λ a, ends (k a)) s → ends (m ≫= k) s.
Proof.
  unfold ends, wlp, mbind, M_bind. intros Hm Hk. destruct (m s) as [[a s']|e] eqn:Hr; [by apply Hk|congruence].
Qed.
Lemma Ends_bind {S A B} (m : M S A) (k : A → M S B) : Ends m → (∀ a, Ends (k a)) → Ends (m ≫= k).
Proof. intros Hm Hk s. apply ends_bind; [apply Hm|]. intros a s' _. apply Hk. Qed.
Lemma Ends_ret {S A} (a : A) : Ends (S := S) (mret a).
Proof. done. Qed.
Lemma Ends_gets {S A} (f : S → A) : Ends (gets f).
Proof. done. Qed.
Lemma Ends_modify {S} (f : S → S) : Ends (modify f).
Proof. done. Qed.
Lemma Ends_assert {S} b : Ends (S := S) (assert_ b).
Proof. intros s. unfold ends, assert_. by destruct b. Qed.
Lemma Ends_raise {S A} e : e ≠ OutOfFuel → Ends (S := S) (A := A) (raise e).
Proof. intros He s. unfold ends, raise. congruence. Qed.
Lemma Ends_lift {S A} (r : res A) : r ≠ Raise OutOfFuel → Ends (S := S) (lift_res r).
Proof. intros Hr s. unfold ends, lift_res. destruct r; congruence. Qed.
Lemma Ends_for {S A} (xs : list A) (body : A → M S unit) : (∀ x, Ends (body x)) → Ends (for_ xs body).
Proof. intros Hb. induction xs as [|x xs IH]; simpl; [apply Ends_ret|]. by apply Ends_bind. Qed.
Lemma Ends_for_acc {S A B} (xs : list A) (acc : B) (body : B → A → M S B) :
  (∀ acc x, Ends (body acc x)) → Ends (for_acc xs acc body).
Proof. intros Hb. revert acc. induction xs as [|x xs IH]; intros acc; simpl; [apply Ends_ret|]. by apply Ends_bind. Qed.

Lemma ends_mapM {A B} (f : A → res B) l : (∀ x, f x ≠ Raise OutOfFuel) → mapM (M := res) f l ≠ Raise OutOfFuel.
Proof.
  intros Hf. induction l as [|x l IH]; simpl; [done|]. specialize (Hf x). destruct (f x) as [y|e]; simpl; [|congruence].
  destruct (mapM (M := res) f l); simpl; [done|congruence].
Qed.
Lemma ends_index {A} (l : list A) i : index l i ≠ Raise OutOfFuel.
Proof. unfold index. cbv zeta. repeat case_decide; try done; by destruct (l !! _). Qed.
Lemma ends_embeds r i : get_num_encoder_embeds r i ≠ Raise OutOfFuel.
Proof.
  unfold get_num_encoder_embeds. case_decide; [|done]. pose proof (ends_index (mm_features r) i).
  destruct (index _ _); simpl; congruence.
Qed.

(** Decompose a computation into steps that end. *)
Create HintDb ends.
Ltac ends_step :=
  lazymatch goal with
  | |- Ends (mret _) => apply Ends_ret
  | |- Ends (mbind _ _) => apply Ends_bind; [|intros ?]
  | |- Ends (gets _) => apply Ends_gets
  | |- Ends (deref _) => apply Ends_gets
  | |- Ends (get_request _) => apply Ends_gets
  | |- Ends (raise _) => apply Ends_raise; discriminate
  | |- Ends (assert_ _) => apply Ends_assert
  | |- Ends (modify _) => apply Ends_modify
  | |- Ends (set_memo _ _) => apply Ends_modify
  | |- Ends (update_object _ _) => apply Ends_modify
  | |- Ends (lift_res (index _ _)) => apply Ends_lift, ends_index
  | |- Ends (for_ _ _) => apply Ends_for; intros ?
  | |- Ends (for_acc _ _ _) => apply Ends_for_acc; intros ? ?
  | |- Ends (let _ := _ in _) => cbv zeta
  | |- Ends (if ?b then _ else _) => destruct b
  | |- Ends (match ?x with _ => _ end) => destruct x
  | |- Ends _ => progress cbv beta
  end.
Ltac ends := repeat (ends_step || (progress eauto with ends)).

(** ** The components *)

(** The calls of a step on the KV cache manager return or raise. *)
Class KVEnds (K : Type) `{!KVManager K} : Prop := {
  ends_get_computed r : Ends (kv_get_computed_blocks (K := K) r);
  ends_get_computed_conn r : Ends (kv_get_computed_blocks_for_connector (K := K) r);
  ends_truncate bs n : Ends (kv_truncate_computed_blocks (K := K) bs n);
  ends_allocate r n1 n2 bs n3 n4 b1 n5 b2 n6 b3 : Ends (kv_allocate_slots (K := K) r n1 n2 bs n3 n4 b1 n5 b2 n6 b3);
  ends_cache r n : Ends (kv_cache_blocks (K := K) r n);
  ends_stats r n : Ends (kv_record_prefix_cache_stats (K := K) r n);
  ends_to_allocate (k : K) rid n c : kv_num_blocks_to_allocate k rid n c ≠ Raise OutOfFuel;
  ends_kv_free r : Ends (kv_free (K := K) r);
  ends_pop r : Ends (kv_pop_blocks_for_free (K := K) r);
  ends_pool_free bs : Ends (kv_pool_free_blocks (K := K) bs);
  ends_copies : Ends (kv_take_block_copies (K := K));
  ends_new_ids : Ends (kv_take_new_block_ids (K := K));
  ends_zeroing rid n m : Ends (kv_get_zeroing_block_ids_in_range (K := K) rid n m);
  ends_record_zeroing rid n : Ends (kv_record_blocks_for_zeroing (K := K) rid n);
  ends_common rid : Ends (kv_get_num_common_prefix_blocks (K := K) rid)
}.

(** So do the calls on the encoder cache manager. *)
Class EncoderEnds (E : Type) `{!EncoderManager E} : Prop := {
  ends_check r i : Ends (mgr_check_and_update_cache (S := E) r i);
  ends_can_allocate r i n m : Ends (mgr_can_allocate (S := E) r i n m);
  ends_mgr_allocate r i : Ends (mgr_allocate (S := E) r i);
  ends_mgr_free r : Ends (EncoderCache.mgr_free (S := E) r);
  ends_freed : Ends (mgr_get_freed_mm_hashes (S := E))
}.

Section loops.
Context {K E N X : Type}.
Context `{!KVManager K} `{!EncoderManager E} `{!KVConnector N} `{!ECConnector X} `{!SetIter}.
Context `{!KVEnds K} `{!EncoderEnds E}.
Variable cfg : SchedulerConfig.
Abbreviation Sched := (Scheduler K E N X).
Abbreviation EndsM := (Ends (S := Sched)).
Implicit Types s : Sched.

Lemma Ends_on_kv {A} (op : M K A) : Ends op → EndsM (on_kv op).
Proof. intros Hop s. unfold ends, on_kv. specialize (Hop (kv_cache_manager s)). unfold ends in Hop. destruct (op _) as [[]|]; [done|congruence]. Qed.
Lemma Ends_on_encoder {A} (op : M E A) : Ends op → EndsM (on_encoder op).
Proof. intros Hop s. unfold ends, on_encoder. specialize (Hop (encoder_cache_manager s)). unfold ends in Hop. destruct (op _) as [[]|]; [done|congruence]. Qed.
Lemma Ends_on_connector {A} (a : A) op : EndsM (on_connector a op).
Proof. intros s. unfold ends, on_connector. destruct (connector s) as [n|]; [|done]. by destruct (op n). Qed.
Lemma Ends_on_ec_connector {A} (a : A) op : EndsM (on_ec_connector a op).
Proof. intros s. unfold ends, on_ec_connector. destruct (ec_connector s) as [n|]; [|done]. by destruct (op n). Qed.
Hint Resolve Ends_on_kv Ends_on_encoder Ends_on_connector Ends_on_ec_connector : ends.
Hint Resolve ends_get_computed ends_get_computed_conn ends_truncate ends_allocate ends_cache ends_stats ends_kv_free
  ends_pop ends_pool_free ends_copies ends_new_ids ends_zeroing ends_record_zeroing ends_common : ends.
Hint Resolve ends_check ends_can_allocate ends_mgr_allocate ends_mgr_free ends_freed : ends.

(** *** Encoder inputs *)

Lemma ends_bisect {A} (a : list A) x key fuel lo hi : hi - lo ≤ Z.of_nat fuel →
  bisect_loop fuel a x key lo hi ≠ Raise OutOfFuel.
Proof.
  revert lo hi. induction fuel as [|fuel IH]; intros lo hi Hf; cbn [bisect_loop]; case_decide as Hlt; try done; [lia|].
  pose proof (ends_index a ((lo + hi) // 2)) as Hi. destruct (index a _) as [v|e]; simpl; [|congruence].
  assert (lo ≤ (lo + hi) // 2 < hi) by (split; [apply Z.div_le_lower_bound|apply Z.div_lt_upper_bound]; lia).
  case_decide; apply IH; lia.
Qed.
Lemma ends_window fs start stop : get_mm_features_in_window fs start stop ≠ Raise OutOfFuel.
Proof.
  unfold get_mm_features_in_window, bisect_left.
  pose proof (λ x (key : MultiModalFeatureSpec → Z), ends_bisect fs x key (length fs) 0 (len fs) ltac:(unfold len; lia)) as Hb.
  repeat match goal with |- context [bisect_loop _ _ ?x ?key _ _] =>
    let Hk := fresh in pose proof (Hb x key) as Hk; destruct (bisect_loop _ _ x key _ _) end; simpl; congruence.
Qed.

Lemma ends_embeds_range p a b : get_embeds_indices_in_range p a b ≠ Raise OutOfFuel.
Proof.
  unfold get_embeds_indices_in_range. destruct (embeds_cumsum p) as [c|]; [|done].
  pose proof (ends_index c (a - 1)). pose proof (ends_index c (b - 1)).
  case_decide; case_decide; repeat (destruct (index c _); simpl); congruence.
Qed.

Lemma ends_inputs ied dc hci r c shift stop inputs p :
  Ends (schedule_inputs (S := E) ied dc hci r c shift stop inputs p).
Proof.
  revert p. induction inputs as [|i inputs IH]; intros p; [apply Ends_ret|]. cbn [schedule_inputs]. ends.
  apply Ends_lift, ends_embeds_range.
Qed.

Lemma ends_plan r c n eb : EndsM (plan_encoder_inputs cfg r c n eb).
Proof.
  pose proof ends_inputs. unfold plan_encoder_inputs. destruct (has_encoder_inputs r); [|apply Ends_ret].
  apply Ends_bind; [apply Ends_gets|]. intros ec. apply Ends_on_encoder. unfold _try_schedule_encoder_inputs. ends.
  apply Ends_lift, ends_window.
Qed.
Lemma ends_commit_encoder o p b : EndsM (commit_encoder_inputs o p b).
Proof. unfold commit_encoder_inputs. ends. Qed.
Lemma ends_commit_spec o n b : EndsM (commit_spec_tokens o n b).
Proof. unfold commit_spec_tokens. ends. Qed.
Hint Resolve ends_plan ends_commit_encoder ends_commit_spec : ends.

(** *** Preemption *)

Lemma ends_slots o n1 n2 bs n3 n4 b1 n5 b2 n6 b3 : EndsM (allocate_slots_for o n1 n2 bs n3 n4 b1 n5 b2 n6 b3).
Proof. unfold allocate_slots_for. ends. Qed.
Lemma ends_free_request_blocks o : EndsM (_free_request_blocks cfg o).
Proof. unfold _free_request_blocks. ends. Qed.
Hint Resolve ends_slots ends_free_request_blocks : ends.
Lemma ends_preempt o d : EndsM (_preempt_request cfg o d).
Proof. unfold _preempt_request. ends. Qed.

Lemma ends_dict_pop {V} (d : list (string * V)) k : dict_pop d k ≠ Raise OutOfFuel.
Proof. unfold dict_pop. by destruct (dict_get d k). Qed.
Lemma ends_unschedule o b : EndsM (unschedule cfg o b).
Proof. unfold unschedule. ends; apply Ends_lift; [apply ends_dict_pop..|apply ends_mapM, ends_embeds]. Qed.

Lemma ends_take_victim i b : EndsM (take_victim cfg i b).
Proof.
  pose proof ends_unschedule. unfold take_victim. ends; apply Ends_lift.
  - unfold pick_victim. by destruct (running _).
  - unfold index_of. by destruct (list_find _ _) as [[]|].
Qed.

(** The victim leaves [running], and the cursor stays on its request. *)
Lemma take_victim_running s (idx : nat) b :
  (idx < length (running s))%nat →
  wlp (take_victim cfg (Z.of_nat idx) b) (λ '(v, idx', _) s', ∃ i, running s !! i = Some v ∧
    running s' = delete i (running s) ∧ idx' = Z.of_nat (if decide (i < idx)%nat then idx - 1 else idx)) s.
Proof.
  intros Hidx. unfold take_victim. do 2 wlp_step. destruct (policy cfg).
  - destruct (last (running s)) as [v|] eqn:Hv; [|apply wlp_raise].
    rewrite last_lookup in Hv. apply wlp_bind, wlp_modify, wlp_ret. exists (Nat.pred (length (running s))).
    split; [done|]. split; [|rewrite decide_False by lia; done]. simpl.
    rewrite delete_take_drop, drop_ge, app_nil_r by lia. f_equal. lia.
  - apply wlp_bind, wlp_lift. intros v Hv. apply wlp_bind, wlp_lift. intros vi (i & -> & Hi)%index_of_spec.
    apply wlp_bind, wlp_modify. cbv zeta. apply wlp_bind, wlp_keeps; [keeps|]. intros b' s' Hc. apply wlp_ret.
    exists i. split; [done|]. rewrite (sc_running _ _ Hc). simpl. rewrite Nat2Z.id. split; [done|]. do 2 case_decide; lia.
Qed.

Lemma preempt_keeps_running o d s : wlp (_preempt_request cfg o d) (λ _ s', running s' = running s) s.
Proof.
  unfold _preempt_request. do 2 wlp_step. apply wlp_bind, wlp_assert. intros _.
  apply wlp_bind, wlp_keeps; [keeps|]. intros [] s1 H1. apply wlp_bind, wlp_keeps; [keeps|]. intros [] s2 H2.
  apply wlp_bind, wlp_keeps; [keeps|]. intros [] s3 H3. apply wlp_bind, wlp_modify, wlp_bind, wlp_modify, wlp_modify.
  simpl. rewrite (sc_running _ _ H3), (sc_running _ _ H2). apply H1.
Qed.

(** Each round removes a running request; the last one is the request itself. *)
Lemma allocate_or_preempt_ends fuel o n (idx : nat) b s :
  running s !! idx = Some o → (length (running s) ≤ fuel)%nat →
  ends (allocate_or_preempt cfg fuel o n (Z.of_nat idx) b) s.
Proof.
  revert idx b s. induction fuel as [|fuel IH]; intros idx b s Ho Hlen; [apply lookup_lt_Some in Ho; lia|].
  cbn [allocate_or_preempt]. apply ends_bind; [apply ends_slots|]. apply wlp_keeps; [keeps|].
  intros [blocks|] s1 Hc; [apply Ends_ret|]. rewrite <-(sc_running _ _ Hc) in Ho, Hlen.
  apply ends_bind; [apply ends_take_victim|]. eapply wlp_mono; [apply take_victim_running; by eapply lookup_lt_Some|].
  intros [[v idx'] b'] s2 (i & Hi & Hr & ->). apply ends_bind; [apply ends_preempt|].
  eapply wlp_mono; [apply preempt_keeps_running|]. intros [] s3 Hr3. cbv zeta. case_decide as Hv; [apply Ends_ret|].
  assert (i ≠ idx) as Hne by (intros ->; congruence). apply IH; rewrite Hr3, Hr.
  - case_decide.
    + rewrite list_lookup_delete_ge by lia. by replace (S (idx - 1)) with idx by lia.
    + by rewrite list_lookup_delete_lt by lia.
  - rewrite length_delete by done. lia.
Qed.

(** The distance of the cursor from the end does not grow. *)
Lemma allocate_or_preempt_cursor fuel o n (idx : nat) b s :
  running s !! idx = Some o →
  wlp (allocate_or_preempt cfg fuel o n (Z.of_nat idx) b) (λ '(blocks, idx', _) s', is_Some blocks →
    ∃ j, idx' = Z.of_nat j ∧ (length (running s') - j ≤ length (running s) - idx)%nat) s.
Proof.
  revert idx b s. induction fuel as [|fuel IH]; intros idx b s Ho; [apply wlp_raise|].
  cbn [allocate_or_preempt]. apply wlp_bind, wlp_keeps; [keeps|]. intros [blocks|] s1 Hc.
  { apply wlp_ret. intros _. exists idx. split; [done|]. by rewrite (sc_running _ _ Hc). }
  rewrite <-(sc_running _ _ Hc) in Ho |- *. apply wlp_bind.
  eapply wlp_mono; [apply take_victim_running; by eapply lookup_lt_Some|].
  intros [[v idx'] b'] s2 (i & Hi & Hr & ->). apply wlp_bind. eapply wlp_mono; [apply preempt_keeps_running|].
  intros [] s3 Hr3. cbv zeta. case_decide as Hv; [apply wlp_ret; by intros [? ?]|].
  assert (i ≠ idx) as Hne by (intros ->; congruence). pose proof (lookup_lt_Some _ _ _ Hi).
  assert (length (running s3) = length (running s1) - 1)%nat as Hlen by (rewrite Hr3, Hr, length_delete; eauto).
  eapply wlp_mono; [apply IH; rewrite Hr3, Hr|].
  - case_decide.
    + rewrite list_lookup_delete_ge by lia. by replace (S (idx - 1)) with idx by lia.
    + by rewrite list_lookup_delete_lt by lia.
  - intros [[blocks idx2] b2] s4 Hpost Hs. destruct (Hpost Hs) as (j & -> & Hj). exists j. split; [done|].
    revert Hj. case_decide; lia.
Qed.

Lemma running_loop_ends fuel defer (idx : nat) b s :
  (length (running s) - idx ≤ fuel)%nat → ends (running_loop cfg fuel defer (Z.of_nat idx) b) s.
Proof.
  revert idx b s. induction fuel as [|fuel IH]; intros idx b s Hf; cbn [running_loop];
    (apply ends_bind; [apply Ends_gets|]); apply wlp_gets; (case_decide as Hg; [|apply Ends_ret]); [unfold len in Hg; lia|].
  apply ends_bind; [apply Ends_lift, ends_index|]. apply wlp_lift. intros o Ho. apply index_Ok in Ho; [|lia].
  rewrite Nat2Z.id in Ho. apply ends_bind; [apply Ends_gets|]. apply wlp_gets. case_decide; [apply Ends_ret|].
  replace (Z.of_nat idx + 1) with (Z.of_nat (S idx)) by lia.
  destruct (skips_running _ _ _); [apply IH; lia|]. apply ends_bind; [apply ends_plan|]. apply wlp_keeps; [keeps|].
  intros p s1 H1. cbv zeta. rewrite <-(sc_running _ _ H1) in Hf, Ho |- *. case_decide; [apply IH; lia|].
  apply ends_bind; [by apply allocate_or_preempt_ends|].
  eapply wlp_mono; [by apply allocate_or_preempt_cursor|]. intros [[blocks idx'] b'] s2 Hpost.
  destruct blocks as [blocks|]; [|apply Ends_ret]. destruct (Hpost ltac:(done)) as (j & -> & Hj).
  apply ends_bind; [apply Ends_gets|]. apply wlp_gets. cbv zeta. apply ends_bind; [apply ends_commit_spec|].
  apply wlp_keeps; [keeps|]. intros b2 s3 H3. apply ends_bind; [apply ends_commit_encoder|].
  apply wlp_keeps; [keeps|]. intros b3 s4 H4. replace (Z.of_nat j + 1) with (Z.of_nat (S j)) by lia.
  pose proof (lookup_lt_Some _ _ _ Ho). apply IH. rewrite (sc_running _ _ H4), (sc_running _ _ H3). lia.
Qed.

(** *** Waiting requests *)

Lemma q_pop_length p objs q o q' : q_pop p objs q = Ok (o, q') → length q = S (length q').
Proof.
  unfold q_pop. assert (length (q_view objs q) = length q) as <- by (unfold q_view; by rewrite length_fmap). destruct p; simpl.
  - unfold fcfs_pop. simpl. destruct (q_view objs q) as [|r l]; [done|]. simpl. intros [= <- <-]. by rewrite length_fmap.
  - unfold prio_pop. simpl. pose proof (heappop_perm request_ltb (q_view objs q)) as Hp.
    destruct (heappop request_ltb (q_view objs q)) as [[r h]|e]; [|done]. simpl. intros [= <- <-].
    destruct Hp as [Hp%Permutation_length _]. by rewrite length_fmap.
Qed.

Lemma ends_q_pop p objs q : q_pop p objs q ≠ Raise OutOfFuel.
Proof.
  unfold q_pop. destruct p; simpl.
  - unfold fcfs_pop. by destruct (fcfs_items _).
  - unfold prio_pop, heappop. simpl. destruct (last _); [|done]. simpl. by destruct (take _ _).
Qed.
Lemma ends_q_peek p objs q : q_peek p objs q ≠ Raise OutOfFuel.
Proof. unfold q_peek. destruct p; simpl; unfold fcfs_peek, prio_peek; simpl; by destruct (q_view objs q). Qed.

Definition queued s : nat := length (waiting s) + length (skipped_waiting s).

Lemma queued_core s s' : same_core s s' → queued s' = queued s.
Proof. intros Hc. unfold queued. by rewrite (sc_waiting _ _ Hc), (sc_skipped _ _ Hc). Qed.

Lemma pop_from_queued from_skipped s : wlp (pop_from cfg from_skipped) (λ _ s', queued s = S (queued s')) s.
Proof.
  unfold pop_from. do 2 wlp_step. destruct from_skipped; apply wlp_bind, wlp_lift; intros [o q] Hpop%q_pop_length;
    apply wlp_bind, wlp_modify, wlp_ret; unfold queued; simpl; lia.
Qed.
Lemma ends_pop_from from_skipped : EndsM (pop_from cfg from_skipped).
Proof. unfold pop_from. ends; apply Ends_lift, ends_q_pop. Qed.

Lemma ends_select : EndsM (_select_waiting_queue_for_scheduling cfg).
Proof. unfold _select_waiting_queue_for_scheduling. ends; apply Ends_lift, ends_q_peek. Qed.
Lemma ends_remote_kv o : EndsM (_update_waiting_for_remote_kv cfg o).
Proof. unfold _update_waiting_for_remote_kv. ends. Qed.
Hint Resolve ends_remote_kv : ends.
Lemma ends_promote o : EndsM (_try_promote_blocked_waiting_request cfg o).
Proof. unfold _try_promote_blocked_waiting_request. ends. Qed.
Lemma ends_local_hit o : EndsM (_get_local_prefix_cache_hit o).
Proof. unfold _get_local_prefix_cache_hit. ends. Qed.
Lemma ends_match_external o bs n d : EndsM (match_external cfg o bs n d).
Proof. unfold match_external. ends. Qed.
Hint Resolve ends_local_hit ends_match_external : ends.
Lemma ends_find_hit o : EndsM (find_hit cfg o).
Proof. unfold find_hit. ends. Qed.
Lemma ends_waiting_tokens o h d b : EndsM (waiting_tokens cfg o h d b).
Proof. unfold waiting_tokens. ends. Qed.
Lemma ends_reserved : EndsM (_inflight_prefill_reserved_blocks cfg).
Proof. unfold _inflight_prefill_reserved_blocks. ends. apply Ends_lift, ends_mapM. intros o. apply ends_to_allocate. Qed.
Hint Resolve ends_reserved : ends.
Lemma ends_admit o h n p : EndsM (admit_slots cfg o h n p).
Proof. unfold admit_slots. ends. apply Ends_lift, ends_mapM, ends_embeds. Qed.
Lemma ends_start_async o h l : EndsM (start_async_load cfg o h l).
Proof. unfold start_async_load, prepend_skipped. ends. Qed.
Lemma ends_start_running o h n p pad b : EndsM (start_running cfg o h n p pad b).
Proof. unfold start_running. ends. Qed.

(** These leave the queues alone. *)
Lemma promote_queued o s : wlp (_try_promote_blocked_waiting_request cfg o) (λ _ s', queued s' = queued s) s.
Proof.
  eapply wlp_mono; [apply promote_effect|]. intros [] s' Hs'; [|by apply queued_core].
  destruct Hs' as (st & _ & _ & _ & _ & Hw & Hs). unfold queued. by rewrite Hw, Hs.
Qed.
Lemma start_async_queued o h l s : wlp (start_async_load cfg o h l) (λ _ s', queued s' = queued s) s.
Proof.
  unfold start_async_load. apply wlp_bind, wlp_modify. set (s1 := s <| objects ::= _ |>). apply wlp_bind, wlp_gets.
  apply wlp_keeps; [keeps|]. intros l' s2 Hc. by rewrite (queued_core _ _ Hc).
Qed.
Lemma start_running_queued o h n p pad b s : wlp (start_running cfg o h n p pad b) (λ _ s', queued s' = queued s) s.
Proof.
  unfold start_running. apply wlp_bind, wlp_modify. set (s1 := s <| running ::= _ |>). cbv zeta. do 2 wlp_step.
  apply wlp_bind, wlp_keeps; [keeps|]. intros b1 s2 H2. do 2 wlp_step. cbv zeta. apply wlp_bind, wlp_modify.
  set (s3 := s2 <| objects ::= _ |>). apply wlp_keeps; [keeps|]. intros b' s4 H4. rewrite (queued_core _ _ H4).
  change (queued s3) with (queued s2). by rewrite (queued_core _ _ H2).
Qed.

Lemma waiting_loop_ends fuel defer ext b s : (queued s ≤ fuel)%nat → ends (waiting_loop cfg fuel defer ext b) s.
Proof.
  revert ext b s. induction fuel as [|fuel IH]; intros ext b s Hf; cbn [waiting_loop];
    (apply ends_bind; [apply Ends_gets|]); apply wlp_gets; (case_decide as Hg; [|apply Ends_ret]).
  { exfalso. unfold queued in Hf. destruct Hg as [[Hg|Hg] _]; apply Hg, length_zero_iff_nil; lia. }
  case_decide as Hbudget; [apply Ends_ret|]. case_decide as Hmax; [apply Ends_ret|].
  apply ends_bind; [apply ends_select|]. apply wlp_keeps; [unfold _select_waiting_queue_for_scheduling; keeps|].
  intros [from_skipped|] s1 H1; [|by apply Ends_raise]. apply ends_bind; [apply Ends_lift, ends_q_peek|]. apply wlp_lift.
  intros o _. cbv zeta. rewrite <-(queued_core _ _ H1) in Hf.
  assert (∀ s', queued s' = queued s1 →
    ends (step_skipped ← skip_request cfg from_skipped o ext; waiting_loop cfg fuel defer step_skipped b) s') as Hskip.
  { intros s' Hs'. unfold skip_request. apply ends_bind; [apply Ends_bind; [apply ends_pop_from|]; intros ?; apply Ends_gets|].
    apply wlp_bind. eapply wlp_mono; [apply pop_from_queued|]. intros o' s2 H2. cbv beta in H2.
    apply wlp_gets, IH. lia. }
  apply ends_bind; [apply Ends_gets|]. apply wlp_gets. apply ends_bind; [destruct (_is_blocked_waiting_status _); [apply ends_promote|apply Ends_ret]|].
  apply (wlp_mono _ (λ _ s', queued s' = queued s1)).
  { destruct (_is_blocked_waiting_status _); [apply promote_queued|by apply wlp_ret]. }
  intros ok s2 H2. destruct ok; simpl; [|by apply Hskip]. apply ends_bind; [apply Ends_gets|]. apply wlp_gets.
  destruct (_ && _); [by apply Hskip|]. destruct (exceeds_loras _ _ _); [by apply Hskip|].
  apply ends_bind; [apply ends_find_hit|]. apply wlp_keeps; [keeps|]. intros [h|] s3 H3; apply queued_core in H3;
    [|apply Hskip; congruence].
  apply ends_bind; [apply ends_waiting_tokens|]. apply wlp_keeps; [keeps|]. intros [[[n p] pad]|] s4 H4; apply queued_core in H4;
    [|apply Ends_ret].
  apply ends_bind; [apply ends_admit|]. apply wlp_keeps; [keeps|]. intros ok s5 H5; apply queued_core in H5.
  destruct ok; simpl; [|apply Ends_ret]. apply ends_bind; [apply ends_pop_from|].
  eapply wlp_mono; [apply pop_from_queued|]. intros o' s6 H6. cbv beta in H6. destruct (load_kv_async h).
  - apply ends_bind; [apply ends_start_async|]. eapply wlp_mono; [apply start_async_queued|]. intros ext' s7 H7. cbv beta in H7.
    apply IH. lia.
  - apply ends_bind; [apply ends_start_running|]. eapply wlp_mono; [apply start_running_queued|]. intros b' s7 H7.
    cbv beta in H7. apply IH. lia.
Qed.

(** *** The whole step *)

Lemma ends_schedule_waiting defer b : EndsM (schedule_waiting cfg defer b).
Proof.
  intros s. unfold schedule_waiting. apply ends_bind; [apply Ends_gets|]. apply wlp_gets. case_decide; [|apply Ends_ret].
  apply ends_bind; [by apply waiting_loop_ends|]. intros [ext b'] s' _. revert s'.
  match goal with |- ∀ s', ends ?m s' => change (EndsM m) end. ends.
Qed.

Lemma ends_free_cow bs n : EndsM (_free_cow_retained_blocks cfg bs n).
Proof. unfold _free_cow_retained_blocks. ends. Qed.
Lemma ends_to_zero : EndsM (_get_new_block_ids_to_zero cfg).
Proof. unfold _get_new_block_ids_to_zero. ends. Qed.
Hint Resolve ends_free_cow ends_to_zero : ends.

Lemma ends_new_block_ids s b rid : new_block_ids_of s b rid ≠ Raise OutOfFuel.
Proof. unfold new_block_ids_of. by destruct (dict_get _ _). Qed.
Lemma ends_new_data s b o : make_new_request_data cfg s b o ≠ Raise OutOfFuel.
Proof.
  unfold make_new_request_data. pose proof (ends_new_block_ids s b (request_id (objects s !!! o))).
  cbv zeta. destruct (new_block_ids_of _ _ _); simpl; congruence.
Qed.
Lemma ends_add_cached s b c resumed os : add_cached_requests cfg s b c resumed os ≠ Raise OutOfFuel.
Proof.
  revert c. induction os as [|o os IH]; intros c; simpl; [done|].
  assert (add_cached_request cfg s b c resumed o ≠ Raise OutOfFuel) as Ho.
  { unfold add_cached_request. cbv zeta. pose proof (ends_new_block_ids s b (request_id (objects s !!! o))).
    destruct (decide (pp_size cfg > 1 ∧ _)); [destruct (dict_get (num_scheduled_tokens b) _); [|done]|]; simpl;
      destruct (new_block_ids_of _ _ _); simpl; congruence. }
  destruct (add_cached_request _ _ _ _ _ _); simpl; [apply IH|congruence].
Qed.
Lemma ends_cached_data s b l l' : _make_cached_request_data cfg s b l l' ≠ Raise OutOfFuel.
Proof.
  unfold _make_cached_request_data. match goal with |- context [add_cached_requests _ _ _ ?c false l] =>
    pose proof (ends_add_cached s b c false l); destruct (add_cached_requests _ _ _ c false l) end; simpl; [|congruence].
  apply ends_add_cached.
Qed.
Lemma ends_spec_tokens b : spec_tokens_to_schedule cfg b ≠ Raise OutOfFuel.
Proof. unfold spec_tokens_to_schedule. destruct (dynamic_sd_lookup cfg); [|done]. case_decide; [apply ends_index|done]. Qed.

Lemma ends_make_output b : EndsM (make_output cfg b).
Proof.
  unfold make_output. ends; apply Ends_lift; first [apply ends_mapM; intros; apply ends_new_data|apply ends_cached_data|apply ends_spec_tokens].
Qed.
Lemma ends_update_after out : EndsM (_update_after_schedule cfg out).
Proof. unfold _update_after_schedule, advance_request, add_placeholders. ends. Qed.
Hint Resolve ends_schedule_waiting ends_make_output ends_update_after : ends.

Lemma ends_schedule throttle : EndsM (schedule cfg throttle).
Proof.
  unfold schedule. apply Ends_bind; [|intros b; unfold check_batch; ends].
  unfold schedule_phases. ends.
  - intros s. unfold schedule_running. apply ends_bind; [apply Ends_gets|]. apply wlp_gets.
    apply (running_loop_ends _ _ 0). lia.
  - unfold running_loras. ends.
Qed.
End loops.

(** ** The encoder cache manager keeps its part *)

Lemma ends_identifier r i : mm_identifier r i ≠ Raise OutOfFuel.
Proof. unfold mm_identifier. pose proof (ends_index (mm_features r) i). destruct (index _ _); simpl; congruence. Qed.

Lemma ends_occurrence r h ids : any_other_occurrence r h ids ≠ Raise OutOfFuel.
Proof.
  induction ids as [|i ids IH]; simpl; [done|]. pose proof (ends_identifier r i). destruct (mm_identifier r i); simpl; [|congruence].
  by case_decide.
Qed.

Lemma ends_evict n entries : Ends (evict_loop n entries).
Proof. induction entries as [|[h m] entries IH]; simpl; ends. Qed.

#[export] Instance EncoderCacheManager_ends `{SetIter} : EncoderEnds EncoderCacheManager.
Proof.
  pose proof ends_evict. split; intros; simpl.
  - unfold check_and_update_cache, add_reference. ends. apply Ends_lift, ends_identifier.
  - unfold can_allocate. ends. apply Ends_lift, ends_embeds.
  - unfold allocate, add_reference. ends; apply Ends_lift; [apply ends_identifier|apply ends_embeds].
  - unfold EncoderCache.free, get_cached_input_ids, free_encoder_input, forget_input. ends; apply Ends_lift;
      first [apply ends_identifier|apply ends_occurrence|apply ends_embeds].
  - unfold get_freed_mm_hashes. ends.
Qed.
