(* ===== verification/SchedManager.v ===== *)
(** * The scheduler on the KV cache manager

    The KV cache manager of [Manager] has the interface that the scheduler calls; and a small
    engine, a scheduler with this manager, for the runs of the theorems. *)

From S2P Require Import Prelude FreeQueue Request Hashing Session BlockPool RequestQueue SchedUtils EncoderCache EncoderSched.
From S2P Require Import SingleType Coordinator Manager Scheduler ScheduleStep SchedOutput.

Section manager.
Context `{SetIter}.
(** The arguments of the manager's methods; [has_mamba_layers] of the cache configuration. *)
Variable use_int : bool.
Variable sha256 : list (list Z) → bytes.
Variable has_mamba_layers : bool.

Definition KVCacheManager_ops : KVManager KVCacheManager := {|
  kv_get_computed_blocks r :=
    '(blocks, n, boundary, r) ← get_computed_blocks use_int sha256 r;
    mret (blocks, n, boundary, prompt_embeds_per_block_hashes r);
  kv_get_computed_blocks_for_connector r :=
    '(blocks, n, boundary, diverged, r) ← get_computed_blocks_for_connector use_int sha256 has_mamba_layers r;
    mret (blocks, n, boundary, diverged, prompt_embeds_per_block_hashes r);
  kv_truncate_computed_blocks blocks n := k ← gets (λ k, k); lift_res (truncate_computed_blocks k blocks n);
  kv_allocate_slots r new computed blocks lookahead external delay enc fit reserved scheduled :=
    '(blocks, r) ← allocate_slots use_int sha256 r new computed blocks lookahead external delay enc fit reserved scheduled;
    mret (blocks, prompt_embeds_per_block_hashes r);
  kv_cache_blocks r n := r ← mgr_cache_blocks use_int sha256 r n; mret (prompt_embeds_per_block_hashes r);
  kv_record_prefix_cache_stats := record_prefix_cache_stats;
  kv_get_blocks := get_blocks;
  kv_get_block_ids := blocks_of;
  kv_get_block_ids_for_computed_tokens := get_block_ids_for_computed_tokens;
  kv_num_blocks_to_allocate k rid n computed :=
    coord_get_num_blocks_to_allocate (coordinator k) rid n (blocks_of k EmptyBlocks) 0 computed computed n true;
  kv_remove_skipped_blocks := mgr_remove_skipped_blocks;
  kv_free := mgr_free;
  kv_pop_blocks_for_free := mgr_pop_blocks_for_free;
  kv_pool_free_blocks blocks := on_coordinator (pools_free_blocks blocks);
  kv_take_block_copies := take_kv_cache_block_copies;
  kv_take_new_block_ids := take_new_block_ids_all;
  kv_get_zeroing_block_ids_in_range := get_zeroing_block_ids_in_range;
  kv_record_blocks_for_zeroing := record_blocks_for_zeroing;
  kv_get_num_common_prefix_blocks := mgr_get_num_common_prefix_blocks;
  kv_evict_blocks := mgr_evict_blocks use_int;
  kv_take_events := _ ← mgr_take_events; mret tt;
  kv_reset_prefix_cache := mgr_reset_prefix_cache
|}.
End manager.

(** ** Engines without connectors *)

#[export] Instance no_KVConnector : KVConnector Empty_set := {|
  conn_supports_divergent_local_hybrid_hits (n : Empty_set) := match n with end;
  conn_get_num_new_matched_tokens _ _ (n : Empty_set) := match n with end;
  conn_update_state_after_alloc _ _ _ n := n;
  conn_supports_hma (n : Empty_set) := match n with end;
  conn_request_finished _ _ (n : Empty_set) := match n with end;
  conn_on_new_request _ n := n;
  conn_reset_cache (n : Empty_set) := match n with end;
  conn_update_output _ _ n := n;
  conn_build_connector_meta _ n := n;
  conn_has_pending_push_work (n : Empty_set) := match n with end
|}.
#[export] Instance no_ECConnector : ECConnector Empty_set := {|
  ec_has_cache_item (n : Empty_set) := match n with end;
  ec_ensure_cache_available _ _ (n : Empty_set) := match n with end;
  ec_update_state_after_alloc _ _ n := n;
  ec_request_finished _ (n : Empty_set) := match n with end;
  ec_build_connector_meta _ n := n;
  ec_has_pending_push_work (n : Empty_set) := match n with end
|}.

(** ** A small engine

    One group of full-attention layers, four blocks of four tokens (one of them the null block),
    at most two running requests and twelve tokens in a step, two pipeline stages. *)

#[export] Instance demo_order : SetIter := elements_iter.
#[export] Instance demo_ops : KVManager KVCacheManager := KVCacheManager_ops false (λ _, []) false.

Abbreviation Engine := (Scheduler KVCacheManager EncoderCacheManager Empty_set Empty_set).

Definition engine_kv_config : KVCacheConfig :=
  mkKVCacheConfig 4 [mkGroup (mkSpec FullAttentionManager 4 0) false 0] None false.
Definition engine_kv : KVCacheManager :=
  match new_KVCacheManager engine_kv_config 32 4 4 None true false 0 false false 1 1 None 0 [] with
  | Ok k => k
  | Raise _ => mkManager 0 false false false None (mkCoordinator KVCacheCoordinatorNoPrefixCache [] 0 0 0 0 [] [] [] None) 1 0 [] ∅
  end.

Definition drafting_config (p : SchedulingPolicy) (threshold drafts : Z) (lookup : option (list Z))
    (defer : bool) : SchedulerConfig := {|
  policy := p; max_num_running_reqs := 2; max_num_scheduled_tokens := 12; max_num_batched_tokens := 12;
  sc_max_model_len := 32; num_sampled_tokens_per_step := 1; long_prefill_token_threshold := threshold;
  enable_chunked_prefill := true; draft_slots := 0; num_spec_tokens := drafts; dynamic_sd_lookup := lookup;
  num_lookahead_tokens := 0; num_prefill_lookahead := 0; Scheduler.use_eagle := false; sc_block_size := 4;
  cache_config_block_size := 4; sc_hash_block_size := 4; need_mamba_block_aligned_split := false;
  mamba_has_prefill_checkpoint_blocks := false; mamba_partial_cache_hit := false; sc_is_encoder_decoder := false;
  sc_disable_chunked_mm_input := false; is_mm_encoder_only := false; max_num_encoder_input_tokens := 8;
  max_loras := None; scheduler_reserve_full_isl := false; defer_block_free := defer; requires_kv_delivery := false;
  recompute_kv_load_failures := false; Scheduler.needs_kv_cache_zeroing := false; use_v2_model_runner := false;
  sc_num_kv_cache_groups := 1; async_scheduling := false; pp_size := 2
|}.
Definition engine_config (p : SchedulingPolicy) (threshold drafts : Z) : SchedulerConfig :=
  drafting_config p threshold drafts None false.

Definition start_engine : Engine := new_Scheduler false engine_kv (new_EncoderCacheManager 8) None None.

(** The state after a call that returns. *)
Definition next {S A} (m : M S A) (s : S) : S := match m s with Ok (_, s') => s' | Raise _ => s end.
Definition is_ok {A} (P : A → bool) (x : res A) : bool := match x with Ok a => P a | Raise _ => false end.

Lemma next_ok {S A} (P : A → S → bool) (m : M S A) s :
  is_ok (λ '(a, s'), P a s') (m s) = true → ∃ a, m s = Ok (a, next m s) ∧ P a (next m s) = true.
Proof. unfold next. destruct (m s) as [[a s']|]; simpl; [|done]. eauto. Qed.

Definition engine_hasher : option block_hasher := Some (demo_hasher 4).

(** A request with the given prompt. *)
Definition engine_request (oid : Z) (rid : string) (tokens : list Z) (max_tokens : Z) (is_session : bool) : Request :=
  match new_Request oid rid (Some tokens) (Some (mkSamplingParams (Some max_tokens) 0 (Some 99) None None None false None))
          None 0 oid None None [] None None 0 engine_hasher is_session false with
  | Ok r => r
  | Raise _ => inhabitant
  end.

(** ** Runs *)

Definition engine_add (cfg : SchedulerConfig) (r : Request) : M Engine unit := sched_add_request cfg engine_hasher r.
Definition engine_update (cfg : SchedulerConfig) (out : SchedulerOutput) (runner : ModelRunnerOutput) : M Engine _ :=
  update_from_output cfg engine_hasher (λ _ _, false) (λ _ _, true) out runner.
Definition runner_output (index : list (string * Z)) (sampled : list (list Z)) : ModelRunnerOutput :=
  mkModelRunnerOutput (list_to_map index) sampled [] None.


(** Two requests arrive and both are scheduled; for the second one it is the whole prompt. *)
Definition two_config : SchedulerConfig := engine_config FCFS 8 0.
Definition prompt_b : Request := engine_request 1 "b" [1; 2; 3; 4; 5; 6; 7; 8; 9; 10; 11; 12] 16 false.
Definition prompt_a (is_session : bool) : Request := engine_request 2 "a" [21; 22; 23; 24] 16 is_session.
Definition two_waiting (is_session : bool) : Engine :=
  next (engine_add two_config (prompt_a is_session)) (next (engine_add two_config prompt_b) start_engine).
Definition two_running (is_session : bool) : Engine := next (schedule two_config false) (two_waiting is_session).

(** ** A manager that only counts free slots *)

Definition Counter : Type := Z.
#[export] Instance counting_ops : KVManager Counter := {|
  kv_get_computed_blocks _ := mret (EmptyBlocks, 0, 0, ∅);
  kv_get_computed_blocks_for_connector _ := mret (EmptyBlocks, 0, 0, false, ∅);
  kv_truncate_computed_blocks blocks _ := mret blocks;
  kv_allocate_slots _ n _ _ _ _ _ _ _ _ _ :=
    free ← gets (λ k : Counter, k);
    if decide (n ≤ free) then modify (λ k : Counter, k - n);; mret (Some EmptyBlocks, ∅) else mret (None, ∅);
  kv_cache_blocks _ _ := mret ∅;
  kv_record_prefix_cache_stats _ _ := mret tt;
  kv_get_blocks _ _ := EmptyBlocks;
  kv_get_block_ids _ _ := [];
  kv_get_block_ids_for_computed_tokens _ _ _ := [];
  kv_num_blocks_to_allocate _ _ _ _ := Ok 0;
  kv_remove_skipped_blocks _ _ _ := mret tt;
  kv_free r := modify (λ k : Counter, k + num_computed_tokens r);
  kv_pop_blocks_for_free _ := mret [];
  kv_pool_free_blocks _ := mret tt;
  kv_take_block_copies := mret ([], []);
  kv_take_new_block_ids := mret [];
  kv_get_zeroing_block_ids_in_range _ _ _ := mret [];
  kv_record_blocks_for_zeroing _ _ := mret tt;
  kv_get_num_common_prefix_blocks _ := mret [];
  kv_evict_blocks _ := mret tt;
  kv_take_events := mret tt;
  kv_reset_prefix_cache := mret true
|}.
