(* ===== verification/SchedFaults.v ===== *)
(** * Loads that failed

    [_update_requests_with_invalid_blocks]: which requests of a list are affected by blocks whose
    load failed, how far their tokens still count as computed, and that every failed block is
    computed again by one of them. *)

From S2P Require Import Prelude FreeQueue Request Hashing Session BlockPool RequestQueue SchedUtils EncoderCache EncoderSched.
From S2P Require Import SingleType Coordinator Manager Scheduler ScheduleStep SchedOutput SchedManager.

(** ** The blocks of one request *)

Section blocks.
Variable cfg : SchedulerConfig.
Abbreviation bs := (sc_block_size cfg).
Variables (invalid : gset Z) (evict : bool) (ids : list Z) (computed : Z).
Abbreviation scan := (scan_blocks cfg invalid evict ids computed).

(** The invalid blocks of a list. *)
Definition failed (blocks : list (Z * Z)) : gset Z := list_to_set (filter (λ b, b ∈ invalid) blocks.*2).

Lemma elem_of_failed blocks b : b ∈ failed blocks ↔ b ∈ invalid ∧ ∃ idx, (idx, b) ∈ blocks.
Proof.
  unfold failed. rewrite elem_of_list_to_set, list_elem_of_filter, list_elem_of_fmap. split.
  - intros (? & [idx b'] & -> & ?). eauto.
  - intros (? & idx & ?). split; [done|]. by exists (idx, b).
Qed.

Lemma failed_cons idx b blocks : failed ((idx, b) :: blocks) = (if decide (b ∈ invalid) then {[b]} else ∅) ∪ failed blocks.
Proof.
  unfold failed. rewrite fmap_cons, filter_cons. simpl. destruct (decide (b ∈ invalid)); [done|]. by rewrite (left_id_L ∅ (∪)).
Qed.

(** After the cut the rest of the blocks is only marked. *)
Lemma scan_after_cut blocks aff n c : scan blocks aff (Some n) c =
  (aff || bool_decide (failed blocks ≠ ∅), Some n, c <| marked_invalid_block_ids ::= λ d, d ∪ failed blocks |>).
Proof.
  revert aff c. induction blocks as [|[idx b] blocks IH]; intros aff c; cbn [scan_blocks].
  { rewrite bool_decide_false by (unfold failed; simpl; set_solver). rewrite orb_false_r. destruct c. unfold failed. simpl.
    by rewrite (right_id_L ∅ (∪)). }
  rewrite failed_cons. destruct (decide (b ∈ invalid)) as [Hb|Hb].
  - rewrite decide_False by set_solver. rewrite (bool_decide_true ({[b]} ∪ _ ≠ ∅)), orb_true_r by set_solver.
    destruct (decide (b ∈ marked_invalid_block_ids c)) as [Hm|Hm]; rewrite IH; destruct c as [a t e m]; simpl in *.
    + by replace (m ∪ ({[b]} ∪ failed blocks)) with (m ∪ failed blocks) by set_solver.
    + by rewrite (assoc_L (∪)).
  - rewrite decide_True by done. rewrite IH. by rewrite (left_id_L ∅ (∪)).
Qed.

(** The cut is at the first invalid block that is not marked yet. *)
Definition first_unmarked (marked : gset Z) (blocks : list (Z * Z)) : option (Z * Z) :=
  head (filter (λ x, x.2 ∈ invalid ∧ x.2 ∉ marked) blocks).

Lemma scan_spec blocks aff c : let '(aff', cut, c') := scan blocks aff None c in
  aff' = aff || bool_decide (failed blocks ≠ ∅) ∧ affected_req_ids c' = affected_req_ids c ∧
  marked_invalid_block_ids c' = marked_invalid_block_ids c ∪ failed blocks ∧
  cut = (λ x, x.1 * bs) <$> first_unmarked (marked_invalid_block_ids c) blocks ∧
  blocks_to_evict c' = blocks_to_evict c ∪
    (if evict then from_option (λ x, list_to_set (slice_from ids x.1)) ∅ (first_unmarked (marked_invalid_block_ids c) blocks) else ∅).
Proof.
  revert aff c. induction blocks as [|[idx b] blocks IH]; intros aff c; cbn [scan_blocks].
  { rewrite bool_decide_false by (unfold failed; simpl; set_solver). rewrite orb_false_r. unfold failed, first_unmarked. simpl.
    destruct evict; rewrite !(right_id_L ∅ (∪)); done. }
  rewrite failed_cons. unfold first_unmarked. rewrite filter_cons. cbn [snd].
  destruct (decide (b ∈ invalid)) as [Hb|Hb].
  2: { rewrite decide_True by done. rewrite (decide_False (P := b ∈ invalid ∧ _)) by tauto. rewrite (left_id_L ∅ (∪)). apply IH. }
  rewrite decide_False by set_solver. rewrite (bool_decide_true ({[b]} ∪ _ ≠ ∅)), orb_true_r by set_solver.
  destruct (decide (b ∈ marked_invalid_block_ids c)) as [Hm|Hm].
  - rewrite (decide_False (P := b ∈ invalid ∧ _)) by tauto. specialize (IH true c). fold (first_unmarked (marked_invalid_block_ids c) blocks).
    destruct (scan blocks true None c) as [[aff' cut] c']. destruct IH as (-> & ? & -> & ? & ?). split; [done|]. split; [done|].
    split; [set_solver|done].
  - rewrite (decide_True (P := b ∈ invalid ∧ _)) by done. rewrite scan_after_cut. simpl. split; [done|]. split; [done|].
    split; [set_solver|]. split; [done|]. destruct evict; set_solver.
Qed.
End blocks.

(** ** All requests *)

Section requests.
Context {K E N X : Type}.
Context `{!KVManager K} `{!EncoderManager E} `{!KVConnector N} `{!ECConnector X} `{!SetIter}.
Variable cfg : SchedulerConfig.
Abbreviation bs := (sc_block_size cfg).
Variables (invalid : gset Z) (num_scheduled : list (string * Z)) (evict : bool).
Abbreviation Sched := (Scheduler K E N X).
Implicit Types s : Sched.

(** The tokens of a request that were computed before the step, and the blocks that may hold
    loaded tokens, with their positions. *)
Definition loaded s (o : Z) : Z :=
  num_computed_tokens (objects s !!! o) - default 0 (dict_get num_scheduled (request_id (objects s !!! o))).
Definition block_table s (o : Z) : list (list nat) :=
  kv_get_block_ids (kv_cache_manager s) (kv_get_blocks (kv_cache_manager s) (request_id (objects s !!! o))).
Definition checked s (o : Z) : list (Z * Z) :=
  zip (range 0 ((loaded s o + bs - 1) // bs)) (Z.of_nat <$> concat (block_table s o)).
Definition affected s (o : Z) : Prop := failed invalid (checked s o) ≠ ∅.

(** [b] is computed again by one of the requests: it lies after the tokens that still count. *)
Definition again s s' (os : list Z) (b : Z) : Prop := ∃ o idx, o ∈ os ∧ (idx, b) ∈ checked s o ∧
  num_computed_tokens (objects s' !!! o) ≤ idx * bs.

(** After the requests [pre] of a list. *)
Record scanned s0 (pre : list Z) (c : Scan) s : Prop := {
  sn_state : s = s0 <| objects := objects s |>;
  sn_fields o : objects s !!! o = (objects s0 !!! o) <| num_computed_tokens := num_computed_tokens (objects s !!! o) |>;
  sn_same o : o ∉ pre ∨ ¬ affected s0 o → objects s !!! o = objects s0 !!! o;
  sn_affected : affected_req_ids c = list_to_set ((λ o, request_id (objects s0 !!! o)) <$> filter (affected s0) pre);
  sn_less o : o ∈ pre → affected s0 o → num_computed_tokens (objects s !!! o) ≤ loaded s0 o;
  sn_valid i o idx b : pre !! i = Some o → (idx, b) ∈ checked s0 o → b ∈ invalid →
    idx * bs < num_computed_tokens (objects s !!! o) → affected s0 o → again s0 s (take i pre) b;
  sn_marked b : b ∈ marked_invalid_block_ids c ↔ ∃ o, o ∈ pre ∧ b ∈ failed invalid (checked s0 o);
  sn_again b : b ∈ marked_invalid_block_ids c → again s0 s pre b;
  sn_evict : evict = true → marked_invalid_block_ids c ⊆ blocks_to_evict c
}.

Lemma checked_sorted s o : StronglySorted (λ x y, x.1 < y.1) (checked s o).
Proof.
  unfold checked. generalize (Z.of_nat <$> concat (block_table s o)). intros ids.
  pose proof (range_sorted 0 ((loaded s o + bs - 1) // bs)) as Hr. revert ids.
  induction Hr as [|i l Hs IH Hall]; intros [|b ids]; simpl; [constructor..|]. constructor; [apply IH|].
  apply Forall_forall. intros [j b'] Hj%elem_of_zip_l. by apply (proj1 (Forall_forall _ _) Hall).
Qed.

(** The first unmarked block cuts the request before all the others. *)
Lemma first_unmarked_spec marked s o idx b : first_unmarked invalid marked (checked s o) = Some (idx, b) →
  (idx, b) ∈ checked s o ∧ b ∈ invalid ∧ (b ∉ marked) ∧
  ∀ idx' b', (idx', b') ∈ checked s o → b' ∈ invalid → b' ∉ marked → idx ≤ idx'.
Proof.
  unfold first_unmarked. generalize (checked_sorted s o). generalize (checked s o) as l. intros l Hs.
  induction Hs as [|[j c] l Hs IH Hall]; [done|]. rewrite filter_cons. cbn [snd]. destruct (decide (c ∈ invalid ∧ c ∉ marked)) as [[Hc Hm]|Hn].
  - intros [= -> ->]. split; [by left|]. split; [done|]. split; [done|]. intros idx' b' [[= -> ->]|Hin]%elem_of_cons _ _; [done|].
    rewrite Forall_forall in Hall. specialize (Hall _ Hin). simpl in Hall. lia.
  - intros (Hin & Hb & Hbm & Hmin)%IH. split; [by right|]. split; [done|]. split; [done|].
    intros idx' b' [[= -> ->]|Hin']%elem_of_cons Hb' Hm'; [by destruct Hn|eauto].
Qed.

Lemma first_unmarked_None marked l : first_unmarked invalid marked l = None → failed invalid l ⊆ marked.
Proof.
  unfold first_unmarked. intros Hf%head_None b (Hb & idx & Hin)%elem_of_failed. destruct (decide (b ∈ marked)); [done|].
  assert ((idx, b) ∈ filter (λ x, x.2 ∈ invalid ∧ x.2 ∉ marked) l) as Hin' by (by apply list_elem_of_filter).
  rewrite Hf in Hin'. by apply elem_of_nil in Hin'.
Qed.

(** A position that is checked starts before the loaded tokens end, and is one of the table. *)
Lemma checked_bound s o idx b : 0 < bs → (idx, b) ∈ checked s o → 0 ≤ idx ∧ idx * bs < loaded s o ∧
  ∀ from, 0 ≤ from ≤ idx → b ∈ slice_from (Z.of_nat <$> concat (block_table s o)) from.
Proof.
  intros Hbs Hin. pose proof (elem_of_zip_l _ _ _ _ Hin) as [H0 Hn]%elem_of_range. split; [done|]. split.
  { assert ((loaded s o + bs - 1) // bs * bs ≤ loaded s o + bs - 1) by (rewrite Z.mul_comm; apply Z.mul_div_le; lia). nia. }
  intros from Hfrom. apply list_elem_of_lookup in Hin as [i Hi]. unfold checked in Hi. apply lookup_zip_Some in Hi as [Hr Hb].
  unfold range in Hr. rewrite list_lookup_fmap in Hr. apply fmap_Some in Hr as (k & [Hk _]%lookup_seq & ->). simpl in *. subst k.
  apply lookup_lt_Some in Hb as Hlt. unfold slice_from, slice_pos, len. rewrite decide_False by lia.
  apply list_elem_of_lookup. exists (i - Z.to_nat from)%nat. rewrite lookup_drop. by replace (_ + _)%nat with i by lia.
Qed.

(** What the scan of one request does. *)
Lemma scan_request_spec s c o : (∃ ids, block_table s o = [ids]) →
  ∃ cut c', scan_blocks cfg invalid evict (Z.of_nat <$> concat (block_table s o)) (loaded s o) (checked s o) false None c =
    (bool_decide (affected s o), cut, c') ∧
  ∃ c2, scan_request cfg invalid num_scheduled evict c o s = Ok (c2,
      if decide (affected s o) then
        s <| objects ::= λ objs, <[o := (objs !!! o) <| num_computed_tokens := default (loaded s o) cut |>]> objs |>
      else s) ∧
    marked_invalid_block_ids c2 = marked_invalid_block_ids c' ∧ blocks_to_evict c2 = blocks_to_evict c' ∧
    affected_req_ids c2 = affected_req_ids c ∪ (if decide (affected s o) then {[request_id (objects s !!! o)]} else ∅).
Proof.
  intros [ids Hids].
  pose proof (scan_spec cfg invalid evict (Z.of_nat <$> concat (block_table s o)) (loaded s o) (checked s o) false c) as Hsp.
  destruct (scan_blocks _ _ _ _ _ _ _ _ _) as [[aff cut] c'] eqn:Hsc. destruct Hsp as (-> & Ha & _). exists cut, c'.
  split; [done|]. assert (checked s o = zip (range 0 ((loaded s o + bs - 1) // bs)) (Z.of_nat <$> ids)) as Hch.
  { unfold checked. rewrite Hids. simpl. by rewrite app_nil_r. }
  rewrite Hids in Hsc. cbn [concat] in Hsc. rewrite app_nil_r in Hsc. unfold scan_request. unfold block_table in Hids.
  unfold mbind, M_bind, gets. cbv beta iota zeta. rewrite Hids. cbv beta iota. fold (loaded s o). rewrite <-Hch, Hsc.
  cbv beta iota. unfold affected. destruct (decide (failed invalid (checked s o) ≠ ∅)) as [Hf|Hf].
  - rewrite bool_decide_true by done. destruct cut as [n|]; (eexists; split; [reflexivity|]); (split; [done|]); (split; [done|]);
      cbn; by rewrite Ha.
  - rewrite bool_decide_false by done. eexists. split; [reflexivity|]. split; [done|]. split; [done|]. by rewrite Ha, (right_id_L ∅ (∪)).
Qed.

(** A request that is not scanned yet is as it was. *)
Lemma scanned_here s0 pre c s o : scanned s0 pre c s → o ∉ pre →
  loaded s o = loaded s0 o ∧ block_table s o = block_table s0 o ∧ checked s o = checked s0 o.
Proof.
  intros Hsn Ho. assert (objects s !!! o = objects s0 !!! o) as He by (apply (sn_same _ _ _ _ Hsn); by left).
  assert (kv_cache_manager s = kv_cache_manager s0) as Hk by (by rewrite (sn_state _ _ _ _ Hsn)).
  assert (block_table s o = block_table s0 o) as Hb by (unfold block_table; by rewrite He, Hk).
  assert (loaded s o = loaded s0 o) as Hl by (unfold loaded; by rewrite He). split_and!; [done|done|].
  unfold checked. by rewrite Hb, Hl.
Qed.

Lemma again_mono s0 s s' os os' b : again s0 s os b → os ⊆ os' → (∀ o, o ∈ os → objects s' !!! o = objects s !!! o) →
  again s0 s' os' b.
Proof. intros (o & idx & Ho & Hin & Hle) Hsub Hs. exists o, idx. rewrite Hs by done. split_and!; [set_solver|done|done]. Qed.

(** Where a request is cut. *)
Lemma cut_spec s o marked n : 0 < bs → n = default (loaded s o) ((λ x, x.1 * bs) <$> first_unmarked invalid marked (checked s o)) →
  n ≤ loaded s o ∧
  (∀ idx b, (idx, b) ∈ checked s o → b ∈ invalid → idx * bs < n → b ∈ marked) ∧
  (∀ b, b ∈ failed invalid (checked s o) → b ∉ marked → (∃ idx, (idx, b) ∈ checked s o ∧ n ≤ idx * bs) ∧
    b ∈ (from_option (λ x, list_to_set (slice_from (Z.of_nat <$> concat (block_table s o)) x.1)) ∅
           (first_unmarked invalid marked (checked s o)) : gset Z)).
Proof.
  intros Hbs. destruct (first_unmarked invalid marked (checked s o)) as [[i0 b0]|] eqn:Hf; simpl; intros ->.
  - apply first_unmarked_spec in Hf as (Hin & Hb0 & Hm0 & Hmin). destruct (checked_bound s o i0 b0 Hbs Hin) as (H0 & Hlt & _).
    split; [lia|]. split.
    + intros idx b Hx Hb Hl. destruct (decide (b ∈ marked)); [done|]. specialize (Hmin idx b Hx Hb ltac:(done)). nia.
    + intros b (Hb & idx & Hx)%elem_of_failed Hm. specialize (Hmin idx b Hx Hb Hm). split; [exists idx; split; [done|nia]|].
      apply elem_of_list_to_set. destruct (checked_bound s o idx b Hbs Hx) as (_ & _ & Hsl). apply Hsl. lia.
  - apply first_unmarked_None in Hf. split; [done|]. split.
    + intros idx b Hx Hb _. apply Hf, elem_of_failed. eauto.
    + intros b Hb Hm. by apply Hf in Hb.
Qed.

Lemma scanned_skip s0 pre c s o c2 : scanned s0 pre c s → o ∉ pre → ¬ affected s0 o →
  affected_req_ids c2 = affected_req_ids c → marked_invalid_block_ids c2 = marked_invalid_block_ids c →
  blocks_to_evict c2 = blocks_to_evict c → scanned s0 (pre ++ [o]) c2 s.
Proof.
  intros [A B C D F G I J L] Ho Hna Ea Em Ee. split; [done|done|..].
  - intros o' [Ho'|Hn]; apply C; [left; intros ?; by apply Ho', elem_of_app; left|by right].
  - rewrite Ea, D, filter_app, filter_cons_False, filter_nil, app_nil_r by done. done.
  - intros o' [Hin| ->%list_elem_of_singleton]%elem_of_app Haf; [auto|done].
  - intros i o' idx b Hi Hin Hb Hlt Haf. assert (pre !! i = Some o') as Hi'.
    { apply lookup_app_Some in Hi as [?|[_ Hi]]; [done|]. apply list_lookup_singleton_Some in Hi as [_ ->]. done. }
    rewrite take_app_le by (apply lookup_lt_Some in Hi'; lia). eauto.
  - intros b. rewrite Em, I. split; [intros (o' & Hin & Hb); exists o'; by rewrite elem_of_app; auto|].
    intros (o' & [Hin| ->%list_elem_of_singleton]%elem_of_app & Hb); [eauto|].
    destruct Hna. intros He. rewrite He in Hb. by apply elem_of_empty in Hb.
  - rewrite Em. intros b Hb. eapply again_mono; [by apply J|intros o'; rewrite elem_of_app; auto|done].
  - by rewrite Em, Ee.
Qed.

Lemma scanned_cut s0 pre c s o c2 n : 0 < bs → scanned s0 pre c s → o ∉ pre → affected s0 o →
  n = default (loaded s0 o) ((λ x, x.1 * bs) <$> first_unmarked invalid (marked_invalid_block_ids c) (checked s0 o)) →
  affected_req_ids c2 = affected_req_ids c ∪ {[request_id (objects s0 !!! o)]} →
  marked_invalid_block_ids c2 = marked_invalid_block_ids c ∪ failed invalid (checked s0 o) →
  blocks_to_evict c2 = blocks_to_evict c ∪ (if evict then
    from_option (λ x, list_to_set (slice_from (Z.of_nat <$> concat (block_table s0 o)) x.1)) ∅
      (first_unmarked invalid (marked_invalid_block_ids c) (checked s0 o)) else ∅) →
  scanned s0 (pre ++ [o]) c2 (s <| objects ::= λ objs, <[o := (objs !!! o) <| num_computed_tokens := n |>]> objs |>).
Proof.
  intros Hbs Hsn Ho Haf Hn Ea Em Ee. destruct (cut_spec s0 o (marked_invalid_block_ids c) n Hbs Hn) as (Hle & Hmk & Hnew).
  set (s2 := s <| objects ::= _ |>).
  assert (objects s2 !!! o = (objects s0 !!! o) <| num_computed_tokens := n |>) as Ho2.
  { unfold s2. cbn. rewrite lookup_total_insert_eq. by rewrite (sn_same _ _ _ _ Hsn o) by (by left). }
  assert (∀ o', o' ≠ o → objects s2 !!! o' = objects s !!! o') as Hother.
  { intros o' Hne. unfold s2. cbn. by rewrite lookup_total_insert_ne. }
  destruct Hsn as [A B C D F G I J L]. split.
  - unfold s2. rewrite A. by destruct s0.
  - intros o'. destruct (decide (o' = o)) as [->|]; [by rewrite Ho2|]. rewrite Hother by done. apply B.
  - intros o' Ho'. rewrite Hother by (intros ->; destruct Ho' as [Ho'|?]; [by destruct Ho'; rewrite elem_of_app, elem_of_cons; auto|done]).
    apply C. destruct Ho' as [Ho'|?]; [left; intros ?; by apply Ho', elem_of_app; left|by right].
  - rewrite Ea, D, filter_app, filter_cons_True, filter_nil, fmap_app, list_to_set_app_L by done. cbn. by rewrite (right_id_L ∅ (∪)).
  - intros o' [Hin| ->%list_elem_of_singleton]%elem_of_app Haf'; [|by rewrite Ho2]. rewrite Hother by (by intros ->). auto.
  - intros i o' idx b Hi Hin Hb. apply lookup_app_Some in Hi as [Hi|[Hi Hi']].
    + apply list_elem_of_lookup_2 in Hi as Hp. rewrite Hother by (by intros ->). intros Hlt Haf'.
      rewrite take_app_le by (apply lookup_lt_Some in Hi; lia). eapply again_mono; [by eapply G|done|].
      intros x Hx%elem_of_take. apply Hother. destruct Hx as (j & Hx & _). apply list_elem_of_lookup_2 in Hx. by intros ->.
    + apply list_lookup_singleton_Some in Hi' as [Hi' <-]. rewrite Ho2. intros Hlt _. rewrite take_app_length' by lia.
      eapply again_mono; [by eapply J, Hmk|done|]. intros x Hx. apply Hother. by intros ->.
  - intros b. rewrite Em, elem_of_union, I. split.
    + intros [(o' & ? & ?)|?]; [exists o'|exists o]; rewrite elem_of_app, elem_of_cons; auto.
    + intros (o' & [Hin| ->%list_elem_of_singleton]%elem_of_app & Hb); [left; eauto|by right].
  - rewrite Em. intros b. destruct (decide (b ∈ marked_invalid_block_ids c)) as [Hm|Hm].
    + intros _. eapply again_mono; [by apply J|intros o'; rewrite elem_of_app; auto|]. intros o' Ho'. apply Hother. by intros ->.
    + intros [?|Hb]%elem_of_union; [done|]. destruct (Hnew b Hb Hm) as [(idx & Hin & Hge) _]. exists o, idx.
      rewrite elem_of_app, elem_of_cons, Ho2. auto.
  - intros He. rewrite Em, Ee, He. intros b Hb. apply elem_of_union.
    destruct (decide (b ∈ marked_invalid_block_ids c)) as [Hm|Hm]; [left; by apply (L He)|right].
    apply elem_of_union in Hb as [?|Hb]; [done|]. by apply Hnew.
Qed.

Lemma scanned_step s0 pre c s o : 0 < bs → scanned s0 pre c s → o ∉ pre → (∃ ids, block_table s0 o = [ids]) →
  wp (scan_request cfg invalid num_scheduled evict c o) (scanned s0 (pre ++ [o])) s.
Proof.
  intros Hbs Hsn Ho Hids. destruct (scanned_here s0 pre c s o Hsn Ho) as (Hl & Hb & Hc).
  destruct (scan_request_spec s c o) as (cut & c' & Hsc & c2 & Hrun & Em & Ee & Ea); [by rewrite Hb|].
  pose proof (scan_spec cfg invalid evict (Z.of_nat <$> concat (block_table s o)) (loaded s o) (checked s o) false c) as Hsp.
  rewrite Hsc in Hsp. destruct Hsp as (_ & _ & Hm & Hcut & Hev).
  assert (affected s o ↔ affected s0 o) as Haf by (unfold affected; by rewrite Hc).
  rewrite Hl, Hc, Hb in *. unfold wp. rewrite Hrun. destruct (decide (affected s o)) as [Hy|Hn].
  - eapply (scanned_cut s0 pre c s o); [done|done|done|by apply Haf|by rewrite Hcut| |by rewrite Em|by rewrite Ee].
    rewrite Ea. by rewrite (sn_same _ _ _ _ Hsn o) by (by left).
  - assert (failed invalid (checked s0 o) = ∅) as He by (unfold affected in Hn; rewrite Hc in Hn; by apply dec_stable in Hn).
    eapply (scanned_skip s0 pre c s o); [done|done|by rewrite <-Haf|rewrite Ea; apply (right_id_L ∅ (∪))|
      rewrite Em, Hm, He; apply (right_id_L ∅ (∪))|].
    rewrite Ee, Hev. destruct (first_unmarked _ _ _) as [[i b]|] eqn:Hf; [|destruct evict; apply (right_id_L ∅ (∪))].
    apply first_unmarked_spec in Hf as (Hin & Hinv & _). assert (b ∈ failed invalid (checked s0 o)) as Hbf by (apply elem_of_failed; eauto).
    rewrite He in Hbf. by apply elem_of_empty in Hbf.
Qed.

Lemma scanned_start s : scanned s [] (mkScan ∅ 0 ∅ ∅) s.
Proof.
  split; try done; try (by destruct s); try (by intros o Ho%elem_of_nil); try (intros o; by destruct (objects s !!! o)).
  intros b. split; [by intros ?%elem_of_empty|by intros (? & ?%elem_of_nil & _)].
Qed.

(** The scan of requests with one block table each. *)
Lemma scan_all requests s : 0 < bs → NoDup requests → (∀ o, o ∈ requests → ∃ ids, block_table s o = [ids]) →
  wp (_update_requests_with_invalid_blocks cfg requests invalid num_scheduled evict) (scanned s requests) s.
Proof.
  intros Hbs Hnd Hids. apply wp_for_acc; [apply scanned_start|].
  intros pre o post c s1 -> Hsn. apply scanned_step; [done|done|..].
  - apply NoDup_app in Hnd as (_ & Hd & _). intros Hin. apply (Hd o Hin). by left.
  - apply Hids. rewrite elem_of_app, elem_of_cons. auto.
Qed.

Lemma for_acc_app {A B} (xs ys : list A) (acc : B) (body : B → A → M Sched B) s :
  for_acc (xs ++ ys) acc body s = (acc' ← for_acc xs acc body; for_acc ys acc' body) s.
Proof.
  revert acc s. induction xs as [|x xs IH]; intros acc s; [done|]. simpl. unfold mbind, M_bind.
  destruct (body acc x s) as [[acc' s']|]; [|done]. apply IH.
Qed.

(** One with another number of tables. *)
Lemma scan_hybrid requests s : 0 < bs → NoDup requests → (∃ o, o ∈ requests ∧ ∀ ids, block_table s o ≠ [ids]) →
  _update_requests_with_invalid_blocks cfg requests invalid num_scheduled evict s = Raise ValueError.
Proof.
  intros Hbs Hnd (o & Ho & Hno).
  assert (∃ pre o' post, requests = pre ++ o' :: post ∧ (∀ x, x ∈ pre → ∃ ids, block_table s x = [ids]) ∧
    ∀ ids, block_table s o' ≠ [ids]) as (pre & o' & post & -> & Hpre & Hno').
  { clear Hnd. induction requests as [|x l IH]; [by apply elem_of_nil in Ho|].
    destruct (decide (length (block_table s x) = 1%nat)) as [Hx|Hx].
    - assert (∃ ids, block_table s x = [ids]) as Hids by (destruct (block_table s x) as [|ids []]; [done|eauto|done]).
      apply elem_of_cons in Ho as [->|Ho]; [destruct Hids as [ids ?]; by destruct (Hno ids)|].
      destruct (IH Ho) as (pre & o' & post & -> & Hpre & Hno'). exists (x :: pre), o', post. split; [done|]. split; [|done].
      intros y [->|Hy]%elem_of_cons; auto.
    - exists [], x, l. split; [done|]. split; [by intros y ?%elem_of_nil|]. intros ids Hids. by rewrite Hids in Hx. }
  apply NoDup_app in Hnd as (Hnd & Hd & _).
  destruct (proj1 (wp_run _ _ _) (scan_all pre s Hbs Hnd Hpre)) as (c & s1 & Hrun & Hsn).
  assert (o' ∉ pre) as Hin by (intros Hin; apply (Hd o' Hin); by left).
  destruct (scanned_here s pre c s1 o' Hsn Hin) as (_ & Hb & _).
  unfold _update_requests_with_invalid_blocks in *. rewrite for_acc_app. unfold mbind, M_bind. rewrite Hrun. cbn [for_acc].
  unfold mbind, M_bind, scan_request, gets, mbind, M_bind. cbv beta iota zeta. unfold block_table in Hb. rewrite Hb.
  unfold block_table in Hno'. destruct (kv_get_block_ids _ _) as [|ids [|]]; [done| |done]. by destruct (Hno' ids).
Qed.

(** C19: loads that failed.  The scan of a list of requests raises [ValueError] when one of them has
    another number of block tables than one, as with several groups of layers.  Otherwise it
    returns.  It changes nothing but the computed tokens of the requests that have an invalid block
    among their loaded ones, and reports exactly those.  They keep at most the tokens of before the
    step; an invalid block among the tokens that a request keeps is computed again by an earlier
    request of the list; and when blocks to evict are collected, all the invalid ones of the
    requests are among them. *)
Theorem failed_blocks_recomputed requests s : 0 < bs → NoDup requests →
  let scan := _update_requests_with_invalid_blocks cfg requests invalid num_scheduled evict s in
  ((∃ o, o ∈ requests ∧ ∀ ids, block_table s o ≠ [ids]) → scan = Raise ValueError) ∧
  ((∀ o, o ∈ requests → ∃ ids, block_table s o = [ids]) → ∃ c s', scan = Ok (c, s') ∧
    s' = s <| objects := objects s' |> ∧
    (∀ o, objects s' !!! o = (objects s !!! o) <| num_computed_tokens := num_computed_tokens (objects s' !!! o) |>) ∧
    (∀ o, o ∉ requests ∨ ¬ affected s o → objects s' !!! o = objects s !!! o) ∧
    affected_req_ids c = list_to_set ((λ o, request_id (objects s !!! o)) <$> filter (affected s) requests) ∧
    (∀ o, o ∈ requests → affected s o → num_computed_tokens (objects s' !!! o) ≤ loaded s o) ∧
    (∀ i o idx b, requests !! i = Some o → affected s o → (idx, b) ∈ checked s o → b ∈ invalid →
       idx * bs < num_computed_tokens (objects s' !!! o) → again s s' (take i requests) b) ∧
    (evict = true → ∀ o idx b, o ∈ requests → (idx, b) ∈ checked s o → b ∈ invalid → b ∈ blocks_to_evict c)).
Proof.
  intros Hbs Hnd scan. split; [by apply scan_hybrid|]. intros Hids.
  destruct (proj1 (wp_run _ _ _) (scan_all requests s Hbs Hnd Hids)) as (c & s' & Hrun & [A B C D F G I J L]).
  exists c, s'. split_and!; try done; [by eauto|]. intros He o idx b Ho Hin Hb. apply (L He), I. exists o.
  split; [done|]. apply elem_of_failed. eauto.
Qed.
End requests.

(** The second block of the first of two requests fails to load. *)
Lemma failed_blocks_recomputed_witness :
  ∃ c s', _update_requests_with_invalid_blocks two_config [1; 2] {[2]} [] true (two_running false) = Ok (c, s') ∧
    affected_req_ids c = {["b"]} ∧ num_computed_tokens (objects s' !!! 1) ≤ 8 ∧ 2 ∈ blocks_to_evict c.
Proof.
  destruct (failed_blocks_recomputed two_config {[2]} [] true [1; 2] (two_running false)) as [_ Hscan].
  - by vm_compute.
  - apply (bool_decide_unpack _). by vm_compute.
  - destruct Hscan as (c & s' & Hrun & _ & _ & _ & Ha & Hle & _ & He).
  { intros o [->|[->|[]%elem_of_nil]%elem_of_cons]%elem_of_cons; [exists [1; 2]%nat|exists [3%nat]]; by vm_compute. }
    exists c, s'. split; [exact Hrun|]. split; [rewrite Ha; by vm_compute|]. split.
    + apply (Hle 1); [by left|]. intros Hemp. by vm_compute in Hemp.
    + apply (He eq_refl 1 1 2); [by left| |by apply elem_of_singleton]. vm_compute. right. left.
Defined.
