(* ===== verification/SchedTheorems.v ===== *)
(** * Theorems about the scheduler

    All calls on the scheduler as a transition system, with any KV cache manager, encoder cache
    manager and connectors; what a step may do; and runs of the small engine of [SchedManager]. *)

From S2P Require Import Prelude FreeQueue Request Hashing Session BlockPool Heapq RequestQueue SchedUtils EncoderCache EncoderSched DynamicSD.
From S2P Require Import SingleType Coordinator Manager Scheduler ScheduleStep SchedOutput SchedChunks SchedFrame SchedQueues SchedInvariant SchedRunning SchedWaiting SchedBatch SchedFinish SchedProcess SchedLoops SchedManager.

(** ** The hasher of the requests *)

Section hasher.
Variable sha256 : list (list Z) → bytes.
Variable hash_function : bytes * list Z * option (list ExtraKey) → bytes.
Variable NONE_HASH : bytes.

Lemma extra_keys_memo r a b i keys j r' : generate_block_hash_extra_keys sha256 r a b i = Ok (keys, j, r') →
  ∃ m, r' = r <| prompt_embeds_per_block_hashes := m |>.
Proof.
  unfold generate_block_hash_extra_keys. destruct (_gen_mm_extra_hash_keys r a b i) as [[mm j']|]; [|done]. simpl.
  assert (∃ m, (_gen_prompt_embeds_extra_hash_keys sha256 r a b).2 = r <| prompt_embeds_per_block_hashes := m |>) as [m Hm].
  { unfold _gen_prompt_embeds_extra_hash_keys. destruct (prompt_embeds r); [|by exists (prompt_embeds_per_block_hashes r); destruct r].
    destruct (_ !! _); [by exists (prompt_embeds_per_block_hashes r); destruct r|]. by eexists. }
  destruct (_gen_prompt_embeds_extra_hash_keys sha256 r a b) as [ks r1]. simpl in Hm. subst r1.
  destruct (_ ++ _); intros [= _ _ <-]; by exists m.
Qed.

Lemma hasher_memo fuel bs r i j prev acc hs r' :
  hasher_loop sha256 hash_function NONE_HASH fuel bs r i j prev acc = Ok (hs, r') →
  ∃ m, r' = r <| prompt_embeds_per_block_hashes := m |>.
Proof.
  revert r i j prev acc. induction fuel as [|fuel IH]; intros r i j prev acc; [done|]. cbn [hasher_loop]. cbv zeta.
  case_decide; [intros [= _ <-]; exists (prompt_embeds_per_block_hashes r); by destruct r|].
  destruct (generate_block_hash_extra_keys _ _ _ _ _) as [[[keys j'] r1]|] eqn:Hk; [|done]. simpl.
  destruct (extra_keys_memo _ _ _ _ _ _ _ Hk) as [m ->]. intros (m' & ->)%IH. by exists m'.
Qed.

Lemma hasher_memoises bs : memoises (Some (request_block_hasher sha256 hash_function NONE_HASH bs)).
Proof.
  intros h r hs r' [= <-]. unfold request_block_hasher. cbv zeta. case_decide.
  - intros [= _ <-]. exists (prompt_embeds_per_block_hashes r). by destruct r.
  - apply hasher_memo.
Qed.
End hasher.

(** ** All calls *)

Section system.
Context {K E N X : Type}.
Context `{!KVManager K} `{!EncoderManager E} `{!KVConnector N} `{!ECConnector X} `{!SetIter}.
Variable cfg : SchedulerConfig.
Variable hasher : option block_hasher.
Variable should_advance : Request → option (list Z) → bool.
Variable accept_tokens : Request → list Z → bool.
Variable validate_tokens : Request → list Z → list Z.
Abbreviation Sched := (Scheduler K E N X).
Implicit Types s : Sched.

(** What the engine calls, and the grammars that other threads compile. *)
Inductive sched_step : Sched → Sched → Prop :=
  | step_add r s s' : new_request s r → sched_add_request cfg hasher r s = Ok (tt, s') → sched_step s s'
  | step_finish ids st l s s' : finish_requests cfg ids st s = Ok (l, s') → sched_step s s'
  | step_schedule throttle out s s' : requests_ok s → schedule cfg throttle s = Ok (out, s') → sched_step s s'
  | step_output out runner outs s s' : sessions_run s out → NoDup (so_num_scheduled_tokens out).*1 →
      update_from_output cfg hasher should_advance accept_tokens out runner s = Ok (outs, s') → sched_step s s'
  | step_drafts drafts s s' :
      update_draft_token_ids should_advance validate_tokens drafts s = Ok (tt, s') → sched_step s s'
  | step_drafts_in_output drafts spec new s s' :
      update_draft_token_ids_in_output should_advance validate_tokens drafts spec s = Ok (new, s') → sched_step s s'
  | step_pause p s s' : set_pause_state p s = Ok (tt, s') → sched_step s s'
  | step_reset running_too connector_too b s s' :
      sched_reset_prefix_cache cfg running_too connector_too s = Ok (b, s') → sched_step s s'
  | step_reset_encoder s s' : reset_encoder_cache s = Ok (tt, s') → sched_step s s'
  | step_grammar o g s : sched_step s (s <| grammars ::= <[o := g]> |>).

Lemma schedule_spec throttle s : config_ok cfg → queues_ok cfg s → requests_ok s →
  wlp (schedule cfg throttle) (λ _, queues_ok cfg) s.
Proof.
  intros Hcfg Hq Hf. unfold schedule. apply wlp_bind. eapply wlp_mono; [by apply phases_spec|].
  intros b s1 [Hq1 _ _ _ _]. apply (wlp_keeps _ _ s1); [keeps|]. intros out s2 Hc. by eapply queues_with_core.
Qed.

Lemma step_queues s s' : config_ok cfg → memoises hasher → queues_ok cfg s → sched_step s s' → queues_ok cfg s'.
Proof.
  intros Hcfg Hm Hq Hstep. destruct Hstep as [r s s' Hnew Hrun|ids st l s s' Hrun|throttle out s s' Hf Hrun|
    out runner outs s s' Hs Hnd Hrun|drafts s s' Hrun|drafts spec new s s' Hrun|p s s' Hrun|rr rc b s s' Hrun|
    s s' Hrun|o g s].
  - exact (add_request_spec cfg hasher r s Hm Hq Hnew _ _ Hrun).
  - exact (finish_requests_spec cfg ids st s Hq _ _ Hrun).
  - exact (schedule_spec throttle s Hcfg Hq Hf _ _ Hrun).
  - exact (update_from_output_spec cfg hasher should_advance accept_tokens out runner s Hm Hq Hs Hnd _ _ Hrun).
  - eapply queues_with_core; [|exact Hq]. exact (keeps_draft_tokens _ _ drafts s _ _ Hrun).
  - eapply queues_with_core; [|exact Hq]. exact (keeps_draft_output _ _ drafts spec s _ _ Hrun).
  - injection Hrun as <-. eapply queues_with_core; [|exact Hq]. by split.
  - exact (sched_reset_spec cfg rr rc s Hq _ _ Hrun).
  - eapply queues_with_core; [|exact Hq]. exact (keeps_on_encoder _ s _ _ Hrun).
  - eapply queues_with_core; [|exact Hq]. by split.
Qed.

Lemma steps_queues s s' : config_ok cfg → memoises hasher → queues_ok cfg s → rtc sched_step s s' → queues_ok cfg s'.
Proof. intros Hcfg Hm Hq Hrun. induction Hrun as [|s1 s2 s3 Hstep _ IH]; [done|]. apply IH. by eapply step_queues. Qed.

Lemma start_queues inc kv enc conn ec : 0 ≤ max_num_running_reqs cfg →
  queues_ok cfg (new_Scheduler inc kv enc conn ec : Sched).
Proof.
  intros Hmax. split; simpl; try (by intros ? ?%elem_of_nil); try (by intros ? ? ?%elem_of_nil); try done; try apply NoDup_nil_2.
Qed.

(** The requests that the engine has to work on: known, not finished, not waiting for input. *)
Definition unfinished s : list (string * Z) :=
  filter (λ x, is_finished (objects s !!! x.2) = false ∧ status (objects s !!! x.2) ≠ WAITING_FOR_STREAMING_REQ)
    (sched_requests s).

Lemma streaming_split objs l : len l = streaming objs l +
  len (filter (λ o, status (objs !!! o) ≠ WAITING_FOR_STREAMING_REQ) l).
Proof.
  unfold streaming. pose proof (filter_split_perm (λ o, status (objs !!! o) = WAITING_FOR_STREAMING_REQ) l) as Hp.
  apply Permutation_length in Hp. rewrite length_app in Hp. unfold len. lia.
Qed.

Lemma known_NoDup s : queues_ok cfg s → NoDup (sched_requests s).*2.
Proof.
  intros Hq. pose proof (pl_keys _ _ _ _ _ _ _ Hq) as Hk.
  assert (∀ x y, x ∈ sched_requests s → y ∈ sched_requests s → x.2 = y.2 → x.1 = y.1) as Hinj.
  { intros [k1 o1] [k2 o2] H1 H2 Heq. simpl in *. subst. destruct (pl_refs _ _ _ _ _ _ _ Hq _ _ H1) as [_ <-].
    destruct (pl_refs _ _ _ _ _ _ _ Hq _ _ H2) as [_ <-]. done. }
  clear Hq. induction (sched_requests s) as [|[k o] l IH]; [apply NoDup_nil_2|]. csimpl in *.
  apply NoDup_cons in Hk as [Hno Hk]. apply NoDup_cons. split.
  - intros ([k' o'] & Heq & Hin)%list_elem_of_fmap. simpl in Heq. subst o'. apply Hno, list_elem_of_fmap.
    exists (k', o). split; [|done]. symmetry. apply (Hinj (k', o) (k, o)); [by right|by left|done].
  - apply IH; [done|]. intros x y Hx Hy. apply Hinj; by right.
Qed.

(** The counters of the queues count the unfinished requests. *)
Lemma unfinished_count s : queues_ok cfg s → _pause_state s = UNPAUSED → get_num_unfinished_requests s = len (unfinished s).
Proof.
  intros Hq Hp. unfold get_num_unfinished_requests. rewrite Hp. rewrite (pl_count _ _ _ _ _ _ _ Hq). simpl.
  set (act := λ o, status (objects s !!! o) ≠ WAITING_FOR_STREAMING_REQ).
  assert (len (unfinished s) = len (filter act (running s ++ waiting s ++ skipped_waiting s))) as ->.
  { unfold len. f_equal. rewrite <-(length_fmap snd (unfinished s)). apply Permutation_length, NoDup_Permutation.
    - eapply sublist_NoDup; [by apply known_NoDup|]. apply fmap_sublist, sublist_filter.
    - apply NoDup_filter, Hq.
    - intros o. rewrite list_elem_of_fmap, list_elem_of_filter. split.
      + intros ([rid o'] & -> & [[Hf Ha] Hin]%list_elem_of_filter). simpl in *. split; [done|].
        exact (pl_complete _ _ _ _ _ _ _ Hq rid o' Hin Hf).
      + intros [Ha Hin]. destruct (pl_live _ _ _ _ _ _ _ Hq o Hin) as [rid Hrid]. exists (rid, o).
        split; [done|]. apply list_elem_of_filter. split; [|done]. simpl. split; [|done]. unfold is_finished.
        rewrite !elem_of_app in Hin. destruct Hin as [Hin|[Hin|Hin]].
        * by rewrite (pl_run _ _ _ _ _ _ _ Hq o Hin).
        * by destruct (pl_wait _ _ _ _ _ _ _ Hq o Hin) as [-> | ->].
        * by destruct (pl_skip _ _ _ _ _ _ _ Hq o Hin). }
  rewrite !filter_app, !len_app. pose proof (streaming_split (objects s) (skipped_waiting s)) as Hs.
  rewrite (filter_all act (running s)), (filter_all act (waiting s)); [unfold act; lia|..]; intros o Ho; unfold act.
  - destruct (pl_wait _ _ _ _ _ _ _ Hq o Ho); congruence.
  - rewrite (pl_run _ _ _ _ _ _ _ Hq o Ho). done.
Qed.

(** C2: the scheduler does not lose a request.  Take any sequence of the calls of [sched_step] that
    return: new requests, session updates, steps, outputs, draft tokens, aborts, resets, pauses, in
    any order.  A new request is a new object that waits; a step is taken while the multimodal inputs
    of the known requests are well-formed ([requests_ok]); an output is of distinct requests, and each
    of them that is known and not finished still runs, or is no session ([sessions_run]; the case
    left out is one that loses sessions, see [SchedCases]).  Then every request that is known and not
    finished is in exactly one of the queues, with the status that belongs there; the queues hold
    nothing else; the counter of sessions that wait for input is exact, and with the running requests
    stays within the limit; and unless the scheduler is paused the number of unfinished requests that
    the engine asks for is exact. *)
Theorem scheduler_queues_consistent inc kv enc conn ec s :
  config_ok cfg → 0 ≤ max_num_running_reqs cfg → memoises hasher →
  rtc sched_step (new_Scheduler inc kv enc conn ec) s →
  queues_ok cfg s ∧ (_pause_state s = UNPAUSED → get_num_unfinished_requests s = len (unfinished s)).
Proof.
  intros Hcfg Hmax Hm Hrun. assert (queues_ok cfg s) as Hq by (eapply steps_queues; try done; by apply start_queues).
  split; [done|]. by apply unfinished_count.
Qed.

(** ** A step *)

Lemma accounts_len s tokens inputs sched b : accounts cfg s tokens inputs sched b → len sched = len (num_scheduled_tokens b).
Proof.
  intros [Hk _ _ _ _ _ _]. unfold len. f_equal. rewrite <-(length_fmap fst (num_scheduled_tokens b)), Hk.
  unfold ids_of. by rewrite length_fmap.
Qed.

(** The tokens of the output are those of the batch. *)
Definition same_tokens (out out' : SchedulerOutput) : Prop :=
  so_num_scheduled_tokens out' = so_num_scheduled_tokens out ∧ total_num_scheduled_tokens out' = total_num_scheduled_tokens out ∧
  num_spec_tokens_to_schedule out' = num_spec_tokens_to_schedule out.

Lemma make_output_tokens b s : wlp (make_output cfg b) (λ out s', same_core s s' ∧
  so_num_scheduled_tokens out = num_scheduled_tokens b ∧
  total_num_scheduled_tokens out = sumZ (num_scheduled_tokens b).*2 ∧
  spec_tokens_to_schedule cfg b = Ok (num_spec_tokens_to_schedule out)) s.
Proof.
  apply wlp_and; [apply keeps_make_output|]. unfold make_output. do 2 wlp_step. apply wlp_bind, wlp_any. intros common s1.
  destruct (if use_v2_model_runner cfg then _ else _) as [new_reqs resumed_reqs].
  apply wlp_bind, wlp_any. intros new_data s2. apply wlp_bind, wlp_any. intros cached s3. apply wlp_bind, wlp_any. intros [] s4.
  apply wlp_bind, wlp_any. intros [copies retained] s5. apply wlp_bind, wlp_any. intros [] s6. apply wlp_bind, wlp_lift. intros n Hn.
  apply wlp_bind, wlp_any. intros freed s8. apply wlp_bind, wlp_any. intros zero s9. by apply wlp_ret.
Qed.

Lemma update_after_tokens out s : wlp (_update_after_schedule cfg out) (λ out' s', same_core s s' ∧ same_tokens out out') s.
Proof.
  apply wlp_and; [apply keeps_update_after|]. unfold _update_after_schedule. apply wlp_bind.
  eapply wlp_mono; [apply (wlp_for_acc (λ _ out' _, same_tokens out out')); [done|]|].
  { intros pre [rid n] post acc s1 _ Hacc. apply wlp_bind, wlp_any. intros st s2. by apply wlp_ret. }
  intros out1 s1 H1. apply wlp_bind, wlp_modify. destruct (negb _); [by apply wlp_ret|].
  apply (wlp_for_acc (λ _ out' _, same_tokens out out')); [done|].
  intros pre [rid n] post acc s2 _ Hacc. apply wlp_bind, wlp_any. intros st s3. by apply wlp_ret.
Qed.

Lemma schedule_tokens throttle s : config_ok cfg → queues_ok cfg s → requests_ok s →
  wlp (schedule cfg throttle) (λ out s', ∃ b s1, planned cfg s b s1 ∧ same_core s1 s' ∧
    so_num_scheduled_tokens out = num_scheduled_tokens b ∧
    total_num_scheduled_tokens out = sumZ (num_scheduled_tokens b).*2 ∧
    spec_tokens_to_schedule cfg b = Ok (num_spec_tokens_to_schedule out)) s.
Proof.
  intros Hcfg Hq Hf. unfold schedule. apply wlp_bind. eapply wlp_mono; [by apply phases_spec|]. intros b s1 Hp.
  apply wlp_bind, wlp_keeps; [keeps|]. intros [] s2 H2. apply wlp_bind. eapply wlp_mono; [apply make_output_tokens|].
  intros out s3 (H3 & Ht & Hs & Hn). apply wlp_bind, wlp_keeps; [keeps|]. intros [] s4 H4.
  apply wlp_bind, wlp_keeps; [keeps|]. intros [] s5 H5. apply wlp_bind, wlp_keeps; [keeps|]. intros [] s6 H6.
  eapply wlp_mono; [apply update_after_tokens|]. intros out' s7 (H7 & Ht' & Hs' & Hn'). exists b, s1. split; [done|].
  split; [|split_and!; congruence]. transitivity s6; [|done]. transitivity s5; [|done]. transitivity s4; [|done].
  transitivity s3; [|done]. by transitivity s2.
Qed.

(** C3: what a step gives out.  The two phases of [schedule] keep the queues; they stay within
    the token and input budgets; a scheduled request gets at least one token and is running; the
    requests that are preempted are the last ones of [running], or ones of the largest key
    (priority, arrival), and after a preemption nothing is admitted; so all the assertions of
    [schedule] on its totals hold.  In the output no request appears twice, every one of them is
    known, running, and has tokens, and the totals are those of the limits. *)
Theorem schedule_step_sound throttle s : config_ok cfg → queues_ok cfg s → requests_ok s →
  (∀ b s1, schedule_phases cfg throttle s = Ok (b, s1) → planned cfg s b s1 ∧ check_batch cfg b s1 = Ok (tt, s1)) ∧
  (∀ out s', schedule cfg throttle s = Ok (out, s') →
     queues_ok cfg s' ∧ NoDup (so_num_scheduled_tokens out).*1 ∧
     (∀ rid n, (rid, n) ∈ so_num_scheduled_tokens out →
        0 < n ∧ ∃ o, (rid, o) ∈ sched_requests s' ∧ o ∈ running s' ∧ status (objects s' !!! o) = RUNNING) ∧
     total_num_scheduled_tokens out = sumZ (so_num_scheduled_tokens out).*2 ∧
     total_num_scheduled_tokens out ≤ max_num_scheduled_tokens cfg ∧
     total_num_scheduled_tokens out + draft_slots cfg * len (so_num_scheduled_tokens out) ≤ max_num_batched_tokens cfg ∧
     len (running s') ≤ max_num_running_reqs cfg).
Proof.
  intros Hcfg Hq Hf. split.
  { intros b s1 Hrun. pose proof (phases_spec cfg throttle s Hcfg Hq Hf b s1 Hrun) as Hp. split; [done|]. by eapply check_batch_ok. }
  intros out s' Hrun. destruct (schedule_tokens throttle s Hcfg Hq Hf out s' Hrun) as (b & s1 & Hp & Hc & Ht & Hs & _).
  assert (queues_ok cfg s') as Hq' by (eapply queues_with_core; [exact Hc|apply Hp]).
  destruct (pn_sched _ _ _ _ Hp) as (sched & Hacc & Hnd & Hin & _).
  pose proof (accounts_len _ _ _ _ _ Hacc) as Hlen. destruct Hacc as [Hk _ Hpos Htok Hinp Htl Hil].
  rewrite Ht, Hs, <-Hlen. split; [done|]. split; [|split; [|split; [done|split; [|split]]]].
  - rewrite Hk. apply ids_NoDup; [done|]. intros o o' Ho Ho'. eapply queues_unique; [apply Hp|..]; apply elem_of_app; left; auto.
  - intros rid n Hn. split; [apply Hpos; by apply (list_elem_of_fmap_2 snd) in Hn|].
    assert (rid ∈ ids_of s1 sched) as (o & -> & Ho)%list_elem_of_fmap by (rewrite <-Hk; by apply (list_elem_of_fmap_2 fst) in Hn).
    assert (o ∈ running s') as Hr by (rewrite (sc_running _ _ Hc); auto). exists o.
    destruct (queues_live cfg [] s' o Hq') as [Hl _]; [apply elem_of_app; by left|].
    rewrite (ss_id _ _ (sc_objects _ _ Hc o)) in Hl. split_and!; [done|done|]. by apply (pl_run _ _ _ _ _ _ _ Hq').
  - unfold step_tokens in Htok. destruct Hcfg. case_decide; lia.
  - lia.
  - pose proof (pl_bound _ _ _ _ _ _ _ Hq') as Hb. rewrite (pl_count _ _ _ _ _ _ _ Hq') in Hb.
    pose proof (streaming_nonneg (objects s') ([] ++ skipped_waiting s')). lia.
Qed.

(** A batch has at most as many requests as may run. *)
Lemma planned_size s b s1 : planned cfg s b s1 → len (num_scheduled_tokens b) ≤ max_num_running_reqs cfg.
Proof.
  intros Hp. destruct (pn_sched _ _ _ _ Hp) as (sched & Hacc & Hnd & Hin & _). rewrite <-(accounts_len _ _ _ _ _ Hacc).
  pose proof (pl_bound _ _ _ _ _ _ _ (pn_queues _ _ _ _ Hp)) as Hb. rewrite (pl_count _ _ _ _ _ _ _ (pn_queues _ _ _ _ Hp)) in Hb.
  pose proof (streaming_nonneg (objects s1) ([] ++ skipped_waiting s1)).
  assert (length sched ≤ length (running s1))%nat by (apply submseteq_length, NoDup_submseteq; done). unfold len in *. lia.
Qed.

(** C21: draft tokens by the size of the batch.  When the table is built from the configured
    schedule with the limits of the scheduler, the lookup of a step never leaves the table, and a
    step that schedules requests asks for the number of the range that decides for their count,
    or for [num_spec_tokens] if that is less. *)
Theorem schedule_drafts_by_size throttle s l d : config_ok cfg → queues_ok cfg s → requests_ok s →
  build_dynamic_sd_schedule_lookup (Some (entry_list <$> l)) (max_num_running_reqs cfg) (num_spec_tokens cfg) = Ok d →
  dynamic_sd_lookup cfg = Some d →
  (∀ b s1, schedule_phases cfg throttle s = Ok (b, s1) → ∃ n, spec_tokens_to_schedule cfg b = Ok n) ∧
  (∀ out s', schedule cfg throttle s = Ok (out, s') → so_num_scheduled_tokens out ≠ [] →
     ∃ e, decides l (len (so_num_scheduled_tokens out)) e ∧
       num_spec_tokens_to_schedule out = Z.min (num_spec_tokens cfg) e.2).
Proof.
  intros Hcfg Hq Hf (_ & _ & l' & ->%(inj (fmap entry_list)) & _ & _ & Hat)%build_ok Hd.
  assert (∀ b s1, planned cfg s b s1 → num_scheduled_tokens b ≠ [] →
    ∃ e, decides l' (len (num_scheduled_tokens b)) e ∧ spec_tokens_to_schedule cfg b = Ok (Z.min (num_spec_tokens cfg) e.2)) as Hspec.
  { intros b s1 Hp Hne. destruct (Hat (len (num_scheduled_tokens b))) as (e & He & Hi).
    { pose proof (planned_size _ _ _ Hp). destruct (num_scheduled_tokens b); [done|]. unfold len in *. simpl in *. lia. }
    exists e. split; [done|]. unfold spec_tokens_to_schedule. rewrite Hd. destruct (decide _) as [_|Hz]; [done|].
    destruct (num_scheduled_tokens b); [done|]. destruct Hz. unfold len. simpl. lia. }
  split.
  - intros b s1 Hrun. pose proof (phases_spec cfg throttle s Hcfg Hq Hf b s1 Hrun) as Hp.
    destruct (num_scheduled_tokens b) as [|x t] eqn:Hb.
    + exists (num_spec_tokens cfg). unfold spec_tokens_to_schedule. by rewrite Hd, Hb.
    + destruct (Hspec b s1 Hp) as (e & _ & He); [by rewrite Hb|]. by eexists.
  - intros out s' Hrun Hne. destruct (schedule_tokens throttle s Hcfg Hq Hf out s' Hrun) as (b & s1 & Hp & _ & Ht & _ & Hn).
    rewrite Ht in Hne |- *. destruct (Hspec b s1 Hp Hne) as (e & He & Hn'). exists e. split; [done|]. congruence.
Qed.

(** C7: a step ends.  The loops of [schedule] (over the running requests, over the victims when
    blocks are missing, over the waiting requests) change the lists that they walk over; they end
    in every state, when each call on the KV cache manager and the encoder cache manager does. *)
Theorem schedule_terminates throttle s : KVEnds K → EncoderEnds E → schedule cfg throttle s ≠ Raise OutOfFuel.
Proof. intros. by apply ends_schedule. Qed.
End system.

(** C18: chunks of a prefill of state-space layers.  [_mamba_block_aligned_split] never gives more
    tokens than it was offered, and some when it was offered a block; no position where the state
    must be saved (the next block boundary, the last cached position, the last hash boundary of
    the prompt, the end of the shared prefix) lies strictly inside a chunk of a prefill.  When the
    states are saved at the ends of chunks, a chunk that does not finish the prefill ends at a
    block boundary or at the last hash boundary of the prompt; only when a step is smaller than a
    block it may also end inside the block in which it starts.  When the kernel saves the states
    inside the chunk ([internal_checkpoint]), the chunk is what was offered, or ends at a block
    boundary or at the last hash boundary of the prompt. *)
Theorem mamba_split_sound cfg r n local external :
  let start := chunk_start r local external in
  let k := _mamba_block_aligned_split cfg r n local external in
  let bs := cache_config_block_size cfg in
  0 < bs → 0 ≤ start → 0 ≤ n →
  0 ≤ k ≤ n ∧ (bs ≤ n → 0 < k) ∧
  (start < prefill_end r → ∀ p, p ∈ mandatory_stops cfg r n local external → ¬ start < p < start + k) ∧
  (internal_checkpoint cfg r local external = false → 0 < k → start + k < prefill_end r →
   (start + k) mod bs = 0 ∨ start + k = tail_boundary cfg r ∨
   max_prefill cfg < bs ∧ start + k ≤ next_boundary cfg r local external) ∧
  (internal_checkpoint cfg r local external = true → start < prefill_end r →
   k = n ∨ (start + k) mod bs = 0 ∨ start + k = tail_boundary cfg r).
Proof.
  intros start k bs Hbs Hstart Hn. destruct (split_bounds cfg Hbs r n local external) as [Hle Hge].
  split; [subst k; lia|]. split; [by apply split_progress|]. split.
  - intros Hpre p Hp. by apply split_stops.
  - split; [|intros Hck Hpre; by apply split_internal].
    intros Hck Hk Hend. apply split_aligned; try done. subst k start. lia.
Qed.

Lemma mamba_split_sound_witness :
  let cfg := engine_config FCFS 8 0 in let r := engine_request 1 "b" (replicate 20 7) 16 false in
  0 ≤ _mamba_block_aligned_split cfg r 7 0 0 ≤ 7 ∧ _mamba_block_aligned_split cfg r 7 0 0 mod 4 = 0.
Proof.
  intros cfg r. destruct (mamba_split_sound cfg r 7 0 0) as (Hb & _ & _ & Ha & _); [vm_compute; congruence|vm_compute; congruence|lia|].
  split; [exact Hb|]. destruct Ha as [Ha|[Ha|[Ha _]]]; [vm_compute; congruence|vm_compute; congruence|vm_compute; congruence|
    exact Ha|vm_compute in Ha; congruence|vm_compute in Ha; congruence].
Defined.

(** ** Runs of the small engine *)

#[export] Instance Counter_ends : KVEnds Counter.
Proof. split; intros; try done; cbn [kv_allocate_slots counting_ops]; ends. Qed.

Lemma schedule_terminates_witness :
  schedule (engine_config PRIORITY 0 0) false
    (new_Scheduler true (5 : Counter) (new_EncoderCacheManager 8) None None : Scheduler Counter EncoderCacheManager Empty_set Empty_set)
  ≠ Raise OutOfFuel.
Proof. apply schedule_terminates; apply _. Defined.

Lemma engine_config_ok p threshold drafts : config_ok (engine_config p threshold drafts).
Proof. by split; simpl; try lia. Qed.

(** The conditions on a call, as tests of a state. *)
Lemma new_request_test {K E N X} (e : Scheduler K E N X) r :
  forallb (λ x, negb (x.2 =? object_id r)) (sched_requests e) = true → status r = WAITING → new_request e r.
Proof.
  rewrite forallb_forall. intros Hnew Hst. split; [|by left]. intros rid Hin.
  apply list_elem_of_In, Hnew in Hin. simpl in Hin. by rewrite Z.eqb_refl in Hin.
Qed.

Lemma requests_test {K E N X} (e : Scheduler K E N X) :
  forallb (λ x, match mm_features (objects e !!! x.2) with [] => true | _ => false end) (sched_requests e) = true → requests_ok e.
Proof.
  rewrite forallb_forall. intros Hf rid o Hin. apply list_elem_of_In, Hf in Hin. simpl in Hin.
  destruct (mm_features _); [|done]. split; intros; simplify_list_eq; set_solver.
Qed.

Lemma running_test {K E N X} (e : Scheduler K E N X) out :
  forallb (λ x, bool_decide (status (objects e !!! x.2) = RUNNING)) (sched_requests e) = true → sessions_run e out.
Proof.
  rewrite forallb_forall. intros Hf rid n o _ Hin%dict_get_elem _. left.
  apply list_elem_of_In, Hf in Hin. by apply bool_decide_eq_true in Hin.
Qed.

(** The model's output of that step stops the second request. *)
Definition second_stops : ModelRunnerOutput := runner_output [("b", 0); ("a", 1)] [[]; [99]].

Abbreviation engine_step := (sched_step two_config engine_hasher (λ _ _, false) (λ _ _, true) (λ _ l, l)).

Lemma two_arrive is_session : rtc engine_step start_engine (two_waiting is_session).
Proof.
  destruct (next_ok (λ _ _, true) (engine_add two_config prompt_b) start_engine) as ([] & H1 & _); [by vm_compute|].
  destruct (next_ok (λ _ _, true) (engine_add two_config (prompt_a is_session)) (next (engine_add two_config prompt_b) start_engine))
    as ([] & H2 & _); [destruct is_session; by vm_compute|].
  eapply rtc_l; [eapply step_add, H1; by apply new_request_test; vm_compute|].
  apply rtc_once. eapply step_add, H2; by apply new_request_test; vm_compute.
Qed.

Definition tokens_are (l : list (string * Z)) (out : SchedulerOutput) : bool := bool_decide (so_num_scheduled_tokens out = l).

Lemma scheduler_queues_consistent_witness :
  ∃ e : Engine, queues_ok two_config e ∧ running e = [1] ∧ get_num_unfinished_requests e = len (unfinished e).
Proof.
  destruct (next_ok (λ out e, tokens_are [("b", 8); ("a", 4)] out &&
    is_ok (λ '(_, e'), bool_decide (running e' = [1] ∧ _pause_state e' = UNPAUSED)) (engine_update two_config out second_stops e))
    (schedule two_config false) (two_waiting false)) as (out & Hout & [Ht Hup]%andb_prop); [by vm_compute|].
  apply (next_ok (λ _ e', bool_decide (running e' = [1] ∧ _pause_state e' = UNPAUSED))) in Hup as (outs & Hup & [Hr Hp]%bool_decide_eq_true).
  exists (next (engine_update two_config out second_stops) (two_running false)).
  destruct (scheduler_queues_consistent two_config engine_hasher (λ _ _, false) (λ _ _, true) (λ _ l, l) false engine_kv
    (new_EncoderCacheManager 8) None None (next (engine_update two_config out second_stops) (two_running false))) as [Hq Hn].
  - apply engine_config_ok.
  - vm_compute. congruence.
  - apply hasher_memoises.
  - etrans; [exact (two_arrive false)|]. eapply rtc_l; [eapply step_schedule, Hout; by apply requests_test; vm_compute|].
    apply rtc_once. eapply step_output, Hup; [by apply running_test; vm_compute|].
    apply bool_decide_eq_true in Ht. rewrite Ht. by apply (bool_decide_unpack _).
  - split; [exact Hq|]. split; [exact Hr|]. by apply Hn.
Defined.

Lemma two_waiting_ok is_session : queues_ok two_config (two_waiting is_session).
Proof. refine (steps_queues _ _ _ _ _ _ _ _ _ _ (two_arrive is_session)); [apply engine_config_ok|apply hasher_memoises|by apply start_queues]. Qed.

Lemma schedule_step_sound_witness :
  ∃ out e, schedule two_config false (two_waiting false) = Ok (out, e) ∧ queues_ok two_config e ∧
    so_num_scheduled_tokens out = [("b", 8); ("a", 4)] ∧ total_num_scheduled_tokens out ≤ max_num_scheduled_tokens two_config.
Proof.
  destruct (next_ok (λ out _, tokens_are [("b", 8); ("a", 4)] out)
    (schedule two_config false) (two_waiting false)) as (out & Hout & Ht); [by vm_compute|].
  destruct (schedule_step_sound two_config false (two_waiting false)) as [_ Hs];
    [apply engine_config_ok|exact (two_waiting_ok false)|by apply requests_test; vm_compute|].
  destruct (Hs _ _ Hout) as (Hq' & _ & _ & _ & Hle & _). exists out, (two_running false).
  split; [exact Hout|]. split; [exact Hq'|]. split; [|exact Hle]. by apply bool_decide_eq_true in Ht.
Defined.

(** Three draft tokens for one request, one for two to four. *)
Definition draft_schedule : DynamicSDSchedule := [(2, 4, 1); (1, 1, 3)].
Definition draft_config : SchedulerConfig := drafting_config FCFS 8 3 (Some [0; 3; 1]) false.

Lemma schedule_drafts_by_size_witness :
  ∃ out e, schedule draft_config false (two_waiting false) = Ok (out, e) ∧
    ∃ x, decides draft_schedule 2 x ∧ num_spec_tokens_to_schedule out = Z.min 3 x.2.
Proof.
  destruct (next_ok (λ out _, tokens_are [("b", 8); ("a", 4)] out)
    (schedule draft_config false) (two_waiting false)) as (out & Hout & Ht); [by vm_compute|].
  destruct (schedule_drafts_by_size draft_config false (two_waiting false) draft_schedule [0; 3; 1]) as [_ Hs];
    [by split; simpl; try lia|exact (two_waiting_ok false)|by apply requests_test; vm_compute|by vm_compute|reflexivity|].
  exists out, (next (schedule draft_config false) (two_waiting false)). split; [exact Hout|].
  apply bool_decide_eq_true in Ht. destruct (Hs _ _ Hout) as (x & Hx & Hn); [by rewrite Ht|]. exists x. rewrite Ht in Hx. split; [exact Hx|exact Hn].
Defined.
