(* ===== verification/SchedCases.v ===== *)
(** * Two cases that the scheduler gets wrong

    A session whose step is reported after it was preempted, and a request that is padded to a row
    of draft tokens while long prefills are limited: when they occur, and what happens then. *)

From S2P Require Import Prelude FreeQueue Request Hashing Session BlockPool Heapq RequestQueue SchedUtils EncoderCache EncoderSched.
From S2P Require Import SingleType Coordinator Manager Scheduler ScheduleStep SchedOutput SchedFrame SchedQueues SchedInvariant SchedRunning SchedWaiting SchedFinish SchedProcess SchedManager SchedTheorems.

(** ** A session that is lost *)

Section lost.
Context {K E N X : Type}.
Context `{!KVManager K} `{!EncoderManager E} `{!KVConnector N} `{!ECConnector X} `{!SetIter}.
Variable cfg : SchedulerConfig.
Variable hasher : option block_hasher.
Variable should_advance : Request → option (list Z) → bool.
Variable accept_tokens : Request → list Z → bool.
Abbreviation Sched := (Scheduler K E N X).
Implicit Types s : Sched.

(** The request, and its name. *)
Variable o : Z.
Variable rid : string.

(** The statuses that [_handle_stopped_request] gives to a session that it queues again. *)
Definition queued_again (st : RequestStatus) : Prop := st = WAITING ∨ st = WAITING_FOR_STREAMING_REQ.

Lemma finished_not_queued st : is_finished_status st = true → ¬ queued_again st.
Proof. by intros Hf [-> | ->]. Qed.

(** What holds of [o] from the report of its step on: it does not run, it is known until it
    finishes, and if it was queued again it is in [gone], the requests still to be removed, or
    removed already. *)
Record off (gone : gset Z) s : Prop := {
  of_refs x : x ∈ waiting s ∨ x ∈ skipped_waiting s ∨ x ∈ gone → object_id (objects s !!! x) = x;
  of_known k x : (k, x) ∈ sched_requests s → object_id (objects s !!! x) = x ∧ request_id (objects s !!! x) = k;
  of_keys : NoDup (sched_requests s).*1;
  of_only x : (rid, x) ∈ sched_requests s → x = o;
  of_self : request_id (objects s !!! o) = rid;
  of_nodup : NoDup (running s);
  of_running : o ∉ running s;
  of_status : status (objects s !!! o) ≠ RUNNING;
  of_here : (rid, o) ∈ sched_requests s ∨ is_finished (objects s !!! o) = true;
  of_out : queued_again (status (objects s !!! o)) → o ∈ gone ∨ ((o ∉ waiting s) ∧ (o ∉ skipped_waiting s))
}.

Lemma off_core gone s s' : same_core s s' → off gone s → off gone s'.
Proof.
  intros [A B C D F G] [O1 O2 O3 Ou Oi O4 O5 O6 O7 O8]. pose proof (A o) as So.
  split; rewrite ?B, ?C, ?D, ?F, ?(ss_status _ _ So), ?(ss_id _ _ So); try done.
  - intros x Hx. rewrite (ss_object _ _ (A x)). by apply O1.
  - intros k x Hx. rewrite (ss_object _ _ (A x)), (ss_id _ _ (A x)). by apply O2.
  - unfold is_finished. by rewrite (ss_status _ _ So).
Qed.

(** A request that does not pass for [o]. *)
Definition distinct s (x : Z) : Prop := object_id (objects s !!! x) = x ∧ (request_id (objects s !!! x) = rid → x = o).

Lemma known_distinct gone s k x : off gone s → (k, x) ∈ sched_requests s → distinct s x.
Proof.
  intros Hoff Hx. destruct (of_known _ _ Hoff _ _ Hx) as [Hid <-]. split; [done|]. intros Hr. rewrite Hr in Hx.
  by apply (of_only _ _ Hoff).
Qed.

(** A request [x] is queued again, finished or forgotten. *)
Lemma off_change gone gone' s s' x : off gone s → distinct s x → is_finished (objects s' !!! x) = true ∨ (∃ k, (k, x) ∈ sched_requests s) →
  (∀ y, y ≠ x → same_skel (objects s !!! y) (objects s' !!! y)) →
  object_id (objects s' !!! x) = object_id (objects s !!! x) → request_id (objects s' !!! x) = request_id (objects s !!! x) →
  status (objects s' !!! x) ≠ RUNNING →
  sched_requests s' = sched_requests s ∨
    is_finished (objects s' !!! x) = true ∧ sched_requests s' = dict_del (sched_requests s) (request_id (objects s !!! x)) →
  running s' = running s →
  (∀ y, y ∈ waiting s' → y = x ∨ y ∈ waiting s) → (∀ y, y ∈ skipped_waiting s' → y = x ∨ y ∈ skipped_waiting s) →
  gone ⊆ gone' → gone' ⊆ gone ∪ {[x]} → (queued_again (status (objects s' !!! x)) → x = o → o ∈ gone') → off gone' s'.
Proof.
  intros [O1 O2 O3 Ou Oi O4 O5 O6 O7 O8] [Hx Hdis] Hk Hoth Hid Hrid Hst Hreq Hrun Hw Hs Hg Hg' Hq.
  assert (o ≠ x → same_skel (objects s !!! o) (objects s' !!! o)) as Ho by auto. split.
  - intros y Hy. destruct (decide (y = x)) as [->|Hne]; [congruence|]. rewrite (ss_object _ _ (Hoth y Hne)). apply O1.
    destruct Hy as [Hy|[Hy|Hy]]; [destruct (Hw y Hy); tauto|destruct (Hs y Hy); tauto|]. right. right. apply Hg' in Hy.
    apply elem_of_union in Hy as [Hy|Hy%elem_of_singleton]; [done|congruence].
  - intros k' y Hy. assert ((k', y) ∈ sched_requests s) as Hy'.
    { destruct Hreq as [Heq|[_ Heq]]; rewrite Heq in Hy; [done|]. by apply dict_del_elem in Hy as [? _]. }
    destruct (O2 _ _ Hy'). destruct (decide (y = x)) as [->|Hne]; [split; congruence|].
    by rewrite (ss_object _ _ (Hoth y Hne)), (ss_id _ _ (Hoth y Hne)).
  - destruct Hreq as [-> |[_ ->]]; [done|by apply dict_del_NoDup].
  - intros y Hy. apply Ou. destruct Hreq as [Heq|[_ Heq]]; rewrite Heq in Hy; [done|]. by apply dict_del_elem in Hy as [? _].
  - destruct (decide (o = x)) as [<-|Hne]; [congruence|]. by rewrite (ss_id _ _ (Ho Hne)).
  - by rewrite Hrun.
  - by rewrite Hrun.
  - destruct (decide (o = x)) as [<-|Hne]; [done|]. by rewrite (ss_status _ _ (Ho Hne)).
  - destruct (decide (o = x)) as [<-|Hne].
    + destruct Hk as [Hk|[k Hk]]; [by right|]. destruct Hreq as [-> |[Hf _]]; [|by right]. left.
      destruct (O2 _ _ Hk). congruence.
    + unfold is_finished. rewrite (ss_status _ _ (Ho Hne)). destruct O7 as [O7|]; [|by right]. left.
      destruct Hreq as [-> |[_ ->]]; [done|]. apply dict_del_elem; [done|]. split; [done|]. intros Hr.
      apply Hne. symmetry. by apply Hdis.
  - destruct (decide (o = x)) as [<-|Hne]; [auto|]. rewrite (ss_status _ _ (Ho Hne)). intros [Hg''|[Hnw Hns]]%O8; [left; by apply Hg|].
    right. split; [intros Hy; destruct (Hw o Hy); tauto|intros Hy; destruct (Hs o Hy); tauto].
Qed.

(** A finished request is freed. *)
Lemma off_forget gone s s' x : off gone s → distinct s x →
  is_finished (objects s !!! x) = true → forgets x s s' → off gone s'.
Proof.
  intros Ho Hx Hfin [A B C D F G]. pose proof (A x) as Sx. unfold is_finished in Hfin.
  eapply (off_change gone gone s s' x Ho Hx); rewrite ?D, ?F, ?(ss_status _ _ Sx); try done; try apply Sx.
  - left. unfold is_finished. by rewrite (ss_status _ _ Sx).
  - intros Hst. by rewrite Hst in Hfin.
  - destruct B as [B|B]; [by left|right]. split; [|done]. unfold is_finished. by rewrite (ss_status _ _ Sx).
  - auto.
  - auto.
  - set_solver.
  - by intros [Hq|Hq]; rewrite Hq in Hfin.
Qed.

Lemma off_outputs p s f : off (stopped_preempted_reqs p) s → off (stopped_preempted_reqs (p <| outputs ::= f |>)) s.
Proof. done. Qed.

Lemma stop_off p s s1 x k st : memoises hasher → off (stopped_preempted_reqs p) s → (k, x) ∈ sched_requests s →
  is_finished_status st = true → touched x st s s1 →
  wlp (stop_request cfg hasher x (status (objects s !!! x)) p) (λ '(_, p') s', off (stopped_preempted_reqs p') s') s1.
Proof.
  intros Hm Hoff Hk Hst [A B C D F G I J L O]. destruct (of_known _ _ Hoff _ _ Hk) as [Hx Hkx].
  assert (∀ y, object_id (objects s1 !!! y) = object_id (objects s !!! y)) as Hoids.
  { intros y. destruct (decide (y = x)) as [->|Hy]; [done|apply A, Hy]. }
  assert (∀ q, (∀ y, y ∈ q → y ∈ waiting s ∨ y ∈ skipped_waiting s) → refs_ok (objects s1) (x :: q)) as Hrefs.
  { intros q Hq y [->|Hy]%elem_of_cons; rewrite Hoids; [done|]. apply (of_refs _ _ Hoff). destruct (Hq y Hy); auto. }
  unfold stop_request. do 2 wlp_step. apply wlp_bind. eapply wlp_mono.
  { apply handle_stopped_spec; [done|by unfold is_finished; rewrite D| |]; [rewrite J|rewrite L]; apply Hrefs; auto. }
  set (p' := if decide (status (objects s !!! x) = RUNNING) then _ else _).
  assert (stopped_preempted_reqs p ⊆ stopped_preempted_reqs p' ∧ stopped_preempted_reqs p' ⊆ stopped_preempted_reqs p ∪ {[x]} ∧
    (x = o → o ∈ stopped_preempted_reqs p')) as (Hp1 & Hp2 & Hp3).
  { unfold p'. case_decide as Hr; simpl; [|set_solver]. split_and!; [set_solver|set_solver|]. intros ->.
    by destruct (of_status _ _ Hoff). }
  intros [] s2.
  - intros Hc. apply wlp_bind. eapply wlp_mono; [apply free_request_effect|]. intros [] s3 [Hfin Hfg]. apply wlp_ret.
    pose proof (core_forgets x _ _ _ Hc Hfg) as [F0 F1 F2 F3 F4 F5]. pose proof (F0 x) as Sx.
    assert (is_finished (objects s3 !!! x) = true) as Hfin3 by (unfold is_finished; by rewrite (ss_status _ _ Sx), D).
    eapply (off_change _ _ s s3 x Hoff); try congruence; try done; [by eauto using known_distinct|by eauto|..].
    + intros y Hy. etrans; [by apply A|apply F0].
    + rewrite (ss_object _ _ Sx). done.
    + rewrite (ss_id _ _ Sx). done.
    + intros Hr. unfold is_finished in Hfin3. by rewrite Hr in Hfin3.
    + destruct F1 as [F1|F1]; [left; congruence|right]. split; [done|congruence].
    + intros y. rewrite F3, J. auto.
    + intros y. rewrite F4, L. auto.
  - intros [Hres [pl [Q1 Q2 Q3 Q4 Q5 Q6 Q7 Q8 Q9 Q10]]]. apply wlp_bind, wlp_ret, wlp_ret.
    eapply (off_change _ _ s s2 x Hoff); try congruence; try done; [by eauto using known_distinct|by eauto|..].
    + intros y Hy. etrans; [by apply A|by apply Q2].
    + destruct Q1 as [-> | ->]; simpl in Q5; [destruct Q5; congruence|by destruct Q5].
    + left. congruence.
    + intros y. rewrite Q8, J. unfold wait_at. case_decide; rewrite ?elem_of_cons; tauto.
    + intros y. rewrite Q9, L. unfold skip_at. case_decide; rewrite ?elem_of_cons; tauto.
Qed.

Lemma process_off out runner failed p s k n : memoises hasher → off (stopped_preempted_reqs p) s →
  wlp (process_request cfg hasher should_advance accept_tokens out runner failed p k n)
    (λ p' s', off (stopped_preempted_reqs p') s') s.
Proof.
  intros Hm Hoff. unfold process_request. apply wlp_bind, wlp_assert. intros _. do 2 wlp_step.
  assert (∀ s', same_core s s' → wlp (mret p) (λ p' s', off (stopped_preempted_reqs p') s') s') as Hskip.
  { intros s' Hc. apply wlp_ret. by eapply off_core. }
  destruct (dict_get (sched_requests s) k) as [x|] eqn:Hk; [|by apply Hskip]. apply dict_get_elem in Hk as Hin.
  apply wlp_bind, wlp_keeps; [keeps|]. intros stale s1 H1. do 2 wlp_step. case_decide; [by apply Hskip|].
  destruct (is_finished (objects s1 !!! x)) eqn:Hfin; [by apply Hskip|]. destruct (stale && _); [by apply Hskip|].
  apply wlp_bind, wlp_keeps; [keeps|]. intros idx s2 H2. apply wlp_bind, wlp_keeps; [keeps|]. intros generated s3 H3.
  apply wlp_bind, wlp_keeps; [keeps|]. intros [] s4 H4. do 2 wlp_step.
  apply wlp_bind, wlp_keeps; [keeps|]. intros [] s5 H5. apply wlp_bind, wlp_keeps; [keeps|]. intros pooled s6 H6.
  assert (same_core s4 s6) as H46 by (by transitivity s5).
  assert (same_core s s6) as Hc
    by (transitivity s4; [transitivity s3; [transitivity s2; [by transitivity s1|done]|done]|done]).
  eapply off_core in Hoff; [|exact Hc]. rewrite <-(sc_requests _ _ Hc) in Hin.
  replace (status (objects s4 !!! x)) with (status (objects s6 !!! x)) by apply (sc_objects _ _ H46).
  apply wlp_bind. eapply wlp_mono; [by apply apply_output_spec|]. intros [ts stopped] s7 H7.
  apply wlp_bind. apply (wlp_mono _ (λ _ s8, may_stop x s6 (ts, stopped) s8)).
  { apply wlp_keeps; [keeps|]. intros [] s8 H8. destruct stopped; simpl in *; [|by transitivity s7].
    destruct H7 as (st & ? & ?). exists st. split; [done|]. by eapply touched_core. }
  intros [] s8 H8. apply wlp_bind. apply (wlp_mono _ (λ '(_, p') s', off (stopped_preempted_reqs p') s')).
  { destruct stopped; simpl in H8; [|apply wlp_ret; by eapply off_core]. destruct H8 as (st & ? & ?). by eapply stop_off. }
  intros [reason p'] s9 H9. do 2 wlp_step. case_decide; by apply wlp_ret.
Qed.
(** The requests that are gone leave the queues. *)
Lemma off_removed gone s s' (R : gset Z) (W : list Z) : off gone s → (∀ x, x ∈ gone → x ∈ W) →
  (∃ w k n, s' = s <| num_waiting_for_streaming_input := n |> <| running := filter (λ x, x ∉ R) (running s) |>
     <| waiting := w |> <| skipped_waiting := k |> ∧
     w ≡ₚ filter (λ x, x ∉ W) (waiting s) ∧ k ≡ₚ filter (λ x, x ∉ W) (skipped_waiting s)) → off ∅ s'.
Proof.
  intros [O1 O2 O3 Ou Oi O4 O5 O6 O7 O8] Hgone (w & k & n & -> & Hw & Hk).
  assert (∀ x, x ∈ w ↔ (x ∉ W) ∧ x ∈ waiting s) as Hw' by (intros x; by rewrite Hw, list_elem_of_filter).
  assert (∀ x, x ∈ k ↔ (x ∉ W) ∧ x ∈ skipped_waiting s) as Hk' by (intros x; by rewrite Hk, list_elem_of_filter).
  split; simpl; try done.
  - intros x [Hx|[Hx|Hx]]; apply O1; [apply Hw' in Hx; tauto|apply Hk' in Hx; tauto|set_solver].
  - by apply NoDup_filter.
  - rewrite list_elem_of_filter. tauto.
  - intros Hq. right. rewrite Hw', Hk'. destruct (O8 Hq) as [Hg|[H1 H2]]; [|tauto]. specialize (Hgone o Hg). tauto.
Qed.

Lemma remove_off gone s R W : off gone s → (∀ x, x ∈ gone → x ∈ W) → refs_ok (objects s) W →
  wlp (remove_from_running R) (λ _, wlp (remove_from_waiting cfg W) (λ _, off ∅)) s.
Proof.
  intros Hoff Hgone Hrefs. eapply wlp_mono; [apply remove_from_running_spec, Hoff|]. intros [] s1 ->.
  eapply wlp_mono; [apply remove_from_waiting_spec; [..|exact Hrefs]|].
  - intros x Hx. apply (of_refs _ _ Hoff). by left.
  - intros x Hx. apply (of_refs _ _ Hoff). right. by left.
  - intros [] s2 (w & k & -> & Hw & Hk). eapply off_removed; [exact Hoff|exact Hgone|].
    exists w, k, (num_waiting_for_streaming_input s). split; [by destruct s|]. done.
Qed.

(** [finish_requests] *)
Lemma collect_known ids s : wlp (collect_requests ids) (λ '(_, wr, valid) s',
  (∃ n, s' = s <| num_waiting_for_streaming_input := n |>) ∧
  (∀ x, x ∈ wr → x ∈ valid) ∧ (∀ x, x ∈ valid → ∃ k, (k, x) ∈ sched_requests s)) s.
Proof.
  unfold collect_requests. apply (wlp_for_acc (λ _ '(_, wr, valid) s',
    (∃ n, s' = s <| num_waiting_for_streaming_input := n |>) ∧
    (∀ x, x ∈ wr → x ∈ valid) ∧ (∀ x, x ∈ valid → ∃ k, (k, x) ∈ sched_requests s))).
  { split_and!; [exists (num_waiting_for_streaming_input s); by destruct s|set_solver..]. }
  intros _ k _ [[rr wr] valid] s1 _ ([n ->] & Hwr & Hv). do 2 wlp_step. simpl.
  destruct (dict_get (sched_requests s) k) as [x|] eqn:Hk; [|apply wlp_ret; by eauto]. apply dict_get_elem in Hk.
  assert (∀ y, y ∈ valid ++ [x] → ∃ k, (k, y) ∈ sched_requests s) as Hv'.
  { intros y [Hy|Hy%list_elem_of_singleton]%elem_of_app; subst; eauto. }
  do 2 wlp_step. destruct (is_finished _); [apply wlp_ret; by eauto|]. case_decide.
  - apply wlp_ret. split_and!; [by eauto| |done]. intros y Hy. apply elem_of_app. auto.
  - apply wlp_bind. apply (wlp_mono _ (λ _ s', ∃ n, s' = s <| num_waiting_for_streaming_input := n |>)).
    + case_decide; [apply wlp_modify|apply wlp_ret]; by eexists.
    + intros [] s2 Hs2. apply wlp_ret. split_and!; [done| |done]. intros y. rewrite !elem_of_app. naive_solver.
Qed.

Lemma finish_one_off st x s : is_finished_status st = true → off ∅ s → distinct s x →
  wlp (finish_request cfg st x) (λ _ s', off ∅ s' ∧ ∀ y, distinct s y → distinct s' y) s.
Proof.
  intros Hst Hoff Hx. unfold finish_request. do 2 wlp_step. apply wlp_bind, wlp_keeps; [keeps|]. intros d s1 Hc.
  apply wlp_bind, wlp_modify. set (s2 := s1 <| objects ::= _ |>).
  eapply wlp_mono; [apply free_request_effect|]. intros [] s3 [Hfin Hfg].
  assert (∀ y, distinct s y → distinct s2 y) as Hd.
  { intros y. unfold distinct, s2. simpl. rewrite objects_insert. destruct (sc_objects _ _ Hc y) as [<- <- _ _ _ _ _].
    case_decide; by subst. }
  split.
  - eapply off_forget; [|by apply Hd|exact Hfin|exact Hfg]. eapply off_core in Hoff; [|exact Hc].
    assert (distinct s1 x) as Hx1 by (unfold distinct; by destruct (sc_objects _ _ Hc x) as [-> -> _ _ _ _ _]).
    eapply (off_change ∅ ∅ s1 _ x Hoff Hx1); unfold s2; simpl; rewrite ?lookup_total_insert_eq; try done; simpl; auto.
    + intros y Hy. by rewrite lookup_total_insert_ne.
    + by intros ->.
    + by intros [-> | ->].
  - intros y Hy%Hd. unfold distinct. by destruct (fg_objects _ _ _ Hfg y) as [-> -> _ _ _ _ _].
Qed.
Lemma finish_off ids st s : off ∅ s → wlp (finish_requests cfg ids st) (λ _, off ∅) s.
Proof.
  intros Hoff. unfold finish_requests. apply wlp_bind, wlp_assert. intros Hst. do 2 wlp_step.
  apply wlp_bind. eapply wlp_mono; [apply collect_known|]. intros [[rr wr] valid] s1 ([n ->] & Hwr & Hv).
  assert (off ∅ (s <| num_waiting_for_streaming_input := n |>)) as Hoff1 by (by destruct Hoff; split).
  apply wlp_bind. eapply wlp_mono.
  { eapply (wlp_and _ _ (λ _ s', objects s' = objects s)); [eapply (remove_off ∅ _ rr wr Hoff1)|].
    - set_solver.
    - intros x Hx%Hwr%Hv. destruct Hx as [k Hx]. by destruct (of_known _ _ Hoff _ _ Hx).
    - unfold remove_from_running. case_decide; [by apply wlp_ret|by apply wlp_modify]. }
  intros [] s2 [H2 Ho2]. apply wlp_bind. eapply wlp_mono.
  { eapply (wlp_and _ _ (λ _ s', objects s' = objects s)); [exact H2|].
    unfold remove_from_waiting. case_decide; [by apply wlp_ret|by apply wlp_modify]. }
  intros [] s3 [Hoff3 Ho3]. apply wlp_bind.
  eapply (wlp_mono _ (λ _ s', off ∅ s' ∧ ∀ y, y ∈ valid → distinct s' y)); [|intros [] s4 [H4 _]; by apply wlp_ret].
  apply (wlp_for (λ _ s', off ∅ s' ∧ ∀ y, y ∈ valid → distinct s' y)).
  { split; [done|]. intros y [k Hy]%Hv. unfold distinct. rewrite Ho3. by eapply known_distinct. }
  intros pre x post s4 -> [Hoff4 Hd]. eapply wlp_mono; [apply finish_one_off; [done|done|]|].
  - apply Hd, elem_of_app. right. by left.
  - intros [] s5 [Hoff5 Hd5]. auto.
Qed.

Lemma free_known_off k x s : off ∅ s → dict_get (sched_requests s) k = Some x → wlp (_free_blocks cfg x) (λ _, off ∅) s.
Proof.
  intros Hoff Hx%dict_get_elem. eapply wlp_mono; [apply free_blocks_effect|]. intros [] s' [Hfin Hfg].
  eapply off_forget; [exact Hoff|by eapply known_distinct|done|done].
Qed.

Lemma kv_xfer_off out s : off ∅ s → wlp (_update_from_kv_xfer_finished cfg out) (λ _, off ∅) s.
Proof.
  intros Hoff. unfold _update_from_kv_xfer_finished. apply wlp_bind, wlp_keeps; [keeps|]. intros [] s1 H1.
  eapply off_core in Hoff; [|exact H1]. apply wlp_bind. eapply wlp_mono; [apply (wlp_for_inv (off ∅)); [exact Hoff|]|].
  - intros k s2 Hoff2. unfold finish_recving. do 2 wlp_step. destruct (dict_get _ _) as [x|] eqn:Hx; [|by apply wlp_ret].
    do 2 wlp_step. case_decide.
    + apply wlp_modify. eapply off_core; [|exact Hoff2]. by split.
    + destruct (is_finished _); [by eapply free_known_off|by apply wlp_ret].
  - intros [] s2 Hoff2. apply (wlp_for_inv (off ∅)); [done|]. intros k s3 Hoff3. unfold finish_sending.
    do 2 wlp_step. destruct (dict_get _ _) as [x|] eqn:Hx; [by eapply free_known_off|by apply wlp_ret].
Qed.

Lemma update_off out runner s : memoises hasher → off ∅ s →
  wlp (update_from_output cfg hasher should_advance accept_tokens out runner) (λ _, off ∅) s.
Proof.
  intros Hm Hoff. unfold update_from_output. apply wlp_bind, wlp_keeps; [keeps|]. intros [] s1 H1. cbv zeta.
  apply wlp_bind, wlp_keeps; [keeps|]. intros failed s2 H2. assert (same_core s s2) as Hc by (by transitivity s1).
  eapply off_core in Hoff; [|exact Hc]. apply wlp_bind. eapply wlp_mono.
  { apply (wlp_for_acc (λ _ p s', off (stopped_preempted_reqs p) s')); [done|]. intros pre [k n] post p s3 _ Hp. by apply process_off. }
  intros p s3 Hp. apply wlp_bind. eapply wlp_mono; [eapply (remove_off _ _ _ (iter_set (stopped_preempted_reqs p)) Hp)|].
  { intros x. by rewrite elem_of_iter_set. }
  { intros x Hx. apply elem_of_iter_set in Hx. apply (of_refs _ _ Hp). by right; right. }
  intros [] s4 H4. apply wlp_bind. eapply wlp_mono; [exact H4|]. intros [] s5 H5. do 2 wlp_step. apply wlp_bind, wlp_modify.
  assert (off ∅ (s5 <| grammar_compile_error_reqs := ∅ |>)) as H5' by (eapply off_core; [|exact H5]; by split).
  apply wlp_bind. apply (wlp_mono _ (λ _, off ∅)).
  { case_decide; [|by apply wlp_ret]. apply wlp_bind. eapply wlp_mono; [by apply finish_off|].
    intros reqs s6 H6. do 2 wlp_step. by apply wlp_ret. }
  intros outs s6 H6. apply wlp_bind. apply (wlp_mono _ (λ _, off ∅)).
  { destruct (kv_connector_output runner); [by apply kv_xfer_off|by apply wlp_ret]. }
  intros [] s7 H7. apply (wlp_keeps _ _ s7); [keeps|]. intros ? s8 H8. by eapply off_core.
Qed.

Lemma preempted_off s : queues_ok cfg s → (rid, o) ∈ sched_requests s → status (objects s !!! o) = PREEMPTED → off ∅ s.
Proof.
  intros Hq Hin Hst. destruct (queues_refs cfg [] s Hq) as (_ & Hw & Hs & _).
  assert (o ∉ running s) as Hr by (intros Hr; pose proof (pl_run _ _ _ _ _ _ _ Hq o Hr); congruence).
  destruct (pl_refs _ _ _ _ _ _ _ Hq _ _ Hin) as [Ho Hrid]. pose proof (pl_keys _ _ _ _ _ _ _ Hq) as Hk. split; try done.
  - intros x [Hx|[Hx|Hx]]; [by apply Hw|by apply Hs|set_solver].
  - apply Hq.
  - intros x Hx. apply dict_elem_get in Hin, Hx; [congruence|done..].
  - pose proof (pl_nodup _ _ _ _ _ _ _ Hq) as Hnd. by apply NoDup_app in Hnd as [? _].
  - by rewrite Hst.
  - by left.
  - rewrite Hst. by intros [?|?].
Qed.

(** C39: a session that is lost.  A request is known and [PREEMPTED], in any state in which the queues
    are consistent, when the output of a step is processed (the step was in flight when the request
    was preempted).  If the output stops the request and [_handle_stopped_request] queues it again,
    to wait or to wait for its next input, as it does with a session, then [update_from_output]
    removes it from the queues: the request is known and not finished, but in no queue, and the
    invariant on the queues is broken. *)
Theorem session_lost out runner s outs s' : memoises hasher → queues_ok cfg s →
  (rid, o) ∈ sched_requests s → status (objects s !!! o) = PREEMPTED →
  update_from_output cfg hasher should_advance accept_tokens out runner s = Ok (outs, s') →
  queued_again (status (objects s' !!! o)) →
  (rid, o) ∈ sched_requests s' ∧ is_finished (objects s' !!! o) = false ∧
  (o ∉ running s' ++ waiting s' ++ skipped_waiting s') ∧ ¬ queues_ok cfg s'.
Proof.
  intros Hm Hq Hin Hst Hrun Hag. pose proof (update_off out runner s Hm (preempted_off s Hq Hin Hst) _ _ Hrun) as Hoff.
  assert (is_finished (objects s' !!! o) = false) as Hfin by (unfold is_finished; by destruct Hag as [-> | ->]).
  assert ((rid, o) ∈ sched_requests s') as Hin' by (destruct (of_here _ _ Hoff); [done|congruence]).
  assert (o ∉ running s' ++ waiting s' ++ skipped_waiting s') as Hout.
  { pose proof (of_running _ _ Hoff). rewrite !elem_of_app. destruct (of_out _ _ Hoff Hag); [set_solver|tauto]. }
  split_and!; [done..|]. intros Hq'. by apply Hout, (pl_complete _ _ _ _ _ _ _ Hq' rid).
Qed.
End lost.

(** The second request is a session, preempted by the second step; then the output of the first
    step stops it. *)
Definition session_preempted : Engine := next (schedule two_config false) (two_running true).

Lemma session_preempted_ok : queues_ok two_config session_preempted.
Proof.
  destruct (next_ok (λ _ _, true) (schedule two_config false) (two_waiting true)) as (out & H1 & _); [by vm_compute|].
  destruct (next_ok (λ _ _, true) (schedule two_config false) (two_running true)) as (out' & H2 & _); [by vm_compute|].
  assert (rtc engine_step (two_waiting true) session_preempted) as Hsteps.
  { eapply rtc_l; [eapply step_schedule, H1; by apply requests_test; vm_compute|].
    apply rtc_once. eapply step_schedule, H2; by apply requests_test; vm_compute. }
  refine (steps_queues _ _ _ _ _ _ _ _ _ _ Hsteps); [apply engine_config_ok|apply hasher_memoises|apply two_waiting_ok].
Qed.

(** The first request still runs, but the lost session makes the scheduler say that it has nothing
    to do. *)
Lemma session_lost_witness : ∃ out outs e, schedule two_config false (two_waiting true) = Ok (out, two_running true) ∧
  engine_update two_config out second_stops session_preempted = Ok (outs, e) ∧
  sched_requests e = [("b", 1); ("a", 2)] ∧ (2 ∉ running e ++ waiting e ++ skipped_waiting e) ∧ ¬ queues_ok two_config e ∧
  running e = [1] ∧ get_num_unfinished_requests e = 0 ∧ has_requests e = false.
Proof.
  destruct (next_ok (λ out _, is_ok (λ '(_, e), bool_decide (status (objects e !!! 2) = WAITING_FOR_STREAMING_REQ ∧
      sched_requests e = [("b", 1); ("a", 2)] ∧ running e = [1] ∧ get_num_unfinished_requests e = 0 ∧ has_requests e = false))
    (engine_update two_config out second_stops session_preempted))
    (schedule two_config false) (two_waiting true)) as (out & Hout & Hup); [by vm_compute|].
  destruct (engine_update two_config out second_stops session_preempted) as [[outs e]|] eqn:Hrun; [|done].
  apply bool_decide_eq_true in Hup as (Hst & Hreq & Hr & Hn & Hh).
  destruct (session_lost two_config engine_hasher (λ _ _, false) (λ _ _, true) 2 "a" out second_stops session_preempted outs e)
    as (_ & _ & Hno & Hbad); [apply hasher_memoises|apply session_preempted_ok| |by vm_compute|exact Hrun|by right|].
  - assert (sched_requests session_preempted = [("b", 1); ("a", 2)]) as -> by (by vm_compute). right. left.
  - exists out, outs, e. auto 10.
Defined.

(** ** Padding a decode *)

Lemma q_pop_ok p objs q o : refs_ok objs q → head q = Some o → ∃ q', q_pop p objs q = Ok (o, q').
Proof.
  intros Hq Hh. destruct (q_pop p objs q) as [[o' q']|e] eqn:Hp.
  - destruct (q_pop_perm p objs q o' q' Hq Hp) as [_ Hk%q_peek_head]; [|done]. exists q'. congruence.
  - exfalso. destruct q as [|x q]; [done|]. revert Hp. unfold q_pop, q_view. destruct p; simpl; [done|].
    unfold prio_pop, heappop. simpl. destruct (last _) as [z|] eqn:Hl; [|by apply last_None in Hl].
    by destruct (take _ _).
Qed.

Lemma bind_run {S A B} (m : M S A) (k : A → M S B) s a s' : m s = Ok (a, s') → (m ≫= k) s = k a s'.
Proof. intros Hm. unfold mbind, M_bind. by rewrite Hm. Qed.

Section padding.
Context {K E N X : Type}.
Context `{!KVManager K} `{!EncoderManager E} `{!KVConnector N} `{!ECConnector X} `{!SetIter}.
Variable cfg : SchedulerConfig.
Abbreviation Sched := (Scheduler K E N X).
Implicit Types s : Sched.

(** A row of draft tokens. *)
Abbreviation row := (1 + num_spec_tokens cfg).

(** The request [o] is next to join decoding requests.  It has no encoder inputs, it has found [h]
    in the caches, and one token is left to compute. *)
Record joins (b : Batch) (from_skipped : bool) (o : Z) (h : Hit) s s1 : Prop := {
  jo_select : _select_waiting_queue_for_scheduling cfg s = Ok (Some from_skipped, s);
  jo_next : head (queue_of from_skipped s) = Some o;
  jo_status : status (objects s !!! o) = WAITING ∨ status (objects s !!! o) = PREEMPTED;
  jo_stale : num_stale_output_tokens (objects s !!! o) ≤ 0 ∨ drop_stale_output (objects s !!! o) = true;
  jo_loras : exceeds_loras cfg (objects s !!! o) b = false;
  jo_running : len (running s) + num_waiting_for_streaming_input s < max_num_running_reqs cfg;
  jo_hit : find_hit cfg o s = Ok (Some h, s1);
  jo_sync : load_kv_async h = false;
  jo_inputs : has_encoder_inputs (objects s1 !!! o) = false;
  jo_one : num_tokens (objects s1 !!! o) - hit_num_computed_tokens h = 1;
  jo_room : hit_num_computed_tokens h + row + num_sampled_tokens_per_step cfg ≤ sc_max_model_len cfg;
  jo_decodes : scheduled_running_reqs b ≠ [];
  jo_prefills : prefill_scheduled b = false;
  jo_budget : row ≤ Z.min (token_budget b) (input_budget b - draft_slots cfg)
}.

(** The configurations that pad. *)
Record pads : Prop := {
  pa_drafts : 0 < num_spec_tokens cfg;
  pa_static : dynamic_sd_lookup cfg = None;
  pa_samples : 0 < num_sampled_tokens_per_step cfg;
  pa_mamba : need_mamba_block_aligned_split cfg = false
}.

(** The tokens that the request gets: a row, unless the limit on long prefills clips it. *)
Definition clipped : Z := if decide (0 < long_prefill_token_threshold cfg < row) then long_prefill_token_threshold cfg else row.
Definition no_inputs (b : Batch) : EncoderPlan := mkEncoderPlan [] clipped (encoder_budget b) [] ∅ 0.

Lemma padded_waiting_tokens b from o h s s1 defer : pads → joins b from o h s s1 →
  waiting_tokens cfg o h defer b s1 = Ok (Some (clipped, no_inputs b, true), s1).
Proof.
  intros [P1 P2 P3 P4] [J1 J2 J3 J4 J5 J6 J7 J8 J9 J10 J11 J12 J13 J14].
  assert (0 < clipped ≤ row) as Hc by (unfold clipped; case_decide; lia).
  unfold waiting_tokens. rewrite (bind_run _ _ s1 (objects s1 !!! o) s1) by done. cbv zeta. rewrite J8.
  rewrite decide_False by lia. unfold padded_tokens. cbv zeta. rewrite decide_True by (repeat split; try done; lia).
  rewrite decide_False by lia. fold clipped. rewrite decide_False by lia. rewrite Z.min_l by lia.
  rewrite (bind_run _ _ s1 tt s1) by (by replace (0 <? clipped) with true by lia).
  rewrite P4, !decide_False by naive_solver. unfold plan_encoder_inputs. rewrite J9.
  rewrite (bind_run _ _ s1 (no_inputs b) s1) by done. unfold _reserve_prefill_lookahead. cbn [num_new_tokens no_inputs]. cbv zeta.
  rewrite (decide_False (P := 0 < num_tokens _ - _ - clipped < _)) by lia. rewrite Z.max_l by lia.
  by rewrite decide_False by lia.
Qed.
(** The round of the loop that the request is in. *)
Lemma joins_round fuel defer ext b from o h s s1 s2 : pads → queues_with cfg ext s → joins b from o h s s1 →
  admit_slots cfg o h clipped (no_inputs b) s1 = Ok (true, s2) →
  ∃ s3, (status (objects s3 !!! o) = WAITING ∨ status (objects s3 !!! o) = PREEMPTED) ∧
    request_id (objects s3 !!! o) = request_id (objects s !!! o) ∧
    waiting_loop cfg (S fuel) defer ext b s =
      (b ← start_running cfg o h clipped (no_inputs b) true b; waiting_loop cfg fuel defer ext b) s3.
Proof.
  intros Hp Hq Hj Hadmit. pose proof (padded_waiting_tokens b from o h s s1 defer Hp Hj) as Htok.
  destruct Hp as [P1 P2 P3 P4]. destruct Hj as [J1 J2 J3 J4 J5 J6 J7 J8 J9 J10 J11 J12 J13 J14].
  assert (same_core s s2) as Hc by (transitivity s1; [by eapply keeps_find_hit|by eapply keeps_admit]).
  destruct (queues_refs cfg ext s Hq) as (_ & Hw & Hs & _).
  assert (refs_ok (objects s) (queue_of from s)) as Hrefs by (by destruct from).
  assert (q_peek (policy cfg) (objects s) (queue_of from s) = Ok o) as Hpeek by (by apply q_peek_head).
  assert (refs_ok (objects s2) (queue_of from s2)) as Hrefs2.
  { unfold queue_of. rewrite (sc_waiting _ _ Hc), (sc_skipped _ _ Hc). by eapply refs_same_core. }
  assert (head (queue_of from s2) = Some o) as Hhd.
  { unfold queue_of. rewrite (sc_waiting _ _ Hc), (sc_skipped _ _ Hc). done. }
  destruct (q_pop_ok (policy cfg) _ _ _ Hrefs2 Hhd) as [q Hpop].
  set (s3 := if from then s2 <| skipped_waiting := q |> else s2 <| waiting := q |>).
  assert (pop_from cfg from s2 = Ok (o, s3)) as Hpf.
  { unfold pop_from, s3. rewrite (bind_run _ _ s2 s2 s2) by done. destruct from; simpl in Hpop;
      by rewrite (bind_run _ _ s2 (o, q) s2) by (unfold lift_res; by rewrite Hpop). }
  exists s3. assert (objects s3 = objects s2) as Ho3 by (unfold s3; by destruct from). rewrite Ho3.
  pose proof (sc_objects _ _ Hc o) as So. rewrite (ss_status _ _ So), (ss_id _ _ So). split_and!; [done|done|].
  cbn [waiting_loop]. rewrite (bind_run _ _ s s s) by done. rewrite decide_True.
  2: { split; [|lia]. destruct from; simpl in J2; [right|left]; by intros Hn; rewrite Hn in J2. }
  rewrite !decide_False by lia. rewrite (bind_run _ _ s (Some from) s) by done.
  fold (queue_of from s). rewrite (bind_run _ _ s o s) by (unfold lift_res; by rewrite Hpeek). cbv zeta.
  rewrite (bind_run _ _ s (objects s !!! o) s) by done.
  replace (_is_blocked_waiting_status (status (objects s !!! o))) with false by (by destruct J3 as [-> | ->]).
  rewrite (bind_run _ _ s true s) by done. cbn [negb]. rewrite (bind_run _ _ s (objects s !!! o) s) by done.
  replace ((0 <? num_stale_output_tokens (objects s !!! o)) && negb (drop_stale_output (objects s !!! o))) with false
    by (destruct J4 as [?| ->]; [by replace (0 <? _) with false by lia|by rewrite andb_false_r]).
  rewrite J5, (bind_run _ _ s _ s1 J7), (bind_run _ _ s1 _ s1 Htok), (bind_run _ _ s1 _ s2 Hadmit). cbn [negb].
  by rewrite (bind_run _ _ s2 _ s3 Hpf), J8.
Qed.
Lemma commit_nothing o b b' s : commit_encoder_inputs o (no_inputs b) b' s = Ok (b', s).
Proof.
  unfold commit_encoder_inputs. rewrite (bind_run _ _ s (objects s !!! o) s) by done. cbv zeta.
  by rewrite decide_False by (by intros []).
Qed.

(** A padded request starts with a row of tokens, and with nothing else. *)
Lemma start_padded o h n b s : status (objects s !!! o) = WAITING ∨ status (objects s !!! o) = PREEMPTED →
  let start := start_running cfg o h n (no_inputs b) true b s in
  (n ≠ row → start = Raise AssertionError) ∧
  (n = row → ∃ b' s', start = Ok (b', s') ∧ running s' = running s ++ [o] ∧
     dict_get (num_scheduled_tokens b') (request_id (objects s !!! o)) = Some row).
Proof.
  intros Hst start. unfold start, start_running. rewrite (bind_run _ _ s tt (s <| running ::= (.++ [o]) |>)) by done.
  set (s1 := s <| running ::= (.++ [o]) |>). cbv zeta. rewrite (bind_run _ _ s1 (objects s1 !!! o) s1) by done.
  set (b1 := if decide (num_external_computed_tokens h > 0) then _ else _).
  assert (∃ b2, (if decide (status (objects s1 !!! o) = WAITING) then mret (b1 <| scheduled_new_reqs ::= (.++ [o]) |>)
    else if decide (status (objects s1 !!! o) = PREEMPTED) then mret (b1 <| scheduled_resumed_reqs ::= (.++ [o]) |>)
    else raise RuntimeError) s1 = Ok (b2, s1)) as [b2 Hb2].
  { destruct (decide (status (objects s1 !!! o) = WAITING)); [by eexists|].
    rewrite decide_True by (by destruct Hst). by eexists. }
  rewrite (bind_run _ _ s1 b2 s1 Hb2). rewrite (bind_run _ _ s1 s1 s1) by done.
  match goal with |- context [update_object o ?f] => set (f0 := f) end.
  rewrite (bind_run _ _ s1 tt (s1 <| objects ::= <[o := f0 (objects s1 !!! o)]> |>)) by done.
  set (s2 := s1 <| objects ::= _ |>). split.
  - intros Hn. unfold mbind, M_bind. by replace (n =? row) with false by lia.
  - intros ->. rewrite Z.eqb_refl. cbn [assert_].
    rewrite (bind_run _ _ s2 _ s2 (eq_refl)). destruct (decide (hit_num_computed_tokens h + row < _));
      (eexists _, _; split; [erewrite bind_run by reflexivity; apply commit_nothing|]; split; [done|]; apply dict_get_set_eq).
Qed.

(** C40: padding and the limit on long prefills.  The configuration pads a request that joins
    decoding requests with one token to compute to a row of draft tokens, and one is next and has
    slots.  A [long_prefill_token_threshold] below the row clips the row again, and the assertion on
    its length raises out of the loop over the waiting requests.  With no threshold, or with one that
    the row fits into, the request runs with its row and the loop goes on. *)
Theorem padding_raises fuel defer ext b from o h s s1 s2 : pads → queues_with cfg ext s → joins b from o h s s1 →
  admit_slots cfg o h clipped (no_inputs b) s1 = Ok (true, s2) →
  (0 < long_prefill_token_threshold cfg < row → waiting_loop cfg (S fuel) defer ext b s = Raise AssertionError) ∧
  (long_prefill_token_threshold cfg ≤ 0 ∨ row ≤ long_prefill_token_threshold cfg →
   ∃ b' s', waiting_loop cfg (S fuel) defer ext b s = waiting_loop cfg fuel defer ext b' s' ∧ o ∈ running s' ∧
     dict_get (num_scheduled_tokens b') (request_id (objects s !!! o)) = Some row).
Proof.
  intros Hp Hq Hj Ha. destruct (joins_round fuel defer ext b from o h s s1 s2 Hp Hq Hj Ha) as (s3 & Hst & <- & ->).
  destruct (start_padded o h clipped b s3 Hst) as [Hno Hyes]. unfold clipped in Hno, Hyes. split; intros Ht.
  - unfold mbind, M_bind. unfold clipped. by rewrite Hno by (rewrite decide_True by done; lia).
  - destruct Hyes as (b' & s' & Hrun & Hr & Hn); [by rewrite decide_False by lia|].
    exists b', s'. fold clipped in Hrun. rewrite (bind_run _ _ s3 b' s' Hrun). split; [done|]. split; [|done].
    rewrite Hr. apply elem_of_app. right. by left.
Qed.
End padding.

(** Steps of a request of five tokens, at most [threshold] of the prompt in each, with three draft
    tokens per decode and what is sampled in every step; then a request arrives whose prompt shares
    a block with the first one. *)
Definition padding_config (threshold : Z) : SchedulerConfig := engine_config FCFS threshold 3.
Definition padding_steps (threshold : Z) (sampled : list (list Z)) : M Engine unit :=
  let cfg := padding_config threshold in
  engine_add cfg (engine_request 1 "b" [1; 2; 3; 4; 5] 16 false);;
  for_ sampled (λ tokens,
    out ← schedule cfg false;
    engine_update cfg out (runner_output [("b", 0)] [tokens]);; mret tt);;
  engine_add cfg (engine_request 2 "a" [1; 2; 3; 4; 7] 16 false).

(** The next step up to the waiting requests. *)
Definition decode_phase (threshold : Z) : M Engine Batch :=
  s ← gets (λ s, s); schedule_running (padding_config threshold) false (new_batch (padding_config threshold) s).

(** One request runs and one waits. *)
Lemma one_waits cfg (e : Engine) : sched_requests e = [("b", 1); ("a", 2)] → running e = [1] → waiting e = [2] →
  skipped_waiting e = [] → num_waiting_for_streaming_input e = 0 → 1 ≤ max_num_running_reqs cfg →
  (object_id (objects e !!! 1), request_id (objects e !!! 1), status (objects e !!! 1)) = (1, "b", RUNNING) →
  (object_id (objects e !!! 2), request_id (objects e !!! 2), status (objects e !!! 2)) = (2, "a", WAITING) → queues_ok cfg e.
Proof.
  intros Hreq Hrun Hw Hs Hn Hmax [= Ho1 Hr1 Hs1] [= Ho2 Hr2 Hs2]. unfold queues_ok, queues_with.
  rewrite Hreq, Hrun, Hw, Hs, Hn. split; simpl.
  - apply (bool_decide_unpack _). by vm_compute.
  - intros rid o Hin. set_unfold in Hin. naive_solver.
  - apply (bool_decide_unpack _). by vm_compute.
  - intros o Ho. set_unfold in Ho. destruct Ho as [-> |[-> |[]]]; eexists; [left|right; left].
  - intros o Ho%list_elem_of_singleton. by subst.
  - intros o Ho%list_elem_of_singleton. left. by subst.
  - by intros o Ho%elem_of_nil.
  - intros rid o Hin _. set_unfold in Hin. set_unfold. naive_solver.
  - done.
  - unfold len. simpl. lia.
Qed.

(** The conditions of the theorem, as a test of the run. *)
Definition joins_test (threshold : Z) (sampled : list (list Z)) : bool :=
  let cfg := padding_config threshold in
  is_ok (λ '(b, e), bool_decide (sched_requests e = [("b", 1); ("a", 2)]) && bool_decide (running e = [1]) &&
      bool_decide (waiting e = [2]) && bool_decide (skipped_waiting e = []) && (num_waiting_for_streaming_input e =? 0) &&
      bool_decide ((object_id (objects e !!! 1), request_id (objects e !!! 1), status (objects e !!! 1)) = (1, "b", RUNNING)) &&
      bool_decide ((object_id (objects e !!! 2), request_id (objects e !!! 2), status (objects e !!! 2)) = (2, "a", WAITING)) &&
      (num_stale_output_tokens (objects e !!! 2) <=? 0) && bool_decide (scheduled_running_reqs b ≠ []) &&
      negb (prefill_scheduled b) && (4 <=? Z.min (token_budget b) (input_budget b - 0)) &&
    match find_hit cfg 2 e with
    | Ok (Some h, e1) => negb (load_kv_async h) && negb (has_encoder_inputs (objects e1 !!! 2)) &&
        (num_tokens (objects e1 !!! 2) - hit_num_computed_tokens h =? 1) && (hit_num_computed_tokens h + 4 + 1 <=? 32) &&
        is_ok (λ x, x.1) (admit_slots cfg 2 h (clipped cfg) (no_inputs cfg b) e1)
    | _ => false
    end) (decode_phase threshold (next (padding_steps threshold sampled) start_engine)).

Lemma joins_run threshold sampled : joins_test threshold sampled = true → ∃ b e h e1 e2,
  decode_phase threshold (next (padding_steps threshold sampled) start_engine) = Ok (b, e) ∧
  request_id (objects e !!! 2) = "a" ∧
  pads (padding_config threshold) ∧ queues_with (padding_config threshold) [] e ∧
  joins (padding_config threshold) b false 2 h e e1 ∧
  admit_slots (padding_config threshold) 2 h (clipped (padding_config threshold)) (no_inputs (padding_config threshold) b) e1 = Ok (true, e2).
Proof.
  unfold joins_test. cbv zeta. destruct (decode_phase _ _) as [[b e]|]; [|done]. cbn [is_ok].
  destruct (find_hit _ 2 e) as [[[h|] e1]|] eqn:Hhit; rewrite ?andb_false_r; try done.
  destruct (admit_slots _ _ _ _ _ e1) as [[admitted e2]|] eqn:Ha; cbn [is_ok]; rewrite ?andb_false_r; try done.
  repeat (rewrite andb_true_iff || rewrite bool_decide_eq_true || rewrite negb_true_iff || rewrite Z.leb_le || rewrite Z.eqb_eq).
  intros (((((((((((Hreq & Hrun) & Hw) & Hs) & Hn) & H1) & H2) & Hst) & Hb) & Hp) & Hbud) & ((((Hl & Hi) & Ht) & Hr) & Had)).
  simpl in Had. subst admitted. exists b, e, h, e1, e2. split; [done|]. pose proof H2 as [= Ho2 Hr2 Hs2].
  split; [done|]. split; [done|]. split; [by apply one_waits|]. split; [|done].
  split; try done; [|by simpl; rewrite Hw|by left|by left|].
  - unfold _select_waiting_queue_for_scheduling. rewrite (bind_run _ _ e e e) by done. simpl.
    rewrite Hs, Hw, decide_False by naive_solver. by rewrite decide_True.
  - rewrite Hrun, Hn. done.
Qed.

(** A threshold of two tokens clips the row, one of four does not; so in a whole step. *)
Lemma padding_raises_witness :
  (∃ b e, decode_phase 2 (next (padding_steps 2 [[]; []; [6]]) start_engine) = Ok (b, e) ∧
     waiting_loop (padding_config 2) 1 false [] b e = Raise AssertionError) ∧
  (∃ b e b' e', decode_phase 4 (next (padding_steps 4 [[]; [6]]) start_engine) = Ok (b, e) ∧
     waiting_loop (padding_config 4) 1 false [] b e = waiting_loop (padding_config 4) 0 false [] b' e' ∧
     dict_get (num_scheduled_tokens b') "a" = Some 4) ∧
  schedule (padding_config 2) false (next (padding_steps 2 [[]; []; [6]]) start_engine) = Raise AssertionError.
Proof.
  split; [|split].
  - destruct (joins_run 2 [[]; []; [6]]) as (b & e & h & e1 & e2 & Hrun & _ & Hp & Hq & Hj & Ha); [by vm_compute|].
    exists b, e. split; [done|].
    destruct (padding_raises (padding_config 2) 0 false [] b false 2 h e e1 e2 Hp Hq Hj Ha) as [Hraise _].
    apply Hraise. exact (conj eq_refl eq_refl).
  - destruct (joins_run 4 [[]; [6]]) as (b & e & h & e1 & e2 & Hrun & Hid & Hp & Hq & Hj & Ha); [by vm_compute|].
    destruct (padding_raises (padding_config 4) 0 false [] b false 2 h e e1 e2 Hp Hq Hj Ha) as [_ Hrow].
    destruct Hrow as (b' & e' & Hloop & _ & Hn); [right; vm_compute; congruence|]. exists b, e, b', e'.
    split; [done|]. split; [done|]. by rewrite Hid in Hn.
  - by vm_compute.
Defined.
