(* ===== verification/SchedOwner.v ===== *)
(** * Who owns a block

    A block that a request gives up while a step may still write it is handed from the KV cache
    manager to the scheduler, which keeps it in [deferred_frees].  [KVOwns] is what the manager
    promises about the blocks that it hands over; the scheduler keeps exactly these. *)

From S2P Require Import Prelude FreeQueue Request Hashing Session BlockPool Heapq RequestQueue SchedUtils EncoderCache EncoderSched.
From S2P Require Import SingleType Coordinator Manager Scheduler ScheduleStep SchedOutput SchedFrame SchedTheorems.

(** [own k out]: the callers of the manager [k] own the references [out].  An operation that
    hands over nothing: *)
Definition OwnsNone {K A} (own : K → list block_ref → Prop) (op : M K A) : Prop :=
  ∀ k out, own k out → wlp op (λ _ k', own k' out) k.

Class KVOwns (K : Type) `{!KVManager K} (own : K → list block_ref → Prop) : Prop := {
  own_perm k out out' : out ≡ₚ out' → own k out → own k out';
  own_computed r : OwnsNone own (kv_get_computed_blocks r);
  own_computed_conn r : OwnsNone own (kv_get_computed_blocks_for_connector r);
  own_truncate bs n : OwnsNone own (kv_truncate_computed_blocks bs n);
  own_allocate r n1 n2 bs n3 n4 b1 n5 b2 n6 b3 : OwnsNone own (kv_allocate_slots r n1 n2 bs n3 n4 b1 n5 b2 n6 b3);
  own_cache r n : OwnsNone own (kv_cache_blocks r n);
  own_stats r n : OwnsNone own (kv_record_prefix_cache_stats r n);
  own_skipped rid n p : OwnsNone own (kv_remove_skipped_blocks rid n p);
  own_free r : OwnsNone own (kv_free r);
  own_new_ids : OwnsNone own kv_take_new_block_ids;
  own_zeroing rid n m : OwnsNone own (kv_get_zeroing_block_ids_in_range rid n m);
  own_record_zeroing rid n : OwnsNone own (kv_record_blocks_for_zeroing rid n);
  own_common rid : OwnsNone own (kv_get_num_common_prefix_blocks rid);
  own_evict ids : OwnsNone own (kv_evict_blocks ids);
  own_events : OwnsNone own kv_take_events;
  own_reset : OwnsNone own kv_reset_prefix_cache;
  (* what is handed over, and what is given back *)
  own_pop r k out : own k out → wlp (kv_pop_blocks_for_free r) (λ bs k', own k' (out ++ bs)) k;
  own_copies k out : own k out →
    wlp kv_take_block_copies (λ '(copies, ends) k', own k' (out ++ ends) ∧ (copies = [] → ends = [])) k;
  own_release bs rest k : own k (bs ++ rest) → wlp (kv_pool_free_blocks bs) (λ _ k', own k' rest) k
}.

(** The blocks in [deferred_frees]. *)
Definition deferred_blocks {K E N X} (s : Scheduler K E N X) : list block_ref := concat (deferred_frees s).*2.

Section owner.
Context {K E N X : Type}.
Context `{!KVManager K} `{!EncoderManager E} `{!KVConnector N} `{!ECConnector X} `{!SetIter}.
Context {own : K → list block_ref → Prop} `{!KVOwns K own}.
Abbreviation Sched := (Scheduler K E N X).
Implicit Types s : Sched.

Definition owned s : Prop := own (kv_cache_manager s) (deferred_blocks s).
Definition Owned {A} (m : M Sched A) : Prop := ∀ s, owned s → wlp m (λ _, owned) s.

Lemma owned_ret {A} (a : A) : Owned (mret a).
Proof. intros s Hs. by apply wlp_ret. Qed.
Lemma owned_bind {A B} (m : M Sched A) (k : A → M Sched B) : Owned m → (∀ a, Owned (k a)) → Owned (m ≫= k).
Proof. intros Hm Hk s Hs. apply wlp_bind. eapply wlp_mono; [by apply Hm|]. intros a s1 H1. by apply Hk. Qed.
Lemma owned_gets {A} (f : Sched → A) : Owned (gets f).
Proof. intros s Hs. by apply wlp_gets. Qed.
Lemma owned_raise {A} e : Owned (A := A) (raise e).
Proof. intros s Hs. apply wlp_raise. Qed.
Lemma owned_assert b : Owned (assert_ b).
Proof. intros s Hs. by apply wlp_assert. Qed.
Lemma owned_lift {A} (r : res A) : Owned (lift_res r).
Proof. intros s Hs. by apply wlp_lift. Qed.
Lemma owned_modify (f : Sched → Sched) :
  (∀ s, kv_cache_manager (f s) = kv_cache_manager s ∧ deferred_frees (f s) = deferred_frees s) → Owned (modify f).
Proof.
  intros Hf s Hs. apply wlp_modify. unfold owned, deferred_blocks. destruct (Hf s) as [-> ->]. exact Hs.
Qed.
Lemma owned_on_kv {A} (op : M K A) : OwnsNone own op → Owned (on_kv op).
Proof.
  intros Hop s Hs a s'. unfold on_kv. destruct (op _) as [[b k]|] eqn:Hr; [|done]. intros [= <- <-].
  exact (Hop _ _ Hs _ _ Hr).
Qed.
Lemma owned_on_encoder {A} (op : M E A) : Owned (on_encoder op).
Proof. intros s Hs a s'. unfold on_encoder. destruct (op _) as [[? ?]|]; [|done]. by intros [= <- <-]. Qed.
Lemma owned_on_connector {A} (a : A) op : Owned (on_connector a op).
Proof.
  intros s Hs b s'. unfold on_connector. destruct (connector s) as [n|]; [|by intros [= <- <-]].
  destruct (op n). by intros [= <- <-].
Qed.
Lemma owned_on_ec_connector {A} (a : A) op : Owned (on_ec_connector a op).
Proof.
  intros s Hs b s'. unfold on_ec_connector. destruct (ec_connector s) as [n|]; [|by intros [= <- <-]].
  destruct (op n). by intros [= <- <-].
Qed.
Lemma owned_for {A} (xs : list A) (body : A → M Sched unit) : (∀ x, Owned (body x)) → Owned (for_ xs body).
Proof. intros Hb. induction xs as [|x xs IH]; simpl; [apply owned_ret|]. by apply owned_bind. Qed.
Lemma owned_for_acc {A B} (xs : list A) (acc : B) (body : B → A → M Sched B) :
  (∀ acc x, Owned (body acc x)) → Owned (for_acc xs acc body).
Proof. intros Hb. revert acc. induction xs as [|x xs IH]; intros acc; simpl; [apply owned_ret|]. by apply owned_bind. Qed.
End owner.

Create HintDb owned.
#[export] Hint Resolve own_computed own_computed_conn own_truncate own_allocate own_cache own_stats own_skipped own_free
  own_new_ids own_zeroing own_record_zeroing own_common own_evict own_events own_reset : owned.

(** Decompose a computation into the steps above. *)
Ltac owned_step :=
  lazymatch goal with
  | |- Owned (mret _) => apply owned_ret
  | |- Owned (mbind _ _) => apply owned_bind; [|intros ?]
  | |- Owned (gets _) => apply owned_gets
  | |- Owned (deref _) => apply owned_gets
  | |- Owned (get_request _) => apply owned_gets
  | |- Owned (raise _) => apply owned_raise
  | |- Owned (assert_ _) => apply owned_assert
  | |- Owned (lift_res _) => apply owned_lift
  | |- Owned (on_kv _) => apply owned_on_kv
  | |- Owned (on_encoder _) => apply owned_on_encoder
  | |- Owned (on_connector _ _) => apply owned_on_connector
  | |- Owned (on_ec_connector _ _) => apply owned_on_ec_connector
  | |- Owned (modify _) => apply owned_modify; by intros []
  | |- Owned (set_object _ _) => apply owned_modify; by intros []
  | |- Owned (set_memo _ _) => apply owned_modify; by intros []
  | |- Owned (update_object _ _) => apply owned_modify; by intros []
  | |- Owned (add_to _ _ _) => apply owned_modify; by intros []
  | |- Owned (for_ _ _) => apply owned_for; intros ?
  | |- Owned (for_acc _ _ _) => apply owned_for_acc; intros ? ?
  | |- Owned (let _ := _ in _) => cbv zeta
  | |- Owned (if ?b then _ else _) => destruct b
  | |- Owned (match ?x with _ => _ end) => destruct x
  | |- Owned _ => progress cbv beta
  end.
Ltac owned := repeat (owned_step || (progress eauto with owned)).

(** ** The operations of the scheduler *)

Section operations.
Context {K E N X : Type}.
Context `{!KVManager K} `{!EncoderManager E} `{!KVConnector N} `{!ECConnector X} `{!SetIter}.
Context {own : K → list block_ref → Prop} `{!KVOwns K own}.
Variable cfg : SchedulerConfig.
Variable hasher : option block_hasher.
Variable should_advance : Request → option (list Z) → bool.
Variable accept_tokens : Request → list Z → bool.
Variable validate_tokens : Request → list Z → list Z.
Abbreviation Sched := (Scheduler K E N X).
Abbreviation OwnedM := (Owned (E := E) (N := N) (X := X) (own := own)).
Implicit Types s : Sched.

Lemma wlp_on_kv {A} (op : M K A) (Q : A → Sched → Prop) s :
  wlp op (λ a k, Q a (s <| kv_cache_manager := k |>)) (kv_cache_manager s) → wlp (on_kv op) Q s.
Proof. intros Hop a s'. unfold on_kv. destruct (op _) as [[b k]|] eqn:Hr; [|done]. intros [= <- <-]. exact (Hop _ _ Hr). Qed.

Lemma deferred_snoc s q bs :
  deferred_blocks (s <| deferred_frees ::= (.++ [(q, bs)]) |>) = deferred_blocks s ++ bs.
Proof. unfold deferred_blocks. simpl. rewrite fmap_app, concat_app. simpl. by rewrite app_nil_r. Qed.

(** Blocks that are handed over at a release go to [deferred_frees]. *)
Lemma owned_free_request_blocks o : OwnedM (_free_request_blocks cfg o).
Proof.
  intros s Hs. unfold _free_request_blocks. do 2 wlp_step. cbv zeta. case_decide.
  - apply (owned_on_kv _ (own_free _) s Hs).
  - apply wlp_bind, wlp_on_kv. eapply wlp_mono; [by apply own_pop|]. intros bs k Hk. cbv beta in Hk. case_decide as Hb.
    + apply wlp_ret. subst bs. rewrite app_nil_r in Hk. exact Hk.
    + apply wlp_modify. unfold owned. rewrite (deferred_snoc (s <| kv_cache_manager := k |>)). exact Hk.
Qed.

(** So do the sources of copies that have not run yet. *)
Lemma owned_free_cow blocks fence s : own (kv_cache_manager s) (deferred_blocks s ++ blocks) →
  wlp (_free_cow_retained_blocks cfg blocks fence) (λ _, owned (own := own)) s.
Proof.
  intros Hs. unfold _free_cow_retained_blocks. do 2 wlp_step. case_decide.
  - apply wlp_on_kv. apply (own_release (own := own) blocks (deferred_blocks s)). eapply own_perm; [|exact Hs]. apply Permutation_app_comm.
  - apply wlp_modify. unfold owned. rewrite deferred_snoc. eapply own_perm; [|exact Hs].
    by rewrite (reverse_Permutation blocks).
Qed.

(** The entries whose step has run are given back. *)
Lemma owned_drain_loop entries s : deferred_frees s = entries → owned (own := own) s →
  wlp (drain_loop entries) (λ _, owned (own := own)) s.
Proof.
  revert s. induction entries as [|[fence blocks] entries IH]; intros s He Hs; cbn [drain_loop]; [by apply wlp_ret|].
  do 2 wlp_step. case_decide; [by apply wlp_ret|]. apply wlp_bind, wlp_modify, wlp_bind, wlp_on_kv.
  eapply wlp_mono; [apply (own_release _ (concat entries.*2))|].
  - unfold owned, deferred_blocks in Hs. rewrite He in Hs. simpl in *. eapply own_perm; [|exact Hs]. by rewrite reverse_Permutation.
  - intros [] k Hk. by apply IH.
Qed.
Lemma owned_drain : OwnedM _drain_deferred_frees.
Proof. intros s Hs. unfold _drain_deferred_frees. do 2 wlp_step. by apply owned_drain_loop. Qed.
Hint Resolve owned_free_request_blocks owned_drain : owned.

Lemma owned_enqueue o : OwnedM (_enqueue_waiting_request cfg o).
Proof. unfold _enqueue_waiting_request. owned. Qed.
Lemma owned_select : OwnedM (_select_waiting_queue_for_scheduling cfg).
Proof. unfold _select_waiting_queue_for_scheduling. owned. Qed.
Lemma owned_update_session o u : OwnedM (update_session hasher o u).
Proof. unfold update_session. owned. Qed.
Hint Resolve owned_enqueue owned_select owned_update_session : owned.
Lemma owned_handle_stopped o : OwnedM (_handle_stopped_request cfg hasher o).
Proof. unfold _handle_stopped_request. owned. Qed.
Lemma owned_free_blocks o : OwnedM (_free_blocks cfg o).
Proof. unfold _free_blocks. owned. Qed.
Lemma owned_connector_finished o : OwnedM (_connector_finished cfg o).
Proof. unfold _connector_finished. owned. Qed.
Hint Resolve owned_handle_stopped owned_free_blocks owned_connector_finished : owned.
Lemma owned_free_request o d : OwnedM (_free_request cfg o d).
Proof. unfold _free_request. owned. Qed.
Lemma owned_preempt o d : OwnedM (_preempt_request cfg o d).
Proof. unfold _preempt_request. owned. Qed.
Hint Resolve owned_free_request owned_preempt : owned.
Lemma owned_collect ids : OwnedM (collect_requests ids).
Proof. unfold collect_requests. apply owned_for_acc. intros [[a b] c] rid. owned. Qed.
Lemma owned_remove_running l : OwnedM (remove_from_running l).
Proof. unfold remove_from_running. owned. Qed.
Lemma owned_remove_waiting l : OwnedM (remove_from_waiting cfg l).
Proof. unfold remove_from_waiting. owned. Qed.
Lemma owned_finish_request st o : OwnedM (finish_request cfg st o).
Proof. unfold finish_request. owned. Qed.
Hint Resolve owned_collect owned_remove_running owned_remove_waiting owned_finish_request : owned.
Lemma owned_finish ids st : OwnedM (finish_requests cfg ids st).
Proof. unfold finish_requests. owned. Qed.
Hint Resolve owned_finish : owned.
Lemma owned_add r : OwnedM (sched_add_request cfg hasher r).
Proof. unfold sched_add_request. owned. Qed.
Lemma owned_preempt_all fuel : OwnedM (preempt_all cfg fuel).
Proof. induction fuel as [|fuel IH]; cbn [preempt_all]; owned. Qed.
Hint Resolve owned_preempt_all : owned.
Lemma owned_reset a b : OwnedM (sched_reset_prefix_cache cfg a b).
Proof. unfold sched_reset_prefix_cache, reset_connector_cache. owned. Qed.
Lemma owned_append o l : OwnedM (append_tokens cfg hasher o l).
Proof. induction l as [|t l IH]; cbn [append_tokens]; owned. Qed.
Hint Resolve owned_append : owned.
Lemma owned_with_output o l st : OwnedM (_update_request_with_output cfg hasher o l st).
Proof. unfold _update_request_with_output. owned. Qed.
Lemma owned_drafts l : OwnedM (update_draft_token_ids should_advance validate_tokens l).
Proof. unfold update_draft_token_ids. owned. Qed.
Lemma owned_drafts_in_output l sp : OwnedM (update_draft_token_ids_in_output should_advance validate_tokens l sp).
Proof. unfold update_draft_token_ids_in_output. apply owned_for_acc. intros [a b] [rid t]. owned. Qed.
Hint Resolve owned_with_output : owned.

(** *** A step *)

Lemma owned_slots o n1 n2 bs n3 n4 b1 n5 b2 n6 b3 : OwnedM (allocate_slots_for o n1 n2 bs n3 n4 b1 n5 b2 n6 b3).
Proof. unfold allocate_slots_for. owned. Qed.
Lemma owned_plan r c n eb : OwnedM (plan_encoder_inputs cfg r c n eb).
Proof. unfold plan_encoder_inputs. owned. Qed.
Lemma owned_commit_encoder o p b : OwnedM (commit_encoder_inputs o p b).
Proof. unfold commit_encoder_inputs. owned. Qed.
Lemma owned_commit_spec o n b : OwnedM (commit_spec_tokens o n b).
Proof. unfold commit_spec_tokens. owned. Qed.
Lemma owned_unschedule o b : OwnedM (unschedule cfg o b).
Proof. unfold unschedule. owned. Qed.
Hint Resolve owned_slots owned_plan owned_commit_encoder owned_commit_spec owned_unschedule : owned.
Lemma owned_take_victim i b : OwnedM (take_victim cfg i b).
Proof. unfold take_victim. owned. Qed.
Hint Resolve owned_take_victim : owned.
Lemma owned_allocate_or_preempt fuel o n i b : OwnedM (allocate_or_preempt cfg fuel o n i b).
Proof. revert i b. induction fuel as [|fuel IH]; intros i b; cbn [allocate_or_preempt]; owned. Qed.
Hint Resolve owned_allocate_or_preempt : owned.
Lemma owned_running_loop fuel d i b : OwnedM (running_loop cfg fuel d i b).
Proof. revert i b. induction fuel as [|fuel IH]; intros i b; cbn [running_loop]; owned. Qed.
Lemma owned_remote_kv o : OwnedM (_update_waiting_for_remote_kv cfg o).
Proof. unfold _update_waiting_for_remote_kv. owned. Qed.
Hint Resolve owned_running_loop owned_remote_kv : owned.
Lemma owned_promote o : OwnedM (_try_promote_blocked_waiting_request cfg o).
Proof. unfold _try_promote_blocked_waiting_request. owned. Qed.
Lemma owned_pop_from fs : OwnedM (pop_from cfg fs).
Proof. unfold pop_from. owned. Qed.
Lemma owned_local_hit o : OwnedM (_get_local_prefix_cache_hit o).
Proof. unfold _get_local_prefix_cache_hit. owned. Qed.
Lemma owned_match_external o bs n d : OwnedM (match_external cfg o bs n d).
Proof. unfold match_external. owned. Qed.
Hint Resolve owned_promote owned_pop_from owned_local_hit owned_match_external : owned.
Lemma owned_find_hit o : OwnedM (find_hit cfg o).
Proof. unfold find_hit. owned. Qed.
Lemma owned_waiting_tokens o h d b : OwnedM (waiting_tokens cfg o h d b).
Proof. unfold waiting_tokens. owned. Qed.
Lemma owned_admit o h n p : OwnedM (admit_slots cfg o h n p).
Proof. unfold admit_slots, _inflight_prefill_reserved_blocks. owned. Qed.
Lemma owned_async_load o h l : OwnedM (start_async_load cfg o h l).
Proof. unfold start_async_load, prepend_skipped. owned. Qed.
Lemma owned_start o h n p pad b : OwnedM (start_running cfg o h n p pad b).
Proof. unfold start_running. owned. Qed.
Lemma owned_skip fs o l : OwnedM (skip_request cfg fs o l).
Proof. unfold skip_request, prepend_skipped. owned. Qed.
Hint Resolve owned_find_hit owned_waiting_tokens owned_admit owned_async_load owned_start owned_skip : owned.
Lemma owned_waiting_loop fuel d l b : OwnedM (waiting_loop cfg fuel d l b).
Proof. revert l b. induction fuel as [|fuel IH]; intros l b; cbn [waiting_loop]; owned. Qed.
Hint Resolve owned_waiting_loop : owned.
Lemma owned_phases t : OwnedM (schedule_phases cfg t).
Proof. unfold schedule_phases, schedule_running, schedule_waiting, running_loras. owned. Qed.
Lemma owned_to_zero : OwnedM (_get_new_block_ids_to_zero cfg).
Proof. unfold _get_new_block_ids_to_zero. owned. Qed.
Lemma owned_update_after out : OwnedM (_update_after_schedule cfg out).
Proof. unfold _update_after_schedule, advance_request, add_placeholders. owned. Qed.
Hint Resolve owned_phases owned_to_zero owned_update_after : owned.

Lemma owned_make_output b : OwnedM (make_output cfg b).
Proof.
  unfold make_output. owned_step; [owned|]. owned_step; [owned|].
  destruct (if use_v2_model_runner cfg then _ else _) as [new_reqs resumed_reqs]. do 3 (owned_step; [owned|]).
  intros s Hs. apply wlp_bind, wlp_on_kv. eapply wlp_mono; [by apply (own_copies (own := own))|]. intros [copies ends] k [Hk He].
  apply wlp_bind. set (s1 := s <| kv_cache_manager := k |>).
  apply (wlp_mono _ (λ _, owned (own := own))); [|intros [] s2 H2; revert s2 H2;
    lazymatch goal with |- ∀ s, _ → wlp ?m _ s => change (OwnedM m) end; owned].
  case_decide as Hc; [by apply owned_free_cow|]. apply wlp_ret. rewrite He, app_nil_r in Hk by (destruct copies; [done|by destruct Hc]). exact Hk.
Qed.
Hint Resolve owned_make_output : owned.
Lemma owned_schedule t : OwnedM (schedule cfg t).
Proof. unfold schedule, check_batch. owned. Qed.

(** *** An output *)

Lemma owned_scan invalid ns ev c o : OwnedM (scan_request cfg invalid ns ev c o).
Proof. unfold scan_request. owned. Qed.
Hint Resolve owned_scan : owned.
Lemma owned_invalid_blocks invalid ns : OwnedM (_handle_invalid_blocks cfg invalid ns).
Proof. unfold _handle_invalid_blocks, _update_requests_with_invalid_blocks. owned. Qed.
Lemma owned_kv_xfer out : OwnedM (_update_from_kv_xfer_finished cfg out).
Proof. unfold _update_from_kv_xfer_finished, finish_recving, finish_sending. owned. Qed.
Lemma owned_apply o l p st : OwnedM (apply_output cfg hasher should_advance accept_tokens o l p st).
Proof. unfold apply_output. owned. Qed.
Lemma owned_stop o st p : OwnedM (stop_request cfg hasher o st p).
Proof. unfold stop_request. owned. Qed.
Hint Resolve owned_invalid_blocks owned_kv_xfer owned_apply owned_stop : owned.
Lemma owned_process out runner failed p rid n :
  OwnedM (process_request cfg hasher should_advance accept_tokens out runner failed p rid n).
Proof. unfold process_request, drain_in_flight, reject_drafts. owned. Qed.
Hint Resolve owned_process : owned.
Lemma owned_output out runner : OwnedM (update_from_output cfg hasher should_advance accept_tokens out runner).
Proof. unfold update_from_output. owned. Qed.

(** Every call keeps what is owned. *)
Lemma step_owned s s' : sched_step cfg hasher should_advance accept_tokens validate_tokens s s' →
  owned (own := own) s → owned (own := own) s'.
Proof.
  intros Hstep Hs. destruct Hstep as [r s s' _ Hrun|ids st l s s' Hrun|throttle out s s' _ Hrun|
    out runner outs s s' _ _ Hrun|drafts s s' Hrun|drafts spec new s s' Hrun|p s s' Hrun|rr rc b s s' Hrun|s s' Hrun|o g s].
  - exact (owned_add r s Hs _ _ Hrun).
  - exact (owned_finish ids st s Hs _ _ Hrun).
  - exact (owned_schedule throttle s Hs _ _ Hrun).
  - exact (owned_output out runner s Hs _ _ Hrun).
  - exact (owned_drafts drafts s Hs _ _ Hrun).
  - exact (owned_drafts_in_output drafts spec s Hs _ _ Hrun).
  - by injection Hrun as <-.
  - exact (owned_reset rr rc s Hs _ _ Hrun).
  - exact (owned_on_encoder _ s Hs _ _ Hrun).
  - exact Hs.
Qed.
Lemma steps_owned s s' : rtc (sched_step cfg hasher should_advance accept_tokens validate_tokens) s s' →
  owned (own := own) s → owned (own := own) s'.
Proof. induction 1 as [|s1 s2 s3 Hstep _ IH]; [done|]. intros Hs. apply IH. by eapply step_owned. Qed.
End operations.
