(* ===== verification/SchedLog.v ===== *)
(** * The scheduler on the KV cache manager: ownership of blocks

    The scheduler of [Scheduler], [ScheduleStep] and [SchedOutput] on the KV cache manager of
    [Manager], with a log of its calls on the manager.  As long as the calls in the log keep the
    protocol of [Lifecycle], every reference to a block is in a table of the manager or in
    [deferred_frees] of the scheduler, and nowhere twice. *)

From S2P Require Import Prelude FreeQueue Request Hashing Session BlockPool PoolSpecs PoolTheorems Heapq RequestQueue SchedUtils EncoderCache EncoderSched.
From S2P Require Import SingleType SingleSpecs SingleTheorems Uncached CacheSpecs CacheHit Coordinator CoordLookup CoordInit CoordSpecs CoordAlloc CoordRelease CoordCache.
From S2P Require Import Manager Handover Pools Slots PrefixModel Prefill Lifecycle Scheduler ScheduleStep SchedOutput SchedFrame SchedManager SchedTheorems SchedOwner.

(** ** The manager with a log *)

(** Each entry is the manager before the call, and the call; [None]: the lookup for a connector
    with divergent hits, which is outside of the protocol. *)
Record Logged := mkLogged {
  lg_manager : KVCacheManager;
  lg_calls : list (KVCacheManager * option manager_call)
}.

Definition logged {A} (call : option manager_call) (op : M KVCacheManager A) : M Logged A := λ k,
  match op (lg_manager k) with
  | Ok (a, k') => Ok (a, mkLogged k' (lg_calls k ++ [(lg_manager k, call)]))
  | Raise e => Raise e
  end.
(** Reads, and the release of blocks that were handed over. *)
Definition unlogged {A} (op : M KVCacheManager A) : M Logged A := λ k,
  match op (lg_manager k) with
  | Ok (a, k') => Ok (a, mkLogged k' (lg_calls k))
  | Raise e => Raise e
  end.

Section logged.
Context `{SetIter}.
Variable use_int : bool.
Variable sha256 : list (list Z) → bytes.
Variable has_mamba_layers : bool.
#[local] Instance ops : KVManager KVCacheManager := KVCacheManager_ops use_int sha256 has_mamba_layers.

Definition logged_ops : KVManager Logged := {|
  kv_get_computed_blocks r := logged (Some (CLookup r)) (kv_get_computed_blocks r);
  kv_get_computed_blocks_for_connector r := logged None (kv_get_computed_blocks_for_connector r);
  kv_truncate_computed_blocks blocks n := unlogged (kv_truncate_computed_blocks blocks n);
  kv_allocate_slots r new computed blocks lookahead external delay enc fit reserved scheduled :=
    logged (Some (CAllocate r new computed blocks lookahead external delay enc fit reserved scheduled))
      (kv_allocate_slots r new computed blocks lookahead external delay enc fit reserved scheduled);
  kv_cache_blocks r n := logged (Some (CCache r n)) (kv_cache_blocks r n);
  kv_record_prefix_cache_stats r n := logged (Some (CRecordStats r n)) (kv_record_prefix_cache_stats r n);
  kv_get_blocks k := kv_get_blocks (lg_manager k);
  kv_get_block_ids k := kv_get_block_ids (lg_manager k);
  kv_get_block_ids_for_computed_tokens k := kv_get_block_ids_for_computed_tokens (lg_manager k);
  kv_num_blocks_to_allocate k := kv_num_blocks_to_allocate (lg_manager k);
  kv_remove_skipped_blocks rid n prompt := logged (Some (CRemoveSkipped rid n prompt)) (kv_remove_skipped_blocks rid n prompt);
  kv_free r := logged (Some (CFree r)) (kv_free r);
  kv_pop_blocks_for_free r := logged (Some (CPop r)) (kv_pop_blocks_for_free r);
  kv_pool_free_blocks blocks := unlogged (kv_pool_free_blocks blocks);
  kv_take_block_copies := logged (Some CCopies) kv_take_block_copies;
  kv_take_new_block_ids := logged (Some CNewIds) kv_take_new_block_ids;
  kv_get_zeroing_block_ids_in_range rid a b := logged (Some (CZeroing rid a b)) (kv_get_zeroing_block_ids_in_range rid a b);
  kv_record_blocks_for_zeroing rid a := logged (Some (CRecordZeroing rid a)) (kv_record_blocks_for_zeroing rid a);
  kv_get_num_common_prefix_blocks rid := logged (Some (CCommon rid)) (kv_get_num_common_prefix_blocks rid);
  kv_evict_blocks ids := logged (Some (CEvict ids)) (kv_evict_blocks ids);
  kv_take_events := logged (Some CEvents) kv_take_events;
  kv_reset_prefix_cache := logged (Some CReset) kv_reset_prefix_cache
|}.

(** Every call of the log was made in a state that allows it. *)
Definition calls_ok (k : Logged) : Prop := ∀ k1 call, (k1, call) ∈ lg_calls k →
  match call with Some c => manager_call_ok sha256 k1 c | None => False end.

(** ** What the manager promises *)

Variables (k0 : KVCacheManager) (L0 : nat → list nat).
Hypothesis start_wf : coord_wf (λ _ _, 0) (coordinator k0) L0.
Hypothesis start_model : mgr_enable_caching k0 = true → lookup_model (coordinator k0) (mgr_pcp_world_size k0).
Hypothesis start_pins : _partial_tail_pins k0 = ∅.

Definition log_own (k : Logged) (out : list block_ref) : Prop := calls_ok k → manager_inv k0 (lg_manager k) out.

Lemma inv_perm k out out' : out ≡ₚ out' → manager_inv k0 k out → manager_inv k0 k out'.
Proof.
  intros Hp [[L Hwf] Hr Hm Hrest Hst]. split; [|by intros i b; rewrite <-Hp; apply Hr|done|done|done].
  exists L. eapply coord_wf_same; [| |exact Hwf]; [|done]. intros i j _. unfold with_outside, occ, len. by rewrite Hp.
Qed.

(** A call of the protocol. *)
Lemma logged_call {A} call (op : M KVCacheManager A) (handed : A → list block_ref) k out :
  (∀ k a k', op k = Ok (a, k') → run_manager use_int sha256 call k = Ok (handed a, k')) →
  log_own k out → wlp (logged (Some call) op) (λ a k', log_own k' (out ++ handed a)) k.
Proof.
  intros Hcall Hown a k'. unfold logged. destruct (op (lg_manager k)) as [[b k1]|] eqn:Hop; [|done]. intros [= <- <-] Hok.
  assert (manager_inv k0 (lg_manager k) out) as Hi by (apply Hown; intros k2 c Hin; apply Hok; simpl; set_solver).
  assert (manager_call_ok sha256 (lg_manager k) call) as Hc by (apply (Hok (lg_manager k) (Some call)); simpl; set_solver).
  pose proof (run_manager_ok use_int sha256 k0 L0 start_wf start_model start_pins _ _ call Hi Hc) as Hwp.
  unfold wp in Hwp. by rewrite (Hcall _ _ _ Hop) in Hwp.
Qed.
Lemma logged_none {A} call (op : M KVCacheManager A) :
  (∀ k a k', op k = Ok (a, k') → run_manager use_int sha256 call k = Ok ([], k')) → OwnsNone log_own (logged (Some call) op).
Proof.
  intros Hcall k out Hown. eapply wlp_mono; [by apply (logged_call call op (λ _, []))|]. intros a k' Hk. cbv beta in Hk. by rewrite app_nil_r in Hk.
Qed.

Lemma bind_none {A B} (m : M KVCacheManager A) (f : A → M KVCacheManager B) k b k' :
  (∀ a k1 b k2, f a k1 = Ok (b, k2) → k2 = k1) → (m ≫= f) k = Ok (b, k') → (_ ← m; mret ([] : list block_ref)) k = Ok ([], k').
Proof.
  intros Hf. unfold mbind, M_bind. destruct (m k) as [[a k1]|]; [|done]. intros Hb. by rewrite (Hf _ _ _ _ Hb).
Qed.
Lemma call_none {A} (m : M KVCacheManager A) k a k' : m k = Ok (a, k') → (_ ← m; mret ([] : list block_ref)) k = Ok ([], k').
Proof. unfold mbind, M_bind. by intros ->. Qed.

(** No copies, no blocks that they hold. *)
Lemma copies_ends k copies ends k' : take_kv_cache_block_copies k = Ok (copies, ends, k') → copies = [] → ends = [].
Proof.
  unfold take_kv_cache_block_copies, on_coordinator, mbind, M_bind, gets. simpl.
  destruct (for_acc _ _ _ _) as [[l c]|]; [|done]. by intros [= <- <- _] ->.
Qed.

#[local] Instance logged_manager : KVManager Logged := logged_ops.
Lemma logged_owns : KVOwns Logged log_own.
Proof.
  split; try (intros; apply logged_none; intros k a k' Hop; eapply call_none, Hop);
    try (intros; apply logged_none; intros k a k'; apply bind_none; intros x j b j'; destruct_and?; intros Hx;
         repeat (destruct x as [x ?]); by injection Hx).
  - intros k out out' Hp Hown Hok. by eapply inv_perm, Hown.
  - intros r k out Hown a k'. unfold kv_get_computed_blocks_for_connector, logged_manager, logged_ops, logged.
    destruct (kv_get_computed_blocks_for_connector _ _) as [[? ?]|]; [|done]. intros [= _ <-] Hok.
    destruct (Hok (lg_manager k) None). simpl. set_solver.
  - intros bs n k out Hown a k'. cbn. unfold unlogged, mbind, M_bind, gets, lift_res. cbn.
    destruct (truncate_computed_blocks _ _ _); [|done]. intros [= _ <-]. by destruct k.
  - intros r k out Hown. by apply (logged_call (CPop r) _ (λ bs, bs)).
  - intros k out Hown [copies ends] k' Hrun. split.
    + refine (logged_call CCopies _ snd k out _ Hown _ _ Hrun). intros j [c e] j' Hop. cbn. unfold mbind, M_bind.
      change (take_kv_cache_block_copies j = Ok (c, e, j')) in Hop. by rewrite Hop.
    + cbn in Hrun. unfold logged in Hrun. destruct (take_kv_cache_block_copies (lg_manager k)) as [[[c e] j]|] eqn:Hop; [|done].
      injection Hrun as <- <- _. by eapply copies_ends.
  - intros bs rest k Hown [] k'. cbn. unfold unlogged. destruct (on_coordinator _ _) as [[[] j]|] eqn:Hop; [|done]. intros [= <-] Hok.
    pose proof (release_keeps k0 _ _ bs rest (Hown Hok) (reflexivity _)) as Hwp. unfold wp in Hwp. rewrite Hop in Hwp. apply Hwp.
Qed.
End logged.

(** ** The scheduler on a new manager *)

Section engine.
Context {E N X : Type}.
Context `{!EncoderManager E} `{!KVConnector N} `{!ECConnector X} `{!SetIter}.
Variable use_int : bool.
Variable sha256 : list (list Z) → bytes.
Variable has_mamba_layers : bool.
#[local] Instance engine_ops : KVManager Logged := logged_ops use_int sha256 has_mamba_layers.
Variable kv_cfg : KVCacheConfig.
Variables (max_model_len sched hash : Z) (in_flight : option Z) (caching eagle : bool) (lookahead : Z).
Variables (log events : bool) (dcp pcp : Z) (mc : option (list MetricsCall)) (watermark : Z).
Variable metadata : list (string * option Z).
Variable k0 : KVCacheManager.
Hypothesis new_ok : new_KVCacheManager kv_cfg max_model_len sched hash in_flight caching eagle lookahead log events dcp pcp mc
  watermark metadata = Ok k0.
Hypothesis groups_ok : ∀ g, g ∈ config_groups kv_cfg → class_ok (spec_class (kv_cache_spec g)) ∧
  0 < spec_block_size (kv_cache_spec g) * dcp_world_size_for_kv_cache_spec (kv_cache_spec g) dcp.
Hypothesis model_ok : caching = true → lookup_model (coordinator k0) pcp.

Lemma new_manager_idle : ∃ L, coord_wf (λ _ _, 0) (coordinator k0) L ∧ CoordAlloc.idle (coordinator k0).
Proof using new_ok groups_ok.
  clear model_ok. unfold new_KVCacheManager in new_ok. apply res_bind_inv in new_ok as (c & Hc & [= <-]). simpl.
  destruct (constructed_coord_wf _ _ _ _ _ _ _ _ _ _ _ _ _ Hc groups_ok) as [Hwf Hid]. eauto.
Qed.

Variable cfg : SchedulerConfig.
Variable hasher : option block_hasher.
Variable should_advance : Request → option (list Z) → bool.
Variable accept_tokens : Request → list Z → bool.
Variable validate_tokens : Request → list Z → list Z.

(** C4: the scheduler and the KV cache manager together lose no block and use none twice.  Run the
    scheduler from its construction on a new manager with any calls.  As long as its calls on the
    manager keep the manager's protocol, the cache is consistent with the scheduler as an owner:
    the reference count of every block is the number of its places in the tables plus the number
    of its entries in [deferred_frees], the free lists hold exactly the blocks without a
    reference; and any part of [deferred_frees] can be given back. *)
Theorem scheduler_owns_blocks inc enc conn ec (s : Scheduler Logged E N X) :
  rtc (sched_step cfg hasher should_advance accept_tokens validate_tokens) (new_Scheduler inc (mkLogged k0 []) enc conn ec) s →
  calls_ok sha256 (kv_cache_manager s) →
  (∃ L, coord_wf (with_outside (λ _ _, 0) (deferred_blocks s)) (coordinator (lg_manager (kv_cache_manager s))) L) ∧
  (∀ bs rest, deferred_blocks s ≡ₚ bs ++ rest →
     ∃ k', on_coordinator (pools_free_blocks bs) (lg_manager (kv_cache_manager s)) = Ok (tt, k')).
Proof.
  intros Hrun Hok. destruct (new_manager_inv kv_cfg max_model_len sched hash in_flight caching eagle lookahead log events dcp pcp mc
    watermark metadata k0 new_ok groups_ok model_ok) as (L0 & Hwf0 & Hpins & Hst & Hca & Hpcp & _).
  assert (mgr_enable_caching k0 = true → lookup_model (coordinator k0) (mgr_pcp_world_size k0)) as Hmodel
    by (rewrite Hca, Hpcp; done).
  pose proof (logged_owns use_int sha256 has_mamba_layers k0 L0 Hwf0 Hmodel Hpins) as Howns.
  assert (owned (own := log_own sha256 k0) s) as Hs.
  { eapply steps_owned; [exact Hrun|]. intros _. by eapply start_inv. }
  specialize (Hs Hok). split; [apply Hs|]. intros bs rest Hp.
  pose proof (release_keeps k0 _ _ bs rest Hs Hp) as ([] & k' & ? & _)%wp_run. eauto.
Qed.
End engine.

(** ** A run

    Without prefix caching: a request arrives, is scheduled, and is aborted while its step runs;
    its blocks wait in [deferred_frees]. *)

Abbreviation plain_new :=
  (new_KVCacheManager engine_kv_config 32 4 4 None false false 0 false false 1 1 None 0 []).
Definition plain_kv : KVCacheManager := match plain_new with Ok k => k | Raise _ => engine_kv end.
Lemma plain_kv_new : plain_new = Ok plain_kv.
Proof. vm_compute. reflexivity. Qed.

#[local] Instance plain_ops : KVManager Logged := logged_ops false (λ _, []) false.
Abbreviation LoggedEngine := (Scheduler Logged EncoderCacheManager Empty_set Empty_set).
Definition deferring_config : SchedulerConfig := drafting_config FCFS 8 0 None true.
Definition plain_start : LoggedEngine := new_Scheduler false (mkLogged plain_kv []) (new_EncoderCacheManager 8) None None.
Definition plain_added : LoggedEngine := next (sched_add_request deferring_config engine_hasher prompt_b) plain_start.
Definition plain_running : LoggedEngine := next (schedule deferring_config false) plain_added.
Definition plain_aborted : LoggedEngine := next (finish_requests deferring_config AllIds FINISHED_ABORTED) plain_running.

(** The calls of the run other than the allocation. *)
Definition plainly_ok (x : KVCacheManager * option manager_call) : bool :=
  match x.2 with
  | Some (CLookup r) => (1 <=? num_tokens r) && negb (prefix_cache_lookup_enabled x.1 r)
  | Some (CPop _ | CRecordStats _ _ | CCommon _ | CCopies | CNewIds) => true
  | _ => false
  end.
Lemma plainly_ok_call k call : plainly_ok (k, call) = true →
  match call with Some c => manager_call_ok (λ _, []) k c | None => False end.
Proof.
  unfold plainly_ok. simpl. destruct call as [[]|]; try done. intros [Hn%Z.leb_le Hl%negb_true_iff]%andb_prop.
  split; [done|]. by rewrite Hl.
Qed.

(** The allocation for the first eight tokens, on the new manager. *)
Definition plain_request : Request := objects plain_added !!! 1.
Definition plain_allocate : manager_call := CAllocate plain_request 8 0 (Some EmptyBlocks) 0 0 false 0 false 0 false.

Lemma plain_groups_ok g : g ∈ config_groups engine_kv_config → class_ok (spec_class (kv_cache_spec g)) ∧
  0 < spec_block_size (kv_cache_spec g) * dcp_world_size_for_kv_cache_spec (kv_cache_spec g) 1.
Proof. revert g. apply Forall_forall. repeat constructor; vm_compute; done. Qed.

Lemma first_allocate_ok ext k L r n : coord_wf ext (coordinator k) L → CoordAlloc.idle (coordinator k) →
  block_pools (coordinator k) ≠ [] → num_computed_tokens r = 0 → 1 ≤ n ≤ max_model_len k → 0 ≤ watermark_blocks k →
  0 ≤ num_prompt_tokens r → mgr_enable_caching k = false →
  manager_call_ok (λ _, []) k (CAllocate r n 0 (Some EmptyBlocks) 0 0 false 0 false 0 false).
Proof.
  intros Hwf Hid Hp Hn Hmax Hw Hprompt Hc. split; [lia|]. split; [lia|].
  split; [lia|left; lia|lia| |lia|done|done|done| |by rewrite Hc].
  - rewrite Hn, !Z.add_0_l. lia.
  - unfold slots_request. rewrite decide_False by (intros [Hf|Hf]; [by apply Hf|lia]).
    intros i m Hm. rewrite Hn. exact (idle_continuing _ _ L (request_id r) i m Hwf Hid Hm).
Qed.

Lemma plain_allocate_ok : manager_call_ok (λ _, []) plain_kv plain_allocate.
Proof.
  destruct (new_manager_idle _ _ _ _ _ _ _ _ _ _ _ _ _ _ _ _ plain_kv_new plain_groups_ok) as (L & Hwf & Hid).
  apply (first_allocate_ok _ _ L _ _ Hwf Hid); vm_compute; done.
Qed.

Lemma calls_split log pre k call post : lg_calls log = pre ++ (k, Some call) :: post →
  manager_call_ok (λ _, []) k call → forallb plainly_ok (pre ++ post) = true → calls_ok (λ _, []) log.
Proof.
  intros Hlog Hcall Hok k' call'. rewrite Hlog. rewrite forallb_forall in Hok.
  intros [Hin|[[= -> ->]|Hin]%elem_of_cons]%elem_of_app; [|done|];
    apply plainly_ok_call, Hok, list_elem_of_In, elem_of_app; auto.
Qed.

Lemma plain_calls_ok : calls_ok (λ _, []) (kv_cache_manager plain_aborted).
Proof.
  apply (calls_split _ (take 1 (lg_calls (kv_cache_manager plain_aborted))) plain_kv plain_allocate
    (drop 2 (lg_calls (kv_cache_manager plain_aborted)))); [|exact plain_allocate_ok|]; vm_compute; reflexivity.
Qed.

Lemma plain_run : rtc (sched_step deferring_config engine_hasher (λ _ _, false) (λ _ _, true) (λ _ l, l))
  plain_start plain_aborted.
Proof.
  destruct (next_ok (λ _ _, true) (sched_add_request deferring_config engine_hasher prompt_b) plain_start)
    as ([] & H1 & _); [by vm_compute|].
  destruct (next_ok (λ _ _, true) (schedule deferring_config false) plain_added) as (out & H2 & _); [by vm_compute|].
  destruct (next_ok (λ _ _, true) (finish_requests deferring_config AllIds FINISHED_ABORTED) plain_running)
    as (l & H3 & _); [by vm_compute|].
  eapply rtc_l; [eapply step_add, H1; by apply new_request_test; vm_compute|].
  eapply rtc_l; [eapply step_schedule, H2; by apply requests_test; vm_compute|]. apply rtc_once. eapply step_finish, H3.
Qed.

Lemma scheduler_owns_blocks_witness :
  deferred_blocks plain_aborted = [(0, 1); (0, 2)]%nat ∧
  ∃ L, coord_wf (with_outside (λ _ _, 0) (deferred_blocks plain_aborted)) (coordinator (lg_manager (kv_cache_manager plain_aborted))) L.
Proof.
  split; [by vm_compute|].
  refine (proj1 (scheduler_owns_blocks false (λ _, []) false _ _ _ _ _ _ _ _ _ _ _ _ _ _ _ plain_kv plain_kv_new
    plain_groups_ok _ deferring_config engine_hasher (λ _ _, false) (λ _ _, true) (λ _ l, l) false
    (new_EncoderCacheManager 8) None None plain_aborted plain_run plain_calls_ok)).
  intros Hf. discriminate Hf.
Defined.
